(* ===== verification/_CoqProject ===== *)
-Q . S2P
Prelude.v
Target.v
CodeStandard.v
Version.v
PackageText.v
FsPath.v
Package.v
Graph.v
Cycles.v
Lock.v
Manifest.v
Sha256.v
Resolver.v
Diagnostics.v
Token.v
Utf8.v
Lexer.v
Types.v
Fsm.v
Ast.v
AstGraph.v
ParserState.v
ParserTypes.v
ParserExpressions.v
ParserStatements.v
ParserDeclarations.v
ParserMachines.v
ParserProgram.v
ParserSpec.v
ParserSafety.v
ParserProofs.v
StatementProofs.v
DeclarationProofs.v
MachineProofs.v
ProgramProofs.v
ProgramTheorems.v
LexerErrors.v
Formatter.v
FormatterProofs.v
FormatterTheorems.v
Imports.v
SemaTypes.v
SemaModel.v
SemaDeclare.v
TypeCycles.v
SemaSource.v
TypeLayout.v
TypeCycleProofs.v
TypeCycleExact.v
SemaTheorems.v
Recursion.v
ParserTheorems.v
ProjectAppend.v
ProjectLink.v
ProjectFiles.v
ProjectLinkProofs.v
ProjectCycles.v
ProjectProofs.v
ProjectLoad.v
ProjectTheorems.v
Queue.v
Tasks.v
Channel.v
RuntimeInvariant.v
RuntimeProofs.v
ChannelProofs.v
ChannelCalls.v
ChannelPolls.v
ChannelSelects.v
ChannelEndpoints.v
RuntimeTimer.v
RuntimeScheduler.v
RuntimeCalls.v
RuntimeTheorems.v
ParseFloat.v
ParseFloatProofs.v
ParseDuration.v
Arithmetic.v
CoreText.v
Bulkhead.v
