(* ===== verification/Prelude.v ===== *)
(** * Foundation Lang compiler: a verification library

    A shallow embedding of parts of the Foundation Lang stage-0 compiler (C++20,
    compiler/src and compiler/include/foundation) and of its C runtime (runtime/src) with
    the theorems that make these parts correct.  Definitions keep the names of the source and its structure; each
    file names the source it models in its opening comment.

    ** The program

    A project is a directory of source files, with or without a package manifest.
    The package code reads the manifest (package.cpp), selects one candidate per
    dependency (package_resolver.cpp) and writes the selection to a lock that is
    checked whenever it is read (package.cpp); contents are identified by SHA-256
    (sha256.cpp).  Every source file goes through the lexer (lexer.cpp) and the parser
    (parser.cpp), which build one syntax tree per file (ast.hpp); project.cpp resolves
    the names that cross packages, rejects import cycles and appends the trees to one
    program.  Semantic analysis (sema.cpp) resolves the declarations, checks the types of
    values for recursion and analyses the bodies; lowering and code generation follow.
    The formatter (formatter.cpp) rewrites one file and checks its own output with the
    lexer and the parser; organizing imports (imports.cpp) does the same with the import
    lines of one file, for the names that the analysis found undefined.  Every phase
    reports into one bounded log of diagnostics (diagnostic.cpp).

    A compiled program runs on the C runtime: tasks polled by one executor per thread
    (task.c) that wait for each other and for channels (channel.c), alone or in selects
    with a deadline, and that wake each other across threads; bulkheads limit how many
    operations run at once (resiliency.c).  Arithmetic, strings and the reading of numbers
    are calls of the same runtime (core.c, parse.c).

    ** The files, and what they model

    Shared: Prelude.v has the checked reads, the bytes, the machine-width integers, the
    list and option lemmas and the tactics of the development.

    Packages.
    - Target.v (target.cpp): platforms, selectors and which selector is active where.
    - CodeStandard.v (code_standard.cpp): profiles and severities of the manifest.
    - Version.v (package.cpp, [parsePackageVersion] to [PackageRequirement::accepts]):
      versions, their precedence and the requirements over them; [size_t] wraps.
    - PackageText.v (package.cpp, [tokenize], [quote]): the line format.
    - FsPath.v: the lexical operations of [std::filesystem::path] the code uses.
    - Package.v (package.hpp, helpers of package.cpp): the data of packages.
    - Manifest.v, Lock.v (package.cpp): the directives of manifest and lock as steps
      over a draft record, the checks behind them, and the renderers.
    - Graph.v, Cycles.v: the graph algorithms of lock validation (work list, in-degree
      counting) and of the resolver (three-colour traversal), on finite graphs.
    - Resolver.v (package_resolver.cpp): the backtracking solver and the lock built
      from its selection.
    - Sha256.v (sha256.cpp): the streaming hash over 32-bit words.

    Source files.
    - Diagnostics.v (diagnostic.cpp): the bounded log and the excerpts.
    - Token.v, Utf8.v, Lexer.v (token.hpp, lexer.cpp): [Lexer::scan] as a state monad
      over the position counters.
    - Ast.v, AstGraph.v (ast.hpp): the tree, with indices as references, the references
      of a node and the ways the parser adds nodes.
    - ParserState.v to ParserProgram.v (parser.cpp): all of class [Parser], as a state
      monad over its mutable members; ParserTypes.v types, ParserExpressions.v and
      ParserStatements.v expressions, statements and blocks, ParserDeclarations.v and
      ParserMachines.v declarations, state machines and workflows, ParserProgram.v files.
    - ParserSpec.v to ProgramProofs.v: the Hoare-style rule [runs] and one specification
      per parser function; ParserTheorems.v and ProgramTheorems.v state the theorems.
    - Formatter.v (formatter.cpp, [formatSource]): the writer and the check of its output;
      LexerErrors.v what a text without lexical errors has between its tokens,
      FormatterProofs.v and FormatterTheorems.v what the writer keeps.
    - Imports.v (imports.cpp, [organizeImports]).

    Projects.
    - ProjectAppend.v (project.cpp, [appendProgram]): shifting the nodes of a file.
    - ProjectLink.v, ProjectFiles.v (project.cpp, [linkType] to [linkFile]): the symbol
      table and the pass that resolves names across packages, as a state monad over the
      program and the log; ProjectLinkProofs.v and ProjectProofs.v its specifications.
    - ProjectCycles.v (project.cpp, [rejectCycles]): the iterative traversal of the
      import graph and its correctness.
    - ProjectLoad.v (project.cpp, the end of [loadProject]): from texts to one program;
      ProjectTheorems.v states the theorems about projects.

    Checked programs.
    - Types.v (type.hpp, type.cpp) and Fsm.v (fsm.cpp): types, and the export of state
      machine diagrams over the records of fir.hpp it reads.
    - SemaTypes.v (sema.cpp, before [class Analyzer]): keys of types, the C ABI, ranges of
      literals, conversions of numbers.
    - SemaModel.v (sema.cpp, sema.hpp): what [Analyzer] knows of declarations,
      substitution, and the predicates that follow fields, with a depth.
    - SemaDeclare.v (sema.cpp, the first phases of [Analyzer::run]): names of types, types
      written in declarations, inherited methods; SemaSource.v runs it on texts.
    - TypeCycles.v (sema.cpp, [rejectTypeCycles]): the traversal; TypeLayout.v the values a
      type contains, TypeCycleProofs.v and TypeCycleExact.v what the traversal accepts,
      SemaTheorems.v where it and other phases go wrong.
    - Recursion.v (sema.cpp, [rejectPolymorphicRecursion]; codegen.cpp, the arguments of an
      instance's calls): calls of generic functions, and the instances they lead to.

    The runtime.
    - Queue.v (channel.c, [fdn_channel_wait_push] to [fdn_channel_wait_remove]): the
      intrusive wait queues on a store of successors, and the lists they stand for.
    - Tasks.v (task.c, task_internal.h): the state that tasks, executors, channels and
      selects share, calls as a state monad that can panic, and the calls of task.c, with
      the mailbox, the external source and the hub that a thread opens with its first task
      and closes with its last.
    - Channel.v (channel.c): every call on channels and selects.
    - RuntimeInvariant.v: where each task is and what fields, queues, mailboxes and
      registrations say about it; what a thread has while tasks live on it; that nobody
      waits for what is there.
    - RuntimeProofs.v, ChannelProofs.v to ChannelEndpoints.v, RuntimeTimer.v,
      RuntimeScheduler.v: one specification per call, over the rule [runs].
    - RuntimeCalls.v: the calls a program may make and the worlds they reach, with the
      threads in any order; RuntimeTheorems.v states the theorems.
    - Bulkhead.v (resiliency.c): permits and waiting operations behind one registry.
    - ParseFloat.v (parse.c, up to [foundation_runtime_parse_f64]): floats in text;
      ParseFloatProofs.v the codes of floats in their order, and what is read.
    - ParseDuration.v (parse.c): durations in text.
    - Arithmetic.v (core.c, the macros of the checked operations): integers of any width.
    - CoreText.v (core.c, [fdn_utf8_valid], [fdn_string], the string builder).

    ** What the theorems show

    - Resolver: a selection satisfies every requirement (resolver_sound), one is found
      when there is one (resolver_complete), the search ends (resolver_terminates), and
      the lock of a selection passes the validation (resolver_lock_valid), which is
      equivalent to its specification: closed, acyclic, everything reachable
      (validateLockGraph_exact).
    - Text formats: printing a manifest, a lock, a version or a token and reading it
      back gives the same value; every accepted manifest satisfies its invariant.
    - Lexer: the tokens are the source text in order, with exact positions
      (scan_reads_source); string literals and UTF-8 validity are exact.
    - Parser: for every source text, lexing and parsing end without an access outside a
      vector, look-ahead included, and build a program without dangling or circular
      references (source_parsed); depth counters are restored; a declaration for another target
      leaves no trace; state machine metadata is resolved exactly.
    - Projects: every list of texts is loaded to one well-formed program
      (project_loaded); an accepted project has no import cycle, resolves its imports and
      has at most one main function (project_accepted); import cycles are reported exactly;
      appending shifts every reference, those of declarations and attributes included
      (append_keeps_references); linked types name declared types.
    - Declarations: when the check for recursive value types accepts a program, every
      declared type has finite size (accepted_types_sized); without type arguments in
      fields the check ends and is exact (cycle_check_exact); for a type of finite size
      [requiresDrop] ends and is exact (requiresDrop_exact); calls of generic functions
      are refused exactly when they are polymorphic recursion
      (polymorphic_recursion_exact), and behind a check without errors only finitely many
      instances are called (instances_finite); numeric conversions taken as safe are those that lose
      nothing on any target (conversion_exact).
    - Formatter: it reads tokens and flags within their vectors, and an accepted output has
      the tokens of its input (format_preserves_tokens),
      and a written text is its input up to white space, and line breaks in comments
      (format_keeps_text).  Organizing imports changes the import lines and the blanks
      around them only: they become the sorted imports of the aliases that are used, each
      with the rest of its line, and of the packages that undefined names ask for
      (organize_exact).
    - Runtime: in every world that permitted calls reach, a permitted call neither panics
      nor uses an object that was freed, and threads keep their mailboxes exactly as long as
      they have tasks (runtime_safe), no task waits for what is there
      (no_lost_wakeup) and every task is at one place where something can wake it
      (no_task_lost); sends, receives and selects do exactly what a queue of values does
      (send_exact, receive_exact, select_exact).  In every world that calls on bulkheads
      reach, permits and queues keep their bounds and go round in order (bulkhead_exact).
    - Values of the runtime: a hexadecimal float in a text is read as the closest 32-bit
      and 64-bit float, ties to even (hexadecimal_nearest); durations are exact within
      their range (duration_text_exact); an operation on integers has the exact result or
      panics (checked_arithmetic_exact); slices and string builders keep code points whole
      (string_slice_exact, builder_refines), with the UTF-8 of the lexer
      (fdn_utf8_valid_lexer).
    - Hash: feeding data in pieces is hashing their concatenation by the padded
      definition of FIPS 180-4.
    - Errors: where the code does not do what it means to, a theorem states what it
      does: the check for recursive types that does not end (cycle_check_circles) or
      refuses a finite type (finite_type_refused), the substitution that does not end
      (callback_substitution_endless), contracts resolved too early
      (contract_parameter_early), the mailbox read behind its lock (wake_notify_race), line breaks the formatter adds
      (lone_carriage_changes_program), code in the line of an import that goes with it
      (code_in_import_line_dropped), and others with their component.

    ** Fuel and bounds

    Loops and recursions that are not structural run on fuel, and [None] is the result
    when it runs out; every fuel is shown to be enough.  The lexer's is the length of
    the text: every token but the last consumes a byte.  The parser's is the number of
    tokens: every entry point is called behind a token the caller has passed, and the
    depth counters of the source bound the rest.  The resolver's is the number of
    candidates: a call selects one more package.  Graph loops use the number of nodes
    or edges.  Linking runs as deep as the program has nodes: a node has a smaller rank than
    those that refer to it.  The import traversal makes one round per edge and per
    package.
    [std::size_t] is [N] with its wrap-around at 2^64 written out where a value of the
    input can reach it; indices into vectors are [nat].  In the parser, its look-ahead, the
    formatter and the linker [None] is also an access outside a vector.
    In semantic analysis the functions that follow the fields of types take a depth, which
    bounds how deep their calls nest, and the check for recursive types a number of turns:
    their recursion need not end, as theorems show.  What is proved of an answer holds for
    every depth, and for types of finite size some depth is enough.  The search for
    polymorphic recursion follows each call once.
    In the runtime the walks through a wait queue and of a cancellation visit no task
    twice, so the number of tasks is enough.  The buffer of a string builder doubles at
    most 64 times; validating UTF-8 and reading a duration pass a byte per turn.

    ** Not modelled

    - Reading files, directories, processes and the network (the file half of project.cpp,
      package_cache.cpp, package_source.cpp, package_registry.cpp, package_catalog.cpp,
      package_lock.cpp, process.cpp, sdk.cpp): operating-system calls.  Contents and
      candidate lists are arguments of the modelled functions.
    - [std::from_chars] on floating-point literals, [inspectForeignSource] and, in the
      runtime, [strtof_l] and [strtod_l] are parameters.
    - In the runtime a call is one step: the sections of a call outside the locks use
      objects of the calling thread only, and [fdn_channel_drop_receiver], which does
      not, is also modelled section by section.  [fdn_task_wake] reads the mailbox's source
      behind the lock; [wake_push] and [wake_notify] are its two halves, and wake_notify_race
      shows what may come between.  Locks and allocations do not fail.  Lists of registrations, messages,
      selects, queued tasks and remote wakes are lists; only the wait queues are modelled
      as pointers.  The select timer's sleep, transferred
      tasks, blocking waits, supervisors, the delays between retries, contexts, frames,
      traces and the allocator of core.c and the other files of the runtime are not
      modelled; a string is its bytes, whoever owns them.  A program keeps to [permitted]: it uses endpoints and handles that it
      owns, and a parked task makes no call.
    - Of semantic analysis, what comes after the declarations: applied attributes, the
      signatures of functions, the verification of implementations, the analysis of bodies
      with types of expressions, ownership and loans, and the check for void
      applications; the calls that the check for polymorphic recursion reads are given.
      These functions share one analyser state of fifty members and are the greater part
      of its 7,800 lines.
    - The application model (application.cpp), lowering (lower.cpp), the code generators,
      lint.cpp, documentation.cpp, metadata.cpp and the language server: they
      read the results of the analysis of bodies, or write text for other tools.
    - The self-hosted compiler and the standard library are written in the language
      itself. *)

From Stdlib Require Export Ascii NArith.
From Stdlib Require Import String.
From stdpp Require Export prelude fin_maps gmap strings list sorting.

(** ** Checked reads

    A read outside a vector is undefined, [None]; conditions that read are computed in the
    order of the source, the second part of [&&] and [||] only when the first does not
    decide. *)
Definition and_then (a b : option bool) : option bool :=
  match a with Some true => b | a => a end.
Definition or_else (a b : option bool) : option bool :=
  match a with Some false => b | a => a end.
Infix "&&?" := and_then (at level 40, left associativity).
Infix "||?" := or_else (at level 50, left associativity).

(** An element of a vector, behind its test. *)
Definition element_is {A} (test : A → bool) (l : list A) (index : nat) : option bool := test <$> l !! index.

(** The computation has a result, and the result is in [Q]. *)
Definition yields {A} (m : option A) (Q : A → Prop) : Prop := ∃ a, m = Some a ∧ Q a.

Lemma yields_ret {A} (a : A) (Q : A → Prop) : Q a → yields (Some a) Q.
Proof. by exists a. Qed.
Lemma yields_mono {A} m (Q R : A → Prop) : yields m Q → (∀ a, Q a → R a) → yields m R.
Proof. intros (a & -> & H) HQ. exists a. auto. Qed.
Lemma yields_bind {A B} (m : option A) (k : A → option B) Q : yields m (λ a, yields (k a) Q) → yields (m ≫= k) Q.
Proof. by intros (a & -> & b & H & HQ); exists b. Qed.
Lemma yields_fmap {A B} (f : A → B) (m : option A) (Q : B → Prop) : yields m (λ a, Q (f a)) → yields (f <$> m) Q.
Proof. intros (a & -> & H). by exists (f a). Qed.
Lemma yields_lookup {A} (l : list A) i (Q : A → Prop) : i < length l → (∀ a, l !! i = Some a → Q a) → yields (l !! i) Q.
Proof. intros [a Ha]%lookup_lt_is_Some HQ. exists a. auto. Qed.

(** A condition that reads in range; when it holds, so does [P]. *)
Definition tests (c : option bool) (P : Prop) : Prop := yields c (λ b, b = true → P).

Lemma tests_decide (P : Prop) `{Decision P} : tests (Some (bool_decide P)) P.
Proof. apply yields_ret. by rewrite bool_decide_eq_true. Qed.
Lemma tests_some (b : bool) : tests (Some b) (b = true).
Proof. by apply yields_ret. Qed.
Lemma tests_element {A} test (l : list A) i : i < length l → tests (element_is test l i) True.
Proof. intros Hi. apply yields_fmap, yields_lookup; auto. Qed.
Lemma tests_negb c P : tests c P → tests (negb <$> c) True.
Proof. intros (b & -> & H). by exists (negb b). Qed.
Lemma tests_and a b P Q : tests a P → (P → tests b Q) → tests (a &&? b) (P ∧ Q).
Proof.
  intros ([] & -> & HP) Hb; [|by exists false]. destruct (Hb (HP eq_refl)) as (b' & Eb & HQ). exists b'. split; [done|]. auto.
Qed.
Lemma tests_or a b P Q : tests a P → tests b Q → tests (a ||? b) (P ∨ Q).
Proof.
  intros ([] & -> & HP) Hb; [exists true; auto|]. destruct Hb as (b' & Eb & HQ). exists b'. split; [done|]. auto.
Qed.
Lemma tests_weaken c (P Q : Prop) : tests c P → (P → Q) → tests c Q.
Proof. intros (b & -> & HP) HQ. exists b. auto. Qed.
Lemma yields_test {A} c P (k : bool → option A) Q :
  tests c P → (P → yields (k true) Q) → yields (k false) Q → yields (c ≫= k) Q.
Proof. intros ([] & -> & HP) Ht Hf; [by apply Ht, HP|done]. Qed.
Lemma yields_if {A} (c : bool) (m1 m2 : option A) Q :
  (c = true → yields m1 Q) → (c = false → yields m2 Q) → yields (if c then m1 else m2) Q.
Proof. destruct c; auto. Qed.

(** ** Byte strings

    [std::string] and [std::string_view] are lists of bytes.  A literal of the
    source is written [lit "..."]. *)
Abbreviation bytes := (list ascii).

Definition lit (s : string) : bytes := list_ascii_of_string s.

Definition byte_val (c : ascii) : N := N_of_ascii c.

#[global] Instance byte_val_inj : Inj (=) (=) byte_val.
Proof.
  intros a b H. unfold byte_val in H.
  by rewrite <- (ascii_N_embedding a), <- (ascii_N_embedding b), H.
Qed.

Lemma byte_val_bound c : (byte_val c < 256)%N.
Proof. apply N_ascii_bounded. Qed.

(** The bytes the source writes as escapes. *)
Definition newline : ascii := "010"%char.
Definition carriage : ascii := "013"%char.
Definition tab : ascii := "009"%char.
Definition dquote : ascii := "034"%char.
Definition backslash : ascii := "092"%char.
Definition nul : ascii := "000"%char.
Definition space : ascii := " "%char.

(** ** The [<cctype>] predicates in the "C" locale *)
Section cctype.
Open Scope N_scope.
Definition between (lo hi : N) (c : ascii) : bool :=
  (lo <=? byte_val c) && (byte_val c <=? hi).
Definition isdigit (c : ascii) : bool := between 48 57 c.
Definition isupper (c : ascii) : bool := between 65 90 c.
Definition islower (c : ascii) : bool := between 97 122 c.
Definition isalpha (c : ascii) : bool := isupper c || islower c.
Definition isalnum (c : ascii) : bool := isalpha c || isdigit c.
Definition isspace (c : ascii) : bool := between 9 13 c || (byte_val c =? 32).
End cctype.

(** Boolean conditions of the source read as propositions: [to_prop] in the
    hypotheses and the goal. *)
Lemma forallb_Forall {A} (f : A → bool) l : forallb f l = true ↔ Forall (λ x, f x = true) l.
Proof. rewrite forallb_forall, Forall_forall. by setoid_rewrite list_elem_of_In. Qed.
Lemma existsb_Exists {A} (f : A → bool) l : existsb f l = true ↔ Exists (λ x, f x = true) l.
Proof. rewrite existsb_exists, Exists_exists. by setoid_rewrite list_elem_of_In. Qed.
Lemma bool_decide_eq_true' P `{Decision P} : bool_decide P = true ↔ P.
Proof. by rewrite bool_decide_eq_true. Qed.
Lemma bool_decide_eq_false' P `{Decision P} : bool_decide P = false ↔ ¬ P.
Proof. by rewrite bool_decide_eq_false. Qed.

Create HintDb bools.
#[export] Hint Rewrite andb_true_iff orb_true_iff negb_true_iff andb_false_iff orb_false_iff
  negb_false_iff @bool_decide_eq_true' @bool_decide_eq_false' @forallb_Forall @existsb_Exists
  N.ltb_lt N.leb_le N.ltb_ge N.leb_gt N.eqb_eq N.eqb_neq Nat.ltb_lt Nat.leb_le Nat.ltb_ge
  Nat.leb_gt Nat.eqb_eq Nat.eqb_neq : bools.
Ltac to_prop := autorewrite with bools in *.

(** Case analysis over the 256 bytes, for goals that compute. *)
Ltac byte_cases c :=
  destruct c as [[] [] [] [] [] [] [] []]; vm_compute; try done; try congruence.

Lemma isdigit_not_space c : isdigit c = true → isspace c = false.
Proof. byte_cases c. Qed.
Lemma isalnum_not_space c : isalnum c = true → isspace c = false.
Proof. byte_cases c. Qed.
Lemma isdigit_isalnum c : isdigit c = true → isalnum c = true.
Proof. unfold isalnum. intros ->. apply orb_true_r. Qed.
Lemma isalpha_isalnum c : isalpha c = true → isalnum c = true.
Proof. unfold isalnum. by intros ->. Qed.

(** ** Three-way comparison

    The interface between the sorted containers of the source ([std::sort],
    [std::set], [std::tie] comparisons) and the data they order. *)
Class Compare (A : Type) := cmp : A → A → comparison.
#[global] Hint Mode Compare ! : typeclass_instances.

Class CompareLaws (A : Type) `{Compare A} := {
  cmp_eq_iff : ∀ x y : A, cmp x y = Eq ↔ x = y;
  cmp_opp : ∀ x y : A, cmp y x = CompOpp (cmp x y);
  cmp_lt_trans : ∀ x y z : A, cmp x y = Lt → cmp y z = Lt → cmp x z = Lt;
}.
#[global] Hint Mode CompareLaws ! - : typeclass_instances.

(** [std::tie(a, ...) <=> std::tie(b, ...)]: the first field that differs. *)
Definition lex (c d : comparison) : comparison := match c with Eq => d | _ => c end.

Definition cmp_ltb `{Compare A} (x y : A) : bool :=
  match cmp x y with Lt => true | _ => false end.

Section compare_laws.
Context `{CompareLaws A}.
Implicit Types x y z : A.

Lemma cmp_refl x : cmp x x = Eq.
Proof. by apply cmp_eq_iff. Qed.
Lemma cmp_gt_lt x y : cmp x y = Gt ↔ cmp y x = Lt.
Proof. rewrite (cmp_opp x y). by destruct (cmp x y). Qed.
Lemma cmp_ltb_true x y : cmp_ltb x y = true ↔ cmp x y = Lt.
Proof. unfold cmp_ltb. by destruct (cmp x y). Qed.
Lemma cmp_ltb_irrefl x : cmp_ltb x x = false.
Proof. unfold cmp_ltb. by rewrite cmp_refl. Qed.
Lemma cmp_ltb_asym x y : cmp_ltb x y = true → cmp_ltb y x = false.
Proof. unfold cmp_ltb. rewrite (cmp_opp x y). by destruct (cmp x y). Qed.
Lemma cmp_ltb_trans x y z :
  cmp_ltb x y = true → cmp_ltb y z = true → cmp_ltb x z = true.
Proof. rewrite !cmp_ltb_true. apply cmp_lt_trans. Qed.
(** Incomparability is equality, so [not greater] is transitive too. *)
Lemma cmp_ge_trans x y z :
  cmp_ltb y x = false → cmp_ltb z y = false → cmp_ltb z x = false.
Proof.
  unfold cmp_ltb. intros H1 H2. rewrite (cmp_opp x z).
  rewrite (cmp_opp x y) in H1. rewrite (cmp_opp y z) in H2.
  destruct (cmp x y) eqn:E1; simplify_eq/=; destruct (cmp y z) eqn:E2; simplify_eq/=.
  - apply cmp_eq_iff in E1, E2. subst. by rewrite cmp_refl.
  - apply cmp_eq_iff in E1. subst. by rewrite E2.
  - apply cmp_eq_iff in E2. subst. by rewrite E1.
  - by rewrite (cmp_lt_trans _ _ _ E1 E2).
Qed.
End compare_laws.

Lemma lex_eq c d : lex c d = Eq ↔ c = Eq ∧ d = Eq.
Proof. destruct c, d; naive_solver. Qed.
Lemma lex_opp c d : CompOpp (lex c d) = lex (CompOpp c) (CompOpp d).
Proof. by destruct c. Qed.
Lemma lex_lt c d : lex c d = Lt ↔ c = Lt ∨ c = Eq ∧ d = Lt.
Proof. destruct c; naive_solver. Qed.

#[export] Hint Resolve cmp_refl cmp_ltb_irrefl : core.

#[global] Instance N_compare : Compare N := N.compare.
#[global] Instance N_compare_laws : CompareLaws N.
Proof.
  split; unfold cmp, N_compare.
  - apply N.compare_eq_iff.
  - intros x y. apply N.compare_antisym.
  - intros x y z. rewrite !N.compare_lt_iff. lia.
Qed.

#[global] Instance nat_compare : Compare nat := Nat.compare.
#[global] Instance nat_compare_laws : CompareLaws nat.
Proof.
  split; unfold cmp, nat_compare.
  - apply Nat.compare_eq_iff.
  - intros x y. apply Nat.compare_antisym.
  - intros x y z. rewrite !Nat.compare_lt_iff. lia.
Qed.

(** Comparison through an injective key: enumerations by declaration order,
    structures by the tuple of their fields. *)
Definition cmp_on `{Compare B} {A} (f : A → B) : Compare A := λ x y, cmp (f x) (f y).

Lemma cmp_on_laws `{CompareLaws B} {A} (f : A → B) :
  Inj (=) (=) f → @CompareLaws A (cmp_on f).
Proof.
  intros Hf. split; unfold cmp, cmp_on; intros.
  - rewrite cmp_eq_iff. split; [apply Hf | congruence].
  - apply cmp_opp.
  - by eapply cmp_lt_trans.
Qed.

(** [char_traits<char>] compares bytes as [unsigned char]. *)
#[global] Instance ascii_compare : Compare ascii := cmp_on byte_val.
#[global] Instance ascii_compare_laws : CompareLaws ascii := cmp_on_laws byte_val _.

#[global] Instance bool_compare : Compare bool := cmp_on Nat.b2n.
#[global] Instance bool_compare_laws : CompareLaws bool.
Proof. apply cmp_on_laws. by intros [] []. Qed.

(** [std::optional]: an empty value is less than every other. *)
#[global] Instance option_compare `{Compare A} : Compare (option A) := λ x y,
  match x, y with
  | None, None => Eq | None, Some _ => Lt | Some _, None => Gt
  | Some x, Some y => cmp x y
  end.
#[global] Instance option_compare_laws `{CompareLaws A} : CompareLaws (option A).
Proof.
  split; unfold cmp, option_compare.
  - intros [x|] [y|]; try done. rewrite cmp_eq_iff. naive_solver.
  - intros [x|] [y|]; try done. apply cmp_opp.
  - intros [x|] [y|] [z|]; try done. apply cmp_lt_trans.
Qed.

#[global] Instance prod_compare `{Compare A, Compare B} : Compare (A * B) := λ x y,
  lex (cmp x.1 y.1) (cmp x.2 y.2).
Lemma pair_cmp `{Compare A, Compare B} (a a' : A) (b b' : B) :
  cmp (a, b) (a', b') = lex (cmp a a') (cmp b b').
Proof. done. Qed.
#[global] Instance prod_compare_laws `{CompareLaws A, CompareLaws B} : CompareLaws (A * B).
Proof.
  split; unfold cmp, prod_compare.
  - intros [a b] [a' b']. rewrite lex_eq, !cmp_eq_iff. naive_solver.
  - intros [a b] [a' b']. by rewrite lex_opp, (cmp_opp a), (cmp_opp b).
  - intros [a b] [a' b'] [a'' b'']. rewrite !lex_lt, !cmp_eq_iff; simpl.
    intros [?|[-> ?]] [?|[-> ?]]; eauto using cmp_lt_trans.
Qed.

(** [std::string] and [std::vector]: lexicographic, a strict prefix first. *)
Fixpoint list_cmp `{Compare A} (x y : list A) : comparison :=
  match x, y with
  | [], [] => Eq | [], _ :: _ => Lt | _ :: _, [] => Gt
  | a :: x, b :: y => lex (cmp a b) (list_cmp x y)
  end.
#[global] Instance list_compare `{Compare A} : Compare (list A) := list_cmp.
Lemma list_cmp_cons `{Compare A} (a b : A) x y :
  cmp (a :: x) (b :: y) = lex (cmp a b) (cmp x y).
Proof. done. Qed.
#[global] Instance list_compare_laws `{CompareLaws A} : CompareLaws (list A).
Proof.
  split; unfold cmp, list_compare.
  - intros x. induction x as [|a x IH]; intros [|b y]; simpl; try done.
    rewrite lex_eq, cmp_eq_iff, IH. naive_solver.
  - intros x. induction x as [|a x IH]; intros [|b y]; simpl; try done.
    by rewrite lex_opp, <- IH, (cmp_opp a).
  - intros x. induction x as [|a x IH]; intros [|b y] [|c z]; simpl; try done.
    rewrite !lex_lt, !cmp_eq_iff.
    intros [?|[-> ?]] [?|[-> ?]]; eauto using cmp_lt_trans.
Qed.

#[global] Instance sum_compare `{Compare A, Compare B} : Compare (A + B) := λ x y,
  match x, y with
  | inl x, inl y => cmp x y | inl _, inr _ => Lt
  | inr x, inr y => cmp x y | inr _, inl _ => Gt
  end.
#[global] Instance sum_compare_laws `{CompareLaws A, CompareLaws B} : CompareLaws (A + B).
Proof.
  split; unfold cmp, sum_compare.
  - intros [x|x] [y|y]; try done; rewrite cmp_eq_iff; naive_solver.
  - intros [x|x] [y|y]; try done; apply cmp_opp.
  - intros [x|x] [y|y] [z|z]; try done; apply cmp_lt_trans.
Qed.

(** [a > b] in a comparator: the reversed order. *)
Record Desc (A : Type) := desc { asc : A }.
Arguments desc {A}.
Arguments asc {A}.
#[global] Instance desc_compare `{Compare A} : Compare (Desc A) := λ x y, cmp (asc y) (asc x).
#[global] Instance desc_compare_laws `{CompareLaws A} : CompareLaws (Desc A).
Proof.
  split; unfold cmp, desc_compare.
  - intros [x] [y]. cbn. rewrite cmp_eq_iff. naive_solver.
  - intros [x] [y]. cbn. by rewrite (cmp_opp y x).
  - intros [x] [y] [z]. cbn. intros H1 H2. by eapply cmp_lt_trans.
Qed.

(** ** [std::sort]

    An insertion sort by a key.  [std::sort] leaves the order of equivalent
    elements open; wherever the source sorts, either the keys are distinct or
    the theorems hold for every such order. *)
Section sort_by.
Context `{CompareLaws K} {A : Type} (key : A → K).

Fixpoint insert_by (x : A) (l : list A) : list A :=
  match l with
  | [] => [x]
  | y :: l' => if cmp_ltb (key y) (key x) then y :: insert_by x l' else x :: l
  end.
Fixpoint sort_by (l : list A) : list A :=
  match l with [] => [] | x :: l => insert_by x (sort_by l) end.

Definition not_after (x y : A) : Prop := cmp_ltb (key y) (key x) = false.
Definition SortedBy : list A → Prop := StronglySorted not_after.

Lemma insert_by_perm x l : insert_by x l ≡ₚ x :: l.
Proof.
  induction l as [|y l IH]; simpl; [done|].
  destruct (cmp_ltb (key y) (key x)); [|done]. rewrite IH. constructor.
Qed.
Lemma sort_by_perm l : sort_by l ≡ₚ l.
Proof. induction l as [|x l IH]; simpl; [done|]. by rewrite insert_by_perm, IH. Qed.
Lemma elem_of_sort_by x l : x ∈ sort_by l ↔ x ∈ l.
Proof. by rewrite sort_by_perm. Qed.

Lemma insert_by_sorted x l : SortedBy l → SortedBy (insert_by x l).
Proof.
  induction 1 as [|y l Hl IH Hy]; simpl; [repeat constructor|].
  destruct (cmp_ltb (key y) (key x)) eqn:E.
  - constructor; [done|]. rewrite insert_by_perm. constructor; [|done].
    by apply cmp_ltb_asym.
  - repeat constructor; try done. eapply Forall_impl; [exact Hy|].
    intros z Hz. by eapply cmp_ge_trans.
Qed.
Lemma sort_by_sorted l : SortedBy (sort_by l).
Proof. induction l; simpl; [constructor | by apply insert_by_sorted]. Qed.

Lemma sort_by_sorted_id l : SortedBy l → sort_by l = l.
Proof.
  induction 1 as [|y l Hl IH Hy]; simpl; [done|]. rewrite IH.
  destruct l as [|z l]; simpl; [done|].
  apply Forall_cons_1 in Hy as [Hz _]. unfold not_after in Hz. by rewrite Hz.
Qed.
Lemma sort_by_idem l : sort_by (sort_by l) = sort_by l.
Proof. apply sort_by_sorted_id, sort_by_sorted. Qed.
End sort_by.
#[export] Hint Resolve sort_by_sorted : core.

(** ** Lists *)

Lemma list_filter_ext_in {A} (P Q : A → Prop) `{∀ x, Decision (P x), ∀ x, Decision (Q x)} (l : list A) :
  (∀ x, x ∈ l → P x ↔ Q x) → filter P l = filter Q l.
Proof.
  induction l as [|x l IH]; intros Hl; [done|]. rewrite !filter_cons, IH by set_solver.
  specialize (Hl x ltac:(set_solver)). destruct (decide (P x)), (decide (Q x)); tauto.
Qed.

Lemma list_filter_all {A} (P : A → Prop) `{∀ x, Decision (P x)} (l : list A) :
  (∀ x, x ∈ l → P x) → filter P l = l.
Proof.
  induction l as [|x l IH]; intros Hl; [done|]. rewrite filter_cons, decide_True by set_solver.
  rewrite IH by set_solver. done.
Qed.

(** A vector grown by [push_back] behind a duplicate search: no two elements are
    in conflict. *)
Section separate.
Context {A : Type} (conflict : A → A → bool) (Hsym : ∀ x y, conflict x y = conflict y x).

Fixpoint separate (xs : list A) : Prop :=
  match xs with
  | [] => True
  | x :: xs => Forall (λ y, conflict x y = false) xs ∧ separate xs
  end.

Lemma separate_snoc xs x :
  separate (xs ++ [x]) ↔ separate xs ∧ Forall (λ y, conflict y x = false) xs.
Proof.
  clear Hsym. induction xs as [|y xs IH]; simpl; [split; [by repeat constructor|done]|].
  rewrite IH, Forall_app, Forall_singleton, Forall_cons. tauto.
Qed.
Lemma separate_app xs ys :
  separate (xs ++ ys) ↔
  separate xs ∧ separate ys ∧ Forall (λ x, Forall (λ y, conflict x y = false) ys) xs.
Proof.
  clear Hsym. induction xs as [|x xs IH]; simpl; [split; [by repeat constructor|tauto]|].
  rewrite IH, Forall_app, Forall_cons. tauto.
Qed.
(** The search [find_if(begin, end, conflict with x) == end]. *)
Lemma separate_search xs x :
  separate xs → existsb (λ y, conflict y x) xs = false ↔ separate (xs ++ [x]).
Proof.
  clear Hsym. intros Hxs. rewrite separate_snoc, <- not_true_iff_false, existsb_Exists.
  rewrite <- Forall_Exists_neg. split.
  - intros H. split; [done|]. eapply Forall_impl; [exact H|]. intros ? ?%not_true_iff_false. done.
  - intros [_ H]. eapply Forall_impl; [exact H|]. intros ? ? ?. congruence.
Qed.
Lemma separate_perm xs ys : xs ≡ₚ ys → separate xs → separate ys.
Proof.
  induction 1 as [|x xs ys Hp IH|x y xs|]; simpl; try tauto.
  - intros [Hf Hs]. split; [by rewrite <- Hp|auto].
  - rewrite !Forall_cons. rewrite (Hsym y x). tauto.
Qed.
End separate.

Lemma foldl_snoc_ind {A B} (f : B → A → B) (P : B → list A → Prop) b l :
  P b [] → (∀ b' l' x, P b' l' → P (f b' x) (l' ++ [x])) → P (foldl f b l) l.
Proof.
  intros H0 Hs. induction l as [|x l IH] using rev_ind; [done|].
  rewrite foldl_snoc. by apply Hs.
Qed.

(** ** Searching and splitting a [std::string_view] *)

(** [find]: the index of the first occurrence, [None] for [npos]. *)
Fixpoint find_byte (c : ascii) (l : bytes) : option nat :=
  match l with
  | [] => None
  | x :: l => if decide (x = c) then Some 0 else S <$> find_byte c l
  end.

(** [rfind]: the index of the last occurrence. *)
Fixpoint rfind_byte (c : ascii) (l : bytes) : option nat :=
  match l with
  | [] => None
  | x :: l =>
      match rfind_byte c l with
      | Some i => Some (S i)
      | None => if bool_decide (x = c) then Some 0 else None
      end
  end.

(** [starts_with]. *)
Fixpoint starts_with (p l : bytes) : bool :=
  match p, l with
  | [], _ => true
  | _ :: _, [] => false
  | x :: p, y :: l => bool_decide (x = y) && starts_with p l
  end.

(** The pieces that a [find]-and-[substr] loop over a separator visits: a text
    with [n] separators has [n + 1] pieces, some of them possibly empty. *)
Fixpoint split_on (c : ascii) (l : bytes) : list bytes :=
  match l with
  | [] => [[]]
  | x :: l =>
      if decide (x = c) then [] :: split_on c l
      else match split_on c l with [] => [[x]] | p :: ps => (x :: p) :: ps end
  end.

(** The pieces put back together with the separator between them. *)
Fixpoint join_with (sep : bytes) (ps : list bytes) : bytes :=
  match ps with
  | [] => []
  | [p] => p
  | p :: ps => p ++ sep ++ join_with sep ps
  end.

Lemma split_on_nonempty c l : split_on c l ≠ [].
Proof. destruct l as [|x l]; simpl; [done|]. case_decide; [done|]. by destruct split_on. Qed.

Lemma join_split c l : join_with [c] (split_on c l) = l.
Proof.
  induction l as [|x l IH]; simpl; [done|].
  pose proof (split_on_nonempty c l). case_decide; subst.
  - destruct (split_on c l) eqn:E; [done|]. by rewrite <- IH.
  - destruct (split_on c l) as [|p [|q ps]]; simpl in *; [done|..]; by rewrite <- IH.
Qed.

Lemma split_on_app c p l : c ∉ p → split_on c (p ++ c :: l) = p :: split_on c l.
Proof.
  induction p as [|x p IH]; simpl; intros Hp; [by rewrite decide_True|].
  apply not_elem_of_cons in Hp as [??]. by rewrite decide_False, IH by done.
Qed.
Lemma split_on_none c p : c ∉ p → split_on c p = [p].
Proof.
  induction p as [|x p IH]; simpl; intros Hp; [done|].
  apply not_elem_of_cons in Hp as [??]. by rewrite decide_False, IH by done.
Qed.
Lemma split_on_pieces c l : Forall (λ p, c ∉ p) (split_on c l).
Proof.
  induction l as [|x l IH]; simpl; [repeat constructor; set_solver|].
  case_decide; [constructor; set_solver|].
  destruct (split_on c l) as [|p ps]; [repeat constructor; set_solver|].
  apply Forall_cons in IH as [? ?]. constructor; [set_solver|done].
Qed.
Lemma split_join c ps :
  ps ≠ [] → Forall (λ p, c ∉ p) ps → split_on c (join_with [c] ps) = ps.
Proof.
  intros Hne H. induction H as [|p ps Hp Hps IH]; [done|].
  destruct ps as [|q ps]; simpl; [by apply split_on_none|].
  rewrite split_on_app by done. f_equal. by apply IH.
Qed.

Lemma find_byte_None c l : find_byte c l = None ↔ c ∉ l.
Proof.
  induction l as [|x l IH]; simpl; [set_solver|].
  case_decide; subst; [set_solver|].
  rewrite fmap_None, IH, not_elem_of_cons. naive_solver.
Qed.
Lemma find_byte_app c p l : c ∉ p → find_byte c (p ++ c :: l) = Some (length p).
Proof.
  induction p as [|x p IH]; simpl; intros Hp; [by rewrite decide_True|].
  apply not_elem_of_cons in Hp as [??]. by rewrite decide_False, IH by done.
Qed.
Lemma find_byte_skip c p l : c ∉ p → find_byte c (p ++ l) = Nat.add (length p) <$> find_byte c l.
Proof.
  induction p as [|x p IH]; simpl; intros Hp; [by destruct (find_byte c l)|].
  apply not_elem_of_cons in Hp as [??]. rewrite decide_False, IH by done.
  by destruct (find_byte c l).
Qed.
Lemma find_byte_past c p x l :
  c ∉ p → x ≠ c → find_byte c (p ++ x :: l) = (λ n, S (length p + n)) <$> find_byte c l.
Proof.
  intros Hp Hx. rewrite find_byte_skip by done. simpl. rewrite decide_False by done.
  destruct (find_byte c l); simpl; [f_equal; lia|done].
Qed.
Lemma drop_past {A} (p : list A) x l : drop (S (length p)) (p ++ x :: l) = l.
Proof. induction p; [by simpl; rewrite drop_0|done]. Qed.
Lemma find_byte_Some c l n :
  find_byte c l = Some n → ∃ p r, l = p ++ c :: r ∧ c ∉ p ∧ length p = n.
Proof.
  revert n. induction l as [|x l IH]; intros n; simpl; [done|].
  case_decide; subst; intros Hn; [exists [], l; simplify_eq; set_solver|].
  apply fmap_Some in Hn as (m & (p & r & -> & ? & <-)%IH & ->).
  exists (x :: p), r. rewrite not_elem_of_cons. done.
Qed.
Lemma starts_with_app p l : starts_with p (p ++ l) = true.
Proof. induction p; simpl; [done|]. by rewrite bool_decide_true. Qed.
Lemma starts_with_prefix p l : starts_with p l = true → ∃ r, l = p ++ r.
Proof.
  revert l. induction p as [|x p IH]; intros [|y l]; simpl; try done; eauto.
  intros [->%bool_decide_eq_true (r & ->)%IH]%andb_prop. by exists r.
Qed.

Lemma elem_of_join_with sep ps c :
  c ∈ join_with sep ps → c ∈ sep ∨ ∃ p, p ∈ ps ∧ c ∈ p.
Proof.
  induction ps as [|p ps IH]; simpl; [set_solver|].
  destruct ps as [|q ps]; [set_solver|]. rewrite !elem_of_app. intros [?|[?|H]]; [set_solver..|].
  destruct (IH H) as [?|(r & ? & ?)]; [by left|right; exists r; set_solver].
Qed.

Lemma elem_of_join_with_2 sep ps p c : p ∈ ps → c ∈ p → c ∈ join_with sep ps.
Proof.
  intros Hp Hc. induction Hp as [p ps|p q ps Hp IH]; simpl.
  - destruct ps; [done|]. by apply elem_of_app; left.
  - destruct ps; [by apply elem_of_nil in Hp|]. rewrite !elem_of_app. auto.
Qed.

(** ** Decimal numbers *)

(** [SIZE_MAX + 1] and [UINT32_MAX] of the 64-bit hosts the compiler is built for. *)
Definition size_modulus : N := 18446744073709551616.
Definition uint32_max : N := 4294967295.

Definition digit_val (c : ascii) : N := byte_val c - 48.
Definition digit_of (n : N) : ascii := ascii_of_N (48 + n).

(** The value [std::from_chars] accumulates over a run of digits. *)
Definition decimal (l : bytes) : N := foldl (λ n c, n * 10 + digit_val c)%N 0%N l.

Fixpoint digits_rev (fuel : nat) (n : N) : bytes :=
  match fuel with
  | O => []
  | S fuel =>
      digit_of (n mod 10) :: (if (n / 10 =? 0)%N then [] else digits_rev fuel (n / 10))
  end.

(** [std::to_string]: a number below [2^k] has at most [k] decimal digits. *)
Definition to_string (n : N) : bytes := rev (digits_rev (S (N.size_nat n)) n).

Lemma decimal_snoc l c : decimal (l ++ [c]) = (decimal l * 10 + digit_val c)%N.
Proof. unfold decimal. by rewrite foldl_app. Qed.

Lemma digit_val_of n : (n < 10)%N → digit_val (digit_of n) = n.
Proof. intros. unfold digit_val, digit_of, byte_val. rewrite N_ascii_embedding; lia. Qed.
Lemma isdigit_of n : (n < 10)%N → isdigit (digit_of n) = true.
Proof.
  intros. unfold isdigit, between, digit_of, byte_val. rewrite N_ascii_embedding by lia.
  apply andb_true_intro. rewrite !N.leb_le. lia.
Qed.
Lemma digit_of_val c : isdigit c = true → digit_of (digit_val c) = c.
Proof. byte_cases c. Qed.
Lemma digit_val_bound c : isdigit c = true → (digit_val c < 10)%N.
Proof. byte_cases c. Qed.

Lemma size_nat_lt n : (n < 2 ^ N.of_nat (N.size_nat n))%N.
Proof.
  destruct n as [|p]; [done|]. simpl. induction p as [p IH|p IH|]; simpl Pos.size_nat.
  1,2: rewrite Nat2N.inj_succ, N.pow_succ_r'; lia.
  done.
Qed.

(** Enough fuel: every digit is produced, and none is a leading zero. *)
Lemma digits_rev_spec fuel n :
  (n < 2 ^ N.of_nat fuel)%N → fuel ≠ 0 →
  decimal (rev (digits_rev fuel n)) = n ∧ Forall (λ c, isdigit c = true) (digits_rev fuel n) ∧
  digits_rev fuel n ≠ [] ∧ (n ≠ 0%N → last (digits_rev fuel n) ≠ Some "0"%char).
Proof.
  revert n. induction fuel as [|fuel IH]; intros n Hn Hf; [done|]. simpl.
  pose proof (N.mod_lt n 10 ltac:(done)) as Hm. rewrite decimal_snoc, digit_val_of by done.
  destruct (N.eqb_spec (n / 10) 0) as [E|E]; simpl.
  - pose proof (N.div_mod' n 10). rewrite E in *. assert (n mod 10 = n)%N as -> by lia.
    split; [done|]. repeat split; [repeat constructor; by apply isdigit_of; lia|done|].
    intros Hz [= H1]. apply (f_equal digit_val) in H1. rewrite digit_val_of in H1 by lia.
    by apply Hz.
  - rewrite Nat2N.inj_succ, N.pow_succ_r' in Hn.
    assert (Hlt : (n / 10 < 2 ^ N.of_nat fuel)%N) by (apply N.Div0.div_lt_upper_bound; lia).
    destruct (IH (n / 10)%N) as (H1 & H2 & H3 & H4); 
      [done|intros ->; apply E; change (2 ^ N.of_nat 0)%N with 1%N in Hlt; by apply N.lt_1_r|].
    rewrite H1. pose proof (N.div_mod' n 10). repeat split; [lia| |done|].
    + constructor; [by apply isdigit_of|done].
    + intros _. rewrite last_cons. destruct (last _) eqn:El; [by apply H4|].
      by apply last_None in El.
Qed.

Lemma to_string_spec n :
  decimal (to_string n) = n ∧ Forall (λ c, isdigit c = true) (to_string n) ∧
  to_string n ≠ [] ∧ (n ≠ 0%N → head (to_string n) ≠ Some "0"%char).
Proof.
  unfold to_string. destruct (digits_rev_spec (S (N.size_nat n)) n) as (H1 & H2 & H3 & H4);
    [|done|].
  { rewrite Nat2N.inj_succ, N.pow_succ_r'. pose proof (size_nat_lt n). lia. }
  rewrite rev_alt in *. fold (reverse (digits_rev (S (N.size_nat n)) n)) in *. rewrite Forall_reverse, head_reverse.
  repeat split; try done. intros E. apply H3. by rewrite <- (reverse_involutive (digits_rev _ _)), E.
Qed.

(** Digit lists of one length are ordered by their value. *)
Lemma decimal_inj_length k l1 l2 :
  Forall (λ c, isdigit c = true) l1 → Forall (λ c, isdigit c = true) l2 →
  length l1 = k → length l2 = k → decimal l1 = decimal l2 → l1 = l2.
Proof.
  revert l1 l2. induction k as [|k IH]; intros l1 l2 H1 H2 E1 E2 E.
  { by apply nil_length_inv in E1 as ->, E2 as ->. }
  destruct l1 as [|c1 l1 _] using rev_ind; [done|].
  destruct l2 as [|c2 l2 _] using rev_ind; [done|].
  rewrite !decimal_snoc in E. rewrite length_app in E1, E2; simpl in *.
  apply Forall_app in H1 as [H1 Hc1%Forall_inv].
  apply Forall_app in H2 as [H2 Hc2%Forall_inv].
  pose proof (digit_val_bound _ Hc1). pose proof (digit_val_bound _ Hc2).
  assert (digit_val c1 = digit_val c2) as Ev by lia.
  f_equal; [apply IH; try done; lia|].
  by rewrite <- (digit_of_val c1), <- (digit_of_val c2), Ev.
Qed.

Lemma decimal_bound l : Forall (λ c, isdigit c = true) l → (decimal l < 10 ^ N.of_nat (length l))%N.
Proof.
  induction l as [|c l IH] using rev_ind; intros H; [done|].
  apply Forall_app in H as [H Hc%Forall_inv]. apply digit_val_bound in Hc.
  rewrite decimal_snoc, length_app, Nat.add_1_r, Nat2N.inj_succ, N.pow_succ_r'.
  specialize (IH H). lia.
Qed.

Lemma decimal_lower c l :
  Forall (λ c, isdigit c = true) (c :: l) → c ≠ "0"%char →
  (10 ^ N.of_nat (length l) <= decimal (c :: l))%N.
Proof.
  intros H Hc. induction l as [|d l IH] using rev_ind.
  - apply Forall_inv in H. revert H Hc. unfold decimal. simpl. byte_cases c.
  - rewrite app_comm_cons in *. apply Forall_app in H as [H _]. specialize (IH H).
    rewrite decimal_snoc, length_app, Nat.add_1_r, Nat2N.inj_succ, N.pow_succ_r'. lia.
Qed.

Definition canonical_digits (l : bytes) : Prop :=
  Forall (λ c, isdigit c = true) l ∧ l ≠ [] ∧ (1 < length l → head l ≠ Some "0"%char).

Lemma canonical_shorter l1 l2 :
  canonical_digits l1 → canonical_digits l2 → length l1 < length l2 →
  (decimal l1 < decimal l2)%N.
Proof.
  intros (H1 & ? & _) (H2 & ? & Hz) Hl. destruct l2 as [|c l2]; [done|].
  apply decimal_bound in H1.
  assert (c ≠ "0"%char) as Hc. { intros ->. destruct l1; [done|]. apply Hz; simpl in *; [lia|done]. }
  pose proof (decimal_lower _ _ H2 Hc). simpl in Hl.
  assert (10 ^ N.of_nat (length l1) <= 10 ^ N.of_nat (length l2))%N by (apply N.pow_le_mono_r; lia).
  lia.
Qed.

Lemma decimal_inj l1 l2 :
  canonical_digits l1 → canonical_digits l2 → decimal l1 = decimal l2 → l1 = l2.
Proof.
  intros C1 C2 E. destruct (lt_eq_lt_dec (length l1) (length l2)) as [[?|?]|?].
  - pose proof (canonical_shorter _ _ C1 C2 ltac:(done)). lia.
  - by eapply decimal_inj_length; [apply C1|apply C2|done..].
  - pose proof (canonical_shorter _ _ C2 C1 ltac:(done)). lia.
Qed.

Lemma to_string_canonical n : canonical_digits (to_string n).
Proof.
  destruct (to_string_spec n) as (E & ? & ? & Hz). repeat split; try done.
  intros Hl. destruct (decide (n = 0%N)) as [->|]; [by vm_compute in Hl; lia|by apply Hz].
Qed.

Lemma to_string_decimal l : canonical_digits l → to_string (decimal l) = l.
Proof.
  intros. apply decimal_inj; [apply to_string_canonical|done|].
  by destruct (to_string_spec (decimal l)).
Qed.

#[export] Hint Resolve to_string_canonical : core.

(** ** Textual codecs

    What a type with a rendering and a parser promises to the line formats
    built on it: rendering a well-formed value parses back to it, and a text
    that parses is the rendering of a well-formed value.  The manifest and lock
    formats are proved against this interface only. *)
Class Codec (A : Type) := {
  render : A → bytes;
  parse : bytes → option A;
  codec_wf : A → Prop;
}.
#[global] Hint Mode Codec ! : typeclass_instances.

Class CodecLaws (A : Type) `{Codec A} := {
  parse_render : ∀ a : A, codec_wf a → parse (render a) = Some a;
  render_parse : ∀ t (a : A), parse t = Some a → codec_wf a ∧ render a = t;
}.
#[global] Hint Mode CodecLaws ! - : typeclass_instances.

(** A codec never gives two readings of one text, nor one text to two values. *)
Lemma render_inj `{CodecLaws A} (a b : A) :
  codec_wf a → codec_wf b → render a = render b → a = b.
Proof. intros Ha Hb E. apply parse_render in Ha, Hb. congruence. Qed.

(** An enumeration parsed by a chain of literal comparisons: each value is
    rendered and parsed by computation, and each accepted text is a literal. *)
Ltac solve_enum_codec :=
  split; [by intros [] | intros t a; cbn];
  repeat (case_bool_decide; [intros; by simplify_eq|]); done.
