(* ===== verification/Target.v ===== *)
(** * Build targets (compiler/src/target.cpp, compiler/include/foundation/target.hpp)

    The platforms a package is locked for, the selectors a manifest qualifier
    or [@target] attribute names, and which selector activates on which
    platform. *)
From S2P Require Import Prelude.

Inductive TargetPlatform := Unknown | Linux | MacOS | Windows | Freestanding.

Module TargetSelector.
Inductive t := Linux | MacOS | Windows | Freestanding | Hosted.
End TargetSelector.
Abbreviation TargetSelector := TargetSelector.t.

#[global] Instance TargetPlatform_eq_dec : EqDecision TargetPlatform.
Proof. solve_decision. Defined.
#[global] Instance TargetSelector_eq_dec : EqDecision TargetSelector.
Proof. solve_decision. Defined.

(** "The declaration order is the canonical manifest order." *)
Definition selector_index (s : TargetSelector) : nat :=
  match s with
  | TargetSelector.Linux => 0 | TargetSelector.MacOS => 1 | TargetSelector.Windows => 2
  | TargetSelector.Freestanding => 3 | TargetSelector.Hosted => 4
  end.
#[global] Instance selector_compare : Compare TargetSelector := cmp_on selector_index.
#[global] Instance selector_compare_laws : CompareLaws TargetSelector.
Proof. apply cmp_on_laws. by intros [] []. Qed.

Definition parseTargetPlatform (value : bytes) : option TargetPlatform :=
  if bool_decide (value = lit "linux") then Some Linux
  else if bool_decide (value = lit "macos") then Some MacOS
  else if bool_decide (value = lit "windows") then Some Windows
  else if bool_decide (value = lit "freestanding") then Some Freestanding
  else None.

Definition targetPlatformName (target : TargetPlatform) : bytes :=
  match target with
  | Linux => lit "linux" | MacOS => lit "macos" | Windows => lit "windows"
  | Freestanding => lit "freestanding" | Unknown => lit "unknown"
  end.

Definition hostedTargetPlatform (target : TargetPlatform) : bool :=
  bool_decide (target = Linux) || bool_decide (target = MacOS) || bool_decide (target = Windows).

Definition parseTargetSelector (value : bytes) : option TargetSelector :=
  if bool_decide (value = lit "hosted") then Some TargetSelector.Hosted
  else match parseTargetPlatform value with
       | None => None
       | Some Linux => Some TargetSelector.Linux
       | Some MacOS => Some TargetSelector.MacOS
       | Some Windows => Some TargetSelector.Windows
       | Some Freestanding => Some TargetSelector.Freestanding
       | Some Unknown => None
       end.

Definition targetSelectorName (selector : TargetSelector) : bytes :=
  match selector with
  | TargetSelector.Linux => lit "linux" | TargetSelector.MacOS => lit "macos"
  | TargetSelector.Windows => lit "windows"
  | TargetSelector.Freestanding => lit "freestanding" | TargetSelector.Hosted => lit "hosted"
  end.

Definition targetSelected (selector : TargetSelector) (target : TargetPlatform) : bool :=
  match selector with
  | TargetSelector.Linux => bool_decide (target = Linux)
  | TargetSelector.MacOS => bool_decide (target = MacOS)
  | TargetSelector.Windows => bool_decide (target = Windows)
  | TargetSelector.Freestanding => bool_decide (target = Freestanding)
  | TargetSelector.Hosted => hostedTargetPlatform target
  end.

Definition targetSelectorsOverlap (left right : TargetSelector) : bool :=
  existsb (λ target, targetSelected left target && targetSelected right target)
    [Linux; MacOS; Windows; Freestanding].

(** ** The name codecs *)

(** [Unknown] is the one platform whose name does not parse: it is never a lock target. *)
#[global] Instance platform_codec : Codec TargetPlatform := {
  render := targetPlatformName; parse := parseTargetPlatform; codec_wf t := t ≠ Unknown }.
#[global] Instance platform_codec_laws : CodecLaws TargetPlatform.
Proof. unfold platform_codec, parseTargetPlatform. solve_enum_codec. Qed.

#[global] Instance selector_codec : Codec TargetSelector := {
  render := targetSelectorName; parse := parseTargetSelector; codec_wf _ := True }.
#[global] Instance selector_codec_laws : CodecLaws TargetSelector.
Proof. unfold selector_codec, parseTargetSelector, parseTargetPlatform. solve_enum_codec. Qed.

(** ** Theorems *)

(** the overlap test is exact: it holds just when some platform at all is
    selected by both sides, [Unknown] included although the loop skips it. *)
Theorem selectors_overlap_exact (left right : TargetSelector) :
  targetSelectorsOverlap left right = true ↔
  ∃ target, targetSelected left target = true ∧ targetSelected right target = true.
Proof.
  split.
  - unfold targetSelectorsOverlap. rewrite existsb_exists. intros (t & _ & ?%andb_prop). eauto.
  - intros (t & H1 & H2). destruct t, left, right; vm_compute in *; congruence.
Qed.
