(* ===== verification/CodeStandard.v ===== *)
(** * The Foundation Code Standard settings (compiler/src/code_standard.cpp)

    Profiles and rule severities of a package manifest, their names, and the
    codes a manifest may configure. *)
From S2P Require Import Prelude.

Inductive CodeStandardProfile := Valid | Standard | Strict.
Inductive CodeStandardSeverity := Off | Warning | Error.

#[global] Instance profile_eq_dec : EqDecision CodeStandardProfile.
Proof. solve_decision. Defined.
#[global] Instance severity_eq_dec : EqDecision CodeStandardSeverity.
Proof. solve_decision. Defined.

Record CodeStandardRuleSetting := {
  rule_code : bytes;
  rule_severity : CodeStandardSeverity;
}.

Definition parseCodeStandardProfile (value : bytes) : option CodeStandardProfile :=
  if bool_decide (value = lit "valid") then Some Valid
  else if bool_decide (value = lit "standard") then Some Standard
  else if bool_decide (value = lit "strict") then Some Strict
  else None.

Definition parseCodeStandardSeverity (value : bytes) : option CodeStandardSeverity :=
  if bool_decide (value = lit "off") then Some Off
  else if bool_decide (value = lit "warning") then Some Warning
  else if bool_decide (value = lit "error") then Some Error
  else None.

Definition codeStandardProfileName (profile : CodeStandardProfile) : bytes :=
  match profile with
  | Valid => lit "valid" | Standard => lit "standard" | Strict => lit "strict"
  end.

Definition codeStandardSeverityName (severity : CodeStandardSeverity) : bytes :=
  match severity with
  | Off => lit "off" | Warning => lit "warning" | Error => lit "error"
  end.

Definition codeStandardWidth (profile : CodeStandardProfile) : N :=
  match profile with Valid => 0 | Standard => 100 | Strict => 80 end.

Definition configurableCodes : list bytes :=
  [lit "FCS1001"; lit "FCS1002"; lit "FCS2001"; lit "FCS2002"; lit "FCS3001"; lit "FCS4001";
   lit "FCS5001"; lit "FCS6001"; lit "FCS7001"; lit "FCS7002"; lit "FCS7003"; lit "FCS7004"].
Definition configurableCodeStandardRule (code : bytes) : bool :=
  existsb (λ c, bool_decide (code = c)) configurableCodes.

#[global] Instance profile_codec : Codec CodeStandardProfile := {
  render := codeStandardProfileName; parse := parseCodeStandardProfile; codec_wf _ := True }.
#[global] Instance profile_codec_laws : CodecLaws CodeStandardProfile.
Proof. unfold profile_codec, parseCodeStandardProfile. solve_enum_codec. Qed.

#[global] Instance severity_codec : Codec CodeStandardSeverity := {
  render := codeStandardSeverityName; parse := parseCodeStandardSeverity; codec_wf _ := True }.
#[global] Instance severity_codec_laws : CodecLaws CodeStandardSeverity.
Proof. unfold severity_codec, parseCodeStandardSeverity. solve_enum_codec. Qed.

Lemma configurable_elem code :
  configurableCodeStandardRule code = true ↔ code ∈ configurableCodes.
Proof.
  unfold configurableCodeStandardRule. rewrite existsb_exists. split.
  - intros (c & Hc & ->%bool_decide_eq_true). by apply list_elem_of_In.
  - intros Hc%list_elem_of_In. exists code. by rewrite bool_decide_true.
Qed.
