(* ===== verification/Version.v ===== *)
(** * Package versions and requirements (compiler/src/package.cpp)

    Semantic versions, their total order and text form, and the requirements
    ([*], exact, [^], [~]) a dependency states over them. *)
From S2P Require Import Prelude.

Record PackageVersion := mkVersion {
  major : N;
  minor : N;
  patch : N;
  prerelease : list bytes;
  build : list bytes;
}.

#[global] Instance version_eq_dec : EqDecision PackageVersion.
Proof. solve_decision. Defined.

(** [PackageVersion{}]. *)
Definition defaultVersion : PackageVersion := mkVersion 0 0 0 [] [].

Inductive PackageRequirementKind := Any | Exact | Caret | Tilde.
#[global] Instance requirement_kind_eq_dec : EqDecision PackageRequirementKind.
Proof. solve_decision. Defined.

Record PackageRequirement := mkRequirement {
  requirement_kind : PackageRequirementKind;
  requirement_version : PackageVersion;
}.
#[global] Instance requirement_eq_dec : EqDecision PackageRequirement.
Proof. solve_decision. Defined.

(** ** Lexical classes *)

(** The loop of [identifier]: dot-separated segments, each starting with a letter. *)
Fixpoint identifier_loop (segmentStart : bool) (value : bytes) : bool :=
  match value with
  | [] => negb segmentStart
  | byte :: rest =>
      if bool_decide (byte = "."%char) then
        if segmentStart then false else identifier_loop true rest
      else if segmentStart then
        if negb (isalpha byte) then false else identifier_loop false rest
      else if negb (isalnum byte) && bool_decide (byte ≠ "-"%char)
              && bool_decide (byte ≠ "_"%char) then false
      else identifier_loop false rest
  end.
Definition identifier (value : bytes) : bool :=
  match value with [] => false | _ => identifier_loop true value end.

Definition versionIdentifier (value : bytes) : bool :=
  match value with
  | [] => false
  | _ => forallb (λ byte, isalnum byte || bool_decide (byte = "-"%char)) value
  end.

(** [std::from_chars] into a [std::size_t] over the whole text, without a
    leading zero; a value that does not fit is an error. *)
Definition number (text : bytes) : option N :=
  if bool_decide (text = []) || (bool_decide (1 < length text) &&
      bool_decide (head text = Some "0"%char)) then None
  else if negb (forallb isdigit text) then None
  else let result := decimal text in
       if (result <? size_modulus)%N then Some result else None.

Definition identifiers (text : bytes) (rejectLeadingZero : bool) : option (list bytes) :=
  mapM (λ value,
    if negb (versionIdentifier value) ||
       (rejectLeadingZero && bool_decide (1 < length value) && forallb isdigit value &&
        bool_decide (head value = Some "0"%char)) then None
    else Some value) (split_on "." text).

Definition join (values : list bytes) : bytes :=
  foldl (λ result value,
    (if bool_decide (result = []) then result else result ++ lit ".") ++ value) [] values.

(** ** Order *)

Fixpoint comparePrereleaseLoop (left right : list bytes) : comparison :=
  match left, right with
  | l :: left', r :: right' =>
      match number l, number r with
      | Some leftNumber, Some rightNumber =>
          if bool_decide (leftNumber = rightNumber) then comparePrereleaseLoop left' right'
          else if (leftNumber <? rightNumber)%N then Lt else Gt
      | Some _, None => Lt
      | None, Some _ => Gt
      | None, None =>
          if bool_decide (l = r) then comparePrereleaseLoop left' right'
          else if cmp_ltb l r then Lt else Gt
      end
  | _, _ => cmp (length left) (length right)
  end.

Definition comparePrerelease (left right : list bytes) : comparison :=
  match left, right with
  | [], [] => Eq
  | [], _ :: _ => Gt
  | _ :: _, [] => Lt
  | _ :: _, _ :: _ => comparePrereleaseLoop left right
  end.

Definition comparePrecedence (left right : PackageVersion) : comparison :=
  match cmp (major left, (minor left, patch left)) (major right, (minor right, patch right)) with
  | Eq => comparePrerelease (prerelease left) (prerelease right)
  | core => core
  end.

(** [operator<=>]: precedence, then the build metadata. *)
#[global] Instance version_compare : Compare PackageVersion := λ this other,
  match comparePrecedence this other with
  | Eq => cmp (build this) (build other)
  | precedence => precedence
  end.

(** ** Text *)

Definition version_string (v : PackageVersion) : bytes :=
  to_string (major v) ++ lit "." ++ to_string (minor v) ++ lit "." ++ to_string (patch v)
  ++ (if bool_decide (prerelease v = []) then [] else lit "-" ++ join (prerelease v))
  ++ (if bool_decide (build v = []) then [] else lit "+" ++ join (build v)).

(** The [major.minor.patch] part: exactly two dots, three numbers. *)
Definition parseVersionCore (core : bytes) : option (N * N * N) :=
  match find_byte "." core with
  | None => None
  | Some first =>
      let afterFirst := drop (S first) core in
      match find_byte "." afterFirst with
      | None => None
      | Some second =>
          let afterSecond := drop (S second) afterFirst in
          match find_byte "." afterSecond with
          | Some _ => None
          | None =>
              match number (take first core), number (take second afterFirst),
                    number afterSecond with
              | Some major, Some minor, Some patch => Some (major, minor, patch)
              | _, _, _ => None
              end
          end
      end
  end.

Definition parsePackageVersion (text : bytes) : option PackageVersion :=
  let buildOffset := find_byte "+" text in
  let prereleaseOffset := find_byte "-" text in
  let core := match buildOffset, prereleaseOffset with
              | Some b, Some p => take (Nat.min b p) text
              | Some b, None => take b text
              | None, Some p => take p text
              | None, None => text
              end in
  match parseVersionCore core with
  | None => None
  | Some (major, minor, patch) =>
      let parsedPrerelease :=
        match prereleaseOffset with
        | None => Some []
        | Some p =>
            let stop := default (length text) buildOffset in
            if bool_decide (stop < p) then None
            else identifiers (take (stop - p - 1) (drop (S p) text)) true
        end in
      let parsedBuild :=
        match buildOffset with
        | None => Some []
        | Some b => identifiers (drop (S b) text) false
        end in
      match parsedPrerelease, parsedBuild with
      | Some prerelease, Some build => Some (mkVersion major minor patch prerelease build)
      | _, _ => None
      end
  end.

(** ** Requirements *)

(** [++field] on a [std::size_t] wraps. *)
Definition increment (n : N) : N := (n + 1) mod size_modulus.

Definition upperBound (requirement : PackageRequirement) : PackageVersion :=
  let v := requirement_version requirement in
  if bool_decide (requirement_kind requirement = Tilde) then
    mkVersion (major v) (increment (minor v)) 0 [] []
  else if negb (major v =? 0)%N then mkVersion (increment (major v)) 0 0 [] []
  else if negb (minor v =? 0)%N then mkVersion (major v) (increment (minor v)) 0 [] []
  else mkVersion (major v) (minor v) (increment (patch v)) [] [].

Definition accepts (requirement : PackageRequirement) (candidate : PackageVersion) : bool :=
  match requirement_kind requirement with
  | Any => true
  | Exact => bool_decide (candidate = requirement_version requirement)
  | Caret | Tilde =>
      match comparePrecedence candidate (requirement_version requirement) with
      | Lt => false
      | _ => match comparePrecedence candidate (upperBound requirement) with
             | Lt => true
             | _ => false
             end
      end
  end.

Definition requirement_string (r : PackageRequirement) : bytes :=
  match requirement_kind r with
  | Any => lit "*"
  | Exact => version_string (requirement_version r)
  | Caret => lit "^" ++ version_string (requirement_version r)
  | Tilde => lit "~" ++ version_string (requirement_version r)
  end.

Definition parsePackageRequirement (text : bytes) : option PackageRequirement :=
  if bool_decide (text = lit "*") then Some (mkRequirement Any defaultVersion)
  else
    let '(kind, text) :=
      match text with
      | c :: rest =>
          if bool_decide (c = "^"%char) then (Caret, rest)
          else if bool_decide (c = "~"%char) then (Tilde, rest)
          else (Exact, text)
      | [] => (Exact, text)
      end in
    match parsePackageVersion text with
    | None => None
    | Some version => Some (mkRequirement kind version)
    end.

(** ** Numbers *)

Lemma number_Some text n :
  number text = Some n ↔ canonical_digits text ∧ decimal text = n ∧ (n < size_modulus)%N.
Proof.
  unfold number, canonical_digits. destruct (_ || _) eqn:E1; to_prop; [naive_solver|].
  destruct (negb _) eqn:E2; to_prop.
  { split; [done|]. intros ((H & _ & _) & _). apply forallb_Forall in H. congruence. }
  destruct (_ <? _)%N eqn:E3; to_prop; [|naive_solver lia].
  split; [intros [= <-]|naive_solver]. naive_solver.
Qed.

Lemma number_to_string n : (n < size_modulus)%N → number (to_string n) = Some n.
Proof.
  intros. apply number_Some. destruct (to_string_spec n) as [? _]. eauto.
Qed.
Lemma number_string text n : number text = Some n → (n < size_modulus)%N ∧ to_string n = text.
Proof. rewrite number_Some. intros (? & <- & ?). split; [done|]. by apply to_string_decimal. Qed.
Lemma number_inj a b n : number a = Some n → number b = Some n → a = b.
Proof. intros [_ <-]%number_string [_ <-]%number_string. done. Qed.

(** ** The order is total and agrees with equality *)

(** A numeric identifier sorts before every other one. *)
Definition identifier_key (i : bytes) : N + bytes :=
  match number i with Some n => inl n | None => inr i end.

#[global] Instance identifier_key_inj : Inj (=) (=) identifier_key.
Proof.
  intros a b. unfold identifier_key.
  destruct (number a) eqn:Ea, (number b) eqn:Eb; intros; simplify_eq; eauto using number_inj.
Qed.

Definition prerelease_key (p : list bytes) : bool * list (N + bytes) :=
  (bool_decide (p = []), identifier_key <$> p).

Lemma comparePrereleaseLoop_key l r :
  comparePrereleaseLoop l r = cmp (identifier_key <$> l) (identifier_key <$> r).
Proof.
  revert r. induction l as [|a l IH]; intros [|b r]; try done.
  rewrite !fmap_cons. simpl. rewrite list_cmp_cons, <- IH. unfold identifier_key.
  destruct (number a) as [n|] eqn:Ea, (number b) as [m|] eqn:Eb; try done.
  - change (cmp (inl n) (inl m)) with (cmp n m). unfold N.ltb.
    case_bool_decide; subst; [by rewrite cmp_refl|].
    change (n ?= m)%N with (cmp n m).
    destruct (cmp n m) eqn:E; try done. by apply cmp_eq_iff in E.
  - change (cmp (inr a) (inr b)) with (cmp a b). unfold cmp_ltb.
    case_bool_decide; subst; [by rewrite cmp_refl|].
    destruct (cmp a b) eqn:E; try done. by apply cmp_eq_iff in E.
Qed.

Lemma comparePrerelease_key l r :
  comparePrerelease l r = cmp (prerelease_key l) (prerelease_key r).
Proof.
  destruct l as [|a l], r as [|b r]; try done.
  change (comparePrerelease (a :: l) (b :: r)) with (comparePrereleaseLoop (a :: l) (b :: r)).
  by rewrite comparePrereleaseLoop_key.
Qed.

Definition precedence_key (v : PackageVersion) :=
  (major v, (minor v, patch v), prerelease_key (prerelease v)).
Definition version_key (v : PackageVersion) := (precedence_key v, build v).

Lemma comparePrecedence_key l r :
  comparePrecedence l r = cmp (precedence_key l) (precedence_key r).
Proof.
  unfold comparePrecedence. rewrite comparePrerelease_key. unfold precedence_key.
  rewrite (pair_cmp (_, (_, _))). by destruct (cmp (major l, _) _).
Qed.

#[global] Instance version_key_inj : Inj (=) (=) version_key.
Proof.
  intros [] [] H. unfold version_key, precedence_key, prerelease_key in H. by simplify_eq/=.
Qed.

#[global] Instance version_compare_laws : CompareLaws PackageVersion.
Proof.
  assert (∀ l r, cmp l r = cmp (version_key l) (version_key r)) as E.
  { intros l r. unfold cmp at 1, version_compare, version_key.
    rewrite comparePrecedence_key, (pair_cmp (precedence_key _)). by destruct (cmp (precedence_key l) _). }
  destruct (cmp_on_laws version_key _) as [H1 H2 H3].
  split; intros *; rewrite !E; [apply H1|apply H2|apply H3].
Qed.

(** ** Round trips *)

(** What [identifiers] accepts for one component, leading zeros rejected or not. *)
Definition component_wf (rejectLeadingZero : bool) (value : bytes) : Prop :=
  versionIdentifier value = true ∧
  (rejectLeadingZero = true → forallb isdigit value = true → 1 < length value →
   head value ≠ Some "0"%char).

(** The versions [parsePackageVersion] returns.  Without a prerelease the first
    [-] of the text must not be inside the build metadata. *)
Definition version_wf (v : PackageVersion) : Prop :=
  (major v < size_modulus)%N ∧ (minor v < size_modulus)%N ∧ (patch v < size_modulus)%N ∧
  Forall (component_wf true) (prerelease v) ∧ Forall (component_wf false) (build v) ∧
  (prerelease v = [] → Forall (λ b, "-"%char ∉ b) (build v)).

Lemma versionIdentifier_char value c :
  versionIdentifier value = true → c ∈ value → isalnum c = true ∨ c = "-"%char.
Proof.
  destruct value as [|x value]; [done|]. unfold versionIdentifier. intros H Hc.
  to_prop. rewrite Forall_forall in H. specialize (H c Hc). by to_prop.
Qed.
Lemma versionIdentifier_not value c :
  versionIdentifier value = true → isalnum c = false → c ≠ "-"%char → c ∉ value.
Proof. intros H H1 H2 Hc. destruct (versionIdentifier_char _ _ H Hc); congruence. Qed.

Lemma identifiers_Some text reject l :
  identifiers text reject = Some l ↔
  Forall (component_wf reject) (split_on "." text) ∧ l = split_on "." text.
Proof.
  unfold identifiers. set (f := λ value : bytes, _).
  assert (∀ x y, f x = Some y ↔ component_wf reject x ∧ y = x) as Hf.
  { intros x y. unfold f, component_wf.
    destruct (versionIdentifier x); simpl; [|split; [done|by intros [[? _] _]]].
    destruct reject; simpl; [|split; [intros [= ->]|intros [_ ->]]; done].
    destruct (forallb isdigit x) eqn:E2; rewrite ?andb_true_r, ?andb_false_r; simpl;
      [|split; [intros [= ->]|intros [_ ->]]; done].
    destruct (bool_decide (1 < length x)) eqn:E1; to_prop; simpl;
      [|split; [intros [= ->]|intros [_ ->]]; done].
    case_bool_decide; [|split; [intros [= ->]|intros [_ ->]]; done].
    split; [done|]. intros [[_ Hz] _]. by destruct Hz. }
  rewrite mapM_Some. split.
  - intros H. assert (Forall (component_wf reject) (split_on "." text) ∧ split_on "." text = l)
      as [? ?]; [|done].
    induction H as [|x y xs ys Hxy H [IH1 IH2]]; [done|].
    apply Hf in Hxy as [? ->]. split; [by constructor|congruence].
  - intros [H ->]. induction H; constructor; [by apply Hf|done].
Qed.

Lemma join_join_with values :
  Forall (λ v, v ≠ []) values → join values = join_with (lit ".") values.
Proof.
  intros H. unfold join. set (step := λ result value : bytes, _).
  assert (∀ vs acc, acc ≠ [] → Forall (λ v, v ≠ []) vs →
    foldl step acc vs = join_with (lit ".") (acc :: vs)) as Hacc.
  { intros vs. induction vs as [|v vs IH]; intros acc Hne Hv; [done|].
    apply Forall_cons in Hv as [Hv Hvs]. simpl. unfold step at 2.
    rewrite bool_decide_false, IH by (done || by destruct acc).
    destruct vs; simpl; by rewrite <- ?app_assoc. }
  destruct H as [|v values Hv Hvs]; [done|]. simpl. unfold step at 2.
  rewrite bool_decide_true by done. by apply Hacc.
Qed.

Lemma component_wf_nonempty reject values :
  Forall (component_wf reject) values → Forall (λ v, v ≠ []) values.
Proof. intros H. eapply Forall_impl; [exact H|]. by intros [] [??]. Qed.

Lemma component_wf_not reject values c :
  Forall (component_wf reject) values → isalnum c = false → c ≠ "-"%char →
  Forall (λ v, c ∉ v) values.
Proof. intros H ??. eapply Forall_impl; [done|]. intros v [??]. by apply versionIdentifier_not. Qed.

Lemma identifiers_join reject values :
  values ≠ [] → Forall (component_wf reject) values →
  identifiers (join values) reject = Some values.
Proof.
  intros Hne H. apply identifiers_Some. rewrite join_join_with by by eapply component_wf_nonempty.
  change (lit ".") with ["."%char]. rewrite split_join; [done|done|].
  by eapply component_wf_not.
Qed.
Lemma join_identifiers reject text values :
  identifiers text reject = Some values →
  values ≠ [] ∧ Forall (component_wf reject) values ∧ join values = text.
Proof.
  intros [H ->]%identifiers_Some. split; [apply split_on_nonempty|]. split; [done|].
  rewrite join_join_with by by eapply component_wf_nonempty. apply join_split.
Qed.

Lemma join_not_elem reject values c :
  Forall (component_wf reject) values → Forall (λ v, c ∉ v) values → c ≠ "."%char →
  c ∉ join values.
Proof.
  intros H1 H2 Hc. rewrite join_join_with by by eapply component_wf_nonempty.
  intros [?|(p & Hp & ?)]%elem_of_join_with; [set_solver|].
  rewrite Forall_forall in H2. by apply (H2 p).
Qed.

(** The core of a version: digits and exactly two dots. *)
Lemma canonical_not d c : canonical_digits d → isdigit c = false → c ∉ d.
Proof. intros (H & _) Hc Hin. rewrite Forall_forall in H. apply H in Hin. congruence. Qed.
Lemma to_string_not n c : isdigit c = false → c ∉ to_string n.
Proof. by apply canonical_not. Qed.

Definition core_string (a b c : N) : bytes :=
  to_string a ++ lit "." ++ to_string b ++ lit "." ++ to_string c.

Lemma core_string_not a b c x : isdigit x = false → x ≠ "."%char → x ∉ core_string a b c.
Proof.
  intros Hx Hd. pose proof (λ n, to_string_not n x Hx) as H.
  unfold core_string. rewrite !elem_of_app. pose proof (H a). pose proof (H b). pose proof (H c).
  set_solver.
Qed.

Lemma parseVersionCore_string a b c :
  (a < size_modulus)%N → (b < size_modulus)%N → (c < size_modulus)%N →
  parseVersionCore (core_string a b c) = Some (a, b, c).
Proof.
  intros Ha Hb Hc. unfold parseVersionCore, core_string. change (lit ".") with ["."%char]. cbn [app].
  rewrite find_byte_app, take_app_length, drop_past by by apply to_string_not.
  rewrite find_byte_app, take_app_length, drop_past by by apply to_string_not.
  rewrite (proj2 (find_byte_None _ _)) by by apply to_string_not.
  by rewrite !number_to_string.
Qed.

Lemma parseVersionCore_Some core a b c :
  parseVersionCore core = Some (a, b, c) →
  (a < size_modulus)%N ∧ (b < size_modulus)%N ∧ (c < size_modulus)%N ∧ core_string a b c = core.
Proof.
  unfold parseVersionCore.
  destruct (find_byte _ core) as [i|] eqn:E1; [|done].
  apply find_byte_Some in E1 as (p & r & -> & _ & <-). rewrite take_app_length, drop_past.
  destruct (find_byte _ r) as [j|] eqn:E2; [|done].
  apply find_byte_Some in E2 as (q & s & -> & _ & <-). rewrite take_app_length, drop_past.
  destruct (find_byte _ s); [done|].
  destruct (number p) eqn:?, (number q) eqn:?, (number s) eqn:?; try done.
  intros. simplify_eq.
  repeat match goal with H : number _ = Some _ |- _ => apply number_string in H as [? <-] end.
  done.
Qed.

Definition prerelease_part (l : list bytes) : bytes :=
  if bool_decide (l = []) then [] else lit "-" ++ join l.
Definition build_part (l : list bytes) : bytes :=
  if bool_decide (l = []) then [] else lit "+" ++ join l.

Lemma version_string_parts v :
  version_string v =
  core_string (major v) (minor v) (patch v) ++ prerelease_part (prerelease v) ++ build_part (build v).
Proof. unfold version_string, core_string. by rewrite <- !app_assoc. Qed.

(** The four shapes of a version text. *)
Section parse_shapes.
Context (core pre bld : bytes).
Context (Hcore1 : "+"%char ∉ core) (Hcore2 : "-"%char ∉ core) (Hpre : "+"%char ∉ pre).

Let with_core (k : N → N → N → option PackageVersion) : option PackageVersion :=
  match parseVersionCore core with Some (a, b, c) => k a b c | None => None end.

Lemma parse_shape_core :
  parsePackageVersion core = with_core (λ a b c, Some (mkVersion a b c [] [])).
Proof. unfold parsePackageVersion. by rewrite !(proj2 (find_byte_None _ _)). Qed.

Lemma parse_shape_prerelease :
  parsePackageVersion (core ++ "-"%char :: pre) =
  with_core (λ a b c, l ← identifiers pre true; Some (mkVersion a b c l [])).
Proof.
  unfold parsePackageVersion. rewrite (find_byte_app "-"), (find_byte_past "+") by done.
  rewrite (proj2 (find_byte_None _ _) Hpre). simpl. rewrite take_app_length, drop_past.
  rewrite length_app, bool_decide_false by (simpl; lia). rewrite take_ge by (simpl; lia).
  unfold with_core. destruct (parseVersionCore core) as [[[??]?]|]; [|done].
  by destruct (identifiers pre true).
Qed.

Lemma parse_shape_build :
  "-"%char ∉ bld →
  parsePackageVersion (core ++ "+"%char :: bld) =
  with_core (λ a b c, l ← identifiers bld false; Some (mkVersion a b c [] l)).
Proof.
  intros Hb. unfold parsePackageVersion. rewrite (find_byte_app "+"), (find_byte_past "-") by done.
  rewrite (proj2 (find_byte_None _ _) Hb). simpl. rewrite take_app_length, drop_past.
  unfold with_core. destruct (parseVersionCore core) as [[[??]?]|]; [|done].
  by destruct (identifiers bld false).
Qed.

(** A [-] inside the build metadata is taken for the prerelease separator. *)
Lemma parse_shape_build_hyphen :
  "-"%char ∈ bld → parsePackageVersion (core ++ "+"%char :: bld) = None.
Proof.
  intros Hb. unfold parsePackageVersion. rewrite (find_byte_app "+"), (find_byte_past "-") by done.
  destruct (find_byte "-" bld) as [n|] eqn:E; [|by apply find_byte_None in E]. simpl.
  rewrite bool_decide_true by lia. by repeat case_match.
Qed.

Lemma parse_shape_both :
  parsePackageVersion (core ++ "-"%char :: pre ++ "+"%char :: bld) =
  with_core (λ a b c, l ← identifiers pre true; m ← identifiers bld false;
                      Some (mkVersion a b c l m)).
Proof.
  unfold parsePackageVersion. rewrite (find_byte_app "-"), (find_byte_past "+") by done.
  rewrite find_byte_app by done. cbn [fmap option_fmap option_map].
  rewrite Nat.min_r by lia. simpl. rewrite take_app_length, bool_decide_false by lia.
  rewrite drop_past.
  replace (S (length core + length pre) - length core - 1) with (length pre) by lia.
  rewrite take_app_length.
  replace (drop _ _) with bld; swap 1 2.
  { pose proof (drop_past (core ++ "-"%char :: pre) "+"%char bld) as Hd.
    rewrite length_app, <- app_assoc in Hd. simpl in Hd. by rewrite Nat.add_succ_r in Hd. }
  unfold with_core. destruct (parseVersionCore core) as [[[??]?]|]; [|done].
  destruct (identifiers pre true); simpl; [|done]. by destruct (identifiers bld false).
Qed.
End parse_shapes.

Lemma prerelease_part_not l c :
  Forall (component_wf true) l → isalnum c = false → c ≠ "-"%char → c ≠ "."%char →
  c ∉ join l.
Proof. intros. apply join_not_elem with true; try done. by eapply component_wf_not. Qed.

Lemma parse_version_string v : version_wf v → parsePackageVersion (version_string v) = Some v.
Proof.
  intros (Ha & Hb & Hc & Hp & Hq & Hpq). rewrite version_string_parts.
  destruct v as [a b c pre bld]; simpl in *.
  pose proof (parseVersionCore_string a b c Ha Hb Hc) as Hcore.
  assert ("+"%char ∉ core_string a b c) as C1 by by apply core_string_not.
  assert ("-"%char ∉ core_string a b c) as C2 by by apply core_string_not.
  assert ("+"%char ∉ join pre) as P1 by by apply prerelease_part_not.
  unfold prerelease_part, build_part. change (lit "-") with ["-"%char]. change (lit "+") with ["+"%char].
  cbn [app]. destruct (decide (pre = [])) as [->|Hpre], (decide (bld = [])) as [->|Hbld];
    rewrite ?bool_decide_true, ?bool_decide_false by done; rewrite ?app_nil_r; cbn [app].
  - by rewrite parse_shape_core, Hcore.
  - rewrite parse_shape_build by (done || by eapply join_not_elem; auto).
    by rewrite Hcore, identifiers_join.
  - by rewrite parse_shape_prerelease, Hcore, identifiers_join.
  - by rewrite parse_shape_both, Hcore, !identifiers_join.
Qed.

Lemma version_string_parse t v :
  parsePackageVersion t = Some v → version_wf v ∧ version_string v = t.
Proof.
  assert (∃ core pre bld : bytes, "+"%char ∉ core ∧ "-"%char ∉ core ∧ "+"%char ∉ pre ∧
    (t = core ∨ t = core ++ "-"%char :: pre ∨ t = core ++ "+"%char :: bld ∨
     t = core ++ "-"%char :: pre ++ "+"%char :: bld)) as (core & pre & bld & C1 & C2 & P & Ht).
  { destruct (find_byte "+" t) as [i|] eqn:E1.
    - apply find_byte_Some in E1 as (p & bld & -> & ? & _).
      destruct (find_byte "-" p) as [j|] eqn:E2.
      + apply find_byte_Some in E2 as (core & pre & -> & ? & _). exists core, pre, bld.
        rewrite <- app_assoc. set_solver.
      + apply find_byte_None in E2. exists p, [], bld. set_solver.
    - apply find_byte_None in E1. destruct (find_byte "-" t) as [j|] eqn:E2.
      + apply find_byte_Some in E2 as (core & pre & -> & ? & _). exists core, pre, [].
        set_solver.
      + apply find_byte_None in E2. exists t, [], []. set_solver. }
  rewrite version_string_parts. unfold version_wf, prerelease_part, build_part.
  destruct Ht as [-> | [-> | [-> | ->]]].
  - rewrite parse_shape_core by done. destruct (parseVersionCore core) as [[[a b] c]|] eqn:E; [|done].
    intros ?; simplify_eq/=. apply parseVersionCore_Some in E as (? & ? & ? & <-).
    rewrite app_nil_r. by repeat constructor.
  - rewrite parse_shape_prerelease by done.
    destruct (parseVersionCore core) as [[[a b] c]|] eqn:E; [|done].
    destruct (identifiers pre true) as [l|] eqn:El; [|done]. intros ?; simplify_eq/=.
    apply parseVersionCore_Some in E as (? & ? & ? & <-).
    apply join_identifiers in El as (? & ? & <-). rewrite bool_decide_false, app_nil_r by done.
    by repeat constructor.
  - destruct (decide ("-"%char ∈ bld)) as [Hb|Hb]; [by rewrite parse_shape_build_hyphen by done|].
    rewrite parse_shape_build by done.
    destruct (parseVersionCore core) as [[[a b] c]|] eqn:E; [|done].
    destruct (identifiers bld false) as [l|] eqn:El; [|done]. intros ?; simplify_eq/=.
    apply parseVersionCore_Some in E as (? & ? & ? & <-).
    apply join_identifiers in El as (? & Hl & <-). rewrite bool_decide_false by done.
    repeat (done || constructor). intros _. rewrite join_join_with in Hb by by eapply component_wf_nonempty.
    apply Forall_forall. intros p Hp Hin. apply Hb. by eapply elem_of_join_with_2.
  - rewrite parse_shape_both by done.
    destruct (parseVersionCore core) as [[[a b] c]|] eqn:E; [|done].
    destruct (identifiers pre true) as [l|] eqn:El; [|done].
    destruct (identifiers bld false) as [m|] eqn:Em; [|done]. intros ?; simplify_eq/=.
    apply parseVersionCore_Some in E as (? & ? & ? & <-).
    apply join_identifiers in El as (? & ? & <-). apply join_identifiers in Em as (? & ? & <-).
    rewrite !bool_decide_false by done. repeat (done || constructor).
Qed.

(** ** Codecs *)

#[global] Instance version_codec : Codec PackageVersion := {
  render := version_string; parse := parsePackageVersion; codec_wf := version_wf }.
#[global] Instance version_codec_laws : CodecLaws PackageVersion.
Proof. split; [apply parse_version_string|apply version_string_parse]. Qed.

Definition requirement_wf (r : PackageRequirement) : Prop :=
  match requirement_kind r with
  | Any => requirement_version r = defaultVersion
  | _ => version_wf (requirement_version r)
  end.

Lemma version_string_head v :
  ∃ c rest, version_string v = c :: rest ∧ isdigit c = true.
Proof.
  unfold version_string. destruct (to_string_canonical (major v)) as (H & Hne & _).
  destruct (to_string (major v)) as [|c rest]; [done|]. apply Forall_cons in H as [? _].
  by eexists _, _.
Qed.

#[global] Instance requirement_codec : Codec PackageRequirement := {
  render := requirement_string; parse := parsePackageRequirement; codec_wf := requirement_wf }.
#[global] Instance requirement_codec_laws : CodecLaws PackageRequirement.
Proof.
  split.
  - intros [[] v]; cbn [codec_wf requirement_codec]; unfold requirement_wf; simpl;
      [by intros ->|intros Hv%parse_version_string..]; unfold parsePackageRequirement;
      [|by rewrite bool_decide_false by done; simpl; rewrite Hv..].
    change (requirement_string _) with (version_string v).
    destruct (version_string_head v) as (c & rest & E & Hc). rewrite E in *.
    assert (∀ x, isdigit x = false → c ≠ x) as Hne by (intros x Hx ->; congruence).
    rewrite bool_decide_false by (intros [=]; by apply (Hne "*"%char)).
    rewrite !bool_decide_false by by apply Hne. by rewrite Hv.
  - intros t r. cbn [parse render codec_wf requirement_codec].
    unfold parsePackageRequirement, requirement_wf, requirement_string.
    case_bool_decide as Ht; [by intros [= <-]|].
    destruct t as [|c t]; [by destruct (parsePackageVersion []) eqn:E|].
    repeat case_bool_decide; subst;
      (destruct (parsePackageVersion _) as [v|] eqn:E; [|done]); intros [= <-]; simpl;
      apply version_string_parse in E as [? E]; rewrite E; done.
Qed.

(** ** What a requirement accepts *)

(** The versions of the same compatibility series: [^] keeps the leftmost
    non-zero number, [~] keeps major and minor. *)
Definition same_series (kind : PackageRequirementKind) (v c : PackageVersion) : Prop :=
  match kind with
  | Tilde => major c = major v ∧ minor c = minor v
  | _ =>
      if decide (major v ≠ 0%N) then major c = major v
      else if decide (minor v ≠ 0%N) then major c = major v ∧ minor c = minor v
      else major c = major v ∧ minor c = minor v ∧ patch c = patch v
  end.

(** Incrementing any number of the version stays within [std::size_t]. *)
Definition can_increment (v : PackageVersion) : Prop :=
  (major v + 1 < size_modulus ∧ minor v + 1 < size_modulus ∧ patch v + 1 < size_modulus)%N.

Lemma core_cmp_Lt (a b c a' b' c' : N) :
  cmp (a, (b, c)) (a', (b', c')) = Lt ↔
  (a < a' ∨ a = a' ∧ (b < b' ∨ b = b' ∧ c < c'))%N.
Proof. rewrite !pair_cmp, !lex_lt, !cmp_eq_iff. unfold cmp, N_compare. by rewrite !N.compare_lt_iff. Qed.

Lemma comparePrecedence_release_Lt c v :
  prerelease c = [] → prerelease v = [] →
  comparePrecedence c v = Lt ↔
  cmp (major c, (minor c, patch c)) (major v, (minor v, patch v)) = Lt.
Proof. intros Hc Hv. unfold comparePrecedence. rewrite Hc, Hv. by destruct (cmp _ _). Qed.

Lemma comparePrecedence_not_Lt c v :
  comparePrecedence c v ≠ Lt →
  cmp (major c, (minor c, patch c)) (major v, (minor v, patch v)) ≠ Lt.
Proof. unfold comparePrecedence. by destruct (cmp _ _). Qed.

Lemma upperBound_prerelease r : prerelease (upperBound r) = [].
Proof. unfold upperBound. by repeat case_match. Qed.

Lemma increment_small n : (n + 1 < size_modulus)%N → increment n = (n + 1)%N.
Proof. intros. unfold increment. by rewrite N.mod_small. Qed.

Lemma release_below_upperBound kind v c :
  kind = Caret ∨ kind = Tilde → can_increment v → prerelease c = [] →
  cmp (major c, (minor c, patch c)) (major v, (minor v, patch v)) ≠ Lt →
  comparePrecedence c (upperBound (mkRequirement kind v)) = Lt ↔ same_series kind v c.
Proof.
  intros Hk (H1 & H2 & H3) Hc. rewrite core_cmp_Lt.
  rewrite comparePrecedence_release_Lt by (done || apply upperBound_prerelease).
  unfold upperBound, same_series. simpl. destruct Hk as [-> | ->]; simpl.
  - repeat case_decide; destruct (N.eqb_spec (major v) 0), (N.eqb_spec (minor v) 0); try done; simpl;
      rewrite core_cmp_Lt, increment_small by done; lia.
  - rewrite core_cmp_Lt, increment_small by done. lia.
Qed.

(** ** Theorems *)

(** [operator<=>] on package versions is a total order whose equality is
    [operator==]: exactly one of less, equal, greater holds for two versions,
    swapping the operands mirrors the answer, and [less] is transitive.  Sorting
    and [std::set]s of versions rest on this; it needs that a numeric identifier
    has one spelling (no leading zero) and that oversized numerals, which
    [number] rejects, are still ordered consistently as text. *)
Theorem version_order_total (x y z : PackageVersion) :
  (cmp x y = Eq ↔ x = y) ∧ cmp y x = CompOpp (cmp x y) ∧
  (cmp x y = Lt ∧ cmp y z = Lt → cmp x z = Lt).
Proof.
  split; [apply cmp_eq_iff|]. split; [apply cmp_opp|]. intros [??]. by eapply cmp_lt_trans.
Qed.

(** Version text round-trips both ways: every well-formed version renders to
    a text that parses back to it, and every text that parses is exactly the
    rendering of the well-formed version it parses to, so no two spellings of a
    version are accepted. *)
Theorem version_text_roundtrip (v : PackageVersion) (t : bytes) :
  (version_wf v → parsePackageVersion (version_string v) = Some v) ∧
  (parsePackageVersion t = Some v → version_wf v ∧ version_string v = t).
Proof. split; [apply parse_version_string|apply version_string_parse]. Qed.

(** A [^] or [~] requirement on a version whose numbers can be incremented
    accepts a release (no prerelease part) exactly when the release does not
    precede the required version and lies in its compatibility series. *)
Theorem accepts_release (kind : PackageRequirementKind) (v c : PackageVersion) :
  kind = Caret ∨ kind = Tilde → can_increment v → prerelease c = [] →
  accepts (mkRequirement kind v) c = true ↔
  comparePrecedence c v ≠ Lt ∧ same_series kind v c.
Proof.
  intros Hk Hv Hc. unfold accepts. simpl.
  pose proof (release_below_upperBound kind v c Hk Hv Hc) as Hub.
  pose proof (comparePrecedence_not_Lt c v) as Hnl.
  assert (∀ A (a b c : A), match kind with Any => a | Exact => b | _ => c end = c) as E
    by (destruct Hk as [-> | ->]; done).
  rewrite E. destruct (comparePrecedence c v); [|naive_solver|];
    (rewrite <- Hub by (apply Hnl; done); destruct (comparePrecedence c _); naive_solver).
Qed.

(** the upper bound of [^M.m.p] has no prerelease part, so every prerelease of
    the next major version precedes it: [^1.2.3] accepts [2.0.0-alpha]. *)
Theorem caret_accepts_next_major_prerelease (v : PackageVersion) (pre bld : list bytes) :
  major v ≠ 0%N → (major v + 1 < size_modulus)%N → pre ≠ [] →
  accepts (mkRequirement Caret v) (mkVersion (major v + 1) 0 0 pre bld) = true.
Proof.
  intros Hm Hs Hpre. unfold accepts, upperBound. simpl.
  apply N.eqb_neq in Hm. rewrite Hm. simpl. rewrite increment_small by done.
  assert (comparePrecedence (mkVersion (major v + 1) 0 0 pre bld) v = Gt) as ->.
  { unfold comparePrecedence. simpl. rewrite pair_cmp.
    assert (cmp (major v + 1)%N (major v) = Gt) as ->; [|done].
    apply cmp_gt_lt, N.compare_lt_iff. lia. }
  unfold comparePrecedence. simpl. rewrite cmp_refl. by destruct pre.
Qed.

(** at the top of [std::size_t] the increment of the upper bound wraps to
    zero: a [^] requirement on major version [SIZE_MAX] accepts no version at
    all, not even the one it names. *)
Theorem caret_overflow_accepts_nothing (v c : PackageVersion) :
  major v = (size_modulus - 1)%N → accepts (mkRequirement Caret v) c = false.
Proof.
  intros Hv. unfold accepts. simpl.
  destruct (comparePrecedence c v) eqn:E; try done;
    (assert (comparePrecedence c v ≠ Lt) as Hn by (by rewrite E);
     apply comparePrecedence_not_Lt in Hn; rewrite core_cmp_Lt, Hv in Hn;
     destruct (comparePrecedence c (upperBound _)) eqn:E'; try done; exfalso;
     apply Hn; left; unfold comparePrecedence, upperBound in E'; simpl in E'; rewrite Hv in E';
     change (size_modulus - 1 =? 0)%N with false in E'; simpl in E';
     change (increment (size_modulus - 1)) with 0%N in E';
     destruct (cmp _ _) eqn:E'' in E'; try done;
     [rewrite !pair_cmp, !lex_eq, !cmp_eq_iff in E''; destruct E'' as [-> _]; done
     |apply core_cmp_Lt in E''; unfold size_modulus; lia]).
Qed.

(** build metadata with a hyphen is rejected when there is no prerelease
    part: the first [-] of the text is taken for the prerelease separator although
    it lies behind the [+], so [1.0.0+a-b] does not parse. *)
Theorem build_hyphen_rejected (v : PackageVersion) :
  prerelease v = [] → Forall (component_wf false) (build v) →
  Exists (λ b, "-"%char ∈ b) (build v) → parsePackageVersion (version_string v) = None.
Proof.
  intros Hp Hb Hex. rewrite version_string_parts, Hp. unfold prerelease_part, build_part.
  rewrite bool_decide_true by done. rewrite bool_decide_false by (intros E; rewrite E in Hex; by inversion Hex).
  apply parse_shape_build_hyphen; try by apply core_string_not.
  apply Exists_exists in Hex as (b & ? & ?).
  rewrite join_join_with by by eapply component_wf_nonempty. by eapply elem_of_join_with_2.
Qed.

(** ** Witnesses *)

Definition v (s : string) : PackageVersion := default defaultVersion (parsePackageVersion (lit s)).

Lemma version_text_roundtrip_witness :
  version_wf (v "1.2.3-rc.1+linux-x") ∧ version_string (v "1.2.3-rc.1+linux-x") = lit "1.2.3-rc.1+linux-x".
Proof.
  apply (version_text_roundtrip (v "1.2.3-rc.1+linux-x") (lit "1.2.3-rc.1+linux-x")).
  vm_compute. reflexivity.
Defined.

Lemma accepts_release_witness :
  accepts (mkRequirement Caret (v "1.2.3")) (v "1.9.0") = true ↔
  comparePrecedence (v "1.9.0") (v "1.2.3") ≠ Lt ∧ same_series Caret (v "1.2.3") (v "1.9.0").
Proof. apply (accepts_release Caret); [by left|by vm_compute|by vm_compute]. Defined.

Lemma caret_accepts_next_major_prerelease_witness :
  accepts (mkRequirement Caret (v "1.2.3")) (v "2.0.0-alpha") = true.
Proof.
  apply (caret_accepts_next_major_prerelease (v "1.2.3") [lit "alpha"] []); by vm_compute.
Defined.

Lemma caret_overflow_accepts_nothing_witness :
  accepts (mkRequirement Caret (v "18446744073709551615.0.0")) (v "18446744073709551615.0.0") = false.
Proof. apply caret_overflow_accepts_nothing. by vm_compute. Defined.

Lemma build_hyphen_rejected_witness : parsePackageVersion (lit "1.0.0+a-b") = None.
Proof.
  apply (build_hyphen_rejected (mkVersion 1 0 0 [] [lit "a-b"])); [done| |].
  - repeat constructor. by intros.
  - constructor. by vm_compute; set_solver.
Defined.

Lemma version_order_total_witness :
  let x := mkVersion 1 0 0 [lit "rc"; lit "2"] [] in
  let y := mkVersion 1 0 0 [lit "rc"; lit "10"] [] in
  let z := mkVersion 1 0 0 [] [] in
  cmp x y = Lt ∧ cmp y z = Lt ∧ cmp x z = Lt.
Proof.
  split; [reflexivity|]. split; [reflexivity|].
  apply (version_order_total (mkVersion 1 0 0 [lit "rc"; lit "2"] [])
    (mkVersion 1 0 0 [lit "rc"; lit "10"] [])). split; reflexivity.
Defined.
