(* ===== verification/PackageText.v ===== *)
(** * The line format of manifests and locks (compiler/src/package.cpp)

    One directive per line, tokens separated by white space, quoted values with
    escapes, [#] comments: the tokenizer, the quoting used by the renderers, and
    the line loop that feeds a directive handler. *)
From S2P Require Import Prelude.

(** [struct PackageError]. *)
Record PackageError := mkPackageError {
  error_path : bytes;
  error_line : nat;
  error_column : nat;
  error_code : bytes;
  error_message : bytes;
}.

(** [struct LineTokens]: an error is a column and a message. *)
Record LineTokens := mkLineTokens {
  token_values : list bytes;
  token_error : option (nat * bytes);
}.

(** ** [tokenize] *)

(** [while (offset < line.size() && isspace(line[offset])) ++offset]. *)
Fixpoint skip_space (line : bytes) (offset : nat) : bytes * nat :=
  match line with
  | c :: rest => if isspace c then skip_space rest (S offset) else (line, offset)
  | [] => ([], offset)
  end.

(** The bytes of a bare token, up to white space or a comment. *)
Fixpoint bare_token (line : bytes) : bytes * bytes :=
  match line with
  | c :: rest =>
      if isspace c || bool_decide (c = "#"%char) then ([], line)
      else let '(token, rest) := bare_token rest in (c :: token, rest)
  | [] => ([], [])
  end.

Inductive quoted_result :=
  | Closed (value rest : bytes) (offset : nat)
  | Unterminated
  | UnsupportedEscape (offset : nat).

(** The loop behind the opening quote; [offset] is the index of the first byte of [line]. *)
Fixpoint quoted_token (line : bytes) (offset : nat) (value : bytes) : quoted_result :=
  match line with
  | [] => Unterminated
  | byte :: rest =>
      if bool_decide (byte = dquote) then Closed value rest (S offset)
      else if bool_decide (byte ≠ backslash) then quoted_token rest (S offset) (value ++ [byte])
      else match rest with
           | [] => Unterminated
           | escaped :: rest =>
               if bool_decide (escaped = dquote) || bool_decide (escaped = backslash) then
                 quoted_token rest (S (S offset)) (value ++ [escaped])
               else if bool_decide (escaped = "n"%char) then
                 quoted_token rest (S (S offset)) (value ++ [newline])
               else if bool_decide (escaped = "t"%char) then
                 quoted_token rest (S (S offset)) (value ++ [tab])
               else UnsupportedEscape (S (S offset))
           end
  end.

(** Each turn consumes at least one byte, so [length line + 1] turns suffice. *)
Fixpoint tokenize_loop (fuel : nat) (line : bytes) (offset : nat) (values : list bytes)
    : option LineTokens :=
  match fuel with
  | O => None
  | S fuel =>
      let '(line, offset) := skip_space line offset in
      match line with
      | [] => Some (mkLineTokens values None)
      | c :: rest =>
          if bool_decide (c = "#"%char) then Some (mkLineTokens values None)
          else if bool_decide (c ≠ dquote) then
            let '(token, rest) := bare_token line in
            tokenize_loop fuel rest (offset + length token) (values ++ [token])
          else match quoted_token rest (S offset) [] with
               | UnsupportedEscape column =>
                   Some (mkLineTokens values (Some (column, lit "unsupported escape in quoted value")))
               | Unterminated =>
                   Some (mkLineTokens values (Some (S offset, lit "unterminated quoted value")))
               | Closed value rest offset =>
                   match rest with
                   | d :: _ =>
                       if negb (isspace d) && bool_decide (d ≠ "#"%char) then
                         Some (mkLineTokens values
                           (Some (S offset, lit "quoted value must end before the next token")))
                       else tokenize_loop fuel rest offset (values ++ [value])
                   | [] => tokenize_loop fuel rest offset (values ++ [value])
                   end
               end
      end
  end.

Definition tokenize (line : bytes) : LineTokens :=
  default (mkLineTokens [] None) (tokenize_loop (S (length line)) line 0 []).

(** ** [quote] *)

Definition needs_quote (byte : ascii) : bool :=
  isspace byte || bool_decide (byte = "#"%char) || bool_decide (byte = dquote)
  || bool_decide (byte = backslash).

Definition quote_byte (byte : ascii) : bytes :=
  if bool_decide (byte = dquote) || bool_decide (byte = backslash) then [backslash; byte]
  else if bool_decide (byte = newline) then [backslash; "n"%char]
  else if bool_decide (byte = tab) then [backslash; "t"%char]
  else [byte].

Definition quote (value : bytes) : bytes :=
  if negb (bool_decide (value = []) || existsb needs_quote value) then value
  else [dquote] ++ concat (map quote_byte value) ++ [dquote].

(** ** [lines] *)

(** [if (!line.empty() && line.back() == '\r') line.remove_suffix(1)]. *)
Definition strip_carriage (line : bytes) : bytes :=
  if bool_decide (last line = Some carriage) then removelast line else line.

Section lines.
Context {St : Type} (path : bytes).
Context (addError : PackageError → St → St) (callback : list bytes → nat → St → St).

Definition line_step (lineNumber : nat) (line : bytes) (st : St) : St :=
  let tokens := tokenize (strip_carriage line) in
  match token_error tokens with
  | Some (column, message) =>
      addError (mkPackageError path lineNumber column (lit "FDN4003") message) st
  | None => match token_values tokens with [] => st | values => callback values lineNumber st end
  end.

Fixpoint lines_from (lineNumber : nat) (ls : list bytes) (st : St) : St :=
  match ls with
  | [] => st
  | l :: ls => lines_from (S lineNumber) ls (line_step lineNumber l st)
  end.

Definition lines (source : bytes) (st : St) : St := lines_from 1 (split_on newline source) st.

(** The handler run over the directives of consecutive lines. *)
Fixpoint directives_from (lineNumber : nat) (ds : list (list bytes)) (st : St) : St :=
  match ds with
  | [] => st
  | d :: ds => directives_from (S lineNumber) ds (callback d lineNumber st)
  end.
End lines.

(** A directive line as the renderers write it. *)
Definition render_line (tokens : list bytes) : bytes := join_with [space] (map quote tokens).
Definition render_lines (ds : list (list bytes)) : bytes :=
  concat (map (λ d, render_line d ++ [newline]) ds).

(** ** Lemmas *)

Lemma skip_space_none c line offset :
  isspace c = false → skip_space (c :: line) offset = (c :: line, offset).
Proof. simpl. by intros ->. Qed.

Lemma skip_space_length line offset :
  length (skip_space line offset).1 + ((skip_space line offset).2 - offset) = length line ∧
  offset ≤ (skip_space line offset).2.
Proof.
  revert offset. induction line as [|c line IH]; intros offset; simpl; [lia|].
  destruct (isspace c); simpl; [|lia]. destruct (IH (S offset)). lia.
Qed.

Lemma skip_space_head line offset c rest :
  (skip_space line offset).1 = c :: rest → isspace c = false.
Proof.
  revert offset. induction line as [|d line IH]; intros offset; simpl; [done|].
  destruct (isspace d) eqn:E; [apply IH|]. by intros [= -> _].
Qed.

Lemma bare_token_cons c rest :
  isspace c = false → c ≠ "#"%char →
  bare_token (c :: rest) = (c :: (bare_token rest).1, (bare_token rest).2).
Proof. intros E Hc. simpl. rewrite E, bool_decide_false by done. by destruct (bare_token rest). Qed.

Lemma bare_token_app line : (bare_token line).1 ++ (bare_token line).2 = line.
Proof.
  induction line as [|c line IH]; simpl; [done|].
  destruct (_ || _); [done|]. destruct (bare_token line); simpl in *. by rewrite IH.
Qed.

Lemma quoted_token_rest line offset value :
  match quoted_token line offset value with
  | Closed _ rest _ => length rest < length line | _ => True
  end.
Proof.
  remember (length line) as n eqn:Hn. revert line offset value Hn.
  induction (lt_wf n) as [n _ IH]. intros line offset value ->.
  destruct line as [|c line]; simpl; [done|].
  case_bool_decide; [lia|]. case_bool_decide.
  - specialize (IH (length line) ltac:(simpl; lia) line (S offset) (value ++ [c]) eq_refl).
    destruct (quoted_token _ _ _); lia.
  - destruct line as [|e line]; [done|].
    assert (∀ v, match quoted_token line (S (S offset)) v with
      | Closed _ rest _ => length rest < S (length (e :: line)) | _ => True end) as H'.
    { intros v. specialize (IH (length line) ltac:(simpl; lia) line (S (S offset)) v eq_refl).
      destruct (quoted_token _ _ _); simpl; lia. }
    destruct (_ || _); [apply H'|]. do 2 (case_bool_decide; [apply H'|]). done.
Qed.

(** The loop never runs out of fuel. *)
Lemma tokenize_loop_total fuel line offset values :
  length line < fuel → is_Some (tokenize_loop fuel line offset values).
Proof.
  revert line offset values. induction fuel as [|fuel IH]; intros line offset values Hf; [lia|]. simpl.
  destruct (skip_space line offset) as [line' offset'] eqn:E.
  pose proof (skip_space_length line offset) as Hs.
  pose proof (skip_space_head line offset) as Hh. rewrite E in Hs, Hh. simpl in Hs, Hh.
  destruct line' as [|c rest]; [by eexists|]. simpl in Hs.
  case_bool_decide as Hc; [by eexists|]. case_bool_decide.
  - pose proof (bare_token_app rest) as Ha. apply (f_equal length) in Ha. rewrite length_app in Ha.
    rewrite bare_token_cons by eauto. apply IH. lia.
  - pose proof (quoted_token_rest rest (S offset') []) as Hq.
    destruct (quoted_token _ _ _) as [value rest' offset''| |]; [|by eexists..].
    assert (is_Some (tokenize_loop fuel rest' offset'' (values ++ [value]))) by (apply IH; lia).
    repeat case_match; by eauto.
Qed.

(** ** Quoting is inverted by the tokenizer *)

Lemma newline_needs_quote : needs_quote newline = true.
Proof. done. Qed.

Lemma quote_plain value :
  value ≠ [] → Forall (λ c, needs_quote c = false) value → quote value = value.
Proof.
  intros Hv H. unfold quote. rewrite bool_decide_false by done. simpl.
  assert (existsb needs_quote value = false) as ->; [|done].
  induction H as [|c value Hc H IH]; [done|]. simpl. rewrite Hc. simpl.
  destruct value; [done|]. by apply IH.
Qed.

(** A token is read back whether it stands bare or quoted, when white space, a
    comment or the end of the line follows. *)
Definition ends_token (rest : bytes) : Prop :=
  match rest with [] => True | d :: _ => isspace d = true ∨ d = "#"%char end.

Lemma bare_token_plain value rest :
  Forall (λ c, needs_quote c = false) value → ends_token rest →
  bare_token (value ++ rest) = (value, rest).
Proof.
  intros H Hr. induction H as [|c value Hc H IH]; simpl.
  - destruct rest as [|d rest]; [done|]. simpl. destruct Hr as [-> | ->]; [done|].
    by rewrite orb_true_r.
  - unfold needs_quote in Hc. rewrite !orb_false_iff in Hc. destruct Hc as [[[-> ->] _] _]. simpl.
    by rewrite IH.
Qed.

Lemma quoted_token_quote value acc rest offset :
  quoted_token (concat (map quote_byte value) ++ dquote :: rest) offset acc =
  Closed (acc ++ value) rest (offset + length (concat (map quote_byte value)) + 1).
Proof.
  revert acc offset. induction value as [|c value IH]; intros acc offset.
  - simpl. rewrite app_nil_r. f_equal. lia.
  - simpl concat. rewrite <- app_assoc, length_app. unfold quote_byte at 1 3.
    assert (∀ x, acc ++ x :: value = (acc ++ [x]) ++ value) as Hacc by (intros; by rewrite <- app_assoc).
    rewrite Hacc. destruct (_ || _) eqn:E1.
    + simpl. rewrite E1, IH. f_equal. lia.
    + apply orb_false_iff in E1 as [E1 E2]. apply bool_decide_eq_false in E1, E2.
      case_bool_decide; [subst; simpl; rewrite IH; f_equal; lia|].
      case_bool_decide; [subst; simpl; rewrite IH; f_equal; lia|].
      simpl. rewrite bool_decide_false, bool_decide_true, IH by done. f_equal. lia.
Qed.

Lemma quote_cases value :
  (value ≠ [] ∧ Forall (λ c, needs_quote c = false) value ∧ quote value = value) ∨
  quote value = dquote :: concat (map quote_byte value) ++ [dquote].
Proof.
  unfold quote. destruct (bool_decide (value = [])) eqn:E1; simpl; [by right|].
  destruct (existsb needs_quote value) eqn:E2; simpl; [by right|]. left.
  apply bool_decide_eq_false in E1. repeat split; [done|].
  apply not_true_iff_false in E2. rewrite existsb_Exists in E2.
  apply Forall_forall. intros c Hc. destruct (needs_quote c) eqn:E; [|done].
  exfalso. apply E2, Exists_exists. eauto.
Qed.

Lemma quote_head value : ∃ c rest, quote value = c :: rest ∧ isspace c = false ∧ c ≠ "#"%char.
Proof.
  destruct (quote_cases value) as [(Hne & H & ->) | ->]; [|by eexists _, _].
  destruct H as [|c value Hc _]; [done|]. eexists _, _. split; [done|].
  unfold needs_quote in Hc. rewrite !orb_false_iff, !bool_decide_eq_false in Hc. naive_solver.
Qed.

Lemma tokenize_loop_quote fuel value rest offset values :
  ends_token rest → length (quote value ++ rest) < fuel →
  ∃ fuel' offset', length rest < fuel' ∧
    tokenize_loop fuel (quote value ++ rest) offset values =
    tokenize_loop fuel' rest offset' (values ++ [value]).
Proof.
  intros Hr Hf. destruct fuel as [|fuel]; [lia|].
  destruct (quote_head value) as (c & tl & Eq & Hs & Hc). exists fuel.
  rewrite length_app, Eq in Hf. simpl in Hf.
  cbn [tokenize_loop]. rewrite Eq. cbn [app]. rewrite skip_space_none by done. cbv iota beta.
  rewrite bool_decide_false by done.
  destruct (quote_cases value) as [(Hne & H & Eq') | Eq']; rewrite Eq in Eq'.
  - destruct value as [|d value]; [done|]. simplify_eq.
    assert (d ≠ dquote). { apply Forall_cons in H as [Hd _]. by intros ->. }
    rewrite bool_decide_true by done. rewrite app_comm_cons, bare_token_plain by done.
    eexists. split; [lia|done].
  - simplify_eq. rewrite bool_decide_false by auto. rewrite <- app_assoc. simpl.
    rewrite quoted_token_quote. simpl. eexists. split; [lia|].
    destruct rest as [|d rest]; [done|]. destruct Hr as [-> | ->]; [done|].
    rewrite (bool_decide_false (_ ≠ _)) by auto. by rewrite andb_false_r.
Qed.

Lemma tokenize_loop_render ts fuel offset values :
  length (render_line ts) < fuel →
  tokenize_loop fuel (render_line ts) offset values = Some (mkLineTokens (values ++ ts) None).
Proof.
  revert fuel offset values. induction ts as [|t ts IH]; intros fuel offset values Hf.
  { destruct fuel; [simpl in Hf; lia|]. simpl. by rewrite app_nil_r. }
  destruct ts as [|u ts].
  - unfold render_line in *. simpl in *. rewrite <- (app_nil_r (quote t)) in *.
    destruct (tokenize_loop_quote fuel t [] offset values) as (f' & o' & Hf' & ->); [done..|].
    destruct f'; [simpl in Hf'; lia|]. done.
  - change (render_line (t :: u :: ts)) with (quote t ++ space :: render_line (u :: ts)) in *.
    destruct (tokenize_loop_quote fuel t (space :: render_line (u :: ts)) offset values)
      as (f' & o' & Hf' & ->); [by left|done|].
    destruct f' as [|f']; [simpl in Hf'; lia|].
    change (tokenize_loop (S f') (space :: render_line (u :: ts)) o' (values ++ [t]))
      with (tokenize_loop (S f') (render_line (u :: ts)) (S o') (values ++ [t])).
    rewrite IH; [by rewrite <- app_assoc|simpl in Hf'; lia].
Qed.

Lemma tokenize_render_line ts : tokenize (render_line ts) = mkLineTokens ts None.
Proof. unfold tokenize. by rewrite tokenize_loop_render by lia. Qed.

(** ** Rendered lines survive the line loop *)

Lemma newline_not_quote_byte c : newline ∉ quote_byte c.
Proof.
  assert (bool_decide (newline ∈ quote_byte c) = false) as H by byte_cases c.
  by apply bool_decide_eq_false in H.
Qed.

Lemma newline_not_quote value : newline ∉ quote value.
Proof.
  destruct (quote_cases value) as [(_ & H & ->) | ->].
  - intros Hin. rewrite Forall_forall in H. by apply H in Hin.
  - rewrite elem_of_cons, elem_of_app, list_elem_of_singleton.
    intros [?|[H|?]]; [done| |done].
    apply list_elem_of_In, in_concat in H as (l & (c & <- & _)%in_map_iff & H%list_elem_of_In).
    by apply newline_not_quote_byte in H.
Qed.

Lemma quote_last value : last (quote value) ≠ Some carriage ∧ quote value ≠ [].
Proof.
  destruct (quote_cases value) as [(Hne & H & ->) | ->].
  - split; [|done]. intros E. apply last_Some in E as (l & ->).
    apply Forall_app in H as [_ H]. by apply Forall_inv in H.
  - split; [|done]. rewrite app_comm_cons, last_snoc. done.
Qed.

Lemma newline_not_render_line ts : newline ∉ render_line ts.
Proof.
  intros [H|(p & Hp & H)]%elem_of_join_with.
  - by apply list_elem_of_singleton in H.
  - apply list_elem_of_fmap in Hp as (v & -> & _). by apply newline_not_quote in H.
Qed.

Lemma strip_carriage_render_line ts : strip_carriage (render_line ts) = render_line ts.
Proof.
  unfold strip_carriage. rewrite bool_decide_false; [done|].
  induction ts as [|t ts IH]; [done|]. destruct (quote_last t) as [Hl Hne].
  destruct ts as [|u ts]; [done|].
  change (render_line (t :: u :: ts)) with (quote t ++ [space] ++ render_line (u :: ts)).
  rewrite last_app, last_app. by destruct (last (render_line (u :: ts))).
Qed.

Lemma lines_render {St} path (addError : PackageError → St → St) callback ds st :
  Forall (λ d, d ≠ []) ds →
  lines path addError callback (render_lines ds) st = directives_from callback 1 ds st.
Proof.
  unfold lines. generalize 1 as n. intros n Hds. revert n st.
  induction Hds as [|d ds Hd Hds IH]; intros n st; [done|].
  unfold render_lines. simpl. rewrite <- app_assoc. simpl.
  rewrite split_on_app by apply newline_not_render_line. simpl.
  unfold line_step at 1. rewrite strip_carriage_render_line, tokenize_render_line. simpl.
  destruct d; [done|]. apply IH.
Qed.

Lemma render_lines_app ds1 ds2 : render_lines (ds1 ++ ds2) = render_lines ds1 ++ render_lines ds2.
Proof. unfold render_lines. by rewrite map_app, concat_app. Qed.

Lemma render_lines_map {A} (f : A → list bytes) (g : A → bytes) l :
  (∀ x, x ∈ l → g x = render_line (f x) ++ [newline]) →
  concat (map g l) = render_lines (map f l).
Proof.
  induction l as [|x l IH]; intros H; [done|]. unfold render_lines. simpl.
  rewrite H by by left. f_equal. apply IH. intros; apply H; by right.
Qed.

Lemma directives_from_app {St} (callback : list bytes → nat → St → St) n ds1 ds2 st :
  directives_from callback n (ds1 ++ ds2) st =
  directives_from callback (n + length ds1) ds2 (directives_from callback n ds1 st).
Proof.
  revert n st. induction ds1 as [|d ds1 IH]; intros n st; simpl; [by rewrite Nat.add_0_r|].
  rewrite IH. f_equal. lia.
Qed.

(** Consecutive directives of one kind, under an invariant [I] of what is left. *)
Lemma directives_foldl {St X} (callback : list bytes → nat → St → St) (tokens : X → list bytes)
    (push : St → X → St) (I : list X → St → Prop) xs n st :
  (∀ x xs st n, I (x :: xs) st → callback (tokens x) n st = push st x ∧ I xs (push st x)) →
  I xs st → directives_from callback n (map tokens xs) st = foldl push st xs.
Proof.
  intros Hstep. revert n st. induction xs as [|x xs IH]; intros n st Hi; simpl; [done|].
  destruct (Hstep x xs st n Hi) as [-> Hi']. by apply IH.
Qed.

(** What every directive handler and every error preserve holds after the lines. *)
Lemma lines_ind {St} (P : St → Prop) path (addError : PackageError → St → St) callback source st :
  (∀ e st, P st → P (addError e st)) → (∀ ts n st, P st → P (callback ts n st)) →
  P st → P (lines path addError callback source st).
Proof.
  intros He Hc. unfold lines. generalize 1. generalize (split_on newline source).
  intros ls. revert st. induction ls as [|l ls IH]; intros st n Hst; simpl; [done|]. apply IH.
  unfold line_step. destruct (token_error _) as [[? ?]|]; [by apply He|].
  destruct (token_values _); [done|by apply Hc].
Qed.

(** ** Theorems *)

(** quoting is inverted by the tokenizer for every list of tokens over all 256
    bytes: the quoted tokens joined by blanks tokenize back to the same tokens
    with no error, empty tokens, quotes, backslashes, comments and line breaks
    included. *)
Theorem tokenize_quote (tokens : list bytes) :
  tokenize (join_with [space] (map quote tokens)) = mkLineTokens tokens None.
Proof. apply tokenize_render_line. Qed.

(** The tokenizer loop ends on every line: with one turn more than the line
    has bytes it returns a result, whatever was collected before. *)
Theorem tokenize_terminates (line : bytes) (offset : nat) (values : list bytes) :
  ∃ result, tokenize_loop (S (length line)) line offset values = Some result.
Proof. apply tokenize_loop_total. lia. Qed.
