(* ===== verification/FsPath.v ===== *)
(** * [std::filesystem::path] on POSIX hosts

    The purely lexical operations of the C++ standard library that the package
    code uses: decomposition into elements, [lexically_normal],
    [lexically_relative], [extension], equality and order.  A path is its native
    string; a root directory is a leading [/] and there are no root names. *)
From S2P Require Import Prelude.

Definition slash : ascii := "/"%char.
Definition dot : bytes := lit ".".
Definition dotdot : bytes := lit "..".

Definition has_root (p : bytes) : bool := bool_decide (head p = Some slash).
(** The filenames between separators; runs of separators count as one. *)
Definition path_names (p : bytes) : list bytes := filter (λ n : bytes, n ≠ []) (split_on slash p).
(** A trailing separator shows as an empty last element. *)
Definition has_trailing (p : bytes) : bool :=
  bool_decide (last p = Some slash) && bool_decide (path_names p ≠ []).

(** [begin() .. end()]. *)
Definition path_elements (p : bytes) : list bytes :=
  (if has_root p then [[slash]] else []) ++ path_names p ++ (if has_trailing p then [[]] else []).

Definition path_eqb (p q : bytes) : bool := bool_decide (path_elements p = path_elements q).

(** [path::compare]: the root directory, then the elements. *)
Definition path_key (p : bytes) : bool * list bytes := (has_root p, path_elements p).

(** One filename of [lexically_normal]: [.] disappears, [..] cancels the filename
    before it and disappears directly below the root. *)
Definition normal_step (root : bool) (stack : list bytes) (n : bytes) : list bytes :=
  if bool_decide (n = dot) then stack
  else if bool_decide (n = dotdot) then
    match last stack with
    | Some t => if bool_decide (t = dotdot) then stack ++ [n] else removelast stack
    | None => if root then stack else stack ++ [n]
    end
  else stack ++ [n].

Definition render_path (root : bool) (stack : list bytes) (trailing : bool) : bytes :=
  (if root then [slash] else []) ++ join_with [slash] stack ++ (if trailing then [slash] else []).

Definition lexically_normal (p : bytes) : bytes :=
  if bool_decide (p = []) then []
  else
    let stack := foldl (normal_step (has_root p)) [] (path_names p) in
    if bool_decide (stack = []) then (if has_root p then [slash] else dot)
    else
      let trailing := has_trailing p || bool_decide (last (path_names p) = Some dot)
                      || bool_decide (last (path_names p) = Some dotdot) in
      render_path (has_root p) stack (trailing && bool_decide (last stack ≠ Some dotdot)).

(** The extension of the last element: from the rightmost dot, unless that dot
    comes first. *)
Definition extension (p : bytes) : bytes :=
  let filename := if has_trailing p then [] else default [] (last (path_names p)) in
  if bool_decide (filename = dot) || bool_decide (filename = dotdot) then []
  else match find_byte "." (rev filename) with
       | None => []
       | Some n => if bool_decide (S n = length filename) then []
                   else drop (length filename - S n) filename
       end.

Fixpoint drop_common (a b : list bytes) : list bytes * list bytes :=
  match a, b with
  | x :: a', y :: b' => if bool_decide (x = y) then drop_common a' b' else (a, b)
  | _, _ => (a, b)
  end.

(** Elements of [base] still to climb: [..] counts back, empty and [.] not at all. *)
Definition climb (b : list bytes) : Z :=
  foldr (λ e n, if bool_decide (e = dotdot) then n - 1
                else if bool_decide (e = []) || bool_decide (e = dot) then n
                else n + 1)%Z 0%Z b.

(** [p.lexically_relative(base)] as its elements; [[]] is the empty path. *)
Definition lexically_relative (p base : bytes) : list bytes :=
  if negb (bool_decide (has_root p = has_root base)) then []
  else
    let '(a, b) := drop_common (path_elements p) (path_elements base) in
    if bool_decide (a = []) && bool_decide (b = []) then [dot]
    else
      let n := climb b in
      if (n <? 0)%Z then []
      else if (n =? 0)%Z && bool_decide (default [] (head a) = []) then [dot]
      else replicate (Z.to_nat n) dotdot ++ a.

(** [operator/]: an absolute right operand replaces the left one. *)
Definition path_append (p q : bytes) : bytes :=
  if has_root q then q
  else if bool_decide (p = []) || bool_decide (last p = Some slash) then p ++ q
  else p ++ [slash] ++ q.

(** [parent_path]: everything before the last element, without the separators
    that end it; a path that is all root is its own parent. *)
Fixpoint drop_while_slash (rev_p : bytes) : bytes :=
  match rev_p with c :: l => if bool_decide (c = slash) then drop_while_slash l else rev_p | [] => [] end.
Fixpoint drop_name (rev_p : bytes) : bytes :=
  match rev_p with c :: l => if bool_decide (c = slash) then rev_p else drop_name l | [] => [] end.
Definition parent_path (p : bytes) : bytes :=
  if bool_decide (path_names p = []) then p
  else match drop_while_slash (drop_name (rev p)) with
       | [] => if has_root p then [slash] else []
       | rev_parent => rev rev_parent
       end.

(** ** Normal forms *)

(** A filename: non-empty and without separator. *)
Definition is_name (n : bytes) : Prop := n ≠ [] ∧ slash ∉ n.

(** Leading [..] (none below a root), then ordinary filenames. *)
Definition normal_stack (root : bool) (stack : list bytes) : Prop :=
  ∃ k rest, stack = replicate k dotdot ++ rest ∧ (root = true → k = 0) ∧
    Forall (λ n, is_name n ∧ n ≠ dot ∧ n ≠ dotdot) rest.

Lemma names_are_names p : Forall is_name (path_names p).
Proof.
  unfold path_names. apply Forall_forall. intros n [Hn Hin]%list_elem_of_filter.
  pose proof (split_on_pieces slash p) as H. rewrite Forall_forall in H. split; [done|by apply H].
Qed.

Lemma normal_step_stack root stack n :
  is_name n → normal_stack root stack → normal_stack root (normal_step root stack n).
Proof.
  intros Hn (k & rest & -> & Hk & Hrest). unfold normal_step.
  case_bool_decide as E1; [by exists k, rest|]. case_bool_decide as E2; [subst|].
  - destruct rest as [|x rest _] using rev_ind.
    + rewrite app_nil_r. destruct k as [|k].
      * simpl. destruct root; [by exists 0, []|]. by exists 1, [].
      * assert (last (replicate (S k) dotdot) = Some dotdot) as ->.
        { rewrite replicate_S_end. apply last_snoc. }
        rewrite bool_decide_true by done. rewrite <- replicate_S_end.
        exists (S (S k)), []. rewrite app_nil_r. split; [done|]. split; [|done].
        intros E. by apply Hk in E.
    + apply Forall_app in Hrest as [Hrest Hx%Forall_inv].
      rewrite app_assoc, last_snoc, bool_decide_false by apply Hx.
      rewrite removelast_last. by exists k, rest.
  - exists k, (rest ++ [n]). rewrite app_assoc. split; [done|]. split; [done|].
    apply Forall_app. split; [done|]. constructor; [done|constructor].
Qed.

Lemma normal_fold_stack root ns :
  Forall is_name ns → normal_stack root (foldl (normal_step root) [] ns).
Proof.
  induction ns as [|n ns IH] using rev_ind; intros H; [by exists 0, []|].
  apply Forall_app in H as [H Hn%Forall_inv]. rewrite foldl_snoc. auto using normal_step_stack.
Qed.

(** A stack in normal form is a fixed point of the fold. *)
Lemma normal_stack_fixed root stack :
  normal_stack root stack → foldl (normal_step root) [] stack = stack.
Proof.
  intros (k & rest & -> & Hk & Hrest). induction rest as [|n rest IH] using rev_ind.
  - rewrite app_nil_r. clear Hrest. induction k as [|k IH]; [done|].
    assert (root = false) as -> by (destruct root; [by specialize (Hk eq_refl)|done]).
    rewrite replicate_S_end, foldl_snoc, IH by done.
    unfold normal_step. rewrite bool_decide_false, bool_decide_true by done.
    destruct k as [|k]; [done|]. rewrite replicate_S_end, last_snoc.
    by rewrite bool_decide_true.
  - apply Forall_app in Hrest as [Hrest (_ & ? & ?)%Forall_inv].
    rewrite app_assoc, foldl_snoc, IH by done. unfold normal_step.
    by rewrite !bool_decide_false.
Qed.

Lemma normal_stack_names root stack : normal_stack root stack → Forall is_name stack.
Proof.
  intros (k & rest & -> & _ & H). apply Forall_app. split.
  - apply Forall_replicate. split; [done|]. by apply (bool_decide_unpack _).
  - eapply Forall_impl; [exact H|]. by intros ? [? _].
Qed.

Section render_path.
Context (stack : list bytes) (Hne : stack ≠ []) (Hnames : Forall is_name stack).

Lemma join_stack_head : ∃ c rest, join_with [slash] stack = c :: rest ∧ c ≠ slash.
Proof.
  destruct Hnames as [|n ns [Hn Hs] _]; [done|]. destruct n as [|c n]; [done|].
  exists c. rewrite not_elem_of_cons in Hs. destruct ns; simpl; eexists; split; try done; naive_solver.
Qed.

Lemma join_stack_last : ∃ c rest, join_with [slash] stack = rest ++ [c] ∧ c ≠ slash.
Proof.
  clear -Hne Hnames. induction Hnames as [|n ns [Hn Hs] Hns IH]; [done|].
  destruct ns as [|m ns].
  - destruct n as [|c n _] using rev_ind; [done|]. exists c, n. split; [done|].
    intros ->. apply Hs. set_solver.
  - destruct IH as (c & rest & E & Hc); [done..|]. exists c, (n ++ [slash] ++ rest).
    change (join_with [slash] (n :: m :: ns)) with (n ++ [slash] ++ join_with [slash] (m :: ns)).
    rewrite E. by rewrite <- !app_assoc.
Qed.

Lemma filter_names_id ns : Forall is_name ns → filter (λ n : bytes, n ≠ []) ns = ns.
Proof.
  induction 1 as [|n ns [Hn _] _ IH]; [done|]. by rewrite filter_cons_True, IH.
Qed.

Lemma join_trailing : join_with [slash] stack ++ [slash] = join_with [slash] (stack ++ [[]]).
Proof.
  clear Hnames. induction stack as [|n [|m ns] IH]; [done|done|].
  change (join_with [slash] (n :: m :: ns)) with (n ++ [slash] ++ join_with [slash] (m :: ns)).
  rewrite <- app_assoc. rewrite <- app_assoc. rewrite IH by done. done.
Qed.

Lemma names_render root tr : path_names (render_path root stack tr) = stack.
Proof.
  assert (Forall (λ p, slash ∉ p) stack) as Hs.
  { eapply Forall_impl; [exact Hnames|]. by intros ? [_ ?]. }
  assert (path_names (join_with [slash] stack ++ (if tr then [slash] else [])) = stack) as E.
  { unfold path_names. destruct tr.
    - rewrite join_trailing, split_join; [|by destruct stack|].
      + rewrite filter_app, filter_names_id by done. simpl. by rewrite app_nil_r.
      + apply Forall_app. split; [done|]. constructor; [set_solver|constructor].
    - rewrite app_nil_r, split_join by done. by apply filter_names_id. }
  unfold render_path, path_names in *. by destruct root.
Qed.

Lemma has_root_render root tr : has_root (render_path root stack tr) = root.
Proof.
  unfold has_root, render_path. destruct root; [done|].
  destruct join_stack_head as (c & rest & -> & Hc). apply bool_decide_eq_false. simpl. congruence.
Qed.

Lemma has_trailing_render root tr : has_trailing (render_path root stack tr) = tr.
Proof.
  unfold has_trailing. rewrite names_render, (bool_decide_true (stack ≠ [])), andb_true_r by done.
  unfold render_path. destruct tr.
  - rewrite app_assoc, last_snoc. by apply bool_decide_eq_true.
  - rewrite app_nil_r. destruct join_stack_last as (c & rest & -> & Hc).
    rewrite app_assoc, last_snoc. apply bool_decide_eq_false. congruence.
Qed.
End render_path.

Lemma render_path_nonempty root stack tr :
  stack ≠ [] → Forall is_name stack → render_path root stack tr ≠ [].
Proof.
  intros Hne H E. pose proof (names_render stack Hne H root tr) as Hn. by rewrite E in Hn.
Qed.

Lemma has_root_dot p : has_root p = false → p ≠ [] → lexically_normal p ≠ [].
Proof.
  intros Hr Hp. unfold lexically_normal. rewrite bool_decide_false by done.
  case_bool_decide as Hs; [by rewrite Hr|].
  apply render_path_nonempty; [done|]. eapply normal_stack_names, normal_fold_stack, names_are_names.
Qed.

(** Without [..] a relative path only loses its [.] elements. *)
Lemma normal_fold_plain ns acc :
  dotdot ∉ ns → foldl (normal_step false) acc ns = acc ++ filter (λ n, n ≠ dot) ns.
Proof.
  revert acc. induction ns as [|n ns IH]; intros acc Hn; simpl; [by rewrite app_nil_r|].
  apply not_elem_of_cons in Hn as [Hn Hns]. rewrite IH by done. unfold normal_step.
  rewrite filter_cons. case_bool_decide as Hd; [by rewrite decide_False by auto|].
  rewrite bool_decide_false by done. rewrite decide_True by done. by rewrite <- app_assoc.
Qed.

Lemma lexically_normal_closed (p : bytes) :
  lexically_normal (lexically_normal p) = lexically_normal p.
Proof.
  unfold lexically_normal at 2 3. case_bool_decide as Hp; [done|].
  set (stack := foldl (normal_step (has_root p)) [] (path_names p)).
  assert (normal_stack (has_root p) stack) as Hns by apply normal_fold_stack, names_are_names.
  case_bool_decide as Hs; [by destruct (has_root p)|].
  pose proof (normal_stack_names _ _ Hns) as Hnames.
  set (tr := _ && bool_decide _). unfold lexically_normal at 1.
  rewrite bool_decide_false by by apply render_path_nonempty.
  rewrite has_root_render, names_render, has_trailing_render, normal_stack_fixed by done.
  rewrite bool_decide_false by done. f_equal. unfold tr.
  destruct Hns as (k & rest & Hst & Hk & Hrest).
  destruct (bool_decide (last stack ≠ Some dotdot)) eqn:E; rewrite ?andb_false_r; [|done].
  apply bool_decide_eq_true in E. rewrite !andb_true_r.
  assert (last stack ≠ Some dot) as Hd.
  { intros Hl. rewrite Hst in Hl. apply last_Some in Hl as (l & Hl).
    destruct rest as [|x rest _] using rev_ind.
    - rewrite app_nil_r in Hl. destruct k; [by destruct l|].
      rewrite replicate_S_end in Hl. by apply app_inj_tail in Hl as [_ ?].
    - rewrite app_assoc in Hl. apply app_inj_tail in Hl as [_ ->].
      apply Forall_app in Hrest as [_ Hx%Forall_inv]. by destruct Hx as (_ & ? & _). }
  rewrite (bool_decide_false (last stack = Some dot)), (bool_decide_false (last stack = Some dotdot)) by done.
  by rewrite !orb_false_r.
Qed.

(** ** Theorems *)

(** Normalisation is a closure: normalising a path twice is normalising it
    once, for every byte string taken as a POSIX path. *)
Lemma lexically_normal_idempotent (p : bytes) :
  lexically_normal (lexically_normal p) = lexically_normal p.
Proof. apply lexically_normal_closed. Qed.
