(* ===== verification/Package.v ===== *)
(** * Package data and lexical checks shared by manifests, locks and the resolver

    compiler/include/foundation/package.hpp and the helpers at the top of
    compiler/src/package.cpp. *)
From S2P Require Import Prelude Target CodeStandard Version PackageText FsPath.

Definition maxPackageEntries : nat := N.to_nat 4096.
#[global] Opaque maxPackageEntries.

Module PackageLocationKind.
Inductive t := Path | Registry | Sdk.
End PackageLocationKind.
Abbreviation PackageLocationKind := PackageLocationKind.t.

Module PackageDependencyScope.
Inductive t := Runtime | Test.
End PackageDependencyScope.
Abbreviation PackageDependencyScope := PackageDependencyScope.t.

#[global] Instance location_kind_eq_dec : EqDecision PackageLocationKind.
Proof. solve_decision. Defined.
#[global] Instance scope_eq_dec : EqDecision PackageDependencyScope.
Proof. solve_decision. Defined.

Definition location_kind_index (k : PackageLocationKind) : nat :=
  match k with
  | PackageLocationKind.Path => 0 | PackageLocationKind.Registry => 1
  | PackageLocationKind.Sdk => 2
  end.
#[global] Instance location_kind_compare : Compare PackageLocationKind := cmp_on location_kind_index.
#[global] Instance location_kind_compare_laws : CompareLaws PackageLocationKind.
Proof. apply cmp_on_laws. by intros [] []. Qed.

Definition scope_index (s : PackageDependencyScope) : nat :=
  match s with PackageDependencyScope.Runtime => 0 | PackageDependencyScope.Test => 1 end.
#[global] Instance scope_compare : Compare PackageDependencyScope := cmp_on scope_index.
#[global] Instance scope_compare_laws : CompareLaws PackageDependencyScope.
Proof. apply cmp_on_laws. by intros [] []. Qed.

#[global] Instance scope_countable : Countable PackageDependencyScope :=
  inj_countable' (λ s, match s with PackageDependencyScope.Runtime => false | PackageDependencyScope.Test => true end)
    (λ b : bool, if b then PackageDependencyScope.Test else PackageDependencyScope.Runtime)
    ltac:(by intros []).

Record PackageDependency := mkDependency {
  dep_name : bytes;
  dep_requirement : PackageRequirement;
  dep_kind : PackageLocationKind;
  dep_location : bytes;
  dep_target : option TargetSelector;
  dep_scope : PackageDependencyScope;
}.

Record NativeLink := mkNativeLink { link_library : bytes; link_target : option TargetSelector }.
Record NativeSource := mkNativeSource { source_path : bytes; source_target : option TargetSelector }.

Record Foreign := mkForeign {
  foreign_ecosystem : bytes;
  foreign_identifier : bytes;
  foreign_version : bytes;
  foreign_kind : bytes;
  foreign_resolver : bytes;
}.

Record PackageManifest := mkManifest {
  m_name : bytes;
  m_version : PackageVersion;
  m_language : N;
  m_languageExplicit : bool;
  m_sdk : PackageRequirement;
  m_codeStandard : CodeStandardProfile;
  m_codeStandardExplicit : bool;
  m_codeStandardRules : list CodeStandardRuleSetting;
  m_source : bytes;
  m_testSource : option bytes;
  m_dependencies : list PackageDependency;
  m_nativeLibrary : bool;
  m_nativeName : option bytes;
  m_nativeSOVersion : option N;
  m_nativeSources : list NativeSource;
  m_nativeLinks : list NativeLink;
  m_foreign : list Foreign;
}.

Record LockedPackage := mkLockedPackage {
  lp_name : bytes;
  lp_version : PackageVersion;
  lp_digest : bytes;
  lp_kind : PackageLocationKind;
  lp_location : bytes;
}.

Record PackageEdge := mkEdge {
  e_parent : bytes;
  e_dependency : bytes;
  e_scope : PackageDependencyScope;
}.

Record LockedNativeLibrary := mkLockedNative {
  ln_name : bytes;
  ln_soVersion : option N;
  ln_digest : bytes;
}.

Record LockedForeign := mkLockedForeign {
  lf_ecosystem : bytes;
  lf_identifier : bytes;
  lf_version : bytes;
  lf_kind : bytes;
  lf_resolver : bytes;
  lf_digest : bytes;
}.

Record PackageLock := mkLock {
  l_rootName : bytes;
  l_rootVersion : PackageVersion;
  l_target : TargetPlatform;
  l_nativeLibrary : option LockedNativeLibrary;
  l_foreign : list LockedForeign;
  l_packages : list LockedPackage;
  l_edges : list PackageEdge;
}.

Record PackageCandidate := mkCandidate {
  pc_manifest : PackageManifest;
  pc_digest : bytes;
  pc_kind : PackageLocationKind;
  pc_location : bytes;
  pc_root : bytes;
}.

Record PackageResolution := mkResolution {
  resolution_lock : PackageLock;
  resolution_packages : list PackageCandidate;
}.

#[global] Instance dependency_eq_dec : EqDecision PackageDependency.
Proof. solve_decision. Defined.
#[global] Instance edge_eq_dec : EqDecision PackageEdge.
Proof. solve_decision. Defined.

(** [PackageParseResult]: a value, or the errors that prevented it. *)
Record PackageParseResult (T : Type) := mkResult {
  result_value : option T;
  result_errors : list PackageError;
}.
Arguments mkResult {T}.
Arguments result_value {T}.
Arguments result_errors {T}.

(** ** Names and checks *)

Definition locationKind (value : bytes) : option PackageLocationKind :=
  if bool_decide (value = lit "path") then Some PackageLocationKind.Path
  else if bool_decide (value = lit "registry") then Some PackageLocationKind.Registry
  else if bool_decide (value = lit "sdk") then Some PackageLocationKind.Sdk
  else None.

Definition locationName (kind : PackageLocationKind) : bytes :=
  match kind with
  | PackageLocationKind.Path => lit "path"
  | PackageLocationKind.Registry => lit "registry"
  | PackageLocationKind.Sdk => lit "sdk"
  end.

#[global] Instance location_codec : Codec PackageLocationKind := {
  render := locationName; parse := locationKind; codec_wf _ := True }.
#[global] Instance location_codec_laws : CodecLaws PackageLocationKind.
Proof. unfold location_codec, locationKind. solve_enum_codec. Qed.

Definition scopeName (scope : PackageDependencyScope) : bytes :=
  if bool_decide (scope = PackageDependencyScope.Test) then lit "test" else lit "runtime".

(** One normalised path is a prefix of the other, element by element. *)
Definition nestedSource (left right : bytes) : bool :=
  let l := path_elements (lexically_normal left) in
  let r := path_elements (lexically_normal right) in
  let '(restLeft, restRight) := drop_common l r in
  bool_decide (restLeft = []) || bool_decide (restRight = []).

Definition overlappingTargets (left right : option TargetSelector) : bool :=
  match left, right with
  | Some l, Some r => targetSelectorsOverlap l r
  | _, _ => true
  end.

Definition relativeSource (value : bytes) : bool :=
  if bool_decide (value = []) || has_root value || path_eqb (lexically_normal value) dot then false
  else forallb (λ part, negb (path_eqb part dotdot)) (path_elements value).

Definition validLocation (kind : PackageLocationKind) (value : bytes) : bool :=
  if bool_decide (value = []) || existsb (λ byte, (byte_val byte <? 32)%N) value then false
  else match kind with
       | PackageLocationKind.Registry => identifier value
       | PackageLocationKind.Sdk => relativeSource value
       | PackageLocationKind.Path => negb (has_root value)
       end.

Definition lower_hex (byte : ascii) : bool := isdigit byte || between 97 102 byte.

Definition digest (value : bytes) : bool :=
  starts_with (lit "sha256:") value && bool_decide (length value = 71) &&
  forallb lower_hex (drop 7 value).

(** The codec laws of the parts, in the form the handlers use. *)
Lemma version_reads v : version_wf v → parsePackageVersion (version_string v) = Some v.
Proof. exact (parse_render v). Qed.
Lemma location_reads k : locationKind (locationName k) = Some k.
Proof. exact (parse_render k I). Qed.
Lemma target_reads t : codec_wf t → parseTargetPlatform (targetPlatformName t) = Some t.
Proof. exact (parse_render t). Qed.
Lemma version_parsed t v : parsePackageVersion t = Some v → version_wf v ∧ version_string v = t.
Proof. exact (render_parse t v). Qed.
Lemma target_parsed t p : parseTargetPlatform t = Some p → p ≠ Unknown ∧ targetPlatformName p = t.
Proof. exact (render_parse t p). Qed.

Lemma requirement_reads r : requirement_wf r → parsePackageRequirement (requirement_string r) = Some r.
Proof. exact (parse_render r). Qed.
Lemma requirement_parsed t r : parsePackageRequirement t = Some r → requirement_wf r ∧ requirement_string r = t.
Proof. exact (render_parse t r). Qed.
Lemma selector_reads s : parseTargetSelector (targetSelectorName s) = Some s.
Proof. exact (parse_render s I). Qed.
Lemma profile_reads p : parseCodeStandardProfile (codeStandardProfileName p) = Some p.
Proof. exact (parse_render p I). Qed.
Lemma severity_reads s : parseCodeStandardSeverity (codeStandardSeverityName s) = Some s.
Proof. exact (parse_render s I). Qed.

(** ** Facts about plain tokens *)

Lemma identifier_loop_plain segment value :
  identifier_loop segment value = true → Forall (λ c, needs_quote c = false) value.
Proof.
  revert segment. induction value as [|c value IH]; intros segment; simpl; [by constructor|].
  case_bool_decide as Hc.
  { subst. destruct segment; [done|]. intros H. constructor; [done|]. by eapply IH. }
  destruct segment.
  - destruct (isalpha c) eqn:E; simpl; [|done]. intros H. constructor; [|by eapply IH].
    revert E. byte_cases c.
  - destruct (negb (isalnum c)) eqn:E; simpl.
    + destruct (bool_decide (c ≠ "-"%char)) eqn:E1; simpl.
      * destruct (bool_decide (c ≠ "_"%char)) eqn:E2; simpl; [done|].
        apply bool_decide_eq_false, dec_stable in E2 as ->. intros H.
        constructor; [done|]. by eapply IH.
      * apply bool_decide_eq_false, dec_stable in E1 as ->. intros H.
        constructor; [done|]. by eapply IH.
    + intros H. constructor; [|by eapply IH]. revert E. byte_cases c.
Qed.

Lemma identifier_plain value :
  identifier value = true → value ≠ [] ∧ Forall (λ c, needs_quote c = false) value.
Proof. destruct value; [done|]. intros H. split; [done|]. by eapply identifier_loop_plain. Qed.

Lemma quote_identifier value : identifier value = true → quote value = value.
Proof. intros [??]%identifier_plain. by apply quote_plain. Qed.

Lemma digest_plain value :
  digest value = true → value ≠ [] ∧ Forall (λ c, needs_quote c = false) value.
Proof.
  unfold digest. rewrite !andb_true_iff, bool_decide_eq_true, forallb_Forall.
  intros [[(r & ->)%starts_with_prefix Hl] H]. split; [done|]. apply Forall_app. split.
  - by repeat constructor.
  - simpl in H. rewrite drop_0 in H. eapply Forall_impl; [exact H|]. intros c. byte_cases c.
Qed.

Lemma digits_plain value :
  Forall (λ c, isdigit c = true) value → Forall (λ c, needs_quote c = false) value.
Proof. intros H. eapply Forall_impl; [exact H|]. intros c. byte_cases c. Qed.

Lemma versionIdentifier_plain value :
  versionIdentifier value = true → Forall (λ c, needs_quote c = false) value.
Proof.
  intros H. apply Forall_forall. intros c Hc.
  destruct (versionIdentifier_char _ _ H Hc) as [E| ->]; [revert E; byte_cases c|done].
Qed.

Lemma join_plain reject l :
  Forall (component_wf reject) l → Forall (λ c, needs_quote c = false) (join l).
Proof.
  intros H. apply Forall_forall. intros c Hc.
  rewrite join_join_with in Hc by by eapply component_wf_nonempty.
  apply elem_of_join_with in Hc as [Hc|(p & Hp & Hc)].
  - by apply list_elem_of_singleton in Hc as ->.
  - rewrite Forall_forall in H. apply H in Hp as [Hp _]. apply versionIdentifier_plain in Hp.
    rewrite Forall_forall in Hp. by apply Hp.
Qed.

Lemma version_string_plain v :
  version_wf v → version_string v ≠ [] ∧ Forall (λ c, needs_quote c = false) (version_string v).
Proof.
  intros (_ & _ & _ & Hp & Hb & _). split.
  { destruct (version_string_head v) as (? & ? & -> & _). done. }
  assert (∀ n, Forall (λ c, needs_quote c = false) (to_string n)) as Hn.
  { intros n. apply digits_plain. apply to_string_canonical. }
  apply join_plain in Hp, Hb. unfold version_string.
  rewrite !Forall_app. repeat split; auto; try by repeat constructor.
  - case_bool_decide; [constructor|]. apply Forall_app. split; [by repeat constructor|done].
  - case_bool_decide; [constructor|]. apply Forall_app. split; [by repeat constructor|done].
Qed.

Lemma quote_version v : version_wf v → quote (version_string v) = version_string v.
Proof. intros [??]%version_string_plain. by apply quote_plain. Qed.

Lemma quote_digest d : digest d = true → quote d = d.
Proof. intros [??]%digest_plain. by apply quote_plain. Qed.
Lemma quote_location kind : quote (locationName kind) = locationName kind.
Proof. by destruct kind. Qed.
Lemma quote_target t : quote (targetPlatformName t) = targetPlatformName t.
Proof. by destruct t. Qed.
Lemma quote_selector s : quote (targetSelectorName s) = targetSelectorName s.
Proof. by destruct s. Qed.
Lemma quote_profile p : quote (codeStandardProfileName p) = codeStandardProfileName p.
Proof. by destruct p. Qed.
Lemma quote_severity s : quote (codeStandardSeverityName s) = codeStandardSeverityName s.
Proof. by destruct s. Qed.
Lemma quote_number n : quote (to_string n) = to_string n.
Proof.
  destruct (to_string_spec n) as (_ & H & Hn & _). apply quote_plain; [done|by apply digits_plain].
Qed.
Lemma quote_requirement r : requirement_wf r → quote (requirement_string r) = requirement_string r.
Proof.
  unfold requirement_wf, requirement_string. destruct r as [[] v]; cbn; [done|..];
    intros [? ?]%version_string_plain; apply quote_plain; try done; by repeat constructor.
Qed.
Lemma quote_code code : configurableCodeStandardRule code = true → quote code = code.
Proof.
  rewrite configurable_elem. unfold configurableCodes.
  repeat (intros [->|H]%elem_of_cons; [done|revert H]). by intros H%elem_of_nil.
Qed.

(** Drop the quoting of the tokens that need none. *)
Ltac plain_tokens :=
  repeat match goal with
  | |- context [quote ?t] =>
      first [rewrite (quote_identifier t) by done | rewrite (quote_digest t) by done
            | rewrite quote_location | rewrite quote_target | rewrite quote_selector
            | rewrite quote_profile | rewrite quote_severity | rewrite quote_number
            | rewrite quote_version by done | rewrite quote_requirement by done
            | rewrite (quote_code t) by done | progress change (quote t) with t]
  end.

(** ** Normalising a relative source keeps it relative *)

Lemma path_elements_name n : is_name n → path_elements n = [n].
Proof.
  intros [Hn Hs].
  assert (has_root n = false) as Hr.
  { apply bool_decide_eq_false. destruct n; [done|]. intros [= ->]. apply Hs. by left. }
  assert (path_names n = [n]) as Hp.
  { unfold path_names. rewrite split_on_none by done. by rewrite filter_cons_True. }
  assert (has_trailing n = false) as Ht.
  { unfold has_trailing. apply andb_false_iff. left. apply bool_decide_eq_false.
    intros (l & ->)%last_Some. apply Hs. set_solver. }
  unfold path_elements. by rewrite Hr, Hp, Ht.
Qed.

Lemma path_eqb_name n m : is_name n → is_name m → path_eqb n m = bool_decide (n = m).
Proof.
  intros Hn Hm. unfold path_eqb. rewrite !path_elements_name by done.
  apply bool_decide_ext. split; [by intros [= ->]|by intros ->].
Qed.

Lemma is_name_dotdot : is_name dotdot.
Proof. split; [done|]. by apply (bool_decide_unpack _). Qed.

Lemma relativeSource_spec value :
  relativeSource value = true ↔
  value ≠ [] ∧ has_root value = false ∧ path_eqb (lexically_normal value) dot = false ∧
  dotdot ∉ path_names value.
Proof.
  unfold relativeSource.
  destruct (_ || _) eqn:E; to_prop.
  { split; [done|]. destruct (has_root value), (path_eqb _ _); naive_solver. }
  destruct E as [[Hv Hr] Hd]. split.
  - intros H. repeat split; try done. intros Hin. rewrite Forall_forall in H.
    specialize (H dotdot). unfold path_elements in H. rewrite Hr in H.
    by specialize (H ltac:(set_solver)).
  - intros (_ & _ & _ & Hn). apply Forall_forall. intros part. unfold path_elements. rewrite Hr. simpl.
    rewrite elem_of_app. intros [Hp|Hp].
    + pose proof (names_are_names value) as Hnames. rewrite Forall_forall in Hnames.
      rewrite path_eqb_name by first [by apply Hnames|apply is_name_dotdot].
      apply negb_true_iff, bool_decide_eq_false. by intros ->.
    + destruct (has_trailing value); [|by apply elem_of_nil in Hp].
      by apply list_elem_of_singleton in Hp as ->.
Qed.

Lemma relativeSource_normal value :
  relativeSource value = true → relativeSource (lexically_normal value) = true.
Proof.
  rewrite !relativeSource_spec. intros (Hv & Hr & Hd & Hn).
  rewrite lexically_normal_closed. unfold lexically_normal in *.
  rewrite (bool_decide_false (value = [])) in * by done. rewrite Hr in *. rewrite normal_fold_plain in * by done.
  rewrite app_nil_l in *. case_bool_decide as Hs; [by vm_compute in Hd|].
  assert (Forall is_name (filter (λ n, n ≠ dot) (path_names value))) as Hnames.
  { apply Forall_forall. intros n [_ H]%list_elem_of_filter.
    pose proof (names_are_names value) as Hall. rewrite Forall_forall in Hall. by apply Hall. }
  rewrite has_root_render, names_render by done. repeat split; try done.
  - by apply render_path_nonempty.
  - intros [_ H]%list_elem_of_filter. done.
Qed.
