(* ===== verification/Graph.v ===== *)
(** * Directed graphs on finite edge lists

    Reachability by a work stack and acyclicity by in-degree counting (Kahn),
    in the form the package lock validation uses them, with their correctness
    with respect to the edge relation. *)
From S2P Require Import Prelude.

Lemma tc_last {B} (R : relation B) x z : tc R x z → ∃ y, R y z ∧ rtc R x y.
Proof.
  induction 1 as [x y Hxy|x y z Hxy Hyz (w & ? & ?)].
  - exists x. split; [done|apply rtc_refl].
  - exists w. split; [done|by eapply rtc_l].
Qed.

Lemma tc_subrel {B} (R S : relation B) x y : (∀ x y, R x y → S x y) → tc R x y → tc S x y.
Proof. intros HRS. induction 1; [by apply tc_once, HRS|by eapply tc_l; eauto]. Qed.

Section graph.
Context `{Countable A}.
Implicit Types (graph : gmap A (list A)) (edges : list (A * A)) (x y : A).

(** [graph[name]] of a [std::map]: a missing key is an empty list. *)
Definition successors graph x : list A := default [] (graph !! x).
(** [graph[parent].push_back(dependency)]. *)
Definition graph_push graph x y : gmap A (list A) := <[x := successors graph x ++ [y]]> graph.
Definition graph_of (edges : list (A * A)) : gmap A (list A) :=
  foldl (λ g e, graph_push g e.1 e.2) ∅ edges.

(** [++incoming[name]] and the other uses of a counter map. *)
Definition count_of (incoming : gmap A nat) x : nat := default 0 (incoming !! x).

Definition count_push (incoming : gmap A nat) y : gmap A nat :=
  <[y := S (count_of incoming y)]> incoming.

Definition edge edges x y : Prop := (x, y) ∈ edges.
#[global] Instance edge_dec edges x y : Decision (edge edges x y).
Proof. unfold edge. apply _. Defined.
Definition children edges x : list A := (filter (λ e, e.1 = x) edges).*2.

Definition acyclic edges : Prop := ∀ x, ¬ tc (edge edges) x x.

(** The stack loop: pop a name, skip it when already reached, else push its
    successors in order, so that the last one is popped next. *)
Fixpoint reach_loop (fuel : nat) graph (pending : list A) (reached : gset A) : option (gset A) :=
  match fuel with
  | O => None
  | S fuel =>
      match pending with
      | [] => Some reached
      | name :: pending =>
          if bool_decide (name ∈ reached) then reach_loop fuel graph pending reached
          else reach_loop fuel graph (reverse (successors graph name) ++ pending) ({[name]} ∪ reached)
      end
  end.

(** One decrement: [--count; if (count == 0) pending.push_back(dependency)]. *)
Definition release (st : gmap A nat * list A) (dependency : A) : gmap A nat * list A :=
  let '(incoming, pending) := st in
  let count := count_of incoming dependency - 1 in
  (<[dependency := count]> incoming, if bool_decide (count = 0) then dependency :: pending else pending).

Fixpoint kahn_loop (fuel : nat) graph (incoming : gmap A nat) (pending : list A) (visited : nat)
    : option nat :=
  match fuel with
  | O => None
  | S fuel =>
      match pending with
      | [] => Some visited
      | name :: pending =>
          let '(incoming, pending) := foldl release (incoming, pending) (successors graph name) in
          kahn_loop fuel graph incoming pending (S visited)
      end
  end.

(** ** The edge relation and its graph *)

Lemma elem_of_children edges x y : y ∈ children edges x ↔ edge edges x y.
Proof.
  unfold children, edge. rewrite list_elem_of_fmap. setoid_rewrite list_elem_of_filter.
  split; [intros ([??] & -> & <- & ?); done|intros; exists (x, y); done].
Qed.

Lemma children_app es1 es2 x : children (es1 ++ es2) x = children es1 x ++ children es2 x.
Proof. unfold children. by rewrite filter_app, fmap_app. Qed.

Lemma successors_push graph x y z :
  successors (graph_push graph x y) z =
  successors graph z ++ (if decide (x = z) then [y] else []).
Proof.
  unfold successors, graph_push. destruct (decide (x = z)) as [->|].
  - by rewrite lookup_insert_eq.
  - by rewrite lookup_insert_ne, app_nil_r.
Qed.

Lemma successors_foldl edges graph x :
  successors (foldl (λ g e, graph_push g e.1 e.2) graph edges) x =
  successors graph x ++ children edges x.
Proof.
  revert graph. induction edges as [|[a b] edges IH]; intros graph; simpl.
  { by rewrite app_nil_r. }
  rewrite IH, successors_push, <- app_assoc. f_equal.
  change (children ((a, b) :: edges) x) with (children ([(a, b)] ++ edges) x).
  rewrite children_app. f_equal. unfold children. rewrite filter_cons, filter_nil.
  simpl. by destruct (decide (a = x)).
Qed.

Lemma children_NoDup edges x : NoDup edges → NoDup (children edges x).
Proof.
  intros Hnd. unfold children. apply NoDup_fmap_2_strong.
  - intros [a b] [c d] [? _]%list_elem_of_filter [? _]%list_elem_of_filter; simpl in *. naive_solver.
  - by apply NoDup_filter.
Qed.

(** ** Reachability *)
Section reach.
Context (edges : list (A * A)) (graph : gmap A (list A)).
Context (Hgraph : ∀ x, successors graph x = children edges x).

Lemma elem_of_successors x y : y ∈ successors graph x ↔ edge edges x y.
Proof. by rewrite Hgraph, elem_of_children. Qed.

Lemma reach_loop_sound fuel pending reached result root :
  reach_loop fuel graph pending reached = Some result →
  (∀ x, x ∈ pending ∨ x ∈ reached → rtc (edge edges) root x) →
  (∀ x y, x ∈ reached → edge edges x y → y ∈ reached ∨ y ∈ pending) →
  (∀ x, x ∈ result → rtc (edge edges) root x) ∧
  (∀ x y, x ∈ result → edge edges x y → y ∈ result) ∧
  (∀ x, x ∈ pending ∨ x ∈ reached → x ∈ result).
Proof.
  revert pending reached. induction fuel as [|fuel IH]; intros pending reached; simpl; [done|].
  destruct pending as [|n pending].
  { intros [= <-] Hr Hc. split; [|split]; [set_solver..|]. set_solver. }
  case_bool_decide as Hn; intros E Hr Hc.
  - destruct (IH _ _ E) as (H1 & H2 & H3); [set_solver| |set_solver].
    intros x y Hx Hxy. destruct (Hc x y Hx Hxy) as [|Hy]; [by left|].
    apply elem_of_cons in Hy as [->|]; auto.
  - destruct (IH _ _ E) as (H1 & H2 & H3).
    + intros x [Hx|Hx].
      * apply elem_of_app in Hx as [Hx|Hx]; [|set_solver].
        apply elem_of_reverse, elem_of_successors in Hx.
        eapply rtc_r; [|exact Hx]. apply Hr. set_solver.
      * apply elem_of_union in Hx as [->%elem_of_singleton|]; apply Hr; set_solver.
    + intros x y [->%elem_of_singleton|Hx]%elem_of_union Hxy.
      * right. apply elem_of_app; left. by apply elem_of_reverse, elem_of_successors.
      * destruct (Hc x y Hx Hxy) as [|[->|Hy]%elem_of_cons]; set_solver.
    + split; [done|]. split; [done|]. intros x Hx. apply H3. set_solver.
Qed.

(** Pops still possible: the stack, and the successors of nodes not reached. *)
Definition todo (nodes : list A) (reached : gset A) : nat :=
  sum_list (length <$> (successors graph <$> filter (.∉ reached) nodes)).

Lemma todo_step nodes reached n :
  NoDup nodes → n ∉ reached → (n ∉ nodes → successors graph n = []) →
  todo nodes reached = length (successors graph n) + todo nodes ({[n]} ∪ reached).
Proof.
  clear Hgraph. intros Hnd Hn Hout. unfold todo. induction Hnd as [|m nodes Hm Hnd IH].
  { simpl. by rewrite Hout by set_solver. }
  rewrite !filter_cons. destruct (decide (m = n)) as [->|Hmn].
  - rewrite decide_True by done. rewrite decide_False by set_solver. simpl.
    do 4 f_equal. apply list_filter_ext_in. set_solver.
  - specialize (IH ltac:(intros; apply Hout; set_solver)).
    destruct (decide (m ∉ reached)).
    + rewrite decide_True by set_solver. rewrite !fmap_cons. cbn [sum_list]. rewrite IH. lia.
    + by rewrite decide_False by set_solver.
Qed.

(** No more pops than edges. *)
Lemma todo_bound nodes : NoDup nodes → todo nodes ∅ ≤ length edges.
Proof.
  intros Hnd. unfold todo. rewrite list_filter_all by set_solver.
  transitivity (sum_list (length <$> (children edges <$> nodes))).
  { apply Nat.eq_le_incl. do 2 f_equal. apply list_fmap_ext. intros; apply Hgraph. }
  clear Hgraph. induction edges as [|[a b] es IH]; simpl.
  { clear Hnd. induction nodes as [|x l IHl]; [done|exact IHl]. }
  assert (∀ l, NoDup l → sum_list (length <$> (children ((a, b) :: es) <$> l)) =
    sum_list (length <$> (children es <$> l)) + (if decide (a ∈ l) then 1 else 0)) as Hsum.
  { clear IH. induction 1 as [|x l Hx Hl IHl]; [done|]. rewrite !fmap_cons. cbn [sum_list]. rewrite IHl.
    change (children ((a, b) :: es) x) with (children ([(a, b)] ++ es) x).
    rewrite children_app, length_app. unfold children at 1. rewrite filter_cons, filter_nil. simpl.
    destruct (decide (a = x)) as [->|]; simpl.
    - rewrite decide_False, decide_True by set_solver. lia.
    - rewrite (decide_ext (a ∈ x :: l) (a ∈ l)) by set_solver. lia. }
  rewrite Hsum by done. case_decide; lia.
Qed.

Lemma reach_loop_total fuel pending reached nodes :
  NoDup nodes → (∀ x, x ∉ nodes → successors graph x = []) →
  length pending + todo nodes reached < fuel →
  is_Some (reach_loop fuel graph pending reached).
Proof.
  intros Hnd Hout. revert pending reached.
  induction fuel as [|fuel IH]; intros pending reached Hf; simpl; [lia|].
  destruct pending as [|n pending]; [by eexists|]. simpl in Hf.
  case_bool_decide as Hn; [apply IH; lia|].
  rewrite (todo_step nodes reached n) in Hf by auto.
  apply IH. rewrite length_app, length_reverse. lia.
Qed.
End reach.

(** From one start node the loop computes exactly the reachable nodes. *)
Lemma reach_loop_exact edges graph fuel root result :
  (∀ x, successors graph x = children edges x) →
  reach_loop fuel graph [root] ∅ = Some result →
  ∀ x, x ∈ result ↔ rtc (edge edges) root x.
Proof.
  intros Hg E. destruct (reach_loop_sound edges graph Hg fuel [root] ∅ result root E)
    as (H1 & H2 & H3).
  - intros x [->%list_elem_of_singleton|]; [apply rtc_refl|set_solver].
  - set_solver.
  - intros x. split; [apply H1|]. intros Hx.
    assert (root ∈ result) as Hr by (apply H3; set_solver).
    clear -Hx Hr H2. induction Hx; eauto.
Qed.

(** ** In-degree counting *)
Section kahn.
Context (edges : list (A * A)) (graph : gmap A (list A)) (nodes : list A).
Context (Hgraph : ∀ x, successors graph x = children edges x).
Context (Hnodup : NoDup edges) (Hnodes : NoDup nodes).
Context (Hclosed : ∀ x y, edge edges x y → x ∈ nodes ∧ y ∈ nodes).

(** Edges into [y] from a node not processed yet. *)
Definition indegree (past : list A) y : nat :=
  length (filter (λ e, e.2 = y ∧ e.1 ∉ past) edges).

Lemma indegree_zero past y :
  indegree past y = 0 ↔ ∀ x, edge edges x y → x ∈ past.
Proof.
  unfold indegree, edge. rewrite length_zero_iff_nil. split.
  - intros E x Hx. apply dec_stable. intros Hd.
    assert ((x, y) ∈ filter (λ e : A * A, e.2 = y ∧ e.1 ∉ past) edges) as Hin
      by by apply list_elem_of_filter.
    rewrite E in Hin. by apply elem_of_nil in Hin.
  - intros Hall. destruct (filter _ edges) as [|[x z] l] eqn:E; [done|].
    assert ((x, z) ∈ (x, z) :: l) as Hin by set_solver. rewrite <- E in Hin.
    apply list_elem_of_filter in Hin as [[? Hx] Hin]; simpl in *; subst.
    by apply Hall in Hin.
Qed.

(** Processing [n] removes one edge into each of its successors. *)
Lemma indegree_step past n y :
  n ∉ past → indegree past y = indegree (n :: past) y + (if decide (edge edges n y) then 1 else 0).
Proof.
  intros Hn. unfold indegree, edge. clear Hclosed Hgraph.
  induction Hnodup as [|[a b] es Hab Hes IH]; [done|].
  rewrite !filter_cons. simpl. specialize (IH Hes).
  destruct (decide ((n, y) = (a, b))) as [E|E]; simplify_eq.
  - rewrite (decide_False (P := (_, _) ∈ es)) in IH by done.
    rewrite decide_True by done. rewrite decide_False by set_solver.
    rewrite decide_True by set_solver. simpl. rewrite IH. lia.
  - assert (((n, y) ∈ (a, b) :: es) ↔ (n, y) ∈ es) as Hiff by set_solver.
    rewrite (decide_ext _ _ 1 0 Hiff).
    destruct (decide (b = y ∧ a ∉ past)) as [Hd|Hd].
    + rewrite decide_True by (destruct Hd; split; [done|]; set_solver). simpl. rewrite IH. lia.
    + rewrite decide_False by (intros []; apply Hd; set_solver). exact IH.
Qed.

Lemma release_foldl ds incoming pending incoming' pending' :
  NoDup ds → foldl release (incoming, pending) ds = (incoming', pending') →
  (∀ x, count_of incoming' x = count_of incoming x - (if decide (x ∈ ds) then 1 else 0)) ∧
  (∀ x, x ∈ pending' ↔ x ∈ pending ∨ (x ∈ ds ∧ count_of incoming x - 1 = 0)) ∧
  pending' ≡ₚ filter (λ x, count_of incoming x - 1 = 0) ds ++ pending.
Proof.
  intros Hnd. revert incoming pending. induction Hnd as [|d ds Hd Hnd IH]; intros incoming pending.
  { simpl. intros [= <- <-]. split; [intros; simpl; lia|]. set_solver. }
  simpl. intros E. apply IH in E as (H1 & H2 & H3).
  assert (∀ x, count_of (<[d:=count_of incoming d - 1]> incoming) x =
    if decide (x = d) then count_of incoming d - 1 else count_of incoming x) as Hc.
  { intros x. unfold count_of. destruct (decide (x = d)) as [->|].
    - by rewrite lookup_insert_eq.
    - by rewrite lookup_insert_ne. }
  split; [|split].
  - intros x. rewrite H1, Hc. destruct (decide (x = d)) as [->|].
    + rewrite decide_False, decide_True by set_solver. lia.
    + by rewrite (decide_ext (x ∈ ds) (x ∈ d :: ds)) by set_solver.
  - intros x. rewrite H2, Hc. destruct (decide (x = d)) as [->|]; case_bool_decide; set_solver.
  - rewrite H3. rewrite (list_filter_ext_in _ (λ x, count_of incoming x - 1 = 0) ds).
    + rewrite filter_cons. destruct (decide _); case_bool_decide; try done.
      simpl. by rewrite <- Permutation_middle.
    + intros x Hx. rewrite Hc. rewrite decide_False by set_solver. done.
Qed.

(** [past]: processed nodes; [pending]: the stack of nodes without open edges. *)
Record kahn_inv (past pending : list A) (incoming : gmap A nat) : Prop := {
  ki_nodup : NoDup (past ++ pending);
  ki_nodes : ∀ x, x ∈ past ∨ x ∈ pending → x ∈ nodes;
  ki_count : ∀ x, count_of incoming x = indegree past x;
  ki_ready : ∀ x, x ∈ nodes → (x ∈ past ∨ x ∈ pending) ↔ indegree past x = 0;
  ki_acc : ∀ x, x ∈ past ∨ x ∈ pending → Acc (edge edges) x;
}.

Lemma indegree_child past n x : n ∉ past → edge edges n x → 1 ≤ indegree past x.
Proof.
  intros Hn Hx. destruct (decide (indegree past x = 0)) as [E|]; [|lia].
  rewrite indegree_zero in E. by apply E in Hx.
Qed.

Lemma kahn_step past n pending incoming incoming' pending' :
  kahn_inv past (n :: pending) incoming →
  foldl release (incoming, pending) (successors graph n) = (incoming', pending') →
  kahn_inv (n :: past) pending' incoming'.
Proof.
  intros [Hnd Hin Hcount Hready Hacc] E. rewrite Hgraph in E.
  apply release_foldl in E as (H1 & H2 & H3); [|by apply children_NoDup].
  assert (n ∉ past) as Hn.
  { intros Hp. apply NoDup_app in Hnd as (_ & Hd & _). apply (Hd n Hp). by left. }
  assert (∀ x, x ∈ children edges n → 1 ≤ indegree past x ∧ x ∈ nodes) as Hch.
  { intros x Hx%elem_of_children. split; [by eapply indegree_child|by eapply Hclosed]. }
  assert (∀ x, count_of incoming' x = indegree (n :: past) x) as Hcount'.
  { intros x. rewrite H1, Hcount, (indegree_step past n x) by done.
    rewrite (decide_ext (x ∈ children edges n) (edge edges n x)) by apply elem_of_children. lia. }
  assert (∀ x, x ∈ pending' ↔ x ∈ pending ∨ x ∈ children edges n ∧ indegree (n :: past) x = 0) as Hpend.
  { intros x. rewrite H2, <- Hcount', H1.
    split; (intros [?|[Hx Hz]]; [by left|right; split; [done|]]).
    - by rewrite decide_True.
    - by rewrite decide_True in Hz. }
  split.
  - rewrite H3. cbn [app]. rewrite NoDup_cons, !NoDup_app, not_elem_of_app, not_elem_of_app.
    apply NoDup_app in Hnd as (Hnd1 & Hd & [Hn' Hnd2]%NoDup_cons).
    assert (∀ x, x ∈ filter (λ x, count_of incoming x - 1 = 0) (children edges n) →
      x ∉ past ∧ x ∉ n :: pending) as Hnew.
    { intros x [_ [Hx Hxn]%Hch]%list_elem_of_filter.
      destruct (Hready x Hxn) as [Hr _]. split; intros Hp; rewrite Hr in Hx by auto; lia. }
    repeat split; try done.
    + intros Hx. apply Hnew in Hx as [_ Hx]. apply Hx. by left.
    + intros x Hx. rewrite elem_of_app. intros [Hf|?]; [by apply Hnew in Hf as [? _]|].
      eapply Hd; [done|by right].
    + apply NoDup_filter. by apply children_NoDup.
    + intros x Hx ?. apply Hnew in Hx as [_ Hx]. apply Hx. by right.
  - intros x [[->|?]%elem_of_cons|[?|[? _]]%Hpend]; [apply Hin..|by apply Hch];
      rewrite ?elem_of_cons; auto.
  - done.
  - intros x Hx. rewrite Hpend, elem_of_cons. specialize (Hready x Hx). rewrite elem_of_cons in Hready.
    pose proof (indegree_step past n x Hn) as Hs.
    rewrite <- (decide_ext (x ∈ children edges n) (edge edges n x)) in Hs by apply elem_of_children.
    case_decide as Hc.
    + apply Hch in Hc as Hc'. split; [|by auto 6].
      intros [Hx'|[Hx'|[_ ?]]]; [..|done];
        assert (indegree past x = 0) by (apply Hready; tauto); lia.
    + rewrite Nat.add_0_r in Hs. rewrite <- Hs. naive_solver.
  - intros x [[->|?]%elem_of_cons|[?|[Hx Hz]]%Hpend]; [apply Hacc; set_solver..|].
    constructor. intros y Hy. rewrite indegree_zero in Hz.
    apply Hacc. apply Hz, elem_of_cons in Hy as [->|]; set_solver.
Qed.

Lemma kahn_loop_run fuel past pending incoming :
  kahn_inv past pending incoming → length nodes - length past < fuel →
  ∃ final incoming', kahn_inv final [] incoming' ∧
    kahn_loop fuel graph incoming pending (length past) = Some (length final).
Proof.
  revert past pending incoming. induction fuel as [|fuel IH]; intros past pending incoming Hinv Hf; [lia|].
  destruct pending as [|n pending]; [by eexists _, _|]. cbn [kahn_loop].
  destruct (foldl release (incoming, pending) (successors graph n)) as [incoming' pending'] eqn:E.
  pose proof (kahn_step _ _ _ _ _ _ Hinv E) as Hinv'.
  apply (IH (n :: past) pending' incoming' Hinv').
  assert (length (past ++ n :: pending) ≤ length nodes) as Hl.
  { apply submseteq_length, NoDup_submseteq; [apply Hinv|].
    intros x Hx%elem_of_app. by apply Hinv in Hx. }
  rewrite length_app in Hl. simpl in *. lia.
Qed.

Lemma kahn_final_length past incoming :
  kahn_inv past [] incoming →
  length past = length nodes ↔ ∀ x, x ∈ nodes → Acc (edge edges) x.
Proof.
  intros [Hnd Hin _ Hready Hacc]. rewrite app_nil_r in Hnd.
  assert (past ⊆+ nodes) as Hsub by (apply NoDup_submseteq; [done|intros; apply Hin; auto]).
  split.
  - intros Hl x Hx. apply Hacc. left. apply submseteq_length_Permutation in Hsub; [|lia].
    by rewrite Hsub.
  - intros Hall. apply Nat.le_antisymm; [by apply submseteq_length|].
    apply submseteq_length, NoDup_submseteq; [done|]. intros x Hx.
    assert (Acc (edge edges) x) as Ha by auto. induction Ha as [x _ IH].
    assert (x ∈ past ∨ x ∈ []) as [?|Hr]; [|done|by apply elem_of_nil in Hr].
    apply Hready; [done|]. apply indegree_zero. intros y Hy. by apply (IH y Hy), (Hclosed y x).
Qed.

Lemma Acc_acyclic : (∀ x, x ∈ nodes → Acc (edge edges) x) ↔ acyclic edges.
Proof.
  split.
  - intros Hall x Hx. assert (Acc (edge edges) x) as Ha.
    { destruct (tc_last _ _ _ Hx) as (y & Hyx & _). by apply Hall, (Hclosed y x). }
    clear Hall. induction Ha as [x _ IH].
    destruct (tc_last _ _ _ Hx) as (y & Hyx & Hxy). apply (IH y Hyx).
    eapply tc_rtc_r; [by apply tc_once|done].
  - intros Hac x Hx. change (sn (flip (edge edges)) x).
    assert (∀ a b, tc (flip (edge edges)) a b → tc (edge edges) b a) as Hflip.
    { intros a b. induction 1 as [a b Hab|a b c Hab Hbc IH]; [by apply tc_once|].
      eapply tc_r; [exact IH|exact Hab]. }
    apply tc_finite_sn.
    + intros a Ha. by apply Hflip, Hac in Ha.
    + exists nodes. intros y Hy%Hflip. inversion Hy as [? ? Hyx|? z ? Hyz]; subst; [by apply (Hclosed y x)|by apply (Hclosed y z)].
Qed.

(** The loop started from the nodes without incoming edges counts all nodes
    exactly when the graph has no cycle. *)
Lemma kahn_loop_exact incoming pending fuel :
  (∀ x, count_of incoming x = indegree [] x) → NoDup pending →
  (∀ x, x ∈ pending ↔ x ∈ nodes ∧ count_of incoming x = 0) → length nodes < fuel →
  ∃ visited, kahn_loop fuel graph incoming pending 0 = Some visited ∧
    (visited = length nodes ↔ acyclic edges).
Proof.
  intros Hcount Hnd Hpend Hf. assert (kahn_inv [] pending incoming) as Hinv.
  { split; [done|set_solver|done|..].
    - intros x Hx. rewrite Hpend, Hcount, elem_of_nil. tauto.
    - intros x [[]%elem_of_nil|[Hx Hz]%Hpend]. rewrite Hcount, indegree_zero in Hz.
      constructor. intros y Hy. apply Hz in Hy. by apply elem_of_nil in Hy. }
  destruct (kahn_loop_run fuel [] pending incoming Hinv) as (final & inc & Hfin & E); [simpl; lia|].
  exists (length final). split; [done|]. by rewrite (kahn_final_length _ _ Hfin), Acc_acyclic.
Qed.

Lemma count_push_foldl incoming x :
  count_of (foldl (λ m e, count_push m e.2) incoming edges) x = count_of incoming x + indegree [] x.
Proof.
  clear. revert incoming. unfold indegree. induction edges as [|[a b] es IH]; intros incoming; simpl; [lia|].
  rewrite IH, filter_cons. simpl. unfold count_push, count_of.
  destruct (decide (b = x)) as [->|].
  - rewrite lookup_insert_eq, decide_True by set_solver. simpl. lia.
  - by rewrite lookup_insert_ne, decide_False by naive_solver.
Qed.
End kahn.
End graph.
