(* ===== verification/Cycles.v ===== *)
(** * Cycle search by depth-first traversal

    The three-colour traversal of the package resolver ([dependencyCycle] of
    compiler/src/package_resolver.cpp), on any finite graph. *)
From S2P Require Import Prelude Graph.

Section dfs.
Context `{Countable A}.
Implicit Types (graph : gmap A (list A)) (state : gmap A nat) (stack : list A).

(** [state[name]]: 0 not visited, 1 on the stack, 2 done. *)
Definition color state (x : A) : nat := default 0 (state !! x).

(** [std::vector(std::find(begin, end, x), end)]. *)
Fixpoint from_first (x : A) (l : list A) : list A :=
  match l with [] => [] | y :: l' => if decide (y = x) then l else from_first x l' end.

Inductive Visit :=
  | Cycle (path : list A)
  | Finished (state : gmap A nat) (stack : list A).

(** The loop over the successors of [name] behind the recursive call [rec]. *)
Fixpoint visit_all (rec : A → gmap A nat → list A → option Visit) (name : A) (dependencies : list A)
    state stack : option Visit :=
  match dependencies with
  | [] => Some (Finished (<[name := 2]> state) (removelast stack))
  | dependency :: dependencies =>
      let check state stack :=
        if bool_decide (color state dependency = 1)
        then Some (Cycle (from_first dependency stack ++ [dependency]))
        else visit_all rec name dependencies state stack in
      if bool_decide (color state dependency = 0) then
        match rec dependency state stack with
        | Some (Finished state stack) => check state stack
        | other => other
        end
      else check state stack
  end.

Fixpoint visit (fuel : nat) graph (name : A) state stack : option Visit :=
  match fuel with
  | O => None
  | S fuel =>
      visit_all (visit fuel graph) name (successors graph name) (<[name := 1]> state) (stack ++ [name])
  end.

(** The outer loop over the keys of the graph. *)
Fixpoint find_cycle (fuel : nat) graph (keys : list A) state stack : option (option (list A)) :=
  match keys with
  | [] => Some None
  | name :: keys =>
      if bool_decide (color state name = 0) then
        match visit fuel graph name state stack with
        | None => None
        | Some (Cycle path) => Some (Some path)
        | Some (Finished state stack) => find_cycle fuel graph keys state stack
        end
      else find_cycle fuel graph keys state stack
  end.

(** ** Correctness *)

(** Consecutive elements are related. *)
Fixpoint chain (R : relation A) (l : list A) : Prop :=
  match l with
  | x :: ((y :: _) as l') => R x y ∧ chain R l'
  | _ => True
  end.

Section chains.
Context (R : relation A).

Lemma chain_snoc l x y : chain R (l ++ [x]) → R x y → chain R (l ++ [x; y]).
Proof. induction l as [|z [|w l] IH]; cbn in *; intuition. Qed.
Lemma chain_app_r l1 l2 : chain R (l1 ++ l2) → chain R l2.
Proof.
  induction l1 as [|x l1 IH]; [done|]. simpl.
  destruct (l1 ++ l2) eqn:E; [by apply app_nil in E as [-> ->]|tauto].
Qed.
Lemma chain_tc x mid y : chain R (x :: mid ++ [y]) → tc R x y.
Proof.
  revert x. induction mid as [|z mid IH]; intros x; cbn.
  - intros [? _]. by apply tc_once.
  - intros [? Hc]. eapply tc_l; [done|]. by apply IH.
Qed.
Lemma chain_rtc x l y : chain R (x :: l) → y ∈ x :: l → rtc R x y.
Proof.
  revert x. induction l as [|z l IH]; intros x Hc Hy.
  - apply list_elem_of_singleton in Hy as ->. apply rtc_refl.
  - destruct Hc as [Hxz Hc]. apply elem_of_cons in Hy as [->|Hy]; [apply rtc_refl|].
    eapply rtc_l; [exact Hxz|by apply IH].
Qed.
(** Without cycles no element of a chain comes back. *)
Lemma chain_NoDup l : (∀ x, ¬ tc R x x) → chain R l → NoDup l.
Proof.
  intros Hac. induction l as [|x l IH]; intros Hc; [constructor|].
  apply NoDup_cons. split; [|apply IH; by apply (chain_app_r [x])].
  intros (l1 & l2 & ->)%list_elem_of_split. apply (Hac x). apply (chain_tc x l1).
  clear -Hc. revert Hc. change (x :: l1 ++ x :: l2) with ((x :: l1) ++ x :: l2).
  change (x :: l1 ++ [x]) with ((x :: l1) ++ [x]). generalize (x :: l1). intros l.
  induction l as [|y [|z l] IH]; cbn in *; intuition.
Qed.
Lemma chain_impl (S : relation A) l : (∀ x y, R x y → S x y) → chain R l → chain S l.
Proof. intros HRS. induction l as [|x [|y l] IH]; cbn in *; intuition. Qed.
End chains.

Section spec.
Context (graph : gmap A (list A)).
Definition step x y : Prop := y ∈ successors graph x.

Definition is_cycle (l : list A) : Prop := ∃ x mid, l = x :: mid ++ [x] ∧ chain step l.

Lemma is_cycle_tc l : is_cycle l → ∃ x, tc step x x.
Proof. intros (x & mid & -> & Hc). exists x. by eapply chain_tc. Qed.

Lemma from_first_split x l : x ∈ l → ∃ l1 l2, l = l1 ++ x :: l2 ∧ from_first x l = x :: l2.
Proof.
  induction l as [|y l IH]; [by intros ?%elem_of_nil|]. intros Hx. simpl. case_decide as E.
  - subst. by exists [], l.
  - apply elem_of_cons in Hx as [->|Hx]; [done|]. destruct (IH Hx) as (l1 & l2 & -> & ->).
    by exists (y :: l1), l2.
Qed.

(** Grey nodes form the stack, a chain; no infinite path leaves a black node. *)
Record dfs_inv state stack : Prop := {
  dv_nodup : NoDup stack;
  dv_grey : ∀ x, x ∈ stack ↔ color state x = 1;
  dv_black : ∀ x, color state x = 2 → sn step x;
  dv_chain : chain step stack;
  dv_color : ∀ x, color state x ≤ 2;
}.

(** A finished call keeps the stack and the colours that were set. *)
Definition finishes state stack (name : A) (v : option Visit) : Prop :=
  match v with
  | Some (Finished state' stack') =>
      stack' = stack ∧ dfs_inv state' stack ∧ color state' name = 2 ∧
      ∀ x, color state x = 2 → color state' x = 2
  | Some (Cycle path) => is_cycle path
  | None => True
  end.

Lemma color_insert state x c y : color (<[x := c]> state) y = if decide (x = y) then c else color state y.
Proof.
  unfold color. destruct (decide (x = y)) as [->|]; [by rewrite lookup_insert_eq|by rewrite lookup_insert_ne].
Qed.

Lemma visit_all_spec rec name stack done_ dependencies state :
  (∀ d st, dfs_inv st (stack ++ [name]) → color st d = 0 → step name d →
     finishes st (stack ++ [name]) d (rec d st (stack ++ [name]))) →
  successors graph name = done_ ++ dependencies →
  (∀ d, d ∈ done_ → color state d = 2) →
  dfs_inv state (stack ++ [name]) →
  finishes state stack name (visit_all rec name dependencies state (stack ++ [name])).
Proof.
  intros Hrec. revert done_ state. induction dependencies as [|d ds IH]; intros done_ state Hsucc Hdone Hinv.
  { cbn [visit_all]. destruct Hinv as [Hnd Hg Hb Hc Hcol]. rewrite app_nil_r in Hsucc.
    apply NoDup_app in Hnd as (Hnd & Hdis & _). unfold finishes. rewrite removelast_last. split; [done|]. split.
    - split; [done|..].
      + intros x. rewrite color_insert. destruct (decide (name = x)) as [->|Hne].
        * split; [intros Hx; destruct (Hdis x Hx); set_solver|done].
        * rewrite <- Hg. set_solver.
      + intros x. rewrite color_insert. destruct (decide (name = x)) as [->|Hne]; [|apply Hb].
        intros _. constructor. intros y Hy. apply Hb, Hdone. unfold flip, step in Hy. by rewrite Hsucc in Hy.
      + clear -Hc. induction stack as [|x [|y l] IH]; cbn in *; intuition.
      + intros x. rewrite color_insert. case_decide; [lia|apply Hcol].
    - split; [by rewrite color_insert, decide_True|]. intros x Hx. rewrite color_insert. by case_decide. }
  cbn [visit_all].
  assert (step name d) as Hstep by (unfold step; rewrite Hsucc; set_solver).
  assert (∀ st, dfs_inv st (stack ++ [name]) → color st d ≠ 0 →
    (∀ x, color state x = 2 → color st x = 2) →
    finishes state stack name
      (if bool_decide (color st d = 1) then Some (Cycle (from_first d (stack ++ [name]) ++ [d]))
       else visit_all rec name ds st (stack ++ [name]))) as Hcheck.
  { intros st Hst Hd Hkeep. case_bool_decide as E.
    - apply (dv_grey _ _ Hst) in E. destruct (from_first_split _ _ E) as (l1 & l2 & El & ->).
      exists d, l2. split; [done|]. pose proof (dv_chain _ _ Hst) as Hc.
      apply (chain_app_r step l1). rewrite app_assoc, <- El, <- app_assoc. by apply chain_snoc.
    - pose proof (dv_color _ _ Hst d). specialize (IH (done_ ++ [d]) st).
      rewrite <- app_assoc in IH. specialize (IH Hsucc).
      assert (∀ x, x ∈ done_ ++ [d] → color st x = 2) as Hall.
      { intros x [Hx| ->%list_elem_of_singleton]%elem_of_app; [by apply Hkeep, Hdone|lia]. }
      specialize (IH Hall Hst). unfold finishes in *.
      destruct (visit_all _ _ _ _ _) as [[|]|]; [done| |done]. naive_solver. }
  case_bool_decide as E; [|by apply Hcheck].
  specialize (Hrec d state Hinv E Hstep). destruct (rec d state _) as [[c|st' stack']|]; [done| |done].
  destruct Hrec as (-> & Hst & Hd & Hkeep). apply Hcheck; [done|lia|done].
Qed.

Lemma visit_spec fuel name state stack :
  dfs_inv state stack → color state name = 0 → chain step (stack ++ [name]) →
  finishes state stack name (visit fuel graph name state stack).
Proof.
  revert name state stack. induction fuel as [|fuel IH]; intros name state stack Hinv Hname Hchain; [done|].
  cbn [visit]. destruct Hinv as [Hnd Hg Hb Hc Hcol].
  assert (dfs_inv (<[name:=1]> state) (stack ++ [name])) as Hinv'.
  { split; [|..|done|].
    - apply NoDup_app. split; [done|]. split; [|apply NoDup_singleton].
      intros x Hx ->%list_elem_of_singleton. apply Hg in Hx. lia.
    - intros x. rewrite elem_of_app, list_elem_of_singleton, Hg, color_insert.
      destruct (decide (name = x)) as [->|]; [tauto|]. split; [by intros [?|?]|by left].
    - intros x. rewrite color_insert. case_decide; [done|apply Hb].
    - intros x. rewrite color_insert. case_decide; [lia|apply Hcol]. }
  pose proof (visit_all_spec (visit fuel graph) name stack [] (successors graph name) (<[name:=1]> state)) as Hall.
  assert (finishes (<[name:=1]> state) stack name
    (visit_all (visit fuel graph) name (successors graph name) (<[name:=1]> state) (stack ++ [name]))) as Hf.
  { apply Hall; [|done|set_solver|done]. intros d st Hst Hd Hstep. apply IH; [done|done|].
    rewrite <- app_assoc. apply chain_snoc; [apply Hst|done]. }
  unfold finishes in *. destruct (visit_all _ _ _ _ _) as [[|]|]; [done| |done].
  destruct Hf as (? & ? & ? & Hkeep). split; [done|]. split; [done|]. split; [done|].
  intros x Hx. apply Hkeep. rewrite color_insert, decide_False; [done|]. intros ->. lia.
Qed.

Lemma sn_no_cycle x : sn step x → ¬ tc step x x.
Proof.
  induction 1 as [x _ IH]. intros Hx.
  assert (∃ y, step x y ∧ rtc step y x) as (y & Hxy & Hyx).
  { inversion Hx as [? ? Hs|? y ? Hs Ht]; subst; [by exists x|]. exists y. split; [done|by apply tc_rtc]. }
  apply (IH y Hxy). eapply tc_rtc_l; [exact Hyx|by apply tc_once].
Qed.

(** *** Termination: a call turns a white node grey, and none turns white again *)

Context (nodes : list A) (Hnodes : ∀ x y, step x y → x ∈ nodes ∧ y ∈ nodes).

Definition white state : nat := length (filter (λ x, color state x = 0) nodes).
Definition darker state state' : Prop := ∀ x, color state' x = 0 → color state x = 0.

Lemma white_darker state state' : darker state state' → white state' ≤ white state.
Proof.
  intros Hd. unfold white. clear Hnodes. induction nodes as [|x l IH]; [done|].
  rewrite !filter_cons. destruct (decide (color state' x = 0)) as [E|E].
  - rewrite decide_True by by apply Hd. cbn [length]. lia.
  - case_decide; cbn [length]; lia.
Qed.

Lemma white_insert state x c : x ∈ nodes → color state x = 0 → c ≠ 0 → white (<[x := c]> state) < white state.
Proof.
  intros Hx Hc Hn. assert (darker state (<[x:=c]> state)) as Hd.
  { intros y. rewrite color_insert. case_decide; [done|done]. }
  unfold white. clear Hnodes. induction Hx as [x l|x y l Hx IH].
  - rewrite !filter_cons, (decide_True _ _ Hc), decide_False.
    + cbn [length]. apply Nat.lt_succ_r. clear -Hd. induction l as [|z l IH]; [done|].
      rewrite !filter_cons. destruct (decide (color (<[x:=c]> state) z = 0)).
      * rewrite decide_True by by apply Hd. cbn [length]. lia.
      * case_decide; cbn [length]; lia.
    + by rewrite color_insert, decide_True.
  - specialize (IH Hc Hd). rewrite !filter_cons. destruct (decide (color (<[x:=c]> state) y = 0)).
    + rewrite decide_True by by apply Hd. cbn [length]. lia.
    + case_decide; cbn [length]; lia.
Qed.

Definition returns state (v : option Visit) : Prop :=
  match v with Some (Finished state' _) => darker state state' | Some (Cycle _) => True | None => False end.

Lemma visit_all_total rec name dependencies state stack fuel :
  (∀ d st stk, d ∈ nodes → color st d = 0 → white st ≤ fuel → returns st (rec d st stk)) →
  (∀ d, d ∈ dependencies → d ∈ nodes) → color state name ≠ 0 → white state ≤ fuel →
  returns state (visit_all rec name dependencies state stack).
Proof.
  intros Hrec. revert state stack. induction dependencies as [|d ds IH]; intros state stack Hds Hn Hw.
  { cbn. intros x. rewrite color_insert. by case_decide. }
  cbn [visit_all].
  assert (∀ st stk, darker state st → returns state
    (if bool_decide (color st d = 1) then Some (Cycle (from_first d stk ++ [d]))
     else visit_all rec name ds st stk)) as Hcheck.
  { intros st stk Hd. case_bool_decide; [done|].
    specialize (IH st stk ltac:(set_solver) ltac:(intros E; by apply Hn, Hd)).
    pose proof (white_darker _ _ Hd). specialize (IH ltac:(lia)). unfold returns in *.
    destruct (visit_all _ _ _ _ _) as [[|]|]; [done| |done]. intros x Hx. by apply Hd, IH. }
  case_bool_decide as E; [|by apply Hcheck; intros ?].
  specialize (Hrec d state stack ltac:(set_solver) E Hw). destruct (rec d state stack) as [[|st stk]|]; try done.
  by apply Hcheck.
Qed.

Lemma visit_total fuel name state stack :
  name ∈ nodes → color state name = 0 → white state ≤ fuel →
  returns state (visit fuel graph name state stack).
Proof.
  revert name state stack. induction fuel as [|fuel IH]; intros name state stack Hn Hc Hw.
  { pose proof (white_insert state name 1 Hn Hc ltac:(done)). lia. }
  cbn [visit]. pose proof (white_insert state name 1 Hn Hc ltac:(done)).
  assert (returns (<[name:=1]> state)
    (visit_all (visit fuel graph) name (successors graph name) (<[name:=1]> state) (stack ++ [name]))) as Hr.
  { apply (visit_all_total _ _ _ _ _ fuel); [done| | |lia].
    - intros d Hd. by apply (Hnodes name d).
    - by rewrite color_insert, decide_True. }
  unfold returns in *. destruct (visit_all _ _ _ _ _) as [[|]|]; [done| |done].
  intros x Hx. apply Hr in Hx. rewrite color_insert in Hx. by case_decide.
Qed.

(** *** The whole search *)

Lemma find_cycle_spec fuel keys state :
  (∀ x, x ∈ keys → x ∈ nodes) → white state ≤ fuel → dfs_inv state [] →
  ∃ result, find_cycle fuel graph keys state [] = Some result ∧
    match result with
    | Some path => is_cycle path
    | None => ∀ x, x ∈ keys ∨ color state x = 2 → sn step x
    end.
Proof.
  revert state. induction keys as [|k keys IH]; intros state Hk Hw Hinv.
  { exists None. split; [done|]. intros x [Hx%elem_of_nil|Hx]; [done|by apply (dv_black _ _ Hinv)]. }
  cbn [find_cycle]. case_bool_decide as E.
  - pose proof (visit_total fuel k state [] ltac:(set_solver) E Hw) as Ht.
    pose proof (visit_spec fuel k state [] Hinv E I) as Hs.
    destruct (visit fuel graph k state []) as [[c|st stk]|]; [by exists (Some c)| |done].
    destruct Hs as (-> & Hst & Hkk & Hkeep). apply white_darker in Ht.
    destruct (IH st ltac:(set_solver) ltac:(lia) Hst) as (r & Er & Hr). exists r. split; [done|].
    destruct r; [done|]. intros x [[->|Hx]%elem_of_cons|Hx]; apply Hr; auto.
  - destruct (IH state ltac:(set_solver) Hw Hinv) as (r & Er & Hr). exists r. split; [done|].
    destruct r; [done|]. intros x [[->|Hx]%elem_of_cons|Hx]; apply Hr; auto. right.
    pose proof (dv_color _ _ Hinv k). pose proof (dv_grey _ _ Hinv k) as Hg. rewrite elem_of_nil in Hg.
    destruct (color state k) as [|[|[|]]]; [done| |done|lia]. by destruct (proj2 Hg eq_refl).
Qed.

(** Started on all nodes, the search finds a cycle just when there is one. *)
Lemma find_cycle_exact fuel :
  length nodes ≤ fuel →
  ∃ result, find_cycle fuel graph nodes ∅ [] = Some result ∧
    match result with
    | Some path => is_cycle path
    | None => ∀ x, ¬ tc step x x
    end.
Proof.
  intros Hf. destruct (find_cycle_spec fuel nodes ∅) as (r & Er & Hr).
  - done.
  - unfold white. etrans; [apply length_filter|done].
  - split; [constructor|..|done|].
    + intros x. rewrite elem_of_nil. unfold color. by rewrite lookup_empty.
    + intros x. unfold color. by rewrite lookup_empty.
    + intros x. unfold color. rewrite lookup_empty. simpl. lia.
  - exists r. split; [done|]. destruct r; [done|]. intros x Hx.
    apply (sn_no_cycle x); [|done]. apply Hr. left.
    by inversion Hx as [? ? Hs|? ? ? Hs]; subst; apply Hnodes in Hs as [? _].
Qed.
End spec.
End dfs.
