(* ===== verification/Lock.v ===== *)
(** * The package lock (compiler/src/package.cpp)

    [foundation.lock/v1]: the directives of [parsePackageLock], the graph
    validation behind it, and [renderPackageLock]. *)
From S2P Require Import Prelude Graph Target Version PackageText FsPath Package.

(** ** [validateLockGraph] *)

Definition lock_error (path : bytes) (message : bytes) : PackageError :=
  mkPackageError path 1 1 (lit "FDN4027") message.

(** The loop over [lock.packages]: the names seen, unless one is refused. *)
Fixpoint lock_packages (rootName : bytes) (packages : list LockedPackage) (seen : gset bytes)
    : option (gset bytes) :=
  match packages with
  | [] => Some seen
  | package :: packages =>
      if bool_decide (lp_name package = rootName) || negb (validLocation (lp_kind package) (lp_location package))
      then None
      else lock_packages rootName packages ({[lp_name package]} ∪ seen)
  end.

Record LockGraph := mkLockGraph {
  lg_graph : gmap bytes (list bytes);
  lg_incoming : gmap bytes nat;
  lg_unique : gset (bytes * bytes);
}.

Definition lock_edge_refused (rootName : bytes) (packages : gset bytes)
    (unique : gset (bytes * bytes)) (edge : PackageEdge) : bool :=
  (bool_decide (e_parent edge ≠ rootName) && bool_decide (e_parent edge ∉ packages)) ||
  bool_decide (e_dependency edge ∉ packages) ||
  (bool_decide (e_scope edge = PackageDependencyScope.Test) && bool_decide (e_parent edge ≠ rootName)) ||
  bool_decide ((e_parent edge, e_dependency edge) ∈ unique).

Fixpoint lock_edges (rootName : bytes) (packages : gset bytes) (edges : list PackageEdge)
    (g : LockGraph) : option LockGraph :=
  match edges with
  | [] => Some g
  | edge :: edges =>
      if lock_edge_refused rootName packages (lg_unique g) edge then None
      else lock_edges rootName packages edges
        (mkLockGraph (graph_push (lg_graph g) (e_parent edge) (e_dependency edge))
                     (count_push (lg_incoming g) (e_dependency edge))
                     ({[(e_parent edge, e_dependency edge)]} ∪ lg_unique g))
  end.

(** The keys of [graph] and [incoming], in [std::map] order. *)
Definition lock_nodes (rootName : bytes) (packages : gset bytes) : list bytes :=
  sort_by id (elements ({[rootName]} ∪ packages)).

Definition lock_graph_start (rootName : bytes) (packages : gset bytes) : LockGraph :=
  mkLockGraph (list_to_map ((λ n, (n, [])) <$> lock_nodes rootName packages))
              (list_to_map ((λ n, (n, 0)) <$> lock_nodes rootName packages)) ∅.

(** Turns: one per edge and one per node at most (the theorems below). *)
Definition reach_fuel (edges : list PackageEdge) : nat := S (S (length edges)).

Definition validateLockGraph (path : bytes) (lock : PackageLock) (errors : list PackageError)
    : bool * list PackageError :=
  let fail message := (false, errors ++ [lock_error path message]) in
  match lock_packages (l_rootName lock) (l_packages lock) ∅ with
  | None => fail (lit "locked package has an invalid source identity")
  | Some packages =>
      match lock_edges (l_rootName lock) packages (l_edges lock)
              (lock_graph_start (l_rootName lock) packages) with
      | None => fail (lit "lock contains an unknown or duplicate package edge")
      | Some g =>
          let total := size packages + 1 in
          match reach_loop (reach_fuel (l_edges lock)) (lg_graph g) [l_rootName lock] ∅ with
          | None => (false, errors)
          | Some reached =>
              if bool_decide (size reached ≠ total) then
                fail (lit "lock contains a package unreachable from the root")
              else
                let pending :=
                  reverse (filter (λ n, count_of (lg_incoming g) n = 0)
                             (lock_nodes (l_rootName lock) packages)) in
                match kahn_loop (S total) (lg_graph g) (lg_incoming g) pending 0 with
                | None => (false, errors)
                | Some visited =>
                    if bool_decide (visited ≠ total) then fail (lit "lock contains a package cycle")
                    else (true, errors)
                end
          end
      end
  end.

(** ** [parsePackageLock] *)

(** The lambda's captured state: the lock under construction, the errors and the
    [...Seen] flags. *)
Record LockState := mkLockState {
  ls_lock : PackageLock;
  ls_errors : list PackageError;
  formatSeen : bool;
  rootSeen : bool;
  targetSeen : bool;
  nativeSeen : bool;
}.

Definition emptyVersion : PackageVersion := mkVersion 0 0 0 [] [].
Definition emptyLock : PackageLock :=
  mkLock [] emptyVersion Linux None [] [] [].
Definition lock_start : LockState := mkLockState emptyLock [] false false false false.

Definition lock_set (lock : PackageLock) (st : LockState) : LockState :=
  mkLockState lock (ls_errors st) (formatSeen st) (rootSeen st) (targetSeen st) (nativeSeen st).
Definition lock_addError (e : PackageError) (st : LockState) : LockState :=
  mkLockState (ls_lock st) (ls_errors st ++ [e])
    (formatSeen st) (rootSeen st) (targetSeen st) (nativeSeen st).

Section parse.
Context (path : bytes).

Definition lock_fail (line : nat) (code message : bytes) : LockState → LockState :=
  lock_addError (mkPackageError path line 1 code message).

Definition lock_format (tokens : list bytes) (line : nat) (st : LockState) : LockState :=
  let accepted := match tokens with
                  | [_; value] => bool_decide (value = lit "foundation.lock/v1") && negb (formatSeen st)
                  | _ => false
                  end in
  let st := if accepted then st
            else lock_fail line (lit "FDN4020") (lit "expected one format foundation.lock/v1 directive") st in
  mkLockState (ls_lock st) (ls_errors st) true (rootSeen st) (targetSeen st) (nativeSeen st).

Definition lock_root (tokens : list bytes) (line : nat) (st : LockState) : LockState :=
  let parsed := match tokens with
                | [_; name; version] =>
                    if identifier name && negb (rootSeen st) then
                      (λ v, (name, v)) <$> parsePackageVersion version
                    else None
                | _ => None
                end in
  let st := match parsed with
            | Some (name, version) =>
                let lock := ls_lock st in
                lock_set (mkLock name version (l_target lock) (l_nativeLibrary lock)
                            (l_foreign lock) (l_packages lock) (l_edges lock)) st
            | None => lock_fail line (lit "FDN4021") (lit "expected one root package and version") st
            end in
  mkLockState (ls_lock st) (ls_errors st) (formatSeen st) true (targetSeen st) (nativeSeen st).

Definition lock_target (tokens : list bytes) (line : nat) (st : LockState) : LockState :=
  let parsed := match tokens with [_; value] => parseTargetPlatform value | _ => None end in
  let st := match parsed, targetSeen st with
            | Some target, false =>
                let lock := ls_lock st in
                lock_set (mkLock (l_rootName lock) (l_rootVersion lock) target (l_nativeLibrary lock)
                            (l_foreign lock) (l_packages lock) (l_edges lock)) st
            | _, _ => lock_fail line (lit "FDN4022")
                        (lit "expected one target linux, macos, windows, or freestanding") st
            end in
  mkLockState (ls_lock st) (ls_errors st) (formatSeen st) (rootSeen st) true (nativeSeen st).

(** [storedSO] and [validSO]: [None] is not valid. *)
Definition native_so (token : bytes) : option (option N) :=
  if bool_decide (token = lit "-") then Some None
  else match number token with
       | Some parsed => if (uint32_max <? parsed)%N then None else Some (Some parsed)
       | None => None
       end.

Definition lock_native (tokens : list bytes) (line : nat) (st : LockState) : LockState :=
  let parsed := match tokens with
                | [_; language; name; so; digestText] =>
                    match native_so so with
                    | Some storedSO =>
                        if bool_decide (language = lit "c") && identifier name && digest digestText &&
                           negb (nativeSeen st)
                        then Some (mkLockedNative name storedSO digestText) else None
                    | None => None
                    end
                | _ => None
                end in
  let st := match parsed with
            | Some native =>
                let lock := ls_lock st in
                lock_set (mkLock (l_rootName lock) (l_rootVersion lock) (l_target lock) (Some native)
                            (l_foreign lock) (l_packages lock) (l_edges lock)) st
            | None => lock_fail line (lit "FDN4028") (lit "invalid native library lock entry") st
            end in
  mkLockState (ls_lock st) (ls_errors st) (formatSeen st) (rootSeen st) (targetSeen st) true.

Definition foreign_ecosystems : list bytes := [lit "c"; lit "zig"; lit "rust"; lit "go"].
Definition foreign_kinds : list bytes := [lit "path"; lit "registry"; lit "system"].

Definition lock_foreign (tokens : list bytes) (line : nat) (st : LockState) : LockState :=
  let lock := ls_lock st in
  let parsed := match tokens with
                | [_; ecosystem; ident; version; kind; resolver; abi; contract; digestText] =>
                    let duplicate :=
                      existsb (λ entry, bool_decide (lf_ecosystem entry = ecosystem) &&
                                        bool_decide (lf_identifier entry = ident)) (l_foreign lock) in
                    if bool_decide (ecosystem ∈ foreign_ecosystems) && negb (bool_decide (ident = [])) &&
                       negb (bool_decide (version = [])) && bool_decide (kind ∈ foreign_kinds) &&
                       negb (bool_decide (resolver = [])) && bool_decide (abi = lit "abi") &&
                       bool_decide (contract = lit "c/v1") && digest digestText && negb duplicate
                    then Some (mkLockedForeign ecosystem ident version kind resolver digestText)
                    else None
                | _ => None
                end in
  match parsed with
  | Some entry =>
      lock_set (mkLock (l_rootName lock) (l_rootVersion lock) (l_target lock) (l_nativeLibrary lock)
                  (l_foreign lock ++ [entry]) (l_packages lock) (l_edges lock)) st
  | None => lock_fail line (lit "FDN4029") (lit "invalid foreign provenance lock entry") st
  end.

Definition lock_package (tokens : list bytes) (line : nat) (st : LockState) : LockState :=
  let lock := ls_lock st in
  let invalid := lock_fail line (lit "FDN4023") (lit "invalid locked package") st in
  match tokens with
  | [_; name; versionText; digestText; kindText; location] =>
      match parsePackageVersion versionText, locationKind kindText with
      | Some version, Some kind =>
          if negb (identifier name && digest digestText && validLocation kind location) then invalid
          else if existsb (λ candidate, bool_decide (lp_name candidate = name)) (l_packages lock) then
            lock_fail line (lit "FDN4024") (lit "duplicate locked package " ++ name) st
          else
            lock_set (mkLock (l_rootName lock) (l_rootVersion lock) (l_target lock) (l_nativeLibrary lock)
                        (l_foreign lock)
                        (l_packages lock ++ [mkLockedPackage name version digestText kind location])
                        (l_edges lock)) st
      | _, _ => invalid
      end
  | _ => invalid
  end.

Definition lock_edge (tokens : list bytes) (line : nat) (st : LockState) : LockState :=
  let lock := ls_lock st in
  let parsed := match tokens with
                | [_; parent; dependency] =>
                    Some (mkEdge parent dependency PackageDependencyScope.Runtime)
                | [_; parent; dependency; keyword; scope] =>
                    if bool_decide (keyword = lit "scope") && bool_decide (scope = lit "test")
                    then Some (mkEdge parent dependency PackageDependencyScope.Test) else None
                | _ => None
                end in
  let invalid := lock_fail line (lit "FDN4025") (lit "invalid package edge") st in
  match parsed with
  | Some entry =>
      if negb (identifier (e_parent entry) && identifier (e_dependency entry)) then invalid
      else lock_set (mkLock (l_rootName lock) (l_rootVersion lock) (l_target lock) (l_nativeLibrary lock)
                       (l_foreign lock) (l_packages lock) (l_edges lock ++ [entry])) st
  | None => invalid
  end.

Definition lock_directive (tokens : list bytes) (line : nat) (st : LockState) : LockState :=
  let directive := default [] (head tokens) in
  if bool_decide (directive = lit "format") then lock_format tokens line st
  else if bool_decide (directive = lit "root") then lock_root tokens line st
  else if bool_decide (directive = lit "target") then lock_target tokens line st
  else if bool_decide (directive = lit "native") then lock_native tokens line st
  else if bool_decide (directive = lit "foreign") then lock_foreign tokens line st
  else if bool_decide (directive = lit "package") then lock_package tokens line st
  else if bool_decide (directive = lit "edge") then lock_edge tokens line st
  else lock_fail line (lit "FDN4026") (lit "unknown lock directive " ++ directive) st.

Definition lock_finish (st : LockState) : LockState :=
  let st := if formatSeen st then st
            else lock_fail 1 (lit "FDN4020") (lit "missing lock format directive") st in
  let st := if rootSeen st then st
            else lock_fail 1 (lit "FDN4021") (lit "missing root package") st in
  if targetSeen st then st else lock_fail 1 (lit "FDN4022") (lit "missing lock target") st.
End parse.

(** The sort orders shared by the parser and the renderer. *)
Definition foreign_key (f : LockedForeign) :=
  (lf_ecosystem f, (lf_identifier f, (lf_version f, (lf_kind f, (lf_resolver f, lf_digest f))))).
Definition edge_order (e : PackageEdge) := (e_parent e, (e_dependency e, e_scope e)).
Definition lock_sorted (lock : PackageLock) : PackageLock :=
  mkLock (l_rootName lock) (l_rootVersion lock) (l_target lock) (l_nativeLibrary lock)
    (sort_by foreign_key (l_foreign lock)) (sort_by lp_name (l_packages lock))
    (sort_by edge_order (l_edges lock)).

Definition parsePackageLock (path source : bytes) : PackageParseResult PackageLock :=
  let st := lock_finish path (lines path lock_addError (lock_directive path) source lock_start) in
  match ls_errors st with
  | [] =>
      let '(valid, errors) := validateLockGraph path (ls_lock st) [] in
      mkResult (if valid then Some (lock_sorted (ls_lock st)) else None) errors
  | errors => mkResult None errors
  end.

(** ** [renderPackageLock] *)

Definition render_so (so : option N) : bytes :=
  match so with Some n => to_string n | None => lit "-" end.

Definition render_native (native : LockedNativeLibrary) : bytes :=
  lit "native c " ++ ln_name native ++ [space] ++ render_so (ln_soVersion native) ++ [space] ++
  ln_digest native ++ [newline].

Definition render_foreign (entry : LockedForeign) : bytes :=
  lit "foreign " ++ quote (lf_ecosystem entry) ++ [space] ++ quote (lf_identifier entry) ++ [space] ++
  quote (lf_version entry) ++ [space] ++ lf_kind entry ++ [space] ++ quote (lf_resolver entry) ++
  lit " abi c/v1 " ++ lf_digest entry ++ [newline].

Definition render_package (package : LockedPackage) : bytes :=
  lit "package " ++ lp_name package ++ [space] ++ version_string (lp_version package) ++ [space] ++
  lp_digest package ++ [space] ++ locationName (lp_kind package) ++ [space] ++
  quote (lp_location package) ++ [newline].

Definition render_edge (edge : PackageEdge) : bytes :=
  lit "edge " ++ e_parent edge ++ [space] ++ e_dependency edge ++
  (if bool_decide (e_scope edge = PackageDependencyScope.Test) then lit " scope test" else []) ++ [newline].

Definition renderPackageLock (lock : PackageLock) : bytes :=
  lit "format foundation.lock/v1" ++ [newline] ++
  lit "root " ++ l_rootName lock ++ [space] ++ version_string (l_rootVersion lock) ++ [newline] ++
  lit "target " ++ targetPlatformName (l_target lock) ++ [newline] ++
  default [] (render_native <$> l_nativeLibrary lock) ++
  concat (map render_foreign (sort_by foreign_key (l_foreign lock))) ++
  concat (map render_package (sort_by lp_name (l_packages lock))) ++
  concat (map render_edge (sort_by edge_order (l_edges lock))).

Definition renderPackageError (error : PackageError) : bytes :=
  error_path error ++ lit ":" ++ to_string (N.of_nat (error_line error)) ++ lit ":" ++
  to_string (N.of_nat (error_column error)) ++ lit ": error " ++ error_code error ++ lit ": " ++
  error_message error ++ [newline].

(** *** What the validation accepts *)

Definition edge_key (edge : PackageEdge) : bytes * bytes := (e_parent edge, e_dependency edge).

Definition locked_names (lock : PackageLock) : list bytes := lp_name <$> l_packages lock.

(** A package graph rooted at the project, without the code's bookkeeping. *)
Record LockGraphValid (lock : PackageLock) : Prop := {
  lv_packages : ∀ package, package ∈ l_packages lock →
    lp_name package ≠ l_rootName lock ∧ validLocation (lp_kind package) (lp_location package) = true;
  lv_edges : ∀ e, e ∈ l_edges lock →
    (e_parent e = l_rootName lock ∨ e_parent e ∈ locked_names lock) ∧
    e_dependency e ∈ locked_names lock ∧
    (e_scope e = PackageDependencyScope.Test → e_parent e = l_rootName lock);
  lv_unique : NoDup (edge_key <$> l_edges lock);
  lv_reachable : ∀ name, name ∈ locked_names lock →
    rtc (edge (edge_key <$> l_edges lock)) (l_rootName lock) name;
  lv_acyclic : acyclic (edge_key <$> l_edges lock);
}.

Lemma lock_packages_spec rootName packages seen :
  lock_packages rootName packages seen =
  if decide (Forall (λ p, lp_name p ≠ rootName ∧ validLocation (lp_kind p) (lp_location p) = true) packages)
  then Some (list_to_set (lp_name <$> packages) ∪ seen) else None.
Proof.
  revert seen. induction packages as [|p ps IH]; intros seen; cbn [lock_packages].
  { rewrite decide_True by constructor. f_equal. set_solver. }
  destruct (_ || _) eqn:E; to_prop.
  - rewrite decide_False; [done|]. intros [[??] _]%Forall_cons. destruct E; congruence.
  - destruct E as [E1 E2]. rewrite IH.
    case_decide as H; [rewrite decide_True|rewrite decide_False].
    + f_equal. set_solver.
    + by constructor.
    + done.
    + by intros [_ ?]%Forall_cons.
Qed.

Section edges.
Context (rootName : bytes) (packages : gset bytes).

Definition known_edge (e : PackageEdge) : Prop :=
  (e_parent e = rootName ∨ e_parent e ∈ packages) ∧ e_dependency e ∈ packages ∧
  (e_scope e = PackageDependencyScope.Test → e_parent e = rootName).

Lemma lock_edge_refused_false unique e :
  lock_edge_refused rootName packages unique e = false ↔ known_edge e ∧ edge_key e ∉ unique.
Proof.
  unfold lock_edge_refused, known_edge, edge_key. to_prop.
  destruct (decide (e_parent e = rootName)), (decide (e_parent e ∈ packages)),
    (decide (e_dependency e ∈ packages)), (decide (e_scope e = PackageDependencyScope.Test)); tauto.
Qed.

Definition push_edges (es : list PackageEdge) (g : LockGraph) : LockGraph :=
  mkLockGraph (foldl (λ m e, graph_push m e.1 e.2) (lg_graph g) (edge_key <$> es))
              (foldl (λ m e, count_push m e.2) (lg_incoming g) (edge_key <$> es))
              (list_to_set (edge_key <$> es) ∪ lg_unique g).

Lemma lock_edges_spec es g :
  (lock_edges rootName packages es g = Some (push_edges es g) ∧
   Forall known_edge es ∧ NoDup (edge_key <$> es) ∧ ∀ e, e ∈ es → edge_key e ∉ lg_unique g) ∨
  (lock_edges rootName packages es g = None ∧
   ¬ (Forall known_edge es ∧ NoDup (edge_key <$> es) ∧ ∀ e, e ∈ es → edge_key e ∉ lg_unique g)).
Proof.
  revert g. induction es as [|e es IH]; intros g; cbn [lock_edges].
  { left. split; [|split; [constructor|split; [constructor|set_solver]]].
    unfold push_edges. destruct g; simpl. do 2 f_equal. set_solver. }
  destruct (lock_edge_refused _ _ _ e) eqn:E.
  { right. split; [done|]. intros ([Hk _]%Forall_cons & _ & Hu). apply not_false_iff_true in E.
    apply E, lock_edge_refused_false. split; [done|]. apply Hu. by left. }
  apply lock_edge_refused_false in E as [Hk Hu].
  set (g1 := mkLockGraph _ _ _). destruct (IH g1) as [(-> & Hall & Hnd & Hun)|[-> Hnot]].
  - left. subst g1. cbn [lg_unique] in Hun. split; [|split; [by constructor|split]].
    + unfold push_edges. cbn. do 2 f_equal. set_solver.
    + cbn. apply NoDup_cons. split; [|done].
      intros (e' & Hke & He')%list_elem_of_fmap. apply Hun in He'. rewrite <- Hke in He'. set_solver.
    + intros e' [-> |He']%elem_of_cons; [done|]. apply Hun in He'. set_solver.
  - right. split; [done|]. intros ([_ Hall]%Forall_cons & Hnd & Hun). apply Hnot. split; [done|].
    cbn in Hnd. apply NoDup_cons in Hnd as [Hn Hnd]. split; [done|].
    intros e' He'. subst g1. cbn [lg_unique]. apply not_elem_of_union. split.
    + intros Hx%elem_of_singleton. apply Hn. apply list_elem_of_fmap. exists e'. done.
    + apply Hun. by right.
Qed.
End edges.

Section validate.
Context (lock : PackageLock).
Let rootName := l_rootName lock.
Let names : gset bytes := list_to_set (locked_names lock).
Let keys := edge_key <$> l_edges lock.
Let g := push_edges (l_edges lock) (lock_graph_start rootName names).
Let nodes := lock_nodes rootName names.

Lemma lock_nodes_elem name : name ∈ nodes ↔ name = rootName ∨ name ∈ locked_names lock.
Proof. unfold nodes, lock_nodes. rewrite elem_of_sort_by, elem_of_elements. set_solver. Qed.

Lemma lock_nodes_NoDup : NoDup nodes.
Proof. unfold nodes, lock_nodes. rewrite sort_by_perm. apply NoDup_elements. Qed.

Lemma lock_nodes_length : rootName ∉ locked_names lock → length nodes = size names + 1.
Proof.
  intros Hr. unfold nodes, lock_nodes. rewrite sort_by_perm.
  change (length (elements ({[rootName]} ∪ names))) with (size ({[rootName]} ∪ names)).
  rewrite size_union by set_solver. rewrite size_singleton. lia.
Qed.

(** The value every key of a freshly built map has. *)
Lemma start_lookup {B} (b : B) l name :
  (list_to_map ((λ n, (n, b)) <$> l) : gmap bytes B) !! name = if decide (name ∈ l) then Some b else None.
Proof.
  induction l as [|n l IH]; [done|]. rewrite fmap_cons. cbn [list_to_map foldr]. destruct (decide (n = name)) as [->|].
  - rewrite decide_True by set_solver. apply lookup_insert_eq.
  - change (foldr _ _ _) with (list_to_map ((λ n, (n, b)) <$> l) : gmap bytes B).
    simpl. rewrite lookup_insert_ne by done. rewrite IH. apply decide_ext. set_solver.
Qed.

Lemma lock_successors name : successors (lg_graph g) name = children keys name.
Proof.
  unfold g, push_edges. cbn [lg_graph]. rewrite successors_foldl.
  unfold successors at 1, lock_graph_start. cbn [lg_graph]. rewrite start_lookup.
  by case_decide.
Qed.

Lemma lock_incoming name : count_of (lg_incoming g) name = indegree keys [] name.
Proof.
  unfold g, push_edges. cbn [lg_incoming]. rewrite count_push_foldl.
  unfold count_of, lock_graph_start. cbn [lg_incoming]. rewrite start_lookup.
  by case_decide.
Qed.

Context (Hknown : Forall (known_edge rootName names) (l_edges lock)).
Context (Hunique : NoDup keys).
Context (Hroot : rootName ∉ locked_names lock).

Lemma lock_edges_closed x y : edge keys x y → x ∈ nodes ∧ y ∈ nodes.
Proof.
  intros (e & [= -> ->] & He)%list_elem_of_fmap. rewrite Forall_forall in Hknown.
  destruct (Hknown e He) as (Hp & Hd & _). rewrite !lock_nodes_elem. set_solver.
Qed.

Lemma lock_reach :
  ∃ reached, reach_loop (reach_fuel (l_edges lock)) (lg_graph g) [rootName] ∅ = Some reached ∧
    (size reached = size names + 1 ↔ ∀ name, name ∈ locked_names lock → rtc (edge keys) rootName name).
Proof.
  destruct (reach_loop_total (lg_graph g) (reach_fuel (l_edges lock)) [rootName] ∅ nodes)
    as [reached E].
  - apply lock_nodes_NoDup.
  - intros x Hx. rewrite lock_successors. destruct (children keys x) as [|y l] eqn:El; [done|].
    assert (edge keys x y) as [? _]%lock_edges_closed; [|done].
    apply elem_of_children. rewrite El. by left.
  - pose proof (todo_bound keys (lg_graph g) lock_successors nodes lock_nodes_NoDup) as Hb.
    unfold keys in Hb. rewrite length_fmap in Hb. unfold reach_fuel. cbn [length]. lia.
  - exists reached. split; [done|].
    pose proof (reach_loop_exact _ _ _ _ _ lock_successors E) as Hr.
    assert (reached ⊆ {[rootName]} ∪ names) as Hsub.
    { intros x [->|(y & _ & Hxy)]%Hr%rtc_inv_r; [set_solver|].
      apply lock_edges_closed in Hxy as [_ Hx%lock_nodes_elem]. set_solver. }
    assert (size ({[rootName]} ∪ names) = size names + 1) as Hsz.
    { rewrite size_union by set_solver. rewrite size_singleton. lia. }
    rewrite <- Hsz. split.
    + intros Heq name Hn. apply Hr. assert (reached ≡ {[rootName]} ∪ names) as ->; [|set_solver].
      apply set_subseteq_size_equiv; [done|lia].
    + intros Hall. apply set_size_proper. intros x. split; [apply Hsub|].
      intros [->%elem_of_singleton|Hx]%elem_of_union; apply Hr; [apply rtc_refl|].
      apply Hall. set_solver.
Qed.

Lemma lock_kahn :
  ∃ visited, kahn_loop (S (size names + 1)) (lg_graph g) (lg_incoming g)
      (reverse (filter (λ n, count_of (lg_incoming g) n = 0) nodes)) 0 = Some visited ∧
    (visited = size names + 1 ↔ acyclic keys).
Proof.
  rewrite <- (lock_nodes_length Hroot).
  apply (kahn_loop_exact keys (lg_graph g) nodes lock_successors Hunique lock_nodes_NoDup lock_edges_closed).
  - apply lock_incoming.
  - rewrite reverse_Permutation. apply NoDup_filter, lock_nodes_NoDup.
  - intros x. rewrite elem_of_reverse, list_elem_of_filter. tauto.
  - lia.
Qed.
End validate.

Lemma validate_packages lock :
  Forall (λ p, lp_name p ≠ l_rootName lock ∧ validLocation (lp_kind p) (lp_location p) = true) (l_packages lock) →
  l_rootName lock ∉ locked_names lock.
Proof. intros H (p & E & Hp)%list_elem_of_fmap. rewrite Forall_forall in H. by destruct (H p Hp). Qed.

Lemma known_edges_iff lock :
  Forall (known_edge (l_rootName lock) (list_to_set (locked_names lock))) (l_edges lock) ↔
  ∀ e, e ∈ l_edges lock →
    (e_parent e = l_rootName lock ∨ e_parent e ∈ locked_names lock) ∧
    e_dependency e ∈ locked_names lock ∧
    (e_scope e = PackageDependencyScope.Test → e_parent e = l_rootName lock).
Proof. rewrite Forall_forall. unfold known_edge. by setoid_rewrite elem_of_list_to_set. Qed.

Lemma validateLockGraph_holds (path : bytes) (lock : PackageLock) (errors : list PackageError) :
  (LockGraphValid lock ∧ validateLockGraph path lock errors = (true, errors)) ∨
  (¬ LockGraphValid lock ∧
   ∃ message, validateLockGraph path lock errors = (false, errors ++ [lock_error path message])).
Proof.
  unfold validateLockGraph. rewrite lock_packages_spec, union_empty_r_L.
  case_decide as Hp; [|right; split; [|by eexists]; intros [Hv _ _ _ _]; by apply Hp, Forall_forall].
  apply validate_packages in Hp as Hroot. fold (locked_names lock).
  destruct (lock_edges_spec (l_rootName lock) (list_to_set (locked_names lock)) (l_edges lock)
    (lock_graph_start (l_rootName lock) (list_to_set (locked_names lock))))
    as [(-> & Hk & Hnd & _)|[-> Hnot]].
  2: { right. split; [|by eexists]. intros [_ Hv Hu _ _]. apply Hnot.
       rewrite known_edges_iff. split; [done|]. split; [done|]. set_solver. }
  destruct (lock_reach lock Hk Hnd Hroot) as (reached & -> & Hreach).
  case_bool_decide as Hs.
  { right. split; [|by eexists]. intros [_ _ _ Hv _]. by apply Hs, Hreach. }
  destruct (lock_kahn lock Hk Hnd Hroot) as (visited & -> & Hkahn).
  case_bool_decide as Hv; [right|left].
  - split; [|by eexists]. intros [_ _ _ _ Ha]. by apply Hv, Hkahn.
  - split; [|done]. split.
    + by apply Forall_forall.
    + by apply known_edges_iff.
    + done.
    + by apply Hreach.
    + by apply Hkahn.
Qed.

(** ** The text round trip *)

Definition native_wf (n : LockedNativeLibrary) : Prop :=
  identifier (ln_name n) = true ∧ digest (ln_digest n) = true ∧
  match ln_soVersion n with Some so => (so <= uint32_max)%N | None => True end.

Definition foreign_wf (f : LockedForeign) : Prop :=
  lf_ecosystem f ∈ foreign_ecosystems ∧ lf_identifier f ≠ [] ∧ lf_version f ≠ [] ∧
  lf_kind f ∈ foreign_kinds ∧ lf_resolver f ≠ [] ∧ digest (lf_digest f) = true.

Definition package_wf (p : LockedPackage) : Prop :=
  identifier (lp_name p) = true ∧ version_wf (lp_version p) ∧ digest (lp_digest p) = true ∧
  validLocation (lp_kind p) (lp_location p) = true.

Definition edge_wf (e : PackageEdge) : Prop :=
  identifier (e_parent e) = true ∧ identifier (e_dependency e) = true.

Definition foreign_id (f : LockedForeign) : bytes * bytes := (lf_ecosystem f, lf_identifier f).

Record lock_wf (lock : PackageLock) : Prop := {
  lw_root : identifier (l_rootName lock) = true;
  lw_version : version_wf (l_rootVersion lock);
  lw_target : codec_wf (l_target lock);
  lw_native : from_option native_wf True (l_nativeLibrary lock);
  lw_foreign : Forall foreign_wf (l_foreign lock);
  lw_foreign_id : NoDup (foreign_id <$> l_foreign lock);
  lw_packages : Forall package_wf (l_packages lock);
  lw_names : NoDup (locked_names lock);
  lw_edges : Forall edge_wf (l_edges lock);
}.

#[global] Instance edge_proper : Proper ((≡ₚ) ==> (=) ==> (=) ==> iff) (edge (A := bytes)).
Proof. intros l l' Hl x ? <- y ? <-. unfold edge. by rewrite Hl. Qed.

Lemma acyclic_perm (l l' : list (bytes * bytes)) : l ≡ₚ l' → acyclic l → acyclic l'.
Proof.
  intros Hl Ha x Hx. apply (Ha x). eapply tc_subrel; [|exact Hx].
  intros ??. by rewrite Hl.
Qed.

Lemma lock_sorted_wf lock : lock_wf lock → lock_wf (lock_sorted lock).
Proof.
  intros []. split; cbn; try done; unfold locked_names; cbn; by rewrite sort_by_perm.
Qed.

Lemma lock_sorted_valid lock : LockGraphValid lock → LockGraphValid (lock_sorted lock).
Proof.
  intros [Hp He Hu Hr Ha].
  assert (edge_key <$> l_edges lock ≡ₚ edge_key <$> l_edges (lock_sorted lock)) as Hk.
  { cbn. by rewrite sort_by_perm. }
  assert (∀ x, x ∈ locked_names (lock_sorted lock) ↔ x ∈ locked_names lock) as Hn.
  { intros x. unfold locked_names. cbn. by rewrite sort_by_perm. }
  split; cbn [lock_sorted l_packages l_edges l_rootName] in *.
  - intros p. rewrite elem_of_sort_by. apply Hp.
  - intros e. rewrite elem_of_sort_by, !Hn. apply He.
  - by rewrite <- Hk.
  - intros name ?%Hn%Hr. eapply rtc_subrel; [|done]. intros ??. by rewrite Hk.
  - by eapply acyclic_perm.
Qed.

Lemma lock_sorted_idem lock : lock_sorted (lock_sorted lock) = lock_sorted lock.
Proof. unfold lock_sorted. cbn. by rewrite !sort_by_idem. Qed.

Lemma native_so_render so :
  match so with Some n => (n <= uint32_max)%N | None => True end → native_so (render_so so) = Some so.
Proof.
  unfold native_so. destruct so as [n|]; [|done]. intros Hn. cbn [render_so].
  rewrite bool_decide_false.
  - rewrite number_to_string; [by rewrite (proj2 (N.ltb_ge _ _) Hn)|].
    eapply N.le_lt_trans; [exact Hn|done].
  - intros E. destruct (to_string_spec n) as (_ & H & _). rewrite E in H. by apply Forall_inv in H.
Qed.

(** *** The rendered text is a list of directive lines *)

Definition native_tokens (n : LockedNativeLibrary) : list bytes :=
  [lit "native"; lit "c"; ln_name n; render_so (ln_soVersion n); ln_digest n].
Definition foreign_tokens (f : LockedForeign) : list bytes :=
  [lit "foreign"; lf_ecosystem f; lf_identifier f; lf_version f; lf_kind f; lf_resolver f;
   lit "abi"; lit "c/v1"; lf_digest f].
Definition package_tokens (p : LockedPackage) : list bytes :=
  [lit "package"; lp_name p; version_string (lp_version p); lp_digest p; locationName (lp_kind p);
   lp_location p].
Definition edge_tokens (e : PackageEdge) : list bytes :=
  [lit "edge"; e_parent e; e_dependency e] ++
  (if bool_decide (e_scope e = PackageDependencyScope.Test) then [lit "scope"; lit "test"] else []).
Definition lock_directives (lock : PackageLock) : list (list bytes) :=
  [[lit "format"; lit "foundation.lock/v1"];
   [lit "root"; l_rootName lock; version_string (l_rootVersion lock)];
   [lit "target"; targetPlatformName (l_target lock)]] ++
  (if l_nativeLibrary lock is Some n then [native_tokens n] else []) ++
  map foreign_tokens (l_foreign lock) ++ map package_tokens (l_packages lock) ++
  map edge_tokens (l_edges lock).

Lemma quote_so so : quote (render_so so) = render_so so.
Proof.
  destruct so as [n|]; [|done]. cbn. destruct (to_string_spec n) as (_ & H & Hn & _).
  apply quote_plain; [done|]. by apply digits_plain.
Qed.
Lemma quote_foreign_kind k : k ∈ foreign_kinds → quote k = k.
Proof. intros [->|[->|[->|?%elem_of_nil]%elem_of_cons]%elem_of_cons]%elem_of_cons; done. Qed.

(** A line of the renderer is its tokens, quoted and joined. *)
Ltac solve_render :=
  unfold render_line; cbn [map join_with app]; rewrite ?quote_so; plain_tokens;
  repeat first [rewrite <- app_assoc | rewrite <- app_comm_cons]; reflexivity.

Lemma render_native_line n : native_wf n → render_native n = render_line (native_tokens n) ++ [newline].
Proof. intros (? & ? & _). unfold render_native, native_tokens. solve_render. Qed.
Lemma render_foreign_line f : foreign_wf f → render_foreign f = render_line (foreign_tokens f) ++ [newline].
Proof.
  intros (_ & _ & _ & Hk%quote_foreign_kind & _ & ?). unfold render_foreign, foreign_tokens, render_line.
  cbn [map]. rewrite Hk, (quote_digest (lf_digest f)) by done. cbn [join_with]. by rewrite <- !app_assoc.
Qed.
Lemma render_package_line p : package_wf p → render_package p = render_line (package_tokens p) ++ [newline].
Proof. intros (? & ? & ? & _). unfold render_package, package_tokens. solve_render. Qed.
Lemma render_edge_line e : edge_wf e → render_edge e = render_line (edge_tokens e) ++ [newline].
Proof. intros [? ?]. unfold render_edge, edge_tokens. case_bool_decide; solve_render. Qed.

Lemma renderPackageLock_lines lock :
  lock_wf lock → renderPackageLock lock = render_lines (lock_directives (lock_sorted lock)).
Proof.
  intros Hwf%lock_sorted_wf. destruct (Hwf) as [? ? ? Hn Hf _ Hp _ He].
  rewrite Forall_forall in Hf. rewrite Forall_forall in Hp. rewrite Forall_forall in He.
  unfold renderPackageLock, lock_directives.
  rewrite !render_lines_app. unfold render_lines at 1. cbn [map concat].
  rewrite <- !render_lines_map with (g := render_foreign) by (intros; by apply render_foreign_line, Hf).
  rewrite <- !render_lines_map with (g := render_package) by (intros; by apply render_package_line, Hp).
  rewrite <- !render_lines_map with (g := render_edge) by (intros; by apply render_edge_line, He).
  cbn [lock_sorted l_nativeLibrary l_rootName l_rootVersion l_target l_foreign l_packages l_edges] in *.
  destruct (l_nativeLibrary lock) as [n|].
  - unfold render_lines at 1. cbn [map concat fmap option_fmap option_map default from_option].
    rewrite render_native_line, app_nil_r by done. unfold id. solve_render.
  - solve_render.
Qed.

(** *** Reading the directives back *)

Definition push_foreign (lock : PackageLock) (f : list LockedForeign) : PackageLock :=
  mkLock (l_rootName lock) (l_rootVersion lock) (l_target lock) (l_nativeLibrary lock)
    (l_foreign lock ++ f) (l_packages lock) (l_edges lock).
Definition push_packages (lock : PackageLock) (p : list LockedPackage) : PackageLock :=
  mkLock (l_rootName lock) (l_rootVersion lock) (l_target lock) (l_nativeLibrary lock)
    (l_foreign lock) (l_packages lock ++ p) (l_edges lock).
Definition push_lock_edges (lock : PackageLock) (e : list PackageEdge) : PackageLock :=
  mkLock (l_rootName lock) (l_rootVersion lock) (l_target lock) (l_nativeLibrary lock)
    (l_foreign lock) (l_packages lock) (l_edges lock ++ e).

(** Pushing one at a time is appending. *)
Lemma foldl_push {X} (push : PackageLock → list X → PackageLock) xs st :
  (∀ lock, push lock [] = lock) →
  (∀ lock x xs, push (push lock [x]) xs = push lock (x :: xs)) →
  foldl (λ st x, lock_set (push (ls_lock st) [x]) st) st xs = lock_set (push (ls_lock st) xs) st.
Proof.
  intros H0 H1. revert st. induction xs as [|x xs IH]; intros st; simpl.
  - rewrite H0. by destruct st.
  - rewrite IH. unfold lock_set at 1. cbn. by rewrite H1.
Qed.

Lemma existsb_absent {X K} `{EqDecision K} (key : X → K) (test : X → bool) xs x :
  (∀ y, test y = true → key y = key x) → NoDup (key <$> xs ++ [x]) → existsb test xs = false.
Proof.
  intros Ht Hnd. apply not_true_iff_false. rewrite existsb_Exists, Exists_exists. intros (y & Hy & E%Ht).
  rewrite fmap_app in Hnd. apply NoDup_app in Hnd as (_ & Hnd & _).
  apply (Hnd (key y)); [by apply list_elem_of_fmap_2|]. rewrite E. set_solver.
Qed.

Section read_back.
Context (path : bytes).
Notation read := (directives_from (lock_directive path)).

Lemma NoDup_fmap_prefix {X K} (key : X → K) xs x ys :
  NoDup (key <$> xs ++ x :: ys) → NoDup (key <$> xs ++ [x]).
Proof.
  rewrite !fmap_app. change (x :: ys) with ([x] ++ ys). rewrite fmap_app, app_assoc.
  by intros (? & _ & _)%NoDup_app.
Qed.

Lemma read_foreign n fs st :
  Forall foreign_wf fs → NoDup (foreign_id <$> l_foreign (ls_lock st) ++ fs) →
  read n (map foreign_tokens fs) st = lock_set (push_foreign (ls_lock st) fs) st.
Proof.
  intros Hf Hnd. rewrite <- foldl_push; [|by intros []; unfold push_foreign; cbn; rewrite app_nil_r|].
  2: { intros. unfold push_foreign. cbn. by rewrite <- app_assoc. }
  apply directives_foldl with (I := λ fs st, Forall foreign_wf fs ∧
    NoDup (foreign_id <$> l_foreign (ls_lock st) ++ fs)); [|done].
  clear. intros f fs st n [[(? & ? & ? & ? & ? & Hd) Hf]%Forall_cons Hnd]. split.
  - change (lock_directive path (foreign_tokens f) n st) with (lock_foreign path (foreign_tokens f) n st).
    unfold lock_foreign, foreign_tokens. cbv beta iota zeta.
    rewrite (existsb_absent foreign_id _ _ f), Hd.
    + rewrite !(bool_decide_true (_ ∈ _)) by done. rewrite !(bool_decide_false (_ = [])) by done.
      by destruct f.
    + intros y. to_prop. unfold foreign_id. naive_solver congruence.
    + by eapply NoDup_fmap_prefix.
  - split; [done|]. cbn. by rewrite <- app_assoc.
Qed.

Lemma read_packages n ps st :
  Forall package_wf ps → NoDup (lp_name <$> l_packages (ls_lock st) ++ ps) →
  read n (map package_tokens ps) st = lock_set (push_packages (ls_lock st) ps) st.
Proof.
  intros Hf Hnd. rewrite <- foldl_push; [|by intros []; unfold push_packages; cbn; rewrite app_nil_r|].
  2: { intros. unfold push_packages. cbn. by rewrite <- app_assoc. }
  apply directives_foldl with (I := λ ps st, Forall package_wf ps ∧
    NoDup (lp_name <$> l_packages (ls_lock st) ++ ps)); [|done].
  clear. intros p ps st n [[(Hi & Hv & Hd & Hl) Hf]%Forall_cons Hnd]. split.
  - change (lock_directive path (package_tokens p) n st) with (lock_package path (package_tokens p) n st).
    unfold lock_package, package_tokens. cbv beta iota zeta.
    rewrite (version_reads (lp_version p)), (location_reads (lp_kind p)) by done.
    rewrite (existsb_absent lp_name _ _ p), Hi, Hd, Hl.
    + by destruct p.
    + intros y. by to_prop.
    + by eapply NoDup_fmap_prefix.
  - split; [done|]. cbn. by rewrite <- app_assoc.
Qed.

Lemma read_edges n es st :
  Forall edge_wf es →
  read n (map edge_tokens es) st = lock_set (push_lock_edges (ls_lock st) es) st.
Proof.
  intros Hf. rewrite <- foldl_push; [|by intros []; unfold push_lock_edges; cbn; rewrite app_nil_r|].
  2: { intros. unfold push_lock_edges. cbn. by rewrite <- app_assoc. }
  apply directives_foldl with (I := λ es _, Forall edge_wf es); [|done].
  clear. intros e es st n [[H1 H2] Hf]%Forall_cons. split; [|done].
  change (lock_directive path (edge_tokens e) n st) with (lock_edge path (edge_tokens e) n st).
  unfold lock_edge, edge_tokens. destruct e as [parent dependency []]; cbn [e_scope e_parent e_dependency].
  - rewrite (bool_decide_false (_ = PackageDependencyScope.Test)) by done. cbn [app].
    cbn [e_parent e_dependency] in *. by rewrite H1, H2.
  - rewrite (bool_decide_true (_ = PackageDependencyScope.Test)) by done. cbn [app]. rewrite !bool_decide_true by done.
    cbn [e_parent e_dependency andb] in *. by rewrite H1, H2.
Qed.

Lemma read_native n native st :
  native_wf native → nativeSeen st = false →
  read n [native_tokens native] st =
  mkLockState
    (mkLock (l_rootName (ls_lock st)) (l_rootVersion (ls_lock st)) (l_target (ls_lock st)) (Some native)
       (l_foreign (ls_lock st)) (l_packages (ls_lock st)) (l_edges (ls_lock st)))
    (ls_errors st) (formatSeen st) (rootSeen st) (targetSeen st) true.
Proof.
  intros (Hi & Hd & Hs) Hn. cbn [directives_from].
  change (lock_directive path (native_tokens native) n st) with (lock_native path (native_tokens native) n st).
  unfold lock_native, native_tokens. cbv beta iota zeta.
  rewrite native_so_render, Hi, Hd, Hn by done. by destruct native.
Qed.

Lemma read_head n name version target :
  identifier name = true → version_wf version → codec_wf target →
  read n [[lit "format"; lit "foundation.lock/v1"]; [lit "root"; name; version_string version];
          [lit "target"; targetPlatformName target]] lock_start =
  mkLockState (mkLock name version target None [] [] []) [] true true true false.
Proof.
  intros Hi Hv Ht. cbn [directives_from].
  change (lock_target path [lit "target"; targetPlatformName target] (S (S n))
    (lock_root path [lit "root"; name; version_string version] (S n)
      (mkLockState emptyLock [] true false false false)) =
    mkLockState (mkLock name version target None [] [] []) [] true true true false).
  unfold lock_root. cbv beta iota zeta. rewrite Hi, version_reads by done. cbn -[targetPlatformName].
  unfold lock_target. cbv beta iota zeta. by rewrite target_reads.
Qed.
End read_back.

Lemma read_lock path lock :
  lock_wf lock →
  directives_from (lock_directive path) 1 (lock_directives lock) lock_start =
  mkLockState lock [] true true true (if l_nativeLibrary lock then true else false).
Proof.
  intros [Hi Hv Ht Hn Hf Hfi Hp Hpn He]. unfold lock_directives.
  rewrite !directives_from_app, read_head by done.
  destruct lock as [name version target native foreign packages edges]. cbn [l_nativeLibrary l_foreign l_packages l_edges l_rootName l_rootVersion l_target] in *.
  set (st := directives_from _ _ (if native is Some n then _ else _) _).
  assert (st = mkLockState (mkLock name version target native [] [] []) [] true true true
    (if native then true else false)) as ->.
  { subst st. destruct native as [n|]; [|done]. cbn [l_nativeLibrary] in *. by rewrite read_native. }
  cbn [l_foreign l_packages l_edges] in *.
  rewrite read_foreign by done. rewrite read_packages by done. by rewrite read_edges.
Qed.

Lemma lock_directives_nonempty lock : Forall (λ d, d ≠ []) (lock_directives lock).
Proof.
  unfold lock_directives. rewrite !Forall_app, !Forall_forall. repeat split.
  - intros d. rewrite !elem_of_cons, elem_of_nil. naive_solver.
  - destruct (l_nativeLibrary lock); set_solver.
  - intros d (? & -> & _)%list_elem_of_fmap. done.
  - intros d (? & -> & _)%list_elem_of_fmap. done.
  - intros d (? & -> & _)%list_elem_of_fmap. done.
Qed.

(** *** What the parser accepts *)

(** Kept by every directive while no error was reported. *)
Record lock_partial (st : LockState) : Prop := {
  pt_root : rootSeen st = true →
    identifier (l_rootName (ls_lock st)) = true ∧ version_wf (l_rootVersion (ls_lock st));
  pt_target : targetSeen st = true → codec_wf (l_target (ls_lock st));
  pt_native : from_option native_wf True (l_nativeLibrary (ls_lock st));
  pt_foreign : Forall foreign_wf (l_foreign (ls_lock st));
  pt_foreign_id : NoDup (foreign_id <$> l_foreign (ls_lock st));
  pt_packages : Forall package_wf (l_packages (ls_lock st));
  pt_names : NoDup (locked_names (ls_lock st));
  pt_edges : Forall edge_wf (l_edges (ls_lock st));
}.

Definition lock_invariant (st : LockState) : Prop := ls_errors st = [] → lock_partial st.

(** A reported error makes the invariant vacuous. *)
Lemma lock_fail_invariant st errors e : ls_errors st = errors ++ [e] → lock_invariant st.
Proof. intros H E. rewrite H in E. by destruct errors. Qed.

Lemma existsb_false_NoDup {X K} (key : X → K) (test : X → bool) xs x :
  existsb test xs = false → (∀ y, key y = key x → test y = true) → NoDup (key <$> xs) →
  NoDup (key <$> xs ++ [x]).
Proof.
  intros He Ht Hnd. rewrite fmap_app. apply NoDup_app. split; [done|]. split; [|apply NoDup_singleton].
  intros k (y & -> & Hy)%list_elem_of_fmap Hk%list_elem_of_singleton.
  apply not_true_iff_false in He. apply He, existsb_Exists, Exists_exists. eauto.
Qed.

Lemma native_so_Some token so :
  native_so token = Some so → match so with Some n => (n <= uint32_max)%N | None => True end.
Proof.
  unfold native_so. case_bool_decide; [by intros [= <-]|]. destruct (number token) as [n|]; [|done].
  destruct (N.ltb_spec uint32_max n); [done|]. by intros [= <-].
Qed.

Section invariant.
Context (path : bytes).

(** A branch that reports. *)
Ltac refuse := eapply lock_fail_invariant; reflexivity.

Lemma lock_format_invariant ts n st : lock_invariant st → lock_invariant (lock_format path ts n st).
Proof.
  intros Hst. unfold lock_format. destruct (match ts with [_; _] => _ | _ => _ end).
  - intros E. destruct (Hst E). by split.
  - refuse.
Qed.

Lemma lock_root_invariant ts n st : lock_invariant st → lock_invariant (lock_root path ts n st).
Proof.
  intros Hst. unfold lock_root.
  destruct (match ts with [_; _; _] => _ | _ => _ end) as [[name version]|] eqn:E.
  - destruct ts as [|t [|name' [|vt []]]]; try done.
    destruct (identifier name' && _) eqn:Ei; [|done]. to_prop.
    apply fmap_Some in E as (v & Ev & [= -> ->]). apply version_parsed in Ev as [? _].
    intros E. destruct (Hst E). split; try done; cbn; tauto.
  - refuse.
Qed.

Lemma lock_target_invariant ts n st : lock_invariant st → lock_invariant (lock_target path ts n st).
Proof.
  intros Hst. unfold lock_target.
  destruct (match ts with [_; _] => _ | _ => _ end) as [target|] eqn:E; [|refuse].
  destruct (targetSeen st) eqn:Eseen; [refuse|].
  destruct ts as [|t [|v []]]; try done. apply target_parsed in E as [? _].
  intros E'. destruct (Hst E'). by split.
Qed.

Lemma lock_native_invariant ts n st : lock_invariant st → lock_invariant (lock_native path ts n st).
Proof.
  intros Hst. unfold lock_native.
  destruct (match ts with [_; _; _; _; _] => _ | _ => _ end) as [native|] eqn:E;
    [|refuse].
  destruct ts as [|t [|c [|name [|so [|d []]]]]]; try done.
  destruct (native_so so) as [stored|] eqn:Eso; [|done]. apply native_so_Some in Eso.
  destruct (_ && _) eqn:Ei; [|done]. to_prop. injection E as <-.
  intros E'. destruct (Hst E'). split; try done. cbn. unfold native_wf. cbn. naive_solver.
Qed.

Lemma lock_foreign_invariant ts n st : lock_invariant st → lock_invariant (lock_foreign path ts n st).
Proof.
  intros Hst. unfold lock_foreign.
  destruct (match ts with [_; _; _; _; _; _; _; _; _] => _ | _ => _ end) as [f|] eqn:E;
    [|refuse].
  destruct ts as [|t [|eco [|id [|ver [|kind [|res [|abi [|c [|d []]]]]]]]]]; try done.
  destruct (_ && _) eqn:Ei in E; [|done]. injection E as <-.
  apply andb_true_iff in Ei as [Ei Hdup%negb_true_iff].
  intros E'. destruct (Hst E') as [? ? ? Hf Hid ? ? ?]. split; try done; cbn.
  - apply Forall_app; split; [done|]. apply Forall_singleton. unfold foreign_wf. cbn. to_prop. tauto.
  - eapply existsb_false_NoDup; [exact Hdup| |done].
    intros y [= H1 H2]; cbv beta; by rewrite H1, H2, !bool_decide_true.
Qed.

Lemma lock_package_invariant ts n st : lock_invariant st → lock_invariant (lock_package path ts n st).
Proof.
  intros Hst. unfold lock_package.
  destruct ts as [|t [|name [|vt [|d [|kt [|loc []]]]]]]; try refuse.
  destruct (parsePackageVersion vt) as [v|] eqn:Ev; [|refuse].
  destruct (locationKind kt) as [k|]; [|refuse].
  destruct (negb _) eqn:Ei; [refuse|].
  destruct (existsb _ _) eqn:Ed; [refuse|].
  apply version_parsed in Ev as [? _]. to_prop.
  intros E'. destruct (Hst E') as [? ? ? ? ? Hp Hn ?]. split; try done; cbn.
  - apply Forall_app; split; [done|]. apply Forall_singleton. unfold package_wf. cbn. tauto.
  - eapply existsb_false_NoDup; [exact Ed| |done]. intros y Hy; cbv beta; by rewrite Hy, bool_decide_true.
Qed.

Lemma lock_edge_invariant ts n st : lock_invariant st → lock_invariant (lock_edge path ts n st).
Proof.
  intros Hst. unfold lock_edge. destruct (match ts with [_; _; _] => _ | _ => _ end) as [e|];
    [|refuse].
  destruct (negb _) eqn:Ei; [refuse|]. to_prop.
  intros E'. destruct (Hst E'). split; try done; cbn.
  apply Forall_app; split; [done|]. apply Forall_singleton. unfold edge_wf. tauto.
Qed.

Lemma lock_directive_invariant ts n st : lock_invariant st → lock_invariant (lock_directive path ts n st).
Proof.
  intros Hst. unfold lock_directive.
  repeat (case_bool_decide;
    [first [by apply lock_format_invariant | by apply lock_root_invariant
           | by apply lock_target_invariant | by apply lock_native_invariant
           | by apply lock_foreign_invariant | by apply lock_package_invariant
           | by apply lock_edge_invariant]|]).
  refuse.
Qed.

Lemma lock_finish_invariant st :
  lock_invariant st → ls_errors (lock_finish path st) = [] →
  ls_lock (lock_finish path st) = ls_lock st ∧ lock_wf (ls_lock st).
Proof.
  intros Hst. unfold lock_finish.
  destruct (formatSeen st) eqn:E1, (rootSeen st) eqn:E2; cbn; rewrite ?E2; cbn;
    destruct (targetSeen st) eqn:E3; cbn; try (by destruct (ls_errors st)).
  intros E. split; [done|]. destruct (Hst E) as [Hr Ht ? ? ? ? ? ?].
  destruct (Hr E2). by split; auto.
Qed.

Lemma parse_lock_invariant source :
  lock_invariant (lines path lock_addError (lock_directive path) source lock_start).
Proof.
  apply lines_ind.
  - intros. by eapply lock_fail_invariant.
  - intros. by apply lock_directive_invariant.
  - intros _. split; by try constructor.
Qed.
End invariant.

(** C36: lock text round-trips: a well-formed lock whose graph is valid renders
    to a text that parses, without errors, to the same lock with its packages,
    edges and foreign entries in the canonical order.  Conversely, a parse that
    returns a lock reports nothing, and the lock is well-formed, valid and already
    in canonical order, so rendering and parsing it again changes nothing. *)
Theorem lock_text_roundtrip (path : bytes) (lock : PackageLock) (source : bytes) :
  (lock_wf lock ∧ LockGraphValid lock →
   parsePackageLock path (renderPackageLock lock) = mkResult (Some (lock_sorted lock)) []) ∧
  (result_value (parsePackageLock path source) = Some lock →
   result_errors (parsePackageLock path source) = [] ∧
   lock_wf lock ∧ LockGraphValid lock ∧ lock_sorted lock = lock).
Proof.
  split.
  - intros [Hwf Hv]. unfold parsePackageLock. rewrite renderPackageLock_lines by done.
    apply lock_sorted_wf in Hwf as Hwf'. rewrite lines_render by apply lock_directives_nonempty.
    rewrite read_lock by done. cbn [lock_finish ls_errors ls_lock formatSeen rootSeen targetSeen].
    destruct (validateLockGraph_holds path (lock_sorted lock) []) as [[_ ->]|[Hn _]].
    + by rewrite lock_sorted_idem.
    + by destruct Hn; apply lock_sorted_valid.
  - unfold parsePackageLock.
    destruct (ls_errors (lock_finish _ _)) eqn:E; [|done].
    apply lock_finish_invariant in E as [-> Hwf]; [|apply parse_lock_invariant].
    set (l := ls_lock _) in *. destruct (validateLockGraph_holds path l []) as [[Hv ->]|[_ (? & ->)]]; [|done].
    cbn. intros [= <-]. split; [done|]. split; [by apply lock_sorted_wf|].
    split; [by apply lock_sorted_valid|]. apply lock_sorted_idem.
Qed.

(** C23: the lock graph validation decides exactly the locks whose packages differ
    from the root and have a valid source identity, whose edges connect known
    packages, occur once and carry the test scope only at the root, in which every
    package is reachable from the root, and which have no cycle.  It returns [true]
    and reports nothing on those, and [false] with one FDN4027 error on all
    others; its loops always end. *)
Theorem validateLockGraph_exact (path : bytes) (lock : PackageLock) (errors : list PackageError) :
  (LockGraphValid lock ∧ validateLockGraph path lock errors = (true, errors)) ∨
  (¬ LockGraphValid lock ∧
   ∃ message, validateLockGraph path lock errors = (false, errors ++ [lock_error path message])).
Proof. apply validateLockGraph_holds. Qed.

(** ** Witnesses *)

Definition example_digest : bytes := lit "sha256:" ++ replicate 64 "a"%char.
Definition example_version : PackageVersion := mkVersion 1 2 0 [lit "rc"; lit "1"] [].
Definition example_lock : PackageLock :=
  mkLock (lit "app") example_version Linux (Some (mkLockedNative (lit "app") (Some 3%N) example_digest))
    [mkLockedForeign (lit "rust") (lit "serde # json") (lit "1") (lit "registry") (lit "cargo") example_digest]
    [mkLockedPackage (lit "net.http") example_version example_digest PackageLocationKind.Path (lit "../net http");
     mkLockedPackage (lit "util") example_version example_digest PackageLocationKind.Registry (lit "main")]
    [mkEdge (lit "app") (lit "net.http") PackageDependencyScope.Runtime;
     mkEdge (lit "app") (lit "util") PackageDependencyScope.Test;
     mkEdge (lit "net.http") (lit "util") PackageDependencyScope.Runtime].

Lemma example_version_wf : version_wf example_version.
Proof. apply (version_parsed (lit "1.2.0-rc.1")). by vm_compute. Qed.

Lemma example_lock_ok : lock_wf example_lock ∧ LockGraphValid example_lock.
Proof.
  split.
  - pose proof example_version_wf.
    split; try done; repeat (constructor || done || set_solver).
  - destruct (validateLockGraph_holds [] example_lock []) as [[? _]|[_ (m & Hm)]]; [done|].
    exfalso. by vm_compute in Hm.
Qed.

Lemma lock_text_roundtrip_witness :
  parsePackageLock (lit "foundation.lock") (renderPackageLock example_lock) =
  mkResult (Some (lock_sorted example_lock)) [].
Proof. apply (proj1 (lock_text_roundtrip (lit "foundation.lock") example_lock [])), example_lock_ok. Defined.
