(* ===== verification/Manifest.v ===== *)
(** * The package manifest (compiler/src/package.cpp)

    [foundation.package/v1]: the directives of [parsePackageManifest] with the
    checks behind them, and [renderPackageManifest]. *)
From S2P Require Import Prelude Target CodeStandard Version PackageText FsPath Package.

(** ** Assignments to one field *)

Definition set_name (v : bytes) (m : PackageManifest) : PackageManifest :=
  mkManifest v (m_version m) (m_language m) (m_languageExplicit m) (m_sdk m) (m_codeStandard m) (m_codeStandardExplicit m) (m_codeStandardRules m) (m_source m)
    (m_testSource m) (m_dependencies m) (m_nativeLibrary m) (m_nativeName m) (m_nativeSOVersion m) (m_nativeSources m) (m_nativeLinks m) (m_foreign m).
Definition set_version (v : PackageVersion) (m : PackageManifest) : PackageManifest :=
  mkManifest (m_name m) v (m_language m) (m_languageExplicit m) (m_sdk m) (m_codeStandard m) (m_codeStandardExplicit m) (m_codeStandardRules m) (m_source m)
    (m_testSource m) (m_dependencies m) (m_nativeLibrary m) (m_nativeName m) (m_nativeSOVersion m) (m_nativeSources m) (m_nativeLinks m) (m_foreign m).
Definition set_language (v0 : N) (v1 : bool) (v2 : PackageRequirement) (m : PackageManifest) : PackageManifest :=
  mkManifest (m_name m) (m_version m) v0 v1 v2 (m_codeStandard m) (m_codeStandardExplicit m) (m_codeStandardRules m) (m_source m)
    (m_testSource m) (m_dependencies m) (m_nativeLibrary m) (m_nativeName m) (m_nativeSOVersion m) (m_nativeSources m) (m_nativeLinks m) (m_foreign m).
Definition set_sdk (v : PackageRequirement) (m : PackageManifest) : PackageManifest :=
  mkManifest (m_name m) (m_version m) (m_language m) (m_languageExplicit m) v (m_codeStandard m) (m_codeStandardExplicit m) (m_codeStandardRules m) (m_source m)
    (m_testSource m) (m_dependencies m) (m_nativeLibrary m) (m_nativeName m) (m_nativeSOVersion m) (m_nativeSources m) (m_nativeLinks m) (m_foreign m).
Definition set_codeStandard (v0 : CodeStandardProfile) (v1 : bool) (m : PackageManifest) : PackageManifest :=
  mkManifest (m_name m) (m_version m) (m_language m) (m_languageExplicit m) (m_sdk m) v0 v1 (m_codeStandardRules m) (m_source m)
    (m_testSource m) (m_dependencies m) (m_nativeLibrary m) (m_nativeName m) (m_nativeSOVersion m) (m_nativeSources m) (m_nativeLinks m) (m_foreign m).
Definition set_codeStandardRules (v : list CodeStandardRuleSetting) (m : PackageManifest) : PackageManifest :=
  mkManifest (m_name m) (m_version m) (m_language m) (m_languageExplicit m) (m_sdk m) (m_codeStandard m) (m_codeStandardExplicit m) v (m_source m)
    (m_testSource m) (m_dependencies m) (m_nativeLibrary m) (m_nativeName m) (m_nativeSOVersion m) (m_nativeSources m) (m_nativeLinks m) (m_foreign m).
Definition set_source (v : bytes) (m : PackageManifest) : PackageManifest :=
  mkManifest (m_name m) (m_version m) (m_language m) (m_languageExplicit m) (m_sdk m) (m_codeStandard m) (m_codeStandardExplicit m) (m_codeStandardRules m) v
    (m_testSource m) (m_dependencies m) (m_nativeLibrary m) (m_nativeName m) (m_nativeSOVersion m) (m_nativeSources m) (m_nativeLinks m) (m_foreign m).
Definition set_testSource (v : option bytes) (m : PackageManifest) : PackageManifest :=
  mkManifest (m_name m) (m_version m) (m_language m) (m_languageExplicit m) (m_sdk m) (m_codeStandard m) (m_codeStandardExplicit m) (m_codeStandardRules m) (m_source m)
    v (m_dependencies m) (m_nativeLibrary m) (m_nativeName m) (m_nativeSOVersion m) (m_nativeSources m) (m_nativeLinks m) (m_foreign m).
Definition set_dependencies (v : list PackageDependency) (m : PackageManifest) : PackageManifest :=
  mkManifest (m_name m) (m_version m) (m_language m) (m_languageExplicit m) (m_sdk m) (m_codeStandard m) (m_codeStandardExplicit m) (m_codeStandardRules m) (m_source m)
    (m_testSource m) v (m_nativeLibrary m) (m_nativeName m) (m_nativeSOVersion m) (m_nativeSources m) (m_nativeLinks m) (m_foreign m).
Definition set_nativeLibrary (v : bool) (m : PackageManifest) : PackageManifest :=
  mkManifest (m_name m) (m_version m) (m_language m) (m_languageExplicit m) (m_sdk m) (m_codeStandard m) (m_codeStandardExplicit m) (m_codeStandardRules m) (m_source m)
    (m_testSource m) (m_dependencies m) v (m_nativeName m) (m_nativeSOVersion m) (m_nativeSources m) (m_nativeLinks m) (m_foreign m).
Definition set_nativeName (v : option bytes) (m : PackageManifest) : PackageManifest :=
  mkManifest (m_name m) (m_version m) (m_language m) (m_languageExplicit m) (m_sdk m) (m_codeStandard m) (m_codeStandardExplicit m) (m_codeStandardRules m) (m_source m)
    (m_testSource m) (m_dependencies m) (m_nativeLibrary m) v (m_nativeSOVersion m) (m_nativeSources m) (m_nativeLinks m) (m_foreign m).
Definition set_nativeSOVersion (v : option N) (m : PackageManifest) : PackageManifest :=
  mkManifest (m_name m) (m_version m) (m_language m) (m_languageExplicit m) (m_sdk m) (m_codeStandard m) (m_codeStandardExplicit m) (m_codeStandardRules m) (m_source m)
    (m_testSource m) (m_dependencies m) (m_nativeLibrary m) (m_nativeName m) v (m_nativeSources m) (m_nativeLinks m) (m_foreign m).
Definition set_nativeSources (v : list NativeSource) (m : PackageManifest) : PackageManifest :=
  mkManifest (m_name m) (m_version m) (m_language m) (m_languageExplicit m) (m_sdk m) (m_codeStandard m) (m_codeStandardExplicit m) (m_codeStandardRules m) (m_source m)
    (m_testSource m) (m_dependencies m) (m_nativeLibrary m) (m_nativeName m) (m_nativeSOVersion m) v (m_nativeLinks m) (m_foreign m).
Definition set_nativeLinks (v : list NativeLink) (m : PackageManifest) : PackageManifest :=
  mkManifest (m_name m) (m_version m) (m_language m) (m_languageExplicit m) (m_sdk m) (m_codeStandard m) (m_codeStandardExplicit m) (m_codeStandardRules m) (m_source m)
    (m_testSource m) (m_dependencies m) (m_nativeLibrary m) (m_nativeName m) (m_nativeSOVersion m) (m_nativeSources m) v (m_foreign m).
Definition set_foreign (v : list Foreign) (m : PackageManifest) : PackageManifest :=
  mkManifest (m_name m) (m_version m) (m_language m) (m_languageExplicit m) (m_sdk m) (m_codeStandard m) (m_codeStandardExplicit m) (m_codeStandardRules m) (m_source m)
    (m_testSource m) (m_dependencies m) (m_nativeLibrary m) (m_nativeName m) (m_nativeSOVersion m) (m_nativeSources m) (m_nativeLinks m) v.

(** ** The lambda's captured state

    [seen] holds the directives whose [...Seen] flag is set; [rules] is the set
    [codeStandardRules]. *)
Record ManifestState := mkManifestState {
  ms_manifest : PackageManifest;
  ms_errors : list PackageError;
  ms_seen : gset bytes;
  ms_rules : gset bytes;
}.

Definition anyRequirement : PackageRequirement := mkRequirement Any (mkVersion 0 0 0 [] []).
Definition emptyManifest : PackageManifest :=
  mkManifest [] (mkVersion 0 0 0 [] []) 1 false anyRequirement Standard false [] []
    None [] false None None [] [] [].
Definition manifest_start : ManifestState := mkManifestState emptyManifest [] ∅ ∅.

Definition seen (directive : bytes) (st : ManifestState) : bool := bool_decide (directive ∈ ms_seen st).
Definition mark (directive : bytes) (st : ManifestState) : ManifestState :=
  mkManifestState (ms_manifest st) (ms_errors st) ({[directive]} ∪ ms_seen st) (ms_rules st).
Definition assign (f : PackageManifest → PackageManifest) (st : ManifestState) : ManifestState :=
  mkManifestState (f (ms_manifest st)) (ms_errors st) (ms_seen st) (ms_rules st).
Definition manifest_addError (e : PackageError) (st : ManifestState) : ManifestState :=
  mkManifestState (ms_manifest st) (ms_errors st ++ [e]) (ms_seen st) (ms_rules st).

Section parse.
Context (path : bytes).

Definition manifest_fail (line : nat) (code message : bytes) : ManifestState → ManifestState :=
  manifest_addError (mkPackageError path line 1 code message).

(** The shape most directives share: a value parsed from the tokens is assigned,
    unless the directive was seen before; it counts as seen either way. *)
Definition once (directive : bytes) (line : nat) (code message : bytes)
    (parsed : option (PackageManifest → PackageManifest)) (st : ManifestState) : ManifestState :=
  mark directive
    match parsed with
    | Some f => if seen directive st then manifest_fail line code message st else assign f st
    | None => manifest_fail line code message st
    end.

Definition manifest_format (tokens : list bytes) (line : nat) : ManifestState → ManifestState :=
  once (lit "format") line (lit "FDN4004") (lit "expected one format foundation.package/v1 directive")
    match tokens with
    | [_; value] => if bool_decide (value = lit "foundation.package/v1") then Some id else None
    | _ => None
    end.

Definition manifest_name (tokens : list bytes) (line : nat) : ManifestState → ManifestState :=
  once (lit "name") line (lit "FDN4005") (lit "expected one valid package name")
    match tokens with
    | [_; value] => if identifier value then Some (set_name value) else None
    | _ => None
    end.

Definition manifest_version (tokens : list bytes) (line : nat) : ManifestState → ManifestState :=
  once (lit "version") line (lit "FDN4006") (lit "expected one semantic package version")
    match tokens with [_; value] => set_version <$> parsePackageVersion value | _ => None end.

Definition manifest_language (tokens : list bytes) (line : nat) : ManifestState → ManifestState :=
  once (lit "language") line (lit "FDN4007") (lit "expected one supported language level")
    match tokens with
    | [_; value] =>
        match number value with
        | Some parsed => if bool_decide (parsed = 1%N) then Some (set_language 1 true anyRequirement) else None
        | None => None
        end
    | _ => None
    end.

Definition manifest_sdk (tokens : list bytes) (line : nat) : ManifestState → ManifestState :=
  once (lit "sdk") line (lit "FDN4007") (lit "expected one SDK version requirement")
    match tokens with [_; value] => set_sdk <$> parsePackageRequirement value | _ => None end.

Definition manifest_fcs (tokens : list bytes) (line : nat) : ManifestState → ManifestState :=
  once (lit "fcs") line (lit "FDN4014")
    (lit "expected at most one FCS profile: valid, standard, or strict")
    match tokens with
    | [_; value] => (λ parsed, set_codeStandard parsed true) <$> parseCodeStandardProfile value
    | _ => None
    end.

(** The code enters the set before the size is compared. *)
Definition manifest_fcs_rule (tokens : list bytes) (line : nat) (st : ManifestState) : ManifestState :=
  let invalid := manifest_fail line (lit "FDN4014")
    (lit "fcs_rule requires one unique configurable FCS code and severity: off, warning, or error") in
  match tokens with
  | [_; code; severityText] =>
      match parseCodeStandardSeverity severityText with
      | None => invalid st
      | Some severity =>
          if negb (configurableCodeStandardRule code) || bool_decide (code ∈ ms_rules st) then invalid st
          else
            let st := mkManifestState (ms_manifest st) (ms_errors st) (ms_seen st) ({[code]} ∪ ms_rules st) in
            let rules := m_codeStandardRules (ms_manifest st) in
            if bool_decide (length rules = maxPackageEntries) then invalid st
            else assign (set_codeStandardRules (rules ++ [Build_CodeStandardRuleSetting code severity])) st
      end
  | _ => invalid st
  end.

Definition manifest_source (tokens : list bytes) (line : nat) : ManifestState → ManifestState :=
  once (lit "source") line (lit "FDN4008") (lit "expected one relative source directory without ..")
    match tokens with
    | [_; value] => if relativeSource value then Some (set_source value) else None
    | _ => None
    end.

Definition manifest_test_source (tokens : list bytes) (line : nat) : ManifestState → ManifestState :=
  once (lit "test_source") line (lit "FDN4013")
    (lit "expected at most one relative test source directory without ..")
    match tokens with
    | [_; value] => if relativeSource value then Some (set_testSource (Some value)) else None
    | _ => None
    end.

Definition manifest_native_library (tokens : list bytes) (line : nat) : ManifestState → ManifestState :=
  once (lit "native_library") line (lit "FDN4015") (lit "expected one native_library c directive")
    match tokens with
    | [_; value] => if bool_decide (value = lit "c") then Some (set_nativeLibrary true) else None
    | _ => None
    end.

Definition manifest_native_name (tokens : list bytes) (line : nat) : ManifestState → ManifestState :=
  once (lit "native_name") line (lit "FDN4015") (lit "expected one valid native library name")
    match tokens with
    | [_; value] => if identifier value then Some (set_nativeName (Some value)) else None
    | _ => None
    end.

Definition manifest_native_soversion (tokens : list bytes) (line : nat) : ManifestState → ManifestState :=
  once (lit "native_soversion") line (lit "FDN4015") (lit "expected one native library SOVERSION")
    match tokens with
    | [_; value] =>
        match number value with
        | Some parsed => if (uint32_max <? parsed)%N then None else Some (set_nativeSOVersion (Some parsed))
        | None => None
        end
    | _ => None
    end.

(** The optional [target <selector>] at the end of a native directive: [None]
    when it is malformed. *)
Definition target_suffix (rest : list bytes) : option (option TargetSelector) :=
  match rest with
  | [] => Some None
  | [keyword; selector] =>
      if bool_decide (keyword = lit "target") then Some <$> parseTargetSelector selector else None
  | _ => None
  end.

Definition source_conflict (x y : NativeSource) : bool :=
  path_eqb (source_path x) (source_path y) && overlappingTargets (source_target x) (source_target y).

Definition manifest_native_source (tokens : list bytes) (line : nat) (st : ManifestState) : ManifestState :=
  let invalid := manifest_fail line (lit "FDN4015")
    (lit "native_source requires one unique relative C file and optional target") st in
  match tokens with
  | _ :: value :: rest =>
      match target_suffix rest with
      | Some sourceTarget =>
          let entry := mkNativeSource (lexically_normal value) sourceTarget in
          let valid := relativeSource value && bool_decide (extension (source_path entry) = lit ".c") in
          let sources := m_nativeSources (ms_manifest st) in
          if negb valid || existsb (λ x, source_conflict x entry) sources then invalid
          else assign (set_nativeSources (sources ++ [entry])) st
      | None => invalid
      end
  | _ => invalid
  end.

Definition link_conflict (x y : NativeLink) : bool :=
  bool_decide (link_library x = link_library y) && overlappingTargets (link_target x) (link_target y).

Definition manifest_native_link (tokens : list bytes) (line : nat) (st : ManifestState) : ManifestState :=
  let invalid := manifest_fail line (lit "FDN4015")
    (lit "native_link requires one unique library and optional target") st in
  match tokens with
  | _ :: value :: rest =>
      match target_suffix rest with
      | Some linkTarget =>
          let entry := mkNativeLink value linkTarget in
          let links := m_nativeLinks (ms_manifest st) in
          if negb (identifier value) || existsb (λ x, link_conflict x entry) links then invalid
          else assign (set_nativeLinks (links ++ [entry])) st
      | None => invalid
      end
  | _ => invalid
  end.

Definition manifest_ecosystems : list bytes := [lit "c"; lit "zig"; lit "rust"; lit "go"].
Definition manifest_foreign_kinds : list bytes := [lit "path"; lit "registry"; lit "system"].
Definition foreign_conflict (x y : Foreign) : bool :=
  bool_decide (foreign_ecosystem x = foreign_ecosystem y) &&
  bool_decide (foreign_identifier x = foreign_identifier y).

Definition manifest_foreign (tokens : list bytes) (line : nat) (st : ManifestState) : ManifestState :=
  let invalid := manifest_fail line (lit "FDN4015")
    (lit "foreign requires ecosystem, identifier, version, resolver kind, resolver, and abi c/v1") st in
  match tokens with
  | [_; ecosystem; ident; version; kind; resolver; abi; contract] =>
      let entry := mkForeign ecosystem ident version kind resolver in
      let entries := m_foreign (ms_manifest st) in
      if negb (bool_decide (ecosystem ∈ manifest_ecosystems)) || bool_decide (ident = []) ||
         bool_decide (version = []) || bool_decide (resolver = []) ||
         negb (bool_decide (kind ∈ manifest_foreign_kinds)) ||
         (bool_decide (kind = lit "path") && negb (relativeSource resolver)) ||
         negb (bool_decide (abi = lit "abi")) || negb (bool_decide (contract = lit "c/v1")) ||
         existsb (λ x, foreign_conflict x entry) entries
      then invalid
      else assign (set_foreign (entries ++ [entry])) st
  | _ => invalid
  end.

(** The qualifier loop over the tokens behind the location, two at a time. *)
Record Qualifiers := mkQualifiers {
  dependencyTarget : option TargetSelector;
  dependencyScope : PackageDependencyScope;
  validQualifiers : bool;
  scopeSeen : bool;
}.

Definition qualifier_step (keyword value : bytes) (q : Qualifiers) : Qualifiers :=
  if bool_decide (keyword = lit "target") && bool_decide (dependencyTarget q = None) then
    let target := parseTargetSelector value in
    mkQualifiers target (dependencyScope q) (validQualifiers q && bool_decide (target ≠ None)) (scopeSeen q)
  else if bool_decide (keyword = lit "scope") && negb (scopeSeen q) && bool_decide (value = lit "test") then
    mkQualifiers (dependencyTarget q) PackageDependencyScope.Test (validQualifiers q) true
  else mkQualifiers (dependencyTarget q) (dependencyScope q) false (scopeSeen q).

Fixpoint qualifiers (tokens : list bytes) (q : Qualifiers) : Qualifiers :=
  match tokens with
  | keyword :: value :: tokens => qualifiers tokens (qualifier_step keyword value q)
  | _ => q
  end.
Definition no_qualifiers : Qualifiers := mkQualifiers None PackageDependencyScope.Runtime true false.

Definition dependency_conflict (x y : PackageDependency) : bool :=
  bool_decide (dep_name x = dep_name y) && bool_decide (dep_target x = dep_target y).

Definition manifest_dependency (tokens : list bytes) (line : nat) (st : ManifestState) : ManifestState :=
  let fail code message := manifest_fail line (lit code) message st in
  let entries := m_dependencies (ms_manifest st) in
  match tokens with
  | _ :: name :: requirementText :: kindText :: location :: rest =>
      if negb (bool_decide (length rest ∈ [0; 2; 4])) then
        fail "FDN4009" (lit "dependency requires name, version, source kind, and location")
      else
        let q := qualifiers rest no_qualifiers in
        match parsePackageRequirement requirementText, locationKind kindText with
        | Some requirement, Some kind =>
            if negb (identifier name) || negb (validLocation kind location) || negb (validQualifiers q) then
              fail "FDN4009" (lit "invalid package dependency")
            else if bool_decide (length entries = maxPackageEntries) then
              fail "FDN4010" (lit "package manifest exceeds 4096 dependencies")
            else
              let entry := mkDependency name requirement kind location
                             (dependencyTarget q) (dependencyScope q) in
              if existsb (λ x, dependency_conflict x entry) entries then
                fail "FDN4011" (lit "duplicate package dependency " ++ name)
              else assign (set_dependencies (entries ++ [entry])) st
        | _, _ => fail "FDN4009" (lit "invalid package dependency")
        end
  | _ => fail "FDN4009" (lit "dependency requires name, version, source kind, and location")
  end.

Definition manifest_directive (tokens : list bytes) (line : nat) (st : ManifestState) : ManifestState :=
  let directive := default [] (head tokens) in
  if bool_decide (directive = lit "format") then manifest_format tokens line st
  else if bool_decide (directive = lit "name") then manifest_name tokens line st
  else if bool_decide (directive = lit "version") then manifest_version tokens line st
  else if bool_decide (directive = lit "language") then manifest_language tokens line st
  else if bool_decide (directive = lit "sdk") then manifest_sdk tokens line st
  else if bool_decide (directive = lit "fcs") then manifest_fcs tokens line st
  else if bool_decide (directive = lit "fcs_rule") then manifest_fcs_rule tokens line st
  else if bool_decide (directive = lit "source") then manifest_source tokens line st
  else if bool_decide (directive = lit "test_source") then manifest_test_source tokens line st
  else if bool_decide (directive = lit "native_library") then manifest_native_library tokens line st
  else if bool_decide (directive = lit "native_name") then manifest_native_name tokens line st
  else if bool_decide (directive = lit "native_soversion") then manifest_native_soversion tokens line st
  else if bool_decide (directive = lit "native_source") then manifest_native_source tokens line st
  else if bool_decide (directive = lit "native_link") then manifest_native_link tokens line st
  else if bool_decide (directive = lit "foreign") then manifest_foreign tokens line st
  else if bool_decide (directive = lit "dependency") then manifest_dependency tokens line st
  else manifest_fail line (lit "FDN4012") (lit "unknown package directive " ++ directive) st.

(** The checks behind the line loop, each a condition and the error it adds. *)
Definition isTest (d : PackageDependency) : bool :=
  bool_decide (dep_scope d = PackageDependencyScope.Test).

(** [relative] of a native source below the root of a foreign C path source. *)
Definition owns (source : NativeSource) (foreign : Foreign) : bool :=
  bool_decide (foreign_ecosystem foreign = lit "c") && bool_decide (foreign_kind foreign = lit "path") &&
  match lexically_relative (source_path source) (lexically_normal (foreign_resolver foreign)) with
  | [] => false
  | first :: _ => negb (bool_decide (first = [slash])) && negb (path_eqb first dotdot)
  end.

Definition native_sources_owned (m : PackageManifest) : list (bool * (bytes * bytes)) :=
  map (λ source,
    (negb (existsb (owns source) (m_foreign m)),
     (lit "FDN4015", lit "native_source must belong to a foreign c path source")))
    (m_nativeSources m).

Definition manifest_checks (st : ManifestState) : list (bool * (bytes * bytes)) :=
  let m := ms_manifest st in
  let languageSeen := seen (lit "language") st in
  let sdkSeen := seen (lit "sdk") st in
  [(negb (seen (lit "format") st), (lit "FDN4004", lit "missing package format directive"));
   (negb (seen (lit "name") st), (lit "FDN4005", lit "missing package name"));
   (negb (seen (lit "version") st), (lit "FDN4006", lit "missing package version"));
   (negb languageSeen && negb sdkSeen, (lit "FDN4007", lit "missing language or SDK requirement"));
   (languageSeen && sdkSeen, (lit "FDN4007", lit "package manifest must select either language or SDK"));
   (negb (seen (lit "source") st), (lit "FDN4008", lit "missing source directory"));
   (from_option (nestedSource (m_source m)) false (m_testSource m),
    (lit "FDN4013", lit "source and test_source directories cannot overlap"));
   (bool_decide (m_testSource m = None) && existsb isTest (m_dependencies m),
    (lit "FDN4013", lit "test dependencies require a test_source directory"));
   ((bool_decide (m_nativeName m ≠ None) || bool_decide (m_nativeSOVersion m ≠ None)) && negb (m_nativeLibrary m),
    (lit "FDN4015", lit "native library metadata requires native_library c"));
   (m_nativeLibrary m && bool_decide (m_nativeName m = None),
    (lit "FDN4015", lit "native_library c requires native_name"));
   ((negb (bool_decide (length (m_nativeLinks m) = 0)) || negb (bool_decide (length (m_foreign m) = 0))) &&
    negb (m_nativeLibrary m) && bool_decide (length (m_nativeSources m) = 0),
    (lit "FDN4015", lit "native links and foreign provenance require native_library c or native_source"))]
  ++ native_sources_owned m.

Definition manifest_finish (st : ManifestState) : list PackageError :=
  foldl (λ errors check,
    if check.1 : bool then errors ++ [mkPackageError path 1 1 check.2.1 check.2.2] else errors)
    (ms_errors st) (manifest_checks st).
End parse.

(** ** The result *)

Definition source_order (s : NativeSource) := (path_key (source_path s), source_target s).
Definition link_order (l : NativeLink) := (link_library l, link_target l).
Definition dependency_order (d : PackageDependency) := (dep_name d, dep_target d).
Definition foreign_order (f : Foreign) :=
  (foreign_ecosystem f, (foreign_identifier f, (foreign_version f, (foreign_kind f, foreign_resolver f)))).

Definition parse_sorted (m : PackageManifest) : PackageManifest :=
  set_dependencies (sort_by dependency_order (m_dependencies m))
    (set_nativeLinks (sort_by link_order (m_nativeLinks m))
      (set_nativeSources (sort_by source_order (m_nativeSources m)) m)).

Definition parsePackageManifest (path source : bytes) : PackageParseResult PackageManifest :=
  let st := lines path manifest_addError (manifest_directive path) source manifest_start in
  match manifest_finish path st with
  | [] => mkResult (Some (parse_sorted (ms_manifest st))) []
  | errors => mkResult None errors
  end.

(** ** [renderPackageManifest] *)

Definition line (parts : list bytes) : bytes := concat parts ++ [newline].

Definition render_target (target : option TargetSelector) : bytes :=
  match target with Some t => lit " target " ++ targetSelectorName t | None => [] end.

Definition render_rule (rule : CodeStandardRuleSetting) : bytes :=
  line [lit "fcs_rule "; rule_code rule; [space]; codeStandardSeverityName (rule_severity rule)].
Definition render_source (source : NativeSource) : bytes :=
  line [lit "native_source "; quote (source_path source); render_target (source_target source)].
Definition render_link (link : NativeLink) : bytes :=
  line [lit "native_link "; quote (link_library link); render_target (link_target link)].
Definition render_foreign_entry (entry : Foreign) : bytes :=
  line [lit "foreign "; quote (foreign_ecosystem entry); [space]; quote (foreign_identifier entry); [space];
        quote (foreign_version entry); [space]; foreign_kind entry; [space]; quote (foreign_resolver entry);
        lit " abi c/v1"].
Definition render_dependency (dependency : PackageDependency) : bytes :=
  line [lit "dependency "; dep_name dependency; [space]; requirement_string (dep_requirement dependency);
        [space]; locationName (dep_kind dependency); [space]; quote (dep_location dependency);
        render_target (dep_target dependency);
        if isTest dependency then lit " scope " ++ scopeName (dep_scope dependency) else []].

Definition render_header (m : PackageManifest) : bytes :=
  line [lit "format foundation.package/v1"] ++ line [lit "name "; m_name m] ++
  line [lit "version "; version_string (m_version m)] ++
  (if m_languageExplicit m then line [lit "language "; to_string (m_language m)]
   else line [lit "sdk "; requirement_string (m_sdk m)]) ++
  (if m_codeStandardExplicit m then line [lit "fcs "; codeStandardProfileName (m_codeStandard m)] else []).

Definition render_sources (m : PackageManifest) : bytes :=
  line [lit "source "; quote (m_source m)] ++
  from_option (λ test, line [lit "test_source "; quote test]) [] (m_testSource m).

Definition render_native_library (m : PackageManifest) : bytes :=
  (if m_nativeLibrary m then line [lit "native_library c"] else []) ++
  from_option (λ name, line [lit "native_name "; quote name]) [] (m_nativeName m) ++
  from_option (λ so, line [lit "native_soversion "; to_string so]) [] (m_nativeSOVersion m).

Definition renderPackageManifest (m : PackageManifest) : bytes :=
  render_header m ++
  concat (map render_rule (sort_by rule_code (m_codeStandardRules m))) ++
  render_sources m ++ render_native_library m ++
  concat (map render_source (sort_by source_order (m_nativeSources m))) ++
  concat (map render_link (sort_by link_order (m_nativeLinks m))) ++
  concat (map render_foreign_entry (sort_by foreign_order (m_foreign m))) ++
  concat (map render_dependency (sort_by dependency_order (m_dependencies m))).

(** ** Accepted manifests *)

Definition rule_wf (r : CodeStandardRuleSetting) : Prop := configurableCodeStandardRule (rule_code r) = true.
Definition source_wf (s : NativeSource) : Prop :=
  lexically_normal (source_path s) = source_path s ∧ relativeSource (source_path s) = true ∧
  extension (source_path s) = lit ".c".
Definition link_wf (l : NativeLink) : Prop := identifier (link_library l) = true.
Definition foreign_entry_wf (f : Foreign) : Prop :=
  foreign_ecosystem f ∈ manifest_ecosystems ∧ foreign_identifier f ≠ [] ∧ foreign_version f ≠ [] ∧
  foreign_kind f ∈ manifest_foreign_kinds ∧ foreign_resolver f ≠ [] ∧
  (foreign_kind f = lit "path" → relativeSource (foreign_resolver f) = true).
Definition dependency_wf (d : PackageDependency) : Prop :=
  identifier (dep_name d) = true ∧ requirement_wf (dep_requirement d) ∧
  validLocation (dep_kind d) (dep_location d) = true.

(** The part of the invariant that the lists carry. *)
Record manifest_lists (m : PackageManifest) : Prop := {
  ml_rules : Forall rule_wf (m_codeStandardRules m) ∧ NoDup (rule_code <$> m_codeStandardRules m) ∧
    length (m_codeStandardRules m) ≤ maxPackageEntries;
  ml_sources : Forall source_wf (m_nativeSources m) ∧ separate source_conflict (m_nativeSources m);
  ml_links : Forall link_wf (m_nativeLinks m) ∧ separate link_conflict (m_nativeLinks m);
  ml_foreign : Forall foreign_entry_wf (m_foreign m) ∧ separate foreign_conflict (m_foreign m);
  ml_dependencies : Forall dependency_wf (m_dependencies m) ∧
    separate dependency_conflict (m_dependencies m) ∧ length (m_dependencies m) ≤ maxPackageEntries;
}.

(** The part the options carry. *)
Record manifest_options (m : PackageManifest) : Prop := {
  mo_standard : m_codeStandardExplicit m = false → m_codeStandard m = Standard;
  mo_test : from_option (λ t, relativeSource t = true) True (m_testSource m);
  mo_native_name : from_option (λ n, identifier n = true) True (m_nativeName m);
  mo_soversion : from_option (λ n, (n <= uint32_max)%N) True (m_nativeSOVersion m);
}.

(** What a manifest promises to its readers. *)
Record manifest_wf (m : PackageManifest) : Prop := {
  mw_name : identifier (m_name m) = true;
  mw_version : version_wf (m_version m);
  mw_language : m_language m = 1%N;
  mw_sdk : if m_languageExplicit m then m_sdk m = anyRequirement else requirement_wf (m_sdk m);
  mw_source : relativeSource (m_source m) = true;
  mw_lists : manifest_lists m;
  mw_options : manifest_options m;
  mw_disjoint : from_option (λ t, nestedSource (m_source m) t = false) True (m_testSource m);
  mw_tests : m_testSource m = None → ∀ d, d ∈ m_dependencies m → dep_scope d = PackageDependencyScope.Runtime;
  mw_native : m_nativeLibrary m = true ↔ m_nativeName m ≠ None;
  mw_soversion : m_nativeSOVersion m ≠ None → m_nativeLibrary m = true;
  mw_provenance : m_nativeLinks m ≠ [] ∨ m_foreign m ≠ [] →
    m_nativeLibrary m = true ∨ m_nativeSources m ≠ [];
  mw_owned : ∀ s, s ∈ m_nativeSources m → ∃ f, f ∈ m_foreign m ∧ owns s f = true;
}.

(** ** Duplicates are symmetric *)

Lemma overlappingTargets_sym x y : overlappingTargets x y = overlappingTargets y x.
Proof. destruct x as [[]|], y as [[]|]; done. Qed.

Lemma source_conflict_sym x y : source_conflict x y = source_conflict y x.
Proof.
  unfold source_conflict, path_eqb. rewrite overlappingTargets_sym. f_equal. by apply bool_decide_ext.
Qed.
Lemma link_conflict_sym x y : link_conflict x y = link_conflict y x.
Proof. unfold link_conflict. rewrite overlappingTargets_sym. f_equal. by apply bool_decide_ext. Qed.
Lemma foreign_conflict_sym x y : foreign_conflict x y = foreign_conflict y x.
Proof. unfold foreign_conflict. f_equal; by apply bool_decide_ext. Qed.
Lemma dependency_conflict_sym x y : dependency_conflict x y = dependency_conflict y x.
Proof. unfold dependency_conflict. f_equal; by apply bool_decide_ext. Qed.

(** ** The final checks *)

Lemma manifest_finish_nil path st :
  manifest_finish path st = [] ↔
  ms_errors st = [] ∧ Forall (λ check : bool * (bytes * bytes), check.1 = false) (manifest_checks st).
Proof.
  unfold manifest_finish. generalize (ms_errors st).
  induction (manifest_checks st) as [|[b e] cs IH]; intros es; simpl; [naive_solver|].
  rewrite IH, Forall_cons. simpl. destruct b; [|tauto].
  split; [intros [? _]; by destruct es|naive_solver].
Qed.

Lemma native_sources_owned_false m :
  Forall (λ check : bool * (bytes * bytes), check.1 = false) (native_sources_owned m) ↔
  ∀ s, s ∈ m_nativeSources m → ∃ f, f ∈ m_foreign m ∧ owns s f = true.
Proof.
  unfold native_sources_owned. rewrite Forall_forall. split.
  - intros H s Hs. specialize (H _ (list_elem_of_fmap_2 _ _ _ Hs)). simpl in H.
    apply negb_false_iff, existsb_Exists, Exists_exists in H. done.
  - intros H c (s & -> & Hs)%list_elem_of_fmap. apply H in Hs. simpl.
    by apply negb_false_iff, existsb_Exists, Exists_exists.
Qed.

(** ** The invariant of the line loop *)

Record manifest_partial (st : ManifestState) : Prop := {
  mp_name : seen (lit "name") st = true → identifier (m_name (ms_manifest st)) = true;
  mp_version : seen (lit "version") st = true → version_wf (m_version (ms_manifest st));
  mp_language : m_language (ms_manifest st) = 1%N;
  mp_requirement : requirement_wf (m_sdk (ms_manifest st));
  mp_explicit : m_languageExplicit (ms_manifest st) = seen (lit "language") st;
  mp_sdk : seen (lit "language") st = true → seen (lit "sdk") st = false →
    m_sdk (ms_manifest st) = anyRequirement;
  mp_source : seen (lit "source") st = true → relativeSource (m_source (ms_manifest st)) = true;
  mp_rules : ∀ code, code ∈ ms_rules st ↔ code ∈ rule_code <$> m_codeStandardRules (ms_manifest st);
  mp_lists : manifest_lists (ms_manifest st);
  mp_options : manifest_options (ms_manifest st);
}.

Definition manifest_invariant (st : ManifestState) : Prop := ms_errors st = [] → manifest_partial st.

Lemma manifest_fail_invariant st errors e : ms_errors st = errors ++ [e] → manifest_invariant st.
Proof. intros H E. rewrite H in E. by destruct errors. Qed.

Lemma seen_mark d d' st : seen d (mark d' st) = bool_decide (d = d') || seen d st.
Proof.
  unfold seen, mark. cbn. destruct (decide (d = d')) as [->|]; simpl.
  - rewrite !bool_decide_true by set_solver. done.
  - rewrite (bool_decide_false (d = d')) by done. apply bool_decide_ext. set_solver.
Qed.

(** [seen] of a literal after a [mark] of a literal, by computation. *)
Ltac solve_seen :=
  rewrite ?seen_mark in *;
  repeat match goal with
  | H : context [bool_decide (lit ?a = lit ?b)] |- _ =>
      let v := eval vm_compute in (bool_decide (lit a = lit b)) in change (bool_decide (lit a = lit b)) with v in H
  | |- context [bool_decide (lit ?a = lit ?b)] =>
      let v := eval vm_compute in (bool_decide (lit a = lit b)) in change (bool_decide (lit a = lit b)) with v
  end; cbn [orb] in *.

Section invariant.
Context (path : bytes).

Ltac refuse := eapply manifest_fail_invariant; reflexivity.

Lemma once_invariant d n code message parsed st :
  (∀ f, parsed = Some f → manifest_partial st → manifest_partial (mark d (assign f st))) →
  manifest_invariant st → manifest_invariant (once path d n code message parsed st).
Proof.
  intros Hf Hst. unfold once. destruct parsed as [f|]; [|refuse]. destruct (seen d st); [refuse|].
  intros E. apply Hf; [done|]. by apply Hst.
Qed.

(** A handler that assigns one field: the other fields are unchanged. *)
Ltac keep := split; solve_seen; cbn [ms_manifest assign mark] in *; try done; auto;
  try match goal with
  | H : manifest_lists _ |- manifest_lists _ => destruct H; by split
  | H : manifest_options _ |- manifest_options _ => destruct H; by split
  end.

Lemma format_invariant ts n st : manifest_invariant st → manifest_invariant (manifest_format path ts n st).
Proof.
  apply once_invariant. intros f Hf []. destruct ts as [|? [|v []]]; try done.
  case_bool_decide; [|done]. injection Hf as <-. keep.
Qed.

(** The shape of an accepted [once] directive. *)
Ltac accept f := intros f Hf []; match goal with ts : list bytes |- _ => destruct ts as [|? [|v []]] end; try done.

Lemma name_invariant ts n st : manifest_invariant st → manifest_invariant (manifest_name path ts n st).
Proof.
  apply once_invariant. accept f. destruct (identifier v) eqn:E; [|done]. injection Hf as <-. keep.
Qed.

Lemma version_invariant ts n st : manifest_invariant st → manifest_invariant (manifest_version path ts n st).
Proof.
  apply once_invariant. accept f. apply fmap_Some in Hf as (w & Hw & ->).
  apply version_string_parse in Hw as [? _]. keep.
Qed.

Lemma language_invariant ts n st : manifest_invariant st → manifest_invariant (manifest_language path ts n st).
Proof.
  apply once_invariant. accept f. destruct (number v); [|done].
  case_bool_decide; [|done]. injection Hf as <-. keep.
Qed.

Lemma sdk_invariant ts n st : manifest_invariant st → manifest_invariant (manifest_sdk path ts n st).
Proof.
  apply once_invariant. accept f. apply fmap_Some in Hf as (r & Hr & ->).
  apply requirement_parsed in Hr as [? _]. keep.
Qed.

Lemma fcs_invariant ts n st : manifest_invariant st → manifest_invariant (manifest_fcs path ts n st).
Proof.
  apply once_invariant. accept f. apply fmap_Some in Hf as (r & Hr & ->). keep.
Qed.

Lemma source_invariant ts n st : manifest_invariant st → manifest_invariant (manifest_source path ts n st).
Proof.
  apply once_invariant. accept f. destruct (relativeSource v) eqn:E; [|done]. injection Hf as <-. keep.
Qed.

Lemma test_source_invariant ts n st :
  manifest_invariant st → manifest_invariant (manifest_test_source path ts n st).
Proof.
  apply once_invariant. accept f. destruct (relativeSource v) eqn:E; [|done]. injection Hf as <-. keep.
Qed.

Lemma native_library_invariant ts n st :
  manifest_invariant st → manifest_invariant (manifest_native_library path ts n st).
Proof. apply once_invariant. accept f. case_bool_decide; [|done]. injection Hf as <-. keep. Qed.

Lemma native_name_invariant ts n st :
  manifest_invariant st → manifest_invariant (manifest_native_name path ts n st).
Proof.
  apply once_invariant. accept f. destruct (identifier v) eqn:E; [|done]. injection Hf as <-. keep.
Qed.

Lemma soversion_invariant ts n st :
  manifest_invariant st → manifest_invariant (manifest_native_soversion path ts n st).
Proof.
  apply once_invariant. accept f. destruct (number v) as [so|]; [|done].
  destruct (N.ltb_spec uint32_max so); [done|]. injection Hf as <-. keep.
Qed.

(** Appending to a list, behind the duplicate search. *)
Lemma append_separate {A} (wf : A → Prop) (conflict : A → A → bool) xs x :
  Forall wf xs ∧ separate conflict xs → wf x → existsb (λ y, conflict y x) xs = false →
  Forall wf (xs ++ [x]) ∧ separate conflict (xs ++ [x]).
Proof.
  intros [Hwf Hs] Hx He. split; [|by apply separate_search].
  apply Forall_app. split; [done|]. by apply Forall_singleton.
Qed.

Lemma fcs_rule_invariant ts n st : manifest_invariant st → manifest_invariant (manifest_fcs_rule path ts n st).
Proof.
  intros Hst. unfold manifest_fcs_rule. destruct ts as [|? [|code [|sev []]]]; try refuse.
  destruct (parseCodeStandardSeverity sev) as [severity|]; [|refuse].
  destruct (_ || _) eqn:E; [refuse|]. to_prop. destruct E as [Hc Hn]. cbn [ms_manifest].
  case_bool_decide as Hl; [refuse|]. intros Hst'. destruct (Hst Hst') as [? ? ? ? ? ? ? Hr [Hrules ? ? ? ?] ?].
  keep.
  - intros c. cbn [m_codeStandardRules set_codeStandardRules ms_rules assign].
    rewrite fmap_app, elem_of_app, elem_of_union, Hr. set_solver.
  - destruct Hrules as (Hwf & Hnd & Hlen). split; try done. cbn [m_codeStandardRules set_codeStandardRules].
    split; [|split].
    + apply Forall_app. split; [done|]. by apply Forall_singleton.
    + rewrite fmap_app. apply NoDup_app. split; [done|]. split; [|apply NoDup_singleton].
      intros c Hin Hc'%list_elem_of_singleton. cbn in Hc'. subst. by apply Hn, Hr.
    + rewrite length_app. simpl. lia.
Qed.

Lemma native_source_invariant ts n st :
  manifest_invariant st → manifest_invariant (manifest_native_source path ts n st).
Proof.
  intros Hst. unfold manifest_native_source. destruct ts as [|? [|v rest]]; try refuse.
  destruct (target_suffix rest) as [target|]; [|refuse]. destruct (_ || _) eqn:E; [refuse|].
  to_prop. destruct E as [[Hv Hx] Hd]. intros Hst'. destruct (Hst Hst') as [? ? ? ? ? ? ? ? [] ?].
  keep. split; try done. apply append_separate; [done| |done].
  split; [apply lexically_normal_closed|]. split; [by apply relativeSource_normal|done].
Qed.

Lemma native_link_invariant ts n st :
  manifest_invariant st → manifest_invariant (manifest_native_link path ts n st).
Proof.
  intros Hst. unfold manifest_native_link. destruct ts as [|? [|v rest]]; try refuse.
  destruct (target_suffix rest) as [target|]; [|refuse]. destruct (_ || _) eqn:E; [refuse|].
  to_prop. destruct E as [Hv Hd]. intros Hst'. destruct (Hst Hst') as [? ? ? ? ? ? ? ? [] ?].
  keep. split; try done. by apply append_separate.
Qed.

Lemma foreign_invariant ts n st : manifest_invariant st → manifest_invariant (manifest_foreign path ts n st).
Proof.
  intros Hst. unfold manifest_foreign.
  destruct ts as [|? [|eco [|id [|ver [|kind [|res [|abi [|con []]]]]]]]]; try refuse.
  destruct (_ || _) eqn:E; [refuse|].
  apply orb_false_iff in E as [E Hd]. to_prop. intros Hst'. destruct (Hst Hst') as [? ? ? ? ? ? ? ? [] ?].
  keep. split; try done. apply append_separate; [done| |done]. unfold foreign_entry_wf; cbn.
  destruct (relativeSource res); naive_solver.
Qed.

Lemma dependency_invariant ts n st :
  manifest_invariant st → manifest_invariant (manifest_dependency path ts n st).
Proof.
  intros Hst. unfold manifest_dependency.
  destruct ts as [|? [|name [|rt [|kt [|loc rest]]]]]; try refuse.
  destruct (negb _); [refuse|]. destruct (parsePackageRequirement rt) as [r|] eqn:Er; [|refuse].
  destruct (locationKind kt) as [kind|]; [|refuse]. destruct (_ || _) eqn:E; [refuse|]. to_prop.
  case_bool_decide as Hl; [refuse|]. destruct (existsb _ _) eqn:Hd; [refuse|].
  apply requirement_parsed in Er as [? _]. intros Hst'. destruct (Hst Hst') as [? ? ? ? ? ? ? ? [? ? ? ? (Hf & Hs & Hlen)] ?].
  destruct (append_separate dependency_wf dependency_conflict (m_dependencies (ms_manifest st))
    (mkDependency name r kind loc (dependencyTarget (qualifiers rest no_qualifiers))
      (dependencyScope (qualifiers rest no_qualifiers)))) as [? ?]; [done| |done|].
  { unfold dependency_wf; cbn. naive_solver. }
  keep. split; try done. split; [done|]. split; [done|]. cbn. rewrite length_app. simpl. lia.
Qed.

Lemma directive_invariant ts n st : manifest_invariant st → manifest_invariant (manifest_directive path ts n st).
Proof.
  intros Hst. unfold manifest_directive.
  repeat (case_bool_decide;
    [first [by apply format_invariant | by apply name_invariant | by apply version_invariant
           | by apply language_invariant | by apply sdk_invariant | by apply fcs_invariant
           | by apply fcs_rule_invariant | by apply source_invariant | by apply test_source_invariant
           | by apply native_library_invariant | by apply native_name_invariant
           | by apply soversion_invariant | by apply native_source_invariant
           | by apply native_link_invariant | by apply foreign_invariant
           | by apply dependency_invariant]|]).
  refuse.
Qed.
End invariant.

(** ** Canonical order *)

Definition with_lists (rules : list CodeStandardRuleSetting) (sources : list NativeSource)
    (links : list NativeLink) (foreign : list Foreign) (dependencies : list PackageDependency)
    (m : PackageManifest) : PackageManifest :=
  set_codeStandardRules rules (set_nativeSources sources (set_nativeLinks links
    (set_foreign foreign (set_dependencies dependencies m)))).

(** The order of the renderer; [parse_sorted] leaves rules and foreign entries in
    file order. *)
Definition manifest_sorted (m : PackageManifest) : PackageManifest :=
  with_lists (sort_by rule_code (m_codeStandardRules m)) (sort_by source_order (m_nativeSources m))
    (sort_by link_order (m_nativeLinks m)) (sort_by foreign_order (m_foreign m))
    (sort_by dependency_order (m_dependencies m)) m.

Lemma parse_sorted_lists m :
  parse_sorted m = with_lists (m_codeStandardRules m) (sort_by source_order (m_nativeSources m))
    (sort_by link_order (m_nativeLinks m)) (m_foreign m) (sort_by dependency_order (m_dependencies m)) m.
Proof. by destruct m. Qed.

Lemma parse_manifest_sorted m : parse_sorted (manifest_sorted m) = manifest_sorted m.
Proof. rewrite parse_sorted_lists. unfold manifest_sorted, with_lists. cbn. by rewrite !sort_by_idem. Qed.

Lemma perm_nonempty {A} (xs ys : list A) : xs ≡ₚ ys → ys ≠ [] → xs ≠ [].
Proof. intros H ? ->. by apply Permutation_nil in H as ->. Qed.

Lemma with_lists_wf m rules sources links foreign dependencies :
  rules ≡ₚ m_codeStandardRules m → sources ≡ₚ m_nativeSources m → links ≡ₚ m_nativeLinks m →
  foreign ≡ₚ m_foreign m → dependencies ≡ₚ m_dependencies m →
  manifest_wf m → manifest_wf (with_lists rules sources links foreign dependencies m).
Proof.
  intros Hr Hs Hl Hf Hd []. split; try done; cbn.
  - destruct mw_lists0. split; cbn.
    + destruct ml_rules0 as (? & ? & ?). split; [|split]; rewrite Hr; assumption.
    + split; [rewrite Hs; tauto|]. eapply separate_perm; [apply source_conflict_sym|symmetry; exact Hs|tauto].
    + split; [rewrite Hl; tauto|]. eapply separate_perm; [apply link_conflict_sym|symmetry; exact Hl|tauto].
    + split; [rewrite Hf; tauto|]. eapply separate_perm; [apply foreign_conflict_sym|symmetry; exact Hf|tauto].
    + split; [rewrite Hd; tauto|]. split; [|rewrite Hd; tauto].
      eapply separate_perm; [apply dependency_conflict_sym|symmetry; exact Hd|tauto].
  - destruct mw_options0. by split.
  - setoid_rewrite Hd. done.
  - intros H. destruct mw_provenance0 as [?|?]; [|by left|].
    + destruct H as [H|H]; [left|right]; by eapply perm_nonempty.
    + right. by eapply perm_nonempty.
  - setoid_rewrite Hs. setoid_rewrite Hf. done.
Qed.

Lemma parse_sorted_wf m : manifest_wf m → manifest_wf (parse_sorted m).
Proof. rewrite parse_sorted_lists. apply with_lists_wf; by rewrite ?sort_by_perm. Qed.
Lemma manifest_sorted_wf m : manifest_wf m → manifest_wf (manifest_sorted m).
Proof. apply with_lists_wf; by rewrite ?sort_by_perm. Qed.

(** ** What the parser accepts *)

Lemma finished_wf st :
  manifest_partial st → Forall (λ check : bool * (bytes * bytes), check.1 = false) (manifest_checks st) →
  manifest_wf (ms_manifest st).
Proof.
  intros [? ? ? ? Hex Hsdk ? ? ? ?]. unfold manifest_checks.
  rewrite Forall_app, native_sources_owned_false, !Forall_cons. cbn [fst].
  intros [(H1 & H2 & H3 & H4 & H5 & H6 & H7 & H8 & H9 & H10 & H11 & _) Howned].
  rewrite negb_false_iff in H1, H2, H3, H6. split; auto.
  - rewrite Hex. destruct (seen (lit "language") st), (seen (lit "sdk") st); try done. by apply Hsdk.
  - destruct (m_testSource _); [done|exact I].
  - intros E d Hd. rewrite bool_decide_true in H8 by done. simpl in H8.
    apply not_true_iff_false in H8. rewrite existsb_Exists, Exists_exists in H8.
    destruct (dep_scope d) eqn:Es; [done|]. exfalso. apply H8. exists d. split; [done|].
    unfold isTest. by rewrite Es.
  - destruct (m_nativeLibrary _), (m_nativeName _); try done; split; intros; done.
  - destruct (m_nativeLibrary _), (m_nativeSOVersion _); try done. simpl in H9.
    by rewrite orb_true_r in H9.
  - clear -H11. intros H. destruct (m_nativeLibrary _); [by left|]. right. intros E. rewrite E in H11.
    destruct (m_nativeLinks _), (m_foreign _); try done. by destruct H.
Qed.

Lemma manifest_start_partial : manifest_partial manifest_start.
Proof.
  split; try done.
  - cbn. set_solver.
  - split; cbn; repeat split; auto using Forall_nil_2, NoDup_nil_2; lia.
Qed.

Lemma parse_manifest_accepted path source m :
  result_value (parsePackageManifest path source) = Some m →
  result_errors (parsePackageManifest path source) = [] ∧ manifest_wf m ∧ parse_sorted m = m.
Proof.
  unfold parsePackageManifest. set (st := lines _ _ _ _ _).
  destruct (manifest_finish path st) eqn:E; [|done]. cbn. intros [= <-].
  apply manifest_finish_nil in E as [E Hc].
  assert (manifest_invariant st) as Hst.
  { apply lines_ind.
    - intros. by eapply manifest_fail_invariant.
    - intros. by apply directive_invariant.
    - intros _. apply manifest_start_partial. }
  split; [done|]. split.
  - apply parse_sorted_wf, finished_wf; [by apply Hst|done].
  - rewrite !parse_sorted_lists. unfold with_lists. cbn. by rewrite !sort_by_idem.
Qed.

(** ** The rendered text is a list of directive lines *)

Definition target_tokens (target : option TargetSelector) : list bytes :=
  match target with Some t => [lit "target"; targetSelectorName t] | None => [] end.
Definition rule_tokens (r : CodeStandardRuleSetting) : list bytes :=
  [lit "fcs_rule"; rule_code r; codeStandardSeverityName (rule_severity r)].
Definition source_tokens (s : NativeSource) : list bytes :=
  [lit "native_source"; source_path s] ++ target_tokens (source_target s).
Definition link_tokens (l : NativeLink) : list bytes :=
  [lit "native_link"; link_library l] ++ target_tokens (link_target l).
Definition foreign_entry_tokens (f : Foreign) : list bytes :=
  [lit "foreign"; foreign_ecosystem f; foreign_identifier f; foreign_version f; foreign_kind f;
   foreign_resolver f; lit "abi"; lit "c/v1"].
Definition dependency_tokens (d : PackageDependency) : list bytes :=
  [lit "dependency"; dep_name d; requirement_string (dep_requirement d); locationName (dep_kind d);
   dep_location d] ++ target_tokens (dep_target d) ++
  (if isTest d then [lit "scope"; lit "test"] else []).

(** A directive with one value that is assigned once. *)
Record Update := mkUpdate {
  u_directive : bytes;
  u_value : bytes;
  u_assign : PackageManifest → PackageManifest;
}.
Definition update_tokens (u : Update) : list bytes := [u_directive u; u_value u].

Definition header_updates (m : PackageManifest) : list Update :=
  [mkUpdate (lit "format") (lit "foundation.package/v1") id;
   mkUpdate (lit "name") (m_name m) (set_name (m_name m));
   mkUpdate (lit "version") (version_string (m_version m)) (set_version (m_version m));
   if m_languageExplicit m
   then mkUpdate (lit "language") (to_string (m_language m)) (set_language 1 true anyRequirement)
   else mkUpdate (lit "sdk") (requirement_string (m_sdk m)) (set_sdk (m_sdk m))] ++
  (if m_codeStandardExplicit m
   then [mkUpdate (lit "fcs") (codeStandardProfileName (m_codeStandard m)) (set_codeStandard (m_codeStandard m) true)]
   else []).

Definition body_updates (m : PackageManifest) : list Update :=
  [mkUpdate (lit "source") (m_source m) (set_source (m_source m))] ++
  from_option (λ t, [mkUpdate (lit "test_source") t (set_testSource (Some t))]) [] (m_testSource m) ++
  (if m_nativeLibrary m then [mkUpdate (lit "native_library") (lit "c") (set_nativeLibrary true)] else []) ++
  from_option (λ n, [mkUpdate (lit "native_name") n (set_nativeName (Some n))]) [] (m_nativeName m) ++
  from_option (λ n, [mkUpdate (lit "native_soversion") (to_string n) (set_nativeSOVersion (Some n))]) []
    (m_nativeSOVersion m).

Definition manifest_directives (m : PackageManifest) : list (list bytes) :=
  map update_tokens (header_updates m) ++ map rule_tokens (m_codeStandardRules m) ++
  map update_tokens (body_updates m) ++ map source_tokens (m_nativeSources m) ++
  map link_tokens (m_nativeLinks m) ++ map foreign_entry_tokens (m_foreign m) ++
  map dependency_tokens (m_dependencies m).

(** A line of the renderer is its tokens, quoted and joined. *)
Ltac solve_line :=
  unfold line, render_line, render_target; cbn [map join_with app concat]; plain_tokens;
  repeat first [rewrite <- app_assoc | rewrite <- app_comm_cons | rewrite app_nil_r]; reflexivity.

Lemma render_rule_line r : rule_wf r → render_rule r = render_line (rule_tokens r) ++ [newline].
Proof. intros ?. unfold render_rule, rule_tokens. solve_line. Qed.
Lemma render_source_line s : render_source s = render_line (source_tokens s) ++ [newline].
Proof. unfold render_source, source_tokens. destruct (source_target s); cbn [target_tokens]; solve_line. Qed.
Lemma render_link_line l : render_link l = render_line (link_tokens l) ++ [newline].
Proof. unfold render_link, link_tokens. destruct (link_target l); cbn [target_tokens]; solve_line. Qed.
Lemma render_foreign_entry_line f :
  foreign_entry_wf f → render_foreign_entry f = render_line (foreign_entry_tokens f) ++ [newline].
Proof.
  intros (_ & _ & _ & Hk & _). unfold render_foreign_entry, foreign_entry_tokens, line, render_line.
  assert (quote (foreign_kind f) = foreign_kind f) as E.
  { revert Hk. by intros [->|[->|[->|?%elem_of_nil]%elem_of_cons]%elem_of_cons]%elem_of_cons. }
  cbn [map join_with concat]. rewrite E. by rewrite <- !app_assoc.
Qed.
Lemma render_dependency_line d :
  dependency_wf d → render_dependency d = render_line (dependency_tokens d) ++ [newline].
Proof.
  intros (? & ? & _). unfold render_dependency, dependency_tokens, isTest.
  destruct (dep_target d), (dep_scope d); cbn [target_tokens]; rewrite ?bool_decide_true, ?bool_decide_false by done;
    solve_line.
Qed.

Lemma render_header_lines m :
  manifest_wf m → render_header m = render_lines (map update_tokens (header_updates m)).
Proof.
  intros []. unfold render_header, header_updates, render_lines, update_tokens.
  destruct (m_languageExplicit m), (m_codeStandardExplicit m);
    cbn [map app concat u_directive u_value]; solve_line.
Qed.

Lemma render_body_lines m :
  render_sources m ++ render_native_library m = render_lines (map update_tokens (body_updates m)).
Proof.
  unfold render_sources, render_native_library, body_updates.
  rewrite !map_app, !render_lines_app, <- !app_assoc.
  f_equal; [|f_equal; [|f_equal; [|f_equal]]]; unfold render_lines, update_tokens.
  - cbn [map concat u_directive u_value]. solve_line.
  - destruct (m_testSource m); cbn [from_option map concat u_directive u_value]; [solve_line|done].
  - by destruct (m_nativeLibrary m).
  - destruct (m_nativeName m); cbn [from_option map concat u_directive u_value]; [solve_line|done].
  - destruct (m_nativeSOVersion m); cbn [from_option map concat u_directive u_value]; [solve_line|done].
Qed.

Lemma renderPackageManifest_lines m :
  manifest_wf m → renderPackageManifest m = render_lines (manifest_directives (manifest_sorted m)).
Proof.
  intros Hwf. apply manifest_sorted_wf in Hwf as Hs. destruct (mw_lists _ Hs) as [[Hr _] _ _ [Hf _] [Hd _]].
  rewrite Forall_forall in Hr. rewrite Forall_forall in Hf. rewrite Forall_forall in Hd.
  unfold renderPackageManifest, manifest_directives. rewrite !render_lines_app.
  rewrite <- render_body_lines, <- (render_header_lines (manifest_sorted m)) by done.
  rewrite <- (render_lines_map rule_tokens render_rule) by (intros; by apply render_rule_line, Hr).
  rewrite <- (render_lines_map source_tokens render_source) by (intros; apply render_source_line).
  rewrite <- (render_lines_map link_tokens render_link) by (intros; apply render_link_line).
  rewrite <- (render_lines_map foreign_entry_tokens render_foreign_entry)
    by (intros; by apply render_foreign_entry_line, Hf).
  rewrite <- (render_lines_map dependency_tokens render_dependency)
    by (intros; by apply render_dependency_line, Hd).
  by rewrite <- !app_assoc.
Qed.

Lemma manifest_directives_nonempty m : Forall (λ d, d ≠ []) (manifest_directives m).
Proof.
  unfold manifest_directives. rewrite !Forall_app, !Forall_forall.
  repeat split; intros d (? & -> & _)%list_elem_of_fmap; done.
Qed.

(** ** Reading the directives back *)

Definition perform (st : ManifestState) (u : Update) : ManifestState :=
  mark (u_directive u) (assign (u_assign u) st).

Lemma seen_performs d us st :
  seen d (foldl perform st us) = bool_decide (d ∈ u_directive <$> us) || seen d st.
Proof.
  revert st. induction us as [|u us IH]; intros st; [done|]. simpl. rewrite IH. unfold perform.
  rewrite seen_mark. change (seen d (assign (u_assign u) st)) with (seen d st).
  destruct (decide (d = u_directive u)) as [->|].
  - rewrite (bool_decide_true (u_directive u = _)), (bool_decide_true (_ ∈ _ :: _)) by set_solver.
    by rewrite orb_true_r.
  - rewrite (bool_decide_false (d = _)) by done. f_equal. apply bool_decide_ext. set_solver.
Qed.

Lemma performs_manifest us st :
  ms_manifest (foldl perform st us) = foldl (λ m u, u_assign u m) (ms_manifest st) us ∧
  ms_errors (foldl perform st us) = ms_errors st ∧ ms_rules (foldl perform st us) = ms_rules st.
Proof. revert st. induction us as [|u us IH]; intros st; [done|]. simpl. apply (IH (perform st u)). Qed.

Section read_back.
Context (path : bytes).
Notation read := (directives_from (manifest_directive path)).

(** The directive does what its update says, unless it was seen. *)
Definition reads (u : Update) : Prop := ∀ n st,
  seen (u_directive u) st = false → manifest_directive path (update_tokens u) n st = perform st u.

Lemma read_updates n us st :
  Forall reads us → NoDup (u_directive <$> us) → (∀ u, u ∈ us → seen (u_directive u) st = false) →
  read n (map update_tokens us) st = foldl perform st us.
Proof.
  intros Hu Hnd Hs. apply directives_foldl with (I := λ us st,
    Forall reads us ∧ NoDup (u_directive <$> us) ∧ ∀ u, u ∈ us → seen (u_directive u) st = false); [|done].
  clear. intros u us st n ([Hu Hus]%Forall_cons & Hnd & Hs). cbn in Hnd. apply NoDup_cons in Hnd as [Hn Hnd].
  rewrite Hu by set_solver. split; [done|]. split; [done|]. split; [done|].
  intros v Hv. unfold perform. rewrite seen_mark, bool_decide_false; [apply Hs; by right|].
  intros E. apply Hn. rewrite <- E. by apply list_elem_of_fmap_2.
Qed.

Lemma once_reads d code message f n st :
  seen d st = false → once path d n code message (Some f) st = mark d (assign f st).
Proof. intros E. unfold once. by rewrite E. Qed.

(** Each kind of update, by the handler its directive selects. *)
Ltac read_update handler :=
  intros n st Hs; cbn [u_directive u_value] in Hs;
  lazymatch goal with |- manifest_directive _ (update_tokens ?u) _ _ = _ =>
    change (handler path (update_tokens u) n st = perform st u) end;
  unfold handler, update_tokens; cbn [u_directive u_value].

Lemma reads_header m : manifest_wf m → Forall reads (header_updates m).
Proof.
  intros []. unfold header_updates. repeat constructor.
  - read_update manifest_format. by apply once_reads.
  - read_update manifest_name. rewrite mw_name0. by apply once_reads.
  - read_update manifest_version. rewrite version_reads by done. by apply once_reads.
  - destruct (m_languageExplicit m).
    + read_update manifest_language. rewrite mw_language0. by apply once_reads.
    + read_update manifest_sdk. rewrite requirement_reads by done. by apply once_reads.
  - destruct (m_codeStandardExplicit m); repeat constructor.
    read_update manifest_fcs. rewrite profile_reads. by apply once_reads.
Qed.

Lemma reads_body m : manifest_wf m → Forall reads (body_updates m).
Proof.
  intros [? ? ? ? Hsrc ? [? Htest Hname Hso] ? ? ? ? ? ?]. unfold body_updates. rewrite !Forall_app. repeat split.
  - repeat constructor. read_update manifest_source. rewrite Hsrc. by apply once_reads.
  - destruct (m_testSource m); repeat constructor. cbn in Htest.
    read_update manifest_test_source. rewrite Htest. by apply once_reads.
  - destruct (m_nativeLibrary m); repeat constructor. read_update manifest_native_library. by apply once_reads.
  - destruct (m_nativeName m); repeat constructor. cbn in Hname.
    read_update manifest_native_name. rewrite Hname. by apply once_reads.
  - destruct (m_nativeSOVersion m) as [so|]; repeat constructor. cbn in Hso.
    read_update manifest_native_soversion. rewrite number_to_string by (eapply N.le_lt_trans; [exact Hso|done]).
    rewrite (proj2 (N.ltb_ge _ _) Hso). by apply once_reads.
Qed.

(** Lists grow by one entry per line. *)
Definition add_rules (xs : list CodeStandardRuleSetting) (m : PackageManifest) :=
  set_codeStandardRules (m_codeStandardRules m ++ xs) m.
Definition add_sources (xs : list NativeSource) (m : PackageManifest) :=
  set_nativeSources (m_nativeSources m ++ xs) m.
Definition add_links (xs : list NativeLink) (m : PackageManifest) :=
  set_nativeLinks (m_nativeLinks m ++ xs) m.
Definition add_foreign (xs : list Foreign) (m : PackageManifest) :=
  set_foreign (m_foreign m ++ xs) m.
Definition add_dependencies (xs : list PackageDependency) (m : PackageManifest) :=
  set_dependencies (m_dependencies m ++ xs) m.

Lemma foldl_add {X} (add : list X → PackageManifest → PackageManifest) xs st :
  (∀ m, add [] m = m) → (∀ m x xs, add xs (add [x] m) = add (x :: xs) m) →
  foldl (λ st x, assign (add [x]) st) st xs = assign (add xs) st.
Proof.
  intros H0 H1. revert st. induction xs as [|x xs IH]; intros st; simpl.
  - destruct st. unfold assign. cbn. by rewrite H0.
  - rewrite IH. unfold assign. cbn. by rewrite H1.
Qed.
Ltac solve_add :=
  intros []; intros; cbv [add_rules add_sources add_links add_foreign add_dependencies
    set_codeStandardRules set_nativeSources set_nativeLinks set_foreign set_dependencies];
  cbn; by rewrite ?app_nil_r, <- ?app_assoc.

Lemma target_suffix_tokens t : target_suffix (target_tokens t) = Some t.
Proof. destruct t as [[]|]; done. Qed.

Lemma separate_head {X} (conflict : X → X → bool) xs x ys :
  separate conflict (xs ++ x :: ys) → existsb (λ y, conflict y x) xs = false.
Proof.
  rewrite separate_app. intros (Hxs & _ & H). apply (separate_search conflict xs x Hxs).
  apply separate_snoc. split; [done|]. eapply Forall_impl; [exact H|]. by intros ? [? _]%Forall_cons_1.
Qed.

Lemma read_sources n xs st :
  Forall source_wf xs → separate source_conflict (m_nativeSources (ms_manifest st) ++ xs) →
  read n (map source_tokens xs) st = assign (add_sources xs) st.
Proof.
  intros Hwf Hs. rewrite <- foldl_add by solve_add.
  apply directives_foldl with (I := λ xs st, Forall source_wf xs ∧
    separate source_conflict (m_nativeSources (ms_manifest st) ++ xs)); [|done].
  clear. intros x xs st n [[(Hn & Hr & He) Hxs]%Forall_cons Hs]. split.
  - change (manifest_directive path (source_tokens x) n st) with (manifest_native_source path (source_tokens x) n st).
    unfold manifest_native_source, source_tokens. cbn [app]. rewrite target_suffix_tokens, Hn, Hr. cbn [source_path].
    rewrite He, bool_decide_true by done. cbn [andb negb orb]. destruct x as [p t].
    cbn [source_path source_target].
    by rewrite (separate_head _ _ _ _ Hs).
  - split; [done|]. cbn. by rewrite <- app_assoc.
Qed.

Lemma read_links n xs st :
  Forall link_wf xs → separate link_conflict (m_nativeLinks (ms_manifest st) ++ xs) →
  read n (map link_tokens xs) st = assign (add_links xs) st.
Proof.
  intros Hwf Hs. rewrite <- foldl_add by solve_add.
  apply directives_foldl with (I := λ xs st, Forall link_wf xs ∧
    separate link_conflict (m_nativeLinks (ms_manifest st) ++ xs)); [|done].
  clear. intros x xs st n [[Hx Hxs]%Forall_cons Hs]. split.
  - change (manifest_directive path (link_tokens x) n st) with (manifest_native_link path (link_tokens x) n st).
    unfold manifest_native_link, link_tokens, link_wf in *. cbn [app].
    rewrite target_suffix_tokens, Hx. cbn [negb orb]. destruct x as [p t].
    cbn [link_library link_target].
    by rewrite (separate_head _ _ _ _ Hs).
  - split; [done|]. cbn. by rewrite <- app_assoc.
Qed.

Lemma read_foreign_entries n xs st :
  Forall foreign_entry_wf xs → separate foreign_conflict (m_foreign (ms_manifest st) ++ xs) →
  read n (map foreign_entry_tokens xs) st = assign (add_foreign xs) st.
Proof.
  intros Hwf Hs. rewrite <- foldl_add by solve_add.
  apply directives_foldl with (I := λ xs st, Forall foreign_entry_wf xs ∧
    separate foreign_conflict (m_foreign (ms_manifest st) ++ xs)); [|done].
  clear. intros x xs st n [[(H1 & H2 & H3 & H4 & H5 & H6) Hxs]%Forall_cons Hs]. split.
  - change (manifest_directive path (foreign_entry_tokens x) n st)
      with (manifest_foreign path (foreign_entry_tokens x) n st).
    unfold manifest_foreign, foreign_entry_tokens. destruct x as [eco id ver kind res]. cbn in H1, H2, H3, H4, H5, H6.
    cbn [foreign_ecosystem foreign_identifier foreign_version foreign_kind foreign_resolver].
    rewrite (separate_head _ _ _ _ Hs), !(bool_decide_true (_ ∈ _)), !(bool_decide_false (_ = [])) by done.
    assert (bool_decide (kind = lit "path") && negb (relativeSource res) = false) as ->; [|done].
    case_bool_decide as Hk; [by rewrite H6|done].
  - split; [done|]. cbn. by rewrite <- app_assoc.
Qed.

Lemma qualifiers_tokens d :
  qualifiers (target_tokens (dep_target d) ++ (if isTest d then [lit "scope"; lit "test"] else [])) no_qualifiers =
  mkQualifiers (dep_target d) (dep_scope d) true (isTest d).
Proof.
  unfold isTest. destruct d as [? ? ? ? t []]; cbn [dep_target dep_scope];
    rewrite ?bool_decide_true, ?bool_decide_false by done; destruct t as [[]|]; done.
Qed.

Lemma read_dependencies n xs st :
  Forall dependency_wf xs → separate dependency_conflict (m_dependencies (ms_manifest st) ++ xs) →
  length (m_dependencies (ms_manifest st) ++ xs) ≤ maxPackageEntries →
  read n (map dependency_tokens xs) st = assign (add_dependencies xs) st.
Proof.
  intros Hwf Hs Hl. rewrite <- foldl_add by solve_add.
  apply directives_foldl with (I := λ xs st, Forall dependency_wf xs ∧
    separate dependency_conflict (m_dependencies (ms_manifest st) ++ xs) ∧
    length (m_dependencies (ms_manifest st) ++ xs) ≤ maxPackageEntries); [|done].
  clear. intros x xs st n ([(H1 & H2 & H3) Hxs]%Forall_cons & Hs & Hl). split.
  - change (manifest_directive path (dependency_tokens x) n st)
      with (manifest_dependency path (dependency_tokens x) n st).
    unfold manifest_dependency, dependency_tokens. cbn [app].
    rewrite qualifiers_tokens, requirement_reads, location_reads, H1, H3 by done.
    rewrite (bool_decide_true (length _ ∈ _)).
    2: { destruct (dep_target x), (isTest x); cbn; set_solver. }
    rewrite bool_decide_false by (rewrite length_app in Hl; cbn in Hl; lia).
    cbn [negb orb validQualifiers dependencyTarget dependencyScope].
    destruct x as [name r kind loc t scope]. cbn [dep_name dep_kind dep_location dep_requirement dep_target dep_scope].
    by rewrite (separate_head _ _ _ _ Hs).
  - cbn. rewrite <- app_assoc. done.
Qed.

Definition add_rule (st : ManifestState) (r : CodeStandardRuleSetting) : ManifestState :=
  mkManifestState (add_rules [r] (ms_manifest st)) (ms_errors st) (ms_seen st) ({[rule_code r]} ∪ ms_rules st).

Lemma read_rules n xs st :
  Forall rule_wf xs → NoDup (rule_code <$> xs) → (∀ r, r ∈ xs → rule_code r ∉ ms_rules st) →
  length (m_codeStandardRules (ms_manifest st) ++ xs) ≤ maxPackageEntries →
  read n (map rule_tokens xs) st = foldl add_rule st xs.
Proof.
  intros Hwf Hnd Hs Hl.
  apply directives_foldl with (I := λ xs st, Forall rule_wf xs ∧ NoDup (rule_code <$> xs) ∧
    (∀ r, r ∈ xs → rule_code r ∉ ms_rules st) ∧
    length (m_codeStandardRules (ms_manifest st) ++ xs) ≤ maxPackageEntries); [|done].
  clear. intros x xs st n ([Hx Hxs]%Forall_cons & Hnd & Hs & Hl). cbn in Hnd. apply NoDup_cons in Hnd as [Hn Hnd].
  split.
  - change (manifest_directive path (rule_tokens x) n st) with (manifest_fcs_rule path (rule_tokens x) n st).
    unfold manifest_fcs_rule, rule_tokens, rule_wf in *. rewrite severity_reads, Hx.
    rewrite (bool_decide_false (_ ∈ ms_rules _)) by (apply Hs; by left). cbn [negb orb ms_manifest].
    rewrite bool_decide_false by (rewrite length_app in Hl; cbn in Hl; lia). by destruct x.
  - split; [done|]. split; [done|]. cbn. rewrite <- app_assoc. split; [|done].
    intros r Hr [Hc%elem_of_singleton|Hc]%elem_of_union; [|by apply (Hs r); [right|]].
    apply Hn. rewrite <- Hc. by apply list_elem_of_fmap_2.
Qed.

Lemma add_rules_foldl xs st :
  ms_manifest (foldl add_rule st xs) = add_rules xs (ms_manifest st) ∧
  ms_errors (foldl add_rule st xs) = ms_errors st ∧ ms_seen (foldl add_rule st xs) = ms_seen st.
Proof.
  revert st. induction xs as [|x xs IH]; intros st; simpl.
  - split; [|done]. destruct (ms_manifest st). unfold add_rules. cbn. by rewrite app_nil_r.
  - destruct (IH (add_rule st x)) as (-> & -> & ->). split; [|done].
    unfold add_rule, add_rules. cbn. by rewrite <- app_assoc.
Qed.
End read_back.

(** The updates and additions rebuild the manifest they were printed from. *)
Lemma rebuild m :
  manifest_wf m →
  add_dependencies (m_dependencies m) (add_foreign (m_foreign m) (add_links (m_nativeLinks m)
    (add_sources (m_nativeSources m)
      (foldl (λ m u, u_assign u m)
        (add_rules (m_codeStandardRules m)
          (foldl (λ m u, u_assign u m) emptyManifest (header_updates m)))
        (body_updates m))))) = m.
Proof.
  intros [_ _ Hl Hs _ _ [Hstd _ _ _] _ _ _ _ _ _].
  destruct m as [name version language explicit sdk standard stdexplicit rules source test deps native nname so
    sources links foreign]. cbn in Hl, Hs, Hstd. subst language.
  destruct explicit; [subst sdk|]; (destruct stdexplicit; [|rewrite (Hstd eq_refl)]);
    destruct test, native, nname, so; reflexivity.
Qed.

Lemma updates_NoDup m : NoDup (u_directive <$> header_updates m) ∧ NoDup (u_directive <$> body_updates m).
Proof.
  unfold header_updates, body_updates.
  split; apply (bool_decide_unpack _);
    [destruct (m_languageExplicit m), (m_codeStandardExplicit m)
    |destruct (m_testSource m), (m_nativeLibrary m), (m_nativeName m), (m_nativeSOVersion m)]; by vm_compute.
Qed.

Definition header_directives : list bytes :=
  [lit "format"; lit "name"; lit "version"; lit "language"; lit "sdk"; lit "fcs"].
Definition body_directives : list bytes :=
  [lit "source"; lit "test_source"; lit "native_library"; lit "native_name"; lit "native_soversion"].

Lemma header_directives_in m d : d ∈ u_directive <$> header_updates m → d ∈ header_directives.
Proof.
  unfold header_updates, header_directives. intros H.
  destruct (m_languageExplicit m), (m_codeStandardExplicit m); cbn in H; set_solver.
Qed.
Lemma body_directives_in m d : d ∈ u_directive <$> body_updates m → d ∈ body_directives.
Proof.
  unfold body_updates, body_directives. intros H.
  destruct (m_testSource m), (m_nativeLibrary m), (m_nativeName m), (m_nativeSOVersion m); cbn in H; set_solver.
Qed.
Lemma header_core m d : d ∈ [lit "format"; lit "name"; lit "version"] → d ∈ u_directive <$> header_updates m.
Proof.
  unfold header_updates. rewrite fmap_app, elem_of_app. cbn [fmap list_fmap u_directive].
  rewrite !elem_of_cons. tauto.
Qed.
Lemma directives_disjoint d : d ∈ header_directives → d ∉ body_directives.
Proof.
  assert (Forall (λ d, d ∉ body_directives) header_directives) as H by (apply (bool_decide_unpack _); by vm_compute).
  rewrite Forall_forall in H. apply H.
Qed.

Lemma updates_disjoint m u :
  u ∈ body_updates m → u_directive u ∉ u_directive <$> header_updates m.
Proof.
  intros Hu Hh%header_directives_in%directives_disjoint. apply Hh, (body_directives_in m).
  by apply list_elem_of_fmap_2.
Qed.

(** The side conditions of one list: it is still empty in the state. *)
Ltac entry Y := first [done | cbn [assign ms_manifest add_sources add_links add_foreign set_nativeSources
    set_nativeLinks set_foreign m_nativeSources m_nativeLinks m_foreign m_dependencies]; rewrite Y; assumption].

Lemma read_manifest path m :
  manifest_wf m →
  ∃ st, directives_from (manifest_directive path) 1 (manifest_directives m) manifest_start = st ∧
    ms_manifest st = m ∧ ms_errors st = [] ∧
    ∀ d, seen d st = bool_decide (d ∈ u_directive <$> header_updates m) ||
                     bool_decide (d ∈ u_directive <$> body_updates m).
Proof.
  intros Hwf. eexists. split; [reflexivity|]. unfold manifest_directives. rewrite !directives_from_app.
  destruct (updates_NoDup m) as [Hn1 Hn2]. destruct (mw_lists _ Hwf) as [(R1 & R2 & R3) [S1 S2] [L1 L2] [F1 F2] (D1 & D2 & D3)].
  rewrite (read_updates path 1 (header_updates m)) by (done || by apply reads_header).
  destruct (performs_manifest (header_updates m) manifest_start) as (Em & Ee & Er).
  pose proof (λ d, seen_performs d (header_updates m) manifest_start) as Hs1.
  set (st1 := foldl perform manifest_start (header_updates m)) in *.
  assert (m_codeStandardRules (ms_manifest st1) = [] ∧ m_nativeSources (ms_manifest st1) = [] ∧
    m_nativeLinks (ms_manifest st1) = [] ∧ m_foreign (ms_manifest st1) = [] ∧
    m_dependencies (ms_manifest st1) = []) as (Z1 & Z2 & Z3 & Z4 & Z5).
  { rewrite Em. unfold header_updates. by destruct (m_languageExplicit m), (m_codeStandardExplicit m). }
  rewrite read_rules; [|done|done|rewrite Er; cbn; set_solver|by rewrite Z1].
  destruct (add_rules_foldl (m_codeStandardRules m) st1) as (Em2 & Ee2 & Es2).
  set (st2 := foldl add_rule st1 _) in *.
  assert (∀ d, seen d st2 = seen d st1) as Hs2 by (intros; unfold seen; by rewrite Es2).
  rewrite (read_updates path _ (body_updates m) st2); [|by apply reads_body|done|].
  2: { intros u Hu%updates_disjoint. rewrite Hs2, Hs1. by rewrite bool_decide_false. }
  destruct (performs_manifest (body_updates m) st2) as (Em3 & Ee3 & _).
  pose proof (λ d, seen_performs d (body_updates m) st2) as Hs3.
  set (st3 := foldl perform st2 (body_updates m)) in *.
  assert (m_nativeSources (ms_manifest st3) = [] ∧ m_nativeLinks (ms_manifest st3) = [] ∧
    m_foreign (ms_manifest st3) = [] ∧ m_dependencies (ms_manifest st3) = []) as (Y2 & Y3 & Y4 & Y5).
  { rewrite Em3, Em2. unfold body_updates.
    destruct (m_testSource m), (m_nativeLibrary m), (m_nativeName m), (m_nativeSOVersion m); by cbn. }
  rewrite read_sources by entry Y2. rewrite read_links by entry Y3.
  rewrite read_foreign_entries by entry Y4. rewrite read_dependencies by entry Y5.
  cbn [assign ms_manifest ms_errors]. split; [|split].
  - rewrite Em3, Em2, Em. by apply rebuild.
  - rewrite Ee3, Ee2, Ee. done.
  - intros d. change (seen d (assign _ _)) with (seen d st3). rewrite Hs3, Hs2, Hs1.
    rewrite orb_comm. f_equal. cbn. by rewrite orb_false_r.
Qed.

Lemma checks_pass st :
  manifest_wf (ms_manifest st) →
  (∀ d, seen d st = bool_decide (d ∈ u_directive <$> header_updates (ms_manifest st)) ||
                    bool_decide (d ∈ u_directive <$> body_updates (ms_manifest st))) →
  Forall (λ check : bool * (bytes * bytes), check.1 = false) (manifest_checks st).
Proof.
  intros [_ _ _ _ _ _ _ Hdis Htests Hnat Hso Hprov Hown] Hseen. unfold manifest_checks.
  set (m := ms_manifest st) in *.
  assert (seen (lit "format") st = true ∧ seen (lit "name") st = true ∧ seen (lit "version") st = true ∧
    seen (lit "source") st = true) as (-> & -> & -> & ->).
  { rewrite !Hseen. rewrite !(bool_decide_true (_ ∈ u_directive <$> header_updates m))
      by (apply header_core; rewrite !elem_of_cons; auto).
    rewrite (bool_decide_true (lit "source" ∈ u_directive <$> body_updates m)) by (unfold body_updates; left).
    by rewrite orb_true_r. }
  assert (seen (lit "language") st = m_languageExplicit m ∧ seen (lit "sdk") st = negb (m_languageExplicit m))
    as [-> ->].
  { rewrite !Hseen. rewrite !(bool_decide_false (_ ∈ u_directive <$> body_updates m)).
    2,3: intros H%body_directives_in; revert H; apply directives_disjoint; cbn; set_solver.
    rewrite !orb_false_r. unfold header_updates.
    destruct (m_languageExplicit m), (m_codeStandardExplicit m); done. }
  rewrite Forall_app, native_sources_owned_false. split; [|done].
  repeat (apply Forall_cons; split); cbn [fst]; try done.
  - by destruct (m_languageExplicit m).
  - by destruct (m_languageExplicit m).
  - by destruct (m_testSource m).
  - case_bool_decide as E; [|done]. simpl. apply not_true_iff_false. rewrite existsb_Exists, Exists_exists.
    intros (d & Hd & Ht). apply (Htests E) in Hd. unfold isTest in Ht. by rewrite Hd in Ht.
  - clear -Hnat Hso. destruct (m_nativeLibrary m) eqn:El; [apply andb_false_r|].
    rewrite !bool_decide_false; [done| |]; intros H; [by apply Hso in H|by apply Hnat in H].
  - clear -Hnat. destruct (m_nativeLibrary m); [|done]. apply bool_decide_eq_false. by apply Hnat.
  - clear -Hprov. destruct (m_nativeLibrary m); [by rewrite andb_false_r|].
    destruct (m_nativeSources m); [|by rewrite (bool_decide_false (length (_ :: _) = 0)), andb_false_r].
    destruct (m_nativeLinks m), (m_foreign m); try done; exfalso;
      (destruct Hprov as [?|?]; [auto|done..]).
Qed.

(** ** Theorems *)

(** C34: manifest text round-trips: every well-formed manifest renders to a text
    that parses, without errors, to the same manifest with its lists in canonical
    order, through all sixteen directives, the duplicate searches and the final
    consistency checks. *)
Theorem manifest_text_roundtrip (path : bytes) (m : PackageManifest) :
  manifest_wf m →
  parsePackageManifest path (renderPackageManifest m) = mkResult (Some (manifest_sorted m)) [].
Proof.
  intros Hwf. unfold parsePackageManifest. rewrite renderPackageManifest_lines by done.
  rewrite lines_render by apply manifest_directives_nonempty.
  apply manifest_sorted_wf in Hwf. destruct (read_manifest path _ Hwf) as (st & -> & Em & Ee & Hs).
  rewrite (proj2 (manifest_finish_nil path st)).
  - by rewrite Em, parse_manifest_sorted.
  - split; [done|]. apply checks_pass; by rewrite Em.
Qed.

(** C35: a manifest the parser returns is well-formed: its names, versions, paths
    and requirements are valid, no list holds two conflicting entries, the test
    and source trees are disjoint, test dependencies have a test tree, native
    metadata and sources have their owner; the parser then reports no error and
    the manifest is in its canonical order. *)
Theorem manifest_accepted_wf (path source : bytes) (m : PackageManifest) :
  result_value (parsePackageManifest path source) = Some m →
  result_errors (parsePackageManifest path source) = [] ∧ manifest_wf m ∧ parse_sorted m = m.
Proof. apply parse_manifest_accepted. Qed.

(** ** Witnesses *)

Definition example_text : bytes :=
  lit "format foundation.package/v1" ++ [newline] ++ lit "name net.app" ++ [newline] ++
  lit "version 1.0.0-rc.1" ++ [newline] ++ lit "sdk ^1.2.0" ++ [newline] ++
  lit "fcs strict # profile" ++ [newline] ++ lit "fcs_rule FCS2001 off" ++ [newline] ++
  lit "source src" ++ [newline] ++ lit "test_source ./tests" ++ [newline] ++
  lit "native_source native/./a.c target linux" ++ [newline] ++
  lit "foreign c zlib 1.3 path native abi c/v1" ++ [newline] ++
  lit "dependency util * registry main scope test target hosted" ++ [newline] ++
  lit "dependency core 1.0.0 path ../core" ++ [newline].
Definition example_manifest : PackageManifest :=
  default emptyManifest (result_value (parsePackageManifest (lit "foundation.package") example_text)).


Lemma example_manifest_parsed :
  parsePackageManifest (lit "foundation.package") example_text = mkResult (Some example_manifest) [].
Proof. vm_compute. reflexivity. Qed.

Lemma example_manifest_wf : manifest_wf example_manifest.
Proof.
  apply (parse_manifest_accepted (lit "foundation.package") example_text). by rewrite example_manifest_parsed.
Qed.

Lemma manifest_text_roundtrip_witness :
  length (m_dependencies example_manifest) = 2 ∧
  parsePackageManifest (lit "p") (renderPackageManifest example_manifest) =
  mkResult (Some (manifest_sorted example_manifest)) [].
Proof.
  split; [vm_compute; reflexivity|].
  exact (manifest_text_roundtrip (lit "p") example_manifest example_manifest_wf).
Defined.

Lemma manifest_accepted_wf_witness :
  result_errors (parsePackageManifest (lit "foundation.package") example_text) = [] ∧
  manifest_wf example_manifest ∧ parse_sorted example_manifest = example_manifest.
Proof.
  apply (manifest_accepted_wf (lit "foundation.package") example_text example_manifest).
  rewrite example_manifest_parsed. reflexivity.
Defined.
