(* ===== verification/Sha256.v ===== *)
(** * SHA-256 (compiler/src/sha256.cpp)

    The streaming hash object with its block buffer, over 32-bit words as [N],
    and its refinement of the one-shot padded definition of FIPS 180-4. *)
From S2P Require Import Prelude Target Version PackageText FsPath Package.

Open Scope N_scope.

(** ** 32-bit words *)

Definition word_modulus : N := 4294967296.
Definition word (n : N) : N := n mod word_modulus.
Definition wadd (x y : N) : N := word (x + y).
(** [~x] on [std::uint32_t]. *)
Definition wnot (x : N) : N := N.lxor x (word_modulus - 1).
(** [std::rotr]. *)
Definition rotr (x k : N) : N := N.lor (N.shiftr x k) (word (N.shiftl x (32 - k))).

(** The round constants 0x428a2f98, 0x71374491, ..., 0xc67178f2 of the source, in decimal. *)
Definition constants : list N :=
  [1116352408; 1899447441; 3049323471; 3921009573; 961987163; 1508970993;
   2453635748; 2870763221; 3624381080; 310598401; 607225278; 1426881987;
   1925078388; 2162078206; 2614888103; 3248222580; 3835390401; 4022224774;
   264347078; 604807628; 770255983; 1249150122; 1555081692; 1996064986;
   2554220882; 2821834349; 2952996808; 3210313671; 3336571891; 3584528711;
   113926993; 338241895; 666307205; 773529912; 1294757372; 1396182291;
   1695183700; 1986661051; 2177026350; 2456956037; 2730485921; 2820302411;
   3259730800; 3345764771; 3516065817; 3600352804; 4094571909; 275423344;
   430227734; 506948616; 659060556; 883997877; 958139571; 1322822218;
   1537002063; 1747873779; 1955562222; 2024104815; 2227730452; 2361852424;
   2428436474; 2756734187; 3204031479; 3329325298].

Definition initial_state : list N :=
  [0x6a09e667; 0xbb67ae85; 0x3c6ef372; 0xa54ff53a; 0x510e527f; 0x9b05688c; 0x1f83d9ab; 0x5be0cd19].

(** Array reads; every index below is in range. *)
Definition byte_at (l : bytes) (i : nat) : N := byte_val (default nul (l !! i)).
Definition word_at (l : list N) (i : nat) : N := default 0 (l !! i).

(** [loadWord(block_.data() + offset)]. *)
Definition loadWord (block : bytes) (offset : nat) : N :=
  N.lor (N.shiftl (byte_at block offset) 24)
    (N.lor (N.shiftl (byte_at block (offset + 1)) 16)
      (N.lor (N.shiftl (byte_at block (offset + 2)) 8) (byte_at block (offset + 3)))).

Definition storeWord (w : N) : bytes :=
  map (λ shift, ascii_of_N (N.shiftr w shift mod 256)) [24; 16; 8; 0].

(** ** [transform] *)

Definition load_words (block : bytes) : list N :=
  map (λ index, loadWord block (index * 4)) (seq 0 16) ++ replicate 48 0.

Definition schedule_step (words : list N) (index : nat) : list N :=
  let first := N.lxor (N.lxor (rotr (word_at words (index - 15)) 7) (rotr (word_at words (index - 15)) 18))
                 (N.shiftr (word_at words (index - 15)) 3) in
  let second := N.lxor (N.lxor (rotr (word_at words (index - 2)) 17) (rotr (word_at words (index - 2)) 19))
                  (N.shiftr (word_at words (index - 2)) 10) in
  <[index := wadd (wadd (wadd (word_at words (index - 16)) first) (word_at words (index - 7))) second]> words.

Definition schedule (block : bytes) : list N := foldl schedule_step (load_words block) (seq 16 48).

Record Registers := mkRegisters { ra : N; rb : N; rc : N; rd : N; re : N; rf : N; rg : N; rh : N }.

Definition round (words : list N) (r : Registers) (index : nat) : Registers :=
  let sum1 := N.lxor (N.lxor (rotr (re r) 6) (rotr (re r) 11)) (rotr (re r) 25) in
  let choice := N.lxor (N.land (re r) (rf r)) (N.land (wnot (re r)) (rg r)) in
  let temporary1 := wadd (wadd (wadd (wadd (rh r) sum1) choice) (word_at constants index)) (word_at words index) in
  let sum0 := N.lxor (N.lxor (rotr (ra r) 2) (rotr (ra r) 13)) (rotr (ra r) 22) in
  let majority := N.lxor (N.lxor (N.land (ra r) (rb r)) (N.land (ra r) (rc r))) (N.land (rb r) (rc r)) in
  let temporary2 := wadd sum0 majority in
  mkRegisters (wadd temporary1 temporary2) (ra r) (rb r) (rc r) (wadd (rd r) temporary1) (re r) (rf r) (rg r).

Definition load_registers (state : list N) : Registers :=
  mkRegisters (word_at state 0) (word_at state 1) (word_at state 2) (word_at state 3)
              (word_at state 4) (word_at state 5) (word_at state 6) (word_at state 7).
Definition add_registers (state : list N) (r : Registers) : list N :=
  zip_with wadd state [ra r; rb r; rc r; rd r; re r; rf r; rg r; rh r].

(** [transform]: the new [state_] from the old one and [block_]. *)
Definition transform (state : list N) (block : bytes) : list N :=
  add_registers state (foldl (round (schedule block)) (load_registers state) (seq 0 64)).

(** ** The hash object *)

Record Sha256 := mkSha256 {
  state_ : list N;
  block_ : bytes;
  blockSize_ : nat;
  totalBytes_ : N;
  finished_ : bool;
}.

Inductive Sha256Error := FinishedUpdate | InputTooLarge | FinishedFinish.

Definition Sha256_new : Sha256 := mkSha256 initial_state (replicate 64 nul) 0 0 false.

(** [std::copy_n] and [std::fill] into the block at an offset. *)
Definition write_at (block : bytes) (offset : nat) (l : bytes) : bytes :=
  take offset block ++ l ++ drop (offset + length l) block.

(** One turn of the loop of [update]. *)
Definition absorb (h : Sha256) (count : nat) (bytes : list ascii) : Sha256 :=
  let block := write_at (block_ h) (blockSize_ h) (take count bytes) in
  let size := (blockSize_ h + count)%nat in
  if bool_decide (size = length block)
  then mkSha256 (transform (state_ h) block) block 0 (totalBytes_ h) (finished_ h)
  else mkSha256 (state_ h) block size (totalBytes_ h) (finished_ h).

(** Every turn copies at least one byte: [length bytes + 1] turns are enough. *)
Fixpoint update_loop (fuel : nat) (h : Sha256) (bytes : list ascii) : option Sha256 :=
  match fuel with
  | O => None
  | S fuel =>
      match bytes with
      | [] => Some h
      | _ :: _ =>
          let count := Nat.min (length (block_ h) - blockSize_ h) (length bytes) in
          update_loop fuel (absorb h count bytes) (drop count bytes)
      end
  end.

Definition maximumBytes : N := 18446744073709551615 / 8.

Definition update (h : Sha256) (bytes : list ascii) : Sha256Error + Sha256 :=
  if finished_ h then inl FinishedUpdate
  else if (maximumBytes <? totalBytes_ h) || (maximumBytes - totalBytes_ h <? N.of_nat (length bytes))
  then inl InputTooLarge
  else
    let h := mkSha256 (state_ h) (block_ h) (blockSize_ h) (totalBytes_ h + N.of_nat (length bytes)) (finished_ h) in
    inr (default h (update_loop (S (length bytes)) h bytes)).

(** The eight bytes of the bit count, most significant first. *)
Definition bit_count_bytes (totalBytes : N) : bytes :=
  let bitCount := (totalBytes * 8) mod size_modulus in
  map (λ index, ascii_of_N (N.shiftr bitCount (N.of_nat index * 8) mod 256)) [7; 6; 5; 4; 3; 2; 1; 0]%nat.

Definition finish (h : Sha256) : Sha256Error + (bytes * Sha256) :=
  if finished_ h then inl FinishedFinish
  else
    let block := write_at (block_ h) (blockSize_ h) ["128"%char] in
    let size := S (blockSize_ h) in
    let '(state, block, size) :=
      if bool_decide (56 < size)%nat then
        let block := write_at block size (replicate (64 - size) nul) in
        (transform (state_ h) block, block, O)
      else (state_ h, block, size) in
    let block := write_at block size (replicate (56 - size) nul) in
    let block := write_at block 56 (bit_count_bytes (totalBytes_ h)) in
    let state := transform state block in
    inr (concat (map storeWord state), mkSha256 state block size (totalBytes_ h) true).

(** [sha256Hex]: [None] stands for the exception of [update]. *)
Definition hex_digits : bytes := lit "0123456789abcdef".
Definition hex_byte (byte : ascii) : bytes :=
  [default nul (hex_digits !! N.to_nat (N.shiftr (byte_val byte) 4));
   default nul (hex_digits !! N.to_nat (N.land (byte_val byte) 0x0f))].

Definition sha256Hex (text : bytes) : option bytes :=
  match update Sha256_new text with
  | inl _ => None
  | inr hash =>
      match finish hash with
      | inl _ => None
      | inr (digest, _) => Some (concat (map hex_byte digest))
      end
  end.

Close Scope N_scope.


(** ** The one-shot definition *)

(** The 64-byte blocks of a text, an incomplete tail left out. *)
Definition blocks (l : bytes) : list bytes :=
  map (λ i, take 64 (drop (i * 64) l)) (seq 0 (length l / 64)).
Definition compress (l : bytes) : list N := foldl transform initial_state (blocks l).

(** Padding: a one bit, zeros up to eight bytes before a block end, the bit count. *)
Definition pad (message : bytes) : bytes :=
  message ++ ["128"%char] ++ replicate ((119 - length message mod 64) mod 64) nul ++
  bit_count_bytes (N.of_nat (length message)).

Definition sha256 (message : bytes) : bytes := concat (map storeWord (compress (pad message))).

Lemma blocks_app l r : length l mod 64 = 0 → blocks (l ++ r) = blocks l ++ blocks r.
Proof.
  intros Hl. apply Nat.Div0.mod_divides in Hl as [k Hk]. unfold blocks.
  assert (length l / 64 = k) as Ek by (rewrite Hk, Nat.mul_comm; by apply Nat.div_mul).
  assert (length (l ++ r) / 64 = k + length r / 64) as ->.
  { rewrite length_app, Hk, Nat.add_comm, (Nat.mul_comm 64 k), Nat.div_add by done. lia. }
  rewrite Ek, seq_app, map_app. f_equal.
  - apply map_ext_in. intros i Hi%in_seq. rewrite drop_app_le by lia.
    rewrite take_app_le; [done|]. rewrite length_drop. lia.
  - rewrite Nat.add_0_l. replace (seq k (length r / 64)) with (map (Nat.add k) (seq 0 (length r / 64))).
    + rewrite map_map. apply map_ext. intros i. rewrite drop_app_ge by lia. do 2 f_equal. lia.
    + change (map ?f ?l) with (f <$> l). rewrite fmap_add_seq. f_equal. lia.
Qed.

Lemma blocks_one b : length b = 64 → blocks b = [b].
Proof. intros Hb. unfold blocks. rewrite Hb. cbn [Nat.div seq map]. simpl. by rewrite drop_0, take_ge by lia. Qed.

Lemma compress_app l b : length l mod 64 = 0 → length b = 64 → compress (l ++ b) = transform (compress l) b.
Proof. intros Hl Hb. unfold compress. by rewrite blocks_app, foldl_app, (blocks_one b). Qed.

(** ** The buffer *)

Lemma length_write_at block offset l :
  offset + length l ≤ length block → length (write_at block offset l) = length block.
Proof. intros H. unfold write_at. rewrite !length_app, length_take, length_drop. lia. Qed.

Lemma take_write_at block offset l :
  offset ≤ length block → take (offset + length l) (write_at block offset l) = take offset block ++ l.
Proof.
  intros H. unfold write_at. rewrite app_assoc. apply take_app_length'.
  rewrite length_app, length_take. lia.
Qed.

(** The block up to its end: what was written, nothing stale. *)
Lemma write_at_full block offset l :
  offset + length l = length block → write_at block offset l = take offset block ++ l.
Proof. intros H. unfold write_at. rewrite drop_ge by lia. by rewrite app_nil_r. Qed.

(** [consumed] was hashed: whole blocks [l] are compressed, the rest [r] waits in
    the buffer. *)
Record hashed (h : Sha256) (consumed : bytes) : Prop := {
  hs_split : ∃ l, length l mod 64 = 0 ∧ consumed = l ++ take (blockSize_ h) (block_ h) ∧ state_ h = compress l;
  hs_block : length (block_ h) = 64;
  hs_size : blockSize_ h < 64;
  hs_total : totalBytes_ h = N.of_nat (length consumed);
  hs_open : finished_ h = false;
}.

(** The same with the total already counting the bytes to come. *)
Record hashing (h : Sha256) (consumed : bytes) (total : N) : Prop := {
  hg_split : ∃ l, length l mod 64 = 0 ∧ consumed = l ++ take (blockSize_ h) (block_ h) ∧ state_ h = compress l;
  hg_block : length (block_ h) = 64;
  hg_size : blockSize_ h < 64;
  hg_total : totalBytes_ h = total;
  hg_open : finished_ h = false;
}.

Lemma absorb_hashing h consumed total count bytes :
  hashing h consumed total → count = Nat.min (length (block_ h) - blockSize_ h) (length bytes) →
  hashing (absorb h count bytes) (consumed ++ take count bytes) total.
Proof.
  intros [(l & Hl & Hc & Hs) Hb Hz Ht Ho] Hcount. rewrite Hb in Hcount.
  assert (length (take count bytes) = count) as Hlen by (rewrite length_take; lia).
  unfold absorb. rewrite length_write_at by lia. rewrite Hb.
  pose proof (take_write_at (block_ h) (blockSize_ h) (take count bytes) ltac:(lia)) as Hw. rewrite Hlen in Hw.
  case_bool_decide as E.
  - assert (length (write_at (block_ h) (blockSize_ h) (take count bytes)) = 64) as Hlw
      by (rewrite length_write_at; lia).
    split; cbn [state_ block_ blockSize_ totalBytes_ finished_]; try done; [|lia]. exists (consumed ++ take count bytes).
    rewrite take_0, app_nil_r. rewrite write_at_full in * by lia.
    split; [|split; [done|]]; rewrite Hc, <- app_assoc.
    + rewrite length_app, Hlw. rewrite Nat.Div0.add_mod, Hl. done.
    + rewrite Hs. by rewrite compress_app.
  - split; cbn [state_ block_ blockSize_ totalBytes_ finished_]; try done; [|by rewrite length_write_at; lia|lia].
    exists l. split; [done|]. split; [|done]. by rewrite Hw, Hc, <- app_assoc.
Qed.

Lemma update_loop_hashing fuel h consumed total bytes :
  hashing h consumed total → length bytes < fuel →
  ∃ h', update_loop fuel h bytes = Some h' ∧ hashing h' (consumed ++ bytes) total.
Proof.
  revert h consumed bytes. induction fuel as [|fuel IH]; intros h consumed bytes Hh Hf; [lia|].
  destruct bytes as [|b bytes]; [exists h; by rewrite app_nil_r|]. cbn [update_loop].
  set (l := b :: bytes) in *. set (count := Nat.min _ (length l)).
  destruct (IH (absorb h count l) (consumed ++ take count l) (drop count l)) as (h' & E & Hh').
  - by apply absorb_hashing.
  - rewrite length_drop. assert (0 < count); [|subst l; simpl in *; lia].
    destruct Hh as [_ Hb Hz _ _]. subst count l. rewrite Hb. simpl. lia.
  - exists h'. split; [done|]. by rewrite <- app_assoc, take_drop in Hh'.
Qed.

Lemma update_hashed h consumed bytes :
  hashed h consumed → (N.of_nat (length (consumed ++ bytes)) <= maximumBytes)%N →
  ∃ h', update h bytes = inr h' ∧ hashed h' (consumed ++ bytes).
Proof.
  intros [Hs Hb Hz Ht Ho] Hmax. rewrite length_app in Hmax. unfold update. rewrite Ho.
  destruct (_ || _) eqn:E; [to_prop; rewrite Ht in E; lia|].
  set (h1 := mkSha256 _ _ _ _ _).
  destruct (update_loop_hashing (S (length bytes)) h1 consumed
    (totalBytes_ h + N.of_nat (length bytes)) bytes) as (h' & -> & [Hs' Hb' Hz' Ht' Ho']);
    [by split|lia|].
  exists h'. split; [done|]. split; try done. rewrite Ht', Ht, length_app. lia.
Qed.

Lemma length_bit_count total : length (bit_count_bytes total) = 8.
Proof. done. Qed.

(** [finish] compresses the padded rest, in one block or in two. *)
Lemma finish_hashed h consumed :
  hashed h consumed →
  ∃ h', finish h = inr (sha256 consumed, h') ∧ finished_ h' = true.
Proof.
  intros [(l & Hl & Hc & Hs) Hb Hz Ht Ho]. unfold finish. rewrite Ho.
  set (r := take (blockSize_ h) (block_ h)) in *.
  assert (length r = blockSize_ h) as Hr by (subst r; rewrite length_take; lia).
  assert (length consumed mod 64 = blockSize_ h) as Hmod.
  { rewrite Hc, length_app, Nat.Div0.add_mod, Hl, Hr. rewrite Nat.add_0_l, Nat.Div0.mod_mod.
    by apply Nat.mod_small. }
  assert (length (block_ h) = blockSize_ h + (1 + (63 - blockSize_ h))) as Hsplit by lia.
  pose proof (length_write_at (block_ h) (blockSize_ h) ["128"%char] ltac:(simpl; lia)) as Hlw.
  pose proof (take_write_at (block_ h) (blockSize_ h) ["128"%char] ltac:(lia)) as Htw.
  rewrite Nat.add_1_r in Htw. fold r in Htw.
  set (w := write_at (block_ h) (blockSize_ h) ["128"%char]) in *.
  unfold sha256, pad. rewrite Hmod, <- Ht. case_bool_decide as Hbig.
  - eexists. split; [do 3 f_equal|done].
    rewrite (write_at_full w) by (rewrite length_replicate; lia).
    rewrite Htw. set (b1 := (r ++ ["128"%char]) ++ replicate (64 - S (blockSize_ h)) nul).
    assert (length b1 = 64) as Hb1 by (subst b1; rewrite !length_app, length_replicate, Hr; simpl; lia).
    assert (write_at (write_at b1 0 (replicate (56 - 0) nul)) 56 (bit_count_bytes (totalBytes_ h)) =
      replicate 56 nul ++ bit_count_bytes (totalBytes_ h)) as ->.
    { rewrite write_at_full by (rewrite length_write_at; rewrite ?length_replicate, ?length_bit_count; lia).
      f_equal. }
    rewrite Hs, <- (compress_app l b1), <- (compress_app (l ++ b1)); try done.
    + f_equal. rewrite Hc. subst b1.
      replace ((119 - blockSize_ h) mod 64) with ((64 - S (blockSize_ h)) + 56).
      * rewrite replicate_add. by rewrite <- !app_assoc.
      * replace (119 - blockSize_ h) with (64 - S (blockSize_ h) + 56) by lia. rewrite Nat.mod_small; lia.
    + rewrite length_app, Hb1, Nat.Div0.add_mod, Hl. done.
  - eexists. split; [do 3 f_equal|done].
    assert (write_at (write_at w (S (blockSize_ h)) (replicate (56 - S (blockSize_ h)) nul)) 56
      (bit_count_bytes (totalBytes_ h)) =
      r ++ ["128"%char] ++ replicate (56 - S (blockSize_ h)) nul ++ bit_count_bytes (totalBytes_ h)) as ->.
    { rewrite write_at_full by (rewrite length_write_at; rewrite ?length_replicate, ?length_bit_count; lia).
      pose proof (take_write_at w (S (blockSize_ h)) (replicate (56 - S (blockSize_ h)) nul) ltac:(lia)) as Htw2.
      rewrite length_replicate, Htw in Htw2. replace (S (blockSize_ h) + (56 - S (blockSize_ h))) with 56 in Htw2 by lia.
      rewrite Htw2. by rewrite <- !app_assoc. }
    rewrite Hs, <- compress_app; [|done|].
    + f_equal. rewrite Hc.
      replace ((119 - blockSize_ h) mod 64) with (56 - S (blockSize_ h)).
      * by rewrite <- !app_assoc.
      * replace (119 - blockSize_ h) with (56 - S (blockSize_ h) + 1 * 64) by lia.
        rewrite Nat.Div0.mod_add, Nat.mod_small; lia.
    + rewrite !length_app, length_replicate, length_bit_count, Hr. simpl. lia.
Qed.

(** ** The digest text *)

Lemma new_hashed : hashed Sha256_new [].
Proof.
  split; [|done|cbn; lia|done|done]. exists []. split; [done|]. split; done.
Qed.

Lemma transform_length state block : length state = 8 → length (transform state block) = 8.
Proof. intros H. unfold transform, add_registers. rewrite length_zip_with_l_eq; [done|]. by rewrite H. Qed.

Lemma compress_length l : length (compress l) = 8.
Proof.
  unfold compress. apply (foldl_snoc_ind transform (λ s _, length s = 8)); [done|].
  intros. by apply transform_length.
Qed.

Lemma sha256_length message : length (sha256 message) = 32.
Proof.
  unfold sha256. pose proof (compress_length (pad message)) as H. destruct (compress _) as [|? l]; [done|].
  do 7 (destruct l as [|? l]; [done|]). by destruct l.
Qed.

Lemma hex_byte_lower c : forallb lower_hex (hex_byte c) = true ∧ length (hex_byte c) = 2.
Proof. byte_cases c. Qed.

Lemma hex_text_lower l :
  Forall (λ c, lower_hex c = true) (concat (map hex_byte l)) ∧ length (concat (map hex_byte l)) = 2 * length l.
Proof.
  induction l as [|c l [IH1 IH2]]; [by split|]. destruct (hex_byte_lower c) as [H1 H2].
  rewrite map_cons, concat_cons, Forall_app, length_app, H2, IH2.
  apply forallb_Forall in H1. cbn [length]. repeat split; try done. lia.
Qed.

Lemma sha256Hex_text text :
  (N.of_nat (length text) <= maximumBytes)%N → sha256Hex text = Some (concat (map hex_byte (sha256 text))).
Proof.
  intros Hmax. unfold sha256Hex.
  destruct (update_hashed Sha256_new [] text new_hashed Hmax) as (h & -> & Hh).
  by destruct (finish_hashed h ([] ++ text) Hh) as (h' & -> & _).
Qed.

Lemma sha256Hex_digest text d : sha256Hex text = Some d → digest (lit "sha256:" ++ d) = true.
Proof.
  intros E. destruct (decide (N.of_nat (length text) <= maximumBytes)%N) as [Hmax|Hmax].
  - rewrite sha256Hex_text in E by done. injection E as <-.
    destruct (hex_text_lower (sha256 text)) as [H1 H2]. rewrite sha256_length in H2.
    unfold digest. rewrite starts_with_app, length_app, H2. cbn [andb].
    rewrite (bool_decide_true (_ = 71)) by done. by apply forallb_Forall.
  - exfalso. unfold sha256Hex, update in E. cbn [finished_ Sha256_new totalBytes_] in E.
    destruct (_ || _) eqn:Eb; [done|]. apply orb_false_iff in Eb as [_ Eb]. rewrite N.sub_0_r in Eb.
    apply Hmax. by apply N.ltb_ge.
Qed.

(** ** The message schedule *)

Lemma schedule_fold_lookup words n k t :
  length words = 64 → 16 ≤ n → n + k ≤ 64 → t < n →
  word_at (foldl schedule_step words (seq n k)) t = word_at words t ∧
  length (foldl schedule_step words (seq n k)) = 64.
Proof.
  revert words n. induction k as [|k IH]; intros words n Hl Hn Hk Ht; [done|]. cbn [seq foldl].
  destruct (IH (schedule_step words n) (S n)) as [E El]; [unfold schedule_step; by rewrite length_insert|lia..|].
  rewrite E. split; [|done]. unfold schedule_step, word_at at 1. rewrite list_lookup_insert_ne by lia. done.
Qed.

Definition small_sigma0 (w : N) : N := N.lxor (N.lxor (rotr w 7) (rotr w 18)) (N.shiftr w 3).
Definition small_sigma1 (w : N) : N := N.lxor (N.lxor (rotr w 17) (rotr w 19)) (N.shiftr w 10).

(** ** Theorems *)

(** The updates of one hash object, in order. *)
Fixpoint updates (h : Sha256) (chunks : list bytes) : Sha256Error + Sha256 :=
  match chunks with
  | [] => inr h
  | chunk :: chunks => match update h chunk with inl e => inl e | inr h => updates h chunks end
  end.

Lemma updates_hashed h consumed chunks :
  hashed h consumed → (N.of_nat (length (consumed ++ concat chunks)) <= maximumBytes)%N →
  ∃ h', updates h chunks = inr h' ∧ hashed h' (consumed ++ concat chunks).
Proof.
  revert h consumed. induction chunks as [|c cs IH]; intros h consumed Hh Hmax.
  { exists h. by rewrite app_nil_r. }
  cbn [concat updates] in *. rewrite app_assoc in *.
  destruct (update_hashed h consumed c Hh) as (h1 & -> & Hh1); [rewrite (length_app (consumed ++ c)) in Hmax; lia|].
  destruct (IH h1 _ Hh1 Hmax) as (h2 & -> & ?). by exists h2.
Qed.

(** C38: the streaming hash object refines one-shot SHA-256: however a message of
    at most 2^61-1 bytes is cut into updates, no update fails, [finish] returns the
    digest of the padded message, and the finished object refuses further updates
    and a second [finish]. *)
Theorem sha256_streaming (chunks : list bytes) :
  (N.of_nat (length (concat chunks)) <= maximumBytes)%N →
  ∃ h h', updates Sha256_new chunks = inr h ∧
    finish h = inr (sha256 (concat chunks), h') ∧
    (∀ more, update h' more = inl FinishedUpdate) ∧ finish h' = inl FinishedFinish.
Proof.
  intros Hmax. destruct (updates_hashed Sha256_new [] chunks new_hashed Hmax) as (h & E & Hh).
  destruct (finish_hashed h _ Hh) as (h' & Ef & Hf). exists h, h'. split; [done|]. split; [done|].
  unfold update, finish. by rewrite Hf.
Qed.

(** The schedule array of [transform] satisfies the recurrence of FIPS 180-4:
    its first sixteen words are the words of the block and each later word is the
    sum of two earlier words and the two small sigma functions, modulo 2^32. *)
Theorem schedule_recurrence (block : bytes) (t : nat) :
  (t < 16 → word_at (schedule block) t = loadWord block (t * 4)) ∧
  (16 ≤ t < 64 →
   word_at (schedule block) t =
   word (word_at (schedule block) (t - 16) + small_sigma0 (word_at (schedule block) (t - 15)) +
         word_at (schedule block) (t - 7) + small_sigma1 (word_at (schedule block) (t - 2)))%N).
Proof.
  assert (length (load_words block) = 64) as Hlen by done. split.
  - intros Ht. unfold schedule. rewrite (proj1 (schedule_fold_lookup _ 16 48 t Hlen ltac:(lia) ltac:(lia) Ht)).
    do 16 (destruct t as [|t]; [done|]). lia.
  - intros Ht. unfold schedule. replace 48 with ((t - 16) + S (64 - S t)) by lia.
    rewrite seq_app, foldl_app. replace (16 + (t - 16)) with t by lia. cbn [seq foldl].
    assert (length (foldl schedule_step (load_words block) (seq 16 (t - 16))) = 64) as Hw.
    { apply (schedule_fold_lookup (load_words block) 16 (t - 16) 0 Hlen); lia. }
    set (w := foldl schedule_step (load_words block) (seq 16 (t - 16))) in *.
    assert (∀ i, i ≤ t → word_at (foldl schedule_step (schedule_step w t) (seq (S t) (64 - S t))) i =
      word_at (schedule_step w t) i) as Hkeep.
    { intros i Hi. apply schedule_fold_lookup; [unfold schedule_step; by rewrite length_insert|lia..]. }
    rewrite !Hkeep by lia.
    assert (∀ i, i < t → word_at (schedule_step w t) i = word_at w i) as Hold.
    { intros i Hi. unfold schedule_step, word_at at 1. by rewrite list_lookup_insert_ne by lia. }
    rewrite (Hold (t - 16)), (Hold (t - 15)), (Hold (t - 7)), (Hold (t - 2)) by lia. unfold schedule_step, word_at at 1. rewrite list_lookup_insert_eq by lia.
    cbn [from_option id]. unfold small_sigma0, small_sigma1, wadd, word.
    rewrite N.Div0.add_mod_idemp_l, <- (N.add_assoc (_ mod _)), N.Div0.add_mod_idemp_l. by rewrite N.add_assoc.
Qed.

(** ** Witnesses *)

Lemma sha256_streaming_witness :
  ∃ h h', updates Sha256_new [lit "a"; []; lit "bc"] = inr h ∧ finish h = inr (sha256 (lit "abc"), h') ∧
    (∀ more, update h' more = inl FinishedUpdate) ∧ finish h' = inl FinishedFinish.
Proof. apply (sha256_streaming [lit "a"; []; lit "bc"]). vm_compute. discriminate. Defined.

Lemma schedule_recurrence_witness :
  word_at (schedule (replicate 64 "a"%char)) 3 = loadWord (replicate 64 "a"%char) 12.
Proof. apply (proj1 (schedule_recurrence (replicate 64 "a"%char) 3)). lia. Defined.

Lemma sha256_abc :
  sha256Hex (lit "abc") = Some (lit "ba7816bf8f01cfea414140de5dae2223b00361a396177a9cb410ff61f20015ad").
Proof. vm_compute. reflexivity. Qed.
