(* ===== verification/Resolver.v ===== *)
(** * The package resolver (compiler/src/package_resolver.cpp)

    Backtracking selection of one candidate per package name, and the lock built
    from it. *)
From S2P Require Import Prelude Graph Cycles Target Version PackageText FsPath Package Lock Sha256.

Definition maxResolvedPackages : nat := N.to_nat 4096.
#[global] Opaque maxResolvedPackages.
Definition maxCatalogCandidates : N := 65536.
Definition maxDependencyDepth : nat := 256.

(** [digestHex]. *)
Definition digestHex (digest : bytes) : bool :=
  if negb (bool_decide (length digest = 71)) || negb (starts_with (lit "sha256:") digest) then false
  else forallb (λ byte, between 48 57 byte || between 97 102 byte) (drop 7 digest).

Record Constraint := mkConstraint { c_dependency : PackageDependency; c_path : list bytes }.

(** A directed edge with its scope, the element of [SolverState::edges]. *)
Abbreviation ScopedEdge := (bytes * (bytes * PackageDependencyScope))%type.

Record SolverState := mkSolver {
  constraints : gmap bytes (list Constraint);
  selected : gmap bytes nat;
  edges : gset ScopedEdge;
}.

Record Failure := mkFailure { failure_code : bytes; failure_message : bytes }.

Definition active (dependency : PackageDependency) (target : TargetPlatform) : bool :=
  match dep_target dependency with None => true | Some selector => targetSelected selector target end.

(** The descriptor text, and its digest; [None] when hashing throws. *)
Definition native_descriptor (manifest : PackageManifest) (target : TargetPlatform) : bytes :=
  lit "foundation.native-library/v1" ++ [newline] ++
  default (m_name manifest) (m_nativeName manifest) ++ [newline] ++
  match m_nativeSOVersion manifest with Some so => to_string so | None => lit "-" end ++ [newline] ++
  targetPlatformName target ++ [newline].
Definition nativeDigest (manifest : PackageManifest) (target : TargetPlatform) : option bytes :=
  (λ hex, lit "sha256:" ++ hex) <$> sha256Hex (native_descriptor manifest target).

Definition pathText (path : list bytes) : bytes :=
  foldl (λ result part, (if bool_decide (result = []) then result else result ++ lit " -> ") ++ part) [] path.

Definition matches (candidate : PackageCandidate) (cs : list Constraint) (sdk : PackageVersion) : bool :=
  if negb (accepts (m_sdk (pc_manifest candidate)) sdk) then false
  else forallb (λ c,
    let dependency := c_dependency c in
    accepts (dep_requirement dependency) (m_version (pc_manifest candidate)) &&
    bool_decide (dep_kind dependency = pc_kind candidate) &&
    bool_decide (dep_location dependency = pc_location candidate)) cs.

Definition rememberFailure (failure : option Failure) (code message : bytes) : option Failure :=
  match failure with Some _ => failure | None => Some (mkFailure code message) end.

Definition conflictMessage (name : bytes) (cs : list Constraint) : bytes :=
  lit "cannot resolve package " ++ name ++
  concat (map (λ c, lit "; " ++ pathText (c_path c) ++ lit " requires " ++
    requirement_string (dep_requirement (c_dependency c)) ++ lit " from " ++
    locationName (dep_kind (c_dependency c)) ++ lit " " ++ dep_location (c_dependency c)) cs).

(** ** [dependencyCycle] *)

(** The set in its iteration order. *)
Definition edge_list (es : gset ScopedEdge) : list ScopedEdge := sort_by id (elements es).

(** [graph[parent].push_back(dependency); graph.try_emplace(dependency)]. *)
Definition cycle_graph (es : list ScopedEdge) : gmap bytes (list bytes) :=
  foldl (λ g e,
    let g := graph_push g e.1 e.2.1 in
    match g !! e.2.1 with Some _ => g | None => <[e.2.1 := []]> g end) ∅ es.

Definition sorted_keys {V} (m : gmap bytes V) : list bytes := sort_by id (elements (dom m)).

(** Depth never exceeds the number of nodes (the theorems below). *)
Definition dependencyCycle (es : gset ScopedEdge) : option (list bytes) :=
  let graph := cycle_graph (edge_list es) in
  default None (find_cycle (length (sorted_keys graph)) graph (sorted_keys graph) ∅ []).

(** ** [solve] *)

Section solve.
Context (catalog : list PackageCandidate) (sdk : PackageVersion) (target : TargetPlatform).

(** The first constrained name without a selection, in map order. *)
Definition unresolved (st : SolverState) : option bytes :=
  head (filter (λ name, selected st !! name = None) (sorted_keys (constraints st))).

Definition constraints_of (st : SolverState) (name : bytes) : list Constraint :=
  default [] (constraints st !! name).

Definition choice_order (index : nat) : Desc PackageVersion * (bytes * bytes) :=
  match catalog !! index with
  | Some c => (desc (m_version (pc_manifest c)), (pc_location c, pc_digest c))
  | None => (desc emptyVersion, ([], []))
  end.

Definition eligible (name : bytes) (cs : list Constraint) (index : nat) : bool :=
  match catalog !! index with
  | Some c => bool_decide (m_name (pc_manifest c) = name) && matches c cs sdk
  | None => false
  end.

Definition choices_of (name : bytes) (cs : list Constraint) : list nat :=
  sort_by choice_order (filter (λ index, eligible name cs index = true) (seq 0 (length catalog))).

(** [std::min_element] by path: the first of the least. *)
Fixpoint min_path (best : list bytes) (cs : list Constraint) : list bytes :=
  match cs with
  | [] => best
  | c :: cs => min_path (if cmp_ltb (c_path c) best then c_path c else best) cs
  end.
Definition origin_path (cs : list Constraint) : list bytes :=
  match cs with [] => [] | c :: cs => min_path (c_path c) cs end.

(** The loop over the dependencies of a choice: [None] is [valid = false]. *)
Fixpoint add_constraints (origin : list bytes) (name : bytes) (dependencies : list PackageDependency)
    (next : SolverState) (failure : option Failure) : option SolverState * option Failure :=
  match dependencies with
  | [] => (Some next, failure)
  | dependency :: dependencies =>
      if negb (active dependency target) ||
         bool_decide (dep_scope dependency = PackageDependencyScope.Test)
      then add_constraints origin name dependencies next failure
      else if bool_decide (length origin = maxDependencyDepth) then
        (None, rememberFailure failure (lit "FDN4055") (lit "package graph exceeds dependency depth 256"))
      else if bool_decide (dep_name dependency ∈ origin) then
        (None, rememberFailure failure (lit "FDN4054")
           (lit "package dependency cycle: " ++ pathText (origin ++ [dep_name dependency])))
      else
        let next := mkSolver
          (<[dep_name dependency :=
               constraints_of next (dep_name dependency) ++
               [mkConstraint dependency (origin ++ [dep_name dependency])]]> (constraints next))
          (selected next)
          ({[(name, (dep_name dependency, PackageDependencyScope.Runtime))]} ∪ edges next) in
        add_constraints origin name dependencies next failure
  end.

(** The re-check of every selection against the constraints it now has. *)
Definition all_match (st : SolverState) : bool :=
  forallb (λ name,
    match selected st !! name with
    | Some index =>
        match catalog !! index with
        | Some c => matches c (constraints_of st name) sdk
        | None => false
        end
    | None => true
    end) (sorted_keys (selected st)).

Definition select (st : SolverState) (name : bytes) (choice : nat) : SolverState :=
  mkSolver (constraints st)
    (match selected st !! name with Some _ => selected st | None => <[name := choice]> (selected st) end)
    (edges st).

Definition candidate_dependencies (choice : nat) : list PackageDependency :=
  match catalog !! choice with Some c => m_dependencies (pc_manifest c) | None => [] end.

(** The loop over the choices for [name], behind the recursive call [rec]; an
    inner [None] is [return false]. *)
Fixpoint try_choices (rec : SolverState → option Failure → option (option SolverState * option Failure))
    (st : SolverState) (name : bytes) (origin : list bytes) (choices : list nat) (failure : option Failure)
    : option (option SolverState * option Failure) :=
  match choices with
  | [] => Some (None, failure)
  | choice :: choices =>
      match add_constraints origin name (candidate_dependencies choice) (select st name choice) failure with
      | (None, failure) => try_choices rec st name origin choices failure
      | (Some next, failure) =>
          if all_match next then
            match rec next failure with
            | Some (None, failure) => try_choices rec st name origin choices failure
            | result => result
            end
          else try_choices rec st name origin choices failure
      end
  end.

Fixpoint solve (fuel : nat) (st : SolverState) (failure : option Failure)
    : option (option SolverState * option Failure) :=
  match fuel with
  | O => None
  | S fuel =>
      match unresolved st with
      | None =>
          match dependencyCycle (edges st) with
          | Some cycle =>
              Some (None, rememberFailure failure (lit "FDN4054")
                            (lit "package dependency cycle: " ++ pathText cycle))
          | None => Some (Some st, failure)
          end
      | Some name =>
          if bool_decide (size (selected st) = maxResolvedPackages) then
            Some (None, rememberFailure failure (lit "FDN4055") (lit "package graph exceeds 4096 packages"))
          else
            let cs := constraints_of st name in
            let choices := choices_of name cs in
            if bool_decide (choices = []) then
              Some (None, rememberFailure failure (lit "FDN4052") (conflictMessage name cs))
            else try_choices (solve fuel) st name (origin_path cs) choices failure
      end
  end.

(** Each call selects one more name of the catalog. *)
Definition solve_fuel : nat := S (S (length catalog)).
End solve.

(** ** [lockRootPackageMetadata] *)

(** The file system as the code sees it: [symlink_or_error] of a path, [canonical]
    ([None] for an error), and the foreign source walk of package_source.cpp. *)
Record FileSystem := mkFileSystem {
  symlink_or_error : bytes → bool;
  canonical : bytes → option bytes;
  inspectForeignSource : bytes → PackageParseResult bytes;
}.

Section metadata.
Context (fs : FileSystem) (target : TargetPlatform) (rootManifestPath : bytes).

Fixpoint containsSymlink (current : bytes) (parts : list bytes) : bool :=
  match parts with
  | [] => false
  | part :: parts =>
      let current := path_append current part in
      if symlink_or_error fs current then true else containsSymlink current parts
  end.

Definition metadata_error (path message : bytes) : PackageError :=
  mkPackageError path 1 1 (lit "FDN4057") message.

Definition lock_foreign_source (f : Foreign) : LockedForeign + list PackageError :=
  if negb (bool_decide (foreign_kind f = lit "path")) then
    inr [metadata_error rootManifestPath (lit "foreign resolver kind " ++ foreign_kind f ++
           lit " is not supported; Foundation 1.0 accepts path resolvers")]
  else
    let unresolvedPath := path_append (parent_path rootManifestPath) (foreign_resolver f) in
    if containsSymlink (parent_path rootManifestPath) (path_elements (foreign_resolver f)) then
      inr [metadata_error unresolvedPath (lit "foreign path source cannot use symlinked path components")]
    else
      let projectRoot := default [] (canonical fs (parent_path rootManifestPath)) in
      let outside := inr [metadata_error rootManifestPath
                            (lit "foreign path source must stay inside the package root")] in
      match canonical fs unresolvedPath with
      | None => outside
      | Some sourcePath =>
          match lexically_relative sourcePath projectRoot with
          | [] => outside
          | first :: _ =>
              if bool_decide (first = [slash]) || path_eqb first dotdot then outside
              else
                let source := inspectForeignSource fs sourcePath in
                match result_value source with
                | None => inr (result_errors source)
                | Some digest =>
                    inl (mkLockedForeign (foreign_ecosystem f) (foreign_identifier f) (foreign_version f)
                           (foreign_kind f) (foreign_resolver f) digest)
                end
          end
      end.

(** [None] when [nativeDigest] throws. *)
Definition lockRootPackageMetadata (lock : PackageLock) (manifest : PackageManifest)
    : option (PackageLock * list PackageError) :=
  let native :=
    if m_nativeLibrary manifest then
      (λ d, Some (mkLockedNative (default (m_name manifest) (m_nativeName manifest))
                    (m_nativeSOVersion manifest) d)) <$> nativeDigest manifest target
    else Some None in
  let sources := map lock_foreign_source (m_foreign manifest) in
  let foreign := omap (λ s, match s with inl f => Some f | inr _ => None end) sources in
  let errors := concat (map (λ s, match s with inl _ => [] | inr es => es end) sources) in
  match native with
  | None => None
  | Some native =>
      Some (mkLock (l_rootName lock) (l_rootVersion lock) (l_target lock) native
              (sort_by foreign_key foreign) (l_packages lock) (l_edges lock), errors)
  end.
End metadata.

(** ** [resolvePackageGraph] *)

Definition candidate_order (c : PackageCandidate) :=
  (m_name (pc_manifest c), (m_version (pc_manifest c), (pc_kind c, (pc_location c, pc_digest c)))).
Definition candidate_id (c : PackageCandidate) :=
  (m_name (pc_manifest c), (m_version (pc_manifest c), (pc_kind c, pc_location c))).

Definition invalid_candidate (c : PackageCandidate) : bool :=
  bool_decide (m_name (pc_manifest c) = []) || negb (digestHex (pc_digest c)) ||
  bool_decide (pc_location c = []).

(** [std::adjacent_find]. *)
Fixpoint adjacent_duplicate (l : list PackageCandidate) : option PackageCandidate :=
  match l with
  | x :: ((y :: _) as l') =>
      if bool_decide (candidate_id x = candidate_id y) then Some x else adjacent_duplicate l'
  | _ => None
  end.

Definition root_state (root : PackageManifest) (target : TargetPlatform) : SolverState :=
  foldl (λ st dependency,
    if active dependency target then
      mkSolver
        (<[dep_name dependency :=
             constraints_of st (dep_name dependency) ++
             [mkConstraint dependency [m_name root; dep_name dependency]]]> (constraints st))
        (selected st)
        ({[(m_name root, (dep_name dependency, dep_scope dependency))]} ∪ edges st)
    else st) (mkSolver ∅ ∅ ∅) (m_dependencies root).

(** The lock before the root metadata. *)
Definition resolution_lock_of (catalog : list PackageCandidate) (root : PackageManifest) (target : TargetPlatform)
    (st : SolverState) : PackageLock :=
  mkLock (m_name root) (m_version root) target None []
    (omap (λ name,
       match selected st !! name ≫= λ index, catalog !! index with
       | Some c => Some (mkLockedPackage name (m_version (pc_manifest c)) (pc_digest c) (pc_kind c) (pc_location c))
       | None => None
       end) (sorted_keys (selected st)))
    (map (λ e, mkEdge e.1 e.2.1 e.2.2) (edge_list (edges st))).

Definition resolution_candidates (catalog : list PackageCandidate) (st : SolverState) : list PackageCandidate :=
  omap (λ name, selected st !! name ≫= λ index, catalog !! index) (sorted_keys (selected st)).

(** How a call ends: with a result, with an exception, or by reading the value of
    an empty [std::optional], which is undefined. *)
Inductive Outcome (T : Type) := Returned (result : T) | Thrown | Undefined.
Arguments Returned {T}.
Arguments Thrown {T}.
Arguments Undefined {T}.

Definition resolvePackageGraph (fs : FileSystem) (rootManifestPath : bytes) (root : PackageManifest)
    (sdk : PackageVersion) (target : TargetPlatform) (inputCatalog : list PackageCandidate)
    : Outcome (PackageParseResult PackageResolution) :=
  let fail code message := Returned (mkResult None [mkPackageError rootManifestPath 1 1 (lit code) message]) in
  if negb (accepts (m_sdk root) sdk) then
    fail "FDN4050"%string (lit "SDK " ++ version_string sdk ++ lit " does not satisfy root requirement " ++
                           requirement_string (m_sdk root))
  else if (maxCatalogCandidates <? N.of_nat (length inputCatalog))%N then
    fail "FDN4055"%string (lit "package catalog exceeds 65536 candidates")
  else match list_find (λ c, invalid_candidate c = true) inputCatalog with
  | Some (_, c) => fail "FDN4051"%string (lit "invalid package candidate " ++ m_name (pc_manifest c))
  | None =>
      let catalog := sort_by candidate_order inputCatalog in
      match adjacent_duplicate catalog with
      | Some c =>
          fail "FDN4053"%string (lit "duplicate package candidate " ++ m_name (pc_manifest c) ++ lit " " ++
            version_string (m_version (pc_manifest c)) ++ lit " from " ++ locationName (pc_kind c) ++ lit " " ++
            pc_location c)
      | None =>
          match solve catalog sdk target (solve_fuel catalog) (root_state root target) None with
          | None => Thrown
          | Some (None, None) => Undefined
          | Some (None, Some failure) =>
              Returned (mkResult None
                [mkPackageError rootManifestPath 1 1 (failure_code failure) (failure_message failure)])
          | Some (Some st, _) =>
              match lockRootPackageMetadata fs target rootManifestPath
                      (resolution_lock_of catalog root target st) root with
              | None => Thrown
              | Some (lock, []) =>
                  Returned (mkResult (Some (mkResolution lock (resolution_candidates catalog st))) [])
              | Some (_, errors) => Returned (mkResult None errors)
              end
          end
      end
  end.

(** ** The cycle search *)

Definition edge_pair (e : ScopedEdge) : bytes * bytes := (e.1, e.2.1).

(** The parents and dependencies of the edges, and the edges between them. *)
Lemma cycle_graph_spec es :
  (∀ x y, y ∈ successors (cycle_graph es) x ↔ edge (edge_pair <$> es) x y) ∧
  (∀ x, x ∈ dom (cycle_graph es) ↔ ∃ e, e ∈ es ∧ (x = e.1 ∨ x = e.2.1)).
Proof.
  unfold cycle_graph.
  apply (foldl_snoc_ind (λ g e, let g := graph_push g e.1 e.2.1 in
      match g !! e.2.1 with Some _ => g | None => <[e.2.1 := []]> g end)
    (λ g es, (∀ x y, y ∈ successors g x ↔ edge (edge_pair <$> es) x y) ∧
      (∀ x, x ∈ dom g ↔ ∃ e : ScopedEdge, e ∈ es ∧ (x = e.1 ∨ x = e.2.1)))).
  - split; [intros x y; unfold successors, edge; rewrite lookup_empty; set_solver|set_solver].
  - intros g es' [p [d s]] [IH1 IH2]. cbn [fst snd].
    assert (∀ x y, y ∈ successors (graph_push g p d) x ↔ edge (edge_pair <$> es' ++ [(p, (d, s))]) x y) as H1.
    { intros x y. rewrite successors_push, elem_of_app, IH1. unfold edge. rewrite fmap_app, elem_of_app.
      change (edge_pair <$> [(p, (d, s))]) with [(p, d)].
      destruct (decide (p = x)) as [->|Hp]; rewrite ?list_elem_of_singleton, ?elem_of_nil.
      - split; (intros [?|Hy]; [by left|right; congruence]).
      - split; [intros [?|[]]; by left|intros [?|[= -> ->]]; [by left|done]]. }
    assert (∀ x, x ∈ dom (graph_push g p d) ↔ x = p ∨ x ∈ dom g) as H2.
    { intros x. unfold graph_push. rewrite dom_insert. set_solver. }
    split.
    + intros x y. rewrite <- H1. destruct (graph_push g p d !! d) as [l|] eqn:E; [done|].
      unfold successors. destruct (decide (d = x)) as [->|].
      * by rewrite lookup_insert_eq, E.
      * by rewrite lookup_insert_ne.
    + intros x.
      assert (x ∈ dom (match graph_push g p d !! d with Some _ => graph_push g p d
        | None => <[d:=[]]> (graph_push g p d) end) ↔ x = d ∨ x = p ∨ x ∈ dom g) as ->.
      { destruct (graph_push g p d !! d) eqn:E; [|rewrite dom_insert, elem_of_union, elem_of_singleton, H2; done].
        rewrite H2. split; [tauto|]. intros [->|?]; [|done]. apply H2, elem_of_dom. by eexists. }
      rewrite IH2. setoid_rewrite elem_of_app. setoid_rewrite list_elem_of_singleton. split.
      * intros [->|[->|(e & ? & ?)]]; [exists (p, (d, s)); cbn; auto..|exists e; auto].
      * intros (e & [? | ->] & He); [right; right; by exists e|cbn in He; tauto].
Qed.

Lemma sorted_keys_spec {V} (m : gmap bytes V) :
  NoDup (sorted_keys m) ∧ ∀ x, x ∈ sorted_keys m ↔ is_Some (m !! x).
Proof.
  unfold sorted_keys. split; [rewrite sort_by_perm; apply NoDup_elements|].
  intros x. by rewrite elem_of_sort_by, elem_of_elements, elem_of_dom.
Qed.

Lemma elem_of_edge_list es e : e ∈ edge_list es ↔ e ∈ es.
Proof. unfold edge_list. by rewrite elem_of_sort_by, elem_of_elements. Qed.

Definition edge_in (es : gset ScopedEdge) (x y : bytes) : Prop := ∃ s, (x, (y, s)) ∈ es.

Lemma edge_pair_list es x y : edge (edge_pair <$> edge_list es) x y ↔ edge_in es x y.
Proof.
  unfold edge, edge_in, edge_pair. rewrite list_elem_of_fmap. setoid_rewrite elem_of_edge_list. split.
  - intros ([p [d s]] & [= -> ->] & He). by exists s.
  - intros [s Hs]. by exists (x, (y, s)).
Qed.

Lemma dependencyCycle_spec es :
  match dependencyCycle es with
  | Some path => ∃ x mid, path = x :: mid ++ [x] ∧ chain (edge_in es) path
  | None => ∀ x, ¬ tc (edge_in es) x x
  end.
Proof.
  unfold dependencyCycle. destruct (cycle_graph_spec (edge_list es)) as [Hs Hd].
  set (g := cycle_graph (edge_list es)) in *. destruct (sorted_keys_spec g) as [Hnd Hk].
  assert (∀ x y, step g x y ↔ edge_in es x y) as Hstep.
  { intros x y. unfold step. by rewrite Hs, edge_pair_list. }
  destruct (find_cycle_exact g (sorted_keys g)) with (fuel := length (sorted_keys g)) as (r & -> & Hr); [|done|].
  - intros x y Hxy%Hstep. destruct Hxy as [s Hxy]. rewrite !Hk, <- !elem_of_dom, !Hd.
    split; exists (x, (y, s)); rewrite elem_of_edge_list; cbn; auto.
  - cbn [default from_option]. destruct r as [path|]; cbn [from_option id].
    + destruct Hr as (x & mid & -> & Hc). exists x, mid. split; [done|].
      eapply chain_impl; [|exact Hc]. intros ? ?. by apply Hstep.
    + intros x Hx. apply (Hr x). eapply tc_subrel; [|exact Hx]. intros ? ?. by apply Hstep.
Qed.

(** ** What a resolution is *)

Definition satisfies (c : PackageCandidate) (d : PackageDependency) : Prop :=
  accepts (dep_requirement d) (m_version (pc_manifest c)) = true ∧
  dep_kind d = pc_kind c ∧ dep_location d = pc_location c.

Lemma matches_iff c cs sdk :
  matches c cs sdk = true ↔
  accepts (m_sdk (pc_manifest c)) sdk = true ∧ ∀ x, x ∈ cs → satisfies c (c_dependency x).
Proof.
  unfold matches, satisfies. destruct (accepts (m_sdk _) sdk); [|naive_solver]. cbn [negb].
  rewrite forallb_Forall, Forall_forall. setoid_rewrite andb_true_iff. setoid_rewrite andb_true_iff.
  setoid_rewrite bool_decide_eq_true. split.
  - intros H. split; [done|]. intros x Hx. specialize (H x Hx). tauto.
  - intros [_ H] x Hx. specialize (H x Hx). tauto.
Qed.

(** The depth limit lies below the package limit. *)
Lemma size_limits n : maxResolvedPackages ≤ n → n < maxDependencyDepth → False.
Proof.
  with_strategy transparent [maxResolvedPackages] (unfold maxResolvedPackages, maxDependencyDepth). lia.
Qed.

Section resolution.
Context (catalog : list PackageCandidate) (sdk : PackageVersion) (target : TargetPlatform).
Context (root : PackageManifest).

(** The dependencies that count: of the root all active ones, of a selected
    candidate the active ones that are not for its tests. *)
Definition requires (sel : gmap bytes nat) (x : bytes) (d : PackageDependency) : Prop :=
  (x = m_name root ∧ d ∈ m_dependencies root ∧ active d target = true) ∨
  (∃ i c, sel !! x = Some i ∧ catalog !! i = Some c ∧ d ∈ m_dependencies (pc_manifest c) ∧
     active d target = true ∧ dep_scope d = PackageDependencyScope.Runtime).

Definition depends (sel : gmap bytes nat) (x y : bytes) : Prop :=
  ∃ d, requires sel x d ∧ dep_name d = y.

(** One candidate per needed package, compatible with every dependency on it, no
    package that nobody needs, and no cycle. *)
Record Resolves (sel : gmap bytes nat) : Prop := {
  rs_candidate : ∀ x i, sel !! x = Some i →
    ∃ c, catalog !! i = Some c ∧ m_name (pc_manifest c) = x ∧ accepts (m_sdk (pc_manifest c)) sdk = true;
  rs_satisfied : ∀ x d, requires sel x d →
    ∃ i c, sel !! dep_name d = Some i ∧ catalog !! i = Some c ∧ satisfies c d;
  rs_needed : ∀ x i, sel !! x = Some i → rtc (depends sel) (m_name root) x;
  rs_acyclic : ∀ x, ¬ tc (depends sel) x x;
}.

Lemma requires_mono sel sel' x d : sel ⊆ sel' → requires sel x d → requires sel' x d.
Proof.
  intros Hsub [?|(i & c & Hi & ?)]; [by left|]. right. exists i, c. split; [|done].
  by eapply lookup_weaken.
Qed.
Lemma depends_mono sel sel' x y : sel ⊆ sel' → depends sel x y → depends sel' x y.
Proof. intros ? (d & ? & ?). exists d. eauto using requires_mono. Qed.

(** ** The solver's invariant *)

(** A path from the root to a name along the dependencies. *)
Definition root_path (sel : gmap bytes nat) (path : list bytes) (name : bytes) : Prop :=
  (∃ rest, path = m_name root :: rest) ∧ last path = Some name ∧ chain (depends sel) path.

Record solver_inv (st : SolverState) : Prop := {
  sv_source : ∀ name c, c ∈ constraints_of st name →
    dep_name (c_dependency c) = name ∧ (∃ x, requires (selected st) x (c_dependency c)) ∧
    root_path (selected st) (c_path c) name;
  sv_required : ∀ x d, requires (selected st) x d →
    ∃ c, c ∈ constraints_of st (dep_name d) ∧ c_dependency c = d;
  sv_nonempty : ∀ name cs, constraints st !! name = Some cs → cs ≠ [];
  sv_edges : ∀ x y s, (x, (y, s)) ∈ edges st ↔
    ∃ d, requires (selected st) x d ∧ dep_name d = y ∧ dep_scope d = s;
  sv_selected : ∀ name i, selected st !! name = Some i →
    ∃ c, catalog !! i = Some c ∧ m_name (pc_manifest c) = name ∧
      matches c (constraints_of st name) sdk = true ∧ constraints_of st name ≠ [];
}.

Lemma unresolved_None st :
  unresolved st = None ↔ ∀ name, is_Some (constraints st !! name) → is_Some (selected st !! name).
Proof.
  unfold unresolved. destruct (sorted_keys_spec (constraints st)) as [_ Hk]. rewrite head_None. split.
  - intros E name Hn%Hk. destruct (selected st !! name) eqn:Es; [done|].
    assert (name ∈ filter (λ name, selected st !! name = None) (sorted_keys (constraints st))) as Hin
      by by apply list_elem_of_filter.
    rewrite E in Hin. by apply elem_of_nil in Hin.
  - intros Hall. destruct (filter _ _) as [|n l] eqn:E; [done|].
    assert (n ∈ n :: l) as Hin by by left. rewrite <- E in Hin.
    apply list_elem_of_filter in Hin as [Hn Hin%Hk%Hall]. rewrite Hn in Hin. by destruct Hin.
Qed.

Lemma unresolved_Some st name :
  unresolved st = Some name → is_Some (constraints st !! name) ∧ selected st !! name = None.
Proof.
  unfold unresolved. intros E. apply head_Some_elem_of, list_elem_of_filter in E as [? E].
  split; [|done]. by apply (sorted_keys_spec (constraints st)).
Qed.

(** A finished state is a resolution. *)
Lemma finished_resolves st :
  solver_inv st → unresolved st = None → dependencyCycle (edges st) = None → Resolves (selected st).
Proof.
  intros [Hsrc Hreq Hne He Hsel] Hu Hc. rewrite unresolved_None in Hu.
  assert (∀ x y, depends (selected st) x y ↔ edge_in (edges st) x y) as Hdep.
  { intros x y. unfold depends, edge_in. setoid_rewrite He. naive_solver. }
  split.
  - intros x i (c & ? & ? & [? _]%matches_iff & _)%Hsel. by exists c.
  - intros x d Hd. destruct (Hreq x d Hd) as (k & Hk & <-).
    destruct (Hu (dep_name (c_dependency k))) as [i Hi].
    { unfold constraints_of in Hk. destruct (constraints st !! _); [done|by apply elem_of_nil in Hk]. }
    destruct (Hsel _ _ Hi) as (c & ? & ? & [_ Hm]%matches_iff & _). exists i, c. auto.
  - intros x i (c & _ & _ & _ & Hn)%Hsel. destruct (constraints_of st x) as [|k cs] eqn:E; [done|].
    destruct (Hsrc x k) as (_ & _ & (rest & Hp) & Hl & Hch); [rewrite E; by left|].
    rewrite Hp in *. eapply chain_rtc; [exact Hch|]. apply last_Some in Hl as (l & ->). set_solver.
  - intros x Hx. pose proof (dependencyCycle_spec (edges st)) as Hs. rewrite Hc in Hs.
    apply (Hs x). eapply tc_subrel; [|exact Hx]. intros ? ?. by apply Hdep.
Qed.

(** ** One choice *)

Definition runtime (d : PackageDependency) : Prop :=
  active d target = true ∧ dep_scope d = PackageDependencyScope.Runtime.

Lemma requires_select sel name choice c x d :
  sel !! name = None → catalog !! choice = Some c →
  requires (<[name := choice]> sel) x d ↔
  requires sel x d ∨ (x = name ∧ d ∈ m_dependencies (pc_manifest c) ∧ runtime d).
Proof.
  intros Hn Hc. unfold requires, runtime. split.
  - intros [?|(i & c' & Hi & Hc' & ?)]; [by left; left|].
    apply lookup_insert_Some in Hi as [[<- <-]|[? ?]]; [right|left; right; eauto].
    rewrite Hc in Hc'. simplify_eq. tauto.
  - intros [[?|(i & c' & Hi & ?)]|(-> & ?)]; [by left|right..].
    + exists i, c'. rewrite lookup_insert_ne by congruence. done.
    + exists choice, c. rewrite lookup_insert_eq. tauto.
Qed.

(** While the dependencies of the choice are added, [handled] of them so far. *)
Record adding (sel sel' : gmap bytes nat) (name : bytes) (handled : list PackageDependency)
    (next : SolverState) : Prop := {
  ad_selected : selected next = sel';
  ad_source : ∀ n c, c ∈ constraints_of next n →
    dep_name (c_dependency c) = n ∧ (∃ x, requires sel' x (c_dependency c)) ∧ root_path sel' (c_path c) n;
  ad_required : ∀ x d, requires sel x d ∨ (x = name ∧ d ∈ handled ∧ runtime d) →
    ∃ c, c ∈ constraints_of next (dep_name d) ∧ c_dependency c = d;
  ad_nonempty : ∀ n cs, constraints next !! n = Some cs → cs ≠ [];
  ad_edges : ∀ x y s, (x, (y, s)) ∈ edges next ↔
    ∃ d, (requires sel x d ∨ (x = name ∧ d ∈ handled ∧ runtime d)) ∧ dep_name d = y ∧ dep_scope d = s;
}.

Lemma constraints_of_insert cs sel es name n l :
  constraints_of (mkSolver (<[name := l]> cs) sel es) n = if decide (name = n) then l else default [] (cs !! n).
Proof.
  unfold constraints_of. cbn. destruct (decide (name = n)) as [->|].
  - by rewrite lookup_insert_eq.
  - by rewrite lookup_insert_ne.
Qed.

Lemma add_constraint_adding sel sel' origin name handled d next :
  adding sel sel' name handled next → runtime d → requires sel' name d → root_path sel' origin name →
  adding sel sel' name (handled ++ [d])
    (mkSolver (<[dep_name d := constraints_of next (dep_name d) ++ [mkConstraint d (origin ++ [dep_name d])]]>
                 (constraints next)) (selected next)
       ({[(name, (dep_name d, PackageDependencyScope.Runtime))]} ∪ edges next)).
Proof.
  intros [Hsel Hsrc Hreq Hne He] Hd Hr Hpath. split; [done|..].
  - intros n c. rewrite constraints_of_insert. case_decide as E; [|apply Hsrc].
    intros [Hc| ->%list_elem_of_singleton]%elem_of_app; [rewrite <- E; by apply Hsrc|]. cbn.
    split; [done|]. split; [by exists name|].
    destruct Hpath as ([rest ->] & Hl & Hch). split; [by exists (rest ++ [dep_name d])|].
    rewrite last_snoc. split; [by rewrite E|]. apply last_Some in Hl as (l & El). rewrite El in *.
    rewrite <- app_assoc. apply chain_snoc; [done|]. by exists d.
  - intros x d' Hd'.
    assert (d' = d ∨ requires sel x d' ∨ (x = name ∧ d' ∈ handled ∧ runtime d')) as [->|Hold].
    { destruct Hd' as [?|(-> & [?| ->%list_elem_of_singleton]%elem_of_app & ?)]; auto. }
    + eexists. rewrite constraints_of_insert, decide_True by done. split; [apply elem_of_app; right; by left|done].
    + destruct (Hreq x d' Hold) as (c & Hc & Ec). exists c. split; [|done].
      rewrite constraints_of_insert. case_decide as E; [|done]. rewrite E, elem_of_app. by left.
  - intros n cs. cbn. rewrite lookup_insert_Some. intros [[_ <-]|[_ ?]]; [by destruct (constraints_of _ _)|eauto].
  - intros x y s. cbn. rewrite elem_of_union, elem_of_singleton, He. destruct Hd as [? Hs]. split.
    + intros [[= -> -> ->]|(d' & [?|(? & ? & ?)] & ?)].
      * exists d. rewrite elem_of_app. split; [right; split; [done|]; split; [right; by left|done]|done].
      * exists d'. tauto.
      * exists d'. rewrite elem_of_app. tauto.
    + intros (d' & [?|(-> & [?| ->%list_elem_of_singleton]%elem_of_app & ?)] & <- & <-).
      * right. exists d'. tauto.
      * right. exists d'. tauto.
      * left. by rewrite Hs.
Qed.

Lemma adding_skip sel sel' name handled d next :
  ¬ runtime d → adding sel sel' name handled next → adding sel sel' name (handled ++ [d]) next.
Proof.
  intros Hd [Hsel Hsrc Hreq Hne He].
  assert (∀ x d', requires sel x d' ∨ (x = name ∧ d' ∈ handled ++ [d] ∧ runtime d') ↔
    requires sel x d' ∨ (x = name ∧ d' ∈ handled ∧ runtime d')) as Heq.
  { intros x d'. rewrite elem_of_app, list_elem_of_singleton. split; [|tauto].
    intros [?|(? & [?|Ed] & ?)]; [tauto..|]. by rewrite Ed in *. }
  split; try done.
  - intros x d' ?%Heq. by eapply Hreq.
  - intros x y s. rewrite He. by setoid_rewrite Heq.
Qed.

Lemma add_constraints_spec sel sel' origin name handled deps next failure :
  adding sel sel' name handled next → root_path sel' origin name →
  (∀ d, d ∈ deps → runtime d → requires sel' name d) →
  match add_constraints target origin name deps next failure with
  | (Some next', _) => adding sel sel' name (handled ++ deps) next'
  | (None, failure') => is_Some failure' ∧
      ∃ d, d ∈ deps ∧ runtime d ∧ (length origin = maxDependencyDepth ∨ dep_name d ∈ origin)
  end.
Proof.
  revert handled next. induction deps as [|d deps IH]; intros handled next Hadd Hpath Hreq; cbn [add_constraints].
  { by rewrite app_nil_r. }
  assert (∀ code message, is_Some (rememberFailure failure code message)) as Hrem by (intros; by destruct failure).
  destruct (negb (active d target) || _) eqn:E.
  - assert (¬ runtime d) as Hd. { unfold runtime. to_prop. intros [Ha Hs]. rewrite Hs in E. destruct E; congruence. }
    specialize (IH (handled ++ [d]) next (adding_skip _ _ _ _ _ _ Hd Hadd) Hpath ltac:(set_solver)).
    rewrite <- app_assoc in IH. destruct (add_constraints _ _ _ deps next failure) as [[?|] ?]; [done|].
    destruct IH as (? & d' & ? & ?). split; [done|]. exists d'. split; [by right|done].
  - assert (runtime d) as Hd. { unfold runtime. to_prop. destruct E. split; [done|]. by destruct (dep_scope d). }
    clear E.
    case_bool_decide as El; [split; [apply Hrem|exists d; split; [by left|auto]]|].
    case_bool_decide as Ec; [split; [apply Hrem|exists d; split; [by left|auto]]|].
    set (next1 := mkSolver _ _ _).
    assert (adding sel sel' name (handled ++ [d]) next1) as Hadd1
      by (apply add_constraint_adding; [done|done|apply Hreq; [by left|done]|done]).
    specialize (IH _ next1 Hadd1 Hpath ltac:(set_solver)).
    rewrite <- app_assoc in IH. destruct (add_constraints _ _ _ deps next1 failure) as [[?|] ?]; [done|].
    destruct IH as (? & d' & ? & ?). split; [done|]. exists d'. split; [by right|done].
Qed.

Lemma min_path_elem best cs : min_path best cs = best ∨ ∃ c, c ∈ cs ∧ min_path best cs = c_path c.
Proof.
  revert best. induction cs as [|c cs IH]; intros best; [by left|]. cbn [min_path].
  destruct (cmp_ltb (c_path c) best); destruct (IH (if true then c_path c else best)) as [E|(c' & ? & E)];
    try (right; exists c'; split; [by right|done]).
  - right. exists c. split; [by left|done].
  - destruct (IH best) as [E'|(c' & ? & E')]; [by left|right; exists c'; split; [by right|done]].
  - destruct (IH best) as [E'|(c'' & ? & E')]; [by left|right; exists c''; split; [by right|done]].
Qed.
Lemma origin_path_elem cs : cs ≠ [] → ∃ c, c ∈ cs ∧ origin_path cs = c_path c.
Proof.
  destruct cs as [|c cs]; [done|]. intros _. cbn [origin_path].
  destruct (min_path_elem (c_path c) cs) as [->|(c' & ? & ->)]; [exists c|exists c']; set_solver.
Qed.

Lemma all_match_iff st :
  all_match catalog sdk st = true ↔
  ∀ name i, selected st !! name = Some i →
    ∃ c, catalog !! i = Some c ∧ matches c (constraints_of st name) sdk = true.
Proof.
  unfold all_match. rewrite forallb_Forall, Forall_forall.
  destruct (sorted_keys_spec (selected st)) as [_ Hk]. setoid_rewrite Hk. split.
  - intros H name i Hi. specialize (H name (mk_is_Some _ _ Hi)). rewrite Hi in H.
    destruct (catalog !! i) as [c|]; [by exists c|done].
  - intros H name [i Hi]. rewrite Hi. destruct (H name i Hi) as (c & -> & ?). done.
Qed.

Lemma choices_of_spec name cs i :
  i ∈ choices_of catalog sdk name cs ↔
  ∃ c, catalog !! i = Some c ∧ m_name (pc_manifest c) = name ∧ matches c cs sdk = true.
Proof.
  unfold choices_of. rewrite elem_of_sort_by, list_elem_of_filter, elem_of_seq. unfold eligible. split.
  - intros [H _]. destruct (catalog !! i) as [c|]; [|done]. to_prop. by exists c.
  - intros (c & Hc & <- & Hm). rewrite Hc, Hm, bool_decide_true by done. split; [done|].
    apply lookup_lt_Some in Hc. lia.
Qed.

(** Before any of its dependencies is added, a choice only extends the selection. *)
Lemma select_adding st name i c :
  solver_inv st → selected st !! name = None → catalog !! i = Some c →
  adding (selected st) (<[name := i]> (selected st)) name [] (select st name i).
Proof.
  intros [Hsrc Hreq Hne He _] Hn Hc.
  assert (selected st ⊆ <[name := i]> (selected st)) as Hsub by by apply insert_subseteq.
  assert (∀ x d, requires (selected st) x d ∨ (x = name ∧ d ∈ [] ∧ runtime d) ↔ requires (selected st) x d) as Heq
    by set_solver.
  split; cbn [select selected constraints edges].
  - by rewrite Hn.
  - intros n k Hk. destruct (Hsrc n k Hk) as (? & [x Hx] & (rest & Hp) & Hl & Hch). split; [done|]. split.
    + exists x. by eapply requires_mono.
    + split; [by exists rest|]. split; [done|]. eapply chain_impl; [|exact Hch].
      intros. by eapply depends_mono.
  - intros x d ?%Heq. by eapply Hreq.
  - done.
  - intros x y s. rewrite He. by setoid_rewrite Heq.
Qed.

Lemma origin_root_path st name i :
  solver_inv st → selected st !! name = None → constraints_of st name ≠ [] →
  root_path (<[name := i]> (selected st)) (origin_path (constraints_of st name)) name.
Proof.
  intros Hinv Hn Hne. destruct (origin_path_elem _ Hne) as (k & Hk & ->).
  destruct (sv_source _ Hinv name k Hk) as (_ & _ & Hp & Hl & Hch). split; [done|]. split; [done|].
  eapply chain_impl; [|exact Hch]. intros. eapply depends_mono; [|done]. by apply insert_subseteq.
Qed.

Lemma unresolved_constraints st name :
  solver_inv st → unresolved st = Some name → constraints_of st name ≠ [].
Proof.
  intros Hinv ([cs Hcs] & _)%unresolved_Some. unfold constraints_of. rewrite Hcs. by eapply sv_nonempty.
Qed.

(** A choice whose constraints were added and that passes the re-check. *)
Lemma choice_inv st name i next failure failure' :
  solver_inv st → unresolved st = Some name → i ∈ choices_of catalog sdk name (constraints_of st name) →
  add_constraints target (origin_path (constraints_of st name)) name (candidate_dependencies catalog i)
    (select st name i) failure = (Some next, failure') →
  all_match catalog sdk next = true →
  solver_inv next ∧ selected next = <[name := i]> (selected st).
Proof.
  intros Hinv Hu (c & Hc & Hname & Hm)%choices_of_spec E Hall.
  pose proof (unresolved_constraints _ _ Hinv Hu) as Hne. apply unresolved_Some in Hu as [_ Hn].
  pose proof (add_constraints_spec (selected st) (<[name:=i]> (selected st))
    (origin_path (constraints_of st name)) name [] (candidate_dependencies catalog i) (select st name i) failure
    (select_adding st name i c Hinv Hn Hc) (origin_root_path st name i Hinv Hn Hne)) as Hadd.
  unfold candidate_dependencies in *. rewrite Hc in *. rewrite E in Hadd.
  destruct Hadd as [Hsel Hsrc Hreq Hnone He].
  { intros d Hd Hr. rewrite (requires_select _ _ _ c) by done. by right. }
  split; [|done]. cbn [app] in *.
  assert (∀ x d, requires (selected st) x d ∨ (x = name ∧ d ∈ m_dependencies (pc_manifest c) ∧ runtime d) ↔
    requires (selected next) x d) as Heq.
  { intros x d. by rewrite Hsel, (requires_select _ _ _ c). }
  rewrite all_match_iff in Hall. rewrite <- Hsel in Hsrc. split; try done.
  - intros x d ?%Heq. by apply Hreq in H.
  - intros x y s. rewrite He. by setoid_rewrite Heq.
  - intros n j Hj. destruct (Hall n j Hj) as (c' & Hc' & Hm'). exists c'. split; [done|].
    rewrite Hsel in Hj. apply lookup_insert_Some in Hj as [[<- <-]|[Hnn Hj]].
    + rewrite Hc in Hc'. simplify_eq. split; [done|]. split; [done|].
      destruct (constraints_of st (m_name (pc_manifest c'))) as [|k ks] eqn:Ek; [done|].
      destruct (sv_source _ Hinv (m_name (pc_manifest c')) k) as (Hk & [x Hx] & _); [rewrite Ek; by left|].
      destruct (Hreq x (c_dependency k)) as (k' & Hk' & _); [by left|]. rewrite Hk in Hk'.
      intros En. rewrite En in Hk'. by apply elem_of_nil in Hk'.
    + destruct (sv_selected _ Hinv n j Hj) as (c2 & Hc2 & ? & _ & Hne2). rewrite Hc' in Hc2. simplify_eq.
      split; [done|]. split; [done|].
      destruct (constraints_of st (m_name (pc_manifest c2))) as [|k ks] eqn:Ek; [done|].
      destruct (sv_source _ Hinv (m_name (pc_manifest c2)) k) as (Hk & [x Hx] & _); [rewrite Ek; by left|].
      destruct (Hreq x (c_dependency k)) as (k' & Hk' & _); [by left|]. rewrite Hk in Hk'.
      intros En. rewrite En in Hk'. by apply elem_of_nil in Hk'.
Qed.

(** ** The loop over the choices *)

Lemma try_choices_sound rec st name origin choices failure st' failure' :
  try_choices catalog sdk target rec st name origin choices failure = Some (Some st', failure') →
  ∃ i next f1 f2, i ∈ choices ∧
    add_constraints target origin name (candidate_dependencies catalog i) (select st name i) f1 = (Some next, f2) ∧
    all_match catalog sdk next = true ∧ rec next f2 = Some (Some st', failure').
Proof.
  revert failure. induction choices as [|i choices IH]; intros failure; cbn [try_choices]; [done|].
  assert (∀ f, try_choices catalog sdk target rec st name origin choices f = Some (Some st', failure') →
    ∃ j next f1 f2, j ∈ i :: choices ∧
      add_constraints target origin name (candidate_dependencies catalog j) (select st name j) f1 = (Some next, f2) ∧
      all_match catalog sdk next = true ∧ rec next f2 = Some (Some st', failure')) as Hrest.
  { intros f (j & next & f1 & f2 & ? & ?)%IH. exists j, next, f1, f2. split; [by right|done]. }
  destruct (add_constraints _ _ _ _ _ failure) as [[next|] f2] eqn:E; [|apply Hrest].
  destruct (all_match catalog sdk next) eqn:Ea; [|apply Hrest].
  destruct (rec next f2) as [[[st1|] f3]|] eqn:Er; [|apply Hrest|done].
  intros [= -> ->]. exists i, next, failure, f2. split; [by left|done].
Qed.

Lemma try_choices_total rec st name origin choices failure :
  (∀ i next f1 f2, i ∈ choices →
    add_constraints target origin name (candidate_dependencies catalog i) (select st name i) f1 = (Some next, f2) →
    all_match catalog sdk next = true → is_Some (rec next f2)) →
  is_Some (try_choices catalog sdk target rec st name origin choices failure).
Proof.
  revert failure. induction choices as [|i choices IH]; intros failure Hrec; cbn [try_choices]; [by eexists|].
  assert (∀ f, is_Some (try_choices catalog sdk target rec st name origin choices f)) as Hrest.
  { intros f. apply IH. intros j next f1 f2 Hj. apply Hrec. by right. }
  destruct (add_constraints _ _ _ _ _ failure) as [[next|] f2] eqn:E; [|apply Hrest].
  destruct (all_match catalog sdk next) eqn:Ea; [|apply Hrest].
  destruct (Hrec i next failure f2 ltac:(by left) E Ea) as [[[st1|] f3] Er]; rewrite Er; [by eexists|apply Hrest].
Qed.

(** Enough that one choice leads to success: the choices before it either
    succeed themselves or are passed over. *)
Lemma try_choices_complete rec st name origin choices failure i :
  (∀ j next f1 f2, j ∈ choices →
    add_constraints target origin name (candidate_dependencies catalog j) (select st name j) f1 = (Some next, f2) →
    all_match catalog sdk next = true → is_Some (rec next f2)) →
  i ∈ choices →
  (∀ f, ∃ next f1 st' f2,
    add_constraints target origin name (candidate_dependencies catalog i) (select st name i) f = (Some next, f1) ∧
    all_match catalog sdk next = true ∧ rec next f1 = Some (Some st', f2)) →
  ∃ st' f', try_choices catalog sdk target rec st name origin choices failure = Some (Some st', f').
Proof.
  intros Htotal Hi Hgood. revert failure Htotal.
  induction Hi as [i choices|i j choices Hi IH]; intros failure Htotal; cbn [try_choices].
  - destruct (Hgood failure) as (next & f1 & st' & f2 & -> & -> & ->). by eexists _, _.
  - assert (∀ f, ∃ st' f', try_choices catalog sdk target rec st name origin choices f = Some (Some st', f')) as Hrest.
    { intros f. apply (IH Hgood). intros k next f1 f2 Hk. apply Htotal. by right. }
    destruct (add_constraints _ _ _ _ _ failure) as [[next|] f2] eqn:E; [|apply Hrest].
    destruct (all_match catalog sdk next) eqn:Ea; [|apply Hrest].
    destruct (Htotal j next failure f2 ltac:(by left) E Ea) as [[[st1|] f3] Er]; rewrite Er; [|apply Hrest].
    by eexists _, _.
Qed.

(** ** The recursion *)

Lemma solve_sound fuel st failure st' failure' :
  solver_inv st → solve catalog sdk target fuel st failure = Some (Some st', failure') →
  solver_inv st' ∧ Resolves (selected st').
Proof.
  revert st failure. induction fuel as [|fuel IH]; intros st failure Hinv; cbn [solve]; [done|].
  destruct (unresolved st) as [name|] eqn:Eu.
  - case_bool_decide; [done|]. case_bool_decide; [done|].
    intros (i & next & f1 & f2 & Hi & Ea & Hm & Er)%try_choices_sound.
    destruct (choice_inv _ _ _ _ _ _ Hinv Eu Hi Ea Hm) as [Hnext _]. by eapply IH.
  - destruct (dependencyCycle (edges st)) eqn:Ec; [done|]. intros [= <- <-].
    split; [done|]. by apply finished_resolves.
Qed.

Lemma selected_bound st : solver_inv st → size (selected st) ≤ length catalog.
Proof.
  intros Hinv. rewrite <- size_dom. unfold size, set_size. cbn.
  rewrite <- (length_fmap (λ c, m_name (pc_manifest c)) catalog).
  apply submseteq_length, NoDup_submseteq; [apply NoDup_elements|].
  intros x Hx%elem_of_elements%elem_of_dom. destruct Hx as [i Hi].
  destruct (sv_selected _ Hinv x i Hi) as (c & Hc & <- & _). apply list_elem_of_fmap. exists c.
  split; [done|]. by eapply list_elem_of_lookup_2.
Qed.

Lemma solve_total fuel st failure :
  solver_inv st → length catalog - size (selected st) < fuel →
  is_Some (solve catalog sdk target fuel st failure).
Proof.
  revert st failure. induction fuel as [|fuel IH]; intros st failure Hinv Hf; [lia|]. cbn [solve].
  destruct (unresolved st) as [name|] eqn:Eu; [|by destruct (dependencyCycle _); eexists].
  case_bool_decide; [by eexists|]. case_bool_decide; [by eexists|].
  apply try_choices_total. intros i next f1 f2 Hi Ea Hm.
  destruct (choice_inv _ _ _ _ _ _ Hinv Eu Hi Ea Hm) as [Hnext Hsel]. apply IH; [done|].
  apply unresolved_Some in Eu as [_ Hn]. pose proof (selected_bound _ Hnext).
  rewrite Hsel in *. rewrite map_size_insert_None in * by done. lia.
Qed.

Lemma choice_requires sel name i c d :
  sel !! name = None → catalog !! i = Some c →
  d ∈ candidate_dependencies catalog i → runtime d → requires (<[name := i]> sel) name d.
Proof.
  intros Hn Hc Hd Hr. rewrite (requires_select _ _ _ c) by done. right. unfold candidate_dependencies in Hd.
  by rewrite Hc in Hd.
Qed.

(** ** Completeness *)

(** The packages of a path, in a resolution, are the root and selected ones. *)
Lemma path_length res path name y :
  Resolves res → root_path res path name → depends res name y → length path ≤ size res ∧ y ∉ path.
Proof.
  intros [Hc Hs Hn Hac] ((rest & Hp) & Hl & Hch) Hy.
  apply last_Some in Hl as (l & El).
  assert (chain (depends res) (path ++ [y])) as Hch'.
  { rewrite El in *. rewrite <- app_assoc. by apply chain_snoc. }
  pose proof (chain_NoDup _ _ Hac Hch') as Hnd. apply NoDup_app in Hnd as Hnd'.
  destruct Hnd' as (_ & Hdis & _). split; [|intros Hin; apply (Hdis y Hin); by left].
  rewrite Hp in *. cbn [length app] in *. apply NoDup_cons in Hnd as [_ Hnd].
  assert (length (rest ++ [y]) ≤ length (elements (dom res))) as Hle.
  { apply submseteq_length, NoDup_submseteq; [done|]. intros x Hx. apply elem_of_elements, elem_of_dom.
    assert (∃ w, depends res w x) as (w & d & Hr & <-).
    { clear -Hch' Hx. revert Hch'. generalize (m_name root). generalize dependent (rest ++ [y]). intros ks Hx.
      induction Hx as [x ks|x k ks Hx IH]; intros r; cbn; [intros [? _]; by exists r|].
      intros [_ Hch]. by apply (IH k). }
    destruct (Hs w d Hr) as (i & c & Hi & _). by exists i. }
  rewrite length_app in Hle. cbn in Hle. change (length (elements (dom res))) with (size (dom res)) in Hle.
  rewrite size_dom in Hle. lia.
Qed.

Lemma solve_complete res fuel st failure :
  Resolves res → size res < maxDependencyDepth → solver_inv st → selected st ⊆ res →
  length catalog - size (selected st) < fuel →
  ∃ st' failure', solve catalog sdk target fuel st failure = Some (Some st', failure').
Proof.
  intros Hres Hsize. revert st failure. induction fuel as [|fuel IH]; intros st failure Hinv Hsub Hf; [lia|].
  cbn [solve]. destruct (unresolved st) as [name|] eqn:Eu.
  2: { pose proof (dependencyCycle_spec (edges st)) as Hc. destruct (dependencyCycle (edges st)) as [path|].
       - destruct Hc as (x & mid & -> & Hch%chain_tc). exfalso. apply (rs_acyclic _ Hres x).
         eapply tc_subrel; [|exact Hch]. intros a b [s Hs]. apply (sv_edges _ Hinv) in Hs as (d & Hd & <- & _).
         exists d. split; [by eapply requires_mono|done].
       - by eexists _, _. }
  pose proof (unresolved_constraints _ _ Hinv Eu) as Hne.
  assert (∀ k, k ∈ constraints_of st name → ∃ x, requires res x (c_dependency k) ∧ dep_name (c_dependency k) = name) as Hk.
  { intros k Hk. destruct (sv_source _ Hinv name k Hk) as (? & [x Hx] & _). exists x. eauto using requires_mono. }
  assert (∃ i c, res !! name = Some i ∧ catalog !! i = Some c ∧ m_name (pc_manifest c) = name ∧
    matches c (constraints_of st name) sdk = true) as (i & c & Hi & Hc & Hname & Hm).
  { destruct (constraints_of st name) as [|k ks] eqn:Ek; [done|].
    destruct (Hk k ltac:(by left)) as (x & Hx & Hkn).
    destruct (rs_satisfied _ Hres x _ Hx) as (i & c & Hi & Hc & _). rewrite Hkn in Hi. exists i, c.
    destruct (rs_candidate _ Hres name i Hi) as (c' & Hc' & ? & ?). rewrite Hc in Hc'. simplify_eq.
    repeat split; try done. apply matches_iff. split; [done|]. intros k' Hk'.
    destruct (Hk k' Hk') as (x' & Hx' & Hkn'). destruct (rs_satisfied _ Hres x' _ Hx') as (i' & c2 & Hi' & Hc2 & ?).
    rewrite Hkn', Hi in Hi'. by simplify_eq. }
  apply unresolved_Some in Eu as Hn. destruct Hn as [_ Hn].
  assert (size (selected st) ≤ size res) as Hsz by by apply map_subseteq_size.
  rewrite bool_decide_false by (intros E; rewrite E in Hsz; revert Hsz Hsize; apply size_limits).
  rewrite bool_decide_false.
  2: { intros E. assert (i ∈ choices_of catalog sdk name (constraints_of st name)) as Hin
         by (apply choices_of_spec; by exists c). rewrite E in Hin. by apply elem_of_nil in Hin. }
  apply (try_choices_complete _ _ _ _ _ _ i).
  - intros j next f1 f2 Hj Ea Hma. destruct (choice_inv _ _ _ _ _ _ Hinv Eu Hj Ea Hma) as [Hnext Hsel].
    apply solve_total; [done|]. pose proof (selected_bound _ Hnext).
    rewrite Hsel in *. rewrite map_size_insert_None in * by done. lia.
  - apply choices_of_spec. by exists c.
  - intros f. assert (<[name:=i]> (selected st) ⊆ res) as Hsub'.
    { apply map_subseteq_spec. intros x j [[<- <-]|[_ Hj]]%lookup_insert_Some; [done|by eapply lookup_weaken]. }
    pose proof (add_constraints_spec (selected st) (<[name:=i]> (selected st))
      (origin_path (constraints_of st name)) name [] (candidate_dependencies catalog i) (select st name i) f
      (select_adding st name i c Hinv Hn Hc) (origin_root_path st name i Hinv Hn Hne)) as Hadd.
    destruct (add_constraints _ _ _ _ _ f) as [[next|] f1] eqn:Ea.
    + assert (all_match catalog sdk next = true) as Hma.
      { destruct Hadd as [Hsel Hsrc _ _ _]; [intros; by apply (choice_requires _ _ _ c)|].
        apply all_match_iff. intros n j Hj. rewrite Hsel in Hj.
        pose proof (lookup_weaken _ _ _ _ Hj Hsub') as Hj'.
        destruct (rs_candidate _ Hres n j Hj') as (c' & Hc' & _ & ?). exists c'. split; [done|].
        apply matches_iff. split; [done|]. intros k Hkn. destruct (Hsrc n k Hkn) as (<- & [x Hx] & _).
        destruct (rs_satisfied _ Hres x (c_dependency k)) as (i2 & c2 & Hi2 & Hc2 & ?);
          [by eapply requires_mono|]. rewrite Hj' in Hi2. by simplify_eq. }
      assert (i ∈ choices_of catalog sdk name (constraints_of st name)) as Hic by (apply choices_of_spec; by exists c).
      destruct (choice_inv _ _ _ _ _ _ Hinv Eu Hic Ea Hma) as [Hnext Hsel].
      destruct (IH next f1 Hnext) as (st' & f2 & E).
      { by rewrite Hsel. }
      { pose proof (selected_bound _ Hnext). rewrite Hsel in *. rewrite map_size_insert_None in * by done. lia. }
      by exists next, f1, st', f2.
    + exfalso. destruct Hadd as (_ & d & Hd & Hrun & Hbad); [intros; by apply (choice_requires _ _ _ c)|].
      destruct (path_length res (origin_path (constraints_of st name)) name (dep_name d) Hres) as [Hlen Hnot].
      * destruct (origin_root_path st name i Hinv Hn Hne) as (? & ? & Hch). split; [done|]. split; [done|].
        eapply chain_impl; [|exact Hch]. intros. by eapply depends_mono.
      * exists d. split; [|done]. eapply requires_mono; [exact Hsub'|]. by apply (choice_requires _ _ _ c).
      * destruct Hbad as [Hbad|Hbad]; [lia|done].
Qed.
End resolution.

(** ** The start *)

Section start.
Context (catalog : list PackageCandidate) (sdk : PackageVersion) (target : TargetPlatform).
Context (root : PackageManifest).

Lemma requires_empty x d :
  requires catalog target root ∅ x d ↔ x = m_name root ∧ d ∈ m_dependencies root ∧ active d target = true.
Proof. unfold requires. split; [intros [?|(i & c & Hi & _)]; [done|by rewrite lookup_empty in Hi]|by left]. Qed.

(** After some of the root's dependencies. *)
Record starting (handled : list PackageDependency) (st : SolverState) : Prop := {
  st_selected : selected st = ∅;
  st_source : ∀ n c, c ∈ constraints_of st n →
    dep_name (c_dependency c) = n ∧ c_dependency c ∈ handled ∧ active (c_dependency c) target = true ∧
    c_path c = [m_name root; n];
  st_required : ∀ d, d ∈ handled → active d target = true →
    ∃ c, c ∈ constraints_of st (dep_name d) ∧ c_dependency c = d;
  st_nonempty : ∀ n cs, constraints st !! n = Some cs → cs ≠ [];
  st_edges : ∀ x y s, (x, (y, s)) ∈ edges st ↔
    x = m_name root ∧ ∃ d, d ∈ handled ∧ active d target = true ∧ dep_name d = y ∧ dep_scope d = s;
}.

Lemma root_state_starting : starting (m_dependencies root) (root_state root target).
Proof.
  unfold root_state. apply (foldl_snoc_ind _ (λ st handled, starting handled st)).
  - split; cbn; try done.
    + intros n c. unfold constraints_of. cbn. rewrite lookup_empty. by intros ?%elem_of_nil.
    + by intros d ?%elem_of_nil.
    + set_solver.
  - intros st handled d [Hsel Hsrc Hreq Hne He]. destruct (active d target) eqn:Ea.
    + split; [done|..].
      * intros n c. rewrite constraints_of_insert. case_decide as E.
        -- rewrite elem_of_app. intros [Hc| ->%list_elem_of_singleton].
           ++ rewrite <- E. destruct (Hsrc _ _ Hc) as (? & ? & ? & ?). set_solver.
           ++ cbn. rewrite elem_of_app. split; [done|]. split; [right; by left|]. by rewrite E.
        -- intros Hc. destruct (Hsrc _ _ Hc) as (? & ? & ? & ?). rewrite elem_of_app. auto.
      * intros d' [Hd'| ->%list_elem_of_singleton]%elem_of_app Ha.
        -- destruct (Hreq d' Hd' Ha) as (c & Hc & Ec). exists c. split; [|done]. rewrite constraints_of_insert.
           case_decide as E; [|done]. rewrite E, elem_of_app. by left.
        -- eexists. rewrite constraints_of_insert, decide_True by done.
           split; [apply elem_of_app; right; by left|done].
      * intros n cs. cbn. rewrite lookup_insert_Some. intros [[_ <-]|[_ ?]]; [by destruct (constraints_of _ _)|eauto].
      * intros x y s. cbn. rewrite elem_of_union, elem_of_singleton, He. split.
        -- intros [[= -> -> ->]|(-> & d' & ? & ?)]; (split; [done|]); [exists d|exists d'];
             rewrite elem_of_app, list_elem_of_singleton; tauto.
        -- intros (-> & d' & [?| ->%list_elem_of_singleton]%elem_of_app & ? & <- & <-); [right|by left].
           split; [done|]. by exists d'.
    + assert (∀ d', d' ∈ handled ++ [d] ∧ active d' target = true ↔ d' ∈ handled ∧ active d' target = true) as Heq.
      { intros d'. rewrite elem_of_app, list_elem_of_singleton. split; [|tauto].
        intros [[?| ->] ?]; [done|congruence]. }
      split; try done.
      * intros n c Hc. destruct (Hsrc _ _ Hc) as (? & ? & ? & ?). rewrite elem_of_app. auto.
      * intros d' Hd' Ha. apply Hreq; [|done]. by apply Heq.
      * intros x y s. rewrite He. split; intros (-> & d' & Hd' & Ha & ?); (split; [done|]); exists d'.
        -- rewrite elem_of_app. auto.
        -- destruct (proj1 (Heq d') (conj Hd' Ha)). auto.
Qed.

Lemma root_state_inv : solver_inv catalog sdk target root (root_state root target).
Proof.
  destruct root_state_starting as [Hsel Hsrc Hreq Hne He].
  split; rewrite ?Hsel.
  - intros n c Hc. destruct (Hsrc n c Hc) as (? & ? & ? & ->). split; [done|].
    split; [exists (m_name root); by apply requires_empty|]. split; [by exists [n]|]. split; [done|].
    split; [|done]. exists (c_dependency c). by rewrite requires_empty.
  - intros x d Hd. rewrite requires_empty in Hd. destruct Hd as (_ & ? & ?). by apply Hreq.
  - done.
  - intros x y s. rewrite He. split.
    + intros (-> & d & ? & ? & ?). exists d. by rewrite requires_empty.
    + intros (d & (-> & ? & ?)%requires_empty & ? & ?). split; [done|]. by exists d.
  - intros n i Hi. by rewrite lookup_empty in Hi.
Qed.
End start.

(** ** The lock of a resolution *)

Section locked.
Context (catalog : list PackageCandidate) (sdk : PackageVersion) (target : TargetPlatform).
Context (root : PackageManifest) (st : SolverState).
Context (Hinv : solver_inv catalog sdk target root st) (Hres : Resolves catalog sdk target root (selected st)).
(** Every dependency location is one the manifest parser accepts. *)
Context (Hroot : ∀ d, d ∈ m_dependencies root → validLocation (dep_kind d) (dep_location d) = true).
Context (Hcatalog : ∀ c d, c ∈ catalog → d ∈ m_dependencies (pc_manifest c) →
  validLocation (dep_kind d) (dep_location d) = true).
(** The root names a package in one scope only. *)
Context (Hscope : ∀ d d', d ∈ m_dependencies root → d' ∈ m_dependencies root →
  active d target = true → active d' target = true → dep_name d = dep_name d' → dep_scope d = dep_scope d').

Let lock := resolution_lock_of catalog root target st.

Lemma depends_edges x y : depends catalog target root (selected st) x y ↔ edge_in (edges st) x y.
Proof. unfold depends, edge_in. setoid_rewrite (sv_edges _ _ _ _ _ Hinv). naive_solver. Qed.

Lemma lock_keys x y : edge (edge_key <$> l_edges lock) x y ↔ depends catalog target root (selected st) x y.
Proof.
  rewrite depends_edges, <- edge_pair_list. unfold lock, resolution_lock_of, edge. cbn [l_edges].
  change (map ?f ?l) with (f <$> l). by rewrite <- list_fmap_compose.
Qed.

Lemma lock_packages_elem p :
  p ∈ l_packages lock ↔ ∃ i c, selected st !! lp_name p = Some i ∧ catalog !! i = Some c ∧
    p = mkLockedPackage (lp_name p) (m_version (pc_manifest c)) (pc_digest c) (pc_kind c) (pc_location c).
Proof.
  unfold lock, resolution_lock_of. cbn [l_packages]. rewrite list_elem_of_omap.
  destruct (sorted_keys_spec (selected st)) as [_ Hk]. setoid_rewrite Hk. split.
  - intros (x & [i Hi] & E). rewrite Hi in E. cbn in E. destruct (catalog !! i) as [c|] eqn:Hc; [|done].
    injection E as <-. by exists i, c.
  - intros (i & c & Hi & Hc & ->). cbn in *. exists (lp_name p). split; [by eexists|]. rewrite Hi. cbn. by rewrite Hc.
Qed.

Lemma locked_names_elem x : x ∈ locked_names lock ↔ is_Some (selected st !! x).
Proof.
  unfold locked_names. rewrite list_elem_of_fmap. split.
  - intros (p & -> & (i & c & Hi & _)%lock_packages_elem). by eexists.
  - intros [i Hi]. destruct (rs_candidate _ _ _ _ _ Hres x i Hi) as (c & Hc & _).
    eexists (mkLockedPackage x _ _ _ _). split; [done|]. apply lock_packages_elem. by exists i, c.
Qed.

(** Where a selected package comes from. *)
Lemma selected_source x i :
  selected st !! x = Some i → ∃ w d c, requires catalog target root (selected st) w d ∧ dep_name d = x ∧
    catalog !! i = Some c ∧ satisfies c d.
Proof.
  intros Hi. destruct (sv_selected _ _ _ _ _ Hinv x i Hi) as (c & Hc & _ & Hm & Hne).
  apply matches_iff in Hm as [_ Hm].
  destruct (constraints_of st x) as [|k ks] eqn:E; [done|].
  destruct (sv_source _ _ _ _ _ Hinv x k) as (Hk & [w Hw] & _); [rewrite E; by left|].
  exists w, (c_dependency k), c. split; [done|]. split; [done|]. split; [done|]. apply Hm. by left.
Qed.

Lemma requires_node w d :
  requires catalog target root (selected st) w d →
  rtc (depends catalog target root (selected st)) (m_name root) w ∧
  validLocation (dep_kind d) (dep_location d) = true.
Proof.
  intros [(-> & ? & ?)|(i & c & Hi & Hc & Hd & _)]; [split; [apply rtc_refl|by apply Hroot]|].
  split; [by eapply rs_needed|]. eapply Hcatalog; [|done]. by eapply list_elem_of_lookup_2.
Qed.

Lemma root_not_selected : selected st !! m_name root = None.
Proof.
  destruct (selected st !! m_name root) as [i|] eqn:Hi; [|done]. exfalso.
  destruct (selected_source _ _ Hi) as (w & d & c & Hw & Hn & _). destruct (requires_node w d Hw) as [Hr _].
  apply (rs_acyclic _ _ _ _ _ Hres (m_name root)). eapply tc_rtc_l; [exact Hr|]. apply tc_once. by exists d.
Qed.

Lemma lock_edge_elem e :
  e ∈ l_edges lock ↔ ∃ d, requires catalog target root (selected st) (e_parent e) d ∧
    dep_name d = e_dependency e ∧ dep_scope d = e_scope e.
Proof.
  unfold lock, resolution_lock_of. cbn [l_edges]. rewrite <- (sv_edges _ _ _ _ _ Hinv), <- elem_of_edge_list.
  change (map ?f ?l) with (f <$> l). rewrite list_elem_of_fmap. split.
  - by intros ([x [y s]] & -> & ?).
  - intros H. exists (e_parent e, (e_dependency e, e_scope e)). by destruct e.
Qed.

Lemma resolution_lock_valid : LockGraphValid lock.
Proof.
  split.
  - intros p (i & c & Hi & Hc & ->)%lock_packages_elem. cbn. split.
    + intros E. rewrite E, root_not_selected in Hi. done.
    + destruct (selected_source _ _ Hi) as (w & d & c' & Hw & _ & Hc' & _ & Hkind & Hloc).
      rewrite Hc in Hc'. simplify_eq. rewrite <- Hkind, <- Hloc. by apply requires_node in Hw as [_ ?].
  - intros e (d & Hd & <- & <-)%lock_edge_elem. rewrite !locked_names_elem.
    change (l_rootName lock) with (m_name root). split; [|split].
    + destruct Hd as [(-> & _)|(i & c & Hi & _)]; [by left|right; by eexists].
    + destruct (rs_satisfied _ _ _ _ _ Hres _ _ Hd) as (i & c & Hi & _). by eexists.
    + destruct Hd as [(-> & _)|(i & c & _ & _ & _ & _ & ->)]; done.
  - apply NoDup_fmap_2_strong.
    + intros e e' (d & Hd & Hdn & Hds)%lock_edge_elem (d' & Hd' & Hdn' & Hds')%lock_edge_elem E.
      injection E as Ep Ed. destruct e as [p y s], e' as [p' y' s']. cbn in *. subst p' y y' s s'. rewrite Ed. f_equal.
      destruct Hd as [(? & ? & ?)|(i & c & Hi & _ & _ & _ & Hr)], Hd' as [(? & ? & ?)|(i' & c' & Hi' & _ & _ & _ & Hr')].
      * by apply Hscope.
      * subst p. by rewrite root_not_selected in Hi'.
      * subst p. by rewrite root_not_selected in Hi.
      * by rewrite Hr, Hr'.
    + unfold lock, resolution_lock_of. cbn [l_edges]. change (map ?f ?l) with (f <$> l).
      apply NoDup_fmap_2; [by intros [? [? ?]] [? [? ?]] [=]; simplify_eq/=|].
      unfold edge_list. rewrite sort_by_perm. apply NoDup_elements.
  - intros x [i Hi]%locked_names_elem. eapply rtc_subrel; [|by eapply rs_needed].
    intros ? ?. by rewrite lock_keys.
  - intros x Hx. apply (rs_acyclic _ _ _ _ _ Hres x). eapply tc_subrel; [|exact Hx].
    intros ? ?. by rewrite lock_keys.
Qed.
End locked.

(** Only the root, the packages and the edges of a lock matter for its graph. *)
Lemma lock_valid_ext lock lock' :
  l_rootName lock = l_rootName lock' → l_packages lock = l_packages lock' → l_edges lock = l_edges lock' →
  LockGraphValid lock → LockGraphValid lock'.
Proof.
  intros E1 E2 E3 []. unfold locked_names in *.
  split; unfold locked_names; rewrite <- ?E1, <- ?E2, <- ?E3; done.
Qed.

Lemma metadata_keeps fs target path lock root lock' errors :
  lockRootPackageMetadata fs target path lock root = Some (lock', errors) →
  l_rootName lock = l_rootName lock' ∧ l_packages lock = l_packages lock' ∧ l_edges lock = l_edges lock'.
Proof.
  unfold lockRootPackageMetadata.
  destruct (if m_nativeLibrary root then _ else _); [|done]. by intros [= <- _].
Qed.

(** Where a returned resolution comes from. *)
Lemma resolve_returned fs path root sdk target catalog r res :
  resolvePackageGraph fs path root sdk target catalog = Returned r → result_value r = Some res →
  ∃ st failure lock,
    solve (sort_by candidate_order catalog) sdk target (solve_fuel (sort_by candidate_order catalog))
      (root_state root target) None = Some (Some st, failure) ∧
    lockRootPackageMetadata fs target path
      (resolution_lock_of (sort_by candidate_order catalog) root target st) root = Some (lock, []) ∧
    res = mkResolution lock (resolution_candidates (sort_by candidate_order catalog) st).
Proof.
  unfold resolvePackageGraph. destruct (negb _); [intros [= <-]; done|]. destruct (_ <? _)%N; [intros [= <-]; done|].
  destruct (list_find _ _) as [[? ?]|]; [intros [= <-]; done|].
  destruct (adjacent_duplicate _); [intros [= <-]; done|].
  destruct (solve _ _ _ _ _ _) as [[[st|] failure]|]; [|destruct failure; [intros [= <-]; done|done]|done].
  destruct (lockRootPackageMetadata _ _ _ _ _) as [[lock [|]]|] eqn:E; [|intros [= <-]; done|done].
  intros [= <-]. cbn. intros [= <-]. by exists st, failure, lock.
Qed.

(** ** Theorems *)

(** C3: the backtracking search ends for every catalog and root manifest: each
    recursive call selects one more package name of the catalog. *)
Theorem resolver_terminates (catalog : list PackageCandidate) (sdk : PackageVersion)
    (target : TargetPlatform) (root : PackageManifest) (failure : option Failure) :
  ∃ result, solve catalog sdk target (solve_fuel catalog) (root_state root target) failure = Some result.
Proof.
  destruct (solve_total catalog sdk target root (solve_fuel catalog) (root_state root target) failure)
    as [r Hr]; [apply root_state_inv|unfold solve_fuel; lia|by exists r].
Qed.

(** C1: a successful search is a resolution: every selected index is a candidate of
    the selected name that accepts the SDK, every active dependency of the root and
    every active runtime dependency of a selected package is satisfied by the
    selected candidate in version, source kind and location, every selected package
    is reachable from the root, and the dependencies have no cycle. *)
Theorem resolver_sound (catalog : list PackageCandidate) (sdk : PackageVersion)
    (target : TargetPlatform) (root : PackageManifest) (fuel : nat) (st : SolverState)
    (failure failure' : option Failure) :
  solve catalog sdk target fuel (root_state root target) failure = Some (Some st, failure') →
  Resolves catalog sdk target root (selected st).
Proof. intros H. by eapply solve_sound, H; apply root_state_inv. Qed.

(** C2: the search is complete: whenever some resolution with fewer packages than
    the depth limit of 256 exists, the search succeeds, whatever order the choices
    are tried in and however many wrong choices come first. *)
Theorem resolver_complete (catalog : list PackageCandidate) (sdk : PackageVersion)
    (target : TargetPlatform) (root : PackageManifest) (sel : gmap bytes nat) (failure : option Failure) :
  Resolves catalog sdk target root sel → size sel < maxDependencyDepth →
  ∃ st failure', solve catalog sdk target (solve_fuel catalog) (root_state root target) failure =
    Some (Some st, failure').
Proof.
  intros Hsel Hsize. apply (solve_complete catalog sdk target root sel); try done.
  - apply root_state_inv.
  - rewrite (st_selected _ _ _ _ (root_state_starting target root)). apply map_empty_subseteq.
  - unfold solve_fuel. lia.
Qed.

(** C4: the lock the resolver returns passes the lock validation: with dependency
    locations the manifest parser accepts, and no package that the root names in
    two scopes at once, packages, edges, reachability and acyclicity are what
    [validateLockGraph] demands. *)
Theorem resolver_lock_valid (fs : FileSystem) (path lockPath : bytes) (root : PackageManifest)
    (sdk : PackageVersion) (target : TargetPlatform) (catalog : list PackageCandidate)
    (r : PackageParseResult PackageResolution) (res : PackageResolution) :
  resolvePackageGraph fs path root sdk target catalog = Returned r → result_value r = Some res →
  (∀ d, d ∈ m_dependencies root → validLocation (dep_kind d) (dep_location d) = true) →
  (∀ c d, c ∈ catalog → d ∈ m_dependencies (pc_manifest c) → validLocation (dep_kind d) (dep_location d) = true) →
  (∀ d d', d ∈ m_dependencies root → d' ∈ m_dependencies root → active d target = true →
     active d' target = true → dep_name d = dep_name d' → dep_scope d = dep_scope d') →
  validateLockGraph lockPath (resolution_lock res) [] = (true, []).
Proof.
  intros Hr Hv Hroot Hcat Hscope. destruct (resolve_returned _ _ _ _ _ _ _ _ Hr Hv) as (st & f & lock & Hs & Hm & ->).
  apply solve_sound with (root := root) in Hs as [Hinv Hres]; [|apply root_state_inv].
  apply metadata_keeps in Hm as (E1 & E2 & E3).
  assert (LockGraphValid lock) as Hl.
  { eapply lock_valid_ext; [exact E1|exact E2|exact E3|]. apply (resolution_lock_valid _ sdk); try done.
    intros c d Hc. apply Hcat. by apply elem_of_sort_by in Hc. }
  cbn. by destruct (validateLockGraph_holds lockPath lock []) as [[_ ?]|[? _]].
Qed.

(** ** Examples and witnesses *)

Definition release (major_ minor_ patch_ : N) : PackageVersion := mkVersion major_ minor_ patch_ [] [].
Definition depend (name : bytes) (r : PackageRequirement) (t : option TargetSelector)
    (scope : PackageDependencyScope) : PackageDependency :=
  mkDependency name r PackageLocationKind.Registry (lit "main") t scope.
Definition manifest_with (name : bytes) (version : PackageVersion) (dependencies : list PackageDependency) : PackageManifest :=
  mkManifest name version 1 false (mkRequirement Any emptyVersion) CodeStandard.Standard false []
    (lit "src") (Some (lit "tests")) dependencies false None None [] [] [].
Definition candidate_with (name : bytes) (version : PackageVersion) (dependencies : list PackageDependency) : PackageCandidate :=
  mkCandidate (manifest_with name version dependencies) example_digest PackageLocationKind.Registry (lit "main") [].
Definition caret (v : PackageVersion) : PackageRequirement := mkRequirement Caret v.
Definition exact (v : PackageVersion) : PackageRequirement := mkRequirement Exact v.

(** The newest [b] asks for an [a] below the root's requirement, so that the
    search has to step back to the older [b]. *)
Definition backtrack_root : PackageManifest :=
  manifest_with (lit "app") (release 1 0 0)
    [depend (lit "a") (caret (release 1 0 0)) None PackageDependencyScope.Runtime;
     depend (lit "b") (caret (release 1 0 0)) None PackageDependencyScope.Runtime].
Definition backtrack_catalog : list PackageCandidate :=
  [candidate_with (lit "a") (release 1 0 0) [];
   candidate_with (lit "b") (release 1 0 0) [depend (lit "a") (caret (release 1 0 0)) None PackageDependencyScope.Runtime];
   candidate_with (lit "b") (release 1 1 0) [depend (lit "a") (exact (release 0 5 0)) None PackageDependencyScope.Runtime]].
Definition no_files : FileSystem := mkFileSystem (λ _, false) Some (λ _, mkResult None []).

Definition backtrack_state : SolverState :=
  match solve backtrack_catalog (release 1 0 0) Linux (solve_fuel backtrack_catalog)
          (root_state backtrack_root Linux) None with
  | Some (Some st, _) => st
  | _ => root_state backtrack_root Linux
  end.

Lemma backtrack_solved :
  solve backtrack_catalog (release 1 0 0) Linux (solve_fuel backtrack_catalog)
    (root_state backtrack_root Linux) None = Some (Some backtrack_state, None).
Proof. vm_compute. reflexivity. Qed.

Lemma backtrack_resolves :
  Resolves backtrack_catalog (release 1 0 0) Linux backtrack_root (selected backtrack_state).
Proof. eapply solve_sound, backtrack_solved. apply root_state_inv. Qed.

Lemma resolver_sound_witness :
  selected backtrack_state !! lit "b" = Some 1 ∧
  Resolves backtrack_catalog (release 1 0 0) Linux backtrack_root (selected backtrack_state).
Proof.
  split; [vm_compute; reflexivity|].
  exact (resolver_sound backtrack_catalog (release 1 0 0) Linux backtrack_root (solve_fuel backtrack_catalog)
    backtrack_state None None backtrack_solved).
Defined.

Lemma resolver_complete_witness :
  ∃ st failure', solve backtrack_catalog (release 1 0 0) Linux (solve_fuel backtrack_catalog)
    (root_state backtrack_root Linux) None = Some (Some st, failure').
Proof.
  apply (resolver_complete backtrack_catalog (release 1 0 0) Linux backtrack_root (selected backtrack_state)).
  - exact backtrack_resolves.
  - apply Nat.ltb_lt. vm_compute. reflexivity.
Defined.

Definition backtrack_result : PackageParseResult PackageResolution :=
  match resolvePackageGraph no_files (lit "foundation.package") backtrack_root (release 1 0 0) Linux backtrack_catalog with
  | Returned r => r
  | _ => mkResult None []
  end.
Definition backtrack_resolution : PackageResolution :=
  default (mkResolution emptyLock []) (result_value backtrack_result).

Lemma backtrack_returned :
  resolvePackageGraph no_files (lit "foundation.package") backtrack_root (release 1 0 0) Linux backtrack_catalog =
  Returned backtrack_result ∧ result_value backtrack_result = Some backtrack_resolution.
Proof. split; vm_compute; reflexivity. Qed.

Lemma registry_locations (l : list PackageDependency) :
  forallb (λ d, validLocation (dep_kind d) (dep_location d)) l = true →
  ∀ d, d ∈ l → validLocation (dep_kind d) (dep_location d) = true.
Proof. rewrite forallb_Forall, Forall_forall. auto. Qed.

Lemma resolver_lock_valid_witness :
  length (l_edges (resolution_lock backtrack_resolution)) = 3 ∧
  validateLockGraph (lit "foundation.lock") (resolution_lock backtrack_resolution) [] = (true, []).
Proof.
  split; [vm_compute; reflexivity|].
  apply (resolver_lock_valid no_files (lit "foundation.package") (lit "foundation.lock") backtrack_root
    (release 1 0 0) Linux backtrack_catalog backtrack_result backtrack_resolution).
  - apply backtrack_returned.
  - apply backtrack_returned.
  - apply registry_locations. reflexivity.
  - intros c d Hc. revert d. apply registry_locations.
    repeat (apply elem_of_cons in Hc as [->|Hc]; [reflexivity|]). by apply elem_of_nil in Hc.
  - intros d d' Hd Hd'. cbn in Hd, Hd'. repeat (apply elem_of_cons in Hd as [->|Hd]; [|]);
      [..|by apply elem_of_nil in Hd]; repeat (apply elem_of_cons in Hd' as [->|Hd']; [done|]);
      by apply elem_of_nil in Hd'.
Defined.

(** A conflict between an earlier choice and a later package's dependency is
    lost: when every choice fails only in the re-check of the selections, no
    failure is remembered, and reporting the result reads an empty optional.  Here
    the root needs [a ^1.0.0] and [b ^1.0.0] and the only [b] needs [a 0.5.0]. *)
Theorem resolver_conflict_undefined (fs : FileSystem) (path : bytes) :
  let root := backtrack_root in
  let catalog := [candidate_with (lit "a") (release 1 0 0) [];
                  candidate_with (lit "b") (release 1 1 0)
                    [depend (lit "a") (exact (release 0 5 0)) None PackageDependencyScope.Runtime]] in
  resolvePackageGraph fs path root (release 1 0 0) Linux catalog = Undefined ∧
  solve catalog (release 1 0 0) Linux (solve_fuel catalog) (root_state root Linux) None = Some (None, None).
Proof. split; vm_compute; reflexivity. Qed.

(** a root that names one package twice, for its targets [linux] and [hosted]
    and in both scopes, resolves for Linux to a lock with two edges between the same
    packages, and the lock validation refuses that lock. *)
Theorem resolver_two_scopes_refused :
  let root := manifest_with (lit "app") (release 1 0 0)
    [depend (lit "a") (caret (release 1 0 0)) (Some TargetSelector.Linux) PackageDependencyScope.Runtime;
     depend (lit "a") (caret (release 1 0 0)) (Some TargetSelector.Hosted) PackageDependencyScope.Test] in
  ∃ r res, resolvePackageGraph no_files (lit "foundation.package") root (release 1 0 0) Linux
      [candidate_with (lit "a") (release 1 0 0) []] = Returned r ∧ result_value r = Some res ∧
    validateLockGraph (lit "foundation.lock") (resolution_lock res) [] =
      (false, [lock_error (lit "foundation.lock") (lit "lock contains an unknown or duplicate package edge")]).
Proof. eexists _, _. split; [vm_compute; reflexivity|]. split; [reflexivity|]. vm_compute. reflexivity. Qed.
