(* ===== verification/Diagnostics.v ===== *)
(** * Diagnostics (compiler/src/diagnostic.cpp)

    The bounded log of errors and warnings every phase reports into, and its
    rendering with source excerpts. *)
From S2P Require Import Prelude.

Record SourceSpan := mkSpan {
  span_offset : nat;
  span_length : nat;
  span_line : nat;
  span_column : nat;
  span_source : nat;
}.

Inductive DiagnosticSeverity := SevError | SevWarning.
#[global] Instance diagnostic_severity_eq_dec : EqDecision DiagnosticSeverity.
Proof. solve_decision. Defined.

Record Diagnostic := mkDiagnostic {
  diag_code : bytes;
  diag_message : bytes;
  diag_span : SourceSpan;
  diag_severity : DiagnosticSeverity;
}.

Record DiagnosticSource := mkDiagnosticSource {
  ds_path : bytes;
  ds_contents : bytes;
  ds_identity : bytes;
  ds_packageName : bytes;
}.

Definition maxExcerptWidth : nat := 120.
Definition markerContext : nat := 40.
Definition maxMarkerWidth : nat := 80.
Definition maxDiagnostics : nat := 100.

(** ** The log *)

Abbreviation Diagnostics := (list Diagnostic).

Definition add (diagnostics : Diagnostics) (severity : DiagnosticSeverity) (code message : bytes)
    (span : SourceSpan) : Diagnostics :=
  if bool_decide (maxDiagnostics < length diagnostics) then diagnostics
  else if bool_decide (length diagnostics = maxDiagnostics) then
    diagnostics ++ [mkDiagnostic (lit "FDN0000") (lit "too many diagnostics") span severity]
  else diagnostics ++ [mkDiagnostic code message span severity].

Definition error (diagnostics : Diagnostics) (code message : bytes) (span : SourceSpan) : Diagnostics :=
  add diagnostics SevError code message span.
Definition warning (diagnostics : Diagnostics) (code message : bytes) (span : SourceSpan) : Diagnostics :=
  add diagnostics SevWarning code message span.

Definition hasErrors (diagnostics : Diagnostics) : bool :=
  existsb (λ d, bool_decide (diag_severity d = SevError)) diagnostics.
Definition empty (diagnostics : Diagnostics) : bool := bool_decide (diagnostics = []).

(** ** [renderDiagnostics] *)

(** [rfind('\n', last)]: the last occurrence at or before [last]. *)
Fixpoint rfind_newline (l : bytes) (last_ : nat) : option nat :=
  if bool_decide (l !! last_ = Some newline) then Some last_
  else match last_ with O => None | S last_ => rfind_newline l last_ end.
(** [find('\n', first)]. *)
Definition find_newline (l : bytes) (first : nat) : option nat :=
  (Nat.add first) <$> find_byte newline (drop first l).

(** The part of the source line that is shown, and where its marker goes. *)
Record Excerpt := mkExcerpt {
  ex_text : bytes;
  ex_prefix : bool;
  ex_suffix : bool;
  ex_column : nat;
  ex_marker : nat;
}.

Definition line_bounds (source : bytes) (boundedOffset : nat) : nat * nat :=
  let start := if bool_decide (boundedOffset = 0) then None else rfind_newline source (boundedOffset - 1) in
  let lineStart := match start with None => 0 | Some start => start + 1 end in
  let lineEnd := default (length source) (find_newline source boundedOffset) in
  (lineStart, lineEnd).

Definition excerpt (source : bytes) (span : SourceSpan) : Excerpt :=
  let boundedOffset := Nat.min (span_offset span) (length source) in
  let '(lineStart, lineEnd) := line_bounds source boundedOffset in
  let line := take (lineEnd - lineStart) (drop lineStart source) in
  let offset := Nat.min boundedOffset lineEnd - lineStart in
  let maxStart := if bool_decide (maxExcerptWidth < length line) then length line - maxExcerptWidth else 0 in
  let desiredStart := if bool_decide (markerContext < offset) then offset - markerContext else 0 in
  let excerptStart := Nat.min desiredStart maxStart in
  let excerptLength := Nat.min maxExcerptWidth (length line - excerptStart) in
  let hasPrefix := bool_decide (excerptStart ≠ 0) in
  mkExcerpt (take excerptLength (drop excerptStart line)) hasPrefix
    (bool_decide (excerptStart + excerptLength ≠ length line))
    (offset - excerptStart + (if hasPrefix then 3 else 0))
    (Nat.max 1 (Nat.min (span_length span) maxMarkerWidth)).

Definition severity_name (severity : DiagnosticSeverity) : bytes :=
  match severity with SevError => lit "error" | SevWarning => lit "warning" end.

Definition nat_text (n : nat) : bytes := to_string (N.of_nat n).

Definition render_headline (path : bytes) (d : Diagnostic) : bytes :=
  path ++ lit ":" ++ nat_text (span_line (diag_span d)) ++ lit ":" ++
  nat_text (span_column (diag_span d)) ++ lit ": " ++ severity_name (diag_severity d) ++ lit "[" ++
  diag_code d ++ lit "]: " ++ diag_message d ++ [newline].

Definition render_excerpt (line : nat) (e : Excerpt) : bytes :=
  lit "  " ++ nat_text line ++ lit " | " ++ (if ex_prefix e then lit "..." else []) ++ ex_text e ++
  (if ex_suffix e then lit "..." else []) ++ [newline] ++
  lit "    | " ++ replicate (ex_column e) space ++ lit "^" ++
  (if bool_decide (1 < ex_marker e) then replicate (ex_marker e - 1) "~"%char else []) ++ [newline].

Definition renderDiagnostics (path source : bytes) (diagnostics : Diagnostics) : bytes :=
  concat (map (λ d, render_headline path d ++
                    render_excerpt (span_line (diag_span d)) (excerpt source (diag_span d))) diagnostics).

(** The overload for a project: each diagnostic with the source it points into. *)
Definition renderProjectDiagnostics (sources : list DiagnosticSource) (diagnostics : Diagnostics) : bytes :=
  concat (map (λ d,
    match sources !! span_source (diag_span d) with
    | Some source =>
        let current :=
          match diag_severity d with
          | SevError => error [] (diag_code d) (diag_message d) (diag_span d)
          | SevWarning => warning [] (diag_code d) (diag_message d) (diag_span d)
          end in
        renderDiagnostics (ds_path source) (ds_contents source) current
    | None => render_headline (lit "<project>") d
    end) diagnostics).

(** ** Lemmas *)

(** Reporting a list of diagnostics one after the other. *)
Definition report (diagnostics : Diagnostics) (d : Diagnostic) : Diagnostics :=
  add diagnostics (diag_severity d) (diag_code d) (diag_message d) (diag_span d).

Definition overflow_of (d : Diagnostic) : Diagnostic :=
  mkDiagnostic (lit "FDN0000") (lit "too many diagnostics") (diag_span d) (diag_severity d).

(** What the log holds after a run of reports. *)
Definition log_of (reports : list Diagnostic) : Diagnostics :=
  take maxDiagnostics reports ++ (overflow_of <$> take 1 (drop maxDiagnostics reports)).

Lemma log_of_snoc reports d : log_of (reports ++ [d]) = report (log_of reports) d.
Proof.
  unfold report, add, log_of. rewrite length_app, length_fmap, !length_take, length_drop.
  destruct (decide (length reports < maxDiagnostics)) as [Hl|Hl].
  - rewrite !bool_decide_false by lia. rewrite (take_ge (reports ++ [d])) by (rewrite length_app; simpl; lia).
    rewrite (take_ge reports), (drop_ge reports) by lia.
    rewrite (drop_ge (reports ++ [d])) by (rewrite length_app; simpl; lia). simpl. rewrite !app_nil_r. by destruct d.
  - rewrite take_app_le, drop_app_le by lia. rewrite Nat.min_l by lia.
    destruct (decide (length reports = maxDiagnostics)) as [E|E].
    + rewrite (drop_ge reports) by lia. rewrite bool_decide_false, bool_decide_true by lia. cbn. by rewrite app_nil_r.
    + rewrite bool_decide_true by lia. destruct (drop maxDiagnostics reports) eqn:Ed; [|done].
      apply (f_equal length) in Ed. rewrite length_drop in Ed. simpl in Ed. lia.
Qed.

Lemma foldl_report reports : foldl report [] reports = log_of reports.
Proof.
  apply (foldl_snoc_ind report (λ log rs, log = log_of rs)); [done|].
  intros log rs d ->. symmetry. apply log_of_snoc.
Qed.

Lemma rfind_newline_spec l k :
  match rfind_newline l k with
  | Some i => i ≤ k ∧ l !! i = Some newline ∧ ∀ j, i < j ≤ k → l !! j ≠ Some newline
  | None => ∀ j, j ≤ k → l !! j ≠ Some newline
  end.
Proof.
  induction k as [|k IH]; cbn [rfind_newline]; case_bool_decide as E.
  - split; [done|]. split; [done|lia].
  - intros j Hj. by replace j with 0 by lia.
  - split; [done|]. split; [done|lia].
  - destruct (rfind_newline l k) as [i|].
    + destruct IH as (? & ? & Hno). split; [lia|]. split; [done|]. intros j Hj.
      destruct (decide (j = S k)) as [->|]; [done|apply Hno; lia].
    + intros j Hj. destruct (decide (j = S k)) as [->|]; [done|apply IH; lia].
Qed.

Lemma find_newline_spec l k :
  k ≤ length l →
  match find_newline l k with
  | Some i => k ≤ i < length l ∧ l !! i = Some newline ∧ ∀ j, k ≤ j < i → l !! j ≠ Some newline
  | None => ∀ j, k ≤ j → l !! j ≠ Some newline
  end.
Proof.
  intros Hk. unfold find_newline. destruct (find_byte newline (drop k l)) as [n|] eqn:E; cbn.
  - apply find_byte_Some in E as (p & r & E & Hp & Hn).
    assert (∀ j, l !! (k + j) = (p ++ newline :: r) !! j) as Hl by (intros j; by rewrite <- E, lookup_drop).
    assert (length (drop k l) = length p + S (length r)) as Hlen by (rewrite E, length_app; done).
    rewrite length_drop in Hlen. split; [lia|]. split.
    + rewrite Hl, lookup_app_r by lia. by rewrite Hn, Nat.sub_diag.
    + intros j Hj Hnl. replace j with (k + (j - k)) in Hnl by lia. rewrite Hl, lookup_app_l in Hnl by lia.
      apply Hp. by eapply list_elem_of_lookup_2.
  - apply find_byte_None in E. intros j Hj Hnl. apply E. replace j with (k + (j - k)) in Hnl by lia.
    rewrite <- lookup_drop in Hnl. by eapply list_elem_of_lookup_2.
Qed.

(** The line around an offset holds the offset and no line break before its end. *)
Lemma line_bounds_spec source offset :
  offset ≤ length source →
  let '(lineStart, lineEnd) := line_bounds source offset in
  lineStart ≤ offset ≤ lineEnd ∧ lineEnd ≤ length source ∧
  (∀ j, lineStart ≤ j < lineEnd → source !! j ≠ Some newline) ∧
  (lineEnd = length source ∨ source !! lineEnd = Some newline).
Proof.
  intros Ho. unfold line_bounds. pose proof (find_newline_spec source offset Ho) as Hf.
  assert (let lineStart := match (if bool_decide (offset = 0) then None else rfind_newline source (offset - 1)) with
    | None => 0 | Some start => start + 1 end in
    lineStart ≤ offset ∧ ∀ j, lineStart ≤ j < offset → source !! j ≠ Some newline) as [Hs1 Hs2].
  { case_bool_decide; [split; [lia|intros; lia]|]. pose proof (rfind_newline_spec source (offset - 1)) as Hr.
    destruct (rfind_newline source (offset - 1)) as [i|]; [|split; [lia|]; intros; apply Hr; lia].
    destruct Hr as (? & ? & Hr). split; [lia|]. intros; apply Hr; lia. }
  set (lineStart := match _ with None => 0 | Some _ => _ end) in *.
  destruct (find_newline source offset) as [i|]; cbn [default from_option].
  - destruct Hf as (? & ? & Hf). unfold id. split; [lia|]. split; [lia|]. split; [|by right]. intros j Hj.
    destruct (decide (j < offset)); [apply Hs2; lia|apply Hf; lia].
  - unfold id. split; [lia|]. split; [lia|]. split; [|by left]. intros j Hj.
    destruct (decide (j < offset)); [apply Hs2; lia|apply Hf; lia].
Qed.

(** ** Theorems *)

(** however many diagnostics are reported, the log holds the first hundred of
    them in order and, if there are more, one final entry "too many diagnostics"
    with the place and severity of the hundred-and-first. *)
Theorem diagnostics_log (reports : list Diagnostic) :
  foldl report [] reports =
  take 100 reports ++ (overflow_of <$> take 1 (drop 100 reports)) ∧
  length (foldl report [] reports) ≤ 101.
Proof.
  rewrite foldl_report. split; [done|]. unfold log_of. rewrite length_app, length_fmap, !length_take.
  unfold maxDiagnostics. lia.
Qed.

(** Errors behind the limit are lost: after a hundred and one warnings a
    reported error changes nothing, and [hasErrors] answers [false]. *)
Theorem error_after_limit_lost (warnings : list Diagnostic) (code message : bytes) (span : SourceSpan) :
  Forall (λ d, diag_severity d = SevWarning) warnings → 101 ≤ length warnings →
  error (foldl report [] warnings) code message span = foldl report [] warnings ∧
  hasErrors (error (foldl report [] warnings) code message span) = false.
Proof.
  intros Hw Hl. rewrite foldl_report.
  assert (length (log_of warnings) = 101) as Hlen.
  { unfold log_of. rewrite length_app, length_fmap, !length_take, length_drop. unfold maxDiagnostics. lia. }
  assert (error (log_of warnings) code message span = log_of warnings) as E.
  { unfold error, add. rewrite Hlen. by rewrite bool_decide_true by (unfold maxDiagnostics; lia). }
  split; [done|]. rewrite E. apply not_true_iff_false. unfold hasErrors.
  rewrite existsb_Exists, Exists_exists. intros (d & Hd & Hs). to_prop.
  rewrite Forall_forall in Hw. unfold log_of in Hd. rewrite elem_of_app, list_elem_of_fmap in Hd.
  destruct Hd as [Hd|(d' & -> & Hd)].
  - apply elem_of_take in Hd as (i & Hi & _). rewrite Hw in Hs by (by eapply list_elem_of_lookup_2). done.
  - apply elem_of_take in Hd as (i & Hi & _). rewrite lookup_drop in Hi.
    cbn in Hs. rewrite Hw in Hs by (by eapply list_elem_of_lookup_2). done.
Qed.

(** The excerpt of a diagnostic stays on one line and within its bounds: at most
    120 bytes, no line break, a marker of 1 to 80 columns that starts within the
    shown text or right behind it, and, when the span starts at a byte of the
    source other than a line break, exactly below that byte. *)
Theorem excerpt_bounds (source : bytes) (span : SourceSpan) :
  let e := excerpt source span in
  let shift := if ex_prefix e then 3 else 0 in
  length (ex_text e) ≤ maxExcerptWidth ∧ newline ∉ ex_text e ∧
  shift ≤ ex_column e ≤ shift + length (ex_text e) ∧ 1 ≤ ex_marker e ≤ maxMarkerWidth ∧
  (∀ byte, source !! span_offset span = Some byte → byte ≠ newline →
     ex_text e !! (ex_column e - shift) = Some byte).
Proof.
  unfold excerpt. set (bounded := Nat.min (span_offset span) (length source)).
  pose proof (line_bounds_spec source bounded ltac:(lia)) as Hb.
  destruct (line_bounds source bounded) as [lineStart lineEnd]. destruct Hb as (Hin & Hend & Hline & Hnl).
  set (line := take (lineEnd - lineStart) (drop lineStart source)).
  assert (length line = lineEnd - lineStart) as Hlen by (subst line; rewrite length_take, length_drop; lia).
  rewrite (Nat.min_l bounded lineEnd) by lia. rewrite !Hlen. set (offset := bounded - lineStart).
  set (maxStart := if bool_decide (maxExcerptWidth < lineEnd - lineStart) then _ else 0).
  set (desired := if bool_decide (markerContext < offset) then _ else 0).
  set (start := Nat.min desired maxStart). cbn zeta.
  assert (start ≤ offset ∧ start ≤ lineEnd - lineStart ∧
    offset - start ≤ Nat.min maxExcerptWidth (lineEnd - lineStart - start) ∧
    (bounded < lineEnd → offset - start < Nat.min maxExcerptWidth (lineEnd - lineStart - start)))
    as (H1 & H2 & H3 & H4).
  { subst start desired maxStart. unfold maxExcerptWidth, markerContext in *.
    repeat case_bool_decide; lia. }
  set (text := take _ (drop start line)). cbn [ex_text ex_prefix ex_column ex_marker].
  assert (length text = Nat.min maxExcerptWidth (lineEnd - lineStart - start)) as Ht.
  { subst text. rewrite length_take, length_drop, Hlen. lia. }
  assert (∀ i, i < length text → text !! i = source !! (lineStart + (start + i))) as Hat.
  { intros i Hi. subst text line. rewrite lookup_take_lt, lookup_drop by lia.
    rewrite lookup_take_lt, lookup_drop by lia. done. }
  repeat split.
  - lia.
  - intros (i & Hi)%list_elem_of_lookup. assert (i < length text) as Hi' by by eapply lookup_lt_Some.
    rewrite Hat in Hi by done. apply (Hline (lineStart + (start + i))); [lia|done].
  - lia.
  - rewrite Ht. destruct (bool_decide (start ≠ 0)); lia.
  - lia.
  - unfold maxMarkerWidth. lia.
  - intros byte Hbyte Hn. apply lookup_lt_Some in Hbyte as Hlt.
    assert (bounded = span_offset span) as Eb by lia.
    assert (bounded < lineEnd) as Hbl.
    { destruct (decide (bounded = lineEnd)) as [E|]; [|lia]. exfalso. apply Hn.
      rewrite <- E, Eb, Hbyte in Hnl. destruct Hnl as [?|[= ?]]; [lia|done]. }
    replace (offset - start + _ - _) with (offset - start) by (destruct (bool_decide _); lia).
    rewrite Hat by lia. rewrite <- Hbyte. f_equal. lia.
Qed.

Lemma error_after_limit_lost_witness :
  hasErrors (error (foldl report [] (replicate 101 (mkDiagnostic (lit "W") [] (mkSpan 0 0 1 1 0) SevWarning)))
    (lit "E") [] (mkSpan 0 0 1 1 0)) = false.
Proof.
  apply (error_after_limit_lost (replicate 101 (mkDiagnostic (lit "W") [] (mkSpan 0 0 1 1 0) SevWarning))).
  - apply Forall_replicate. reflexivity.
  - rewrite length_replicate. lia.
Defined.

Lemma excerpt_bounds_witness : ex_text (excerpt (lit "let x = y") (mkSpan 4 1 1 5 0)) !! 4 = Some "x"%char.
Proof.
  apply (proj2 (proj2 (proj2 (proj2 (excerpt_bounds (lit "let x = y") (mkSpan 4 1 1 5 0))))) "x"%char);
    [reflexivity|discriminate].
Defined.
