(* ===== verification/Token.v ===== *)
(** * Tokens (compiler/include/foundation/token.hpp, tokenName in compiler/src/lexer.cpp) *)
From S2P Require Import Prelude Diagnostics.

Module TokenKind.
Inductive t :=
  | Eof | Identifier | Integer | Floating | String | Package | Import | As | Extern | Struct
  | Service | Methods | Enum | StateMachine | Pipeline | Saga | Contract | Attribute | Implements
  | Extends | Delegate | Fn | Ctor | Action | Task | Test | Unsafe | Spawn | Let | Const | Var
  | Return | Discard | If | Else | While | For | In | Break | Continue | Select | Timeout | Match
  | Capture | Replace | With | New | Own | View | Edit | True | False | LeftParen | RightParen
  | LeftBrace | RightBrace | LeftBracket | RightBracket | Comma | Colon | Dot | Equal
  | EqualEqual | Bang | BangEqual | Plus | PlusEqual | Minus | MinusEqual | Star | StarEqual
  | Slash | SlashEqual | Percent | PercentEqual | Less | LessEqual | Greater | GreaterEqual
  | AndAnd | OrOr | Pipe | Caret | Tilde | At | Ampersand | Dollar.
End TokenKind.
Abbreviation TokenKind := TokenKind.t.

#[global] Instance token_kind_eq_dec : EqDecision TokenKind.
Proof. solve_decision. Defined.

Record Token := mkToken {
  tok_kind : TokenKind;
  tok_text : bytes;
  tok_span : SourceSpan;
  leadingSafetyProof : bool;
}.

Definition tokenName (kind : TokenKind) : bytes :=
  match kind with
  | TokenKind.Eof => lit "end of file"
  | TokenKind.Identifier => lit "identifier"
  | TokenKind.Integer => lit "integer"
  | TokenKind.Floating => lit "floating-point number"
  | TokenKind.String => lit "string"
  | TokenKind.Package => lit "package"
  | TokenKind.Import => lit "import"
  | TokenKind.As => lit "as"
  | TokenKind.Extern => lit "extern"
  | TokenKind.Struct => lit "struct"
  | TokenKind.Service => lit "service"
  | TokenKind.Methods => lit "methods"
  | TokenKind.Enum => lit "enum"
  | TokenKind.StateMachine => lit "state_machine"
  | TokenKind.Pipeline => lit "pipeline"
  | TokenKind.Saga => lit "saga"
  | TokenKind.Contract => lit "contract"
  | TokenKind.Attribute => lit "attribute"
  | TokenKind.Implements => lit "implements"
  | TokenKind.Extends => lit "extends"
  | TokenKind.Delegate => lit "delegate"
  | TokenKind.Fn => lit "fn"
  | TokenKind.Ctor => lit "ctor"
  | TokenKind.Action => lit "action"
  | TokenKind.Task => lit "task"
  | TokenKind.Test => lit "test"
  | TokenKind.Unsafe => lit "unsafe"
  | TokenKind.Spawn => lit "spawn"
  | TokenKind.Let => lit "let"
  | TokenKind.Const => lit "const"
  | TokenKind.Var => lit "var"
  | TokenKind.Return => lit "return"
  | TokenKind.Discard => lit "discard"
  | TokenKind.If => lit "if"
  | TokenKind.Else => lit "else"
  | TokenKind.While => lit "while"
  | TokenKind.For => lit "for"
  | TokenKind.In => lit "in"
  | TokenKind.Break => lit "break"
  | TokenKind.Continue => lit "continue"
  | TokenKind.Select => lit "select"
  | TokenKind.Timeout => lit "timeout"
  | TokenKind.Match => lit "match"
  | TokenKind.Capture => lit "capture"
  | TokenKind.Replace => lit "replace"
  | TokenKind.With => lit "with"
  | TokenKind.New => lit "new"
  | TokenKind.Own => lit "own"
  | TokenKind.View => lit "view"
  | TokenKind.Edit => lit "edit"
  | TokenKind.True => lit "true"
  | TokenKind.False => lit "false"
  | TokenKind.LeftParen => lit "("
  | TokenKind.RightParen => lit ")"
  | TokenKind.LeftBrace => lit "{"
  | TokenKind.RightBrace => lit "}"
  | TokenKind.LeftBracket => lit "["
  | TokenKind.RightBracket => lit "]"
  | TokenKind.Comma => lit ","
  | TokenKind.Colon => lit ":"
  | TokenKind.Dot => lit "."
  | TokenKind.Equal => lit "="
  | TokenKind.EqualEqual => lit "=="
  | TokenKind.Bang => lit "!"
  | TokenKind.BangEqual => lit "!="
  | TokenKind.Plus => lit "+"
  | TokenKind.PlusEqual => lit "+="
  | TokenKind.Minus => lit "-"
  | TokenKind.MinusEqual => lit "-="
  | TokenKind.Star => lit "*"
  | TokenKind.StarEqual => lit "*="
  | TokenKind.Slash => lit "/"
  | TokenKind.SlashEqual => lit "/="
  | TokenKind.Percent => lit "%"
  | TokenKind.PercentEqual => lit "%="
  | TokenKind.Less => lit "<"
  | TokenKind.LessEqual => lit "<="
  | TokenKind.Greater => lit ">"
  | TokenKind.GreaterEqual => lit ">="
  | TokenKind.AndAnd => lit "&&"
  | TokenKind.OrOr => lit "||"
  | TokenKind.Pipe => lit "|"
  | TokenKind.Caret => lit "^"
  | TokenKind.Tilde => lit "~"
  | TokenKind.At => lit "@"
  | TokenKind.Ampersand => lit "&"
  | TokenKind.Dollar => lit "$"
  end.

(** The chain of comparisons in [Lexer::identifier], in its order. *)
Definition keywords : list (bytes * TokenKind) :=
  [(lit "package", TokenKind.Package);
   (lit "import", TokenKind.Import);
   (lit "as", TokenKind.As);
   (lit "extern", TokenKind.Extern);
   (lit "struct", TokenKind.Struct);
   (lit "service", TokenKind.Service);
   (lit "methods", TokenKind.Methods);
   (lit "enum", TokenKind.Enum);
   (lit "state_machine", TokenKind.StateMachine);
   (lit "pipeline", TokenKind.Pipeline);
   (lit "saga", TokenKind.Saga);
   (lit "contract", TokenKind.Contract);
   (lit "attribute", TokenKind.Attribute);
   (lit "implements", TokenKind.Implements);
   (lit "extends", TokenKind.Extends);
   (lit "delegate", TokenKind.Delegate);
   (lit "fn", TokenKind.Fn);
   (lit "ctor", TokenKind.Ctor);
   (lit "action", TokenKind.Action);
   (lit "task", TokenKind.Task);
   (lit "unsafe", TokenKind.Unsafe);
   (lit "spawn", TokenKind.Spawn);
   (lit "let", TokenKind.Let);
   (lit "const", TokenKind.Const);
   (lit "var", TokenKind.Var);
   (lit "return", TokenKind.Return);
   (lit "discard", TokenKind.Discard);
   (lit "if", TokenKind.If);
   (lit "else", TokenKind.Else);
   (lit "while", TokenKind.While);
   (lit "for", TokenKind.For);
   (lit "in", TokenKind.In);
   (lit "break", TokenKind.Break);
   (lit "continue", TokenKind.Continue);
   (lit "select", TokenKind.Select);
   (lit "timeout", TokenKind.Timeout);
   (lit "match", TokenKind.Match);
   (lit "capture", TokenKind.Capture);
   (lit "replace", TokenKind.Replace);
   (lit "with", TokenKind.With);
   (lit "new", TokenKind.New);
   (lit "own", TokenKind.Own);
   (lit "view", TokenKind.View);
   (lit "edit", TokenKind.Edit);
   (lit "true", TokenKind.True);
   (lit "false", TokenKind.False)].

Fixpoint keyword_in (table : list (bytes * TokenKind)) (text : bytes) : TokenKind :=
  match table with
  | [] => TokenKind.Identifier
  | (keyword, kind) :: table => if bool_decide (text = keyword) then kind else keyword_in table text
  end.
Definition identifierKind (text : bytes) : TokenKind := keyword_in keywords text.

(** ** Theorems *)

Lemma keyword_in_table table text :
  (keyword_in table text = TokenKind.Identifier ∧ (∀ kind, (text, kind) ∈ table → kind = TokenKind.Identifier)) ∨
  (text, keyword_in table text) ∈ table.
Proof.
  induction table as [|[w k] table IH]; [left; split; [done|by intros ? ?%elem_of_nil]|]. cbn [keyword_in].
  case_bool_decide as E; [right; subst; by left|]. destruct IH as [[IH1 IH2]|IH]; [left|right; by right].
  split; [done|]. intros kind [[= ??]|?]%elem_of_cons; [done|by apply IH2].
Qed.

Lemma keywords_named : Forall (λ e, e.1 = tokenName e.2 ∧ e.2 ≠ TokenKind.Identifier) keywords.
Proof. by repeat constructor. Qed.

(** The keyword table agrees with [tokenName]: the lexer gives an identifier
    text a kind other than [Identifier] exactly when that kind is in the table, and
    then the text is the kind's name, so no keyword is read as another one, and a
    keyword's name is always read back as that keyword. *)
Theorem keyword_exact (text : bytes) (kind : TokenKind) :
  kind ≠ TokenKind.Identifier →
  identifierKind text = kind ↔ kind ∈ keywords.*2 ∧ text = tokenName kind.
Proof.
  intros Hk. pose proof keywords_named as Hn. rewrite Forall_forall in Hn. unfold identifierKind. split.
  - intros <-. destruct (keyword_in_table keywords text) as [[? _]|H]; [done|].
    split; [|by apply (Hn _ H)]. apply list_elem_of_fmap. by exists (text, keyword_in keywords text).
  - intros [Hin ->].
    assert (Forall (λ k, keyword_in keywords (tokenName k) = k) keywords.*2) as H by by repeat constructor.
    rewrite Forall_forall in H. by apply H.
Qed.

Lemma keyword_exact_witness :
  identifierKind (lit "state_machine") = TokenKind.StateMachine ↔
  TokenKind.StateMachine ∈ keywords.*2 ∧ lit "state_machine" = tokenName TokenKind.StateMachine.
Proof. apply (keyword_exact (lit "state_machine") TokenKind.StateMachine). discriminate. Defined.
