(* ===== verification/Utf8.v ===== *)
(** * UTF-8 validity of string literals ([isValidUtf8] in compiler/src/lexer.cpp)

    The byte automaton of the lexer, and the encoding of Unicode scalar values it
    is exact for. *)
From Stdlib Require Import ZifyN ZifyClasses.
From S2P Require Import Prelude.

Open Scope N_scope.

Definition isContinuationByte (value : ascii) : bool := between 0x80 0xbf value.

(** The second byte of a three-byte and of a four-byte sequence. *)
Definition second_of_three (first second : ascii) : bool :=
  if byte_val first =? 0xe0 then between 0xa0 0xbf second
  else if byte_val first =? 0xed then between 0x80 0x9f second
  else isContinuationByte second.
Definition second_of_four (first second : ascii) : bool :=
  if byte_val first =? 0xf0 then between 0x90 0xbf second
  else if byte_val first =? 0xf4 then between 0x80 0x8f second
  else isContinuationByte second.

Fixpoint isValidUtf8 (value : bytes) : bool :=
  match value with
  | [] => true
  | first :: rest =>
      if byte_val first <=? 0x7f then isValidUtf8 rest
      else if between 0xc2 0xdf first then
        match rest with
        | second :: rest => if isContinuationByte second then isValidUtf8 rest else false
        | [] => false
        end
      else if between 0xe0 0xef first then
        match rest with
        | second :: third :: rest =>
            if second_of_three first second && isContinuationByte third then isValidUtf8 rest else false
        | _ => false
        end
      else if between 0xf0 0xf4 first then
        match rest with
        | second :: third :: fourth :: rest =>
            if second_of_four first second && isContinuationByte third && isContinuationByte fourth
            then isValidUtf8 rest else false
        | _ => false
        end
      else false
  end.

(** ** Unicode scalar values and their encoding *)

Definition scalar (cp : N) : Prop := cp < 0x110000 ∧ ¬ (0xd800 <= cp <= 0xdfff).

Definition byte (n : N) : ascii := ascii_of_N n.

Definition encode (cp : N) : bytes :=
  if cp <? 0x80 then [byte cp]
  else if cp <? 0x800 then [byte (0xc0 + cp / 64); byte (0x80 + cp mod 64)]
  else if cp <? 0x10000 then
    [byte (0xe0 + cp / 4096); byte (0x80 + cp / 64 mod 64); byte (0x80 + cp mod 64)]
  else [byte (0xf0 + cp / 262144); byte (0x80 + cp / 4096 mod 64); byte (0x80 + cp / 64 mod 64);
        byte (0x80 + cp mod 64)].

(** ** Correctness *)

Lemma byte_val_byte n : n < 256 → byte_val (byte n) = n.
Proof. apply N_ascii_embedding. Qed.
Lemma byte_of_val c : byte (byte_val c) = c.
Proof. apply ascii_N_embedding. Qed.
Lemma byte_eq n c : n = byte_val c → byte n = c.
Proof. intros ->. apply byte_of_val. Qed.

Lemma between_iff lo hi c : between lo hi c = true ↔ lo <= byte_val c <= hi.
Proof. unfold between. by rewrite andb_true_iff, !N.leb_le. Qed.

Ltac Zify.zify_post_hook ::= Z.to_euclidean_division_equations.

Lemma encode_2 a b :
  0xc2 <= byte_val a <= 0xdf → 0x80 <= byte_val b <= 0xbf →
  ∃ cp, scalar cp ∧ encode cp = [a; b].
Proof.
  intros Ha Hb. set (x := byte_val a) in *. set (y := byte_val b) in *.
  exists ((x - 0xc0) * 64 + (y - 0x80)). unfold scalar, encode.
  destruct (N.ltb_spec ((x - 192) * 64 + (y - 128)) 0x80); [lia|].
  destruct (N.ltb_spec ((x - 192) * 64 + (y - 128)) 0x800); [|lia].
  split; [lia|]. f_equal; [apply byte_eq; fold x; lia|]. f_equal. apply byte_eq. fold y. lia.
Qed.

Lemma second_of_three_iff a b :
  0xe0 <= byte_val a <= 0xef →
  second_of_three a b = true ↔
  0x80 <= byte_val b <= 0xbf ∧ (byte_val a = 0xe0 → 0xa0 <= byte_val b) ∧ (byte_val a = 0xed → byte_val b <= 0x9f).
Proof.
  intros Ha. unfold second_of_three, isContinuationByte.
  destruct (N.eqb_spec (byte_val a) 0xe0); [rewrite between_iff; lia|].
  destruct (N.eqb_spec (byte_val a) 0xed); rewrite between_iff; lia.
Qed.
Lemma second_of_four_iff a b :
  0xf0 <= byte_val a <= 0xf4 →
  second_of_four a b = true ↔
  0x80 <= byte_val b <= 0xbf ∧ (byte_val a = 0xf0 → 0x90 <= byte_val b) ∧ (byte_val a = 0xf4 → byte_val b <= 0x8f).
Proof.
  intros Ha. unfold second_of_four, isContinuationByte.
  destruct (N.eqb_spec (byte_val a) 0xf0); [rewrite between_iff; lia|].
  destruct (N.eqb_spec (byte_val a) 0xf4); rewrite between_iff; lia.
Qed.

Lemma encode_3 a b c :
  0xe0 <= byte_val a <= 0xef → second_of_three a b = true → 0x80 <= byte_val c <= 0xbf →
  ∃ cp, scalar cp ∧ encode cp = [a; b; c].
Proof.
  intros Ha (Hb & H1 & H2)%second_of_three_iff Hc; [|done].
  set (x := byte_val a) in *. set (y := byte_val b) in *. set (z := byte_val c) in *.
  exists ((x - 0xe0) * 4096 + (y - 0x80) * 64 + (z - 0x80)). unfold scalar, encode.
  set (cp := (x - 0xe0) * 4096 + (y - 0x80) * 64 + (z - 0x80)).
  assert (0x800 <= cp < 0x10000) by lia.
  destruct (N.ltb_spec cp 0x80); [lia|]. destruct (N.ltb_spec cp 0x800); [lia|].
  destruct (N.ltb_spec cp 0x10000); [|lia].
  split; [lia|]. repeat f_equal; apply byte_eq; fold x; fold y; fold z; lia.
Qed.

Lemma encode_4 a b c d :
  0xf0 <= byte_val a <= 0xf4 → second_of_four a b = true → 0x80 <= byte_val c <= 0xbf →
  0x80 <= byte_val d <= 0xbf → ∃ cp, scalar cp ∧ encode cp = [a; b; c; d].
Proof.
  intros Ha (Hb & H1 & H2)%second_of_four_iff Hc Hd; [|done].
  set (x := byte_val a) in *. set (y := byte_val b) in *. set (z := byte_val c) in *. set (w := byte_val d) in *.
  exists ((x - 0xf0) * 262144 + (y - 0x80) * 4096 + (z - 0x80) * 64 + (w - 0x80)). unfold scalar, encode.
  set (cp := (x - 0xf0) * 262144 + (y - 0x80) * 4096 + (z - 0x80) * 64 + (w - 0x80)).
  assert (0x10000 <= cp < 0x110000) by lia.
  destruct (N.ltb_spec cp 0x80); [lia|]. destruct (N.ltb_spec cp 0x800); [lia|].
  destruct (N.ltb_spec cp 0x10000); [lia|].
  split; [lia|]. repeat f_equal; apply byte_eq; fold x; fold y; fold z; fold w; lia.
Qed.

Lemma isValidUtf8_encode cp rest : scalar cp → isValidUtf8 (encode cp ++ rest) = isValidUtf8 rest.
Proof.
  intros [Hm Hs]. unfold encode.
  destruct (N.ltb_spec cp 0x80).
  { cbn [app isValidUtf8]. rewrite byte_val_byte by lia. by rewrite (proj2 (N.leb_le cp 0x7f)) by lia. }
  destruct (N.ltb_spec cp 0x800).
  { cbn [app isValidUtf8]. unfold isContinuationByte, between. rewrite !byte_val_byte by lia.
    destruct (N.leb_spec (192 + cp / 64) 0x7f); [lia|].
    rewrite !(proj2 (N.leb_le _ _)) by lia. done. }
  destruct (N.ltb_spec cp 0x10000).
  { cbn [app isValidUtf8].
    assert (second_of_three (byte (224 + cp / 4096)) (byte (128 + cp / 64 mod 64)) = true) as ->.
    { apply second_of_three_iff; rewrite !byte_val_byte by lia; lia. }
    unfold isContinuationByte, between. rewrite !byte_val_byte by lia.
    destruct (N.leb_spec (224 + cp / 4096) 0x7f); [lia|].
    destruct (N.leb_spec (224 + cp / 4096) 0xdf); [lia|]. rewrite andb_false_r.
    rewrite !(proj2 (N.leb_le _ _)) by lia. done. }
  cbn [app isValidUtf8].
  assert (second_of_four (byte (240 + cp / 262144)) (byte (128 + cp / 4096 mod 64)) = true) as ->.
  { apply second_of_four_iff; rewrite !byte_val_byte by lia; lia. }
  unfold isContinuationByte, between. rewrite !byte_val_byte by lia.
  destruct (N.leb_spec (240 + cp / 262144) 0x7f); [lia|].
  destruct (N.leb_spec (240 + cp / 262144) 0xdf); [lia|]. rewrite andb_false_r.
  destruct (N.leb_spec (240 + cp / 262144) 0xef); [lia|]. rewrite andb_false_r.
  rewrite !(proj2 (N.leb_le _ _)) by lia. done.
Qed.

Close Scope N_scope.

Lemma isValidUtf8_split value :
  isValidUtf8 value = true →
  value = [] ∨ ∃ cp rest, scalar cp ∧ value = encode cp ++ rest ∧ isValidUtf8 rest = true.
Proof.
  destruct value as [|a rest]; [by left|]. cbn [isValidUtf8]. intros H. right.
  destruct (byte_val a <=? 0x7f)%N eqn:E1.
  { apply N.leb_le in E1. exists (byte_val a), rest. split; [unfold scalar; lia|]. split; [|done].
    unfold encode. rewrite (proj2 (N.ltb_lt (byte_val a) 0x80)) by lia. cbn. by rewrite byte_of_val. }
  destruct (between 0xc2 0xdf a) eqn:E2.
  { apply between_iff in E2. destruct rest as [|b rest]; [done|].
    destruct (isContinuationByte b) eqn:Eb; [|done]. apply between_iff in Eb.
    destruct (encode_2 a b E2 Eb) as (cp & ? & E). exists cp, rest. by rewrite E. }
  destruct (between 0xe0 0xef a) eqn:E3.
  { apply between_iff in E3. destruct rest as [|b [|c rest]]; try done.
    destruct (second_of_three a b && isContinuationByte c) eqn:Ebc; [|done].
    apply andb_true_iff in Ebc as [Eb Ec%between_iff].
    destruct (encode_3 a b c E3 Eb Ec) as (cp & ? & E). exists cp, rest. by rewrite E. }
  destruct (between 0xf0 0xf4 a) eqn:E4; [|done].
  apply between_iff in E4. destruct rest as [|b [|c [|d rest]]]; try done.
  destruct (_ && _) eqn:Ebc in H; [|done].
  apply andb_true_iff in Ebc as [[Eb Ec%between_iff]%andb_true_iff Ed%between_iff].
  destruct (encode_4 a b c d E4 Eb Ec Ed) as (cp & ? & E). exists cp, rest. by rewrite E.
Qed.

Lemma encode_nonempty cp : encode cp ≠ [].
Proof. unfold encode. by repeat case_match. Qed.

(** ** Theorems *)

(** The automaton accepts a byte string exactly when it is the concatenation of
    the UTF-8 encodings of Unicode scalar values: no overlong form, no surrogate,
    nothing above U+10FFFF and no truncated sequence is accepted, and every
    well-formed text is. *)
Theorem isValidUtf8_exact (value : bytes) :
  isValidUtf8 value = true ↔ ∃ cps, Forall scalar cps ∧ value = concat (map encode cps).
Proof.
  split.
  - remember (length value) as n eqn:Hn. revert value Hn.
    induction (lt_wf n) as [n _ IH]. intros value -> H.
    destruct (isValidUtf8_split value H) as [->|(cp & rest & Hcp & -> & Hrest)]; [by exists []|].
    destruct (IH (length rest)) with (value := rest) as (cps & Hcps & ->); [|done..|].
    { rewrite length_app. pose proof (encode_nonempty cp). destruct (encode cp); [done|simpl; lia]. }
    exists (cp :: cps). split; [by constructor|done].
  - intros (cps & Hcps & ->). induction Hcps as [|cp cps Hcp _ IH]; [done|]. cbn [map concat].
    by rewrite isValidUtf8_encode.
Qed.
