(* ===== verification/Lexer.v ===== *)
(** * The lexer (compiler/src/lexer.cpp)

    [Lexer::scan] over a source text, with its position counters, the comment
    handling, the literals and the operators. *)
From S2P Require Import Prelude Diagnostics Token Utf8.

(** The mutable members of [class Lexer]. *)
Record Lexer := mkLexer {
  offset_ : nat;
  line_ : nat;
  column_ : nat;
  diagnostics_ : Diagnostics;
  safetyCommentLine_ : option nat;
}.

Definition isIdentifierStart (value : ascii) : bool := isalpha value || bool_decide (value = "_"%char).
Definition isIdentifierPart (value : ascii) : bool := isalnum value || bool_decide (value = "_"%char).

Section lexer.
Context (source_ : bytes) (sourceId_ : nat).

Definition lexer_start (diagnostics : Diagnostics) : Lexer := mkLexer 0 1 1 diagnostics None.

Definition atEnd (st : Lexer) : bool := bool_decide (length source_ ≤ offset_ st).
Definition peek (distance : nat) (st : Lexer) : ascii := default nul (source_ !! (offset_ st + distance)).

(** [advance]: the byte passed over (callers check [atEnd]), and the new state. *)
Definition advance (st : Lexer) : ascii * Lexer :=
  let value := default nul (source_ !! offset_ st) in
  (value,
   if bool_decide (value = newline)
   then mkLexer (S (offset_ st)) (S (line_ st)) 1 (diagnostics_ st) (safetyCommentLine_ st)
   else mkLexer (S (offset_ st)) (line_ st) (S (column_ st)) (diagnostics_ st) (safetyCommentLine_ st)).
Definition skip (st : Lexer) : Lexer := (advance st).2.

Definition spanFrom (offset line column : nat) (st : Lexer) : SourceSpan :=
  mkSpan offset (offset_ st - offset) line column sourceId_.

Definition report_error (code message : bytes) (span : SourceSpan) (st : Lexer) : Lexer :=
  mkLexer (offset_ st) (line_ st) (column_ st) (error (diagnostics_ st) code message span) (safetyCommentLine_ st).
Definition set_safety (line : option nat) (st : Lexer) : Lexer :=
  mkLexer (offset_ st) (line_ st) (column_ st) (diagnostics_ st) line.

(** Bytes left: each turn of a loop below consumes one at least. *)
Definition remaining (st : Lexer) : nat := length source_ - offset_ st.

(** [while (condition) advance();]. *)
Fixpoint while_skip (fuel : nat) (condition : Lexer → bool) (st : Lexer) : Lexer :=
  match fuel with
  | O => st
  | S fuel => if condition st then while_skip fuel condition (skip st) else st
  end.
Definition skip_while (condition : Lexer → bool) (st : Lexer) : Lexer :=
  while_skip (remaining st) condition st.

(** ** [skipIgnored] *)

Definition substr (start stop : nat) : bytes := take (stop - start) (drop start source_).

Definition line_comment (st : Lexer) : Lexer :=
  let commentStart := offset_ st in
  let commentLine := line_ st in
  let st := skip_while (λ st, negb (atEnd st) && negb (bool_decide (peek 0 st = newline))) st in
  if starts_with (lit "// SAFETY:") (substr commentStart (offset_ st))
  then set_safety (Some commentLine) st else st.

Fixpoint block_loop (fuel : nat) (depth : nat) (st : Lexer) : nat * Lexer :=
  match fuel with
  | O => (depth, st)
  | S fuel =>
      if negb (atEnd st) && negb (bool_decide (depth = 0)) then
        if bool_decide (peek 0 st = "/"%char) && bool_decide (peek 1 st = "*"%char) then
          block_loop fuel (S depth) (skip (skip st))
        else if bool_decide (peek 0 st = "*"%char) && bool_decide (peek 1 st = "/"%char) then
          block_loop fuel (depth - 1) (skip (skip st))
        else block_loop fuel depth (skip st)
      else (depth, st)
  end.

Definition block_comment (st : Lexer) : Lexer :=
  let start := offset_ st in
  let line := line_ st in
  let column := column_ st in
  let st := skip (skip st) in
  let '(depth, st) := block_loop (remaining st) 1 st in
  if bool_decide (depth ≠ 0)
  then report_error (lit "FDN0006") (lit "unterminated block comment") (spanFrom start line column st) st
  else st.

Fixpoint skipIgnored (fuel : nat) (st : Lexer) : option Lexer :=
  match fuel with
  | O => None
  | S fuel =>
      if atEnd st then Some st
      else
        let value := peek 0 st in
        if isspace value then skipIgnored fuel (skip st)
        else if bool_decide (value = "/"%char) && bool_decide (peek 1 st = "/"%char) then
          skipIgnored fuel (line_comment st)
        else if bool_decide (value = "/"%char) && bool_decide (peek 1 st = "*"%char) then
          skipIgnored fuel (block_comment st)
        else Some st
  end.

(** ** Literals and identifiers, behind their first byte *)

Definition identifier (st : Lexer) : Token * Lexer :=
  let start := offset_ st - 1 in
  let column := column_ st - 1 in
  let st := skip_while (λ st, isIdentifierPart (peek 0 st)) st in
  let text := substr start (offset_ st) in
  (mkToken (identifierKind text) text (spanFrom start (line_ st) column st) false, st).

Definition digits (st : Lexer) : Lexer := skip_while (λ st, isdigit (peek 0 st)) st.

Definition fraction (st : Lexer) : bool := bool_decide (peek 0 st = "."%char) && isdigit (peek 1 st).
Definition exponent_sign (value : ascii) : bool :=
  bool_decide (value = "+"%char) || bool_decide (value = "-"%char).
Definition exponent (st : Lexer) : bool :=
  (bool_decide (peek 0 st = "e"%char) || bool_decide (peek 0 st = "E"%char)) &&
  (isdigit (peek 1 st) || (exponent_sign (peek 1 st) && isdigit (peek 2 st))).

Definition number (st : Lexer) : Token * Lexer :=
  let start := offset_ st - 1 in
  let column := column_ st - 1 in
  let st := digits st in
  let '(kind, st) := if fraction st then (TokenKind.Floating, digits (skip st)) else (TokenKind.Integer, st) in
  let '(kind, st) :=
    if exponent st then
      let st := skip st in
      let st := if exponent_sign (peek 0 st) then skip st else st in
      (TokenKind.Floating, digits st)
    else (kind, st) in
  (mkToken kind (substr start (offset_ st)) (spanFrom start (line_ st) column st) false, st).

(** The byte an escape stands for. *)
Definition escape (escaped : ascii) : option ascii :=
  if bool_decide (escaped = "n"%char) then Some newline
  else if bool_decide (escaped = "r"%char) then Some carriage
  else if bool_decide (escaped = "t"%char) then Some tab
  else if bool_decide (escaped = "0"%char) then Some nul
  else if bool_decide (escaped = dquote) then Some dquote
  else if bool_decide (escaped = backslash) then Some backslash
  else None.

Fixpoint string_loop (fuel : nat) (value : bytes) (st : Lexer) : bytes * Lexer :=
  match fuel with
  | O => (value, st)
  | S fuel =>
      if negb (atEnd st) && negb (bool_decide (peek 0 st = dquote)) then
        let '(current, st) := advance st in
        if bool_decide (current = nul) then
          string_loop fuel value
            (report_error (lit "FDN0004") (lit "NUL is not allowed in a string literal")
               (mkSpan (offset_ st - 1) 1 (line_ st) (column_ st - 1) sourceId_) st)
        else if bool_decide (current ≠ backslash) then string_loop fuel (value ++ [current]) st
        else if atEnd st then (value, st)
        else
          let escapeSpan := mkSpan (offset_ st - 1) 2 (line_ st) (column_ st - 1) sourceId_ in
          let '(escaped, st) := advance st in
          match escape escaped with
          | Some byte => string_loop fuel (value ++ [byte]) st
          | None =>
              string_loop fuel (value ++ [escaped])
                (report_error (lit "FDN0003") (lit "invalid string escape") escapeSpan st)
          end
      else (value, st)
  end.

Definition string (st : Lexer) : Token * Lexer :=
  let start := offset_ st - 1 in
  let line := line_ st in
  let column := column_ st - 1 in
  let '(value, st) := string_loop (remaining st) [] st in
  let st := if atEnd st
            then report_error (lit "FDN0002") (lit "unterminated string") (spanFrom start line column st) st
            else skip st in
  let st := if isValidUtf8 value then st
            else report_error (lit "FDN0005") (lit "string literal is not valid UTF-8")
                   (spanFrom start line column st) st in
  (mkToken TokenKind.String value (spanFrom start line column st) false, st).

(** ** The operator switch of [next] *)

Definition single_tokens : list (ascii * TokenKind) :=
  [("("%char, TokenKind.LeftParen); (")"%char, TokenKind.RightParen);
   ("{"%char, TokenKind.LeftBrace); ("}"%char, TokenKind.RightBrace);
   ("["%char, TokenKind.LeftBracket); ("]"%char, TokenKind.RightBracket);
   (","%char, TokenKind.Comma); (":"%char, TokenKind.Colon); ("."%char, TokenKind.Dot);
   ("@"%char, TokenKind.At); ("$"%char, TokenKind.Dollar); ("^"%char, TokenKind.Caret);
   ("~"%char, TokenKind.Tilde)].
(** A byte that [second] may follow, and the kinds alone and together. *)
Definition double_tokens : list (ascii * (ascii * (TokenKind * TokenKind))) :=
  [("+"%char, ("="%char, (TokenKind.Plus, TokenKind.PlusEqual)));
   ("*"%char, ("="%char, (TokenKind.Star, TokenKind.StarEqual)));
   ("/"%char, ("="%char, (TokenKind.Slash, TokenKind.SlashEqual)));
   ("%"%char, ("="%char, (TokenKind.Percent, TokenKind.PercentEqual)));
   ("-"%char, ("="%char, (TokenKind.Minus, TokenKind.MinusEqual)));
   ("="%char, ("="%char, (TokenKind.Equal, TokenKind.EqualEqual)));
   ("!"%char, ("="%char, (TokenKind.Bang, TokenKind.BangEqual)));
   ("<"%char, ("="%char, (TokenKind.Less, TokenKind.LessEqual)));
   (">"%char, ("="%char, (TokenKind.Greater, TokenKind.GreaterEqual)));
   ("&"%char, ("&"%char, (TokenKind.Ampersand, TokenKind.AndAnd)));
   ("|"%char, ("|"%char, (TokenKind.Pipe, TokenKind.OrOr)))].

Fixpoint assoc {V} (key : ascii) (table : list (ascii * V)) : option V :=
  match table with
  | [] => None
  | (k, v) :: table => if bool_decide (key = k) then Some v else assoc key table
  end.

(** [<=] and [>=] are not formed directly behind another [<] or [>]. *)
Definition may_join (value : ascii) (start : nat) : bool :=
  if bool_decide (value = "<"%char) || bool_decide (value = ">"%char)
  then bool_decide (start = 0) || negb (bool_decide (source_ !! (start - 1) = Some value))
  else true.

(** The kind and text of the operator that starts with [value], if there is one. *)
Definition operator (value : ascii) (start : nat) (st : Lexer) : option (TokenKind * bytes * Lexer) :=
  match assoc value single_tokens with
  | Some kind => Some (kind, [value], st)
  | None =>
      match assoc value double_tokens with
      | Some (second, (single, double)) =>
          if bool_decide (peek 0 st = second) && may_join value start
          then Some (double, [value; second], skip st)
          else Some (single, [value], st)
      | None => None
      end
  end.

Definition with_proof (proof : bool) (t : Token * Lexer) : Token * Lexer :=
  (mkToken (tok_kind t.1) (tok_text t.1) (tok_span t.1) proof, t.2).

Fixpoint next (fuel : nat) (st : Lexer) : option (Token * Lexer) :=
  match fuel with
  | O => None
  | S fuel =>
      match skipIgnored (S (remaining st)) st with
      | None => None
      | Some st =>
          let start := offset_ st in
          let line := line_ st in
          let column := column_ st in
          let proof := match safetyCommentLine_ st with
                       | Some commentLine => bool_decide (line = commentLine + 1)
                       | None => false
                       end in
          let st := set_safety None st in
          if atEnd st then
            Some (mkToken TokenKind.Eof [] (mkSpan (offset_ st) 0 (line_ st) (column_ st) sourceId_) proof, st)
          else
            let '(value, st) := advance st in
            if isIdentifierStart value then Some (with_proof proof (identifier st))
            else if isdigit value then Some (with_proof proof (number st))
            else if bool_decide (value = dquote) then Some (with_proof proof (string st))
            else match operator value start st with
                 | Some (kind, text, st) => Some (mkToken kind text (spanFrom start line column st) proof, st)
                 | None =>
                     next fuel (report_error (lit "FDN0001") (lit "unexpected character")
                                  (spanFrom start line column st) st)
                 end
      end
  end.

Fixpoint scan_loop (fuel : nat) (st : Lexer) (tokens : list Token) : option (list Token * Lexer) :=
  match fuel with
  | O => None
  | S fuel =>
      match next (S (remaining st)) st with
      | None => None
      | Some (token, st) =>
          if bool_decide (tok_kind token = TokenKind.Eof) then Some (tokens ++ [token], st)
          else scan_loop fuel st (tokens ++ [token])
      end
  end.

Definition scan (diagnostics : Diagnostics) : option (list Token * Lexer) :=
  scan_loop (S (length source_)) (lexer_start diagnostics) [].
End lexer.

(** ** Positions and the lexical grammar *)

(** Line and column of an offset: one line per newline before it, columns from 1. *)
Definition step_position (p : nat * nat) (c : ascii) : nat * nat :=
  if bool_decide (c = newline) then (S p.1, 1) else (p.1, S p.2).
Definition position (source : bytes) (offset : nat) : nat * nat :=
  fold_left step_position (take offset source) (1, 1).

Section grammar.
Context (source_ : bytes) (sourceId_ : nat).

Definition at2 (i : nat) (a b : ascii) : Prop := source_ !! i = Some a ∧ source_ !! S i = Some b.

(** The rest of a nested block comment, or of one the source does not close. *)
Inductive block_tail : nat → nat → nat → Prop :=
  | block_closed i : block_tail 0 i i
  | block_unterminated d : block_tail (S d) (length source_) (length source_)
  | block_open d i j : at2 i "/" "*" → block_tail (S (S d)) (S (S i)) j → block_tail (S d) i j
  | block_close d i j : at2 i "*" "/" → block_tail d (S (S i)) j → block_tail (S d) i j
  | block_byte d i j : i < length source_ → ¬ at2 i "/" "*" → ¬ at2 i "*" "/" →
      block_tail (S d) (S i) j → block_tail (S d) i j.

(** A byte no token starts with. *)
Definition unexpected (c : ascii) : Prop :=
  isIdentifierStart c = false ∧ isdigit c = false ∧ c ≠ dquote ∧
  assoc c single_tokens = None ∧ assoc c double_tokens = None.

(** What may stand between two tokens. *)
Inductive gap : nat → nat → Prop :=
  | gap_nil i : gap i i
  | gap_space i j c : source_ !! i = Some c → isspace c = true → gap (S i) j → gap i j
  | gap_line i k j : at2 i "/" "/" → i ≤ k ≤ length source_ →
      (∀ m, i ≤ m < k → source_ !! m ≠ Some newline) →
      (k = length source_ ∨ source_ !! k = Some newline) → gap k j → gap i j
  | gap_block i k j : at2 i "/" "*" → block_tail 1 (S (S i)) k → gap k j → gap i j
  | gap_unexpected i j c : source_ !! i = Some c → unexpected c → gap (S i) j → gap i j.

Lemma gap_trans i j k : gap i j → gap j k → gap i k.
Proof.
  induction 1; intros; [done|by eapply gap_space; eauto|by eapply gap_line; eauto|
    by eapply gap_block; eauto|by eapply gap_unexpected; eauto].
Qed.

(** The kinds whose text is not fixed. *)
Definition open_kind (kind : TokenKind) : bool :=
  match kind with
  | TokenKind.Eof | TokenKind.Identifier | TokenKind.Integer | TokenKind.Floating | TokenKind.String => true
  | _ => false
  end.

(** A token read from [start] up to [stop]. *)
Record token_at (start : nat) (t : Token) (stop : nat) : Prop := {
  ta_offset : span_offset (tok_span t) = start;
  ta_length : start + span_length (tok_span t) = stop;
  ta_source : span_source (tok_span t) = sourceId_;
  ta_position : (span_line (tok_span t), span_column (tok_span t)) = position source_ start;
  ta_stop : stop ≤ length source_;
  ta_eof : tok_kind t = TokenKind.Eof ↔ start = length source_;
  ta_nonempty : tok_kind t ≠ TokenKind.Eof → start < stop;
  ta_text : tok_kind t ≠ TokenKind.String → tok_text t = substr source_ start stop;
  ta_fixed : open_kind (tok_kind t) = false → tok_text t = tokenName (tok_kind t);
  ta_word : ∀ c, source_ !! start = Some c → isIdentifierStart c = true →
    Forall (λ c, isIdentifierPart c = true) (tok_text t) ∧ tok_kind t = identifierKind (tok_text t) ∧
    ∀ d, source_ !! stop = Some d → isIdentifierPart d = false;
  ta_number : ∀ c, source_ !! start = Some c → isdigit c = true →
    (tok_kind t = TokenKind.Integer ∧ Forall (λ c, isdigit c = true) (tok_text t) ∨
     tok_kind t = TokenKind.Floating ∧ ¬ Forall (λ c, isdigit c = true) (tok_text t)) ∧
    ∀ d, source_ !! stop = Some d → isdigit d = false;
  ta_quote : source_ !! start = Some dquote ↔ tok_kind t = TokenKind.String;
  ta_no_comment : ¬ at2 start "/" "/" ∧ ¬ at2 start "/" "*";
}.

(** A [// SAFETY:] comment in the gap before a token, on the line above it. *)
Definition safety_comment (from start : nat) (t : Token) : Prop :=
  ∃ i, gap from i ∧ i < start ∧ starts_with (lit "// SAFETY:") (drop i source_) = true ∧
       span_line (tok_span t) = (position source_ i).1 + 1.

(** The text from an offset on is a sequence of tokens with gaps between them. *)
Inductive lexed : nat → list Token → Prop :=
  | lexed_eof from start t : gap from start → token_at start t start →
      (leadingSafetyProof t = true → safety_comment from start t) →
      tok_kind t = TokenKind.Eof → lexed from [t]
  | lexed_token from start t stop ts : gap from start → token_at start t stop →
      (leadingSafetyProof t = true → safety_comment from start t) →
      tok_kind t ≠ TokenKind.Eof → lexed stop ts → lexed from (t :: ts).
End grammar.

(** ** Movement of the lexer *)
Section movement.
Context (source_ : bytes) (sourceId_ : nat).
Implicit Types st : Lexer.

(** The counters agree with the offset, which is inside the source. *)
Definition pos_ok st : Prop :=
  offset_ st ≤ length source_ ∧ (line_ st, column_ st) = position source_ (offset_ st).
(** [st'] is further on, with the pending safety comment of [st]. *)
Definition moves st st' : Prop :=
  pos_ok st' ∧ offset_ st ≤ offset_ st' ∧ safetyCommentLine_ st' = safetyCommentLine_ st.

Lemma moves_refl st : pos_ok st → moves st st.
Proof. by repeat split; try apply H. Qed.
Lemma moves_trans st1 st2 st3 : moves st1 st2 → moves st2 st3 → moves st1 st3.
Proof. intros (?&?&?) (?&?&?). repeat split; try apply H2; [lia|congruence]. Qed.
Lemma moves_report st st' code message span :
  moves st st' → moves st (report_error code message span st').
Proof. by intros (?&?&?). Qed.

Lemma atEnd_false st : atEnd source_ st = false ↔ offset_ st < length source_.
Proof. unfold atEnd. to_prop. lia. Qed.
Lemma atEnd_true st : atEnd source_ st = true ↔ length source_ ≤ offset_ st.
Proof. unfold atEnd. by to_prop. Qed.

Lemma peek_lookup k st c : c ≠ nul → peek source_ k st = c ↔ source_ !! (offset_ st + k) = Some c.
Proof.
  intros Hc. unfold peek. destruct (source_ !! (offset_ st + k)) as [d|]; simpl; naive_solver.
Qed.
Lemma peek0 st c : source_ !! offset_ st = Some c → peek source_ 0 st = c.
Proof. unfold peek. rewrite Nat.add_0_r. by intros ->. Qed.
Lemma peek_inside k st : peek source_ k st ≠ nul → offset_ st + k < length source_.
Proof.
  unfold peek. destruct (source_ !! (offset_ st + k)) eqn:E; simpl; [|done].
  by apply lookup_lt_Some in E.
Qed.

Lemma position_S n c :
  source_ !! n = Some c → position source_ (S n) = step_position (position source_ n) c.
Proof. intros E. unfold position. by rewrite (take_S_r _ _ _ E), fold_left_app. Qed.

Lemma skip_offset st : offset_ (skip source_ st) = S (offset_ st).
Proof. unfold skip, advance. cbn. by case_bool_decide. Qed.
Lemma skip_moves st : pos_ok st → atEnd source_ st = false → moves st (skip source_ st).
Proof.
  intros [Hle Hp] Hend%atEnd_false. apply lookup_lt_is_Some in Hend as Hc. destruct Hc as [c Hc].
  unfold moves, pos_ok. rewrite skip_offset, (position_S _ _ Hc), <- Hp.
  unfold skip, advance, step_position. rewrite Hc. cbn.
  by case_bool_decide; cbn; repeat split; try lia.
Qed.
Lemma skip_peek_moves st0 st : moves st0 st → peek source_ 0 st ≠ nul → moves st0 (skip source_ st).
Proof.
  intros H Hp%peek_inside. eapply moves_trans; [done|].
  apply skip_moves; [apply H|]. apply atEnd_false. lia.
Qed.
Lemma advance_skip st : advance source_ st = (default nul (source_ !! offset_ st), skip source_ st).
Proof. done. Qed.

(** [while (condition) advance();], for a condition on the offset only. *)
Lemma while_skip_spec (cond : Lexer → bool) (g : nat → bool) fuel st :
  (∀ st, cond st = g (offset_ st)) → (∀ n, g n = true → n < length source_) →
  pos_ok st → remaining source_ st ≤ fuel →
  let st' := while_skip source_ fuel cond st in
  moves st st' ∧ g (offset_ st') = false ∧ ∀ i, offset_ st ≤ i < offset_ st' → g i = true.
Proof.
  intros Hcond Hg. revert st. induction fuel as [|fuel IH]; intros st Hst Hf; cbn [while_skip].
  - split; [by apply moves_refl|]. split; [|lia].
    apply not_true_iff_false. intros ?%Hg. unfold remaining in Hf. lia.
  - destruct (cond st) eqn:E; rewrite Hcond in E; [|split; [by apply moves_refl|by split; [|lia]]].
    apply Hg in E as Hlt. apply atEnd_false in Hlt. pose proof (skip_moves _ Hst Hlt) as Hm.
    apply atEnd_false in Hlt.
    destruct (IH (skip source_ st)) as (Hm' & Hend & Hall); [apply Hm| |].
    { unfold remaining in *. rewrite skip_offset. lia. }
    split; [by eapply moves_trans|]. split; [done|]. intros i Hi.
    destruct (decide (i = offset_ st)) as [->|]; [done|]. apply Hall. rewrite skip_offset. lia.
Qed.

(** The loops over a class of bytes. *)
Definition byte_in (f : ascii → bool) (n : nat) : bool := f (default nul (source_ !! n)).
Lemma skip_bytes_spec (f : ascii → bool) st :
  f nul = false → pos_ok st →
  let st' := skip_while source_ (λ st, f (peek source_ 0 st)) st in
  moves st st' ∧ byte_in f (offset_ st') = false ∧
  ∀ i, offset_ st ≤ i < offset_ st' → byte_in f i = true.
Proof.
  intros Hf Hst. apply while_skip_spec; [|intros n|done|done].
  - intros st'. unfold peek, byte_in. by rewrite Nat.add_0_r.
  - unfold byte_in. destruct (source_ !! n) eqn:E; simpl; [|congruence]. intros _.
    by apply lookup_lt_Some in E.
Qed.

(** ** [skipIgnored] *)

Lemma line_comment_spec st :
  pos_ok st → at2 source_ (offset_ st) "/" "/" →
  let st' := line_comment source_ st in
  pos_ok st' ∧ offset_ st < offset_ st' ∧
  (∀ m, offset_ st ≤ m < offset_ st' → source_ !! m ≠ Some newline) ∧
  (offset_ st' = length source_ ∨ source_ !! offset_ st' = Some newline) ∧
  (safetyCommentLine_ st' = safetyCommentLine_ st ∨
   safetyCommentLine_ st' = Some (line_ st) ∧
   starts_with (lit "// SAFETY:") (substr source_ (offset_ st) (offset_ st')) = true).
Proof.
  intros Hst [H1 _]. unfold line_comment, skip_while. cbv zeta.
  set (g n := bool_decide (n < length source_) && negb (bool_decide (source_ !! n = Some newline))).
  destruct (while_skip_spec
    (λ st, negb (atEnd source_ st) && negb (bool_decide (peek source_ 0 st = newline))) g
    (remaining source_ st) st) as (Hm & Hend & Hall); [| |done|done|].
  { intros st'. unfold g. f_equal; [|f_equal; apply bool_decide_ext; by rewrite peek_lookup, Nat.add_0_r].
    unfold atEnd. rewrite <- bool_decide_not. apply bool_decide_ext. lia. }
  { unfold g. intros n. to_prop. tauto. }
  set (st' := while_skip _ _ _ _) in *.
  assert (offset_ st < offset_ st') as Hlt.
  { destruct (decide (offset_ st' = offset_ st)) as [E|]; [|destruct Hm as (_ & ? & _); lia].
    rewrite E in Hend. unfold g in Hend. apply lookup_lt_Some in H1 as ?.
    rewrite bool_decide_true, bool_decide_false in Hend by (done || by rewrite H1). done. }
  assert (∀ m, offset_ st ≤ m < offset_ st' → source_ !! m ≠ Some newline) as Hall'.
  { intros m Hmm. specialize (Hall m Hmm). unfold g in Hall. to_prop. tauto. }
  assert (offset_ st' = length source_ ∨ source_ !! offset_ st' = Some newline) as Hend'.
  { unfold g in Hend. destruct Hm as ([? _] & _). to_prop. destruct Hend as [?|Hn]; [left; lia|right].
    done. }
  destruct Hm as ([Hle Hp] & _ & Hs).
  by destruct (starts_with _ _) eqn:E; cbn; repeat split; auto.
Qed.

Lemma peek2 st a b : a ≠ nul → b ≠ nul →
  bool_decide (peek source_ 0 st = a) && bool_decide (peek source_ 1 st = b) = true ↔
  at2 source_ (offset_ st) a b.
Proof.
  intros. unfold at2. rewrite andb_true_iff, !bool_decide_eq_true, !peek_lookup by done.
  by rewrite Nat.add_0_r, Nat.add_1_r.
Qed.
Lemma peek2_false st a b : a ≠ nul → b ≠ nul →
  bool_decide (peek source_ 0 st = a) && bool_decide (peek source_ 1 st = b) = false ↔
  ¬ at2 source_ (offset_ st) a b.
Proof. intros. by rewrite <- peek2, not_true_iff_false. Qed.

(** Over two bytes the lexer has looked at. *)
Lemma skip_skip st a b : pos_ok st → at2 source_ (offset_ st) a b →
  moves st (skip source_ (skip source_ st)) ∧
  offset_ (skip source_ (skip source_ st)) = S (S (offset_ st)).
Proof.
  intros Hst [H1%lookup_lt_Some H2%lookup_lt_Some]. rewrite !skip_offset. split; [|done].
  eapply moves_trans; [apply skip_moves; [done|by apply atEnd_false]|].
  apply skip_moves; [|apply atEnd_false; by rewrite skip_offset].
  apply skip_moves; [done|by apply atEnd_false].
Qed.

Lemma block_loop_spec fuel depth st :
  pos_ok st → remaining source_ st ≤ fuel →
  let r := block_loop source_ fuel depth st in
  moves st r.2 ∧ block_tail source_ depth (offset_ st) (offset_ r.2).
Proof.
  revert depth st. induction fuel as [|fuel IH]; intros depth st Hst Hf; cbn [block_loop].
  { split; [by apply moves_refl|]. cbn. destruct Hst as [? _]. unfold remaining in Hf.
    replace (offset_ st) with (length source_) by lia. destruct depth; constructor. }
  destruct (atEnd source_ st) eqn:Hend; cbn [negb andb].
  { split; [by apply moves_refl|]. apply atEnd_true in Hend. destruct Hst as [? _]. cbn.
    replace (offset_ st) with (length source_) by lia. destruct depth; constructor. }
  apply atEnd_false in Hend as Hlt. case_bool_decide as Hd; cbn [negb].
  { subst. split; [by apply moves_refl|constructor]. }
  destruct depth as [|depth]; [done|]. unfold remaining in Hf.
  destruct (_ && _) eqn:E1; [|destruct (_ && _) eqn:E2 in |- *].
  - apply peek2 in E1; [|done..]. destruct (skip_skip st _ _ Hst E1) as [Hm Ho].
    destruct (IH (S (S depth)) (skip source_ (skip source_ st))) as [Hm' Hb];
      [apply Hm|unfold remaining; lia|].
    split; [by eapply moves_trans|]. apply block_open; [done|]. by rewrite <- Ho.
  - apply peek2 in E2; [|done..]. destruct (skip_skip st _ _ Hst E2) as [Hm Ho].
    destruct (IH depth (skip source_ (skip source_ st))) as [Hm' Hb];
      [apply Hm|unfold remaining; lia|]. cbn [Nat.sub]. rewrite Nat.sub_0_r.
    split; [by eapply moves_trans|]. apply block_close; [done|]. by rewrite <- Ho.
  - apply peek2_false in E1, E2; [|done..]. pose proof (skip_moves _ Hst Hend) as Hm.
    destruct (IH (S depth) (skip source_ st)) as [Hm' Hb];
      [apply Hm|unfold remaining; rewrite skip_offset; lia|].
    split; [by eapply moves_trans|]. apply block_byte; try done. by rewrite <- skip_offset.
Qed.

Lemma block_comment_spec st :
  pos_ok st → at2 source_ (offset_ st) "/" "*" →
  let st' := block_comment source_ sourceId_ st in
  moves st st' ∧ offset_ st < offset_ st' ∧
  block_tail source_ 1 (S (S (offset_ st))) (offset_ st').
Proof.
  intros Hst H. destruct (skip_skip st _ _ Hst H) as [Hm Ho].
  destruct (block_loop_spec (remaining source_ (skip source_ (skip source_ st))) 1
    (skip source_ (skip source_ st))) as [Hm' Hb]; [apply Hm|done|].
  rewrite Ho in Hb. unfold block_comment.
  destruct (block_loop _ _ _ _) as [depth st'] eqn:E. cbn [fst snd] in Hm', Hb.
  assert (offset_ st < offset_ st') by (destruct Hm' as (_ & ? & _); lia).
  pose proof (moves_trans _ _ _ Hm Hm').
  case_bool_decide; cbn; [|done]. split; [by apply moves_report|done].
Qed.

(** The pending safety comment is one that stands behind [base]. *)
Definition safe_from (base : nat) st : Prop :=
  ∀ l, safetyCommentLine_ st = Some l →
  ∃ i, gap source_ base i ∧ i < offset_ st ∧
    starts_with (lit "// SAFETY:") (drop i source_) = true ∧ (position source_ i).1 = l.

Lemma safe_from_moves base st st' : moves st st' → safe_from base st → safe_from base st'.
Proof.
  intros (_ & ? & Hs) Hsafe l Hl. rewrite Hs in Hl. destruct (Hsafe l Hl) as (i & ? & ? & ? & ?).
  exists i. split_and!; [done|lia|done..].
Qed.

Lemma starts_with_substr p i j :
  starts_with p (substr source_ i j) = true → starts_with p (drop i source_) = true.
Proof.
  unfold substr. intros (r & E)%starts_with_prefix.
  rewrite <- (take_drop (j - i) (drop i source_)), E, <- app_assoc. apply starts_with_app.
Qed.

Lemma skipIgnored_spec fuel st :
  pos_ok st → remaining source_ st < fuel →
  ∃ st', skipIgnored source_ sourceId_ fuel st = Some st' ∧
    pos_ok st' ∧ offset_ st ≤ offset_ st' ∧ gap source_ (offset_ st) (offset_ st') ∧
    (¬ at2 source_ (offset_ st') "/" "/" ∧ ¬ at2 source_ (offset_ st') "/" "*") ∧
    (∀ base, gap source_ base (offset_ st) → safe_from base st → safe_from base st').
Proof.
  revert st. induction fuel as [|fuel IH]; intros st Hst Hf; [lia|]. cbn [skipIgnored].
  assert (∀ st1, pos_ok st1 → offset_ st < offset_ st1 →
    (∀ j, gap source_ (offset_ st1) j → gap source_ (offset_ st) j) →
    (∀ base, gap source_ base (offset_ st) → safe_from base st → safe_from base st1) → 
    ∃ st', skipIgnored source_ sourceId_ fuel st1 = Some st' ∧
    pos_ok st' ∧ offset_ st ≤ offset_ st' ∧ gap source_ (offset_ st) (offset_ st') ∧
    (¬ at2 source_ (offset_ st') "/" "/" ∧ ¬ at2 source_ (offset_ st') "/" "*") ∧
    (∀ base, gap source_ base (offset_ st) → safe_from base st → safe_from base st')) as Hrec.
  { intros st1 Hst1 Hlt Hg Hs. destruct (IH st1) as (st' & ? & ? & ? & ? & ? & Hs'); [done| |].
    { unfold remaining in *. destruct Hst1. lia. }
    exists st'. split_and!; try done; [lia|by apply Hg|tauto..|].
    intros base Hb Hsafe. apply Hs'; [eapply gap_trans; [done|apply Hg, gap_nil]|by apply Hs]. }
  destruct (atEnd source_ st) eqn:Hend.
  { exists st. apply atEnd_true in Hend. unfold at2. rewrite (lookup_ge_None_2 source_ (offset_ st)) by done.
    split_and!; try done; [constructor|naive_solver..]. }
  apply atEnd_false in Hend as Hlt. destruct (lookup_lt_is_Some_2 _ _ Hlt) as [c Hc].
  rewrite (peek0 _ _ Hc). destruct (isspace c) eqn:Hsp.
  { pose proof (skip_moves _ Hst Hend) as Hm. apply Hrec; rewrite ?skip_offset; [apply Hm|lia| |].
    - intros j. by eapply gap_space.
    - intros base _. by apply safe_from_moves. }
  rewrite <- (peek0 _ _ Hc). destruct (_ && _) eqn:E1; [|destruct (_ && _) eqn:E2 in |- *].
  - apply peek2 in E1; [|done..]. destruct (line_comment_spec _ Hst E1) as (Hst' & Hlt' & Hno & Hstop & Hs).
    apply Hrec; [done..| |].
    + intros j. apply gap_line; [done| |done..]. destruct Hst'. lia.
    + intros base Hb Hsafe l Hl. destruct Hs as [Hs|[Hs Hw]]; rewrite Hl in Hs.
      * destruct (Hsafe l) as (i & ? & ? & ? & ?); [done|]. exists i. split_and!; [done|lia|done..].
      * exists (offset_ st). split; [done|]. split; [lia|]. split; [by eapply starts_with_substr|].
        destruct Hst as [_ <-]. simpl. congruence.
  - apply peek2 in E2; [|done..]. destruct (block_comment_spec _ Hst E2) as (Hm & Hlt' & Hb).
    apply Hrec; [apply Hm|done| |].
    + intros j. by eapply gap_block.
    + intros base _. by apply safe_from_moves.
  - apply peek2_false in E1, E2; [|done..]. exists st. split_and!; try done. constructor.
Qed.

(** ** Tokens *)

(** Over bytes of the same line. *)
Definition stays st st' : Prop := moves st st' ∧ line_ st' = line_ st.

Lemma stays_refl st : pos_ok st → stays st st.
Proof. split; [by apply moves_refl|done]. Qed.
Lemma stays_trans st1 st2 st3 : stays st1 st2 → stays st2 st3 → stays st1 st3.
Proof. intros [? E1] [? E2]. split; [by eapply moves_trans|congruence]. Qed.
Lemma stays_skip st : pos_ok st → peek source_ 0 st ≠ nul → peek source_ 0 st ≠ newline →
  stays st (skip source_ st).
Proof.
  intros Hst H0 H1. split; [apply skip_peek_moves; [by apply moves_refl|done]|].
  unfold skip, advance. unfold peek in H1. rewrite Nat.add_0_r in H1. by rewrite bool_decide_false.
Qed.
Lemma while_skip_line fuel cond st :
  (∀ st, cond st = true → peek source_ 0 st ≠ newline) →
  line_ (while_skip source_ fuel cond st) = line_ st.
Proof.
  intros Hc. revert st. induction fuel as [|fuel IH]; intros st; cbn [while_skip]; [done|].
  destruct (cond st) eqn:E; [|done]. rewrite IH. apply Hc in E.
  unfold skip, advance. unfold peek in E. rewrite Nat.add_0_r in E. by rewrite bool_decide_false.
Qed.

(** The loop [while (f(peek())) advance();] stays on the line, passes bytes of [f]
    and stops before another one. *)
Lemma skip_bytes_stays (f : ascii → bool) st :
  f nul = false → f newline = false → pos_ok st →
  let st' := skip_while source_ (λ st, f (peek source_ 0 st)) st in
  stays st st' ∧ byte_in f (offset_ st') = false ∧
  ∀ i, offset_ st ≤ i < offset_ st' → byte_in f i = true.
Proof.
  intros H0 H1 Hst. destruct (skip_bytes_spec f st H0 Hst) as (? & ? & ?). split; [|done].
  split; [done|]. apply while_skip_line. intros st' ? E. congruence.
Qed.

Lemma byte_in_stop f i : byte_in f i = false → ∀ d, source_ !! i = Some d → f d = false.
Proof. unfold byte_in. intros H d E. by rewrite E in H. Qed.
Lemma length_substr i j : i ≤ j ≤ length source_ → length (substr source_ i j) = j - i.
Proof. intros. unfold substr. rewrite length_take, length_drop. lia. Qed.
Lemma lookup_substr i j k c : substr source_ i j !! k = Some c → source_ !! (i + k) = Some c ∧ k < j - i.
Proof. unfold substr. by intros [E ?]%lookup_take_Some; rewrite lookup_drop in E. Qed.
Lemma substr_Forall f i j :
  (∀ m, i ≤ m < j → byte_in f m = true) → Forall (λ c, f c = true) (substr source_ i j).
Proof.
  intros H. apply Forall_lookup. intros k c [E ?]%lookup_substr.
  specialize (H (i + k) ltac:(lia)). unfold byte_in in H. by rewrite E in H.
Qed.
Lemma substr_one i c : source_ !! i = Some c → substr source_ i (S i) = [c].
Proof. intros E. unfold substr. rewrite (drop_S _ _ _ E). by replace (S i - i) with 1 by lia. Qed.
Lemma substr_two i c d : source_ !! i = Some c → source_ !! S i = Some d →
  substr source_ i (S (S i)) = [c; d].
Proof.
  intros E1 E2. unfold substr. rewrite (drop_S _ _ _ E1), (drop_S _ _ _ E2).
  by replace (S (S i) - i) with 2 by lia.
Qed.

(** The state behind the first byte of a token. *)
Record behind st c st1 : Prop := {
  bh_byte : source_ !! offset_ st = Some c;
  bh_ok : pos_ok st1;
  bh_offset : offset_ st1 = S (offset_ st);
  bh_line : line_ st1 = line_ st;
  bh_column : column_ st1 = S (column_ st);
  bh_safety : safetyCommentLine_ st1 = safetyCommentLine_ st;
}.
Lemma skip_behind st c : pos_ok st → source_ !! offset_ st = Some c → c ≠ newline →
  behind st c (skip source_ st).
Proof.
  intros Hst Hc Hn. assert (atEnd source_ st = false) by (by eapply atEnd_false, lookup_lt_Some).
  split; [done|by apply skip_moves|apply skip_offset|..];
    unfold skip, advance; rewrite Hc; cbn; by rewrite bool_decide_false.
Qed.

Definition no_comment st : Prop :=
  ¬ at2 source_ (offset_ st) "/" "/" ∧ ¬ at2 source_ (offset_ st) "/" "*".

Lemma make_token st c st1 st' kind text p :
  pos_ok st → no_comment st → behind st c st1 → moves st1 st' → kind ≠ TokenKind.Eof →
  let start := offset_ st in
  let stop := offset_ st' in
  (kind ≠ TokenKind.String → text = substr source_ start stop) →
  (open_kind kind = false → text = tokenName kind) →
  (isIdentifierStart c = true →
    Forall (λ c, isIdentifierPart c = true) text ∧ kind = identifierKind text ∧
    byte_in isIdentifierPart stop = false) →
  (isdigit c = true →
    (kind = TokenKind.Integer ∧ Forall (λ c, isdigit c = true) text ∨
     kind = TokenKind.Floating ∧ ¬ Forall (λ c, isdigit c = true) text) ∧ byte_in isdigit stop = false) →
  (c = dquote ↔ kind = TokenKind.String) →
  token_at source_ sourceId_ start
    (mkToken kind text (mkSpan start (stop - start) (line_ st) (column_ st) sourceId_) p) stop.
Proof.
  intros [Hle Hp] Hnc Hb (Hst' & Ho & _) Hk start stop Ht Hf Hw Hn Hq.
  pose proof (bh_byte _ _ _ Hb) as Hc. pose proof (bh_offset _ _ _ Hb) as Ho1.
  apply lookup_lt_Some in Hc as Hlt. destruct Hst' as [Hle' _].
  split; unfold start, stop in *; cbn; try done; try lia.
  - split; [done|lia].
  - intros d [= <-]%(eq_trans (eq_sym Hc)) Hd. destruct (Hw Hd) as (? & ? & ?).
    split_and!; [done..|by apply byte_in_stop].
  - intros d [= <-]%(eq_trans (eq_sym Hc)) Hd. destruct (Hn Hd).
    split; [done|by apply byte_in_stop].
  - rewrite Hc, <- Hq. split; [by intros [= ->]|by intros ->].
Qed.

Lemma identifierKind_shape text :
  identifierKind text = TokenKind.Identifier ∨
  open_kind (identifierKind text) = false ∧ text = tokenName (identifierKind text).
Proof.
  assert (Forall (λ e, open_kind e.2 = false ∧ e.1 = tokenName e.2) keywords) as H by by repeat constructor.
  rewrite Forall_forall in H. destruct (keyword_in_table keywords text) as [[? _]|Hin]; [by left|right].
  apply (H _ Hin).
Qed.

Lemma identifierKind_not text :
  identifierKind text ≠ TokenKind.Eof ∧ identifierKind text ≠ TokenKind.String ∧
  (open_kind (identifierKind text) = false → text = tokenName (identifierKind text)).
Proof.
  destruct (identifierKind_shape text) as [->|[E1 E2]]; [done|].
  split_and!; [by intros E; rewrite E in E1..|done].
Qed.

Lemma start_not_newline c : isIdentifierStart c = true → c ≠ newline.
Proof. by intros H ->. Qed.
Lemma start_classes c : isIdentifierStart c = true → isdigit c = false ∧ c ≠ dquote ∧ isIdentifierPart c = true.
Proof. byte_cases c. Qed.
Lemma digit_classes c : isdigit c = true → isIdentifierStart c = false ∧ c ≠ dquote ∧ c ≠ newline.
Proof. byte_cases c. Qed.

Lemma span_behind st c st1 st' : behind st c st1 → stays st1 st' →
  spanFrom sourceId_ (offset_ st1 - 1) (line_ st') (column_ st1 - 1) st' =
  mkSpan (offset_ st) (offset_ st' - offset_ st) (line_ st) (column_ st) sourceId_.
Proof.
  intros [_ _ Ho Hl Hc _] [_ E]. unfold spanFrom.
  rewrite Ho, Hc, E, Hl, !Nat.sub_succ, !Nat.sub_0_r. done.
Qed.

Lemma identifier_spec st c st1 p :
  pos_ok st → no_comment st → behind st c st1 → isIdentifierStart c = true →
  let r := with_proof p (identifier source_ sourceId_ st1) in
  moves st1 r.2 ∧ token_at source_ sourceId_ (offset_ st) r.1 (offset_ r.2).
Proof.
  intros Hst Hnc Hb Hc. unfold identifier.
  destruct (skip_bytes_stays isIdentifierPart st1) as (Hs & Hend & Hall); [done..|apply Hb|].
  cbn [with_proof fst snd tok_kind tok_text tok_span]. set (st' := skip_while _ _ _) in *.
  destruct (start_classes c Hc) as (Hd & Hq & Hpart). split; [apply Hs|].
  rewrite (span_behind _ _ _ _ Hb Hs). rewrite (bh_offset _ _ _ Hb) in *. rewrite Nat.sub_succ, Nat.sub_0_r.
  set (text := substr _ _ _).
  assert (Forall (λ c, isIdentifierPart c = true) text) as Htext.
  { apply substr_Forall. intros m Hm. destruct (decide (m = offset_ st)) as [->|].
    - unfold byte_in. by rewrite (bh_byte _ _ _ Hb).
    - apply Hall. lia. }
  destruct (identifierKind_not text) as (He & Hs' & Hf).
  apply (make_token _ c st1); try done; [apply Hs|congruence].
Qed.

(** ** Numbers *)

Lemma digits_stays st : pos_ok st →
  stays st (digits source_ st) ∧ byte_in isdigit (offset_ (digits source_ st)) = false ∧
  ∀ i, offset_ st ≤ i < offset_ (digits source_ st) → byte_in isdigit i = true.
Proof. by apply skip_bytes_stays. Qed.

(** A byte that is not a digit was passed between two states. *)
Definition passed st st' : Prop :=
  ∃ m, offset_ st ≤ m < offset_ st' ∧ m < length source_ ∧ byte_in isdigit m = false.

Lemma not_all_digits i m j :
  i ≤ m < j → m < length source_ → byte_in isdigit m = false →
  ¬ Forall (λ c, isdigit c = true) (substr source_ i j).
Proof.
  intros Hm Hlt Hb H. rewrite Forall_lookup in H.
  destruct (lookup_lt_is_Some_2 source_ m Hlt) as [c Hc]. unfold byte_in in Hb. rewrite Hc in Hb. cbn in Hb.
  specialize (H (m - i) c). rewrite H in Hb; [done|]. unfold substr.
  apply lookup_take_Some. rewrite lookup_drop. split; [|lia]. by replace (i + (m - i)) with m by lia.
Qed.

(** Behind a byte that is not a digit, the digits that follow. *)
Lemma skip_digits st st1 :
  pos_ok st → peek source_ 0 st ≠ nul → peek source_ 0 st ≠ newline → isdigit (peek source_ 0 st) = false →
  stays (skip source_ st) st1 →
  stays st (digits source_ st1) ∧ byte_in isdigit (offset_ (digits source_ st1)) = false ∧
  passed st (digits source_ st1).
Proof.
  intros Hst H0 H1 Hd Hs. destruct (digits_stays st1) as (Hs' & ? & _); [apply Hs|].
  split; [by eapply stays_trans; [apply stays_skip|eapply stays_trans]|]. split; [done|].
  exists (offset_ st). destruct Hs as [(_ & Ho & _) _]. rewrite skip_offset in Ho.
  destruct Hs' as [(_ & ? & _) _]. apply peek_inside in H0 as ?.
  unfold byte_in. unfold peek in Hd. rewrite Nat.add_0_r in Hd. split_and!; [lia..|done].
Qed.

(** The optional fraction and exponent: nothing, or text with a byte that is no digit. *)
Lemma fraction_step st : pos_ok st → byte_in isdigit (offset_ st) = false →
  let r := if fraction source_ st then (TokenKind.Floating, digits source_ (skip source_ st))
           else (TokenKind.Integer, st) in
  stays st r.2 ∧ byte_in isdigit (offset_ r.2) = false ∧
  (r = (TokenKind.Integer, st) ∨ r.1 = TokenKind.Floating ∧ passed st r.2).
Proof.
  intros Hst Hb. unfold fraction. destruct (_ && _) eqn:E; cbn [fst snd].
  - to_prop. destruct E as [E _].
    destruct (skip_digits st (skip source_ st)) as (? & ? & ?); try by rewrite ?E.
    { apply stays_refl. apply stays_skip; by rewrite ?E. }
    auto.
  - auto using stays_refl.
Qed.

Lemma exponent_step kind st : pos_ok st → byte_in isdigit (offset_ st) = false →
  let r := if exponent source_ st then
             let st := skip source_ st in
             let st := if exponent_sign (peek source_ 0 st) then skip source_ st else st in
             (TokenKind.Floating, digits source_ st)
           else (kind, st) in
  stays st r.2 ∧ byte_in isdigit (offset_ r.2) = false ∧
  (r = (kind, st) ∨ r.1 = TokenKind.Floating ∧ passed st r.2).
Proof.
  intros Hst Hb. cbv zeta. destruct (exponent source_ st) eqn:E; cbn [fst snd]; [|auto using stays_refl].
  assert (peek source_ 0 st ≠ nul ∧ peek source_ 0 st ≠ newline ∧ isdigit (peek source_ 0 st) = false)
    as (H0 & H1 & Hd).
  { unfold exponent in E. to_prop. by destruct E as [[->| ->] _]. }
  destruct (stays_skip st) as [Hm Hl]; [done..|].
  destruct (skip_digits st (if exponent_sign (peek source_ 0 (skip source_ st))
    then skip source_ (skip source_ st) else skip source_ st)) as (? & ? & ?); try done; [|by auto].
  destruct (exponent_sign _) eqn:Es; [|apply stays_refl, Hm].
  unfold exponent_sign in Es. to_prop. apply stays_skip; [apply Hm|by destruct Es as [->| ->]..].
Qed.

Lemma number_spec st c st1 p :
  pos_ok st → no_comment st → behind st c st1 → isdigit c = true →
  let r := with_proof p (number source_ sourceId_ st1) in
  moves st1 r.2 ∧ token_at source_ sourceId_ (offset_ st) r.1 (offset_ r.2).
Proof.
  intros Hst Hnc Hb Hc. unfold number. cbv zeta.
  destruct (digits_stays st1) as (Hs & Hend & Hall); [apply Hb|]. set (st2 := digits source_ st1) in *.
  destruct (fraction_step st2) as (Hs2 & Hend2 & Hk2); [apply Hs|done|].
  destruct (if fraction source_ st2 then _ else _) as [kind2 st3]. cbn [fst snd] in *.
  destruct (exponent_step kind2 st3) as (Hs3 & Hend3 & Hk3); [apply Hs2|done|]. cbv zeta in *.
  destruct (if exponent source_ st3 then _ else _) as [kind st']. cbn [fst snd] in *.
  assert (stays st1 st') as Hstay by (eapply stays_trans; [done|by eapply stays_trans]).
  cbn [with_proof fst snd tok_kind tok_text tok_span].
  rewrite (span_behind _ _ _ _ Hb Hstay). destruct (digit_classes c Hc) as (Hi & Hq & _).
  pose proof (bh_offset _ _ _ Hb) as Ho. rewrite Ho, Nat.sub_succ, Nat.sub_0_r in *. split; [apply Hstay|].
  destruct Hs as [(_ & Ho1 & _) _], Hs2 as [(_ & Ho2 & _) _], Hs3 as [(_ & Ho3 & _) _].
  assert (kind = TokenKind.Integer ∧ st' = st2 ∨ kind = TokenKind.Floating ∧ passed st2 st') as Hk.
  { destruct Hk3 as [[= -> ->]|[? (m & ? & ? & ?)]]; [|right; split; [done|]; exists m; split_and!; (done || lia)].
    destruct Hk2 as [[= -> ->]|[? (m & ? & ? & ?)]]; [by left|]. 
    right; split; [done|]; exists m; split_and!; (done || lia). }
  apply (make_token _ c st1); try done.
  - apply Hstay.
  - by destruct Hk as [[-> _]|[-> _]].
  - by destruct Hk as [[-> _]|[-> _]].
  - congruence.
  - intros _. split; [|done]. destruct Hk as [[-> ->]|[-> (m & ? & ? & ?)]]; [left|right].
    + split; [done|]. apply substr_Forall. intros m Hm. destruct (decide (m = offset_ st)) as [->|].
      * unfold byte_in. by rewrite (bh_byte _ _ _ Hb).
      * apply Hall. lia.
    + split; [done|]. apply (not_all_digits _ m); [lia|done..].
  - split; [done|]. by destruct Hk as [[-> _]|[-> _]].
Qed.

(** ** Strings and operators *)

Lemma string_loop_spec fuel value st :
  pos_ok st → remaining source_ st ≤ fuel →
  let r := string_loop source_ sourceId_ fuel value st in
  moves st r.2 ∧ (atEnd source_ r.2 = true ∨ peek source_ 0 r.2 = dquote).
Proof.
  revert value st. induction fuel as [|fuel IH]; intros value st Hst Hf; cbn [string_loop].
  { split; [by apply moves_refl|]. left. apply atEnd_true. unfold remaining in Hf. cbn. lia. }
  destruct (atEnd source_ st) eqn:Hend; cbn [negb andb]; [by auto using moves_refl|].
  case_bool_decide as Hq; cbn [negb]; [by auto using moves_refl|]. rewrite advance_skip.
  assert (∀ value' st', moves (skip source_ st) st' →
    let r := string_loop source_ sourceId_ fuel value' st' in
    moves st r.2 ∧ (atEnd source_ r.2 = true ∨ peek source_ 0 r.2 = dquote)) as Hrec.
  { intros value' st' Hm. destruct (IH value' st') as [Hm' ?]; [apply Hm| |].
    - destruct Hm as (_ & Ho & _). rewrite skip_offset in Ho. unfold remaining in *. lia.
    - split; [|done]. eapply moves_trans; [by apply skip_moves|by eapply moves_trans]. }
  pose proof (skip_moves _ Hst Hend) as Hm. pose proof (moves_refl _ (proj1 Hm)) as Hr.
  case_bool_decide; [apply Hrec; by apply moves_report|]. case_bool_decide; [by apply Hrec|].
  destruct (atEnd source_ (skip source_ st)) eqn:Hend'; [by auto|]. rewrite advance_skip.
  pose proof (skip_moves _ (proj1 Hm) Hend'). 
  destruct (escape _); apply Hrec; [done|by apply moves_report].
Qed.

Lemma string_spec st st1 p :
  pos_ok st → no_comment st → behind st dquote st1 →
  let r := with_proof p (string source_ sourceId_ st1) in
  moves st1 r.2 ∧ token_at source_ sourceId_ (offset_ st) r.1 (offset_ r.2).
Proof.
  intros Hst Hnc Hb. unfold string. cbv zeta.
  destruct (string_loop_spec (remaining source_ st1) [] st1) as [Hm Hend]; [apply Hb|done|].
  destruct (string_loop _ _ _ _ _) as [value st2]. cbn [fst snd] in *.
  set (st3 := if atEnd source_ st2 then _ else _).
  assert (moves st1 st3) as Hm3.
  { unfold st3. destruct Hend as [->|Hq]; [by apply moves_report|].
    destruct (atEnd source_ st2); [by apply moves_report|]. apply skip_peek_moves; [done|by rewrite Hq]. }
  set (st' := if isValidUtf8 value then st3 else _).
  assert (moves st1 st') as Hm' by (unfold st'; destruct (isValidUtf8 value); [|apply moves_report]; done).
  cbn [with_proof fst snd tok_kind tok_text tok_span]. unfold spanFrom.
  rewrite (bh_offset _ _ _ Hb), (bh_column _ _ _ Hb), (bh_line _ _ _ Hb), !Nat.sub_succ, !Nat.sub_0_r.
  split; [done|]. by apply (make_token _ dquote st1).
Qed.

Lemma single_shape :
  Forall (λ e, open_kind e.2 = false ∧ [e.1] = tokenName e.2 ∧ e.1 ≠ newline) single_tokens.
Proof. by repeat constructor. Qed.
Lemma double_shape :
  Forall (λ e, let '(a, (b, (k1, k2))) := e in
    open_kind k1 = false ∧ open_kind k2 = false ∧ [a] = tokenName k1 ∧ [a; b] = tokenName k2 ∧
    a ≠ newline ∧ b ≠ newline ∧ b ≠ nul) double_tokens.
Proof. by repeat constructor. Qed.
Lemma assoc_elem {V} key (table : list (ascii * V)) v : assoc key table = Some v → (key, v) ∈ table.
Proof.
  induction table as [|[k w] table IH]; cbn [assoc]; [done|].
  case_bool_decide; [intros [= ->]; subst; by left|right; auto].
Qed.

(** An operator token is spelled as its kind. *)
Lemma operator_spec st c st1 kind text st' :
  pos_ok st → behind st c st1 → operator source_ c (offset_ st) st1 = Some (kind, text, st') →
  moves st1 st' ∧ open_kind kind = false ∧ text = tokenName kind ∧
  text = substr source_ (offset_ st) (offset_ st').
Proof.
  intros Hst Hb. unfold operator.
  pose proof single_shape as Hs. pose proof double_shape as Hd. rewrite Forall_forall in Hs. rewrite Forall_forall in Hd.
  pose proof (bh_offset _ _ _ Hb) as Ho. pose proof (bh_byte _ _ _ Hb) as Hc.
  pose proof (moves_refl _ (bh_ok _ _ _ Hb)) as Hr.
  destruct (assoc c single_tokens) as [k|] eqn:E1.
  { intros [= <- <- <-]. apply assoc_elem in E1. destruct (Hs _ E1) as (? & ? & _).
    rewrite Ho, (substr_one _ c) by done. done. }
  destruct (assoc c double_tokens) as [[b [k1 k2]]|] eqn:E2; [|done].
  apply assoc_elem in E2. destruct (Hd _ E2) as (? & ? & ? & ? & _ & ? & ?).
  destruct (_ && _) eqn:Ej; intros [= <- <- <-].
  - to_prop. destruct Ej as [Hp _]. rewrite skip_offset, Ho.
    assert (source_ !! offset_ st1 = Some b) as Hb2.
    { apply peek_lookup in Hp; [|done]. by rewrite Nat.add_0_r in Hp. }
    rewrite Ho in Hb2. rewrite (substr_two _ c b) by done. split_and!; try done.
    apply skip_peek_moves; [done|by rewrite Hp].
  - by rewrite Ho, (substr_one _ c).
Qed.

(** ** [next] and [scan] *)

Definition token_next st t st' : Prop :=
  pos_ok st' ∧ safetyCommentLine_ st' = None ∧
  ∃ start, gap source_ (offset_ st) start ∧ offset_ st ≤ start ∧
    token_at source_ sourceId_ start t (offset_ st') ∧
    (∀ base, gap source_ base (offset_ st) → safe_from base st →
      leadingSafetyProof t = true → safety_comment source_ base start t).

(** The byte behind the ignored text starts a token, or is unexpected. *)
Lemma dispatch_spec st p : 
  pos_ok st → no_comment st → safetyCommentLine_ st = None → atEnd source_ st = false →
  let '(value, st1) := advance source_ st in
  match
    (if isIdentifierStart value then Some (with_proof p (identifier source_ sourceId_ st1))
     else if isdigit value then Some (with_proof p (number source_ sourceId_ st1))
     else if bool_decide (value = dquote) then Some (with_proof p (string source_ sourceId_ st1))
     else match operator source_ value (offset_ st) st1 with
          | Some (kind, text, st') =>
              Some (mkToken kind text (spanFrom sourceId_ (offset_ st) (line_ st) (column_ st) st') p, st')
          | None => None
          end) with
  | Some (t, st') =>
      pos_ok st' ∧ safetyCommentLine_ st' = None ∧ token_at source_ sourceId_ (offset_ st) t (offset_ st') ∧
      leadingSafetyProof t = p
  | None => source_ !! offset_ st = Some value ∧ unexpected value
  end.
Proof.
  intros Hst Hnc Hsafe Hend. rewrite advance_skip.
  destruct (lookup_lt_is_Some_2 source_ (offset_ st)) as [c Hc]; [by apply atEnd_false|].
  rewrite Hc. change (default nul (Some c)) with c.
  assert (∀ r st1, safetyCommentLine_ st1 = None → moves st1 r.2 ∧ token_at source_ sourceId_ (offset_ st) r.1 (offset_ r.2) →
    leadingSafetyProof r.1 = p →
    pos_ok r.2 ∧ safetyCommentLine_ r.2 = None ∧
    token_at source_ sourceId_ (offset_ st) r.1 (offset_ r.2) ∧ leadingSafetyProof r.1 = p) as Hgo.
  { intros [t st'] st1 Hs [(? & ? & E) ?] ?. cbn in *. rewrite E. done. }
  assert (c ≠ newline → behind st c (skip source_ st)) as Hb by (by apply skip_behind).
  assert (safetyCommentLine_ (skip source_ st) = None) as Hs1.
  { destruct (skip_moves _ Hst Hend) as (_ & _ & E). congruence. }
  destruct (isIdentifierStart c) eqn:Ei.
  { refine (Hgo (with_proof _ (identifier source_ sourceId_ _)) _ Hs1 _ eq_refl). eapply identifier_spec; try done.
    by apply Hb, start_not_newline. }
  destruct (isdigit c) eqn:Ed.
  { refine (Hgo (with_proof _ (number source_ sourceId_ _)) _ Hs1 _ eq_refl). eapply number_spec; try done.
    by apply Hb, digit_classes. }
  case_bool_decide as Eq.
  { subst c. refine (Hgo (with_proof _ (string source_ sourceId_ _)) _ Hs1 _ eq_refl). eapply string_spec; try done. by apply Hb. }
  destruct (operator source_ c (offset_ st) (skip source_ st)) as [[[kind text] st']|] eqn:Eo.
  - assert (behind st c (skip source_ st)) as Hb'. { apply Hb. intros ->. done. }
    destruct (operator_spec _ _ _ _ _ _ Hst Hb' Eo) as (Hm & Hk & Ht & Hsub).
    refine (Hgo (mkToken _ _ _ p, st') _ Hs1 _ eq_refl). split; [done|].
    apply (make_token _ c (skip source_ st)); try done; [by destruct kind|congruence..|].
    split; [done|by destruct kind].
  - split; [done|]. split_and!; try done; unfold operator in Eo.
    + by destruct (assoc c single_tokens).
    + destruct (assoc c single_tokens); [done|]. destruct (assoc c double_tokens) as [[? [??]]|]; [|done].
      by destruct (_ && _).
Qed.

Lemma next_spec fuel st :
  pos_ok st → remaining source_ st < fuel →
  ∃ t st', next source_ sourceId_ fuel st = Some (t, st') ∧ token_next st t st'.
Proof.
  revert st. induction fuel as [|fuel IH]; intros st0 Hst0 Hf; [lia|]. cbn [next].
  destruct (skipIgnored_spec (S (remaining source_ st0)) st0) as (st & -> & Hst & Hle & Hgap & Hnc & Hsafe);
    [done|lia|]. cbv zeta. set (p := match safetyCommentLine_ st with Some _ => _ | None => _ end).
  assert (∀ t base, gap source_ base (offset_ st0) → safe_from base st0 → leadingSafetyProof t = p →
    span_line (tok_span t) = line_ st → leadingSafetyProof t = true →
    safety_comment source_ base (offset_ st) t) as Hproof.
  { intros t base Hg Hs -> Hl Hp. unfold p in Hp. pose proof (Hsafe base Hg Hs) as Hs'.
    destruct (safetyCommentLine_ st) as [l|] eqn:E; [|done]. apply bool_decide_eq_true in Hp.
    destruct (Hs' l E) as (i & ? & ? & ? & <-). exists i. split_and!; [done..|congruence]. }
  assert (∀ t e, token_at source_ sourceId_ (offset_ st) t e → span_line (tok_span t) = line_ st) as Hline.
  { intros t e H. apply ta_position in H. destruct Hst as [_ E]. congruence. }
  destruct (atEnd source_ (set_safety None st)) eqn:Hend.
  { eexists _, _. split; [reflexivity|]. split; [done|]. split; [done|]. exists (offset_ st).
    apply atEnd_true in Hend. destruct Hst as [Hle' Hpos]. cbn in Hend.
    assert (offset_ st = length source_) as Ho by lia.
    assert (source_ !! offset_ st = None) as Hno by (by apply lookup_ge_None_2).
    split_and!; [done..| |intros; by apply Hproof]. cbn.
    split; cbn; try done; try lia; try (by rewrite Hno).
    - unfold substr. by rewrite Nat.sub_diag. }
  pose proof (dispatch_spec (set_safety None st) p Hst Hnc eq_refl Hend) as Hd.
  rewrite advance_skip in *. set (value := default nul _) in *. set (st1 := skip _ _) in *.
  cbn [offset_ line_ column_ set_safety] in Hd.
  assert (∀ r, (let '(t, st') := r in pos_ok st' ∧ safetyCommentLine_ st' = None ∧
    token_at source_ sourceId_ (offset_ st) t (offset_ st') ∧ leadingSafetyProof t = p) →
    ∃ t st', Some r = Some (t, st') ∧ token_next st0 t st') as Hgo.
  { intros [t st'] (? & ? & Hta & Hp). exists t, st'. split; [done|]. split; [done|]. split; [done|].
    exists (offset_ st). split_and!; [done..|]. intros base Hg Hs. apply Hproof; [done..|by eapply Hline]. }
  destruct (isIdentifierStart value); [exact (Hgo (with_proof p (identifier _ _ _)) Hd)|]. destruct (isdigit value); [exact (Hgo (with_proof p (number _ _ _)) Hd)|].
  destruct (bool_decide (value = dquote)); [exact (Hgo (with_proof p (string _ _ _)) Hd)|].
  destruct (operator _ _ _ _) as [[[kind text] st']|]; [exact (Hgo (_, _) Hd)|].
  destruct Hd as [Hc Hu].
  assert (moves (set_safety None st) st1) as Hm by (by apply skip_moves).
  assert (offset_ st1 = S (offset_ st)) as Ho by (unfold st1; by rewrite skip_offset).
  set (st2 := report_error _ _ _ st1).
  destruct (IH st2) as (t & st' & E & ? & ? & start & Hg' & Hle' & Hta & Hs'); [apply Hm| |].
  { unfold remaining in *. change (offset_ st2) with (offset_ st1). apply atEnd_false in Hend.
    cbn in Hend. lia. }
  change (offset_ st2) with (offset_ st1) in *.
  assert (gap source_ (offset_ st) start) as Hg2.
  { eapply gap_unexpected; [exact Hc|done|]. by rewrite <- Ho. }
  exists t, st'. split; [done|]. split; [done|]. split; [done|]. exists start. split_and!; [|lia|done|].
  { by eapply gap_trans. }
  intros base Hg Hs. apply Hs'.
  - eapply gap_trans; [exact Hg|]. eapply gap_trans; [exact Hgap|]. eapply gap_unexpected; [exact Hc|done|].
    rewrite <- Ho. apply gap_nil.
  - intros l Hl. change (safetyCommentLine_ st1 = Some l) in Hl. destruct Hm as (_ & _ & Es).
    rewrite Es in Hl. done.
Qed.

Lemma scan_loop_spec fuel st tokens :
  pos_ok st → safetyCommentLine_ st = None → remaining source_ st < fuel →
  ∃ more st', scan_loop source_ sourceId_ fuel st tokens = Some (tokens ++ more, st') ∧
    lexed source_ sourceId_ (offset_ st) more.
Proof.
  revert st tokens. induction fuel as [|fuel IH]; intros st tokens Hst Hsafe Hf; [lia|]. cbn [scan_loop].
  destruct (next_spec (S (remaining source_ st)) st) as (t & st' & -> & Hst' & Hsafe' & start & Hg & Hle & Hta & Hs);
    [done|lia|].
  assert (leadingSafetyProof t = true → safety_comment source_ (offset_ st) start t) as Hp.
  { apply Hs; [apply gap_nil|]. intros l Hl. congruence. }
  case_bool_decide as Hk.
  - exists [t], st'. split; [done|]. pose proof (ta_stop _ _ _ _ _ Hta). pose proof (ta_length _ _ _ _ _ Hta) as Hl.
    apply (ta_eof _ _ _ _ _ Hta) in Hk as Hend.
    eapply lexed_eof; [exact Hg| |done..]. by replace (offset_ st') with start in Hta by lia.
  - pose proof (ta_nonempty _ _ _ _ _ Hta Hk). pose proof (ta_stop _ _ _ _ _ Hta).
    destruct (IH st' (tokens ++ [t])) as (more & st'' & -> & Hm); [done..|unfold remaining in *; lia|].
    exists (t :: more), st''. rewrite <- app_assoc. split; [done|]. by eapply lexed_token.
Qed.

Lemma scan_lexed diagnostics :
  ∃ tokens st', scan source_ sourceId_ diagnostics = Some (tokens, st') ∧ lexed source_ sourceId_ 0 tokens.
Proof.
  destruct (scan_loop_spec (S (length source_)) (lexer_start diagnostics) []) as (more & st' & E & H).
  - split; [cbn; lia|done].
  - done.
  - unfold remaining. cbn. lia.
  - by exists more, st'.
Qed.
End movement.

(** ** String literals *)

(** The spelling of a byte inside a literal. *)
Definition spell_byte (c : ascii) : bytes :=
  if bool_decide (c = newline) then [backslash; "n"%char]
  else if bool_decide (c = carriage) then [backslash; "r"%char]
  else if bool_decide (c = tab) then [backslash; "t"%char]
  else if bool_decide (c = nul) then [backslash; "0"%char]
  else if bool_decide (c = dquote) then [backslash; dquote]
  else if bool_decide (c = backslash) then [backslash; backslash]
  else [c].
Definition spell (value : bytes) : bytes := [dquote] ++ concat (map spell_byte value) ++ [dquote].

Lemma spell_byte_cases c :
  (∃ e, spell_byte c = [backslash; e] ∧ escape e = Some c ∧ e ≠ newline) ∨
  (spell_byte c = [c] ∧ c ≠ nul ∧ c ≠ backslash ∧ c ≠ dquote ∧ c ≠ newline).
Proof.
  unfold spell_byte.
  repeat (case_bool_decide; [subst; left; eexists; split; [reflexivity|done]|]). right. done.
Qed.

Lemma lookup_middle (a b : bytes) x : (a ++ x :: b) !! length a = Some x.
Proof. rewrite lookup_app_r by lia. by rewrite Nat.sub_diag. Qed.

Lemma skip_diagnostics source st : diagnostics_ (skip source st) = diagnostics_ st.
Proof. unfold skip, advance. cbn. by case_bool_decide. Qed.

Lemma peek_middle source st a x b :
  source = a ++ x :: b → offset_ st = length a → peek source 0 st = x ∧ atEnd source st = false.
Proof.
  intros -> E. unfold peek. rewrite Nat.add_0_r, E, lookup_middle. split; [done|].
  apply atEnd_false. rewrite E, length_app. cbn. lia.
Qed.
Lemma advance_middle source st a x b :
  source = a ++ x :: b → offset_ st = length a → advance source st = (x, skip source st).
Proof. intros -> E. by rewrite advance_skip, E, lookup_middle. Qed.

(** The loop of [string] reads spelled bytes back, up to the closing quote. *)
Lemma string_loop_spell source id value a post fuel acc st :
  source = a ++ concat (map spell_byte value) ++ dquote :: post → offset_ st = length a →
  length (concat (map spell_byte value)) < fuel →
  ∃ st', string_loop source id fuel acc st = (acc ++ value, st') ∧
    offset_ st' = length a + length (concat (map spell_byte value)) ∧ diagnostics_ st' = diagnostics_ st.
Proof.
  revert a fuel acc st. induction value as [|c value IH]; intros a fuel acc st Hs Ho Hf.
  all: destruct fuel as [|fuel]; [lia|]; cbn [string_loop].
  { destruct (peek_middle source st a dquote post Hs Ho) as [Hp He].
    rewrite Hp, He, bool_decide_true by done. exists st. rewrite app_nil_r. cbn. split_and!; [done|lia|done]. }
  cbn [map concat] in *. rewrite length_app in *. rewrite <- app_assoc in Hs.
  destruct (spell_byte_cases c) as [(e & E & He & Hn)|(E & H0 & H1 & H2 & H3)]; rewrite E in *.
  - destruct (peek_middle source st a backslash _ Hs Ho) as [-> ->].
    rewrite (advance_middle source st a backslash _ Hs Ho), bool_decide_false by done. cbn [negb andb].
    rewrite bool_decide_false, bool_decide_false by (done || by intros []).
    assert (source = (a ++ [backslash]) ++ e :: concat (map spell_byte value) ++ dquote :: post) as Hs'
      by (by rewrite <- app_assoc).
    assert (offset_ (skip source st) = length (a ++ [backslash])) as Ho'
      by (rewrite skip_offset, length_app; cbn; lia).
    destruct (peek_middle source _ _ e _ Hs' Ho') as [_ ->]. rewrite (advance_middle source _ _ e _ Hs' Ho'), He.
    destruct (IH (a ++ [backslash; e]) fuel (acc ++ [c]) (skip source (skip source st))) as (st' & -> & Ho'' & Hd).
    { by rewrite <- app_assoc. } { rewrite !skip_offset, length_app. cbn. lia. } { cbn in Hf. lia. }
    exists st'. rewrite <- app_assoc. split_and!; [done| |by rewrite Hd, !skip_diagnostics].
    rewrite Ho'', length_app. cbn. lia.
  - destruct (peek_middle source st a c _ Hs Ho) as [-> ->].
    rewrite (advance_middle source st a c _ Hs Ho), bool_decide_false by done. cbn [negb andb].
    rewrite (bool_decide_false (c = nul)), bool_decide_true by done.
    destruct (IH (a ++ [c]) fuel (acc ++ [c]) (skip source st)) as (st' & -> & Ho'' & Hd).
    { by rewrite <- app_assoc. } { rewrite !skip_offset, length_app. cbn. lia. } { cbn in Hf. lia. }
    exists st'. rewrite <- app_assoc. split_and!; [done| |by rewrite Hd, skip_diagnostics].
    rewrite Ho'', length_app. cbn. lia.
Qed.

(** C39: a string literal reads back: wherever the escaped spelling of a valid UTF-8
    value stands in a source, the lexer returns one string token with that value and
    the literal's extent, goes on behind the closing quote and reports nothing. *)
Theorem string_literal_roundtrip (pre value post : bytes) (sourceId fuel : nat) (st : Lexer) :
  offset_ st = length pre → isValidUtf8 value = true →
  let source := pre ++ spell value ++ post in
  ∃ proof st', next source sourceId (S fuel) st =
      Some (mkToken TokenKind.String value
        (mkSpan (length pre) (length (spell value)) (line_ st) (column_ st) sourceId) proof, st') ∧
    offset_ st' = length pre + length (spell value) ∧ diagnostics_ st' = diagnostics_ st.
Proof.
  intros Ho Hu source. set (body := concat (map spell_byte value)).
  assert (source = pre ++ dquote :: body ++ dquote :: post) as Hs.
  { unfold source, spell. fold body. by rewrite <- !app_assoc. }
  clearbody source. cbn [next].
  destruct (peek_middle source st pre dquote _ Hs Ho) as [Hp He].
  assert (skipIgnored source sourceId (S (remaining source st)) st = Some st) as ->.
  { cbn [skipIgnored]. by rewrite He, Hp. }
  cbv zeta. set (p := match safetyCommentLine_ st with Some _ => _ | None => _ end).
  change (atEnd source (set_safety None st)) with (atEnd source st). rewrite He.
  rewrite (advance_middle source (set_safety None st) pre dquote _ Hs Ho). set (st1 := skip _ _).
  change (isIdentifierStart dquote) with false. change (isdigit dquote) with false.
  rewrite (bool_decide_true (dquote = dquote)) by done. cbn [negb].
  assert (offset_ st1 = S (length pre)) as Ho1 by (unfold st1; rewrite skip_offset; cbn; lia).
  assert (line_ st1 = line_ st ∧ column_ st1 = S (column_ st)) as [Hl1 Hc1].
  { unfold st1, skip, advance. cbn. by rewrite Ho, Hs, lookup_middle, bool_decide_false. }
  unfold string. rewrite Ho1, Hl1, Hc1, !Nat.sub_succ, !Nat.sub_0_r.
  assert (source = (pre ++ [dquote]) ++ body ++ dquote :: post) as Hs1 by (by rewrite <- app_assoc).
  destruct (string_loop_spell source sourceId value (pre ++ [dquote]) post (remaining source st1) [] st1)
    as (st2 & E & Ho2 & Hd2); [done|rewrite Ho1, length_app; cbn; lia| |].
  { unfold remaining. rewrite Ho1, Hs1, !length_app. fold body. cbn. lia. }
  rewrite E. fold body in Ho2. rewrite length_app in Ho2. cbn [length app] in *.
  destruct (peek_middle source st2 (pre ++ dquote :: body) dquote post) as [_ He2].
  { rewrite Hs, <- app_assoc. done. } { rewrite length_app. cbn. lia. }
  rewrite He2, Hu. eexists p, (skip source st2). split_and!.
  - assert (spanFrom sourceId (length pre) (line_ st) (column_ st) (skip source st2) =
      mkSpan (length pre) (length (spell value)) (line_ st) (column_ st) sourceId) as ->; [|done].
    unfold spanFrom. f_equal. rewrite skip_offset. unfold spell. fold body. rewrite !length_app. cbn. lia.
  - rewrite skip_offset. unfold spell. fold body. rewrite !length_app. cbn. lia.
  - rewrite skip_diagnostics, Hd2. unfold st1. by rewrite skip_diagnostics.
Qed.


Lemma string_literal_roundtrip_witness :
  ∃ proof st', next (lit "x = " ++ spell [newline; dquote; "a"%char] ++ lit " + y") 0 1
      (mkLexer 4 1 5 [] None) =
      Some (mkToken TokenKind.String [newline; dquote; "a"%char] (mkSpan 4 7 1 5 0) proof, st') ∧
    offset_ st' = 11 ∧ diagnostics_ st' = [].
Proof.
  exact (string_literal_roundtrip (lit "x = ") [newline; dquote; "a"%char] (lit " + y") 0 0
    (mkLexer 4 1 5 [] None) eq_refl eq_refl).
Defined.
