(* ===== verification/Types.v ===== *)
(** * Types of checked programs (compiler/include/foundation/type.hpp, compiler/src/type.cpp) *)
From S2P Require Import Prelude.

Module TypeKind.
Inductive t :=
  | Invalid | Void | Never | I8 | I16 | I32 | I64 | U8 | U16 | U32 | U64 | Isize | Usize | F32 | F64
  | Bool | String | Raw | RawConst | Array | Slice | Own | View | Edit | TypeParameter | Struct | Enum
  | Contract | Function | Task | Channel | Sender | Receiver.
End TypeKind.
Abbreviation TypeKind := TypeKind.t.

#[global] Instance type_kind_eq_dec : EqDecision TypeKind.
Proof. solve_decision. Defined.

(** [struct Type]: a kind, a declaration index or qualifier, and type arguments. *)
Inductive Ty := mkTy {
  ty_kind : TypeKind;
  ty_declaration : nat;
  ty_arguments : list Ty;
}.

(** Induction with the hypothesis for every argument. *)
Lemma Ty_induction (P : Ty → Prop) :
  (∀ kind declaration arguments, Forall P arguments → P (mkTy kind declaration arguments)) → ∀ t, P t.
Proof.
  intros H. fix IH 1. intros [kind declaration arguments]. apply H.
  induction arguments as [|t arguments IHl]; constructor; [apply IH|exact IHl].
Qed.

(** [operator==], field by field. *)
Fixpoint ty_eqb (left right : Ty) : bool :=
  bool_decide (ty_kind left = ty_kind right) &&
  bool_decide (ty_declaration left = ty_declaration right) &&
  (fix go (l r : list Ty) : bool :=
     match l, r with
     | [], [] => true
     | x :: l, y :: r => ty_eqb x y && go l r
     | _, _ => false
     end) (ty_arguments left) (ty_arguments right).

Lemma ty_eqb_eq left right : ty_eqb left right = true ↔ left = right.
Proof.
  revert right. induction left as [k d args IH] using Ty_induction. intros [k' d' args']. cbn [ty_eqb ty_kind ty_declaration ty_arguments].
  rewrite !andb_true_iff, !bool_decide_eq_true.
  enough ((fix go (l r : list Ty) : bool :=
     match l, r with
     | [], [] => true
     | x :: l, y :: r => ty_eqb x y && go l r
     | _, _ => false
     end) args args' = true ↔ args = args') as -> by naive_solver.
  revert args'. induction IH as [|x args Hx _ IHl]; intros [|y args']; try done.
  rewrite andb_true_iff, Hx, IHl. naive_solver.
Qed.
#[global] Instance ty_eq_dec : EqDecision Ty.
Proof.
  intros x y. destruct (ty_eqb x y) eqn:E; [left|right].
  - by apply ty_eqb_eq.
  - intros H%ty_eqb_eq. congruence.
Defined.

Definition transferableFunctionQualifier : nat := 1.
Definition cFunctionQualifier : nat := 2.

Definition isTransferableFunction (type : Ty) : bool :=
  bool_decide (ty_kind type = TypeKind.Function) && bool_decide (ty_declaration type = transferableFunctionQualifier).
Definition isCFunction (type : Ty) : bool :=
  bool_decide (ty_kind type = TypeKind.Function) && bool_decide (ty_declaration type = cFunctionQualifier).

Definition scalar (kind : TypeKind) : Ty := mkTy kind 0 [].

Definition typeName (type : Ty) : bytes :=
  match ty_kind type with
  | TypeKind.Invalid => lit "<invalid>"
  | TypeKind.Void => lit "void"
  | TypeKind.Never => lit "never"
  | TypeKind.I8 => lit "i8"
  | TypeKind.I16 => lit "i16"
  | TypeKind.I32 => lit "i32"
  | TypeKind.I64 => lit "i64"
  | TypeKind.U8 => lit "u8"
  | TypeKind.U16 => lit "u16"
  | TypeKind.U32 => lit "u32"
  | TypeKind.U64 => lit "u64"
  | TypeKind.Isize => lit "isize"
  | TypeKind.Usize => lit "usize"
  | TypeKind.F32 => lit "f32"
  | TypeKind.F64 => lit "f64"
  | TypeKind.Bool => lit "bool"
  | TypeKind.String => lit "String"
  | TypeKind.Raw => lit "*"
  | TypeKind.RawConst => lit "*const"
  | TypeKind.Array => lit "<array>"
  | TypeKind.Slice => lit "<slice>"
  | TypeKind.Own => lit "own"
  | TypeKind.View => lit "view"
  | TypeKind.Edit => lit "edit"
  | TypeKind.TypeParameter => lit "<type parameter>"
  | TypeKind.Struct => lit "<struct>"
  | TypeKind.Enum => lit "<enum>"
  | TypeKind.Contract => lit "<contract>"
  | TypeKind.Function => lit "fn"
  | TypeKind.Task => lit "Task"
  | TypeKind.Channel => lit "Channel"
  | TypeKind.Sender => lit "Sender"
  | TypeKind.Receiver => lit "Receiver"
  end.

Definition kind_in (kinds : list TypeKind) (type : Ty) : bool :=
  existsb (λ kind, bool_decide (ty_kind type = kind)) kinds.

Definition isSignedInteger (type : Ty) : bool :=
  kind_in [TypeKind.I8; TypeKind.I16; TypeKind.I32; TypeKind.I64; TypeKind.Isize] type.
Definition isUnsignedInteger (type : Ty) : bool :=
  kind_in [TypeKind.U8; TypeKind.U16; TypeKind.U32; TypeKind.U64; TypeKind.Usize] type.
Definition isInteger (type : Ty) : bool := isSignedInteger type || isUnsignedInteger type.
Definition isFloating (type : Ty) : bool := kind_in [TypeKind.F32; TypeKind.F64] type.
Definition isNumeric (type : Ty) : bool := isInteger type || isFloating type.
Definition isMachineScalar (type : Ty) : bool :=
  kind_in [TypeKind.Void; TypeKind.Never] type || isNumeric type || kind_in [TypeKind.Bool] type.

(** ** Theorems *)

(** The kinds a diagnostic can print without looking at the arguments. *)
Definition named_kind (kind : TypeKind) : Prop :=
  isMachineScalar (scalar kind) = true ∨ kind = TypeKind.String.

(** The predicates partition the machine scalars by name: a numeric type is
    exactly one of signed integer, unsigned integer and floating, every machine
    scalar is a named kind, and two scalar or string types with one printed name
    have one kind. *)
Theorem scalar_classification (x y : Ty) :
  isNumeric x =
    xorb (isSignedInteger x) (xorb (isUnsignedInteger x) (isFloating x)) ∧
  (isSignedInteger x = true → isUnsignedInteger x = false ∧ isFloating x = false) ∧
  (isNumeric x = true → isMachineScalar x = true) ∧
  (typeName x = typeName y → named_kind (ty_kind x) → ty_kind x = ty_kind y).
Proof.
  destruct x as [k d args], y as [k' d' args']. split_and!.
  - by destruct k.
  - by destruct k.
  - by destruct k.
  - destruct k, k'; cbn; intros [=]; try done.
Qed.

Lemma scalar_classification_witness : ty_kind (scalar TypeKind.I32) = ty_kind (mkTy TypeKind.I32 3 []).
Proof.
  apply (scalar_classification (scalar TypeKind.I32) (mkTy TypeKind.I32 3 [])); [reflexivity|left; reflexivity].
Defined.
