(* ===== verification/Fsm.v ===== *)
(** * State machine diagrams (compiler/src/fsm.cpp)

    The selection of a state machine of a checked program, its transition edges and
    their rendering.  The records hold the fields of compiler/include/foundation/fir.hpp
    the exporter reads. *)
From S2P Require Import Prelude Diagnostics Types.

Record FirEnumVariant := mkVariant { variant_name : bytes }.
Record FirEnum := mkEnum {
  enum_name : bytes;
  enum_variants : list FirEnumVariant;
  enum_stateMachine : bool;
}.
Record FirStateTransitionFunction := mkTransition {
  sourceVariants : list nat;
  destinationVariant : nat;
  timeoutNanoseconds : option N;
}.
Record FirFunction := mkFunction {
  function_name : bytes;
  function_parameters : list nat;
  function_locals : list Ty;
  stateTransition : option FirStateTransitionFunction;
}.
Record FirProgram := mkProgram {
  program_enums : list FirEnum;
  program_functions : list FirFunction;
}.

(** [struct Edge], ordered by its fields. *)
Record Edge := mkFsmEdge {
  edge_source : bytes;
  edge_destination : bytes;
  edge_event : bytes;
  edge_timeout : option N;
}.
Definition edge_tuple (e : Edge) : bytes * (bytes * (bytes * option N)) :=
  (edge_source e, (edge_destination e, (edge_event e, edge_timeout e))).
#[global] Instance edge_tuple_inj : Inj (=) (=) edge_tuple.
Proof. intros [????] [????] [=]. by subst. Qed.
#[global] Instance fsm_edge_compare : Compare Edge := cmp_on edge_tuple.
#[global] Instance fsm_edge_compare_laws : CompareLaws Edge := cmp_on_laws edge_tuple _.

(** [std::set::insert]: the elements in order, each once. *)
Fixpoint set_insert `{Compare A} (x : A) (l : list A) : list A :=
  match l with
  | [] => [x]
  | y :: rest =>
      match cmp x y with
      | Lt => x :: l
      | Eq => l
      | Gt => y :: set_insert x rest
      end
  end.

Definition simpleName (name : bytes) : bytes :=
  match rfind_byte "."%char name with
  | None => name
  | Some separator => drop (separator + 1) name
  end.

Definition stateMachines (program : FirProgram) : list nat :=
  filter (λ index, enum_stateMachine <$> program_enums program !! index = Some true)
    (seq 0 (length (program_enums program))).

Definition default_span : SourceSpan := mkSpan 0 0 1 1 0.

Definition machine_matches (program : FirProgram) (requested : bytes) (machine : nat) : bool :=
  match program_enums program !! machine with
  | Some declaration =>
      bool_decide (enum_name declaration = requested) ||
      bool_decide (simpleName (enum_name declaration) = requested)
  | None => false
  end.

(** [selectMachine]: the machine, if there is one, and the diagnostics. *)
Definition selectMachine (program : FirProgram) (requested : option bytes) (diagnostics : Diagnostics)
    : option nat * Diagnostics :=
  let machines := stateMachines program in
  match requested with
  | None =>
      match machines with
      | [] => (None, error diagnostics (lit "FDN2420") (lit "project declares no state machine") default_span)
      | [machine] => (Some machine, diagnostics)
      | _ => (None, error diagnostics (lit "FDN2421")
               (lit "project declares multiple state machines; select one with --machine") default_span)
      end
  | Some requested =>
      match filter (λ machine, machine_matches program requested machine = true) machines with
      | [] => (None, error diagnostics (lit "FDN2422") (lit "unknown state machine " ++ requested) default_span)
      | [machine] => (Some machine, diagnostics)
      | _ => (None, error diagnostics (lit "FDN2423") (lit "ambiguous state machine " ++ requested) default_span)
      end
  end.

(** The machine a transition function belongs to: the enum its first parameter edits. *)
Definition transitionMachine (program : FirProgram) (function : FirFunction) : option nat :=
  match stateTransition function, function_parameters function with
  | Some _, receiver :: _ =>
      match function_locals function !! receiver with
      | Some (mkTy TypeKind.Edit _ [mkTy TypeKind.Enum declaration _]) =>
          if bool_decide (declaration < length (program_enums program)) then Some declaration else None
      | _ => None
      end
  | _, _ => None
  end.

(** The edges one source variant adds. *)
Definition source_edge (declaration : FirEnum) (destination event : bytes) (timeout : option N)
    (result : list Edge) (source : nat) : list Edge :=
  match enum_variants declaration !! source with
  | Some variant => set_insert (mkFsmEdge (variant_name variant) destination event timeout) result
  | None => result
  end.

Definition function_edges (program : FirProgram) (machine : nat) (declaration : FirEnum)
    (result : list Edge) (function : FirFunction) : list Edge :=
  match transitionMachine program function, stateTransition function with
  | Some owner, Some transition =>
      if bool_decide (owner ≠ machine) then result
      else match enum_variants declaration !! destinationVariant transition with
           | None => result
           | Some destination =>
               foldl (source_edge declaration (variant_name destination) (simpleName (function_name function))
                        (timeoutNanoseconds transition)) result (sourceVariants transition)
           end
  | _, _ => result
  end.

(** [transitions]; [selectMachine] only returns indices of the enum table. *)
Definition transitions (program : FirProgram) (machine : nat) : list Edge :=
  match program_enums program !! machine with
  | Some declaration => foldl (function_edges program machine declaration) [] (program_functions program)
  | None => []
  end.

Section duration.
Open Scope N_scope.
Definition second : N := 1000000000.
Definition millisecond : N := 1000000.
Definition microsecond : N := 1000.

Definition formatDuration (nanoseconds : N) : bytes :=
  if nanoseconds mod second =? 0 then to_string (nanoseconds / second) ++ lit ".seconds"
  else if nanoseconds mod millisecond =? 0 then to_string (nanoseconds / millisecond) ++ lit ".milliseconds"
  else if nanoseconds mod microsecond =? 0 then to_string (nanoseconds / microsecond) ++ lit ".microseconds"
  else to_string nanoseconds ++ lit ".nanoseconds".
End duration.

Definition edgeLabel (e : Edge) : bytes :=
  match edge_timeout e with
  | None => edge_event e
  | Some nanoseconds => edge_event e ++ lit " after " ++ formatDuration nanoseconds
  end.

Definition mermaid_line (e : Edge) : bytes :=
  lit "    " ++ edge_source e ++ lit " --> " ++ edge_destination e ++ lit " : " ++ edgeLabel e ++ [newline].
Definition emitMermaid (edges : list Edge) : bytes :=
  lit "stateDiagram-v2" ++ [newline] ++ concat (map mermaid_line edges).

Definition graphviz_line (e : Edge) : bytes :=
  lit "    " ++ edge_source e ++ lit " -> " ++ edge_destination e ++ lit " [label=" ++ [dquote] ++ edgeLabel e ++
  [dquote] ++ lit "];" ++ [newline].
Definition emitGraphviz (edges : list Edge) : bytes :=
  lit "digraph FSM {" ++ [newline] ++ lit "    rankdir=LR;" ++ [newline] ++
  lit "    node [shape=box style=rounded];" ++ [newline] ++ concat (map graphviz_line edges) ++
  lit "}" ++ [newline].

Inductive StateMachineDiagramFormat := Mermaid | Graphviz.

Definition emitStateMachineDiagram (program : FirProgram) (diagnostics : Diagnostics)
    (machine : option bytes) (format : StateMachineDiagramFormat) : bytes * Diagnostics :=
  match selectMachine program machine diagnostics with
  | (None, diagnostics) => ([], diagnostics)
  | (Some selected, diagnostics) =>
      let edges := transitions program selected in
      (match format with Mermaid => emitMermaid edges | Graphviz => emitGraphviz edges end, diagnostics)
  end.

(** ** Ordered sets *)
Section set_insert.
Context `{CompareLaws A}.

Definition increasing : list A → Prop := StronglySorted (λ x y, cmp x y = Lt).

Lemma elem_of_set_insert (x y : A) (l : list A) : y ∈ set_insert x l ↔ y = x ∨ y ∈ l.
Proof.
  induction l as [|z l IH]; cbn [set_insert]; [set_solver|].
  destruct (cmp x z) eqn:E; rewrite ?elem_of_cons, ?IH; [|tauto..].
  apply cmp_eq_iff in E as ->. tauto.
Qed.
Lemma set_insert_increasing (x : A) (l : list A) : increasing l → increasing (set_insert x l).
Proof.
  induction 1 as [|y l Hl IH Hy]; cbn [set_insert]; [repeat constructor|].
  destruct (cmp x y) eqn:E; [by constructor| |].
  - constructor; [by constructor|]. constructor; [done|].
    eapply Forall_impl; [exact Hy|]. intros z. by apply cmp_lt_trans.
  - constructor; [done|]. apply Forall_forall. intros z [->|Hz]%elem_of_set_insert.
    + by apply cmp_gt_lt.
    + by eapply Forall_forall in Hy.
Qed.
End set_insert.

(** ** Theorems *)

(** A transition function of the machine with this edge among its edges. *)
Definition has_edge (program : FirProgram) (machine : nat) (declaration : FirEnum) (function : FirFunction)
    (e : Edge) : Prop :=
  ∃ transition source from to,
    transitionMachine program function = Some machine ∧ stateTransition function = Some transition ∧
    source ∈ sourceVariants transition ∧ enum_variants declaration !! source = Some from ∧
    enum_variants declaration !! destinationVariant transition = Some to ∧
    e = mkFsmEdge (variant_name from) (variant_name to) (simpleName (function_name function))
          (timeoutNanoseconds transition).

Lemma source_edges_spec declaration destination event timeout sources result e :
  increasing result →
  increasing (foldl (source_edge declaration destination event timeout) result sources) ∧
  (e ∈ foldl (source_edge declaration destination event timeout) result sources ↔
   e ∈ result ∨ ∃ source from, source ∈ sources ∧ enum_variants declaration !! source = Some from ∧
     e = mkFsmEdge (variant_name from) destination event timeout).
Proof.
  revert result. induction sources as [|s sources IH]; intros result Hr; cbn [foldl].
  { split; [done|]. split; [by left|intros [?|(?&?&?%elem_of_nil&?)]; done]. }
  unfold source_edge at 2 4. destruct (enum_variants declaration !! s) as [v|] eqn:E.
  - destruct (IH (set_insert (mkFsmEdge (variant_name v) destination event timeout) result)) as [H1 H2];
      [by apply set_insert_increasing|]. split; [done|]. rewrite H2, elem_of_set_insert. split.
    + intros [[->|?]|(x&y&?&?&?)]; [right; exists s, v; split; [by left|done]|by left|].
      right. exists x, y. split; [by right|done].
    + intros [?|(x&y&[->|?]%elem_of_cons&?&?)]; [by left; right| |by right; exists x, y].
      left. left. congruence.
  - destruct (IH result Hr) as [H1 H2]. split; [done|]. rewrite H2. split.
    + intros [?|(x&y&?&?&?)]; [by left|]. right. exists x, y. split; [by right|done].
    + intros [?|(x&y&[->|?]%elem_of_cons&?&?)]; [by left|congruence|by right; exists x, y].
Qed.

Lemma function_edges_spec program machine declaration result function e :
  increasing result →
  increasing (function_edges program machine declaration result function) ∧
  (e ∈ function_edges program machine declaration result function ↔
   e ∈ result ∨ has_edge program machine declaration function e).
Proof.
  intros Hr. unfold function_edges, has_edge.
  destruct (transitionMachine program function) as [owner|]; [|split; [done|naive_solver]].
  destruct (stateTransition function) as [t|]; [|split; [done|naive_solver]].
  case_bool_decide as Ho; [split; [done|naive_solver]|]. subst owner.
  destruct (enum_variants declaration !! destinationVariant t) as [to|] eqn:Et; [|split; [done|naive_solver]].
  destruct (source_edges_spec declaration (variant_name to) (simpleName (function_name function))
    (timeoutNanoseconds t) (sourceVariants t) result e Hr) as [H1 H2]. split; [done|]. rewrite H2.
  naive_solver.
Qed.

(** The edges of a diagram are the transitions of the machine, in order and
    each once: an edge is listed exactly when some function whose first parameter
    edits the machine moves from one of its source variants to its destination,
    under the function's simple name and with its timeout. *)
Theorem transitions_exact (program : FirProgram) (machine : nat) (declaration : FirEnum) :
  program_enums program !! machine = Some declaration →
  increasing (transitions program machine) ∧
  ∀ e, e ∈ transitions program machine ↔
    ∃ function, function ∈ program_functions program ∧ has_edge program machine declaration function e.
Proof.
  intros Hm. unfold transitions. rewrite Hm.
  assert (∀ functions result, increasing result →
    increasing (foldl (function_edges program machine declaration) result functions) ∧
    ∀ e, e ∈ foldl (function_edges program machine declaration) result functions ↔
      e ∈ result ∨ ∃ function, function ∈ functions ∧ has_edge program machine declaration function e) as Hgen.
  { induction functions as [|f functions IH]; intros result Hr; cbn [foldl].
    { split; [done|]. intros e. split; [by left|intros [?|(?&?%elem_of_nil&?)]; done]. }
    destruct (IH (function_edges program machine declaration result f)) as [H1 H2].
    { by apply (function_edges_spec _ _ _ _ _ (mkFsmEdge [] [] [] None)). }
    split; [done|]. intros e. rewrite H2.
    destruct (function_edges_spec program machine declaration result f e Hr) as [_ ->].
    setoid_rewrite elem_of_cons. naive_solver. }
  destruct (Hgen (program_functions program) []) as [H1 H2]; [constructor|]. split; [done|].
  intros e. rewrite H2. split; [intros [?%elem_of_nil|?]; done|by right].
Qed.

Definition requested_by (program : FirProgram) (requested : option bytes) (machine : nat) : bool :=
  match requested with Some name => machine_matches program name machine | None => true end.

(** A machine is selected exactly when the request picks one: without a request
    the program has a single machine, with one a single machine has that name or
    that simple name; nothing is reported then, and one error otherwise. *)
Theorem selectMachine_unique (program : FirProgram) (requested : option bytes) (diagnostics : Diagnostics) :
  let candidates := filter (λ machine, requested_by program requested machine = true) (stateMachines program) in
  match selectMachine program requested diagnostics with
  | (Some machine, after) => candidates = [machine] ∧ after = diagnostics
  | (None, after) => length candidates ≠ 1 ∧
      ∃ code message, after = error diagnostics code message default_span
  end.
Proof.
  unfold selectMachine, requested_by. destruct requested as [name|].
  - destruct (filter _ _) as [|m [|m' ms]]; [split; [done|by eexists _, _]|done|split; [done|by eexists _, _]].
  - rewrite (list_filter_all _ (stateMachines program)) by done.
    destruct (stateMachines program) as [|m [|m' ms]]; [split; [done|by eexists _, _]|done|split; [done|by eexists _, _]].
Qed.

(** The units of a duration. *)
Definition duration_units : list (N * bytes) :=
  [(second, lit ".seconds"); (millisecond, lit ".milliseconds");
   (microsecond, lit ".microseconds"); (1%N, lit ".nanoseconds")].

(** a timeout is printed exactly, in the largest unit that divides it. *)
Theorem formatDuration_exact (nanoseconds : N) :
  ∃ value unit_ name, (unit_, name) ∈ duration_units ∧
    formatDuration nanoseconds = to_string value ++ name ∧ (value * unit_)%N = nanoseconds ∧
    Forall (λ u, (unit_ < u.1)%N → (nanoseconds mod u.1 ≠ 0)%N) duration_units.
Proof.
  assert (∀ u, (u ≠ 0)%N → (nanoseconds mod u = 0)%N → (nanoseconds / u * u)%N = nanoseconds) as Hdiv.
  { intros u Hu Hm. pose proof (N.div_mod nanoseconds u Hu). lia. }
  unfold formatDuration.
  destruct (N.eqb_spec (nanoseconds mod second) 0) as [E1|E1].
  { exists (nanoseconds / second)%N, second, (lit ".seconds"). split_and!; [set_solver|done|by apply Hdiv|].
    repeat constructor; cbn; intros; try done. }
  destruct (N.eqb_spec (nanoseconds mod millisecond) 0) as [E2|E2].
  { exists (nanoseconds / millisecond)%N, millisecond, (lit ".milliseconds"). split_and!; [set_solver|done|by apply Hdiv|].
    repeat constructor; cbn; intros; try done. }
  destruct (N.eqb_spec (nanoseconds mod microsecond) 0) as [E3|E3].
  { exists (nanoseconds / microsecond)%N, microsecond, (lit ".microseconds"). split_and!; [set_solver|done|by apply Hdiv|].
    repeat constructor; cbn; intros; try done. }
  exists nanoseconds, 1%N, (lit ".nanoseconds"). split_and!; [set_solver|done|lia|].
  repeat constructor; cbn; intros; try done.
Qed.

(** ** Witnesses *)

Definition door : FirProgram :=
  mkProgram [mkEnum (lit "app.Door") [mkVariant (lit "Open"); mkVariant (lit "Closed")] true]
    [mkFunction (lit "app.Door.close") [0] [mkTy TypeKind.Edit 0 [mkTy TypeKind.Enum 0 []]]
       (Some (mkTransition [0; 1] 1 (Some 1500000%N)))].

Lemma transitions_exact_witness :
  increasing (transitions door 0) ∧
  ∀ e, e ∈ transitions door 0 ↔
    ∃ function, function ∈ program_functions door ∧
      has_edge door 0 (mkEnum (lit "app.Door") [mkVariant (lit "Open"); mkVariant (lit "Closed")] true) function e.
Proof. apply (transitions_exact door 0). reflexivity. Defined.
