(* ===== verification/Ast.v ===== *)
(** * The syntax tree (compiler/include/foundation/ast.hpp)

    Expressions, statements, blocks and functions refer to each other by their
    index in the vectors of [Program]. *)
From S2P Require Import Prelude Diagnostics.

Inductive TypeSyntax := mkType {
  ts_name : bytes;
  ts_arguments : list TypeSyntax;
  ts_span : SourceSpan;
  ts_arrayLength : N;
}.

(** Induction with the hypothesis for every argument. *)
Lemma TypeSyntax_induction (P : TypeSyntax → Prop) :
  (∀ name arguments span arrayLength, Forall P arguments → P (mkType name arguments span arrayLength)) →
  ∀ t, P t.
Proof.
  intros H. fix IH 1. intros [name arguments span arrayLength]. apply H.
  induction arguments as [|t arguments IHl]; constructor; [apply IH|exact IHl].
Qed.

Module AttributeTarget.
Inductive t :=
  | Function | Struct | Service | Enum | Contract | Method | Constructor | Action | Field | Variant
  | ParameterTarget.
End AttributeTarget.

Record AttributeArgument := mkAttributeArgument {
  aa_name : option bytes;
  aa_value : nat;
  aa_span : SourceSpan;
}.
Record AttributeApplication := mkAttributeApplication {
  at_name : bytes;
  at_arguments : list AttributeArgument;
  at_span : SourceSpan;
  at_parenthesized : bool;
}.

Module UnaryOperator.
Inductive t := Negate | Not | BitwiseNot | Dereference.
End UnaryOperator.
Module OwnershipOperator.
Inductive t := Own | View | Edit | Transfer | New.
End OwnershipOperator.
Module ParameterMode.
Inductive t := TypeEncoded | Read | Edit | Transfer.
End ParameterMode.
Module CaptureMode.
Inductive t := Copy | Own | View | Edit.
End CaptureMode.
Module ReceiverKind.
Inductive t := View | Edit | Own.
End ReceiverKind.
Module BinaryOperator.
Inductive t :=
  | Add | Subtract | Multiply | Divide | Remainder | ShiftLeft | ShiftRight | BitwiseAnd | BitwiseXor
  | BitwiseOr | Equal | NotEqual | Less | LessEqual | Greater | GreaterEqual | And | Or.
End BinaryOperator.

#[global] Instance parameter_mode_eq_dec : EqDecision ParameterMode.t.
Proof. solve_decision. Defined.
#[global] Instance receiver_kind_eq_dec : EqDecision ReceiverKind.t.
Proof. solve_decision. Defined.
#[global] Instance binary_operator_eq_dec : EqDecision BinaryOperator.t.
Proof. solve_decision. Defined.

Record StructFieldInitializer := mkFieldInitializer {
  fi_name : bytes;
  fi_value : nat;
  fi_span : SourceSpan;
}.
Record MatchArm := mkMatchArm {
  ma_wildcard : bool;
  ma_variant : bytes;
  ma_binding : option bytes;
  ma_pattern : option nat;
  ma_guard : option nat;
  ma_block : nat;
  ma_expression : option nat;
  ma_span : SourceSpan;
}.

(** [ExpressionValue]. *)
Inductive ExpressionValue :=
  | IntegerExpression (magnitude : N) (negative : bool)
  | FloatingExpression (text : bytes)
  | BooleanExpression (value : bool)
  | StringExpression (value : bytes)
  | ArrayExpression (elements : list nat)
  | NameExpression (name : bytes) (typeArguments : list TypeSyntax)
  | UnaryExpression (operation : UnaryOperator.t) (operand : nat)
  | OwnershipExpression (operation : OwnershipOperator.t) (operand : nat)
  | BinaryExpression (left : nat) (operation : BinaryOperator.t) (right : nat)
  | CallExpression (callee : bytes) (typeArguments : list TypeSyntax) (arguments : list nat)
      (argumentNames : list (option bytes)) (argumentNameSpans : list (option SourceSpan))
  | StructExpression (type : TypeSyntax) (fields : list StructFieldInitializer)
  | MemberExpression (base : option nat) (member : bytes) (typeArguments : list TypeSyntax) (invoked : bool)
      (arguments : list nat) (argumentNames : list (option bytes)) (argumentNameSpans : list (option SourceSpan))
  | IndexExpression (base index : nat)
  | ReplaceExpression (target value : nat)
  | SpawnExpression (call : nat)
  | MatchExpression (value : nat) (arms : list MatchArm)
  | ConditionalExpression (condition thenBlock thenValue elseBlock elseValue : nat) (postfix : bool)
  | FunctionExpression (function : nat).

Record Expression := mkExpression { expr_value : ExpressionValue; expr_span : SourceSpan }.

Module AssignmentOperator.
Inductive t := Assign | Add | Subtract | Multiply | Divide | Remainder | ShiftLeft | ShiftRight.
End AssignmentOperator.

Record StructPatternField := mkPatternField {
  pf_field : bytes;
  pf_binding : bytes;
  pf_span : SourceSpan;
}.
Record SelectOperationArm := mkSelectOperation {
  so_binding : option bytes;
  so_operation : nat;
  so_body : nat;
  so_span : SourceSpan;
}.
Record SelectTimeoutArm := mkSelectTimeout {
  st_nanoseconds : N;
  st_duration : option nat;
  st_body : nat;
  st_span : SourceSpan;
}.

(** [StatementValue]. *)
Inductive StatementValue :=
  | VariableStatement (mutableBinding : bool) (name : bytes) (type : option TypeSyntax) (initializer : nat)
      (elseBinding : option bytes) (elseBlock : option nat)
  | StructDestructureStatement (type : TypeSyntax) (fields : list StructPatternField) (initializer : nat)
  | AssignmentStatement (target : nat) (operation : AssignmentOperator.t) (value : nat)
  | ExpressionStatement (expression : nat)
  | ResultElseStatement (expression : nat) (errorBinding : option bytes) (elseBlock : nat)
  | ReturnStatement (value : option nat) (tail : bool)
  | DiscardStatement (value : nat)
  | IfStatement (condition thenBlock : nat) (elseBlock : option nat)
  | WhileStatement (condition body : nat)
  | ForStatement (indexBinding : option bytes) (valueBinding : bytes) (editable : bool) (sequence body : nat)
  | BreakStatement
  | ContinueStatement
  | SelectStatement (operations : list SelectOperationArm) (timeout : option SelectTimeoutArm)
      (errorBinding : bytes) (errorBlock : nat)
  | UnsafeStatement (body : nat) (safetyProof : bool).

Record Statement := mkStatement { stmt_value : StatementValue; stmt_span : SourceSpan }.
Record Block := mkBlock { block_statements : list nat; block_span : SourceSpan }.

Record Parameter_ := mkParameter {
  param_name : bytes;
  param_type : TypeSyntax;
  param_span : SourceSpan;
  param_attributes : list AttributeApplication;
  param_mode : ParameterMode.t;
  param_inferredType : bool;
}.
Record Capture := mkCapture {
  capture_mode : CaptureMode.t;
  capture_name : bytes;
  capture_span : SourceSpan;
}.

Record StateTransition := mkStateTransition {
  tr_sourceVariants : list nat;
  tr_destinationVariant : nat;
  tr_destinationParameter : option nat;
  tr_timeoutNanoseconds : option N;
}.
Record StateTimeout := mkStateTimeout {
  to_sourceVariants : list nat;
  to_nanoseconds : N;
}.

Inductive WorkflowKind := Pipeline | Saga.
Record WorkflowStep := mkWorkflowStep {
  ws_name : bytes;
  ws_function : bytes;
  ws_span : SourceSpan;
  ws_functionSpan : SourceSpan;
  ws_attempts : N;
  ws_compensation : option bytes;
  ws_compensationSpan : option SourceSpan;
}.
Record WorkflowFunction := mkWorkflow {
  wf_kind : WorkflowKind;
  wf_successType : TypeSyntax;
  wf_errorType : TypeSyntax;
  wf_steps : list WorkflowStep;
  wf_failureStruct : option bytes;
  wf_failureEnum : option bytes;
}.

Record Function := mkAstFunction {
  fn_name : bytes;
  fn_typeParameters : list bytes;
  fn_parameters : list Parameter_;
  fn_returnType : TypeSyntax;
  fn_body : nat;
  fn_exported : bool;
  fn_span : SourceSpan;
  fn_packageName : bytes;
  fn_sourcePath : bytes;
  fn_receiver : option ReceiverKind.t;
  fn_ownerType : bytes;
  fn_cSymbol : option bytes;
  fn_hasBody : bool;
  fn_closure : bool;
  fn_captures : list Capture;
  fn_attributes : list AttributeApplication;
  fn_task : bool;
  fn_blocking : bool;
  fn_callback : bool;
  fn_testName : option bytes;
  fn_testNameSpan : option SourceSpan;
  fn_action : bool;
  fn_stateTransition : option StateTransition;
  fn_workflow : option WorkflowFunction;
  fn_inferredReturn : bool;
  fn_transferableTypeParameters : list bool;
  fn_stateTimeout : option StateTimeout;
  fn_constructor : bool;
  fn_typeParameterConstraints : list (option TypeSyntax);
}.

Inductive StructKind := KindStruct | KindService.
Record StructField := mkStructField {
  sf_name : bytes;
  sf_type : TypeSyntax;
  sf_exported : bool;
  sf_span : SourceSpan;
  sf_attributes : list AttributeApplication;
  sf_defaultFunction : option nat;
  sf_defaultSpan : option SourceSpan;
}.
Record StructImplementation := mkImplementation {
  si_contract : TypeSyntax;
  si_delegate : option bytes;
  si_span : SourceSpan;
}.
Record StructDeclaration := mkStruct {
  sd_name : bytes;
  sd_typeParameters : list bytes;
  sd_implementations : list StructImplementation;
  sd_fields : list StructField;
  sd_exported : bool;
  sd_span : SourceSpan;
  sd_packageName : bytes;
  sd_attributes : list AttributeApplication;
  sd_kind : StructKind;
  sd_sourcePath : bytes;
}.

Record ContractMethod := mkContractMethod {
  cm_name : bytes;
  cm_receiver : ReceiverKind.t;
  cm_parameters : list Parameter_;
  cm_returnType : TypeSyntax;
  cm_exported : bool;
  cm_span : SourceSpan;
  cm_defaultFunction : option nat;
  cm_attributes : list AttributeApplication;
}.
Record ContractDeclaration := mkContract {
  cd_name : bytes;
  cd_typeParameters : list bytes;
  cd_parents : list TypeSyntax;
  cd_methods : list ContractMethod;
  cd_exported : bool;
  cd_span : SourceSpan;
  cd_packageName : bytes;
  cd_attributes : list AttributeApplication;
}.

Record EnumVariant := mkEnumVariant {
  ev_name : bytes;
  ev_payloadType : option TypeSyntax;
  ev_exported : bool;
  ev_span : SourceSpan;
  ev_attributes : list AttributeApplication;
  ev_payloadName : option bytes;
  ev_payloadNameSpan : option SourceSpan;
}.
Inductive BuiltinEnumKind := BuiltinNone | BuiltinOption | BuiltinResult | BuiltinChannelError | BuiltinNumberError.
Record EnumDeclaration := mkEnumDeclaration {
  ed_name : bytes;
  ed_typeParameters : list bytes;
  ed_variants : list EnumVariant;
  ed_exported : bool;
  ed_builtin : BuiltinEnumKind;
  ed_span : SourceSpan;
  ed_packageName : bytes;
  ed_attributes : list AttributeApplication;
  ed_stateMachine : bool;
  ed_generated : bool;
}.

Record AttributeDeclaration := mkAttributeDeclaration {
  ad_name : bytes;
  ad_parameters : list Parameter_;
  ad_targets : list AttributeTarget.t;
  ad_repeatable : bool;
  ad_exported : bool;
  ad_span : SourceSpan;
  ad_packageName : bytes;
}.
Record ImportDeclaration := mkImport {
  im_packageName : bytes;
  im_alias : bytes;
  im_span : SourceSpan;
}.

Record Program := mkAstProgram {
  pr_packageName : bytes;
  pr_hasPackageDeclaration : bool;
  pr_imports : list ImportDeclaration;
  pr_expressions : list Expression;
  pr_statements : list Statement;
  pr_blocks : list Block;
  pr_structs : list StructDeclaration;
  pr_enums : list EnumDeclaration;
  pr_contracts : list ContractDeclaration;
  pr_attributeDeclarations : list AttributeDeclaration;
  pr_functions : list Function;
}.

Definition emptyProgram : Program := mkAstProgram [] false [] [] [] [] [] [] [] [] [].

(** [SourceSpan{}] and [TypeSyntax{}]. *)
Definition emptySpan : SourceSpan := mkSpan 0 0 1 1 0.
Definition emptyType : TypeSyntax := mkType [] [] emptySpan 0.
