(* ===== verification/AstGraph.v ===== *)
(** * References in the syntax tree

    The vectors of [Program] that refer to each other by index, the nodes they
    hold, and the way the parser builds them: a node is added behind the nodes it
    refers to.  References of such vectors stay in range and never form a cycle. *)
From S2P Require Import Prelude Diagnostics Ast.

Record Arena := mkArena {
  ar_expressions : list Expression;
  ar_statements : list Statement;
  ar_blocks : list Block;
  ar_functions : list Function;
}.
Definition arena (p : Program) : Arena :=
  mkArena (pr_expressions p) (pr_statements p) (pr_blocks p) (pr_functions p).
Definition emptyArena : Arena := mkArena [] [] [] [].

Inductive Node := NExpr (id : nat) | NStmt (id : nat) | NBlock (id : nat) | NFun (id : nat).

Definition node_in (a : Arena) (n : Node) : Prop :=
  match n with
  | NExpr id => id < length (ar_expressions a)
  | NStmt id => id < length (ar_statements a)
  | NBlock id => id < length (ar_blocks a)
  | NFun id => id < length (ar_functions a)
  end.
Definition nodes_in (a : Arena) : list Node → Prop := Forall (node_in a).

(** ** What a node refers to *)

Definition expression_ids (ids : list nat) : list Node := flat_map (λ id, [NExpr id]) ids.
Definition optional (f : nat → Node) (id : option nat) : list Node :=
  match id with Some id => [f id] | None => [] end.
Definition field_nodes (f : StructFieldInitializer) : list Node := [NExpr (fi_value f)].
Definition arm_nodes (m : MatchArm) : list Node :=
  NBlock (ma_block m) :: optional NExpr (ma_pattern m) ++ optional NExpr (ma_guard m) ++
  optional NExpr (ma_expression m).

Definition expression_nodes (v : ExpressionValue) : list Node :=
  match v with
  | IntegerExpression _ _ | FloatingExpression _ | BooleanExpression _ | StringExpression _
  | NameExpression _ _ => []
  | ArrayExpression elements => expression_ids elements
  | UnaryExpression _ operand | OwnershipExpression _ operand => [NExpr operand]
  | BinaryExpression first _ second => [NExpr first; NExpr second]
  | CallExpression _ _ arguments _ _ => expression_ids arguments
  | StructExpression _ fields => flat_map field_nodes fields
  | MemberExpression base _ _ _ arguments _ _ => optional NExpr base ++ expression_ids arguments
  | IndexExpression base index => [NExpr base; NExpr index]
  | ReplaceExpression target value => [NExpr target; NExpr value]
  | SpawnExpression call => [NExpr call]
  | MatchExpression value arms => NExpr value :: flat_map arm_nodes arms
  | ConditionalExpression condition thenBlock thenValue elseBlock elseValue _ =>
      [NExpr condition; NBlock thenBlock; NExpr thenValue; NBlock elseBlock; NExpr elseValue]
  | FunctionExpression function => [NFun function]
  end.

Definition operation_nodes (o : SelectOperationArm) : list Node := [NExpr (so_operation o); NBlock (so_body o)].
Definition timeout_nodes (t : option SelectTimeoutArm) : list Node :=
  match t with Some t => NBlock (st_body t) :: optional NExpr (st_duration t) | None => [] end.

Definition statement_nodes (v : StatementValue) : list Node :=
  match v with
  | VariableStatement _ _ _ initializer _ elseBlock => NExpr initializer :: optional NBlock elseBlock
  | StructDestructureStatement _ _ initializer => [NExpr initializer]
  | AssignmentStatement target _ value => [NExpr target; NExpr value]
  | ExpressionStatement expression => [NExpr expression]
  | ResultElseStatement expression _ elseBlock => [NExpr expression; NBlock elseBlock]
  | ReturnStatement value _ => optional NExpr value
  | DiscardStatement value => [NExpr value]
  | IfStatement condition thenBlock elseBlock =>
      NExpr condition :: NBlock thenBlock :: optional NBlock elseBlock
  | WhileStatement condition body => [NExpr condition; NBlock body]
  | ForStatement _ _ _ sequence body => [NExpr sequence; NBlock body]
  | BreakStatement | ContinueStatement => []
  | SelectStatement operations timeout _ errorBlock =>
      NBlock errorBlock :: flat_map operation_nodes operations ++ timeout_nodes timeout
  | UnsafeStatement body _ => [NBlock body]
  end.

Definition block_nodes (b : Block) : list Node := flat_map (λ id, [NStmt id]) (block_statements b).

Definition attribute_nodes (a : AttributeApplication) : list Node :=
  flat_map (λ x, [NExpr (aa_value x)]) (at_arguments a).
Definition parameter_nodes (p : Parameter_) : list Node := flat_map attribute_nodes (param_attributes p).
Definition function_nodes (f : Function) : list Node :=
  NBlock (fn_body f) :: flat_map parameter_nodes (fn_parameters f).
(** The attributes of a function are not part of what it evaluates. *)
Definition attached_nodes (f : Function) : list Node := flat_map attribute_nodes (fn_attributes f).

Definition refs (a : Arena) (n : Node) : list Node :=
  match n with
  | NExpr id => from_option (λ e, expression_nodes (expr_value e)) [] (ar_expressions a !! id)
  | NStmt id => from_option (λ s, statement_nodes (stmt_value s)) [] (ar_statements a !! id)
  | NBlock id => from_option block_nodes [] (ar_blocks a !! id)
  | NFun id => from_option function_nodes [] (ar_functions a !! id)
  end.
(** [child] is referred to by [parent]. *)
Definition refers (a : Arena) (child parent : Node) : Prop := child ∈ refs a parent.

(** ** Construction *)

Inductive built : Arena → Prop :=
  | built_empty : built emptyArena
  | built_expression es ss bs fs e :
      built (mkArena es ss bs fs) → nodes_in (mkArena es ss bs fs) (expression_nodes (expr_value e)) →
      built (mkArena (es ++ [e]) ss bs fs)
  | built_statement es ss bs fs s :
      built (mkArena es ss bs fs) → nodes_in (mkArena es ss bs fs) (statement_nodes (stmt_value s)) →
      built (mkArena es (ss ++ [s]) bs fs)
  | built_block es ss bs fs b :
      built (mkArena es ss bs fs) → nodes_in (mkArena es ss bs fs) (block_nodes b) →
      built (mkArena es ss (bs ++ [b]) fs)
  | built_function es ss bs fs f :
      built (mkArena es ss bs fs) → nodes_in (mkArena es ss bs fs) (function_nodes f ++ attached_nodes f) →
      built (mkArena es ss bs (fs ++ [f]))
  (** Attributes are attached to a function later. *)
  | built_attach es ss bs fs id f f' :
      built (mkArena es ss bs fs) → fs !! id = Some f → function_nodes f' = function_nodes f →
      nodes_in (mkArena es ss bs fs) (attached_nodes f') →
      built (mkArena es ss bs (<[id := f']> fs))
  (** The last expression of a body becomes its result. *)
  | built_tail es ss bs fs id value span :
      built (mkArena es ss bs fs) → ss !! id = Some (mkStatement (ExpressionStatement value) span) →
      built (mkArena es (<[id := mkStatement (ReturnStatement (Some value) true) span]> ss) bs fs).

(** The nodes of [a] are nodes of [b], unchanged. *)
Record extends (a b : Arena) : Prop := mkExtends {
  ext_expressions : ar_expressions a `prefix_of` ar_expressions b;
  ext_statements : ar_statements a `prefix_of` ar_statements b;
  ext_blocks : ar_blocks a `prefix_of` ar_blocks b;
  ext_functions : ar_functions a `prefix_of` ar_functions b;
}.

#[global] Instance extends_preorder : PreOrder extends.
Proof.
  split; [by split|]. intros x y z [????] [????]. split; by etrans.
Qed.

Lemma node_in_extends a b n : extends a b → node_in a n → node_in b n.
Proof.
  intros [H1%prefix_length H2%prefix_length H3%prefix_length H4%prefix_length]. destruct n; cbn; lia.
Qed.
Lemma nodes_in_extends a b l : extends a b → nodes_in a l → nodes_in b l.
Proof. intros He Hl. eapply Forall_impl; [exact Hl|]. intros n. by apply node_in_extends. Qed.

Lemma nodes_in_cons a n l : nodes_in a (n :: l) ↔ node_in a n ∧ nodes_in a l.
Proof. apply Forall_cons. Qed.
Lemma nodes_in_app a l1 l2 : nodes_in a (l1 ++ l2) ↔ nodes_in a l1 ∧ nodes_in a l2.
Proof. apply Forall_app. Qed.
Lemma nodes_in_flat {A} a (f : A → list Node) l : nodes_in a (flat_map f l) ↔ Forall (λ x, nodes_in a (f x)) l.
Proof.
  induction l as [|x l IH]; cbn; [by split; constructor|]. by rewrite nodes_in_app, Forall_cons, IH.
Qed.
Lemma nodes_in_snoc {A} a (f : A → list Node) l x :
  nodes_in a (flat_map f (l ++ [x])) ↔ nodes_in a (flat_map f l) ∧ nodes_in a (f x).
Proof. rewrite flat_map_app, nodes_in_app. cbn. by rewrite app_nil_r. Qed.
Lemma nodes_in_ids a ids : nodes_in a (expression_ids ids) ↔ Forall (λ id, node_in a (NExpr id)) ids.
Proof.
  unfold expression_ids. rewrite nodes_in_flat. apply Forall_iff. intros id.
  unfold nodes_in. by rewrite Forall_singleton.
Qed.

Lemma refs_extends a b n : extends a b → node_in a n → refs b n = refs a n.
Proof.
  intros [H1 H2 H3 H4]. destruct n as [id|id|id|id]; cbn; intros [x Hx]%lookup_lt_is_Some;
    rewrite Hx; (erewrite prefix_lookup_Some; [|exact Hx|eassumption]); done.
Qed.

(** In range and without cycles. *)
Definition sane (a : Arena) : Prop := ∀ n, node_in a n → nodes_in a (refs a n) ∧ Acc (refers a) n.

(** In range, and a rank that falls along references: following them ends within as
    many steps as there are nodes. *)
Definition arena_size (a : Arena) : nat :=
  length (ar_expressions a) + length (ar_statements a) + length (ar_blocks a) + length (ar_functions a).
Definition ranking (a : Arena) (rank : Node → nat) : Prop :=
  ∀ n, node_in a n → rank n < arena_size a ∧ Forall (λ m, node_in a m ∧ rank m < rank n) (refs a n).
Definition ranked (a : Arena) : Prop := ∃ rank, ranking a rank.

#[global] Instance node_in_dec a n : Decision (node_in a n).
Proof. destruct n; unfold node_in; exact _. Defined.

Lemma ranked_sane a : ranked a → sane a.
Proof.
  intros [rank Hr] n Hn. split.
  - destruct (Hr n Hn) as [_ H]. eapply Forall_impl; [exact H|]. by intros m [].
  - remember (rank n) as k eqn:Hk. revert n Hn Hk. induction (lt_wf k) as [k _ IH]. intros n Hn ->.
    constructor. intros m Hm. destruct (Hr n Hn) as [_ H]. rewrite Forall_forall in H.
    destruct (H m Hm) as [Hin Hlt]. by eapply (IH (rank m)).
Qed.

Lemma ranked_add a b :
  extends a b → ranked a → arena_size a < arena_size b →
  (∀ n, node_in b n → node_in a n ∨ nodes_in a (refs b n)) → ranked b.
Proof.
  intros He [rank Hr] Hsize Hb. exists (λ n, if decide (node_in a n) then rank n else arena_size a).
  intros n Hn. case_decide as Hna.
  - destruct (Hr n Hna) as [Hlt Hf]. split; [lia|]. rewrite (refs_extends _ _ _ He Hna).
    eapply Forall_impl; [exact Hf|]. intros m [Hm Hmn]. rewrite decide_True by done.
    split; [by eapply node_in_extends|done].
  - destruct (Hb n Hn) as [?|Hf]; [done|]. split; [done|]. eapply Forall_impl; [exact Hf|]. intros m Hm.
    rewrite decide_True by done. split; [by eapply node_in_extends|]. by destruct (Hr m Hm).
Qed.

Lemma ranked_same a b :
  (∀ n, refs b n = refs a n) → (∀ n, node_in b n ↔ node_in a n) → arena_size b = arena_size a → ranked a → ranked b.
Proof.
  intros Hr Hn Hs [rank H]. exists rank. intros n Hb. apply Hn in Hb. destruct (H n Hb) as [H1 H2].
  rewrite Hr, Hs. split; [done|]. eapply Forall_impl; [exact H2|]. intros m []. by rewrite Hn.
Qed.

Lemma lookup_snoc {A} (l : list A) (x : A) id :
  id < length (l ++ [x]) → id < length l ∨ (l ++ [x]) !! id = Some x.
Proof.
  rewrite length_app. cbn. intros Hid. destruct (decide (id < length l)); [by left|right].
  rewrite lookup_app_r by lia. replace (id - length l) with 0 by lia. done.
Qed.

Lemma built_ranked a : built a → ranked a.
Proof.
  induction 1 as [|es ss bs fs x _ IH Hx|es ss bs fs x _ IH Hx|es ss bs fs x _ IH Hx|es ss bs fs x _ IH Hx
    |es ss bs fs id f f' _ IH Hid Hf _|es ss bs fs id value span _ IH Hid].
  2-5: eapply ranked_add; [|exact IH|unfold arena_size; cbn; rewrite length_app; cbn; lia|];
    [by split; cbn; try apply prefix_app_r|].
  - exists (λ _, 0). intros [id|id|id|id]; cbn; lia.
  - intros [id|id|id|id] Hn; cbn in Hn; [|by left..]. destruct (lookup_snoc _ _ _ Hn) as [?|E]; [by left|right].
    cbn. by rewrite E.
  - intros [id|id|id|id] Hn; cbn in Hn; [by left| |by left..]. destruct (lookup_snoc _ _ _ Hn) as [?|E]; [by left|right].
    cbn. by rewrite E.
  - intros [id|id|id|id] Hn; cbn in Hn; [by left..| |by left]. destruct (lookup_snoc _ _ _ Hn) as [?|E]; [by left|right].
    cbn. by rewrite E.
  - intros [id|id|id|id] Hn; cbn in Hn; [by left..|]. destruct (lookup_snoc _ _ _ Hn) as [?|E]; [by left|right].
    cbn. rewrite E. apply nodes_in_app in Hx as [Hx _]. done.
  - eapply ranked_same; [| | |exact IH].
    + intros [i|i|i|i]; cbn; try done. destruct (decide (i = id)) as [->|Hne].
      * rewrite list_lookup_insert_eq, Hid; [done|by eapply lookup_lt_Some].
      * by rewrite list_lookup_insert_ne.
    + intros [i|i|i|i]; cbn; try done. by rewrite length_insert.
    + unfold arena_size. cbn. by rewrite length_insert.
  - eapply ranked_same; [| | |exact IH].
    + intros [i|i|i|i]; cbn; try done. destruct (decide (i = id)) as [->|Hne].
      * rewrite list_lookup_insert_eq, Hid; [done|by eapply lookup_lt_Some].
      * by rewrite list_lookup_insert_ne.
    + intros [i|i|i|i]; cbn; try done. by rewrite length_insert.
    + unfold arena_size. cbn. by rewrite length_insert.
Qed.
Lemma built_sane a : built a → sane a.
Proof. intros H. by apply ranked_sane, built_ranked. Qed.

(** Attributes refer to expressions that exist. *)
Definition attached (a : Arena) : Prop := Forall (λ f, nodes_in a (attached_nodes f)) (ar_functions a).

Lemma attached_grow a b fs :
  Forall (λ f, nodes_in a (attached_nodes f)) fs → (∀ n, node_in a n → node_in b n) →
  Forall (λ f, nodes_in b (attached_nodes f)) fs.
Proof.
  intros Hf Hn. eapply Forall_impl; [exact Hf|]. intros f Hin. eapply Forall_impl; [exact Hin|]. done.
Qed.

Lemma built_attached a : built a → attached a.
Proof.
  induction 1 as [|es ss bs fs x _ IH Hx|es ss bs fs x _ IH Hx|es ss bs fs x _ IH Hx|es ss bs fs x _ IH Hx
    |es ss bs fs id f f' _ IH Hid Hf Ha|es ss bs fs id value span _ IH Hid]; unfold attached in *; cbn [ar_functions] in *.
  1: constructor.
  4: apply nodes_in_app in Hx as [_ Hx]; apply Forall_app; split; [|apply Forall_singleton].
  6: apply Forall_insert.
  all: (eapply attached_grow; [eassumption|]) || (eapply Forall_impl; [eassumption|]).
  all: intros [i|i|i|i]; cbn; rewrite ?length_app, ?length_insert; cbn; lia.
Qed.

(** ** Declarations *)

(** What the declarations of a program refer to. *)
Definition field_declaration_nodes (f : StructField) : list Node :=
  flat_map attribute_nodes (sf_attributes f) ++ optional NFun (sf_defaultFunction f).
Definition struct_nodes (d : StructDeclaration) : list Node :=
  flat_map attribute_nodes (sd_attributes d) ++ flat_map field_declaration_nodes (sd_fields d).
Definition variant_nodes (v : EnumVariant) : list Node := flat_map attribute_nodes (ev_attributes v).
Definition enum_nodes (d : EnumDeclaration) : list Node :=
  flat_map attribute_nodes (ed_attributes d) ++ flat_map variant_nodes (ed_variants d).
Definition contract_method_nodes (m : ContractMethod) : list Node :=
  flat_map parameter_nodes (cm_parameters m) ++ flat_map attribute_nodes (cm_attributes m) ++
  optional NFun (cm_defaultFunction m).
Definition contract_nodes (d : ContractDeclaration) : list Node :=
  flat_map attribute_nodes (cd_attributes d) ++ flat_map contract_method_nodes (cd_methods d).
Definition attribute_declaration_nodes (d : AttributeDeclaration) : list Node :=
  flat_map parameter_nodes (ad_parameters d).
Definition declared_nodes (p : Program) : list Node :=
  flat_map struct_nodes (pr_structs p) ++ flat_map enum_nodes (pr_enums p) ++
  flat_map contract_nodes (pr_contracts p) ++ flat_map attribute_declaration_nodes (pr_attributeDeclarations p).

(** The members of a program besides its arena. *)
Definition declared (p : Program) : bytes * bool * list ImportDeclaration * list StructDeclaration *
    list EnumDeclaration * list ContractDeclaration * list AttributeDeclaration :=
  (pr_packageName p, pr_hasPackageDeclaration p, pr_imports p, pr_structs p, pr_enums p, pr_contracts p,
   pr_attributeDeclarations p).

Lemma program_eq p q : arena p = arena q → declared p = declared q → p = q.
Proof. destruct p, q. unfold arena, declared. cbn. by intros [= -> -> -> ->] [= -> -> -> -> -> -> ->]. Qed.
Lemma declared_nodes_eq p q : declared p = declared q → declared_nodes p = declared_nodes q.
Proof. destruct p, q. unfold declared, declared_nodes. cbn. by intros [= -> -> -> -> -> -> ->]. Qed.

(** The parameters of attribute declarations have no attributes. *)
Definition plain_attributes (p : Program) : Prop :=
  Forall (λ d, Forall (λ q, param_attributes q = []) (ad_parameters d)) (pr_attributeDeclarations p).
Lemma plain_attributes_eq p q : declared p = declared q → plain_attributes p ↔ plain_attributes q.
Proof. destruct p, q. unfold declared, plain_attributes. cbn. by intros [= -> -> -> -> -> -> ->]. Qed.

(** A program whose references are in range and end. *)
Record well_formed (p : Program) : Prop := mkWellFormed {
  wf_ranked : ranked (arena p);
  wf_attached : attached (arena p);
  wf_declared : nodes_in (arena p) (declared_nodes p);
  wf_plain : plain_attributes p;
}.
