(* ===== verification/ParserState.v ===== *)
(** * The parser's state and token access (compiler/src/parser.cpp)

    The mutable members of [class Parser], a state monad over them in which [None]
    is a loop or recursion that ran out of fuel or an access outside a vector, the
    token cursor, the generic
    look-ahead and the type syntax. *)
From S2P Require Import Prelude Target Diagnostics Token Ast.

Definition maxBlockDepth : nat := 128.
Definition maxExpressionDepth : nat := 256.
Definition maxExpressionNodes : nat := 1024.
Definition maxTypeDepth : nat := 128.
Definition maxGenericLookaheadTokens : nat := N.to_nat 4096.

(** The members that parsing changes; [tokens_] and [target_] are constant. *)
Record Parser := mkParser {
  diagnostics_ : Diagnostics;
  program_ : Program;
  current_ : nat;
  blockDepth_ : nat;
  expressionDepth_ : nat;
  expressionCalls_ : nat;
  expressionNodes_ : nat;
  typeDepth_ : nat;
  activeTypeParameters_ : list bytes;
  activeTransferableTypeParameters_ : list bool;
  activeTypeParameterConstraints_ : list (option TypeSyntax);
  expressionLimitReported_ : bool;
  structLiteralsAllowed_ : bool;
}.

Definition parser_start (diagnostics : Diagnostics) : Parser :=
  mkParser diagnostics emptyProgram 0 0 0 0 0 0 [] [] [] false true.

(** ** The monad *)

Definition P (A : Type) : Type := Parser → option (A * Parser).

#[global] Instance P_ret : MRet P := λ A a st, Some (a, st).
#[global] Instance P_bind : MBind P := λ A B k m st,
  match m st with Some (a, st) => k a st | None => None end.

Definition get : P Parser := λ st, Some (st, st).
Definition modify (f : Parser → Parser) : P () := λ st, Some ((), f st).
Definition out_of_fuel {A} : P A := λ _, None.
(** An element of a vector, undefined outside of it. *)
Definition element {A} (a : option A) : P A := λ st, match a with Some a => Some (a, st) | None => None end.

(** A loop that threads a value: the body says whether it runs again. *)
Fixpoint loop {A} (fuel : nat) (body : A → P (A * bool)) (a : A) : P A :=
  match fuel with
  | O => out_of_fuel
  | S fuel => '(a, again) ← body a; if again : bool then loop fuel body a else mret a
  end.

(** ** Members *)

Definition set_diagnostics (f : Diagnostics → Diagnostics) (s : Parser) : Parser :=
  mkParser (f (diagnostics_ s)) (program_ s) (current_ s) (blockDepth_ s) (expressionDepth_ s)
    (expressionCalls_ s) (expressionNodes_ s) (typeDepth_ s) (activeTypeParameters_ s)
    (activeTransferableTypeParameters_ s) (activeTypeParameterConstraints_ s)
    (expressionLimitReported_ s) (structLiteralsAllowed_ s).
Definition set_program (f : Program → Program) (s : Parser) : Parser :=
  mkParser (diagnostics_ s) (f (program_ s)) (current_ s) (blockDepth_ s) (expressionDepth_ s)
    (expressionCalls_ s) (expressionNodes_ s) (typeDepth_ s) (activeTypeParameters_ s)
    (activeTransferableTypeParameters_ s) (activeTypeParameterConstraints_ s)
    (expressionLimitReported_ s) (structLiteralsAllowed_ s).
Definition set_current (f : nat → nat) (s : Parser) : Parser :=
  mkParser (diagnostics_ s) (program_ s) (f (current_ s)) (blockDepth_ s) (expressionDepth_ s)
    (expressionCalls_ s) (expressionNodes_ s) (typeDepth_ s) (activeTypeParameters_ s)
    (activeTransferableTypeParameters_ s) (activeTypeParameterConstraints_ s)
    (expressionLimitReported_ s) (structLiteralsAllowed_ s).
Definition set_blockDepth (f : nat → nat) (s : Parser) : Parser :=
  mkParser (diagnostics_ s) (program_ s) (current_ s) (f (blockDepth_ s)) (expressionDepth_ s)
    (expressionCalls_ s) (expressionNodes_ s) (typeDepth_ s) (activeTypeParameters_ s)
    (activeTransferableTypeParameters_ s) (activeTypeParameterConstraints_ s)
    (expressionLimitReported_ s) (structLiteralsAllowed_ s).
Definition set_expressionDepth (f : nat → nat) (s : Parser) : Parser :=
  mkParser (diagnostics_ s) (program_ s) (current_ s) (blockDepth_ s) (f (expressionDepth_ s))
    (expressionCalls_ s) (expressionNodes_ s) (typeDepth_ s) (activeTypeParameters_ s)
    (activeTransferableTypeParameters_ s) (activeTypeParameterConstraints_ s)
    (expressionLimitReported_ s) (structLiteralsAllowed_ s).
Definition set_expressionCalls (f : nat → nat) (s : Parser) : Parser :=
  mkParser (diagnostics_ s) (program_ s) (current_ s) (blockDepth_ s) (expressionDepth_ s)
    (f (expressionCalls_ s)) (expressionNodes_ s) (typeDepth_ s) (activeTypeParameters_ s)
    (activeTransferableTypeParameters_ s) (activeTypeParameterConstraints_ s)
    (expressionLimitReported_ s) (structLiteralsAllowed_ s).
Definition set_expressionNodes (nodes : nat) (reported : bool) (s : Parser) : Parser :=
  mkParser (diagnostics_ s) (program_ s) (current_ s) (blockDepth_ s) (expressionDepth_ s)
    (expressionCalls_ s) nodes (typeDepth_ s) (activeTypeParameters_ s)
    (activeTransferableTypeParameters_ s) (activeTypeParameterConstraints_ s)
    reported (structLiteralsAllowed_ s).
Definition set_typeDepth (f : nat → nat) (s : Parser) : Parser :=
  mkParser (diagnostics_ s) (program_ s) (current_ s) (blockDepth_ s) (expressionDepth_ s)
    (expressionCalls_ s) (expressionNodes_ s) (f (typeDepth_ s)) (activeTypeParameters_ s)
    (activeTransferableTypeParameters_ s) (activeTypeParameterConstraints_ s)
    (expressionLimitReported_ s) (structLiteralsAllowed_ s).
Definition set_active (parameters : list bytes) (transferable : list bool)
    (constraints : list (option TypeSyntax)) (s : Parser) : Parser :=
  mkParser (diagnostics_ s) (program_ s) (current_ s) (blockDepth_ s) (expressionDepth_ s)
    (expressionCalls_ s) (expressionNodes_ s) (typeDepth_ s) parameters transferable constraints
    (expressionLimitReported_ s) (structLiteralsAllowed_ s).
Definition set_structLiterals (allowed : bool) (s : Parser) : Parser :=
  mkParser (diagnostics_ s) (program_ s) (current_ s) (blockDepth_ s) (expressionDepth_ s)
    (expressionCalls_ s) (expressionNodes_ s) (typeDepth_ s) (activeTypeParameters_ s)
    (activeTransferableTypeParameters_ s) (activeTypeParameterConstraints_ s)
    (expressionLimitReported_ s) allowed.

(** [diagnostics_.error]. *)
Definition report (code message : bytes) (span : SourceSpan) : P () :=
  modify (set_diagnostics (λ d, error d code message span)).

(** ** The vectors of [program_] *)

Definition set_expressions (f : list Expression → list Expression) (p : Program) : Program :=
  mkAstProgram (pr_packageName p) (pr_hasPackageDeclaration p) (pr_imports p) (f (pr_expressions p))
    (pr_statements p) (pr_blocks p) (pr_structs p) (pr_enums p) (pr_contracts p)
    (pr_attributeDeclarations p) (pr_functions p).
Definition set_statements (f : list Statement → list Statement) (p : Program) : Program :=
  mkAstProgram (pr_packageName p) (pr_hasPackageDeclaration p) (pr_imports p) (pr_expressions p)
    (f (pr_statements p)) (pr_blocks p) (pr_structs p) (pr_enums p) (pr_contracts p)
    (pr_attributeDeclarations p) (pr_functions p).
Definition set_blocks (f : list Block → list Block) (p : Program) : Program :=
  mkAstProgram (pr_packageName p) (pr_hasPackageDeclaration p) (pr_imports p) (pr_expressions p)
    (pr_statements p) (f (pr_blocks p)) (pr_structs p) (pr_enums p) (pr_contracts p)
    (pr_attributeDeclarations p) (pr_functions p).
Definition set_functions (f : list Function → list Function) (p : Program) : Program :=
  mkAstProgram (pr_packageName p) (pr_hasPackageDeclaration p) (pr_imports p) (pr_expressions p)
    (pr_statements p) (pr_blocks p) (pr_structs p) (pr_enums p) (pr_contracts p)
    (pr_attributeDeclarations p) (f (pr_functions p)).

Definition push_block (b : Block) : P nat :=
  st ← get;
  modify (set_program (set_blocks (λ l, l ++ [b])));;
  mret (length (pr_blocks (program_ st))).
Definition push_function (f : Function) : P nat :=
  st ← get;
  modify (set_program (set_functions (λ l, l ++ [f])));;
  mret (length (pr_functions (program_ st))).

(** [addExpression]: at most one report per root expression beyond 1024 nodes. *)
Definition addExpression (value : ExpressionValue) (span : SourceSpan) : P nat :=
  st ← get;
  let nodes := S (expressionNodes_ st) in
  (if bool_decide (maxExpressionNodes < nodes) && negb (expressionLimitReported_ st)
   then report (lit "FDN1029") (lit "expression exceeds 1024 nodes") span;;
        modify (set_expressionNodes nodes true)
   else modify (set_expressionNodes nodes (expressionLimitReported_ st)));;
  modify (set_program (set_expressions (λ l, l ++ [mkExpression value span])));;
  mret (length (pr_expressions (program_ st))).

Definition addStatement (value : StatementValue) (span : SourceSpan) : P nat :=
  st ← get;
  modify (set_program (set_statements (λ l, l ++ [mkStatement value span])));;
  mret (length (pr_statements (program_ st))).

(** [program_.expressions[id]] and [program_.statements[id]]. *)
Definition expression_at (id : nat) : P Expression :=
  st ← get; element (pr_expressions (program_ st) !! id).
Definition statement_at (id : nat) : P Statement :=
  st ← get; element (pr_statements (program_ st) !! id).

(** [hasBlockingAttribute], [hasCallbackAttribute], [isExported]. *)
Definition hasBlockingAttribute (attributes : list AttributeApplication) : bool :=
  existsb (λ a, bool_decide (at_name a = lit "blocking")) attributes.
Definition hasCallbackAttribute (attributes : list AttributeApplication) : bool :=
  existsb (λ a, bool_decide (at_name a = lit "callback")) attributes.
Definition isExported (name : bytes) : bool :=
  match name with [] => false | c :: _ => isupper c end.

(** [sameTypeSyntax]: equality up to the spans. *)
Fixpoint sameTypeSyntax (left right : TypeSyntax) : bool :=
  bool_decide (ts_name left = ts_name right) && bool_decide (ts_arrayLength left = ts_arrayLength right) &&
  (fix go (l r : list TypeSyntax) : bool :=
     match l, r with
     | [], [] => true
     | x :: l, y :: r => sameTypeSyntax x y && go l r
     | _, _ => false
     end) (ts_arguments left) (ts_arguments right).

(** ** The token cursor *)
Section cursor.
Context (tokens_ : list Token).

(** The token at an index, for specifications; the parser reads with a check. *)
Definition no_token : Token := mkToken TokenKind.Eof [] emptySpan false.
Definition token_at (index : nat) : Token := default no_token (tokens_ !! index).
Definition kind_at (index : nat) : TokenKind := tok_kind (token_at index).
(** What [peek] reads: the last token stands for everything behind the end. *)
Definition peek_index (index : nat) : Token :=
  match tokens_ !! index with Some t => t | None => default no_token (last tokens_) end.

Definition current : P Token := st ← get; element (tokens_ !! current_ st).
Definition previous : P Token :=
  st ← get; element (match current_ st with O => None | S index => tokens_ !! index end).
Definition peek (distance : nat) : P Token :=
  st ← get;
  let index := current_ st + distance in
  element (match tokens_ !! index with Some token => Some token | None => last tokens_ end).
Definition check (kind : TokenKind) : P bool :=
  token ← current; mret (bool_decide (tok_kind token = kind)).
Definition atEnd : P bool := check TokenKind.Eof.
Definition advance : P Token :=
  ended ← atEnd;
  (if ended : bool then mret () else modify (set_current S));;
  previous.
Definition match_ (kind : TokenKind) : P bool :=
  found ← check kind;
  if found : bool then advance;; mret true else mret false.
Definition expect (kind : TokenKind) (code message : bytes) : P Token :=
  found ← check kind;
  if found : bool then advance
  else token ← current; report code message (tok_span token);; current.
Definition continuesLine : P bool :=
  st ← get;
  if bool_decide (current_ st = 0) then mret false
  else
    token ← current;
    before ← previous;
    mret (bool_decide (span_line (tok_span token) = span_line (tok_span before))).
Definition peek_kind (distance : nat) : P TokenKind := token ← peek distance; mret (tok_kind token).

(** The bound of every loop: each turn passes a token. *)
Definition turns : nat := S (length tokens_).

(** [do { item } while (match(Comma))]. *)
Definition comma_list {A} (item : P A) : P (list A) :=
  loop turns (λ items, a ← item; more ← match_ TokenKind.Comma; mret (items ++ [a], more)) [].

(** ** [qualifiedName] *)

Definition identifierShaped (text : bytes) : bool :=
  match text with
  | [] => false
  | c :: rest => (isalpha c || bool_decide (c = "_"%char)) &&
                 forallb (λ c, isalnum c || bool_decide (c = "_"%char)) rest
  end.

Definition takeSegment (code message : bytes) (allowKeywordSegments : bool) : P Token :=
  token ← current;
  if bool_decide (tok_kind token = TokenKind.Identifier) || bool_decide (tok_kind token = TokenKind.Test) ||
     (allowKeywordSegments && identifierShaped (tok_text token))
  then advance
  else expect TokenKind.Identifier code message.

Definition qualifiedName (code message : bytes) (allowKeywordSegments : bool) : P (bytes * SourceSpan) :=
  first ← takeSegment code message allowKeywordSegments;
  name ← loop turns (λ name,
    dot ← match_ TokenKind.Dot;
    if negb dot then mret (name, false)
    else
      token ← current;
      before ← previous;
      if bool_decide (span_line (tok_span token) ≠ span_line (tok_span before))
      then report code message (tok_span token);; mret (name, false)
      else
        segment ← takeSegment code message allowKeywordSegments;
        mret (name ++ lit "." ++ tok_text segment, true)) (tok_text first);
  mret (name, tok_span first).
End cursor.
