(* ===== verification/ParserTypes.v ===== *)
(** * Type syntax and the generic look-ahead (compiler/src/parser.cpp)

    [TypeLookahead], [typeArgumentListClosingToken], [startsGenericPrimary],
    [typeParameters] and [typeSyntax]. *)
From S2P Require Import Prelude Diagnostics Token Ast ParserState.


(** The digits a text starts with. *)
Fixpoint leading_digits (text : bytes) : bytes :=
  match text with
  | c :: rest => if isdigit c then c :: leading_digits rest else []
  | [] => []
  end.

(** [std::from_chars] into an unsigned 64-bit integer that was zero: the integer
    afterwards, and whether the whole text was a number that fits. *)
Definition from_chars (text : bytes) : N * bool :=
  let digits := leading_digits text in
  if bool_decide (digits = []) || (size_modulus <=? decimal digits)%N then (0%N, false)
  else (decimal digits, bool_decide (digits = text)).

Section lookahead.
Context (tokens_ : list Token).

(** Results of the scan: a read outside the tokens (or more turns than allowed), [None]; a
    rejected text, [Some None]; an accepted one, the index behind it. *)
Definition scan_then (r : option (option nat)) (k : nat → option (option nat)) : option (option nat) :=
  match r with Some (Some cur) => k cur | r => r end.

(** [tokens_[index].kind == kind]. *)
Definition kind_is (kind : TokenKind) (index : nat) : option bool :=
  element_is (λ token, bool_decide (tok_kind token = kind)) tokens_ index.
Definition text_is (text : bytes) (index : nat) : option bool :=
  element_is (λ token, bool_decide (tok_text token = text)) tokens_ index.

Definition withinBudget (start cur : nat) : bool :=
  bool_decide (cur < length tokens_) && bool_decide (cur - start < maxGenericLookaheadTokens).
Definition scan_check (start cur : nat) (kind : TokenKind) : option bool :=
  Some (withinBudget start cur) &&? kind_is kind cur.
Definition scan_match (start cur : nat) (kind : TokenKind) : option (option nat) :=
  found ← scan_check start cur kind;
  Some (if found : bool then Some (S cur) else None).

(** [while (match(separator)) { if (!item) return false; }]. *)
Fixpoint scan_commas (fuel : nat) (start : nat) (item : nat → option (option nat)) (cur : nat)
    : option (option nat) :=
  match fuel with
  | O => None
  | S fuel =>
      comma ← scan_check start cur TokenKind.Comma;
      if comma : bool then scan_then (item (S cur)) (scan_commas fuel start item)
      else Some (Some cur)
  end.
Fixpoint scan_dots (fuel : nat) (start cur : nat) : option (option nat) :=
  match fuel with
  | O => None
  | S fuel =>
      dot ← scan_check start cur TokenKind.Dot;
      if dot : bool then scan_then (scan_match start (S cur) TokenKind.Identifier) (scan_dots fuel start)
      else Some (Some cur)
  end.

(** [scanTypeArguments]: the index behind the closing [>]. *)
Definition scanTypeArguments (start : nat) (item : nat → option (option nat)) (cur : nat)
    : option (option nat) :=
  scan_then (scan_match start cur TokenKind.Less) (λ cur,
  scan_then (item cur) (λ cur,
  scan_then (scan_commas (turns tokens_) start item cur) (λ cur,
  scan_match start cur TokenKind.Greater))).

(** A function type's parameter, behind its optional mode. *)
Definition scan_parameter (start : nat) (item : nat → option (option nat)) (cur : nat) : option (option nat) :=
  mode ← scan_check start cur TokenKind.Ampersand ||? scan_check start cur TokenKind.Dollar;
  if mode : bool then item (S cur) else item cur.

(** The index behind [fn], [extern c fn] or [transferable fn], if the type is one. *)
Definition scan_function (start cur : nat) : option (option nat) :=
  function ← scan_check start cur TokenKind.Fn;
  if function : bool then Some (Some (S cur))
  else
    external ← scan_check start cur TokenKind.Extern &&? Some (bool_decide (cur + 2 < length tokens_)) &&?
               kind_is TokenKind.Identifier (cur + 1) &&? text_is (lit "c") (cur + 1) &&? kind_is TokenKind.Fn (cur + 2);
    if external : bool then Some (Some (cur + 3))
    else
      transferable ← scan_check start cur TokenKind.Identifier &&? text_is (lit "transferable") cur &&?
                     Some (bool_decide (cur + 1 < length tokens_)) &&? kind_is TokenKind.Fn (cur + 1);
      Some (if transferable : bool then Some (cur + 2) else None).

(** The rest of a function type, behind its keyword, ... *)
Definition scan_function_type (start : nat) (item : nat → option (option nat)) (cur : nat) : option (option nat) :=
  scan_then (scan_match start cur TokenKind.LeftParen) (λ cur,
  scan_then
    (closed ← scan_check start cur TokenKind.RightParen;
     if closed : bool then Some (Some cur)
     else scan_then (scan_parameter start item cur)
            (scan_commas (turns tokens_) start (scan_parameter start item))) (λ cur,
  scan_then (scan_match start cur TokenKind.RightParen) item)).
(** ... and of an array type, behind its [[]. *)
Definition scan_array_type (start : nat) (item : nat → option (option nat)) (cur : nat) : option (option nat) :=
  negative ← scan_check start cur TokenKind.Minus;
  if negative : bool then
    scan_then (scan_match start (S cur) TokenKind.Integer) (λ cur,
    scan_then (scan_match start cur TokenKind.RightBracket) item)
  else
    integer ← scan_check start cur TokenKind.Integer;
    if integer : bool then scan_then (scan_match start (S cur) TokenKind.RightBracket) item
    else scan_then (item cur) (λ cur, scan_match start cur TokenKind.RightBracket).

(** [scanType]: [levels] is [maxTypeDepth - depth]. *)
Fixpoint scanType (levels : nat) (start cur : nat) : option (option nat) :=
  match levels with
  | O => Some None
  | S levels =>
      let item := scanType levels start in
      if negb (withinBudget start cur) then Some None
      else
        mode ← scan_check start cur TokenKind.Own ||? scan_check start cur TokenKind.View ||?
               scan_check start cur TokenKind.Edit;
        if mode : bool then item (S cur)
        else
          pointer ← scan_check start cur TokenKind.Star;
          if pointer : bool then
            constant ← scan_check start (S cur) TokenKind.Const;
            item (if constant : bool then S (S cur) else S cur)
          else
            function ← scan_function start cur;
            match function with
            | Some cur => scan_function_type start item cur
            | None =>
                array ← scan_check start cur TokenKind.LeftBracket;
                if array : bool then scan_array_type start item (S cur)
                else
                  scan_then (scan_match start cur TokenKind.Identifier) (λ cur,
                  scan_then (scan_dots (turns tokens_) start cur) (λ cur,
                  generic ← scan_check start cur TokenKind.Less;
                  if generic : bool then scanTypeArguments start item cur else Some (Some cur)))
            end
  end.

(** The closing [>] of the argument list that opens at a token, if it is one. *)
Definition typeArgumentListClosingToken (opening : nat) : option (option nat) :=
  opens ← Some (bool_decide (opening < length tokens_)) &&? kind_is TokenKind.Less opening;
  if opens : bool then
    behind ← scanTypeArguments opening (scanType (maxTypeDepth - 1) opening) opening;
    Some (match behind with Some behind => Some (behind - 1) | None => None end)
  else Some None.

Definition startsGenericPrimary (st : Parser) : option bool :=
  closing ← typeArgumentListClosingToken (current_ st);
  match closing with
  | None => Some false
  | Some closing =>
      if bool_decide (length tokens_ ≤ closing + 1) then Some false
      else
        close ← tokens_ !! closing;
        next ← tokens_ !! (closing + 1);
        let continues := bool_decide (span_line (tok_span next) = span_line (tok_span close)) in
        let has kind := bool_decide (tok_kind next = kind) in
        Some (if continues && (has TokenKind.Dot || has TokenKind.LeftBrace || has TokenKind.LeftParen) then true
              else if has TokenKind.Eof || negb continues then true
              else has TokenKind.Comma || has TokenKind.RightParen || has TokenKind.RightBracket || has TokenKind.RightBrace)
  end.
End lookahead.

(** ** [typeSyntax] *)
Section types.
Context (tokens_ : list Token).
Local Abbreviation check := (check tokens_).
Local Abbreviation match_ := (match_ tokens_).
Local Abbreviation expect := (expect tokens_).
Local Abbreviation advance := (advance tokens_).
Local Abbreviation current := (current tokens_).
Local Abbreviation previous := (previous tokens_).
Local Abbreviation peek := (peek tokens_).
Local Abbreviation atEnd := (atEnd tokens_).

(** The recursive call. *)
Context (self : bytes → bytes → P TypeSyntax).

(** One more level of nesting around a single argument. *)
Definition wrapped_type (name : bytes) (span : SourceSpan) (code message : bytes) : P TypeSyntax :=
  st ← get;
  if bool_decide (maxTypeDepth ≤ typeDepth_ st)
  then report (lit "FDN1065") (lit "type nesting exceeds 128 levels") span;; mret (mkType name [] span 0)
  else
    modify (set_typeDepth S);;
    argument ← self code message;
    modify (set_typeDepth pred);;
    mret (mkType name [argument] span 0).

(** A parameter of a function type, with its mode. *)
Definition function_parameter : P TypeSyntax :=
  start ← current;
  edit ← match_ TokenKind.Ampersand;
  if edit : bool then
    mode ← previous;
    parameter ← self (lit "FDN1121") (lit "expected function parameter type");
    mret (mkType (lit "[function-edit]") [parameter] (tok_span mode) 0)
  else
    transfer ← match_ TokenKind.Dollar;
    if transfer : bool then
      mode ← previous;
      parameter ← self (lit "FDN1121") (lit "expected function parameter type");
      mret (mkType (lit "[function-transfer]") [parameter] (tok_span mode) 0)
    else
      own ← check TokenKind.Own; view ← check TokenKind.View; edit ← check TokenKind.Edit;
      if (own || view || edit) : bool
      then self (lit "FDN1121") (lit "expected function parameter type")
      else
        parameter ← self (lit "FDN1121") (lit "expected function parameter type");
        mret (mkType (lit "[function-read]") [parameter] (tok_span start) 0).

Definition function_type (name : bytes) (start : Token) : P TypeSyntax :=
  _ ← expect TokenKind.LeftParen (lit "FDN1120") (lit "expected ( in function type");
  closed ← check TokenKind.RightParen;
  parameters ← (if closed : bool then mret [] else comma_list tokens_ function_parameter);
  _ ← expect TokenKind.RightParen (lit "FDN1122") (lit "expected ) in function type");
  result ← self (lit "FDN1123") (lit "expected function return type");
  mret (mkType name (result :: parameters) (tok_span start) 0).

(** Behind [\[]: an array with its length, or a slice. *)
Definition slice_type (start : Token) : P TypeSyntax :=
  element ← self (lit "FDN1082") (lit "expected slice element type");
  _ ← expect TokenKind.RightBracket (lit "FDN1083") (lit "expected ] after slice element type");
  mret (mkType (lit "[slice]") [element] (tok_span start) 0).

Definition array_type (start : Token) (code message : bytes) : P TypeSyntax :=
  found ← match_ TokenKind.Integer;
  if found : bool then
    lengthToken ← previous;
    let '(length, valid) := from_chars (tok_text lengthToken) in
    (if valid : bool then mret ()
     else report (lit "FDN1080") (lit "array length is outside the supported range") (tok_span lengthToken));;
    _ ← expect TokenKind.RightBracket (lit "FDN1081") (lit "expected ] after array length");
    element ← self code message;
    mret (mkType (lit "[array]") [element] (tok_span start) length)
  else slice_type start.

Definition bracket_type (start : Token) (code message : bytes) : P TypeSyntax :=
  minus ← match_ TokenKind.Minus;
  if minus : bool then
    sign ← previous;
    found ← match_ TokenKind.Integer;
    if found : bool then
      report (lit "FDN1080") (lit "array length must be non-negative") (tok_span sign);;
      _ ← expect TokenKind.RightBracket (lit "FDN1081") (lit "expected ] after array length");
      element ← self code message;
      mret (mkType (lit "[array]") [element] (tok_span start) 0)
    else array_type start code message
  else array_type start code message.

(** Recovery behind [<] of a type that is nested too deeply. *)
Definition skip_arguments : P () :=
  _ ← loop (turns tokens_) (λ depth,
    ended ← atEnd;
    if (ended || bool_decide (depth = 0)) : bool then mret (depth, false)
    else
      opened ← match_ TokenKind.Less;
      if opened : bool then mret (S depth, true)
      else
        closed ← match_ TokenKind.Greater;
        if closed : bool then mret (depth - 1, true) else advance;; mret (depth, true)) 1;
  mret ().

Definition named_type (code message : bytes) : P TypeSyntax :=
  '(qualified, span) ← qualifiedName tokens_ code message false;
  generic ← match_ TokenKind.Less;
  if negb generic then mret (mkType qualified [] span 0)
  else
    st ← get;
    if bool_decide (maxTypeDepth ≤ typeDepth_ st) then
      report (lit "FDN1065") (lit "type nesting exceeds 128 levels") span;;
      skip_arguments;;
      mret (mkType qualified [] span 0)
    else
      modify (set_typeDepth S);;
      arguments ← comma_list tokens_ (self (lit "FDN1063") (lit "expected type argument"));
      _ ← expect TokenKind.Greater (lit "FDN1064") (lit "expected > after type arguments");
      modify (set_typeDepth pred);;
      mret (mkType qualified arguments span 0).

Definition typeSyntax (code message : bytes) : P TypeSyntax :=
  star ← match_ TokenKind.Star;
  if star : bool then
    pointer ← previous;
    readOnly ← match_ TokenKind.Const;
    wrapped_type (if readOnly : bool then lit "[raw-const]" else lit "[raw]") (tok_span pointer) code message
  else
  own ← check TokenKind.Own; view ← check TokenKind.View; edit ← check TokenKind.Edit;
  if (own || view || edit) : bool then
    qualifier ← advance;
    wrapped_type (tok_text qualifier) (tok_span qualifier) code message
  else
  now ← current; next ← peek 1; third ← peek 2;
  let cFunction := bool_decide (tok_kind now = TokenKind.Extern) &&
    bool_decide (tok_kind next = TokenKind.Identifier) && bool_decide (tok_text next = lit "c") &&
    bool_decide (tok_kind third = TokenKind.Fn) in
  let transferableFunction := bool_decide (tok_kind now = TokenKind.Identifier) &&
    bool_decide (tok_text now = lit "transferable") && bool_decide (tok_kind next = TokenKind.Fn) in
  if cFunction then
    start ← advance; _ ← advance; _ ← advance; function_type (lit "[c-function]") start
  else if transferableFunction then
    start ← advance; _ ← advance; function_type (lit "[transferable-function]") start
  else
  plain ← match_ TokenKind.Fn;
  if plain : bool then start ← previous; function_type (lit "[function]") start
  else
  bracket ← match_ TokenKind.LeftBracket;
  if bracket : bool then start ← previous; bracket_type start code message
  else named_type code message.
End types.

(** The recursion on fuel. *)
Fixpoint type_syntax (fuel : nat) (tokens_ : list Token) (code message : bytes) : P TypeSyntax :=
  match fuel with
  | O => out_of_fuel
  | S fuel => typeSyntax tokens_ (type_syntax fuel tokens_) code message
  end.

(** Each call behind the first has passed a token. *)
Definition typeSyntax_fuel (tokens_ : list Token) : nat := S (length tokens_).
Definition parseType (tokens_ : list Token) : bytes → bytes → P TypeSyntax :=
  type_syntax (typeSyntax_fuel tokens_) tokens_.

(** [typeParameters], with the two optional out parameters asked for or not. *)
Definition type_parameter (tokens_ : list Token) (withTransferable withConstraints : bool)
    : P (bytes * (bool * option TypeSyntax)) :=
  name ← expect tokens_ TokenKind.Identifier (lit "FDN1061") (lit "expected type parameter");
  token ← current tokens_;
  transferable ←
    (if withTransferable && bool_decide (tok_kind token = TokenKind.Identifier) &&
        bool_decide (tok_text token = lit "transferable")
     then _ ← advance tokens_; mret true else mret false);
  constrained ← check tokens_ TokenKind.Identifier;
  constraint ←
    (if (withConstraints && constrained) : bool
     then type ← parseType tokens_ (lit "FDN1250") (lit "expected contract type constraint"); mret (Some type)
     else mret None);
  mret (tok_text name, (transferable, constraint)).

Definition typeParameters (tokens_ : list Token) (withTransferable withConstraints : bool)
    : P (list (bytes * (bool * option TypeSyntax))) :=
  generic ← match_ tokens_ TokenKind.Less;
  if negb generic then mret []
  else
    parameters ← comma_list tokens_ (type_parameter tokens_ withTransferable withConstraints);
    _ ← expect tokens_ TokenKind.Greater (lit "FDN1062") (lit "expected > after type parameters");
    mret parameters.
