(* ===== verification/ParserExpressions.v ===== *)
(** * Expressions (compiler/src/parser.cpp)

    The recursive descent through the precedence levels, the primary expressions,
    the blocks inside expressions and the closures.  The functions are written
    over a record of recursive entry points, each called behind a token that the
    caller has passed; ParserStatements.v ties the knot. *)
From S2P Require Import Prelude Target Diagnostics Token Ast ParserState ParserTypes.

(** The functions of [class Parser] that recursion comes back to. *)
Record Entries := mkEntries {
  e_expression : P nat;
  e_conditional : P nat;
  e_unary : P nat;
  e_primary : P nat;
  e_statement : P nat;
  e_tailIf : P nat;
  e_block : bool → P nat;
}.

(** ** Look-ahead for a conditional expression in tail position *)
Section tail_if.
Context (tokens_ : list Token).

(** The next token that opens a block or ends the file. *)
Fixpoint find_block (fuel index : nat) : option nat :=
  match fuel with
  | O => None
  | S fuel =>
      continues ← Some (bool_decide (index < length tokens_)) &&?
        (negb <$> kind_is tokens_ TokenKind.LeftBrace index) &&? (negb <$> kind_is tokens_ TokenKind.Eof index);
      if continues : bool then find_block fuel (S index) else Some index
  end.

(** The index behind the block, and the braces left open. *)
Fixpoint skip_braces (fuel position depth : nat) : option (nat * nat) :=
  match fuel with
  | O => None
  | S fuel =>
      if bool_decide (position < length tokens_) && negb (bool_decide (depth = 0)) then
        token ← tokens_ !! position;
        skip_braces fuel (S position)
          (match tok_kind token with
           | TokenKind.LeftBrace => S depth
           | TokenKind.RightBrace => depth - 1
           | _ => depth
           end)
      else Some (position, depth)
  end.

(** The first token of the line a block ends with. *)
Fixpoint tail_start (contentStart tailLine tailStart : nat) : option nat :=
  match tailStart with
  | O => Some tailStart
  | S before =>
      continues ← Some (bool_decide (contentStart < tailStart)) &&?
        element_is (λ token, bool_decide (span_line (tok_span token) = tailLine)) tokens_ before;
      if continues : bool then tail_start contentStart tailLine before else Some tailStart
  end.

Definition tail_value_kind (kind : TokenKind) : bool :=
  negb (bool_decide (kind ∈ [TokenKind.Let; TokenKind.Const; TokenKind.Var; TokenKind.Return;
                             TokenKind.Discard; TokenKind.While; TokenKind.Select])).

(** The [skipBlock] of the look-ahead: the index behind a block and whether it ends with a value. *)
Definition skipBlock (position : nat) : option (option (nat * bool)) :=
  opens ← Some (bool_decide (position < length tokens_)) &&? kind_is tokens_ TokenKind.LeftBrace position;
  if opens : bool then
    let contentStart := S position in
    '(position, depth) ← skip_braces (turns tokens_) contentStart 1;
    if negb (bool_decide (depth = 0)) || bool_decide (position ≤ contentStart + 1) then Some None
    else
      final ← tokens_ !! (position - 2);
      start ← tail_start contentStart (span_line (tok_span final)) (position - 2);
      token ← tokens_ !! start;
      Some (Some (position, tail_value_kind (tok_kind token)))
  else Some None.

Definition startsTailIfExpression (st : Parser) : option bool :=
  conditional ← kind_is tokens_ TokenKind.If (current_ st);
  if conditional : bool then
    index ← find_block (turns tokens_) (current_ st + 1);
    block ← skipBlock index;
    match block with
    | Some (index, true) =>
        alternative ← Some (bool_decide (index < length tokens_)) &&? kind_is tokens_ TokenKind.Else index;
        if alternative : bool then
          block ← skipBlock (S index);
          match block with
          | Some (index, true) => Some (bool_decide (index < length tokens_)) &&? kind_is tokens_ TokenKind.RightBrace index
          | _ => Some false
          end
        else Some false
    | _ => Some false
    end
  else Some false.
End tail_if.

Section expressions.
Context (tokens_ : list Token) (target_ : TargetPlatform).
(** [parseFloating] of numeric.cpp, over the standard library's number input. *)
Context (parseFloating : bytes → bool).
Context (self : Entries).

Local Abbreviation check := (check tokens_).
Local Abbreviation match_ := (match_ tokens_).
Local Abbreviation expect := (expect tokens_).
Local Abbreviation advance := (advance tokens_).
Local Abbreviation current := (current tokens_).
Local Abbreviation previous := (previous tokens_).
Local Abbreviation peek := (peek tokens_).
Local Abbreviation peek_kind := (peek_kind tokens_).
Local Abbreviation atEnd := (atEnd tokens_).
Local Abbreviation continuesLine := (continuesLine tokens_).
Local Abbreviation parseType := (parseType tokens_).

(** [if (match(a)) ... else if (match(b)) ... else ...]. *)
Fixpoint match_cases {A} (cases : list (TokenKind * P A)) (otherwise : P A) : P A :=
  match cases with
  | [] => otherwise
  | (kind, body) :: cases =>
      found ← match_ kind;
      if found : bool then body else match_cases cases otherwise
  end.

(** [while (!check(RightBrace) && !atEnd()) { ... }], collecting what the turns add. *)
Definition until_brace {A} (item : P (list A)) : P (list A) :=
  loop (turns tokens_) (λ items,
    closing ← check TokenKind.RightBrace;
    ended ← atEnd;
    if (closing || ended) : bool then mret (items, false)
    else added ← item; mret (items ++ added, true)) [].

Definition skip_unless_end : P () :=
  ended ← atEnd;
  if ended : bool then mret () else _ ← advance; mret ().

(** ** Attributes and parameters *)

(** [name =] before an argument. *)
Definition argument_name : P (option Token) :=
  named ← check TokenKind.Identifier;
  next ← peek_kind 1;
  if named && bool_decide (next = TokenKind.Equal)
  then token ← advance; _ ← advance; mret (Some token) else mret None.

Definition attribute_argument : P AttributeArgument :=
  start ← current;
  name ← argument_name;
  value ← e_expression self;
  mret (mkAttributeArgument (tok_text <$> name) value (tok_span start)).

Definition targetArgument (argument : Token) : P (option TargetSelector) :=
  let selector := parseTargetSelector (tok_text argument) in
  (match selector with
   | Some _ => mret ()
   | None => report (lit "FDN1142") (lit "unknown target " ++ tok_text argument) (tok_span argument)
   end);;
  mret selector.

Record ParsedAttributes := mkParsedAttributes {
  pa_selected : bool;
  pa_applications : list AttributeApplication;
}.

(** The parentheses of [@target]: the selection, if this attribute decides it. *)
Definition target_attribute (allowTarget foundTarget : bool) (span : SourceSpan) : P (option bool) :=
  argument ← expect TokenKind.Identifier (lit "FDN1142") (lit "expected target name in compiler attribute");
  _ ← expect TokenKind.RightParen (lit "FDN1143") (lit "expected ) after compiler attribute");
  if negb allowTarget then
    report (lit "FDN1146") (lit "@target is only valid on package declarations") span;; mret None
  else if foundTarget then
    report (lit "FDN1144") (lit "declaration has more than one @target attribute") span;; mret None
  else
    requested ← targetArgument argument;
    mret (Some (match requested with Some selector => targetSelected selector target_ | None => false end)).

Definition attributes (allowTarget : bool) : P ParsedAttributes :=
  '(_, result) ← loop (turns tokens_) (λ '(foundTarget, result),
    found ← match_ TokenKind.At;
    if negb found then mret ((foundTarget, result), false)
    else
      '(name, span) ← qualifiedName tokens_ (lit "FDN1140") (lit "expected attribute name after @") false;
      opening ← check TokenKind.LeftParen;
      if (bool_decide (name = lit "blocking") || bool_decide (name = lit "callback")) && negb opening then
        mret ((foundTarget, mkParsedAttributes (pa_selected result)
                 (pa_applications result ++ [mkAttributeApplication name [] span false])), true)
      else
        _ ← expect TokenKind.LeftParen (lit "FDN1141") (lit "expected ( after attribute name");
        if bool_decide (name = lit "target") then
          decided ← target_attribute allowTarget foundTarget span;
          mret (match decided with
                | Some selected => (true, mkParsedAttributes selected (pa_applications result))
                | None => (foundTarget, result)
                end, true)
        else
          closed ← check TokenKind.RightParen;
          arguments ← (if closed : bool then mret [] else comma_list tokens_ attribute_argument);
          _ ← expect TokenKind.RightParen (lit "FDN1143") (lit "expected ) after attribute arguments");
          mret ((foundTarget, mkParsedAttributes (pa_selected result)
                   (pa_applications result ++ [mkAttributeApplication name arguments span true])), true))
    (false, mkParsedAttributes true []);
  mret result.

Definition parameter_span (start name : SourceSpan) : SourceSpan :=
  if bool_decide (span_offset start < span_offset name)
  then mkSpan (span_offset start) (span_offset name + span_length name - span_offset start)
         (span_line start) (span_column start) (span_source name)
  else name.

Definition parameter (allowInferredType : bool) : P Parameter_ :=
  parsed ← attributes false;
  start ← current;
  mode ← match_cases
    [(TokenKind.Ampersand, mret ParameterMode.Edit); (TokenKind.Dollar, mret ParameterMode.Transfer)]
    (mret ParameterMode.Read);
  name ← expect TokenKind.Identifier (lit "FDN1026") (lit "expected parameter name");
  comma ← check TokenKind.Comma;
  closing ← check TokenKind.RightParen;
  let inferredType := allowInferredType && (comma || closing) in
  type ← (if inferredType then mret (mkType [] [] (tok_span name) 0)
          else parseType (lit "FDN1028") (lit "expected parameter type"));
  mode ←
    (if bool_decide (mode = ParameterMode.Read) &&
        bool_decide (ts_name type ∈ [lit "own"; lit "view"; lit "edit"]) then
       let replacement :=
         if bool_decide (ts_name type = lit "edit") then lit "&" ++ tok_text name
         else if bool_decide (ts_name type = lit "own") then lit "$" ++ tok_text name else tok_text name in
       report (lit "FDN1186") (lit "parameter mode after the name was removed; use " ++ replacement) (ts_span type);;
       mret ParameterMode.TypeEncoded
     else mret mode);
  mret (mkParameter (tok_text name) type (parameter_span (tok_span start) (tok_span name))
          (pa_applications parsed) mode inferredType).

(** ** Primary expressions *)

Definition call_argument : P (option Token * nat) :=
  name ← argument_name; value ← e_expression self; mret (name, value).

(** The arguments up to the closing parenthesis. *)
Definition call_arguments (code message : bytes) : P (list (option Token * nat)) :=
  closed ← check TokenKind.RightParen;
  arguments ← (if closed : bool then mret [] else comma_list tokens_ call_argument);
  _ ← expect TokenKind.RightParen code message;
  mret arguments.
Definition argument_names (arguments : list (option Token * nat)) : list (option bytes) :=
  map (λ a, tok_text <$> a.1) arguments.
Definition argument_name_spans (arguments : list (option Token * nat)) : list (option SourceSpan) :=
  map (λ a, tok_span <$> a.1) arguments.

Definition finishCall (callee : Token) (typeArguments : list TypeSyntax) : P nat :=
  arguments ← call_arguments (lit "FDN1024") (lit "expected ) after call arguments");
  addExpression (CallExpression (tok_text callee) typeArguments (map snd arguments)
    (argument_names arguments) (argument_name_spans arguments)) (tok_span callee).

Definition struct_field : P (list StructFieldInitializer) :=
  named ← check TokenKind.Identifier;
  if negb named then
    token ← current;
    report (lit "FDN1038") (lit "expected struct literal field name") (tok_span token);;
    _ ← advance; mret []
  else
    field ← advance;
    _ ← expect TokenKind.Equal (lit "FDN1039") (lit "expected = after struct literal field name");
    value ← e_expression self;
    mret [mkFieldInitializer (tok_text field) value (tok_span field)].

Definition finishStruct (type : TypeSyntax) : P nat :=
  fields ← until_brace struct_field;
  _ ← expect TokenKind.RightBrace (lit "FDN1040") (lit "expected } after struct literal");
  addExpression (StructExpression type fields) (ts_span type).

Definition finishMember (base : option nat) : P nat :=
  member ← expect TokenKind.Identifier (lit "FDN1051") (lit "expected member name");
  st ← get;
  typeArguments ←
    (generic ← element (startsGenericPrimary tokens_ st);
     if generic : bool then
       _ ← expect TokenKind.Less (lit "FDN1063") (lit "expected < before type arguments");
       types ← comma_list tokens_ (parseType (lit "FDN1063") (lit "expected type argument"));
       _ ← expect TokenKind.Greater (lit "FDN1064") (lit "expected > after type arguments");
       mret types
     else mret []);
  invoked ← match_ TokenKind.LeftParen;
  arguments ← (if invoked : bool
               then call_arguments (lit "FDN1052") (lit "expected ) after member invocation") else mret []);
  addExpression (MemberExpression base (tok_text member) typeArguments invoked (map snd arguments)
    (argument_names arguments) (argument_name_spans arguments)) (tok_span member).

Definition finishArray (start : Token) : P nat :=
  closed ← check TokenKind.RightBracket;
  elements ← (if closed : bool then mret [] else comma_list tokens_ (e_expression self));
  _ ← expect TokenKind.RightBracket (lit "FDN1085") (lit "expected ] after array literal");
  addExpression (ArrayExpression elements) (tok_span start).

Definition replaceExpression (start : Token) : P nat :=
  target ← e_primary self;
  _ ← expect TokenKind.With (lit "FDN1137") (lit "expected with after replacement place");
  value ← e_expression self;
  addExpression (ReplaceExpression target value) (tok_span start).

(** ** Blocks inside expressions *)

(** The statements of a block, where [tail] says that a conditional in tail
    position is an expression. *)
Definition block_items (tailResult : bool) (tailIf statement : P nat) : P (list nat) :=
  until_brace (
    st ← get;
    conditional ← (if tailResult then element (startsTailIfExpression tokens_ st) else mret false);
    id ← (if conditional : bool then tailIf else statement);
    mret [id]).

(** [skipNestedBlock]. *)
Definition skipNestedBlock (span : SourceSpan) : P nat :=
  _ ← loop (turns tokens_) (λ depth,
    ended ← atEnd;
    if (ended || bool_decide (depth = 0)) : bool then mret (depth, false)
    else
      depth ← match_cases
        [(TokenKind.LeftBrace, mret (S depth)); (TokenKind.RightBrace, mret (depth - 1))]
        (_ ← advance; mret depth);
      mret (depth, true)) 1;
  push_block (mkBlock [] span).

(** The statements before the value a block ends with, and the value. *)
Definition take_value (statements : list nat) : P (list nat * option nat) :=
  match last statements with
  | None => mret (statements, None)
  | Some statement =>
      s ← statement_at statement;
      mret match stmt_value s with
           | ExpressionStatement value => (removelast statements, Some value)
           | _ => (statements, None)
           end
  end.

Definition matchArmBlock : P (nat * option nat) :=
  start ← expect TokenKind.LeftBrace (lit "FDN1008") (lit "expected { before block");
  st ← get;
  if bool_decide (maxBlockDepth ≤ blockDepth_ st) then
    skipped ← skipNestedBlock (tok_span start); mret (skipped, None)
  else
    modify (set_blockDepth S);;
    items ← block_items true (e_tailIf self) (e_statement self);
    _ ← expect TokenKind.RightBrace (lit "FDN1009") (lit "expected } after block");
    '(statements, value) ← take_value items;
    modify (set_blockDepth pred);;
    block ← push_block (mkBlock statements (tok_span start));
    mret (block, value).

Definition expressionBlock : P (nat * nat) :=
  start ← expect TokenKind.LeftBrace (lit "FDN1176") (lit "expected { before conditional expression branch");
  st ← get;
  if bool_decide (maxBlockDepth ≤ blockDepth_ st) then
    skipped ← skipNestedBlock (tok_span start);
    value ← addExpression (IntegerExpression 0 false) (tok_span start);
    mret (skipped, value)
  else
    modify (set_blockDepth S);;
    items ← block_items true (e_tailIf self) (e_statement self);
    _ ← expect TokenKind.RightBrace (lit "FDN1177") (lit "expected } after conditional expression branch");
    '(statements, value) ← take_value items;
    value ← (match value with
             | Some value => mret value
             | None =>
                 report (lit "FDN1178") (lit "value block requires a final expression") (tok_span start);;
                 addExpression (IntegerExpression 0 false) (tok_span start)
             end);
    modify (set_blockDepth pred);;
    block ← push_block (mkBlock statements (tok_span start));
    mret (block, value).

(** A condition, in which [{] does not open a struct literal. *)
Definition condition : P nat :=
  st ← get;
  modify (set_structLiterals false);;
  value ← e_expression self;
  modify (set_structLiterals (structLiteralsAllowed_ st));;
  mret value.

Definition ifExpression (start : Token) : P nat :=
  test ← condition;
  '(thenBlock, thenValue) ← expressionBlock;
  _ ← expect TokenKind.Else (lit "FDN1175") (lit "expected else after conditional expression branch");
  '(elseBlock, elseValue) ← expressionBlock;
  addExpression (ConditionalExpression test thenBlock thenValue elseBlock elseValue false) (tok_span start).

(** ** Match expressions *)

Definition match_pattern : P (option bytes * option nat) :=
  opened ← match_ TokenKind.LeftParen;
  if negb opened then mret (None, None)
  else
    named ← check TokenKind.Identifier;
    next ← peek_kind 1;
    result ← (if named && bool_decide (next = TokenKind.RightParen)
              then binding ← advance; mret (Some (tok_text binding), None)
              else pattern ← e_expression self; mret (None, Some pattern));
    _ ← expect TokenKind.RightParen (lit "FDN1058") (lit "expected ) after payload pattern");
    mret result.

Definition match_arm : P (list MatchArm) :=
  variant ← expect TokenKind.Identifier (lit "FDN1056") (lit "expected pattern variant");
  '(binding, pattern) ← match_pattern;
  guarded ← match_ TokenKind.If;
  guard ← (if guarded : bool then value ← e_expression self; mret (Some value) else mret None);
  _ ← expect TokenKind.Colon (lit "FDN1059") (lit "expected : after match pattern");
  opening ← check TokenKind.LeftBrace;
  '(armBlock, armValue) ←
    (if opening : bool then matchArmBlock
     else
       block ← push_block (mkBlock [] (tok_span variant));
       value ← e_expression self;
       mret (block, Some value));
  mret [mkMatchArm (bool_decide (tok_text variant = lit "_")) (tok_text variant) binding pattern guard
          armBlock armValue (tok_span variant)].

Definition matchExpression (start : Token) : P nat :=
  value ← e_expression self;
  _ ← expect TokenKind.LeftBrace (lit "FDN1053") (lit "expected { after match value");
  arms ← until_brace match_arm;
  _ ← expect TokenKind.RightBrace (lit "FDN1060") (lit "expected } after match expression");
  addExpression (MatchExpression value arms) (tok_span start).

(** ** Closures *)

Definition removed_capture (mode : CaptureMode.t) (message : bytes) : P (CaptureMode.t * option SourceSpan) :=
  token ← previous;
  report (lit "FDN1188") message (tok_span token);;
  mret (mode, Some (tok_span token)).

Definition capture_mode_syntax : P (CaptureMode.t * option SourceSpan) :=
  match_cases
    [(TokenKind.Dollar, token ← previous; mret (CaptureMode.Own, Some (tok_span token)));
     (TokenKind.Ampersand, token ← previous; mret (CaptureMode.Edit, Some (tok_span token)));
     (TokenKind.Own, removed_capture CaptureMode.Own (lit "own capture was removed; use $name"));
     (TokenKind.View, removed_capture CaptureMode.View (lit "view capture was removed; use the name directly"));
     (TokenKind.Edit, removed_capture CaptureMode.Edit (lit "edit capture was removed; use &name"))]
    (mret (CaptureMode.Copy, None)).

Definition capture : P Capture :=
  start ← current;
  '(mode, span) ← capture_mode_syntax;
  name ← expect TokenKind.Identifier (lit "FDN1127") (lit "expected captured binding");
  mret (mkCapture mode (tok_text name) (default (tok_span start) span)).

Definition capture_list : P (list Capture) :=
  found ← match_ TokenKind.Capture;
  if negb found then mret []
  else
    _ ← expect TokenKind.LeftParen (lit "FDN1189") (lit "expected ( after capture");
    captures ← comma_list tokens_ capture;
    _ ← expect TokenKind.RightParen (lit "FDN1129") (lit "expected ) after capture list");
    mret captures.

(** A result other than [void] makes the last statement of a body its value. *)
Definition tail_result (returnType : TypeSyntax) : bool :=
  bool_decide (ts_name returnType ≠ lit "void") || bool_decide (ts_arguments returnType ≠ []).

Definition closure_name (functions : nat) : bytes := lit "$closure_" ++ to_string (N.of_nat functions).

(** The function of a closure: every other field has its default. *)
Definition closure_function (st : Parser) (parameters : list Parameter_) (returnType : TypeSyntax) (body : nat)
    (span : SourceSpan) (captures : list Capture) (inferredReturn : bool) : Function :=
  mkAstFunction (closure_name (length (pr_functions (program_ st)))) (activeTypeParameters_ st) parameters
    returnType body false span [] [] None [] None true true captures [] false false false None None false
    None None inferredReturn (activeTransferableTypeParameters_ st) None false
    (activeTypeParameterConstraints_ st).

Definition functionExpression (start : Token) : P nat :=
  _ ← expect TokenKind.LeftParen (lit "FDN1124") (lit "expected ( after fn");
  closed ← check TokenKind.RightParen;
  parameters ← (if closed : bool then mret [] else comma_list tokens_ (parameter true));
  _ ← expect TokenKind.RightParen (lit "FDN1125") (lit "expected ) after closure parameters");
  captures ← check TokenKind.Capture;
  opening ← check TokenKind.LeftBrace;
  let inferredReturn := captures || opening in
  token ← current;
  returnType ← (if inferredReturn then mret (mkType [] [] (tok_span token) 0)
                else parseType (lit "FDN1126") (lit "expected closure return type"));
  captures ← capture_list;
  body ← e_block self (inferredReturn || tail_result returnType);
  st ← get;
  function ← push_function (closure_function st parameters returnType body (tok_span start) captures inferredReturn);
  addExpression (FunctionExpression function) (tok_span start).

(** ** [primary] *)

Definition integer_literal : P nat :=
  token ← previous;
  let '(magnitude, valid) := from_chars (tok_text token) in
  (if valid : bool then mret ()
   else report (lit "FDN1016") (lit "integer is outside the supported range") (tok_span token));;
  addExpression (IntegerExpression magnitude false) (tok_span token).

Definition floating_literal : P nat :=
  token ← previous;
  (if parseFloating (tok_text token) then mret ()
   else report (lit "FDN1016") (lit "floating-point literal is outside the supported range") (tok_span token));;
  addExpression (FloatingExpression (tok_text token)) (tok_span token).

(** [{ }] or [{ name =] at the current token. *)
Definition struct_literal_follows : P bool :=
  st ← get;
  opening ← check TokenKind.LeftBrace;
  next ← peek_kind 1;
  third ← peek_kind 2;
  mret (structLiteralsAllowed_ st && opening &&
        (bool_decide (next = TokenKind.RightBrace) ||
         (bool_decide (next = TokenKind.Identifier) && bool_decide (third = TokenKind.Equal)))).

Definition name_primary : P nat :=
  name ← previous;
  st ← get;
  generic ← element (startsGenericPrimary tokens_ st);
  type ← (if generic : bool
          then modify (set_current pred);; parseType (lit "FDN1063") (lit "expected type")
          else mret (mkType (tok_text name) [] (tok_span name) 0));
  call ← match_ TokenKind.LeftParen;
  if call : bool then finishCall name (ts_arguments type)
  else
    literal ← struct_literal_follows;
    if literal : bool then _ ← advance; finishStruct type
    else addExpression (NameExpression (tok_text name) (ts_arguments type)) (tok_span name).

(** The primary expression before its suffixes. *)
Definition primary_head : P nat :=
  match_cases
    [(TokenKind.Integer, integer_literal);
     (TokenKind.Floating, floating_literal);
     (TokenKind.True, token ← previous; addExpression (BooleanExpression true) (tok_span token));
     (TokenKind.False, token ← previous; addExpression (BooleanExpression false) (tok_span token));
     (TokenKind.String, token ← previous; addExpression (StringExpression (tok_text token)) (tok_span token));
     (TokenKind.LeftBracket, token ← previous; finishArray token);
     (TokenKind.Match, token ← previous; matchExpression token);
     (TokenKind.If, token ← previous; ifExpression token);
     (TokenKind.Fn, token ← previous; functionExpression token);
     (TokenKind.Replace, token ← previous; replaceExpression token);
     (TokenKind.Dot, finishMember None);
     (TokenKind.Identifier, name_primary);
     (TokenKind.LeftParen,
      value ← e_expression self;
      _ ← expect TokenKind.RightParen (lit "FDN1022") (lit "expected ) after expression");
      mret value)]
    (bad ← current;
     report (lit "FDN1023") (lit "expected expression") (tok_span bad);;
     skip_unless_end;;
     addExpression (IntegerExpression 0 false) (tok_span bad)).

(** Members and indices on the same line. *)
Definition primary_suffixes (result : nat) : P nat :=
  loop (turns tokens_) (λ result,
    continues ← continuesLine;
    if negb continues then mret (result, false)
    else match_cases
      [(TokenKind.Dot, result ← finishMember (Some result); mret (result, true));
       (TokenKind.LeftBracket,
        start ← previous;
        index ← e_expression self;
        _ ← expect TokenKind.RightBracket (lit "FDN1084") (lit "expected ] after index");
        result ← addExpression (IndexExpression result index) (tok_span start);
        mret (result, true))]
      (mret (result, false))) result.

(** The type of [base.member { ... }]. *)
Definition member_type (program : Program) (id : nat) : option TypeSyntax :=
  match expr_value <$> pr_expressions program !! id with
  | Some (MemberExpression (Some base) member typeArguments false _ _ _) =>
      match pr_expressions program !! base with
      | Some (mkExpression (NameExpression name []) span) =>
          Some (mkType (name ++ lit "." ++ member) typeArguments span 0)
      | _ => None
      end
  | _ => None
  end.

Definition primary : P nat :=
  head ← primary_head;
  result ← primary_suffixes head;
  literal ← struct_literal_follows;
  if negb literal then mret result
  else
    st ← get;
    match member_type (program_ st) result with
    | Some type => _ ← advance; finishStruct type
    | None => mret result
    end.

(** ** [unary] *)

(** The text of a negated floating-point literal. *)
Definition negated_text (text : bytes) : bytes :=
  match text with
  | c :: rest => if bool_decide (c = "-"%char) then rest else "-"%char :: text
  | [] => ["-"%char]
  end.

Definition negated : P nat :=
  start ← previous;
  operand ← e_unary self;
  value ← expression_at operand;
  addExpression
    match expr_value value with
    | IntegerExpression magnitude negative => IntegerExpression magnitude (negb negative)
    | FloatingExpression text => FloatingExpression (negated_text text)
    | _ => UnaryExpression UnaryOperator.Negate operand
    end (tok_span start).

Definition prefixed (build : nat → ExpressionValue) : P nat :=
  start ← previous;
  operand ← e_unary self;
  addExpression (build operand) (tok_span start).

(** The removed prefixes [own], [view] and [edit]. *)
Definition qualified_operand : P nat :=
  token ← advance;
  operation ←
    (if bool_decide (tok_kind token = TokenKind.View) then
       report (lit "FDN1187") (lit "view expression was removed; pass the value directly") (tok_span token);;
       mret OwnershipOperator.View
     else if bool_decide (tok_kind token = TokenKind.Edit) then
       report (lit "FDN1187") (lit "edit expression was removed; use &value") (tok_span token);;
       mret OwnershipOperator.Edit
     else mret OwnershipOperator.Own);
  operand ← e_unary self;
  addExpression (OwnershipExpression operation operand) (tok_span token).

Definition unary_operators : list (TokenKind * P nat) :=
  [(TokenKind.Minus, negated);
   (TokenKind.Bang, prefixed (UnaryExpression UnaryOperator.Not));
   (TokenKind.Tilde, prefixed (UnaryExpression UnaryOperator.BitwiseNot));
   (TokenKind.Star, prefixed (UnaryExpression UnaryOperator.Dereference));
   (TokenKind.Dollar, prefixed (OwnershipExpression OwnershipOperator.Transfer));
   (TokenKind.Ampersand, prefixed (OwnershipExpression OwnershipOperator.Edit));
   (TokenKind.New, prefixed (OwnershipExpression OwnershipOperator.New));
   (TokenKind.Spawn, prefixed SpawnExpression)].

Definition unary : P nat :=
  st ← get;
  if bool_decide (maxExpressionDepth ≤ expressionDepth_ st) then
    bad ← current;
    report (lit "FDN1029") (lit "expression nesting exceeds 256 levels") (tok_span bad);;
    skip_unless_end;;
    addExpression (IntegerExpression 0 false) (tok_span bad)
  else
    modify (set_expressionDepth S);;
    result ← match_cases unary_operators
      (own ← check TokenKind.Own; view ← check TokenKind.View; edit ← check TokenKind.Edit;
       if (own || view || edit) : bool then qualified_operand else primary);
    modify (set_expressionDepth pred);;
    mret result.

(** ** The binary levels *)

(** [while (continuesLine() && ...)]: operands joined to the left. *)
Definition binary_level (operand : P nat) (operator : P (option BinaryOperator.t)) : P nat :=
  value ← operand;
  loop (turns tokens_) (λ value,
    continues ← continuesLine;
    if negb continues then mret (value, false)
    else
      operation ← operator;
      match operation with
      | None => mret (value, false)
      | Some operation =>
          right ← operand;
          left ← expression_at value;
          value ← addExpression (BinaryExpression value operation right) (expr_span left);
          mret (value, true)
      end) value.

(** An operator of one token. *)
Fixpoint operator_token (operators : list (TokenKind * BinaryOperator.t)) : P (option BinaryOperator.t) :=
  match operators with
  | [] => mret None
  | (kind, operation) :: operators =>
      found ← match_ kind;
      if found : bool then mret (Some operation) else operator_token operators
  end.

Definition adjacent (first second : Token) : bool :=
  bool_decide (span_offset (tok_span first) + span_length (tok_span first) = span_offset (tok_span second)).

Definition shift_pair (first second : Token) : option BinaryOperator.t :=
  if bool_decide (tok_kind first = TokenKind.Less) && bool_decide (tok_kind second = TokenKind.Less)
  then Some BinaryOperator.ShiftLeft
  else if bool_decide (tok_kind first = TokenKind.Greater) && bool_decide (tok_kind second = TokenKind.Greater)
  then Some BinaryOperator.ShiftRight else None.

Definition factor : P nat :=
  binary_level unary (operator_token
    [(TokenKind.Star, BinaryOperator.Multiply); (TokenKind.Slash, BinaryOperator.Divide);
     (TokenKind.Percent, BinaryOperator.Remainder)]).
Definition term : P nat :=
  binary_level factor (operator_token
    [(TokenKind.Plus, BinaryOperator.Add); (TokenKind.Minus, BinaryOperator.Subtract)]).

(** [<<] and [>>]: two adjacent tokens that no adjacent [=] follows. *)
Definition shift_operator : P (option BinaryOperator.t) :=
  first ← current; second ← peek 1; third ← peek 2;
  let assignment := adjacent second third && bool_decide (tok_kind third = TokenKind.Equal) in
  match shift_pair first second with
  | Some operation =>
      if negb (adjacent first second) || assignment then mret None
      else _ ← advance; _ ← advance; mret (Some operation)
  | None => mret None
  end.
Definition shift : P nat := binary_level term shift_operator.

Definition shiftAssignment : P bool :=
  first ← current; second ← peek 1; third ← peek 2;
  mret (adjacent first second && adjacent second third && bool_decide (tok_kind third = TokenKind.Equal) &&
        bool_decide (shift_pair first second ≠ None)).
Definition comparison_operator : P (option BinaryOperator.t) :=
  assignment ← shiftAssignment;
  if assignment : bool then mret None
  else operator_token
    [(TokenKind.Less, BinaryOperator.Less); (TokenKind.LessEqual, BinaryOperator.LessEqual);
     (TokenKind.Greater, BinaryOperator.Greater); (TokenKind.GreaterEqual, BinaryOperator.GreaterEqual)].
Definition comparison : P nat := binary_level shift comparison_operator.

Definition equality : P nat :=
  binary_level comparison (operator_token
    [(TokenKind.EqualEqual, BinaryOperator.Equal); (TokenKind.BangEqual, BinaryOperator.NotEqual)]).
Definition bitwiseAnd : P nat :=
  binary_level equality (operator_token [(TokenKind.Ampersand, BinaryOperator.BitwiseAnd)]).
Definition bitwiseXor : P nat :=
  binary_level bitwiseAnd (operator_token [(TokenKind.Caret, BinaryOperator.BitwiseXor)]).
Definition bitwiseOr : P nat :=
  binary_level bitwiseXor (operator_token [(TokenKind.Pipe, BinaryOperator.BitwiseOr)]).
Definition logicalAnd : P nat :=
  binary_level bitwiseOr (operator_token [(TokenKind.AndAnd, BinaryOperator.And)]).
Definition logicalOr : P nat :=
  binary_level logicalAnd (operator_token [(TokenKind.OrOr, BinaryOperator.Or)]).

(** ** [conditional] and [expression] *)

Definition conditional : P nat :=
  value ← logicalOr;
  continues ← continuesLine;
  postfix ← (if continues : bool then match_ TokenKind.If else mret false);
  if negb postfix then mret value
  else
    start ← previous;
    test ← logicalOr;
    _ ← expect TokenKind.Else (lit "FDN1174") (lit "expected else in postfix conditional expression");
    fallback ← e_conditional self;
    thenBlock ← push_block (mkBlock [] (tok_span start));
    elseBlock ← push_block (mkBlock [] (tok_span start));
    addExpression (ConditionalExpression test thenBlock value elseBlock fallback true) (tok_span start).

Definition expression : P nat :=
  st ← get;
  (if bool_decide (expressionCalls_ st = 0) then modify (set_expressionNodes 0 false) else mret ());;
  modify (set_expressionCalls S);;
  result ← conditional;
  modify (set_expressionCalls pred);;
  mret result.

End expressions.
