(* ===== verification/ParserStatements.v ===== *)
(** * Statements and blocks (compiler/src/parser.cpp)

    The statement functions of [class Parser] and [block], and the recursion that
    ties expressions, statements and blocks together. *)
From S2P Require Import Prelude Target Diagnostics Token Ast ParserState ParserTypes ParserExpressions.

Section statements.
Context (tokens_ : list Token) (target_ : TargetPlatform).
Context (parseFloating : bytes → bool).
Context (self : Entries).

Local Abbreviation check := (check tokens_).
Local Abbreviation match_ := (match_ tokens_).
Local Abbreviation match_cases := (match_cases tokens_).
Local Abbreviation expect := (expect tokens_).
Local Abbreviation advance := (advance tokens_).
Local Abbreviation current := (current tokens_).
Local Abbreviation previous := (previous tokens_).
Local Abbreviation peek := (peek tokens_).
Local Abbreviation peek_kind := (peek_kind tokens_).
Local Abbreviation atEnd := (atEnd tokens_).
Local Abbreviation parseType := (parseType tokens_).
Local Abbreviation condition := (condition self).

(** ** Bindings *)

(** The distance behind [name.name...]. *)
Fixpoint pattern_distance (fuel distance : nat) (st : Parser) : nat :=
  match fuel with
  | O => distance
  | S fuel =>
      if bool_decide (tok_kind (peek_index tokens_ (current_ st + distance)) = TokenKind.Dot) &&
         bool_decide (tok_kind (peek_index tokens_ (current_ st + (distance + 1))) = TokenKind.Identifier)
      then pattern_distance fuel (distance + 2) st else distance
  end.

(** A struct pattern: a qualified name and an opening brace. *)
Definition struct_pattern_follows (st : Parser) : bool :=
  bool_decide (tok_kind (peek_index tokens_ (current_ st)) = TokenKind.Identifier) &&
  bool_decide (tok_kind (peek_index tokens_ (current_ st + pattern_distance (turns tokens_) 1 st)) =
               TokenKind.LeftBrace).

Definition pattern_field : P (list StructPatternField) :=
  named ← check TokenKind.Identifier;
  if negb named then
    token ← peek 0;
    report (lit "FDN1133") (lit "expected field in struct pattern") (tok_span token);;
    _ ← advance; mret []
  else
    field ← expect TokenKind.Identifier (lit "FDN1133") (lit "expected field in struct pattern");
    renamed ← match_ TokenKind.As;
    binding ←
      (if renamed : bool
       then token ← expect TokenKind.Identifier (lit "FDN1134") (lit "expected binding after as"); mret (tok_text token)
       else mret (tok_text field));
    _ ← match_ TokenKind.Comma;
    mret [mkPatternField (tok_text field) binding (tok_span field)].

Definition structDestructureStatement (start : Token) : P nat :=
  '(name, span) ← qualifiedName tokens_ (lit "FDN1131") (lit "expected struct pattern type") false;
  _ ← expect TokenKind.LeftBrace (lit "FDN1132") (lit "expected { after struct pattern type");
  fields ← until_brace tokens_ pattern_field;
  _ ← expect TokenKind.RightBrace (lit "FDN1135") (lit "expected } after struct pattern");
  _ ← expect TokenKind.Equal (lit "FDN1136") (lit "expected = before destructuring initializer");
  initializer ← e_expression self;
  addStatement (StructDestructureStatement (mkType name [] span 0) fields initializer) (tok_span start).

(** The binding of an error before an else block. *)
Definition error_binding (code : bytes) : P (option bytes) :=
  named ← check TokenKind.Identifier;
  if named : bool then token ← advance; mret (Some (tok_text token))
  else
    opening ← check TokenKind.LeftBrace;
    token ← current;
    (if opening : bool then mret ()
     else report code (lit "expected error binding or { after else") (tok_span token));;
    mret None.

Definition variable_else (start : Token) (mutableBinding : bool) : P (option bytes * option nat) :=
  found ← match_ TokenKind.Else;
  if negb found then mret (None, None)
  else
    (if mutableBinding then report (lit "FDN1067") (lit "var binding cannot use else") (tok_span start)
     else mret ());;
    binding ← error_binding (lit "FDN1066");
    block ← e_block self false;
    mret (binding, Some block).

Definition variableStatement (start : Token) (mutableBinding : bool) : P nat :=
  name ← expect TokenKind.Identifier (lit "FDN1018") (lit "expected binding name");
  inferred ← check TokenKind.Equal;
  type ← (if inferred : bool then mret None
          else type ← parseType (lit "FDN1019") (lit "expected binding type"); mret (Some type));
  _ ← expect TokenKind.Equal (lit "FDN1020") (lit "expected = before binding initializer");
  initializer ← e_expression self;
  '(elseBinding, elseBlock) ← variable_else start mutableBinding;
  addStatement (VariableStatement mutableBinding (tok_text name) type initializer elseBinding elseBlock)
    (tok_span start).

(** ** Jumps *)

(** Whether something follows on the line of a keyword. *)
Definition value_follows (start : Token) : P bool :=
  closing ← check TokenKind.RightBrace;
  ended ← atEnd;
  token ← current;
  mret (negb closing && negb ended && bool_decide (span_line (tok_span token) = span_line (tok_span start))).

Definition returnStatement (start : Token) : P nat :=
  follows ← value_follows start;
  value ← (if follows : bool then value ← e_expression self; mret (Some value) else mret None);
  addStatement (ReturnStatement value false) (tok_span start).

Definition discardStatement (start : Token) : P nat :=
  value ← e_expression self;
  addStatement (DiscardStatement value) (tok_span start).

Definition loopJumpStatement (start : Token) (continues : bool) : P nat :=
  follows ← value_follows start;
  token ← current;
  (if follows : bool
   then report (lit "FDN1179") ((if continues then lit "continue" else lit "break") ++ lit " does not accept a value")
          (tok_span token)
   else mret ());;
  addStatement (if continues then ContinueStatement else BreakStatement) (tok_span start).

(** ** Conditionals and loops *)

Definition short_if_message : bytes := lit "short if requires return, break, or continue on the same line".

(** The jump of an [if] without braces. *)
Definition guarded_jump : P (nat * SourceSpan) :=
  match_cases
    [(TokenKind.Break, token ← previous; id ← loopJumpStatement token false; mret (id, tok_span token));
     (TokenKind.Continue, token ← previous; id ← loopJumpStatement token true; mret (id, tok_span token))]
    (returned ← expect TokenKind.Return (lit "FDN1173") short_if_message;
     id ← returnStatement returned; mret (id, tok_span returned)).

Definition short_if (start : Token) (test : nat) : P nat :=
  token ← current;
  let sameLine := bool_decide (span_line (tok_span token) = span_line (tok_span start)) in
  let jump := bool_decide (tok_kind token ∈ [TokenKind.Return; TokenKind.Break; TokenKind.Continue]) in
  (if sameLine && jump then mret () else report (lit "FDN1173") short_if_message (tok_span token));;
  '(guarded, span) ← guarded_jump;
  block ← push_block (mkBlock [guarded] span);
  addStatement (IfStatement test block None) (tok_span start).

Definition ifStatement (start : Token) : P nat :=
  test ← condition;
  opening ← check TokenKind.LeftBrace;
  if negb opening then short_if start test
  else
    thenBlock ← e_block self false;
    found ← match_ TokenKind.Else;
    elseBlock ← (if found : bool then block ← e_block self false; mret (Some block) else mret None);
    addStatement (IfStatement test thenBlock elseBlock) (tok_span start).

Definition whileStatement (start : Token) : P nat :=
  test ← condition;
  body ← e_block self false;
  addStatement (WhileStatement test body) (tok_span start).

Definition for_bindings : P (option bytes * (bytes * bool)) :=
  editable ← match_ TokenKind.Ampersand;
  first ← expect TokenKind.Identifier (lit "FDN1180") (lit "expected loop binding after for");
  comma ← match_ TokenKind.Comma;
  if negb comma then mret (None, (tok_text first, editable))
  else
    (if editable : bool then report (lit "FDN1181") (lit "loop index cannot be editable") (tok_span first)
     else mret ());;
    editable ← match_ TokenKind.Ampersand;
    value ← expect TokenKind.Identifier (lit "FDN1182") (lit "expected value binding after comma");
    mret (Some (tok_text first), (tok_text value, editable)).

Definition forStatement (start : Token) : P nat :=
  '(indexBinding, (valueBinding, editable)) ← for_bindings;
  _ ← expect TokenKind.In (lit "FDN1183") (lit "expected in after loop binding");
  sequence ← condition;
  body ← e_block self false;
  addStatement (ForStatement indexBinding valueBinding editable sequence body) (tok_span start).

Definition unsafeStatement (start : Token) : P nat :=
  body ← e_block self false;
  addStatement (UnsafeStatement body (leadingSafetyProof start)) (tok_span start).

(** ** [select] *)

Definition selectArmBlock : P nat :=
  opening ← check TokenKind.LeftBrace;
  if opening : bool then e_block self false
  else
    token ← current;
    id ← e_statement self;
    push_block (mkBlock [id] (tok_span token)).

(** The nanoseconds of a duration unit. *)
Definition duration_multiplier (unit_ : bytes) : option N :=
  if bool_decide (unit_ = lit "seconds") then Some 1000000000%N
  else if bool_decide (unit_ = lit "milliseconds") then Some 1000000%N
  else if bool_decide (unit_ = lit "microseconds") then Some 1000%N
  else if bool_decide (unit_ = lit "nanoseconds") then Some 1%N
  else None.

(** A literal duration in 64-bit nanoseconds: the largest one, and [false], when
    it does not fit. *)
Definition duration_nanoseconds (magnitude : N) (multiplier : option N) : N * bool :=
  let multiplier := default 0%N multiplier in
  if negb (multiplier =? 0)%N && ((size_modulus - 1) / multiplier <? magnitude)%N
  then ((size_modulus - 1)%N, false)
  else ((magnitude * multiplier) mod size_modulus, true)%N.

Definition literal_duration : P N :=
  amount ← advance; _ ← advance; unit_ ← advance;
  let '(magnitude, valid) := from_chars (tok_text amount) in
  (if valid : bool then mret ()
   else report (lit "FDN1016") (lit "integer is outside the supported range") (tok_span amount));;
  let multiplier := duration_multiplier (tok_text unit_) in
  (match multiplier with
   | Some _ => mret ()
   | None => report (lit "FDN1144") (lit "unknown timeout duration unit " ++ tok_text unit_) (tok_span unit_)
   end);;
  let '(nanoseconds, fits) := duration_nanoseconds magnitude multiplier in
  (if fits : bool then mret ()
   else report (lit "FDN1145") (lit "timeout duration is outside the supported range") (tok_span amount));;
  mret nanoseconds.

(** The arms a [select] has collected. *)
Record SelectArms := mkSelectArms {
  sa_operations : list SelectOperationArm;
  sa_timeout : option SelectTimeoutArm;
  sa_error : option (bytes * nat);
}.

Definition timeout_arm (arms : SelectArms) : P SelectArms :=
  timeoutToken ← previous;
  amount ← check TokenKind.Integer;
  next ← peek_kind 1; third ← peek_kind 2;
  '(nanoseconds, duration) ←
    (if amount && bool_decide (next = TokenKind.Dot) && bool_decide (third = TokenKind.Identifier)
     then nanoseconds ← literal_duration; mret (nanoseconds, None)
     else duration ← e_expression self; mret (0%N, Some duration));
  _ ← expect TokenKind.Colon (lit "FDN1146") (lit "expected : after timeout duration");
  body ← selectArmBlock;
  match sa_timeout arms with
  | Some _ =>
      report (lit "FDN1147") (lit "select accepts one timeout branch") (tok_span timeoutToken);; mret arms
  | None =>
      mret (mkSelectArms (sa_operations arms)
              (Some (mkSelectTimeout nanoseconds duration body (tok_span timeoutToken))) (sa_error arms))
  end.

Definition error_arm (arms : SelectArms) : P SelectArms :=
  elseToken ← previous;
  binding ← expect TokenKind.Identifier (lit "FDN1148") (lit "expected error binding after else");
  _ ← expect TokenKind.Colon (lit "FDN1149") (lit "expected : after select error binding");
  body ← selectArmBlock;
  match sa_error arms with
  | Some _ => report (lit "FDN1150") (lit "select accepts one error branch") (tok_span elseToken);; mret arms
  | None => mret (mkSelectArms (sa_operations arms) (sa_timeout arms) (Some (tok_text binding, body)))
  end.

Definition operation_arm (arms : SelectArms) : P SelectArms :=
  token ← current;
  bound ← match_ TokenKind.Const;
  '(binding, span) ←
    (if bound : bool then
       start ← previous;
       name ← expect TokenKind.Identifier (lit "FDN1151") (lit "expected select binding name");
       _ ← expect TokenKind.Equal (lit "FDN1152") (lit "expected = before select operation");
       mret (Some (tok_text name), tok_span start)
     else mret (None, tok_span token));
  operation ← e_expression self;
  _ ← expect TokenKind.Colon (lit "FDN1153") (lit "expected : after select operation");
  body ← selectArmBlock;
  mret (mkSelectArms (sa_operations arms ++ [mkSelectOperation binding operation body span])
          (sa_timeout arms) (sa_error arms)).

Definition select_arms : P SelectArms :=
  loop (turns tokens_) (λ arms,
    closing ← check TokenKind.RightBrace;
    ended ← atEnd;
    if (closing || ended) : bool then mret (arms, false)
    else
      arms ← match_cases
        [(TokenKind.Timeout, timeout_arm arms); (TokenKind.Else, error_arm arms)] (operation_arm arms);
      mret (arms, true)) (mkSelectArms [] None None).

Definition selectStatement (start : Token) : P nat :=
  _ ← expect TokenKind.LeftBrace (lit "FDN1140") (lit "expected { after select");
  arms ← select_arms;
  _ ← expect TokenKind.RightBrace (lit "FDN1154") (lit "expected } after select");
  (if bool_decide (sa_operations arms = [])
   then report (lit "FDN1155") (lit "select requires at least one channel operation") (tok_span start)
   else mret ());;
  '(binding, block) ←
    (match sa_error arms with
     | Some handler => mret handler
     | None =>
         report (lit "FDN1156") (lit "select requires an else error branch") (tok_span start);;
         block ← push_block (mkBlock [] (tok_span start));
         mret (lit "$selectError", block)
     end);
  addStatement (SelectStatement (sa_operations arms) (sa_timeout arms) binding block) (tok_span start).

(** ** [expressionStatement] *)

(** Three adjacent tokens [<<=] or [>>=]. *)
Definition shift_assignment : P (option AssignmentOperator.t) :=
  first ← current; second ← peek 1; third ← peek 2;
  if adjacent first second && adjacent second third && bool_decide (tok_kind third = TokenKind.Equal) then
    match shift_pair first second with
    | Some operation =>
        _ ← advance; _ ← advance; _ ← advance;
        mret (Some (if bool_decide (operation = BinaryOperator.ShiftLeft)
                    then AssignmentOperator.ShiftLeft else AssignmentOperator.ShiftRight))
    | None => mret None
    end
  else mret None.

Definition assignment_operator : P (option AssignmentOperator.t) :=
  match_cases
    [(TokenKind.Equal, mret (Some AssignmentOperator.Assign));
     (TokenKind.PlusEqual, mret (Some AssignmentOperator.Add));
     (TokenKind.MinusEqual, mret (Some AssignmentOperator.Subtract));
     (TokenKind.StarEqual, mret (Some AssignmentOperator.Multiply));
     (TokenKind.SlashEqual, mret (Some AssignmentOperator.Divide));
     (TokenKind.PercentEqual, mret (Some AssignmentOperator.Remainder))]
    shift_assignment.

Definition expressionStatement : P nat :=
  start ← current;
  value ← expression tokens_ target_ parseFloating self;
  assignment ← assignment_operator;
  match assignment with
  | Some assignment =>
      assigned ← e_expression self;
      addStatement (AssignmentStatement value assignment assigned) (tok_span start)
  | None =>
      found ← match_ TokenKind.Else;
      if found : bool then
        binding ← error_binding (lit "FDN1214");
        block ← e_block self false;
        addStatement (ResultElseStatement value binding block) (tok_span start)
      else addStatement (ExpressionStatement value) (tok_span start)
  end.

(** ** [statement] and [block] *)

Definition const_statement : P nat :=
  declaration ← advance;
  (if bool_decide (tok_kind declaration = TokenKind.Let)
   then report (lit "FDN1184") (lit "let was removed; use const") (tok_span declaration) else mret ());;
  st ← get;
  if struct_pattern_follows st then structDestructureStatement declaration
  else variableStatement declaration false.

Definition var_statement : P nat :=
  start ← previous;
  st ← get;
  if struct_pattern_follows st then
    report (lit "FDN1130") (lit "struct destructuring requires an immutable binding") (tok_span start);;
    structDestructureStatement start
  else variableStatement start true.

Definition statement_keywords : list (TokenKind * P nat) :=
  [(TokenKind.Var, var_statement);
   (TokenKind.Return, token ← previous; returnStatement token);
   (TokenKind.Discard, token ← previous; discardStatement token);
   (TokenKind.If, token ← previous; ifStatement token);
   (TokenKind.While, token ← previous; whileStatement token);
   (TokenKind.For, token ← previous; forStatement token);
   (TokenKind.Break, token ← previous; loopJumpStatement token false);
   (TokenKind.Continue, token ← previous; loopJumpStatement token true);
   (TokenKind.Select, token ← previous; selectStatement token);
   (TokenKind.Unsafe, token ← previous; unsafeStatement token)].

Definition statement : P nat :=
  removed ← check TokenKind.Let;
  constant ← check TokenKind.Const;
  if (removed || constant) : bool then const_statement
  else match_cases statement_keywords expressionStatement.

(** [if] in tail position: an expression statement. *)
Definition tail_if_statement : P nat :=
  conditionalStart ← advance;
  value ← ifExpression tokens_ self conditionalStart;
  addStatement (ExpressionStatement value) (tok_span conditionalStart).

(** The last statement of a body with a result returns its expression. *)
Definition return_tail (statements : list nat) : P () :=
  match last statements with
  | None => mret ()
  | Some id =>
      s ← statement_at id;
      match stmt_value s with
      | ExpressionStatement value =>
          modify (set_program (set_statements
            (λ l, <[id := mkStatement (ReturnStatement (Some value) true) (stmt_span s)]> l)))
      | _ => mret ()
      end
  end.

Definition block (tailResult : bool) : P nat :=
  start ← expect TokenKind.LeftBrace (lit "FDN1008") (lit "expected { before block");
  st ← get;
  if bool_decide (maxBlockDepth ≤ blockDepth_ st) then
    report (lit "FDN1030") (lit "block nesting exceeds 128 levels") (tok_span start);;
    skipNestedBlock tokens_ (tok_span start)
  else
    modify (set_blockDepth S);;
    items ← block_items tokens_ tailResult tail_if_statement statement;
    _ ← expect TokenKind.RightBrace (lit "FDN1009") (lit "expected } after block");
    (if tailResult then return_tail items else mret ());;
    modify (set_blockDepth pred);;
    push_block (mkBlock items (tok_span start)).

End statements.

(** ** The recursion *)

Definition stuck : Entries :=
  mkEntries out_of_fuel out_of_fuel out_of_fuel out_of_fuel out_of_fuel out_of_fuel (λ _, out_of_fuel).

(** One unfolding of the recursion through the given entry points. *)
Definition unfold_entries (tokens_ : list Token) (target_ : TargetPlatform) (parseFloating : bytes → bool)
    (self : Entries) : Entries :=
  mkEntries (expression tokens_ target_ parseFloating self) (conditional tokens_ target_ parseFloating self)
    (unary tokens_ target_ parseFloating self) (primary tokens_ target_ parseFloating self)
    (statement tokens_ target_ parseFloating self) (tail_if_statement tokens_ self)
    (block tokens_ target_ parseFloating self).

Fixpoint entries (tokens_ : list Token) (target_ : TargetPlatform) (parseFloating : bytes → bool)
    (fuel : nat) : Entries :=
  match fuel with
  | O => stuck
  | S fuel => unfold_entries tokens_ target_ parseFloating (entries tokens_ target_ parseFloating fuel)
  end.

(** Every recursive call is behind a token the caller has passed. *)
Definition parser_entries (tokens_ : list Token) (target_ : TargetPlatform) (parseFloating : bytes → bool)
    : Entries :=
  entries tokens_ target_ parseFloating (length tokens_).
