(* ===== verification/ParserDeclarations.v ===== *)
(** * Declarations (compiler/src/parser.cpp)

    Functions, methods, structs, enums, contracts and attribute declarations,
    over the entry points for expressions and blocks. *)
From S2P Require Import Prelude Target Diagnostics Token Ast ParserState ParserTypes ParserExpressions.

(** ** Members of [program_] and of [Function] *)

Definition set_package (name : bytes) (p : Program) : Program :=
  mkAstProgram name true (pr_imports p) (pr_expressions p) (pr_statements p) (pr_blocks p) (pr_structs p)
    (pr_enums p) (pr_contracts p) (pr_attributeDeclarations p) (pr_functions p).
Definition set_imports (f : list ImportDeclaration → list ImportDeclaration) (p : Program) : Program :=
  mkAstProgram (pr_packageName p) (pr_hasPackageDeclaration p) (f (pr_imports p)) (pr_expressions p)
    (pr_statements p) (pr_blocks p) (pr_structs p) (pr_enums p) (pr_contracts p) (pr_attributeDeclarations p)
    (pr_functions p).
Definition set_structs (f : list StructDeclaration → list StructDeclaration) (p : Program) : Program :=
  mkAstProgram (pr_packageName p) (pr_hasPackageDeclaration p) (pr_imports p) (pr_expressions p)
    (pr_statements p) (pr_blocks p) (f (pr_structs p)) (pr_enums p) (pr_contracts p)
    (pr_attributeDeclarations p) (pr_functions p).
Definition set_enums (f : list EnumDeclaration → list EnumDeclaration) (p : Program) : Program :=
  mkAstProgram (pr_packageName p) (pr_hasPackageDeclaration p) (pr_imports p) (pr_expressions p)
    (pr_statements p) (pr_blocks p) (pr_structs p) (f (pr_enums p)) (pr_contracts p)
    (pr_attributeDeclarations p) (pr_functions p).
Definition set_contracts (f : list ContractDeclaration → list ContractDeclaration) (p : Program) : Program :=
  mkAstProgram (pr_packageName p) (pr_hasPackageDeclaration p) (pr_imports p) (pr_expressions p)
    (pr_statements p) (pr_blocks p) (pr_structs p) (pr_enums p) (f (pr_contracts p))
    (pr_attributeDeclarations p) (pr_functions p).
Definition set_attributeDeclarations (f : list AttributeDeclaration → list AttributeDeclaration) (p : Program)
    : Program :=
  mkAstProgram (pr_packageName p) (pr_hasPackageDeclaration p) (pr_imports p) (pr_expressions p)
    (pr_statements p) (pr_blocks p) (pr_structs p) (pr_enums p) (pr_contracts p)
    (f (pr_attributeDeclarations p)) (pr_functions p).

(** [declaration.attributes], [declaration.blocking], [declaration.callback]. *)
Definition set_attributes (attributes : list AttributeApplication) (blocking callback : bool) (f : Function)
    : Function :=
  mkAstFunction (fn_name f) (fn_typeParameters f) (fn_parameters f) (fn_returnType f) (fn_body f) (fn_exported f)
    (fn_span f) (fn_packageName f) (fn_sourcePath f) (fn_receiver f) (fn_ownerType f) (fn_cSymbol f)
    (fn_hasBody f) (fn_closure f) (fn_captures f) attributes (fn_task f) blocking callback (fn_testName f)
    (fn_testNameSpan f) (fn_action f) (fn_stateTransition f) (fn_workflow f) (fn_inferredReturn f)
    (fn_transferableTypeParameters f) (fn_stateTimeout f) (fn_constructor f) (fn_typeParameterConstraints f).

(** [activeTypeParameters_ = names]. *)
Definition set_activeNames (names : list bytes) (s : Parser) : Parser :=
  set_active names (activeTransferableTypeParameters_ s) (activeTypeParameterConstraints_ s) s.

(** Subtraction of [std::size_t]. *)
Definition size_sub (a b : nat) : nat :=
  N.to_nat ((N.of_nat a + size_modulus - N.of_nat b) mod size_modulus).

(** The sizes that [restoreProgram] goes back to; a vector is never resized beyond its size. *)
Definition restore (base p : Program) : Program :=
  set_functions (take (length (pr_functions base))) (set_blocks (take (length (pr_blocks base)))
    (set_statements (take (length (pr_statements base)))
      (set_expressions (take (length (pr_expressions base))) p))).
Definition restoreProgram (base : Program) : P () := modify (set_program (restore base)).

Inductive MemberKind := Method | Constructor | Action.

(** [typeName] with its parameters as arguments, all at one place. *)
Definition owner_type (owner : bytes) (typeParameters : list bytes) (span : SourceSpan) : TypeSyntax :=
  mkType owner (map (λ parameter, mkType parameter [] span 0) typeParameters) span 0.
Definition receiver_qualifier (access : ReceiverKind.t) : bytes :=
  match access with
  | ReceiverKind.View => lit "view" | ReceiverKind.Edit => lit "edit" | ReceiverKind.Own => lit "own"
  end.
(** The parameter [self]. *)
Definition receiver_parameter (access : ReceiverKind.t) (owner : bytes) (typeParameters : list bytes)
    (span : SourceSpan) : Parameter_ :=
  mkParameter (lit "self") (mkType (receiver_qualifier access) [owner_type owner typeParameters span] span 0)
    span [] ParameterMode.TypeEncoded false.

Section declarations.
Context (tokens_ : list Token) (target_ : TargetPlatform).
Context (self : Entries).

Local Abbreviation check := (check tokens_).
Local Abbreviation match_ := (match_ tokens_).
Local Abbreviation expect := (expect tokens_).
Local Abbreviation advance := (advance tokens_).
Local Abbreviation current := (current tokens_).
Local Abbreviation previous := (previous tokens_).
Local Abbreviation peek := (peek tokens_).
Local Abbreviation peek_kind := (peek_kind tokens_).
Local Abbreviation atEnd := (atEnd tokens_).
Local Abbreviation parseType := (parseType tokens_).
Local Abbreviation attributes := (attributes tokens_ target_ self).
Local Abbreviation parameter := (parameter tokens_ target_ self false).

(** [while (!check(RightBrace) && !atEnd()) { ... }] around the locals [a]. *)
Definition while_members {A} (body : A → P A) (a : A) : P A :=
  loop (turns tokens_) (λ a,
    closing ← check TokenKind.RightBrace;
    ended ← atEnd;
    if (closing || ended) : bool then mret (a, false) else a ← body a; mret (a, true)) a.

(** [check(Identifier) && current().text == keyword]. *)
Definition keyword (text : bytes) : P bool :=
  named ← check TokenKind.Identifier;
  token ← current;
  mret (named && bool_decide (tok_text token = text)).

(** [typeParameters()] without its out parameters. *)
Definition type_parameter_names : P (list bytes) :=
  parameters ← typeParameters tokens_ false false; mret (map fst parameters).

(** [if (!check(RightParen)) { do { ... } while (match(Comma)); }]. *)
Definition parameter_list : P (list Parameter_) :=
  closed ← check TokenKind.RightParen;
  if closed : bool then mret [] else comma_list tokens_ parameter.

(** [expression] and [block] under other active type parameters. *)
Definition under_parameters {A} (names : list bytes) (body : P A) : P A :=
  st ← get;
  modify (set_activeNames names);;
  a ← body;
  modify (set_activeNames (activeTypeParameters_ st));;
  mret a.

(** ** [receiver], [method] and [discardConstructor] *)

Definition self_token (code message : bytes) : P () :=
  token ← expect TokenKind.Identifier code message;
  if bool_decide (tok_text token = lit "self") then mret () else report code message (tok_span token).

Definition removed_receiver (message : bytes) (access : ReceiverKind.t) : P ReceiverKind.t :=
  token ← previous; report (lit "FDN1185") message (tok_span token);; mret access.

Definition receiver (code message : bytes) : P ReceiverKind.t :=
  edit ← match_ TokenKind.Ampersand;
  if edit : bool then self_token code message;; mret ReceiverKind.Edit
  else
  own ← match_ TokenKind.Dollar;
  if own : bool then self_token code message;; mret ReceiverKind.Own
  else
  plain ← keyword (lit "self");
  if plain : bool then _ ← advance; mret ReceiverKind.View
  else match_cases tokens_
    [(TokenKind.View, removed_receiver (lit "view receiver was removed; use self") ReceiverKind.View);
     (TokenKind.Edit, removed_receiver (lit "edit receiver was removed; use &self") ReceiverKind.Edit);
     (TokenKind.Own, removed_receiver (lit "own receiver was removed; use $self") ReceiverKind.Own)]
    (token ← current; report code message (tok_span token);;
     skip_unless_end tokens_;; mret ReceiverKind.View).

(** Whether a receiver comes before the parameters of a method. *)
Definition receiver_follows : P bool :=
  plain ← keyword (lit "self");
  edit ← check TokenKind.Ampersand; own ← check TokenKind.Dollar;
  next ← peek 1;
  oldView ← check TokenKind.View; oldEdit ← check TokenKind.Edit; oldOwn ← check TokenKind.Own;
  mret (oldView || oldEdit || oldOwn || plain ||
        ((edit || own) && bool_decide (tok_kind next = TokenKind.Identifier) &&
         bool_decide (tok_text next = lit "self"))).

(** The receiver and whether other parameters may follow. *)
Definition method_receiver (owner : bytes) (typeParameters : list bytes) (constructor : bool)
    : P (option ReceiverKind.t * list Parameter_ * bool) :=
  follows ← receiver_follows;
  if negb constructor && follows then
    receiverStart ← current;
    access ← receiver (lit "FDN1103") (lit "expected self, &self, or $self receiver");
    more ← match_ TokenKind.Comma;
    mret (Some access, [receiver_parameter access owner typeParameters (tok_span receiverStart)], more)
  else mret (None, [], true).

(** The result of a constructor: its owner, or [Result] of its owner and an error. *)
Definition constructor_result (owner : bytes) (typeParameters : list bytes) (span : SourceSpan) : P TypeSyntax :=
  let ownerType := owner_type owner typeParameters span in
  opening ← check TokenKind.LeftBrace;
  if opening : bool then mret ownerType
  else
    result ← parseType (lit "FDN1240") (lit "expected constructor body or Result<Error>");
    match ts_arguments result with
    | [errorType] =>
        if bool_decide (ts_name result = lit "Result")
        then mret (mkType (lit "Result") [ownerType; errorType] (ts_span result) 0)
        else
          report (lit "FDN1241")
            (lit "constructor result is implicit; fallible constructors use Result<Error>") (ts_span result);;
          mret ownerType
    | _ =>
        report (lit "FDN1241")
          (lit "constructor result is implicit; fallible constructors use Result<Error>") (ts_span result);;
        mret ownerType
    end.

Definition member_token (kind : MemberKind) : TokenKind * bytes :=
  match kind with
  | Constructor => (TokenKind.Ctor, lit "expected ctor")
  | Action => (TokenKind.Action, lit "expected action")
  | Method => (TokenKind.Fn, lit "expected fn")
  end.
Definition is_constructor (kind : MemberKind) : bool := match kind with Constructor => true | _ => false end.
Definition is_action (kind : MemberKind) : bool := match kind with Action => true | _ => false end.

Definition method (owner : bytes) (typeParameters : list bytes) (kind : MemberKind) : P Function :=
  let '(declarationKind, message) := member_token kind in
  let constructor := is_constructor kind in
  start ← expect declarationKind (lit "FDN1100") message;
  name ← expect TokenKind.Identifier (lit "FDN1101") (lit "expected method name");
  _ ← expect TokenKind.LeftParen (lit "FDN1102") (lit "expected ( after method name");
  '(access, received, parseParameters) ← method_receiver owner typeParameters constructor;
  parameters ← (if parseParameters : bool then parameter_list else mret []);
  _ ← expect TokenKind.RightParen (lit "FDN1104") (lit "expected ) after method parameters");
  returnType ←
    (if constructor then constructor_result owner typeParameters (tok_span start)
     else parseType (lit "FDN1105") (lit "expected method return type"));
  body ← under_parameters typeParameters (e_block self (tail_result returnType));
  mret (mkAstFunction (tok_text name) typeParameters (received ++ parameters) returnType body
    (isExported (tok_text name)) (tok_span start) [] [] access owner None true false [] [] false false false
    None None (is_action kind) None None false [] None constructor []).

Definition discardConstructor (owner : bytes) (typeParameters : list bytes) : P () :=
  st ← get;
  _ ← method owner typeParameters Constructor;
  restoreProgram (program_ st).

(** The kind of the method the current token starts. *)
Definition member_kind : P MemberKind :=
  constructor ← check TokenKind.Ctor;
  action ← check TokenKind.Action;
  mret (if constructor : bool then Constructor else if action : bool then Action else Method).

(** A method with its attributes becomes a function of the program. *)
Definition push_method (owner : bytes) (typeParameters : list bytes) (applications : list AttributeApplication)
    : P () :=
  kind ← member_kind;
  declaration ← method owner typeParameters kind;
  _ ← push_function (set_attributes applications (fn_blocking declaration) (fn_callback declaration) declaration);
  mret ().

(** Reports the current token and passes it. *)
Definition skip_bad (code message : bytes) : P () :=
  token ← current; report code message (tok_span token);; _ ← advance; mret ().
Definition skip_extern : P () := skip_bad (lit "FDN2117") (lit "C ABI function cannot be a method").

(** ** [function] and [testDeclaration] *)

Definition extern_start : P Token :=
  start ← expect TokenKind.Extern (lit "FDN1112") (lit "expected extern");
  abi ← expect TokenKind.Identifier (lit "FDN1113") (lit "expected c after extern");
  (if bool_decide (tok_text abi = lit "c") then mret ()
   else report (lit "FDN1113") (lit "only the c external ABI is supported") (tok_span abi));;
  mret start.

(** The body under the parameters of the function. *)
Definition function_body (parameters : list (bytes * (bool * option TypeSyntax))) (tail : bool) : P nat :=
  st ← get;
  modify (set_active (map fst parameters) (map (λ p, p.2.1) parameters) (map (λ p, p.2.2) parameters));;
  body ← e_block self tail;
  modify (set_active (activeTypeParameters_ st) (activeTransferableTypeParameters_ st)
    (activeTypeParameterConstraints_ st));;
  mret body.

Definition function (external task : bool) : P Function :=
  now ← current;
  start ← (if external then extern_start else mret now);
  _ ← expect (if task then TokenKind.Task else TokenKind.Fn) (lit "FDN1002")
        (if task then lit "expected task" else lit "expected fn");
  name ← expect TokenKind.Identifier (lit "FDN1003") (lit "expected function name");
  typeParameters ← typeParameters tokens_ true true;
  _ ← expect TokenKind.LeftParen (lit "FDN1004") (lit "expected ( after function name");
  parameters ← parameter_list;
  _ ← expect TokenKind.RightParen (lit "FDN1005") (lit "expected ) after function parameters");
  returnType ← parseType (lit "FDN1007") (lit "expected function return type");
  '(cSymbol, hasBody) ←
    (if external then
       _ ← expect TokenKind.As (lit "FDN1114") (lit "expected as before C symbol");
       symbol ← expect TokenKind.Identifier (lit "FDN1115") (lit "expected C symbol after as");
       opening ← check TokenKind.LeftBrace;
       mret (Some (tok_text symbol), opening)
     else mret (None, true));
  body ← (if hasBody : bool then function_body typeParameters (tail_result returnType)
          else push_block (mkBlock [] (tok_span start)));
  mret (mkAstFunction (tok_text name) (map fst typeParameters) parameters returnType body
    (isExported (tok_text name)) (tok_span start) [] [] None [] cSymbol hasBody false [] [] task false false
    None None false None None false (map (λ p, p.2.1) typeParameters) None false
    (map (λ p, p.2.2) typeParameters)).

Definition testDeclaration : P Function :=
  start ← advance;
  (if negb (bool_decide (tok_kind start = TokenKind.Test)) &&
      (negb (bool_decide (tok_kind start = TokenKind.Identifier)) || negb (bool_decide (tok_text start = lit "test")))
   then report (lit "FDN1180") (lit "expected test") (tok_span start) else mret ());;
  name ← expect TokenKind.String (lit "FDN1181") (lit "expected test name");
  body ← e_block self false;
  mret (mkAstFunction (lit "$test." ++ to_string (N.of_nat (span_offset (tok_span start)))) [] []
    (mkType (lit "void") [] (tok_span start) 0) body false (tok_span start) [] [] None [] None true false [] []
    false false false (Some (tok_text name)) (Some (tok_span name)) false None None false [] None false []).

(** ** [structDeclaration] and [methodsDeclaration] *)

Definition implementation : P StructImplementation :=
  contract ← parseType (lit "FDN1094") (lit "expected contract after implements");
  mret (mkImplementation contract None (ts_span contract)).

(** [delegate field as Contract] behind its keyword. *)
Definition delegate_member (implementations : list StructImplementation) : P (list StructImplementation) :=
  declaration ← previous;
  field ← expect TokenKind.Identifier (lit "FDN1168") (lit "expected field after delegate");
  _ ← expect TokenKind.As (lit "FDN1169") (lit "expected as after delegated field");
  contract ← parseType (lit "FDN1170") (lit "expected contract after as");
  match list_find (λ candidate, Is_true (sameTypeSyntax (si_contract candidate) contract)) implementations with
  | None =>
      report (lit "FDN1171") (lit "delegated contract must appear after implements") (ts_span contract);;
      mret implementations
  | Some (index, found) =>
      match si_delegate found with
      | Some _ =>
          report (lit "FDN1172") (lit "contract already has a delegate") (tok_span declaration);;
          mret implementations
      | None =>
          mret (<[index := mkImplementation (si_contract found) (Some (tok_text field)) (si_span found)]>
                  implementations)
      end
  end.

Definition default_span (first last : SourceSpan) : SourceSpan :=
  mkSpan (span_offset first) (size_sub (span_offset last + span_length last) (span_offset first))
    (span_line first) (span_column first) (span_source first).

(** The initializer [= value] of a field is the body of a function of its own. *)
Definition field_default (owner : bytes) (typeParameters : list bytes) (field : Token) (type : TypeSyntax)
    : P (option nat * option SourceSpan) :=
  equal ← match_ TokenKind.Equal;
  if negb equal then mret (None, None)
  else
    first ← current;
    value ← under_parameters typeParameters (e_expression self);
    last ← previous;
    returned ← addStatement (ReturnStatement (Some value) false) (tok_span field);
    body ← push_block (mkBlock [returned] (tok_span field));
    initializer ← push_function (mkAstFunction (lit "$field_default." ++ owner ++ lit "." ++ tok_text field)
      typeParameters [] type body false (tok_span field) [] [] None [] None true false [] [] false false false
      None None false None None false [] None false []);
    mret (Some initializer, Some (default_span (tok_span first) (tok_span last))).

Definition field_member (owner : bytes) (typeParameters : list bytes) (applications : list AttributeApplication)
    : P StructField :=
  field ← advance;
  type ← parseType (lit "FDN1036") (lit "expected struct field type");
  '(defaultFunction, defaultSpan) ← field_default owner typeParameters field type;
  mret (mkStructField (tok_text field) type (isExported (tok_text field)) (tok_span field) applications
    defaultFunction defaultSpan).

(** One turn of the loop over the members. *)
Definition struct_member (owner : bytes) (typeParameters : list bytes)
    (members : list StructImplementation * list StructField) : P (list StructImplementation * list StructField) :=
  delegated ← match_ TokenKind.Delegate;
  if delegated : bool then
    implementations ← delegate_member members.1; mret (implementations, members.2)
  else
    parsed ← attributes false;
    external ← check TokenKind.Extern;
    if external : bool then skip_extern;; mret members
    else
      fn ← check TokenKind.Fn; ctor ← check TokenKind.Ctor; action ← check TokenKind.Action;
      if (fn || ctor || action) : bool then
        push_method owner typeParameters (pa_applications parsed);; mret members
      else
        named ← check TokenKind.Identifier;
        if negb named then skip_bad (lit "FDN1034") (lit "expected struct field or method");; mret members
        else
          field ← field_member owner typeParameters (pa_applications parsed);
          mret (members.1, members.2 ++ [field]).

Definition structDeclaration (service : bool) : P StructDeclaration :=
  start ← expect (if service then TokenKind.Service else TokenKind.Struct) (lit "FDN1031")
            (if service then lit "expected service" else lit "expected struct");
  name ← expect TokenKind.Identifier (lit "FDN1032")
            (if service then lit "expected service name" else lit "expected struct name");
  parameters ← type_parameter_names;
  implements ← match_ TokenKind.Implements;
  implementations ← (if implements : bool then comma_list tokens_ implementation else mret []);
  _ ← expect TokenKind.LeftBrace (lit "FDN1033") (lit "expected { after struct name");
  '(implementations, fields) ← while_members (struct_member (tok_text name) parameters) (implementations, []);
  _ ← expect TokenKind.RightBrace (lit "FDN1037") (lit "expected } after struct declaration");
  mret (mkStruct (tok_text name) parameters implementations fields (isExported (tok_text name)) (tok_span start)
    [] [] (if service then KindService else KindStruct) []).

Definition methods_member (owner : bytes) (typeParameters : list bytes) (_ : ()) : P () :=
  parsed ← attributes false;
  external ← check TokenKind.Extern;
  if external : bool then skip_extern
  else
    fn ← check TokenKind.Fn; ctor ← check TokenKind.Ctor; action ← check TokenKind.Action;
    if negb (fn || ctor || action) then skip_bad (lit "FDN1164") (lit "expected method declaration")
    else push_method owner typeParameters (pa_applications parsed).

Definition methodsDeclaration : P () :=
  _ ← expect TokenKind.Methods (lit "FDN1161") (lit "expected methods");
  owner ← expect TokenKind.Identifier (lit "FDN1162") (lit "expected type name after methods");
  parameters ← type_parameter_names;
  _ ← expect TokenKind.LeftBrace (lit "FDN1163") (lit "expected { after methods type");
  while_members (methods_member (tok_text owner) parameters) ();;
  _ ← expect TokenKind.RightBrace (lit "FDN1165") (lit "expected } after methods block");
  mret ().

(** ** [enumDeclaration] *)

(** A name before the type of a payload. *)
Definition payload_name : P (option bytes * option SourceSpan) :=
  named ← check TokenKind.Identifier;
  next ← peek_kind 1;
  if named && bool_decide (next ∈ [TokenKind.Identifier; TokenKind.LeftBracket; TokenKind.Fn; TokenKind.Own;
                                   TokenKind.View; TokenKind.Edit; TokenKind.Star])
  then payload ← advance; mret (Some (tok_text payload), Some (tok_span payload))
  else mret (None, None).

Definition variant_payload : P (option TypeSyntax * option bytes * option SourceSpan) :=
  opening ← match_ TokenKind.LeftParen;
  if negb opening then mret (None, None, None)
  else
    '(name, span) ← payload_name;
    type ← parseType (lit "FDN1048") (lit "expected payload type");
    _ ← expect TokenKind.RightParen (lit "FDN1049") (lit "expected ) after enum payload");
    mret (Some type, name, span).

Definition enum_member (owner : bytes) (typeParameters : list bytes) (variants : list EnumVariant)
    : P (list EnumVariant) :=
  parsed ← attributes false;
  ctor ← check TokenKind.Ctor;
  if ctor : bool then
    token ← current;
    report (lit "FDN1243") (lit "enum cannot declare constructors") (tok_span token);;
    discardConstructor owner typeParameters;; mret variants
  else
    named ← check TokenKind.Identifier;
    if negb named then skip_bad (lit "FDN1045") (lit "expected enum variant name");; mret variants
    else
      variant ← advance;
      '(payloadType, payloadName, payloadNameSpan) ← variant_payload;
      mret (variants ++ [mkEnumVariant (tok_text variant) payloadType (isExported (tok_text variant))
              (tok_span variant) (pa_applications parsed) payloadName payloadNameSpan]).

Definition enumDeclaration : P EnumDeclaration :=
  start ← expect TokenKind.Enum (lit "FDN1042") (lit "expected enum");
  name ← expect TokenKind.Identifier (lit "FDN1043") (lit "expected enum name");
  parameters ← type_parameter_names;
  _ ← expect TokenKind.LeftBrace (lit "FDN1044") (lit "expected { after enum name");
  variants ← while_members (enum_member (tok_text name) parameters) [];
  _ ← expect TokenKind.RightBrace (lit "FDN1050") (lit "expected } after enum declaration");
  mret (mkEnumDeclaration (tok_text name) parameters variants (isExported (tok_text name)) BuiltinNone
    (tok_span start) [] [] false false).

(** ** [contractMethod] and [contractDeclaration] *)

(** The body of a contract method is a function of its own. *)
Definition contract_default (owner : bytes) (typeParameters : list bytes) (start name : Token)
    (access : ReceiverKind.t) (parameters : list Parameter_) (returnType : TypeSyntax) : P (option nat) :=
  opening ← check TokenKind.LeftBrace;
  if negb opening then mret None
  else
    body ← under_parameters typeParameters (e_block self (tail_result returnType));
    id ← push_function (mkAstFunction (tok_text name) typeParameters
      (receiver_parameter access owner typeParameters (tok_span start) :: parameters) returnType body
      (isExported (tok_text name)) (tok_span start) [] [] (Some access) owner None true false [] [] false false
      false None None false None None false [] None false []);
    mret (Some id).

Definition contractMethod (owner : bytes) (typeParameters : list bytes) (applications : list AttributeApplication)
    : P ContractMethod :=
  start ← expect TokenKind.Fn (lit "FDN1106") (lit "expected fn");
  name ← expect TokenKind.Identifier (lit "FDN1107") (lit "expected contract method name");
  _ ← expect TokenKind.LeftParen (lit "FDN1108") (lit "expected ( after contract method name");
  access ← receiver (lit "FDN1109") (lit "expected self, &self, or $self receiver");
  comma ← match_ TokenKind.Comma;
  parameters ← (if comma : bool then comma_list tokens_ parameter else mret []);
  _ ← expect TokenKind.RightParen (lit "FDN1110") (lit "expected ) after contract method parameters");
  returnType ← parseType (lit "FDN1111") (lit "expected contract method return type");
  defaultFunction ← contract_default owner typeParameters start name access parameters returnType;
  mret (mkContractMethod (tok_text name) access parameters returnType (isExported (tok_text name))
    (tok_span start) defaultFunction applications).

Definition contract_member (owner : bytes) (typeParameters : list bytes) (methods : list ContractMethod)
    : P (list ContractMethod) :=
  parsed ← attributes false;
  external ← check TokenKind.Extern;
  if external : bool then skip_extern;; mret methods
  else
    ctor ← check TokenKind.Ctor;
    if ctor : bool then
      token ← current;
      report (lit "FDN1244") (lit "contract cannot declare constructors") (tok_span token);;
      discardConstructor owner typeParameters;; mret methods
    else
      fn ← check TokenKind.Fn;
      if negb fn then skip_bad (lit "FDN1098") (lit "expected contract method");; mret methods
      else
        declaration ← contractMethod owner typeParameters (pa_applications parsed);
        mret (methods ++ [declaration]).

Definition contractDeclaration : P ContractDeclaration :=
  start ← expect TokenKind.Contract (lit "FDN1095") (lit "expected contract");
  name ← expect TokenKind.Identifier (lit "FDN1096") (lit "expected contract name");
  parameters ← type_parameter_names;
  extends ← match_ TokenKind.Extends;
  parents ← (if extends : bool
             then comma_list tokens_ (parseType (lit "FDN1140") (lit "expected contract after extends"))
             else mret []);
  _ ← expect TokenKind.LeftBrace (lit "FDN1097") (lit "expected { after contract name");
  methods ← while_members (contract_member (tok_text name) parameters) [];
  _ ← expect TokenKind.RightBrace (lit "FDN1099") (lit "expected } after contract declaration");
  mret (mkContract (tok_text name) parameters parents methods (isExported (tok_text name)) (tok_span start)
    [] []).

(** ** [attributeTarget] and [attributeDeclaration] *)

Definition named_target (text : bytes) : option AttributeTarget.t :=
  if bool_decide (text = lit "method") then Some AttributeTarget.Method
  else if bool_decide (text = lit "field") then Some AttributeTarget.Field
  else if bool_decide (text = lit "variant") then Some AttributeTarget.Variant
  else if bool_decide (text = lit "parameter") then Some AttributeTarget.ParameterTarget
  else None.

Definition attributeTarget : P (option AttributeTarget.t) :=
  match_cases tokens_
    [(TokenKind.Fn, mret (Some AttributeTarget.Function));
     (TokenKind.Ctor, mret (Some AttributeTarget.Constructor));
     (TokenKind.Struct, mret (Some AttributeTarget.Struct));
     (TokenKind.Service, mret (Some AttributeTarget.Service));
     (TokenKind.Enum, mret (Some AttributeTarget.Enum));
     (TokenKind.Contract, mret (Some AttributeTarget.Contract));
     (TokenKind.Action, mret (Some AttributeTarget.Action))]
    (named ← check TokenKind.Identifier;
     if negb named then
       token ← current;
       report (lit "FDN1154") (lit "expected attribute target") (tok_span token);;
       skip_unless_end tokens_;; mret None
     else
       target ← advance;
       match named_target (tok_text target) with
       | Some kind => mret (Some kind)
       | None =>
           report (lit "FDN1154") (lit "unknown attribute target " ++ tok_text target) (tok_span target);;
           mret None
       end).

(** A parameter of an attribute has no attributes itself. *)
Definition attribute_parameter : P Parameter_ :=
  parsed ← parameter;
  match param_attributes parsed with
  | [] => mret parsed
  | first :: _ =>
      report (lit "FDN1159") (lit "attribute parameter cannot be attributed") (at_span first);;
      mret (mkParameter (param_name parsed) (param_type parsed) (param_span parsed) [] (param_mode parsed)
              (param_inferredType parsed))
  end.

Definition option_items {A} (items : list (option A)) : list A := omap (λ a, a) items.

Definition attributeDeclaration : P AttributeDeclaration :=
  start ← expect TokenKind.Attribute (lit "FDN1150") (lit "expected attribute");
  name ← expect TokenKind.Identifier (lit "FDN1151") (lit "expected attribute name");
  _ ← expect TokenKind.LeftParen (lit "FDN1152") (lit "expected ( after attribute name");
  closed ← check TokenKind.RightParen;
  parameters ← (if closed : bool then mret [] else comma_list tokens_ attribute_parameter);
  _ ← expect TokenKind.RightParen (lit "FDN1153") (lit "expected ) after attribute parameters");
  targets ← expect TokenKind.Identifier (lit "FDN1154") (lit "expected targets");
  (if bool_decide (tok_text targets = lit "targets") then mret ()
   else report (lit "FDN1154") (lit "expected targets after attribute parameters") (tok_span targets));;
  _ ← expect TokenKind.LeftParen (lit "FDN1155") (lit "expected ( after targets");
  closed ← check TokenKind.RightParen;
  targetList ← (if closed : bool then mret [] else comma_list tokens_ attributeTarget);
  _ ← expect TokenKind.RightParen (lit "FDN1156") (lit "expected ) after attribute targets");
  repeatable ← keyword (lit "repeatable");
  (if repeatable : bool then _ ← advance; mret () else mret ());;
  mret (mkAttributeDeclaration (tok_text name) parameters (option_items targetList) repeatable
    (isExported (tok_text name)) (tok_span start) []).

End declarations.
