(* ===== verification/ParserMachines.v ===== *)
(** * State machines and workflows (compiler/src/parser.cpp)

    [stateMachineDeclaration] and [workflowDeclaration]: the parsing of their
    members, the checks, and the enums, structs and functions they generate. *)
From S2P Require Import Prelude Target Diagnostics Token Ast ParserState ParserTypes ParserExpressions ParserDeclarations.

(** A loop over a vector. *)
Fixpoint for_each {A S} (items : list A) (body : S → A → P S) (s : S) : P S :=
  match items with
  | [] => mret s
  | item :: items => s ← body s item; for_each items body s
  end.

Definition push_enum (e : EnumDeclaration) : P () := modify (set_program (set_enums (λ l, l ++ [e]))).
Definition push_struct (s : StructDeclaration) : P () := modify (set_program (set_structs (λ l, l ++ [s]))).

(** [struct PendingTransition]. *)
Record PendingTransition := mkPending {
  pt_event : Token;
  pt_parameters : list Parameter_;
  pt_sources : list Token;
  pt_destination : Token;
  pt_destinationArgument : option Token;
  pt_timeoutNanoseconds : option N;
}.

Definition int64_max : N := 9223372036854775807.

Definition timeout_multiplier (unit : bytes) : option N :=
  if bool_decide (unit = lit "seconds") then Some 1000000000%N
  else if bool_decide (unit = lit "milliseconds") then Some 1000000%N
  else if bool_decide (unit = lit "microseconds") then Some 1000%N
  else if bool_decide (unit = lit "nanoseconds") then Some 1%N
  else None.

Inductive TimeoutCheck := TimeoutOutside | TimeoutZero | TimeoutUnknownUnit | TimeoutValue (nanoseconds : N).

(** The duration of [after], computed in 64 bits. *)
Definition timeout_nanoseconds (magnitude : N) (multiplier : option N) : TimeoutCheck :=
  let multiplier := default 0%N multiplier in
  if negb (multiplier =? 0)%N &&
     (((size_modulus - 1) / multiplier <? magnitude)%N ||
      (int64_max <? (magnitude * multiplier) mod size_modulus)%N) then TimeoutOutside
  else if (magnitude =? 0)%N then TimeoutZero
  else if negb (multiplier =? 0)%N then TimeoutValue ((magnitude * multiplier) mod size_modulus)%N
  else TimeoutUnknownUnit.

Section machines.
Context (tokens_ : list Token) (target_ : TargetPlatform).
Context (self : Entries).

Local Abbreviation check := (check tokens_).
Local Abbreviation match_ := (match_ tokens_).
Local Abbreviation expect := (expect tokens_).
Local Abbreviation advance := (advance tokens_).
Local Abbreviation current := (current tokens_).
Local Abbreviation parseType := (parseType tokens_).
Local Abbreviation parameter := (parameter tokens_ target_ self false).
Local Abbreviation keyword := (keyword tokens_).

(** The lambda [contextual]: an identifier that must have a given text. *)
Definition contextual (text code message : bytes) : P Token :=
  token ← expect TokenKind.Identifier code message;
  (if bool_decide (tok_text token = text) then mret () else report code message (tok_span token));;
  mret token.

(** ** The members of a state machine *)

Definition state_payload : P (option TypeSyntax * option bytes * option SourceSpan) :=
  opening ← match_ TokenKind.LeftParen;
  if negb opening then mret (None, None, None)
  else
    payload ← expect TokenKind.Identifier (lit "FDN1196") (lit "expected state payload name");
    type ← parseType (lit "FDN1197") (lit "expected state payload type");
    _ ← expect TokenKind.RightParen (lit "FDN1198") (lit "expected ) after state payload");
    mret (Some type, Some (tok_text payload), Some (tok_span payload)).

(** Behind [state]. *)
Definition state_member (sawTransition : bool) : P EnumVariant :=
  stateToken ← expect TokenKind.Identifier (lit "FDN1194") (lit "expected state name");
  (if sawTransition
   then report (lit "FDN1195") (lit "state must be declared before transitions") (tok_span stateToken)
   else mret ());;
  '(payloadType, payloadName, payloadNameSpan) ← state_payload;
  mret (mkEnumVariant (tok_text stateToken) payloadType (isExported (tok_text stateToken)) (tok_span stateToken)
    [] payloadName payloadNameSpan).

(** The parameters of a transition, in parentheses that may be missing. *)
Definition transition_parameters : P (list Parameter_) :=
  opening ← match_ TokenKind.LeftParen;
  if negb opening then mret []
  else
    parameters ← parameter_list tokens_ target_ self;
    _ ← expect TokenKind.RightParen (lit "FDN1200") (lit "expected ) after transition parameters");
    mret parameters.

Definition destination_argument : P (option Token) :=
  opening ← match_ TokenKind.LeftParen;
  if negb opening then mret None
  else
    argument ← expect TokenKind.Identifier (lit "FDN1205") (lit "expected destination payload binding");
    _ ← expect TokenKind.RightParen (lit "FDN1206") (lit "expected ) after destination payload");
    mret (Some argument).

(** [after amount.unit], with the reports on the duration and on the transition. *)
Definition transition_timeout (event destination : Token) (parameters : list Parameter_)
    (argument : option Token) : P (option N) :=
  after ← keyword (lit "after");
  if negb after then mret None
  else
    _ ← advance;
    amount ← expect TokenKind.Integer (lit "FDN1250") (lit "expected state timeout duration amount");
    _ ← expect TokenKind.Dot (lit "FDN1251") (lit "expected . in timeout duration");
    unit ← expect TokenKind.Identifier (lit "FDN1252") (lit "expected timeout duration unit");
    let '(magnitude, valid) := from_chars (tok_text amount) in
    (if valid : bool then mret ()
     else report (lit "FDN1016") (lit "integer is outside the supported range") (tok_span amount));;
    let multiplier := timeout_multiplier (tok_text unit) in
    (match multiplier with
     | Some _ => mret ()
     | None => report (lit "FDN1253") (lit "unknown state timeout duration unit " ++ tok_text unit) (tok_span unit)
     end);;
    timeout ←
      (match timeout_nanoseconds magnitude multiplier with
       | TimeoutOutside =>
           report (lit "FDN1254") (lit "state timeout duration is outside the supported range") (tok_span amount);;
           mret None
       | TimeoutZero =>
           report (lit "FDN1255") (lit "state timeout duration must be positive") (tok_span amount);; mret None
       | TimeoutUnknownUnit => mret None
       | TimeoutValue nanoseconds => mret (Some nanoseconds)
       end);
    (match parameters with
     | [] => mret ()
     | _ => report (lit "FDN1256") (lit "state timeout transition cannot require parameters") (tok_span event)
     end);;
    (match argument with
     | None => mret ()
     | Some _ =>
         report (lit "FDN1257") (lit "state timeout destination cannot require a payload") (tok_span destination)
     end);;
    mret timeout.

(** Behind [on]. *)
Definition transition_member : P PendingTransition :=
  event ← expect TokenKind.Identifier (lit "FDN1199") (lit "expected transition event name");
  parameters ← transition_parameters;
  _ ← contextual (lit "from") (lit "FDN1201") (lit "expected from in transition");
  sources ← comma_list tokens_ (expect TokenKind.Identifier (lit "FDN1202") (lit "expected source state"));
  _ ← contextual (lit "to") (lit "FDN1203") (lit "expected to in transition");
  destination ← expect TokenKind.Identifier (lit "FDN1204") (lit "expected destination state");
  argument ← destination_argument;
  timeout ← transition_timeout event destination parameters argument;
  mret (mkPending event parameters sources destination argument timeout).

(** A transition was seen when one is in the list. *)
Definition machine_member (members : list EnumVariant * list PendingTransition)
    : P (list EnumVariant * list PendingTransition) :=
  state ← keyword (lit "state");
  if state : bool then
    _ ← advance;
    variant ← state_member (negb (bool_decide (length members.2 = 0)));
    mret (members.1 ++ [variant], members.2)
  else
    on ← keyword (lit "on");
    if on : bool then
      _ ← advance;
      transition ← transition_member;
      mret (members.1, members.2 ++ [transition])
    else skip_bad tokens_ (lit "FDN1207") (lit "expected state or on declaration");; mret members.

(** ** The checks of a transition *)

(** [findState]. *)
Definition findState (states : list EnumVariant) (token : Token) : P (option nat) :=
  match list_find (λ state, ev_name state = tok_text token) states with
  | Some (index, _) => mret (Some index)
  | None => report (lit "FDN1210") (lit "unknown state " ++ tok_text token) (tok_span token);; mret None
  end.

(** The source states and the states that have a timeout. *)
Definition transition_source (states : list EnumVariant) (timed : bool) (found : list nat * list nat)
    (source : Token) : P (list nat * list nat) :=
  let '(sourceVariants, timeoutSources) := found in
  state ← findState states source;
  match state with
  | None => mret found
  | Some state =>
      if bool_decide (state ∈ sourceVariants) then
        report (lit "FDN1211") (lit "duplicate transition source " ++ tok_text source) (tok_span source);;
        mret found
      else if negb timed then mret (sourceVariants ++ [state], timeoutSources)
      else if bool_decide (state ∈ timeoutSources) then
        report (lit "FDN1258") (lit "state accepts more than one declarative timeout rule") (tok_span source);;
        mret (sourceVariants ++ [state], timeoutSources)
      else mret (sourceVariants ++ [state], timeoutSources ++ [state])
  end.

Definition transition_destination (states : list EnumVariant) (t : PendingTransition) : P nat :=
  destination ← findState states (pt_destination t);
  match destination with
  | None => mret 0
  | Some index =>
      state ← element (states !! index);
      let expectsPayload := bool_decide (is_Some (ev_payloadType state)) in
      (if bool_decide (expectsPayload = bool_decide (is_Some (pt_destinationArgument t))) then mret ()
       else report (lit "FDN1212")
              (if expectsPayload then lit "destination state requires a payload binding"
               else lit "destination state does not accept a payload") (tok_span (pt_destination t)));;
      mret index
  end.

(** The index of the bound parameter behind the receiver. *)
Definition transition_binding (t : PendingTransition) : P (option nat) :=
  match pt_destinationArgument t with
  | None => mret None
  | Some argument =>
      match list_find (λ p, param_name p = tok_text argument) (pt_parameters t) with
      | Some (index, _) => mret (Some (S index))
      | None =>
          report (lit "FDN1213") (lit "unknown transition parameter " ++ tok_text argument) (tok_span argument);;
          mret None
      end
  end.

Definition transition_metadata (states : list EnumVariant) (timeoutSources : list nat) (t : PendingTransition)
    : P (StateTransition * list nat) :=
  '(sourceVariants, timeoutSources) ←
    for_each (pt_sources t) (transition_source states (bool_decide (is_Some (pt_timeoutNanoseconds t))))
      ([], timeoutSources);
  destination ← transition_destination states t;
  binding ← transition_binding t;
  mret (mkStateTransition sourceVariants destination binding (pt_timeoutNanoseconds t), timeoutSources).

(** ** The generated functions *)

Definition transition_function (machine : bytes) (typeParameters : list bytes) (nameSpan : SourceSpan)
    (t : PendingTransition) (metadata : StateTransition) (body : nat) : Function :=
  let event := tok_text (pt_event t) in
  let span := tok_span (pt_event t) in
  mkAstFunction event typeParameters
    (receiver_parameter ReceiverKind.Edit machine typeParameters nameSpan :: pt_parameters t)
    (mkType (lit "Result")
       [mkType (lit "void") [] span 0; mkType (machine ++ lit "TransitionError") [] span 0] span 0)
    body (isExported event) span [] [] (Some ReceiverKind.Edit) machine None true false [] [] false false false
    None None false (Some metadata) None false [] None false [].

Definition timeout_function (machine : bytes) (typeParameters : list bytes) (nameSpan : SourceSpan)
    (t : PendingTransition) (metadata : StateTransition) (nanoseconds : N) (body : nat) : Function :=
  let event := tok_text (pt_event t) in
  let span := tok_span (pt_event t) in
  mkAstFunction ((if isExported event then lit "TimeoutFor" else lit "timeoutFor") ++ event) typeParameters
    [mkParameter (lit "state") (owner_type machine typeParameters nameSpan) nameSpan [] ParameterMode.Read false]
    (mkType (lit "Option") [mkType (lit "u64") [] span 0] span 0) body (isExported event) span [] [] None machine
    None true false [] [] false false false None None false None None false []
    (Some (mkStateTimeout (tr_sourceVariants metadata) nanoseconds)) false [].

Definition machine_transition (machine : bytes) (typeParameters : list bytes) (nameSpan : SourceSpan)
    (states : list EnumVariant) (timeoutSources : list nat) (t : PendingTransition) : P (list nat) :=
  '(metadata, timeoutSources) ← transition_metadata states timeoutSources t;
  body ← push_block (mkBlock [] (tok_span (pt_event t)));
  _ ← push_function (transition_function machine typeParameters nameSpan t metadata body);
  (match pt_timeoutNanoseconds t with
   | None => mret ()
   | Some nanoseconds =>
       body ← push_block (mkBlock [] (tok_span (pt_event t)));
       _ ← push_function (timeout_function machine typeParameters nameSpan t metadata nanoseconds body);
       mret ()
   end);;
  mret timeoutSources.

Definition stateMachineDeclaration : P () :=
  start ← expect TokenKind.StateMachine (lit "FDN1190") (lit "expected state_machine");
  name ← expect TokenKind.Identifier (lit "FDN1191") (lit "expected state machine name");
  typeParameters ← type_parameter_names tokens_;
  _ ← expect TokenKind.LeftBrace (lit "FDN1193") (lit "expected { after state machine name");
  '(states, transitions) ← while_members tokens_ machine_member ([], []);
  _ ← expect TokenKind.RightBrace (lit "FDN1208") (lit "expected } after state machine");
  (match states with
   | [] => report (lit "FDN1209") (lit "state machine requires at least one state") (tok_span start)
   | _ => mret ()
   end);;
  let machine := tok_text name in
  let span := tok_span start in
  push_enum (mkEnumDeclaration machine typeParameters states (isExported machine) BuiltinNone span [] [] true
    false);;
  push_enum (mkEnumDeclaration (machine ++ lit "TransitionError") []
    [mkEnumVariant (lit "InvalidState") None true span [] None None] (isExported machine) BuiltinNone span [] []
    false true);;
  _ ← for_each transitions (machine_transition machine typeParameters (tok_span name) states) [];
  mret ().

(** ** The steps of a workflow *)

(** [retry exponential(max = n)]. *)
Definition step_attempts : P N :=
  retry ← keyword (lit "retry");
  if negb retry then mret 1%N
  else
    _ ← advance;
    _ ← contextual (lit "exponential") (lit "FDN1225") (lit "expected exponential retry strategy");
    _ ← expect TokenKind.LeftParen (lit "FDN1226") (lit "expected ( after exponential");
    _ ← contextual (lit "max") (lit "FDN1227") (lit "expected max retry argument");
    _ ← expect TokenKind.Equal (lit "FDN1228") (lit "expected = after retry max");
    attempts ← expect TokenKind.Integer (lit "FDN1229") (lit "expected retry attempt count");
    let parsed := (from_chars (tok_text attempts)).1 in
    attempts ←
      (if (parsed =? 0)%N || (1024 <? parsed)%N
       then report (lit "FDN1230") (lit "retry max must be between 1 and 1024") (tok_span attempts);; mret 1%N
       else mret parsed);
    _ ← expect TokenKind.RightParen (lit "FDN1231") (lit "expected ) after retry strategy");
    mret attempts.

Definition step_compensation (kind : WorkflowKind) : P (option bytes * option SourceSpan) :=
  compensate ← keyword (lit "compensate");
  if match kind with Saga => compensate | Pipeline => false end then
    _ ← advance;
    '(compensation, span) ← qualifiedName tokens_ (lit "FDN1232") (lit "expected compensation function") false;
    mret (Some compensation, Some span)
  else mret (None, None).

(** One turn of the loop: the names seen and the steps. *)
Definition workflow_step (kind : WorkflowKind) (found : list bytes * list WorkflowStep)
    : P (list bytes * list WorkflowStep) :=
  let '(stepNames, steps) := found in
  before ← get;
  step ← contextual (lit "step") (lit "FDN1221") (lit "expected step in workflow");
  stepName ← expect TokenKind.Identifier (lit "FDN1222") (lit "expected workflow step name");
  _ ← contextual (lit "using") (lit "FDN1223") (lit "expected using after step name");
  '(functionName, functionSpan) ←
    qualifiedName tokens_ (lit "FDN1224") (lit "expected workflow step function") false;
  attempts ← step_attempts;
  '(compensation, compensationSpan) ← step_compensation kind;
  stepNames ←
    (if bool_decide (tok_text stepName ∈ stepNames)
     then report (lit "FDN1233") (lit "duplicate workflow step " ++ tok_text stepName) (tok_span stepName);;
          mret stepNames
     else mret (stepNames ++ [tok_text stepName]));
  now ← get;
  (if bool_decide (current_ now = current_ before) then _ ← advance; mret () else mret ());;
  mret (stepNames, steps ++ [mkWorkflowStep (tok_text stepName) functionName (tok_span step) functionSpan attempts
                               compensation compensationSpan]).

(** ** [workflowDeclaration] *)

(** The types of [Result<Output, Error>]. *)
Definition workflow_result (declared : TypeSyntax) : P (TypeSyntax * TypeSyntax) :=
  match ts_arguments declared with
  | [success; error] =>
      if bool_decide (ts_name declared = lit "Result") then mret (success, error)
      else
        report (lit "FDN1219") (lit "workflow must declare Result<Output, Error>") (ts_span declared);;
        mret (mkType (lit "void") [] (ts_span declared) 0, mkType (lit "void") [] (ts_span declared) 0)
  | _ =>
      report (lit "FDN1219") (lit "workflow must declare Result<Output, Error>") (ts_span declared);;
      mret (mkType (lit "void") [] (ts_span declared) 0, mkType (lit "void") [] (ts_span declared) 0)
  end.

Definition workflow_input : P (list Parameter_) :=
  closed ← check TokenKind.RightParen;
  if closed : bool then mret [] else comma_list tokens_ parameter.

Definition compensations (steps : list WorkflowStep) : list WorkflowStep :=
  filter (λ step, is_Some (ws_compensation step)) steps.

Definition workflow_word (kind : WorkflowKind) : TokenKind * bytes :=
  match kind with Pipeline => (TokenKind.Pipeline, lit "pipeline") | Saga => (TokenKind.Saga, lit "saga") end.

Definition workflow_checks (kind : WorkflowKind) (name : Token) (parameters : list Parameter_)
    (steps : list WorkflowStep) : P () :=
  let word := (workflow_word kind).2 in
  (if bool_decide (length parameters = 1) then mret ()
   else report (lit "FDN1235") (word ++ lit " requires exactly one input") (tok_span name));;
  (match steps with
   | [] => report (lit "FDN1236") (word ++ lit " requires at least one step") (tok_span name)
   | _ => mret ()
   end);;
  match kind, compensations steps with
  | Saga, [] => report (lit "FDN1237") (lit "saga requires at least one compensation") (tok_span name)
  | _, _ => mret ()
  end.

(** What a saga declares besides its function: the details of a failure and the failure. *)
Definition saga_details (name : bytes) : bytes := name ++ lit "CompensationFailure".
Definition saga_failure (name : bytes) : bytes := name ++ lit "Failure".

Definition saga_struct (name : Token) (typeParameters : list bytes) (errorType : TypeSyntax)
    (steps : list WorkflowStep) (span : SourceSpan) : StructDeclaration :=
  let field n type := mkStructField n type true (tok_span name) [] None None in
  mkStruct (saga_details (tok_text name)) typeParameters []
    [field (lit "Original") errorType; field (lit "CompensationCount") (mkType (lit "usize") [] (tok_span name) 0);
     field (lit "CompensationErrors")
       (mkType (lit "[array]") [errorType] (tok_span name) (N.of_nat (length (compensations steps))))]
    (isExported (tok_text name)) span [] [] KindStruct [].
Definition saga_enum (name : Token) (typeParameters : list bytes) (errorType : TypeSyntax) (span : SourceSpan)
    : EnumDeclaration :=
  mkEnumDeclaration (saga_failure (tok_text name)) typeParameters
    [mkEnumVariant (lit "Step") (Some errorType) true (tok_span name) [] (Some (lit "error")) (Some (tok_span name));
     mkEnumVariant (lit "Compensation")
       (Some (owner_type (saga_details (tok_text name)) typeParameters (tok_span name))) true (tok_span name) []
       (Some (lit "details")) (Some (tok_span name))]
    (isExported (tok_text name)) BuiltinNone span [] [] false false.

Definition workflow_function (kind : WorkflowKind) (name : Token) (typeParameters : list bytes)
    (parameters : list Parameter_) (declared success error : TypeSyntax) (steps : list WorkflowStep)
    (span : SourceSpan) (body : nat) : Function :=
  let saga := match kind with Saga => true | Pipeline => false end in
  let returnType :=
    if saga then mkType (lit "Result")
      [success; owner_type (saga_failure (tok_text name)) typeParameters (tok_span name)] (ts_span declared) 0
    else declared in
  let workflow := mkWorkflow kind success error steps
    (if saga then Some (saga_details (tok_text name)) else None)
    (if saga then Some (saga_failure (tok_text name)) else None) in
  mkAstFunction (tok_text name) typeParameters parameters returnType body (isExported (tok_text name)) span [] []
    None [] None true false [] [] false false false None None false None (Some workflow) false [] None false [].

Definition workflow_named (kind : WorkflowKind) (start : Token) : P () :=
  name ← advance;
  typeParameters ← type_parameter_names tokens_;
  _ ← expect TokenKind.LeftParen (lit "FDN1216") (lit "expected ( after workflow name");
  parameters ← workflow_input;
  _ ← expect TokenKind.RightParen (lit "FDN1217") (lit "expected ) after workflow input");
  declared ← parseType (lit "FDN1218") (lit "expected workflow result type");
  '(success, error) ← workflow_result declared;
  _ ← expect TokenKind.LeftBrace (lit "FDN1220") (lit "expected { after workflow result type");
  '(_, steps) ← while_members tokens_ (workflow_step kind) ([], []);
  _ ← expect TokenKind.RightBrace (lit "FDN1234") (lit "expected } after workflow");
  workflow_checks kind name parameters steps;;
  (match kind with
   | Saga =>
       push_struct (saga_struct name typeParameters error steps (tok_span start));;
       push_enum (saga_enum name typeParameters error (tok_span start))
   | Pipeline => mret ()
   end);;
  body ← push_block (mkBlock [] (tok_span start));
  _ ← push_function (workflow_function kind name typeParameters parameters declared success error steps
                       (tok_span start) body);
  mret ().

Definition workflowDeclaration (kind : WorkflowKind) : P () :=
  start ← expect (workflow_word kind).1 (lit "FDN1214") (lit "expected workflow declaration");
  named ← check TokenKind.Identifier;
  if negb named then _ ← expect TokenKind.Identifier (lit "FDN1215") (lit "expected workflow name"); mret ()
  else workflow_named kind start.

End machines.
