(* ===== verification/ParserProgram.v ===== *)
(** * Whole files (compiler/src/parser.cpp)

    [installBuiltins] and [Parser::parse]: the package declaration, the imports and
    the declarations with their attributes and target selection. *)
From S2P Require Import Prelude Target Diagnostics Token Ast ParserState ParserTypes ParserExpressions ParserStatements ParserDeclarations ParserMachines.

(** ** [installBuiltins] *)

Definition builtin_span : SourceSpan := mkSpan 0 0 1 1 0.
Definition builtin_parameter (name : string) : TypeSyntax := mkType (lit name) [] builtin_span 0.
Definition plain_variant (name : string) : EnumVariant :=
  mkEnumVariant (lit name) None true builtin_span [] None None.
Definition payload_variant (name parameter payload : string) : EnumVariant :=
  mkEnumVariant (lit name) (Some (builtin_parameter parameter)) true builtin_span [] (Some (lit payload))
    (Some builtin_span).
Definition builtin_enum (name : string) (parameters : list bytes) (variants : list EnumVariant)
    (kind : BuiltinEnumKind) : EnumDeclaration :=
  mkEnumDeclaration (lit name) parameters variants true kind builtin_span [] [] false false.

Definition builtins : list EnumDeclaration :=
  [builtin_enum "Option" [lit "T"] [plain_variant "None"; payload_variant "Some" "T" "value"] BuiltinOption;
   builtin_enum "Result" [lit "T"; lit "E"]
     [payload_variant "Ok" "T" "value"; payload_variant "Err" "E" "error"] BuiltinResult;
   builtin_enum "ChannelError" [] (map plain_variant ["Closed"; "Cancelled"; "Timeout"]%string) BuiltinChannelError;
   builtin_enum "NumberError" [] (map plain_variant ["OutOfRange"; "NonFinite"; "PrecisionLoss"]%string)
     BuiltinNumberError].
Definition installBuiltins : P () := modify (set_program (set_enums (λ l, l ++ builtins))).

(** ** Attributes of the declarations *)

Definition struct_attributes (a : list AttributeApplication) (d : StructDeclaration) : StructDeclaration :=
  mkStruct (sd_name d) (sd_typeParameters d) (sd_implementations d) (sd_fields d) (sd_exported d) (sd_span d)
    (sd_packageName d) a (sd_kind d) (sd_sourcePath d).
Definition enum_attributes (a : list AttributeApplication) (d : EnumDeclaration) : EnumDeclaration :=
  mkEnumDeclaration (ed_name d) (ed_typeParameters d) (ed_variants d) (ed_exported d) (ed_builtin d) (ed_span d)
    (ed_packageName d) a (ed_stateMachine d) (ed_generated d).
Definition contract_attributes (a : list AttributeApplication) (d : ContractDeclaration) : ContractDeclaration :=
  mkContract (cd_name d) (cd_typeParameters d) (cd_parents d) (cd_methods d) (cd_exported d) (cd_span d)
    (cd_packageName d) a.
(** The attributes of a function that stands on its own. *)
Definition function_attributes (a : list AttributeApplication) (f : Function) : Function :=
  set_attributes a (hasBlockingAttribute a) (hasCallbackAttribute a) f.

Section program.
Context (tokens_ : list Token) (target_ : TargetPlatform).
Context (parseFloating : bytes → bool).

Local Abbreviation check := (check tokens_).
Local Abbreviation match_ := (match_ tokens_).
Local Abbreviation expect := (expect tokens_).
Local Abbreviation advance := (advance tokens_).
Local Abbreviation current := (current tokens_).
Local Abbreviation previous := (previous tokens_).
Local Abbreviation atEnd := (atEnd tokens_).
Definition self : Entries := parser_entries tokens_ target_ parseFloating.

(** ** The head of a file *)

Definition package_declaration : P () :=
  found ← match_ TokenKind.Package;
  if negb found then mret ()
  else
    '(name, span) ← qualifiedName tokens_ (lit "FDN1090") (lit "expected package name after package") true;
    modify (set_program (set_package name));;
    match name with
    | [] => report (lit "FDN1090") (lit "package name cannot be empty") span
    | _ => mret ()
    end.

(** Behind [import]. *)
Definition import_declaration : P ImportDeclaration :=
  '(name, span) ← qualifiedName tokens_ (lit "FDN1091") (lit "expected package name after import") true;
  final ← previous;
  as_ ← match_ TokenKind.As;
  alias ←
    (if as_ : bool then
       token ← expect TokenKind.Identifier (lit "FDN1092") (lit "expected import alias after as");
       mret (tok_text token)
     else if negb (bool_decide (tok_kind final = TokenKind.Identifier)) &&
             negb (bool_decide (tok_kind final = TokenKind.Test)) then
       token ← previous;
       report (lit "FDN1093") (lit "an import ending in a keyword requires an explicit alias") (tok_span token);;
       mret []
     else mret []);
  mret (mkImport name alias span).

Definition import_declarations : P () :=
  loop (turns tokens_) (λ _,
    found ← match_ TokenKind.Import;
    if negb found then mret ((), false)
    else
      declaration ← import_declaration;
      modify (set_program (set_imports (λ l, l ++ [declaration])));;
      mret ((), true)) ().

(** ** One declaration behind its attributes *)

(** A declaration that is not selected is parsed and forgotten; [base] is the program
    before its attributes. *)
Definition keep_selected (base : Program) (parsed : ParsedAttributes) (keep : Program → Program) : P () :=
  if pa_selected parsed then modify (set_program keep) else restoreProgram base.

Definition struct_case (base : Program) (parsed : ParsedAttributes) (service : bool) : P () :=
  declaration ← structDeclaration tokens_ target_ self service;
  keep_selected base parsed (set_structs (λ l, l ++ [struct_attributes (pa_applications parsed) declaration])).

Definition methods_case (base : Program) (parsed : ParsedAttributes) : P () :=
  (match pa_applications parsed with
   | [] => mret ()
   | first :: _ => report (lit "FDN1160") (lit "methods block cannot be attributed") (at_span first)
   end);;
  methodsDeclaration tokens_ target_ self;;
  keep_selected base parsed (λ p, p).

Definition enum_case (base : Program) (parsed : ParsedAttributes) : P () :=
  declaration ← enumDeclaration tokens_ target_ self;
  keep_selected base parsed (set_enums (λ l, l ++ [enum_attributes (pa_applications parsed) declaration])).

(** The attributes of a state machine belong to the first enum it adds. *)
Definition machine_case (base : Program) (parsed : ParsedAttributes) : P () :=
  before ← get;
  let enums := length (pr_enums (program_ before)) in
  stateMachineDeclaration tokens_ target_ self;;
  if pa_selected parsed then
    modify (set_program (set_enums (alter (enum_attributes (pa_applications parsed)) enums)))
  else
    restoreProgram base;;
    modify (set_program (set_enums (take enums))).

(** [program_.functions[functions].attributes = ...], where [functions] was counted before
    the attributes were parsed. *)
Definition workflow_case (base : Program) (parsed : ParsedAttributes) (kind : WorkflowKind) : P () :=
  before ← get;
  workflowDeclaration tokens_ target_ self kind;;
  if pa_selected parsed then
    modify (set_program (set_functions
      (alter (λ f, set_attributes (pa_applications parsed) (fn_blocking f) (fn_callback f) f)
        (length (pr_functions base)))))
  else
    restoreProgram base;;
    modify (set_program (λ p, set_enums (take (length (pr_enums (program_ before))))
                                (set_structs (take (length (pr_structs (program_ before)))) p))).

Definition contract_case (base : Program) (parsed : ParsedAttributes) : P () :=
  declaration ← contractDeclaration tokens_ target_ self;
  keep_selected base parsed (set_contracts (λ l, l ++ [contract_attributes (pa_applications parsed) declaration])).

Definition attribute_case (base : Program) (parsed : ParsedAttributes) : P () :=
  declaration ← attributeDeclaration tokens_ target_ self;
  (match pa_applications parsed with
   | [] => mret ()
   | first :: _ => report (lit "FDN1159") (lit "attribute declaration cannot be attributed") (at_span first)
   end);;
  keep_selected base parsed (set_attributeDeclarations (λ l, l ++ [declaration])).

(** [fn], [task] and [extern]. *)
Definition function_case (base : Program) (parsed : ParsedAttributes) (external task : bool) : P () :=
  declaration ← function tokens_ target_ self external task;
  keep_selected base parsed (set_functions (λ l, l ++ [function_attributes (pa_applications parsed) declaration])).

Definition test_case (base : Program) (parsed : ParsedAttributes) : P () :=
  declaration ← testDeclaration tokens_ self;
  keep_selected base parsed (set_functions (λ l, l ++
    [set_attributes (pa_applications parsed) (fn_blocking declaration) (fn_callback declaration) declaration])).

(** A constructor outside a type. *)
Definition constructor_case (base : Program) : P () :=
  token ← current;
  report (lit "FDN1242") (lit "constructor must be declared inside a struct, service, or methods block")
    (tok_span token);;
  discardConstructor tokens_ target_ self (lit "$invalid") [];;
  restoreProgram base.

(** The tests of the current token in the order of the code. *)
Fixpoint first_case (cases : list (TokenKind * P ())) (otherwise : P ()) : P () :=
  match cases with
  | [] => otherwise
  | (kind, body) :: cases =>
      found ← check kind;
      if found : bool then body else first_case cases otherwise
  end.

Definition declaration_cases (base : Program) (parsed : ParsedAttributes) : list (TokenKind * P ()) :=
  [(TokenKind.Struct, struct_case base parsed false);
   (TokenKind.Service, struct_case base parsed true);
   (TokenKind.Methods, methods_case base parsed);
   (TokenKind.Enum, enum_case base parsed);
   (TokenKind.StateMachine, machine_case base parsed);
   (TokenKind.Pipeline, workflow_case base parsed Pipeline);
   (TokenKind.Saga, workflow_case base parsed Saga);
   (TokenKind.Contract, contract_case base parsed);
   (TokenKind.Attribute, attribute_case base parsed);
   (TokenKind.Fn, function_case base parsed false false);
   (TokenKind.Task, function_case base parsed false true);
   (TokenKind.Test, test_case base parsed)].

(** The declaration behind its attributes. *)
Definition attributed_declaration (base : Program) (parsed : ParsedAttributes) : P () :=
  first_case (declaration_cases base parsed)
    (test ← keyword tokens_ (lit "test");
     if test : bool then test_case base parsed
     else first_case [(TokenKind.Extern, function_case base parsed true false);
                      (TokenKind.Ctor, constructor_case base)]
       (skip_bad tokens_ (lit "FDN1001") (lit "expected type or function declaration"))).

Definition declaration : P () :=
  before ← get;
  parsed ← attributes tokens_ target_ self true;
  attributed_declaration (program_ before) parsed.

Definition declarations : P () :=
  loop (turns tokens_) (λ _,
    ended ← atEnd;
    if ended : bool then mret ((), false) else declaration;; mret ((), true)) ().

Definition parse_program (install : bool) : P () :=
  (if install then installBuiltins else mret ());;
  package_declaration;;
  import_declarations;;
  declarations.

(** [Parser(tokens, diagnostics, installBuiltins, target).parse()]: the program and the diagnostics. *)
Definition parse (install : bool) (diagnostics : Diagnostics) : option (Program * Diagnostics) :=
  '(_, st) ← parse_program install (parser_start diagnostics);
  Some (program_ st, diagnostics_ st).

End program.
