(* ===== verification/ParserSpec.v ===== *)
(** * Reasoning about the parser's state monad

    [runs m st Q]: from [st], [m] neither runs out of fuel nor reads outside a
    vector, and ends in a state that [Q] holds of.  The invariant [ok] of the
    parser's state, the relation [moved] between the states around a call, and the
    specifications of the token cursor, of the loops and of the additions to the
    tree. *)
From S2P Require Import Prelude Diagnostics Token Ast AstGraph ParserState.

Definition runs {A} (m : P A) (st : Parser) (Q : A → Parser → Prop) : Prop :=
  match m st with Some (a, st') => Q a st' | None => False end.

Section rules.
Context {A B : Type}.

Lemma runs_mono (m : P A) st (Q R : A → Parser → Prop) :
  runs m st R → (∀ a st', R a st' → Q a st') → runs m st Q.
Proof. unfold runs. destruct (m st) as [[a st']|]; [|done]. eauto. Qed.
Lemma runs_ret (a : A) st (Q : A → Parser → Prop) : Q a st → runs (mret a) st Q.
Proof. done. Qed.
Lemma runs_bind (m : P A) (k : A → P B) st (Q : B → Parser → Prop) :
  runs m st (λ a st', runs (k a) st' Q) → runs (m ≫= k) st Q.
Proof.
  unfold runs, mbind, P_bind. destruct (m st) as [[a st']|]; done.
Qed.
Lemma runs_element (o : option A) a st (Q : A → Parser → Prop) : o = Some a → Q a st → runs (element o) st Q.
Proof. by intros ->. Qed.
Lemma runs_if (b : bool) (m1 m2 : P A) st (Q : A → Parser → Prop) :
  (b = true → runs m1 st Q) → (b = false → runs m2 st Q) → runs (if b then m1 else m2) st Q.
Proof. destruct b; auto. Qed.
End rules.

Lemma runs_get st (Q : Parser → Parser → Prop) : Q st st → runs get st Q.
Proof. done. Qed.
Lemma runs_modify f st (Q : () → Parser → Prop) : Q () (f st) → runs (modify f) st Q.
Proof. done. Qed.

(** ** The invariant *)

Definition tree (st : Parser) : Arena := arena (program_ st).

(** The members every function leaves as it finds them. *)
Definition counters (st : Parser) : nat * nat * nat * nat * list bytes * list bool * list (option TypeSyntax) * bool :=
  (blockDepth_ st, expressionDepth_ st, expressionCalls_ st, typeDepth_ st, activeTypeParameters_ st,
   activeTransferableTypeParameters_ st, activeTypeParameterConstraints_ st, structLiteralsAllowed_ st).
Definition frame (st : Parser) := (counters st, declared (program_ st)).

Section cursor_specs.
Context (tokens_ : list Token).

Record ok (st : Parser) : Prop := mkOk {
  ok_current : current_ st < length tokens_;
  ok_built : built (tree st);
  ok_blockDepth : blockDepth_ st ≤ maxBlockDepth;
  ok_expressionDepth : expressionDepth_ st ≤ maxExpressionDepth;
  ok_typeDepth : typeDepth_ st ≤ maxTypeDepth;
}.

Record moved (st st' : Parser) : Prop := mkMoved {
  mv_ok : ok st';
  mv_current : current_ st ≤ current_ st';
  mv_tree : extends (tree st) (tree st');
  mv_frame : frame st' = frame st;
}.

Lemma moved_refl st : ok st → moved st st.
Proof. intros. by split. Qed.
Lemma moved_trans st1 st2 st3 : moved st1 st2 → moved st2 st3 → moved st1 st3.
Proof. intros [_ ? ? ?] [? ? ? ?]. split; [done|lia|by etrans|congruence]. Qed.

(** A state that differs from [st'] in members outside the frame and the tree. *)
Lemma moved_around st s1 s2 s3 :
  ok st → current_ st ≤ current_ s1 → tree s1 = tree st → moved s1 s2 →
  current_ s3 = current_ s2 → tree s3 = tree s2 → frame s3 = frame st → moved st s3.
Proof.
  intros [Hc Hb H1 H2 H3] Hc1 Ht1 [[? ? _ _ _] ? ? _] Hc3 Ht3 Hf. split.
  - unfold frame, counters in Hf. injection Hf as E1 E2 E3 E4 E5 E6 E7 E8 _ _ _ _ _ _ _. split; [congruence|congruence|lia|lia|lia].
  - lia.
  - rewrite Ht3. rewrite <- Ht1. done.
  - done.
Qed.

(** The list of tokens ends with its end token. *)
Definition ended : Prop := ∃ t, last tokens_ = Some t ∧ tok_kind t = TokenKind.Eof.

Lemma token_at_lookup i : i < length tokens_ → tokens_ !! i = Some (token_at tokens_ i).
Proof. intros [t Ht]%lookup_lt_is_Some. unfold token_at. by rewrite Ht. Qed.

Definition here (st : Parser) : TokenKind := kind_at tokens_ (current_ st).

Lemma here_same st st' : current_ st' = current_ st → here st' = here st.
Proof. unfold here. by intros ->. Qed.

Context (Hended : ended).

Lemma not_last i : i < length tokens_ → kind_at tokens_ i ≠ TokenKind.Eof → S i < length tokens_.
Proof using Hended.
  intros Hi Hk. destruct (decide (S i = length tokens_)) as [E|]; [|lia].
  destruct Hended as (t & Hl & Ht). rewrite last_lookup, <- E in Hl. cbn in Hl.
  destruct Hk. unfold kind_at, token_at. rewrite Hl. done.
Qed.

(** *** Reading *)

Lemma current_spec st (Q : Token → Parser → Prop) :
  ok st → Q (token_at tokens_ (current_ st)) st → runs (current tokens_) st Q.
Proof.
  intros Ho HQ. unfold current. apply runs_bind, runs_get. eapply runs_element; [|exact HQ].
  apply token_at_lookup, Ho.
Qed.
Lemma previous_spec st (Q : Token → Parser → Prop) :
  ok st → 0 < current_ st → Q (token_at tokens_ (current_ st - 1)) st → runs (previous tokens_) st Q.
Proof.
  intros Ho Hc HQ. unfold previous. apply runs_bind, runs_get. destruct (current_ st) as [|i] eqn:E; [lia|].
  eapply runs_element; [|exact HQ]. replace (S i - 1) with i by lia. apply token_at_lookup.
  destruct Ho. lia.
Qed.
Lemma peek_spec n st (Q : Token → Parser → Prop) :
  (∀ t, t = peek_index tokens_ (current_ st + n) → Q t st) → runs (peek tokens_ n) st Q.
Proof using Hended.
  intros HQ. unfold peek. apply runs_bind, runs_get. unfold peek_index in HQ.
  destruct (tokens_ !! (current_ st + n)) as [t|].
  - eapply runs_element; [done|]. by apply HQ.
  - destruct Hended as (t & Hl & _). eapply runs_element; [done|]. apply HQ. by rewrite Hl.
Qed.
Lemma peek_kind_spec n st (Q : TokenKind → Parser → Prop) :
  (∀ k, k = tok_kind (peek_index tokens_ (current_ st + n)) → Q k st) → runs (peek_kind tokens_ n) st Q.
Proof using Hended. intros HQ. apply runs_bind, peek_spec. intros t ->. by apply HQ. Qed.
Lemma check_spec k st (Q : bool → Parser → Prop) :
  ok st → Q (bool_decide (here st = k)) st → runs (check tokens_ k) st Q.
Proof. intros Ho HQ. apply runs_bind, current_spec; [done|]. exact HQ. Qed.
Lemma atEnd_spec st (Q : bool → Parser → Prop) :
  ok st → Q (bool_decide (here st = TokenKind.Eof)) st → runs (atEnd tokens_) st Q.
Proof. apply check_spec. Qed.
Lemma continuesLine_spec st (Q : bool → Parser → Prop) :
  ok st → (∀ b : bool, Q b st) → runs (continuesLine tokens_) st Q.
Proof.
  intros Ho HQ. unfold continuesLine. apply runs_bind, runs_get. case_bool_decide; [apply HQ|].
  apply runs_bind, current_spec; [done|]. apply runs_bind, previous_spec; [done|lia|]. apply HQ.
Qed.

(** *** Moving *)

Lemma moved_next st : ok st → here st ≠ TokenKind.Eof → moved st (set_current S st).
Proof using Hended.
  intros [Hc Hb H1 H2 H3] Hk. split; [split; cbn; try done|cbn; lia|done|done].
  by apply not_last.
Qed.

Lemma advance_spec st (Q : Token → Parser → Prop) :
  ok st → (here st ≠ TokenKind.Eof ∨ 0 < current_ st) →
  (here st ≠ TokenKind.Eof → moved st (set_current S st) →
     Q (token_at tokens_ (current_ st)) (set_current S st)) →
  (here st = TokenKind.Eof → Q (token_at tokens_ (current_ st - 1)) st) →
  runs (advance tokens_) st Q.
Proof using Hended.
  intros Ho Hc H1 H2. unfold advance. apply runs_bind, atEnd_spec; [done|]. case_bool_decide as E.
  - apply runs_bind, runs_ret, previous_spec; [done|naive_solver|]. auto.
  - pose proof (moved_next st Ho E) as Hm. apply runs_bind, runs_modify, previous_spec; [apply Hm|cbn; lia|].
    replace (current_ (set_current S st) - 1) with (current_ st) by (cbn; lia). by apply H1.
Qed.

Lemma match_spec k st (Q : bool → Parser → Prop) :
  ok st → k ≠ TokenKind.Eof →
  (here st = k → moved st (set_current S st) → Q true (set_current S st)) →
  (here st ≠ k → Q false st) →
  runs (match_ tokens_ k) st Q.
Proof using Hended.
  intros Ho Hk H1 H2. unfold match_. apply runs_bind, check_spec; [done|]. case_bool_decide as E; [|by apply H2].
  apply runs_bind, advance_spec; [done|left; congruence| |congruence]. intros _ Hm. by apply H1.
Qed.

(** The same with the new state abstract. *)
Lemma match_moves k st (Q : bool → Parser → Prop) :
  ok st → k ≠ TokenKind.Eof →
  (∀ st', moved st st' → current_ st' = S (current_ st) → here st = k → Q true st') →
  (here st ≠ k → Q false st) →
  runs (match_ tokens_ k) st Q.
Proof using Hended. intros Ho Hk H1 H2. apply match_spec; [done|done| |done]. intros E Hm. by apply H1. Qed.
Lemma match_test k st (Q : bool → Parser → Prop) :
  ok st → k ≠ TokenKind.Eof →
  (∀ (b : bool) st', moved st st' → (b = true → here st = k ∧ current_ st < current_ st') → Q b st') →
  runs (match_ tokens_ k) st Q.
Proof using Hended.
  intros Ho Hk HQ. apply match_moves; [done|done| |].
  - intros st' Hm Hc E. apply HQ; [done|]. split; [done|lia].
  - intros _. apply HQ; [by apply moved_refl|done].
Qed.
Lemma advance_moves st (Q : Token → Parser → Prop) :
  ok st → (here st ≠ TokenKind.Eof ∨ 0 < current_ st) →
  (∀ t st', moved st st' → (here st ≠ TokenKind.Eof → current_ st < current_ st') → Q t st') →
  runs (advance tokens_) st Q.
Proof using Hended.
  intros Ho Hc HQ. apply advance_spec; [done|done| |].
  - intros _ Hm. apply HQ; [done|cbn; lia].
  - intros E. apply HQ; [by apply moved_refl|done].
Qed.

(** Reporting moves nowhere. *)
Lemma report_spec code message span st (Q : () → Parser → Prop) :
  ok st → (∀ st', moved st st' → current_ st' = current_ st → Q () st') → runs (report code message span) st Q.
Proof. intros [????] HQ. apply runs_modify, HQ; [|done]. by repeat split. Qed.

Lemma expect_spec k code message st (Q : Token → Parser → Prop) :
  ok st → k ≠ TokenKind.Eof →
  (∀ t st', moved st st' → (here st = k → current_ st < current_ st') → Q t st') →
  runs (expect tokens_ k code message) st Q.
Proof using Hended.
  intros Ho Hk HQ. unfold expect. apply runs_bind, check_spec; [done|]. case_bool_decide as E.
  - apply advance_spec; [done|left; congruence| |congruence]. intros _ Hm. apply HQ; [done|cbn; lia].
  - apply runs_bind, current_spec; [done|]. apply runs_bind, report_spec; [done|]. intros st' Hm Hc.
    apply current_spec; [apply Hm|]. by apply HQ.
Qed.

(** *** Loops *)

(** A loop ends when each turn that is not the last one passes a token. *)
Lemma loop_spec {A} (I : A → Parser → Prop) (body : A → P (A * bool)) fuel a st (Q : A → Parser → Prop) :
  (∀ a st, I a st → current_ st < length tokens_) →
  (∀ a st, I a st → runs (body a) st (λ '(a', again) st',
     if again : bool then I a' st' ∧ current_ st < current_ st' else Q a' st')) →
  I a st → length tokens_ < fuel + current_ st → runs (loop fuel body a) st Q.
Proof.
  intros Hlen Hbody. revert a st. induction fuel as [|fuel IH]; intros a st Ha Hf.
  - apply Hlen in Ha. lia.
  - cbn. apply runs_bind. eapply runs_mono; [by apply Hbody|]. intros [a' again] st' H. cbn beta iota in H.
    destruct again; [|exact H]. destruct H as [HI Hc]. apply IH; [done|lia].
Qed.
Lemma turns_loop_spec {A} (I : A → Parser → Prop) (body : A → P (A * bool)) a st (Q : A → Parser → Prop) :
  (∀ a st, I a st → ok st) →
  (∀ a st, I a st → runs (body a) st (λ '(a', again) st',
     if again : bool then I a' st' ∧ current_ st < current_ st' else Q a' st')) →
  I a st → runs (loop (turns tokens_) body a) st Q.
Proof.
  intros Hok Hbody Ha. eapply loop_spec; [|done|done|unfold turns; lia].
  intros a' st' H. apply Hok in H. apply H.
Qed.

(** Properties that more nodes do not change. *)
Definition stable {A} (R : A → Arena → Prop) : Prop := ∀ a t t', extends t t' → R a t → R a t'.
Lemma stable_Forall {A} (R : A → Arena → Prop) l t t' :
  stable R → extends t t' → Forall (λ a, R a t) l → Forall (λ a, R a t') l.
Proof. intros HR He Hl. eapply Forall_impl; [exact Hl|]. intros a. by apply HR. Qed.

Lemma comma_list_spec {A} (R : A → Arena → Prop) (item : P A) st (Q : list A → Parser → Prop) :
  ok st → stable R →
  (∀ s, moved st s → runs item s (λ a s', moved s s' ∧ R a (tree s'))) →
  (∀ l s, moved st s → Forall (λ a, R a (tree s)) l → Q l s) →
  runs (comma_list tokens_ item) st Q.
Proof using Hended.
  intros Ho HR Hitem HQ.
  apply (turns_loop_spec (λ l s, moved st s ∧ Forall (λ a, R a (tree s)) l)).
  - intros l s [Hm _]. apply Hm.
  - intros l s [Hm Hl]. apply runs_bind. eapply runs_mono; [by apply Hitem|]. intros a s' [Hm' Ha].
    assert (Forall (λ a, R a (tree s')) (l ++ [a])) as Hla.
    { apply Forall_app. split; [|by constructor]. eapply stable_Forall; [done|apply Hm'|done]. }
    apply runs_bind, match_spec; [apply Hm'|done| |].
    + intros _ Hn. apply runs_ret. pose proof (mv_current _ _ Hm') as Hc. split; [|cbn; lia].
      split; [|exact Hla]. eapply moved_trans; [exact Hm|]. eapply moved_trans; [exact Hm'|exact Hn].
    + intros _. apply runs_ret, HQ; [by eapply moved_trans|done].
  - split; [by apply moved_refl|constructor].
Qed.

(** *** Additions *)

Lemma moved_add st st' :
  ok st → current_ st' = current_ st → frame st' = frame st → built (tree st') → extends (tree st) (tree st') →
  moved st st'.
Proof.
  intros [Hc _ H1 H2 H3] Hc' Hf Hb He. split; [|lia|done|done].
  unfold frame, counters in Hf. injection Hf as E1 E2 E3 E4 E5 E6 E7 E8 _ _ _ _ _ _ _. split; [lia|done|lia|lia|lia].
Qed.

Lemma addExpression_spec v span st (Q : nat → Parser → Prop) :
  ok st → nodes_in (tree st) (expression_nodes v) →
  (∀ id st', moved st st' → current_ st' = current_ st → node_in (tree st') (NExpr id) → Q id st') →
  runs (addExpression v span) st Q.
Proof.
  intros Ho Hv HQ. unfold addExpression.
  apply runs_bind, runs_get. apply runs_bind.
  eapply (runs_mono _ _ _ (λ _ s, current_ s = current_ st ∧ tree s = tree st ∧ frame s = frame st)).
  { apply runs_if; intros _; [apply runs_bind; cbn; by split_and!|cbn; by split_and!]. }
  intros _ s (Hc & Ht & Hf). apply runs_bind, runs_modify, runs_ret.
  assert (length (pr_expressions (program_ st)) = length (ar_expressions (tree s))) as -> by (by rewrite Ht).
  apply HQ.
  - apply moved_add; [done|done|done| |].
    + assert (built (tree s)) as Hb by (rewrite Ht; apply Ho). rewrite <- Ht in Hv. by apply built_expression.
    + rewrite <- Ht. split; cbn; try done. by apply prefix_app_r.
  - done.
  - cbn. rewrite length_app. cbn. lia.
Qed.

Lemma addStatement_spec v span st (Q : nat → Parser → Prop) :
  ok st → nodes_in (tree st) (statement_nodes v) →
  (∀ id st', moved st st' → current_ st' = current_ st → node_in (tree st') (NStmt id) →
     length (ar_statements (tree st)) ≤ id → Q id st') →
  runs (addStatement v span) st Q.
Proof.
  intros Ho Hv HQ. unfold addStatement. apply runs_bind, runs_get, runs_bind, runs_modify, runs_ret. apply HQ.
  - apply moved_add; [done|done|done| |].
    + apply built_statement; [apply Ho|done].
    + split; cbn; try done. by apply prefix_app_r.
  - done.
  - cbn. rewrite length_app. cbn. lia.
  - done.
Qed.

Lemma push_block_spec b st (Q : nat → Parser → Prop) :
  ok st → nodes_in (tree st) (block_nodes b) →
  (∀ id st', moved st st' → current_ st' = current_ st → node_in (tree st') (NBlock id) → Q id st') →
  runs (push_block b) st Q.
Proof.
  intros Ho Hv HQ. unfold push_block. apply runs_bind, runs_get, runs_bind, runs_modify, runs_ret. apply HQ.
  - apply moved_add; [done|done|done| |].
    + apply built_block; [apply Ho|done].
    + split; cbn; try done. by apply prefix_app_r.
  - done.
  - cbn. rewrite length_app. cbn. lia.
Qed.

Lemma push_function_spec f st (Q : nat → Parser → Prop) :
  ok st → nodes_in (tree st) (function_nodes f ++ attached_nodes f) →
  (∀ id st', moved st st' → current_ st' = current_ st → node_in (tree st') (NFun id) → Q id st') →
  runs (push_function f) st Q.
Proof.
  intros Ho Hv HQ. unfold push_function. apply runs_bind, runs_get, runs_bind, runs_modify, runs_ret. apply HQ.
  - apply moved_add; [done|done|done| |].
    + apply built_function; [apply Ho|done].
    + split; cbn; try done. by apply prefix_app_r.
  - done.
  - cbn. rewrite length_app. cbn. lia.
Qed.

Lemma expression_at_spec id st (Q : Expression → Parser → Prop) :
  node_in (tree st) (NExpr id) →
  (∀ e, pr_expressions (program_ st) !! id = Some e → Q e st) → runs (expression_at id) st Q.
Proof.
  intros [e He]%lookup_lt_is_Some HQ. apply runs_bind, runs_get. eapply runs_element; [exact He|]. by apply HQ.
Qed.
Lemma statement_at_spec id st (Q : Statement → Parser → Prop) :
  node_in (tree st) (NStmt id) →
  (∀ s, pr_statements (program_ st) !! id = Some s → Q s st) → runs (statement_at id) st Q.
Proof.
  intros [e He]%lookup_lt_is_Some HQ. apply runs_bind, runs_get. eapply runs_element; [exact He|]. by apply HQ.
Qed.
End cursor_specs.

(** ** Automation *)

(** Side conditions: facts about the current state and arithmetic on positions. *)
Create HintDb parse.
#[export] Hint Resolve mv_ok : parse.
#[export] Hint Extern 1 (_ < _) => lia : parse.
#[export] Hint Extern 1 (_ ≤ _) => lia : parse.
#[export] Hint Extern 1 (_ ≠ TokenKind.Eof) => discriminate : parse.

(** Go on from the state [s'] behind the call that [Hn : moved s s'] is about. *)
Ltac absorb Hn :=
  lazymatch type of Hn with
  | moved ?t ?s ?s' =>
      repeat match goal with
        | H : node_in (tree s) _ |- _ => apply (node_in_extends _ _ _ (mv_tree _ _ _ Hn)) in H
        | H : nodes_in (tree s) _ |- _ => apply (nodes_in_extends _ _ _ (mv_tree _ _ _ Hn)) in H
        | H : Forall (λ a, _ (tree s)) _ |- _ =>
            eapply Forall_impl in H; [|intros ?; apply (nodes_in_extends _ _ _ (mv_tree _ _ _ Hn))]
        end;
      let Hc := fresh "Hc" in pose proof (mv_current _ _ _ Hn) as Hc;
      let Ho := fresh "Ho" in pose proof (mv_ok _ _ _ Hn) as Ho;
      lazymatch goal with
      | Hm : moved t ?base s |- _ =>
          let H := fresh "Hm" in
          pose proof (moved_trans _ _ _ _ Hm Hn) as H; clear Hn; clear Hm
      | _ => idtac
      end
  end.

(** Conditions of tests. *)
Ltac conditions :=
  repeat match goal with
    | H : negb _ = true |- _ => apply negb_true_iff in H
    | H : negb _ = false |- _ => apply negb_false_iff in H
    | H : _ || _ = false |- _ => apply orb_false_iff in H as [? ?]
    | H : _ && _ = true |- _ => apply andb_true_iff in H as [? ?]
    | H : bool_decide _ = true |- _ => apply bool_decide_eq_true in H
    | H : bool_decide _ = false |- _ => apply bool_decide_eq_false in H
    end.
