(* ===== verification/ParserSafety.v ===== *)
(** * The parser ends, reads inside its vectors and builds a tree

    One specification for every function of the parser: from a state that satisfies
    the invariant it ends in one, moves forward, leaves depth counters and
    look-ahead flags as it found them and adds nodes behind those it refers to. *)
From S2P Require Import Prelude Target Diagnostics Token Ast AstGraph ParserState ParserTypes ParserExpressions ParserStatements ParserSpec.

(** ** The look-ahead reads tokens only *)
Section lookahead.
Context (tokens_ : list Token).

Lemma tests_kind_is kind index : index < length tokens_ → tests (kind_is tokens_ kind index) True.
Proof. apply tests_element. Qed.
Lemma tests_text_is text index : index < length tokens_ → tests (text_is tokens_ text index) True.
Proof. apply tests_element. Qed.
Lemma scan_check_tests start cur kind : tests (scan_check tokens_ start cur kind) (cur < length tokens_).
Proof.
  eapply tests_weaken; [eapply tests_and; [apply tests_some|]|].
  - intros H. apply tests_kind_is. unfold withinBudget in H. to_prop. tauto.
  - intros [H _]. unfold withinBudget in H. to_prop. tauto.
Qed.

(** A scan that goes on from [cur]. *)
Definition ahead (cur : nat) (o : option nat) : Prop := ∀ c, o = Some c → cur ≤ c ≤ length tokens_.
Definition past (cur : nat) (o : option nat) : Prop := ∀ c, o = Some c → cur < c ≤ length tokens_.
Definition scans (item : nat → option (option nat)) : Prop := ∀ cur, cur ≤ length tokens_ → yields (item cur) (past cur).

Lemma past_none cur : past cur None.
Proof. by intros ?. Qed.
Lemma past_le cur cur' o : cur ≤ cur' → past cur' o → past cur o.
Proof. intros ? H c ->. specialize (H c eq_refl). lia. Qed.

(** The rest of a scan behind an item. *)
Lemma scan_then_past cur cur' r k :
  cur ≤ cur' → yields r (past cur') → (∀ c, cur' < c → c ≤ length tokens_ → yields (k c) (past cur)) →
  yields (scan_then r k) (past cur).
Proof.
  intros Hc ([c|] & -> & Hp) Hk; [|apply yields_ret, past_none]. cbn. destruct (Hp c eq_refl). by apply Hk.
Qed.
Lemma scan_then_ahead cur cur' r k :
  cur ≤ cur' → yields r (ahead cur') → (∀ c, cur' ≤ c → c ≤ length tokens_ → yields (k c) (past cur)) →
  yields (scan_then r k) (past cur).
Proof.
  intros Hc ([c|] & -> & Hp) Hk; [|apply yields_ret, past_none]. cbn. destruct (Hp c eq_refl). by apply Hk.
Qed.

Lemma scan_match_past start kind : scans (λ cur, scan_match tokens_ start cur kind).
Proof.
  intros cur Hc. eapply yields_test; [apply scan_check_tests|intros Hb|]; apply yields_ret; [|apply past_none].
  intros c [= <-]. lia.
Qed.

Lemma scan_commas_ahead fuel start item cur :
  scans item → cur ≤ length tokens_ → length tokens_ - cur < fuel → yields (scan_commas tokens_ fuel start item cur) (ahead cur).
Proof.
  intros Hi. revert cur. induction fuel as [|fuel IH]; intros cur Hc Hf; [lia|]. cbn [scan_commas].
  eapply yields_test; [apply scan_check_tests|intros Hb|apply yields_ret; intros c [= <-]; lia].
  destruct (Hi (S cur)) as ([c|] & -> & Hp); [lia| |by apply yields_ret]. destruct (Hp c eq_refl). cbn.
  eapply yields_mono; [apply IH; lia|]. intros o Ho c' ->. specialize (Ho c' eq_refl). lia.
Qed.
Lemma scan_dots_ahead fuel start cur :
  cur ≤ length tokens_ → length tokens_ - cur < fuel → yields (scan_dots tokens_ fuel start cur) (ahead cur).
Proof.
  revert cur. induction fuel as [|fuel IH]; intros cur Hc Hf; [lia|]. cbn [scan_dots].
  eapply yields_test; [apply scan_check_tests|intros Hb|apply yields_ret; intros c [= <-]; lia].
  destruct (scan_match_past start TokenKind.Identifier (S cur)) as ([c|] & -> & Hp); [lia| |by apply yields_ret].
  destruct (Hp c eq_refl). cbn. eapply yields_mono; [apply IH; lia|]. intros o Ho c' ->. specialize (Ho c' eq_refl). lia.
Qed.

Lemma scan_parameter_past start item : scans item → scans (scan_parameter tokens_ start item).
Proof.
  intros Hi cur Hc. eapply yields_test; [apply tests_or; apply scan_check_tests|intros Hb|by apply Hi].
  eapply yields_mono; [apply Hi; lia|]. intros o. apply past_le. lia.
Qed.

Lemma scanTypeArguments_past start item : scans item → scans (scanTypeArguments tokens_ start item).
Proof.
  intros Hi cur Hc. apply (scan_then_past cur cur); [done|by apply scan_match_past|]. intros c1 ??.
  apply (scan_then_past cur c1); [lia|by apply Hi|]. intros c2 ??.
  apply (scan_then_ahead cur c2); [lia|apply scan_commas_ahead; [done..|unfold turns; lia]|]. intros c3 ??.
  eapply yields_mono; [by apply scan_match_past|]. intros o. apply past_le. lia.
Qed.
Lemma scan_function_past start : scans (scan_function tokens_ start).
Proof.
  intros cur Hc. eapply yields_test; [apply scan_check_tests|intros Hb; apply yields_ret; intros c [= <-]; lia|].
  eapply yields_test.
  { eapply tests_and; [eapply tests_and; [eapply tests_and; [eapply tests_and; [apply scan_check_tests|]|]|]|].
    - intros _. apply tests_decide.
    - intros [_ H]. apply tests_kind_is. lia.
    - intros [[_ H] _]. apply tests_text_is. lia.
    - intros [[[_ H] _] _]. apply tests_kind_is. lia. }
  { intros [[[[_ H] _] _] _]. apply yields_ret. intros c [= <-]. lia. }
  eapply yields_test.
  { eapply tests_and; [eapply tests_and; [eapply tests_and; [apply scan_check_tests|]|]|].
    - intros H. by apply tests_text_is.
    - intros _. apply tests_decide.
    - intros [_ H]. by apply tests_kind_is. }
  - intros [[_ H] _]. apply yields_ret. intros c [= <-]. lia.
  - apply yields_ret, past_none.
Qed.

Lemma scan_function_type_past start item cur :
  scans item → cur ≤ length tokens_ → yields (scan_function_type tokens_ start item cur) (past cur).
Proof.
  intros Hi Hc. apply (scan_then_past cur cur); [done|by apply scan_match_past|]. intros c1 ??.
  apply (scan_then_ahead cur c1); [lia| |].
  - eapply yields_test; [apply scan_check_tests|intros _; apply yields_ret; intros c [= <-]; lia|].
    destruct (scan_parameter_past start item Hi c1) as ([c|] & -> & Hp); [lia| |by apply yields_ret]. destruct (Hp c eq_refl). cbn [scan_then].
    eapply yields_mono; [apply scan_commas_ahead; [by apply scan_parameter_past|done|unfold turns; lia]|].
    intros o Ho c' ->. specialize (Ho c' eq_refl). lia.
  - intros c2 ??. apply (scan_then_past cur c2); [lia|by apply scan_match_past|]. intros c3 ??.
    eapply yields_mono; [by apply Hi|]. intros o. apply past_le. lia.
Qed.
Lemma scan_array_type_past start item cur :
  scans item → cur ≤ length tokens_ → yields (scan_array_type tokens_ start item cur) (past cur).
Proof.
  intros Hi Hc.
  assert (∀ c, cur ≤ c → c ≤ length tokens_ →
    yields (scan_then (scan_match tokens_ start c TokenKind.RightBracket) item) (past cur)) as Hclose.
  { intros c ??. apply (scan_then_past cur c); [done|by apply scan_match_past|]. intros c' ??.
    eapply yields_mono; [by apply Hi|]. intros o. apply past_le. lia. }
  eapply yields_test; [apply scan_check_tests|intros H|].
  { apply (scan_then_past cur (S cur)); [lia|by apply scan_match_past|]. intros c ??. apply Hclose; lia. }
  eapply yields_test; [apply scan_check_tests|intros H; apply Hclose; lia|].
  apply (scan_then_past cur cur); [done|by apply Hi|]. intros c ??.
  eapply yields_mono; [by apply scan_match_past|]. intros o. apply past_le. lia.
Qed.

Lemma scanType_past levels start : scans (scanType tokens_ levels start).
Proof.
  induction levels as [|levels IH]; intros cur Hc; cbn [scanType]; [apply yields_ret, past_none|].
  apply yields_if; intros Hb; [apply yields_ret, past_none|].
  assert (∀ c, cur ≤ c → c ≤ length tokens_ → yields (scanType tokens_ levels start c) (past cur)) as Hitem.
  { intros c ??. eapply yields_mono; [by apply IH|]. intros o. by apply past_le. }
  eapply yields_test; [do 2 (eapply tests_or; [|apply scan_check_tests]); apply scan_check_tests|intros H; apply Hitem; lia|].
  eapply yields_test; [apply scan_check_tests|intros H; eapply yields_test;
    [apply scan_check_tests|intros H'; apply Hitem; lia|apply Hitem; lia]|].
  apply yields_bind. eapply yields_mono; [by apply scan_function_past|]. intros [c|] Hf.
  { destruct (Hf c eq_refl). eapply yields_mono; [by apply scan_function_type_past|]. intros o. apply past_le. lia. }
  eapply yields_test; [apply scan_check_tests|intros H|].
  { eapply yields_mono; [apply scan_array_type_past; [done|lia]|]. intros o. apply past_le. lia. }
  apply (scan_then_past cur cur); [done|by apply scan_match_past|]. intros c1 ??.
  apply (scan_then_ahead cur c1); [lia|apply scan_dots_ahead; [done|unfold turns; lia]|]. intros c2 ??.
  eapply yields_test; [apply scan_check_tests|intros H'|apply yields_ret; intros c [= <-]; lia].
  eapply yields_mono; [apply scanTypeArguments_past; [done|lia]|]. intros o. apply past_le. lia.
Qed.

(** The closing bracket is a token behind the opening one. *)
Lemma typeArgumentListClosingToken_yields opening :
  yields (typeArgumentListClosingToken tokens_ opening) (λ o, ∀ closing, o = Some closing → opening ≤ closing < length tokens_).
Proof.
  eapply yields_test; [eapply tests_and; [apply tests_decide|apply tests_kind_is]|intros [Ho _]|by apply yields_ret].
  apply yields_bind. eapply yields_mono; [apply scanTypeArguments_past; [apply scanType_past|lia]|].
  intros [c|] Hc; apply yields_ret; [|done]. destruct (Hc c eq_refl). intros closing [= <-]. lia.
Qed.

Lemma startsGenericPrimary_yields st : yields (startsGenericPrimary tokens_ st) (λ _, True).
Proof.
  apply yields_bind. eapply yields_mono; [apply typeArgumentListClosingToken_yields|].
  intros [closing|] H; [|by apply yields_ret]. specialize (H closing eq_refl). case_bool_decide; [by apply yields_ret|].
  do 2 (apply yields_bind, yields_lookup; [lia|intros ? _]). by apply yields_ret.
Qed.

(** *** Conditionals in tail position *)

Lemma find_block_yields fuel index : length tokens_ - index < fuel → yields (find_block tokens_ fuel index) (λ _, True).
Proof.
  revert index. induction fuel as [|fuel IH]; intros index Hf; [lia|]. cbn [find_block].
  eapply yields_test; [|intros H; apply IH|by apply yields_ret].
  - eapply tests_and; [eapply tests_and; [apply (tests_decide (index < length tokens_))|]|].
    + intros H. by eapply tests_negb, tests_kind_is.
    + intros [H _]. by eapply tests_negb, tests_kind_is.
  - destruct H as [[H _] _]. lia.
Qed.
Lemma skip_braces_yields fuel position depth :
  position ≤ length tokens_ → length tokens_ - position < fuel →
  yields (skip_braces tokens_ fuel position depth) (λ r, position ≤ r.1 ≤ length tokens_).
Proof.
  revert position depth. induction fuel as [|fuel IH]; intros position depth Hp Hf; [lia|]. cbn [skip_braces].
  apply yields_if; intros H; [|by apply yields_ret]. to_prop. destruct H as [H _].
  apply yields_bind, yields_lookup; [done|]. intros t _. eapply yields_mono; [apply IH; lia|]. cbn beta. intros r Hr. lia.
Qed.
Lemma tail_start_yields contentStart tailLine tailStart :
  tailStart < length tokens_ → yields (tail_start tokens_ contentStart tailLine tailStart) (λ start, start ≤ tailStart).
Proof.
  induction tailStart as [|before IH]; intros Ht; cbn [tail_start]; [by apply yields_ret|].
  eapply yields_test; [eapply tests_and; [apply tests_decide|intros _; apply tests_element; lia]|intros _|by apply yields_ret].
  eapply yields_mono; [apply IH; lia|]. cbn. lia.
Qed.
Lemma skipBlock_yields position :
  yields (skipBlock tokens_ position) (λ _, True).
Proof.
  eapply yields_test; [eapply tests_and; [apply tests_decide|apply tests_kind_is]|intros [Hp _]|by apply yields_ret].
  apply yields_bind. eapply yields_mono; [apply skip_braces_yields; unfold turns; lia|]. intros [behind depth] Hb. cbn in Hb.
  apply yields_if; intros H; [by apply yields_ret|]. to_prop.
  apply yields_bind, yields_lookup; [lia|]. intros final _.
  apply yields_bind. eapply yields_mono; [apply tail_start_yields; lia|]. cbn. intros start Hs.
  apply yields_bind, yields_lookup; [lia|]. intros t _. by apply yields_ret.
Qed.
Lemma startsTailIfExpression_yields st :
  current_ st < length tokens_ →
  yields (startsTailIfExpression tokens_ st) (λ b, b = true → kind_at tokens_ (current_ st) = TokenKind.If).
Proof.
  intros Hc. unfold startsTailIfExpression. destruct (lookup_lt_is_Some_2 _ _ Hc) as [t Ht].
  assert (kind_is tokens_ TokenKind.If (current_ st) = Some (bool_decide (tok_kind t = TokenKind.If))) as ->.
  { unfold kind_is, element_is. by rewrite Ht. }
  cbn [mbind option_bind]. case_bool_decide as Hk; [|by apply yields_ret].
  assert (kind_at tokens_ (current_ st) = TokenKind.If) as Hif by (unfold kind_at, token_at; by rewrite Ht).
  eapply yields_mono with (Q := λ _, True); [|done].
  apply yields_bind. eapply yields_mono; [apply find_block_yields; unfold turns; lia|]. intros index _.
  apply yields_bind. eapply yields_mono; [apply skipBlock_yields|]. intros [[behind []]|] _; try by apply yields_ret.
  eapply yields_test; [eapply tests_and; [apply tests_decide|apply tests_kind_is]|intros _|by apply yields_ret].
  apply yields_bind. eapply yields_mono; [apply skipBlock_yields|]. intros [[behind' []]|] _; try by apply yields_ret.
  eapply yields_mono; [eapply tests_and; [apply tests_decide|apply tests_kind_is]|done].
Qed.
End lookahead.

(** ** Tactics *)

Lemma runs_yields {A} (o : option A) st (R : A → Prop) (Q : A → Parser → Prop) :
  yields o R → (∀ a, R a → Q a st) → runs (element o) st Q.
Proof. intros (a & Ho & HR) HQ. eapply runs_element; [exact Ho|]. by apply HQ. Qed.
Lemma startsGeneric_spec tokens_ st s (Q : bool → Parser → Prop) :
  (∀ b, Q b s) → runs (element (startsGenericPrimary tokens_ st)) s Q.
Proof. intros HQ. eapply runs_yields; [apply startsGenericPrimary_yields|]. auto. Qed.

(** Bounds on positions behind conditions that hold. *)
Ltac ahead :=
  intros;
  repeat match goal with
    | H : ?T → _ < _, Ht : ?T |- _ => specialize (H Ht)
    | H : here _ _ ≠ _ → _ < _ |- _ => specialize (H ltac:(congruence))
    | H : here _ _ = _ → _ < _ |- _ => specialize (H ltac:(congruence))
    end; lia.

(** Side conditions of the specifications. *)
Ltac side := solve [eauto 3 with parse | lia | discriminate | left; congruence | right; ahead | ahead].

Ltac nodes :=
  repeat first
    [ assumption
    | match goal with
      | |- nodes_in _ [] => constructor
      | |- nodes_in _ (_ :: _) => apply nodes_in_cons; split
      | |- nodes_in _ (flat_map _ (_ ++ [_])) => apply nodes_in_snoc; split; [|cbn]
      | |- nodes_in _ (_ ++ _) => apply nodes_in_app; split
      end ].

(** One operation of the monad that does not branch. *)
Ltac straight :=
  lazymatch goal with
  | |- runs (mbind _ _) _ _ => apply runs_bind
  | |- runs (mret _) _ _ => apply runs_ret
  | |- runs get _ _ => apply runs_get
  | |- runs (report _ _ _) _ _ =>
      eapply report_spec;
        [side|let H := fresh in let E := fresh in
              intros ? H E;
              lazymatch type of H with moved ?t _ _ => pose proof (here_same t _ _ E) end; absorb H]
  | |- runs (element (startsGenericPrimary _ _)) _ _ => apply startsGeneric_spec; intros ?
  | |- runs (current _) _ _ => apply current_spec; [side|]
  | |- runs (previous _) _ _ => apply previous_spec; [side|side|]
  | |- runs (peek _ _) _ _ => apply peek_spec; [assumption|intros ? ?]
  | |- runs (peek_kind _ _) _ _ => apply peek_kind_spec; [assumption|intros ? ?]
  | |- runs (check _ _) _ _ => apply check_spec; [side|]
  | |- runs (atEnd _) _ _ => apply atEnd_spec; [side|]
  | |- runs (continuesLine _) _ _ => apply continuesLine_spec; [side|intros ?]
  | |- runs (advance _) _ _ =>
      apply advance_moves;
        [assumption|side|side
        |let H := fresh in let Hp := fresh "Hp" in intros ? ? H Hp; try specialize (Hp ltac:(congruence)); absorb H]
  | |- runs (expect _ _ _ _) _ _ =>
      apply expect_spec; [assumption|side|side|let H := fresh in intros ? ? H ?; absorb H]
  end; cbn beta iota;
  try progress change (tok_kind (token_at ?t (current_ ?s))) with (here t s).

(** One operation. *)
Ltac step :=
  lazymatch goal with
  | |- runs (match_ _ _) _ _ =>
      apply match_moves; [assumption|side|side|let H := fresh in intros ? H ? ?; absorb H|intros ?];
      cbn beta iota
  | |- runs (if _ then _ else _) _ _ =>
      let H := fresh in apply runs_if; intros H; try discriminate H; conditions; cbn beta iota
  | _ => straight
  end.

(** A call that [H] specifies. *)
Ltac land :=
  let H := fresh "Hn" in
  cbn beta; intros ? ? H;
  lazymatch type of H with
  | _ ∧ _ => let H' := fresh "Hr" in destruct H as [H H']
  | _ => idtac
  end;
  absorb H.
Ltac call H := eapply runs_mono; [apply H; side|land].

(** Behind a bracket: back to the state before it. *)
Ltac leaving L :=
  match goal with
  | H : moved _ (_ ?s) ?s2 |- _ =>
      let Hc := fresh in pose proof (mv_current _ _ _ H) as Hc; cbn in Hc;
      apply L in H; [|assumption];
      lazymatch type of H with
      | moved _ _ ?s3 =>
          repeat match goal with
            | F : node_in (tree s2) ?n |- _ => change (node_in (tree s3) n) in F
            | F : nodes_in (tree s2) ?l |- _ => change (nodes_in (tree s3) l) in F
            end
      end;
      absorb H; cbn [current_] in *
  end.

(** A member goes back to what it was. *)
Ltac solve_frame :=
  match goal with Hm : moved _ ?s1 ?s2 |- frame _ = frame _ =>
    let F := fresh in pose proof (mv_frame _ _ _ Hm) as F; unfold frame, counters in *; cbn -[Nat.pred declared] in *;
    apply pair_equal_spec in F as [F ->]; injection F; intros;
    repeat match goal with H : _ s2 = _ |- _ => rewrite H end; reflexivity
  end.

Section safety.
Context (tokens_ : list Token) (Hended : ended tokens_).
Local Abbreviation ok := (ok tokens_).
Local Abbreviation moved := (moved tokens_).
Local Abbreviation here := (here tokens_).

(** The state moves and what the result needs holds. *)
Definition lands {A} (R : A → Arena → Prop) (st : Parser) (a : A) (s : Parser) : Prop :=
  moved st s ∧ R a (tree s).
Definition anything {A} (a : A) (t : Arena) : Prop := True.
Lemma stable_anything {A} : stable (@anything A).
Proof. done. Qed.

Lemma takeSegment_spec code message allow st (Q : Token → Parser → Prop) :
  ok st → allow = false ∨ 0 < current_ st →
  (∀ t s, moved st s → (here st = TokenKind.Identifier → current_ st < current_ s) → Q t s) →
  runs (takeSegment tokens_ code message allow) st Q.
Proof using Hended.
  intros Ho Ha HQ. unfold takeSegment. step. step. apply runs_if; intros E.
  - apply advance_moves; [done|done| |].
    + destruct Ha as [->|Ha]; [|by right]. left. cbn in E. rewrite orb_false_r in E. intros He.
      rewrite He in E. done.
    + intros t s Hm Hc. apply HQ; [done|]. intros Hi. apply Hc. congruence.
  - apply expect_spec; [done|done|done|]. intros t s Hm Hc. by apply HQ.
Qed.

Lemma qualifiedName_spec code message allow st (Q : bytes * SourceSpan → Parser → Prop) :
  ok st → allow = false ∨ 0 < current_ st →
  (∀ r s, moved st s → (here st = TokenKind.Identifier → current_ st < current_ s) → Q r s) →
  runs (qualifiedName tokens_ code message allow) st Q.
Proof using Hended.
  intros Ho Ha HQ. unfold qualifiedName. step. apply takeSegment_spec; [done|done|]. intros first s1 Hm1 Hp.
  step. eapply runs_mono with (R := λ _ s, moved st s ∧ (here st = TokenKind.Identifier → current_ st < current_ s)).
  - eapply (turns_loop_spec tokens_
      (λ _ s, moved st s ∧ (here st = TokenKind.Identifier → current_ st < current_ s)));
      [intros ? ? [H _]; apply H| |by split].
    clear s1 Hm1 Hp. intros name s [Hm Hp]. pose proof (mv_ok _ _ _ Hm) as Hos.
    repeat step; try (split; [done|ahead]).
    apply takeSegment_spec; [done|right; lia|]. intros t s' Hn _. absorb Hn. step.
    split; [split; [done|ahead]|lia].
  - intros name s [Hm Hp']. step. by apply HQ.
Qed.
(** ** Brackets: a member is changed for the time of some calls *)

Lemma ok_typeDepth_S st : ok st → typeDepth_ st < maxTypeDepth → ok (set_typeDepth S st).
Proof. intros [? ? ? ? ?] ?. split; cbn; try done; lia. Qed.
Lemma leave_typeDepth st s : ok st → moved (set_typeDepth S st) s → moved st (set_typeDepth pred s).
Proof. intros Ho Hm. eapply (moved_around _ st (set_typeDepth S st) s); try done. solve_frame. Qed.

Lemma ok_blockDepth_S st : ok st → blockDepth_ st < maxBlockDepth → ok (set_blockDepth S st).
Proof. intros [? ? ? ? ?] ?. split; cbn; try done; lia. Qed.
Lemma leave_blockDepth st s : ok st → moved (set_blockDepth S st) s → moved st (set_blockDepth pred s).
Proof. intros Ho Hm. eapply (moved_around _ st (set_blockDepth S st) s); try done. solve_frame. Qed.

Lemma ok_expressionDepth_S st : ok st → expressionDepth_ st < maxExpressionDepth → ok (set_expressionDepth S st).
Proof. intros [? ? ? ? ?] ?. split; cbn; try done; lia. Qed.
Lemma leave_expressionDepth st s : ok st → moved (set_expressionDepth S st) s → moved st (set_expressionDepth pred s).
Proof. intros Ho Hm. eapply (moved_around _ st (set_expressionDepth S st) s); try done. solve_frame. Qed.

Lemma ok_expressionCalls_S st : ok st → ok (set_expressionCalls S st).
Proof. by intros [? ? ? ? ?]. Qed.
Lemma leave_expressionCalls st s : ok st → moved (set_expressionCalls S st) s → moved st (set_expressionCalls pred s).
Proof. intros Ho Hm. eapply (moved_around _ st (set_expressionCalls S st) s); try done. solve_frame. Qed.

Lemma ok_structLiterals b st : ok st → ok (set_structLiterals b st).
Proof. by intros [? ? ? ? ?]. Qed.
Lemma leave_structLiterals b st s :
  ok st → moved (set_structLiterals b st) s → moved st (set_structLiterals (structLiteralsAllowed_ st) s).
Proof. intros Ho Hm. eapply (moved_around _ st (set_structLiterals b st) s); try done. solve_frame. Qed.

(** ** Lists *)

(** A list between commas that may be left out. *)
Lemma comma_unless_spec {A} (R : A → Arena → Prop) (empty : bool) (item : P A) st (Q : list A → Parser → Prop) :
  ok st → stable R →
  (∀ s, moved st s → runs item s (λ a s', moved s s' ∧ R a (tree s'))) →
  (∀ l s, moved st s → Forall (λ a, R a (tree s)) l → Q l s) →
  runs (if empty then mret [] else comma_list tokens_ item) st Q.
Proof using Hended.
  intros Ho HR Hi HQ. destruct empty.
  - apply runs_ret, HQ; [by apply moved_refl|constructor].
  - by apply (comma_list_spec tokens_ Hended R).
Qed.

(** The same when the items add no nodes the caller refers to. *)
Lemma comma_unless_moves {A} (empty : bool) (item : P A) st :
  ok st → (∀ s, moved st s → runs item s (λ _ s', moved s s')) →
  runs (if empty then mret [] else comma_list tokens_ item) st (λ _ s, moved st s).
Proof using Hended.
  intros Ho Hi. apply (comma_unless_spec anything); [done|done| |done].
  intros s Hs. eapply runs_mono; [by apply Hi|]. done.
Qed.
Lemma comma_moves {A} (item : P A) st :
  ok st → (∀ s, moved st s → runs item s (λ _ s', moved s s')) →
  runs (comma_list tokens_ item) st (λ _ s, moved st s).
Proof using Hended. apply (comma_unless_moves false). Qed.

(** ** Types *)

Section types.
Context (self : bytes → bytes → P TypeSyntax) (c : nat).
Context (Hself : ∀ code message st, ok st → c < current_ st → runs (self code message) st (λ _ s, moved st s)).

Lemma self_later code message st s : ok st → c < current_ st → moved st s → runs (self code message) s (λ _ s', moved s s').
Proof using Hself. intros ? ? [? ? ? ?]. apply Hself; [done|lia]. Qed.

Lemma wrapped_type_spec name span code message st :
  ok st → c < current_ st → runs (wrapped_type self name span code message) st (λ _ s, moved st s).
Proof using Hended Hself.
  intros Ho Hc. pose proof (moved_refl _ _ Ho) as Hm. unfold wrapped_type. repeat step; [done|].
  apply runs_modify. pose proof (ok_typeDepth_S st Ho ltac:(lia)) as Ho1.
  step. eapply runs_mono; [by apply Hself|]. intros argument s Hs. step. apply runs_modify, runs_ret.
  by apply leave_typeDepth.
Qed.

Lemma function_parameter_spec st :
  ok st → c < current_ st → runs (function_parameter tokens_ self) st (λ _ s, moved st s).
Proof using Hended Hself.
  intros Ho Hc. pose proof (moved_refl _ _ Ho) as Hm. unfold function_parameter.
  repeat (step || call Hself || done).
Qed.

Lemma function_type_spec name start st :
  ok st → c < current_ st → runs (function_type tokens_ self name start) st (λ _ s, moved st s).
Proof using Hended Hself.
  intros Ho Hc. pose proof (moved_refl _ _ Ho) as Hm. unfold function_type. repeat straight.
  eapply runs_mono; [apply comma_unless_moves; [done|]|].
  { intros s [? ? ? ?]. apply function_parameter_spec; [done|lia]. }
  land. repeat (step || call Hself || done).
Qed.

Lemma slice_type_spec start st :
  ok st → c < current_ st → runs (slice_type tokens_ self start) st (λ _ s, moved st s).
Proof using Hended Hself.
  intros Ho Hc. pose proof (moved_refl _ _ Ho) as Hm. unfold slice_type. repeat (step || call Hself || done).
Qed.

Lemma array_type_spec start code message st :
  ok st → c < current_ st → runs (array_type tokens_ self start code message) st (λ _ s, moved st s).
Proof using Hended Hself.
  intros Ho Hc. pose proof (moved_refl _ _ Ho) as Hm. unfold array_type. step; step.
  - repeat step. destruct (from_chars _) as [length valid]. repeat (step || call Hself || done).
  - apply runs_mono with (R := λ _ s, moved st s); [by apply slice_type_spec|done].
Qed.

Lemma bracket_type_spec start code message st :
  ok st → c < current_ st → runs (bracket_type tokens_ self start code message) st (λ _ s, moved st s).
Proof using Hended Hself.
  intros Ho Hc. pose proof (moved_refl _ _ Ho) as Hm. unfold bracket_type.
  repeat (step || call Hself || (call array_type_spec) || done).
Qed.

Lemma skip_arguments_spec st : ok st → runs (skip_arguments tokens_) st (λ _ s, moved st s).
Proof using Hended.
  intros Ho. unfold skip_arguments. step.
  apply (turns_loop_spec tokens_ (λ _ s, moved st s)); [intros ? ? H; apply H| |by apply moved_refl].
  intros depth s Hm. pose proof (mv_ok _ _ _ Hm). repeat step; try done.
  all: split; [done|ahead].
Qed.

Lemma named_type_spec code message st :
  ok st → c ≤ current_ st →
  runs (named_type tokens_ self code message) st (λ _ s, moved st s ∧ (here st = TokenKind.Identifier → current_ st < current_ s)).
Proof using Hended Hself.
  intros Ho Hc. pose proof (moved_refl _ _ Ho) as Hm. unfold named_type. step.
  apply qualifiedName_spec; [done|by left|]. intros [qualified span] s1 Hm1 Hp. absorb Hm1.
  repeat step.
  - call skip_arguments_spec. step. split; [done|ahead].
  - apply runs_modify. step. pose proof (ok_typeDepth_S st' Ho1 ltac:(lia)) as Ho2.
    eapply runs_mono; [apply comma_moves; [done|]|].
    { intros s Hs. apply (self_later _ _ (set_typeDepth S st')); [done|cbn; lia|done]. }
    cbn beta. intros arguments s Hs. pose proof (mv_ok _ _ _ Hs). do 2 step. apply runs_bind, runs_modify, runs_ret.
    leaving leave_typeDepth. split; [done|ahead].
  - split; [done|ahead].
Qed.

Lemma typeSyntax_spec code message st :
  ok st → c ≤ current_ st →
  runs (typeSyntax tokens_ self code message) st
    (λ _ s, moved st s ∧ (here st = TokenKind.Identifier → current_ st < current_ s)).
Proof using Hended Hself.
  intros Ho Hc. pose proof (moved_refl _ _ Ho) as Hm. unfold typeSyntax. step. step.
  { repeat straight. eapply runs_mono with (R := λ _ s, moved st s ∧ current_ st' ≤ current_ s).
    { step; (split; [done|lia]). }
    intros readOnly s [Hs Hcs]. clear Hm0. pose proof (mv_ok _ _ _ Hs). call wrapped_type_spec. split; [done|ahead]. }
  repeat straight. step.
  { assert (here st ≠ TokenKind.Eof) by (intros E; rewrite E in *; done).
    step. step. call wrapped_type_spec. split; [done|ahead]. }
  repeat straight. step.
  { repeat straight. call function_type_spec. split; [done|ahead]. }
  step.
  { repeat straight. call function_type_spec. split; [done|ahead]. }
  step. step.
  { repeat straight. call function_type_spec. split; [done|ahead]. }
  step. step.
  { repeat straight. call bracket_type_spec. split; [done|ahead]. }
  by apply named_type_spec.
Qed.

End types.

Lemma type_syntax_spec fuel code message st :
  ok st → length tokens_ ≤ fuel + current_ st →
  runs (type_syntax fuel tokens_ code message) st
    (λ _ s, moved st s ∧ (here st = TokenKind.Identifier → current_ st < current_ s)).
Proof using Hended.
  revert code message st. induction fuel as [|fuel IH]; intros code message st Ho Hf.
  - destruct Ho. lia.
  - cbn. apply (typeSyntax_spec _ (current_ st)); [|done|done].
    intros code' message' s Hs Hc. eapply runs_mono; [apply IH; [done|lia]|]. by intros ? ? [? _].
Qed.

Lemma parseType_progress code message st :
  ok st → runs (parseType tokens_ code message) st
    (λ _ s, moved st s ∧ (here st = TokenKind.Identifier → current_ st < current_ s)).
Proof using Hended. intros Ho. apply type_syntax_spec; [done|]. unfold typeSyntax_fuel. lia. Qed.
Lemma parseType_spec code message st : ok st → runs (parseType tokens_ code message) st (λ _ s, moved st s).
Proof using Hended. intros Ho. eapply runs_mono; [by apply parseType_progress|]. by intros ? ? [? _]. Qed.

Lemma type_parameter_spec withTransferable withConstraints st :
  ok st → runs (type_parameter tokens_ withTransferable withConstraints) st (λ _ s, moved st s).
Proof using Hended.
  intros Ho. pose proof (moved_refl _ _ Ho) as Hm. unfold type_parameter.
  repeat (step || call parseType_spec || done).
Qed.
Lemma typeParameters_spec withTransferable withConstraints st :
  ok st → runs (typeParameters tokens_ withTransferable withConstraints) st (λ _ s, moved st s).
Proof using Hended.
  intros Ho. pose proof (moved_refl _ _ Ho) as Hm. unfold typeParameters. step. step; [|by step; step].
  do 2 step. eapply runs_mono; [apply comma_moves; [done|]|].
  { intros s Hs. apply type_parameter_spec, Hs. }
  land. by repeat step.
Qed.
End safety.
