(* ===== verification/ParserProofs.v ===== *)
(** * Expressions and statements are parsed safely

    The specifications of ParserExpressions.v and ParserStatements.v, and the
    theorems about the recursion they form. *)
From S2P Require Import Prelude Target Diagnostics Token Ast AstGraph ParserState ParserTypes ParserExpressions ParserStatements ParserSpec ParserSafety.

Section nodes.
Context (tokens_ : list Token) (Hended : ended tokens_).
Local Abbreviation ok := (ok tokens_).
Local Abbreviation moved := (moved tokens_).
Local Abbreviation here := (here tokens_).

Lemma stable_nodes {A} (f : A → list Node) : stable (λ a t, nodes_in t (f a)).
Proof. intros a t t'. apply nodes_in_extends. Qed.

(** Lists whose elements refer to nodes. *)
Lemma comma_unless_nodes {A} (f : A → list Node) (empty : bool) (item : P A) st (Q : list A → Parser → Prop) :
  ok st → (∀ s, moved st s → runs item s (λ a s', moved s s' ∧ nodes_in (tree s') (f a))) →
  (∀ l s, moved st s → nodes_in (tree s) (flat_map f l) → Q l s) →
  runs (if empty then mret [] else comma_list tokens_ item) st Q.
Proof using Hended.
  intros Ho Hi HQ. apply (comma_unless_spec tokens_ Hended (λ a t, nodes_in t (f a)));
    [done|apply stable_nodes|done|].
  intros l s Hs Hl. apply HQ; [done|]. by apply nodes_in_flat.
Qed.

Lemma until_brace_spec {A} (R : A → Arena → Prop) (item : P (list A)) st (Q : list A → Parser → Prop) :
  ok st → stable R →
  (∀ s, moved st s → here s ≠ TokenKind.Eof → here s ≠ TokenKind.RightBrace →
     runs item s (λ l s', moved s s' ∧ current_ s < current_ s' ∧ Forall (λ a, R a (tree s')) l)) →
  (∀ l s, moved st s → Forall (λ a, R a (tree s)) l → Q l s) →
  runs (until_brace tokens_ item) st Q.
Proof using Hended.
  intros Ho HR Hitem HQ.
  apply (turns_loop_spec tokens_ (λ l s, moved st s ∧ Forall (λ a, R a (tree s)) l)).
  - intros l s [Hm _]. apply Hm.
  - intros l s [Hm Hl]. pose proof (mv_ok _ _ _ Hm) as Hos. repeat straight. apply runs_if; intros E.
    { step. by apply HQ. }
    apply orb_false_iff in E as [E1%bool_decide_eq_false E2%bool_decide_eq_false].
    step. eapply runs_mono; [by apply Hitem|]. intros added s' (Hm' & Hc & Ha). step. split; [|done].
    split; [by eapply moved_trans|]. apply Forall_app. split; [|done].
    eapply stable_Forall; [done|apply Hm'|done].
  - split; [by apply moved_refl|constructor].
Qed.

Lemma until_brace_nodes {A} (f : A → list Node) (item : P (list A)) st (Q : list A → Parser → Prop) :
  ok st →
  (∀ s, moved st s → here s ≠ TokenKind.Eof → here s ≠ TokenKind.RightBrace →
     runs item s (λ l s', moved s s' ∧ current_ s < current_ s' ∧ nodes_in (tree s') (flat_map f l))) →
  (∀ l s, moved st s → nodes_in (tree s) (flat_map f l) → Q l s) →
  runs (until_brace tokens_ item) st Q.
Proof using Hended.
  intros Ho Hi HQ. apply (until_brace_spec (λ a t, nodes_in t (f a))); [done|apply stable_nodes| |].
  - intros s Hs H1 H2. eapply runs_mono; [by apply Hi|]. intros l s' (? & ? & ?).
    split_and!; [done|done|]. by apply nodes_in_flat.
  - intros l s Hs Hl. apply HQ; [done|]. by apply nodes_in_flat.
Qed.

(** The first of several keywords, or none of them. *)
Lemma match_cases_spec {A} (cases : list (TokenKind * P A)) (otherwise : P A) st (Q : A → Parser → Prop) :
  ok st →
  Forall (λ c, c.1 ≠ TokenKind.Eof ∧
    ∀ s, s = set_current S st → here st = c.1 → moved st s → ok s → current_ s = S (current_ st) → runs c.2 s Q) cases →
  runs otherwise st Q → runs (match_cases tokens_ cases otherwise) st Q.
Proof using Hended.
  intros Ho Hc Hr. induction Hc as [|[k body] cases [Hk Hb] Hc IH]; [done|]. cbn in *.
  apply runs_bind, match_spec; [done|done|done| |]; [|done]. intros E Hm. by apply Hb; [..|apply Hm|].
Qed.

Lemma skip_unless_end_spec st (Q : () → Parser → Prop) :
  ok st → (∀ s, moved st s → (here st ≠ TokenKind.Eof → current_ st < current_ s) → Q () s) →
  runs (skip_unless_end tokens_) st Q.
Proof using Hended.
  intros Ho HQ. pose proof (moved_refl _ _ Ho) as Hm. unfold skip_unless_end. repeat step.
  - apply HQ; [done|done].
  - apply HQ; [done|done].
Qed.
End nodes.

(** Passing a token later is passing a token. *)
Lemma progress_from tokens_ st s s' :
  here tokens_ st ≠ TokenKind.Eof → current_ st ≤ current_ s → current_ s ≤ current_ s' →
  (here tokens_ s ≠ TokenKind.Eof → current_ s < current_ s') → current_ st < current_ s'.
Proof.
  intros He H1 H2 Hp. destruct (decide (current_ s = current_ st)) as [E|]; [|lia].
  rewrite (here_same _ _ _ E) in Hp. specialize (Hp He). lia.
Qed.

(** What the entry points promise behind position [c]. *)
Section promises.
Context (tokens_ : list Token).
Local Abbreviation ok := (ok tokens_).
Local Abbreviation moved := (moved tokens_).
Local Abbreviation here := (here tokens_).

Definition progress (st s : Parser) : Prop := here st ≠ TokenKind.Eof → current_ st < current_ s.
Definition gives_expression (st : Parser) (id : nat) (s : Parser) : Prop :=
  moved st s ∧ node_in (tree s) (NExpr id) ∧ progress st s.
Definition gives_statement (st : Parser) (id : nat) (s : Parser) : Prop :=
  moved st s ∧ node_in (tree s) (NStmt id) ∧ length (ar_statements (tree st)) ≤ id ∧ progress st s.
(** A statement function behind its keyword. *)
Definition adds_statement (st : Parser) (id : nat) (s : Parser) : Prop :=
  moved st s ∧ node_in (tree s) (NStmt id) ∧ length (ar_statements (tree st)) ≤ id.
Definition gives_block (st : Parser) (id : nat) (s : Parser) : Prop :=
  moved st s ∧ node_in (tree s) (NBlock id).

Record entries_ok (self : Entries) (c : nat) : Prop := mkEntriesOk {
  eo_expression st : ok st → c < current_ st → runs (e_expression self) st (gives_expression st);
  eo_conditional st : ok st → c < current_ st → runs (e_conditional self) st (gives_expression st);
  eo_unary st : ok st → c < current_ st → runs (e_unary self) st (gives_expression st);
  eo_primary st : ok st → c < current_ st → runs (e_primary self) st (gives_expression st);
  eo_statement st : ok st → c < current_ st → runs (e_statement self) st (gives_statement st);
  eo_tailIf st : ok st → c < current_ st → here st = TokenKind.If → runs (e_tailIf self) st (gives_statement st);
  eo_block tail st : ok st → c < current_ st → runs (e_block self tail) st (gives_block st);
}.
End promises.

(** A call that keeps its promise. *)
Ltac arrive :=
  let H := fresh "Hn" in
  unfold gives_expression, gives_statement, adds_statement, gives_block, progress; cbn beta; intros ? ? H;
  repeat match type of H with
    | _ ∧ _ => let H' := fresh "Hr" in destruct H as [H H']
    end;
  repeat match goal with H' : _ ∧ _ |- _ => destruct H' end;
  absorb H.
Ltac visit H := eapply runs_mono; [apply H; side|arrive].
(** The promise itself. *)
Ltac keep := unfold gives_expression, gives_statement, adds_statement, gives_block, progress; split_and!; [assumption|assumption|..]; try (assumption || ahead).
(** An addition to the tree ends a function. *)
Ltac add_node :=
  lazymatch goal with
  | |- runs (addExpression _ _) _ _ =>
      let H := fresh in let E := fresh in eapply addExpression_spec; [side|cbn; nodes|intros ? ? H E ?;
          lazymatch type of H with moved ?t _ _ => pose proof (here_same t _ _ E) end; absorb H]
  | |- runs (addStatement _ _) _ _ =>
      let H := fresh in let E := fresh in eapply addStatement_spec; [side|cbn; nodes|intros ? ? H E ? ?;
          lazymatch type of H with moved ?t _ _ => pose proof (here_same t _ _ E) end; absorb H]
  | |- runs (push_block _) _ _ =>
      let H := fresh in let E := fresh in eapply push_block_spec; [side|cbn; nodes|intros ? ? H E ?;
          lazymatch type of H with moved ?t _ _ => pose proof (here_same t _ _ E) end; absorb H]
  | |- runs (push_function _) _ _ =>
      let H := fresh in let E := fresh in eapply push_function_spec; [side|cbn; nodes|intros ? ? H E ?;
          lazymatch type of H with moved ?t _ _ => pose proof (here_same t _ _ E) end; absorb H]
  end; cbn beta iota.
(** The keywords of [match_cases] one by one. *)
Ltac cases :=
  repeat (apply Forall_cons; split; [split; [discriminate|cbn [fst snd]; intros ? ? ? ? ? ?]|]); try apply List.Forall_nil.
(** A keyword whose presence is looked at later. *)
Ltac test :=
  let H := fresh in let Hb := fresh "Hb" in
  apply match_test; [assumption|side|side|intros ? ? H Hb; absorb H]; cbn beta.
Ltac unpair := repeat match goal with x : (_ * _)%type |- _ => destruct x end; cbn [fst snd] in *.
Ltac start Hm := match goal with Ho : ok _ ?st |- _ => pose proof (moved_refl _ _ Ho) as Hm end.

(** A part that only moves; its first goal is that part, its second the rest. *)
Ltac quiet :=
  match goal with Hm : moved ?t _ ?s |- runs _ ?s _ =>
    eapply (runs_mono _ _ _ (λ _ s', moved t s s'));
    [clear Hm; assert (moved t s s) as Hm by (apply moved_refl; assumption)|arrive]
  end.

Section expressions.
Context (tokens_ : list Token) (Hended : ended tokens_) (target_ : TargetPlatform).
Context (parseFloating : bytes → bool) (self : Entries) (c : nat) (Hself : entries_ok tokens_ self c).
Local Abbreviation ok := (ok tokens_).
Local Abbreviation moved := (moved tokens_).
Local Abbreviation here := (here tokens_).
Local Abbreviation gives_expression := (gives_expression tokens_).
Local Abbreviation gives_statement := (gives_statement tokens_).
Local Abbreviation gives_block := (gives_block tokens_).

Lemma self_expression st : ok st → c < current_ st → runs (e_expression self) st (gives_expression st).
Proof using Hself. apply Hself. Qed.

(** ** Attributes and parameters *)

Lemma argument_name_spec st : ok st → runs (argument_name tokens_) st (λ _ s, moved st s).
Proof using Hended.
  intros Ho. start Hm. unfold argument_name. repeat step; done.
Qed.

Lemma attribute_argument_spec st :
  ok st → c < current_ st →
  runs (attribute_argument tokens_ self) st (λ a s, moved st s ∧ nodes_in (tree s) [NExpr (aa_value a)]).
Proof using Hended Hself.
  intros Ho Hc. start Hm. unfold attribute_argument. repeat straight.
  visit argument_name_spec. step. visit self_expression. step. cbn. split; [done|nodes].
Qed.

Lemma target_attribute_spec allow found span st :
  ok st → runs (target_attribute tokens_ target_ allow found span) st (λ _ s, moved st s).
Proof using Hended.
  intros Ho. start Hm. unfold target_attribute. repeat straight.
  repeat (step; try done). unfold targetArgument. step.
  destruct (parseTargetSelector _); by repeat step.
Qed.

Lemma attributes_spec allow st :
  ok st → c ≤ current_ st →
  runs (attributes tokens_ target_ self allow) st
    (λ p s, moved st s ∧ nodes_in (tree s) (flat_map attribute_nodes (pa_applications p)) ∧
            (here st = TokenKind.At → current_ st < current_ s)).
Proof using Hended Hself.
  intros Ho Hc. unfold attributes. step.
  eapply (turns_loop_spec tokens_ (λ r s, moved st s ∧
    nodes_in (tree s) (flat_map attribute_nodes (pa_applications r.2)) ∧
    (s = st ∨ current_ st < current_ s))); [intros ? ? [H _]; apply H| |].
  2: { split_and!; [by apply moved_refl|constructor|by left]. }
  intros [found result] s (Hm & Hn & Hp). pose proof (mv_ok _ _ _ Hm) as Hos.
  pose proof (mv_current _ _ _ Hm) as Hcs. cbn in Hn.
  step. step; step.
  2: { step. split_and!; [done|done|]. intros E. destruct Hp as [->|Hp]; [done|exact Hp]. }
  repeat straight. apply (qualifiedName_spec tokens_ Hended); [done|by left|]. intros [name span] s1 Hm1 _. absorb Hm1.
  repeat straight. apply runs_if; intros E1.
  { step. cbn. split; [|lia]. split_and!; [done|nodes|right; lia]. }
  repeat straight. step; step.
  { visit target_attribute_spec. step. split; [|lia]. destruct a; cbn; split_and!; (done || (right; lia)). }
  straight. straight. eapply (comma_unless_nodes tokens_ Hended (λ x, [NExpr (aa_value x)])); [side| |].
  { intros s2 Hs2. apply attribute_argument_spec; [apply Hs2|]. destruct Hs2. lia. }
  intros arguments s2 Hs2 Ha. absorb Hs2. repeat straight. cbn. split; [|lia]. split_and!; [done|nodes|right; lia].
Qed.

Lemma parameter_spec allow st :
  ok st → c ≤ current_ st →
  runs (parameter tokens_ target_ self allow) st (λ p s, moved st s ∧ nodes_in (tree s) (parameter_nodes p)).
Proof using Hended Hself.
  intros Ho Hc. start Hm. unfold parameter. step. visit attributes_spec. repeat straight.
  eapply runs_mono with (R := λ _ s, moved st' s).
  { apply (match_cases_spec tokens_ Hended); [done| |by apply moved_refl].
    by cases. }
  arrive. repeat straight.
  eapply runs_mono with (R := λ _ s, moved st'1 s).
  { apply runs_if; intros _; [by apply moved_refl|by apply (parseType_spec tokens_ Hended)]. }
  arrive. step.
  eapply runs_mono with (R := λ _ s, moved st'2 s).
  { start Hm'. by repeat step. }
  arrive. step. done.
Qed.

(** ** Arguments and suffixes *)

Definition argument_nodes (a : option Token * nat) : list Node := [NExpr a.2].

Lemma call_argument_spec st :
  ok st → c < current_ st →
  runs (call_argument tokens_ self) st (λ a s, moved st s ∧ nodes_in (tree s) (argument_nodes a)).
Proof using Hended Hself.
  intros Ho Hc. start Hm. unfold call_argument. step. visit argument_name_spec. step. visit self_expression.
  step. split; [done|]. unfold argument_nodes. cbn. nodes.
Qed.

Lemma call_arguments_spec code message st :
  ok st → c < current_ st →
  runs (call_arguments tokens_ self code message) st
    (λ l s, moved st s ∧ nodes_in (tree s) (flat_map argument_nodes l)).
Proof using Hended Hself.
  intros Ho Hc. start Hm. unfold call_arguments. repeat straight.
  apply (comma_unless_nodes tokens_ Hended argument_nodes); [done| |].
  { intros s Hs. apply call_argument_spec; [apply Hs|]. destruct Hs. lia. }
  intros l s Hs Hl. absorb Hs. repeat straight. done.
Qed.

Lemma argument_ids a l : nodes_in a (flat_map argument_nodes l) → nodes_in a (expression_ids (map snd l)).
Proof. intros H. unfold expression_ids. rewrite nodes_in_flat, Forall_map. by apply nodes_in_flat in H. Qed.

Lemma finishCall_spec callee types st :
  ok st → c < current_ st →
  runs (finishCall tokens_ self callee types) st (λ id s, moved st s ∧ node_in (tree s) (NExpr id)).
Proof using Hended Hself.
  intros Ho Hc. start Hm. unfold finishCall. step. visit call_arguments_spec.
  eapply addExpression_spec; [done|by apply argument_ids|]. intros id s' Hs _ Hid. absorb Hs. done.
Qed.

Lemma finishStruct_spec type st :
  ok st → c < current_ st →
  runs (finishStruct tokens_ self type) st (λ id s, moved st s ∧ node_in (tree s) (NExpr id)).
Proof using Hended Hself.
  intros Ho Hc. start Hm. unfold finishStruct. step.
  apply (until_brace_nodes tokens_ Hended field_nodes); [done| |].
  { intros s Hs He _. pose proof (mv_ok _ _ _ Hs) as Hos. pose proof (mv_current _ _ _ Hs). start Hm'.
    unfold struct_field. do 2 step. step.
    - repeat step. split_and!; [done|ahead|constructor].
    - repeat straight. visit self_expression. step. split_and!; [done|lia|]. cbn. nodes. }
  intros fields s Hs Hf. absorb Hs. do 2 step. add_node. done.
Qed.

Lemma finishMember_spec base st :
  ok st → c < current_ st → nodes_in (tree st) (optional NExpr base) →
  runs (finishMember tokens_ self base) st (λ id s, moved st s ∧ node_in (tree s) (NExpr id)).
Proof using Hended Hself.
  intros Ho Hc Hb. start Hm. unfold finishMember. repeat straight.
  eapply runs_mono with (R := λ _ s, moved st' s).
  { start Hm'. step; [|by step]. repeat straight.
    eapply runs_mono; [apply (comma_moves tokens_ Hended); [done|]|].
    { intros s Hs. apply (parseType_spec tokens_ Hended), Hs. }
    arrive. by repeat step. }
  cbn beta. intros types s Hs. absorb Hs. step. step.
  - step. visit call_arguments_spec. eapply addExpression_spec; [done|cbn|].
    { nodes. by apply argument_ids. }
    intros id s' Hs' _ Hid. absorb Hs'. done.
  - step. step. add_node. done.
Qed.

Lemma finishArray_spec start st :
  ok st → c < current_ st →
  runs (finishArray tokens_ self start) st (λ id s, moved st s ∧ node_in (tree s) (NExpr id)).
Proof using Hended Hself.
  intros Ho Hc. start Hm. unfold finishArray. repeat straight.
  apply (comma_unless_nodes tokens_ Hended (λ id, [NExpr id])); [done| |].
  { intros s Hs. eapply runs_mono; [apply self_expression; [apply Hs|destruct Hs; lia]|].
    intros id s' (? & ? & _). split; [done|nodes]. }
  intros l s Hs Hl. absorb Hs. do 2 step. add_node. done.
Qed.

Lemma replaceExpression_spec start st :
  ok st → c < current_ st →
  runs (replaceExpression tokens_ self start) st (λ id s, moved st s ∧ node_in (tree s) (NExpr id)).
Proof using Hended Hself.
  intros Ho Hc. start Hm. unfold replaceExpression. step. visit (eo_primary _ _ _ Hself). repeat straight.
  visit self_expression. add_node. done.
Qed.

(** ** Blocks inside expressions *)

(** Statements added at or behind position [n]. *)
Definition statement_from (n id : nat) (t : Arena) : Prop := node_in t (NStmt id) ∧ n ≤ id.
Lemma stable_statement_from n : stable (statement_from n).
Proof. intros id t t' He [H1 H2]. split; [|done]. by eapply node_in_extends. Qed.
Lemma extends_statements s s' : moved s s' → length (ar_statements (tree s)) ≤ length (ar_statements (tree s')).
Proof. intros [_ _ [_ H _ _] _]. by apply prefix_length. Qed.

Lemma block_items_spec tail tailIf statement st (Q : list nat → Parser → Prop) :
  ok st →
  (∀ s, moved st s → runs statement s (gives_statement s)) →
  (∀ s, moved st s → here s = TokenKind.If → runs tailIf s (gives_statement s)) →
  (∀ l s, moved st s → Forall (λ id, statement_from (length (ar_statements (tree st))) id (tree s)) l → Q l s) →
  runs (block_items tokens_ tail tailIf statement) st Q.
Proof using Hended.
  intros Ho Hs Ht HQ. unfold block_items.
  apply (until_brace_spec tokens_ Hended (statement_from (length (ar_statements (tree st)))));
    [done|apply stable_statement_from| |done].
  intros s Hm He _. pose proof (mv_ok _ _ _ Hm) as Hos. step. step. step.
  apply runs_mono with (R := λ b s', s' = s ∧ (b = true → here s = TokenKind.If)).
  { apply runs_if; intros _; [|by step]. eapply runs_yields; [apply startsTailIfExpression_yields, Hos|done]. }
  intros conditional s0 [-> Hif]. step. eapply runs_mono with (R := gives_statement s).
  { apply runs_if; intros E; [by apply Ht, Hif|by apply Hs]. }
  intros id s' (Hm' & Hid & Hl & Hp). step. split_and!; [done|by apply Hp|].
  constructor; [|done]. split; [done|]. pose proof (extends_statements _ _ Hm). lia.
Qed.

Lemma statement_nodes_in t l n :
  Forall (λ id, statement_from n id t) l → nodes_in t (flat_map (λ id, [NStmt id]) l).
Proof.
  intros H. apply nodes_in_flat. eapply Forall_impl; [exact H|]. intros id [Hid _].
  constructor; [done|constructor].
Qed.

Lemma skipNestedBlock_spec span st :
  ok st → runs (skipNestedBlock tokens_ span) st (gives_block st).
Proof using Hended.
  intros Ho. unfold skipNestedBlock. step.
  eapply (turns_loop_spec tokens_ (λ _ s, moved st s)); [intros ? ? H; apply H| |by apply moved_refl].
  intros depth s Hm. pose proof (mv_ok _ _ _ Hm) as Hos. repeat straight. apply runs_if; intros E.
  - step. add_node. done.
  - apply orb_false_iff in E as [E _]. conditions. step.
    eapply runs_mono with (R := λ _ s', moved s s' ∧ current_ s < current_ s').
    + apply (match_cases_spec tokens_ Hended); [done| |].
      * cases; (split; [done|lia]).
      * start Hm'. repeat straight. split; [done|lia].
    + intros d s' [Hs' Hc]. absorb Hs'. step. done.
Qed.

(** The value a block ends with is one of the tree's expressions. *)
Lemma take_value_spec l st (Q : list nat * option nat → Parser → Prop) :
  ok st → nodes_in (tree st) (flat_map (λ id, [NStmt id]) l) →
  (∀ l' v, nodes_in (tree st) (flat_map (λ id, [NStmt id]) l') → nodes_in (tree st) (optional NExpr v) → Q (l', v) st) →
  runs (take_value l) st Q.
Proof.
  intros Ho Hl HQ. unfold take_value. destruct (last l) as [id|] eqn:El.
  - apply last_Some in El as [l' ->]. apply nodes_in_snoc in Hl as [Hl Hid].
    apply nodes_in_cons in Hid as [Hid _]. step. apply statement_at_spec; [done|]. intros s Hs. step.
    destruct (stmt_value s) eqn:Ev; try (apply HQ; [by nodes; apply nodes_in_snoc; split; nodes|constructor]).
    rewrite removelast_last. apply HQ; [done|]. pose proof (built_sane _ (ok_built _ _ Ho) (NStmt id) Hid) as [Hr _].
    cbn in Hr. rewrite Hs in Hr. cbn in Hr. by rewrite Ev in Hr.
  - step. apply HQ; [done|constructor].
Qed.

Lemma condition_spec st :
  ok st → c < current_ st → runs (condition self) st (gives_expression st).
Proof using Hself.
  intros Ho Hc. unfold condition. do 3 step. apply runs_modify.
  pose proof (ok_structLiterals tokens_ false st Ho) as Ho1. step. eapply runs_mono; [by apply self_expression|].
  intros id s (Hm & Hid & Hp). step. apply runs_modify, runs_ret. split_and!; [|done|exact Hp].
  by apply (leave_structLiterals tokens_ false).
Qed.

(** The statements between the braces of a block inside an expression. *)
Lemma items_below_spec st (Q : list nat → Parser → Prop) :
  ok st → c < current_ st → blockDepth_ st < maxBlockDepth →
  (∀ l s, moved (set_blockDepth S st) s → nodes_in (tree s) (flat_map (λ id, [NStmt id]) l) → Q l s) →
  runs (block_items tokens_ true (e_tailIf self) (e_statement self)) (set_blockDepth S st) Q.
Proof using Hended Hself.
  intros Ho Hc Hd HQ. pose proof (ok_blockDepth_S tokens_ st Ho Hd) as Ho1.
  apply block_items_spec; [done| | |].
  - intros s Hs. apply Hself; [apply Hs|]. destruct Hs. cbn in *. lia.
  - intros s Hs Hi. apply Hself; [apply Hs| |done]. destruct Hs. cbn in *. lia.
  - intros l s Hs Hl%statement_nodes_in. by apply HQ.
Qed.

Lemma matchArmBlock_spec st :
  ok st → c < current_ st →
  runs (matchArmBlock tokens_ self) st
    (λ r s, moved st s ∧ node_in (tree s) (NBlock r.1) ∧ nodes_in (tree s) (optional NExpr r.2) ∧
            (here st = TokenKind.LeftBrace → current_ st < current_ s)).
Proof using Hended Hself.
  intros Ho Hc. start Hm. unfold matchArmBlock. repeat straight. step.
  { step. visit skipNestedBlock_spec. step. split_and!; [done|done|constructor|ahead]. }
  step. apply runs_modify. step. apply items_below_spec; [done|lia|lia|].
  intros items s Hs Hl. pose proof (mv_ok _ _ _ Hs). do 2 step. step.
  apply take_value_spec; [done|done|]. intros l v Hl' Hv. apply runs_bind, runs_modify.
  leaving leave_blockDepth. step. add_node. step. split_and!; [done|done|done|ahead].
Qed.

Lemma expressionBlock_spec st :
  ok st → c < current_ st →
  runs (expressionBlock tokens_ self) st
    (λ r s, moved st s ∧ node_in (tree s) (NBlock r.1) ∧ node_in (tree s) (NExpr r.2)).
Proof using Hended Hself.
  intros Ho Hc. start Hm. unfold expressionBlock. repeat straight. step.
  { step. visit skipNestedBlock_spec. step. add_node. step. done. }
  step. apply runs_modify. step. apply items_below_spec; [done|lia|lia|].
  intros items s Hs Hl. pose proof (mv_ok _ _ _ Hs). do 2 step. step.
  apply take_value_spec; [done|done|]. intros l v Hl' Hv. step.
  eapply runs_mono with (R := λ id s', moved st'0 s' ∧ node_in (tree s') (NExpr id)).
  { start Hb. destruct v as [v|].
    - step. split; [done|]. apply nodes_in_cons in Hv as [Hv _]. exact Hv.
    - do 2 step. add_node. done. }
  clear Hv. arrive. apply runs_bind, runs_modify.
  leaving leave_blockDepth. step. add_node. step. done.
Qed.

Lemma ifExpression_spec start st :
  ok st → c < current_ st →
  runs (ifExpression tokens_ self start) st (λ id s, moved st s ∧ node_in (tree s) (NExpr id)).
Proof using Hended Hself.
  intros Ho Hc. start Hm. unfold ifExpression. step. visit condition_spec. step.
  visit expressionBlock_spec. unpair. repeat straight.
  visit expressionBlock_spec. unpair. add_node. done.
Qed.

(** ** Match expressions *)

Lemma match_pattern_spec st :
  ok st → c < current_ st →
  runs (match_pattern tokens_ self) st (λ r s, moved st s ∧ nodes_in (tree s) (optional NExpr r.2)).
Proof using Hended Hself.
  intros Ho Hc. start Hm. unfold match_pattern. step. step; step; [|step; split; [done|constructor]].
  repeat straight.
  eapply runs_mono with (R := λ r s, moved st' s ∧ nodes_in (tree s) (optional NExpr r.2)).
  { start Hb. step; step.
    - step. step. split; [done|constructor].
    - visit self_expression. step. split; [done|nodes]. cbn. nodes. }
  arrive. repeat straight. done.
Qed.

Lemma match_arm_spec st :
  ok st → c < current_ st → here st ≠ TokenKind.Eof →
  runs (match_arm tokens_ self) st
    (λ l s, moved st s ∧ current_ st < current_ s ∧ nodes_in (tree s) (flat_map arm_nodes l)).
Proof using Hended Hself.
  intros Ho Hc He. start Hm. unfold match_arm. repeat straight. visit match_pattern_spec.
  unpair. step.
  test. step.
  eapply runs_mono with (R := λ g s, moved st'1 s ∧ nodes_in (tree s) (optional NExpr g)).
  { start Hb'. step; step; [visit self_expression; step|]; split; try done; cbn; nodes. }
  arrive. repeat straight.
  eapply runs_mono with (R := λ r s, moved st'3 s ∧ current_ st < current_ s ∧
    node_in (tree s) (NBlock r.1) ∧ nodes_in (tree s) (optional NExpr r.2)).
  { start Hb'. step.
    - eapply runs_mono; [apply matchArmBlock_spec; [done|lia]|]. intros r s (? & ? & ? & Hp).
      split_and!; try done. specialize (Hp ltac:(assumption)). lia.
    - step. add_node. step. visit self_expression. step. split_and!; [done| |done|cbn; nodes].
      eapply (progress_from tokens_ st st'4); [done|lia|lia|done]. }
  arrive. unpair. step.
  split_and!; [done|lia|]. cbn. unfold arm_nodes. cbn. rewrite app_nil_r. nodes.
Qed.

Lemma matchExpression_spec start st :
  ok st → c < current_ st →
  runs (matchExpression tokens_ self start) st (λ id s, moved st s ∧ node_in (tree s) (NExpr id)).
Proof using Hended Hself.
  intros Ho Hc. start Hm. unfold matchExpression. step. visit self_expression. repeat straight.
  apply (until_brace_nodes tokens_ Hended arm_nodes); [done| |].
  { intros s Hs He _. apply match_arm_spec; [apply Hs| |done]. destruct Hs. lia. }
  intros arms s Hs Ha. absorb Hs. repeat straight. add_node. done.
Qed.

(** ** Closures *)

Lemma removed_capture_spec mode message st :
  ok st → 0 < current_ st → runs (removed_capture tokens_ mode message) st (λ _ s, moved st s).
Proof. intros Ho Hc. start Hm. unfold removed_capture. by repeat step. Qed.

Lemma capture_spec st : ok st → runs (capture tokens_) st (λ _ s, moved st s).
Proof using Hended.
  intros Ho. start Hm. unfold capture, capture_mode_syntax. repeat straight.
  eapply runs_mono with (R := λ _ s, moved st s).
  { apply (match_cases_spec tokens_ Hended); [done| |by step].
    cases; [by repeat step|by repeat step|..].
    all: visit removed_capture_spec; done. }
  arrive. unpair. by repeat step.
Qed.

Lemma capture_list_spec st : ok st → runs (capture_list tokens_) st (λ _ s, moved st s).
Proof using Hended.
  intros Ho. start Hm. unfold capture_list. step. step; step; [|by step].
  repeat straight. eapply runs_mono; [apply (comma_moves tokens_ Hended); [done|]|].
  { intros s Hs. apply capture_spec, Hs. }
  arrive. by repeat step.
Qed.

Lemma functionExpression_spec start st :
  ok st → c < current_ st →
  runs (functionExpression tokens_ target_ self start) st (λ id s, moved st s ∧ node_in (tree s) (NExpr id)).
Proof using Hended Hself.
  intros Ho Hc. start Hm. unfold functionExpression. repeat straight.
  apply (comma_unless_nodes tokens_ Hended parameter_nodes); [done| |].
  { intros s Hs. apply parameter_spec; [apply Hs|]. destruct Hs. lia. }
  intros parameters s Hs Hp. absorb Hs. repeat straight.
  eapply runs_mono with (R := λ _ s', moved st'0 s').
  { apply runs_if; intros _; [start Hb; by step|by apply (parseType_spec tokens_ Hended)]. }
  arrive. step. visit capture_list_spec. step. visit (eo_block _ _ _ Hself). do 2 step. step.
  add_node. add_node. done.
Qed.

(** ** [primary] *)

Lemma integer_literal_spec st :
  ok st → 0 < current_ st → runs (integer_literal tokens_) st (λ id s, moved st s ∧ node_in (tree s) (NExpr id)).
Proof.
  intros Ho Hc. start Hm. unfold integer_literal. repeat straight. destruct (from_chars _) as [m valid].
  step. eapply runs_mono with (R := λ _ s, moved st s); [by repeat step|]. clear Hm. start Hm. arrive. add_node. done.
Qed.
Lemma floating_literal_spec st :
  ok st → 0 < current_ st →
  runs (floating_literal tokens_ parseFloating) st (λ id s, moved st s ∧ node_in (tree s) (NExpr id)).
Proof.
  intros Ho Hc. start Hm. unfold floating_literal. repeat straight.
  eapply runs_mono with (R := λ _ s, moved st s); [by repeat step|]. clear Hm. start Hm. arrive. add_node. done.
Qed.

Lemma struct_literal_follows_spec st (Q : bool → Parser → Prop) :
  ok st → (∀ b : bool, (b = true → here st = TokenKind.LeftBrace) → Q b st) →
  runs (struct_literal_follows tokens_) st Q.
Proof using Hended.
  intros Ho HQ. unfold struct_literal_follows. repeat straight. apply HQ. intros E. by conditions.
Qed.

(** Behind an identifier; a generic type is parsed again from it. *)
Lemma name_primary_spec st :
  ok st → c ≤ current_ st → here st = TokenKind.Identifier →
  runs (name_primary tokens_ self) (set_current S st) (λ id s, moved (set_current S st) s ∧ node_in (tree s) (NExpr id)).
Proof using Hended Hself.
  intros Ho Hc Hi. pose proof (moved_next tokens_ Hended st Ho ltac:(congruence)) as Hn.
  pose proof (mv_ok _ _ _ Hn) as Hon. assert (c < current_ (set_current S st)) by (cbn; lia).
  unfold name_primary. repeat straight.
  eapply runs_mono with (R := λ _ s, moved (set_current S st) s).
  { apply runs_if; intros _.
    - apply runs_bind, runs_modify.
      assert (set_current Init.Nat.pred (set_current S st) = st) as -> by (by destruct st).
      eapply runs_mono; [by apply (parseType_progress tokens_ Hended)|]. intros type s [Hs Hp].
      specialize (Hp Hi). destruct Hs as [? ? ? ?]. split; [done|cbn; lia|done|done].
    - step. by apply moved_refl. }
  clear Hn. start Hm. remember (set_current S st) as s0 eqn:E0. clear E0. arrive. step. step.
  - eapply runs_mono; [apply finishCall_spec; [done|lia]|]. arrive. done.
  - step. apply struct_literal_follows_spec; [done|]. intros [] Hb.
    + step. specialize (Hb eq_refl). step. visit finishStruct_spec. done.
    + add_node. done.
Qed.

(** A body behind its keyword gives an expression and has passed a token. *)
Lemma keyword_body (m : P nat) st s :
  moved st s → current_ s = S (current_ st) →
  runs m s (λ id s', moved s s' ∧ node_in (tree s') (NExpr id)) → runs m s (gives_expression st).
Proof.
  intros Hm Hc Hr. eapply runs_mono; [exact Hr|]. cbn beta. intros id s' [Hs Hid]. split_and!; [by eapply moved_trans|done|].
  destruct Hs. intros _. lia.
Qed.

Lemma primary_head_spec st :
  ok st → c ≤ current_ st → runs (primary_head tokens_ target_ parseFloating self) st (gives_expression st).
Proof using Hended Hself.
  intros Ho Hc. unfold primary_head. apply (match_cases_spec tokens_ Hended); [done| |].
  - cases; (eapply keyword_body; [eassumption|assumption|]);
      match goal with Hm : moved st ?s |- _ => clear Hm; start Hm' end.
    + apply integer_literal_spec; [done|lia].
    + apply floating_literal_spec; [done|lia].
    + repeat straight. add_node. done.
    + repeat straight. add_node. done.
    + repeat straight. add_node. done.
    + repeat straight. apply finishArray_spec; [done|lia].
    + repeat straight. apply matchExpression_spec; [done|lia].
    + repeat straight. apply ifExpression_spec; [done|lia].
    + repeat straight. apply functionExpression_spec; [done|lia].
    + repeat straight. apply replaceExpression_spec; [done|lia].
    + apply finishMember_spec; [done|lia|constructor].
    + subst. apply name_primary_spec; [done|lia|done].
    + step. visit self_expression. by repeat step.
  - start Hm. repeat straight. apply (skip_unless_end_spec tokens_ Hended); [done|].
    intros s Hs Hp. absorb Hs. add_node. keep.
Qed.

Lemma primary_suffixes_spec id st :
  ok st → c ≤ current_ st → node_in (tree st) (NExpr id) →
  runs (primary_suffixes tokens_ self id) st (λ id s, moved st s ∧ node_in (tree s) (NExpr id)).
Proof using Hended Hself.
  intros Ho Hc Hid. unfold primary_suffixes.
  apply (turns_loop_spec tokens_ (λ id s, moved st s ∧ node_in (tree s) (NExpr id)));
    [intros ? ? [H _]; apply H| |split; [by apply moved_refl|done]].
  clear id Hid. intros id s [Hm Hid]. pose proof (mv_ok _ _ _ Hm) as Hos. pose proof (mv_current _ _ _ Hm).
  repeat straight. step; [by step|].
  apply (match_cases_spec tokens_ Hended); [done| |by step].
  cases; match goal with Hn : moved s ?s' |- _ => absorb Hn end.
  - step. eapply runs_mono; [apply finishMember_spec; [done|lia|cbn; nodes]|]. arrive. step. split; [done|lia].
  - repeat straight. visit self_expression. repeat straight. add_node. step. split; [done|lia].
Qed.

Lemma primary_spec st :
  ok st → c ≤ current_ st → runs (primary tokens_ target_ parseFloating self) st (gives_expression st).
Proof using Hended Hself.
  intros Ho Hc. start Hm. unfold primary. step.
  eapply runs_mono; [by apply primary_head_spec|].
  arrive. step. visit primary_suffixes_spec. step. apply struct_literal_follows_spec; [done|].
  intros [] Hb; step; [|by step; keep]. specialize (Hb eq_refl). do 2 step. destruct (member_type _ _) as [type|].
  - do 2 step. visit finishStruct_spec. keep.
  - step. keep.
Qed.

(** ** [unary] *)

Lemma prefixed_spec build st :
  ok st → c < current_ st → (∀ id, expression_nodes (build id) = [NExpr id]) →
  runs (prefixed tokens_ self build) st (λ id s, moved st s ∧ node_in (tree s) (NExpr id)).
Proof using Hself.
  intros Ho Hc Hb. start Hm. unfold prefixed. repeat straight. visit (eo_unary _ _ _ Hself).
  add_node; [rewrite Hb; nodes|]. done.
Qed.

Lemma negated_spec st :
  ok st → c < current_ st →
  runs (negated tokens_ self) st (λ id s, moved st s ∧ node_in (tree s) (NExpr id)).
Proof using Hself.
  intros Ho Hc. start Hm. unfold negated. repeat straight. visit (eo_unary _ _ _ Hself). step.
  apply expression_at_spec; [done|]. intros e _.
  add_node; [destruct (expr_value e); cbn; nodes|]. done.
Qed.

Lemma qualified_operand_spec st :
  ok st → c ≤ current_ st → here st ≠ TokenKind.Eof →
  runs (qualified_operand tokens_ self) st (gives_expression st).
Proof using Hended Hself.
  intros Ho Hc He. start Hm. unfold qualified_operand. repeat straight.
  eapply runs_mono with (R := λ _ s, moved st' s).
  { start Hb. repeat step; done. }
  arrive. step. visit (eo_unary _ _ _ Hself). add_node. keep.
Qed.

Lemma unary_spec st :
  ok st → c ≤ current_ st → runs (unary tokens_ target_ parseFloating self) st (gives_expression st).
Proof using Hended Hself.
  intros Ho Hc. start Hm. unfold unary. step. step. step. step.
  - repeat straight. apply (skip_unless_end_spec tokens_ Hended); [done|].
    intros s Hs Hp. absorb Hs. add_node. keep.
  - step. apply runs_modify. pose proof (ok_expressionDepth_S tokens_ st Ho ltac:(lia)) as Ho1.
    assert (c ≤ current_ (set_expressionDepth S st)) as Hc1 by done. step.
    eapply (runs_mono _ _ _ (gives_expression (set_expressionDepth S st))).
    + apply (match_cases_spec tokens_ Hended); [done| |].
      * unfold unary_operators.
        cases; (eapply keyword_body; [eassumption|assumption|]);
          match goal with Hn : current_ ?s = S _ |- runs _ ?s _ => cbn in Hn end.
        { apply negated_spec; [done|lia]. }
        all: apply prefixed_spec; [done|lia|done].
      * start Hb. repeat straight. step.
        -- apply qualified_operand_spec; [done|done|]. intros E. rewrite E in *. done.
        -- by apply primary_spec.
    + intros id s (Hs & Hid & Hp). step. apply runs_modify, runs_ret. split_and!; [|done|exact Hp].
      by apply leave_expressionDepth.
Qed.

(** ** The binary levels *)

Definition operator_ok (operator : P (option BinaryOperator.t)) : Prop :=
  ∀ s, ok s → runs operator s (λ o s', moved s s' ∧ (o ≠ None → current_ s < current_ s')).
Definition operand_ok (operand : P nat) : Prop :=
  ∀ s, ok s → c ≤ current_ s → runs operand s (gives_expression s).

Lemma operator_token_spec operators :
  Forall (λ o, o.1 ≠ TokenKind.Eof) operators → operator_ok (operator_token tokens_ operators).
Proof using Hended.
  intros Hk s Ho. start Hm. induction Hk as [|[k o] operators Hk Hks IH]; cbn in *.
  - by split.
  - step. apply (match_moves tokens_ Hended); [done|done| |].
    + intros s' Hs Hc _. apply runs_ret. split; [done|lia].
    + intros _. exact IH.
Qed.

Lemma binary_level_spec operand operator :
  operand_ok operand → operator_ok operator → operand_ok (binary_level tokens_ operand operator).
Proof using Hended.
  intros Hx Hop st Ho Hc. start Hm. unfold binary_level. step. eapply runs_mono; [by apply Hx|]. arrive.
  eapply (turns_loop_spec tokens_ (λ id s, moved st s ∧ node_in (tree s) (NExpr id) ∧
     (here st ≠ TokenKind.Eof → current_ st < current_ s))); [intros ? ? [Hs _]; apply Hs| |done].
  intros id s (Hs & Hid & Hp). pose proof (mv_ok _ _ _ Hs) as Hos. pose proof (mv_current _ _ _ Hs).
  repeat straight. step; [by step|]. step.
  eapply runs_mono; [by apply Hop|]. arrive.
  match goal with o : option BinaryOperator.t |- _ => destruct o as [operation|] end; [|step; keep].
  match goal with Hn : Some _ ≠ None → _ |- _ => specialize (Hn ltac:(discriminate)) end.
  step. eapply runs_mono; [apply Hx; [done|lia]|]. arrive. step. apply expression_at_spec; [done|]. intros e _.
  step. add_node. step. split; [|lia]. split_and!; [done|done|lia].
Qed.

Lemma unary_ok : operand_ok (unary tokens_ target_ parseFloating self).
Proof using Hended Hself. intros s. apply unary_spec. Qed.

Lemma shift_operator_spec : operator_ok (shift_operator tokens_).
Proof using Hended.
  intros s Ho. start Hm. unfold shift_operator. repeat straight.
  destruct (shift_pair _ _) as [operation|] eqn:E; [|by step].
  assert (here s ≠ TokenKind.Eof).
  { intros He. unfold shift_pair in E. change (tok_kind (token_at tokens_ (current_ s))) with (here s) in E.
    by rewrite He in E. }
  step; [by step|]. repeat straight. split; [done|lia].
Qed.

Lemma comparison_operator_spec : operator_ok (comparison_operator tokens_).
Proof using Hended.
  intros s Ho. start Hm. unfold comparison_operator, shiftAssignment. repeat straight. step; [by step|].
  apply operator_token_spec; [|done]. by repeat constructor.
Qed.

Lemma logicalOr_spec : operand_ok (logicalOr tokens_ target_ parseFloating self).
Proof using Hended Hself.
  assert (∀ operand operators, operand_ok operand → Forall (λ o, o.1 ≠ TokenKind.Eof) operators →
    operand_ok (binary_level tokens_ operand (operator_token tokens_ operators))) as H.
  { intros operand operators Hx Hk. apply binary_level_spec; [done|by apply operator_token_spec]. }
  unfold logicalOr, logicalAnd, bitwiseOr, bitwiseXor, bitwiseAnd, equality.
  do 6 (apply H; [|by repeat constructor]).
  apply binary_level_spec; [|apply comparison_operator_spec].
  apply binary_level_spec; [|apply shift_operator_spec].
  do 2 (apply H; [|by repeat constructor]). apply unary_ok.
Qed.

Lemma conditional_spec st :
  ok st → c ≤ current_ st → runs (conditional tokens_ target_ parseFloating self) st (gives_expression st).
Proof using Hended Hself.
  intros Ho Hc. start Hm. unfold conditional. step. eapply runs_mono; [by apply logicalOr_spec|]. arrive.
  repeat straight.
  eapply runs_mono with (R := λ b s, moved st' s ∧ (b = true → current_ st' < current_ s)).
  { start Hb'. step; [|by step]. apply (match_test tokens_ Hended); [done|done|].
    intros b' s Hs Hb. split; [done|]. naive_solver. }
  arrive. destruct a0; step; [|step; keep].
  match goal with Hn : true = true → _ |- _ => specialize (Hn eq_refl) end.
  repeat straight. eapply runs_mono; [apply logicalOr_spec; [done|lia]|]. arrive. repeat straight.
  visit (eo_conditional _ _ _ Hself). step. add_node. step. add_node. add_node. keep.
Qed.

Lemma expression_spec st :
  ok st → c ≤ current_ st → runs (expression tokens_ target_ parseFloating self) st (gives_expression st).
Proof using Hended Hself.
  intros Ho Hc. start Hm. unfold expression. step. step. step.
  eapply runs_mono with (R := λ _ s, moved st s ∧ here s = here st).
  { step; [apply runs_modify|by step]. split; [|done]. destruct Ho. by repeat split. }
  cbn beta. intros _ s [Hs Hh]. step. apply runs_modify. pose proof (mv_ok _ _ _ Hs) as Hos.
  pose proof (ok_expressionCalls_S tokens_ s Hos) as Ho1. step.
  eapply runs_mono; [apply conditional_spec; [done|]|].
  { destruct Hs. cbn. lia. }
  intros id s' (Hs' & Hid & Hp). step. apply runs_modify, runs_ret.
  apply (leave_expressionCalls tokens_) in Hs'; [|done]. split_and!; [by eapply moved_trans|done|].
  intros He. rewrite <- Hh in He. specialize (Hp He). destruct Hs. cbn in *. lia.
Qed.

End expressions.
