(* ===== verification/StatementProofs.v ===== *)
(** * Statements and blocks are parsed safely

    The specifications of ParserStatements.v, the recursion through [entries] and
    the theorems about it. *)
From S2P Require Import Prelude Target Diagnostics Token Ast AstGraph ParserState ParserTypes ParserExpressions ParserStatements ParserSpec ParserSafety ParserProofs.

(** A statement is added behind those of an earlier state. *)
Lemma addStatement_from tokens_ base v span st (Q : nat → Parser → Prop) :
  moved tokens_ base st → nodes_in (tree st) (statement_nodes v) →
  (∀ id st', moved tokens_ base st' → ok tokens_ st' → current_ st' = current_ st → node_in (tree st') (NStmt id) →
     length (ar_statements (tree base)) ≤ id → Q id st') →
  runs (addStatement v span) st Q.
Proof.
  intros Hm Hv HQ. eapply addStatement_spec; [apply Hm|done|]. intros id st' Hs Hc Hid Hl.
  apply HQ; [by eapply moved_trans|apply Hs|done|done|].
  pose proof (extends_statements _ _ _ Hm). lia.
Qed.

Ltac add_statement :=
  match goal with Hm : moved ?t ?base ?s |- runs (addStatement _ _) ?s _ =>
    apply (addStatement_from t base _ _ s _ Hm); [cbn; nodes|clear Hm; intros ? ? Hm ? ? ? ?]
  end; cbn beta iota.

(** Statements of an earlier state are statements of the current one. *)
Ltac earlier_statements :=
  match goal with Hn : moved _ _ ?s |- runs _ ?s _ => pose proof (extends_statements _ _ _ Hn) end.

Section statements.
Context (tokens_ : list Token) (Hended : ended tokens_) (target_ : TargetPlatform).
Context (parseFloating : bytes → bool) (self : Entries) (c : nat) (Hself : entries_ok tokens_ self c).
Local Abbreviation ok := (ok tokens_).
Local Abbreviation moved := (moved tokens_).
Local Abbreviation here := (here tokens_).
Local Abbreviation gives_expression := (gives_expression tokens_).
Local Abbreviation gives_statement := (gives_statement tokens_).
Local Abbreviation gives_block := (gives_block tokens_).

Local Abbreviation adds_statement := (adds_statement tokens_).

Lemma self_expression_ok st : ok st → c < current_ st → runs (e_expression self) st (gives_expression st).
Proof using Hself. apply Hself. Qed.
Lemma self_block tail st : ok st → c < current_ st → runs (e_block self tail) st (gives_block st).
Proof using Hself. apply Hself. Qed.

Lemma pattern_field_spec st :
  ok st → here st ≠ TokenKind.Eof →
  runs (pattern_field tokens_) st (λ l s, moved st s ∧ current_ st < current_ s ∧ nodes_in (tree s) (flat_map (λ _, []) l)).
Proof using Hended.
  intros Ho He. start Hm. unfold pattern_field. step. step. step.
  - repeat step. split_and!; [done|ahead|constructor].
  - step. apply (expect_spec tokens_ Hended); [done|done|]. intros t s Hs Hp. absorb Hs. step. test. step.
    eapply runs_mono with (R := λ _ s', moved st' s').
    { start Hb'. by repeat step. }
    arrive. step. test. step. split_and!; [done|ahead|cbn; constructor].
Qed.

Lemma structDestructure_spec start st :
  ok st → c < current_ st → runs (structDestructureStatement tokens_ self start) st (adds_statement st).
Proof using Hended Hself.
  intros Ho Hc. start Hm. unfold structDestructureStatement. step.
  apply (qualifiedName_spec tokens_ Hended); [done|by left|]. intros [name span] s Hs _. absorb Hs.
  repeat straight. eapply (until_brace_nodes tokens_ Hended (λ _, [])); [done| |].
  { intros s' Hs' He _. apply pattern_field_spec; [apply Hs'|done]. }
  intros fields s' Hs' _. absorb Hs'. repeat straight. visit self_expression_ok. add_statement. done.
Qed.

Lemma error_binding_spec code st : ok st → runs (error_binding tokens_ code) st (λ _ s, moved st s).
Proof using Hended. intros Ho. start Hm. unfold error_binding. by repeat step. Qed.

Lemma variable_else_spec start mutable st :
  ok st → c ≤ current_ st →
  runs (variable_else tokens_ self start mutable) st (λ r s, moved st s ∧ nodes_in (tree s) (optional NBlock r.2)).
Proof using Hended Hself.
  intros Ho Hc. start Hm. unfold variable_else. step. step; step.
  - step. eapply runs_mono with (R := λ _ s', moved st' s').
    { start Hb'. by repeat step. }
    arrive. step. visit error_binding_spec. step. visit self_block. step. split; [done|]. cbn. nodes.
  - step. split; [done|constructor].
Qed.

Lemma variableStatement_spec start mutable st :
  ok st → c < current_ st → runs (variableStatement tokens_ self start mutable) st (adds_statement st).
Proof using Hended Hself.
  intros Ho Hc. start Hm. unfold variableStatement. repeat straight.
  eapply runs_mono with (R := λ _ s', moved st' s').
  { start Hb'. step; step; [done|]. visit (parseType_spec tokens_ Hended). by step. }
  arrive. repeat straight. visit self_expression_ok. step. visit variable_else_spec. unpair. add_statement. done.
Qed.

Lemma value_follows_spec start st (Q : bool → Parser → Prop) :
  ok st → (∀ b, Q b st) → runs (value_follows tokens_ start) st Q.
Proof. intros Ho HQ. unfold value_follows. repeat straight. apply HQ. Qed.

Lemma returnStatement_spec start st :
  ok st → c < current_ st → runs (returnStatement tokens_ self start) st (adds_statement st).
Proof using Hself.
  intros Ho Hc. start Hm. unfold returnStatement. step. apply value_follows_spec; [done|]. intros b. step.
  eapply runs_mono with (R := λ v s', moved st s' ∧ nodes_in (tree s') (optional NExpr v)).
  { step; [step; visit self_expression_ok; step|step]; (split; [done|cbn; nodes]). }
  clear Hm. start Hm. arrive. add_statement. done.
Qed.

Lemma discardStatement_spec start st :
  ok st → c < current_ st → runs (discardStatement self start) st (adds_statement st).
Proof using Hself.
  intros Ho Hc. start Hm. unfold discardStatement. step. visit self_expression_ok. add_statement. done.
Qed.

Lemma loopJumpStatement_spec start continues st :
  ok st → runs (loopJumpStatement tokens_ start continues) st (adds_statement st).
Proof.
  intros Ho. start Hm. unfold loopJumpStatement. step. apply value_follows_spec; [done|]. intros b. repeat straight.
  eapply runs_mono with (R := λ _ s', moved st s').
  { by repeat step. }
  clear Hm. start Hm. arrive. destruct continues; add_statement; done.
Qed.

(** ** Conditionals and loops *)

Lemma guarded_jump_spec st :
  ok st → c < current_ st →
  runs (guarded_jump tokens_ self) st
    (λ r s, moved st s ∧ node_in (tree s) (NStmt r.1) ∧ length (ar_statements (tree st)) ≤ r.1).
Proof using Hended Hself.
  intros Ho Hc. start Hm. unfold guarded_jump. apply (match_cases_spec tokens_ Hended); [done| |].
  - cases; match goal with Hn : moved st ?s |- runs _ ?s _ => pose proof (extends_statements _ _ _ Hn); absorb Hn end.
    all: repeat straight; visit loopJumpStatement_spec; step; cbn [fst snd]; split_and!; [done|done|lia].
  - repeat straight. earlier_statements. visit returnStatement_spec.
    step. cbn [fst snd]. split_and!; [done|done|lia].
Qed.

Lemma short_if_spec start test st :
  ok st → c < current_ st → node_in (tree st) (NExpr test) →
  runs (short_if tokens_ self start test) st (adds_statement st).
Proof using Hended Hself.
  intros Ho Hc Ht. start Hm. unfold short_if. repeat straight.
  eapply runs_mono with (R := λ _ s', moved st s').
  { by repeat step. }
  clear Hm. start Hm. arrive. step. visit guarded_jump_spec. unpair. step.
  eapply push_block_spec; [done|unfold block_nodes; cbn; nodes|]. intros block s9 Hs _ Hb. absorb Hs.
  add_statement. done.
Qed.

Lemma ifStatement_spec start st :
  ok st → c < current_ st → runs (ifStatement tokens_ self start) st (adds_statement st).
Proof using Hended Hself.
  intros Ho Hc. start Hm. unfold ifStatement. step. visit (condition_spec tokens_ self c Hself).
  earlier_statements.
  repeat straight. step.
  - eapply runs_mono; [apply short_if_spec; [done|lia|done]|]. intros id s (Hs & Hid & Hl'). absorb Hs.
    split_and!; [done|done|lia].
  - step. visit self_block. step. test. step.
    eapply runs_mono with (R := λ b s', moved st'1 s' ∧ nodes_in (tree s') (optional NBlock b)).
    { start Hb'. step; [step; visit self_block; step|step]; (split; [done|cbn; nodes]). }
    arrive. add_statement. done.
Qed.

Lemma whileStatement_spec start st :
  ok st → c < current_ st → runs (whileStatement self start) st (adds_statement st).
Proof using Hself.
  intros Ho Hc. start Hm. unfold whileStatement. step. visit (condition_spec tokens_ self c Hself). step.
  visit self_block. add_statement. done.
Qed.

Lemma for_bindings_spec st : ok st → runs (for_bindings tokens_) st (λ _ s, moved st s).
Proof using Hended.
  intros Ho. start Hm. unfold for_bindings. step. test. repeat straight. test. step; [by step|]. step.
  quiet; [by repeat step|]. step. test. by repeat straight.
Qed.

Lemma forStatement_spec start st :
  ok st → c < current_ st → runs (forStatement tokens_ self start) st (adds_statement st).
Proof using Hended Hself.
  intros Ho Hc. start Hm. unfold forStatement. step. visit for_bindings_spec. unpair. repeat straight.
  visit (condition_spec tokens_ self c Hself). step. visit self_block. add_statement. done.
Qed.

Lemma unsafeStatement_spec start st :
  ok st → c < current_ st → runs (unsafeStatement self start) st (adds_statement st).
Proof using Hself.
  intros Ho Hc. start Hm. unfold unsafeStatement. step. visit self_block. add_statement. done.
Qed.

(** ** [select] *)

Lemma selectArmBlock_spec st :
  ok st → c < current_ st → runs (selectArmBlock tokens_ self) st (gives_block st).
Proof using Hended Hself.
  intros Ho Hc. start Hm. unfold selectArmBlock. step. step. step.
  - by apply self_block.
  - repeat straight. visit (eo_statement _ _ _ Hself). eapply push_block_spec; [done|unfold block_nodes; cbn; nodes|].
    intros block s9 Hs _ Hb. absorb Hs. by split.
Qed.

Lemma literal_duration_spec st :
  ok st → here st = TokenKind.Integer → runs (literal_duration tokens_) st (λ _ s, moved st s).
Proof using Hended.
  intros Ho Hi. start Hm. unfold literal_duration. repeat straight. destruct (from_chars _) as [magnitude valid].
  step. quiet; [by repeat step|]. step. quiet.
  { destruct (duration_multiplier _); by step. }
  destruct (duration_nanoseconds _ _) as [nanoseconds fits]. step. quiet; [by repeat step|]. by step.
Qed.

Definition arms_nodes (a : SelectArms) : list Node :=
  flat_map operation_nodes (sa_operations a) ++ timeout_nodes (sa_timeout a) ++
  optional NBlock (snd <$> sa_error a).
Definition gives_arms (st : Parser) (a : SelectArms) (s : Parser) : Prop :=
  moved st s ∧ nodes_in (tree s) (arms_nodes a).

Lemma timeout_arm_spec arms st :
  ok st → c < current_ st → nodes_in (tree st) (arms_nodes arms) →
  runs (timeout_arm tokens_ self arms) st (gives_arms st).
Proof using Hended Hself.
  intros Ho Hc Ha. start Hm. unfold timeout_arm. repeat straight.
  eapply (runs_mono _ _ _ (λ r s', moved st s' ∧ nodes_in (tree s') (optional NExpr r.2))).
  { step; step.
    - visit literal_duration_spec. step. split; [done|constructor].
    - visit self_expression_ok. step. split; [done|cbn; nodes]. }
  clear Hm. start Hm. arrive. unpair. repeat straight. visit selectArmBlock_spec.
  destruct arms as [operations [timeout|] error]; cbn [sa_timeout] in *.
  - repeat straight. by split.
  - step. split; [done|]. unfold arms_nodes in *. cbn [sa_operations sa_timeout sa_error timeout_nodes] in *.
    repeat rewrite nodes_in_app in *. cbn. repeat rewrite nodes_in_cons in *. naive_solver.
Qed.

Lemma error_arm_spec arms st :
  ok st → c < current_ st → nodes_in (tree st) (arms_nodes arms) →
  runs (error_arm tokens_ self arms) st (gives_arms st).
Proof using Hended Hself.
  intros Ho Hc Ha. start Hm. unfold error_arm. repeat straight. visit selectArmBlock_spec.
  destruct arms as [operations timeout [error|]]; cbn [sa_error] in *.
  - repeat straight. by split.
  - step. split; [done|]. unfold arms_nodes in *. cbn [sa_operations sa_timeout sa_error] in *.
    repeat rewrite nodes_in_app in *. cbn. repeat rewrite nodes_in_cons in *. naive_solver.
Qed.

Lemma operation_arm_spec arms st :
  ok st → c < current_ st → here st ≠ TokenKind.Eof → nodes_in (tree st) (arms_nodes arms) →
  runs (operation_arm tokens_ self arms) st (λ a s, gives_arms st a s ∧ current_ st < current_ s).
Proof using Hended Hself.
  intros Ho Hc He Ha. start Hm. unfold operation_arm. repeat straight. test. step. quiet.
  { step; repeat straight; done. }
  unpair. step. eapply runs_mono; [apply self_expression_ok; [done|lia]|]. arrive. repeat straight.
  visit selectArmBlock_spec. step. split; [|]. 
  - split; [done|]. destruct arms as [operations timeout error]. unfold arms_nodes in *.
    cbn [sa_operations sa_timeout sa_error] in *. repeat rewrite nodes_in_app in *. rewrite nodes_in_snoc.
    unfold operation_nodes. cbn [so_operation so_body]. repeat rewrite nodes_in_cons. 
    split_and!; (done || constructor || naive_solver).
  - match goal with Hp : here ?s ≠ TokenKind.Eof → current_ ?s < current_ ?s' |- _ =>
      pose proof (progress_from tokens_ st s s' He ltac:(lia) ltac:(lia) Hp) end. lia.
Qed.

Lemma select_arms_spec st :
  ok st → c < current_ st → runs (select_arms tokens_ self) st (gives_arms st).
Proof using Hended Hself.
  intros Ho Hc. unfold select_arms. apply (turns_loop_spec tokens_ (gives_arms st));
    [intros ? ? [H _]; apply H| |split; [by apply moved_refl|constructor]].
  intros arms s [Hm Ha]. pose proof (mv_ok _ _ _ Hm) as Hos. pose proof (mv_current _ _ _ Hm).
  repeat straight. apply runs_if; intros E; [by step|].
  apply orb_false_iff in E as [_ E]. conditions. step.
  eapply (runs_mono _ _ _ (λ a s', gives_arms s a s' ∧ current_ s < current_ s')).
  - apply (match_cases_spec tokens_ Hended); [done| |apply operation_arm_spec; (done || lia)].
    cases; match goal with Hn : moved s ?s' |- _ => pose proof (nodes_in_extends _ _ _ (mv_tree _ _ _ Hn) Ha) end.
    + eapply runs_mono; [apply timeout_arm_spec; [done|lia|done]|]. intros a s' [Hs' Hn].
      split; [split; [by eapply moved_trans|done]|]. destruct Hs'. lia.
    + eapply runs_mono; [apply error_arm_spec; [done|lia|done]|]. intros a s' [Hs' Hn].
      split; [split; [by eapply moved_trans|done]|]. destruct Hs'. lia.
  - intros a s' [[Hs' Hn] Hc']. step. split; [|done]. split; [by eapply moved_trans|done].
Qed.

Lemma selectStatement_spec start st :
  ok st → c < current_ st → runs (selectStatement tokens_ self start) st (adds_statement st).
Proof using Hended Hself.
  intros Ho Hc. start Hm. unfold selectStatement. repeat straight.
  eapply runs_mono; [apply select_arms_spec; [done|lia]|]. intros arms s [Hs Ha]. absorb Hs. repeat straight.
  quiet; [by repeat step|]. step.
  unfold arms_nodes in Ha. apply nodes_in_app in Ha as [Ha1 [Ha2 Ha3]%nodes_in_app].
  eapply (runs_mono _ _ _ (λ r s', moved st s' ∧ nodes_in (tree s') (flat_map operation_nodes (sa_operations arms)) ∧
    nodes_in (tree s') (timeout_nodes (sa_timeout arms)) ∧ node_in (tree s') (NBlock r.2))).
  { destruct (sa_error arms) as [handler|].
    - step. cbn in Ha3. apply nodes_in_cons in Ha3 as [Ha3 _]. by split_and!.
    - do 2 step. step. add_node. step. split_and!; done. }
  clear Ha1 Ha2 Ha3 Hm. start Hm. intros [binding block] s9 (Hs & H1' & H2' & H3'). cbn [fst snd] in H3'.
  apply (addStatement_from tokens_ st _ _ s9 _ Hs); [cbn; nodes|]. intros. done.
Qed.

(** ** Expression statements *)

Lemma shift_assignment_spec st :
  ok st → runs (shift_assignment tokens_) st (λ o s, moved st s ∧ (o ≠ None → current_ st < current_ s)).
Proof using Hended.
  intros Ho. start Hm. unfold shift_assignment. repeat straight. step; [|by step].
  destruct (shift_pair _ _) as [operation|] eqn:E; [|by step].
  assert (here st ≠ TokenKind.Eof).
  { intros He. unfold shift_pair in E. change (tok_kind (token_at tokens_ (current_ st))) with (here st) in E.
    by rewrite He in E. }
  repeat straight. split; [done|lia].
Qed.

Lemma assignment_operator_spec st :
  ok st → runs (assignment_operator tokens_) st (λ o s, moved st s ∧ (o ≠ None → current_ st < current_ s)).
Proof using Hended.
  intros Ho. unfold assignment_operator. apply (match_cases_spec tokens_ Hended); [done| |by apply shift_assignment_spec].
  cases; step; split; try done; lia.
Qed.

Lemma expressionStatement_spec st :
  ok st → c ≤ current_ st → runs (expressionStatement tokens_ target_ parseFloating self) st (gives_statement st).
Proof using Hended Hself.
  intros Ho Hc. start Hm. unfold expressionStatement. repeat straight.
  eapply runs_mono; [by apply (expression_spec tokens_ Hended target_ parseFloating self c Hself)|]. arrive.
  step. visit assignment_operator_spec.
  match goal with o : option AssignmentOperator.t |- _ => destruct o as [assignment|] end.
  - match goal with Hn : Some _ ≠ None → _ |- _ => specialize (Hn ltac:(discriminate)) end.
    step. visit self_expression_ok. add_statement. keep.
  - step. step; [step|].
    + visit error_binding_spec. step. visit self_block. add_statement. keep.
    + add_statement. keep.
Qed.

(** ** [statement] and [block] *)

(** A statement function behind a keyword. *)
Lemma keyword_statement (m : P nat) st s :
  moved st s → current_ st < current_ s → runs m s (adds_statement s) → runs m s (gives_statement st).
Proof.
  intros Hm Hc Hr. pose proof (extends_statements _ _ _ Hm). eapply runs_mono; [exact Hr|].
  intros id s' (Hs & Hid & Hl). split_and!; [by eapply moved_trans|done|lia|]. intros _. destruct Hs. lia.
Qed.

Lemma statement_spec st :
  ok st → c ≤ current_ st → runs (statement tokens_ target_ parseFloating self) st (gives_statement st).
Proof using Hended Hself.
  intros Ho Hc. start Hm. unfold statement. repeat straight. apply runs_if; intros E.
  - assert (here st ≠ TokenKind.Eof) by (intros He; by rewrite He in E). unfold const_statement.
    repeat straight. quiet; [by repeat step|]. do 2 step.
    match goal with Hn : moved st ?s |- runs _ ?s _ => apply (keyword_statement _ st s Hn); [lia|] end.
    step; [apply structDestructure_spec; [done|lia]|apply variableStatement_spec; [done|lia]].
  - apply (match_cases_spec tokens_ Hended); [done| |by apply expressionStatement_spec].
    unfold statement_keywords. cases;
      match goal with Hn : moved st ?s |- runs _ ?s _ => apply (keyword_statement _ st s Hn); [lia|]; clear Hn end;
      start Hm'; [unfold var_statement|..]; repeat straight.
    + match goal with Hn : current_ ?s = S _ |- runs _ ?s _ => assert (c < current_ s) by lia end. step.
      * step. eapply report_spec; [done|]. intros s' Hs Hc'. earlier_statements.
        eapply runs_mono; [apply structDestructure_spec; [apply Hs|lia]|]. intros id s9 (Hs9 & Hid & Hl).
        split_and!; [by eapply moved_trans|done|lia].
      * apply variableStatement_spec; done.
    + apply returnStatement_spec; [done|lia].
    + apply discardStatement_spec; [done|lia].
    + apply ifStatement_spec; [done|lia].
    + apply whileStatement_spec; [done|lia].
    + apply forStatement_spec; [done|lia].
    + by apply loopJumpStatement_spec.
    + by apply loopJumpStatement_spec.
    + apply selectStatement_spec; [done|lia].
    + apply unsafeStatement_spec; [done|lia].
Qed.

Lemma tail_if_statement_spec st :
  ok st → c ≤ current_ st → here st = TokenKind.If →
  runs (tail_if_statement tokens_ self) st (gives_statement st).
Proof using Hended Hself.
  intros Ho Hc Hi. start Hm. unfold tail_if_statement. repeat straight.
  visit (ifExpression_spec tokens_ Hended self c Hself). add_statement. keep.
Qed.

(** The result of a body replaces a statement of that body. *)
Lemma return_tail_spec base items st :
  moved base st → Forall (λ id, statement_from (length (ar_statements (tree base))) id (tree st)) items →
  runs (return_tail items) st (λ _ s, moved base s ∧
    Forall (λ id, statement_from (length (ar_statements (tree base))) id (tree s)) items).
Proof.
  intros Hm Hi. unfold return_tail. destruct (last items) as [id|] eqn:El; [|by step].
  assert (statement_from (length (ar_statements (tree base))) id (tree st)) as [Hid Hl].
  { rewrite Forall_forall in Hi. apply Hi. apply last_Some in El as [l' ->]. set_solver. }
  step. apply statement_at_spec; [done|]. intros s Hs.
  destruct (stmt_value s) eqn:Ev; try (by step). apply runs_modify. split.
  - destruct Hm as [Hos Hc He Hf]. split; [|done| |done].
    + destruct Hos as [? Hb ? ? ?]. split; try done. unfold tree, arena in *. cbn in *.
      apply built_tail; [done|]. rewrite Hs. f_equal. destruct s; cbn in *. by rewrite Ev.
    + destruct He as [H1 H2 H3 H4]. split; try done. cbn in *. destruct H2 as [k ->].
      rewrite insert_app_r_alt by lia. by apply prefix_app_r.
  - eapply Forall_impl; [exact Hi|]. intros i [Hin Hil]. split; [|done]. cbn in *. by rewrite length_insert.
Qed.

Lemma block_spec tail st :
  ok st → c ≤ current_ st → runs (block tokens_ target_ parseFloating self tail) st (gives_block st).
Proof using Hended Hself.
  intros Ho Hc. start Hm. unfold block. repeat straight. step.
  { do 2 step. visit (skipNestedBlock_spec tokens_ Hended). by split. }
  step. apply runs_modify. pose proof (ok_blockDepth_S tokens_ st' Ho0 ltac:(lia)) as Ho1. step.
  apply (block_items_spec tokens_ Hended); [done| | |].
  { intros s Hs. apply statement_spec; [apply Hs|]. destruct Hs. cbn in *. lia. }
  { intros s Hs Hi. apply tail_if_statement_spec; [apply Hs| |done]. destruct Hs. cbn in *. lia. }
  intros l s Hs Hl. pose proof (mv_ok _ _ _ Hs) as Hos. step.
  apply (expect_spec tokens_ Hended); [done|done|]. intros t0 s1 Hs1 _.
  assert (moved (set_blockDepth S st') s1) as Hm1 by (by eapply moved_trans).
  assert (Forall (λ id, statement_from (length (ar_statements (tree (set_blockDepth S st')))) id (tree s1)) l) as Hl1.
  { eapply stable_Forall; [apply stable_statement_from|apply Hs1|done]. }
  step. eapply (runs_mono _ _ _ (λ _ s, moved (set_blockDepth S st') s ∧
    Forall (λ id, statement_from (length (ar_statements (tree (set_blockDepth S st')))) id (tree s)) l)).
  { step; [by apply return_tail_spec|by step]. }
  intros _ s2 [Hm2 Hl2%statement_nodes_in]. step. apply runs_modify. pose proof (mv_ok _ _ _ Hm2).
  leaving leave_blockDepth. eapply push_block_spec; [side|done|].
  intros id s3 Hs3 _ Hid. absorb Hs3. by split.
Qed.

End statements.

(** ** The recursion *)
Section recursion.
Context (tokens_ : list Token) (Hended : ended tokens_) (target_ : TargetPlatform).
Context (parseFloating : bytes → bool).
Local Abbreviation entries := (entries tokens_ target_ parseFloating).

(** One unfolding keeps the promises of the entry points it calls. *)
Lemma unfold_entries_ok self c st :
  entries_ok tokens_ self c → ok tokens_ st → c ≤ current_ st →
  let p := unfold_entries tokens_ target_ parseFloating self in
  runs (e_expression p) st (gives_expression tokens_ st) ∧
  runs (e_conditional p) st (gives_expression tokens_ st) ∧
  runs (e_unary p) st (gives_expression tokens_ st) ∧
  runs (e_primary p) st (gives_expression tokens_ st) ∧
  runs (e_statement p) st (gives_statement tokens_ st) ∧
  (here tokens_ st = TokenKind.If → runs (e_tailIf p) st (gives_statement tokens_ st)) ∧
  ∀ tail, runs (e_block p tail) st (gives_block tokens_ st).
Proof using Hended.
  intros Hs Ho Hc p. cbn. split_and!.
  - by eapply expression_spec.
  - by eapply conditional_spec.
  - by eapply unary_spec.
  - by eapply primary_spec.
  - by eapply statement_spec.
  - intros Hi. by eapply tail_if_statement_spec.
  - intros tail. by eapply block_spec.
Qed.

(** The fuel suffices for the tokens behind [c]. *)
Lemma entries_spec fuel c : length tokens_ ≤ fuel + S c → entries_ok tokens_ (entries fuel) c.
Proof using Hended.
  revert c. induction fuel as [|fuel IH]; intros c Hf.
  - split; intros; exfalso; match goal with H : ok _ _ |- _ => destruct H end; lia.
  - assert (entries_ok tokens_ (entries fuel) (S c)) as Hs by (apply IH; lia).
    split; intros; eapply unfold_entries_ok; try done; lia.
Qed.

Lemma parser_entries_spec st :
  ok tokens_ st →
  let p := parser_entries tokens_ target_ parseFloating in
  runs (e_expression p) st (gives_expression tokens_ st) ∧
  runs (e_statement p) st (gives_statement tokens_ st) ∧
  ∀ tail, runs (e_block p tail) st (gives_block tokens_ st).
Proof using Hended.
  intros Ho p. subst p. unfold parser_entries.
  assert (∃ n, length tokens_ = S n) as [n En].
  { destruct Ho. destruct (length tokens_) as [|n]; [lia|eauto]. }
  rewrite En. cbn. edestruct (unfold_entries_ok (entries n) 0 st) as (H1 & _ & _ & _ & H2 & _ & H3); [|done|lia|done].
  apply entries_spec. lia.
Qed.
End recursion.
