(* ===== verification/DeclarationProofs.v ===== *)
(** * Declarations are parsed safely

    The specifications of ParserDeclarations.v and ParserMachines.v: every
    declaration is parsed from a state that satisfies the invariant to one that
    does, passes its first token and refers to nodes that exist. *)
From S2P Require Import Prelude Target Diagnostics Token Ast AstGraph ParserState ParserTypes ParserExpressions ParserStatements ParserDeclarations ParserMachines ParserSpec ParserSafety ParserProofs StatementProofs.

(** ** Going back to an earlier program *)

Lemma take_prefix {A} (k l : list A) : k `prefix_of` l → take (length k) l = k.
Proof. intros [m ->]. by rewrite take_app_length. Qed.

Lemma restore_tree base p : extends (arena base) (arena p) → arena (restore base p) = arena base.
Proof. intros [H1 H2 H3 H4]. unfold arena in *. cbn in *. by rewrite !take_prefix. Qed.
Lemma restore_declared base p : declared (restore base p) = declared p.
Proof. done. Qed.
Lemma restore_program base p :
  extends (arena base) (arena p) → declared p = declared base → restore base p = base.
Proof. intros He Hd. apply program_eq; [by apply restore_tree|by rewrite restore_declared]. Qed.

(** The nodes of a function that is given by its members. *)
Ltac body_nodes := unfold function_nodes; cbn [fn_body fn_parameters flat_map]; nodes.

Section declarations.
Context (tokens_ : list Token) (Hended : ended tokens_) (target_ : TargetPlatform).
Context (self : Entries) (Hself : entries_ok tokens_ self 0).
Context (Hexpression : ∀ st, ok tokens_ st → runs (e_expression self) st (gives_expression tokens_ st)).
Context (Hblock : ∀ tail st, ok tokens_ st → runs (e_block self tail) st (gives_block tokens_ st)).
Local Abbreviation ok := (ok tokens_).
Local Abbreviation moved := (moved tokens_).
Local Abbreviation here := (here tokens_).
Local Abbreviation progress := (progress tokens_).

Lemma moved_program st s : moved st s → restore (program_ st) (program_ s) = program_ st.
Proof.
  intros [_ _ He Hf]. apply restore_program; [exact He|]. unfold frame in Hf. congruence.
Qed.
Lemma moved_restored st s : ok st → moved st s → moved st (set_program (restore (program_ st)) s).
Proof.
  intros Ho Hm. pose proof (moved_program _ _ Hm) as Hp. destruct Ho as [? Hb ? ? ?].
  destruct Hm as [[? _ ? ? ?] ? _ Hf]. split.
  - split; try done. change (built (arena (restore (program_ st) (program_ s)))). rewrite Hp. exact Hb.
  - done.
  - change (extends (tree st) (arena (restore (program_ st) (program_ s)))). rewrite Hp. exact (reflexivity (tree st)).
  - unfold frame in *. change (program_ (set_program _ s)) with (restore (program_ st) (program_ s)).
    rewrite Hp. apply pair_equal_spec in Hf as [Hf _]. f_equal. exact Hf.
Qed.

Lemma restoreProgram_spec base st (Q : () → Parser → Prop) :
  ok base → moved base st → (∀ s, moved base s → current_ s = current_ st → Q () s) →
  runs (restoreProgram (program_ base)) st Q.
Proof. intros Ho Hm HQ. apply runs_modify, HQ; [by apply moved_restored|done]. Qed.

(** ** Loops over members and tests of contextual keywords *)

Lemma while_members_spec {A} (R : A → Arena → Prop) (body : A → P A) a st (Q : A → Parser → Prop) :
  ok st → stable R → R a (tree st) →
  (∀ a s, moved st s → here s ≠ TokenKind.Eof → R a (tree s) →
     runs (body a) s (λ a' s', moved s s' ∧ R a' (tree s') ∧ current_ s < current_ s')) →
  (∀ a s, moved st s → R a (tree s) → Q a s) →
  runs (while_members tokens_ body a) st Q.
Proof using Hended.
  intros Ho HR Ha Hbody HQ.
  apply (turns_loop_spec tokens_ (λ a s, moved st s ∧ R a (tree s))); [intros ? ? [H _]; apply H| |].
  2: { split; [by apply moved_refl|done]. }
  clear a Ha. intros a s [Hm Ha]. pose proof (mv_ok _ _ _ Hm) as Hos. repeat straight. apply runs_if; intros E.
  { step. by apply HQ. }
  apply orb_false_iff in E as [_ E%bool_decide_eq_false]. step. eapply runs_mono; [by apply Hbody|].
  intros a' s' (Hs & Ha' & Hc). step. split; [|done]. split; [by eapply moved_trans|done].
Qed.

Lemma keyword_spec text st (Q : bool → Parser → Prop) :
  ok st → (∀ b : bool, (b = true → here st = TokenKind.Identifier) → Q b st) → runs (keyword tokens_ text) st Q.
Proof.
  intros Ho HQ. unfold keyword. repeat straight. apply HQ. intros E. by conditions.
Qed.

Lemma type_parameter_names_spec st : ok st → runs (type_parameter_names tokens_) st (λ _ s, moved st s).
Proof using Hended.
  intros Ho. start Hm. unfold type_parameter_names. step.
  eapply runs_mono; [by apply (typeParameters_spec tokens_ Hended)|]. intros l s Hs. by step.
Qed.

Lemma parameter_spec_0 st :
  ok st → runs (parameter tokens_ target_ self false) st (λ p s, moved st s ∧ nodes_in (tree s) (parameter_nodes p)).
Proof using Hended Hself. intros Ho. apply (parameter_spec tokens_ Hended target_ self 0 Hself); [done|lia]. Qed.
Lemma attributes_spec_0 allow st :
  ok st → runs (attributes tokens_ target_ self allow) st
    (λ p s, moved st s ∧ nodes_in (tree s) (flat_map attribute_nodes (pa_applications p)) ∧
            (here st = TokenKind.At → current_ st < current_ s)).
Proof using Hended Hself. intros Ho. apply (attributes_spec tokens_ Hended target_ self 0 Hself); [done|lia]. Qed.

Lemma parameter_list_spec st :
  ok st → runs (parameter_list tokens_ target_ self) st
    (λ l s, moved st s ∧ nodes_in (tree s) (flat_map parameter_nodes l)).
Proof using Hended Hself.
  intros Ho. start Hm. unfold parameter_list. repeat straight.
  apply (comma_unless_nodes tokens_ Hended parameter_nodes); [done| |done].
  intros s Hs. apply parameter_spec_0, Hs.
Qed.

(** ** Other active type parameters *)

Lemma leave_activeNames names st s :
  ok st → moved (set_activeNames names st) s → moved st (set_activeNames (activeTypeParameters_ st) s).
Proof. intros Ho Hm. eapply (moved_around _ st (set_activeNames names st) s); try done. solve_frame. Qed.
Lemma leave_active names transferable constraints st s :
  ok st → moved (set_active names transferable constraints st) s →
  moved st (set_active (activeTypeParameters_ st) (activeTransferableTypeParameters_ st)
              (activeTypeParameterConstraints_ st) s).
Proof.
  intros Ho Hm. eapply (moved_around _ st (set_active names transferable constraints st) s); try done. solve_frame.
Qed.

Lemma under_parameters_spec {A} names (body : P A) (R : A → Arena → Prop) st :
  ok st → (∀ s, ok s → runs body s (λ a s', moved s s' ∧ R a (tree s'))) →
  runs (under_parameters names body) st (λ a s, moved st s ∧ R a (tree s)).
Proof.
  intros Ho Hb. unfold under_parameters. step. step. step. apply runs_modify.
  assert (ok (set_activeNames names st)) as Ho' by (by destruct Ho). step.
  eapply runs_mono; [by apply Hb|]. intros a s [Hs Ha]. step. apply runs_modify, runs_ret.
  apply leave_activeNames in Hs; done.
Qed.

(** ** Functions *)

Lemma self_token_spec code message st : ok st → runs (self_token tokens_ code message) st (λ _ s, moved st s).
Proof using Hended. intros Ho. start Hm. unfold self_token. by repeat step. Qed.

Lemma receiver_spec code message st : ok st → runs (receiver tokens_ code message) st (λ _ s, moved st s).
Proof using Hended.
  intros Ho. start Hm. unfold receiver. step. step. { step. visit self_token_spec. by step. }
  step. step. { step. visit self_token_spec. by step. }
  step. apply keyword_spec; [done|]. intros b Hb. step.
  { specialize (Hb ltac:(done)). by repeat step. }
  apply (match_cases_spec tokens_ Hended); [done| |].
  - unfold removed_receiver. by cases; repeat straight.
  - repeat straight. apply (skip_unless_end_spec tokens_ Hended); [done|]. intros s Hs _. absorb Hs. by step.
Qed.

Lemma method_receiver_spec owner typeParameters constructor st :
  ok st → runs (method_receiver tokens_ owner typeParameters constructor) st
    (λ r s, moved st s ∧ nodes_in (tree s) (flat_map parameter_nodes r.1.2)).
Proof using Hended.
  intros Ho. start Hm. unfold method_receiver, receiver_follows. repeat straight.
  apply keyword_spec; [done|]. intros b Hb. repeat straight. apply runs_if; intros E.
  - repeat straight. visit receiver_spec. step. test. step. cbn. split; [done|constructor].
  - step. split; [done|constructor].
Qed.

Lemma constructor_result_spec owner typeParameters span st :
  ok st → runs (constructor_result tokens_ owner typeParameters span) st (λ _ s, moved st s).
Proof using Hended.
  intros Ho. start Hm. unfold constructor_result. repeat straight. apply runs_if; intros E; [by step|].
  step. visit (parseType_spec tokens_ Hended). destruct (ts_arguments _) as [|? [|? ?]]; repeat step; done.
Qed.

(** A function that is not added to the program yet. *)
Definition gives_function (st : Parser) (f : Function) (s : Parser) : Prop :=
  moved st s ∧ nodes_in (tree s) (function_nodes f) ∧ fn_attributes f = [].

Lemma method_spec owner typeParameters kind st :
  ok st → runs (method tokens_ target_ self owner typeParameters kind) st
    (λ f s, gives_function st f s ∧ (here st = (member_token kind).1 → current_ st < current_ s)).
Proof using Hended Hself Hblock.
  intros Ho. start Hm. unfold method. destruct (member_token kind) as [token message] eqn:Ek.
  assert (token ≠ TokenKind.Eof) by (destruct kind; injection Ek; intros; subst; discriminate).
  repeat straight. visit method_receiver_spec. unpair. step.
  eapply runs_mono with (R := λ l s, moved st'2 s ∧ nodes_in (tree s) (flat_map parameter_nodes l)).
  { step; [by apply parameter_list_spec|]. step. split; [by apply moved_refl|constructor]. }
  arrive. repeat straight.
  eapply runs_mono with (R := λ _ s, moved st'4 s).
  { step; [by apply constructor_result_spec|by apply (parseType_spec tokens_ Hended)]. }
  arrive. step. eapply runs_mono; [apply (under_parameters_spec _ _ (λ id t, node_in t (NBlock id))); [done|]|].
  { intros s Hs. by apply Hblock. }
  arrive. step. split; [|ahead]. split_and!; [done| |done]. body_nodes. rewrite flat_map_app. nodes.
Qed.

Lemma discardConstructor_spec owner typeParameters st :
  ok st → runs (discardConstructor tokens_ target_ self owner typeParameters) st
    (λ _ s, moved st s ∧ (here st = TokenKind.Ctor → current_ st < current_ s)).
Proof using Hended Hself Hblock.
  intros Ho. unfold discardConstructor. step. step. step. eapply runs_mono; [by apply method_spec|].
  intros f s [[Hs _] Hp]. apply (restoreProgram_spec st); [done|done|]. intros s' Hs' Hc. split; [done|]. rewrite Hc. exact Hp.
Qed.

(** A function with attributes that refer to nodes of the tree. *)
Lemma set_attributes_nodes a blocking callback f t :
  nodes_in t (function_nodes f) → nodes_in t (flat_map attribute_nodes a) →
  nodes_in t (function_nodes (set_attributes a blocking callback f) ++
              attached_nodes (set_attributes a blocking callback f)).
Proof. intros Hf Ha. by apply nodes_in_app. Qed.

Lemma push_method_spec owner typeParameters applications st :
  ok st → nodes_in (tree st) (flat_map attribute_nodes applications) →
  (here st = TokenKind.Fn ∨ here st = TokenKind.Ctor ∨ here st = TokenKind.Action) →
  runs (push_method tokens_ target_ self owner typeParameters applications) st
    (λ _ s, moved st s ∧ current_ st < current_ s).
Proof using Hended Hself Hblock.
  intros Ho Ha Hk. start Hm. unfold push_method, member_kind. repeat straight.
  set (kind := if bool_decide (here st = TokenKind.Ctor) then _ else _).
  assert (here st = (member_token kind).1) as Hk'.
  { subst kind. repeat case_bool_decide; naive_solver. }
  eapply runs_mono; [by apply method_spec|]. intros f s [(Hs & Hf & _) Hp]. specialize (Hp Hk'). absorb Hs.
  step. eapply push_function_spec; [side|by apply set_attributes_nodes|]. intros id s' Hs' Hc' _. absorb Hs'. step.
  split; [done|lia].
Qed.

Lemma skip_bad_spec code message st :
  ok st → (here st ≠ TokenKind.Eof ∨ 0 < current_ st) →
  runs (skip_bad tokens_ code message) st (λ _ s, moved st s ∧ progress st s).
Proof using Hended.
  intros Ho [Hc|Hc]; start Hm; unfold skip_bad; repeat straight; (split; [done|intros ?; ahead]).
Qed.

(** The same behind attributes: a token has been passed since [st]. *)
Lemma skip_bad_behind code message st s :
  moved st s → here st ≠ TokenKind.Eof →
  runs (skip_bad tokens_ code message) s (λ _ s', moved s s' ∧ current_ st < current_ s').
Proof using Hended.
  intros Hm He. pose proof (mv_current _ _ _ Hm). eapply runs_mono; [apply skip_bad_spec; [apply Hm|]|].
  - destruct (decide (current_ s = current_ st)) as [E|]; [|right; lia]. left. by rewrite (here_same _ _ _ E).
  - intros _ s' [Hs Hp]. split; [done|]. pose proof (mv_current _ _ _ Hs).
    by apply (progress_from tokens_ st s s').
Qed.

Lemma extern_start_spec st :
  ok st → runs (extern_start tokens_) st (λ _ s, moved st s ∧ (here st = TokenKind.Extern → current_ st < current_ s)).
Proof using Hended. intros Ho. start Hm. unfold extern_start. repeat step; (split; [done|ahead]). Qed.

Lemma function_body_spec parameters tail st :
  ok st → runs (function_body self parameters tail) st (gives_block tokens_ st).
Proof using Hblock.
  intros Ho. unfold function_body. step. step. step. apply runs_modify.
  set (s0 := set_active _ _ _ st). assert (ok s0) as Ho' by (by destruct Ho). step.
  eapply runs_mono; [by apply Hblock|]. intros id s [Hs Hid]. step. apply runs_modify, runs_ret.
  apply leave_active in Hs; [|done]. by split.
Qed.

Definition function_token (external task : bool) : TokenKind :=
  if external then TokenKind.Extern else if task then TokenKind.Task else TokenKind.Fn.

Lemma function_spec external task st :
  ok st → runs (function tokens_ target_ self external task) st
    (λ f s, gives_function st f s ∧ (here st = function_token external task → current_ st < current_ s)).
Proof using Hended Hself Hblock.
  intros Ho. start Hm. unfold function. repeat straight.
  eapply runs_mono with (R := λ _ s, moved st s ∧ (external = true → here st = TokenKind.Extern → current_ st < current_ s) ∧
    (external = false → s = st)).
  { step; [eapply runs_mono; [by apply extern_start_spec|]|step; split_and!; [by apply moved_refl|congruence|done]].
    intros t s [Hs Hp]. split_and!; [done|auto|congruence]. }
  intros start s0 (Hs0 & Hp1 & Hp2). absorb Hs0. step.
  apply (expect_spec tokens_ Hended); [done|by destruct task|].
  intros t s1 Hs1 Hp3. assert (here st = function_token external task → current_ st < current_ s1) as Hp.
  { intros Hh. pose proof (mv_current _ _ _ Hs1). destruct external; [specialize (Hp1 eq_refl Hh); lia|].
    rewrite (Hp2 eq_refl) in *. apply Hp3. by destruct task. }
  absorb Hs1. clear Hp1 Hp2 Hp3. repeat straight. visit (typeParameters_spec tokens_ Hended). repeat straight.
  visit parameter_list_spec. repeat straight. visit (parseType_spec tokens_ Hended). step.
  quiet; [by repeat step|]. unpair. step.
  match goal with |- runs _ ?s _ => eapply (runs_mono _ _ _ (gives_block tokens_ s)) end.
  { apply runs_if; intros _; [by apply function_body_spec|]. start Hb. add_node. by split. }
  arrive. step. split; [|ahead]. split_and!; [done| |done]. body_nodes.
Qed.

Lemma testDeclaration_spec st :
  ok st → here st ≠ TokenKind.Eof →
  runs (testDeclaration tokens_ self) st (λ f s, gives_function st f s ∧ current_ st < current_ s).
Proof using Hended Hblock.
  intros Ho He. start Hm. unfold testDeclaration. repeat straight.
  quiet; [by repeat step|]. repeat straight.
  eapply runs_mono; [by apply Hblock|]. arrive. step. split; [|lia]. split_and!; [done| |done]. body_nodes.
Qed.

(** ** Structs *)

Lemma implementation_spec st : ok st → runs (implementation tokens_) st (λ _ s, moved st s).
Proof using Hended.
  intros Ho. start Hm. unfold implementation. step. visit (parseType_spec tokens_ Hended). by step.
Qed.

Lemma delegate_member_spec implementations st :
  ok st → 0 < current_ st → runs (delegate_member tokens_ implementations) st (λ _ s, moved st s).
Proof using Hended.
  intros Ho Hc. start Hm. unfold delegate_member. repeat straight. visit (parseType_spec tokens_ Hended).
  destruct (list_find _ _) as [[index found]|]; [destruct (si_delegate found)|]; repeat straight; done.
Qed.

Lemma field_default_spec owner typeParameters field type st :
  ok st → runs (field_default tokens_ self owner typeParameters field type) st
    (λ r s, moved st s ∧ nodes_in (tree s) (optional NFun r.1)).
Proof using Hended Hexpression.
  intros Ho. start Hm. unfold field_default. step. step; step; [|step; split; [done|constructor]].
  repeat straight. eapply runs_mono; [apply (under_parameters_spec _ _ (λ id t, node_in t (NExpr id))); [done|]|].
  { intros s Hs. eapply runs_mono; [by apply Hexpression|]. intros id s' (? & ? & _). done. }
  arrive. repeat straight. add_node. step. add_node. step.
  eapply push_function_spec; [side|cbn; nodes|]. intros default s Hs _ Hin. absorb Hs. step. cbn. split; [done|nodes].
Qed.

Lemma field_member_spec owner typeParameters applications st :
  ok st → here st ≠ TokenKind.Eof → nodes_in (tree st) (flat_map attribute_nodes applications) →
  runs (field_member tokens_ self owner typeParameters applications) st
    (λ f s, moved st s ∧ nodes_in (tree s) (field_declaration_nodes f) ∧ current_ st < current_ s).
Proof using Hended Hexpression.
  intros Ho He Ha. start Hm. unfold field_member. repeat straight. visit (parseType_spec tokens_ Hended). step.
  visit field_default_spec. unpair. step. split_and!; [done| |lia]. unfold field_declaration_nodes. cbn. nodes.
Qed.

Lemma stable_fields : stable (λ (m : list StructImplementation * list StructField) t,
  nodes_in t (flat_map field_declaration_nodes m.2)).
Proof. intros a t t'. apply nodes_in_extends. Qed.

Lemma struct_member_spec owner typeParameters members st :
  ok st → here st ≠ TokenKind.Eof → nodes_in (tree st) (flat_map field_declaration_nodes members.2) →
  runs (struct_member tokens_ target_ self owner typeParameters members) st
    (λ m s, moved st s ∧ nodes_in (tree s) (flat_map field_declaration_nodes m.2) ∧ current_ st < current_ s).
Proof using Hended Hself Hexpression Hblock.
  intros Ho He Hn. start Hm. unfold struct_member. step. step.
  { step. visit delegate_member_spec. step. split_and!; [done|done|lia]. }
  step. visit attributes_spec_0. repeat straight. step.
  { step. unfold skip_extern. eapply runs_mono; [eapply (skip_bad_behind _ _ st); [done|done]|]. arrive. step. done. }
  repeat straight. step.
  { step. eapply runs_mono; [apply push_method_spec; [done|done|]|].
    { repeat match goal with H : _ || _ = true |- _ => apply orb_true_iff in H as [H|H] end; conditions; naive_solver. }
    arrive. step. split_and!; [done|done|lia]. }
  repeat straight. step.
  { step. eapply runs_mono; [eapply (skip_bad_behind _ _ st); [done|done]|]. arrive. step. done. }
  step. eapply runs_mono; [apply field_member_spec; [done|congruence|done]|]. arrive. step. cbn [fst snd].
  split_and!; [done|nodes|lia].
Qed.

Lemma structDeclaration_spec service st :
  ok st → runs (structDeclaration tokens_ target_ self service) st
    (λ d s, moved st s ∧ nodes_in (tree s) (flat_map field_declaration_nodes (sd_fields d)) ∧
      (here st = (if service then TokenKind.Service else TokenKind.Struct) → current_ st < current_ s)).
Proof using Hended Hself Hexpression Hblock.
  intros Ho. start Hm. unfold structDeclaration. step. apply (expect_spec tokens_ Hended); [done|by destruct service|].
  intros start s Hs Hp. absorb Hs. repeat straight. visit type_parameter_names_spec. step. test. step.
  eapply runs_mono with (R := λ _ s', moved st'1 s').
  { step; [|step; by apply moved_refl]. apply (comma_moves tokens_ Hended); [done|].
    intros s' Hs'. apply implementation_spec, Hs'. }
  arrive. repeat straight.
  eapply (while_members_spec (λ m t, nodes_in t (flat_map field_declaration_nodes m.2)));
    [done|apply stable_fields|constructor| |].
  { intros m s' Hs' He Hn. apply struct_member_spec; [apply Hs'|done|done]. }
  intros [implementations fields] s' Hs' Hn. absorb Hs'. repeat straight. cbn. split_and!; [done|done|ahead].
Qed.

Lemma methods_member_spec owner typeParameters u st :
  ok st → here st ≠ TokenKind.Eof →
  runs (methods_member tokens_ target_ self owner typeParameters u) st (λ _ s, moved st s ∧ True ∧ current_ st < current_ s).
Proof using Hended Hself Hblock.
  intros Ho He. start Hm. unfold methods_member. step. visit attributes_spec_0. repeat straight. step.
  { unfold skip_extern. eapply runs_mono; [eapply (skip_bad_behind _ _ st); [done|done]|]. arrive. done. }
  repeat straight. apply runs_if; intros E.
  - eapply runs_mono; [eapply (skip_bad_behind _ _ st); [done|done]|]. arrive. done.
  - eapply runs_mono; [apply push_method_spec; [done|done|]|].
    { apply negb_false_iff in E. repeat (apply orb_true_iff in E as [E|E]); conditions; naive_solver. }
    arrive. split_and!; [done|done|lia].
Qed.

Lemma methodsDeclaration_spec st :
  ok st → runs (methodsDeclaration tokens_ target_ self) st
    (λ _ s, moved st s ∧ (here st = TokenKind.Methods → current_ st < current_ s)).
Proof using Hended Hself Hblock.
  intros Ho. start Hm. unfold methodsDeclaration. repeat straight. visit type_parameter_names_spec. repeat straight.
  eapply (while_members_spec (λ _ _, True)); [done|done|done| |].
  { intros u s Hs He _. apply methods_member_spec; [apply Hs|done]. }
  intros _ s Hs _. absorb Hs. repeat straight. split; [done|ahead].
Qed.

(** ** Enums *)

Lemma payload_name_spec st : ok st → runs (payload_name tokens_) st (λ _ s, moved st s).
Proof using Hended. intros Ho. start Hm. unfold payload_name. by repeat step. Qed.

Lemma variant_payload_spec st : ok st → runs (variant_payload tokens_) st (λ _ s, moved st s).
Proof using Hended.
  intros Ho. start Hm. unfold variant_payload. step. step; step; [|by step].
  step. visit payload_name_spec. unpair. step. visit (parseType_spec tokens_ Hended). by repeat step.
Qed.

Lemma enum_member_spec owner typeParameters variants st :
  ok st → here st ≠ TokenKind.Eof → nodes_in (tree st) (flat_map variant_nodes variants) →
  runs (enum_member tokens_ target_ self owner typeParameters variants) st
    (λ l s, moved st s ∧ nodes_in (tree s) (flat_map variant_nodes l) ∧ current_ st < current_ s).
Proof using Hended Hself Hblock.
  intros Ho He Hn. start Hm. unfold enum_member. step. visit attributes_spec_0. repeat straight. step.
  { repeat straight. visit discardConstructor_spec. step. split_and!; [done|done|ahead]. }
  repeat straight. step.
  { step. eapply runs_mono; [eapply (skip_bad_behind _ _ st); [done|done]|]. arrive. step. done. }
  repeat straight. visit variant_payload_spec. unpair. step.
  split_and!; [done| |lia]. apply nodes_in_snoc. split; [done|]. by unfold variant_nodes.
Qed.

Lemma enumDeclaration_spec st :
  ok st → runs (enumDeclaration tokens_ target_ self) st
    (λ d s, moved st s ∧ nodes_in (tree s) (flat_map variant_nodes (ed_variants d)) ∧
      (here st = TokenKind.Enum → current_ st < current_ s)).
Proof using Hended Hself Hblock.
  intros Ho. start Hm. unfold enumDeclaration. repeat straight. visit type_parameter_names_spec. repeat straight.
  eapply (while_members_spec (λ l t, nodes_in t (flat_map variant_nodes l)));
    [done|by intros ? ? ?; apply nodes_in_extends|constructor| |].
  { intros l s Hs He Hn. apply enum_member_spec; [apply Hs|done|done]. }
  intros l s Hs Hn. absorb Hs. repeat straight. split_and!; [done|done|ahead].
Qed.

(** ** Contracts *)

Lemma contract_default_spec owner typeParameters start name access parameters returnType st :
  ok st → nodes_in (tree st) (flat_map parameter_nodes parameters) →
  runs (contract_default tokens_ self owner typeParameters start name access parameters returnType) st
    (λ r s, moved st s ∧ nodes_in (tree s) (optional NFun r)).
Proof using Hended Hblock.
  intros Ho Hp. start Hm. unfold contract_default. repeat straight. step; [step; split; [done|constructor]|].
  step. eapply runs_mono; [apply (under_parameters_spec _ _ (λ id t, node_in t (NBlock id))); [done|]|].
  { intros s Hs. by apply Hblock. }
  arrive. step. eapply push_function_spec; [side|cbn; nodes|]. intros default s Hs _ Hin. absorb Hs. step.
  cbn. split; [done|nodes].
Qed.

Lemma contractMethod_spec owner typeParameters applications st :
  ok st → nodes_in (tree st) (flat_map attribute_nodes applications) → here st = TokenKind.Fn →
  runs (contractMethod tokens_ target_ self owner typeParameters applications) st
    (λ m s, moved st s ∧ nodes_in (tree s) (contract_method_nodes m) ∧ current_ st < current_ s).
Proof using Hended Hself Hblock.
  intros Ho Ha Hf. start Hm. unfold contractMethod. repeat straight. visit receiver_spec. step. test. step.
  match goal with |- runs _ ?s _ => eapply (runs_mono _ _ _ (λ l s', moved s s' ∧ nodes_in (tree s') (flat_map parameter_nodes l))) end.
  { step; [|step; split; [by apply moved_refl|constructor]].
    apply (comma_unless_nodes tokens_ Hended parameter_nodes false); [done| |done].
    intros s Hs. apply parameter_spec_0, Hs. }
  arrive. repeat straight. visit (parseType_spec tokens_ Hended). step. visit contract_default_spec. step.
  split_and!; [done| |ahead]. unfold contract_method_nodes. cbn. nodes.
Qed.

Lemma contract_member_spec owner typeParameters methods st :
  ok st → here st ≠ TokenKind.Eof → nodes_in (tree st) (flat_map contract_method_nodes methods) →
  runs (contract_member tokens_ target_ self owner typeParameters methods) st
    (λ l s, moved st s ∧ nodes_in (tree s) (flat_map contract_method_nodes l) ∧ current_ st < current_ s).
Proof using Hended Hself Hblock.
  intros Ho He Hn. start Hm. unfold contract_member. step. visit attributes_spec_0. repeat straight. step.
  { step. unfold skip_extern. eapply runs_mono; [eapply (skip_bad_behind _ _ st); [done|done]|]. arrive. step. done. }
  repeat straight. step.
  { repeat straight. visit discardConstructor_spec. step. split_and!; [done|done|ahead]. }
  repeat straight. step.
  { step. eapply runs_mono; [eapply (skip_bad_behind _ _ st); [done|done]|]. arrive. step. done. }
  step. eapply runs_mono; [by apply contractMethod_spec|]. arrive. step. split_and!; [done|nodes|lia].
Qed.

Lemma contractDeclaration_spec st :
  ok st → runs (contractDeclaration tokens_ target_ self) st
    (λ d s, moved st s ∧ nodes_in (tree s) (flat_map contract_method_nodes (cd_methods d)) ∧
      (here st = TokenKind.Contract → current_ st < current_ s)).
Proof using Hended Hself Hblock.
  intros Ho. start Hm. unfold contractDeclaration. repeat straight. visit type_parameter_names_spec. step. test. step.
  quiet.
  { step; [|step; by apply moved_refl]. apply (comma_moves tokens_ Hended); [done|].
    intros s' Hs'. apply (parseType_spec tokens_ Hended), Hs'. }
  repeat straight.
  eapply (while_members_spec (λ l t, nodes_in t (flat_map contract_method_nodes l)));
    [done|by intros ? ? ?; apply nodes_in_extends|constructor| |].
  { intros l s Hs He Hn. apply contract_member_spec; [apply Hs|done|done]. }
  intros l s Hs Hn. absorb Hs. repeat straight. split_and!; [done|done|ahead].
Qed.

(** ** Attribute declarations *)

Lemma attributeTarget_spec st : ok st → runs (attributeTarget tokens_) st (λ _ s, moved st s).
Proof using Hended.
  intros Ho. start Hm. unfold attributeTarget. apply (match_cases_spec tokens_ Hended); [done|by cases|].
  repeat straight. step.
  - repeat straight. apply (skip_unless_end_spec tokens_ Hended); [done|]. intros s Hs _. absorb Hs. by step.
  - repeat straight. destruct (named_target _); by repeat step.
Qed.

Lemma attribute_parameter_spec st :
  ok st → runs (attribute_parameter tokens_ target_ self) st
    (λ p s, moved st s ∧ param_attributes p = []).
Proof using Hended Hself.
  intros Ho. start Hm. unfold attribute_parameter. step. visit parameter_spec_0.
  destruct (param_attributes _) as [|first rest] eqn:E; by repeat step.
Qed.

Lemma attributeDeclaration_spec st :
  ok st → runs (attributeDeclaration tokens_ target_ self) st
    (λ d s, moved st s ∧ Forall (λ p, param_attributes p = []) (ad_parameters d) ∧
      (here st = TokenKind.Attribute → current_ st < current_ s)).
Proof using Hended Hself.
  intros Ho. start Hm. unfold attributeDeclaration. repeat straight.
  apply (comma_unless_spec tokens_ Hended (λ p _, param_attributes p = [])); [done|by intros ? ? ?| |].
  { intros s Hs. apply attribute_parameter_spec, Hs. }
  intros parameters s Hs Hp. absorb Hs. repeat straight. quiet; [by repeat step|]. repeat straight.
  eapply runs_mono; [apply (comma_unless_moves tokens_ Hended); [done|]|].
  { intros s' Hs'. apply attributeTarget_spec, Hs'. }
  intros targets s' Hs'. cbn beta in Hs'. absorb Hs'. repeat straight. apply keyword_spec; [done|]. intros b Hb. repeat straight.
  quiet.
  { step; [|by step]. specialize (Hb ltac:(done)). by repeat straight. }
  repeat straight. split_and!; [done|done|ahead].
Qed.

End declarations.
