(* ===== verification/MachineProofs.v ===== *)
(** * State machines and workflows are parsed safely

    The specifications of ParserMachines.v.  Such a declaration adds enums and
    structs that refer to no node, and functions. *)
From S2P Require Import Prelude Target Diagnostics Token Ast AstGraph ParserState ParserTypes ParserExpressions ParserStatements ParserDeclarations ParserMachines ParserSpec ParserSafety ParserProofs StatementProofs DeclarationProofs.

Lemma list_find_lookup {A} (P : A → Prop) `{∀ x, Decision (P x)} l i x :
  list_find P l = Some (i, x) → l !! i = Some x ∧ P x.
Proof. intros (H1 & H2 & _)%list_find_Some. done. Qed.

Section machines.
Context (tokens_ : list Token) (Hended : ended tokens_) (target_ : TargetPlatform).
Context (self : Entries) (Hself : entries_ok tokens_ self 0).
Local Abbreviation ok := (ok tokens_).
Local Abbreviation moved := (moved tokens_).
Local Abbreviation here := (here tokens_).
Local Abbreviation progress := (progress tokens_).

Lemma for_each_spec {A S} (N : A → list Node) (items : list A) (body : S → A → P S) v st :
  ok st → Forall (λ a, nodes_in (tree st) (N a)) items →
  (∀ v a s, moved st s → nodes_in (tree s) (N a) → runs (body v a) s (λ _ s', moved s s')) →
  runs (for_each items body v) st (λ _ s, moved st s).
Proof.
  intros Ho Hi Hb. assert (∀ s v, moved st s → runs (for_each items body v) s (λ _ s', moved st s')) as H.
  { induction Hi as [|a items Ha Hi IH]; intros s u Hs; cbn [for_each]; [by step|]. step.
    eapply runs_mono; [apply Hb; [done|by eapply nodes_in_extends; [apply Hs|]]|]. intros u' s' Hs'.
    apply IH. by eapply moved_trans. }
  apply H. by apply moved_refl.
Qed.

Lemma contextual_spec text code message st :
  ok st → runs (contextual tokens_ text code message) st
    (λ _ s, moved st s ∧ (here st = TokenKind.Identifier → current_ st < current_ s)).
Proof using Hended. intros Ho. start Hm. unfold contextual. repeat step; (split; [done|ahead]). Qed.

(** ** The members of a state machine *)

Lemma state_payload_spec st : ok st → runs (state_payload tokens_) st (λ _ s, moved st s).
Proof using Hended.
  intros Ho. start Hm. unfold state_payload. step. step; step; [|by step].
  repeat straight. visit (parseType_spec tokens_ Hended). by repeat step.
Qed.

Lemma state_member_spec saw st :
  ok st → runs (state_member tokens_ saw) st (λ v s, moved st s ∧ variant_nodes v = []).
Proof using Hended.
  intros Ho. start Hm. unfold state_member. repeat straight. quiet; [by repeat step|]. step.
  visit state_payload_spec. unpair. step. done.
Qed.

Lemma transition_parameters_spec st :
  ok st → runs (transition_parameters tokens_ target_ self) st
    (λ l s, moved st s ∧ nodes_in (tree s) (flat_map parameter_nodes l)).
Proof using Hended Hself.
  intros Ho. start Hm. unfold transition_parameters. step. step; step; [|step; split; [done|constructor]].
  step. visit parameter_list_spec. by repeat step.
Qed.

Lemma destination_argument_spec st : ok st → runs (destination_argument tokens_) st (λ _ s, moved st s).
Proof using Hended. intros Ho. start Hm. unfold destination_argument. by repeat step. Qed.

Lemma transition_timeout_spec event destination parameters argument st :
  ok st → runs (transition_timeout tokens_ event destination parameters argument) st (λ _ s, moved st s).
Proof using Hended.
  intros Ho. start Hm. unfold transition_timeout. repeat straight. apply keyword_spec; [done|]. intros b Hb.
  step; [by step|]. specialize (Hb ltac:(done)). repeat straight.
  destruct (from_chars _) as [magnitude valid]. repeat straight. quiet; [by repeat step|]. step.
  quiet; [destruct (timeout_multiplier _); by repeat step|]. step.
  quiet; [destruct (timeout_nanoseconds _ _); by repeat step|]. step.
  quiet; [destruct parameters; by repeat step|]. step.
  quiet; [destruct argument; by repeat step|]. by step.
Qed.

Definition pending_nodes (t : PendingTransition) : list Node := flat_map parameter_nodes (pt_parameters t).

Lemma transition_member_spec st :
  ok st → runs (transition_member tokens_ target_ self) st (λ t s, moved st s ∧ nodes_in (tree s) (pending_nodes t)).
Proof using Hended Hself.
  intros Ho. start Hm. unfold transition_member. repeat straight. visit transition_parameters_spec. step.
  visit contextual_spec. step. quiet.
  { apply (comma_moves tokens_ Hended); [done|]. intros s Hs. pose proof (mv_ok _ _ _ Hs). start Hb. by repeat step. }
  step. visit contextual_spec. repeat straight. visit destination_argument_spec. step.
  visit transition_timeout_spec. by step.
Qed.

Definition members_ok (m : list EnumVariant * list PendingTransition) (t : Arena) : Prop :=
  flat_map variant_nodes m.1 = [] ∧ Forall (λ p, nodes_in t (pending_nodes p)) m.2.
Lemma stable_members : stable members_ok.
Proof.
  intros m t t' He [H1 H2]. split; [done|]. eapply Forall_impl; [exact H2|]. intros p. by apply nodes_in_extends.
Qed.

Lemma machine_member_spec members st :
  ok st → here st ≠ TokenKind.Eof → members_ok members (tree st) →
  runs (machine_member tokens_ target_ self members) st
    (λ m s, moved st s ∧ members_ok m (tree s) ∧ current_ st < current_ s).
Proof using Hended Hself.
  intros Ho He Hn. start Hm. unfold machine_member. step. apply keyword_spec; [done|]. intros b Hb. step.
  { specialize (Hb ltac:(done)). repeat straight. visit state_member_spec. step.
    match goal with H : moved st ?s |- _ => pose proof (stable_members _ _ _ (mv_tree _ _ _ H) Hn) as [Hn1 Hn2] end.
    split_and!; [done| |lia]. split; [|done]. cbn [fst]. rewrite flat_map_app, Hn1. cbn.
    by rewrite app_nil_r. }
  step. apply keyword_spec; [done|]. intros b' Hb'. step.
  { specialize (Hb' ltac:(done)). repeat straight. visit transition_member_spec. step.
    match goal with H : moved st ?s |- _ => pose proof (stable_members _ _ _ (mv_tree _ _ _ H) Hn) as [Hn1 Hn2] end.
    split_and!; [done| |lia]. split; [done|]. cbn [snd]. apply Forall_app. split; [done|]. by apply Forall_singleton. }
  step. eapply runs_mono; [eapply (skip_bad_behind tokens_ Hended _ _ st); [done|done]|]. arrive. step.
  split_and!; [done| |lia]. match goal with H : moved st ?s |- _ => exact (stable_members _ _ _ (mv_tree _ _ _ H) Hn) end.
Qed.

(** ** The checks of a transition *)

Lemma findState_spec states token st (Q : option nat → Parser → Prop) :
  ok st → (∀ r s, moved st s → (∀ i, r = Some i → ∃ v, states !! i = Some v ∧ ev_name v = tok_text token) → Q r s) →
  runs (findState states token) st Q.
Proof.
  intros Ho HQ. start Hm. unfold findState. destruct (list_find _ _) as [[i v]|] eqn:E.
  - apply list_find_lookup in E as [E1 E2]. step. apply HQ; [done|]. intros j [= ->]. eauto.
  - repeat straight. apply HQ; [done|]. done.
Qed.

Lemma transition_source_spec states timed found source st :
  ok st → runs (transition_source states timed found source) st (λ _ s, moved st s).
Proof.
  intros Ho. start Hm. unfold transition_source. destruct found as [sources timeouts]. step.
  apply findState_spec; [done|]. intros r s Hs _. absorb Hs. destruct r; [|by step].
  by repeat step.
Qed.

Lemma transition_metadata_spec states timeouts t st :
  ok st → runs (transition_metadata states timeouts t) st (λ _ s, moved st s).
Proof.
  intros Ho. start Hm. unfold transition_metadata. step.
  eapply runs_mono; [apply (for_each_spec (λ _, [])); [done|by apply Forall_true; constructor|]|].
  { intros v a s Hs _. apply transition_source_spec, Hs. }
  arrive. unpair. step. unfold transition_destination. step. apply findState_spec; [done|].
  intros r s Hs Hr. absorb Hs. destruct r as [i|].
  - destruct (Hr i eq_refl) as (v & Hv & _). step. eapply runs_element; [done|]. cbn beta.
    step. quiet; [by repeat step|]. repeat straight. unfold transition_binding.
    destruct (pt_destinationArgument t); [destruct (list_find _ _) as [[? ?]|]|]; by repeat straight.
  - repeat straight. unfold transition_binding.
    destruct (pt_destinationArgument t); [destruct (list_find _ _) as [[? ?]|]|]; by repeat straight.
Qed.

Lemma machine_transition_spec machine typeParameters nameSpan states timeouts t st :
  ok st → nodes_in (tree st) (pending_nodes t) →
  runs (machine_transition machine typeParameters nameSpan states timeouts t) st (λ _ s, moved st s).
Proof.
  intros Ho Hn. start Hm. unfold machine_transition. step. visit transition_metadata_spec. unpair. step.
  unfold pending_nodes in *. add_node. step. eapply push_function_spec; [side|cbn; nodes|].
  intros f s1 Hs _ _. absorb Hs. step. quiet.
  { destruct (pt_timeoutNanoseconds t); [|by step]. step. add_node. step.
    eapply push_function_spec; [side|cbn; nodes|]. intros f' s' Hs' _ _. absorb Hs'. by step. }
  by step.
Qed.

(** ** Declarations that are added *)

(** [structs] and [enums] at the end of the declarations. *)
Definition declare (structs : list StructDeclaration) (enums : list EnumDeclaration) (st : Parser) : Parser :=
  set_program (λ p, set_enums (λ l, l ++ enums) (set_structs (λ l, l ++ structs) p)) st.

Lemma declare_nil st : declare [] [] st = st.
Proof.
  destruct st as [d p]. destruct p. unfold declare, set_program, set_enums, set_structs. cbn. by rewrite !app_nil_r.
Qed.
Lemma declare_enums es1 es2 ss st : set_program (set_enums (λ l, l ++ es2)) (declare ss es1 st) = declare ss (es1 ++ es2) st.
Proof.
  destruct st as [d p]. destruct p. unfold declare, set_program, set_enums, set_structs. cbn. by rewrite app_assoc.
Qed.
Lemma ok_declare ss es st : ok st → ok (declare ss es st).
Proof. by intros [????]. Qed.

(** Between [st] and [s] these structs and enums, which refer to no node, were declared. *)
Definition declares (structs : list StructDeclaration) (enums : list EnumDeclaration) (st s : Parser) : Prop :=
  flat_map struct_nodes structs = [] ∧ flat_map enum_nodes enums = [] ∧
  ∃ s1, moved st s1 ∧ moved (declare structs enums s1) s.

Lemma moved_declares st s : ok s → moved st s → declares [] [] st s.
Proof. intros Ho Hm. split_and!; [done|done|]. exists s. rewrite declare_nil. by split_and!. Qed.

Lemma declares_extends ss es st s : declares ss es st s → extends (tree st) (tree s).
Proof. intros (_ & _ & s1 & [_ _ H1 _] & [_ _ H2 _]). by etrans. Qed.
Lemma declares_ok ss es st s : declares ss es st s → ok s.
Proof. intros (_ & _ & s1 & _ & H). apply H. Qed.
Lemma declares_current ss es st s : declares ss es st s → current_ st ≤ current_ s.
Proof. intros (_ & _ & s1 & [_ H1 _ _] & [_ H2 _ _]). cbn in *. lia. Qed.
Lemma declares_counters ss es st s : declares ss es st s → counters s = counters st.
Proof.
  intros (_ & _ & s1 & [_ _ _ H1] & [_ _ _ H2]). unfold frame in *.
  apply pair_equal_spec in H1 as [H1 _]. apply pair_equal_spec in H2 as [H2 _]. by rewrite H2.
Qed.
Lemma declares_declared ss es st s :
  declares ss es st s → declared (program_ s) = declared (program_ (declare ss es st)).
Proof.
  intros (_ & _ & s1 & [_ _ _ H1] & [_ _ _ H2]). unfold frame in *.
  apply pair_equal_spec in H1 as [_ H1]. apply pair_equal_spec in H2 as [_ H2].
  rewrite H2. unfold declared in *. cbn. injection H1. by intros -> -> -> -> -> -> ->.
Qed.

Lemma push_enum_spec e st (Q : () → Parser → Prop) :
  Q () (set_program (set_enums (λ l, l ++ [e])) st) → runs (push_enum e) st Q.
Proof. done. Qed.

Lemma stateMachineDeclaration_spec st :
  ok st → runs (stateMachineDeclaration tokens_ target_ self) st
    (λ _ s, (∃ enums, declares [] enums st s) ∧ (here st = TokenKind.StateMachine → current_ st < current_ s)).
Proof using Hended Hself.
  intros Ho. start Hm. unfold stateMachineDeclaration. repeat straight.
  eapply runs_mono; [by apply (type_parameter_names_spec tokens_ Hended)|]. arrive. repeat straight.
  eapply (while_members_spec tokens_ Hended members_ok); [done|apply stable_members|by split| |].
  { intros m s Hs He Hn. apply machine_member_spec; [apply Hs|done|done]. }
  intros [states transitions] s Hs [Hn1 Hn2]. cbn [fst snd] in *. apply nodes_in_flat in Hn2. absorb Hs. repeat straight.
  quiet; [destruct states; by repeat step|]. step. apply runs_bind, runs_modify. apply runs_bind, runs_modify.
  rewrite <- (declare_nil st'4), !declare_enums, app_nil_l. set (enums := _ ++ _).
  assert (flat_map enum_nodes enums = []) as He by (cbn; unfold enum_nodes; cbn; by rewrite Hn1).
  pose proof (ok_declare [] enums st'4 Ho6) as Ho7.
  eapply runs_mono; [apply (for_each_spec pending_nodes); [done| |]|].
  { change (tree (declare [] enums st'4)) with (tree st'4). by apply nodes_in_flat. }
  { intros v p s2 Hs2 Hp. apply machine_transition_spec; [apply Hs2|done]. }
  intros u s2 Hs2. cbn beta in Hs2. step. split; [by exists enums; split_and!; [..|exists st'4]|].
  intros Hh. apply mv_current in Hs2. cbn in Hs2. ahead.
Qed.

(** ** Workflows *)

Lemma step_attempts_spec st : ok st → runs (step_attempts tokens_) st (λ _ s, moved st s).
Proof using Hended.
  intros Ho. start Hm. unfold step_attempts. step. apply keyword_spec; [done|]. intros b Hb.
  step; [by step|]. specialize (Hb ltac:(done)). repeat straight. visit contextual_spec. repeat straight.
  visit contextual_spec. repeat straight. quiet; [by repeat step|]. by repeat straight.
Qed.

Lemma step_compensation_spec kind st : ok st → runs (step_compensation tokens_ kind) st (λ _ s, moved st s).
Proof using Hended.
  intros Ho. start Hm. unfold step_compensation. step. apply keyword_spec; [done|]. intros b Hb.
  apply runs_if; intros E; [|by step]. destruct kind; [done|]. specialize (Hb E). repeat straight.
  apply (qualifiedName_spec tokens_ Hended); [done|by left|]. intros [name span] s Hs _. absorb Hs. by step.
Qed.

Lemma workflow_step_spec kind found st :
  ok st → here st ≠ TokenKind.Eof →
  runs (workflow_step tokens_ kind found) st (λ _ s, moved st s ∧ True ∧ current_ st < current_ s).
Proof using Hended.
  intros Ho He. start Hm. unfold workflow_step. destruct found as [stepNames steps]. step. step. step.
  visit contextual_spec. repeat straight. visit contextual_spec. step.
  apply (qualifiedName_spec tokens_ Hended); [done|by left|]. intros [name span] s Hs _. absorb Hs. step.
  visit step_attempts_spec. step. visit step_compensation_spec. unpair. step. quiet; [by repeat step|]. repeat straight.
  eapply runs_mono with (R := λ _ s', moved st s' ∧ current_ st < current_ s').
  { step.
    - step. assert (here st'4 ≠ TokenKind.Eof) by (by rewrite (here_same _ _ _ ltac:(eassumption))).
      repeat straight. split; [done|lia].
    - step. split; [done|lia]. }
  intros u s2 [Hs2 Hc']. step. done.
Qed.

Lemma workflow_result_spec declared st : ok st → runs (workflow_result declared) st (λ _ s, moved st s).
Proof.
  intros Ho. start Hm. unfold workflow_result. destruct (ts_arguments declared) as [|? [|? [|? ?]]]; by repeat step.
Qed.

Lemma workflow_checks_spec kind name parameters steps st :
  ok st → runs (workflow_checks kind name parameters steps) st (λ _ s, moved st s).
Proof.
  intros Ho. start Hm. unfold workflow_checks. step. quiet; [by repeat step|]. step.
  quiet; [destruct steps; by repeat step|]. destruct kind; [by step|]. destruct (compensations steps); by repeat step.
Qed.

Lemma workflowDeclaration_spec kind st :
  ok st → runs (workflowDeclaration tokens_ target_ self kind) st
    (λ _ s, (∃ structs enums, declares structs enums st s) ∧ (here st = (workflow_word kind).1 → current_ st < current_ s)).
Proof using Hended Hself.
  intros Ho. start Hm. unfold workflowDeclaration. step.
  apply (expect_spec tokens_ Hended); [done|by destruct kind|]. intros start s Hs Hp. absorb Hs. repeat straight. step.
  { repeat straight. split; [exists [], []; by apply moved_declares|ahead]. }
  unfold workflow_named. repeat straight.
  eapply runs_mono; [by apply (type_parameter_names_spec tokens_ Hended)|]. arrive. repeat straight.
  eapply runs_mono; [by apply (parameter_list_spec tokens_ Hended target_ self Hself)|]. arrive. repeat straight.
  visit (parseType_spec tokens_ Hended). step. visit workflow_result_spec. unpair. repeat straight.
  eapply (while_members_spec tokens_ Hended (λ _ _, True)); [done|done|done| |].
  { intros m s' Hs' He _. apply workflow_step_spec; [apply Hs'|done]. }
  intros [names steps] s' Hs' _. absorb Hs'. repeat straight. visit workflow_checks_spec. step.
  eapply (runs_mono _ _ _ (λ _ s2, ∃ ss es, s2 = declare ss es st'8 ∧ flat_map struct_nodes ss = [] ∧
    flat_map enum_nodes es = [])).
  { destruct kind; [exists [], []; by rewrite declare_nil|].
    exists [saga_struct t a t3 steps (tok_span start)], [saga_enum t a t3 (tok_span start)].
    split_and!; [by destruct st'8 as [d p]; destruct p|done|done]. }
  intros _ s2 (ss & es & -> & Hss & Hes). pose proof (ok_declare ss es st'8 ltac:(done)) as Hod.
  change (tree st'8) with (tree (declare ss es st'8)) in *.
  assert (current_ (declare ss es st'8) = current_ st'8) as Hcd by done.
  remember (declare ss es st'8) as s2 eqn:E2. pose proof (moved_refl _ _ Hod) as Hm2.
  step. eapply push_block_spec; [side|constructor|]. intros body s3 Hs3 Hc3' Hb. absorb Hs3.
  step. eapply push_function_spec; [side| |].
  { destruct kind; cbn; rewrite app_nil_r; nodes. }
  intros f s4 Hs4 Hc4' _. absorb Hs4. step. split; [|ahead]. exists ss, es. split_and!; [done|done|]. exists st'8. by subst.
Qed.

End machines.
