(* ===== verification/ProgramProofs.v ===== *)
(** * Whole files are parsed safely

    The specifications of ParserProgram.v: the invariant of the parser between
    declarations and the effect of one declaration, selected or not. *)
From S2P Require Import Prelude Target Diagnostics Token Ast AstGraph ParserState ParserTypes ParserExpressions ParserStatements ParserDeclarations ParserMachines ParserProgram ParserSpec ParserSafety ParserProofs StatementProofs DeclarationProofs MachineProofs.

Lemma list_alter_Some {A} (f : A → A) i (l : list A) x : l !! i = Some x → alter f i l = <[i := f x]> l.
Proof. revert i. induction l as [|y l IH]; intros [|i] H; cbn in *; try done; [by simplify_eq|]. by rewrite IH. Qed.
Lemma list_alter_None {A} (f : A → A) i (l : list A) : l !! i = None → alter f i l = l.
Proof. revert i. induction l as [|y l IH]; intros [|i] H; cbn in *; try done. by rewrite IH. Qed.
Lemma prefix_insert_past {A} (k l : list A) i x : k `prefix_of` l → length k ≤ i → k `prefix_of` <[i := x]> l.
Proof. intros [m ->] Hi. rewrite insert_app_r_alt by done. by apply prefix_app_r. Qed.

Section program.
Context (tokens_ : list Token) (Hended : ended tokens_) (target_ : TargetPlatform).
Context (parseFloating : bytes → bool).
Local Abbreviation ok := (ok tokens_).
Local Abbreviation moved := (moved tokens_).
Local Abbreviation here := (here tokens_).
Local Abbreviation self := (self tokens_ target_ parseFloating).
Local Abbreviation declares := (declares tokens_).

Lemma self_entries : entries_ok tokens_ self 0.
Proof using Hended. apply entries_spec; [done|lia]. Qed.
Lemma self_calls st : ok st →
  runs (e_expression self) st (gives_expression tokens_ st) ∧
  ∀ tail, runs (e_block self tail) st (gives_block tokens_ st).
Proof using Hended.
  intros Ho. destruct (parser_entries_spec tokens_ Hended target_ parseFloating st Ho) as (H1 & _ & H3). done.
Qed.

(** The invariant between declarations. *)
Record good (st : Parser) : Prop := mkGood {
  good_ok : ok st;
  good_filed : nodes_in (tree st) (declared_nodes (program_ st));
  good_plain : plain_attributes (program_ st);
}.

Lemma good_moved st s : good st → moved st s → good s.
Proof.
  intros [Ho Hn Hp] Hm. destruct Hm as [Hos _ He Hf]. apply pair_equal_spec in Hf as [_ Hf].
  split; [done| |by rewrite (plain_attributes_eq _ _ Hf)].
  rewrite (declared_nodes_eq _ _ Hf). by eapply nodes_in_extends.
Qed.
Lemma declared_nodes_declare ss es st :
  flat_map struct_nodes ss = [] → flat_map enum_nodes es = [] →
  declared_nodes (program_ (declare ss es st)) = declared_nodes (program_ st).
Proof. intros Hs He. unfold declared_nodes. cbn. by rewrite !flat_map_app, Hs, He, !app_nil_r. Qed.
Lemma good_declares ss es st s : good st → declares ss es st s → good s.
Proof.
  intros Hg Hd. pose proof (declares_extends _ _ _ _ _ Hd) as Hx. pose proof (declares_declared _ _ _ _ _ Hd) as Hdd.
  split; [by eapply declares_ok| |rewrite (plain_attributes_eq _ _ Hdd); apply Hg].
  rewrite (declared_nodes_eq _ _ Hdd). destruct Hd as (Hs & He & _).
  rewrite declared_nodes_declare by done. eapply nodes_in_extends; [done|]. apply Hg.
Qed.

(** Members that [Program] keeps besides the arena. *)
Lemma good_keep keep st :
  ok st → arena (keep (program_ st)) = arena (program_ st) →
  nodes_in (tree st) (declared_nodes (keep (program_ st))) → plain_attributes (keep (program_ st)) →
  good (set_program keep st).
Proof.
  intros [? Hb ? ? ?] Ha Hn Hp.
  assert (tree (set_program keep st) = tree st) as Ht by exact Ha.
  split; [|by rewrite Ht|done]. split; try done. by rewrite Ht.
Qed.

(** Attributes that refer to nodes of the tree are attached to a function. *)
Lemma good_attached st id f g :
  good st → pr_functions (program_ st) !! id = Some f → function_nodes (g f) = function_nodes f →
  nodes_in (tree st) (attached_nodes (g f)) → good (set_program (set_functions (alter g id)) st).
Proof.
  intros [[? Hb ? ? ?] Hn Hp] Hl Hf Ha. split; [split; try done| |done].
  - unfold tree, arena. cbn. rewrite (list_alter_Some _ _ _ _ Hl).
    by apply built_attach with f.
  - eapply Forall_impl; [exact Hn|]. intros [i|i|i|i]; cbn; try done.
    by rewrite (list_alter_Some _ _ _ _ Hl), length_insert.
Qed.

(** What a declaration does between the state [b] before its attributes and [s]. *)
Record kept (b : Parser) (parsed : ParsedAttributes) (s : Parser) : Prop := mkKept {
  kept_good : good s;
  kept_tree : extends (tree b) (tree s);
  kept_counters : counters s = counters b;
  kept_current : current_ b < current_ s;
  kept_unselected : pa_selected parsed = false → program_ s = program_ b;
}.

Lemma moved_parts st s : moved st s → counters s = counters st ∧ declared (program_ s) = declared (program_ st).
Proof. intros [_ _ _ Hf]. by apply pair_equal_spec in Hf. Qed.

Lemma kept_keep b parsed keep s :
  pa_selected parsed = true → moved b s → current_ b < current_ s →
  arena (keep (program_ s)) = arena (program_ s) →
  nodes_in (tree s) (declared_nodes (keep (program_ s))) → plain_attributes (keep (program_ s)) →
  kept b parsed (set_program keep s).
Proof.
  intros Hp Hm Hc Ha Hn Hpl. pose proof (moved_parts _ _ Hm) as [Hk _]. split.
  - apply good_keep; [apply Hm|done|done|done].
  - change (tree (set_program keep s)) with (arena (keep (program_ s))). rewrite Ha. apply Hm.
  - exact Hk.
  - exact Hc.
  - congruence.
Qed.

Lemma kept_restored b parsed s :
  good b → moved b s → current_ b < current_ s →
  kept b parsed (set_program (restore (program_ b)) s).
Proof.
  intros Hg Hm Hc. pose proof (moved_program _ _ _ Hm) as Hp.
  pose proof (moved_restored _ _ _ (good_ok _ Hg) Hm) as Hm'. split.
  - by eapply good_moved.
  - apply Hm'.
  - by apply moved_parts in Hm' as [Hk _].
  - exact Hc.
  - by intros _.
Qed.

Lemma keep_selected_spec b parsed keep s :
  good b → moved b s → current_ b < current_ s →
  (arena (keep (program_ s)) = arena (program_ s)) →
  nodes_in (tree s) (declared_nodes (keep (program_ s))) →
  plain_attributes (keep (program_ s)) →
  runs (keep_selected (program_ b) parsed keep) s (λ _ s', kept b parsed s').
Proof.
  intros Hg Hm Hc Ha Hn Hpl. unfold keep_selected. destruct (pa_selected parsed) eqn:E; apply runs_modify.
  - by apply kept_keep.
  - by apply kept_restored.
Qed.

Lemma filed_moved b s : good b → moved b s → nodes_in (tree s) (declared_nodes (program_ s)).
Proof. intros Hg Hm. apply (good_moved b s Hg Hm). Qed.
Lemma plain_moved b s : good b → moved b s → plain_attributes (program_ s).
Proof. intros Hg Hm. apply (good_moved b s Hg Hm). Qed.

(** Splits the references of the declarations. *)
Ltac declared_parts :=
  match goal with Hg : good ?b, Hm : moved ?b ?s |- nodes_in (tree ?s) (declared_nodes _) =>
    let H := fresh in pose proof (filed_moved b s Hg Hm) as H; unfold declared_nodes in H;
    repeat (apply nodes_in_app in H as [? H])
  end;
  unfold declared_nodes; cbn [pr_structs pr_enums pr_contracts pr_attributeDeclarations set_structs set_enums
    set_contracts set_attributeDeclarations]; repeat (apply nodes_in_app; split); try assumption;
  apply nodes_in_snoc; split; [assumption|].

Section cases.
Context (b s1 : Parser) (parsed : ParsedAttributes).
Context (Hb : good b) (Hm : moved b s1) (Ha : nodes_in (tree s1) (flat_map attribute_nodes (pa_applications parsed))).

Lemma expression_calls (st : Parser) : ok st → runs (e_expression self) st (gives_expression tokens_ st).
Proof using Hended. apply self_calls. Qed.
Lemma block_calls tail (st : Parser) : ok st → runs (e_block self tail) st (gives_block tokens_ st).
Proof using Hended. intros. by apply self_calls. Qed.

Lemma attributes_later (s : Parser) : moved s1 s → nodes_in (tree s) (flat_map attribute_nodes (pa_applications parsed)).
Proof using Ha. intros Hs. eapply nodes_in_extends; [apply Hs|done]. Qed.

(** Behind a declaration that only moves. *)
Ltac parsed_declaration :=
  let d := fresh "d" in let s := fresh "s" in let Hs := fresh "Hs" in let Hn := fresh "Hn" in let Hp := fresh "Hp" in
  intros d s (Hs & Hn & Hp); specialize (Hp ltac:(assumption)); pose proof (attributes_later s Hs);
  pose proof (mv_current _ _ _ Hm);
  assert (moved b s) by (by eapply moved_trans);
  apply keep_selected_spec; [done|done|lia|done| |by eapply plain_moved].

Lemma struct_case_spec (service : bool) :
  here s1 = (if service then TokenKind.Service else TokenKind.Struct) →
  runs (struct_case tokens_ target_ parseFloating (program_ b) parsed service) s1 (λ _ s, kept b parsed s).
Proof using Hended Hb Hm Ha.
  intros Hh. unfold struct_case. step.
  eapply runs_mono; [apply (structDeclaration_spec tokens_ Hended target_ self self_entries expression_calls block_calls), Hm|].
  parsed_declaration. declared_parts. by apply nodes_in_app.
Qed.

Lemma methods_case_spec :
  here s1 = TokenKind.Methods →
  runs (methods_case tokens_ target_ parseFloating (program_ b) parsed) s1 (λ _ s, kept b parsed s).
Proof using Hended Hb Hm Ha.
  intros Hh. unfold methods_case. pose proof (mv_ok _ _ _ Hm) as Ho. start Hs. step.
  eapply runs_mono with (R := λ _ s, moved s1 s ∧ here s = here s1 ∧ current_ s = current_ s1).
  { destruct (pa_applications parsed); [by step|]. eapply report_spec; [done|]. intros s Hs' Hc.
    split_and!; [done|by apply here_same|done]. }
  intros _ s (Hs' & Hh' & Hc). step.
  eapply runs_mono; [apply (methodsDeclaration_spec tokens_ Hended target_ self self_entries block_calls), Hs'|].
  intros _ s2 [Hs2 Hp]. specialize (Hp ltac:(congruence)). pose proof (mv_current _ _ _ Hm).
  assert (moved b s2) as Hbs by (do 2 (eapply moved_trans; [done|]); done).
  apply keep_selected_spec; [done|done|lia|done| |by eapply plain_moved]. by eapply filed_moved.
Qed.

Lemma enum_case_spec :
  here s1 = TokenKind.Enum →
  runs (enum_case tokens_ target_ parseFloating (program_ b) parsed) s1 (λ _ s, kept b parsed s).
Proof using Hended Hb Hm Ha.
  intros Hh. unfold enum_case. step.
  eapply runs_mono; [apply (enumDeclaration_spec tokens_ Hended target_ self self_entries block_calls), Hm|].
  parsed_declaration. declared_parts. by apply nodes_in_app.
Qed.

Lemma contract_case_spec :
  here s1 = TokenKind.Contract →
  runs (contract_case tokens_ target_ parseFloating (program_ b) parsed) s1 (λ _ s, kept b parsed s).
Proof using Hended Hb Hm Ha.
  intros Hh. unfold contract_case. step.
  eapply runs_mono; [apply (contractDeclaration_spec tokens_ Hended target_ self self_entries block_calls), Hm|].
  parsed_declaration. declared_parts. by apply nodes_in_app.
Qed.

Lemma attribute_case_spec :
  here s1 = TokenKind.Attribute →
  runs (attribute_case tokens_ target_ parseFloating (program_ b) parsed) s1 (λ _ s, kept b parsed s).
Proof using Hended Hb Hm Ha.
  intros Hh. unfold attribute_case. step.
  eapply runs_mono; [apply (attributeDeclaration_spec tokens_ Hended target_ self self_entries), Hm|].
  intros d s (Hs & Hn & Hp). specialize (Hp Hh). pose proof (mv_ok _ _ _ Hs). step.
  eapply runs_mono with (R := λ _ s', moved s s').
  { destruct (pa_applications parsed); [step; by apply moved_refl|]. by eapply report_spec. }
  intros _ s2 Hs2. pose proof (mv_current _ _ _ Hm). pose proof (mv_current _ _ _ Hs2).
  assert (moved b s2) as Hbs by (do 2 (eapply moved_trans; [done|]); done).
  apply keep_selected_spec; [done|done|lia|done| |].
  - declared_parts. apply nodes_in_flat. eapply Forall_impl; [exact Hn|]. intros p Hp'. unfold parameter_nodes.
    rewrite Hp'. constructor.
  - apply Forall_app. split; [by eapply plain_moved|by apply Forall_singleton].
Qed.

(** ** Functions of their own *)

Lemma kept_function f s :
  gives_function tokens_ s1 f s → current_ b < current_ s → ∀ blocking callback,
  runs (keep_selected (program_ b) parsed
          (set_functions (λ l, l ++ [set_attributes (pa_applications parsed) blocking callback f]))) s
    (λ _ s', kept b parsed s').
Proof using Hb Hm Ha.
  intros (Hs & Hf & _) Hc blocking callback. assert (moved b s) as Hbs by (by eapply moved_trans).
  unfold keep_selected. destruct (pa_selected parsed) eqn:E; apply runs_modify; [|by apply kept_restored].
  set (g := set_attributes _ _ _ _). set (s' := set_program _ s).
  assert (moved s s') as Hs'.
  { apply moved_add; [apply Hs|done|done| |].
    - subst s'. unfold tree, arena. cbn. apply built_function; [apply (ok_built _ _ (mv_ok _ _ _ Hs))|].
      by apply set_attributes_nodes; [|apply attributes_later].
    - split; cbn; try done. by apply prefix_app_r. }
  pose proof (moved_trans _ _ _ _ Hbs Hs') as Hbs'. split.
  - by eapply good_moved.
  - apply Hbs'.
  - by apply moved_parts in Hbs' as [Hk _].
  - exact Hc.
  - congruence.
Qed.

Lemma function_case_spec external task :
  here s1 = function_token external task →
  runs (function_case tokens_ target_ parseFloating (program_ b) parsed external task) s1 (λ _ s, kept b parsed s).
Proof using Hended Hb Hm Ha.
  intros Hh. unfold function_case. step.
  eapply runs_mono; [apply (function_spec tokens_ Hended target_ self self_entries block_calls), Hm|].
  intros f s [Hf Hp]. specialize (Hp Hh). apply kept_function; [done|]. pose proof (mv_current _ _ _ Hm). lia.
Qed.

Lemma test_case_spec :
  here s1 ≠ TokenKind.Eof →
  runs (test_case tokens_ target_ parseFloating (program_ b) parsed) s1 (λ _ s, kept b parsed s).
Proof using Hended Hb Hm Ha.
  intros Hh. unfold test_case. step.
  eapply runs_mono; [apply (testDeclaration_spec tokens_ Hended self block_calls); [apply Hm|done]|].
  intros f s [Hf Hp]. apply kept_function; [done|]. pose proof (mv_current _ _ _ Hm). lia.
Qed.

Lemma constructor_case_spec :
  here s1 = TokenKind.Ctor →
  runs (constructor_case tokens_ target_ parseFloating (program_ b)) s1 (λ _ s, kept b parsed s).
Proof using Hended Hb Hm Ha.
  intros Hh. unfold constructor_case. pose proof (mv_ok _ _ _ Hm) as Ho. start Hs. repeat straight.
  eapply runs_mono; [by apply (discardConstructor_spec tokens_ Hended target_ self self_entries block_calls)|].
  intros _ s [Hs' Hp]. specialize (Hp ltac:(congruence)). pose proof (mv_current _ _ _ Hm). apply runs_modify.
  apply kept_restored; [done| |lia]. do 2 (eapply moved_trans; [done|]). done.
Qed.

(** ** State machines and workflows *)

(** Back to a program before declarations were added. *)
Lemma restored_declares ss es s :
  declares ss es s1 s →
  set_enums (take (length (pr_enums (program_ s1))))
    (set_structs (take (length (pr_structs (program_ s1)))) (restore (program_ b) (program_ s))) = program_ b.
Proof using Hm.
  intros Hd. pose proof (declares_extends _ _ _ _ _ Hd) as He. apply program_eq.
  - change (arena (restore (program_ b) (program_ s)) = arena (program_ b)). apply restore_tree.
    etrans; [apply Hm|exact He].
  - pose proof (declares_declared _ _ _ _ _ Hd) as Hx. pose proof (moved_parts _ _ Hm) as [_ Hy].
    unfold declared in *. cbn in *. injection Hx. injection Hy. intros.
    repeat match goal with H : _ = _ |- _ => rewrite H; clear H end.
    by rewrite !take_app_length.
Qed.
Lemma restored_enums es s :
  declares [] es s1 s →
  set_enums (take (length (pr_enums (program_ s1)))) (restore (program_ b) (program_ s)) = program_ b.
Proof using Hm.
  intros Hd. etrans; [|exact (restored_declares _ _ _ Hd)]. f_equal.
  pose proof (declares_declared _ _ _ _ _ Hd) as Hx. unfold declared in Hx. cbn in Hx. injection Hx. intros.
  apply program_eq; [done|]. unfold declared. cbn. f_equal. f_equal. f_equal. f_equal.
  match goal with H : pr_structs (program_ s) = _ |- _ => rewrite H, app_nil_r end. by rewrite firstn_all.
Qed.

(** A state with the program of [b], behind [b] and with its counters. *)
Lemma kept_back s :
  program_ s = program_ b → counters s = counters b → current_ b < current_ s < length tokens_ →
  kept b parsed s.
Proof using Hb.
  intros Hp Hk [Hc Hl]. assert (tree s = tree b) as Ht by (unfold tree; by rewrite Hp).
  destruct Hb as [[? ? H1 H2 H3] Hn Hpl]. split; [|by rewrite Ht|done|done|done].
  split; [|by rewrite Ht, Hp|by rewrite Hp]. unfold counters in Hk. injection Hk as E1 E2 E3 E4 E5 E6 E7 E8.
  split; [done|by rewrite Ht|lia|lia|lia].
Qed.

Lemma machine_case_spec :
  here s1 = TokenKind.StateMachine →
  runs (machine_case tokens_ target_ parseFloating (program_ b) parsed) s1 (λ _ s, kept b parsed s).
Proof using Hended Hb Hm Ha.
  intros Hh. unfold machine_case. step. step. step.
  eapply runs_mono; [apply (stateMachineDeclaration_spec tokens_ Hended target_ self self_entries), Hm|].
  intros _ s [(es & Hd) Hp]. specialize (Hp Hh). pose proof (mv_current _ _ _ Hm).
  pose proof (declares_counters _ _ _ _ _ Hd) as Hk. pose proof (moved_parts _ _ Hm) as [Hk1 _].
  pose proof (declares_extends _ _ _ _ _ Hd) as He. pose proof (declares_ok _ _ _ _ _ Hd) as Hos.
  destruct (pa_selected parsed) eqn:E.
  - apply runs_modify. pose proof (good_declares _ _ _ _ (good_moved _ _ Hb Hm) Hd) as [_ Hn Hpl].
    pose proof (nodes_in_extends _ _ _ He Ha) as Ha'.
    split; [|etrans; [apply Hm|exact He]|by etrans|cbn; lia|congruence].
    apply good_keep; [done|done| |done]. unfold declared_nodes in *.
    apply nodes_in_app in Hn as [Hn1 [Hn2 Hn3]%nodes_in_app]. apply nodes_in_app. split; [done|].
    apply nodes_in_app. split; [|done]. cbn [pr_enums set_enums].
    destruct (pr_enums (program_ s) !! length (pr_enums (program_ s1))) as [e|] eqn:El.
    + rewrite (list_alter_Some _ _ _ _ El). rewrite nodes_in_flat in *. apply Forall_insert; [done|].
      apply nodes_in_app. split; [done|]. rewrite Forall_lookup in Hn2. specialize (Hn2 _ _ El).
      by apply nodes_in_app in Hn2 as [_ Hn2].
    + by rewrite (list_alter_None _ _ _ El).
  - step. apply runs_modify. apply runs_modify. apply kept_back.
    + exact (restored_enums _ _ Hd).
    + change (counters s = counters b). congruence.
    + split; [cbn; lia|apply Hos].
Qed.

(** The attributes go to the function with the index counted before them. *)
Lemma workflow_case_spec kind :
  here s1 = (workflow_word kind).1 →
  runs (workflow_case tokens_ target_ parseFloating (program_ b) parsed kind) s1 (λ _ s, kept b parsed s).
Proof using Hended Hb Hm Ha.
  intros Hh. unfold workflow_case. step. step. step.
  eapply runs_mono; [apply (workflowDeclaration_spec tokens_ Hended target_ self self_entries), Hm|].
  intros _ s [(ss & es & Hd) Hp]. specialize (Hp Hh). pose proof (mv_current _ _ _ Hm).
  pose proof (declares_counters _ _ _ _ _ Hd) as Hk. pose proof (moved_parts _ _ Hm) as [Hk1 _].
  pose proof (declares_extends _ _ _ _ _ Hd) as He. pose proof (declares_ok _ _ _ _ _ Hd) as Hos.
  destruct (pa_selected parsed) eqn:E.
  - apply runs_modify. pose proof (good_declares _ _ _ _ (good_moved _ _ Hb Hm) Hd) as Hg.
    pose proof (nodes_in_extends _ _ _ He Ha) as Ha'.
    assert (extends (tree b) (tree s)) as [Hx1 Hx2 Hx3 Hx4] by (etrans; [apply Hm|exact He]).
    set (g := λ f, set_attributes (pa_applications parsed) (fn_blocking f) (fn_callback f) f).
    destruct (pr_functions (program_ s) !! length (pr_functions (program_ b))) as [f|] eqn:El.
    + split; [|split; cbn; try done; rewrite (list_alter_Some _ _ _ _ El); by apply prefix_insert_past
        |by etrans|cbn; lia|congruence].
      apply good_attached with f; [done|done|done|done].
    + assert (set_functions (alter g (length (pr_functions (program_ b)))) (program_ s) = program_ s) as Hi.
      { apply program_eq; [|done]. unfold arena. cbn. by rewrite (list_alter_None _ _ _ El). }
      destruct s as [d p]. unfold set_program. cbn [program_] in *. rewrite Hi.
      split; [done|by split|by etrans|cbn in *; lia|congruence].
  - step. apply runs_modify. apply runs_modify. apply kept_back.
    + exact (restored_declares _ _ _ Hd).
    + change (counters s = counters b). congruence.
    + split; [cbn; lia|apply Hos].
Qed.

(** ** One declaration *)

(** The keywords a declaration starts with. *)
Definition declaration_kinds : list TokenKind :=
  [TokenKind.Struct; TokenKind.Service; TokenKind.Methods; TokenKind.Enum; TokenKind.StateMachine;
   TokenKind.Pipeline; TokenKind.Saga; TokenKind.Contract; TokenKind.Attribute; TokenKind.Fn; TokenKind.Task;
   TokenKind.Test; TokenKind.Extern; TokenKind.Ctor].
Definition starts_declaration (st : Parser) : bool :=
  bool_decide (here st ∈ declaration_kinds) ||
  (bool_decide (here st = TokenKind.Identifier) &&
   bool_decide (tok_text (token_at tokens_ (current_ st)) = lit "test")).

(** What every declaration does; one that is not recognised leaves what its attributes added. *)
Record declaration_done (s : Parser) : Prop := mkDone {
  done_good : good s;
  done_tree : extends (tree b) (tree s);
  done_counters : counters s = counters b;
  done_current : current_ b < current_ s;
  done_unselected : pa_selected parsed = false → starts_declaration s1 = true → program_ s = program_ b;
}.

Lemma done_kept s : kept b parsed s → declaration_done s.
Proof. intros [? ? ? ? Hu]. split; auto. Qed.

Lemma first_case_spec (cases : list (TokenKind * P ())) (otherwise : P ()) (Q : () → Parser → Prop) :
  Forall (λ c, here s1 = c.1 → runs c.2 s1 (λ _ s, kept b parsed s)) cases →
  (∀ s, kept b parsed s → Q () s) → (Forall (λ c, here s1 ≠ c.1) cases → runs otherwise s1 Q) →
  runs (first_case tokens_ cases otherwise) s1 Q.
Proof using Hm.
  intros Hc HQ Ho. induction Hc as [|[kind body] cases Hk Hc IH]; cbn [first_case].
  { by apply Ho. }
  step. apply (check_spec tokens_); [apply Hm|]. case_bool_decide as E.
  - eapply runs_mono; [by apply Hk|]. intros [] s Hs. by apply HQ.
  - apply IH. intros Hne. apply Ho. by constructor.
Qed.

Lemma attributed_declaration_spec :
  here b ≠ TokenKind.Eof →
  runs (attributed_declaration tokens_ target_ parseFloating (program_ b) parsed) s1 (λ _ s, declaration_done s).
Proof using Hended Hb Hm Ha.
  intros He. unfold attributed_declaration. apply first_case_spec.
  { repeat apply List.Forall_cons; cbn [fst snd]; try apply List.Forall_nil.
    - apply (struct_case_spec false).
    - apply (struct_case_spec true).
    - apply methods_case_spec.
    - apply enum_case_spec.
    - apply machine_case_spec.
    - apply (workflow_case_spec Pipeline).
    - apply (workflow_case_spec Saga).
    - apply contract_case_spec.
    - apply attribute_case_spec.
    - apply (function_case_spec false false).
    - apply (function_case_spec false true).
    - intros Hh. apply test_case_spec. by rewrite Hh. }
  { apply done_kept. }
  intros Hne1. step. unfold keyword. pose proof (mv_ok _ _ _ Hm) as Hos. repeat straight. apply runs_if; intros E1.
  { apply andb_true_iff in E1 as [E1%bool_decide_eq_true _]. eapply runs_mono; [apply test_case_spec; by rewrite E1|].
    intros ? s Hk. by apply done_kept. }
  apply first_case_spec.
  { repeat apply List.Forall_cons; cbn [fst snd]; try apply List.Forall_nil.
    - apply (function_case_spec true false).
    - apply constructor_case_spec. }
  { apply done_kept. }
  intros Hne2. eapply runs_mono; [by apply (skip_bad_behind tokens_ Hended _ _ b)|]. intros _ s2 [Hs2 Hp].
  assert (moved b s2) as Hbs by (by eapply moved_trans). split.
  - by eapply good_moved.
  - apply Hbs.
  - by apply moved_parts in Hbs as [Hk _].
  - exact Hp.
  - intros _ Hstart. exfalso. unfold starts_declaration in Hstart. apply orb_true_iff in Hstart as [Hstart|Hstart].
    + apply bool_decide_eq_true in Hstart. unfold declaration_kinds in Hstart. unfold declaration_cases in Hne1.
      repeat match goal with H : Forall _ (_ :: _) |- _ => apply Forall_cons in H as [? H] end.
      cbn [fst] in *.
      repeat (apply elem_of_cons in Hstart as [Hstart|Hstart]; [congruence|]). by apply not_elem_of_nil in Hstart.
    + congruence.
Qed.


End cases.

(** ** Files *)

Lemma declaration_spec b :
  good b → here b ≠ TokenKind.Eof →
  runs (declaration tokens_ target_ parseFloating) b
    (λ _ s, good s ∧ extends (tree b) (tree s) ∧ counters s = counters b ∧ current_ b < current_ s).
Proof using Hended.
  intros Hb He. unfold declaration. step. step. step.
  eapply runs_mono; [apply (attributes_spec_0 tokens_ Hended target_ self self_entries), Hb|].
  intros parsed s1 (Hm & Ha & _). eapply runs_mono; [by apply attributed_declaration_spec|].
  intros ? s []. done.
Qed.

(** A declaration that the target does not select leaves the program as it was. *)
Lemma unselected_declaration b parsed s1 s :
  good b → here b ≠ TokenKind.Eof →
  attributes tokens_ target_ self true b = Some (parsed, s1) →
  pa_selected parsed = false → starts_declaration s1 = true →
  declaration tokens_ target_ parseFloating b = Some ((), s) → program_ s = program_ b.
Proof using Hended.
  intros Hb He Hp Hu Hs Hd.
  pose proof (attributes_spec_0 tokens_ Hended target_ self self_entries true b (good_ok _ Hb)) as Hr.
  unfold runs in Hr. rewrite Hp in Hr. destruct Hr as (Hm & Ha & _).
  pose proof (attributed_declaration_spec b s1 parsed Hb Hm Ha He) as Hk. unfold runs in Hk.
  unfold declaration, mbind, P_bind, get in Hd. rewrite Hp in Hd. rewrite Hd in Hk. by apply Hk.
Qed.

Lemma declarations_spec st :
  good st → runs (declarations tokens_ target_ parseFloating) st
    (λ _ s, good s ∧ extends (tree st) (tree s) ∧ counters s = counters st ∧ here s = TokenKind.Eof).
Proof using Hended.
  intros Hg. unfold declarations.
  apply (turns_loop_spec tokens_ (λ _ s, good s ∧ extends (tree st) (tree s) ∧ counters s = counters st));
    [intros ? ? [H _]; apply H| |done].
  intros u s (Hs & He & Hk). pose proof (good_ok _ Hs) as Hos. repeat straight. apply runs_if; intros E.
  - apply bool_decide_eq_true in E. step. done.
  - apply bool_decide_eq_false in E. step. eapply runs_mono; [by apply declaration_spec|].
    intros ? s' (Hs' & He' & Hk' & Hc). step. split; [|done]. split_and!; [done|by etrans|congruence].
Qed.

(** Members that refer to no node are set. *)
Lemma good_set keep st :
  good st → arena (keep (program_ st)) = arena (program_ st) →
  declared_nodes (keep (program_ st)) = declared_nodes (program_ st) →
  pr_attributeDeclarations (keep (program_ st)) = pr_attributeDeclarations (program_ st) → good (set_program keep st).
Proof.
  intros [Ho Hn Hp] Ha Hd He. apply good_keep; [done|done|by rewrite Hd|]. unfold plain_attributes. by rewrite He.
Qed.

Definition heads (st s : Parser) : Prop := good s ∧ tree s = tree st ∧ counters s = counters st.

Lemma package_declaration_spec st :
  good st → runs (package_declaration tokens_) st (λ _ s, good s ∧ extends (tree st) (tree s) ∧ counters s = counters st).
Proof using Hended.
  intros Hg. pose proof (good_ok _ Hg) as Ho. start Hm. unfold package_declaration. step. step; step; [|by step].
  step. apply (qualifiedName_spec tokens_ Hended); [done|right; lia|]. intros [name span] s Hs _. absorb Hs.
  step. apply runs_modify. pose proof (good_moved _ _ Hg Hm) as Hg'.
  pose proof (good_set (set_package name) _ Hg' eq_refl eq_refl eq_refl) as Hg''.
  pose proof (moved_parts _ _ Hm) as [Hk _]. pose proof (mv_tree _ _ _ Hm) as He.
  destruct name; [|by step]. eapply report_spec; [apply Hg''|]. intros s2 Hs2 _.
  split_and!; [by eapply good_moved|etrans; [exact He|apply Hs2]|].
  apply moved_parts in Hs2 as [Hs2 _]. by etrans.
Qed.

Lemma import_declaration_spec st :
  ok st → 0 < current_ st → runs (import_declaration tokens_) st (λ _ s, moved st s).
Proof using Hended.
  intros Ho Hc. start Hm. unfold import_declaration. step.
  apply (qualifiedName_spec tokens_ Hended); [done|right; lia|]. intros [name span] s Hs _. absorb Hs.
  repeat straight. test. step. quiet; [by repeat step|]. by step.
Qed.

Lemma import_declarations_spec st :
  good st → runs (import_declarations tokens_) st (λ _ s, good s ∧ extends (tree st) (tree s) ∧ counters s = counters st).
Proof using Hended.
  intros Hg. unfold import_declarations.
  apply (turns_loop_spec tokens_ (λ _ s, good s ∧ extends (tree st) (tree s) ∧ counters s = counters st));
    [intros ? ? [H _]; apply H| |done].
  intros u s (Hs & He & Hk). pose proof (good_ok _ Hs) as Hos. start Hm. step. step; step; [|by step].
  step. eapply runs_mono; [apply import_declaration_spec; [done|lia]|]. intros d s2 Hs2. cbn beta in Hs2. absorb Hs2.
  step. apply runs_modify, runs_ret. pose proof (moved_parts _ _ Hm) as [Hk' _]. pose proof (mv_tree _ _ _ Hm).
  split; [|cbn; lia]. split_and!; [|by etrans|by etrans].
  by apply good_set; [eapply good_moved|..].
Qed.

Lemma parser_start_good diagnostics : 0 < length tokens_ → good (parser_start diagnostics).
Proof. intros Hl. split; [split; cbn; try lia; constructor|constructor|constructor]. Qed.

Lemma ended_nonempty : 0 < length tokens_.
Proof using Hended. destruct Hended as (t & Hl & _). destruct tokens_; [done|cbn; lia]. Qed.

Lemma parse_program_spec install diagnostics :
  runs (parse_program tokens_ target_ parseFloating install) (parser_start diagnostics)
    (λ _ s, good s ∧ counters s = counters (parser_start diagnostics) ∧ here s = TokenKind.Eof).
Proof using Hended.
  pose proof (parser_start_good diagnostics ended_nonempty) as Hg. unfold parse_program. step.
  eapply (runs_mono _ _ _ (λ _ s, good s ∧ counters s = counters (parser_start diagnostics))).
  { step; [|by step]. apply runs_modify. split; [|done]. by apply good_set. }
  intros _ s1 [Hg1 Hk1]. step. eapply runs_mono; [by apply package_declaration_spec|]. intros _ s2 (Hg2 & _ & Hk2).
  step. eapply runs_mono; [by apply import_declarations_spec|]. intros _ s3 (Hg3 & _ & Hk3).
  eapply runs_mono; [by apply declarations_spec|]. intros _ s4 (Hg4 & _ & Hk4 & He). split_and!; [done|congruence|done].
Qed.

End program.
