(* ===== verification/ProgramTheorems.v ===== *)
(** * Theorems about whole files

    A source text is read by the lexer and parsed to a program without dangling or
    circular references; declarations for other targets leave no trace; what the
    parser generates for state machines. *)
From S2P Require Import Prelude Target Diagnostics Token Lexer Ast AstGraph ParserState ParserTypes ParserExpressions ParserStatements ParserDeclarations ParserMachines ParserProgram ParserSpec ParserSafety ParserProofs StatementProofs DeclarationProofs MachineProofs ProgramProofs.

(** ** From a source text to a program *)

(** One file of a project: [Lexer], [Parser] and [parse] of loadProject in
    compiler/src/project.cpp. *)
Definition parse_source (target_ : TargetPlatform) (parseFloating : bytes → bool) (contents : bytes) (index : nat)
    (diagnostics : Diagnostics) : option (Program * Diagnostics) :=
  '(tokens, lexer) ← scan contents index diagnostics;
  parse tokens target_ parseFloating (bool_decide (index = 0)) (Lexer.diagnostics_ lexer).

Lemma lexed_ended source sourceId from tokens : lexed source sourceId from tokens → ended tokens.
Proof.
  induction 1 as [from start t Hg Ht Hp Hk|from start t stop ts Hg Ht Hp Hk Hl IH].
  - by exists t.
  - destruct IH as (u & Hu & Huk). exists u. split; [|done]. destruct ts; [done|exact Hu].
Qed.

Lemma parse_well_formed tokens_ target_ parseFloating install diagnostics :
  ended tokens_ → ∃ p d, parse tokens_ target_ parseFloating install diagnostics = Some (p, d) ∧ well_formed p.
Proof.
  intros He. pose proof (parse_program_spec tokens_ He target_ parseFloating install diagnostics) as H.
  unfold runs in H. unfold parse. destruct (parse_program _ _ _ _ _) as [[u st]|]; [|done].
  destruct H as ([[_ Hb _ _ _] Hn Hp] & _). exists (program_ st), (ParserState.diagnostics_ st). split; [done|].
  split; [by apply built_ranked|by apply built_attached|done|done].
Qed.

Lemma parse_source_total target_ parseFloating contents index diagnostics :
  ∃ p d, parse_source target_ parseFloating contents index diagnostics = Some (p, d) ∧ well_formed p.
Proof.
  destruct (scan_lexed contents index diagnostics) as (tokens & st & Hs & Hl).
  unfold parse_source. rewrite Hs. apply parse_well_formed. by eapply lexed_ended.
Qed.

(** C32: every source text is read and parsed: the lexer and the parser end on it
    without an access outside a vector, whatever the text is.  In the program every
    reference of a node, of an attribute and of a declaration is in range, and
    following the references of a node ends. *)
Theorem source_parsed (target_ : TargetPlatform) (parseFloating : bytes → bool) (contents : bytes) (index : nat)
    (diagnostics : Diagnostics) :
  ∃ p d, parse_source target_ parseFloating contents index diagnostics = Some (p, d) ∧ well_formed p.
Proof. apply parse_source_total. Qed.

(** ** Target selection *)

(** C33: a declaration that its [@target] attribute does not select is parsed and
    leaves the program exactly as it was before its attributes, closures and nested
    functions included. *)
Theorem unselected_forgotten (tokens_ : list Token) (target_ : TargetPlatform) (parseFloating : bytes → bool)
    (st s1 s : Parser) (parsed : ParsedAttributes) :
  ended tokens_ → good tokens_ st → here tokens_ st ≠ TokenKind.Eof →
  attributes tokens_ target_ (self tokens_ target_ parseFloating) true st = Some (parsed, s1) →
  pa_selected parsed = false → starts_declaration tokens_ s1 = true →
  declaration tokens_ target_ parseFloating st = Some ((), s) → program_ s = program_ st.
Proof. intros He. by apply unselected_declaration. Qed.

(** ** Attributes of workflows *)

(** When an argument of the attributes of a pipeline or saga contains a closure,
    the attributes are attached to that closure and not to the workflow: the closure
    has the index that was counted before the attributes were parsed. *)
Theorem workflow_attributes_misplaced (tokens_ : list Token) (target_ : TargetPlatform)
    (parseFloating : bytes → bool) (b s1 s : Parser) (parsed : ParsedAttributes) (kind : WorkflowKind)
    (closure : Function) :
  ended tokens_ → good tokens_ b →
  attributes tokens_ target_ (self tokens_ target_ parseFloating) true b = Some (parsed, s1) →
  pa_selected parsed = true →
  pr_functions (program_ s1) !! length (pr_functions (program_ b)) = Some closure →
  workflow_case tokens_ target_ parseFloating (program_ b) parsed kind s1 = Some ((), s) →
  pr_functions (program_ s) !! length (pr_functions (program_ b)) =
    Some (set_attributes (pa_applications parsed) (fn_blocking closure) (fn_callback closure) closure).
Proof.
  intros He Hb Hp Hs Hl Hw.
  pose proof (attributes_spec_0 tokens_ He target_ _ (self_entries tokens_ He target_ parseFloating) true b
    (good_ok _ _ Hb)) as Hr.
  unfold runs in Hr. rewrite Hp in Hr. destruct Hr as (Hm & _).
  pose proof (workflowDeclaration_spec tokens_ He target_ _ (self_entries tokens_ He target_ parseFloating) kind s1
    (mv_ok _ _ _ Hm)) as Hd.
  unfold workflow_case, mbind, P_bind, get in Hw. unfold runs in Hd.
  destruct (workflowDeclaration _ _ _ _ _) as [[u s2]|]; [|done]. destruct Hd as [(ss & es & Hd) _].
  rewrite Hs in Hw. injection Hw as <-. pose proof (declares_extends _ _ _ _ _ Hd) as [_ _ _ Hx].
  pose proof (prefix_lookup_Some _ _ _ _ Hl Hx) as Hl2. cbn in Hl2. cbn.
  rewrite (list_alter_Some _ _ _ _ Hl2), list_lookup_insert_eq; [done|]. by eapply lookup_lt_Some.
Qed.

(** ** State machines *)

(** The index of the first state with the name of a token. *)
Definition find_state (states : list EnumVariant) (token : Token) : option nat :=
  fst <$> list_find (λ state, ev_name state = tok_text token) states.

Lemma findState_result states token st r st' :
  findState states token st = Some (r, st') → r = find_state states token.
Proof. unfold findState, find_state. destruct (list_find _ _) as [[i v]|]; cbn; by intros [= <- <-]. Qed.

(** One source state, without the reports. *)
Definition source_step (states : list EnumVariant) (timed : bool) (found : list nat * list nat) (source : Token)
    : list nat * list nat :=
  match find_state states source with
  | None => found
  | Some i =>
      if bool_decide (i ∈ found.1) then found
      else (found.1 ++ [i], if timed && negb (bool_decide (i ∈ found.2)) then found.2 ++ [i] else found.2)
  end.

Lemma transition_source_result states timed found source st r st' :
  transition_source states timed found source st = Some (r, st') → r = source_step states timed found source.
Proof.
  unfold transition_source, source_step. destruct found as [sources timeouts]. unfold mbind, P_bind.
  destruct (findState states source st) as [[o s]|] eqn:E; [|done]. apply findState_result in E as ->.
  destruct (find_state states source) as [i|]; [|by intros [= <- <-]]. cbn.
  destruct (bool_decide (i ∈ sources)); [by intros [= <- <-]|].
  destruct timed; cbn; [|by intros [= <- <-]]. destruct (bool_decide (i ∈ timeouts)); by intros [= <- <-].
Qed.
Lemma sources_result states timed sources found st r st' :
  for_each sources (transition_source states timed) found st = Some (r, st') →
  r = foldl (source_step states timed) found sources.
Proof.
  revert found st. induction sources as [|source sources IH]; intros found st; cbn; [by intros [= <- <-]|].
  unfold mbind, P_bind. destruct (transition_source _ _ _ _ _) as [[r1 s1]|] eqn:E; [|done].
  apply transition_source_result in E as ->. apply IH.
Qed.

Lemma source_step_spec states timed found source :
  NoDup found.1 → NoDup found.2 →
  let r := source_step states timed found source in
  NoDup r.1 ∧ NoDup r.2 ∧
  (∀ i, i ∈ r.1 ↔ i ∈ found.1 ∨ find_state states source = Some i) ∧
  (∀ i, i ∈ r.2 ↔ i ∈ found.2 ∨ timed = true ∧ i ∈ r.1 ∧ i ∉ found.1).
Proof.
  intros H1 H2. unfold source_step. destruct (find_state states source) as [j|]; cbn [fst snd].
  2: { split_and!; [done|done|naive_solver|naive_solver]. }
  case_bool_decide as Hj; cbn [fst snd].
  { split_and!; [done|done|naive_solver|naive_solver]. }
  assert (∀ l : list nat, NoDup l → j ∉ l → NoDup (l ++ [j])) as Hsnoc.
  { intros l Hl Hn. apply NoDup_app. split_and!; [done|set_solver|apply NoDup_singleton]. }
  assert (∀ (l : list nat) i, i ∈ l ++ [j] ↔ i ∈ l ∨ Some j = Some i) as Hin.
  { intros l i. rewrite elem_of_app, list_elem_of_singleton. naive_solver. }
  split_and!.
  - by apply Hsnoc.
  - destruct timed; cbn; [|done]. case_bool_decide; cbn; [done|by apply Hsnoc].
  - intros i. apply Hin.
  - intros i. rewrite Hin. destruct timed; cbn; [|naive_solver].
    case_bool_decide; cbn; [naive_solver|]. rewrite Hin. naive_solver.
Qed.

(** What the fold over the sources collects. *)
Lemma sources_collected states timed sources found :
  NoDup found.1 → NoDup found.2 →
  let r := foldl (source_step states timed) found sources in
  NoDup r.1 ∧ NoDup r.2 ∧
  (∀ i, i ∈ r.1 ↔ i ∈ found.1 ∨ ∃ source, source ∈ sources ∧ find_state states source = Some i) ∧
  (∀ i, i ∈ r.2 ↔ i ∈ found.2 ∨ timed = true ∧ i ∈ r.1 ∧ i ∉ found.1).
Proof.
  revert found. induction sources as [|source sources IH]; intros found H1 H2; cbn [foldl].
  - split_and!; [done|done| |].
    + intros i. split; [by left|]. intros [Hi|(? & Hs & _)]; [done|]. by apply not_elem_of_nil in Hs.
    + intros i. split; [by left|]. by intros [Hi|(_ & ? & ?)].
  - destruct (source_step_spec states timed found source H1 H2) as (N1 & N2 & S1 & S2).
    destruct (IH _ N1 N2) as (N1' & N2' & E1 & E2). split_and!; [done|done| |].
    + intros i. rewrite E1, S1. setoid_rewrite elem_of_cons. naive_solver.
    + intros i. rewrite E2, S2. destruct (decide (i ∈ (source_step states timed found source).1)) as [Hd|Hd].
      * pose proof (proj2 (E1 i) (or_introl Hd)). naive_solver.
      * pose proof (λ H, Hd (proj2 (S1 i) (or_introl H))). naive_solver.
Qed.

(** The metadata of a transition is resolved exactly: its sources are the distinct
    states that its source names denote, its destination the state that its
    destination name denotes (the first state when there is none), its binding the
    position behind the receiver of the parameter that carries the payload.  A state
    is marked as having a timeout when a timed transition leaves it, and once. *)
Theorem transition_resolved (states : list EnumVariant) (timeouts : list nat) (t : PendingTransition)
    (st st' : Parser) (m : StateTransition) (timeouts' : list nat) :
  NoDup timeouts →
  transition_metadata states timeouts t st = Some ((m, timeouts'), st') →
  NoDup (tr_sourceVariants m) ∧
  (∀ i, i ∈ tr_sourceVariants m ↔ ∃ source, source ∈ pt_sources t ∧ find_state states source = Some i) ∧
  tr_destinationVariant m = default 0 (find_state states (pt_destination t)) ∧
  tr_destinationParameter m =
    (argument ← pt_destinationArgument t;
     (λ p, S p.1) <$> list_find (λ p, param_name p = tok_text argument) (pt_parameters t)) ∧
  tr_timeoutNanoseconds m = pt_timeoutNanoseconds t ∧
  NoDup timeouts' ∧
  (∀ i, i ∈ timeouts' ↔ i ∈ timeouts ∨ is_Some (pt_timeoutNanoseconds t) ∧ i ∈ tr_sourceVariants m).
Proof.
  intros Hn. unfold transition_metadata. unfold mbind at 1, P_bind at 1.
  destruct (for_each _ _ _ _) as [[[sources collected] s1]|] eqn:Es; [|done]. apply sources_result in Es.
  destruct (sources_collected states (bool_decide (is_Some (pt_timeoutNanoseconds t))) (pt_sources t) ([], timeouts)
    (NoDup_nil_2) Hn) as (N1 & N2 & E1 & E2).
  rewrite <- Es in *. cbn [fst snd] in *. unfold mbind at 1, P_bind at 1.
  destruct (transition_destination states t s1) as [[destination s2]|] eqn:Ed; [|done].
  assert (destination = default 0 (find_state states (pt_destination t))) as Hd.
  { unfold transition_destination, mbind, P_bind in Ed.
    destruct (findState _ _ _) as [[o s3]|] eqn:Ef; [|done]. apply findState_result in Ef as ->.
    destruct (find_state _ _) as [i|]; [|by injection Ed]. unfold element in Ed.
    destruct (states !! i); [|done]. cbn in *. by destruct (bool_decide (_ = _)); injection Ed. }
  unfold mbind at 1, P_bind at 1. destruct (transition_binding t s2) as [[binding s3]|] eqn:Eb; [|done].
  intros [= <- <- <-]. cbn. split_and!; [done| |done| |done|done|].
  - intros i. rewrite E1. split; [|by right]. intros [Hi|Hi]; [by apply not_elem_of_nil in Hi|done].
  - unfold transition_binding in Eb. destruct (pt_destinationArgument t) as [argument|]; cbn in *; [|by injection Eb].
    destruct (list_find _ _) as [[i p]|]; by injection Eb.
  - intros i. rewrite E2, bool_decide_eq_true. pose proof (not_elem_of_nil i). naive_solver.
Qed.

(** The timeout of a transition is its amount times its unit when that is positive
    and fits in a signed 64-bit integer; otherwise it is reported and left out.  The
    check with a division keeps the 64-bit product from wrapping. *)
Theorem timeout_exact (magnitude multiplier : N) :
  (0 < multiplier < size_modulus)%N → (magnitude < size_modulus)%N →
  timeout_nanoseconds magnitude (Some multiplier) =
    if (magnitude =? 0)%N then TimeoutZero
    else if (int64_max <? magnitude * multiplier)%N then TimeoutOutside
    else TimeoutValue (magnitude * multiplier).
Proof.
  intros Hm Hg. unfold timeout_nanoseconds. change (default 0%N (Some multiplier)) with multiplier.
  assert (multiplier =? 0 = false)%N as -> by (apply N.eqb_neq; lia). cbn [negb andb].
  pose proof (N.div_mod (size_modulus - 1) multiplier ltac:(lia)).
  pose proof (N.mod_lt (size_modulus - 1) multiplier ltac:(lia)).
  assert (int64_max < size_modulus)%N as Hi by (vm_compute; done).
  destruct (N.ltb_spec ((size_modulus - 1) / multiplier) magnitude) as [Hlt|Hle]; cbn [orb].
  - destruct (N.eqb_spec magnitude 0); [lia|]. destruct (N.ltb_spec int64_max (magnitude * multiplier)); [done|nia].
  - assert (magnitude * multiplier < size_modulus)%N as Hs by (unfold size_modulus in *; nia).
    rewrite N.mod_small by done. destruct (N.eqb_spec magnitude 0) as [->|].
    + cbn. done.
    + by destruct (N.ltb_spec int64_max (magnitude * multiplier)).
Qed.

(** ** Witnesses *)

Definition tokens_of (text : Stdlib.Strings.String.string) : list Token :=
  match scan (lit text) 0 [] with Some (tokens, _) => tokens | None => [] end.
Lemma tokens_of_ended text : ended (tokens_of text).
Proof.
  unfold tokens_of. destruct (scan_lexed (lit text) 0 []) as (tokens & st & -> & Hl). by eapply lexed_ended.
Qed.
Lemma tokens_of_good text : good (tokens_of text) (parser_start []).
Proof. apply parser_start_good, ended_nonempty, tokens_of_ended. Qed.

Definition other_target : list Token := tokens_of "@target(windows) fn f() i32 { return 1 }".

(** The first declaration of a file is not selected. *)
Definition first_unselected (tokens : list Token) : bool :=
  match attributes tokens Linux (self tokens Linux (λ _, true)) true (parser_start []),
        declaration tokens Linux (λ _, true) (parser_start []) with
  | Some (parsed, s1), Some _ => negb (pa_selected parsed) && starts_declaration tokens s1
  | _, _ => false
  end.
Lemma other_target_ended : ended other_target.
Proof. unfold other_target. apply tokens_of_ended. Qed.
Lemma other_target_good : good other_target (parser_start []).
Proof. unfold other_target. apply tokens_of_good. Qed.
Lemma other_target_unselected : first_unselected other_target = true.
Proof. vm_compute. reflexivity. Qed.
Lemma other_target_here : here other_target (parser_start []) ≠ TokenKind.Eof.
Proof. vm_compute. discriminate. Qed.

#[local] Opaque other_target.
Lemma unselected_forgotten_witness :
  match declaration other_target Linux (λ _, true) (parser_start []) with
  | Some (_, s) => program_ s = emptyProgram
  | None => False
  end.
Proof.
  pose proof other_target_unselected as H. unfold first_unselected in H.
  destruct (attributes other_target Linux (self other_target Linux (λ _, true)) true (parser_start [])) as [[parsed s1]|] eqn:Ea; [|discriminate].
  destruct (declaration other_target Linux (λ _, true) (parser_start [])) as [[[] s]|] eqn:Ed; [|discriminate].
  apply andb_true_iff in H as [Hp%negb_true_iff Hs].
  exact (unselected_forgotten other_target Linux (λ _, true) (parser_start []) s1 s parsed
    other_target_ended other_target_good other_target_here Ea Hp Hs Ed).
Defined.

Definition attributed_pipeline : list Token :=
  tokens_of "@x(fn() void {}) pipeline p(a T) Result<A, B> { step s using f }".

(** The functions of the program and the names of their attributes. *)
Definition attributed_functions (tokens : list Token) : list (bytes * list bytes) :=
  match declaration tokens Linux (λ _, true) (parser_start []) with
  | Some (_, s) => map (λ f, (fn_name f, map at_name (fn_attributes f))) (pr_functions (program_ s))
  | None => []
  end.
(** The attributes of a workflow and the function they are attached to. *)
Definition pipeline_parts (tokens : list Token) : option (ParsedAttributes * Parser * Function * Parser) :=
  match attributes tokens Linux (self tokens Linux (λ _, true)) true (parser_start []) with
  | Some (parsed, s1) =>
      match pr_functions (program_ s1) !! 0, workflow_case tokens Linux (λ _, true) emptyProgram parsed Pipeline s1 with
      | Some closure, Some (_, s) => Some (parsed, s1, closure, s)
      | _, _ => None
      end
  | None => None
  end.
Lemma attributed_pipeline_ended : ended attributed_pipeline.
Proof. unfold attributed_pipeline. apply tokens_of_ended. Qed.
Lemma attributed_pipeline_good : good attributed_pipeline (parser_start []).
Proof. unfold attributed_pipeline. apply tokens_of_good. Qed.
Lemma attributed_pipeline_parts :
  match pipeline_parts attributed_pipeline with Some (parsed, _, _, _) => pa_selected parsed | None => false end = true.
Proof. vm_compute. reflexivity. Qed.

#[local] Opaque attributed_pipeline.
Lemma workflow_attributes_misplaced_witness :
  attributed_functions attributed_pipeline = [(lit "$closure_0", [lit "x"]); (lit "p", [])] ∧
  match pipeline_parts attributed_pipeline with
  | Some (parsed, _, _, s) => fn_attributes <$> pr_functions (program_ s) !! 0 = Some (pa_applications parsed)
  | None => False
  end.
Proof.
  split; [vm_compute; reflexivity|]. pose proof attributed_pipeline_parts as H. revert H. unfold pipeline_parts.
  destruct (attributes attributed_pipeline Linux (self attributed_pipeline Linux (λ _, true)) true (parser_start [])) as [[parsed s1]|] eqn:Ea; [|discriminate].
  destruct (pr_functions (program_ s1) !! 0) as [closure|] eqn:Hc; [|discriminate].
  destruct (workflow_case attributed_pipeline Linux (λ _, true) emptyProgram parsed Pipeline s1) as [[[] s]|] eqn:Ew; [|discriminate]. intros Hp.
  pose proof (workflow_attributes_misplaced attributed_pipeline Linux (λ _, true) (parser_start []) s1 s parsed Pipeline
    closure attributed_pipeline_ended attributed_pipeline_good Ea Hp Hc Ew) as H.
  change (length (pr_functions (program_ (parser_start [])))) with 0 in H. by rewrite H.
Defined.

Definition sample_state (name : Strings.String.string) : EnumVariant := mkEnumVariant (lit name) None false emptySpan [] None None.
Definition sample_name (name : Strings.String.string) : Token := mkToken TokenKind.Identifier (lit name) emptySpan false.
Definition sample_transition : PendingTransition :=
  mkPending (sample_name "go") [] [sample_name "b"; sample_name "a"; sample_name "b"; sample_name "z"]
    (sample_name "c") None (Some 5%N).

Lemma transition_resolved_witness :
  match transition_metadata (map sample_state ["a"; "b"; "c"]%string) [0] sample_transition (parser_start []) with
  | Some ((m, timeouts), _) => (1 ∈ tr_sourceVariants m ∧ NoDup (tr_sourceVariants m)) ∧ tr_destinationVariant m = 2 ∧ NoDup timeouts
  | None => False
  end.
Proof.
  destruct (transition_metadata _ _ _ _) as [[[m timeouts] s]|] eqn:E; [|vm_compute in E; discriminate].
  destruct (transition_resolved _ [0] sample_transition _ _ m timeouts (NoDup_singleton 0) E)
    as (H1 & H2 & H3 & _ & _ & H4 & _).
  split_and!; [|done|exact H3|done]. apply H2. exists (sample_name "b"). split; [left|reflexivity].
Defined.

Lemma timeout_exact_witness : timeout_nanoseconds 10000000000 (Some 1000000000%N) = TimeoutOutside.
Proof.
  rewrite (timeout_exact 10000000000 1000000000 ltac:(split; vm_compute; reflexivity) ltac:(vm_compute; reflexivity)).
  vm_compute. reflexivity.
Defined.
