(* ===== verification/LexerErrors.v ===== *)
(** * Source texts the lexer accepts

    A text on which the lexer reports nothing has only white space and comments between
    its tokens. *)
From S2P Require Import Prelude Diagnostics Token Utf8 Lexer.

(** ** The log along a run of the lexer *)

Definition is_error (d : Diagnostic) : Prop := diag_severity d = SevError.

(** Nothing is taken from the log, and only errors are added. *)
Definition logs (st st' : Lexer) : Prop :=
  (diagnostics_ st' = [] → diagnostics_ st = []) ∧
  (Forall is_error (diagnostics_ st) → Forall is_error (diagnostics_ st')).

#[global] Instance logs_preorder : PreOrder logs.
Proof. split; [by split|]. intros a b c [] []. split; auto. Qed.

Lemma error_nonempty d code message span : error d code message span ≠ [].
Proof.
  unfold error, add. case_bool_decide; [by destruct d; [cbn in *; unfold maxDiagnostics in *; lia|]|].
  case_bool_decide; by destruct d.
Qed.
Lemma error_errors d code message span : Forall is_error d → Forall is_error (error d code message span).
Proof.
  intros. unfold error, add. repeat case_bool_decide; [done|..]; apply Forall_app; by repeat constructor.
Qed.

Lemma hasErrors_nil d : Forall is_error d → hasErrors d = false ↔ d = [].
Proof.
  intros H. split; [|by intros ->]. destruct H as [|e d He _]; [done|]. unfold is_error in He.
  unfold hasErrors. cbn. by rewrite bool_decide_true.
Qed.

Section logs.
Context (source_ : bytes) (sourceId_ : nat).
Implicit Types st : Lexer.

Lemma logs_eq st st' : diagnostics_ st' = diagnostics_ st → logs st st'.
Proof. unfold logs. by intros ->. Qed.
Lemma logs_report code message span st : logs st (report_error code message span st).
Proof. split; [by intros ?%error_nonempty|apply error_errors]. Qed.
Lemma logs_report_to code message span st st' : logs st st' → logs st (report_error code message span st').
Proof. intros. etrans; [done|apply logs_report]. Qed.
Lemma logs_skip st : logs st (skip source_ st).
Proof. apply logs_eq. unfold skip, advance. by destruct (bool_decide _). Qed.
Lemma logs_skip_to st st' : logs st st' → logs st (skip source_ st').
Proof. intros. etrans; [done|apply logs_skip]. Qed.

Lemma while_skip_logs fuel cond st : logs st (while_skip source_ fuel cond st).
Proof.
  revert st. induction fuel as [|fuel IH]; intros st; cbn; [reflexivity|].
  destruct (cond st); [|reflexivity]. etrans; [apply logs_skip|apply IH].
Qed.

Lemma block_loop_logs fuel depth st : logs st (block_loop source_ fuel depth st).2.
Proof.
  revert depth st. induction fuel as [|fuel IH]; intros depth st; cbn [block_loop]; [reflexivity|].
  repeat destruct (_ && _); try reflexivity; (etrans; [|apply IH]); eauto using logs_skip, logs_skip_to.
Qed.

Lemma line_comment_logs st : logs st (line_comment source_ st).
Proof. unfold line_comment, skip_while. destruct (starts_with _ _); apply while_skip_logs. Qed.
Lemma block_comment_logs st : logs st (block_comment source_ sourceId_ st).
Proof.
  unfold block_comment. pose proof (block_loop_logs (remaining source_ (skip source_ (skip source_ st))) 1
    (skip source_ (skip source_ st))) as H.
  destruct (block_loop _ _ _ _) as [depth st']. cbn [snd] in H.
  assert (logs st st') by (etrans; [apply logs_skip_to, logs_skip|exact H]).
  case_bool_decide; [by apply logs_report_to|done].
Qed.

Lemma skipIgnored_logs fuel st st' : skipIgnored source_ sourceId_ fuel st = Some st' → logs st st'.
Proof.
  revert st. induction fuel as [|fuel IH]; intros st; [done|]. cbn [skipIgnored].
  destruct (atEnd _ _); [by intros [= ->]|]. destruct (isspace _); [|destruct (_ && _); [|destruct (_ && _)]].
  1-3: intros E%IH; (etrans; [|exact E]); auto using logs_skip, line_comment_logs, block_comment_logs.
  by intros [= ->].
Qed.

Lemma identifier_logs st : logs st (identifier source_ sourceId_ st).2.
Proof. apply while_skip_logs. Qed.

Lemma digits_logs st st' : logs st st' → logs st (digits source_ st').
Proof. intros. etrans; [done|apply while_skip_logs]. Qed.
Lemma number_logs st : logs st (number source_ sourceId_ st).2.
Proof.
  unfold number. cbv zeta. assert (logs st (digits source_ st)) by (by apply digits_logs).
  destruct (fraction _ _); destruct (exponent _ _); try destruct (exponent_sign _); cbn [snd];
    auto 9 using digits_logs, logs_skip_to.
Qed.

Lemma string_loop_logs fuel value st : logs st (string_loop source_ sourceId_ fuel value st).2.
Proof.
  revert value st. induction fuel as [|fuel IH]; intros value st; cbn [string_loop]; [reflexivity|].
  destruct (_ && _); [|reflexivity]. rewrite advance_skip. pose proof (logs_skip st).
  case_bool_decide; [etrans; [|apply IH]; auto using logs_report_to|].
  case_bool_decide; [etrans; [|apply IH]; auto|]. destruct (atEnd _ _); [done|].
  rewrite advance_skip. destruct (escape _); (etrans; [|apply IH]);
    auto using logs_report_to, logs_skip_to.
Qed.

Lemma string_logs st : logs st (string source_ sourceId_ st).2.
Proof.
  unfold string. pose proof (string_loop_logs (remaining source_ st) [] st) as H.
  destruct (string_loop _ _ _ _ _) as [value st']. cbn [snd] in H. cbn [snd].
  destruct (atEnd _ _), (isValidUtf8 _); auto using logs_report_to, logs_skip_to.
Qed.

Lemma operator_logs value start st kind text st' :
  operator source_ value start st = Some (kind, text, st') → logs st st'.
Proof.
  unfold operator. destruct (assoc _ _); [by intros [= _ _ ->]|].
  destruct (assoc _ _) as [[? []]|]; [|done]. destruct (_ && _); intros [= _ _ <-]; [apply logs_skip|done].
Qed.

(** A turn of [next] behind the ignored text. *)
Lemma next_logs fuel st t st' : next source_ sourceId_ fuel st = Some (t, st') → logs st st'.
Proof.
  revert st. induction fuel as [|fuel IH]; intros st; [done|]. cbn [next].
  destruct (skipIgnored _ _ _ st) as [st1|] eqn:E; [|done]. apply skipIgnored_logs in E. cbv zeta.
  change (logs st (set_safety None st1)) in E. destruct (atEnd _ _); [by intros [= _ <-]|].
  rewrite advance_skip. set (st2 := skip _ _). assert (logs st st2) by (by apply logs_skip_to).
  destruct (isIdentifierStart _); [|destruct (isdigit _); [|case_bool_decide]].
  1-3: intros [= _ <-]; (etrans; [done|]); auto using identifier_logs, number_logs, string_logs.
  destruct (operator _ _ _ _) as [[[kind text] st3]|] eqn:Eo.
  - intros [= _ <-]. apply operator_logs in Eo. by etrans.
  - intros ?%IH. etrans; [by apply logs_report_to|done].
Qed.

Lemma scan_loop_logs fuel st tokens tokens' st' :
  scan_loop source_ sourceId_ fuel st tokens = Some (tokens', st') → logs st st'.
Proof.
  revert st tokens. induction fuel as [|fuel IH]; intros st tokens; [done|]. cbn [scan_loop].
  destruct (next _ _ _ st) as [[t st1]|] eqn:E; [|done]. apply next_logs in E.
  case_bool_decide; [by intros [= _ <-]|]. intros ?%IH. by etrans.
Qed.
End logs.

(** ** The ignored text of an accepted source *)
Section accepted.
Context (source_ : bytes) (sourceId_ : nat).
Implicit Types st : Lexer.

(** White space and comments. *)
Inductive ignored : nat → nat → Prop :=
  | ignored_nil i : ignored i i
  | ignored_space i j c : source_ !! i = Some c → isspace c = true → ignored (S i) j → ignored i j
  | ignored_line i k j : at2 source_ i "/" "/" → i ≤ k ≤ length source_ →
      (∀ m, i ≤ m < k → source_ !! m ≠ Some newline) →
      (k = length source_ ∨ source_ !! k = Some newline) → ignored k j → ignored i j
  | ignored_block i k j : at2 source_ i "/" "*" → block_tail source_ 1 (S (S i)) k → ignored k j → ignored i j.

(** All of it: what follows is not white space. *)
Definition ignored_to (i j : nat) : Prop := ignored i j ∧ ∀ c, source_ !! j = Some c → isspace c = false.

Lemma skipIgnored_ignored fuel st st' :
  pos_ok source_ st → skipIgnored source_ sourceId_ fuel st = Some st' → ignored_to (offset_ st) (offset_ st').
Proof.
  revert st. induction fuel as [|fuel IH]; intros st Hst; [done|]. cbn [skipIgnored].
  destruct (atEnd source_ st) eqn:Hend.
  { intros [= ->]. apply atEnd_true in Hend. split; [constructor|]. by rewrite lookup_ge_None_2. }
  pose proof (proj1 (atEnd_false _ _) Hend) as Hlt. destruct (lookup_lt_is_Some_2 _ _ Hlt) as [c Hc].
  rewrite (peek0 _ _ _ Hc). destruct (isspace c) eqn:Hsp.
  { intros Hi. apply IH in Hi; [|apply skip_moves, Hend; done]. rewrite skip_offset in Hi.
    destruct Hi. split; [by eapply ignored_space|done]. }
  rewrite <- (peek0 _ _ _ Hc). destruct (_ && _) eqn:E1; [|destruct (_ && _) eqn:E2 in |- *].
  - apply peek2 in E1; [|done..]. destruct (line_comment_spec source_ sourceId_ _ Hst E1) as (Hst' & Hlt' & Hno & Hstop & _).
    intros [Hi Hs]%IH; [|done]. split; [|done]. eapply ignored_line; [done| |done..]. destruct Hst'. lia.
  - apply peek2 in E2; [|done..]. destruct (block_comment_spec _ sourceId_ _ Hst E2) as (Hm & _ & Hb).
    intros [Hi Hs]%IH; [|apply Hm]. split; [by eapply ignored_block|done].
  - intros [= ->]. split; [constructor|]. rewrite Hc. by intros ? [= <-].
Qed.

(** The text from an offset on is tokens with ignored text between them. *)
Inductive accepted_from : nat → list Token → Prop :=
  | accepted_eof from t : ignored from (length source_) → from ≤ length source_ →
      token_at source_ sourceId_ (length source_) t (length source_) →
      tok_kind t = TokenKind.Eof → accepted_from from [t]
  | accepted_token from start t stop ts : ignored_to from start → from ≤ start →
      token_at source_ sourceId_ start t stop → tok_kind t ≠ TokenKind.Eof →
      accepted_from stop ts → accepted_from from (t :: ts).

(** The token is what stands behind the ignored text. *)
Lemma next_start fuel st t st' :
  pos_ok source_ st → next source_ sourceId_ fuel st = Some (t, st') → diagnostics_ st' = [] →
  token_next source_ sourceId_ st t st' →
  ignored_to (offset_ st) (span_offset (tok_span t)).
Proof.
  intros Hst Hn Hd Hnext. destruct fuel as [|fuel]; [done|]. cbn [next] in Hn.
  destruct (skipIgnored_spec source_ sourceId_ (S (remaining source_ st)) st Hst) as
    (st1 & Hs & Hst1 & _ & _ & Hnc & _); [lia|]. rewrite Hs in Hn.
  apply skipIgnored_ignored in Hs; [|done]. cbv zeta in Hn.
  destruct (atEnd _ _) eqn:Hend; [by injection Hn as <- _|].
  pose proof (dispatch_spec source_ sourceId_ (set_safety None st1) (leadingSafetyProof t) Hst1 Hnc eq_refl Hend) as Hk.
  rewrite advance_skip in *. set (st2 := skip _ _) in *.
  destruct (isIdentifierStart _); [|destruct (isdigit _); [|case_bool_decide]].
  1-3: injection Hn as <- _; destruct Hk as (_ & _ & Hk & _); apply ta_offset in Hk; cbn in Hk |- *; by rewrite Hk.
  destruct (operator _ _ _ _) as [[[kind text] st3]|]; [by injection Hn as <- _|].
  apply next_logs in Hn as [Hn _]. by apply Hn, error_nonempty in Hd.
Qed.

Lemma scan_loop_accepted fuel st tokens tokens' st' :
  pos_ok source_ st → scan_loop source_ sourceId_ fuel st tokens = Some (tokens', st') → diagnostics_ st' = [] →
  ∃ more, tokens' = tokens ++ more ∧ accepted_from (offset_ st) more.
Proof.
  revert st tokens. induction fuel as [|fuel IH]; intros st tokens Hst; [done|]. cbn [scan_loop].
  destruct (next_spec source_ sourceId_ (S (remaining source_ st)) st Hst) as (t & st1 & En & Hnext); [lia|].
  rewrite En. pose proof (next_logs _ _ _ _ _ _ En) as Hl.
  assert (diagnostics_ st1 = [] → ignored_to (offset_ st) (span_offset (tok_span t)))
    as Hi by (intros; by eapply next_start).
  destruct Hnext as (Hst1 & _ & start & _ & Hle & Hta & _).
  assert (span_offset (tok_span t) = start) as Ho by (by apply ta_offset in Hta). rewrite Ho in Hi.
  case_bool_decide as Hk.
  - intros [= <- <-] Hd. exists [t]. split; [done|].
    apply (ta_eof _ _ _ _ _ Hta) in Hk as Hend. subst start.
    assert (offset_ st1 = length source_) as E.
    { pose proof (ta_stop _ _ _ _ _ Hta). pose proof (ta_length _ _ _ _ _ Hta). lia. }
    rewrite E, Hend in Hta. rewrite Hend in *. destruct (Hi Hd). apply accepted_eof; auto.
  - intros Hs Hd. destruct (scan_loop_logs _ _ _ _ _ _ _ Hs) as [Hl' _]. specialize (Hl' Hd).
    apply IH in Hs as (more & -> & Hm); [|done..]. exists (t :: more). rewrite <- app_assoc. split; [done|]. eapply accepted_token; eauto.
Qed.
End accepted.

(** Every source is scanned; without errors, it is accepted. *)
Lemma scan_accepted source sourceId :
  ∃ tokens st, scan source sourceId [] = Some (tokens, st) ∧ lexed source sourceId 0 tokens ∧
    (hasErrors (diagnostics_ st) = false → diagnostics_ st = [] ∧ accepted_from source sourceId 0 tokens).
Proof.
  destruct (scan_lexed source sourceId []) as (tokens & st & E & Hl). exists tokens, st. split_and!; [done..|].
  unfold scan in E. destruct (scan_loop_logs _ _ _ _ _ _ _ E) as [_ Hg]. specialize (Hg (List.Forall_nil _)).
  rewrite hasErrors_nil by done. intros Hd. split; [done|].
  apply scan_loop_accepted in E as (more & E & Ha); [by rewrite E|by split; [cbn; lia|]|done].
Qed.
