(* ===== verification/Formatter.v ===== *)
(** * The source formatter (compiler/src/formatter.cpp)

    [formatSource] re-emits the tokens of a source text with its comments, choosing the
    blanks between tokens and the indentation of lines; then it reads its own output
    again and keeps the source when the tokens are not the same. *)
From S2P Require Import Prelude Target Diagnostics Token Lexer Ast ParserState ParserTypes ParserProgram.

(** ** Classes of tokens *)

Definition closes (kind : TokenKind) : bool :=
  match kind with
  | TokenKind.RightBrace | TokenKind.RightParen | TokenKind.RightBracket => true
  | _ => false
  end.

Definition endsExpression (kind : TokenKind) : bool :=
  match kind with
  | TokenKind.Identifier | TokenKind.Integer | TokenKind.Floating | TokenKind.String
  | TokenKind.True | TokenKind.False => true
  | kind => closes kind
  end.

Definition binary (kind : TokenKind) : bool :=
  match kind with
  | TokenKind.Equal | TokenKind.EqualEqual | TokenKind.BangEqual | TokenKind.Plus
  | TokenKind.PlusEqual | TokenKind.MinusEqual | TokenKind.Star | TokenKind.StarEqual
  | TokenKind.Slash | TokenKind.SlashEqual | TokenKind.Percent | TokenKind.PercentEqual
  | TokenKind.LessEqual | TokenKind.GreaterEqual | TokenKind.Ampersand | TokenKind.Pipe
  | TokenKind.Caret | TokenKind.AndAnd | TokenKind.OrOr => true
  | _ => false
  end.

Definition comparisonDelimiter (kind : TokenKind) : bool :=
  match kind with TokenKind.Less | TokenKind.Greater => true | _ => false end.

Definition continuesExpression (kind : TokenKind) (genericDelimiter : bool) : bool :=
  binary kind || bool_decide (kind = TokenKind.Minus) || (comparisonDelimiter kind && negb genericDelimiter).

(** ** Where types and closure bodies start *)

Fixpoint collectTypeStarts (type : TypeSyntax) (starts : gset nat) : gset nat :=
  match type with
  | mkType _ arguments span _ =>
      (fix collect (arguments : list TypeSyntax) (starts : gset nat) : gset nat :=
         match arguments with
         | [] => starts
         | argument :: arguments => collect arguments (collectTypeStarts argument starts)
         end) arguments ({[span_offset span]} ∪ starts)
  end.

(** The loops over declarations: each inserts into the set it is given. *)
Definition collect_all {A} (collect : A → gset nat → gset nat) (l : list A) (starts : gset nat) : gset nat :=
  foldl (λ starts a, collect a starts) starts l.
Definition collect_optional {A} (collect : A → gset nat → gset nat) (a : option A) (starts : gset nat) : gset nat :=
  match a with Some a => collect a starts | None => starts end.

Definition collectParameters : list Parameter_ → gset nat → gset nat :=
  collect_all (λ parameter, collectTypeStarts (param_type parameter)).
Definition collect_struct (structure : StructDeclaration) (starts : gset nat) : gset nat :=
  collect_all (λ field, collectTypeStarts (sf_type field)) (sd_fields structure)
    (collect_all (λ implementation, collectTypeStarts (si_contract implementation)) (sd_implementations structure)
       starts).
Definition collect_enum (enumeration : EnumDeclaration) : gset nat → gset nat :=
  collect_all (λ variant, collect_optional collectTypeStarts (ev_payloadType variant)) (ed_variants enumeration).
Definition collect_contract (contract : ContractDeclaration) (starts : gset nat) : gset nat :=
  collect_all (λ method starts, collectTypeStarts (cm_returnType method) (collectParameters (cm_parameters method) starts))
    (cd_methods contract) (collect_all collectTypeStarts (cd_parents contract) starts).
Definition collect_function (function : Function) (starts : gset nat) : gset nat :=
  collect_optional (λ workflow starts, collectTypeStarts (wf_errorType workflow) (collectTypeStarts (wf_successType workflow) starts))
    (fn_workflow function)
    (collectTypeStarts (fn_returnType function) (collectParameters (fn_parameters function) starts)).
Definition collect_statement (statement : Statement) : gset nat → gset nat :=
  match stmt_value statement with
  | VariableStatement _ _ type _ _ _ => collect_optional collectTypeStarts type
  | StructDestructureStatement type _ _ => collectTypeStarts type
  | _ => λ starts, starts
  end.
Definition collect_expression (expression : Expression) : gset nat → gset nat :=
  match expr_value expression with
  | NameExpression _ typeArguments => collect_all collectTypeStarts typeArguments
  | CallExpression _ typeArguments _ _ _ => collect_all collectTypeStarts typeArguments
  | StructExpression type _ => collectTypeStarts type
  | MemberExpression _ _ typeArguments _ _ _ _ => collect_all collectTypeStarts typeArguments
  | _ => λ starts, starts
  end.

Definition typeStarts (program : Program) : gset nat :=
  let starts := collect_all collect_struct (pr_structs program) ∅ in
  let starts := collect_all collect_enum (pr_enums program) starts in
  let starts := collect_all collect_contract (pr_contracts program) starts in
  let starts := collect_all (λ attribute, collectParameters (ad_parameters attribute))
                  (pr_attributeDeclarations program) starts in
  let starts := collect_all collect_function (pr_functions program) starts in
  let starts := collect_all collect_statement (pr_statements program) starts in
  collect_all collect_expression (pr_expressions program) starts.

Definition closureBlockStarts (program : Program) : gset nat :=
  collect_all (λ function starts,
    match pr_blocks program !! fn_body function with
    | Some block => if fn_closure function then {[span_offset (block_span block)]} ∪ starts else starts
    | None => starts
    end) (pr_functions program) ∅.

(** The lines of the compensations of workflow steps. *)
Definition compensation_lines (program : Program) : gset nat :=
  collect_all (λ function,
    collect_optional (λ workflow,
      collect_all (λ step,
        collect_optional (λ span lines, {[span_line span]} ∪ lines) (ws_compensationSpan step))
        (wf_steps workflow))
      (fn_workflow function))
    (pr_functions program) ∅.

(** ** The blank between two tokens *)

(** [l[index - places]]: an index below 0 wraps around to one behind the end. *)
Definition element_before {A} (l : list A) (places index : nat) : option A :=
  if bool_decide (places ≤ index) then l !! (index - places) else None.

Definition token_end (token : Token) : nat := span_offset (tok_span token) + span_length (tok_span token).
Definition token_line (token : Token) : nat := span_line (tok_span token).
Definition adjacent (before token : Token) : bool := bool_decide (token_end before = span_offset (tok_span token)).

(** The two tokens are [<<] or [>>]. *)
Definition shift_pair (first second : Token) : bool :=
  bool_decide (tok_kind first = TokenKind.Less) && bool_decide (tok_kind second = TokenKind.Less) ||
  bool_decide (tok_kind first = TokenKind.Greater) && bool_decide (tok_kind second = TokenKind.Greater).

Section tokens.
Context (tokens : list Token).

Definition ends_before (index : nat) : option bool :=
  (λ before, endsExpression (tok_kind before)) <$> element_before tokens 1 index.

Definition unaryMinus (index : nat) : option bool :=
  kind_is tokens TokenKind.Minus index &&? (Some (bool_decide (index = 0)) ||? (negb <$> ends_before index)).

(** [unaryStar] and [unaryAmpersand]. *)
Definition unary_prefix (prefix : TokenKind) (index : nat) (typeStarts : gset nat) : option bool :=
  token ← tokens !! index;
  Some (bool_decide (tok_kind token = prefix)) &&?
  (Some (bool_decide (span_offset (tok_span token) ∈ typeStarts)) ||? Some (bool_decide (index = 0)) ||?
   ((λ before, negb (bool_decide (token_line before = token_line token))) <$> element_before tokens 1 index) ||?
   (negb <$> ends_before index)).
Definition unaryStar : nat → gset nat → option bool := unary_prefix TokenKind.Star.
Definition unaryAmpersand : nat → gset nat → option bool := unary_prefix TokenKind.Ampersand.

Definition typeOpeningBrackets (starts : gset nat) : list bool :=
  map (λ token, bool_decide (tok_kind token = TokenKind.LeftBracket) &&
                bool_decide (span_offset (tok_span token) ∈ starts)) tokens.

(** Parts of [spaceBetween] for a token and the one before it: the pieces of a shift
    operator, ... *)
Definition splits_shift (genericDelimiters : list bool) (index : nat) (before token : Token) : option bool :=
  Some (adjacent before token) &&? (negb <$> element_before genericDelimiters 1 index) &&?
  (negb <$> genericDelimiters !! index) &&? Some (shift_pair before token).
Definition splits_shift_assignment (genericDelimiters : list bool) (index : nat) (before token : Token) : option bool :=
  Some (bool_decide (2 ≤ index)) &&? Some (bool_decide (tok_kind token = TokenKind.Equal)) &&?
  Some (adjacent before token) &&? (negb <$> element_before genericDelimiters 2 index) &&?
  (negb <$> element_before genericDelimiters 1 index) &&?
  ((λ first, adjacent first before && shift_pair first before) <$> element_before tokens 2 index).
(** ... what stands before a dot, ... *)
Definition space_before_dot (genericDelimiters : list bool) (index : nat) (previous : TokenKind) : option bool :=
  match previous with
  | TokenKind.Greater => negb <$> element_before genericDelimiters 1 index
  | TokenKind.LeftParen | TokenKind.LeftBracket | TokenKind.LeftBrace | TokenKind.At | TokenKind.Dot => Some false
  | previous => Some (negb (endsExpression previous))
  end.
(** ... a token that the next one is attached to, ... *)
Definition attaches (typeStarts : gset nat) (index : nat) (previous : TokenKind) : option bool :=
  match previous with
  | TokenKind.LeftParen | TokenKind.LeftBracket | TokenKind.At | TokenKind.Dot | TokenKind.Bang
  | TokenKind.Tilde | TokenKind.Dollar => Some true
  | _ => unaryMinus (index - 1) ||? unaryStar (index - 1) typeStarts ||? unaryAmpersand (index - 1) typeStarts
  end.
(** ... what stands before an opening parenthesis or bracket. *)
Definition space_before_paren (genericDelimiters : list bool) (index : nat) (previous : TokenKind) : option bool :=
  match previous with
  | TokenKind.Greater => negb <$> element_before genericDelimiters 1 index
  | TokenKind.Identifier | TokenKind.Fn | TokenKind.Ctor | TokenKind.Capture | TokenKind.RightParen
  | TokenKind.RightBracket => Some false
  | _ => Some true
  end.
Definition space_before_bracket (typeBrackets : list bool) (index : nat) (previous : TokenKind) : option bool :=
  bracket ← typeBrackets !! index;
  Some (match previous with
        | TokenKind.LeftParen | TokenKind.LeftBracket => false
        | previous => bracket || negb (endsExpression previous)
        end).

(** The rest of the conditions, for a token behind which nothing is attached. *)
Definition space_in_expression (genericDelimiters : list bool) (index : nat) (previous current : TokenKind) : option bool :=
  if comparisonDelimiter previous then
    closing ← Some (bool_decide (previous = TokenKind.Greater)) &&? element_before genericDelimiters 1 index;
    if closing : bool
    then Some (negb (bool_decide (current = TokenKind.Greater))) ||? (negb <$> genericDelimiters !! index)
    else negb <$> element_before genericDelimiters 1 index
  else if comparisonDelimiter current then negb <$> genericDelimiters !! index
  else
    prefix ← Some (bool_decide (current = TokenKind.Bang) || bool_decide (current = TokenKind.Tilde)) ||? unaryMinus index;
    Some (if prefix : bool then true
          else if bool_decide (previous = TokenKind.Comma) || bool_decide (previous = TokenKind.Colon) ||
                  bool_decide (previous = TokenKind.LeftBrace) || bool_decide (current = TokenKind.RightBrace) ||
                  bool_decide (current = TokenKind.LeftBrace) || binary previous || binary current ||
                  bool_decide (previous = TokenKind.Minus) || bool_decide (current = TokenKind.Minus)
          then negb (bool_decide (previous = TokenKind.LeftBrace)) || negb (bool_decide (current = TokenKind.RightBrace))
          else true).

Definition spaceBetween (index : nat) (genericDelimiters typeBrackets : list bool) (typeStarts : gset nat) : option bool :=
  before ← element_before tokens 1 index;
  token ← tokens !! index;
  let previous := tok_kind before in
  shift ← splits_shift genericDelimiters index before token;
  if shift : bool then Some false
  else
    assignment ← splits_shift_assignment genericDelimiters index before token;
    if assignment : bool then Some false
    else match tok_kind token with
         | TokenKind.RightParen | TokenKind.RightBracket | TokenKind.Comma | TokenKind.Colon => Some false
         | TokenKind.Dot => space_before_dot genericDelimiters index previous
         | current =>
             attached ← attaches typeStarts index previous;
             if attached : bool then Some false
             else if bool_decide (current = TokenKind.LeftParen) then space_before_paren genericDelimiters index previous
             else if bool_decide (current = TokenKind.LeftBracket) then space_before_bracket typeBrackets index previous
             else if bool_decide (previous = TokenKind.RightBracket) && bool_decide (current = TokenKind.Identifier)
             then Some false
             else if bool_decide (current = TokenKind.LeftBrace) then Some true
             else space_in_expression genericDelimiters index previous current
         end.

(** ** Angle brackets of generic lists *)

(** The closing [>] of the parameters of a function, by counting brackets. *)
Fixpoint parameters_closing (rest : list Token) (depth current : nat) : option nat :=
  match rest with
  | [] => None
  | token :: rest =>
      match tok_kind token with
      | TokenKind.Less => parameters_closing rest (S depth) (S current)
      | TokenKind.Greater =>
          if bool_decide (depth - 1 = 0) then Some current else parameters_closing rest (depth - 1) (S current)
      | TokenKind.Identifier | TokenKind.Comma => parameters_closing rest depth (S current)
      | _ => if bool_decide (depth = 1) then None else parameters_closing rest depth (S current)
      end
  end.

Definition declares_parameters (index : nat) : option bool :=
  Some (bool_decide (2 ≤ index)) &&?
  ((λ before, bool_decide (tok_kind before = TokenKind.Identifier)) <$> element_before tokens 1 index) &&?
  ((λ keyword, match tok_kind keyword with
               | TokenKind.Fn | TokenKind.Ctor | TokenKind.Task => true
               | _ => false
               end) <$> element_before tokens 2 index).

Definition closing_bracket (index : nat) : option (option nat) :=
  declared ← declares_parameters index;
  if declared : bool then Some (parameters_closing (drop (index + 1) tokens) 1 (index + 1))
  else typeArgumentListClosingToken tokens index.

(** A token that may follow a generic list on its line. *)
Definition follows_generic (kind : TokenKind) : bool :=
  match kind with
  | TokenKind.Eof | TokenKind.Dot | TokenKind.LeftBrace | TokenKind.LeftParen | TokenKind.Comma
  | TokenKind.RightParen | TokenKind.RightBracket | TokenKind.RightBrace | TokenKind.Equal
  | TokenKind.Capture | TokenKind.Implements | TokenKind.Extends => true
  | _ => false
  end.

Definition accepted_closing (closing : nat) : option bool :=
  if bool_decide (closing + 1 < length tokens) then
    close ← tokens !! closing;
    next ← tokens !! (closing + 1);
    Some (negb (bool_decide (token_line next = token_line close)) || follows_generic (tok_kind next))
  else Some false.

(** [l[index] = value]. *)
Definition store {A} (l : list A) (index : nat) (value : A) : option (list A) :=
  if bool_decide (index < length l) then Some (<[index := value]> l) else None.

(** [result[current] = true] for the next [count] tokens that are angle brackets. *)
Fixpoint mark_delimiters (current count : nat) (result : list bool) : option (list bool) :=
  match count with
  | O => Some result
  | S count =>
      token ← tokens !! current;
      result ← (if comparisonDelimiter (tok_kind token) then store result current true else Some result);
      mark_delimiters (S current) count result
  end.

Definition delimiter_step (index : nat) (result : list bool) : option (list bool) :=
  opening ← kind_is tokens TokenKind.Less index;
  if opening : bool then
    closing ← closing_bracket index;
    match closing with
    | Some closing =>
        accepted ← accepted_closing closing;
        if accepted : bool then mark_delimiters index (closing + 1 - index) result else Some result
    | None => Some result
    end
  else Some result.

Fixpoint delimiter_steps (index count : nat) (result : list bool) : option (list bool) :=
  match count with
  | O => Some result
  | S count => result ← delimiter_step index result; delimiter_steps (S index) count result
  end.
Definition genericDelimiters : option (list bool) :=
  delimiter_steps 0 (length tokens) (replicate (length tokens) false).
End tokens.

(** ** [class Writer] *)

(** Its mutable members, without [compensationLines_], which [format] fills first. *)
Record Writer := mkWriter {
  output_ : bytes;
  braceDepth_ : nat;
  braceClosureExtras_ : list bool;
  parenBraceDepths_ : list nat;
  parenOpeningLines_ : list nat;
  bracketBraceDepths_ : list nat;
  lastToken_ : TokenKind;
  lastTokenWasGenericDelimiter_ : bool;
  lineStart_ : bool;
  continuation_ : bool;
}.

Definition writer_start : Writer := mkWriter [] 0 [] [] [] [] TokenKind.Eof false true false.

Definition set_output (f : bytes → bytes) (w : Writer) : Writer :=
  mkWriter (f (output_ w)) (braceDepth_ w) (braceClosureExtras_ w) (parenBraceDepths_ w) (parenOpeningLines_ w)
    (bracketBraceDepths_ w) (lastToken_ w) (lastTokenWasGenericDelimiter_ w) (lineStart_ w) (continuation_ w).
Definition set_line (lineStart continuation : bool) (w : Writer) : Writer :=
  mkWriter (output_ w) (braceDepth_ w) (braceClosureExtras_ w) (parenBraceDepths_ w) (parenOpeningLines_ w)
    (bracketBraceDepths_ w) (lastToken_ w) (lastTokenWasGenericDelimiter_ w) lineStart continuation.
Definition set_last (token : TokenKind) (genericDelimiter : bool) (w : Writer) : Writer :=
  mkWriter (output_ w) (braceDepth_ w) (braceClosureExtras_ w) (parenBraceDepths_ w) (parenOpeningLines_ w)
    (bracketBraceDepths_ w) token genericDelimiter (lineStart_ w) (continuation_ w).
Definition set_braces (depth : nat) (extras : list bool) (w : Writer) : Writer :=
  mkWriter (output_ w) depth extras (parenBraceDepths_ w) (parenOpeningLines_ w)
    (bracketBraceDepths_ w) (lastToken_ w) (lastTokenWasGenericDelimiter_ w) (lineStart_ w) (continuation_ w).
Definition set_parens (depths lines : list nat) (w : Writer) : Writer :=
  mkWriter (output_ w) (braceDepth_ w) (braceClosureExtras_ w) depths lines
    (bracketBraceDepths_ w) (lastToken_ w) (lastTokenWasGenericDelimiter_ w) (lineStart_ w) (continuation_ w).
Definition set_brackets (depths : list nat) (w : Writer) : Writer :=
  mkWriter (output_ w) (braceDepth_ w) (braceClosureExtras_ w) (parenBraceDepths_ w) (parenOpeningLines_ w)
    depths (lastToken_ w) (lastTokenWasGenericDelimiter_ w) (lineStart_ w) (continuation_ w).

Definition append (text : bytes) : Writer → Writer := set_output (λ output, output ++ text).

Definition blank (c : ascii) : bool := bool_decide (c = space) || bool_decide (c = tab).

(** [while (!text.empty() && blank(text.back())) text.pop_back();]. *)
Fixpoint trim_right (text : bytes) : bytes :=
  match text with
  | [] => []
  | c :: text =>
      match trim_right text with
      | [] => if blank c then [] else [c]
      | trimmed => c :: trimmed
      end
  end.

Definition trimLine : Writer → Writer := set_output trim_right.

Definition newline_ (w : Writer) : Writer :=
  let continuation := negb (lineStart_ w) && continuesExpression (lastToken_ w) (lastTokenWasGenericDelimiter_ w) in
  set_line true continuation (append [newline] (trimLine w)).

(** [std::count_if] over the first [count] elements. *)
Definition count_if {A} (f : A → bool) (count : nat) (l : list A) : nat := length (List.filter f (take count l)).

Definition indent (next : TokenKind) (workflowChild : bool) (w : Writer) : Writer :=
  let braces := if bool_decide (next = TokenKind.RightBrace) then braceDepth_ w - 1 else braceDepth_ w in
  let threshold := if bool_decide (next = TokenKind.RightBrace) then braceDepth_ w else braces in
  let parenCount := length (parenBraceDepths_ w) - (if bool_decide (next = TokenKind.RightParen) then 1 else 0) in
  let bracketCount := length (bracketBraceDepths_ w) - (if bool_decide (next = TokenKind.RightBracket) then 1 else 0) in
  let nestedParens := count_if (Nat.leb threshold) parenCount (parenBraceDepths_ w) in
  let nestedBrackets := count_if (Nat.leb threshold) bracketCount (bracketBraceDepths_ w) in
  let nested := negb (bool_decide (nestedParens = 0)) || negb (bool_decide (nestedBrackets = 0)) in
  let nestedDepth := nestedParens + nestedBrackets in
  let closureExtras := length (List.filter id (braceClosureExtras_ w)) in
  let w := append (replicate ((braces + nestedDepth + closureExtras) * 4) space) w in
  let w := if continuation_ w && negb nested then append (replicate 4 space) w else w in
  let w := if workflowChild then append (replicate 4 space) w else w in
  set_line false false w.

(** The blank or the indentation in front of a comment. *)
Definition comment_position (w : Writer) : Writer :=
  if lineStart_ w then indent TokenKind.Eof false w else append [space] (trimLine w).

Definition writeComment (comment : bytes) (w : Writer) : Writer :=
  let w := append (trim_right comment) (comment_position w) in
  set_line false (continuation_ w) w.

(** The text of a block comment with its line ends as [\n]. *)
Fixpoint unify_newlines (comment : bytes) : bytes :=
  match comment with
  | [] => []
  | c :: rest =>
      if bool_decide (c = carriage) then
        match rest with
        | d :: rest' => newline :: (if bool_decide (d = newline) then unify_newlines rest' else unify_newlines rest)
        | [] => [newline]
        end
      else c :: unify_newlines rest
  end.

Definition writeBlockComment (comment : bytes) (w : Writer) : Writer :=
  let w := append (unify_newlines comment) (comment_position w) in
  set_line (bool_decide (last (output_ w) = Some newline)) (continuation_ w) w.

(** A comment to the end of its line, and what is left. *)
Fixpoint line_end (value : bytes) : bytes * bytes :=
  match value with
  | [] => ([], [])
  | c :: rest =>
      if bool_decide (c = carriage) || bool_decide (c = newline) then ([], value)
      else let '(comment, rest) := line_end rest in (c :: comment, rest)
  end.

(** A block comment behind its first [/*], at a depth of nesting, and what is left. *)
Fixpoint block_end (depth : nat) (value : bytes) : bytes * bytes :=
  match depth with
  | O => ([], value)
  | S depth' =>
      match value with
      | [] => ([], [])
      | c :: ((d :: rest) as tail) =>
          if bool_decide (c = "/"%char) && bool_decide (d = "*"%char) then
            let '(comment, rest) := block_end (S depth) rest in (c :: d :: comment, rest)
          else if bool_decide (c = "*"%char) && bool_decide (d = "/"%char) then
            let '(comment, rest) := block_end depth' rest in (c :: d :: comment, rest)
          else let '(comment, rest) := block_end depth tail in (c :: comment, rest)
      | [c] => ([c], [])
      end
  end.

Definition starts_comment (second : ascii) (value : bytes) : bool :=
  match value with
  | c :: d :: _ => bool_decide (c = "/"%char) && bool_decide (d = second)
  | _ => false
  end.

(** What stands between two tokens; a turn consumes a byte at least. *)
Fixpoint trivia (fuel : nat) (value : bytes) (w : Writer) : option Writer :=
  match fuel with
  | O => None
  | S fuel =>
      match value with
      | [] => Some w
      | c :: rest =>
          if starts_comment "/" value then
            let '(comment, rest) := line_end (drop 2 value) in
            trivia fuel rest (writeComment (take 2 value ++ comment) w)
          else if starts_comment "*" value then
            let '(comment, rest) := block_end 1 (drop 2 value) in
            trivia fuel rest (writeBlockComment (take 2 value ++ comment) w)
          else if bool_decide (c = carriage) then
            trivia fuel (match rest with
                         | d :: rest' => if bool_decide (d = newline) then rest' else rest
                         | [] => rest
                         end) (newline_ w)
          else if bool_decide (c = newline) then trivia fuel rest (newline_ w)
          else trivia fuel rest w
      end
  end.

(** [pop_back], undefined on an empty vector. *)
Definition pop_back {A} (l : list A) : option (list A) :=
  match last l with Some _ => Some (take (length l - 1) l) | None => None end.

Definition updateDepth (kind : TokenKind) (genericDelimiter closureBlock : bool) (line : nat) (w : Writer)
    : option Writer :=
  w ← (match kind with
       | TokenKind.LeftBrace =>
           let multilineParent := existsb (λ openingLine, negb (openingLine =? line)) (parenOpeningLines_ w) in
           Some (set_braces (S (braceDepth_ w)) (braceClosureExtras_ w ++ [closureBlock && multilineParent]) w)
       | TokenKind.RightBrace =>
           if bool_decide (braceDepth_ w = 0) then Some w
           else extras ← pop_back (braceClosureExtras_ w); Some (set_braces (braceDepth_ w - 1) extras w)
       | TokenKind.LeftParen =>
           Some (set_parens (parenBraceDepths_ w ++ [braceDepth_ w]) (parenOpeningLines_ w ++ [line]) w)
       | TokenKind.RightParen =>
           if bool_decide (parenBraceDepths_ w = []) then Some w
           else
             depths ← pop_back (parenBraceDepths_ w);
             lines ← pop_back (parenOpeningLines_ w);
             Some (set_parens depths lines w)
       | TokenKind.LeftBracket => Some (set_brackets (bracketBraceDepths_ w ++ [braceDepth_ w]) w)
       | TokenKind.RightBracket =>
           if bool_decide (bracketBraceDepths_ w = []) then Some w
           else depths ← pop_back (bracketBraceDepths_ w); Some (set_brackets depths w)
       | _ => Some w
       end);
  Some (set_last kind genericDelimiter w).

(** [source_.substr(start, stop - start)], of a range inside the text. *)
Definition view (source : bytes) (start stop : nat) : option bytes :=
  if bool_decide (start ≤ stop) && bool_decide (stop ≤ length source) then Some (substr source start stop) else None.

(** [gap.find("//")]. *)
Fixpoint has_line_comment (gap : bytes) : bool :=
  match gap with
  | [] => false
  | _ :: rest => starts_comment "/" gap || has_line_comment rest
  end.
Definition has_line_break (gap : bytes) : bool :=
  existsb (λ c, bool_decide (c = carriage) || bool_decide (c = newline)) gap.

(** ** [Writer::format] and [formatSource] *)

(** What [format] computes from the tokens and the program first. *)
Record Layout := mkLayout {
  angleDelimiters : list bool;
  typeBrackets : list bool;
  starts : gset nat;
  closureBlocks : gset nat;
  compensationLines_ : gset nat;
}.
Definition layout (tokens : list Token) (program : Program) : option Layout :=
  angleDelimiters ← genericDelimiters tokens;
  let starts := typeStarts program in
  Some (mkLayout angleDelimiters (typeOpeningBrackets tokens starts) starts (closureBlockStarts program)
    (compensation_lines program)).

Section format.
Context (source_ : bytes) (tokens : list Token) (l : Layout).

(** The indentation or the blank in front of a token. *)
Definition token_position (index : nat) (token : Token) (gap : bytes) (w : Writer) : option Writer :=
  if lineStart_ w then
    Some (indent (tok_kind token)
      (bool_decide (tok_kind token = TokenKind.Identifier) && bool_decide (tok_text token = lit "compensate") &&
       bool_decide (span_line (tok_span token) ∈ compensationLines_ l)) w)
  else
    separated ← Some (negb (bool_decide (index = 0))) &&? Some (negb (has_line_comment gap)) &&?
                Some (negb (has_line_break gap)) &&?
                spaceBetween tokens index (angleDelimiters l) (typeBrackets l) (starts l);
    Some (if separated : bool then append [space] w else w).

Definition write_raw (raw : bytes) (w : Writer) : Writer :=
  let w := append raw w in
  set_line (match last raw with
            | Some c => bool_decide (c = newline) || bool_decide (c = carriage)
            | None => false
            end) (continuation_ w) w.

Fixpoint format_loop (rest : list Token) (index previousEnd : nat) (w : Writer) : option Writer :=
  match rest with
  | [] => Some w
  | token :: rest =>
      let offset := span_offset (tok_span token) in
      let stop := offset + span_length (tok_span token) in
      if bool_decide (tok_kind token = TokenKind.Eof) then
        gap ← view source_ previousEnd (length source_);
        trivia (S (length gap)) gap w
      else
        gap ← view source_ previousEnd offset;
        w ← trivia (S (length gap)) gap w;
        w ← token_position index token gap w;
        raw ← view source_ offset stop;
        angleDelimiter ← angleDelimiters l !! index;
        w ← updateDepth (tok_kind token) angleDelimiter (bool_decide (offset ∈ closureBlocks l))
              (span_line (tok_span token)) (write_raw raw w);
        format_loop rest (S index) stop w
  end.
End format.

Definition format (source : bytes) (tokens : list Token) (program : Program) : option bytes :=
  l ← layout tokens program;
  output_ <$> format_loop source tokens l tokens 0 0 writer_start.

Fixpoint sameTokens (left_ right_ : list Token) : bool :=
  match left_, right_ with
  | [], [] => true
  | a :: left_, b :: right_ =>
      bool_decide (tok_kind a = tok_kind b) && bool_decide (tok_text a = tok_text b) && sameTokens left_ right_
  | _, _ => false
  end.

Section formatSource.
(** The parser runs for the platform of the host. *)
Context (target_ : TargetPlatform) (parseFloating : bytes → bool).

(** Reading the output again: its tokens, and what lexer and parser report. *)
Definition verify (contents : bytes) (sourceId : nat) : option (list Token * Diagnostics) :=
  '(tokens, lexer) ← scan contents sourceId [];
  let verification := Lexer.diagnostics_ lexer in
  if hasErrors verification then Some (tokens, verification)
  else
    '(_, verification) ← parse tokens target_ parseFloating false verification;
    Some (tokens, verification).

(** [FormatResult]: the contents and the diagnostics. *)
Definition formatSource (source : bytes) (sourceId : nat) : option (bytes * Diagnostics) :=
  '(tokens, lexer) ← scan source sourceId [];
  let diagnostics := Lexer.diagnostics_ lexer in
  if hasErrors diagnostics then Some (source, diagnostics)
  else
    '(program, diagnostics) ← parse tokens target_ parseFloating false diagnostics;
    if hasErrors diagnostics then Some (source, diagnostics)
    else
      contents ← format source tokens program;
      '(formattedTokens, verification) ← verify contents sourceId;
      if hasErrors verification || negb (sameTokens tokens formattedTokens) then
        Some (source, error diagnostics (lit "FDN9996") (lit "formatter did not preserve the token stream")
                        (mkSpan 0 (if bool_decide (source = []) then 0 else 1) 1 1 sourceId))
      else Some (contents, diagnostics).
End formatSource.
