(* ===== verification/FormatterProofs.v ===== *)
(** * What the formatter writes

    Tokens and flags are read inside their vectors, and the output of [Writer::format] has
    the bytes of the source, in order, up to blanks within lines. *)
From S2P Require Import Prelude Target Diagnostics Token Lexer LexerErrors Ast ParserState ParserTypes ParserSpec ParserSafety ParserProgram Formatter.

(** ** Visible text *)

(** Bytes a reader of lines sees: all but blanks, line breaks included. *)
Definition visible (c : ascii) : bool := negb (isspace c) || bool_decide (c = newline).
Definition visible_text (text : bytes) : bytes := List.filter visible text.

Lemma visible_app a b : visible_text (a ++ b) = visible_text a ++ visible_text b.
Proof. apply List.filter_app. Qed.
Lemma visible_cons c text : visible_text (c :: text) = visible_text [c] ++ visible_text text.
Proof. apply (visible_app [c]). Qed.

Lemma visible_spaces n : visible_text (replicate n space) = [].
Proof. induction n; [done|]. by cbn [replicate]; rewrite visible_cons, IHn. Qed.

Lemma blank_visible c : blank c = true → visible_text [c] = [].
Proof. unfold blank. to_prop. by intros [-> | ->]. Qed.

Lemma trim_right_visible text : visible_text (trim_right text) = visible_text text.
Proof.
  induction text as [|c text IH]; [done|]. rewrite (visible_cons c). rewrite <- IH. cbn [trim_right].
  destruct (trim_right text); [|by rewrite visible_cons].
  destruct (blank c) eqn:E; [by rewrite blank_visible|by rewrite app_nil_r].
Qed.

(** Every carriage return is followed by a line feed. *)
Fixpoint carriages_paired (text : bytes) : bool :=
  match text with
  | [] => true
  | c :: rest =>
      (negb (bool_decide (c = carriage)) || bool_decide (head rest = Some newline)) && carriages_paired rest
  end.

Lemma carriages_paired_lookup text i :
  carriages_paired text = true → text !! i = Some carriage → text !! S i = Some newline.
Proof.
  revert i. induction text as [|c text IH]; intros i; [done|]. cbn [carriages_paired]. rewrite andb_true_iff.
  intros [Hc Ht]. destruct i as [|i]; cbn; [|by apply IH]. intros [= ->].
  apply orb_true_iff in Hc as [Hc|Hc]; [done|]. apply bool_decide_eq_true in Hc. by destruct text.
Qed.

Lemma unify_newlines_visible text :
  (∀ i, text !! i = Some carriage → text !! S i = Some newline) →
  visible_text (unify_newlines text) = visible_text text.
Proof.
  induction text as [text IH] using (induction_ltof1 _ length). intros H. unfold ltof in IH.
  destruct text as [|c text]; [done|]. cbn [unify_newlines]. case_bool_decide as Hc.
  - subst c. specialize (H 0 eq_refl) as Hn. destruct text as [|d text]; [done|]. injection Hn as ->.
    rewrite bool_decide_true by done.
    change (newline :: visible_text (unify_newlines text) = newline :: visible_text text). f_equal. apply IH; [cbn; lia|]. intros i. apply (H (S (S i))).
  - rewrite visible_cons, (visible_cons c text). f_equal. apply IH; [cbn; lia|]. intros i. apply (H (S i)).
Qed.

(** ** The operations of [Writer] *)

Lemma newline_visible w : visible_text (output_ (newline_ w)) = visible_text (output_ w) ++ [newline].
Proof. cbn. by rewrite visible_app, trim_right_visible. Qed.

Lemma indent_visible next child w : visible_text (output_ (indent next child w)) = visible_text (output_ w).
Proof.
  unfold indent. cbv zeta. cbn [set_line output_].
  destruct child, (_ && _); cbn [append set_output output_]; rewrite ?visible_app, ?visible_spaces, ?app_nil_r; done.
Qed.

Lemma comment_position_visible w : visible_text (output_ (comment_position w)) = visible_text (output_ w).
Proof.
  unfold comment_position. destruct (lineStart_ w); [apply indent_visible|].
  cbn. by rewrite visible_app, trim_right_visible, app_nil_r.
Qed.

Lemma writeComment_visible comment w :
  visible_text (output_ (writeComment comment w)) = visible_text (output_ w) ++ visible_text comment.
Proof. cbn. by rewrite visible_app, comment_position_visible, trim_right_visible. Qed.

Lemma writeBlockComment_visible comment w :
  (∀ i, comment !! i = Some carriage → comment !! S i = Some newline) →
  visible_text (output_ (writeBlockComment comment w)) = visible_text (output_ w) ++ visible_text comment.
Proof. intros. cbn. by rewrite visible_app, comment_position_visible, unify_newlines_visible. Qed.

(** The stacks of braces and parentheses have one length each. *)
Definition stacked (w : Writer) : Prop :=
  length (braceClosureExtras_ w) = braceDepth_ w ∧ length (parenOpeningLines_ w) = length (parenBraceDepths_ w).

Lemma pop_back_some {A} (l : list A) : l ≠ [] → ∃ l', pop_back l = Some l' ∧ length l' = length l - 1.
Proof.
  intros H. unfold pop_back. destruct (last l) eqn:E; [|by apply last_None in E].
  eexists. split; [done|]. rewrite length_take. lia.
Qed.

Lemma updateDepth_some kind generic closure line w :
  stacked w → ∃ w', updateDepth kind generic closure line w = Some w' ∧ stacked w' ∧
    output_ w' = output_ w ∧ lineStart_ w' = lineStart_ w.
Proof.
  intros [Hb Hp]. unfold updateDepth.
  assert (∀ w1, stacked w1 → output_ w1 = output_ w → lineStart_ w1 = lineStart_ w →
    ∃ w', Some (set_last kind generic w1) = Some w' ∧ stacked w' ∧ output_ w' = output_ w ∧ lineStart_ w' = lineStart_ w)
    as Hgo by (intros w1 ???; by eexists).
  destruct kind; try (by apply Hgo); cbn [mbind option_bind].
  - apply Hgo; [|done..]. split; cbn; rewrite ?length_app; cbn; lia.
  - case_bool_decide as E; [by apply Hgo|].
    destruct (pop_back_some (parenBraceDepths_ w)) as (a & -> & Ha); [done|].
    destruct (pop_back_some (parenOpeningLines_ w)) as (b & -> & Hb'); [by destruct (parenBraceDepths_ w), (parenOpeningLines_ w)|].
    apply Hgo; [|done..]. split; cbn; lia.
  - apply Hgo; [|done..]. split; cbn; rewrite ?length_app; cbn; lia.
  - case_bool_decide as E; [by apply Hgo|].
    destruct (pop_back_some (braceClosureExtras_ w)) as (a & -> & Ha); [by destruct (braceClosureExtras_ w); cbn in Hb|].
    apply Hgo; [|done..]. split; cbn; lia.
  - case_bool_decide as E; [by apply Hgo|].
    destruct (pop_back_some (bracketBraceDepths_ w)) as (a & -> & Ha); [done|]. by apply Hgo.
Qed.

Lemma indent_stacked next child w : stacked w → stacked (indent next child w).
Proof. intros [Hb Hp]. unfold indent. cbv zeta. by destruct child, (_ && _). Qed.
Lemma comment_position_stacked w : stacked w → stacked (comment_position w).
Proof. unfold comment_position. destruct (lineStart_ w); [apply indent_stacked|done]. Qed.

(** ** The text between two tokens *)
Section trivia.
Context (source_ : bytes).
Context (Hpaired : ∀ i, source_ !! i = Some carriage → source_ !! S i = Some newline).
Local Abbreviation piece := (substr source_).

Lemma piece_nil i : piece i i = [].
Proof. unfold substr. by rewrite Nat.sub_diag. Qed.
Lemma piece_cons i j c : source_ !! i = Some c → i < j → piece i j = c :: piece (S i) j.
Proof.
  intros Hc Hj. unfold substr. rewrite (drop_S _ c) by done. by replace (j - i) with (S (j - S i)) by lia.
Qed.
Lemma piece_app i k j : i ≤ k ≤ j → piece i j = piece i k ++ piece k j.
Proof.
  intros H. unfold substr. replace (drop k source_) with (drop (k - i) (drop i source_)).
  - rewrite take_take_drop. f_equal. lia.
  - rewrite drop_drop. f_equal. lia.
Qed.
Lemma piece_at2 i j a b : at2 source_ i a b → S (S i) ≤ j → piece i j = a :: b :: piece (S (S i)) j.
Proof. intros [Ha Hb] Hj. rewrite (piece_cons i j a), (piece_cons (S i) j b); [done|done|lia|done|lia]. Qed.
Lemma piece_one i : i < length source_ → ∃ c, source_ !! i = Some c ∧ piece i (S i) = [c].
Proof.
  intros Hi. destruct (lookup_lt_is_Some_2 _ _ Hi) as [c Hc]. exists c. split; [done|].
  by rewrite (piece_cons _ _ c), piece_nil by (done || lia).
Qed.

(** *** Block comments *)

Lemma block_tail_le d i k : block_tail source_ d i k → i ≤ k.
Proof. induction 1; lia. Qed.

(** A block comment ends with a slash or with the source. *)
Lemma block_tail_last d i k : block_tail source_ (S d) i k → k = length source_ ∨ source_ !! (k - 1) = Some "/"%char.
Proof.
  remember (S d) as n eqn:En. intros H. revert d En.
  induction H as [i|d|d i k Ho H IH|d i k [_ Hc] H IH|d i k Hlt Ho Hc H IH]; intros d' [=]; subst; eauto.
  destruct d' as [|d']; [|by eapply IH]. inversion H; subst. right. by replace (S (S i) - 1) with (S i) by lia.
Qed.

Lemma block_end_piece d i k j :
  block_tail source_ d i k → k ≤ j ≤ length source_ → block_end d (piece i j) = (piece i k, piece k j).
Proof.
  intros H Hj. induction H as [i|d|d i k Ho H IH|d i k Ho H IH|d i k Hlt Ho Hc H IH].
  - rewrite piece_nil. by destruct (piece i j).
  - assert (j = length source_) as -> by lia. by rewrite piece_nil.
  - pose proof (block_tail_le _ _ _ H). rewrite !(piece_at2 _ _ _ _ Ho) by lia. cbn [block_end].
    by rewrite IH by done.
  - pose proof (block_tail_le _ _ _ H). rewrite !(piece_at2 _ _ _ _ Ho) by lia. cbn [block_end].
    by rewrite IH by done.
  - pose proof (block_tail_le _ _ _ H). destruct (lookup_lt_is_Some_2 _ _ Hlt) as [c Hc0].
    rewrite !(piece_cons i _ c) by (done || lia). specialize (IH Hj).
    destruct (decide (S i < j)) as [Hlt2|].
    + destruct (lookup_lt_is_Some_2 source_ (S i)) as [e He]; [lia|].
      rewrite (piece_cons (S i) j e) in IH |- * by done. cbn [block_end]. cbn [block_end] in IH.
      assert (bool_decide (c = "/"%char) && bool_decide (e = "*"%char) = false) as ->.
      { apply not_true_iff_false. rewrite andb_true_iff, !bool_decide_eq_true. intros [-> ->]. by apply Ho. }
      assert (bool_decide (c = "*"%char) && bool_decide (e = "/"%char) = false) as ->.
      { apply not_true_iff_false. rewrite andb_true_iff, !bool_decide_eq_true. intros [-> ->]. by apply Hc. }
      by rewrite IH.
    + assert (k = S i) as -> by lia. assert (j = S i) as -> by lia. by rewrite piece_nil.
Qed.

(** *** Line comments *)

Definition breaks (text : bytes) : Prop :=
  match text with [] => True | c :: _ => c = carriage ∨ c = newline end.

Lemma line_end_app body rest :
  Forall (λ c, c ≠ carriage ∧ c ≠ newline) body → breaks rest → line_end (body ++ rest) = (body, rest).
Proof.
  intros Hb Hr. induction Hb as [|c body [Hc Hn] Hb IH]; cbn [app line_end].
  - destruct rest as [|c rest]; [done|]. cbn [line_end]. destruct Hr as [-> | ->]; done.
  - rewrite !bool_decide_false by done. cbn [orb]. by rewrite IH.
Qed.

(** Where the formatter ends a comment that the lexer ends at [k]. *)
Lemma line_comment_end i k j :
  at2 source_ i "/" "/" → i ≤ k ≤ j → j ≤ length source_ →
  (∀ m, i ≤ m < k → source_ !! m ≠ Some newline) → (k = length source_ ∨ source_ !! k = Some newline) →
  ∃ e, S (S i) ≤ e ≤ k ∧ Forall (λ c, c ≠ carriage ∧ c ≠ newline) (piece (S (S i)) e) ∧ breaks (piece e j) ∧
    (e = k ∨ S e = k ∧ source_ !! e = Some carriage ∧ source_ !! k = Some newline).
Proof.
  intros [H1 H2] Hk Hj Hno Hend.
  assert (S (S i) ≤ k) as Hk2.
  { destruct (decide (k = i)) as [->|]; [destruct Hend as [->|E]; [by rewrite lookup_ge_None_2 in H1 by done|by rewrite H1 in E]|].
    destruct (decide (k = S i)) as [->|]; [destruct Hend as [E|E]; [|by rewrite H2 in E]|lia].
    rewrite lookup_ge_None_2 in H2 by lia. done. }
  assert (∀ e, e ≤ k → (∀ m, m < e → source_ !! m = Some carriage → m < S i) →
    Forall (λ c, c ≠ carriage ∧ c ≠ newline) (piece (S (S i)) e)) as Hbody.
  { intros e He Hc. apply Forall_lookup. intros n c Hl. apply lookup_substr in Hl as [Hl Hn].
    split; intros ->; [apply Hc in Hl; lia|]. apply (Hno (S (S i) + n)); [lia|done]. }
  assert (∀ m, i ≤ m < k → source_ !! m = Some carriage → S m = k) as Hcr.
  { intros m Hm Hl%Hpaired. destruct (decide (S m = k)); [done|]. exfalso. apply (Hno (S m)); [lia|done]. }
  destruct (decide (source_ !! (k - 1) = Some carriage)) as [Hc|Hc].
  - apply Hpaired in Hc as Hn. replace (S (k - 1)) with k in Hn by lia. exists (k - 1).
    assert (S (S i) ≤ k - 1) by (destruct (decide (k = S (S i))) as [->|]; [by replace (S (S i) - 1) with (S i) in Hc by lia; rewrite H2 in Hc|lia]).
    split_and!; [lia|lia| | |right; split_and!; [lia|done|done]].
    + apply Hbody; [lia|]. intros m Hm Hl. destruct (decide (m < i)); [lia|]. apply Hcr in Hl; lia.
    + rewrite (piece_cons _ _ carriage) by (done || lia). by left.
  - exists k. split_and!; [lia|lia| | |by left].
    + apply Hbody; [done|]. intros m Hm Hl. destruct (decide (m < i)); [lia|].
      pose proof (Hcr m ltac:(lia) Hl) as <-. cbn in Hc. by rewrite Nat.sub_0_r in Hc.
    + destruct (decide (k = j)) as [->|]; [by rewrite piece_nil|].
      destruct Hend as [->|Hn]; [lia|]. rewrite (piece_cons _ _ newline) by (done || lia). by right.
Qed.

(** *** Ignored text *)

Lemma ignored_le i j : ignored source_ i j → i ≤ j.
Proof. induction 1 as [| |i k j H ? ? ? ? ?|i k j ? Hb]; [lia..|]. apply block_tail_le in Hb. lia. Qed.

Lemma starts_comment_not second c rest : c ≠ "/"%char → starts_comment second (c :: rest) = false.
Proof. intros. cbn. destruct rest; [done|]. by rewrite bool_decide_false. Qed.

(** A line break of two bytes is one line break. *)
Lemma trivia_pair fuel rest w :
  trivia (S fuel) (carriage :: newline :: rest) w = trivia (S fuel) (newline :: rest) w.
Proof. cbn. by destruct rest. Qed.

Lemma trivia_line fuel tail body rest w :
  line_end tail = (body, rest) →
  trivia (S fuel) ("/"%char :: "/"%char :: tail) w = trivia fuel rest (writeComment ("/"%char :: "/"%char :: body) w).
Proof.
  intros E. change (trivia (S fuel) _ w) with (let '(comment, rest) := line_end tail in
    trivia fuel rest (writeComment ("/"%char :: "/"%char :: comment) w)). by rewrite E.
Qed.
Lemma trivia_block fuel tail body rest w :
  block_end 1 tail = (body, rest) →
  trivia (S fuel) ("/"%char :: "*"%char :: tail) w = trivia fuel rest (writeBlockComment ("/"%char :: "*"%char :: body) w).
Proof.
  intros E. change (trivia (S fuel) _ w) with (let '(comment, rest) := block_end 1 tail in
    trivia fuel rest (writeBlockComment ("/"%char :: "*"%char :: comment) w)). by rewrite E.
Qed.

Definition wrote (text : bytes) (w w' : Writer) : Prop :=
  visible_text (output_ w') = visible_text (output_ w) ++ visible_text text ∧ (stacked w → stacked w').

Lemma wrote_app a b w w1 w2 : wrote a w w1 → wrote b w1 w2 → wrote (a ++ b) w w2.
Proof. intros [Ha Hs] [Hb Hs']. split; [|by auto]. by rewrite Hb, Ha, visible_app, app_assoc. Qed.

Lemma wrote_comment comment w : wrote comment w (writeComment comment w).
Proof. split; [apply writeComment_visible|apply comment_position_stacked]. Qed.

Lemma wrote_block i k w :
  at2 source_ i "/" "*" → block_tail source_ 1 (S (S i)) k → k ≤ length source_ →
  wrote (piece i k) w (writeBlockComment (piece i k) w).
Proof.
  intros Hi Hb Hk. split; [|apply comment_position_stacked]. apply writeBlockComment_visible.
  intros m Hl. apply lookup_substr in Hl as [Hl Hm]. pose proof (Hpaired _ Hl) as Hn. rewrite <- Nat.add_succ_r in Hn.
  destruct (decide (i + S m < k)) as [Hlt|Hge].
  - unfold substr. rewrite lookup_take, lookup_drop, decide_True by lia. done.
  - exfalso. assert (k = i + S m) as E by lia. apply block_tail_last in Hb as [Hb|Hb].
    + rewrite lookup_ge_None_2 in Hn by lia. done.
    + replace (k - 1) with (i + m) in Hb by lia. by rewrite Hl in Hb.
Qed.

(** Between two tokens the formatter keeps everything but blanks. *)
Lemma trivia_piece i j fuel w :
  ignored source_ i j → j ≤ length source_ → source_ !! j ≠ Some newline → j - i < fuel →
  ∃ w', trivia fuel (piece i j) w = Some w' ∧ wrote (piece i j) w w'.
Proof.
  intros H Hj Hn. revert fuel w.
  induction H as [i|i j c Hc Hsp H IH|i k j Ho Hk Hno Hend H IH|i k j Ho Hb H IH]; intros fuel w Hf;
    (destruct fuel as [|fuel]; [lia|]); specialize (IH Hj Hn) || idtac.
  - rewrite piece_nil. exists w. split; [done|]. split; [by rewrite app_nil_r|done].
  - pose proof (ignored_le _ _ H). rewrite (piece_cons _ _ c) by (done || lia).
    assert (c ≠ "/"%char) as Hs by (by intros ->).
    destruct (decide (c = carriage)) as [->|Hcr].
    { apply Hpaired in Hc as Hc'. assert (S i ≠ j) by congruence.
      rewrite (piece_cons (S i) _ newline) by (done || lia). rewrite trivia_pair.
      rewrite <- (piece_cons (S i) _ newline) by (done || lia).
      destruct (IH (S fuel) w) as (w' & -> & Hw); [lia|]. exists w'. split; [done|exact Hw]. }
    cbn [trivia]. rewrite !starts_comment_not by done. rewrite (bool_decide_false (c = carriage)) by done.
    case_bool_decide as Hnl.
    + subst c. destruct (IH fuel (newline_ w)) as (w' & -> & Hw); [lia|]. exists w'. split; [done|].
      apply (wrote_app [newline] _ _ (newline_ w)); [split; [apply newline_visible|done]|done].
    + destruct (IH fuel w) as (w' & -> & Hw); [lia|]. exists w'. split; [done|].
      apply (wrote_app [c] _ _ w); [|done]. split; [|done]. cbn. unfold visible.
      by rewrite Hsp, bool_decide_false, app_nil_r by done.
  - pose proof (ignored_le _ _ H).
    destruct (line_comment_end i k j) as (e & He & Hbody & Hbr & Hek); [done|lia|done..|].
    rewrite (piece_at2 _ _ _ _ Ho) by lia. rewrite (piece_app _ e) by lia.
    erewrite trivia_line by (by apply line_end_app). rewrite <- (piece_at2 _ _ _ _ Ho), <- piece_app by lia.
    rewrite <- (piece_at2 _ _ _ _ Ho) by lia. set (w1 := writeComment (piece i e) w).
    assert (trivia fuel (piece e j) w1 = trivia fuel (piece k j) w1) as ->.
    { destruct Hek as [->|(<- & Hc & Hc')]; [done|]. assert (S e ≠ j) by congruence.
      rewrite (piece_cons e _ carriage), (piece_cons (S e) _ newline) by (done || lia).
      destruct fuel; [lia|]. apply trivia_pair. }
    destruct (IH fuel w1) as (w' & -> & Hw); [lia|]. exists w'. split; [done|].
    rewrite (piece_app i k j) by lia. eapply wrote_app; [|done].
    destruct Hek as [->|(<- & Hc & _)]; [apply wrote_comment|].
    rewrite (piece_app i e (S e)), (piece_cons e _ carriage), piece_nil by (done || lia).
    eapply wrote_app; [apply wrote_comment|split; [by rewrite app_nil_r|done]].
  - pose proof (ignored_le _ _ H). pose proof (block_tail_le _ _ _ Hb).
    rewrite (piece_at2 _ _ _ _ Ho) by lia. erewrite trivia_block by (by apply block_end_piece; [exact Hb|lia]).
    rewrite <- !(piece_at2 _ _ _ _ Ho) by lia.
    destruct (IH fuel (writeBlockComment (piece i k) w)) as (w' & -> & Hw); [lia|]. exists w'. split; [done|].
    rewrite (piece_app i k j) by lia. eapply wrote_app; [|done]. apply wrote_block; [done..|lia].
Qed.
End trivia.

(** ** Termination *)

Lemma line_end_length value body rest : line_end value = (body, rest) → length rest ≤ length value.
Proof.
  revert body rest. induction value as [|c value IH]; intros body rest; cbn; [by intros [= <- <-]|].
  destruct (_ || _); [by intros [= <- <-]|]. destruct (line_end value) as [b r]. intros [= <- <-].
  specialize (IH _ _ eq_refl). lia.
Qed.

Lemma block_end_length depth value body rest : block_end depth value = (body, rest) → length rest ≤ length value.
Proof.
  revert depth body rest. induction value as [value IH] using (induction_ltof1 _ length). unfold ltof in IH.
  intros depth body rest. destruct value as [|c [|d value]], depth as [|depth]; cbn [block_end];
    try (by intros [= <- <-]); try (intros [= <- <-]; cbn; lia).
  assert (∀ k v, v = value ∨ v = d :: value → ∀ p q,
    (let '(comment, rest) := block_end k v in (p ++ comment, rest)) = (q, rest) →
    length rest ≤ length (c :: d :: value)) as Hgo.
  { intros k v Hv p q E. destruct (block_end k v) as [b r] eqn:Eb. injection E as _ <-.
    apply IH in Eb; destruct Hv as [-> | ->]; cbn in *; lia. }
  destruct (_ && _); [|destruct (_ && _)]; intros E.
  - by eapply (Hgo (S (S depth)) value ltac:(by left) [c; d]).
  - by eapply (Hgo depth value ltac:(by left) [c; d]).
  - by eapply (Hgo (S depth) (d :: value) ltac:(by right) [c]).
Qed.

Lemma trivia_total fuel value w :
  length value < fuel → ∃ w', trivia fuel value w = Some w' ∧ (stacked w → stacked w').
Proof.
  revert value w. induction fuel as [|fuel IH]; intros value w Hf; [lia|].
  destruct value as [|c value]; [by exists w|]. cbn [trivia]. cbn in Hf.
  assert (∀ v w1, length v ≤ length value → (stacked w → stacked w1) →
    ∃ w', trivia fuel v w1 = Some w' ∧ (stacked w → stacked w')) as Hgo.
  { intros v w1 Hv Hw. destruct (IH v w1) as (w' & E & Hs); [lia|]. exists w'. auto. }
  destruct (starts_comment "/" _).
  { destruct (line_end _) as [body rest] eqn:E. apply line_end_length in E. apply Hgo.
    - rewrite length_drop in E. cbn in E. lia.
    - apply comment_position_stacked. }
  destruct (starts_comment "*" _).
  { destruct (block_end _ _) as [body rest] eqn:E. apply block_end_length in E. apply Hgo.
    - rewrite length_drop in E. cbn in E. lia.
    - apply comment_position_stacked. }
  repeat case_bool_decide; try (by apply Hgo). destruct value as [|d value]; [by apply Hgo|].
  case_bool_decide; apply Hgo; cbn; auto; lia.
Qed.

(** ** Reads of tokens and flags *)

(** The parts of a conjunction. *)
Ltac conjuncts :=
  eapply tests_weaken; [|done];
  repeat lazymatch goal with |- tests (_ &&? _) _ => eapply tests_and; [|intros _] end;
  try apply tests_some.
Section reads.
Context (tokens : list Token).

Lemma yields_before {A} (l : list A) places index (Q : A → Prop) :
  places ≤ index < places + length l → (∀ a, Q a) → yields (element_before l places index) Q.
Proof.
  intros H HQ. unfold element_before. rewrite bool_decide_true by lia. apply yields_lookup; [lia|auto].
Qed.
Lemma tests_before {A} (test : A → bool) l places index :
  places ≤ index < places + length l → tests (test <$> element_before l places index) True.
Proof. intros H. by apply yields_fmap, yields_before. Qed.
Lemma tests_flag_before l places index : places ≤ index < places + length l → tests (element_before l places index) True.
Proof. intros H. by apply yields_before. Qed.
Lemma tests_ends_before index : 0 < index ≤ length tokens → tests (ends_before tokens index) True.
Proof. intros H. apply tests_before. lia. Qed.

Lemma tests_first_or (index : nat) c :
  (0 < index → tests c True) → tests (Some (bool_decide (index = 0)) ||? c) True.
Proof.
  intros Hc. destruct index as [|index]; [rewrite bool_decide_true by done; by apply yields_ret|].
  rewrite bool_decide_false by done. apply Hc. lia.
Qed.

Lemma unaryMinus_tests index : index < length tokens → tests (unaryMinus tokens index) True.
Proof.
  intros Hi. eapply tests_weaken; [eapply tests_and; [by apply tests_kind_is|intros _]|done].
  apply tests_first_or. intros H. eapply tests_negb, tests_ends_before. lia.
Qed.
Lemma unary_prefix_tests prefix index starts : index < length tokens → tests (unary_prefix tokens prefix index starts) True.
Proof.
  intros Hi. apply yields_bind, yields_lookup; [done|]. intros token _.
  eapply tests_weaken; [eapply tests_and; [apply tests_some|intros _]|done].
  destruct (bool_decide (_ ∈ starts)); [by apply yields_ret|]. destruct index as [|index]; [by apply yields_ret|].
  rewrite bool_decide_false by done. eapply tests_weaken; [eapply tests_or; [apply tests_before; lia|]|done].
  eapply tests_negb, tests_ends_before. lia.
Qed.

Section flags.
Context (angles : list bool) (brackets : list bool) (starts : gset nat).
Context (Hangles : length angles = length tokens) (Hbrackets : length brackets = length tokens).
Context (index : nat) (Hindex : 0 < index < length tokens).

Lemma flag_tests places : places ≤ index → tests (negb <$> element_before angles places index) True.
Proof using Hangles Hbrackets Hindex. intros H. apply tests_before. rewrite Hangles. lia. Qed.
Lemma flag_here_tests : tests (negb <$> angles !! index) True.
Proof using Hangles Hbrackets Hindex. apply yields_fmap, yields_lookup; [lia|done]. Qed.

Lemma splits_shift_tests before token : tests (splits_shift angles index before token) True.
Proof using Hangles Hbrackets Hindex.
  unfold splits_shift. conjuncts.
  - apply flag_tests. lia.
  - apply flag_here_tests.
Qed.
Lemma splits_shift_assignment_tests before token : tests (splits_shift_assignment tokens angles index before token) True.
Proof using Hangles Hbrackets Hindex.
  unfold splits_shift_assignment. case_bool_decide as H2; [|by apply yields_ret].
  conjuncts.
  - by apply flag_tests.
  - apply flag_tests. lia.
  - apply tests_before. lia.
Qed.
Lemma space_before_dot_tests previous : tests (space_before_dot angles index previous) True.
Proof using Hangles Hbrackets Hindex. destruct previous; try (by apply yields_ret). apply flag_tests. lia. Qed.
Lemma space_before_paren_tests previous : tests (space_before_paren angles index previous) True.
Proof using Hangles Hbrackets Hindex. destruct previous; try (by apply yields_ret). apply flag_tests. lia. Qed.
Lemma space_before_bracket_tests previous : tests (space_before_bracket brackets index previous) True.
Proof using Hangles Hbrackets Hindex. apply yields_bind, yields_lookup; [lia|]. intros b _. by apply yields_ret. Qed.
Lemma attaches_tests previous : tests (attaches tokens starts index previous) True.
Proof using Hangles Hbrackets Hindex.
  assert (tests (unaryMinus tokens (index - 1) ||? unaryStar tokens (index - 1) starts ||?
    unaryAmpersand tokens (index - 1) starts) True) as H.
  { eapply tests_weaken; [|done]. do 2 (eapply tests_or; [|apply unary_prefix_tests; lia]). apply unaryMinus_tests. lia. }
  destruct previous; first [exact H|by apply yields_ret].
Qed.
Lemma space_in_expression_tests previous current : tests (space_in_expression tokens angles index previous current) True.
Proof using Hangles Hbrackets Hindex.
  unfold space_in_expression. apply yields_if; intros _.
  - eapply yields_test; [eapply tests_and; [apply tests_some|intros _; apply tests_flag_before; lia]|intros _|].
    + eapply tests_weaken; [eapply tests_or; [apply tests_some|apply flag_here_tests]|done].
    + apply flag_tests. lia.
  - apply yields_if; intros _; [apply flag_here_tests|].
    eapply yields_test; [eapply tests_or; [apply tests_some|apply unaryMinus_tests; lia]|intros _|]; by apply yields_ret.
Qed.

(** Between a token and the one before it, every read is in range. *)
Lemma spaceBetween_tests : tests (spaceBetween tokens index angles brackets starts) True.
Proof using Hangles Hbrackets Hindex.
  apply yields_bind, yields_before; [lia|]. intros before. apply yields_bind, yields_lookup; [lia|]. intros token _.
  eapply yields_test; [apply splits_shift_tests|intros _; by apply yields_ret|].
  eapply yields_test; [apply splits_shift_assignment_tests|intros _; by apply yields_ret|].
  assert (∀ current, yields (attached ← attaches tokens starts index (tok_kind before);
    if attached : bool then Some false
    else if bool_decide (current = TokenKind.LeftParen) then space_before_paren angles index (tok_kind before)
    else if bool_decide (current = TokenKind.LeftBracket) then space_before_bracket brackets index (tok_kind before)
    else if bool_decide (tok_kind before = TokenKind.RightBracket) && bool_decide (current = TokenKind.Identifier)
    then Some false
    else if bool_decide (current = TokenKind.LeftBrace) then Some true
    else space_in_expression tokens angles index (tok_kind before) current) (λ b, b = true → True)) as Hrest.
  { intros current. eapply yields_test; [apply attaches_tests|intros _; by apply yields_ret|].
    repeat lazymatch goal with |- yields (if _ then _ else _) _ => apply yields_if; intros _ end; try (by apply yields_ret).
    - apply space_before_paren_tests.
    - apply space_before_bracket_tests.
    - apply space_in_expression_tests. }
  destruct (tok_kind token); first [by apply yields_ret|apply Hrest|apply space_before_dot_tests].
Qed.
End flags.

Lemma parameters_closing_bound rest depth current closing :
  parameters_closing rest depth current = Some closing → current ≤ closing < current + length rest.
Proof.
  revert depth current. induction rest as [|t rest IH]; intros depth current; [done|]. cbn [parameters_closing length].
  assert (∀ d, parameters_closing rest d (S current) = Some closing → current ≤ closing < current + S (length rest)) as Hgo
    by (intros d H%IH; lia).
  destruct (tok_kind t); try (case_bool_decide; [done|]); try apply Hgo.
  case_bool_decide; [intros [= <-]; lia|apply Hgo].
Qed.

Lemma closing_bracket_yields index :
  index < length tokens →
  yields (closing_bracket tokens index) (λ o, ∀ closing, o = Some closing → index ≤ closing < length tokens).
Proof.
  intros Hi. apply yields_test with (P := True).
  - unfold declares_parameters. case_bool_decide; [|by apply yields_ret]. conjuncts; apply tests_before; lia.
  - intros _. apply yields_ret. intros closing H%parameters_closing_bound. rewrite length_drop in H. lia.
  - apply typeArgumentListClosingToken_yields.
Qed.
Lemma accepted_closing_tests closing : tests (accepted_closing tokens closing) True.
Proof.
  unfold accepted_closing. case_bool_decide; [|by apply yields_ret].
  do 2 (apply yields_bind, yields_lookup; [lia|intros ? _]). by apply yields_ret.
Qed.
Lemma mark_delimiters_yields current count result :
  length result = length tokens → current + count ≤ length tokens →
  yields (mark_delimiters tokens current count result) (λ l, length l = length tokens).
Proof.
  revert current result. induction count as [|count IH]; intros current result Hl Hc; cbn [mark_delimiters]; [by apply yields_ret|].
  apply yields_bind, yields_lookup; [lia|]. intros t _. apply yields_bind.
  apply yields_mono with (Q := λ l, length l = length tokens); [|intros l H; apply IH; [done|lia]].
  apply yields_if; intros _; [|by apply yields_ret]. unfold store. rewrite bool_decide_true by lia.
  apply yields_ret. by rewrite length_insert.
Qed.
Lemma delimiter_step_yields index result :
  index < length tokens → length result = length tokens →
  yields (delimiter_step tokens index result) (λ l, length l = length tokens).
Proof.
  intros Hi Hl. eapply yields_test; [by apply tests_kind_is|intros _|by apply yields_ret].
  apply yields_bind. eapply yields_mono; [by apply closing_bracket_yields|].
  intros [closing|] Hc; [|by apply yields_ret]. specialize (Hc closing eq_refl).
  eapply yields_test; [apply accepted_closing_tests|intros _|by apply yields_ret]. apply mark_delimiters_yields; [done|lia].
Qed.
Lemma delimiter_steps_yields index count result :
  index + count ≤ length tokens → length result = length tokens →
  yields (delimiter_steps tokens index count result) (λ l, length l = length tokens).
Proof.
  revert index result. induction count as [|count IH]; intros index result Hc Hl; cbn [delimiter_steps]; [by apply yields_ret|].
  apply yields_bind. eapply yields_mono; [apply delimiter_step_yields; [lia|done]|]. intros l H. apply IH; [lia|done].
Qed.

(** The flags are computed, one for each token. *)
Definition flags_fit (l : Layout) : Prop :=
  length (angleDelimiters l) = length tokens ∧ length (typeBrackets l) = length tokens.
Lemma layout_yields program : yields (layout tokens program) flags_fit.
Proof.
  apply yields_bind. eapply yields_mono; [apply delimiter_steps_yields; [done|by rewrite length_replicate]|].
  intros angles H. apply yields_ret. split; [done|]. cbn. unfold typeOpeningBrackets. by rewrite length_map.
Qed.
End reads.

(** ** [Writer::format] *)
Section format.
Context (source : bytes) (sourceId : nat) (tokens : list Token) (l : Layout).

Definition paired : Prop := ∀ i, source !! i = Some carriage → source !! S i = Some newline.
Implicit Types w : Writer.

(** A step of the writer over the source text between two offsets. *)
Definition keeps (i j : nat) w w' : Prop :=
  (stacked w → stacked w') ∧ (paired → visible_text (output_ w') = visible_text (output_ w) ++ visible_text (substr source i j)).

Lemma trivia_keeps i j w :
  ignored source i j → j ≤ length source → source !! j ≠ Some newline →
  ∃ w', trivia (S (length (substr source i j))) (substr source i j) w = Some w' ∧ keeps i j w w'.
Proof.
  intros Hi Hj Hn. destruct (trivia_total (S (length (substr source i j))) (substr source i j) w) as (w' & E & Hs); [lia|].
  exists w'. split; [done|]. split; [done|]. intros Hp.
  destruct (trivia_piece source Hp i j (S (length (substr source i j))) w) as (w2 & E2 & Hw & _); [done..| |].
  - rewrite length_substr; [lia|]. apply ignored_le in Hi. lia.
  - rewrite E2 in E. by injection E as ->.
Qed.

Lemma token_position_keeps index token gap w :
  flags_fit tokens l → index < length tokens →
  yields (token_position tokens l index token gap w)
    (λ w', visible_text (output_ w') = visible_text (output_ w) ∧ (stacked w → stacked w')).
Proof.
  intros [Ha Hb] Hi. unfold token_position. apply yields_if; intros _.
  { apply yields_ret. split; [apply indent_visible|apply indent_stacked]. }
  apply yields_bind. apply yields_mono with (Q := λ _, True).
  - destruct (bool_decide (index = 0)) eqn:E; [by apply yields_ret|]. to_prop.
    apply yields_mono with (Q := λ b, b = true → True); [|done]. conjuncts. apply spaceBetween_tests; [done..|lia].
  - intros separated _. apply yields_ret. destruct separated; [|done]. split; [|done]. cbn. by rewrite visible_app, app_nil_r.
Qed.

Lemma view_piece i j : i ≤ j → j ≤ length source → view source i j = Some (substr source i j).
Proof. intros. unfold view. by rewrite !bool_decide_true. Qed.

(** The loop reads the tokens to their end, inside the source. *)
Lemma format_loop_keeps from rest index w :
  flags_fit tokens l → accepted_from source sourceId from rest → drop index tokens = rest → stacked w →
  ∃ w', format_loop source tokens l rest index from w = Some w' ∧ keeps from (length source) w w'.
Proof.
  intros Hfit H. revert index w.
  induction H as [from t Hi Hle Ht Hk|from start t stop ts Hi Hle Ht Hk H IH]; intros index w Hd Hw; cbn [format_loop].
  - rewrite bool_decide_true, view_piece by done. apply trivia_keeps; [done..|]. by rewrite lookup_ge_None_2.
  - destruct Hi as [Hi Hsp]. pose proof (ta_stop _ _ _ _ _ Ht) as Hstop. pose proof (ta_nonempty _ _ _ _ _ Ht Hk).
    assert (index < length tokens) as Hindex.
    { destruct (decide (index < length tokens)); [done|]. by rewrite drop_ge in Hd by lia. }
    assert (drop (S index) tokens = ts) as Hd'.
    { replace (S index) with (index + 1) by lia. rewrite <- drop_drop, Hd. done. }
    rewrite bool_decide_false by done. rewrite (ta_offset _ _ _ _ _ Ht), (ta_length _ _ _ _ _ Ht).
    rewrite (view_piece from start), (view_piece start stop) by lia. cbn [mbind option_bind].
    destruct (trivia_keeps from start w) as (w1 & -> & Hw1 & Hv1); [done|lia|by intros E%Hsp|].
    cbn [mbind option_bind].
    destruct (token_position_keeps index t (substr source from start) w1 Hfit Hindex) as (w2 & -> & Hv2 & Hs2).
    cbn [mbind option_bind]. destruct (lookup_lt_is_Some_2 (angleDelimiters l) index) as [angle ->]; [by rewrite (proj1 Hfit)|].
    cbn [mbind option_bind]. set (w3 := write_raw (substr source start stop) w2).
    destruct (updateDepth_some (tok_kind t) angle (bool_decide (start ∈ closureBlocks l))
      (span_line (tok_span t)) w3) as (w4 & -> & Hs4 & Ho4 & _); [by apply Hs2, Hw1|]. cbn [mbind option_bind].
    destruct (IH (S index) w4 Hd' Hs4) as (w5 & -> & Hs5 & Hv5). exists w5. split; [done|]. split; [auto|]. intros Hp.
    rewrite (Hv5 Hp), Ho4. unfold w3. cbn. rewrite visible_app, Hv2, (Hv1 Hp), <- !app_assoc, <- !visible_app.
    by rewrite <- !piece_app by lia.
Qed.
End format.

Lemma format_keeps source sourceId tokens program :
  accepted_from source sourceId 0 tokens →
  ∃ contents, format source tokens program = Some contents ∧
    (paired source → visible_text contents = visible_text source).
Proof.
  intros H. destruct (layout_yields tokens program) as (l & El & Hfit).
  destruct (format_loop_keeps source sourceId tokens l 0 tokens 0 writer_start) as (w & E & Hs & Hv); [done..|].
  exists (output_ w). unfold format. rewrite El. cbn [mbind option_bind]. rewrite E. split; [done|]. intros Hp. rewrite (Hv Hp). cbn.
  unfold substr. by rewrite Nat.sub_0_r, drop_0, take_ge.
Qed.
