(* ===== verification/FormatterTheorems.v ===== *)
(** * Theorems about the formatter *)
From S2P Require Import Prelude Target Diagnostics Token Lexer LexerErrors Ast ParserState ParserProgram ProgramTheorems Formatter FormatterProofs.

Lemma carriages_paired_paired source : carriages_paired source = true → paired source.
Proof. intros H i. by apply carriages_paired_lookup. Qed.

(** The same kind and the same decoded text. *)
Definition same_token (a b : Token) : Prop := tok_kind a = tok_kind b ∧ tok_text a = tok_text b.

Lemma sameTokens_spec a b : sameTokens a b = true ↔ Forall2 same_token a b.
Proof.
  revert b. induction a as [|x a IH]; intros [|y b]; cbn [sameTokens].
  1: split; [constructor|done].
  1-2: split; [done|by inversion 1].
  - rewrite !andb_true_iff, !bool_decide_eq_true, IH, Forall2_cons. unfold same_token. tauto.
Qed.

(** Scanning and parsing without errors. *)
Definition reads (target_ : TargetPlatform) (parseFloating : bytes → bool) (source : bytes) (sourceId : nat)
    (tokens : list Token) : Prop :=
  ∃ st program d, scan source sourceId [] = Some (tokens, st) ∧
    hasErrors (Lexer.diagnostics_ st) = false ∧
    parse tokens target_ parseFloating false (Lexer.diagnostics_ st) = Some (program, d) ∧ hasErrors d = false.

Section formatSource.
Context (target_ : TargetPlatform) (parseFloating : bytes → bool).

Lemma verify_some contents sourceId :
  ∃ tokens d, verify target_ parseFloating contents sourceId = Some (tokens, d) ∧
    (hasErrors d = false → reads target_ parseFloating contents sourceId tokens).
Proof.
  destruct (scan_accepted contents sourceId) as (tokens & st & E & Hl & _).
  unfold verify. rewrite E. cbn [mbind option_bind].
  destruct (hasErrors (Lexer.diagnostics_ st)) eqn:He.
  - exists tokens, (Lexer.diagnostics_ st). split; [done|]. congruence.
  - destruct (parse_well_formed tokens target_ parseFloating false (Lexer.diagnostics_ st)) as (p & d & Ep & _);
      [by eapply lexed_ended|].
    rewrite Ep. exists tokens, d. split; [done|]. intros Hd. by exists st, p, d.
Qed.

(** The cases of [formatSource]: the source as it is, or a rewrite that was checked. *)
Lemma formatSource_cases source sourceId :
  ∃ contents d, formatSource target_ parseFloating source sourceId = Some (contents, d) ∧
    ((contents = source ∧
      (hasErrors d = false → ∃ tokens, reads target_ parseFloating source sourceId tokens)) ∨
     (hasErrors d = false ∧ ∃ tokens formatted,
        reads target_ parseFloating source sourceId tokens ∧
        reads target_ parseFloating contents sourceId formatted ∧ Forall2 same_token tokens formatted ∧
        (paired source → visible_text contents = visible_text source))).
Proof.
  destruct (scan_accepted source sourceId) as (tokens & st & E & Hl & Ha).
  unfold formatSource. rewrite E. cbn [mbind option_bind].
  destruct (hasErrors (Lexer.diagnostics_ st)) eqn:He.
  { eexists _, _. split; [done|]. left. split; [done|]. congruence. }
  destruct (Ha eq_refl) as [_ Hacc].
  destruct (parse_well_formed tokens target_ parseFloating false (Lexer.diagnostics_ st)) as (p & d & Ep & _);
    [by eapply lexed_ended|].
  rewrite Ep. cbn [mbind option_bind]. destruct (hasErrors d) eqn:Hd.
  { eexists _, _. split; [done|]. left. split; [done|]. congruence. }
  assert (reads target_ parseFloating source sourceId tokens) as Hr by (by exists st, p, d).
  destruct (format_keeps source sourceId tokens p Hacc) as (contents & -> & Hv). cbn [mbind option_bind].
  destruct (verify_some contents sourceId) as (formatted & d' & -> & Hf). cbn [mbind option_bind].
  destruct (hasErrors d') eqn:Hd'; cbn [orb]; [eexists _, _; split; [done|]; left; eauto|].
  destruct (sameTokens tokens formatted) eqn:Hs; cbn [negb]; eexists _, _; (split; [done|]); [right|left; eauto].
  apply sameTokens_spec in Hs. split; [done|]. exists tokens, formatted. auto.
Qed.

Lemma same_tokens_refl tokens : Forall2 same_token tokens tokens.
Proof. by induction tokens; constructor. Qed.

(** C24: the formatter answers on every source text: it ends, and every token and every flag
    it reads, the look-ahead for generic lists included, is inside its vector, every stack it
    pops has an element and every range it cuts is inside the text.  When it reports an
    error the contents are the source as it was.  Otherwise source and result are both read without errors, and the result has
    the tokens of the source, by kind and decoded text. *)
Theorem format_preserves_tokens (source : bytes) (sourceId : nat) :
  ∃ contents d, formatSource target_ parseFloating source sourceId = Some (contents, d) ∧
    if hasErrors d then contents = source
    else ∃ tokens formatted,
      reads target_ parseFloating source sourceId tokens ∧
      reads target_ parseFloating contents sourceId formatted ∧ Forall2 same_token tokens formatted.
Proof.
  destruct (formatSource_cases source sourceId) as (contents & d & E & H). exists contents, d. split; [done|].
  destruct H as [[-> H]|[-> (tokens & formatted & H1 & H2 & H3 & _)]]; [|by exists tokens, formatted].
  destruct (hasErrors d); [done|]. destruct H as [tokens H]; [done|].
  exists tokens, tokens. auto using same_tokens_refl.
Qed.

(** C25: when every carriage return of the source stands before a line feed, the result has
    the same bytes as the source in the same order, comments and literals included, up to
    blanks: only white space within lines is added or removed, and every token and every
    comment stays on its line. *)
Theorem format_keeps_text (source : bytes) (sourceId : nat) :
  carriages_paired source = true →
  ∃ contents d, formatSource target_ parseFloating source sourceId = Some (contents, d) ∧
    visible_text contents = visible_text source.
Proof.
  intros Hp%carriages_paired_paired. destruct (formatSource_cases source sourceId) as (contents & d & E & H).
  exists contents, d. split; [done|]. destruct H as [[-> _]|[_ (tokens & formatted & _ & _ & _ & H)]]; auto.
Qed.
End formatSource.

(** A source text with comments, generics and [\r\n] line ends. *)
Definition sample_lines : list bytes :=
  [lit "package   sample"; lit "// pair values   "; lit "struct Pair<T>{"; lit "left   T // first"; lit "}";
   lit "fn main()i32{"; lit "/* a */const result=choose<i32> (1,2)"; lit "return -result<<1"; lit "}"; []].
Definition sample_source : bytes := join_with [carriage; newline] sample_lines.

Lemma format_keeps_text_witness :
  carriages_paired sample_source = true ∧
  (∃ contents d, formatSource Linux (λ _, true) sample_source 0 = Some (contents, d) ∧
     visible_text contents = visible_text sample_source) ∧
  formatSource Linux (λ _, true) sample_source 0 =
    Some (join_with [newline]
      [lit "package sample"; lit "// pair values"; lit "struct Pair<T> {"; lit "    left T // first"; lit "}";
       lit "fn main() i32 {"; lit "    /* a */const result = choose<i32>(1, 2)"; lit "    return -result << 1"; lit "}"; []],
      []).
Proof.
  split; [vm_compute; reflexivity|]. split; [apply (format_keeps_text Linux (λ _, true)); vm_compute; reflexivity|].
  vm_compute. reflexivity.
Defined.

(** The lexer ends a line comment at the line feed, the formatter at a carriage return: the
    rest of the comment is dropped without a diagnostic. *)
Theorem lone_carriage_drops_comment :
  formatSource Linux (λ _, true)
    (join_with [newline] [lit "fn main() i32 {"; lit "0 // kept" ++ [carriage] ++ lit "dropped"; lit "}"; []]) 0 =
  Some (join_with [newline] [lit "fn main() i32 {"; lit "    0 // kept"; []; lit "}"; []], []).
Proof. vm_compute. reflexivity. Qed.

(** The statements a text is parsed to, for a file behind the first, and the errors. *)
Definition statements_of (source : bytes) : option (list StatementValue * Diagnostics) :=
  '(program, d) ← parse_source Linux (λ _, true) source 1 [];
  Some (map stmt_value (pr_statements program), d).

(** A carriage return that no line feed follows is white space to the lexer and a line
    break to the formatter: between [return] and its value it becomes a line break, which
    ends the statement.  The result is accepted as having the same tokens, without a
    diagnostic, and is another program. *)
Theorem lone_carriage_changes_program :
  let source := join_with [newline] [lit "fn main() i32 {"; lit "return" ++ [carriage] ++ lit "1"; lit "}"; []] in
  let result := join_with [newline] [lit "fn main() i32 {"; lit "    return"; lit "    1"; lit "}"; []] in
  formatSource Linux (λ _, true) source 0 = Some (result, []) ∧
  statements_of source = Some ([ReturnStatement (Some 0) false], []) ∧
  statements_of result = Some ([ReturnStatement None false; ReturnStatement (Some 0) true], []).
Proof. vm_compute. split_and!; reflexivity. Qed.
