(* ===== verification/Imports.v ===== *)
(** * Organizing imports (compiler/src/imports.cpp)

    [organizeImports]: the import lines of a file without the ones it does not use, with
    those that undefined names ask for, and sorted. *)
From S2P Require Import Prelude Target Diagnostics Token Lexer Ast ParserState ParserProgram ProgramTheorems FormatterProofs.

(** The members of [ProjectAnalysis] that are read. *)
Record ProjectAnalysis := mkAnalysis {
  pa_sources : list DiagnosticSource;
  pa_program : Program;
  pa_diagnostics : Diagnostics;
}.
Record ImportLine := mkImportLine {
  il_packageName : bytes;
  il_alias : bytes;
  il_prefix : bytes;
  il_suffix : bytes;
}.
Record ImportRange := mkRange {
  ir_start : nat;
  ir_end : nat;
  ir_syntaxEnd : nat;
}.

(** ** Lines *)

Definition shortName (name : bytes) : bytes :=
  match rfind_byte "."%char name with None => name | Some separator => drop (separator + 1) name end.
Definition packageAlias (packageName : bytes) : bytes := shortName packageName.

Fixpoint line_starts (offset : nat) (source : bytes) : list nat :=
  match source with
  | [] => []
  | c :: source => (if bool_decide (c = newline) then [offset + 1] else []) ++ line_starts (offset + 1) source
  end.
Definition lineStarts (source : bytes) : list nat := 0 :: line_starts 0 source.
Definition lineStart (starts : list nat) (line : nat) : nat :=
  if (line =? 0) || (length starts <? line) then 0 else default 0 (starts !! (line - 1)).
Definition lineEnd (starts : list nat) (line sourceSize : nat) : nat := default sourceSize (starts !! line).

Definition line_break (c : ascii) : bool := bool_decide (c = carriage) || bool_decide (c = newline).
Definition blank (c : ascii) : bool := bool_decide (c = space) || bool_decide (c = tab).

(** [contentEnd], of the text between [start] and [end]. *)
Fixpoint drop_while (p : ascii → bool) (l : bytes) : bytes :=
  match l with [] => [] | c :: l' => if p c then drop_while p l' else l end.
Definition sub_text (from count : nat) (text : bytes) : bytes := take count (drop from text).
Definition contentEnd (source : bytes) (start end_ : nat) : nat :=
  if end_ <=? start then end_
  else start + length (drop_while line_break (rev (sub_text start (end_ - start) source))).
Definition trim (value : bytes) : bytes := rev (drop_while blank (rev (drop_while blank value))).
Definition whitespace (value : bytes) : bool := forallb (λ c, blank c || line_break c) value.
Fixpoint has_crlf (source : bytes) : bool :=
  match source with
  | a :: (b :: _) as rest => bool_decide (a = carriage) && bool_decide (b = newline) || has_crlf rest
  | _ => false
  end.
Definition newlineFor (source : bytes) : bytes := if has_crlf source then [carriage; newline] else [newline].

(** ** The packages that undefined names ask for *)

Definition Symbols : Type := gmap bytes (gset bytes).
Definition add_symbol (symbols : Symbols) (packageName name : bytes) (exported : bool) : Symbols :=
  if negb exported || bool_decide (packageName = []) || bool_decide (packageName = lit "std.prelude") then symbols
  else <[packageName := {[shortName name]} ∪ default ∅ (symbols !! packageName)]> symbols.
Definition packageSymbols (analysis : ProjectAnalysis) : Symbols :=
  let program := pa_program analysis in
  let symbols := foldl (λ m d, add_symbol m (sd_packageName d) (sd_name d) (sd_exported d)) ∅ (pr_structs program) in
  let symbols := foldl (λ m d, add_symbol m (ed_packageName d) (ed_name d) (ed_exported d)) symbols (pr_enums program) in
  let symbols := foldl (λ m d, add_symbol m (cd_packageName d) (cd_name d) (cd_exported d)) symbols (pr_contracts program) in
  let symbols := foldl (λ m d, add_symbol m (ad_packageName d) (ad_name d) (ad_exported d)) symbols
                   (pr_attributeDeclarations program) in
  foldl (λ m f,
    if bool_decide (fn_ownerType f = []) && negb (fn_closure f) && bool_decide (fn_testName f = None)
    then add_symbol m (fn_packageName f) (fn_name f) (fn_exported f) else m) symbols (pr_functions program).

Definition unknownAlias (diagnostic : Diagnostic) : option bytes :=
  let message := diag_message diagnostic in
  if bool_decide (diag_code diagnostic = lit "FDN3009") && starts_with (lit "unknown import alias ") message
  then Some (drop (length (lit "unknown import alias ")) message)
  else if bool_decide (diag_code diagnostic = lit "FDN2004") && starts_with (lit "unknown binding ") message
  then Some (drop (length (lit "unknown binding ")) message)
  else None.

Fixpoint memberAfterAlias (tokens : list Token) (diagnostic : Diagnostic) (alias : bytes) : option bytes :=
  match tokens with
  | token :: (dot :: member :: _) as rest =>
      let span := diag_span diagnostic in
      let offset := span_offset (tok_span token) in
      let selected :=
        if span_length span =? 0 then offset =? span_offset span
        else (span_offset span <=? offset) && (offset <? span_offset span + span_length span) in
      if negb selected || negb (bool_decide (tok_text token = alias)) ||
         negb (bool_decide (tok_kind dot = TokenKind.Dot)) || negb (bool_decide (tok_kind member = TokenKind.Identifier))
      then memberAfterAlias rest diagnostic alias
      else Some (tok_text member)
  | _ => None
  end.

Definition candidate_packages (ownPackage : bytes) (importedPackages : gset bytes) (symbols : Symbols)
    (alias member : bytes) : gset bytes :=
  filter (λ packageName,
    packageName ≠ ownPackage ∧ packageName ∉ importedPackages ∧ packageAlias packageName = alias ∧
    member ∈ default ∅ (symbols !! packageName)) (dom symbols).

Definition infer_from (ownPackage : bytes) (sourceId : nat) (tokens : list Token) (importedPackages : gset bytes)
    (symbols : Symbols) (aliases : gmap bytes (gset bytes)) (diagnostic : Diagnostic) : gmap bytes (gset bytes) :=
  if negb (span_source (diag_span diagnostic) =? sourceId) then aliases
  else match unknownAlias diagnostic with
       | None => aliases
       | Some alias =>
           match memberAfterAlias tokens diagnostic alias with
           | None => aliases
           | Some member =>
               let candidates := candidate_packages ownPackage importedPackages symbols alias member in
               <[alias := match aliases !! alias with None => candidates | Some found => found ∩ candidates end]> aliases
           end
       end.

Definition inferredPackages (analysis : ProjectAnalysis) (ownPackage : bytes) (sourceId : nat) (tokens : list Token)
    (importedPackages : gset bytes) (symbols : Symbols) : gset bytes :=
  let aliases := foldl (infer_from ownPackage sourceId tokens importedPackages symbols) ∅ (pa_diagnostics analysis) in
  list_to_set (omap (λ p : bytes * gset bytes,
    match elements p.2 with [packageName] => Some packageName | _ => None end) (map_to_list aliases)).

(** ** Where the import lines are *)

Definition is_kind (kind : TokenKind) (token : option Token) : bool :=
  match token with Some token => bool_decide (tok_kind token = kind) | None => false end.

(** The last token of a package name with [segments] more parts. *)
Fixpoint name_end (tokens : list Token) (segments closing : nat) : option nat :=
  match segments with
  | O => Some closing
  | S segments =>
      if (length tokens <=? closing + 2) || negb (is_kind TokenKind.Dot (tokens !! (closing + 1))) then None
      else name_end tokens segments (closing + 2)
  end.

Fixpoint import_ranges (imports : list ImportDeclaration) (tokens : list Token) (starts : list nat) (sourceSize : nat)
    (tokenIndex previousEnd : nat) : option (list ImportRange) :=
  match imports with
  | [] => Some []
  | imported :: imports =>
      match list_find (λ t, tok_kind t = TokenKind.Import ∧ span_offset (tok_span t) < span_offset (im_span imported))
              (drop tokenIndex tokens) with
      | None => None
      | Some (skipped, import) =>
          let opening := tokenIndex + skipped in
          let closing := opening + 1 in
          if closing =? length tokens then None
          else
            closing ← name_end tokens (count_occ ascii_dec (im_packageName imported) "."%char) closing;
            let closing :=
              if (closing + 2 <? length tokens) && is_kind TokenKind.As (tokens !! (closing + 1)) &&
                 is_kind TokenKind.Identifier (tokens !! (closing + 2))
              then closing + 2 else closing in
            last ← tokens !! closing;
            let start := lineStart starts (span_line (tok_span import)) in
            let end_ := lineEnd starts (span_line (tok_span last)) sourceSize in
            if start <? previousEnd then None
            else
              rest ← import_ranges imports tokens starts sourceSize (closing + 1) end_;
              Some (mkRange start end_ (span_offset (tok_span last) + span_length (tok_span last)) :: rest)
      end
  end.
Definition importRanges (program : Program) (tokens : list Token) (starts : list nat) (sourceSize : nat)
    : option (list ImportRange) :=
  import_ranges (pr_imports program) tokens starts sourceSize 0 0.

Definition packageLineEnd (program : Program) (tokens : list Token) (starts : list nat) (sourceSize : nat) : nat :=
  if negb (pr_hasPackageDeclaration program) then 0
  else match list_find (λ t, tok_kind t = TokenKind.Package) tokens with
       | None => 0
       | Some (_, package) => lineEnd starts (span_line (tok_span package)) sourceSize
       end.

(** ** [organizeImports] *)

Definition import_alias (imported : ImportDeclaration) : bytes :=
  if bool_decide (im_alias imported = []) then packageAlias (im_packageName imported) else im_alias imported.

(** The aliases and the packages, each imported once. *)
Fixpoint collect_aliases (imports : list ImportDeclaration) (aliases packages : gset bytes) : option (gset bytes * gset bytes) :=
  match imports with
  | [] => Some (aliases, packages)
  | imported :: imports =>
      if bool_decide (import_alias imported ∈ aliases) || bool_decide (im_packageName imported ∈ packages) then None
      else collect_aliases imports ({[import_alias imported]} ∪ aliases) ({[im_packageName imported]} ∪ packages)
  end.

Definition in_import (ranges : list ImportRange) (offset : nat) : bool :=
  existsb (λ range, (ir_start range <=? offset) && (offset <? ir_end range)) ranges.
(** The aliases before a dot, outside the import lines. *)
Definition used_aliases (tokens : list Token) (aliases : gset bytes) (ranges : list ImportRange) : gset bytes :=
  list_to_set (omap (λ p : Token * Token,
    let '(token, next) := p in
    if bool_decide (tok_kind token = TokenKind.Identifier) && bool_decide (tok_kind next = TokenKind.Dot) &&
       bool_decide (tok_text token ∈ aliases) && negb (in_import ranges (span_offset (tok_span token)))
    then Some (tok_text token) else None) (zip tokens (tail tokens))).

(** The lines that stay, and the text before an import that goes to the next line. *)
Fixpoint kept_lines (source : bytes) (used : gset bytes) (imports : list (ImportDeclaration * ImportRange))
    (previousEnd : nat) (pendingPrefix : bytes) : list ImportLine * bytes :=
  match imports with
  | [] => ([], pendingPrefix)
  | (imported, range) :: imports =>
      let prefix := sub_text previousEnd (ir_start range - previousEnd) source in
      let pendingPrefix := if whitespace prefix then pendingPrefix else pendingPrefix ++ prefix in
      if bool_decide (import_alias imported ∈ used) then
        let suffixEnd := contentEnd source (ir_syntaxEnd range) (ir_end range) in
        let suffix := trim (sub_text (ir_syntaxEnd range) (suffixEnd - ir_syntaxEnd range) source) in
        let '(lines, pending) := kept_lines source used imports (ir_end range) [] in
        (mkImportLine (im_packageName imported) (im_alias imported) pendingPrefix suffix :: lines, pending)
      else kept_lines source used imports (ir_end range) pendingPrefix
  end.

Definition render_import (newline : bytes) (imported : ImportLine) : bytes :=
  il_prefix imported ++ lit "import " ++ il_packageName imported ++
  (if bool_decide (il_alias imported = []) then [] else lit " as " ++ il_alias imported) ++
  (if bool_decide (il_suffix imported = []) then [] else lit " " ++ il_suffix imported) ++ newline.

Definition sort_imports : list ImportLine → list ImportLine := sort_by (λ i, (il_packageName i, il_alias i)).

(** The text for the import lines, before the lines around it are set off. *)
Definition replacement_text (newline : bytes) (imports : list ImportLine) (pendingPrefix : bytes) : bytes :=
  concat (map (render_import newline) imports) ++
  (if negb (bool_decide (imports = [])) && negb (bool_decide (pendingPrefix = [])) then newline else []) ++ pendingPrefix.

(** The end of the white space behind an offset. *)
Definition skip_white (source : bytes) (offset : nat) : nat :=
  length source - length (drop_while (λ c, blank c || line_break c) (drop offset source)).

(** The part of the source that is replaced. *)
Definition replaced_part (source : bytes) (ranges : list ImportRange) (packageEnd : nat) : nat * nat :=
  match head ranges, last ranges with
  | Some first, Some final =>
      let start := ir_start first in
      (if (packageEnd <=? start) && whitespace (sub_text packageEnd (start - packageEnd) source) then packageEnd else start,
       skip_white source (ir_end final))
  | _, _ => (packageEnd, skip_white source packageEnd)
  end.
Definition replace_part (source : bytes) (part : nat * nat) (replacement : bytes) : bytes :=
  take part.1 source ++ replacement ++ drop part.2 source.

Section organize.
Context (target_ : TargetPlatform) (parseFloating : bytes → bool).

(** [Lexer::scan] and [Parser::parse] of a text; without the parser's part when it is not
    looked at. *)
Definition read_text (contents : bytes) (sourceId : nat) : option (list Token * Program * Diagnostics) :=
  '(tokens, lexer) ← scan contents sourceId [];
  '(program, diagnostics) ← parse tokens target_ parseFloating false (Lexer.diagnostics_ lexer);
  Some (tokens, program, diagnostics).

(** The contents to validate, or [None] when the imports stay as they are. *)
Definition organized (analysis : ProjectAnalysis) (source : DiagnosticSource) (sourceId : nat) (tokens : list Token)
    (program : Program) : option bytes :=
  let contents := ds_contents source in
  let starts := lineStarts contents in
  ranges ← importRanges program tokens starts (length contents);
  '(aliases, importedPackages) ← collect_aliases (pr_imports program) ∅ ∅;
  let used := used_aliases tokens aliases ranges in
  let first := match head ranges with Some range => ir_start range | None => 0 end in
  let '(kept, pendingPrefix) := kept_lines contents used (zip (pr_imports program) ranges) first [] in
  let inferred := inferredPackages analysis (ds_packageName source) sourceId tokens importedPackages (packageSymbols analysis) in
  if bool_decide (pr_imports program = []) && bool_decide (inferred = ∅) then None
  else
    let imports := sort_imports (kept ++ map (λ packageName, mkImportLine packageName [] [] []) (elements inferred)) in
    let newline := newlineFor contents in
    let packageEnd := packageLineEnd program tokens starts (length contents) in
    let part := replaced_part contents ranges packageEnd in
    let before := if negb (packageEnd =? 0) && (part.1 =? packageEnd) then newline else [] in
    let after := if negb (bool_decide (imports = [])) || negb (bool_decide (pendingPrefix = [])) then newline else [] in
    Some (replace_part contents part (before ++ replacement_text newline imports pendingPrefix ++ after)).

Definition organizeImports (analysis : ProjectAnalysis) (sourceId : nat) : option (bytes * Diagnostics) :=
  match pa_sources analysis !! sourceId with
  | None => Some ([], [])
  | Some source =>
      '(tokens, program, diagnostics) ← read_text (ds_contents source) sourceId;
      if hasErrors diagnostics then Some (ds_contents source, diagnostics)
      else match organized analysis source sourceId tokens program with
           | None => Some (ds_contents source, diagnostics)
           | Some contents =>
               '(_, _, validation) ← read_text contents sourceId;
               if hasErrors validation then Some (ds_contents source, validation) else Some (contents, diagnostics)
           end
  end.
End organize.

(** * What organizing imports does to a file *)

(** ** Lines *)

Lemma line_starts_spec offset source :
  Forall (λ x, offset < x ≤ offset + length source) (line_starts offset source) ∧ StronglySorted le (line_starts offset source).
Proof.
  revert offset. induction source as [|c source IH]; intros offset; cbn; [by repeat constructor|].
  destruct (IH (offset + 1)) as [Hf Hs].
  assert (Forall (λ x, offset < x ≤ offset + S (length source)) (line_starts (offset + 1) source)) as Hf'.
  { eapply Forall_impl; [exact Hf|]. cbn. intros x ?. lia. }
  case_bool_decide; cbn; (split; [|]); try done; constructor; try done; [lia|].
  eapply Forall_impl; [exact Hf|]. cbn. intros x ?. lia.
Qed.
Lemma lineStarts_spec source :
  Forall (λ x, x ≤ length source) (lineStarts source) ∧ StronglySorted le (lineStarts source).
Proof.
  unfold lineStarts. destruct (line_starts_spec 0 source) as [Hf Hs]. split; constructor; try done; [lia| |].
  - eapply Forall_impl; [exact Hf|]. cbn. lia.
  - eapply Forall_impl; [exact Hf|]. cbn. lia.
Qed.

Lemma sorted_lookup {A} (R : relation A) l i j x y :
  StronglySorted R l → l !! i = Some x → l !! j = Some y → i < j → R x y.
Proof.
  intros Hs. revert i j. induction Hs as [|z l _ IH Hz]; intros i j Hi Hj Hlt; [done|].
  destruct j as [|j]; [lia|]. destruct i as [|i]; cbn in Hi, Hj.
  - injection Hi as ->. rewrite Forall_lookup in Hz. by eapply Hz.
  - eapply IH; [done..|lia].
Qed.

Lemma line_bounds source a b : a ≤ b →
  lineStart (lineStarts source) a ≤ lineEnd (lineStarts source) b (length source) ≤ length source.
Proof.
  intros Hab. destruct (lineStarts_spec source) as [Hf Hs]. unfold lineStart, lineEnd. rewrite Forall_lookup in Hf.
  assert (default (length source) (lineStarts source !! b) ≤ length source) as Hb.
  { destruct (lineStarts source !! b) as [x|] eqn:E; cbn; [by eapply Hf|done]. }
  split; [|done]. destruct (_ || _) eqn:Ec; [lia|]. apply orb_false_iff in Ec as [Ea Ec].
  apply Nat.eqb_neq in Ea. destruct (lineStarts source !! (a - 1)) as [x|] eqn:Ex; cbn; [|lia].
  destruct (lineStarts source !! b) as [y|] eqn:Ey; cbn; [|by eapply Hf].
  eapply sorted_lookup; [exact Hs|exact Ex|exact Ey|lia].
Qed.

(** ** The lines of tokens *)

Lemma gap_le source i j : gap source i j → i ≤ j.
Proof. induction 1 as [| | |? ? ? ? Hb|]; try lia. apply block_tail_le in Hb. lia. Qed.

Lemma step_positions_line l p : p.1 ≤ (fold_left step_position l p).1.
Proof.
  revert p. induction l as [|c l IH]; intros p; [done|]. cbn. etrans; [|apply IH].
  unfold step_position. case_bool_decide; cbn; lia.
Qed.
Lemma position_line source a b : a ≤ b → (position source a).1 ≤ (position source b).1.
Proof.
  intros Hab. unfold position. replace (take b source) with (take a source ++ take (b - a) (drop a source)).
  - rewrite fold_left_app. apply step_positions_line.
  - rewrite take_take_drop. f_equal. lia.
Qed.

Lemma lexed_lines source sourceId from tokens : lexed source sourceId from tokens →
  Forall (λ t, (position source from).1 ≤ span_line (tok_span t)) tokens ∧
  StronglySorted (λ t u, span_line (tok_span t) ≤ span_line (tok_span u)) tokens.
Proof.
  induction 1 as [from start t Hg Ht _ _|from start t stop ts Hg Ht _ Hk _ [IHf IHs]]; apply gap_le in Hg;
    pose proof (f_equal fst (ta_position _ _ _ _ _ Ht)) as Hp; cbn in Hp; pose proof (position_line source _ _ Hg) as Hl.
  - repeat constructor. by rewrite Hp.
  - pose proof (ta_nonempty _ _ _ _ _ Ht Hk) as Hlt. pose proof (position_line source start stop ltac:(lia)) as Hl'.
    split; constructor; [by rewrite Hp| |done|].
    + eapply Forall_impl; [exact IHf|]. cbn. lia.
    + eapply Forall_impl; [exact IHf|]. cbn. rewrite Hp. lia.
Qed.

(** ** Ranges *)

(** In their order, without an overlap, in the text. *)
Fixpoint ranges_ok (size previousEnd : nat) (ranges : list ImportRange) : Prop :=
  match ranges with
  | [] => True
  | range :: ranges => previousEnd ≤ ir_start range ≤ ir_end range ∧ ir_end range ≤ size ∧ ranges_ok size (ir_end range) ranges
  end.

Lemma name_end_le tokens segments closing closing' : name_end tokens segments closing = Some closing' → closing ≤ closing'.
Proof.
  revert closing. induction segments as [|segments IH]; intros closing; cbn [name_end]; [intros [= ->]; lia|].
  destruct (_ || _); [done|]. intros H%IH. lia.
Qed.

Lemma import_ranges_ok source tokens imports index previousEnd ranges :
  StronglySorted (λ t u, span_line (tok_span t) ≤ span_line (tok_span u)) tokens →
  import_ranges imports tokens (lineStarts source) (length source) index previousEnd = Some ranges →
  ranges_ok (length source) previousEnd ranges ∧ length ranges = length imports.
Proof.
  intros Hs. revert index previousEnd ranges. induction imports as [|imported imports IH]; intros index previousEnd ranges;
    cbn [import_ranges]; [by intros [= <-]|].
  destruct (list_find _ _) as [[skipped import]|] eqn:Ef; [|done]. apply list_find_Some in Ef as (Ei & _ & _).
  rewrite lookup_drop in Ei. destruct (_ =? _); [done|].
  destruct (name_end _ _ _) as [closing|] eqn:En; [|done]. apply name_end_le in En. cbn [mbind option_bind].
  set (closing' := if (closing + 2 <? _) && _ && _ then closing + 2 else closing).
  assert (closing ≤ closing') as Hc by (subst closing'; destruct (_ && _); lia). clearbody closing'.
  destruct (tokens !! closing') as [final|] eqn:El; [|done]. cbn [mbind option_bind].
  destruct (_ <? previousEnd) eqn:Ep; [done|]. apply Nat.ltb_ge in Ep.
  destruct (import_ranges _ _ _ _ _ _) as [rest|] eqn:Er; [|done]. intros [= <-].
  apply IH in Er as [Hr Hl]. cbn. rewrite Hl. split; [|done].
  assert (span_line (tok_span import) ≤ span_line (tok_span final)) as Hline.
  { apply (sorted_lookup (λ t u, span_line (tok_span t) ≤ span_line (tok_span u)) tokens (index + skipped) closing'); [done..|lia]. }
  destruct (line_bounds source _ _ Hline). done.
Qed.

Lemma ranges_ok_ends size previousEnd ranges first final :
  ranges_ok size previousEnd ranges → head ranges = Some first → last ranges = Some final →
  ir_start first ≤ ir_end final ≤ size.
Proof.
  revert previousEnd first. induction ranges as [|range ranges IH]; intros previousEnd first; [done|].
  intros (? & ? & Hr) [= <-] Hl. destruct ranges as [|range' ranges].
  - injection Hl as <-. lia.
  - destruct (IH _ range' Hr eq_refl Hl). destruct Hr. lia.
Qed.

Lemma drop_while_length p l : length (drop_while p l) ≤ length l.
Proof. induction l as [|c l IH]; cbn; [done|]. destruct (p c); cbn; lia. Qed.
Lemma skip_white_bounds source offset : offset ≤ length source → offset ≤ skip_white source offset ≤ length source.
Proof.
  intros Ho. unfold skip_white. pose proof (drop_while_length (λ c, blank c || line_break c) (drop offset source)) as H.
  rewrite length_drop in H. lia.
Qed.

Lemma drop_cut (source : bytes) a b : a ≤ b → drop a source = sub_text a (b - a) source ++ drop b source.
Proof.
  intros H. rewrite <- (take_drop (b - a) (drop a source)) at 1. unfold sub_text. f_equal. rewrite drop_drop. f_equal. lia.
Qed.
Lemma sub_text_none (source : bytes) a b : b ≤ a → sub_text a (b - a) source = [].
Proof. intros H. unfold sub_text. by replace (b - a) with 0 by lia. Qed.
Lemma drop_while_split p l : ∃ skipped, l = skipped ++ drop_while p l ∧ forallb p skipped = true.
Proof.
  induction l as [|c l (skipped & Hl & Hs)]; cbn; [by exists []|]. destruct (p c) eqn:Hc.
  - exists (c :: skipped). cbn. by rewrite Hc, Hs, <- Hl.
  - by exists [].
Qed.
Lemma skip_white_blank source offset : offset ≤ length source →
  whitespace (sub_text offset (skip_white source offset - offset) source) = true.
Proof.
  intros Ho. unfold skip_white, sub_text.
  pose proof (length_drop source offset) as Hd. revert Hd. generalize (drop offset source). intros rest Hd.
  destruct (drop_while_split (λ c, blank c || line_break c) rest) as (skipped & Hl & Hs).
  pose proof (f_equal length Hl) as Hn. rewrite length_app in Hn.
  set (tail := drop_while _ rest) in *. clearbody tail. subst rest.
  rewrite take_app_length'; [exact Hs|lia].
Qed.

(** The import lines of a file, or the place for them. *)
Definition import_lines (ranges : list ImportRange) (packageEnd : nat) : nat * nat :=
  match head ranges, last ranges with
  | Some first, Some final => (ir_start first, ir_end final)
  | _, _ => (packageEnd, packageEnd)
  end.

Lemma drop_while_head p l c : head (drop_while p l) = Some c → p c = false.
Proof. induction l as [|d l IH]; cbn; [done|]. destruct (p d) eqn:E; [done|]. by intros [= <-]. Qed.
Lemma skip_white_stops source offset c : offset ≤ length source →
  head (drop (skip_white source offset) source) = Some c → blank c || line_break c = false.
Proof.
  intros Ho. unfold skip_white. set (p := λ c, blank c || line_break c).
  destruct (drop_while_split p (drop offset source)) as (skipped & Hl & _).
  pose proof (f_equal length Hl) as Hn. rewrite length_app, length_drop in Hn.
  replace (length source - _) with (offset + length skipped) by lia.
  rewrite <- drop_drop, Hl, drop_app_length. apply (drop_while_head p).
Qed.

(** What is replaced are the import lines and all blanks around them, up to the package line. *)
Lemma replaced_part_spec source ranges packageEnd :
  ranges_ok (length source) 0 ranges → packageEnd ≤ length source →
  let part := replaced_part source ranges packageEnd in
  let '(first, final) := import_lines ranges packageEnd in
  part.1 ≤ first ≤ final ∧ final ≤ part.2 ≤ length source ∧
  whitespace (sub_text part.1 (first - part.1) source) = true ∧ whitespace (sub_text final (part.2 - final) source) = true ∧
  (part.1 = packageEnd ∨ part.1 = first ∧ (first < packageEnd ∨ whitespace (sub_text packageEnd (first - packageEnd) source) = false)) ∧
  ∀ c, head (drop part.2 source) = Some c → blank c || line_break c = false.
Proof.
  intros Hr Hp. unfold replaced_part, import_lines.
  assert (∀ a b, b ≤ a → whitespace (sub_text a (b - a) source) = true) as Hn by (intros; by rewrite sub_text_none).
  assert (∀ offset, offset ≤ length source → offset ≤ skip_white source offset ≤ length source ∧
    whitespace (sub_text offset (skip_white source offset - offset) source) = true ∧
    ∀ c, head (drop (skip_white source offset) source) = Some c → blank c || line_break c = false) as Hw.
  { intros offset Ho. split; [by apply skip_white_bounds|]. split; [by apply skip_white_blank|].
    intros c. by apply skip_white_stops. }
  destruct (Hw packageEnd Hp) as (? & ? & ?).
  destruct (head ranges) as [first|] eqn:Eh; [destruct (last ranges) as [final|] eqn:El|]; cbn [fst snd];
    [|split_and!; auto; lia..].
  destruct (ranges_ok_ends _ _ _ _ _ Hr Eh El) as [Hle Hlen]. destruct (Hw (ir_end final) Hlen) as (? & ? & ?).
  destruct (Nat.leb_spec packageEnd (ir_start first)); [|split_and!; auto; lia].
  destruct (whitespace (sub_text packageEnd (ir_start first - packageEnd) source)) eqn:Ew; cbn [andb]; split_and!; auto; lia.
Qed.

Lemma packageLineEnd_bound source program tokens :
  packageLineEnd program tokens (lineStarts source) (length source) ≤ length source.
Proof.
  unfold packageLineEnd. destruct (negb _); [lia|]. destruct (list_find _ _) as [[i t]|]; [|lia].
  destruct (line_bounds source (span_line (tok_span t)) (span_line (tok_span t)) ltac:(lia)). done.
Qed.

(** ** The lines that stay *)

(** The text between import lines, before the line of each import. *)
Fixpoint gaps (source : bytes) (previousEnd : nat) (ranges : list ImportRange) : list bytes :=
  match ranges with
  | [] => []
  | range :: ranges => sub_text previousEnd (ir_start range - previousEnd) source :: gaps source (ir_end range) ranges
  end.

(** An import with the text before its line, and its place. *)
Abbreviation Item := (bytes * (ImportDeclaration * ImportRange))%type.
Definition items (source : bytes) (first : nat) (imports : list ImportDeclaration) (ranges : list ImportRange) : list Item :=
  zip (gaps source first ranges) (zip imports ranges).
Definition is_used (used : gset bytes) (item : Item) : Prop := import_alias item.2.1 ∈ used.
(** The texts before the lines of some imports, but the blank ones. *)
Definition texts_before (l : list Item) : bytes := concat (List.filter (λ gap, negb (whitespace gap)) (map fst l)).

(** What stays of the text behind an import in its line: all but blanks around it and the
    end of the line. *)
Definition line_suffix (rest suffix : bytes) : Prop :=
  ∃ leading trailing ending, rest = leading ++ suffix ++ trailing ++ ending ∧
    forallb blank leading = true ∧ forallb blank trailing = true ∧ forallb line_break ending = true ∧
    (∀ c, head suffix = Some c ∨ last suffix = Some c → blank c = false) ∧
    (∀ c, last (leading ++ suffix ++ trailing) = Some c → line_break c = false).

(** An import line that stays: the import as it was, with the text between the last import
    that stays and its own line before it, and the rest of its line behind it. *)
Definition stays_as (source : bytes) (line : ImportLine) (block : list Item * Item) : Prop :=
  let '(_, (imported, range)) := block.2 in
  il_packageName line = im_packageName imported ∧ il_alias line = im_alias imported ∧
  il_prefix line = texts_before (block.1 ++ [block.2]) ∧
  line_suffix (sub_text (ir_syntaxEnd range) (ir_end range - ir_syntaxEnd range) source) (il_suffix line).

(** The imports in their order, cut behind each one that is used. *)
Definition kept_exact (source : bytes) (used : gset bytes) (l : list Item) (kept : list ImportLine) (pending : bytes) : Prop :=
  ∃ blocks rest, l = concat (map (λ block, block.1 ++ [block.2]) blocks) ++ rest ∧
    Forall (λ block, Forall (λ item, ¬ is_used used item) block.1 ∧ is_used used block.2) blocks ∧
    Forall (λ item, ¬ is_used used item) rest ∧
    Forall2 (stays_as source) kept blocks ∧ pending = texts_before rest.

(** The text of an import line: what stood before it, the words of the import and the rest
    of its line, with a space between them. *)
Definition import_words (line : ImportLine) : list bytes :=
  [lit "import"; il_packageName line] ++
  (if decide (il_alias line = []) then [] else [lit "as"; il_alias line]) ++
  (if decide (il_suffix line = []) then [] else [il_suffix line]).
Definition import_line (newline : bytes) (line : ImportLine) : bytes :=
  il_prefix line ++ join_with (lit " ") (import_words line) ++ newline.

Lemma render_import_line newline line : render_import newline line = import_line newline line.
Proof.
  unfold render_import, import_line, import_words. do 2 case_bool_decide; do 2 case_decide; try done;
    cbn; repeat (rewrite <- ?app_assoc; cbn); done.
Qed.

(** What is dropped at the end of a text. *)
Lemma drop_back_split p l : ∃ dropped, l = rev (drop_while p (rev l)) ++ dropped ∧ forallb p dropped = true.
Proof.
  destruct (drop_while_split p (rev l)) as (skipped & Hl & Hs). exists (rev skipped). split.
  - rewrite <- rev_app_distr, <- Hl. by rewrite rev_involutive.
  - apply forallb_forall. intros c Hc. rewrite <- in_rev in Hc. by apply (proj1 (forallb_forall p skipped) Hs).
Qed.
Lemma drop_back_last p l c : last (rev (drop_while p (rev l))) = Some c → p c = false.
Proof.
  intros H. apply (drop_while_head p (rev l)). destruct (drop_while p (rev l)) as [|d rest]; [done|]. cbn in H. by rewrite last_snoc in H.
Qed.

Lemma trim_split content : ∃ leading trailing, content = leading ++ trim content ++ trailing ∧
  forallb blank leading = true ∧ forallb blank trailing = true ∧
  ∀ c, head (trim content) = Some c ∨ last (trim content) = Some c → blank c = false.
Proof.
  unfold trim. destruct (drop_while_split blank content) as (leading & Hc & Hl).
  destruct (drop_back_split blank (drop_while blank content)) as (trailing & Hd & Ht).
  exists leading, trailing. split_and!; try done; [by rewrite <- Hd|].
  intros c [H|H]; [|by apply drop_back_last in H]. apply (drop_while_head blank content).
  rewrite Hd. destruct (rev _); [done|exact H].
Qed.

Lemma suffix_spec source start end_ :
  line_suffix (sub_text start (end_ - start) source)
    (trim (sub_text start (contentEnd source start end_ - start) source)).
Proof.
  set (rest := sub_text start (end_ - start) source). set (content := rev (drop_while line_break (rev rest))).
  assert (sub_text start (contentEnd source start end_ - start) source = content) as ->.
  { unfold contentEnd. fold rest. destruct (Nat.leb_spec end_ start) as [H|H].
    - subst content rest. unfold sub_text. by replace (end_ - start) with 0 by lia.
    - rewrite Nat.add_comm, Nat.add_sub. destruct (drop_back_split line_break rest) as (ending & Hr & _). fold content in Hr.
      rewrite <- (length_rev (drop_while _ _)). fold content.
      pose proof (f_equal (take (length content)) Hr) as Ht. rewrite take_app_length in Ht. etrans; [|exact Ht].
      unfold rest, sub_text. rewrite take_take. f_equal. pose proof (f_equal length Hr) as Hn. rewrite length_app in Hn.
      assert (length rest ≤ end_ - start) by (unfold rest, sub_text; rewrite length_take; lia). lia. }
  destruct (drop_back_split line_break rest) as (ending & Hr & He). fold content in Hr.
  destruct (trim_split content) as (leading & trailing & Hc & Hl & Ht & Hb). exists leading, trailing, ending.
  split_and!; try done.
  - rewrite Hr at 1. rewrite Hc at 1. by rewrite <- !app_assoc.
  - intros c. rewrite <- Hc. apply drop_back_last.
Qed.

Lemma texts_before_app l k : texts_before (l ++ k) = texts_before l ++ texts_before k.
Proof. unfold texts_before. by rewrite map_app, List.filter_app, concat_app. Qed.

Lemma kept_lines_spec source used imports ranges previousEnd skipped :
  length ranges = length imports → Forall (λ item, ¬ is_used used item) skipped →
  let '(kept, pending) := kept_lines source used (zip imports ranges) previousEnd (texts_before skipped) in
  kept_exact source used (skipped ++ items source previousEnd imports ranges) kept pending.
Proof.
  revert ranges previousEnd skipped.
  induction imports as [|imported imports IH]; intros [|range ranges] previousEnd skipped Hl Hs; try done.
  { exists [], skipped. cbn. rewrite app_nil_r. split_and!; try done; constructor. }
  injection Hl as Hl. cbn [zip zip_with kept_lines items gaps].
  set (gap := sub_text previousEnd (ir_start range - previousEnd) source). set (item := (gap, (imported, range))).
  assert ((if whitespace gap then texts_before skipped else texts_before skipped ++ gap) = texts_before (skipped ++ [item])) as ->.
  { rewrite texts_before_app. unfold texts_before. cbn -[whitespace]. destruct (whitespace gap); cbn; by rewrite ?app_nil_r. }
  case_bool_decide as Hu.
  - specialize (IH ranges (ir_end range) [] Hl (Forall_nil_2 _)). change (texts_before []) with (@nil ascii) in IH.
    destruct (kept_lines _ _ _ (ir_end range) []) as [kept pending].
    destruct IH as (blocks & rest & Hi & Hb & Hr & Hk & Hp). cbn [app] in Hi.
    exists ((skipped, item) :: blocks), rest. split_and!; try done.
    + cbn. rewrite <- !app_assoc. do 2 f_equal. exact Hi.
    + by constructor.
    + constructor; [|done]. split_and!; try done. apply suffix_spec.
  - specialize (IH ranges (ir_end range) (skipped ++ [item]) Hl). rewrite <- app_assoc in IH. apply IH.
    apply Forall_app. split; [done|]. by constructor.
Qed.

(** ** The result *)

Section organize.
Context (target_ : TargetPlatform) (parseFloating : bytes → bool).

Lemma read_text_total contents sourceId : ∃ tokens program d,
  read_text target_ parseFloating contents sourceId = Some (tokens, program, d) ∧ lexed contents sourceId 0 tokens.
Proof.
  destruct (scan_lexed contents sourceId []) as (tokens & st & Es & Hl). unfold read_text. rewrite Es. cbn [mbind option_bind].
  destruct (parse_well_formed tokens target_ parseFloating false (Lexer.diagnostics_ st)) as (p & d & -> & _);
    [by eapply lexed_ended|]. by exists tokens, p, d.
Qed.

(** The text [contents] is the source with other import lines: which part of it is replaced,
    the lines that stay and the new ones, and the exact text that they yield. *)
Definition reorganized (analysis : ProjectAnalysis) (source : DiagnosticSource) (sourceId : nat) (tokens : list Token)
    (program : Program) (contents : bytes) : Prop :=
  let text := ds_contents source in
  let newline := newlineFor text in
  let packageEnd := packageLineEnd program tokens (lineStarts text) (length text) in
  ∃ ranges aliases packages,
    importRanges program tokens (lineStarts text) (length text) = Some ranges ∧
    collect_aliases (pr_imports program) ∅ ∅ = Some (aliases, packages) ∧
    let '(first, final) := import_lines ranges packageEnd in
    ∃ before blank_above blank_below after kept pending inferred lines,
      (** the part that is replaced *)
      text = before ++ blank_above ++ sub_text first (final - first) text ++ blank_below ++ after ∧
      whitespace blank_above = true ∧ whitespace blank_below = true ∧
      (length before = packageEnd ∨
       blank_above = [] ∧ (first < packageEnd ∨ whitespace (sub_text packageEnd (first - packageEnd) text) = false)) ∧
      (∀ c, head after = Some c → blank c || line_break c = false) ∧
      (** the lines *)
      kept_exact text (used_aliases tokens aliases ranges) (items text first (pr_imports program) ranges) kept pending ∧
      NoDup inferred ∧
      (∀ name, name ∈ inferred ↔
         name ∈ inferredPackages analysis (ds_packageName source) sourceId tokens packages (packageSymbols analysis)) ∧
      lines ≡ₚ kept ++ map (λ name, mkImportLine name [] [] []) inferred ∧
      SortedBy (λ i, (il_packageName i, il_alias i)) lines ∧
      (** the result *)
      let above := if bool_decide (packageEnd ≠ 0 ∧ length before = packageEnd) then newline else [] in
      let between := if bool_decide (lines ≠ [] ∧ pending ≠ []) then newline else [] in
      let below := if bool_decide (lines ≠ [] ∨ pending ≠ []) then newline else [] in
      contents = before ++ above ++ concat (map (import_line newline) lines) ++ between ++ pending ++ below ++ after.

Lemma organized_spec analysis source sourceId tokens program contents :
  lexed (ds_contents source) sourceId 0 tokens →
  organized analysis source sourceId tokens program = Some contents →
  reorganized analysis source sourceId tokens program contents.
Proof.
  intros Hl. destruct (lexed_lines _ _ _ _ Hl) as [_ Hs]. unfold organized, reorganized.
  cbn zeta. set (text := ds_contents source). destruct (importRanges _ _ _ _) as [ranges|] eqn:Er; [|done]. cbn [mbind option_bind].
  destruct (import_ranges_ok _ _ _ _ _ _ Hs Er) as [Hr Hlen].
  destruct (collect_aliases _ _ _) as [[aliases packages]|] eqn:Ea; [|done]. cbn [mbind option_bind].
  set (used := used_aliases tokens aliases ranges). set (start := match head ranges with Some _ => _ | None => _ end).
  pose proof (kept_lines_spec text used (pr_imports program) ranges start [] Hlen (Forall_nil_2 _)) as Ht.
  change (texts_before []) with (@nil ascii) in Ht.
  destruct (kept_lines _ _ _ start []) as [kept pending] eqn:Ek.
  set (inferred := inferredPackages _ _ _ _ _ _). destruct (_ && _); [done|]. intros [= <-].
  set (packageEnd := packageLineEnd _ _ _ _).
  pose proof (replaced_part_spec text ranges packageEnd Hr (packageLineEnd_bound _ _ _)) as Hpart. cbn zeta in Hpart.
  set (part := replaced_part _ _ _) in *.
  exists ranges, aliases, packages. split_and!; [done|done|]. fold packageEnd.
  destruct (import_lines ranges packageEnd) as [first final] eqn:Ei.
  destruct Hpart as ([H1 H2] & [H3 Hsize] & Hw1 & Hw2 & Hstart & Hend). set (lines := sort_imports _).
  assert (length (take part.1 text) = part.1) as Hlb by (rewrite length_take; lia).
  exists (take part.1 text), (sub_text part.1 (first - part.1) text), (sub_text final (part.2 - final) text), (drop part.2 text).
  exists kept, pending, (elements inferred), lines. rewrite Hlb. split_and!; try done.
  - rewrite <- (take_drop part.1 text) at 1. f_equal. by rewrite <- !drop_cut.
  - destruct Hstart as [->|[-> H]]; [by left|right]. split; [by apply sub_text_none|done].
  - replace (items text first (pr_imports program) ranges) with (items text start (pr_imports program) ranges); [exact Ht|].
    unfold import_lines in Ei. subst start. destruct ranges as [|range ranges]; [done|].
    cbn [head] in *. destruct (last (range :: ranges)) eqn:El; [by injection Ei as <- _|]. by apply last_None in El.
  - apply NoDup_elements.
  - intros name. apply elem_of_elements.
  - apply sort_by_perm.
  - apply sort_by_sorted.
  - unfold replacement_text, replace_part. fold lines. rewrite (map_ext _ _ (render_import_line _)), <- !app_assoc.
    assert (∀ (b c : bool) (n : bytes), b = c → (if b then n else []) = (if c then n else [])) as Hif by (by intros ? ? ? ->).
    do 2 f_equal; [apply Hif|f_equal; f_equal; [apply Hif|do 2 f_equal; apply Hif]]; apply eq_iff_eq_true;
      by rewrite bool_decide_eq_true, ?andb_true_iff, ?orb_true_iff, ?negb_true_iff, ?bool_decide_eq_false, ?Nat.eqb_eq, ?Nat.eqb_neq.
Qed.

(** C26: organizing the imports of a file ends, and what it yields is the file as it is, or
    a file that is read without an error and differs in its import lines only. In the place of
    the text from the first to the last import line and the blanks around it stands one block
    of import lines sorted by package and alias: exactly the imports whose aliases the file
    uses, each with the rest of its line behind it, and the packages inferred for undefined
    names. The text between two old lines stands, if it is not blank, before the next line
    that stays, or behind all lines; line ends set the block off from the text around it. *)
Theorem organize_exact (analysis : ProjectAnalysis) (sourceId : nat) (source : DiagnosticSource) :
  pa_sources analysis !! sourceId = Some source →
  ∃ contents d, organizeImports target_ parseFloating analysis sourceId = Some (contents, d) ∧
    (contents = ds_contents source ∨
     hasErrors d = false ∧
     (∃ tokens program validation, read_text target_ parseFloating contents sourceId = Some (tokens, program, validation) ∧
        hasErrors validation = false) ∧
     ∃ tokens program, read_text target_ parseFloating (ds_contents source) sourceId = Some (tokens, program, d) ∧
       reorganized analysis source sourceId tokens program contents).
Proof.
  intros Hs. unfold organizeImports. rewrite Hs.
  destruct (read_text_total (ds_contents source) sourceId) as (tokens & program & d & Er & Hl). rewrite Er.
  cbn [mbind option_bind]. destruct (hasErrors d) eqn:Hd; [eexists _, _; split; [done|by left]|].
  destruct (organized analysis source sourceId tokens program) as [contents|] eqn:Eo; [|eexists _, _; split; [done|by left]].
  destruct (read_text_total contents sourceId) as (tokens' & program' & v & Ev & _). rewrite Ev. cbn [mbind option_bind].
  destruct (hasErrors v) eqn:Hv; [eexists _, _; split; [done|by left]|].
  eexists _, _. split; [done|]. right. split; [done|]. split; [by exists tokens', program', v|].
  exists tokens, program. split; [done|]. by apply organized_spec.
Qed.
End organize.

Definition lines_of (lines : list bytes) : bytes := join_with [newline] lines.
Definition one_source (lines : list bytes) : ProjectAnalysis :=
  mkAnalysis [mkDiagnosticSource [] (lines_of lines) [] (lit "sample")] emptyProgram [].

Definition two_imports : list bytes :=
  [lit "package sample"; lit "import std.text"; lit "import std.io"; lit "import std.math as m"; lit "fn main() i32 { m.Two(io.One()) }"].

Lemma organize_exact_witness :
  organizeImports Linux (λ _, true) (one_source two_imports) 0 =
    Some (lines_of [lit "package sample"; []; lit "import std.io"; lit "import std.math as m"; [];
                    lit "fn main() i32 { m.Two(io.One()) }"], []) ∧
  ∃ contents d, organizeImports Linux (λ _, true) (one_source two_imports) 0 = Some (contents, d) ∧
    (contents = lines_of two_imports ∨
     hasErrors d = false ∧
     (∃ tokens program validation, read_text Linux (λ _, true) contents 0 = Some (tokens, program, validation) ∧
        hasErrors validation = false) ∧
     ∃ tokens program, read_text Linux (λ _, true) (lines_of two_imports) 0 = Some (tokens, program, d) ∧
       reorganized (one_source two_imports) (mkDiagnosticSource [] (lines_of two_imports) [] (lit "sample")) 0 tokens program contents).
Proof.
  split; [vm_compute; reflexivity|].
  exact (organize_exact Linux (λ _, true) (one_source two_imports) 0
    (mkDiagnosticSource [] (lines_of two_imports) [] (lit "sample")) eq_refl).
Defined.

(** Organizing imports drops code: what follows an unused import in its line goes with it,
    and what stands before the first import in its line, such as the package declaration,
    goes even if the import stays. *)
Theorem code_in_import_line_dropped :
  organizeImports Linux (λ _, true)
    (one_source [lit "package sample"; lit "import std.text fn helper() i32 { 1 }"; lit "fn main() i32 { helper() }"]) 0 =
    Some (lines_of [lit "package sample"; []; lit "fn main() i32 { helper() }"], []) ∧
  organizeImports Linux (λ _, true)
    (one_source [lit "package sample import std.text"; lit "fn main() i32 { text.Size() }"]) 0 =
    Some (lines_of [lit "import std.text"; []; lit "fn main() i32 { text.Size() }"], []).
Proof. split; vm_compute; reflexivity. Qed.
