(* ===== verification/SemaTypes.v ===== *)
(** * Types in semantic analysis (compiler/src/sema.cpp, before class [Analyzer])

    Keys of types, the test for recurring types, what may cross the C ABI, which literals
    a type holds and which numeric conversions cannot fail. *)
From S2P Require Import Prelude Diagnostics Ast Types.

(** ** Keys *)

(** [static_cast<unsigned int>(kind)]: the place of the kind in its declaration. *)
Definition kind_index (kind : TypeKind) : nat :=
  match kind with
  | TypeKind.Invalid => 0 | TypeKind.Void => 1 | TypeKind.Never => 2 | TypeKind.I8 => 3 | TypeKind.I16 => 4
  | TypeKind.I32 => 5 | TypeKind.I64 => 6 | TypeKind.U8 => 7 | TypeKind.U16 => 8 | TypeKind.U32 => 9
  | TypeKind.U64 => 10 | TypeKind.Isize => 11 | TypeKind.Usize => 12 | TypeKind.F32 => 13 | TypeKind.F64 => 14
  | TypeKind.Bool => 15 | TypeKind.String => 16 | TypeKind.Raw => 17 | TypeKind.RawConst => 18
  | TypeKind.Array => 19 | TypeKind.Slice => 20 | TypeKind.Own => 21 | TypeKind.View => 22 | TypeKind.Edit => 23
  | TypeKind.TypeParameter => 24 | TypeKind.Struct => 25 | TypeKind.Enum => 26 | TypeKind.Contract => 27
  | TypeKind.Function => 28 | TypeKind.Task => 29 | TypeKind.Channel => 30 | TypeKind.Sender => 31
  | TypeKind.Receiver => 32
  end.

Fixpoint semanticTypeKey (type : Ty) : bytes :=
  match type with
  | mkTy kind declaration arguments =>
      nat_text (kind_index kind) ++ lit ":" ++ nat_text declaration ++
      match arguments with
      | [] => []
      | _ => lit "<" ++ concat (map (λ argument, semanticTypeKey argument ++ lit ";") arguments) ++ lit ">"
      end
  end.

(** ** Recurring types *)

Fixpoint containsProperType (outer candidate : Ty) : bool :=
  match outer with
  | mkTy _ _ arguments =>
      existsb (λ argument, bool_decide (argument = candidate) || containsProperType argument candidate) arguments
  end.

Definition isInfiniteTypeRecurrence (active child : Ty) : bool :=
  if bool_decide (active = child) then true
  else if containsProperType active child then false
  else existsb (λ argument, bool_decide (argument = child) || containsProperType child argument)
         (ty_arguments active).

(** ** The C ABI *)

Definition c_words : list bytes := map lit
  ["alignas"; "alignof"; "and"; "and_eq"; "asm"; "auto"; "bitand"; "bitor"; "bool"; "break"; "case"; "catch";
   "char"; "char8_t"; "char16_t"; "char32_t"; "class"; "compl"; "concept"; "const"; "consteval"; "constexpr";
   "constinit"; "const_cast"; "continue"; "co_await"; "co_return"; "co_yield"; "decltype"; "default"; "delete";
   "do"; "double"; "dynamic_cast"; "else"; "enum"; "explicit"; "export"; "extern"; "false"; "float"; "for";
   "friend"; "goto"; "if"; "import"; "inline"; "int"; "long"; "module"; "mutable"; "namespace"; "new";
   "noexcept"; "not"; "not_eq"; "nullptr"; "operator"; "or"; "or_eq"; "private"; "protected"; "public";
   "register"; "reinterpret_cast"; "requires"; "restrict"; "return"; "short"; "signed"; "sizeof"; "static";
   "static_assert"; "static_cast"; "struct"; "switch"; "template"; "this"; "thread_local"; "throw"; "true";
   "try"; "typedef"; "typeid"; "typename"; "union"; "unsigned"; "using"; "virtual"; "void"; "volatile";
   "wchar_t"; "while"; "xor"; "xor_eq"; "_Alignas"; "_Alignof"; "_Atomic"; "_Bool"; "_Complex"; "_Generic";
   "_Imaginary"; "_Noreturn"; "_Static_assert"; "_Thread_local"]%string.

Definition c_letter (c : ascii) : bool := isalpha c || bool_decide (c = "_"%char).
Definition isCIdentifier (value : bytes) : bool :=
  match value with
  | [] => false
  | first :: rest =>
      c_letter first && forallb (λ c, c_letter c || isdigit c) rest && negb (bool_decide (value ∈ c_words))
  end.

Definition isReservedCSymbol (value : bytes) : bool :=
  bool_decide (value = lit "main") || starts_with (lit "fdn_") value || starts_with (lit "_") value.

Definition voidType : Ty := scalar TypeKind.Void.
Definition neverType : Ty := scalar TypeKind.Never.
Definition invalidType : Ty := scalar TypeKind.Invalid.
Definition boolType : Ty := scalar TypeKind.Bool.
Definition stringType : Ty := scalar TypeKind.String.

(** A machine scalar that is a value. *)
Definition scalar_value (type : Ty) : bool :=
  isMachineScalar type && negb (bool_decide (type = voidType)) && negb (bool_decide (type = neverType)).
(** [type.kind == kind && type.arguments.size() == 1], with the argument. *)
Definition single (kinds : list TypeKind) (type : Ty) : option Ty :=
  if kind_in kinds type then match ty_arguments type with [argument] => Some argument | _ => None end else None.
Definition raw_pointer (type : Ty) : bool :=
  match single [TypeKind.Raw; TypeKind.RawConst] type with Some _ => true | None => false end.
Definition void_task (type : Ty) : bool :=
  match single [TypeKind.Task] type with Some argument => bool_decide (argument = voidType) | None => false end.

Definition isCParameterType (type : Ty) (symbol packageName : bytes) : bool :=
  scalar_value type || isCFunction type || raw_pointer type ||
  match single [TypeKind.View] type with
  | Some target => bool_decide (target = stringType) || kind_in [TypeKind.Struct] target
  | None => false
  end ||
  match single [TypeKind.Edit] type with
  | Some target =>
      scalar_value target || bool_decide (target = boolType) || bool_decide (target = stringType) ||
      kind_in [TypeKind.Struct] target
  | None => false
  end ||
  bool_decide (packageName = lit "foundation.worker") &&
  (bool_decide (symbol = lit "foundation_runtime_supervisor_adopt") ||
   bool_decide (symbol = lit "foundation_runtime_pool_submit")) && void_task type.

Definition isCReturnType (type : Ty) : bool :=
  isMachineScalar type && negb (bool_decide (type = neverType)) || bool_decide (type = stringType) ||
  isCFunction type || raw_pointer type.

Definition isRuntimeTaskReturn (type : Ty) (symbol packageName : bytes) : bool :=
  bool_decide (packageName = lit "foundation.worker") &&
  (bool_decide (symbol = lit "foundation_runtime_supervisor_wait_task") ||
   bool_decide (symbol = lit "foundation_runtime_supervisor_cancel_task")) && void_task type.

Fixpoint containsRawPointer (type : Ty) : bool :=
  match type with
  | mkTy kind _ arguments =>
      bool_decide (kind = TypeKind.Raw) || bool_decide (kind = TypeKind.RawConst) ||
      existsb containsRawPointer arguments
  end.

(** ** Integer literals and numeric conversions *)

(** The host has 64-bit [std::size_t] and [std::intptr_t]. *)
Definition unsigned_max (kind : TypeKind) : option N :=
  match kind with
  | TypeKind.U8 => Some 255 | TypeKind.U16 => Some 65535 | TypeKind.U32 => Some 4294967295
  | TypeKind.U64 | TypeKind.Usize => Some 18446744073709551615
  | _ => None
  end%N.
Definition signed_max (kind : TypeKind) : option N :=
  match kind with
  | TypeKind.I8 => Some 127 | TypeKind.I16 => Some 32767 | TypeKind.I32 => Some 2147483647
  | TypeKind.I64 | TypeKind.Isize => Some 9223372036854775807
  | _ => None
  end%N.

Definition integerLiteralFits (type : Ty) (magnitude : N) (negative : bool) : bool :=
  if isUnsignedInteger type then
    if negative then false
    else match unsigned_max (ty_kind type) with Some maximum => (magnitude <=? maximum)%N | None => false end
  else if negb (isSignedInteger type) then false
  else match signed_max (ty_kind type) with
       | Some maximum => (magnitude <=? maximum + (if negative then 1 else 0))%N
       | None => false
       end.

Definition machineScalarType (name : bytes) : option Ty :=
  if bool_decide (name = lit "i8") then Some (scalar TypeKind.I8)
  else if bool_decide (name = lit "i16") then Some (scalar TypeKind.I16)
  else if bool_decide (name = lit "i32") then Some (scalar TypeKind.I32)
  else if bool_decide (name = lit "i64") then Some (scalar TypeKind.I64)
  else if bool_decide (name = lit "u8") then Some (scalar TypeKind.U8)
  else if bool_decide (name = lit "u16") then Some (scalar TypeKind.U16)
  else if bool_decide (name = lit "u32") then Some (scalar TypeKind.U32)
  else if bool_decide (name = lit "u64") then Some (scalar TypeKind.U64)
  else if bool_decide (name = lit "isize") then Some (scalar TypeKind.Isize)
  else if bool_decide (name = lit "usize") then Some (scalar TypeKind.Usize)
  else if bool_decide (name = lit "f32") then Some (scalar TypeKind.F32)
  else if bool_decide (name = lit "f64") then Some (scalar TypeKind.F64)
  else None.

(** [std::numeric_limits<T>::digits]. *)
Definition integerValueBits (type : Ty) : nat :=
  match ty_kind type with
  | TypeKind.I8 => 7 | TypeKind.I16 => 15 | TypeKind.I32 => 31 | TypeKind.I64 | TypeKind.Isize => 63
  | TypeKind.U8 => 8 | TypeKind.U16 => 16 | TypeKind.U32 => 32 | TypeKind.U64 | TypeKind.Usize => 64
  | _ => 0
  end.

Definition withPointerWidth (type : Ty) (wide : bool) : Ty :=
  match ty_kind type with
  | TypeKind.Usize => scalar (if wide then TypeKind.U64 else TypeKind.U32)
  | TypeKind.Isize => scalar (if wide then TypeKind.I64 else TypeKind.I32)
  | _ => type
  end.

Definition numericConversionIsInfallible (source target : Ty) : bool :=
  if bool_decide (source = target) then true
  else if isInteger source && isInteger target then
    if isSignedInteger source && isUnsignedInteger target then false
    else integerValueBits source <=? integerValueBits target
  else if isInteger source && isFloating target then
    integerValueBits source <=? (if bool_decide (target = scalar TypeKind.F32) then 24 else 53)
  else bool_decide (source = scalar TypeKind.F32) && bool_decide (target = scalar TypeKind.F64).

Definition portableNumericConversionIsInfallible (source target : Ty) : bool :=
  if bool_decide (source = target) then true
  else numericConversionIsInfallible (withPointerWidth source false) (withPointerWidth target false) &&
       numericConversionIsInfallible (withPointerWidth source true) (withPointerWidth target true).

(** ** Keys are injective *)

Definition number_ends (x : bytes) : Prop := match x with [] => True | c :: _ => isdigit c = false end.

Lemma digits_split a b x y :
  Forall (λ c, isdigit c = true) a → Forall (λ c, isdigit c = true) b → number_ends x → number_ends y →
  a ++ x = b ++ y → a = b ∧ x = y.
Proof.
  intros Ha. revert b. induction Ha as [|c a Hc Ha IH]; intros b Hb Hx Hy E.
  - destruct Hb as [|d b Hd Hb]; [done|]. cbn in E. subst x. cbn in Hx. congruence.
  - destruct Hb as [|d b Hd Hb]; cbn in E.
    + subst y. cbn in Hy. congruence.
    + injection E as -> E. by apply IH in E as [-> ->].
Qed.

Lemma nat_text_digits n : Forall (λ c, isdigit c = true) (nat_text n).
Proof. apply to_string_spec. Qed.
Lemma nat_text_inj n m : nat_text n = nat_text m → n = m.
Proof.
  intros E. apply (f_equal decimal) in E. unfold nat_text in E.
  assert (∀ k, decimal (to_string k) = k) as Hd by (intros k; apply to_string_spec).
  rewrite !Hd in E. lia.
Qed.
Lemma kind_index_inj a b : kind_index a = kind_index b → a = b.
Proof. by destruct a, b. Qed.

(** What may follow a key: nothing, or the end of an argument. *)
Definition key_tail (x : bytes) : Prop := match x with [] => True | c :: _ => c = ";"%char end.

Lemma key_head type : ∃ c rest, semanticTypeKey type = c :: rest ∧ isdigit c = true.
Proof.
  destruct type as [kind declaration arguments]. cbn [semanticTypeKey].
  pose proof (nat_text_digits (kind_index kind)) as H.
  assert (nat_text (kind_index kind) ≠ []) as Hn.
  { apply to_string_spec. }
  destruct (nat_text (kind_index kind)) as [|c rest]; [done|]. inversion H; subst. by eexists _, _.
Qed.

Lemma key_app_inj t t' x x' :
  key_tail x → key_tail x' → semanticTypeKey t ++ x = semanticTypeKey t' ++ x' → t = t' ∧ x = x'.
Proof.
  revert t' x x'. induction t as [kind declaration arguments IH] using Ty_induction.
  intros [kind' declaration' arguments'] x x' Hx Hx'. cbn [semanticTypeKey]. rewrite <- !app_assoc.
  intros E. apply digits_split in E as [Hk E]; [|apply nat_text_digits..|done|done].
  apply nat_text_inj, kind_index_inj in Hk as ->. injection E as E.
  apply digits_split in E as [Hd E]; [|apply nat_text_digits..| |].
  2-3: destruct arguments, arguments'; cbn; try done; by destruct x, x'; cbn in Hx, Hx' |- *; subst.
  apply nat_text_inj in Hd as ->.
  assert (∀ l l', Forall (λ t, ∀ t' x x', key_tail x → key_tail x' → semanticTypeKey t ++ x = semanticTypeKey t' ++ x' →
      t = t' ∧ x = x') l →
    concat (map (λ argument, semanticTypeKey argument ++ lit ";") l) ++ lit ">" ++ x =
    concat (map (λ argument, semanticTypeKey argument ++ lit ";") l') ++ lit ">" ++ x' → l = l' ∧ x = x') as Hl.
  { clear. intros l l' H. revert l'. induction H as [|t l Ht _ IHl]; intros [|t' l']; cbn [map concat app].
    - by intros [= ->].
    - destruct (key_head t') as (c & r & -> & Hc). by intros [= <- _].
    - destruct (key_head t) as (c & r & -> & Hc). by intros [= -> _].
    - rewrite <- !app_assoc. intros E. apply Ht in E as [-> E]; [|done..]. injection E as E.
      by apply IHl in E as [-> ->]. }
  destruct arguments as [|a l], arguments' as [|a' l'].
  - done.
  - cbn in E. subst x. by inversion Hx.
  - cbn in E. subst x'. by inversion Hx'.
  - injection E as E. destruct (Hl (a :: l) (a' :: l') IH) as [[= -> ->] ->]; [|done].
    cbn [map concat]. repeat rewrite <- app_assoc in E. rewrite <- !app_assoc. exact E.
Qed.

(** Types with one key are one type: the sets of keys stand for sets of types. *)
Lemma semanticTypeKey_inj t t' : semanticTypeKey t = semanticTypeKey t' → t = t'.
Proof.
  intros E. destruct (key_app_inj t t' [] []) as [-> _]; [done..| |done]. by rewrite !app_nil_r.
Qed.
#[global] Instance semanticTypeKey_Inj : Inj (=) (=) semanticTypeKey.
Proof. intros t t'. apply semanticTypeKey_inj. Qed.

(** ** Values of numeric types *)

(** The least and the greatest value of an integer type, for targets with 64-bit pointers
    ([wide]) and with 32-bit ones. *)
Definition int_bounds (wide : bool) (kind : TypeKind) : option (Z * Z) :=
  match kind with
  | TypeKind.I8 => Some (-128, 127)
  | TypeKind.I16 => Some (-32768, 32767)
  | TypeKind.I32 => Some (-2147483648, 2147483647)
  | TypeKind.I64 => Some (-9223372036854775808, 9223372036854775807)
  | TypeKind.Isize => Some (if wide then (-9223372036854775808, 9223372036854775807) else (-2147483648, 2147483647))
  | TypeKind.U8 => Some (0, 255)
  | TypeKind.U16 => Some (0, 65535)
  | TypeKind.U32 => Some (0, 4294967295)
  | TypeKind.U64 => Some (0, 18446744073709551615)
  | TypeKind.Usize => Some (0, if wide then 18446744073709551615 else 4294967295)
  | _ => None
  end%Z.

(** An integer that a binary floating-point number with a significand of [p] bits has as its
    value: the exponent range of both formats covers all integers of 64 bits. *)
Definition float_holds (p : Z) (z : Z) : Prop := ∃ m e, (0 ≤ e ∧ Z.abs m < 2 ^ p ∧ z = m * 2 ^ e)%Z.

Definition holds (wide : bool) (kind : TypeKind) (z : Z) : Prop :=
  match int_bounds wide kind with
  | Some (lo, hi) => (lo ≤ z ≤ hi)%Z
  | None => match kind with
            | TypeKind.F32 => float_holds 24 z
            | TypeKind.F64 => float_holds 53 z
            | _ => False
            end
  end.

Lemma float_holds_small p z : (0 < p)%Z → (- 2 ^ p ≤ z ≤ 2 ^ p)%Z → float_holds p z.
Proof.
  intros Hp Hz. assert (1 < 2 ^ p)%Z by (apply Z.pow_gt_1; lia).
  destruct (decide (Z.abs z < 2 ^ p)%Z); [exists z, 0%Z; lia|].
  destruct (decide (0 < z)%Z); [exists 1%Z, p|exists (-1)%Z, p]; lia.
Qed.

(** The least positive integer without a representation, and its negation. *)
Lemma float_holds_not p z : (0 < p)%Z → Z.abs z = (2 ^ p + 1)%Z → ¬ float_holds p z.
Proof.
  intros Hp Hz (m & e & He & Hm & E). destruct (decide (e = 0)%Z) as [->|]; [rewrite Z.pow_0_r in E; lia|].
  replace e with (Z.succ (e - 1)) in E by lia. rewrite Z.pow_succ_r in E by lia.
  replace p with (Z.succ (p - 1)) in Hz by lia. rewrite Z.pow_succ_r in Hz by lia. lia.
Qed.

Lemma float_range p lo hi : (0 < p)%Z → (lo ≤ 0 ≤ hi)%Z →
  (∀ z, (lo ≤ z ≤ hi)%Z → float_holds p z) ↔ (- 2 ^ p ≤ lo ∧ hi ≤ 2 ^ p)%Z.
Proof.
  intros Hp H0. assert (0 < 2 ^ p)%Z as Hpos by (apply Z.pow_pos_nonneg; lia). split.
  - intros H. split.
    + destruct (decide (- 2 ^ p ≤ lo)%Z); [done|]. exfalso. apply (float_holds_not p (- (2 ^ p + 1))); [lia..|apply H; lia].
    + destruct (decide (hi ≤ 2 ^ p)%Z); [done|]. exfalso. apply (float_holds_not p (2 ^ p + 1)); [lia..|apply H; lia].
  - intros [? ?] z Hz. apply float_holds_small; lia.
Qed.

Lemma int_range lo hi lo' hi' : (lo ≤ hi)%Z →
  (∀ z, (lo ≤ z ≤ hi)%Z → (lo' ≤ z ≤ hi')%Z) ↔ (lo' ≤ lo ∧ hi ≤ hi')%Z.
Proof. intros Hl. split; [|lia]. intros H. pose proof (H lo). pose proof (H hi). lia. Qed.

(** The integers around zero that a numeric type has without gaps. *)
Definition interval (wide : bool) (kind : TypeKind) : option (Z * Z) :=
  match kind with
  | TypeKind.F32 => Some (- 2 ^ 24, 2 ^ 24)
  | TypeKind.F64 => Some (- 2 ^ 53, 2 ^ 53)
  | _ => int_bounds wide kind
  end%Z.
Definition inside (wide : bool) (source target : TypeKind) : bool :=
  match int_bounds wide source, interval wide target with
  | Some (lo, hi), Some (lo', hi') => (lo' <=? lo)%Z && (hi <=? hi')%Z
  | _, _ => false
  end.

Lemma inside_spec wide source target :
  isInteger (scalar source) = true → isNumeric (scalar target) = true →
  (∀ z, holds wide source z → holds wide target z) ↔ inside wide source target = true.
Proof.
  intros Hs Ht. unfold holds at 1, inside.
  assert (∃ lo hi, int_bounds wide source = Some (lo, hi) ∧ (lo ≤ 0 ≤ hi)%Z) as (lo & hi & -> & H0).
  { destruct source; try done; destruct wide; by eexists _, _. }
  destruct (decide (isFloating (scalar target) = true)) as [Hf|Hf].
  - destruct target; try done; cbn [interval]; rewrite andb_true_iff, !Z.leb_le;
      [by apply (float_range 24)|by apply (float_range 53)].
  - assert (∃ lo' hi', int_bounds wide target = Some (lo', hi') ∧ interval wide target = Some (lo', hi')) as
      (lo' & hi' & Eb & ->).
    { destruct target; try done; try (by destruct Hf); cbn; destruct wide; eauto. }
    unfold holds. rewrite Eb, andb_true_iff, !Z.leb_le. apply int_range. lia.
Qed.

(** C17: a conversion between numeric types is taken as one that cannot fail exactly when
    every value of the integer type it starts from is a value of the other type, on targets
    with 32-bit and with 64-bit pointers; to a floating-point type, without rounding. *)
Theorem conversion_exact (source target : TypeKind) :
  isInteger (scalar source) = true → isNumeric (scalar target) = true →
  portableNumericConversionIsInfallible (scalar source) (scalar target) = true ↔
  ∀ wide z, holds wide source z → holds wide target z.
Proof.
  intros Hs Ht. transitivity (inside false source target && inside true source target = true).
  - destruct source; try done; destruct target; done.
  - rewrite andb_true_iff, <- !inside_spec by done. split; [|by auto]. by intros [? ?] [].
Qed.

Lemma conversion_exact_witness :
  (portableNumericConversionIsInfallible (scalar TypeKind.U32) (scalar TypeKind.Isize) = false) ∧
  (portableNumericConversionIsInfallible (scalar TypeKind.U32) (scalar TypeKind.I64) = true ↔
   ∀ wide z, holds wide TypeKind.U32 z → holds wide TypeKind.I64 z).
Proof. split; [reflexivity|]. apply conversion_exact; reflexivity. Defined.

Lemma literal_bounds kind magnitude negative :
  integerLiteralFits (scalar kind) magnitude negative =
  match unsigned_max kind, signed_max kind with
  | Some maximum, _ => negb negative && (magnitude <=? maximum)%N
  | None, Some maximum => (magnitude <=? maximum + (if negative then 1 else 0))%N
  | None, None => false
  end.
Proof. by destruct kind, negative. Qed.

(** An integer literal is accepted for an integer type exactly when its value is one of
    the type's, on a host with 64-bit pointers; a minus sign is not accepted for an unsigned
    type, even before zero. *)
Theorem literal_exact (kind : TypeKind) (magnitude : N) (negative : bool) :
  isInteger (scalar kind) = true →
  integerLiteralFits (scalar kind) magnitude negative = true ↔
  holds true kind (if negative then - Z.of_N magnitude else Z.of_N magnitude) ∧
  (negative = true → isSignedInteger (scalar kind) = true).
Proof.
  intros Hk. rewrite literal_bounds. unfold holds.
  destruct kind; try done; destruct negative; cbn [int_bounds unsigned_max signed_max negb andb];
    rewrite ?N.leb_le; (split; [intros H; split; [lia|done] || done|intros [H1 H2]; lia || by specialize (H2 eq_refl)]).
Qed.

Lemma literal_exact_witness :
  integerLiteralFits (scalar TypeKind.I8) 128 true = true ↔
  holds true TypeKind.I8 (-128) ∧ (true = true → isSignedInteger (scalar TypeKind.I8) = true).
Proof. apply (literal_exact TypeKind.I8 128 true). reflexivity. Defined.
