(* ===== verification/SemaModel.v ===== *)
(** * The types of declarations in semantic analysis (compiler/src/sema.cpp, sema.hpp)

    What [Analyzer] knows of structs, enums and contracts, substitution in types, and the
    predicates that follow the fields of a type: passing by copy, C records, cleanup.

    These functions call themselves along the fields of types, which need not end: a
    depth bounds the nesting of the calls, and [None] is a call that nests deeper. *)
From S2P Require Import Prelude Diagnostics Ast Types SemaTypes.

(** The members of [SemanticStruct] and [SemanticEnum] about types. *)
Record SemanticStruct := mkSemanticStruct {
  ss_typeParameterCount : nat;
  ss_fieldTypes : list Ty;
  ss_implementations : list Ty;
  ss_implementationDelegates : list (option nat);
}.
Record SemanticEnum := mkSemanticEnum {
  se_typeParameterCount : nat;
  se_payloadTypes : list (option Ty);
}.
Record SemanticContractMethod := mkSemanticMethod {
  sm_name : bytes;
  sm_receiver : ReceiverKind.t;
  sm_returnType : Ty;
  sm_parameterTypes : list Ty;
  sm_parameterNames : list bytes;
  sm_parameterModes : list ParameterMode.t;
  sm_exported : bool;
  sm_span : SourceSpan;
  sm_originContract : nat;
  sm_originArguments : list Ty;
  sm_defaultFunction : option nat;
}.
Record SemanticContract := mkSemanticContract {
  sc_typeParameterCount : nat;
  sc_parents : list Ty;
  sc_methods : list SemanticContractMethod;
}.
Record SemanticModel := mkSemanticModel {
  sem_structs : list SemanticStruct;
  sem_enums : list SemanticEnum;
  sem_contracts : list SemanticContract;
}.

Definition ends_with (suffix text : bytes) : bool := starts_with (rev suffix) (rev text).

(** A loop that ends at the first element that is refused. *)
Fixpoint all_of {A} (f : A → option bool) (l : list A) : option bool :=
  match l with
  | [] => Some true
  | a :: l => ok ← f a; if ok : bool then all_of f l else Some false
  end.
Fixpoint any_of {A} (f : A → option bool) (l : list A) : option bool :=
  match l with
  | [] => Some false
  | a :: l => found ← f a; if found : bool then Some true else any_of f l
  end.

(** ** Types without their declarations *)

Fixpoint containsBorrow (type : Ty) : bool :=
  match type with
  | mkTy kind _ arguments =>
      if bool_decide (kind = TypeKind.Function) then false
      else if bool_decide (kind = TypeKind.View) || bool_decide (kind = TypeKind.Edit) then true
      else existsb containsBorrow arguments
  end.

Fixpoint containsNestedBorrow (type : Ty) (allowRoot : bool) : bool :=
  match type with
  | mkTy kind _ arguments =>
      if bool_decide (kind = TypeKind.Function) then false
      else if (bool_decide (kind = TypeKind.View) || bool_decide (kind = TypeKind.Edit)) && negb allowRoot then true
      else existsb (λ argument, containsNestedBorrow argument false) arguments
  end.

Fixpoint containsBareSlice (type : Ty) : bool :=
  match type with
  | mkTy kind _ arguments =>
      match arguments with
      | [mkTy TypeKind.Slice _ elements] =>
          if bool_decide (kind = TypeKind.View) || bool_decide (kind = TypeKind.Edit)
          then existsb containsBareSlice elements
          else true
      | _ => bool_decide (kind = TypeKind.Slice) || existsb containsBareSlice arguments
      end
  end.

Fixpoint containsBareContract (type : Ty) (allowBorrowTarget : bool) : bool :=
  match type with
  | mkTy kind _ arguments =>
      let target :=
        match arguments with [argument] => bool_decide (ty_kind argument = TypeKind.Contract) | _ => false end in
      if bool_decide (kind = TypeKind.Own) && target then false
      else if (bool_decide (kind = TypeKind.View) || bool_decide (kind = TypeKind.Edit)) && target &&
              allowBorrowTarget then false
      else bool_decide (kind = TypeKind.Contract) ||
           existsb (λ argument, containsBareContract argument false) arguments
  end.

(** ** Substitution and passing by copy *)

(** [substitute], over the answer of [isCopyParameterType]: a borrow of a parameter that
    was marked ([View] with qualifier 1) becomes a copy when the argument is copied. *)
Fixpoint substitute_with (copy : Ty → option bool) (arguments : list Ty) (type : Ty) : option Ty :=
  match type with
  | mkTy TypeKind.TypeParameter declaration _ => Some (default invalidType (arguments !! declaration))
  | mkTy kind declaration inner =>
      inner ← (fix all (l : list Ty) : option (list Ty) :=
                 match l with
                 | [] => Some []
                 | t :: l => t ← substitute_with copy arguments t; l ← all l; Some (t :: l)
                 end) inner;
      match kind, declaration, inner with
      | TypeKind.View, 1, [target] =>
          copied ← copy target;
          Some (if copied : bool then target else mkTy kind declaration inner)
      | _, _, _ => Some (mkTy kind declaration inner)
      end
  end.

Section model.
Context (program_ : Program) (model_ : SemanticModel).

(** A function [T.drop] of the type. *)
Definition has_drop_function (name : bytes) : bool :=
  existsb (λ function, bool_decide (fn_ownerType function = name) && ends_with (lit ".drop") (fn_name function))
    (pr_functions program_).
Definition struct_name (declaration : nat) : bytes :=
  match pr_structs program_ !! declaration with Some structure => sd_name structure | None => [] end.

(** [active] has the keys of the types the calls above are at. *)
Fixpoint copy_parameter (depth : nat) (active : gset bytes) (type : Ty) : option bool :=
  match depth with
  | O => None
  | S depth =>
      let part active arguments field :=
        t ← substitute_with (copy_parameter depth ∅) arguments field; copy_parameter depth active t in
      if scalar_value type then Some true
      else if kind_in [TypeKind.Raw; TypeKind.RawConst] type then Some (bool_decide (length (ty_arguments type) = 1))
      else if isCFunction type then Some true
      else match single [TypeKind.Array] type with
           | Some element => copy_parameter depth active element
           | None =>
               if negb (kind_in [TypeKind.Struct; TypeKind.Enum] type) then Some false
               else if bool_decide (semanticTypeKey type ∈ active) then Some true
               else
                 let active := {[semanticTypeKey type]} ∪ active in
                 let payloads :=
                   match sem_enums model_ !! ty_declaration type with
                   | None => Some false
                   | Some enumeration =>
                       all_of (part active (ty_arguments type)) (omap id (se_payloadTypes enumeration))
                   end in
                 if bool_decide (ty_kind type = TypeKind.Struct) then
                   match sem_structs model_ !! ty_declaration type with
                   | None => payloads
                   | Some structure =>
                       if has_drop_function (struct_name (ty_declaration type)) then Some false
                       else all_of (part active (ty_arguments type)) (ss_fieldTypes structure)
                   end
                 else payloads
           end
  end.

Definition isCopyParameterType (depth : nat) (type : Ty) : option bool := copy_parameter depth ∅ type.
Definition substitute (depth : nat) (type : Ty) (arguments : list Ty) : option Ty :=
  substitute_with (isCopyParameterType depth) arguments type.

(** The walk of [isCRecordType]: the fields are taken without substitution. *)
Fixpoint c_record (depth : nat) (active : gset bytes) (type : Ty) : option bool :=
  match depth with
  | O => None
  | S depth =>
      match pr_structs program_ !! ty_declaration type, sem_structs model_ !! ty_declaration type with
      | Some declaration, Some semantic =>
          if negb (bool_decide (ty_kind type = TypeKind.Struct)) || negb (bool_decide (ty_arguments type = [])) then
            Some false
          else if bool_decide (semanticTypeKey type ∈ active) then Some false
          else
            let active := {[semanticTypeKey type]} ∪ active in
            if sd_exported declaration &&
               match sd_kind declaration with KindStruct => true | KindService => false end &&
               bool_decide (sd_typeParameters declaration = []) &&
               bool_decide (length (sd_fields declaration) = length (ss_fieldTypes semantic)) &&
               negb (has_drop_function (sd_name declaration))
            then
              all_of (λ p : StructField * Ty,
                let '(field, type) := p in
                if negb (sf_exported field) then Some false
                else if scalar_value type || raw_pointer type || isCFunction type then Some true
                else if bool_decide (ty_kind type = TypeKind.Struct) then c_record depth active type
                else Some false) (zip (sd_fields declaration) (ss_fieldTypes semantic))
            else Some false
      | _, _ => Some false
      end
  end.
Definition isCRecordType (depth : nat) (type : Ty) : option bool := c_record depth ∅ type.

(** ** Layout *)

Fixpoint strip_arrays (type : Ty) : Ty :=
  match type with
  | mkTy TypeKind.Array _ [element] => strip_arrays element
  | type => type
  end.

Fixpoint collect_some {A B} (f : A → option (option B)) (l : list A) : option (list B) :=
  match l with
  | [] => Some []
  | a :: l =>
      b ← f a;
      rest ← collect_some f l;
      Some (match b with Some b => b :: rest | None => rest end)
  end.

Definition is_result (declaration : nat) : bool :=
  match pr_enums program_ !! declaration with
  | Some enumeration => match ed_builtin enumeration with BuiltinResult => true | _ => false end
  | None => false
  end.
Definition field_span (declaration index : nat) : SourceSpan :=
  default emptySpan (d ← pr_structs program_ !! declaration; sf_span <$> sd_fields d !! index).
Definition variant_span (declaration index : nat) : SourceSpan :=
  default emptySpan (d ← pr_enums program_ !! declaration; ev_span <$> ed_variants d !! index).

(** The types a value of a type contains, with where they are written. *)
Definition layoutChildren (depth : nat) (type : Ty) : option (list (Ty * SourceSpan)) :=
  let declaration := ty_declaration type in
  if bool_decide (ty_kind type = TypeKind.Struct) && bool_decide (declaration < length (sem_structs model_)) then
    collect_some (λ p : nat * Ty,
      child ← substitute depth p.2 (ty_arguments type);
      Some (Some (strip_arrays child, field_span declaration p.1)))
      (imap pair (default [] (ss_fieldTypes <$> sem_structs model_ !! declaration)))
  else if bool_decide (ty_kind type = TypeKind.Enum) && bool_decide (declaration < length (sem_enums model_)) then
    collect_some (λ p : nat * option Ty,
      match p.2 with
      | None => Some None
      | Some payload =>
          child ← substitute depth payload (ty_arguments type);
          Some (if bool_decide (child = voidType) && is_result declaration then None
                else Some (strip_arrays child, variant_span declaration p.1))
      end) (imap pair (default [] (se_payloadTypes <$> sem_enums model_ !! declaration)))
  else Some [].

(** ** Cleanup *)

(** [methods_[declaration].contains("drop")], which [declareFunctions] fills in. *)
Context (drop_method : nat → bool).

(** The kinds whose values are always cleaned up. *)
Definition drops_itself (type : Ty) : bool :=
  kind_in [TypeKind.String; TypeKind.Own; TypeKind.Task; TypeKind.Channel; TypeKind.Sender; TypeKind.Receiver] type ||
  bool_decide (ty_kind type = TypeKind.Function) && negb (isCFunction type) ||
  bool_decide (ty_kind type = TypeKind.TypeParameter).

Fixpoint requires_drop (depth : nat) (active : gset bytes) (type : Ty) : option bool :=
  match depth with
  | O => None
  | S depth =>
      let part active arguments field :=
        t ← substitute depth field arguments; requires_drop depth active t in
      if drops_itself type then Some true
      else match single [TypeKind.Array] type with
           | Some element => requires_drop depth active element
           | None =>
               if negb (kind_in [TypeKind.Struct; TypeKind.Enum] type) then Some false
               else if bool_decide (semanticTypeKey type ∈ active) then Some false
               else
                 let active := {[semanticTypeKey type]} ∪ active in
                 if bool_decide (ty_kind type = TypeKind.Struct) then
                   match sem_structs model_ !! ty_declaration type with
                   | None => Some false
                   | Some structure =>
                       if drop_method (ty_declaration type) then Some true
                       else any_of (part active (ty_arguments type)) (ss_fieldTypes structure)
                   end
                 else
                   match sem_enums model_ !! ty_declaration type with
                   | None => Some false
                   | Some enumeration =>
                       any_of (part active (ty_arguments type)) (omap id (se_payloadTypes enumeration))
                   end
           end
  end.
Definition requiresDrop (depth : nat) (type : Ty) : option bool := requires_drop depth ∅ type.
End model.
