(* ===== verification/SemaDeclare.v ===== *)
(** * Declarations in semantic analysis (compiler/src/sema.cpp)

    The first phases of [Analyzer::run]: the names of types, the types written in the
    declarations of contracts, structs and enums, and the methods contracts inherit. *)
From S2P Require Import Prelude Diagnostics Ast Types SemaTypes SemaModel.

(** The members of [Analyzer] these phases change. *)
Record Analyzer := mkAnalyzer {
  an_diagnostics : Diagnostics;
  an_model : SemanticModel;
  structs_ : gmap bytes nat;
  enums_ : gmap bytes nat;
  contracts_ : gmap bytes nat;
  attributes_ : gmap bytes nat;
  typeParameters_ : gmap bytes nat;
  currentTypeParameterNames_ : list bytes;
}.

(** The state monad; [None] is a recursion along types that nests deeper than allowed. *)
Definition A (X : Type) : Type := Analyzer → option (X * Analyzer).
#[global] Instance A_ret : MRet A := λ X x st, Some (x, st).
#[global] Instance A_bind : MBind A := λ X Y k m st,
  match m st with Some (x, st) => k x st | None => None end.

Definition get : A Analyzer := λ st, Some (st, st).
(** The answer of a function that changes nothing. *)
Definition ask {X} (f : Analyzer → option X) : A X :=
  λ st, match f st with Some x => Some (x, st) | None => None end.
Definition report (code message : bytes) (span : SourceSpan) : A () := λ st,
  Some ((), mkAnalyzer (error (an_diagnostics st) code message span) (an_model st) (structs_ st) (enums_ st)
              (contracts_ st) (attributes_ st) (typeParameters_ st) (currentTypeParameterNames_ st)).
Definition set_model (f : SemanticModel → SemanticModel) : A () := λ st,
  Some ((), mkAnalyzer (an_diagnostics st) (f (an_model st)) (structs_ st) (enums_ st)
              (contracts_ st) (attributes_ st) (typeParameters_ st) (currentTypeParameterNames_ st)).
Definition set_names (structs enums contracts attributes : gmap bytes nat → gmap bytes nat) : A () := λ st,
  Some ((), mkAnalyzer (an_diagnostics st) (an_model st) (structs (structs_ st)) (enums (enums_ st))
              (contracts (contracts_ st)) (attributes (attributes_ st)) (typeParameters_ st)
              (currentTypeParameterNames_ st)).
Definition set_parameters (parameters : gmap bytes nat → gmap bytes nat) (names : list bytes) : A () := λ st,
  Some ((), mkAnalyzer (an_diagnostics st) (an_model st) (structs_ st) (enums_ st)
              (contracts_ st) (attributes_ st) (parameters (typeParameters_ st)) names).

Definition map_structs (f : list SemanticStruct → list SemanticStruct) (m : SemanticModel) : SemanticModel :=
  mkSemanticModel (f (sem_structs m)) (sem_enums m) (sem_contracts m).
Definition map_enums (f : list SemanticEnum → list SemanticEnum) (m : SemanticModel) : SemanticModel :=
  mkSemanticModel (sem_structs m) (f (sem_enums m)) (sem_contracts m).
Definition map_contracts (f : list SemanticContract → list SemanticContract) (m : SemanticModel) : SemanticModel :=
  mkSemanticModel (sem_structs m) (sem_enums m) (f (sem_contracts m)).

Fixpoint for_each {X} (body : X → A ()) (l : list X) : A () :=
  match l with [] => mret () | x :: l => body x;; for_each body l end.
(** With the index of each element. *)
Definition for_indexed {X} (body : nat → X → A ()) (l : list X) : A () :=
  for_each (λ p : nat * X, body p.1 p.2) (imap pair l).
Definition report_if (condition : bool) (code message : bytes) (span : SourceSpan) : A () :=
  if condition then report code message span else mret ().

Definition builtin_types : list bytes := map lit
  ["void"; "never"; "i8"; "i16"; "i32"; "i64"; "u8"; "u16"; "u32"; "u64"; "isize"; "usize"; "f32"; "f64"; "bool";
   "String"; "Option"; "Result"; "ChannelError"; "NumberError"; "Task"; "Channel"; "Sender"; "Receiver"; "own";
   "view"; "edit"]%string.
Definition isBuiltinType (name : bytes) : bool := bool_decide (name ∈ builtin_types).

Definition known {V} (names : gmap bytes V) (name : bytes) : bool := bool_decide (is_Some (names !! name)).
(** [emplace]: an entry that is there stays. *)
Definition emplace {V} (name : bytes) (v : V) (names : gmap bytes V) : gmap bytes V :=
  match names !! name with Some _ => names | None => <[name := v]> names end.

Section declare.
Context (program_ : Program).

(** ** The names of types *)

Definition declareStructs : A () :=
  for_indexed (λ index declaration,
    st ← get;
    if isBuiltinType (sd_name declaration) || known (structs_ st) (sd_name declaration)
    then report (lit "FDN2020") (lit "duplicate type " ++ sd_name declaration) (sd_span declaration)
    else set_names <[sd_name declaration := index]> id id id) (pr_structs program_).

Definition declareEnums : A () :=
  for_indexed (λ index declaration,
    st ← get;
    (if match ed_builtin declaration with BuiltinNone => isBuiltinType (ed_name declaration) | _ => false end ||
        known (structs_ st) (ed_name declaration) || known (enums_ st) (ed_name declaration)
     then report (lit "FDN2020") (lit "duplicate type " ++ ed_name declaration) (ed_span declaration)
     else set_names id <[ed_name declaration := index]> id id);;
    report_if (bool_decide (ed_variants declaration = [])) (lit "FDN2031")
      (lit "enum must declare at least one variant") (ed_span declaration)) (pr_enums program_).

Definition declareContracts : A () :=
  for_indexed (λ index declaration,
    st ← get;
    (if isBuiltinType (cd_name declaration) || known (structs_ st) (cd_name declaration) ||
        known (enums_ st) (cd_name declaration) || known (contracts_ st) (cd_name declaration)
     then report (lit "FDN2020") (lit "duplicate type " ++ cd_name declaration) (cd_span declaration)
     else set_names id id <[cd_name declaration := index]> id);;
    report_if (bool_decide (cd_methods declaration = []) && bool_decide (cd_parents declaration = [])) (lit "FDN2090")
      (lit "contract must declare at least one method") (cd_span declaration)) (pr_contracts program_).

Definition source_name (name : bytes) : bytes :=
  match rfind_byte "."%char name with None => name | Some separator => drop (separator + 1) name end.
Definition declareAttributes : A () :=
  for_indexed (λ index declaration,
    let sourceName := source_name (ad_name declaration) in
    report_if (bool_decide (sourceName = lit "target") || bool_decide (sourceName = lit "blocking") ||
               bool_decide (sourceName = lit "callback")) (lit "FDN2150")
      (sourceName ++ lit " is reserved for the compiler") (ad_span declaration);;
    st ← get;
    if known (attributes_ st) (ad_name declaration)
    then report (lit "FDN2150") (lit "duplicate attribute " ++ ad_name declaration) (ad_span declaration)
    else set_names id id id <[ad_name declaration := index]>) (pr_attributeDeclarations program_).

Definition setTypeParameters (parameters : list bytes) (span : SourceSpan) : A () :=
  set_parameters (λ _, ∅) parameters;;
  for_indexed (λ index name,
    st ← get;
    if bool_decide (name = lit "transferable") || isBuiltinType name || known (structs_ st) name ||
       known (enums_ st) name || known (contracts_ st) name || known (typeParameters_ st) name
    then report (lit "FDN2042") (lit "duplicate or shadowing type parameter " ++ name) span
    else set_parameters <[name := index]> parameters) parameters.

(** ** [resolveType] *)
Section resolve.
(** How deep the calls along types may nest. *)
Context (depth : nat).

Definition is_copy (type : Ty) : A bool := ask (λ st, isCopyParameterType program_ (an_model st) depth type).
Definition is_c_record (type : Ty) : A bool := ask (λ st, isCRecordType program_ (an_model st) depth type).
Definition substituted (type : Ty) (arguments : list Ty) : A Ty :=
  ask (λ st, substitute program_ (an_model st) depth type arguments).

Definition void_or_never (type : Ty) : bool := bool_decide (type = voidType) || bool_decide (type = neverType).

(** The names that stand for one type or one constructor of types. *)
Definition intrinsic (name : bytes) (arrayLength : N) : option Ty :=
  if bool_decide (name = lit "void") then Some voidType
  else if bool_decide (name = lit "never") then Some neverType
  else match machineScalarType name with
  | Some type => Some type
  | None =>
      if bool_decide (name = lit "bool") then Some boolType
      else if bool_decide (name = lit "String") then Some stringType
      else if bool_decide (name = lit "[raw]") then Some (scalar TypeKind.Raw)
      else if bool_decide (name = lit "[raw-const]") then Some (scalar TypeKind.RawConst)
      else if bool_decide (name = lit "[array]") then Some (mkTy TypeKind.Array (N.to_nat arrayLength) [])
      else if bool_decide (name = lit "[slice]") then Some (scalar TypeKind.Slice)
      else if bool_decide (name = lit "own") then Some (scalar TypeKind.Own)
      else if bool_decide (name = lit "view") then Some (scalar TypeKind.View)
      else if bool_decide (name = lit "edit") then Some (scalar TypeKind.Edit)
      else if bool_decide (name = lit "[function]") then Some (scalar TypeKind.Function)
      else if bool_decide (name = lit "[transferable-function]")
        then Some (mkTy TypeKind.Function transferableFunctionQualifier [])
      else if bool_decide (name = lit "[c-function]") then Some (mkTy TypeKind.Function cFunctionQualifier [])
      else if bool_decide (name = lit "Task") then Some (scalar TypeKind.Task)
      else if bool_decide (name = lit "Channel") then Some (scalar TypeKind.Channel)
      else if bool_decide (name = lit "Sender") then Some (scalar TypeKind.Sender)
      else if bool_decide (name = lit "Receiver") then Some (scalar TypeKind.Receiver)
      else None
  end.

Definition base_type (st : Analyzer) (name : bytes) (arrayLength : N) : option Ty :=
  match intrinsic name arrayLength with
  | Some type => Some type
  | None =>
      match typeParameters_ st !! name, structs_ st !! name, enums_ st !! name, contracts_ st !! name with
      | Some index, _, _, _ => Some (mkTy TypeKind.TypeParameter index [])
      | None, Some index, _, _ => Some (mkTy TypeKind.Struct index [])
      | None, None, Some index, _ => Some (mkTy TypeKind.Enum index [])
      | None, None, None, Some index => Some (mkTy TypeKind.Contract index [])
      | None, None, None, None => None
      end
  end.

(** The arguments a base type takes; a function type takes those it has. *)
Definition expected_arguments (base : Ty) (arguments : list Ty) : nat :=
  match ty_kind base with
  | TypeKind.Struct =>
      match pr_structs program_ !! ty_declaration base with Some d => length (sd_typeParameters d) | None => 0 end
  | TypeKind.Enum =>
      match pr_enums program_ !! ty_declaration base with Some d => length (ed_typeParameters d) | None => 0 end
  | TypeKind.Contract =>
      match pr_contracts program_ !! ty_declaration base with Some d => length (cd_typeParameters d) | None => 0 end
  | TypeKind.Function => length arguments
  | TypeKind.Own | TypeKind.View | TypeKind.Edit | TypeKind.Array | TypeKind.Slice | TypeKind.Raw
  | TypeKind.RawConst | TypeKind.Task | TypeKind.Channel | TypeKind.Sender | TypeKind.Receiver => 1
  | _ => 0
  end.

Definition check_c_parameter (span : SourceSpan) (parameter : Ty) : A () :=
  let unsupported := report (lit "FDN2215") (lit "C function pointer has an unsupported parameter type") span in
  if negb (isCParameterType parameter [] []) then unsupported
  else match single [TypeKind.View; TypeKind.Edit] parameter with
       | Some target =>
           if bool_decide (ty_kind target = TypeKind.Struct) then
             record ← is_c_record target;
             if record : bool then mret () else unsupported
           else mret ()
       | None => mret ()
       end.

Definition check_function_type (base : Ty) (arguments : list Ty) (span : SourceSpan) : A () :=
  report_if (bool_decide (arguments = [])) (lit "FDN2126") (lit "function type requires a return type") span;;
  for_each (λ argument,
    report_if (void_or_never argument) (lit "FDN2016") (lit "function parameter cannot have type void or never") span)
    (tail arguments);;
  match arguments with
  | result :: parameters =>
      if isCFunction base then
        report_if (negb (isCReturnType result)) (lit "FDN2215") (lit "C function pointer has an unsupported result type")
          span;;
        for_each (check_c_parameter span) parameters
      else mret ()
  | [] => mret ()
  end.

(** The checks on the first argument of a constructor of types. *)
Definition check_target (base target : Ty) (name : bytes) (span : SourceSpan) : A () :=
  match ty_kind base with
  | TypeKind.Own | TypeKind.View | TypeKind.Edit =>
      report_if (void_or_never target || kind_in [TypeKind.View; TypeKind.Edit; TypeKind.Own] target) (lit "FDN2064")
        (name ++ lit " requires a direct non-void value type") span;;
      report_if (bool_decide (ty_kind base = TypeKind.Own) && bool_decide (ty_kind target = TypeKind.Slice))
        (lit "FDN2080") (lit "slice cannot be owned directly") span
  | TypeKind.Array | TypeKind.Slice =>
      report_if (void_or_never target) (lit "FDN2047") (lit "array or slice element cannot be void or never") span
  | TypeKind.Raw | TypeKind.RawConst =>
      if bool_decide (target = voidType) ||
         isMachineScalar target && negb (bool_decide (target = neverType)) then mret ()
      else
        record ← is_c_record target;
        report_if (negb (record || raw_pointer target)) (lit "FDN2214")
          (lit "raw pointer pointee must be a C ABI scalar or pointer") span
  | TypeKind.Task =>
      report_if (containsBorrow target) (lit "FDN2165") (lit "Task result cannot contain a borrow") span
  | TypeKind.Channel | TypeKind.Sender | TypeKind.Receiver =>
      report_if (containsBorrow target) (lit "FDN2165") (lit "channel payload cannot contain a borrow") span
  | _ => mret ()
  end.

(** A parameter of a function type, by the marker the parser put around it. *)
Definition function_parameter (name : bytes) (target : Ty) (span : SourceSpan) : A Ty :=
  if void_or_never target then
    report (lit "FDN2016") (lit "function parameter cannot have type void or never") span;; mret invalidType
  else if bool_decide (name = lit "[function-read]") then
    copied ← is_copy target;
    mret (if copied : bool then target else mkTy TypeKind.View 1 [target])
  else if bool_decide (name = lit "[function-edit]") then mret (mkTy TypeKind.Edit 0 [target])
  else mret target.

Definition parameter_marker (name : bytes) : bool :=
  bool_decide (name = lit "[function-read]") || bool_decide (name = lit "[function-edit]") ||
  bool_decide (name = lit "[function-transfer]").

Fixpoint resolveType (syntax : TypeSyntax) : A Ty :=
  match syntax with
  | mkType name inner span arrayLength =>
      if parameter_marker name then
        match inner with
        | [parameter] => target ← resolveType parameter; function_parameter name target span
        | _ => report (lit "FDN2043") (lit "invalid function parameter mode") span;; mret invalidType
        end
      else
        st ← get;
        let base := base_type st name arrayLength in
        report_if (bool_decide (name = lit "[array]") && (2147483647 <? arrayLength)%N) (lit "FDN2080")
          (lit "array length exceeds the i32 index range") span;;
        arguments ← (fix all (l : list TypeSyntax) : A (list Ty) :=
                       match l with
                       | [] => mret []
                       | t :: l => t ← resolveType t; l ← all l; mret (t :: l)
                       end) inner;
        match base with
        | None => report (lit "FDN2002") (lit "unknown type " ++ name) span;; mret invalidType
        | Some base =>
            (if bool_decide (ty_kind base = TypeKind.Function) then check_function_type base arguments span
             else mret ());;
            report_if (negb (bool_decide (length arguments = expected_arguments base arguments))) (lit "FDN2043")
              (lit "wrong type argument count for " ++ name) span;;
            match arguments with
            | target :: _ => check_target base target name span
            | [] => mret ()
            end;;
            mret (mkTy (ty_kind base) (ty_declaration base) arguments)
        end
  end.

Definition resolveParameterType (parameter : Parameter_) : A Ty :=
  base ← resolveType (param_type parameter);
  if bool_decide (base = voidType) then mret base
  else match param_mode parameter with
       | ParameterMode.TypeEncoded | ParameterMode.Transfer => mret base
       | ParameterMode.Edit => mret (mkTy TypeKind.Edit 0 [base])
       | ParameterMode.Read =>
           copied ← is_copy base;
           mret (if copied : bool then base else mkTy TypeKind.View 0 [base])
       end.

(** ** Structs and enums *)

Definition check_stored (type : Ty) (void borrow : bytes * bytes) (span : SourceSpan) : A () :=
  report_if (void_or_never type) void.1 void.2 span;;
  report_if (containsBorrow type) borrow.1 borrow.2 span;;
  report_if (containsBareSlice type) (lit "FDN2080") (lit "slice type requires view or edit") span;;
  report_if (containsBareContract type true) (lit "FDN2099") (lit "contract value requires view, edit, or own") span.

Definition add_field (index : nat) (type : Ty) : A () :=
  set_model (map_structs (alter (λ s,
    mkSemanticStruct (ss_typeParameterCount s) (ss_fieldTypes s ++ [type]) (ss_implementations s)
      (ss_implementationDelegates s)) index)).
Definition add_implementation (index : nat) (type : Ty) (delegate : option nat) : A () :=
  set_model (map_structs (alter (λ s,
    mkSemanticStruct (ss_typeParameterCount s) (ss_fieldTypes s) (ss_implementations s ++ [type])
      (ss_implementationDelegates s ++ [delegate])) index)).
Definition add_payload (index : nat) (type : option Ty) : A () :=
  set_model (map_enums (alter (λ e, mkSemanticEnum (se_typeParameterCount e) (se_payloadTypes e ++ [type])) index)).

(** A set or map that is local to a loop over declarations. *)
Fixpoint for_fold {X S} (body : S → X → A S) (s : S) (l : list X) : A S :=
  match l with [] => mret s | x :: l => s ← body s x; for_fold body s l end.

Definition resolve_field (struct_ : nat) (fields : gmap bytes nat) (p : nat * StructField) : A (gmap bytes nat) :=
  let '(index, source) := p in
  report_if (known fields (sf_name source)) (lit "FDN2021") (lit "duplicate field " ++ sf_name source) (sf_span source);;
  type ← resolveType (sf_type source);
  check_stored type (lit "FDN2022", lit "struct field cannot have type void or never")
    (lit "FDN2062", lit "borrow cannot be stored in a struct field") (sf_span source);;
  add_field struct_ type;;
  mret (emplace (sf_name source) index fields).

Definition resolve_implementation (struct_ : nat) (fields : gmap bytes nat) (implementations : gset nat)
    (implementation : StructImplementation) : A (gset nat) :=
  type ← resolveType (si_contract implementation);
  delegate ← match si_delegate implementation with
             | None => mret None
             | Some name =>
                 match fields !! name with
                 | Some field => mret (Some field)
                 | None =>
                     report (lit "FDN2146") (lit "unknown delegation field " ++ name) (si_span implementation);;
                     mret None
                 end
             end;
  add_implementation struct_ type delegate;;
  if negb (bool_decide (ty_kind type = TypeKind.Contract)) then
    report (lit "FDN2092") (lit "implements requires a contract") (ts_span (si_contract implementation));;
    mret implementations
  else if bool_decide (ty_declaration type ∈ implementations) then
    report (lit "FDN2093") (lit "duplicate contract implementation") (ts_span (si_contract implementation));;
    mret implementations
  else mret ({[ty_declaration type]} ∪ implementations).

Definition resolve_struct (index : nat) (declaration : StructDeclaration) : A () :=
  setTypeParameters (sd_typeParameters declaration) (sd_span declaration);;
  set_model (map_structs (alter (λ s,
    mkSemanticStruct (length (sd_typeParameters declaration)) (ss_fieldTypes s) (ss_implementations s)
      (ss_implementationDelegates s)) index));;
  fields ← for_fold (resolve_field index) ∅ (imap pair (sd_fields declaration));
  _ ← for_fold (resolve_implementation index fields) ∅ (sd_implementations declaration);
  mret ().
Definition resolveStructs : A () := for_indexed resolve_struct (pr_structs program_).

Definition resolve_variant (enum_ : nat) (variants : gset bytes) (source : EnumVariant) : A (gset bytes) :=
  report_if (bool_decide (ev_name source ∈ variants)) (lit "FDN2032") (lit "duplicate variant " ++ ev_name source)
    (ev_span source);;
  match ev_payloadType source with
  | None => add_payload enum_ None
  | Some payload =>
      type ← resolveType payload;
      check_stored type (lit "FDN2033", lit "enum payload cannot have type void or never")
        (lit "FDN2062", lit "borrow cannot be stored in an enum payload") (ev_span source);;
      add_payload enum_ (Some type)
  end;;
  mret ({[ev_name source]} ∪ variants).
Definition resolve_enum (index : nat) (declaration : EnumDeclaration) : A () :=
  setTypeParameters (ed_typeParameters declaration) (ed_span declaration);;
  set_model (map_enums (alter (λ e, mkSemanticEnum (length (ed_typeParameters declaration)) (se_payloadTypes e)) index));;
  _ ← for_fold (resolve_variant index) ∅ (ed_variants declaration);
  mret ().
Definition resolveEnums : A () := for_indexed resolve_enum (pr_enums program_).

(** ** Contracts *)

Definition add_parent (index : nat) (type : Ty) : A () :=
  set_model (map_contracts (alter (λ c,
    mkSemanticContract (sc_typeParameterCount c) (sc_parents c ++ [type]) (sc_methods c)) index)).
Definition set_methods (index : nat) (f : list SemanticContractMethod → list SemanticContractMethod) : A () :=
  set_model (map_contracts (alter (λ c,
    mkSemanticContract (sc_typeParameterCount c) (sc_parents c) (f (sc_methods c))) index)).

Definition resolve_parent (index : nat) (parents : gset bytes) (parent : TypeSyntax) : A (gset bytes) :=
  type ← resolveType parent;
  add_parent index type;;
  if negb (bool_decide (ty_kind type = TypeKind.Contract)) then
    report (lit "FDN2140") (lit "extends requires a contract") (ts_span parent);; mret parents
  else
    report_if (bool_decide (semanticTypeKey type ∈ parents)) (lit "FDN2141") (lit "duplicate parent contract")
      (ts_span parent);;
    mret ({[semanticTypeKey type]} ∪ parents).

Definition resolve_method_parameter (types : list Ty) (parameter : Parameter_) : A (list Ty) :=
  type ← resolveParameterType parameter;
  let span := param_span parameter in
  report_if (void_or_never type) (lit "FDN2016") (lit "parameter cannot have type void or never") span;;
  report_if (containsBareSlice type) (lit "FDN2080") (lit "slice parameter requires view or edit") span;;
  report_if (containsNestedBorrow type true) (lit "FDN2064") (lit "parameter contains a nested borrow") span;;
  report_if (containsBareContract type true) (lit "FDN2099") (lit "contract value requires view, edit, or own") span;;
  mret (types ++ [type]).

(** [Type{TypeKind::Parameter, 0}], ... *)
Definition own_parameters (count : nat) : list Ty := map (λ index, mkTy TypeKind.TypeParameter index []) (seq 0 count).

Definition resolve_method (index parameterCount : nat) (methods : gset bytes) (method : ContractMethod)
    : A (gset bytes) :=
  report_if (bool_decide (cm_name method ∈ methods)) (lit "FDN2091")
    (lit "duplicate contract method " ++ cm_name method) (cm_span method);;
  report_if (bool_decide (cm_name method = lit "drop")) (lit "FDN2138")
    (lit "drop is reserved for deterministic cleanup") (cm_span method);;
  report_if (bool_decide (cm_receiver method = ReceiverKind.Own) && bool_decide (is_Some (cm_defaultFunction method)))
    (lit "FDN2148") (lit "own contract method cannot have a default") (cm_span method);;
  returnType ← resolveType (cm_returnType method);
  report_if (containsBorrow returnType || containsBareSlice returnType || containsBareContract returnType true)
    (lit "FDN2063") (lit "borrow cannot be returned from a method") (ts_span (cm_returnType method));;
  types ← for_fold resolve_method_parameter [] (cm_parameters method);
  set_methods index (λ methods, methods ++
    [mkSemanticMethod (cm_name method) (cm_receiver method) returnType types (map param_name (cm_parameters method))
       (map param_mode (cm_parameters method)) (cm_exported method) (cm_span method) index
       (own_parameters parameterCount) (cm_defaultFunction method)]);;
  mret ({[cm_name method]} ∪ methods).

Definition resolve_contract (index : nat) (declaration : ContractDeclaration) : A () :=
  setTypeParameters (cd_typeParameters declaration) (cd_span declaration);;
  let count := length (cd_typeParameters declaration) in
  set_model (map_contracts (alter (λ c, mkSemanticContract count (sc_parents c) (sc_methods c)) index));;
  _ ← for_fold (resolve_parent index) ∅ (cd_parents declaration);
  _ ← for_fold (resolve_method index count) ∅ (cd_methods declaration);
  mret ().

(** *** Inherited methods *)

Definition sameContractSignature (left_ right_ : SemanticContractMethod) : bool :=
  bool_decide (sm_receiver left_ = sm_receiver right_) && bool_decide (sm_returnType left_ = sm_returnType right_) &&
  bool_decide (sm_parameterTypes left_ = sm_parameterTypes right_) &&
  bool_decide (sm_parameterModes left_ = sm_parameterModes right_).

(** The methods so far, and the ambiguous defaults with where they are inherited. *)
Definition Merged : Type := (list SemanticContractMethod * gmap bytes SourceSpan)%type.

Definition find_method (methods : list SemanticContractMethod) (name : bytes)
    : option (nat * SemanticContractMethod) :=
  list_find (λ current, sm_name current = name) methods.

Definition mergeContractMethod (merged : Merged) (method : SemanticContractMethod) (span : SourceSpan)
    (overriding : bool) : A Merged :=
  let '(methods, ambiguousDefaults) := merged in
  match find_method methods (sm_name method) with
  | None => mret (methods ++ [method], ambiguousDefaults)
  | Some (index, found) =>
      if negb (sameContractSignature found method) then
        report (lit "FDN2143") (lit "conflicting inherited method " ++ sm_name method) span;; mret merged
      else if overriding then
        mret (<[index := method]> methods, delete (sm_name method) ambiguousDefaults)
      else match sm_defaultFunction found, sm_defaultFunction method with
           | Some a, Some b =>
               mret (methods, if bool_decide (a = b) then ambiguousDefaults
                              else emplace (sm_name method) span ambiguousDefaults)
           | None, Some _ => mret (<[index := method]> methods, ambiguousDefaults)
           | _, None => mret merged
           end
  end.

Definition semantic_contract (index : nat) : A SemanticContract := ask (λ st, sem_contracts (an_model st) !! index).

Definition substitute_all (types arguments : list Ty) : A (list Ty) :=
  for_fold (λ done type, t ← substituted type arguments; mret (done ++ [t])) [] types.

(** A method of a parent, for the arguments the parent is extended with. *)
Definition inherit_method (arguments : list Ty) (source : SemanticContractMethod) : A SemanticContractMethod :=
  returnType ← substituted (sm_returnType source) arguments;
  parameterTypes ← substitute_all (sm_parameterTypes source) arguments;
  originArguments ← substitute_all (sm_originArguments source) arguments;
  mret (mkSemanticMethod (sm_name source) (sm_receiver source) returnType parameterTypes (sm_parameterNames source)
          (sm_parameterModes source) (sm_exported source) (sm_span source) (sm_originContract source)
          originArguments (sm_defaultFunction source)).

(** Into the methods of a contract, which are read where they are. *)
Definition merge_into (index : nat) (ambiguousDefaults : gmap bytes SourceSpan) (method : SemanticContractMethod)
    (span : SourceSpan) (overriding : bool) : A (gmap bytes SourceSpan) :=
  semantic ← semantic_contract index;
  merged ← mergeContractMethod (sc_methods semantic, ambiguousDefaults) method span overriding;
  set_methods index (λ _, merged.1);;
  mret merged.2.

(** The order in which an [unordered_map] is read. *)
Context (unordered : gmap bytes SourceSpan → list (bytes * SourceSpan)).

Inductive FlattenState := NotFlattened | Flattening | Flattened.

Definition contract_span (index : nat) : SourceSpan :=
  match pr_contracts program_ !! index with Some d => cd_span d | None => emptySpan end.
Definition parent_span (index parent : nat) : SourceSpan :=
  default emptySpan (d ← pr_contracts program_ !! index; ts_span <$> cd_parents d !! parent).

Definition inherit_from (index : nat) (self : nat → list FlattenState → A (list FlattenState))
    (acc : list FlattenState * gmap bytes SourceSpan) (p : nat * Ty)
    : A (list FlattenState * gmap bytes SourceSpan) :=
  let '(states, ambiguousDefaults) := acc in
  let '(parentIndex, parent) := p in
  if negb (bool_decide (ty_kind parent = TypeKind.Contract)) ||
     bool_decide (length (pr_contracts program_) ≤ ty_declaration parent) then mret acc
  else
    states ← self (ty_declaration parent) states;
    source ← semantic_contract (ty_declaration parent);
    ambiguousDefaults ← for_fold (λ ambiguousDefaults method,
      method ← inherit_method (ty_arguments parent) method;
      merge_into index ambiguousDefaults method (parent_span index parentIndex) false) ambiguousDefaults
      (sc_methods source);
    mret (states, ambiguousDefaults).

(** A call for a contract that is being flattened ends the recursion. *)
Fixpoint flattenContract (fuel : nat) (index : nat) (states : list FlattenState) : A (list FlattenState) :=
  match fuel with
  | O => λ _, None
  | S fuel =>
      match states !! index with
      | None | Some Flattened => mret states
      | Some Flattening => report (lit "FDN2142") (lit "contract inheritance cycle") (contract_span index);; mret states
      | Some NotFlattened =>
          let states := <[index := Flattening]> states in
          semantic ← semantic_contract index;
          set_methods index (λ _, []);;
          acc ← for_fold (inherit_from index (flattenContract fuel)) (states, ∅) (imap pair (sc_parents semantic));
          let '(states, ambiguousDefaults) := acc in
          ambiguousDefaults ← for_fold (λ ambiguousDefaults method,
            merge_into index ambiguousDefaults method (sm_span method) true) ambiguousDefaults (sc_methods semantic);
          for_each (λ p : bytes * SourceSpan,
            report (lit "FDN2144") (lit "ambiguous inherited default " ++ p.1) p.2) (unordered ambiguousDefaults);;
          mret (<[index := Flattened]> states)
      end
  end.

Definition resolveContracts : A () :=
  for_indexed resolve_contract (pr_contracts program_);;
  let count := length (pr_contracts program_) in
  _ ← for_fold (λ states index, flattenContract (S count) index states) (replicate count NotFlattened) (seq 0 count);
  mret ().

(** ** The phases up to [rejectTypeCycles] *)

Definition declarations : A () :=
  declareStructs;; declareEnums;; declareContracts;; declareAttributes;;
  resolveContracts;; resolveStructs;; resolveEnums.
End resolve.
End declare.

(** The constructor: one entry per declaration. *)
Definition analyzer_start (program_ : Program) (diagnostics : Diagnostics) : Analyzer :=
  mkAnalyzer diagnostics
    (mkSemanticModel (replicate (length (pr_structs program_)) (mkSemanticStruct 0 [] [] []))
       (replicate (length (pr_enums program_)) (mkSemanticEnum 0 []))
       (replicate (length (pr_contracts program_)) (mkSemanticContract 0 [] [])))
    ∅ ∅ ∅ ∅ ∅ [].
