(* ===== verification/TypeCycles.v ===== *)
(** * Recursive value types (compiler/src/sema.cpp, [rejectTypeCycles])

    The traversal that follows every declared type into the types its values contain, and
    refuses a type that contains itself. *)
From S2P Require Import Prelude Diagnostics Ast Types SemaTypes SemaModel SemaDeclare.

(** A type on the path, with the children the traversal has not looked at. *)
Record Frame := mkFrame {
  fr_type : Ty;
  fr_node : nat;
  fr_key : bytes;
  fr_children : list (Ty * SourceSpan);
}.

Section cycles.
Context (program_ : Program) (model_ : SemanticModel).
(** How deep calls along types may nest, see SemaModel.v. *)
Context (depth : nat).

Definition structCount : nat := length (pr_structs program_).
Definition typeCount : nat := structCount + length (pr_enums program_).
Definition nominal (type : Ty) : bool := kind_in [TypeKind.Struct; TypeKind.Enum] type.
Definition type_node (type : Ty) : nat :=
  if bool_decide (ty_kind type = TypeKind.Struct) then ty_declaration type else structCount + ty_declaration type.

(** The declared types, applied to their own parameters. *)
Definition roots : list Ty :=
  imap (λ id d, mkTy TypeKind.Struct id (own_parameters (length (sd_typeParameters d)))) (pr_structs program_) ++
  imap (λ id d, mkTy TypeKind.Enum id (own_parameters (length (ed_typeParameters d)))) (pr_enums program_).

Definition enter (type : Ty) : option Frame :=
  children ← layoutChildren program_ model_ depth type;
  Some (mkFrame type (type_node type) (semanticTypeKey type) children).

(** The path, the types on it by declaration, and the keys of the types that are done. *)
Record Traversal := mkTraversal {
  tv_stack : list Frame;
  tv_active : list (list Ty);
  tv_validated : gset bytes;
}.

Definition push_type (type : Ty) (st : Traversal) : option Traversal :=
  frame ← enter type;
  Some (mkTraversal (frame :: tv_stack st) (alter (λ l, l ++ [type]) (type_node type) (tv_active st)) (tv_validated st)).

Inductive Turn :=
  | Continue (st : Traversal)
  | Recursive (span : SourceSpan)
  | Done (validated : gset bytes).

(** One turn of the loop. *)
Definition cycle_turn (st : Traversal) : option Turn :=
  match tv_stack st with
  | [] => Some (Done (tv_validated st))
  | frame :: below =>
      match fr_children frame with
      | [] =>
          Some (Continue (mkTraversal below
            (alter (λ l, take (length l - 1) l) (fr_node frame) (tv_active st)) ({[fr_key frame]} ∪ tv_validated st)))
      | (child, span) :: children =>
          let st := mkTraversal (mkFrame (fr_type frame) (fr_node frame) (fr_key frame) children :: below)
                      (tv_active st) (tv_validated st) in
          if negb (nominal child) then Some (Continue st)
          else match tv_active st !! type_node child with
               | None => Some (Continue st)
               | Some active =>
                   if match last active with Some type => isInfiniteTypeRecurrence type child | None => false end
                   then Some (Recursive span)
                   else if bool_decide (semanticTypeKey child ∈ tv_validated st) then Some (Continue st)
                   else Continue <$> push_type child st
               end
      end
  end.

(** Where the type was found to contain itself, or the keys of the types that do not. *)
Fixpoint cycle_loop (turns : nat) (st : Traversal) : option (SourceSpan + gset bytes) :=
  match turns with
  | O => None
  | S turns =>
      turn ← cycle_turn st;
      match turn with
      | Continue st => cycle_loop turns st
      | Recursive span => Some (inl span)
      | Done validated => Some (inr validated)
      end
  end.

Definition check_root (turns : nat) (validated : gset bytes) (root : Ty) : option (SourceSpan + gset bytes) :=
  if bool_decide (semanticTypeKey root ∈ validated) then Some (inr validated)
  else
    st ← push_type root (mkTraversal [] (replicate typeCount []) validated);
    cycle_loop turns st.

Fixpoint check_roots (turns : nat) (validated : gset bytes) (roots : list Ty) : option (option SourceSpan) :=
  match roots with
  | [] => Some None
  | root :: roots =>
      result ← check_root turns validated root;
      match result with
      | inl span => Some (Some span)
      | inr validated => check_roots turns validated roots
      end
  end.

(** The span of the type that is refused, if there is one, when a loop takes at most
    [turns] turns. *)
Definition type_cycle (turns : nat) : option (option SourceSpan) := check_roots turns ∅ roots.
End cycles.

Definition rejectTypeCycles (program_ : Program) (depth turns : nat) : A () := λ st,
  match type_cycle program_ (an_model st) depth turns with
  | Some (Some span) =>
      report (lit "FDN2023") (lit "recursive value type is not allowed") span st
  | Some None => Some ((), st)
  | None => None
  end.

(** The phases of [Analyzer::run] up to it, on a new [Analyzer]. *)
Definition analyze_declarations (program_ : Program) (unordered : gmap bytes SourceSpan → list (bytes * SourceSpan))
    (depth turns : nat) (diagnostics : Diagnostics) : option Analyzer :=
  snd <$> (declarations program_ depth unordered;; rejectTypeCycles program_ depth turns)
            (analyzer_start program_ diagnostics).
