(* ===== verification/SemaSource.v ===== *)
(** * Source texts whose declarations are resolved

    The program and the types of its declarations, for theorems about given programs. *)
From S2P Require Import Prelude Target Diagnostics Token Lexer Ast ParserState ParserProgram ProgramTheorems Types SemaTypes SemaModel SemaDeclare TypeCycles.

(** The phases before [rejectTypeCycles], when no call nests deeper than [depth]. *)
Definition declared (depth : nat) (source : list bytes) : option (Program * Analyzer) :=
  '(program, diagnostics) ← parse_source Linux (λ _, true) (join_with [newline] source) 0 [];
  '(_, analyzer) ← declarations program depth map_to_list (analyzer_start program diagnostics);
  Some (program, analyzer).
Definition declared_program (source : list bytes) : Program :=
  match declared 30 source with Some (program, _) => program | None => emptyProgram end.
Definition declared_model (source : list bytes) : SemanticModel :=
  match declared 30 source with Some (_, analyzer) => an_model analyzer | None => mkSemanticModel [] [] [] end.
(** That they end, and without a diagnostic. *)
Definition declares (source : list bytes) : Prop :=
  ∃ program analyzer, declared 30 source = Some (program, analyzer) ∧ an_diagnostics analyzer = [].

Lemma declares_check source :
  match declared 30 source with Some (_, analyzer) => bool_decide (an_diagnostics analyzer = []) | None => false end = true →
  declares source.
Proof.
  unfold declares. destruct (declared 30 source) as [[program analyzer]|]; [|done].
  intros H%bool_decide_eq_true. by exists program, analyzer.
Qed.
