(* ===== verification/TypeLayout.v ===== *)
(** * Types whose values are finite

    The relation between a type and the types its values contain, the types from which it
    is well-founded, and the functions of SemaModel.v that follow it: their answers do not
    depend on the depth, and cleanup is decided exactly. *)
From S2P Require Import Prelude Diagnostics Ast Types SemaTypes SemaModel.

(** ** Depths *)

Definition extends {X} (f g : X → option bool) : Prop := ∀ x b, f x = Some b → g x = Some b.

Lemma all_of_extends {X} (f g : X → option bool) l : extends f g → ∀ b, all_of f l = Some b → all_of g l = Some b.
Proof.
  intros H. induction l as [|x l IH]; intros b; cbn; [done|].
  destruct (f x) as [c|] eqn:E; [|done]. rewrite (H _ _ E). by destruct c; [apply IH|].
Qed.
Lemma any_of_extends {X} (f g : X → option bool) l : extends f g → ∀ b, any_of f l = Some b → any_of g l = Some b.
Proof.
  intros H. induction l as [|x l IH]; intros b; cbn; [done|].
  destruct (f x) as [c|] eqn:E; [|done]. rewrite (H _ _ E). by destruct c; [|apply IH].
Qed.

Lemma substitute_with_extends f g arguments t u :
  extends f g → substitute_with f arguments t = Some u → substitute_with g arguments t = Some u.
Proof.
  intros H. revert u. induction t as [kind declaration inner IH] using Ty_induction. intros u.
  assert (∀ l, (fix all (l : list Ty) : option (list Ty) := match l with
      | [] => Some [] | t :: l => t ← substitute_with f arguments t; l ← all l; Some (t :: l) end) inner = Some l →
    (fix all (l : list Ty) : option (list Ty) := match l with
      | [] => Some [] | t :: l => t ← substitute_with g arguments t; l ← all l; Some (t :: l) end) inner = Some l) as Hall.
  { induction IH as [|t inner Ht _ IHl]; intros l; [done|]. cbn.
    destruct (substitute_with f arguments t) as [t'|]; [|done]. rewrite (Ht _ eq_refl). cbn.
    destruct (_ inner) as [l'|]; [|done]. by rewrite (IHl _ eq_refl). }
  destruct kind; cbn [substitute_with]; try done;
    (destruct (_ inner) as [l|] eqn:E; [|done]); rewrite (Hall _ eq_refl); cbn [mbind option_bind]; try done.
  destruct declaration as [|[|]], l as [|target [|]]; try done.
  destruct (f target) as [c|] eqn:Ec; [|done]. by rewrite (H _ _ Ec).
Qed.

Section depth.
Context (program_ : Program) (model_ : SemanticModel) (drop_method : nat → bool).

Lemma copy_part_extends d d' active arguments :
  (∀ active, extends (copy_parameter program_ model_ d active) (copy_parameter program_ model_ d' active)) →
  extends (λ field, t ← substitute_with (copy_parameter program_ model_ d ∅) arguments field;
                    copy_parameter program_ model_ d active t)
          (λ field, t ← substitute_with (copy_parameter program_ model_ d' ∅) arguments field;
                    copy_parameter program_ model_ d' active t).
Proof.
  intros H field b. destruct (substitute_with _ _ _) as [t|] eqn:E; [|done].
  rewrite (substitute_with_extends _ _ _ _ _ (H ∅) E). apply H.
Qed.

Lemma copy_parameter_S d active : extends (copy_parameter program_ model_ d active) (copy_parameter program_ model_ (S d) active).
Proof.
  revert active. induction d as [|d IH]; intros active t b; [done|].
  pose proof (λ active arguments, copy_part_extends d (S d) active arguments IH) as Hp.
  cbn [copy_parameter] in *. destruct (scalar_value t); [done|]. destruct (kind_in _ t); [done|].
  destruct (isCFunction t); [done|]. destruct (single _ t) as [element|]; [apply IH|].
  destruct (negb _); [done|]. case_bool_decide; [done|].
  assert (∀ active e, all_of (λ field, t' ← substitute_with (copy_parameter program_ model_ d ∅) (ty_arguments t) field;
      copy_parameter program_ model_ d active t') e = Some b →
    all_of (λ field, t' ← substitute_with (copy_parameter program_ model_ (S d) ∅) (ty_arguments t) field;
      copy_parameter program_ model_ (S d) active t') e = Some b) as Hall.
  { intros a e. apply all_of_extends, Hp. }
  case_bool_decide.
  - destruct (sem_structs model_ !! _); [destruct (has_drop_function _ _); [done|apply Hall]|].
    destruct (sem_enums model_ !! _); [apply Hall|done].
  - destruct (sem_enums model_ !! _); [apply Hall|done].
Qed.

Lemma copy_parameter_le d d' active :
  d ≤ d' → extends (copy_parameter program_ model_ d active) (copy_parameter program_ model_ d' active).
Proof. induction 1 as [|d' _ IH]; [by intros t b|]. intros t b ?%IH. by apply copy_parameter_S. Qed.

Lemma substitute_le d d' t arguments u :
  d ≤ d' → substitute program_ model_ d t arguments = Some u → substitute program_ model_ d' t arguments = Some u.
Proof. intros. by eapply substitute_with_extends; [apply copy_parameter_le|]. Qed.

Lemma substitute_agree d d' t arguments u u' :
  substitute program_ model_ d t arguments = Some u → substitute program_ model_ d' t arguments = Some u' → u = u'.
Proof.
  intros H1 H2. apply (substitute_le d (d `max` d')) in H1; [|lia]. apply (substitute_le d' (d `max` d')) in H2; [|lia].
  congruence.
Qed.

Lemma requires_drop_S d active :
  extends (requires_drop program_ model_ drop_method d active) (requires_drop program_ model_ drop_method (S d) active).
Proof.
  revert active. induction d as [|d IH]; intros active t b; [done|].
  assert (∀ active arguments e, any_of (λ field, t ← substitute program_ model_ d field arguments;
      requires_drop program_ model_ drop_method d active t) e = Some b →
    any_of (λ field, t ← substitute program_ model_ (S d) field arguments;
      requires_drop program_ model_ drop_method (S d) active t) e = Some b) as Hany.
  { intros a arguments e. apply any_of_extends. intros field c.
    destruct (substitute program_ model_ d field arguments) as [u|] eqn:E; [|done].
    rewrite (substitute_le d (S d) _ _ _ ltac:(lia) E). apply IH. }
  cbn [requires_drop] in *. destruct (drops_itself t); [done|]. destruct (single _ t) as [element|]; [apply IH|].
  destruct (negb _); [done|]. case_bool_decide; [done|]. case_bool_decide.
  - destruct (sem_structs model_ !! _); [destruct (drop_method _); [done|apply Hany]|done].
  - destruct (sem_enums model_ !! _); [apply Hany|done].
Qed.

Lemma requires_drop_le d d' active :
  d ≤ d' → extends (requires_drop program_ model_ drop_method d active) (requires_drop program_ model_ drop_method d' active).
Proof. induction 1 as [|d' _ IH]; [by intros t b|]. intros t b ?%IH. by apply requires_drop_S. Qed.

Lemma all_of_total {X} (f : X → option bool) l : Forall (λ x, is_Some (f x)) l → is_Some (all_of f l).
Proof. induction 1 as [|x l [[] E] _ IH]; cbn; rewrite ?E; [by eexists| |by eexists]. exact IH. Qed.
Lemma any_of_total {X} (f : X → option bool) l : Forall (λ x, is_Some (f x)) l → is_Some (any_of f l).
Proof. induction 1 as [|x l [[] E] _ IH]; cbn; rewrite ?E; [by eexists| by eexists|]. exact IH. Qed.
Lemma any_of_true {X} (f : X → option bool) l : any_of f l = Some true → ∃ x, x ∈ l ∧ f x = Some true.
Proof.
  induction l as [|x l IH]; cbn; [done|]. destruct (f x) as [[]|] eqn:E; [|intros (y & ? & ?)%IH|done].
  - exists x. split; [left|done].
  - exists y. split; [by right|done].
Qed.
Lemma any_of_false {X} (f : X → option bool) l : any_of f l = Some false → ∀ x, x ∈ l → f x = Some false.
Proof.
  induction l as [|x l IH]; cbn; [by intros _ y ?%elem_of_nil|].
  destruct (f x) as [[]|] eqn:E; [done|intros H y [->|Hy]%elem_of_cons; [done|by apply IH]|done].
Qed.

(** A depth that is enough for each of finitely many calls is enough for all. *)
Lemma common_depth {X} (P : nat → X → Prop) l :
  (∀ d d' x, d ≤ d' → P d x → P d' x) → (∀ x, x ∈ l → ∃ d, P d x) → ∃ d, Forall (P d) l.
Proof.
  intros Hle. induction l as [|x l IH]; intros H; [by exists 0|].
  destruct (H x) as [d Hd]; [left|]. destruct IH as [d' Hd']; [intros y ?; apply H; by right|].
  exists (d `max` d'). constructor; [eapply Hle; [|exact Hd]; lia|].
  eapply List.Forall_impl; [|exact Hd']. intros y. apply Hle. lia.
Qed.

(** ** Types of finite size *)

(** The types of the fields or payloads of a struct or an enum, as they are declared. *)
Definition components (type : Ty) : list Ty :=
  match ty_kind type with
  | TypeKind.Struct => default [] (ss_fieldTypes <$> sem_structs model_ !! ty_declaration type)
  | TypeKind.Enum => default [] (omap id ∘ se_payloadTypes <$> sem_enums model_ !! ty_declaration type)
  | _ => []
  end.

Lemma no_components t : kind_in [TypeKind.Struct; TypeKind.Enum] t = false → components t = [].
Proof. destruct t as [[] d a]; try done; by vm_compute. Qed.

(** A value of type [t] has within it a value of type [u]. *)
Inductive contains : Ty → Ty → Prop :=
  | contains_element d e : contains (mkTy TypeKind.Array d [e]) e
  | contains_component t field d u :
      field ∈ components t → substitute program_ model_ d field (ty_arguments t) = Some u → contains t u.

(** Values of the type have finitely many parts: what a type contains, it contains with a
    smaller derivation, and the substitution in each of its components ends. *)
Inductive sized : Ty → Prop :=
  | sized_intro t :
      (∀ field, field ∈ components t → ∃ d u, substitute program_ model_ d field (ty_arguments t) = Some u) →
      (∀ u, contains t u → sized u) → sized t.

Lemma sized_Acc t : sized t → Acc (flip contains) t.
Proof. induction 1 as [t _ _ IH]. constructor. exact IH. Qed.
Lemma sized_no_cycle t u : sized t → rtc contains t u → ¬ tc contains u u.
Proof.
  intros H%sized_Acc Hr. assert (Acc (flip contains) u) as Hu.
  { induction Hr as [|x y z Hxy _ IH]; [done|]. apply IH. by apply (Acc_inv H). }
  clear -Hu. induction Hu as [u _ IH]. intros Hc.
  inversion Hc as [x y Hxy|x y z Hxy Hyz]; subst.
  - by apply (IH u).
  - apply (IH y Hxy). eapply tc_r; [exact Hyz|exact Hxy].
Qed.

(** ** Which values are cleaned up *)

(** A value of the type has within it one that cleanup has work for. *)
Inductive drops : Ty → Prop :=
  | drops_kind t : drops_itself t = true → drops t
  | drops_own_method t :
      ty_kind t = TypeKind.Struct → is_Some (sem_structs model_ !! ty_declaration t) →
      drop_method (ty_declaration t) = true → drops t
  | drops_part t u : contains t u → drops u → drops t.

Definition own_method (t : Ty) : bool :=
  bool_decide (ty_kind t = TypeKind.Struct) && bool_decide (is_Some (sem_structs model_ !! ty_declaration t)) &&
  drop_method (ty_declaration t).
Definition drop_part (d : nat) (active : gset bytes) (arguments : list Ty) (field : Ty) : option bool :=
  t ← substitute program_ model_ d field arguments; requires_drop program_ model_ drop_method d active t.

Lemma requires_drop_nominal d active t :
  drops_itself t = false → kind_in [TypeKind.Struct; TypeKind.Enum] t = true → semanticTypeKey t ∉ active →
  requires_drop program_ model_ drop_method (S d) active t =
  if own_method t then Some true
  else any_of (drop_part d ({[semanticTypeKey t]} ∪ active) (ty_arguments t)) (components t).
Proof.
  intros Hd Hk Ha. cbn [requires_drop]. rewrite Hd, Hk, (bool_decide_false _ Ha).
  destruct t as [kind declaration arguments]. unfold own_method, components.
  destruct kind; try done; cbn [ty_kind ty_declaration single kind_in negb].
  - rewrite bool_decide_true by done. destruct (_ !! _) as [structure|]; [|done]. cbn. by destruct (drop_method _).
  - rewrite bool_decide_false by done. by destruct (_ !! _).
Qed.

Lemma drop_part_le d d' active arguments :
  d ≤ d' → extends (drop_part d active arguments) (drop_part d' active arguments).
Proof.
  intros Hle field b. unfold drop_part. destruct (substitute _ _ d _ _) as [u|] eqn:E; [|done].
  rewrite (substitute_le _ _ _ _ _ Hle E). by apply requires_drop_le.
Qed.

Lemma single_array t e : single [TypeKind.Array] t = Some e → ∃ d, t = mkTy TypeKind.Array d [e].
Proof. destruct t as [[] d [|? [|]]]; try done. intros [= ->]. by eexists. Qed.

Lemma drops_inv t :
  drops t → drops_itself t = true ∨ own_method t = true ∨ ∃ u, contains t u ∧ drops u.
Proof.
  intros []; [by left|right; left|eauto]. unfold own_method. by rewrite !bool_decide_true by done.
Qed.
Lemma own_method_drops t : own_method t = true → drops t.
Proof.
  unfold own_method. rewrite !andb_true_iff, !bool_decide_eq_true. intros [[? ?] ?]. by apply drops_own_method.
Qed.

Lemma leaf_drops t : drops_itself t = false → kind_in [TypeKind.Struct; TypeKind.Enum] t = false →
  single [TypeKind.Array] t = None → ¬ drops t.
Proof.
  intros Ed Ek Es [|[H|(u & Hu & _)]]%drops_inv; [congruence|..].
  - unfold own_method in H. by destruct t as [[]].
  - inversion Hu as [|? field ? ? Hf]; subst; [done|]. by rewrite (no_components _ Ek), elem_of_nil in Hf.
Qed.
Lemma array_drops d e : drops (mkTy TypeKind.Array d [e]) ↔ drops e.
Proof.
  split; [|by eapply drops_part, contains_element]. intros [|[|(u & Hu & H)]]%drops_inv; [done..|].
  inversion Hu as [|? field ? ? Hf]; subst; [done|by apply elem_of_nil in Hf].
Qed.

(** What [requires_drop] is to answer. *)
Definition drop_answer (active : gset bytes) (t : Ty) : Prop :=
  ∃ d b, requires_drop program_ model_ drop_method d active t = Some b ∧ (b = true ↔ drops t).

Lemma requires_drop_parts t active :
  drops_itself t = false → kind_in [TypeKind.Struct; TypeKind.Enum] t = true → semanticTypeKey t ∉ active →
  own_method t = false →
  (∀ field, field ∈ components t → ∃ d u, substitute program_ model_ d field (ty_arguments t) = Some u) →
  (∀ u, contains t u → drop_answer ({[semanticTypeKey t]} ∪ active) u) → drop_answer active t.
Proof.
  intros Ed Ek Hk Eo Hsub Hparts.
  destruct (common_depth (λ d field, ∃ b, drop_part d ({[semanticTypeKey t]} ∪ active) (ty_arguments t) field = Some b ∧
    ∀ d u, substitute program_ model_ d field (ty_arguments t) = Some u → b = true ↔ drops u) (components t)) as [d Hd].
  - intros d d' field Hle (b & E & Hb). exists b. split; [by apply (drop_part_le d)|done].
  - intros field Hf. destruct (Hsub _ Hf) as (d & u & Eu).
    destruct (Hparts u (contains_component _ _ _ _ Hf Eu)) as (d' & b & E & Hb).
    exists (d `max` d'), b. unfold drop_part. rewrite (substitute_le d (d `max` d') _ _ _ ltac:(lia) Eu). cbn. split.
    + eapply requires_drop_le; [|exact E]. lia.
    + intros d'' u' Eu'. by rewrite (substitute_agree _ _ _ _ _ _ Eu' Eu).
  - rewrite Forall_forall in Hd. destruct (any_of_total (drop_part d ({[semanticTypeKey t]} ∪ active) (ty_arguments t))
      (components t)) as [b Hb].
    { apply Forall_forall. intros field Hf. destruct (Hd _ Hf) as (b & E & _). by exists b. }
    exists (S d), b. rewrite requires_drop_nominal, Eo by done. split; [done|]. split.
    + intros ->. apply any_of_true in Hb as (field & Hf & E). destruct (Hsub _ Hf) as (d' & u & Eu).
      destruct (Hd _ Hf) as (b & E' & Hb). apply (drops_part t u); [by eapply contains_component|].
      apply (Hb _ _ Eu). congruence.
    + intros H. apply drops_inv in H as [H|[H|(u & Hu & Hdr)]]; [congruence..|]. destruct b; [done|].
      inversion Hu as [n e|? field d' ? Hf Eu]; subst; [done|]. destruct (Hd _ Hf) as (c & E' & Hc').
      rewrite (any_of_false _ _ Hb _ Hf) in E'. pose proof (proj2 (Hc' _ _ Eu) Hdr). congruence.
Qed.

Lemma requires_drop_sized t : sized t → ∀ active, (∀ u, rtc contains t u → semanticTypeKey u ∉ active) →
  drop_answer active t.
Proof.
  intros Hs. pose proof Hs as Hs'. induction Hs as [t Hsub Hc IH]. intros active Ha.
  destruct (drops_itself t) eqn:Ed.
  { exists 1, true. cbn [requires_drop]. rewrite Ed. split; [done|]. split; [|done]. by constructor. }
  destruct (kind_in [TypeKind.Struct; TypeKind.Enum] t) eqn:Ek; cycle 1.
  { destruct (single [TypeKind.Array] t) as [e|] eqn:Es.
    - destruct (single_array _ _ Es) as [n ->]. pose proof (contains_element n e) as Hn.
      destruct (IH e Hn (Hc e Hn) active) as (d & b & E & Hb); [intros u Hu; apply Ha; by eapply rtc_l|].
      exists (S d), b. cbn [requires_drop]. rewrite Ed, Es, array_drops. done.
    - exists 1, false. cbn [requires_drop]. rewrite Ed, Es, Ek. split; [done|]. split; [done|]. intros H.
      by apply leaf_drops in H. }
  assert (semanticTypeKey t ∉ active) as Hk by (apply Ha; constructor).
  destruct (own_method t) eqn:Eo.
  { exists 1, true. rewrite requires_drop_nominal, Eo by done. split; [done|]. split; [|done]. intros _. by apply own_method_drops. }
  apply requires_drop_parts; [done..|]. intros u Hu. apply (IH u Hu (Hc u Hu)). intros v Hv.
  apply not_elem_of_union. split; [|apply Ha; by eapply rtc_l].
  intros ->%elem_of_singleton%semanticTypeKey_inj. eapply (sized_no_cycle t t); [done|done|].
  by eapply tc_rtc_r; [apply tc_once|].
Qed.

(** C14: for a type of finite size, [requiresDrop] ends, and answers whether cleanup has work
    for a value of it: whether a part of the value, at whatever depth, is of a kind that is
    always cleaned up or of a struct with a method [drop]. *)
Theorem requiresDrop_exact t :
  sized t → ∃ d b, requiresDrop program_ model_ drop_method d t = Some b ∧ (b = true ↔ drops t).
Proof. intros H. apply requires_drop_sized; [done|]. intros u _. apply not_elem_of_empty. Qed.
End depth.

(** A box of a string. *)
Definition box_model : SemanticModel := mkSemanticModel [mkSemanticStruct 1 [mkTy TypeKind.TypeParameter 0 []] [] []] [] [].
Definition box_of (t : Ty) : Ty := mkTy TypeKind.Struct 0 [t].

Lemma box_sized : sized emptyProgram box_model (box_of stringType).
Proof.
  assert (sized emptyProgram box_model stringType) as Hs.
  { constructor; [intros field H; by apply elem_of_nil in H|]. intros u Hu. inversion Hu as [|? ? ? ? H]; subst. by apply elem_of_nil in H. }
  constructor.
  - intros field ->%list_elem_of_singleton. by exists 1, stringType.
  - intros u Hu. inversion Hu as [|? field d ? H E]; subst. apply list_elem_of_singleton in H as ->.
    injection E as <-. exact Hs.
Qed.

Lemma requiresDrop_exact_witness :
  requiresDrop emptyProgram box_model (λ _, false) 2 (box_of stringType) = Some true ∧
  ∃ d b, requiresDrop emptyProgram box_model (λ _, false) d (box_of stringType) = Some b ∧
    (b = true ↔ drops emptyProgram box_model (λ _, false) (box_of stringType)).
Proof. split; [vm_compute; reflexivity|]. exact (requiresDrop_exact _ _ _ _ box_sized). Defined.
