(* ===== verification/TypeCycleProofs.v ===== *)
(** * The check for recursive value types: what it accepts has finite size *)
From S2P Require Import Prelude Target Diagnostics Token Lexer Ast ParserState ParserProgram ProgramTheorems Types SemaTypes SemaModel SemaDeclare TypeCycles SemaSource TypeLayout.

Lemma collect_some_elem {A B} (f : A → option (option B)) l rest :
  collect_some f l = Some rest → ∀ a, a ∈ l → ∃ b, f a = Some b ∧ ∀ b', b = Some b' → b' ∈ rest.
Proof.
  revert rest. induction l as [|x l IH]; intros rest; cbn; [by intros _ a ?%elem_of_nil|].
  destruct (f x) as [b|] eqn:E; [|done]. cbn. destruct (collect_some f l) as [rest'|]; [|done].
  cbn. intros [= <-] a [->|Ha]%elem_of_cons.
  - exists b. split; [done|]. intros b' ->. left.
  - destruct (IH _ eq_refl _ Ha) as (b' & ? & H). exists b'. split; [done|]. intros c Hc.
    destruct b; [right|]; by apply H.
Qed.
Lemma collect_some_inv {A B} (f : A → option (option B)) l rest :
  collect_some f l = Some rest → ∀ b, b ∈ rest → ∃ a, a ∈ l ∧ f a = Some (Some b).
Proof.
  revert rest. induction l as [|x l IH]; intros rest; cbn; [by intros [= <-] b ?%elem_of_nil|].
  destruct (f x) as [b|] eqn:E; [|done]. cbn. destruct (collect_some f l) as [rest'|]; [|done].
  cbn. intros [= <-] c Hc. destruct b as [b|]; [apply elem_of_cons in Hc as [->|Hc]|].
  - exists x. split; [left|done].
  - destruct (IH _ eq_refl _ Hc) as (a & ? & ?). exists a. split; [by right|done].
  - destruct (IH _ eq_refl _ Hc) as (a & ? & ?). exists a. split; [by right|done].
Qed.

#[local] Arguments substitute : simpl never.
#[local] Arguments components : simpl never.

Section proofs.
Context (program_ : Program) (model_ : SemanticModel) (depth : nat).

Abbreviation sized := (sized program_ model_).
Abbreviation contains := (contains program_ model_).
Abbreviation components := (components model_).
Abbreviation substituted t field u := (substitute program_ model_ depth field (ty_arguments t) = Some u).
Abbreviation children_of t := (layoutChildren program_ model_ depth t).

Lemma sized_leaf t : nominal t = false → single [TypeKind.Array] t = None → sized t.
Proof.
  intros Hn Ha. constructor.
  - intros field. by rewrite no_components, elem_of_nil.
  - intros u Hu. inversion Hu as [d e|? field d ? Hf]; subst; [done|].
    by rewrite no_components, elem_of_nil in Hf.
Qed.
Lemma sized_array d e : sized e → sized (mkTy TypeKind.Array d [e]).
Proof.
  intros He. constructor; [by intros field ?%elem_of_nil|].
  intros u Hu. inversion Hu as [|? field ? ? Hf]; subst; [done|by apply elem_of_nil in Hf].
Qed.
Lemma strip_cases t :
  (strip_arrays t = t ∧ single [TypeKind.Array] t = None) ∨
  ∃ d e, t = mkTy TypeKind.Array d [e] ∧ strip_arrays t = strip_arrays e.
Proof. destruct t as [[] d [|e [|]]]; auto. right. by exists d, e. Qed.
Lemma sized_strip t : sized (strip_arrays t) → sized t.
Proof.
  induction t as [kind d arguments IH] using Ty_induction.
  destruct (strip_cases (mkTy kind d arguments)) as [[-> _]|(d' & e & [= -> -> ->] & ->)]; [auto|].
  apply Forall_inv in IH. intros H. by apply sized_array, IH.
Qed.
Lemma strip_rtc t : rtc contains t (strip_arrays t).
Proof.
  induction t as [kind d arguments IH] using Ty_induction.
  destruct (strip_cases (mkTy kind d arguments)) as [[-> _]|(d' & e & [= -> -> ->] & ->)]; [constructor|].
  apply Forall_inv in IH. eapply rtc_l; [apply contains_element|exact IH].
Qed.

(** The children of a type are its substituted components without their arrays, less [void]. *)
Lemma layout_complete t children field :
  children_of t = Some children → field ∈ components t →
  ∃ u, substituted t field u ∧ (strip_arrays u = voidType ∨ strip_arrays u ∈ children.*1).
Proof.
  intros E Hf. destruct t as [kind d arguments]. unfold components, layoutChildren in *. cbn [ty_kind ty_declaration] in *.
  destruct kind; try by apply elem_of_nil in Hf.
  - destruct (sem_structs model_ !! d) as [structure|] eqn:Es; [|by apply elem_of_nil in Hf].
    rewrite !bool_decide_true in E by (done || by eapply lookup_lt_Some). cbn in E, Hf.
    apply list_elem_of_lookup in Hf as [i Hi].
    destruct (collect_some_elem _ _ _ E (i, field)) as (b & Eb & Hb).
    { apply elem_of_lookup_imap. by exists i, field. }
    cbn in Eb. destruct (substitute _ _ _ field arguments) as [u|] eqn:Eu; [|done]. injection Eb as <-.
    exists u. split; [done|]. right. apply list_elem_of_fmap. eexists (_, _). split; [|by apply Hb]. done.
  - destruct (sem_enums model_ !! d) as [enumeration|] eqn:Es; [|by apply elem_of_nil in Hf].
    apply lookup_lt_Some in Es as Hd. cbn [negb] in E. rewrite bool_decide_false in E by done. cbn [andb] in E. rewrite !bool_decide_true in E by done. cbn in E, Hf.
    apply list_elem_of_omap in Hf as (payload & Hf & Hp). cbn in Hp. subst payload.
    apply list_elem_of_lookup in Hf as [i Hi].
    destruct (collect_some_elem _ _ _ E (i, Some field)) as (b & Eb & Hb).
    { apply elem_of_lookup_imap. by exists i, (Some field). }
    cbn in Eb. destruct (substitute _ _ _ field arguments) as [u|] eqn:Eu; [|done]. cbn in Eb.
    exists u. split; [done|]. destruct (bool_decide (u = voidType) && _) eqn:Ev.
    + apply andb_true_iff in Ev as [->%bool_decide_eq_true _]. by left.
    + right. injection Eb as <-. apply list_elem_of_fmap. eexists (_, _). split; [|by apply Hb]. done.
Qed.

Lemma layout_sized t children :
  nominal t = true → children_of t = Some children → (∀ c, c ∈ children.*1 → sized c) → sized t.
Proof.
  intros Hn E H. constructor.
  - intros field Hf. destruct (layout_complete _ _ _ E Hf) as (u & Eu & _). eauto.
  - intros u Hu. inversion Hu as [d e|? field d ? Hf Eu']; subst; [done|].
    destruct (layout_complete _ _ _ E Hf) as (v & Eu & Hv). rewrite <- (substitute_agree _ _ _ _ _ _ _ _ Eu Eu').
    apply sized_strip. destruct Hv as [->|Hv]; [by apply sized_leaf|by apply H].
Qed.

Lemma layout_from t children c : children_of t = Some children → c ∈ children.*1 →
  ∃ field u, field ∈ components t ∧ substituted t field u ∧ c = strip_arrays u.
Proof.
  intros E (p & -> & Hp)%list_elem_of_fmap. destruct t as [kind d arguments]. unfold layoutChildren in E. cbn [ty_kind ty_declaration] in E.
  case_bool_decide; [|cbn [andb] in E; case_bool_decide; cbn [andb] in E];
    [destruct (bool_decide _) eqn:Hd; [|subst kind; injection E as <-; by apply elem_of_nil in Hp]..
    |injection E as <-; by apply elem_of_nil in Hp].
  all: subst kind; cbn [andb] in E; destruct (collect_some_inv _ _ _ E _ Hp) as ([i field] & Hi & Ef); cbn in Ef;
    apply elem_of_lookup_imap in Hi as (j & x & [= -> ->] & Hi%list_elem_of_lookup_2).
  - destruct (substitute _ _ _ x _) as [u|] eqn:Eu; [|done]. injection Ef as <-. by exists x, u.
  - destruct x as [payload|]; [|done]. destruct (substitute _ _ _ payload _) as [u|] eqn:Eu; [|done]. cbn in Ef.
    destruct (_ && _); [done|]. injection Ef as <-. exists payload, u. split; [|done].
    unfold TypeLayout.components. cbn. destruct (sem_enums model_ !! d); [|by apply elem_of_nil in Hi].
    cbn. apply list_elem_of_omap. by exists (Some payload).
Qed.
Lemma layout_sound t children c : children_of t = Some children → c ∈ children.*1 → tc contains t c.
Proof.
  intros E Hc. destruct (layout_from _ _ _ E Hc) as (field & u & Hf & Eu & ->).
  eapply tc_rtc_r; [apply tc_once; by eapply contains_component|apply strip_rtc].
Qed.

(** ** What is accepted has finite size *)

(** The model has a struct and an enum for each one that is declared, and no more. *)
Hypothesis structs_declared : length (sem_structs model_) = length (pr_structs program_).
Hypothesis enums_declared : length (sem_enums model_) = length (pr_enums program_).

Lemma undeclared_sized t : nominal t = true → typeCount program_ ≤ type_node program_ t → sized t.
Proof.
  intros Hn Hd. assert (components t = []) as Hc.
  { unfold typeCount, structCount, type_node, TypeLayout.components in *. destruct t as [[] d a]; try done;
      cbn [ty_kind ty_declaration] in *.
    - rewrite bool_decide_true in Hd by done. by rewrite (lookup_ge_None_2 (sem_structs model_)) by lia.
    - rewrite bool_decide_false in Hd by done. unfold structCount in Hd.
      by rewrite (lookup_ge_None_2 (sem_enums model_)) by lia. }
  constructor; [intros field; by rewrite Hc, elem_of_nil|].
  intros u Hu. inversion Hu as [d e|? field d ? Hf]; subst; [done|]. by rewrite Hc, elem_of_nil in Hf.
Qed.

(** The keys that are done are of types of finite size. *)
Definition validated_ok (validated : gset bytes) : Prop := ∀ t, semanticTypeKey t ∈ validated → sized t.

(** A path of types, each among the children of the one below; [above] holds of the types
    that are done or are on the path just above. *)
Fixpoint path_ok (root : Ty) (above : Ty → Prop) (stack : list Frame) : Prop :=
  match stack with
  | [] => above root
  | frame :: below =>
      fr_key frame = semanticTypeKey (fr_type frame) ∧ nominal (fr_type frame) = true ∧
      (∃ children, children_of (fr_type frame) = Some children ∧
        ∀ c, c ∈ children.*1 → sized c ∨ above c ∨ c ∈ (fr_children frame).*1) ∧
      Forall (λ c, single [TypeKind.Array] c.1 = None) (fr_children frame) ∧
      path_ok root (λ t, t = fr_type frame) below
  end.
Definition traversal_ok (root : Ty) (st : Traversal) : Prop :=
  length (tv_active st) = typeCount program_ ∧ validated_ok (tv_validated st) ∧ path_ok root sized (tv_stack st).

(** The type the top frame waits for: finite size of it is what the frame needs. *)
Lemma path_ok_above root (P Q : Ty → Prop) stack :
  (∀ t, P t → sized t ∨ Q t) → (P root → Q root) → path_ok root P stack → path_ok root Q stack.
Proof.
  intros H Hr. destruct stack as [|frame below]; [exact Hr|].
  intros (? & ? & (children & E & Hc) & ? & ?). split_and!; [done..| |done|done]. exists children. split; [done|].
  intros c [?|[?%H|?]]%Hc; tauto.
Qed.

Lemma validated_insert t validated : sized t → validated_ok validated → validated_ok ({[semanticTypeKey t]} ∪ validated).
Proof. intros Ht Hv u [->%elem_of_singleton%semanticTypeKey_inj|?]%elem_of_union; [done|by apply Hv]. Qed.

Lemma layout_stripped t children : children_of t = Some children →
  Forall (λ c, single [TypeKind.Array] c.1 = None) children.
Proof.
  assert (∀ u, single [TypeKind.Array] (strip_arrays u) = None) as Hs.
  { intros u. induction u as [kind d arguments IH] using Ty_induction.
    destruct (strip_cases (mkTy kind d arguments)) as [[-> E]|(d' & e & [= -> -> ->] & ->)]; [done|].
    by apply Forall_inv in IH. }
  intros E. apply Forall_forall. intros c Hc.
  destruct (layout_from _ _ c.1 E) as (field & u & _ & _ & ->); [by apply list_elem_of_fmap_2|apply Hs].
Qed.

(** The top frame moves on to its next child. *)
Lemma next_child root (P : Ty → Prop) child span children frame below :
  fr_children frame = (child, span) :: children → (sized child ∨ P child) →
  path_ok root sized (frame :: below) →
  path_ok root P (mkFrame (fr_type frame) (fr_node frame) (fr_key frame) children :: below).
Proof.
  intros Ef Hs (? & ? & (all & E & Hc) & Ha & ?). rewrite Ef in Ha. apply List.Forall_cons_iff in Ha as [_ Ha].
  split_and!; [done..| |done|done]. exists all. split; [done|].
  intros c Hin. destruct (Hc c Hin) as [?|[?|Hl]]; [tauto..|]. rewrite Ef in Hl.
  apply elem_of_cons in Hl as [->|?]; tauto.
Qed.

Lemma push_type_ok root type st st' :
  nominal type = true → length (tv_active st) = typeCount program_ → validated_ok (tv_validated st) →
  path_ok root (λ t, t = type) (tv_stack st) →
  push_type program_ model_ depth type st = Some st' → traversal_ok root st'.
Proof.
  intros Hn Hl Hv Hp. unfold push_type, enter. destruct (children_of type) as [children|] eqn:E; [|done].
  intros [= <-]. split; [by cbn; rewrite length_alter|]. split; [exact Hv|]. cbn. split_and!; [done..| | |done].
  - exists children. auto.
  - by apply layout_stripped in E.
Qed.

Lemma cycle_turn_ok root st turn :
  traversal_ok root st → cycle_turn program_ model_ depth st = Some turn →
  match turn with
  | Continue st => traversal_ok root st
  | Done validated => sized root ∧ validated_ok validated
  | Recursive _ => True
  end.
Proof.
  intros (Hlen & Hv & Hp). unfold cycle_turn. destruct st as [[|frame below] active validated]; cbn [tv_stack tv_active tv_validated] in *.
  { by intros [= <-]. }
  destruct (fr_children frame) as [|[child span] children] eqn:Ef.
  { intros [= <-]. destruct Hp as (Hk & Hn & (children & E & Hc) & _ & Hb). rewrite Ef in Hc.
    assert (sized (fr_type frame)) as Hs.
    { eapply layout_sized; [done|done|]. intros c Hin. destruct (Hc c Hin) as [?|[?|?%elem_of_nil]]; tauto. }
    split_and!; cbn; [by rewrite length_alter|rewrite Hk; by apply validated_insert|].
    eapply path_ok_above; [| |exact Hb]; [|by intros ->]. intros t ->. auto. }
  assert (single [TypeKind.Array] child = None) as Ha.
  { destruct Hp as (_ & _ & _ & Ha & _). rewrite Ef in Ha. by apply Forall_inv in Ha. }
  assert (sized child → traversal_ok root (mkTraversal
    (mkFrame (fr_type frame) (fr_node frame) (fr_key frame) children :: below) active validated)) as Hnext.
  { intros Hs. split_and!; [done..|]. apply (next_child root sized child span); auto. }
  destruct (nominal child) eqn:En; cbn [negb]; [|intros [= <-]; by apply Hnext, sized_leaf].
  destruct (active !! _) as [types|] eqn:El.
  2: { intros [= <-]. apply Hnext, undeclared_sized; [done|]. apply lookup_ge_None in El. by rewrite <- Hlen. }
  destruct (match last types with Some _ => _ | None => _ end); [by intros [= <-]|].
  case_bool_decide as Hval; [intros [= <-]; by apply Hnext, Hv|].
  destruct (push_type _ _ _ _ _) as [st'|] eqn:Epush; [|done]. intros [= <-].
  eapply push_type_ok; [done| | | |exact Epush]; [done..|].
  apply (next_child root (λ t, t = child) child span); auto.
Qed.

Lemma cycle_loop_ok root turns st validated :
  traversal_ok root st → cycle_loop program_ model_ depth turns st = Some (inr validated) →
  sized root ∧ validated_ok validated.
Proof.
  revert st. induction turns as [|turns IH]; intros st Hok; cbn [cycle_loop]; [done|].
  destruct (cycle_turn _ _ _ st) as [turn|] eqn:E; [|done]. pose proof (cycle_turn_ok _ _ _ Hok E) as Ht. cbn.
  destruct turn; [by apply IH|done|]. by intros [= <-].
Qed.

Lemma roots_nominal : Forall (λ t, nominal t = true) (roots program_).
Proof.
  apply Forall_forall. unfold roots. intros t [H|H]%elem_of_app;
    apply elem_of_lookup_imap in H as (i & d & -> & _); done.
Qed.

Lemma check_roots_ok turns rs validated :
  Forall (λ t, nominal t = true) rs → validated_ok validated →
  check_roots program_ model_ depth turns validated rs = Some None → Forall sized rs.
Proof.
  intros Hn. revert validated. induction Hn as [|root rs Hr _ IH]; intros validated Hv; [by constructor|].
  cbn [check_roots]. unfold check_root. case_bool_decide as Hin; cbn.
  { intros H. constructor; [by apply Hv|by eapply IH]. }
  destruct (push_type _ _ _ _ _) as [st|] eqn:Ep; [|done]. cbn.
  destruct (cycle_loop _ _ _ _ _) as [[span|validated']|] eqn:El; [done| |done]. cbn.
  assert (traversal_ok root st) as Hst.
  { eapply push_type_ok; [done| | | |exact Ep]; cbn; [apply length_replicate|done..]. }
  destruct (cycle_loop_ok _ _ _ _ Hst El). constructor; [done|by eapply IH].
Qed.

(** C12: when the check for recursive value types accepts a program, every declared struct
    and enum, at its own parameters, has finite size: the values that one contains through
    its fields, payloads and array elements, at whatever arguments these are written with,
    do not go on without end. *)
Theorem accepted_types_sized turns :
  type_cycle program_ model_ depth turns = Some None → Forall sized (roots program_).
Proof. apply check_roots_ok; [apply roots_nominal|by intros t ?%elem_of_empty]. Qed.
End proofs.

(** ** Deciding that a type has finite size *)

Fixpoint sized_within (program_ : Program) (model_ : SemanticModel) (depth n : nat) (t : Ty) : bool :=
  match n with
  | O => false
  | S n =>
      if nominal t then
        match layoutChildren program_ model_ depth t with
        | Some children => forallb (λ c, sized_within program_ model_ depth n c.1) children
        | None => false
        end
      else match single [TypeKind.Array] t with
           | Some element => sized_within program_ model_ depth n element
           | None => true
           end
  end.

Lemma sized_within_sized program_ model_ depth n t :
  sized_within program_ model_ depth n t = true → sized program_ model_ t.
Proof.
  revert t. induction n as [|n IH]; intros t; [done|]. cbn [sized_within]. destruct (nominal t) eqn:En.
  - destruct (layoutChildren _ _ _ _) as [children|] eqn:E; [|done]. rewrite forallb_forall. intros H.
    eapply layout_sized; [done|exact E|]. intros c (p & -> & Hp)%list_elem_of_fmap. apply IH, H. by apply list_elem_of_In.
  - destruct (single _ t) as [e|] eqn:Es; [|intros _; by apply sized_leaf].
    destruct (single_array _ _ Es) as [d ->]. intros H. by apply sized_array, IH.
Qed.

Lemma sized_roots program_ model_ depth n :
  forallb (sized_within program_ model_ depth n) (roots program_) = true → Forall (sized program_ model_) (roots program_).
Proof.
  rewrite forallb_forall, Forall_forall. intros H t Ht. eapply sized_within_sized, H. by apply list_elem_of_In.
Qed.

(** A tree with an array of boxed leaves. *)
Definition tree_source : list bytes :=
  [lit "struct Tree { leaves [4]Box<Leaf> name String }"; lit "struct Leaf { name String tasks Task<void> }";
   lit "struct Box<T> { value T }"].

Lemma accepted_types_sized_witness :
  length (sem_structs (declared_model tree_source)) = 3 ∧
  Forall (sized (declared_program tree_source) (declared_model tree_source)) (roots (declared_program tree_source)).
Proof.
  split; [vm_compute; reflexivity|]. apply (accepted_types_sized (declared_program tree_source) (declared_model tree_source) 30 eq_refl eq_refl 100). vm_compute. reflexivity.
Defined.
