(* ===== verification/TypeCycleExact.v ===== *)
(** * The check for recursive value types is exact without type arguments

    Where declarations hold no types with arguments the check ends, and refuses exactly
    the types that contain themselves. *)
From S2P Require Import Prelude Target Diagnostics Token Lexer Ast ParserState ParserProgram ProgramTheorems Types SemaTypes SemaModel SemaDeclare TypeCycles SemaSource TypeLayout TypeCycleProofs.

#[local] Arguments substitute : simpl never.
#[local] Arguments components : simpl never.

Section exact.
Context (program_ : Program) (model_ : SemanticModel) (depth : nat).
Hypothesis structs_declared : length (sem_structs model_) = length (pr_structs program_).
Hypothesis enums_declared : length (sem_enums model_) = length (pr_enums program_).

Abbreviation sized := (sized program_ model_).
Abbreviation contains := (contains program_ model_).
Abbreviation components := (components model_).
Abbreviation children_of t := (layoutChildren program_ model_ depth t).

(** ** Programs whose components are types without arguments *)

(** A declared struct or enum without arguments, or a type the check does not enter; not a
    borrow, which substitution may turn into the type that is borrowed. *)
Definition plain (t : Ty) : bool :=
  match ty_kind t with
  | TypeKind.Struct => bool_decide (ty_arguments t = []) && (ty_declaration t <? structCount program_)
  | TypeKind.Enum => bool_decide (ty_arguments t = []) && (ty_declaration t <? length (pr_enums program_))
  | TypeKind.View => false
  | _ => true
  end.

(** The types the check comes to. *)
Definition universe : list Ty :=
  roots program_ ++ map (λ id, mkTy TypeKind.Struct id []) (seq 0 (structCount program_)) ++
  map (λ id, mkTy TypeKind.Enum id []) (seq 0 (length (pr_enums program_))).

Lemma plain_universe t : plain t = true → nominal t = true → t ∈ universe ∧ ty_arguments t = [].
Proof.
  destruct t as [kind d arguments]. intros Hp Hn.
  destruct kind; try done; cbn in Hp; apply andb_true_iff in Hp as [->%bool_decide_eq_true Hd%Nat.ltb_lt];
    (split; [|done]); apply elem_of_app; right; apply elem_of_app; [left|right];
    apply list_elem_of_fmap; exists d; (split; [done|]); apply elem_of_seq; lia.
Qed.

Lemma universe_spec t : t ∈ universe →
  (ty_kind t = TypeKind.Struct ∧ ty_declaration t < structCount program_ ∨
   ty_kind t = TypeKind.Enum ∧ ty_declaration t < length (pr_enums program_)) ∧
  Forall (λ a, ty_kind a = TypeKind.TypeParameter) (ty_arguments t).
Proof.
  assert (∀ n, Forall (λ a, ty_kind a = TypeKind.TypeParameter) (own_parameters n)) as Ho.
  { intros n. apply Forall_forall. intros a (i & -> & _)%list_elem_of_fmap. done. }
  unfold universe, roots, structCount. rewrite !elem_of_app, !elem_of_lookup_imap, !list_elem_of_fmap.
  intros [[(i & x & -> & Hi%lookup_lt_Some)|(i & x & -> & Hi%lookup_lt_Some)]|[(i & -> & Hi%elem_of_seq)|(i & -> & Hi%elem_of_seq)]];
    cbn [ty_arguments ty_kind ty_declaration]; (split; [|first [apply Ho | by apply Forall_nil]]); auto with lia.
Qed.
Lemma universe_nominal t : t ∈ universe → nominal t = true ∧ type_node program_ t < typeCount program_.
Proof.
  intros [[[E H]|[E H]] _]%universe_spec; unfold type_node, typeCount; rewrite E; destruct t; cbn in E; subst;
    (split; [done|]); [rewrite bool_decide_true by done|rewrite bool_decide_false by done]; cbn in *; lia.
Qed.
Lemma type_node_inj t u : t ∈ universe → u ∈ universe → ty_arguments t = ty_arguments u →
  type_node program_ t = type_node program_ u → t = u.
Proof.
  intros [Ht _]%universe_spec [Hu _]%universe_spec. unfold type_node.
  destruct t as [k d a], u as [k' d' a']. cbn [ty_kind ty_declaration ty_arguments] in *. intros ->.
  destruct Ht as [[-> ?]|[-> ?]], Hu as [[-> ?]|[-> ?]];
    repeat first [rewrite bool_decide_true by done|rewrite bool_decide_false by done]; intros; f_equal; lia.
Qed.

Lemma substitute_shape copy arguments kind d inner u :
  kind ≠ TypeKind.TypeParameter → kind ≠ TypeKind.View →
  substitute_with copy arguments (mkTy kind d inner) = Some u → ∃ inner', u = mkTy kind d inner' ∧ length inner' = length inner.
Proof.
  intros Hp Hv H.
  assert (∀ l l', (fix all (l : list Ty) : option (list Ty) := match l with
      | [] => Some [] | t :: l => t ← substitute_with copy arguments t; l ← all l; Some (t :: l) end) l = Some l' →
    length l' = length l) as Hl.
  { induction l as [|t l IH]; intros l'; [by intros [= <-]|]. destruct (substitute_with _ _ t); [|done]. cbn.
    destruct (_ l) as [l''|]; [|done]. intros [= <-]. cbn. by rewrite (IH l''). }
  destruct kind; try done; cbn [substitute_with] in H;
    (destruct (_ inner) as [inner'|] eqn:E; [|done]); injection H as <-; exists inner'; by rewrite (Hl _ _ E).
Qed.

(** Substituting parameters in a plain component gives a plain type. *)
Lemma substitute_plain arguments field u :
  Forall (λ a, ty_kind a = TypeKind.TypeParameter) arguments → plain (strip_arrays field) = true →
  substitute program_ model_ depth field arguments = Some u → plain (strip_arrays u) = true.
Proof.
  intros Ha. revert u. induction field as [kind d inner IH] using Ty_induction. intros u.
  destruct (strip_cases (mkTy kind d inner)) as [[-> Hs]|(d' & e & [= -> -> ->] & ->)]; cycle 1.
  { apply Forall_inv in IH. intros Hp. unfold substitute. cbn [substitute_with].
    destruct (substitute_with _ _ e) as [e'|] eqn:Ee; [|done]. intros [= <-]. exact (IH e' Hp Ee). }
  intros Hp Hu. destruct (decide (kind = TypeKind.TypeParameter)) as [->|Hk].
  - cbn in Hu. injection Hu as <-. destruct (arguments !! d) as [a|] eqn:Ea; [|done]. cbn.
    rewrite Forall_lookup in Ha. specialize (Ha _ _ Ea). by destruct a as [[]].
  - destruct (decide (kind = TypeKind.View)) as [->|Hv]; [done|].
    destruct (substitute_shape _ _ _ _ _ _ Hk Hv Hu) as (inner' & -> & Hl).
    destruct kind; try done; cbn in Hp; try (apply andb_true_iff in Hp as [->%bool_decide_eq_true Hd]; by destruct inner').
    by destruct inner' as [|? [|]], inner as [|? [|]].
Qed.
(** Every component is plain, and the substitution in the components of the types the
    check comes to ends within the depth. *)
Hypothesis components_plain : ∀ t field, field ∈ components t → plain (strip_arrays field) = true.
Hypothesis layouts_end : ∀ t, t ∈ universe → is_Some (children_of t).

Lemma universe_child t children c : t ∈ universe → children_of t = Some children → c ∈ children.*1 →
  nominal c = true → c ∈ universe ∧ ty_arguments c = [].
Proof.
  intros [_ Ha]%universe_spec E Hc Hn. destruct (layout_from _ _ _ _ _ _ E Hc) as (field & u & Hf & Eu & ->).
  apply plain_universe; [|done]. eapply substitute_plain; [exact Ha| |exact Eu]. by eapply components_plain.
Qed.

(** Among such types a type recurs without end only as itself. *)
Lemma recurrence_equal t u : t ∈ universe → u ∈ universe → ty_arguments u = [] →
  isInfiniteTypeRecurrence t u = bool_decide (t = u).
Proof.
  intros [_ Ha]%universe_spec [Hn _]%universe_nominal Hu. unfold isInfiniteTypeRecurrence.
  case_bool_decide; [done|]. destruct u as [k d a]. cbn in Hu. subst a.
  destruct (containsProperType t (mkTy k d [])); [done|].
  apply not_true_is_false. intros (a & Hin & [E%bool_decide_eq_true|E]%orb_true_iff)%existsb_exists; [|done].
  apply list_elem_of_In in Hin. rewrite Forall_forall in Ha. specialize (Ha _ Hin). rewrite E in Ha. cbn in Ha. by subst k.
Qed.

(** ** The path *)

Abbreviation types stack := (map fr_type stack).
(** The types on the path of a declaration, the last one first. *)
Definition at_node (node : nat) (stack : list Frame) : list Ty :=
  filter (λ t, type_node program_ t = node) (types stack).

#[local] Arguments at_node : simpl never.
Lemma at_node_cons node frame stack : at_node node (frame :: stack) =
  if decide (type_node program_ (fr_type frame) = node) then fr_type frame :: at_node node stack else at_node node stack.
Proof. unfold at_node. cbn [map]. by rewrite filter_cons. Qed.

(** Each type on the path but the first is without arguments, and contained in the one below. *)
Fixpoint chain (root : Ty) (stack : list Frame) : Prop :=
  match stack with
  | [] => True
  | frame :: below =>
      match below with
      | [] => fr_type frame = root
      | frame' :: _ => tc contains (fr_type frame') (fr_type frame) ∧ ty_arguments (fr_type frame) = []
      end ∧ chain root below
  end.

Definition frame_ok (validated : gset bytes) (frame : Frame) : Prop :=
  fr_type frame ∈ universe ∧ fr_node frame = type_node program_ (fr_type frame) ∧
  fr_key frame = semanticTypeKey (fr_type frame) ∧ semanticTypeKey (fr_type frame) ∉ validated ∧
  ∃ children, children_of (fr_type frame) = Some children ∧ ∀ c, c ∈ fr_children frame → c ∈ children.

Record flat_ok (root : Ty) (st : Traversal) : Prop := {
  ok_active : tv_active st = map (λ node, rev (at_node node (tv_stack st))) (seq 0 (typeCount program_));
  ok_frames : Forall (frame_ok (tv_validated st)) (tv_stack st);
  ok_distinct : NoDup (types (tv_stack st));
  ok_chain : chain root (tv_stack st);
}.

Lemma chain_contains root frame below : chain root (frame :: below) →
  ∀ t, t ∈ types (frame :: below) → rtc contains root t ∧ rtc contains t (fr_type frame).
Proof.
  revert frame. induction below as [|frame' below IH]; intros frame [Hf Hc] t Ht.
  { apply list_elem_of_singleton in Ht as ->. rewrite Hf. split; constructor. }
  destruct Hf as [Hf _]. apply tc_rtc in Hf. apply elem_of_cons in Ht as [->|Ht].
  - destruct (IH _ Hc (fr_type frame')) as [? _]; [left|]. split; [by etrans|done].
  - destruct (IH _ Hc _ Ht). split; [done|by etrans].
Qed.

Lemma chain_plain root frame below t : chain root (frame :: below) → t ∈ types (frame :: below) →
  t = root ∨ ty_arguments t = [].
Proof.
  revert frame. induction below as [|frame' below IH]; intros frame [Hf Hc] Ht; apply elem_of_cons in Ht as [->|Ht].
  - by left.
  - by apply elem_of_nil in Ht.
  - right. apply Hf.
  - by eapply IH.
Qed.

(** A type without arguments that is on the path is the last one of its declaration. *)
Lemma head_at_node root stack child :
  chain root stack → Forall (λ t, t ∈ universe) (types stack) → child ∈ types stack → ty_arguments child = [] →
  head (at_node (type_node program_ child) stack) = Some child.
Proof.
  intros Hc Hu Hin Ha. induction stack as [|frame below IH]; [by apply elem_of_nil in Hin|].
  assert (child ∈ universe) as Hcu by (by eapply Forall_forall in Hu).
  cbn [map] in Hu, Hin. apply Forall_cons in Hu as [Hf Hu]. rewrite at_node_cons.
  case_decide as Hn.
  - cbn. f_equal. destruct below as [|frame' below].
    + by apply list_elem_of_singleton in Hin.
    + destruct Hc as [[_ Hfa] _]. apply type_node_inj; [done..|congruence|done].
  - apply elem_of_cons in Hin as [->|Hin]; [done|]. destruct Hc as [_ Hc]. by apply IH.
Qed.

Lemma last_rev {A} (l : list A) : last (rev l) = head l.
Proof. destruct l; [done|]. cbn. by rewrite last_snoc. Qed.

Lemma active_lookup root st node : flat_ok root st → node < typeCount program_ →
  tv_active st !! node = Some (rev (at_node node (tv_stack st))).
Proof.
  intros [Ha _ _ _] Hn. rewrite Ha, list_lookup_fmap, lookup_seq_lt by done. done.
Qed.

(** How far the loop is from its end. *)
Definition unvalidated (st : Traversal) : nat :=
  size (list_to_set (map semanticTypeKey universe) ∖ tv_validated st : gset bytes).
Definition unentered (st : Traversal) : nat := length universe - length (tv_stack st).
Definition unseen (st : Traversal) : nat :=
  match tv_stack st with frame :: _ => length (fr_children frame) | [] => 0 end.
Definition closer (st' st : Traversal) : Prop :=
  unvalidated st' < unvalidated st ∨
  unvalidated st' = unvalidated st ∧
  (unentered st' < unentered st ∨ unentered st' = unentered st ∧ unseen st' < unseen st).

(** Turn by turn. *)
Lemma turn_end root frame below active validated :
  flat_ok root (mkTraversal (frame :: below) active validated) →
  let st' := mkTraversal below (alter (λ l, take (length l - 1) l) (fr_node frame) active)
               ({[fr_key frame]} ∪ validated) in
  flat_ok root st' ∧ closer st' (mkTraversal (frame :: below) active validated).
Proof.
  intros [Ha Hf Hd Hc]. cbn [tv_stack tv_active tv_validated] in *. apply Forall_cons in Hf as [Hf Hbelow].
  destruct Hf as (Hu & Hnode & Hkey & Hval & _). destruct (universe_nominal _ Hu) as [_ Hn].
  cbn [map] in Hd. apply NoDup_cons in Hd as [Hd1 Hd2]. split; [split; cbn [tv_stack tv_active tv_validated]|].
  - rewrite Ha, Hnode. apply list_eq. intros i. rewrite list_lookup_alter. case_decide as Ei.
    + subst i. rewrite !list_lookup_fmap, lookup_seq_lt by done. cbn. rewrite at_node_cons, decide_True by done. cbn [rev]. rewrite length_app, Nat.add_sub, take_app_length. done.
    + rewrite !list_lookup_fmap. destruct (seq 0 _ !! i) as [n|] eqn:Es; [|done]. cbn.
      apply lookup_seq in Es as [-> _]. by rewrite at_node_cons, decide_False.
  - apply Forall_forall. intros f Hin. rewrite Forall_forall in Hbelow.
    destruct (Hbelow _ Hin) as (? & ? & ? & Hv & ?). split_and!; [done..| |done].
    rewrite not_elem_of_union, not_elem_of_singleton, Hkey. split; [|done].
    intros E%semanticTypeKey_inj. apply Hd1. rewrite <- E. by apply list_elem_of_fmap_2.
  - done.
  - by destruct Hc.
  - left. unfold unvalidated. cbn [tv_validated]. apply subset_size. split.
    + apply difference_mono_l, union_subseteq_r.
    + intros Hs. specialize (Hs (semanticTypeKey (fr_type frame))). rewrite Hkey, !elem_of_difference in Hs.
      destruct Hs as [_ Hs]; [|apply Hs, elem_of_union_l, elem_of_singleton_2; done].
      split; [|done]. apply elem_of_list_to_set, list_elem_of_fmap. eauto.
Qed.

Lemma turn_skip root type node key child children below active validated :
  let st' := mkTraversal (mkFrame type node key children :: below) active validated in
  let st := mkTraversal (mkFrame type node key (child :: children) :: below) active validated in
  flat_ok root st → flat_ok root st' ∧ closer st' st.
Proof.
  intros st' st [Ha Hf Hd Hc]. subst st st'. cbn [tv_stack tv_active tv_validated] in *. split; [split; [done| |done|]|].
  - apply Forall_cons in Hf as [(? & ? & ? & ? & all & ? & Hin) Hf]. constructor; [|done]. split_and!; [done..|].
    exists all. split; [done|]. intros c Hc'. apply Hin. by right.
  - done.
  - right. split; [done|]. right. split; [done|]. cbn. lia.
Qed.

Lemma stack_within root st : flat_ok root st → length (tv_stack st) ≤ length universe.
Proof.
  intros [_ Hf Hd _]. rewrite <- (length_map fr_type). apply submseteq_length, NoDup_submseteq; [done|].
  intros t (f & -> & Hin)%list_elem_of_fmap. rewrite Forall_forall in Hf. by apply Hf.
Qed.

Lemma turn_push root type child span children node key below active validated :
  let st := mkTraversal (mkFrame type node key ((child, span) :: children) :: below) active validated in
  let st0 := mkTraversal (mkFrame type node key children :: below) active validated in
  flat_ok root st → nominal child = true → child ∉ types (tv_stack st) → semanticTypeKey child ∉ validated →
  ∃ st', push_type program_ model_ depth child st0 = Some st' ∧ flat_ok root st' ∧ closer st' st.
Proof.
  intros st st0 Hok Hn Hnew Hval. destruct (turn_skip _ _ _ _ _ _ _ _ _ Hok) as [Hok0 _]. fold st0 in Hok0.
  assert (∃ all, children_of type = Some all ∧ (child, span) ∈ all ∧ type ∈ universe) as (all & E & Hin & Hu).
  { destruct Hok as [_ Hf _ _]. apply Forall_cons in Hf as [(Hu & _ & _ & _ & all & E & Hin) _].
    exists all. split_and!; [done| |done]. apply Hin. left. }
  pose proof (list_elem_of_fmap_2 fst _ _ Hin) as Hin1. cbn in Hin1.
  destruct (universe_child _ _ _ Hu E Hin1 Hn) as [Hcu Hca].
  destruct (layouts_end _ Hcu) as [grandchildren Eg].
  eexists. unfold push_type, enter. rewrite Eg. cbn. split; [done|].
  assert (flat_ok root (mkTraversal (mkFrame child (type_node program_ child) (semanticTypeKey child) grandchildren ::
    mkFrame type node key children :: below) (alter (λ l, l ++ [child]) (type_node program_ child) active) validated)) as Hok'.
  { destruct Hok0 as [Ha Hf Hd Hc]. subst st0 st. cbn [tv_stack tv_active tv_validated] in *. split; cbn [tv_stack tv_active tv_validated].
    - rewrite Ha. apply list_eq. intros i. rewrite list_lookup_alter. case_decide as Ei; [subst i|]; rewrite !list_lookup_fmap;
        destruct (seq 0 _ !! _) as [n|] eqn:Es; try done; apply lookup_seq in Es as [-> _]; cbn; rewrite (at_node_cons _ (mkFrame child _ _ _)).
      + by rewrite decide_True.
      + by rewrite decide_False.
    - constructor; [|done]. split_and!; [done..|]. by exists grandchildren.
    - constructor; done.
    - split; [|done]. split; [|done]. by eapply layout_sound. }
  split; [done|]. right. split; [done|]. left. pose proof (stack_within _ _ Hok') as Hl. unfold unentered. cbn in *. lia.
Qed.

(** Each turn comes closer to the end; a type that is refused contains itself. *)
Lemma turn_flat root st : flat_ok root st → ∃ turn, cycle_turn program_ model_ depth st = Some turn ∧
  match turn with
  | Continue st' => flat_ok root st' ∧ closer st' st
  | Recursive _ => ¬ sized root
  | Done _ => True
  end.
Proof.
  intros Hok. destruct st as [[|[type node key children] below] active validated].
  { by eexists. }
  destruct children as [|[child span] children].
  { eexists. split; [reflexivity|]. by apply turn_end. }
  unfold cycle_turn. cbn [tv_stack fr_children fr_type fr_node fr_key tv_active tv_validated].
  destruct (nominal child) eqn:En; cbn [negb]; [|eexists; split; [done|]; by eapply turn_skip].
  pose proof (ok_frames _ _ Hok) as Hf. apply Forall_cons in Hf as [(Hu & _ & _ & _ & all & E & Hin) Hbelow]. cbn in Hu, E, Hin.
  pose proof (list_elem_of_fmap_2 fst _ _ (Hin (child, span) ltac:(left))) as Hin1. cbn in Hin1.
  destruct (universe_child _ _ _ Hu E Hin1 En) as [Hcu Hca]. destruct (universe_nominal _ Hcu) as [_ Hn].
  rewrite (active_lookup _ _ _ Hok Hn : active !! _ = _), last_rev. cbn [tv_stack].
  assert (Forall (λ t, t ∈ universe) (types (mkFrame type node key ((child, span) :: children) :: below))) as Hall.
  { apply Forall_map. apply (Forall_impl _ _ _ (ok_frames _ _ Hok)). by intros f []. }
  destruct (decide (child ∈ types (mkFrame type node key ((child, span) :: children) :: below))) as [Hon|Hon].
  - rewrite (head_at_node root), recurrence_equal, bool_decide_true by (done || apply (ok_chain _ _ Hok)).
    eexists. split; [done|]. intros Hs. destruct (chain_contains _ _ _ (ok_chain _ _ Hok) _ Hon) as [Hr Ht].
    apply (sized_no_cycle _ _ _ _ Hs Hr). eapply tc_rtc_l; [exact Ht|]. by eapply layout_sound.
  - assert ((match head (at_node (type_node program_ child) (mkFrame type node key ((child, span) :: children) :: below)) with
             | Some type0 => isInfiniteTypeRecurrence type0 child | None => false end) = false) as ->.
    { destruct (head _) as [t|] eqn:Et; [|done]. apply head_Some_elem_of, list_elem_of_filter in Et as [_ Et].
      rewrite recurrence_equal; [|by eapply Forall_forall in Hall|done..]. apply bool_decide_false. by intros ->. }
    case_bool_decide as Hval; [eexists; split; [done|]; by eapply turn_skip|].
    destruct (turn_push _ _ _ _ _ _ _ _ _ _ Hok En Hon Hval) as (st' & -> & ? & ?). by eexists.
Qed.

(** ** The loop ends *)

Lemma closer_wf : well_founded closer.
Proof.
  assert (∀ a b c st, unvalidated st = a → unentered st = b → unseen st = c → Acc closer st) as H.
  { induction a as [a IHa] using lt_wf_ind. induction b as [b IHb] using lt_wf_ind. induction c as [c IHc] using lt_wf_ind.
    intros st <- <- <-. constructor. intros st' [Hlt|[Ea [Hlt|[Eb Hlt]]]].
    - by eapply IHa.
    - by eapply IHb.
    - by eapply IHc. }
  intros st. by eapply H.
Qed.

Lemma cycle_loop_le turns turns' st result : turns ≤ turns' →
  cycle_loop program_ model_ depth turns st = Some result → cycle_loop program_ model_ depth turns' st = Some result.
Proof.
  revert turns' st. induction turns as [|turns IH]; intros turns' st Hle; [done|].
  destruct turns' as [|turns']; [lia|]. cbn [cycle_loop]. destruct (cycle_turn _ _ _ st) as [[]|]; cbn; auto with lia.
Qed.
Lemma check_roots_le turns turns' validated rs result : turns ≤ turns' →
  check_roots program_ model_ depth turns validated rs = Some result →
  check_roots program_ model_ depth turns' validated rs = Some result.
Proof.
  intros Hle. revert validated. induction rs as [|root rs IH]; intros validated; cbn [check_roots]; [done|].
  unfold check_root. case_bool_decide; cbn; [apply IH|]. destruct (push_type _ _ _ _ _) as [st|]; [|done]. cbn.
  destruct (cycle_loop _ _ _ turns st) as [r|] eqn:E; [|done]. rewrite (cycle_loop_le _ _ _ _ Hle E). cbn.
  destruct r; [done|apply IH].
Qed.

Lemma cycle_loop_flat root st : flat_ok root st →
  ∃ turns result, cycle_loop program_ model_ depth turns st = Some result ∧ ∀ span, result = inl span → ¬ sized root.
Proof.
  induction (closer_wf st) as [st _ IH]. intros Hok. destruct (turn_flat _ _ Hok) as (turn & E & Ht).
  destruct turn as [st'|span|validated].
  - destruct Ht as [Hok' Hlt]. destruct (IH _ Hlt Hok') as (turns & result & E' & H).
    exists (S turns), result. split; [|done]. cbn [cycle_loop]. by rewrite E.
  - exists 1, (inl span). split; [|done]. cbn [cycle_loop]. by rewrite E.
  - exists 1, (inr validated). split; [|done]. cbn [cycle_loop]. by rewrite E.
Qed.

Lemma check_roots_flat rs validated : (∀ root, root ∈ rs → root ∈ universe) →
  ∃ turns result, check_roots program_ model_ depth turns validated rs = Some result ∧
    ∀ span, result = Some span → ¬ Forall sized rs.
Proof.
  revert validated. induction rs as [|root rs IH]; intros validated Hin; [by exists 0, None|].
  assert (∀ validated, ∃ turns result, check_roots program_ model_ depth turns validated rs = Some result ∧
    ∀ span, result = Some span → ¬ Forall sized (root :: rs)) as Hrest.
  { intros v. destruct (IH v) as (turns & result & E & H); [intros; apply Hin; by right|].
    exists turns, result. split; [done|]. intros span Es Hs. apply Forall_cons in Hs as [_ Hs]. by apply (H span). }
  assert (root ∈ universe) as Hu by (apply Hin; left). cbn [check_roots]. unfold check_root.
  case_bool_decide as Hv; [apply Hrest|]. unfold push_type, enter. destruct (layouts_end _ Hu) as [children E].
  rewrite E. cbn [mbind option_bind tv_stack tv_active tv_validated].
  destruct (universe_nominal _ Hu) as [_ Hn].
  destruct (cycle_loop_flat root (mkTraversal [mkFrame root (type_node program_ root) (semanticTypeKey root) children]
    (alter (λ l, l ++ [root]) (type_node program_ root) (replicate (typeCount program_) [])) validated)) as (turns & result & El & Hr).
  { split; cbn [tv_stack tv_active tv_validated].
    - apply list_eq. intros i. rewrite list_lookup_alter, list_lookup_fmap.
      destruct (decide (i < typeCount program_)) as [Hi|Hi].
      + rewrite lookup_seq_lt by done. cbn. rewrite at_node_cons. cbn [fr_type]. case_decide as Ei; subst; rewrite lookup_replicate_2 by done; done.
      + assert (replicate (typeCount program_) ([] : list Ty) !! i = None) as Er by (apply lookup_ge_None; rewrite length_replicate; lia).
        rewrite lookup_seq_ge by lia. case_decide; [subst; by rewrite Er|by rewrite Er].
    - constructor; [|constructor]. split_and!; [done..|]. by exists children.
    - apply NoDup_singleton.
    - done. }
  destruct result as [span|validated'].
  - exists turns, (Some span). rewrite El. split; [done|]. intros span' _ Hs. apply Forall_cons in Hs as [Hs _].
    by apply (Hr span).
  - destruct (Hrest validated') as (turns' & result & E' & H). exists (turns `max` turns'), result.
    rewrite (cycle_loop_le turns (turns `max` turns') _ _ ltac:(lia) El). cbn. split; [|done].
    eapply check_roots_le; [|exact E']. lia.
Qed.

(** C13: in a program whose fields and payloads are, but for parameters and arrays, of types
    without arguments, and in whose declarations substitution ends, the check for recursive
    value types ends, and accepts the program exactly when every declared struct and enum
    has finite size. *)
Theorem cycle_check_exact :
  ∃ turns result, type_cycle program_ model_ depth turns = Some result ∧
    (result = None ↔ Forall sized (roots program_)).
Proof.
  destruct (check_roots_flat (roots program_) ∅) as (turns & result & E & H).
  { intros root Hr. unfold universe. by apply elem_of_app; left. }
  exists turns, result. split; [done|]. split.
  - intros ->. by eapply accepted_types_sized.
  - intros Hs. destruct result as [span|]; [|done]. by destruct (H span eq_refl).
Qed.
End exact.

(** ** Deciding the hypotheses *)

Definition plain_model (program_ : Program) (model_ : SemanticModel) : bool :=
  forallb (λ s, forallb (λ field, plain program_ (strip_arrays field)) (ss_fieldTypes s)) (sem_structs model_) &&
  forallb (λ e, forallb (λ field, plain program_ (strip_arrays field)) (omap id (se_payloadTypes e))) (sem_enums model_).
Definition layouts_within (program_ : Program) (model_ : SemanticModel) (depth : nat) : bool :=
  forallb (λ t, match layoutChildren program_ model_ depth t with Some _ => true | None => false end) (universe program_).

Lemma plain_model_components program_ model_ : plain_model program_ model_ = true →
  ∀ t field, field ∈ components model_ t → plain program_ (strip_arrays field) = true.
Proof.
  intros [Hs He]%andb_true_iff t field Hf. rewrite forallb_forall in Hs. rewrite forallb_forall in He.
  unfold components in Hf. destruct (ty_kind t); try by apply elem_of_nil in Hf.
  - destruct (sem_structs model_ !! _) as [s|] eqn:E; [|by apply elem_of_nil in Hf].
    apply list_elem_of_lookup_2, list_elem_of_In, Hs in E. rewrite forallb_forall in E. by apply E, list_elem_of_In.
  - destruct (sem_enums model_ !! _) as [s|] eqn:E; [|by apply elem_of_nil in Hf].
    apply list_elem_of_lookup_2, list_elem_of_In, He in E. rewrite forallb_forall in E. by apply E, list_elem_of_In.
Qed.
Lemma layouts_within_end program_ model_ depth : layouts_within program_ model_ depth = true →
  ∀ t, t ∈ universe program_ → is_Some (layoutChildren program_ model_ depth t).
Proof.
  unfold layouts_within. rewrite forallb_forall. intros H t Ht%list_elem_of_In%H. by destruct (layoutChildren _ _ _ _).
Qed.

Definition ring_source : list bytes :=
  [lit "struct Node { links [2]Link name String }"; lit "enum Link { End Next(Node) Far(Box) }"; lit "struct Box { text String count i32 }"].

Lemma cycle_check_exact_witness :
  plain_model (declared_program ring_source) (declared_model ring_source) = true ∧
  ∃ turns result, type_cycle (declared_program ring_source) (declared_model ring_source) 5 turns = Some result ∧
    (result = None ↔ Forall (sized (declared_program ring_source) (declared_model ring_source)) (roots (declared_program ring_source))).
Proof.
  split; [vm_compute; reflexivity|].
  apply (cycle_check_exact (declared_program ring_source) (declared_model ring_source) 5 eq_refl eq_refl).
  - apply plain_model_components. vm_compute. reflexivity.
  - apply layouts_within_end. vm_compute. reflexivity.
Defined.
