(* ===== verification/SemaTheorems.v ===== *)
(** * What the analysis of declarations gets wrong

    Programs on which the check for recursive value types does not end or refuses what is
    finite, a valid program on which substitution does not end, and a contract whose
    methods no struct can have. *)
From S2P Require Import Prelude Target Diagnostics Token Lexer Ast ParserState ParserProgram ProgramTheorems Types SemaTypes SemaModel SemaDeclare TypeCycles SemaSource TypeLayout TypeCycleProofs.

#[local] Arguments nominal : simpl never.
#[local] Arguments isInfiniteTypeRecurrence : simpl never.

(** ** A recursive type the check goes around for ever *)

Section after.
Context (program_ : Program) (model_ : SemanticModel) (depth : nat).

(** The state after some turns, none of which ended the loop. *)
Fixpoint after (turns : nat) (st : Traversal) : option Traversal :=
  match turns with
  | O => Some st
  | S turns =>
      turn ← cycle_turn program_ model_ depth st;
      match turn with Continue st => after turns st | _ => None end
  end.

Lemma after_loop turns st : is_Some (after turns st) → cycle_loop program_ model_ depth turns st = None.
Proof.
  revert st. induction turns as [|turns IH]; intros st; [done|]. cbn.
  destruct (cycle_turn _ _ _ st) as [[]|]; cbn; [apply IH|by intros []..].
Qed.

Lemma after_prefix n m st : is_Some (after (n + m) st) → is_Some (after n st).
Proof.
  revert st. induction n as [|n IH]; intros st; cbn; [by eexists|].
  destruct (cycle_turn _ _ _ st) as [[]|]; cbn; [apply IH|by intros []..].
Qed.
Lemma after_add n m st : after (n + m) st = st ← after n st; after m st.
Proof.
  revert st. induction n as [|n IH]; intros st; cbn; [done|].
  by destruct (cycle_turn _ _ _ st) as [[]|]; cbn.
Qed.

Lemma type_cycle_stuck turns root rest start :
  roots program_ = root :: rest →
  push_type program_ model_ depth root (mkTraversal [] (replicate (typeCount program_) []) ∅) = Some start →
  cycle_loop program_ model_ depth turns start = None → type_cycle program_ model_ depth turns = None.
Proof.
  intros Hr Hp Hl. unfold type_cycle. rewrite Hr. cbn [check_roots]. unfold check_root.
  rewrite bool_decide_false by apply not_elem_of_empty. rewrite Hp. cbn [mbind option_bind]. by rewrite Hl.
Qed.

(** A child whose own children are not found. *)
Lemma cycle_loop_stuck turns type node key child span children below active validated :
  nominal child = true → active !! type_node program_ child = Some [] → semanticTypeKey child ∉ validated →
  layoutChildren program_ model_ depth child = None →
  cycle_loop program_ model_ depth turns
    (mkTraversal (mkFrame type node key ((child, span) :: children) :: below) active validated) = None.
Proof.
  intros Hn Ha Hv Hc. destruct turns as [|turns]; [done|]. cbn [cycle_loop]. unfold cycle_turn, push_type, enter.
  cbn [tv_stack fr_children tv_active tv_validated]. by rewrite Hn, Ha, bool_decide_false, Hc by done.
Qed.

(** The top of the path, the last types on it of the first two declarations, and that
    nothing is done. *)
Definition at_top (frame : Frame) (y z : Ty) (st : Traversal) : Prop :=
  (∃ below, tv_stack st = frame :: below) ∧ (∃ l, tv_active st !! 0 = Some (l ++ [y])) ∧
  (∃ l, tv_active st !! 1 = Some (l ++ [z])) ∧ tv_validated st = ∅.

Lemma top_skip type node key child span children y z st :
  nominal child = false → at_top (mkFrame type node key ((child, span) :: children)) y z st →
  ∃ st', cycle_turn program_ model_ depth st = Some (Continue st') ∧ at_top (mkFrame type node key children) y z st'.
Proof.
  intros Hn ([below E] & Hy & Hz & Hv). unfold cycle_turn. rewrite E. cbn. rewrite Hn. cbn.
  eexists. split; [done|]. split_and!; [by exists below|done..].
Qed.

Lemma top_push type node key child span children y z st n all :
  nominal child = true → type_node program_ child = n → layoutChildren program_ model_ depth child = Some all →
  at_top (mkFrame type node key ((child, span) :: children)) y z st →
  n = 0 ∧ isInfiniteTypeRecurrence y child = false ∨ n = 1 ∧ isInfiniteTypeRecurrence z child = false →
  ∃ st', cycle_turn program_ model_ depth st = Some (Continue st') ∧
    at_top (mkFrame child n (semanticTypeKey child) all) (if n is 0 then child else y) (if n is 0 then z else child) st'.
Proof.
  intros Hn Hnode Hall ([below E] & [ly Hy] & [lz Hz] & Hv) Hi. unfold cycle_turn. rewrite E.
  cbn [fr_children tv_active tv_validated fr_type fr_node fr_key]. rewrite Hn, Hnode. cbn [negb].
  assert (∃ l t, tv_active st !! n = Some (l ++ [t]) ∧ isInfiniteTypeRecurrence t child = false) as (l & t & Ha & Ht).
  { destruct Hi as [[-> ?]|[-> ?]]; eauto. }
  rewrite Ha, last_snoc, Ht, Hv, bool_decide_false by apply not_elem_of_empty.
  unfold push_type, enter. rewrite Hall, Hnode. cbn. eexists. split; [done|].
  split_and!; cbn; [by eexists| | |done]; destruct Hi as [[-> _]|[-> _]]; cbn [tv_active]; rewrite list_lookup_alter;
    case_decide; try done; rewrite ?Hy, ?Hz; by eexists.
Qed.
End after.

Definition circling : list bytes :=
  [lit "struct Y<T> { x T y Y<Z<i32>> }"; lit "struct Z<T> { x T y Z<Y<bool>> }"].
Abbreviation circling_program := (declared_program circling).
Abbreviation circling_model := (declared_model circling).

Definition i32Type : Ty := scalar TypeKind.I32.
Definition yT (t : Ty) : Ty := mkTy TypeKind.Struct 0 [t].
Definition zT (t : Ty) : Ty := mkTy TypeKind.Struct 1 [t].
Definition yzi : Ty := yT (zT i32Type).
Definition zi : Ty := zT i32Type.
Definition zyb : Ty := zT (yT boolType).
Definition yb : Ty := yT boolType.

(** What the path ends in, over and over. *)
Definition on_circle (st : Traversal) : Prop :=
  ∃ type node key children y z, at_top (mkFrame type node key children) y z st ∧
    (children.*1 = [zi; yzi] ∧ y = yzi ∧ z = zyb ∨
     children.*1 = [i32Type; zyb] ∧ y = yzi ∧ z = zi ∨
     children.*1 = [zyb] ∧ y = yzi ∧ z = zi ∨
     children.*1 = [yb; zyb] ∧ y = yzi ∧ z = zyb ∨
     children.*1 = [boolType; yzi] ∧ y = yb ∧ z = zyb ∨
     children.*1 = [yzi] ∧ y = yb ∧ z = zyb).

Definition circle_layout (t : Ty) : option (list Ty) :=
  (λ l, l.*1) <$> layoutChildren circling_program circling_model 30 t.

Lemma circle_layouts :
  circle_layout yzi = Some [zi; yzi] ∧ circle_layout zi = Some [i32Type; zyb] ∧
  circle_layout zyb = Some [yb; zyb] ∧ circle_layout yb = Some [boolType; yzi].
Proof. vm_compute. done. Qed.

Lemma circle_children t children : circle_layout t = Some children →
  ∃ all, layoutChildren circling_program circling_model 30 t = Some all ∧ all.*1 = children.
Proof. unfold circle_layout. destruct (layoutChildren _ _ _ _) as [all|]; [|done]. intros [= <-]. by exists all. Qed.

Ltac on_circle_next H E :=
  let st := fresh "st" in let Et := fresh "Et" in let Hst := fresh "Hst" in
  destruct H as (st & Et & Hst); exists st; split; [exact Et|];
  eexists _, _, _, _, _, _; split; [exact Hst|]; rewrite E; auto 10.
Ltac circle_skip E :=
  lazymatch goal with Htop : at_top _ _ _ _ |- _ =>
    let H := fresh in
    pose proof (λ n, top_skip circling_program circling_model 30 _ _ _ _ _ _ _ _ _ n Htop) as H;
    specialize (H ltac:(vm_compute; reflexivity)); on_circle_next H E
  end.
Ltac circle_push layout node :=
  lazymatch goal with Htop : at_top _ _ _ _ |- _ =>
    let all := fresh "all" in let Ea := fresh "Ea" in let E := fresh "E" in let H := fresh in
    destruct (circle_children _ _ layout) as (all & E & Ea);
    pose proof (λ c d i, top_push circling_program circling_model 30 _ _ _ _ _ _ _ _ _ node _ c d E Htop i) as H;
    specialize (H ltac:(vm_compute; reflexivity) ltac:(vm_compute; reflexivity)
      ltac:(vm_compute; auto));
    on_circle_next H Ea
  end.

Lemma circle_turn st : on_circle st →
  ∃ st', cycle_turn circling_program circling_model 30 st = Some (Continue st') ∧ on_circle st'.
Proof.
  destruct circle_layouts as (Lyzi & Lzi & Lzyb & Lyb).
  intros (type & node & key & [|[child span] children] & y & z & Htop & H);
    [by destruct H as [(? & _)|[(? & _)|[(? & _)|[(? & _)|[(? & _)|(? & _)]]]]]|].
  destruct H as [(E & -> & ->)|[(E & -> & ->)|[(E & -> & ->)|[(E & -> & ->)|[(E & -> & ->)|(E & -> & ->)]]]]];
    injection E as -> E; change (list_fmap _ _ fst children) with (children.*1) in E.
  - circle_push Lzi 1.
  - circle_skip E.
  - circle_push Lzyb 1.
  - circle_push Lyb 0.
  - circle_skip E.
  - circle_push Lyzi 0.
Qed.

Lemma circle_after turns st : on_circle st → is_Some (after circling_program circling_model 30 turns st).
Proof.
  revert st. induction turns as [|turns IH]; intros st H; cbn; [by eexists|].
  destruct (circle_turn _ H) as (st' & -> & Hst'). cbn. by apply IH.
Qed.

Abbreviation circle_start := (push_type circling_program circling_model 30 (yT (mkTy TypeKind.TypeParameter 0 []))
  (mkTraversal [] (replicate (typeCount circling_program) []) ∅)).

Lemma circle_entered : ∃ start st, circle_start = Some start ∧
  after circling_program circling_model 30 5 start = Some st ∧ on_circle st.
Proof.
  destruct circle_start as [start|] eqn:Es; [|by vm_compute in Es]. exists start.
  destruct (after circling_program circling_model 30 5 start) as [st|] eqn:E.
  - exists st. split_and!; [done..|].
    assert ((λ st, (default [] ((λ f, (fr_children f).*1) <$> head (tv_stack st)),
      (last <$> tv_active st !! 0, last <$> tv_active st !! 1, bool_decide (tv_validated st = ∅)))) <$>
      (start ← circle_start; after circling_program circling_model 30 5 start) =
      Some ([yb; zyb], (Some (Some yzi), Some (Some zyb), true))) as H by (by vm_compute).
    rewrite Es in H. cbn [mbind option_bind] in H. rewrite E in H. cbn [fmap option_fmap option_map] in H.
    injection H as Hc Hy Hz Hv. apply bool_decide_eq_true in Hv.
    destruct (tv_stack st) as [|[type node key children] below] eqn:Est; [done|].
    exists type, node, key, children, yzi, zyb. split; [|cbn in Hc; rewrite <- Hc; auto 10].
    split_and!; [by exists below| | |done].
    + destruct (tv_active st !! 0) as [l|]; [|done]. injection Hy as (l' & ->)%last_Some. by exists l'.
    + destruct (tv_active st !! 1) as [l|]; [|done]. injection Hz as (l' & ->)%last_Some. by exists l'.
  - exfalso. assert (is_Some (start ← circle_start; after circling_program circling_model 30 5 start)) as H.
    { vm_compute. by eexists. }
    rewrite Es in H. cbn [mbind option_bind] in H. rewrite E in H. by destruct H.
Qed.

Lemma circle_roots : ∃ rest, roots circling_program = yT (mkTy TypeKind.TypeParameter 0 []) :: rest.
Proof. vm_compute. eexists. reflexivity. Qed.

Lemma circle_contains :
  rtc (contains circling_program circling_model) (yT (mkTy TypeKind.TypeParameter 0 [])) yzi ∧
  tc (contains circling_program circling_model) yzi yzi.
Proof.
  assert (components circling_model (yT (mkTy TypeKind.TypeParameter 0 [])) !! 1 = Some yzi) as H1 by (vm_compute; reflexivity).
  assert (components circling_model yzi !! 1 = Some yzi) as H2 by (vm_compute; reflexivity).
  assert (∀ t, substitute circling_program circling_model 30 yzi t = Some yzi) as Hs by (intros t; vm_compute; reflexivity).
  split; [apply rtc_once|apply tc_once].
  - exact (contains_component _ _ _ _ 30 _ (list_elem_of_lookup_2 _ _ _ H1) (Hs _)).
  - exact (contains_component _ _ _ _ 30 _ (list_elem_of_lookup_2 _ _ _ H2) (Hs _)).
Qed.

Lemma circle_stuck start turns : circle_start = Some start →
  is_Some (after circling_program circling_model 30 turns start) →
  type_cycle circling_program circling_model 30 turns = None.
Proof.
  intros Es Ha. destruct circle_roots as [rest Er].
  exact (type_cycle_stuck _ _ _ _ _ _ _ Er Es (after_loop _ _ _ _ _ Ha)).
Qed.

(** C40: the check for recursive value types does not end on every program: of two structs that
    contain each other at other arguments, [Y<T>] with a field [Y<Z<i32>>] and [Z<T>] with
    a field [Z<Y<bool>>], the check goes from one to the other and back for ever, because
    it compares a type only with the last one of its declaration on the path.  The type it
    is at contains itself, which is what the check is to refuse. *)
Theorem cycle_check_circles :
  declares circling ∧
  (∃ t, rtc (contains circling_program circling_model) (yT (mkTy TypeKind.TypeParameter 0 [])) t ∧
        tc (contains circling_program circling_model) t t) ∧
  (∃ start, circle_start = Some start ∧
     ∀ turns, is_Some (after circling_program circling_model 30 turns start)) ∧
  ∀ turns, type_cycle circling_program circling_model 30 turns = None.
Proof.
  destruct circle_entered as (start & st & Es & Ea & Hc).
  assert (∀ turns, is_Some (after circling_program circling_model 30 turns start)) as Hall.
  { intros turns. apply (after_prefix _ _ _ turns 5). rewrite Nat.add_comm, after_add, Ea. exact (circle_after turns st Hc). }
  split; [apply declares_check; vm_compute; reflexivity|]. split; [exact (ex_intro _ yzi circle_contains)|].
  split; [exists start; split; [exact Es|exact Hall]|].
  intros turns. exact (circle_stuck start turns Es (Hall turns)).
Qed.

(** ** A type of finite size that is refused *)

Definition outer_first : list bytes :=
  [lit "struct Outer { result Result<Inner, bool> }"; lit "struct Inner { result Result<i32, bool> }"].
Definition inner_first : list bytes :=
  [lit "struct Inner { result Result<i32, bool> }"; lit "struct Outer { result Result<Inner, bool> }"].

(** The answer of the check for a source text, and where the type it refuses is written. *)
Definition cycle_answer (source : list bytes) : option (option nat) :=
  option_map (option_map span_line) (type_cycle (declared_program source) (declared_model source) 30 100).

(** The check for recursive value types refuses some types of finite size, depending on the
    order of the declarations: a struct with a [Result<Inner, bool>] is refused when it is
    declared before [Inner], which has a [Result<i32, bool>], since the second contains the
    argument [bool] of the first; the same two declarations in the other order are accepted. *)
Theorem finite_type_refused :
  declares outer_first ∧ declares inner_first ∧
  Forall (sized (declared_program outer_first) (declared_model outer_first)) (roots (declared_program outer_first)) ∧
  cycle_answer outer_first = Some (Some 2) ∧ cycle_answer inner_first = Some None.
Proof.
  split; [apply declares_check; vm_compute; reflexivity|]. split; [apply declares_check; vm_compute; reflexivity|].
  split; [apply (sized_roots _ _ 30 30); vm_compute; reflexivity|]. split; vm_compute; reflexivity.
Qed.

(** ** A valid type on which substitution does not end *)

Section copy.
Context (program_ : Program) (model_ : SemanticModel).

Lemma copy_parameter_struct depth active declaration arguments structure :
  let type := mkTy TypeKind.Struct declaration arguments in
  semanticTypeKey type ∉ active → sem_structs model_ !! declaration = Some structure →
  has_drop_function program_ (struct_name program_ declaration) = false →
  copy_parameter program_ model_ (S depth) active type =
  all_of (λ field, t ← substitute_with (copy_parameter program_ model_ depth ∅) arguments field;
                   copy_parameter program_ model_ depth ({[semanticTypeKey type]} ∪ active) t) (ss_fieldTypes structure).
Proof.
  intros type Ha Hs Hd. cbn [copy_parameter]. rewrite (bool_decide_false _ Ha).
  change (scalar_value type) with false. cbn [ty_kind ty_declaration ty_arguments type single kind_in negb].
  change (isCFunction type) with false. cbn. by rewrite Hs, Hd.
Qed.

Definition callback_of (target : Ty) : Ty := mkTy TypeKind.Function 0 [voidType; mkTy TypeKind.View 1 [target]].

(** Two structs, the second of which has a function that takes the first. *)
Lemma callback_copy_never a b rest rest' i i' d d' :
  sem_structs model_ !! b = Some (mkSemanticStruct 0 (mkTy TypeKind.Struct a [] :: rest) i d) →
  sem_structs model_ !! a = Some (mkSemanticStruct 0 (callback_of (mkTy TypeKind.Struct b []) :: rest') i' d') →
  has_drop_function program_ (struct_name program_ a) = false →
  has_drop_function program_ (struct_name program_ b) = false → a ≠ b →
  ∀ depth active, semanticTypeKey (mkTy TypeKind.Struct b []) ∉ active → semanticTypeKey (mkTy TypeKind.Struct a []) ∉ active →
  copy_parameter program_ model_ depth active (mkTy TypeKind.Struct b []) = None.
Proof.
  intros Hb Ha Da Db Hab. induction depth as [depth IH] using lt_wf_ind. intros active Kb Ka.
  destruct depth as [|depth]; [done|]. rewrite (copy_parameter_struct _ _ _ _ _ Kb Hb Db).
  cbn [all_of ss_fieldTypes substitute_with mbind option_bind].
  assert (semanticTypeKey (mkTy TypeKind.Struct a []) ∉ {[semanticTypeKey (mkTy TypeKind.Struct b [])]} ∪ active) as Ka'.
  { rewrite not_elem_of_union, not_elem_of_singleton. split; [|done]. intros [=]%semanticTypeKey_inj. done. }
  destruct depth as [|depth]; [done|]. rewrite (copy_parameter_struct _ _ _ _ _ Ka' Ha Da).
  cbn [all_of ss_fieldTypes substitute_with callback_of mbind option_bind voidType scalar].
  by rewrite (IH depth) by (lia || apply not_elem_of_empty).
Qed.

Lemma callback_layout_never a target rest i d depth :
  sem_structs model_ !! a = Some (mkSemanticStruct 0 (callback_of target :: rest) i d) → ty_kind target = TypeKind.Struct →
  ty_arguments target = [] → isCopyParameterType program_ model_ depth target = None →
  layoutChildren program_ model_ depth (mkTy TypeKind.Struct a []) = None.
Proof.
  intros Hs Hk Ha Hc. destruct target as [kind declaration arguments]. cbn in Hk, Ha. subst. unfold layoutChildren.
  cbn [ty_kind ty_declaration ty_arguments].
  rewrite bool_decide_true, bool_decide_true by (done || by eapply lookup_lt_Some). rewrite Hs. cbn. by rewrite Hc.
Qed.
End copy.

Definition callback_source : list bytes :=
  [lit "struct Button { state State label String }"; lit "struct State { onChange fn(Button) void }"].
Abbreviation callback_program := (declared_program callback_source).
Abbreviation callback_model := (declared_model callback_source).
Definition buttonType : Ty := mkTy TypeKind.Struct 0 [].
Definition stateType : Ty := mkTy TypeKind.Struct 1 [].

Lemma callback_structs :
  sem_structs callback_model !! 0 = Some (mkSemanticStruct 0 [stateType; stringType] [] []) ∧
  sem_structs callback_model !! 1 = Some (mkSemanticStruct 0 [callback_of buttonType] [] []) ∧
  has_drop_function callback_program (struct_name callback_program 0) = false ∧
  has_drop_function callback_program (struct_name callback_program 1) = false.
Proof. vm_compute. done. Qed.

Lemma callback_copy depth : isCopyParameterType callback_program callback_model depth buttonType = None.
Proof.
  destruct callback_structs as (H0 & H1 & D0 & D1).
  exact (callback_copy_never _ _ 1 0 _ _ _ _ _ _ H0 H1 D1 D0 (Nat.neq_succ_0 0) depth ∅ (not_elem_of_empty _) (not_elem_of_empty _)).
Qed.
Lemma callback_layout depth : layoutChildren callback_program callback_model depth stateType = None.
Proof.
  destruct callback_structs as (_ & H1 & _).
  exact (callback_layout_never _ _ 1 buttonType _ _ _ depth H1 eq_refl eq_refl (callback_copy depth)).
Qed.

Lemma callback_push depth : ∃ span active below,
  push_type callback_program callback_model depth buttonType
    (mkTraversal [] (replicate (typeCount callback_program) []) ∅) =
  Some (mkTraversal (mkFrame buttonType 0 (semanticTypeKey buttonType) ((stateType, span) :: below) :: []) active ∅) ∧
  active !! type_node callback_program stateType = Some [].
Proof. vm_compute. eexists _, _, _. split; reflexivity. Qed.
Lemma callback_roots : ∃ rest, roots callback_program = buttonType :: rest.
Proof. vm_compute. eexists. reflexivity. Qed.

(** Substitution does not end on every valid program: of a struct with a field of a second
    struct and a [String], and the second struct with a function that takes the first, to
    tell whether the function's parameter is copied needs the fields of the first, among
    them the function.  Resolving the declarations reports nothing; the check for recursive
    value types, which substitutes in every field, then calls itself without end. *)
Theorem callback_substitution_endless :
  declares callback_source ∧
  ∀ depth, isCopyParameterType callback_program callback_model depth buttonType = None ∧
    ∀ turns, type_cycle callback_program callback_model depth turns = None.
Proof.
  split; [apply declares_check; vm_compute; reflexivity|]. intros depth. split; [exact (callback_copy depth)|].
  intros turns. destruct callback_roots as [rest Er]. destruct (callback_push depth) as (span & active & below & Ep & Ea).
  apply (type_cycle_stuck _ _ _ _ _ _ _ Er Ep).
  exact (cycle_loop_stuck _ _ _ _ _ _ _ _ _ _ _ _ _ (eq_refl : nominal stateType = true) Ea (not_elem_of_empty _) (callback_layout depth)).
Qed.

(** ** Contracts are resolved before structs *)

Definition contract_source : list bytes :=
  [lit "struct Name { text String }";
   lit "contract Printer { fn print(self, name Name) void }";
   lit "struct Console implements Printer { fn print(self, name Name) void { } }"].

(** The parameter [name] of the method of the contract, and of the function. *)
Definition contract_parameter (source : list bytes) : option (list (list Ty)) :=
  option_map (λ p, map (λ c, concat (map sm_parameterTypes (sc_methods c))) (sem_contracts (an_model p.2)))
    (declared 30 source).
Definition function_parameters (source : list bytes) : option (list (list (option Ty))) :=
  option_map (λ p, map (λ f, map (λ parameter, option_map fst (resolveParameterType p.1 30 parameter p.2))
    (tail (fn_parameters f))) (pr_functions p.1)) (declared 30 source).

(** A read parameter of a struct that is not copied has one type in the method of a contract
    and another in the function of a struct that implements it with the same text: contracts
    are resolved before the fields of structs are known, when every struct passes for one
    without fields, which is copied; the function, resolved after, takes a view. *)
Theorem contract_parameter_early :
  declares contract_source ∧ contract_parameter contract_source = Some [[mkTy TypeKind.Struct 0 []]] ∧
  function_parameters contract_source = Some [[Some (mkTy TypeKind.View 0 [mkTy TypeKind.Struct 0 []])]].
Proof. split; [apply declares_check; vm_compute; reflexivity|]. split; vm_compute; reflexivity. Qed.
