(* ===== verification/Recursion.v ===== *)
(** * Calls of generic functions (compiler/src/sema.cpp, [rejectPolymorphicRecursion])

    Which calls between generic functions are refused, and that a program the check accepts
    leads to finitely many instances of the functions (compiler/src/codegen.cpp,
    [instantiateFunction]). *)
From S2P Require Import Prelude Target Diagnostics Token Lexer Ast ParserState ParserProgram ProgramTheorems Types SemaTypes SemaModel SemaDeclare TypeCycles SemaSource TypeLayout.

Record GenericCall := mkGenericCall {
  gc_from : nat;
  gc_to : nat;
  gc_arguments : list Ty;
  gc_span : SourceSpan;
}.

Section recursion.
Context (program_ : Program) (genericCalls_ : list GenericCall).

Definition call_edges (function : nat) : list nat :=
  map gc_to (filter (λ call, gc_from call = function) genericCalls_).

(** The search of [from], when it takes at most [turns] turns: the last function of
    [pending], here the first, is next. *)
Fixpoint calls_back (turns from : nat) (pending : list nat) (seen : gset nat) : option bool :=
  match turns with
  | O => None
  | S turns =>
      match pending with
      | [] => Some false
      | function :: pending =>
          if bool_decide (function = from) then Some true
          else if bool_decide (function ∈ seen) then calls_back turns from pending seen
          else calls_back turns from (rev (call_edges function) ++ pending) ({[function]} ∪ seen)
      end
  end.
(** Each call is followed once. *)
Definition search (from to : nat) : option bool := calls_back (S (S (length genericCalls_))) from [to] ∅.

Definition parameter_count (function : nat) : nat :=
  match pr_functions program_ !! function with Some f => length (fn_typeParameters f) | None => 0 end.
Definition identity_call (call : GenericCall) : bool :=
  bool_decide (length (gc_arguments call) = parameter_count (gc_from call)) &&
  forallb (λ p : nat * Ty, bool_decide (ty_kind p.2 = TypeKind.TypeParameter) && bool_decide (ty_declaration p.2 = p.1) &&
                           bool_decide (ty_arguments p.2 = [])) (imap pair (gc_arguments call)).

Definition report_recursion (span : SourceSpan) : A () :=
  report (lit "FDN2046") (lit "polymorphic recursion is not supported") span.
Definition rejectPolymorphicRecursion : A () :=
  for_each (λ call,
    cyclic ← ask (λ _, search (gc_from call) (gc_to call));
    if (cyclic : bool) && negb (identity_call call) then report_recursion (gc_span call) else mret ()) genericCalls_.

(** ** The search *)

Definition calls (f g : nat) : Prop := g ∈ call_edges f.
Lemma calls_spec f g : calls f g ↔ ∃ call, call ∈ genericCalls_ ∧ gc_from call = f ∧ gc_to call = g.
Proof.
  unfold calls, call_edges. rewrite list_elem_of_fmap. split.
  - intros (call & -> & [? ?]%list_elem_of_filter). eauto.
  - intros (call & ? & ? & <-). exists call. split; [done|]. by apply list_elem_of_filter.
Qed.

(** The calls that were not followed. *)
Definition ahead (seen : gset nat) : nat := length (filter (λ call, gc_from call ∉ seen) genericCalls_).

Lemma ahead_insert f seen : f ∉ seen → ahead ({[f]} ∪ seen) + length (call_edges f) = ahead seen.
Proof.
  intros Hf. unfold ahead, call_edges. rewrite length_map. induction genericCalls_ as [|call l IH]; [done|].
  rewrite !filter_cons. repeat case_decide; cbn; first [lia|set_solver].
Qed.

Lemma calls_back_spec turns from to pending seen :
  length pending + ahead seen < turns →
  (∀ f, f ∈ pending → rtc calls to f) → to ∈ seen ∨ to ∈ pending → from ∉ seen →
  (∀ f g, f ∈ seen → calls f g → g ∈ seen ∨ g ∈ pending) →
  ∃ b, calls_back turns from pending seen = Some b ∧ (b = true ↔ rtc calls to from).
Proof.
  revert pending seen. induction turns as [|turns IH]; intros pending seen Hlen Hp Hto Hfrom Hclosed; [lia|].
  cbn [calls_back]. destruct pending as [|f pending].
  - exists false. split; [done|]. split; [done|]. intros Hr. exfalso. apply Hfrom.
    destruct Hto as [Hto|Hto]; [|by apply elem_of_nil in Hto].
    clear -Hr Hto Hclosed. induction Hr as [x|x y z Hxy _ IH]; [done|]. apply IH.
    by destruct (Hclosed _ _ Hto Hxy) as [?|?%elem_of_nil].
  - case_bool_decide as Ef; [subst f; exists true; split; [done|]; split; [|done]; intros _; apply Hp; left|].
    assert (rtc calls to f) as Hf by (apply Hp; left). cbn [length] in Hlen.
    case_bool_decide as Es.
    + apply IH; [lia|intros g Hg; apply Hp; by right| |done|]; [set_solver|].
      intros g h Hg Hgh. destruct (Hclosed _ _ Hg Hgh) as [?|Hh]; [by left|]. apply elem_of_cons in Hh as [->|?]; auto.
    + pose proof (ahead_insert _ _ Es) as Ha. apply IH.
      * rewrite length_app, length_rev. lia.
      * intros g [Hg|Hg]%elem_of_app; [|apply Hp; by right]. eapply rtc_r; [done|]. unfold calls.
        by apply list_elem_of_In, in_rev, list_elem_of_In.
      * set_solver.
      * set_solver.
      * intros g h [->%elem_of_singleton|Hg]%elem_of_union Hgh.
        -- right. apply elem_of_app. left. by apply list_elem_of_In, in_rev; rewrite rev_involutive; apply list_elem_of_In.
        -- destruct (Hclosed _ _ Hg Hgh) as [?|[->|?]%elem_of_cons]; [set_solver..|]. right. apply elem_of_app. by right.
Qed.

Lemma search_spec from to : ∃ b, search from to = Some b ∧ (b = true ↔ rtc calls to from).
Proof.
  apply calls_back_spec; cbn.
  - assert (ahead ∅ ≤ length genericCalls_) by apply length_filter. lia.
  - intros f ->%list_elem_of_singleton. constructor.
  - right. left.
  - apply not_elem_of_empty.
  - intros f g Hf. by apply elem_of_empty in Hf.
Qed.

Lemma identity_spec call :
  identity_call call = true ↔ gc_arguments call = own_parameters (parameter_count (gc_from call)).
Proof.
  unfold identity_call, own_parameters. rewrite andb_true_iff, bool_decide_eq_true, forallb_forall. split.
  - intros [Hl Ha]. apply list_eq. intros i. rewrite list_lookup_fmap.
    destruct (decide (i < parameter_count (gc_from call))) as [Hi|Hi].
    + destruct (lookup_lt_is_Some_2 (gc_arguments call) i) as [t Ht]; [lia|]. rewrite lookup_seq_lt, Ht by done.
      assert (List.In (i, t) (imap pair (gc_arguments call))) as Hin.
      { apply list_elem_of_In, elem_of_lookup_imap. by exists i, t. }
      apply Ha in Hin. rewrite !andb_true_iff, !bool_decide_eq_true in Hin. destruct t as [k d a]. cbn in Hin.
      by destruct Hin as [[-> ->] ->].
    + rewrite lookup_seq_ge, lookup_ge_None_2 by lia. done.
  - intros ->. rewrite length_map, length_seq. split; [done|].
    intros [i t] Hin%list_elem_of_In. apply elem_of_lookup_imap in Hin as (? & ? & [= <- <-] & Hl).
    rewrite list_lookup_fmap in Hl. destruct (seq 0 _ !! i) as [n|] eqn:Es; [|done]. apply lookup_seq in Es as [-> _].
    injection Hl as <-. cbn. by rewrite !bool_decide_true.
Qed.

(** A call that may come back to its caller, with other arguments than the caller's own. *)
Definition polymorphic (call : GenericCall) : Prop :=
  rtc calls (gc_to call) (gc_from call) ∧ gc_arguments call ≠ own_parameters (parameter_count (gc_from call)).

Lemma for_each_reports (refused : GenericCall → bool) (body : GenericCall → A ()) l st :
  (∀ call st, call ∈ l → body call st = (if refused call then report_recursion (gc_span call) else mret ()) st) →
  ∃ st', for_each body l st = Some ((), st') ∧
    an_diagnostics st' = foldl (λ diagnostics call, error diagnostics (lit "FDN2046")
      (lit "polymorphic recursion is not supported") (gc_span call)) (an_diagnostics st) (filter refused l).
Proof.
  revert st. induction l as [|call l IH]; intros st H; [by exists st|].
  cbn [for_each]. unfold mbind, A_bind. rewrite H by left. rewrite filter_cons.
  destruct (refused call); [rewrite decide_True by done|rewrite decide_False by (by intros [])]; cbn;
    (edestruct IH as (st' & E & Hd); [intros c s Hc; apply H; by right|]); exists st'; (split; [exact E|exact Hd]).
Qed.

Lemma rejectPolymorphicRecursion_reports st :
  ∃ st' refused, rejectPolymorphicRecursion st = Some ((), st') ∧
    an_diagnostics st' = foldl (λ diagnostics call, error diagnostics (lit "FDN2046")
      (lit "polymorphic recursion is not supported") (gc_span call)) (an_diagnostics st) refused ∧
    sublist refused genericCalls_ ∧ ∀ call, call ∈ refused ↔ call ∈ genericCalls_ ∧ polymorphic call.
Proof.
  set (refused := λ call, default false (search (gc_from call) (gc_to call)) && negb (identity_call call)).
  destruct (for_each_reports refused (λ call,
    cyclic ← ask (λ _, search (gc_from call) (gc_to call));
    if (cyclic : bool) && negb (identity_call call) then report_recursion (gc_span call) else mret ()) genericCalls_ st)
    as (st' & E & Hd).
  { intros call s _. unfold refused, mbind, A_bind, ask. by destruct (search_spec (gc_from call) (gc_to call)) as (b & -> & _). }
  exists st', (filter refused genericCalls_). split_and!; [exact E|exact Hd|apply sublist_filter|].
  intros call. rewrite list_elem_of_filter. unfold refused, polymorphic. rewrite <- identity_spec.
  destruct (search_spec (gc_from call) (gc_to call)) as (b & -> & <-). cbn.
  rewrite Is_true_true, andb_true_iff, negb_true_iff, not_true_iff_false. tauto.
Qed.

(** C15: [rejectPolymorphicRecursion] ends, and reports exactly the recorded calls of generic
    functions that can lead back to the calling function with other arguments than its own
    parameters, each once and in their order. *)
Theorem polymorphic_recursion_exact st :
  ∃ st' refused, rejectPolymorphicRecursion st = Some ((), st') ∧
    an_diagnostics st' = foldl (λ diagnostics call, error diagnostics (lit "FDN2046")
      (lit "polymorphic recursion is not supported") (gc_span call)) (an_diagnostics st) refused ∧
    sublist refused genericCalls_ ∧ ∀ call, call ∈ refused ↔ call ∈ genericCalls_ ∧ polymorphic call.
Proof. apply rejectPolymorphicRecursion_reports. Qed.

Lemma error_noticed d code message span : length d ≤ maxDiagnostics → hasErrors (error d code message span) = true.
Proof.
  intros H. unfold hasErrors, error, add. rewrite bool_decide_false by lia.
  case_bool_decide; rewrite existsb_app; cbn; apply orb_true_r.
Qed.
Lemma errors_stay d l code message : hasErrors d = true →
  hasErrors (foldl (λ diagnostics call, error diagnostics code message (gc_span call)) d l) = true.
Proof.
  revert d. induction l as [|call l IH]; intros d H; cbn; [done|]. apply IH. unfold hasErrors, error, add in *.
  repeat case_bool_decide; [done|..]; by rewrite existsb_app, H.
Qed.

(** A log with room is without an error behind the check only if no call is refused. *)
Lemma accepted_calls st st' :
  rejectPolymorphicRecursion st = Some ((), st') → length (an_diagnostics st) ≤ maxDiagnostics →
  hasErrors (an_diagnostics st') = false → ∀ call, call ∈ genericCalls_ → ¬ polymorphic call.
Proof.
  intros E Hl He call Hc Hp. destruct (rejectPolymorphicRecursion_reports st) as (st1 & refused & E1 & Hd & _ & Hr).
  rewrite E in E1. injection E1 as <-. destruct refused as [|first refused].
  - assert (call ∈ @nil GenericCall) as H%elem_of_nil by (by apply Hr). done.
  - rewrite Hd in He. cbn in He. rewrite errors_stay in He; [done|]. by apply error_noticed.
Qed.
End recursion.

(** ** Instances (compiler/src/codegen.cpp, [Monomorphizer::instantiateFunction]) *)

(** A parameter becomes the argument at its index. *)
Fixpoint codegen_substitute (arguments : list Ty) (type : Ty) : Ty :=
  match type with
  | mkTy TypeKind.TypeParameter declaration _ => default invalidType (arguments !! declaration)
  | mkTy kind declaration inner => mkTy kind declaration (map (codegen_substitute arguments) inner)
  end.

Section instances.
Context (program_ : Program) (genericCalls_ : list GenericCall).
Abbreviation calls := (calls genericCalls_).
Abbreviation parameter_count := (parameter_count program_).

(** A function and the types its parameters stand for. *)
Definition Instance_ : Type := nat * list Ty.

(** The branch of [instantiateFunction] for a call expression: for an instance of the caller,
    the called function is instantiated at the arguments of the call, with the caller's own
    types substituted.  Every generic call of a generic function is in [genericCalls_]. *)
Inductive instance_calls : Instance_ → Instance_ → Prop :=
  | instance_call call arguments :
      call ∈ genericCalls_ →
      instance_calls (gc_from call, arguments) (gc_to call, map (codegen_substitute arguments) (gc_arguments call)).

(** A call has as many arguments as the function it calls has parameters. *)
Hypothesis arities : ∀ call, call ∈ genericCalls_ → length (gc_arguments call) = parameter_count (gc_to call).
(** Nothing is reported. *)
Hypothesis accepted : ∀ call, call ∈ genericCalls_ → ¬ polymorphic program_ genericCalls_ call.

Lemma substitute_own arguments : map (codegen_substitute arguments) (own_parameters (length arguments)) = arguments.
Proof.
  unfold own_parameters. rewrite map_map. cbn. apply list_eq. intros i. rewrite list_lookup_fmap.
  destruct (decide (i < length arguments)) as [Hi|Hi].
  - rewrite lookup_seq_lt by done. cbn. by destruct (lookup_lt_is_Some_2 arguments i Hi) as [t ->].
  - by rewrite lookup_seq_ge, lookup_ge_None_2 by lia.
Qed.

(** A call that can come back passes on its caller's types. *)
Lemma cyclic_call_same call arguments :
  call ∈ genericCalls_ → rtc calls (gc_to call) (gc_from call) → length arguments = parameter_count (gc_from call) →
  map (codegen_substitute arguments) (gc_arguments call) = arguments.
Proof.
  intros Hc Hr Hl. assert (gc_arguments call = own_parameters (parameter_count (gc_from call))) as Ho.
  { rewrite <- identity_spec. apply not_false_is_true. intros Hi. apply (accepted call Hc). split; [done|].
    rewrite <- identity_spec. by rewrite Hi. }
  by rewrite Ho, <- Hl, substitute_own.
Qed.

Definition reaches (f g : nat) : bool := default false (search genericCalls_ g f).
Lemma reaches_spec f g : reaches f g = true ↔ rtc calls f g.
Proof. unfold reaches. by destruct (search_spec genericCalls_ g f) as (b & -> & <-). Qed.
Definition leaves (call : GenericCall) : bool := negb (reaches (gc_to call) (gc_from call)).

(** The calls to come that do not come back. *)
Definition rank (f : nat) : nat := length (filter (λ call, reaches f (gc_from call) && leaves call) genericCalls_).

Lemma filter_length_lt {X} (p q : X → bool) l x :
  (∀ y, p y → q y) → x ∈ l → q x → ¬ p x → length (filter p l) < length (filter q l).
Proof.
  intros Hpq Hin Hq Hp. assert (∀ l, length (filter p l) ≤ length (filter q l)) as Hle.
  { induction l0 as [|y l0 IH]; [done|]. rewrite !filter_cons. repeat case_decide; cbn; try lia. naive_solver. }
  induction Hin as [y l'|y z l' Hin IH].
  - rewrite filter_cons_False, filter_cons_True by done. cbn. specialize (Hle l'). lia.
  - specialize (IH Hq Hp). rewrite !filter_cons. repeat case_decide; cbn; try lia; exfalso;
      match goal with Hn : ¬ Is_true (q ?w), Hw : Is_true (p ?w) |- _ => exact (Hn (Hpq _ Hw)) end.
Qed.

Lemma rank_leaves f call : call ∈ genericCalls_ → rtc calls f (gc_from call) → leaves call = true →
  rank (gc_to call) < rank f.
Proof.
  intros Hc Hr Hl. apply filter_length_lt with call; [|done|..].
  - intros c. rewrite !Is_true_true, !andb_true_iff, !reaches_spec. intros [? ?]. split; [|done].
    etrans; [exact Hr|]. eapply rtc_l; [|done]. apply calls_spec. eauto.
  - rewrite Is_true_true, andb_true_iff, reaches_spec. done.
  - rewrite Is_true_true, andb_true_iff. intros [H _]. unfold leaves in Hl. by rewrite H in Hl.
Qed.

Lemma collect_lists {X Y} (P : X → Y → Prop) (l : list X) :
  (∀ x, x ∈ l → ∃ ys : list Y, ∀ y, P x y → y ∈ ys) → ∃ ys : list Y, ∀ x, x ∈ l → ∀ y, P x y → y ∈ ys.
Proof.
  induction l as [|x l IH]; intros H; [exists []; by intros x ?%elem_of_nil|].
  destruct (H x) as [ys Hys]; [left|]. destruct IH as [zs Hzs]; [intros z Hz; apply H; by right|].
  exists (ys ++ zs). intros z [->|Hz]%elem_of_cons y Hy; apply elem_of_app; eauto.
Qed.

Lemma instances_bounded f arguments : length arguments = parameter_count f →
  ∃ l : list Instance_, ∀ i, rtc instance_calls (f, arguments) i → i ∈ l.
Proof.
  remember (rank f) as n eqn:En. revert f arguments En. induction n as [n IH] using lt_wf_ind. intros f arguments -> Hlen.
  destruct (collect_lists (λ call i, rtc calls f (gc_from call) ∧ leaves call = true ∧
    rtc instance_calls (gc_to call, map (codegen_substitute arguments) (gc_arguments call)) i) genericCalls_) as [later Hlater].
  { intros call Hc. destruct (reaches f (gc_from call)) eqn:Er.
    2: { exists []. intros i [?%reaches_spec _]. congruence. }
    destruct (leaves call) eqn:El; [|exists []; by intros i (_ & ? & _)].
    apply reaches_spec in Er. destruct (IH _ (rank_leaves _ _ Hc Er El) (gc_to call) (map (codegen_substitute arguments) (gc_arguments call)) eq_refl) as [l Hl].
    - by rewrite length_map, arities.
    - exists l. intros i (_ & _ & Hi). by apply Hl. }
  exists (map (λ g, (g, arguments)) (f :: map gc_to genericCalls_) ++ later). intros i Hi.
  assert (∀ g, rtc calls f g → length arguments = parameter_count g → g ∈ f :: map gc_to genericCalls_ →
    rtc instance_calls (g, arguments) i → i ∈ map (λ g, (g, arguments)) (f :: map gc_to genericCalls_) ++ later) as H.
  { clear Hi. intros g Hg Hl Hin Hi. remember (g, arguments) as from eqn:Ef. revert g Hg Hl Hin Ef.
    induction Hi as [from|from next i Hstep Hi IHi]; intros g Hg Hl Hin ->.
    { apply elem_of_app. left. apply list_elem_of_fmap. by exists g. }
    inversion Hstep as [call a Hc]; subst.
    destruct (leaves call) eqn:El.
    - apply elem_of_app. right. apply (Hlater call); [done|]. by split.
    - unfold leaves in El. apply negb_false_iff, reaches_spec in El.
      pose proof (cyclic_call_same _ _ Hc El Hl) as Es. apply (IHi (gc_to call)).
      + eapply rtc_r; [done|]. apply calls_spec. eauto.
      + by rewrite <- arities, <- Es, length_map by done.
      + right. by apply list_elem_of_fmap_2.
      + by rewrite Es. }
  apply (H f); [constructor|done|left|done].
Qed.
End instances.


(** Deciding the hypotheses. *)
Lemma arities_check program_ (genericCalls_ : list GenericCall) :
  forallb (λ call, bool_decide (length (gc_arguments call) = parameter_count program_ (gc_to call))) genericCalls_ = true →
  ∀ call, call ∈ genericCalls_ → length (gc_arguments call) = parameter_count program_ (gc_to call).
Proof. rewrite forallb_forall. intros H call Hc%list_elem_of_In%H. by apply bool_decide_eq_true in Hc. Qed.

(** [walk] calls itself and, at a pair, [show], which calls itself. *)
Definition walk_source : list bytes :=
  [lit "struct Pair<A, B> { first A second B }"; lit "fn walk<A, B>(a A, b B) void { }"; lit "fn show<T>(value T) void { }"].
Definition walk_calls : list GenericCall :=
  [mkGenericCall 0 0 (own_parameters 2) emptySpan;
   mkGenericCall 0 1 [mkTy TypeKind.Struct 0 (own_parameters 2)] emptySpan;
   mkGenericCall 1 1 (own_parameters 1) emptySpan].

Definition start_analysis : Analyzer := mkAnalyzer [] (declared_model walk_source) ∅ ∅ ∅ ∅ ∅ [].
