(* ===== verification/ParserTheorems.v ===== *)
(** * Theorems about the parser of expressions, statements and blocks *)
From S2P Require Import Prelude Target Diagnostics Token Ast AstGraph ParserState ParserTypes ParserExpressions ParserStatements ParserSpec ParserSafety ParserProofs StatementProofs.

(** The parser before the first token. *)
Lemma parser_start_ok tokens_ diagnostics : 0 < length tokens_ → ok tokens_ (parser_start diagnostics).
Proof. intros Hl. split; cbn; try lia. constructor. Qed.

(** ** The recursive descent *)

(** On every list of tokens that ends with its end token the parser of
    expressions, statements and blocks returns: the recursion ends, no loop runs
    for ever and no token or node is read outside its vector. *)
Theorem parser_terminates (tokens_ : list Token) (target_ : TargetPlatform) (parseFloating : bytes → bool)
    (st : Parser) :
  ended tokens_ → ok tokens_ st →
  let p := parser_entries tokens_ target_ parseFloating in
  is_Some (e_expression p st) ∧ is_Some (e_statement p st) ∧ ∀ tail, is_Some (e_block p tail st).
Proof.
  intros He Ho p. destruct (parser_entries_spec tokens_ He target_ parseFloating st Ho) as (H1 & H2 & H3).
  assert (∀ A (m : P A) Q, runs m st Q → is_Some (m st)) as Hr.
  { intros A m Q. unfold runs. destruct (m st); [eauto|done]. }
  split_and!; eauto.
Qed.

(** The tree the parser builds has no dangling and no circular references:
    every node refers to nodes that exist, and following references ends.  The
    nodes that were there before are unchanged. *)
Theorem parser_builds_trees (tokens_ : list Token) (target_ : TargetPlatform) (parseFloating : bytes → bool)
    (st st' : Parser) (tail : bool) (id : nat) :
  ended tokens_ → ok tokens_ st →
  e_block (parser_entries tokens_ target_ parseFloating) tail st = Some (id, st') →
  node_in (tree st') (NBlock id) ∧ extends (tree st) (tree st') ∧
  ∀ n, node_in (tree st') n → nodes_in (tree st') (refs (tree st') n) ∧ Acc (refers (tree st')) n.
Proof.
  intros He Ho Hb. destruct (parser_entries_spec tokens_ He target_ parseFloating st Ho) as (_ & _ & H).
  specialize (H tail). unfold runs in H. rewrite Hb in H. destruct H as [[[_ Ht _ _ _] _ Hx _] Hid].
  split_and!; [done|done|]. by apply built_sane.
Qed.

(** A statement passes at least one token unless the file has ended, never
    passes the end token, keeps the nesting counters within their limits and leaves
    them, the active type parameters and the struct literal switch as it found
    them. *)
Theorem statement_restores (tokens_ : list Token) (target_ : TargetPlatform) (parseFloating : bytes → bool)
    (st st' : Parser) (id : nat) :
  ended tokens_ → ok tokens_ st →
  e_statement (parser_entries tokens_ target_ parseFloating) st = Some (id, st') →
  current_ st ≤ current_ st' < length tokens_ ∧
  (here tokens_ st ≠ TokenKind.Eof → current_ st < current_ st') ∧
  frame st' = frame st ∧
  blockDepth_ st' ≤ maxBlockDepth ∧ expressionDepth_ st' ≤ maxExpressionDepth ∧ typeDepth_ st' ≤ maxTypeDepth.
Proof.
  intros He Ho Hs. destruct (parser_entries_spec tokens_ He target_ parseFloating st Ho) as (_ & H & _).
  unfold runs in H. rewrite Hs in H. destruct H as ([[Hc _ H1 H2 H3] Hcs _ Hf] & _ & _ & Hp).
  split_and!; done.
Qed.

(** ** Blocks that are nested too deeply *)

Section skipping.
Context (tokens_ : list Token) (Hended : ended tokens_).

(** Skipping a block reports nothing and leaves an empty block. *)
Lemma skipNestedBlock_silent span st :
  ok tokens_ st →
  runs (skipNestedBlock tokens_ span) st
    (λ id s, diagnostics_ s = diagnostics_ st ∧ pr_blocks (program_ s) !! id = Some (mkBlock [] span)).
Proof using Hended.
  intros Ho. unfold skipNestedBlock. apply runs_bind.
  apply (turns_loop_spec tokens_ (λ _ s, moved tokens_ st s ∧ diagnostics_ s = diagnostics_ st));
    [intros ? ? [H _]; apply H| |split; [by apply moved_refl|done]].
  intros depth s [Hm Hd]. pose proof (mv_ok _ _ _ Hm) as Hos. repeat straight. apply runs_if; intros E.
  - apply runs_ret, runs_bind, runs_get, runs_bind, runs_modify, runs_ret. cbn. split; [done|].
    by rewrite lookup_app_r, Nat.sub_diag.
  - apply orb_false_iff in E as [E _]. conditions. apply runs_bind.
    eapply (runs_mono _ _ _ (λ _ s', moved tokens_ st s' ∧ current_ s < current_ s' ∧ diagnostics_ s' = diagnostics_ st)).
    + apply (match_cases_spec tokens_ Hended); [done| |].
      * cases; subst; (split_and!; [by eapply moved_trans|lia|done]).
      * apply runs_bind, (advance_spec tokens_ Hended); [done|by left| |done]. intros _ Hn.
        split_and!; [by eapply moved_trans|cbn; lia|done].
    + intros d s' (Hs & Hc & Hd'). apply runs_ret. done.
Qed.
End skipping.

(** Beyond 128 levels of blocks the branch of a match arm is skipped without a
    diagnostic and an empty branch without a value takes its place; a block of
    statements at the same depth is reported as FDN1030. *)
Theorem nested_arm_dropped (tokens_ : list Token) (target_ : TargetPlatform) (parseFloating : bytes → bool)
    (self : Entries) (st : Parser) :
  ended tokens_ → ok tokens_ st → here tokens_ st = TokenKind.LeftBrace → blockDepth_ st = maxBlockDepth →
  let span := tok_span (token_at tokens_ (current_ st)) in
  runs (matchArmBlock tokens_ self) st (λ '(block, value) s,
    value = None ∧ pr_blocks (program_ s) !! block = Some (mkBlock [] span) ∧ diagnostics_ s = diagnostics_ st) ∧
  ∀ tail, runs (block tokens_ target_ parseFloating self tail) st (λ _ s,
    diagnostics_ s =
      error (diagnostics_ st) (lit "FDN1030") (lit "block nesting exceeds 128 levels") span).
Proof.
  intros He Ho Hb Hd span.
  assert (∀ k code message (Q : Token → Parser → Prop), here tokens_ st = k → k ≠ TokenKind.Eof →
    (moved tokens_ st (set_current S st) → Q (token_at tokens_ (current_ st)) (set_current S st)) →
    runs (expect tokens_ k code message) st Q) as Hexpect.
  { intros k code message Q Hk Hne HQ. apply runs_bind, check_spec; [done|]. rewrite bool_decide_true by done.
    apply (advance_spec tokens_ He); [done|left; congruence|by intros _|congruence]. }
  assert (bool_decide (maxBlockDepth ≤ blockDepth_ (set_current S st)) = true) as Hl.
  { apply bool_decide_eq_true. cbn. lia. }
  split; [|intros tail]; apply runs_bind, Hexpect; try done; intros Hm; apply runs_bind, runs_get; rewrite Hl.
  - apply runs_bind. eapply runs_mono; [apply (skipNestedBlock_silent tokens_ He), Hm|].
    intros id s [Hs Hid]. apply runs_ret. done.
  - apply runs_bind, runs_modify. eapply runs_mono; [apply (skipNestedBlock_silent tokens_ He)|].
    { destruct Hm as [[????] ? ? ?]. by split. }
    intros id s [Hs Hid]. done.
Qed.

(** ** Durations *)

(** The literal timeout of a [select] is the product of its amount and its unit
    when that fits in 64 bits; the arithmetic never wraps, and a product that does
    not fit is reported and replaced by the largest duration. *)
Theorem duration_exact (magnitude multiplier : N) :
  (multiplier < size_modulus)%N → (magnitude < size_modulus)%N →
  match duration_nanoseconds magnitude (Some multiplier) with
  | (nanoseconds, true) => nanoseconds = (magnitude * multiplier)%N ∧ (magnitude * multiplier < size_modulus)%N
  | (nanoseconds, false) => nanoseconds = (size_modulus - 1)%N ∧ (size_modulus ≤ magnitude * multiplier)%N
  end.
Proof.
  intros Hm Hg. unfold duration_nanoseconds.
  change (default 0%N (Some multiplier)) with multiplier.
  destruct (N.eqb_spec multiplier 0) as [->|Hz]; cbn [negb andb].
  { assert (magnitude * 0 = 0)%N as Hz by lia. rewrite Hz. split; [by apply N.mod_small|done]. }
  destruct (N.ltb_spec ((size_modulus - 1) / multiplier) magnitude) as [Hlt|Hle].
  - split; [done|]. pose proof (N.div_mod (size_modulus - 1) multiplier Hz).
    pose proof (N.mod_lt (size_modulus - 1) multiplier Hz). nia.
  - pose proof (N.mul_div_le (size_modulus - 1) multiplier Hz).
    assert (magnitude * multiplier < size_modulus)%N by (unfold size_modulus in *; nia).
    by rewrite N.mod_small.
Qed.

(** ** Witnesses *)

(** [{ return 1 + x }] and the end of the file. *)
Definition sample_tokens : list Token :=
  let token kind text offset := mkToken kind (lit text) (mkSpan offset (length (lit text)) 1 (S offset) 0) false in
  [token TokenKind.LeftBrace "{" 0; token TokenKind.Return "return" 2; token TokenKind.Integer "1" 9;
   token TokenKind.Plus "+" 11; token TokenKind.Identifier "x" 13; token TokenKind.RightBrace "}" 15;
   token TokenKind.Eof "" 16].

Lemma sample_ended : ended sample_tokens.
Proof. eexists. split; reflexivity. Qed.

Lemma parser_terminates_witness :
  is_Some (e_block (parser_entries sample_tokens Linux (λ _, true)) true (parser_start [])).
Proof.
  apply (parser_terminates sample_tokens Linux (λ _, true) (parser_start []));
    [apply sample_ended|apply parser_start_ok; cbn; lia].
Defined.

Lemma parser_builds_trees_witness :
  match e_block (parser_entries sample_tokens Linux (λ _, true)) true (parser_start []) with
  | Some (id, st') => Acc (refers (tree st')) (NBlock id)
  | None => False
  end.
Proof.
  destruct (e_block _ _ _) as [[id st']|] eqn:E; [|vm_compute in E; discriminate].
  destruct (parser_builds_trees sample_tokens Linux (λ _, true) (parser_start []) st' true id sample_ended
    (parser_start_ok sample_tokens [] (Nat.lt_0_succ _)) E) as (Hin & _ & H).
  apply (H _ Hin).
Defined.

(** Behind the opening brace. *)
Definition sample_inside : Parser := set_current S (parser_start []).
Lemma sample_inside_ok : ok sample_tokens sample_inside.
Proof. destruct (parser_start_ok sample_tokens []) as [? ? ? ? ?]; [cbn; lia|]. split; try done. cbn. lia. Qed.

Lemma statement_restores_witness :
  match e_statement (parser_entries sample_tokens Linux (λ _, true)) sample_inside with
  | Some (id, st') => frame st' = frame sample_inside ∧ 1 < current_ st'
  | None => False
  end.
Proof.
  destruct (e_statement _ _) as [[id st']|] eqn:E; [|vm_compute in E; discriminate].
  destruct (statement_restores sample_tokens Linux (λ _, true) sample_inside st' id sample_ended sample_inside_ok E)
    as (_ & Hc & Hf & _).
  split; [exact Hf|]. apply Hc. discriminate.
Defined.

Lemma nested_arm_dropped_witness :
  runs (matchArmBlock sample_tokens stuck) (set_blockDepth (λ _, maxBlockDepth) (parser_start []))
    (λ '(block, value) s, value = None ∧
       pr_blocks (program_ s) !! block = Some (mkBlock [] (mkSpan 0 1 1 1 0)) ∧ diagnostics_ s = []).
Proof.
  apply (nested_arm_dropped sample_tokens Linux (λ _, true) stuck); [apply sample_ended| |reflexivity|reflexivity].
  destruct (parser_start_ok sample_tokens []) as [? ? ? ? ?]; [cbn; lia|]. split; try done.
Defined.

Lemma duration_exact_witness :
  match duration_nanoseconds 5 (Some 1000000000%N) with
  | (nanoseconds, true) => nanoseconds = (5 * 1000000000)%N
  | _ => False
  end.
Proof.
  pose proof (duration_exact 5 1000000000 ltac:(vm_compute; reflexivity) ltac:(vm_compute; reflexivity)) as H.
  destruct (duration_nanoseconds 5 (Some 1000000000%N)) as [n b] eqn:E. destruct b; [apply H|].
  vm_compute in E. discriminate.
Defined.
