(* ===== verification/ProjectAppend.v ===== *)
(** * Appending one program to another (compiler/src/project.cpp)

    [appendProgram] with [remapExpression], [remapStatement] and [remapAttributes]:
    the nodes of a file are added behind those of the project and its references are
    shifted. *)
From S2P Require Import Prelude Diagnostics Ast AstGraph.

(** ** Remapping *)

Definition remapArm (expressionOffset blockOffset : nat) (arm : MatchArm) : MatchArm :=
  mkMatchArm (ma_wildcard arm) (ma_variant arm) (ma_binding arm)
    ((λ id, id + expressionOffset) <$> ma_pattern arm)
    ((λ id, id + expressionOffset) <$> ma_guard arm)
    (ma_block arm + blockOffset)
    ((λ id, id + expressionOffset) <$> ma_expression arm) (ma_span arm).

Definition remapExpressionValue (expressionOffset blockOffset functionOffset : nat) (value : ExpressionValue)
    : ExpressionValue :=
  match value with
  | ArrayExpression elements => ArrayExpression (map (λ id, id + expressionOffset) elements)
  | UnaryExpression operation operand => UnaryExpression operation (operand + expressionOffset)
  | OwnershipExpression operation operand => OwnershipExpression operation (operand + expressionOffset)
  | BinaryExpression first operation second =>
      BinaryExpression (first + expressionOffset) operation (second + expressionOffset)
  | CallExpression callee typeArguments arguments names spans =>
      CallExpression callee typeArguments (map (λ id, id + expressionOffset) arguments) names spans
  | StructExpression type fields =>
      StructExpression type
        (map (λ field, mkFieldInitializer (fi_name field) (fi_value field + expressionOffset) (fi_span field)) fields)
  | MemberExpression base member typeArguments invoked arguments names spans =>
      MemberExpression ((λ id, id + expressionOffset) <$> base) member typeArguments invoked
        (map (λ id, id + expressionOffset) arguments) names spans
  | IndexExpression base index => IndexExpression (base + expressionOffset) (index + expressionOffset)
  | ReplaceExpression target value => ReplaceExpression (target + expressionOffset) (value + expressionOffset)
  | SpawnExpression call => SpawnExpression (call + expressionOffset)
  | MatchExpression value arms =>
      MatchExpression (value + expressionOffset) (map (remapArm expressionOffset blockOffset) arms)
  | ConditionalExpression condition thenBlock thenValue elseBlock elseValue postfix =>
      ConditionalExpression (condition + expressionOffset) (thenBlock + blockOffset) (thenValue + expressionOffset)
        (elseBlock + blockOffset) (elseValue + expressionOffset) postfix
  | FunctionExpression function => FunctionExpression (function + functionOffset)
  | IntegerExpression _ _ | FloatingExpression _ | BooleanExpression _ | StringExpression _
  | NameExpression _ _ => value
  end.
Definition remapExpression (expressionOffset blockOffset functionOffset : nat) (expression : Expression)
    : Expression :=
  mkExpression (remapExpressionValue expressionOffset blockOffset functionOffset (expr_value expression))
    (expr_span expression).

Definition remapOperation (expressionOffset blockOffset : nat) (operation : SelectOperationArm)
    : SelectOperationArm :=
  mkSelectOperation (so_binding operation) (so_operation operation + expressionOffset)
    (so_body operation + blockOffset) (so_span operation).
Definition remapTimeout (expressionOffset blockOffset : nat) (timeout : SelectTimeoutArm) : SelectTimeoutArm :=
  mkSelectTimeout (st_nanoseconds timeout) ((λ id, id + expressionOffset) <$> st_duration timeout)
    (st_body timeout + blockOffset) (st_span timeout).

Definition remapStatementValue (expressionOffset blockOffset : nat) (value : StatementValue) : StatementValue :=
  match value with
  | VariableStatement mutableBinding name type initializer elseBinding elseBlock =>
      VariableStatement mutableBinding name type (initializer + expressionOffset) elseBinding
        ((λ id, id + blockOffset) <$> elseBlock)
  | StructDestructureStatement type fields initializer =>
      StructDestructureStatement type fields (initializer + expressionOffset)
  | AssignmentStatement target operation value =>
      AssignmentStatement (target + expressionOffset) operation (value + expressionOffset)
  | ExpressionStatement expression => ExpressionStatement (expression + expressionOffset)
  | ResultElseStatement expression errorBinding elseBlock =>
      ResultElseStatement (expression + expressionOffset) errorBinding (elseBlock + blockOffset)
  | ReturnStatement value tail => ReturnStatement ((λ id, id + expressionOffset) <$> value) tail
  | DiscardStatement value => DiscardStatement (value + expressionOffset)
  | IfStatement condition thenBlock elseBlock =>
      IfStatement (condition + expressionOffset) (thenBlock + blockOffset) ((λ id, id + blockOffset) <$> elseBlock)
  | WhileStatement condition body => WhileStatement (condition + expressionOffset) (body + blockOffset)
  | ForStatement indexBinding valueBinding editable sequence body =>
      ForStatement indexBinding valueBinding editable (sequence + expressionOffset) (body + blockOffset)
  | SelectStatement operations timeout errorBinding errorBlock =>
      SelectStatement (map (remapOperation expressionOffset blockOffset) operations)
        (remapTimeout expressionOffset blockOffset <$> timeout) errorBinding (errorBlock + blockOffset)
  | UnsafeStatement body safetyProof => UnsafeStatement (body + blockOffset) safetyProof
  | BreakStatement | ContinueStatement => value
  end.
Definition remapStatement (expressionOffset blockOffset : nat) (statement : Statement) : Statement :=
  mkStatement (remapStatementValue expressionOffset blockOffset (stmt_value statement)) (stmt_span statement).

Definition remapAttributes (expressionOffset : nat) (attributes : list AttributeApplication)
    : list AttributeApplication :=
  map (λ attribute,
    mkAttributeApplication (at_name attribute)
      (map (λ argument, mkAttributeArgument (aa_name argument) (aa_value argument + expressionOffset)
         (aa_span argument)) (at_arguments attribute))
      (at_span attribute) (at_parenthesized attribute)) attributes.
Definition remapParameter (expressionOffset : nat) (parameter : Parameter_) : Parameter_ :=
  mkParameter (param_name parameter) (param_type parameter) (param_span parameter)
    (remapAttributes expressionOffset (param_attributes parameter)) (param_mode parameter)
    (param_inferredType parameter).

(** ** The loops of [appendProgram] *)

Definition remapBlock (statementOffset : nat) (block : Block) : Block :=
  mkBlock (map (λ id, id + statementOffset) (block_statements block)) (block_span block).
Definition remapField (expressionOffset functionOffset : nat) (field : StructField) : StructField :=
  mkStructField (sf_name field) (sf_type field) (sf_exported field) (sf_span field)
    (remapAttributes expressionOffset (sf_attributes field))
    ((λ id, id + functionOffset) <$> sf_defaultFunction field) (sf_defaultSpan field).
Definition remapStruct (expressionOffset functionOffset : nat) (d : StructDeclaration) : StructDeclaration :=
  mkStruct (sd_name d) (sd_typeParameters d) (sd_implementations d)
    (map (remapField expressionOffset functionOffset) (sd_fields d)) (sd_exported d) (sd_span d)
    (sd_packageName d) (remapAttributes expressionOffset (sd_attributes d)) (sd_kind d) (sd_sourcePath d).
Definition remapVariant (expressionOffset : nat) (v : EnumVariant) : EnumVariant :=
  mkEnumVariant (ev_name v) (ev_payloadType v) (ev_exported v) (ev_span v)
    (remapAttributes expressionOffset (ev_attributes v)) (ev_payloadName v) (ev_payloadNameSpan v).
Definition remapEnum (expressionOffset : nat) (d : EnumDeclaration) : EnumDeclaration :=
  mkEnumDeclaration (ed_name d) (ed_typeParameters d) (map (remapVariant expressionOffset) (ed_variants d))
    (ed_exported d) (ed_builtin d) (ed_span d) (ed_packageName d)
    (remapAttributes expressionOffset (ed_attributes d)) (ed_stateMachine d) (ed_generated d).
Definition remapMethod (expressionOffset functionOffset : nat) (m : ContractMethod) : ContractMethod :=
  mkContractMethod (cm_name m) (cm_receiver m) (map (remapParameter expressionOffset) (cm_parameters m))
    (cm_returnType m) (cm_exported m) (cm_span m) ((λ id, id + functionOffset) <$> cm_defaultFunction m)
    (remapAttributes expressionOffset (cm_attributes m)).
Definition remapContract (expressionOffset functionOffset : nat) (d : ContractDeclaration) : ContractDeclaration :=
  mkContract (cd_name d) (cd_typeParameters d) (cd_parents d)
    (map (remapMethod expressionOffset functionOffset) (cd_methods d)) (cd_exported d) (cd_span d)
    (cd_packageName d) (remapAttributes expressionOffset (cd_attributes d)).
Definition remapFunction (expressionOffset blockOffset : nat) (f : Function) : Function :=
  mkAstFunction (fn_name f) (fn_typeParameters f) (map (remapParameter expressionOffset) (fn_parameters f))
    (fn_returnType f) (fn_body f + blockOffset) (fn_exported f) (fn_span f) (fn_packageName f) (fn_sourcePath f)
    (fn_receiver f) (fn_ownerType f) (fn_cSymbol f) (fn_hasBody f) (fn_closure f) (fn_captures f)
    (remapAttributes expressionOffset (fn_attributes f)) (fn_task f) (fn_blocking f) (fn_callback f)
    (fn_testName f) (fn_testNameSpan f) (fn_action f) (fn_stateTransition f) (fn_workflow f)
    (fn_inferredReturn f) (fn_transferableTypeParameters f) (fn_stateTimeout f) (fn_constructor f)
    (fn_typeParameterConstraints f).

(** The package name of [target] stays; attribute declarations are moved as they are. *)
Definition appendProgram (target source : Program) : Program :=
  let expressionOffset := length (pr_expressions target) in
  let statementOffset := length (pr_statements target) in
  let blockOffset := length (pr_blocks target) in
  let functionOffset := length (pr_functions target) in
  mkAstProgram (pr_packageName target) (pr_hasPackageDeclaration target)
    (pr_imports target ++ pr_imports source)
    (pr_expressions target ++
     map (remapExpression expressionOffset blockOffset functionOffset) (pr_expressions source))
    (pr_statements target ++ map (remapStatement expressionOffset blockOffset) (pr_statements source))
    (pr_blocks target ++ map (remapBlock statementOffset) (pr_blocks source))
    (pr_structs target ++ map (remapStruct expressionOffset functionOffset) (pr_structs source))
    (pr_enums target ++ map (remapEnum expressionOffset) (pr_enums source))
    (pr_contracts target ++ map (remapContract expressionOffset functionOffset) (pr_contracts source))
    (pr_attributeDeclarations target ++ pr_attributeDeclarations source)
    (pr_functions target ++ map (remapFunction expressionOffset blockOffset) (pr_functions source)).

(** ** What appending does to references *)

(** Where a node of the appended program is found behind the nodes of [a]. *)
Definition shift (a : Arena) (n : Node) : Node :=
  match n with
  | NExpr id => NExpr (id + length (ar_expressions a))
  | NStmt id => NStmt (id + length (ar_statements a))
  | NBlock id => NBlock (id + length (ar_blocks a))
  | NFun id => NFun (id + length (ar_functions a))
  end.
Definition unshift (a : Arena) (n : Node) : Node :=
  match n with
  | NExpr id => NExpr (id - length (ar_expressions a))
  | NStmt id => NStmt (id - length (ar_statements a))
  | NBlock id => NBlock (id - length (ar_blocks a))
  | NFun id => NFun (id - length (ar_functions a))
  end.
Lemma unshift_shift a n : unshift a (shift a n) = n.
Proof. destruct n; cbn; f_equal; lia. Qed.
Lemma shift_not_in a n : ¬ node_in a (shift a n).
Proof. destruct n; cbn; lia. Qed.

Lemma flat_map_shift {A B} (a : Arena) (g : A → B) (f : B → list Node) (f' : A → list Node) l :
  (∀ x, x ∈ l → f (g x) = map (shift a) (f' x)) → flat_map f (map g l) = map (shift a) (flat_map f' l).
Proof.
  intros H. induction l as [|x l IH]; cbn; [done|]. rewrite map_app, H, IH; [done| |left].
  intros y Hy. apply H. by right.
Qed.

Create Rewrite HintDb shift.

Section Shift.
Context (a : Arena).
Let e := length (ar_expressions a).
Let s := length (ar_statements a).
Let b := length (ar_blocks a).
Let f := length (ar_functions a).

Lemma optional_shift_expression id :
  optional NExpr ((λ id, id + e) <$> id) = map (shift a) (optional NExpr id).
Proof. by destruct id. Qed.
Lemma optional_shift_block id : optional NBlock ((λ id, id + b) <$> id) = map (shift a) (optional NBlock id).
Proof. by destruct id. Qed.
Lemma optional_shift_function id : optional NFun ((λ id, id + f) <$> id) = map (shift a) (optional NFun id).
Proof. by destruct id. Qed.
Lemma ids_shift ids : expression_ids (map (λ id, id + e) ids) = map (shift a) (expression_ids ids).
Proof. apply flat_map_shift. done. Qed.
Hint Rewrite optional_shift_expression optional_shift_block optional_shift_function ids_shift map_app : shift.

Lemma arm_shift arm : arm_nodes (remapArm e b arm) = map (shift a) (arm_nodes arm).
Proof. unfold arm_nodes. cbn. by autorewrite with shift. Qed.
Lemma expression_shift v : expression_nodes (remapExpressionValue e b f v) = map (shift a) (expression_nodes v).
Proof.
  destruct v; cbn; autorewrite with shift; try done.
  - by apply flat_map_shift.
  - f_equal. apply flat_map_shift. intros arm _. apply arm_shift.
Qed.
Lemma operation_shift o : operation_nodes (remapOperation e b o) = map (shift a) (operation_nodes o).
Proof. done. Qed.
Lemma timeout_shift t : timeout_nodes (remapTimeout e b <$> t) = map (shift a) (timeout_nodes t).
Proof. destruct t; cbn; by autorewrite with shift. Qed.
Lemma statement_shift v : statement_nodes (remapStatementValue e b v) = map (shift a) (statement_nodes v).
Proof.
  destruct v; cbn; autorewrite with shift; try done. f_equal. rewrite timeout_shift. f_equal.
  apply flat_map_shift. intros o _. apply operation_shift.
Qed.
Lemma block_shift k : block_nodes (remapBlock s k) = map (shift a) (block_nodes k).
Proof. by apply flat_map_shift. Qed.

Lemma attributes_shift l :
  flat_map attribute_nodes (remapAttributes e l) = map (shift a) (flat_map attribute_nodes l).
Proof. apply flat_map_shift. intros x _. unfold attribute_nodes. cbn. by apply flat_map_shift. Qed.
Hint Rewrite attributes_shift : shift.
Lemma parameters_shift l :
  flat_map parameter_nodes (map (remapParameter e) l) = map (shift a) (flat_map parameter_nodes l).
Proof. apply flat_map_shift. intros x _. unfold parameter_nodes. cbn. by autorewrite with shift. Qed.
Hint Rewrite parameters_shift : shift.
Lemma function_shift g : function_nodes (remapFunction e b g) = map (shift a) (function_nodes g).
Proof. unfold function_nodes. cbn. by autorewrite with shift. Qed.
Lemma attached_shift g : attached_nodes (remapFunction e b g) = map (shift a) (attached_nodes g).
Proof. unfold attached_nodes. cbn. by autorewrite with shift. Qed.

Lemma field_shift d : field_declaration_nodes (remapField e f d) = map (shift a) (field_declaration_nodes d).
Proof. unfold field_declaration_nodes. cbn. by autorewrite with shift. Qed.
Lemma struct_shift d : struct_nodes (remapStruct e f d) = map (shift a) (struct_nodes d).
Proof.
  unfold struct_nodes. cbn. autorewrite with shift. f_equal. apply flat_map_shift. intros x _. apply field_shift.
Qed.
Lemma enum_shift d : enum_nodes (remapEnum e d) = map (shift a) (enum_nodes d).
Proof.
  unfold enum_nodes. cbn. autorewrite with shift. f_equal. apply flat_map_shift. intros x _.
  apply attributes_shift.
Qed.
Lemma method_shift m : contract_method_nodes (remapMethod e f m) = map (shift a) (contract_method_nodes m).
Proof. unfold contract_method_nodes. cbn. by autorewrite with shift. Qed.
Lemma contract_shift d : contract_nodes (remapContract e f d) = map (shift a) (contract_nodes d).
Proof.
  unfold contract_nodes. cbn. autorewrite with shift. f_equal. apply flat_map_shift. intros x _.
  apply method_shift.
Qed.
End Shift.

(** Appending two programs. *)
Section Append.
Context (t p : Program).
Let a := arena t.
Let r := arena (appendProgram t p).

Lemma append_extends : extends a r.
Proof. split; cbn; by apply prefix_app_r. Qed.
Lemma append_size : arena_size r = arena_size a + arena_size (arena p).
Proof. unfold arena_size. cbn. rewrite !length_app, !length_map. lia. Qed.

Lemma append_node_in n : node_in r (shift a n) ↔ node_in (arena p) n.
Proof. destruct n; cbn; rewrite length_app, length_map; lia. Qed.
Lemma append_nodes_in l : nodes_in (arena p) l → nodes_in r (map (shift a) l).
Proof.
  intros H. apply Forall_map. eapply Forall_impl; [exact H|]. intros n. by rewrite <- append_node_in.
Qed.
Lemma append_node_cases n : node_in r n → node_in a n ∨ ∃ m, node_in (arena p) m ∧ n = shift a m.
Proof.
  intros Hn. destruct (decide (node_in a n)) as [|Hna]; [by left|right].
  assert (n = shift a (unshift a n)) as Heq by (destruct n; cbn in *; f_equal; lia).
  exists (unshift a n). split; [|done]. by rewrite Heq, append_node_in in Hn.
Qed.

Lemma append_refs n : node_in (arena p) n → refs r (shift a n) = map (shift a) (refs (arena p) n).
Proof.
  destruct n as [id|id|id|id]; cbn; intros [x Hx]%lookup_lt_is_Some;
    rewrite lookup_app_r by lia; rewrite Nat.add_sub; rewrite list_lookup_fmap, Hx; cbn;
    [apply (expression_shift a)|apply (statement_shift a)|apply (block_shift a)|apply (function_shift a)].
Qed.

Lemma append_ranked : ranked a → ranked (arena p) → ranked r.
Proof.
  intros [rank Ht] [rank' Hp]. exists (λ n, if decide (node_in a n) then rank n else rank' (unshift a n)).
  intros n [Hn|(m & Hm & ->)]%append_node_cases.
  - rewrite decide_True by done. destruct (Ht n Hn) as [H1 H2]. rewrite append_size. split; [lia|].
    rewrite (refs_extends _ _ _ append_extends Hn). eapply Forall_impl; [exact H2|]. intros m [Hm Hlt].
    rewrite decide_True by done. split; [|done]. by eapply node_in_extends; [apply append_extends|].
  - rewrite decide_False by apply shift_not_in. rewrite unshift_shift. destruct (Hp m Hm) as [H1 H2].
    rewrite append_size. split; [lia|]. rewrite append_refs by done. apply Forall_map.
    eapply Forall_impl; [exact H2|]. intros k [Hk Hlt]. cbn. rewrite decide_False by apply shift_not_in.
    rewrite unshift_shift, append_node_in. done.
Qed.

Lemma append_nodes_left l : nodes_in a l → nodes_in r l.
Proof. apply nodes_in_extends, append_extends. Qed.

Lemma append_attached : attached a → attached (arena p) → attached r.
Proof.
  intros Ht Hp. unfold attached in *. cbn. apply Forall_app. split.
  - eapply Forall_impl; [exact Ht|]. intros g. apply append_nodes_left.
  - apply Forall_map. eapply Forall_impl; [exact Hp|]. intros g Hg. cbn.
    change (nodes_in r (attached_nodes (remapFunction (length (ar_expressions a)) (length (ar_blocks a)) g))).
    rewrite (attached_shift a). by apply append_nodes_in.
Qed.

Lemma append_flat {A} (f : A → list Node) (g : A → A) l l' :
  (∀ x, f (g x) = map (shift a) (f x)) → nodes_in a (flat_map f l) → nodes_in (arena p) (flat_map f l') →
  nodes_in r (flat_map f (l ++ map g l')).
Proof.
  intros Hf Hl Hl'. rewrite flat_map_app, nodes_in_app. split; [by apply append_nodes_left|].
  rewrite (flat_map_shift a g f f) by (intros; apply Hf). by apply append_nodes_in.
Qed.

Lemma plain_nodes d :
  Forall (λ q, param_attributes q = []) (ad_parameters d) → attribute_declaration_nodes d = [].
Proof.
  unfold attribute_declaration_nodes. induction 1 as [|q l Hq _ IH]; cbn; [done|].
  rewrite IH. unfold parameter_nodes. by rewrite Hq.
Qed.

Lemma append_declared :
  plain_attributes p → nodes_in a (declared_nodes t) → nodes_in (arena p) (declared_nodes p) →
  nodes_in r (declared_nodes (appendProgram t p)).
Proof.
  intros Hplain. unfold declared_nodes. rewrite !nodes_in_app. intros (T1 & T2 & T3 & T4) (P1 & P2 & P3 & P4).
  cbn. split_and!.
  - apply append_flat; [|done|done]. apply (struct_shift a).
  - apply append_flat; [|done|done]. apply (enum_shift a).
  - apply append_flat; [|done|done]. apply (contract_shift a).
  - rewrite flat_map_app, nodes_in_app. split; [by apply append_nodes_left|].
    apply nodes_in_flat. eapply Forall_impl; [exact Hplain|]. intros d Hd. rewrite (plain_nodes d Hd).
    by constructor.
Qed.
End Append.

Lemma append_well_formed t p : well_formed t → well_formed p → well_formed (appendProgram t p).
Proof.
  intros [T1 T2 T3 T4] [P1 P2 P3 P4]. split.
  - by apply append_ranked.
  - by apply append_attached.
  - by apply append_declared.
  - unfold plain_attributes. cbn. by apply Forall_app.
Qed.

(** Declarations of the result: those of the first program as they were, then as many as the
    second has, each with its references shifted. *)
Definition joined {A} (a : Arena) (nodes : A → list Node) (first second result : list A) : Prop :=
  ∃ moved, result = first ++ moved ∧ map nodes moved = map (map (shift a)) (map nodes second).
Lemma joined_map {A} (a : Arena) (nodes : A → list Node) (remap : A → A) first second :
  (∀ x, x ∈ second → nodes (remap x) = map (shift a) (nodes x)) → joined a nodes first second (first ++ map remap second).
Proof.
  intros H. exists (map remap second). split; [done|]. rewrite !map_map. apply map_ext_in. intros x Hx.
  by apply H, list_elem_of_In.
Qed.

(** *** Behind nothing, every node and declaration stays as it is *)

Lemma map_stays {A} (f : A → A) l : (∀ x, f x = x) → map f l = l.
Proof. intros H. induction l as [|x l IH]; cbn; by rewrite ?H, ?IH. Qed.
Lemma option_stays {A} (f : A → A) (o : option A) : (∀ x, f x = x) → f <$> o = o.
Proof. intros H. destruct o; cbn; by rewrite ?H. Qed.
Lemma id_stays id : id + 0 = id.
Proof. lia. Qed.
Ltac stays := repeat first [rewrite id_stays | rewrite map_stays by (intros; stays; done) | rewrite option_stays by (intros; stays; done)].
Ltac by_stays := cbn; stays; done.

Lemma arm_stays arm : remapArm 0 0 arm = arm.
Proof. destruct arm. unfold remapArm. by_stays. Qed.
Lemma expression_stays x : remapExpression 0 0 0 x = x.
Proof.
  destruct x as [v span]. unfold remapExpression. cbn. f_equal. destruct v; cbn; f_equal; stays; try done.
  - apply map_stays. intros []. by_stays.
  - apply map_stays, arm_stays.
Qed.
Lemma statement_stays x : remapStatement 0 0 x = x.
Proof.
  destruct x as [v span]. unfold remapStatement. cbn. f_equal. destruct v; cbn; f_equal; stays; try done.
  - apply map_stays. intros []. unfold remapOperation. by_stays.
  - apply option_stays. intros []. unfold remapTimeout. by_stays.
Qed.
Lemma block_stays x : remapBlock 0 x = x.
Proof. destruct x. unfold remapBlock. by_stays. Qed.
Lemma attributes_stay l : remapAttributes 0 l = l.
Proof. apply map_stays. intros []. cbn. f_equal. apply map_stays. intros []. by_stays. Qed.
#[local] Arguments remapAttributes : simpl never.
Lemma parameters_stay l : map (remapParameter 0) l = l.
Proof. apply map_stays. intros []. unfold remapParameter. cbn. by rewrite attributes_stay. Qed.
Lemma struct_stays x : remapStruct 0 0 x = x.
Proof.
  destruct x. unfold remapStruct. cbn. rewrite attributes_stay. f_equal. apply map_stays. intros []. unfold remapField. cbn.
  rewrite attributes_stay. by_stays.
Qed.
Lemma enum_stays x : remapEnum 0 x = x.
Proof.
  destruct x. unfold remapEnum. cbn. rewrite attributes_stay. f_equal. apply map_stays. intros []. unfold remapVariant. cbn.
  by rewrite attributes_stay.
Qed.
Lemma contract_stays x : remapContract 0 0 x = x.
Proof.
  destruct x. unfold remapContract. cbn. rewrite attributes_stay. f_equal. apply map_stays. intros []. unfold remapMethod. cbn.
  rewrite parameters_stay, attributes_stay. by_stays.
Qed.
Lemma function_stays x : remapFunction 0 0 x = x.
Proof. destruct x. unfold remapFunction. cbn. rewrite parameters_stay, attributes_stay. by_stays. Qed.

Lemma append_empty p :
  appendProgram emptyProgram p =
    mkAstProgram (pr_packageName emptyProgram) (pr_hasPackageDeclaration emptyProgram) (pr_imports p) (pr_expressions p)
      (pr_statements p) (pr_blocks p) (pr_structs p) (pr_enums p) (pr_contracts p) (pr_attributeDeclarations p) (pr_functions p).
Proof.
  unfold appendProgram. cbn.
  by rewrite (map_stays _ _ expression_stays), (map_stays _ _ statement_stays), (map_stays _ _ block_stays),
    (map_stays _ _ struct_stays), (map_stays _ _ enum_stays), (map_stays _ _ contract_stays), (map_stays _ _ function_stays).
Qed.

Lemma empty_well_formed : well_formed emptyProgram.
Proof.
  split; [|by constructor|by constructor|by constructor]. exists (λ _, 0). intros [id|id|id|id]; cbn; lia.
Qed.
