(* ===== verification/ProjectLink.v ===== *)
(** * Resolving names across packages (compiler/src/project.cpp)

    The symbol table of a project, and the pass over the types, expressions, blocks
    and attributes of a file that replaces the names other packages export by their
    internal names. *)
From S2P Require Import Prelude Diagnostics Ast AstGraph ParserDeclarations ParserState.

(** ** Symbols *)

Record DeclarationInfo := mkDeclarationInfo {
  di_internalName : bytes;
  di_exported : bool;
}.
Record PackageSymbols := mkPackageSymbols {
  ps_types : gmap bytes DeclarationInfo;
  ps_functions : gmap bytes DeclarationInfo;
  ps_attributes : gmap bytes DeclarationInfo;
}.
Abbreviation SymbolTable := (gmap bytes PackageSymbols).
Abbreviation ImportAliases := (gmap bytes bytes).

Definition defaultAlias (packageName : bytes) : bytes :=
  match rfind_byte "."%char packageName with
  | None => packageName
  | Some separator => drop (separator + 1) packageName
  end.

Definition internalName (packageName name : bytes) : bytes :=
  if bool_decide (packageName = []) then name else packageName ++ lit "." ++ name.

Definition intrinsicTypes : list bytes :=
  [lit "void"; lit "never"; lit "i8"; lit "i16"; lit "i32"; lit "i64"; lit "u8"; lit "u16"; lit "u32"; lit "u64";
   lit "isize"; lit "usize"; lit "f32"; lit "f64"; lit "bool"; lit "String"; lit "Option"; lit "Result";
   lit "ChannelError"; lit "NumberError"; lit "Task"; lit "Channel"; lit "Sender"; lit "Receiver"; lit "[array]";
   lit "[slice]"; lit "[function]"; lit "[transferable-function]"; lit "[c-function]"; lit "[raw]";
   lit "[raw-const]"; lit "own"; lit "view"; lit "edit"].
Definition intrinsicType (name : bytes) : bool := bool_decide (name ∈ intrinsicTypes).

Definition findDeclaration (symbols : SymbolTable) (packageName name : bytes) (function : bool)
    : option DeclarationInfo :=
  package ← symbols !! packageName;
  (if function then ps_functions package else ps_types package) !! name.
Definition findAttribute (symbols : SymbolTable) (packageName name : bytes) : option DeclarationInfo :=
  package ← symbols !! packageName; ps_attributes package !! name.

(** A declaration of the prelude package, when it is exported. *)
Definition findPrelude (symbols : SymbolTable) (name : bytes) (function : bool) : option DeclarationInfo :=
  match findDeclaration symbols (lit "std.prelude") name function with
  | Some declaration => if di_exported declaration then Some declaration else None
  | None => None
  end.

(** ** The state of the pass *)

Record Linker := mkLinker {
  lk_program : Program;
  lk_diagnostics : Diagnostics;
  lk_foundMain : bool;
}.

(** [None] is a recursion that ran out of fuel or an access outside a vector. *)
Definition L (A : Type) : Type := Linker → option (A * Linker).

#[global] Instance L_ret : MRet L := λ A a st, Some (a, st).
#[global] Instance L_bind : MBind L := λ A B k m st,
  match m st with Some (a, st) => k a st | None => None end.

Definition undefined {A} : L A := λ _, None.
Definition program : L Program := λ st, Some (lk_program st, st).
Definition update (f : Program → Program) : L () :=
  λ st, Some ((), mkLinker (f (lk_program st)) (lk_diagnostics st) (lk_foundMain st)).
Definition report (code message : bytes) (span : SourceSpan) : L () :=
  λ st, Some ((), mkLinker (lk_program st) (error (lk_diagnostics st) code message span) (lk_foundMain st)).
Definition get_foundMain : L bool := λ st, Some (lk_foundMain st, st).
Definition set_foundMain (found : bool) : L () :=
  λ st, Some ((), mkLinker (lk_program st) (lk_diagnostics st) found).
(** [vector[index]]. *)
Definition at_ {A} (vector : Program → list A) (index : nat) : L A :=
  λ st, match vector (lk_program st) !! index with Some a => Some (a, st) | None => None end.

Fixpoint for_each {A} (l : list A) (body : A → L ()) : L () :=
  match l with [] => mret () | a :: l => body a;; for_each l body end.
Definition if_some {A} (o : option A) (body : A → L ()) : L () :=
  match o with Some a => body a | None => mret () end.
Definition map_some {A} (o : option A) (body : A → L A) : L (option A) :=
  match o with Some a => a ← body a; mret (Some a) | None => mret None end.

Definition set_value (id : nat) (value : ExpressionValue) : L () :=
  update (set_expressions (alter (λ e, mkExpression value (expr_span e)) id)).
Definition set_statement (id : nat) (value : StatementValue) : L () :=
  update (set_statements (alter (λ s, mkStatement value (stmt_span s)) id)).

Section Scope.
Context (currentPackage : bytes) (imports : ImportAliases) (symbols : SymbolTable).

Definition reportPrivate (packageName name : bytes) (span : SourceSpan) : L () :=
  report (lit "FDN3008") (packageName ++ lit "." ++ name ++ lit " is not exported") span.

Definition report_unexported (declaration : DeclarationInfo) (packageName name : bytes) (span : SourceSpan) : L () :=
  if di_exported declaration then mret () else reportPrivate packageName name span.

Section Parameters.
Context (typeParameters : list bytes).

(** ** Types *)

(** The body of [linkType] behind its arguments. *)
Definition link_type_name (type_name : bytes) (span : SourceSpan) : L bytes :=
  if intrinsicType type_name || bool_decide (type_name ∈ typeParameters) then mret type_name
  else
    match find_byte "."%char type_name with
    | None =>
        match findDeclaration symbols currentPackage type_name false with
        | Some localDeclaration => mret (di_internalName localDeclaration)
        | None =>
            match findPrelude symbols type_name false with
            | Some preludeDeclaration => mret (di_internalName preludeDeclaration)
            | None => mret type_name
            end
        end
    | Some separator =>
        let alias := take separator type_name in
        let name := drop (separator + 1) type_name in
        match imports !! alias with
        | None => report (lit "FDN3009") (lit "unknown import alias " ++ alias) span;; mret type_name
        | Some imported =>
            match findDeclaration symbols imported name false with
            | None =>
                report (lit "FDN3009") (lit "unknown type " ++ imported ++ lit "." ++ name) span;; mret type_name
            | Some declaration =>
                report_unexported declaration imported name span;; mret (di_internalName declaration)
            end
        end
    end.

Fixpoint linkType (type : TypeSyntax) : L TypeSyntax :=
  match type with
  | mkType name arguments span arrayLength =>
      arguments ← mapM linkType arguments;
      name ← link_type_name name span;
      mret (mkType name arguments span arrayLength)
  end.

(** ** Expressions and blocks *)

Section Recursion.
Context (linkExpression linkBlock : nat → L ()).

(** The name a member is looked up under: an exported type of the prelude that no type
    of the package hides is replaced in the base itself. *)
Definition member_base_name (base : nat) (name : bytes) (typeArguments : list TypeSyntax) : L bytes :=
  match findDeclaration symbols currentPackage name false with
  | Some _ => mret name
  | None =>
      match findPrelude symbols name false with
      | Some declaration =>
          set_value base (NameExpression (di_internalName declaration) typeArguments);;
          mret (di_internalName declaration)
      | None => mret name
      end
  end.

(** A member behind the alias of an imported package. *)
Definition imported_member (id : nat) (span : SourceSpan) (imported member : bytes) (typeArguments : list TypeSyntax)
    (invoked : bool) (arguments : list nat) (argumentNames : list (option bytes))
    (argumentNameSpans : list (option SourceSpan)) : L () :=
  match findDeclaration symbols imported member true with
  | Some function =>
      report_unexported function imported member span;;
      (if invoked then
         set_value id (CallExpression (di_internalName function) typeArguments arguments argumentNames
           argumentNameSpans)
       else set_value id (NameExpression (di_internalName function) typeArguments))
  | None =>
      match findDeclaration symbols imported member false with
      | Some type =>
          if negb invoked then
            report_unexported type imported member span;;
            set_value id (NameExpression (di_internalName type) typeArguments)
          else report (lit "FDN3009") (lit "unknown declaration " ++ imported ++ lit "." ++ member) span
      | None => report (lit "FDN3009") (lit "unknown declaration " ++ imported ++ lit "." ++ member) span
      end
  end.

Definition link_arm (arm : MatchArm) : L () :=
  if_some (ma_pattern arm) linkExpression;;
  if_some (ma_guard arm) linkExpression;;
  linkBlock (ma_block arm);;
  if_some (ma_expression arm) linkExpression.

(** The body of [linkExpression].  A node is not among those below it, so the value
    that is read first is the one its members have throughout. *)
Definition link_expression (id : nat) : L () :=
  expression ← at_ pr_expressions id;
  match expr_value expression with
  | ArrayExpression elements => for_each elements linkExpression
  | NameExpression name typeArguments =>
      typeArguments ← mapM linkType typeArguments;
      set_value id (NameExpression name typeArguments)
  | UnaryExpression _ operand => linkExpression operand
  | OwnershipExpression _ operand => linkExpression operand
  | BinaryExpression first _ second => linkExpression first;; linkExpression second
  | CallExpression callee typeArguments arguments argumentNames argumentNameSpans =>
      typeArguments ← mapM linkType typeArguments;
      set_value id (CallExpression callee typeArguments arguments argumentNames argumentNameSpans);;
      for_each arguments linkExpression
  | StructExpression type fields =>
      type ← linkType type;
      set_value id (StructExpression type fields);;
      for_each fields (λ field, linkExpression (fi_value field))
  | MemberExpression base member typeArguments invoked arguments argumentNames argumentNameSpans =>
      typeArguments ← mapM linkType typeArguments;
      set_value id (MemberExpression base member typeArguments invoked arguments argumentNames argumentNameSpans);;
      for_each arguments linkExpression;;
      match base with
      | None => mret ()
      | Some base =>
          linkExpression base;;
          base_expression ← at_ pr_expressions base;
          match expr_value base_expression with
          | NameExpression name baseArguments =>
              name ← member_base_name base name baseArguments;
              match imports !! name with
              | Some imported =>
                  imported_member id (expr_span expression) imported member typeArguments invoked arguments
                    argumentNames argumentNameSpans
              | None => mret ()
              end
          | _ => mret ()
          end
      end
  | IndexExpression base index => linkExpression base;; linkExpression index
  | ReplaceExpression target value => linkExpression target;; linkExpression value
  | SpawnExpression call => linkExpression call
  | MatchExpression value arms => linkExpression value;; for_each arms link_arm
  | ConditionalExpression condition thenBlock thenValue elseBlock elseValue _ =>
      linkExpression condition;;
      linkBlock thenBlock;;
      linkExpression thenValue;;
      linkBlock elseBlock;;
      linkExpression elseValue
  | IntegerExpression _ _ | FloatingExpression _ | BooleanExpression _ | StringExpression _
  | FunctionExpression _ => mret ()
  end.

Definition link_operation (operation : SelectOperationArm) : L () :=
  linkExpression (so_operation operation);; linkBlock (so_body operation).
Definition link_timeout (timeout : SelectTimeoutArm) : L () :=
  if_some (st_duration timeout) linkExpression;; linkBlock (st_body timeout).

(** The body of the loop of [linkBlock]. *)
Definition link_statement (statementId : nat) : L () :=
  statement ← at_ pr_statements statementId;
  match stmt_value statement with
  | VariableStatement mutableBinding name type initializer elseBinding elseBlock =>
      type ← map_some type linkType;
      set_statement statementId (VariableStatement mutableBinding name type initializer elseBinding elseBlock);;
      linkExpression initializer;;
      if_some elseBlock linkBlock
  | StructDestructureStatement type fields initializer =>
      type ← linkType type;
      set_statement statementId (StructDestructureStatement type fields initializer);;
      linkExpression initializer
  | AssignmentStatement target _ value => linkExpression target;; linkExpression value
  | ExpressionStatement expression => linkExpression expression
  | ResultElseStatement expression _ elseBlock => linkExpression expression;; linkBlock elseBlock
  | ReturnStatement value _ => if_some value linkExpression
  | DiscardStatement value => linkExpression value
  | IfStatement condition thenBlock elseBlock =>
      linkExpression condition;; linkBlock thenBlock;; if_some elseBlock linkBlock
  | WhileStatement condition body => linkExpression condition;; linkBlock body
  | ForStatement _ _ _ sequence body => linkExpression sequence;; linkBlock body
  | SelectStatement operations timeout _ errorBlock =>
      for_each operations link_operation;;
      if_some timeout link_timeout;;
      linkBlock errorBlock
  | UnsafeStatement body _ => linkBlock body
  | BreakStatement | ContinueStatement => mret ()
  end.

Definition link_block (id : nat) : L () :=
  block ← at_ pr_blocks id;
  for_each (block_statements block) link_statement.
End Recursion.

Fixpoint linkExpression (fuel : nat) (id : nat) {struct fuel} : L () :=
  match fuel with
  | O => undefined
  | S fuel => link_expression (linkExpression fuel) (linkBlock fuel) id
  end
with linkBlock (fuel : nat) (id : nat) {struct fuel} : L () :=
  match fuel with
  | O => undefined
  | S fuel => link_block (linkExpression fuel) (linkBlock fuel) id
  end.

(** ** Attributes *)

(** The recursion through the nodes of the program, as deep as it has nodes. *)
Definition node_fuel : L nat := p ← program; mret (arena_size (arena p)).
Definition linkArguments (arguments : list AttributeArgument) : L () :=
  fuel ← node_fuel;
  for_each arguments (λ argument, linkExpression fuel (aa_value argument)).

Definition link_attribute_name (attribute_name : bytes) (span : SourceSpan) : L bytes :=
  match find_byte "."%char attribute_name with
  | None =>
      match findAttribute symbols currentPackage attribute_name with
      | Some declaration => mret (di_internalName declaration)
      | None => mret attribute_name
      end
  | Some separator =>
      let alias := take separator attribute_name in
      let name := drop (separator + 1) attribute_name in
      match imports !! alias with
      | None => report (lit "FDN3009") (lit "unknown import alias " ++ alias) span;; mret attribute_name
      | Some imported =>
          match findAttribute symbols imported name with
          | Some declaration =>
              report_unexported declaration imported name span;; mret (di_internalName declaration)
          | None =>
              report (lit "FDN3009") (lit "unknown attribute " ++ imported ++ lit "." ++ name) span;;
              mret attribute_name
          end
      end
  end.

Definition linkAttribute (attribute : AttributeApplication) : L AttributeApplication :=
  if bool_decide (at_name attribute = lit "blocking") then linkArguments (at_arguments attribute);; mret attribute
  else
    name ← link_attribute_name (at_name attribute) (at_span attribute);
    linkArguments (at_arguments attribute);;
    mret (mkAttributeApplication name (at_arguments attribute) (at_span attribute) (at_parenthesized attribute)).
Definition linkAttributes : list AttributeApplication → L (list AttributeApplication) := mapM linkAttribute.
End Parameters.

(** ** Workflow steps *)

Definition linkWorkflowFunction (name : bytes) (span : SourceSpan) : L bytes :=
  match find_byte "."%char name with
  | None =>
      match findDeclaration symbols currentPackage name true with
      | Some localDeclaration => mret (di_internalName localDeclaration)
      | None =>
          match findPrelude symbols name true with
          | Some preludeDeclaration => mret (di_internalName preludeDeclaration)
          | None => report (lit "FDN3009") (lit "unknown workflow function " ++ name) span;; mret name
          end
      end
  | Some separator =>
      let alias := take separator name in
      let member := drop (separator + 1) name in
      match imports !! alias with
      | None => report (lit "FDN3009") (lit "unknown import alias " ++ alias) span;; mret name
      | Some imported =>
          match findDeclaration symbols imported member true with
          | None =>
              report (lit "FDN3009") (lit "unknown function " ++ imported ++ lit "." ++ member) span;; mret name
          | Some declaration =>
              report_unexported declaration imported member span;; mret (di_internalName declaration)
          end
      end
  end.
End Scope.
