(* ===== verification/ProjectFiles.v ===== *)
(** * Linking the files of a project (compiler/src/project.cpp)

    The imports of a file, the collection of symbols, and [linkFile]: the pass over the
    declarations of one file. *)
From S2P Require Import Prelude Target Diagnostics Ast AstGraph ParserState ParserDeclarations ProjectLink.

Record ParsedFile := mkParsedFile {
  pf_program : Program;
  pf_sourcePath : bytes;
}.

(** ** Imports *)

(** [unordered_map::emplace]: the first entry of a key stays. *)
Definition emplace {V} (key : bytes) (value : V) (m : gmap bytes V) : gmap bytes V :=
  match m !! key with Some _ => m | None => <[key := value]> m end.

Definition import_alias (imported : ImportDeclaration) : bytes :=
  if bool_decide (im_alias imported = []) then defaultAlias (im_packageName imported) else im_alias imported.

Record ImportCheck := mkImportCheck {
  ic_aliases : ImportAliases;
  ic_packages : gset bytes;
  ic_diagnostics : Diagnostics;
}.

(** The body of the loop of [validateImports]. *)
Definition validate_import (symbols : SymbolTable) (hostedSdkPackages : gset bytes) (c : ImportCheck)
    (imported : ImportDeclaration) : ImportCheck :=
  let alias := import_alias imported in
  let package := im_packageName imported in
  let span := im_span imported in
  let d := ic_diagnostics c in
  let d :=
    if bool_decide (package ∈ hostedSdkPackages) then
      error d (lit "FDN3011") (lit "SDK package " ++ package ++
        lit " is not available for the freestanding target") span
    else if bool_decide (symbols !! package = None) then
      error d (lit "FDN3005") (lit "package not found: " ++ package) span
    else d in
  let d :=
    if bool_decide (package ∈ ic_packages c) then
      error d (lit "FDN3004") (lit "package imported more than once: " ++ package) span
    else d in
  let d :=
    if bool_decide (is_Some (ic_aliases c !! alias)) then
      error d (lit "FDN3004") (lit "duplicate import alias " ++ alias) span
    else d in
  mkImportCheck (emplace alias package (ic_aliases c)) ({[package]} ∪ ic_packages c) d.

Definition validateImports (p : Program) (symbols : SymbolTable) (hostedSdkPackages : gset bytes)
    (diagnostics : Diagnostics) : ImportAliases * Diagnostics :=
  let c := foldl (validate_import symbols hostedSdkPackages) (mkImportCheck ∅ ∅ diagnostics) (pr_imports p) in
  (ic_aliases c, ic_diagnostics c).

Section Shadows.
Context (aliases : ImportAliases).

Definition shadow_report (what name : bytes) (span : SourceSpan) (d : Diagnostics) : Diagnostics :=
  if bool_decide (is_Some (aliases !! name))
  then error d (lit "FDN3004") (what ++ lit " shadows import alias " ++ name) span else d.

Definition shadow_statement (d : Diagnostics) (statement : Statement) : Diagnostics :=
  match stmt_value statement with
  | VariableStatement _ name _ _ elseBinding _ =>
      let d := shadow_report (lit "binding") name (stmt_span statement) d in
      match elseBinding with
      | Some elseBinding => shadow_report (lit "binding") elseBinding (stmt_span statement) d
      | None => d
      end
  | StructDestructureStatement _ fields _ =>
      foldl (λ d field, shadow_report (lit "binding") (pf_binding field) (pf_span field) d) d fields
  | _ => d
  end.
Definition shadow_expression (d : Diagnostics) (expression : Expression) : Diagnostics :=
  match expr_value expression with
  | MatchExpression _ arms =>
      foldl (λ d arm,
        match ma_binding arm with
        | Some binding => shadow_report (lit "binding") binding (ma_span arm) d
        | None => d
        end) d arms
  | _ => d
  end.
Definition shadow_function (d : Diagnostics) (function : Function) : Diagnostics :=
  foldl (λ d parameter, shadow_report (lit "parameter") (param_name parameter) (param_span parameter) d) d
    (fn_parameters function).

Definition rejectAliasShadows (p : Program) (d : Diagnostics) : Diagnostics :=
  let d := foldl shadow_function d (pr_functions p) in
  let d := foldl shadow_statement d (pr_statements p) in
  foldl shadow_expression d (pr_expressions p).
End Shadows.

(** ** Symbols *)

Definition emptySymbols : PackageSymbols := mkPackageSymbols ∅ ∅ ∅.
Definition info (packageName name : bytes) (exported : bool) : DeclarationInfo :=
  mkDeclarationInfo (internalName packageName name) exported.

(** The declarations of a file, in the order of the loops of [collectSymbols]. *)
Definition file_types (p : Program) : list (bytes * DeclarationInfo) :=
  map (λ d, (sd_name d, info (pr_packageName p) (sd_name d) (sd_exported d))) (pr_structs p) ++
  flat_map (λ d,
    match ed_builtin d with
    | BuiltinNone => [(ed_name d, info (pr_packageName p) (ed_name d) (ed_exported d))]
    | _ => []
    end) (pr_enums p) ++
  map (λ d, (cd_name d, info (pr_packageName p) (cd_name d) (cd_exported d))) (pr_contracts p).
Definition file_attributes (p : Program) : list (bytes * DeclarationInfo) :=
  map (λ d, (ad_name d, info (pr_packageName p) (ad_name d) (ad_exported d))) (pr_attributeDeclarations p).
Definition collected_function (f : Function) : bool :=
  negb (negb (bool_decide (fn_ownerType f = [])) || fn_closure f ||
        starts_with (lit "$field_default.") (fn_name f) || bool_decide (is_Some (fn_testName f))).
Definition file_functions (p : Program) : list (bytes * DeclarationInfo) :=
  flat_map (λ f,
    if collected_function f then
      [(fn_name f,
        mkDeclarationInfo
          (if bool_decide (fn_name f = lit "main") then lit "main" else internalName (pr_packageName p) (fn_name f))
          (fn_exported f))]
    else []) (pr_functions p).

Definition emplace_all {V} (entries : list (bytes * V)) (m : gmap bytes V) : gmap bytes V :=
  foldl (λ m e, emplace e.1 e.2 m) m entries.
Definition collect_file (symbols : SymbolTable) (file : ParsedFile) : SymbolTable :=
  let p := pf_program file in
  let package := default emptySymbols (symbols !! pr_packageName p) in
  <[pr_packageName p :=
    mkPackageSymbols (emplace_all (file_types p) (ps_types package))
      (emplace_all (file_functions p) (ps_functions package))
      (emplace_all (file_attributes p) (ps_attributes package))]> symbols.
Definition collectSymbols (files : list ParsedFile) (symbols : SymbolTable) : SymbolTable :=
  foldl collect_file symbols files.

(** ** Declarations of a file *)

Section File.
Context (packageName sourcePath : bytes) (aliases : ImportAliases) (symbols : SymbolTable)
  (target : TargetPlatform).

Abbreviation type_in := (linkType packageName aliases symbols).
Abbreviation attributes_in := (linkAttributes packageName aliases symbols).

Definition link_attribute_parameter (q : Parameter_) : L Parameter_ :=
  type ← type_in [] (param_type q);
  mret (mkParameter (param_name q) type (param_span q) (param_attributes q) (param_mode q) (param_inferredType q)).
Definition link_attribute_declaration (d : AttributeDeclaration) : L AttributeDeclaration :=
  parameters ← mapM link_attribute_parameter (ad_parameters d);
  mret (mkAttributeDeclaration (internalName packageName (ad_name d)) parameters (ad_targets d) (ad_repeatable d)
    (ad_exported d) (ad_span d) packageName).

Definition link_field (parameters : list bytes) (f : StructField) : L StructField :=
  type ← type_in parameters (sf_type f);
  attributes ← attributes_in parameters (sf_attributes f);
  mret (mkStructField (sf_name f) type (sf_exported f) (sf_span f) attributes (sf_defaultFunction f)
    (sf_defaultSpan f)).
Definition link_implementation (parameters : list bytes) (i : StructImplementation) : L StructImplementation :=
  contract ← type_in parameters (si_contract i);
  mret (mkImplementation contract (si_delegate i) (si_span i)).
Definition link_struct (d : StructDeclaration) : L StructDeclaration :=
  let parameters := sd_typeParameters d in
  fields ← mapM (link_field parameters) (sd_fields d);
  implementations ← mapM (link_implementation parameters) (sd_implementations d);
  attributes ← attributes_in parameters (sd_attributes d);
  mret (mkStruct (internalName packageName (sd_name d)) parameters implementations fields (sd_exported d)
    (sd_span d) packageName attributes (sd_kind d) sourcePath).

Definition link_variant (parameters : list bytes) (v : EnumVariant) : L EnumVariant :=
  payloadType ← map_some (ev_payloadType v) (type_in parameters);
  attributes ← attributes_in parameters (ev_attributes v);
  mret (mkEnumVariant (ev_name v) payloadType (ev_exported v) (ev_span v) attributes (ev_payloadName v)
    (ev_payloadNameSpan v)).
Definition link_enum (d : EnumDeclaration) : L EnumDeclaration :=
  match ed_builtin d with
  | BuiltinNone =>
      let parameters := ed_typeParameters d in
      variants ← mapM (link_variant parameters) (ed_variants d);
      attributes ← attributes_in parameters (ed_attributes d);
      mret (mkEnumDeclaration (internalName packageName (ed_name d)) parameters variants (ed_exported d)
        (ed_builtin d) (ed_span d) packageName attributes (ed_stateMachine d) (ed_generated d))
  | _ => mret d
  end.

Definition link_parameter (parameters : list bytes) (q : Parameter_) : L Parameter_ :=
  type ← type_in parameters (param_type q);
  attributes ← attributes_in parameters (param_attributes q);
  mret (mkParameter (param_name q) type (param_span q) attributes (param_mode q) (param_inferredType q)).
Definition link_method (parameters : list bytes) (m : ContractMethod) : L ContractMethod :=
  ps ← mapM (link_parameter parameters) (cm_parameters m);
  returnType ← type_in parameters (cm_returnType m);
  attributes ← attributes_in parameters (cm_attributes m);
  mret (mkContractMethod (cm_name m) (cm_receiver m) ps returnType (cm_exported m) (cm_span m)
    (cm_defaultFunction m) attributes).
Definition link_contract (d : ContractDeclaration) : L ContractDeclaration :=
  let parameters := cd_typeParameters d in
  parents ← mapM (type_in parameters) (cd_parents d);
  methods ← mapM (link_method parameters) (cd_methods d);
  attributes ← attributes_in parameters (cd_attributes d);
  mret (mkContract (internalName packageName (cd_name d)) parameters parents methods (cd_exported d) (cd_span d)
    packageName attributes).

Definition link_step (s : WorkflowStep) : L WorkflowStep :=
  function ← linkWorkflowFunction packageName aliases symbols (ws_function s) (ws_functionSpan s);
  compensation ←
    match ws_compensation s, ws_compensationSpan s with
    | Some compensation, Some span =>
        compensation ← linkWorkflowFunction packageName aliases symbols compensation span;
        mret (Some compensation)
    | compensation, _ => mret compensation
    end;
  mret (mkWorkflowStep (ws_name s) function (ws_span s) (ws_functionSpan s) (ws_attempts s) compensation
    (ws_compensationSpan s)).
Definition link_workflow (parameters : list bytes) (w : WorkflowFunction) : L WorkflowFunction :=
  successType ← type_in parameters (wf_successType w);
  errorType ← type_in parameters (wf_errorType w);
  steps ← mapM link_step (wf_steps w);
  mret (mkWorkflow (wf_kind w) successType errorType steps
    (internalName packageName <$> wf_failureStruct w) (internalName packageName <$> wf_failureEnum w)).

(** The name a function gets, with its owner. *)
Definition link_function_name (f : Function) : L (bytes * bytes) :=
  if bool_decide (is_Some (fn_testName f)) then
    mret (internalName packageName
            (lit "$test." ++ nat_text (span_source (fn_span f)) ++ lit "." ++ nat_text (span_offset (fn_span f))),
          fn_ownerType f)
  else if fn_closure f then mret (internalName packageName (fn_name f), fn_ownerType f)
  else if negb (bool_decide (fn_ownerType f = [])) then
    let ownerType := internalName packageName (fn_ownerType f) in
    mret (ownerType ++ lit "." ++ fn_name f, ownerType)
  else if bool_decide (fn_name f = lit "main") then
    (if bool_decide (target = Freestanding) then
       report (lit "FDN3012") (lit "freestanding code cannot declare main") (fn_span f)
     else mret ());;
    found ← get_foundMain;
    (if found : bool then
       report (lit "FDN3010") (lit "project declares more than one main function") (fn_span f)
     else mret ());;
    set_foundMain true;;
    mret (fn_name f, fn_ownerType f)
  else if bool_decide (fn_name f = lit "print" ∨ fn_name f = lit "panic") then
    report (lit "FDN2018") (fn_name f ++ lit " is a reserved builtin") (fn_span f);;
    mret (internalName packageName (fn_name f), fn_ownerType f)
  else mret (internalName packageName (fn_name f), fn_ownerType f).

(** What [linkFile] does to the parts of a function before its name. *)
Definition link_function_parts (f : Function)
    : L (list (option TypeSyntax) * list Parameter_ * TypeSyntax * option WorkflowFunction *
         list AttributeApplication) :=
  let parameters := fn_typeParameters f in
  constraints ← mapM (λ c, map_some c (type_in parameters)) (fn_typeParameterConstraints f);
  ps ← mapM (link_parameter parameters) (fn_parameters f);
  returnType ← type_in parameters (fn_returnType f);
  workflow ← map_some (fn_workflow f) (link_workflow parameters);
  attributes ← attributes_in parameters (fn_attributes f);
  fuel ← node_fuel;
  linkBlock packageName aliases symbols parameters fuel (fn_body f);;
  mret (constraints, ps, returnType, workflow, attributes).
Definition link_function (f : Function) : L Function :=
  '(constraints, ps, returnType, workflow, attributes) ← link_function_parts f;
  '(name, ownerType) ← link_function_name f;
  mret (mkAstFunction name (fn_typeParameters f) ps returnType (fn_body f) (fn_exported f) (fn_span f) packageName
    sourcePath (fn_receiver f) ownerType (fn_cSymbol f) (fn_hasBody f) (fn_closure f) (fn_captures f) attributes
    (fn_task f) (fn_blocking f) (fn_callback f) (fn_testName f) (fn_testNameSpan f) (fn_action f)
    (fn_stateTransition f) workflow (fn_inferredReturn f) (fn_transferableTypeParameters f) (fn_stateTimeout f)
    (fn_constructor f) constraints).

(** A loop of [linkFile] over a vector of the program.  The calls in it do not change
    that vector, so it is written back behind the loop. *)
Definition over {A} (vector : Program → list A) (assign : (list A → list A) → Program → Program) (body : A → L A)
    : L () :=
  p ← program;
  l ← mapM body (vector p);
  update (assign (λ _, l)).

Definition link_declarations : L () :=
  over pr_attributeDeclarations set_attributeDeclarations link_attribute_declaration;;
  over pr_structs set_structs link_struct;;
  over pr_enums set_enums link_enum;;
  over pr_contracts set_contracts link_contract;;
  over pr_functions set_functions link_function.
End File.

(** The file that is linked, the log and whether a main function was found. *)
Definition linkFile (symbols : SymbolTable) (target : TargetPlatform) (hostedSdkPackages : gset bytes)
    (file : ParsedFile) (diagnostics : Diagnostics) (foundMain : bool) : option (ParsedFile * Diagnostics * bool) :=
  let p := pf_program file in
  let '(aliases, diagnostics) := validateImports p symbols hostedSdkPackages diagnostics in
  let diagnostics := rejectAliasShadows aliases p diagnostics in
  match link_declarations (pr_packageName p) (pf_sourcePath file) aliases symbols target
          (mkLinker p diagnostics foundMain) with
  | Some (_, st) =>
      Some (mkParsedFile (lk_program st) (pf_sourcePath file), lk_diagnostics st, lk_foundMain st)
  | None => None
  end.
