(* ===== verification/ProjectLinkProofs.v ===== *)
(** * Linking ends and keeps the references of a program

    [links m st Q]: from [st], [m] neither runs out of fuel nor reads outside a vector,
    and ends in a state that [Q] holds of.  Linking replaces nodes by nodes that refer
    to no more than they did, so a rank of the program before stays one. *)
From S2P Require Import Prelude Diagnostics Ast AstGraph ParserDeclarations ParserState ProjectLink.

Definition links {A} (m : L A) (st : Linker) (Q : A → Linker → Prop) : Prop :=
  match m st with Some (a, st') => Q a st' | None => False end.

Lemma links_bind {A B} (m : L A) (k : A → L B) st Q :
  links m st (λ a st', links (k a) st' Q) → links (m ≫= k) st Q.
Proof. unfold links, mbind, L_bind. by destruct (m st) as [[a st']|]. Qed.
Lemma links_mono {A} (m : L A) st (Q Q' : A → Linker → Prop) :
  links m st Q → (∀ a st', Q a st' → Q' a st') → links m st Q'.
Proof. unfold links. destruct (m st) as [[a st']|]; [|done]. auto. Qed.

(** The log only grows. *)
Lemma add_prefix d severity code message span : d `prefix_of` add d severity code message span.
Proof. unfold add. repeat case_bool_decide; [done|by apply prefix_app_r..]. Qed.
Lemma hasErrors_prefix d d' : d `prefix_of` d' → hasErrors d' = false → hasErrors d = false.
Proof. intros [l ->]. unfold hasErrors. rewrite existsb_app. by intros [? _]%orb_false_iff. Qed.

(** What linking a part of a program does to the state. *)
Record linking (st st' : Linker) : Prop := mkLinking {
  ln_nodes : ∀ n, node_in (arena (lk_program st')) n ↔ node_in (arena (lk_program st)) n;
  ln_size : arena_size (arena (lk_program st')) = arena_size (arena (lk_program st));
  ln_refs : ∀ n m, m ∈ refs (arena (lk_program st')) n → m ∈ refs (arena (lk_program st)) n;
  ln_functions : pr_functions (lk_program st') = pr_functions (lk_program st);
  ln_declared : declared (lk_program st') = declared (lk_program st);
  ln_log : lk_diagnostics st `prefix_of` lk_diagnostics st';
  ln_main : lk_foundMain st' = lk_foundMain st;
}.

#[global] Instance linking_preorder : PreOrder linking.
Proof.
  split; [by split|]. intros x y z [a1 a2 a3 a4 a5 a6 a7] [b1 b2 b3 b4 b5 b6 b7]. split.
  - intros n. by rewrite b1.
  - congruence.
  - eauto.
  - congruence.
  - congruence.
  - by etrans.
  - congruence.
Qed.

Lemma linking_ranking st st' rank :
  linking st st' → ranking (arena (lk_program st)) rank → ranking (arena (lk_program st')) rank.
Proof.
  intros Hl Hr n Hn. apply (ln_nodes _ _ Hl) in Hn. destruct (Hr n Hn) as [H1 H2].
  rewrite (ln_size _ _ Hl). split; [done|]. rewrite Forall_forall in *. intros m Hm%(ln_refs _ _ Hl).
  rewrite (ln_nodes _ _ Hl). auto.
Qed.

(** ** Steps of the pass

    A computation that takes every state linking reaches from [st0] to one. *)
Section Steps.
Context (st0 : Linker).
Abbreviation a0 := (arena (lk_program st0)).

Definition steps {A} (m : L A) (Q : A → Prop) : Prop :=
  ∀ st, linking st0 st → links m st (λ a st', Q a ∧ linking st0 st').

Lemma steps_bind {A B} (m : L A) (k : A → L B) (Q : A → Prop) (Q' : B → Prop) :
  steps m Q → (∀ a, Q a → steps (k a) Q') → steps (m ≫= k) Q'.
Proof.
  intros Hm Hk st Hs. apply links_bind. eapply links_mono; [by apply Hm|]. intros a st' [Ha Hs']. by apply Hk.
Qed.
Lemma steps_ret {A} (a : A) (Q : A → Prop) : Q a → steps (mret a) Q.
Proof. by intros Ha st Hs. Qed.
Lemma steps_mono {A} (m : L A) (Q Q' : A → Prop) : steps m Q → (∀ a, Q a → Q' a) → steps m Q'.
Proof. intros Hm HQ st Hs. eapply links_mono; [by apply Hm|]. intros a st' [Ha Hs']. auto. Qed.

Lemma steps_report code message span : steps (report code message span) (λ _, True).
Proof.
  intros st Hs. unfold links. cbn. split; [done|]. etrans; [exact Hs|]. split; cbn; try done.
  apply add_prefix.
Qed.

Lemma steps_for_each {A} (l : list A) (body : A → L ()) :
  (∀ a, a ∈ l → steps (body a) (λ _, True)) → steps (for_each l body) (λ _, True).
Proof.
  induction l as [|a l IH]; intros H; cbn; [by apply steps_ret|].
  eapply steps_bind; [apply H; left|]. intros _ _. apply IH. intros b Hb. apply H. by right.
Qed.
Lemma steps_if_some {A} (o : option A) (body : A → L ()) :
  (∀ a, o = Some a → steps (body a) (λ _, True)) → steps (if_some o body) (λ _, True).
Proof. destruct o; cbn; [auto|]. intros _. by apply steps_ret. Qed.
Lemma steps_map_some {A} (o : option A) (body : A → L A) :
  (∀ a, o = Some a → steps (body a) (λ _, True)) → steps (map_some o body) (λ _, True).
Proof.
  destruct o; cbn; intros H; [|by apply steps_ret]. eapply steps_bind; [by apply H|].
  intros b _. by apply steps_ret.
Qed.
Lemma steps_mapM {A B} (f : A → L B) (l : list A) (R : A → B → Prop) :
  (∀ a, a ∈ l → steps (f a) (R a)) → steps (mapM f l) (Forall2 R l).
Proof.
  induction l as [|a l IH]; intros H; cbn; [apply steps_ret; constructor|].
  eapply steps_bind; [apply H; left|]. intros b Hb.
  eapply steps_bind; [apply IH; intros c Hc; apply H; by right|]. intros bs Hbs. apply steps_ret. by constructor.
Qed.

Lemma steps_at_expression {A} id (k : Expression → L A) (Q : A → Prop) :
  node_in a0 (NExpr id) →
  (∀ e, (∀ m, m ∈ expression_nodes (expr_value e) → m ∈ refs a0 (NExpr id)) → steps (k e) Q) →
  steps (at_ pr_expressions id ≫= k) Q.
Proof.
  intros Hn Hk st Hs. apply links_bind. unfold links, at_.
  pose proof (proj2 (ln_nodes _ _ Hs (NExpr id)) Hn) as [e He]%lookup_lt_is_Some. cbn in He. rewrite He.
  apply Hk; [|done]. intros m Hm. apply (ln_refs _ _ Hs). cbn. by rewrite He.
Qed.
Lemma steps_at_statement {A} id (k : Statement → L A) (Q : A → Prop) :
  node_in a0 (NStmt id) →
  (∀ s, (∀ m, m ∈ statement_nodes (stmt_value s) → m ∈ refs a0 (NStmt id)) → steps (k s) Q) →
  steps (at_ pr_statements id ≫= k) Q.
Proof.
  intros Hn Hk st Hs. apply links_bind. unfold links, at_.
  pose proof (proj2 (ln_nodes _ _ Hs (NStmt id)) Hn) as [e He]%lookup_lt_is_Some. cbn in He. rewrite He.
  apply Hk; [|done]. intros m Hm. apply (ln_refs _ _ Hs). cbn. by rewrite He.
Qed.
Lemma steps_at_block {A} id (k : Block → L A) (Q : A → Prop) :
  node_in a0 (NBlock id) →
  (∀ b, (∀ m, m ∈ block_nodes b → m ∈ refs a0 (NBlock id)) → steps (k b) Q) →
  steps (at_ pr_blocks id ≫= k) Q.
Proof.
  intros Hn Hk st Hs. apply links_bind. unfold links, at_.
  pose proof (proj2 (ln_nodes _ _ Hs (NBlock id)) Hn) as [e He]%lookup_lt_is_Some. cbn in He. rewrite He.
  apply Hk; [|done]. intros m Hm. apply (ln_refs _ _ Hs). cbn. by rewrite He.
Qed.

Lemma steps_set_value id value :
  (∀ m, m ∈ expression_nodes value → m ∈ refs a0 (NExpr id)) → steps (set_value id value) (λ _, True).
Proof.
  intros Hv st Hs. unfold links, set_value. cbn. split; [done|]. destruct Hs as [H1 H2 H3 H4 H5 H6 H7].
  split; cbn; try done.
  - intros n. etrans; [|apply H1]. destruct n; cbn; by rewrite ?length_alter.
  - etrans; [|exact H2]. unfold arena_size. cbn. by rewrite length_alter.
  - intros n m. destruct n as [i|i|i|i]; try apply (H3 (NStmt i)) || apply (H3 (NBlock i)) || apply (H3 (NFun i)).
    cbn. destruct (decide (i = id)) as [->|Hne].
    + rewrite list_lookup_alter_eq. destruct (pr_expressions (lk_program st) !! id) as [e|]; cbn; [apply Hv|].
      by intros ?%not_elem_of_nil.
    + rewrite list_lookup_alter_ne by done. apply (H3 (NExpr i)).
Qed.
Lemma steps_set_statement id value :
  (∀ m, m ∈ statement_nodes value → m ∈ refs a0 (NStmt id)) → steps (set_statement id value) (λ _, True).
Proof.
  intros Hv st Hs. unfold links, set_statement. cbn. split; [done|]. destruct Hs as [H1 H2 H3 H4 H5 H6 H7].
  split; cbn; try done.
  - intros n. etrans; [|apply H1]. destruct n; cbn; by rewrite ?length_alter.
  - etrans; [|exact H2]. unfold arena_size. cbn. by rewrite length_alter.
  - intros n m. destruct n as [i|i|i|i]; try apply (H3 (NExpr i)) || apply (H3 (NBlock i)) || apply (H3 (NFun i)).
    cbn. destruct (decide (i = id)) as [->|Hne].
    + rewrite list_lookup_alter_eq. destruct (pr_statements (lk_program st) !! id) as [e|]; cbn; [apply Hv|].
      by intros ?%not_elem_of_nil.
    + rewrite list_lookup_alter_ne by done. apply (H3 (NStmt i)).
Qed.
End Steps.

(** ** Membership in the references of a node *)

Lemma elem_flat_map {A} (f : A → list Node) l m : m ∈ flat_map f l ↔ ∃ x, x ∈ l ∧ m ∈ f x.
Proof.
  induction l as [|x l IH]; cbn.
  - split; [by intros ?%not_elem_of_nil|]. by intros (x & ?%not_elem_of_nil & _).
  - rewrite elem_of_app, IH. setoid_rewrite elem_of_cons. naive_solver.
Qed.
Lemma elem_ids m ids : m ∈ expression_ids ids ↔ ∃ id, m = NExpr id ∧ id ∈ ids.
Proof.
  unfold expression_ids. rewrite elem_flat_map. setoid_rewrite list_elem_of_singleton. naive_solver.
Qed.
Lemma elem_optional f m id : m ∈ optional f id ↔ ∃ i, id = Some i ∧ m = f i.
Proof.
  destruct id; cbn; rewrite ?list_elem_of_singleton; [naive_solver|].
  split; [by intros ?%not_elem_of_nil|]. by intros (? & ? & _).
Qed.
Lemma elem_timeout m t : m ∈ timeout_nodes t ↔ ∃ x, t = Some x ∧ m ∈ NBlock (st_body x) :: optional NExpr (st_duration x).
Proof.
  destruct t; cbn; [naive_solver|]. split; [by intros ?%not_elem_of_nil|]. by intros (? & ? & _).
Qed.

(** Membership in a list of nodes that is known up to the members of a value. *)
Ltac inside :=
  unfold arm_nodes, operation_nodes, field_nodes, block_nodes;
  repeat first [setoid_rewrite elem_of_cons | setoid_rewrite elem_of_app | setoid_rewrite elem_flat_map
    | setoid_rewrite elem_ids | setoid_rewrite elem_optional | setoid_rewrite elem_timeout];
  naive_solver.

Section Names.
Context (currentPackage : bytes) (imports : ImportAliases) (symbols : SymbolTable) (typeParameters : list bytes)
  (st0 : Linker).
Abbreviation a0 := (arena (lk_program st0)).
Abbreviation done_ m := (steps st0 m (λ _, True)).

Lemma report_unexported_steps declaration packageName name span :
  done_ (report_unexported declaration packageName name span).
Proof. unfold report_unexported. destruct (di_exported declaration); [by apply steps_ret|apply steps_report]. Qed.

Lemma link_type_name_steps name span :
  done_ (link_type_name currentPackage imports symbols typeParameters name span).
Proof.
  unfold link_type_name. destruct (_ || _); [by apply steps_ret|]. destruct (find_byte _ _).
  - destruct (imports !! _); [|eapply steps_bind; [apply steps_report|by intros; apply steps_ret]].
    destruct (findDeclaration _ _ _ _); eapply steps_bind; try apply steps_report;
      try apply report_unexported_steps; by intros; apply steps_ret.
  - destruct (findDeclaration _ _ _ _); [by apply steps_ret|]. destruct (findPrelude _ _ _); by apply steps_ret.
Qed.

Lemma linkType_steps type : done_ (linkType currentPackage imports symbols typeParameters type).
Proof.
  induction type as [name arguments span arrayLength IH] using TypeSyntax_induction. cbn.
  eapply steps_bind.
  - apply (steps_mapM _ _ _ (λ _ _, True)). rewrite Forall_forall in IH. exact IH.
  - intros arguments' _. eapply steps_bind; [apply link_type_name_steps|]. intros. by apply steps_ret.
Qed.
Lemma linkTypes_steps types : done_ (mapM (linkType currentPackage imports symbols typeParameters) types).
Proof.
  eapply steps_mono; [apply (steps_mapM _ _ _ (λ _ _, True)); intros; apply linkType_steps|done].
Qed.

Section Recursion.
Context (linkExpression linkBlock : nat → L ()).

(** The recursive calls are safe on what [n] refers to. *)
Definition below (n : Node) : Prop :=
  (∀ id, NExpr id ∈ refs a0 n → node_in a0 (NExpr id) ∧ done_ (linkExpression id)) ∧
  (∀ id, NBlock id ∈ refs a0 n → done_ (linkBlock id)).

Lemma visit_expressions n ids :
  below n → (∀ id, id ∈ ids → NExpr id ∈ refs a0 n) → done_ (for_each ids linkExpression).
Proof. intros [He _] Hi. apply steps_for_each. intros id Hid. by apply He, Hi. Qed.

Lemma link_arm_steps n arm :
  below n → (∀ m, m ∈ arm_nodes arm → m ∈ refs a0 n) → done_ (link_arm linkExpression linkBlock arm).
Proof.
  intros [He Hb] Hs. unfold link_arm. eapply steps_bind.
  { apply steps_if_some. intros id E. apply He, Hs. inside. }
  intros _ _. eapply steps_bind.
  { apply steps_if_some. intros id E. apply He, Hs. inside. }
  intros _ _. eapply steps_bind; [apply Hb, Hs; inside|]. intros _ _.
  apply steps_if_some. intros id E. apply He, Hs. inside.
Qed.

Lemma member_base_name_steps base name typeArguments :
  done_ (member_base_name currentPackage symbols base name typeArguments).
Proof.
  unfold member_base_name. destruct (findDeclaration _ _ _ _); [by apply steps_ret|].
  destruct (findPrelude _ _ _); [|by apply steps_ret].
  eapply steps_bind; [apply steps_set_value; by intros m ?%not_elem_of_nil|]. intros. by apply steps_ret.
Qed.

Lemma imported_member_steps id span imported member typeArguments invoked arguments names spans :
  (∀ i, i ∈ arguments → NExpr i ∈ refs a0 (NExpr id)) →
  done_ (imported_member symbols id span imported member typeArguments invoked arguments names spans).
Proof.
  intros Ha. unfold imported_member. destruct (findDeclaration _ _ _ true).
  - eapply steps_bind; [apply report_unexported_steps|]. intros _ _. destruct invoked; apply steps_set_value; cbn.
    + intros m (i & -> & Hi)%elem_ids. by apply Ha.
    + by intros m ?%not_elem_of_nil.
  - destruct (findDeclaration _ _ _ false); [|apply steps_report]. destruct invoked; cbn; [apply steps_report|].
    eapply steps_bind; [apply report_unexported_steps|]. intros _ _. apply steps_set_value.
    by intros m ?%not_elem_of_nil.
Qed.

Lemma link_expression_steps id :
  node_in a0 (NExpr id) → below (NExpr id) →
  done_ (link_expression currentPackage imports symbols typeParameters linkExpression linkBlock id).
Proof.
  intros Hn Hbelow. pose proof Hbelow as [He Hb]. unfold link_expression. apply steps_at_expression; [done|].
  intros e Hs.
  assert (∀ i, NExpr i ∈ expression_nodes (expr_value e) → done_ (linkExpression i)) as Hve
    by (intros; by apply He, Hs).
  assert (∀ i, NBlock i ∈ expression_nodes (expr_value e) → done_ (linkBlock i)) as Hvb
    by (intros; by apply Hb, Hs).
  destruct (expr_value e) as [| | | |elements|name typeArguments|op operand|op operand|x op y
    |callee typeArguments arguments names spans|type fields
    |base member typeArguments invoked arguments names spans|x y|x y|call|value arms|c t tv f fv post|g];
    cbn [expression_nodes] in *; try (by apply steps_ret).
  - eapply visit_expressions; [done|]. intros i Hi. apply Hs. inside.
  - eapply steps_bind; [apply linkTypes_steps|]. intros ts _. by apply steps_set_value.
  - apply Hve. inside.
  - apply Hve. inside.
  - eapply steps_bind; [apply Hve; inside|]. intros _ _. apply Hve. inside.
  - eapply steps_bind; [apply linkTypes_steps|]. intros ts _.
    eapply steps_bind; [by apply steps_set_value|]. intros _ _.
    eapply visit_expressions; [done|]. intros i Hi. apply Hs. inside.
  - eapply steps_bind; [apply linkType_steps|]. intros t _.
    eapply steps_bind; [by apply steps_set_value|]. intros _ _.
    apply steps_for_each. intros x Hx. apply Hve. inside.
  - eapply steps_bind; [apply linkTypes_steps|]. intros ts _.
    eapply steps_bind; [by apply steps_set_value|]. intros _ _. eapply steps_bind.
    { eapply visit_expressions; [done|]. intros i Hi. apply Hs. inside. }
    intros _ _. destruct base as [base|]; [|by apply steps_ret]. cbn [optional] in *.
    eapply steps_bind; [apply Hve; inside|]. intros _ _.
    apply steps_at_expression; [apply He, Hs; inside|]. intros b _. destruct (expr_value b); try by apply steps_ret.
    eapply steps_bind; [apply member_base_name_steps|]. intros name' _.
    destruct (imports !! name'); [|by apply steps_ret]. apply imported_member_steps. intros i Hi. apply Hs. inside.
  - eapply steps_bind; [apply Hve; inside|]. intros _ _. apply Hve. inside.
  - eapply steps_bind; [apply Hve; inside|]. intros _ _. apply Hve. inside.
  - apply Hve. inside.
  - eapply steps_bind; [apply Hve; inside|]. intros _ _. apply steps_for_each. intros arm Ha.
    eapply link_arm_steps; [done|]. intros m Hm. apply Hs. apply elem_of_cons. right. apply elem_flat_map. eauto.
  - eapply steps_bind; [apply Hve; inside|]. intros _ _. eapply steps_bind; [apply Hvb; inside|]. intros _ _.
    eapply steps_bind; [apply Hve; inside|]. intros _ _. eapply steps_bind; [apply Hvb; inside|]. intros _ _.
    apply Hve. inside.
Qed.

Lemma link_statement_steps id :
  node_in a0 (NStmt id) → below (NStmt id) →
  done_ (link_statement currentPackage imports symbols typeParameters linkExpression linkBlock id).
Proof.
  intros Hn [He Hb]. unfold link_statement. apply steps_at_statement; [done|]. intros e Hs.
  assert (∀ i, NExpr i ∈ statement_nodes (stmt_value e) → done_ (linkExpression i)) as Hve
    by (intros; by apply He, Hs).
  assert (∀ i, NBlock i ∈ statement_nodes (stmt_value e) → done_ (linkBlock i)) as Hvb
    by (intros; by apply Hb, Hs).
  destruct (stmt_value e) as [mut name type init eb eblock|type fields init|t op v|x|x eb b|v tl|v|c t f|c b|ix vb ed s b
    | | |ops timeout eb b|b proof]; cbn [statement_nodes] in *; try (by apply steps_ret).
  - eapply steps_bind; [apply steps_map_some; intros; apply linkType_steps|]. intros t _.
    eapply steps_bind; [by apply steps_set_statement|]. intros _ _.
    eapply steps_bind; [apply Hve; inside|]. intros _ _. apply steps_if_some. intros i E. apply Hvb. inside.
  - eapply steps_bind; [apply linkType_steps|]. intros t _.
    eapply steps_bind; [by apply steps_set_statement|]. intros _ _. apply Hve. inside.
  - eapply steps_bind; [apply Hve; inside|]. intros _ _. apply Hve. inside.
  - apply Hve. inside.
  - eapply steps_bind; [apply Hve; inside|]. intros _ _. apply Hvb. inside.
  - apply steps_if_some. intros i E. apply Hve. inside.
  - apply Hve. inside.
  - eapply steps_bind; [apply Hve; inside|]. intros _ _. eapply steps_bind; [apply Hvb; inside|]. intros _ _.
    apply steps_if_some. intros i E. apply Hvb. inside.
  - eapply steps_bind; [apply Hve; inside|]. intros _ _. apply Hvb. inside.
  - eapply steps_bind; [apply Hve; inside|]. intros _ _. apply Hvb. inside.
  - eapply steps_bind.
    { apply steps_for_each. intros o Ho. unfold link_operation.
      eapply steps_bind; [apply Hve; inside|]. intros _ _. apply Hvb. inside. }
    intros _ _. eapply steps_bind.
    { apply steps_if_some. intros t Ht. unfold link_timeout.
      eapply steps_bind; [apply steps_if_some; intros i E; apply Hve; inside|]. intros _ _. apply Hvb. inside. }
    intros _ _. apply Hvb. inside.
  - apply Hvb. inside.
Qed.

Lemma link_block_steps id :
  node_in a0 (NBlock id) →
  (∀ s, NStmt s ∈ refs a0 (NBlock id) → node_in a0 (NStmt s) ∧ below (NStmt s)) →
  done_ (link_block currentPackage imports symbols typeParameters linkExpression linkBlock id).
Proof.
  intros Hn Hbelow. unfold link_block. apply steps_at_block; [done|]. intros b Hs. apply steps_for_each.
  intros s Hin. assert (NStmt s ∈ refs a0 (NBlock id)) as Hr by (apply Hs; inside).
  apply link_statement_steps; by apply Hbelow.
Qed.
End Recursion.

(** The recursion ends when the fuel exceeds the rank. *)
Lemma link_steps rank fuel :
  ranking a0 rank →
  (∀ id, node_in a0 (NExpr id) → rank (NExpr id) < fuel →
     done_ (linkExpression currentPackage imports symbols typeParameters fuel id)) ∧
  (∀ id, node_in a0 (NBlock id) → rank (NBlock id) < fuel →
     done_ (linkBlock currentPackage imports symbols typeParameters fuel id)).
Proof.
  intros Hr. induction fuel as [|fuel [IHe IHb]]; [split; lia|].
  assert (∀ n, node_in a0 n → rank n < S fuel →
    below (linkExpression currentPackage imports symbols typeParameters fuel)
      (linkBlock currentPackage imports symbols typeParameters fuel) n) as Hbelow.
  { intros n Hn Hlt. destruct (Hr n Hn) as [_ Hf]. rewrite Forall_forall in Hf.
    split; intros id Hid; destruct (Hf _ Hid) as [Hin Hid']; [split; [done|]; apply IHe|apply IHb]; done || lia. }
  split; intros id Hn Hlt; cbn.
  - apply link_expression_steps; [done|]. by apply Hbelow.
  - apply link_block_steps; [done|]. intros s Hs. destruct (Hr _ Hn) as [_ Hf]. rewrite Forall_forall in Hf.
    destruct (Hf _ Hs) as [Hin Hs']. split; [done|]. apply Hbelow; [done|lia].
Qed.
End Names.
