(* ===== verification/ProjectCycles.v ===== *)
(** * Import cycles (compiler/src/project.cpp)

    [rejectCycles]: an iterative three-colour traversal of the import graph that reports
    every import closing a cycle, and goes on. *)
From S2P Require Import Prelude Diagnostics Ast Graph Cycles ProjectLink ProjectFiles.

Abbreviation ImportGraph := (gmap bytes (list (bytes * SourceSpan))).

(** ** The graph *)

Definition outgoing (graph : ImportGraph) (name : bytes) : list (bytes * SourceSpan) := default [] (graph !! name).

Definition add_import (symbols : SymbolTable) (packageName : bytes) (graph : ImportGraph)
    (imported : ImportDeclaration) : ImportGraph :=
  if bool_decide (is_Some (symbols !! im_packageName imported)) then
    <[packageName := outgoing graph packageName ++ [(im_packageName imported, im_span imported)]]> graph
  else graph.
Definition add_file (symbols : SymbolTable) (graph : ImportGraph) (file : ParsedFile) : ImportGraph :=
  foldl (add_import symbols (pr_packageName (pf_program file))) graph (pr_imports (pf_program file)).

(** The edges of a package are sorted by the name of their target; [std::sort] leaves
    the order of imports of the same package open, on which only the span of a report
    about such a repeated import depends. *)
Definition import_graph (files : list ParsedFile) (symbols : SymbolTable) : ImportGraph :=
  sort_by fst <$> foldl (add_file symbols) ((λ _, []) <$> symbols) files.

(** ** The traversal *)

Record CycleSearch := mkCycleSearch {
  cs_state : gmap bytes nat;
  cs_stack : list bytes;
  cs_pending : list (bytes * nat);
  cs_diagnostics : Diagnostics;
}.

(** The text of a cycle: a separator is written behind a text that is not empty. *)
Definition cycle_text (stack : list bytes) (target : bytes) : bytes :=
  foldl (λ cycle current, (if bool_decide (cycle = []) then [] else cycle ++ lit " -> ") ++ current) []
    (from_first target stack) ++ lit " -> " ++ target.
Definition cycle_report (d : Diagnostics) (stack : list bytes) (target : bytes) (span : SourceSpan) : Diagnostics :=
  error d (lit "FDN3006") (lit "package import cycle: " ++ cycle_text stack target) span.

Definition push_package (name : bytes) (s : CycleSearch) : CycleSearch :=
  mkCycleSearch (<[name := 1]> (cs_state s)) (cs_stack s ++ [name]) ((name, 0) :: cs_pending s) (cs_diagnostics s).

(** One round of the loop over the pending frames, the last of which comes first
    here; [None] is an access outside a vector. *)
Definition cycle_step (graph : ImportGraph) (name : bytes) (edge : nat) (pending : list (bytes * nat))
    (s : CycleSearch) : option CycleSearch :=
  if bool_decide (edge = length (outgoing graph name)) then
    Some (mkCycleSearch (<[name := 2]> (cs_state s)) (removelast (cs_stack s)) pending (cs_diagnostics s))
  else
    match outgoing graph name !! edge with
    | None => None
    | Some (target, span) =>
        let s := mkCycleSearch (cs_state s) (cs_stack s) ((name, S edge) :: pending) (cs_diagnostics s) in
        if bool_decide (color (cs_state s) target = 0) then Some (push_package target s)
        else if bool_decide (color (cs_state s) target ≠ 1) then Some s
        else
          Some (mkCycleSearch (cs_state s) (cs_stack s) (cs_pending s)
                  (cycle_report (cs_diagnostics s) (cs_stack s) target span))
    end.

Fixpoint cycle_loop (fuel : nat) (graph : ImportGraph) (s : CycleSearch) : option CycleSearch :=
  match fuel with
  | O => None
  | S fuel =>
      match cs_pending s with
      | [] => Some s
      | (name, edge) :: pending => s ← cycle_step graph name edge pending s; cycle_loop fuel graph s
      end
  end.

Definition packages (graph : ImportGraph) : list bytes := sort_by id (elements (dom graph)).

(** Every round ends a frame or takes an edge. *)
Definition cycle_fuel (graph : ImportGraph) : nat :=
  S (foldr (λ name n, S (length (outgoing graph name)) + n) 0 (packages graph)).

Fixpoint cycle_roots (graph : ImportGraph) (roots : list bytes) (s : CycleSearch) : option CycleSearch :=
  match roots with
  | [] => Some s
  | name :: roots =>
      if bool_decide (color (cs_state s) name ≠ 0) then cycle_roots graph roots s
      else
        s ← cycle_loop (cycle_fuel graph) graph (push_package name s);
        cycle_roots graph roots s
  end.

Definition rejectCycles (files : list ParsedFile) (symbols : SymbolTable) (d : Diagnostics) : option Diagnostics :=
  let graph := import_graph files symbols in
  cs_diagnostics <$> cycle_roots graph (packages graph) (mkCycleSearch ∅ [] [] d).

(** ** The edges of the graph *)

(** A file of package [x] imports the package [y] of the project. *)
Definition imports_package (files : list ParsedFile) (symbols : SymbolTable) (x y : bytes) : Prop :=
  ∃ file imported, file ∈ files ∧ pr_packageName (pf_program file) = x ∧
    imported ∈ pr_imports (pf_program file) ∧ im_packageName imported = y ∧ is_Some (symbols !! y).

Definition edge_to (graph : ImportGraph) (x y : bytes) : Prop := ∃ span, (y, span) ∈ outgoing graph x.

Lemma outgoing_insert graph x l y :
  outgoing (<[x := l]> graph) y = if decide (x = y) then l else outgoing graph y.
Proof. unfold outgoing. case_decide as E; [by rewrite E, lookup_insert_eq|by rewrite lookup_insert_ne]. Qed.

Lemma add_import_edge symbols package graph imported x y :
  edge_to (add_import symbols package graph imported) x y ↔
    edge_to graph x y ∨
    x = package ∧ y = im_packageName imported ∧ is_Some (symbols !! im_packageName imported).
Proof.
  unfold add_import, edge_to. case_bool_decide as E; [|naive_solver]. rewrite outgoing_insert.
  case_decide as Ex; [|naive_solver]. setoid_rewrite elem_of_app. setoid_rewrite list_elem_of_singleton. naive_solver.
Qed.
Lemma add_import_dom symbols package graph imported x :
  x ∈ dom graph → x ∈ dom (add_import symbols package graph imported).
Proof. unfold add_import. case_bool_decide; [|done]. rewrite dom_insert. set_solver. Qed.

Lemma add_imports_edge symbols package imports graph x y :
  edge_to (foldl (add_import symbols package) graph imports) x y ↔
    edge_to graph x y ∨
    ∃ i, i ∈ imports ∧ x = package ∧ y = im_packageName i ∧ is_Some (symbols !! im_packageName i).
Proof.
  revert graph. induction imports as [|i imports IH]; intros graph; cbn.
  - split; [by left|]. intros [?|(? & ?%not_elem_of_nil & _)]; done.
  - rewrite IH, add_import_edge. setoid_rewrite elem_of_cons. naive_solver.
Qed.
Lemma add_files_edge symbols files graph x y :
  edge_to (foldl (add_file symbols) graph files) x y ↔ edge_to graph x y ∨ imports_package files symbols x y.
Proof.
  unfold imports_package. revert graph. induction files as [|f files IH]; intros graph; cbn.
  - split; [by left|]. intros [?|(? & ? & ?%not_elem_of_nil & _)]; done.
  - rewrite IH. unfold add_file. rewrite add_imports_edge. setoid_rewrite elem_of_cons. naive_solver.
Qed.
Lemma add_files_dom symbols files graph x : x ∈ dom graph → x ∈ dom (foldl (add_file symbols) graph files).
Proof.
  revert graph. induction files as [|f files IH]; intros graph Hx; cbn; [done|]. apply IH. unfold add_file.
  revert graph Hx. induction (pr_imports (pf_program f)) as [|i l IHl]; intros graph Hx; cbn; [done|].
  by apply IHl, add_import_dom.
Qed.

Lemma outgoing_sorted graph x : outgoing (sort_by fst <$> graph) x ≡ₚ outgoing graph x.
Proof.
  unfold outgoing. rewrite lookup_fmap. destruct (graph !! x); cbn; [apply sort_by_perm|done].
Qed.
Lemma import_graph_edge files symbols x y :
  edge_to (import_graph files symbols) x y ↔ imports_package files symbols x y.
Proof.
  unfold import_graph. transitivity (edge_to (foldl (add_file symbols) ((λ _, []) <$> symbols) files) x y).
  - unfold edge_to. setoid_rewrite outgoing_sorted. done.
  - rewrite add_files_edge. split; [|by right]. intros [(span & Hs)|?]; [|done]. unfold outgoing in Hs.
    rewrite lookup_fmap in Hs. destruct (symbols !! x); cbn in Hs; by apply not_elem_of_nil in Hs.
Qed.
Lemma import_graph_packages files symbols x :
  is_Some (symbols !! x) → x ∈ packages (import_graph files symbols).
Proof.
  intros Hx. unfold packages, import_graph. rewrite elem_of_sort_by, elem_of_elements, dom_fmap.
  apply add_files_dom. rewrite dom_fmap. by apply elem_of_dom.
Qed.

(** ** Correctness of the traversal *)

Section Search.
Context (graph : ImportGraph) (d0 : Diagnostics).
Context (Htargets : ∀ x y, edge_to graph x y → y ∈ packages graph).

Abbreviation step := (edge_to graph).

(** A report: the stack, the target of the import and its position. *)
Definition report_all (reports : list (list bytes * bytes * SourceSpan)) : Diagnostics :=
  foldl (λ d r, cycle_report d r.1.1 r.1.2 r.2) d0 reports.
Definition closes_cycle (stack : list bytes) (target : bytes) : Prop :=
  ∃ mid, from_first target stack = target :: mid ∧ chain step (target :: mid ++ [target]).

(** A frame has taken the edges before its position, the last of them to the package
    above it. *)
Fixpoint frames (above : option bytes) (pending : list (bytes * nat)) : Prop :=
  match pending with
  | [] => True
  | (x, edge) :: pending =>
      edge ≤ length (outgoing graph x) ∧ from_option (λ z, step x z) True above ∧ frames (Some x) pending
  end.
(** As long as nothing was reported, the targets of these edges are done. *)
Fixpoint clean (state : gmap bytes nat) (above : option bytes) (pending : list (bytes * nat)) : Prop :=
  match pending with
  | [] => True
  | (x, edge) :: pending =>
      (∀ i y span, i < edge → outgoing graph x !! i = Some (y, span) → color state y = 2 ∨ above = Some y) ∧
      clean state (Some x) pending
  end.

Record search_inv (s : CycleSearch) (reports : list (list bytes * bytes * SourceSpan)) : Prop := mkSearchInv {
  si_log : cs_diagnostics s = report_all reports;
  si_reports : Forall (λ r, closes_cycle r.1.1 r.1.2) reports;
  si_stack : cs_stack s = reverse (map fst (cs_pending s));
  si_nodup : NoDup (cs_stack s);
  si_grey : ∀ x, x ∈ cs_stack s ↔ color (cs_state s) x = 1;
  si_color : ∀ x, color (cs_state s) x ≤ 2;
  si_frames : frames None (cs_pending s);
  si_black : reports = [] → ∀ x, color (cs_state s) x = 2 → sn step x;
  si_clean : reports = [] → clean (cs_state s) None (cs_pending s);
}.

Lemma clean_mono state state' above above' pending :
  (∀ x, color state x = 2 ∨ above = Some x → color state' x = 2 ∨ above' = Some x) →
  (∀ x, color state x = 2 → color state' x = 2) → clean state above pending → clean state' above' pending.
Proof.
  intros Ha Hc. revert above above' Ha. induction pending as [|[x e] pending IH]; intros above above' Ha; cbn; [done|].
  intros [H1 H2]. split; [eauto|]. eapply IH; [|exact H2]. naive_solver.
Qed.
Lemma frames_above above above' pending :
  (∀ x, above' = Some x → above = Some x) → frames above pending → frames above' pending.
Proof.
  destruct pending as [|[x e] pending]; cbn; [done|]. intros Ha (H1 & H2 & H3). split; [done|]. split; [|done].
  destruct above'; cbn; [|done]. by rewrite (Ha _ eq_refl) in H2.
Qed.

Lemma frames_chain above pending :
  frames above pending → chain step (reverse (map fst pending) ++ option_list above).
Proof.
  revert above. induction pending as [|[x e] pending IH]; intros above; cbn [frames map fst].
  - intros _. by destruct above.
  - intros (_ & Ha & H). rewrite reverse_cons. specialize (IH _ H). cbn [option_list] in IH.
    destruct above as [z|]; cbn [option_list from_option] in *; [|by rewrite app_nil_r]. rewrite <- app_assoc. by apply chain_snoc.
Qed.

Lemma sn_intro x : (∀ y, step x y → sn step y) → sn step x.
Proof. intros H. constructor. exact H. Qed.

Lemma color_update (state : gmap bytes nat) x c y : color (<[x := c]> state) y = if decide (x = y) then c else color state y.
Proof. apply color_insert. Qed.

(** A package is done. *)
Lemma pop_inv s reports name pending :
  search_inv s reports → cs_pending s = (name, length (outgoing graph name)) :: pending →
  search_inv (mkCycleSearch (<[name := 2]> (cs_state s)) (removelast (cs_stack s)) pending (cs_diagnostics s)) reports.
Proof.
  intros [H1 H2 H3 H4 H5 H6 H7 H8 H9] Hp. rewrite Hp in *. cbn [map fst] in H3. rewrite reverse_cons in H3.
  assert (name ∉ reverse (map fst pending) ∧ NoDup (reverse (map fst pending))) as [Hnot Hnd].
  { rewrite H3 in H4. apply NoDup_app in H4 as (? & Hd & _). split; [|done]. intros Hin. apply (Hd _ Hin).
    by apply list_elem_of_singleton. }
  destruct H7 as (_ & _ & Hframes).
  assert (∀ x, color (cs_state s) x = 2 → color (<[name:=2]> (cs_state s)) x = 2) as Hkeep.
  { intros x Hx. rewrite color_update. by case_decide. }
  assert (removelast (cs_stack s) = reverse (map fst pending)) as Hstack by (rewrite H3; apply removelast_last).
  split; cbn [cs_state cs_stack cs_pending cs_diagnostics]; rewrite ?Hstack.
  - done.
  - done.
  - done.
  - done.
  - intros x. rewrite color_update. case_decide as E; [subst; by split|]. rewrite <- H5, H3.
    rewrite elem_of_app, list_elem_of_singleton. split; [by left|]. by intros [?| ->].
  - intros x. rewrite color_update. case_decide; [lia|apply H6].
  - eapply frames_above; [|exact Hframes]. done.
  - intros Hr x. rewrite color_update. case_decide as E; [|by apply H8]. subst x. intros _.
    apply sn_intro. intros y (span & [i Hi]%list_elem_of_lookup). apply H8; [done|].
    destruct (H9 Hr) as [Hc _]. destruct (Hc i y span) as [?|?]; [by eapply lookup_lt_Some|done|done|done].
  - intros Hr. destruct (H9 Hr) as [_ Hc]. eapply clean_mono; [|exact Hkeep|exact Hc].
    intros x [Hx|[= ->]]; left; [by apply Hkeep|]. rewrite color_update. by rewrite decide_True.
Qed.

(** The next edge of the last frame leads to a package that is done, or to one on the
    stack. *)
Lemma edge_inv s reports name edge pending target span reports' :
  search_inv s reports → cs_pending s = (name, edge) :: pending →
  outgoing graph name !! edge = Some (target, span) →
  reports' = reports ∧ color (cs_state s) target = 2 ∨
  reports' = reports ++ [(cs_stack s, target, span)] ∧ color (cs_state s) target = 1 →
  search_inv (mkCycleSearch (cs_state s) (cs_stack s) ((name, S edge) :: pending) (report_all reports')) reports'.
Proof.
  intros [H1 H2 H3 H4 H5 H6 H7 H8 H9] Hp Ho Hcases. rewrite Hp in *.
  assert (reports' = [] → reports = [] ∧ color (cs_state s) target = 2) as Hnil.
  { intros ->. destruct Hcases as [[<- ?]|[Hr _]]; [done|]. by destruct reports. }
  split; cbn [cs_state cs_stack cs_pending cs_diagnostics].
  - done.
  - destruct Hcases as [[-> _]|[-> Hc]]; [done|]. apply Forall_app. split; [done|]. apply Forall_singleton. cbn.
    apply H5 in Hc. destruct (from_first_split _ _ Hc) as (l1 & l2 & Hs & Hf). exists l2. split; [done|].
    assert (chain step (cs_stack s ++ [target])) as Hch.
    { pose proof (frames_chain _ _ H7) as Hch. cbn [map fst option_list] in Hch.
      rewrite app_nil_r in Hch. rewrite H3. cbn [map fst]. rewrite reverse_cons in Hch |- *. rewrite <- app_assoc. apply chain_snoc; [done|].
      exists span. by eapply list_elem_of_lookup_2. }
    rewrite Hs, <- app_assoc in Hch. by apply (chain_app_r step) in Hch.
  - done.
  - done.
  - done.
  - done.
  - destruct H7 as (_ & ? & ?). split; [|done]. by apply lookup_lt_Some in Ho.
  - intros Hr. by apply H8, Hnil.
  - intros Hr. destruct (Hnil Hr) as [Hr0 Hc]. destruct (H9 Hr0) as [Hcl ?]. split; [|done].
    intros i y sp Hi Hy. destruct (decide (i = edge)) as [->|]; [left; congruence|]. eapply Hcl; [|done]. lia.
Qed.

(** The next edge leads to a package not seen before. *)
Lemma push_inv s reports name edge pending target span :
  search_inv s reports → cs_pending s = (name, edge) :: pending →
  outgoing graph name !! edge = Some (target, span) → color (cs_state s) target = 0 →
  search_inv (push_package target
    (mkCycleSearch (cs_state s) (cs_stack s) ((name, S edge) :: pending) (cs_diagnostics s))) reports.
Proof.
  intros [H1 H2 H3 H4 H5 H6 H7 H8 H9] Hp Ho Hw. rewrite Hp in *.
  assert (∀ x, color (cs_state s) x = 2 → color (<[target:=1]> (cs_state s)) x = 2) as Hkeep.
  { intros x Hx. rewrite color_update. case_decide; [subst; lia|done]. }
  split; cbn [push_package cs_state cs_stack cs_pending cs_diagnostics].
  - done.
  - done.
  - rewrite H3. cbn [map fst]. by rewrite !reverse_cons.
  - apply NoDup_app. split; [done|]. split; [|apply NoDup_singleton].
    intros x Hx%H5 ->%list_elem_of_singleton. lia.
  - intros x. rewrite elem_of_app, list_elem_of_singleton, H5, color_update. case_decide; naive_solver.
  - intros x. rewrite color_update. case_decide; [lia|apply H6].
  - destruct H7 as (_ & _ & ?). split; [lia|]. split; [done|]. split; [by apply lookup_lt_Some in Ho|].
    split; [|done]. exists span. by eapply list_elem_of_lookup_2.
  - intros Hr x. rewrite color_update. case_decide; [done|by apply H8].
  - intros Hr. split; [intros; lia|]. destruct (H9 Hr) as [Hcl Hrest]. split.
    + intros i y sp Hi Hy. destruct (decide (i = edge)) as [->|]; [right; congruence|].
      destruct (Hcl i y sp) as [?|?]; [lia|done|left; by apply Hkeep|done].
    + eapply clean_mono; [|exact Hkeep|exact Hrest]. intros x [?|?]; [left; by apply Hkeep|by right].
Qed.

(** A root of the traversal. *)
Lemma root_inv s reports name :
  search_inv s reports → cs_pending s = [] → color (cs_state s) name = 0 →
  search_inv (push_package name s) reports.
Proof.
  intros [H1 H2 H3 H4 H5 H6 H7 H8 H9] Hp Hw. rewrite Hp in *. cbn in H3. rewrite H3 in *.
  split; cbn [push_package cs_state cs_stack cs_pending cs_diagnostics]; rewrite ?Hp, ?H3; cbn [app].
  - done.
  - done.
  - done.
  - apply NoDup_singleton.
  - intros x. rewrite list_elem_of_singleton, color_update. case_decide; [naive_solver|].
    rewrite <- H5. split; [naive_solver|]. by intros ?%not_elem_of_nil.
  - intros x. rewrite color_update. case_decide; [lia|apply H6].
  - split; [lia|done].
  - intros Hr x. rewrite color_update. case_decide; [done|by apply H8].
  - intros _. split; [intros; lia|done].
Qed.

(** ** Termination *)

Definition white_weight (state : gmap bytes nat) (name : bytes) : nat :=
  if decide (color state name = 0) then S (length (outgoing graph name)) else 0.
Fixpoint weigh (f : bytes → nat) (l : list bytes) : nat :=
  match l with [] => 0 | name :: l => f name + weigh f l end.
Definition frame_weight (frame : bytes * nat) : nat := S (length (outgoing graph frame.1)) - frame.2.
Definition rounds (s : CycleSearch) : nat :=
  weigh (white_weight (cs_state s)) (packages graph) + foldr (λ f n, frame_weight f + n) 0 (cs_pending s).

Lemma weigh_mono f g l : (∀ x, f x ≤ g x) → weigh f l ≤ weigh g l.
Proof. intros H. induction l as [|x l IH]; cbn; [done|]. specialize (H x). lia. Qed.
Lemma weigh_insert state name c l :
  NoDup l → name ∈ l → color state name = 0 → c ≠ 0 →
  weigh (white_weight (<[name := c]> state)) l + S (length (outgoing graph name)) = weigh (white_weight state) l.
Proof.
  intros Hnd Hin Hw Hc.
  assert (∀ l', name ∉ l' → weigh (white_weight (<[name := c]> state)) l' = weigh (white_weight state) l') as Hout.
  { intros l'. induction l' as [|x l' IH]; cbn; [done|]. intros [Hx Hl]%not_elem_of_cons. rewrite (IH Hl). f_equal.
    unfold white_weight. rewrite color_update. by rewrite (decide_False _ _ Hx). }
  induction Hnd as [|x l Hx Hnd IH]; [by apply not_elem_of_nil in Hin|]. cbn.
  destruct (decide (x = name)) as [->|Hne].
  - rewrite (Hout l Hx). unfold white_weight at 1 3. rewrite color_update, (decide_True (P := name = name)) by done.
    rewrite (decide_False _ _ Hc), (decide_True _ _ Hw). lia.
  - apply elem_of_cons in Hin as [?|Hin]; [done|]. rewrite <- (IH Hin). unfold white_weight at 1 3.
    rewrite color_update, (decide_False (P := name = x)) by done. lia.
Qed.
Lemma weigh_color state name c l :
  color state name ≠ 0 → c ≠ 0 → weigh (white_weight (<[name := c]> state)) l = weigh (white_weight state) l.
Proof.
  intros Hn Hc. induction l as [|x l IH]; cbn; [done|]. rewrite IH. f_equal. unfold white_weight.
  rewrite color_update. destruct (decide (name = x)) as [<-|]; [|done]. by rewrite !decide_False by done.
Qed.
Lemma packages_NoDup : NoDup (packages graph).
Proof. unfold packages. rewrite sort_by_perm. apply NoDup_elements. Qed.

(** Packages that were seen stay so. *)
Definition seen_in (s s' : CycleSearch) : Prop :=
  ∀ x, color (cs_state s) x ≠ 0 → color (cs_state s') x ≠ 0.
#[local] Instance seen_in_preorder : PreOrder seen_in.
Proof. split; [by intros s x|]. intros s1 s2 s3 H1 H2 x Hx. by apply H2, H1. Qed.

Lemma step_inv s reports name edge pending :
  search_inv s reports → cs_pending s = (name, edge) :: pending →
  ∃ s' reports', cycle_step graph name edge pending s = Some s' ∧ search_inv s' reports' ∧
    S (rounds s') = rounds s ∧ seen_in s s'.
Proof.
  intros Hi Hp. pose proof (si_frames _ _ Hi) as Hf. rewrite Hp in Hf. destruct Hf as (Hle & _).
  pose proof (proj1 (si_grey _ _ Hi name)) as Hg. rewrite (si_stack _ _ Hi), Hp in Hg.
  specialize (Hg ltac:(cbn [map fst]; rewrite reverse_cons; apply elem_of_app; right; left)).
  unfold cycle_step. case_bool_decide as He.
  { subst edge. eexists _, reports. split; [done|]. split; [by apply pop_inv|]. split.
    - unfold rounds. cbn [cs_state cs_pending]. rewrite weigh_color by lia. rewrite Hp. cbn. unfold frame_weight. cbn. lia.
    - intros x Hx. cbn. rewrite color_update. by case_decide. }
  destruct (lookup_lt_is_Some_2 (outgoing graph name) edge ltac:(lia)) as [[target span] Ho]. rewrite Ho.
  cbn [cs_state cs_stack cs_pending cs_diagnostics]. case_bool_decide as Hw.
  { eexists _, reports. split; [done|]. split; [by eapply push_inv|]. split.
    - unfold rounds, push_package. cbn [cs_state cs_pending]. rewrite Hp.
      pose proof (weigh_insert (cs_state s) target 1 _ packages_NoDup
        (Htargets name target ltac:(exists span; by eapply list_elem_of_lookup_2)) Hw ltac:(done)) as Hwe.
      rewrite <- Hwe. cbn [foldr]. unfold frame_weight. cbn [fst snd]. lia.
    - intros x Hx. cbn. rewrite color_update. by case_decide. }
  assert (∀ d, S (rounds (mkCycleSearch (cs_state s) (cs_stack s) ((name, S edge) :: pending) d)) = rounds s) as Hr.
  { intros d. unfold rounds. cbn [cs_state cs_pending]. rewrite Hp. cbn [foldr]. unfold frame_weight.
    cbn [fst snd]. lia. }
  pose proof (si_color _ _ Hi target). case_bool_decide as Hg'.
  - eexists _, reports. split; [done|]. split; [|split; [apply Hr|by intros x]].
    rewrite (si_log _ _ Hi). eapply edge_inv; [done|done|done|]. left. split; [done|lia].
  - eexists _, (reports ++ [(cs_stack s, target, span)]). split; [done|]. split; [|split; [apply Hr|by intros x]].
    rewrite (si_log _ _ Hi).
    assert (cycle_report (report_all reports) (cs_stack s) target span =
      report_all (reports ++ [(cs_stack s, target, span)])) as -> by (unfold report_all; by rewrite foldl_snoc).
    eapply edge_inv; [done|done|done|]. by right.
Qed.

Lemma loop_inv fuel s reports :
  search_inv s reports → rounds s < fuel →
  ∃ s' reports', cycle_loop fuel graph s = Some s' ∧ search_inv s' reports' ∧ cs_pending s' = [] ∧ seen_in s s'.
Proof.
  revert s reports. induction fuel as [|fuel IH]; intros s reports Hi Hf; [lia|]. cbn.
  destruct (cs_pending s) as [|[name edge] pending] eqn:Hp; [by exists s, reports|].
  destruct (step_inv s reports name edge pending Hi Hp) as (s1 & r1 & -> & Hi1 & Hr1 & Hs1). cbn.
  destruct (IH s1 r1 Hi1 ltac:(lia)) as (s2 & r2 & -> & Hi2 & Hp2 & Hs2). exists s2, r2.
  split; [done|]. split; [done|]. split; [done|]. by etrans.
Qed.

Lemma rounds_bound s name :
  cs_pending s = [] → name ∈ packages graph → color (cs_state s) name = 0 →
  rounds (push_package name s) < cycle_fuel graph.
Proof.
  intros Hp Hn Hw. unfold rounds, push_package. cbn [cs_state cs_pending]. rewrite Hp. cbn [foldr].
  pose proof (weigh_insert (cs_state s) name 1 _ packages_NoDup Hn Hw ltac:(done)) as He.
  unfold frame_weight. cbn [fst snd]. rewrite Nat.sub_0_r, Nat.add_0_r.
  unfold cycle_fuel. apply Nat.lt_succ_r. rewrite He.
  assert (∀ l, foldr (λ name n, S (length (outgoing graph name)) + n) 0 l =
    weigh (λ name, S (length (outgoing graph name))) l) as -> by (intros l; induction l as [|y l IH]; [done|]; cbn [foldr weigh]; by rewrite IH).
  apply weigh_mono. intros x. unfold white_weight. case_decide; lia.
Qed.

Lemma roots_inv roots s reports :
  search_inv s reports → cs_pending s = [] → (∀ x, x ∈ roots → x ∈ packages graph) →
  ∃ s' reports', cycle_roots graph roots s = Some s' ∧ search_inv s' reports' ∧ cs_pending s' = [] ∧
    seen_in s s' ∧ ∀ x, x ∈ roots → color (cs_state s') x ≠ 0.
Proof.
  revert s reports. induction roots as [|name roots IH]; intros s reports Hi Hp Hroots; cbn [cycle_roots].
  { exists s, reports. repeat (split; [done|]). by intros x ?%not_elem_of_nil. }
  assert (∀ x, x ∈ roots → x ∈ packages graph) as Hroots' by (intros; apply Hroots; by right).
  case_bool_decide as Hc.
  - destruct (IH s reports Hi Hp Hroots') as (s' & r' & -> & Hi' & Hp' & Hs' & Hall). exists s', r'.
    repeat (split; [done|]). intros x [->|Hx]%elem_of_cons; [by apply Hs'|by apply Hall].
  - assert (color (cs_state s) name = 0) as Hw by lia.
    destruct (loop_inv (cycle_fuel graph) (push_package name s) reports) as (s1 & r1 & -> & Hi1 & Hp1 & Hs1).
    { by apply root_inv. }
    { apply rounds_bound; [done| |done]. apply Hroots. left. }
    cbn [mbind option_bind]. destruct (IH s1 r1 Hi1 Hp1 Hroots') as (s' & r' & -> & Hi' & Hp' & Hs' & Hall). exists s', r'.
    repeat (split; [done|]). split.
    + etrans; [|exact Hs']. intros x Hx. apply Hs1. cbn. rewrite color_update. by case_decide.
    + intros x [->|Hx]%elem_of_cons; [|by apply Hall]. apply Hs', Hs1. cbn. by rewrite color_update, decide_True.
Qed.

Lemma edge_sn_no_cycle x : sn step x → ¬ tc step x x.
Proof.
  induction 1 as [x _ IH]. intros Hx.
  assert (∃ y, step x y ∧ rtc step y x) as (y & Hxy & Hyx).
  { inversion Hx as [? ? Hs|? y ? Hs Ht]; subst; [by exists x|]. exists y. split; [done|by apply tc_rtc]. }
  apply (IH y Hxy). eapply tc_rtc_l; [exact Hyx|by apply tc_once].
Qed.

Lemma cycle_roots_spec (Hsources : ∀ x y, step x y → x ∈ packages graph) :
  ∃ reports, cs_diagnostics <$> cycle_roots graph (packages graph) (mkCycleSearch ∅ [] [] d0) =
      Some (report_all reports) ∧
    Forall (λ r, closes_cycle r.1.1 r.1.2) reports ∧
    (reports = [] ↔ ∀ x, ¬ tc step x x).
Proof.
  assert (∀ x, color (∅ : gmap bytes nat) x = 0) as H0 by (intros x; unfold color; by rewrite lookup_empty).
  destruct (roots_inv (packages graph) (mkCycleSearch ∅ [] [] d0) []) as (s & r & -> & Hi & Hp & _ & Hall); [|done|done|].
  { split; cbn [cs_state cs_stack cs_pending cs_diagnostics].
    - done.
    - by constructor.
    - done.
    - constructor.
    - intros x. rewrite H0. split; [by intros ?%not_elem_of_nil|done].
    - intros x. rewrite H0. lia.
    - done.
    - intros _ x. by rewrite H0.
    - done. }
  exists r. split; [cbn; by rewrite (si_log _ _ Hi)|]. split; [apply Hi|]. split.
  - intros -> x Hx. assert (x ∈ packages graph) as Hin.
    { inversion Hx as [? ? Hs|? ? ? Hs]; subst; by eapply Hsources. }
    apply (edge_sn_no_cycle x); [|done]. apply (si_black _ _ Hi eq_refl).
    pose proof (Hall x Hin). pose proof (si_color _ _ Hi x). pose proof (proj2 (si_grey _ _ Hi x)) as Hg.
    rewrite (si_stack _ _ Hi), Hp in Hg. destruct (color (cs_state s) x) as [|[|[|]]]; [done| |done|lia].
    by destruct (not_elem_of_nil _ (Hg eq_refl)).
  - intros Hac. destruct r as [|q r]; [done|]. pose proof (si_reports _ _ Hi) as Hf.
    apply List.Forall_inv in Hf as (mid & _ & Hch). apply chain_tc in Hch. by apply Hac in Hch.
Qed.
End Search.

(** The traversal on the files of a project. *)
Lemma rejectCycles_spec files symbols d :
  (∀ file, file ∈ files → is_Some (symbols !! pr_packageName (pf_program file))) →
  ∃ reports, rejectCycles files symbols d = Some (report_all d reports) ∧
    Forall (λ r, ∃ mid, from_first r.1.2 r.1.1 = r.1.2 :: mid ∧
       chain (imports_package files symbols) (r.1.2 :: mid ++ [r.1.2])) reports ∧
    (reports = [] ↔ ∀ x, ¬ tc (imports_package files symbols) x x).
Proof.
  intros Hfiles. pose proof (import_graph_edge files symbols) as He.
  destruct (cycle_roots_spec (import_graph files symbols) d) as (r & Hr & Hf & Hc).
  - intros x y (f & i & _ & _ & _ & _ & Hs)%He. by apply import_graph_packages.
  - intros x y (f & i & Hin & <- & _)%He. by apply import_graph_packages, Hfiles.
  - exists r. split; [exact Hr|]. split.
    + eapply Forall_impl; [exact Hf|]. intros [[stack target] span] (mid & Hm & Hch). exists mid. split; [done|].
      eapply chain_impl; [|exact Hch]. intros x y. apply He.
    + rewrite Hc. split; intros H x Hx; apply (H x); (eapply tc_subrel; [|exact Hx]); intros ? ?; apply He.
Qed.
