(* ===== verification/ProjectProofs.v ===== *)
(** * Files are linked safely

    [linkFile] on a well-formed program ends in one: the declarations keep their
    references, and the log and the main function are accounted for. *)
From S2P Require Import Prelude Target Diagnostics Ast AstGraph ParserDeclarations ParserState ProjectLink ProjectFiles ProjectLinkProofs.

(** No error was reported and none was lost to the limit of the log. *)
Definition accepted (d : Diagnostics) : Prop := hasErrors d = false ∧ length d ≤ maxDiagnostics.

Lemma accepted_prefix d d' : d `prefix_of` d' → accepted d' → accepted d.
Proof.
  intros Hp [He Hl]. split; [by eapply hasErrors_prefix|]. apply prefix_length in Hp. lia.
Qed.
Lemma accepted_error d code message span : ¬ accepted (error d code message span).
Proof.
  intros [He Hl]. unfold error, add in *. case_bool_decide; [lia|].
  case_bool_decide; unfold hasErrors in He; rewrite existsb_app in He; cbn in He; by rewrite orb_true_r in He.
Qed.

(** The function the linker takes for the entry of the program. *)
Definition is_main (f : Function) : Prop :=
  fn_testName f = None ∧ fn_closure f = false ∧ fn_ownerType f = [] ∧ fn_name f = lit "main".
#[global] Instance is_main_dec f : Decision (is_main f).
Proof. unfold is_main. apply _. Defined.
Definition mains (p : Program) : list Function := filter is_main (pr_functions p).

Lemma internalName_main packageName name : internalName packageName name = lit "main" → name = lit "main".
Proof.
  unfold internalName. case_bool_decide; [done|]. intros E. exfalso.
  assert ("."%char ∈ lit "main") as Hdot.
  { rewrite <- E. apply elem_of_app. right. apply elem_of_app. left. vm_compute. left. }
  vm_compute in Hdot. by repeat (apply elem_of_cons in Hdot as [?|Hdot]; [done|]); apply not_elem_of_nil in Hdot.
Qed.
Lemma internalName_nil packageName name : name ≠ [] → internalName packageName name ≠ [].
Proof. unfold internalName. case_bool_decide; [done|]. intros _ E. by apply app_nil in E as []. Qed.

(** ** Attributes *)

Lemma flat_map_Forall2 {A} (f : A → list Node) l l' :
  Forall2 (λ a b, f b = f a) l l' → flat_map f l' = flat_map f l.
Proof. induction 1 as [|a b l l' H _ IH]; cbn; congruence. Qed.
Lemma in_flat {A} a (f : A → list Node) l x : nodes_in a (flat_map f l) → x ∈ l → nodes_in a (f x).
Proof. rewrite nodes_in_flat, Forall_forall. auto. Qed.

Section Declarations.
Context (packageName sourcePath : bytes) (aliases : ImportAliases) (symbols : SymbolTable) (target : TargetPlatform)
  (st0 : Linker).
Abbreviation a0 := (arena (lk_program st0)).
Context (Hranked : ranked a0).

(** [m] keeps the references that [f] collects from [x]. *)
Definition keeps {A} (f : A → list Node) (x : A) (m : L A) : Prop := steps st0 m (λ y, f y = f x).

Lemma keeps_mapM {A} (f : A → list Node) (g : A → L A) l :
  nodes_in a0 (flat_map f l) → (∀ x, nodes_in a0 (f x) → keeps f x (g x)) →
  steps st0 (mapM g l) (λ l', flat_map f l' = flat_map f l).
Proof.
  intros Hl Hg. eapply steps_mono; [|intros l'; apply flat_map_Forall2].
  apply steps_mapM. intros x Hx. apply Hg. by eapply in_flat.
Qed.

Lemma node_fuel_steps {A} (k : nat → L A) (Q : A → Prop) :
  steps st0 (k (arena_size a0)) Q → steps st0 (node_fuel ≫= k) Q.
Proof.
  intros Hk. eapply (steps_bind _ _ _ (λ n, n = arena_size a0)); [|by intros ? ->].
  intros st Hs. split; [exact (ln_size _ _ Hs)|done].
Qed.

Lemma linkArguments_steps parameters attribute :
  nodes_in a0 (attribute_nodes attribute) →
  steps st0 (linkArguments packageName aliases symbols parameters (at_arguments attribute)) (λ _, True).
Proof using Hranked.
  intros Hn. destruct Hranked as [rank Hr]. unfold linkArguments. apply node_fuel_steps. apply steps_for_each.
  intros argument Ha. eapply in_flat in Hn; [|exact Ha]. apply List.Forall_inv in Hn.
  apply (proj1 (link_steps packageName aliases symbols parameters st0 rank _ Hr)); [done|]. by apply Hr.
Qed.

Lemma link_attribute_name_steps name span :
  steps st0 (link_attribute_name packageName aliases symbols name span) (λ _, True).
Proof.
  unfold link_attribute_name. destruct (find_byte _ _).
  - destruct (aliases !! _); [|eapply steps_bind; [apply steps_report|by intros; apply steps_ret]].
    destruct (findAttribute _ _ _); eapply steps_bind; try apply steps_report;
      try apply report_unexported_steps; by intros; apply steps_ret.
  - destruct (findAttribute _ _ _); by apply steps_ret.
Qed.

Lemma linkAttribute_keeps parameters attribute :
  nodes_in a0 (attribute_nodes attribute) →
  keeps attribute_nodes attribute (linkAttribute packageName aliases symbols parameters attribute).
Proof using Hranked.
  intros Hn. unfold linkAttribute, keeps. case_bool_decide.
  - eapply steps_bind; [by apply linkArguments_steps|]. intros _ _. by apply steps_ret.
  - eapply steps_bind; [apply link_attribute_name_steps|]. intros name _.
    eapply steps_bind; [by apply linkArguments_steps|]. intros _ _. by apply steps_ret.
Qed.
Lemma linkAttributes_keeps parameters attributes :
  nodes_in a0 (flat_map attribute_nodes attributes) →
  keeps (flat_map attribute_nodes) attributes (linkAttributes packageName aliases symbols parameters attributes).
Proof using Hranked. intros Hn. apply keeps_mapM; [done|]. intros x. apply linkAttribute_keeps. Qed.

(** ** Declarations *)

Lemma link_attribute_declaration_steps d :
  steps st0 (link_attribute_declaration packageName aliases symbols d) (λ d',
    map param_attributes (ad_parameters d') = map param_attributes (ad_parameters d)).
Proof.
  unfold link_attribute_declaration. eapply steps_bind.
  - apply (steps_mapM _ _ _ (λ q q', param_attributes q' = param_attributes q)). intros q _.
    unfold link_attribute_parameter. eapply steps_bind; [apply linkType_steps|]. intros t _. by apply steps_ret.
  - intros qs Hqs. apply steps_ret. cbn. induction Hqs as [|q q' l l' Hq _ IH]; cbn; congruence.
Qed.

Lemma link_field_keeps parameters f :
  nodes_in a0 (field_declaration_nodes f) →
  keeps field_declaration_nodes f (link_field packageName aliases symbols parameters f).
Proof using Hranked.
  intros Hn. unfold link_field, keeps, field_declaration_nodes in *. apply nodes_in_app in Hn as [Hn _].
  eapply steps_bind; [apply linkType_steps|]. intros t _.
  eapply steps_bind; [by apply linkAttributes_keeps|]. intros l Hl. apply steps_ret. cbn. by rewrite Hl.
Qed.
Lemma link_struct_keeps d :
  nodes_in a0 (struct_nodes d) → keeps struct_nodes d (link_struct packageName sourcePath aliases symbols d).
Proof using Hranked.
  intros Hn. unfold link_struct, keeps, struct_nodes in *. apply nodes_in_app in Hn as [Hn1 Hn2].
  eapply steps_bind; [apply keeps_mapM; [done|]; intros x; apply link_field_keeps|]. intros fs Hfs.
  eapply steps_bind.
  { apply (steps_mapM _ _ _ (λ _ _, True)). intros i _. unfold link_implementation.
    eapply steps_bind; [apply linkType_steps|]. intros t _. by apply steps_ret. }
  intros impls _. eapply steps_bind; [by apply linkAttributes_keeps|]. intros l Hl. apply steps_ret. cbn.
  by rewrite Hl, Hfs.
Qed.

Lemma link_variant_keeps parameters v :
  nodes_in a0 (variant_nodes v) → keeps variant_nodes v (link_variant packageName aliases symbols parameters v).
Proof using Hranked.
  intros Hn. unfold link_variant, keeps, variant_nodes in *.
  eapply steps_bind; [apply steps_map_some; intros; apply linkType_steps|]. intros t _.
  eapply steps_bind; [by apply linkAttributes_keeps|]. intros l Hl. by apply steps_ret.
Qed.
Lemma link_enum_keeps d :
  nodes_in a0 (enum_nodes d) → keeps enum_nodes d (link_enum packageName aliases symbols d).
Proof using Hranked.
  intros Hn. unfold link_enum, keeps, enum_nodes in *. apply nodes_in_app in Hn as [Hn1 Hn2].
  destruct (ed_builtin d); [|by apply steps_ret..].
  eapply steps_bind; [apply keeps_mapM; [done|]; intros x; apply link_variant_keeps|]. intros vs Hvs.
  eapply steps_bind; [by apply linkAttributes_keeps|]. intros l Hl. apply steps_ret. cbn. by rewrite Hl, Hvs.
Qed.

Lemma link_parameter_keeps parameters q :
  nodes_in a0 (parameter_nodes q) → keeps parameter_nodes q (link_parameter packageName aliases symbols parameters q).
Proof using Hranked.
  intros Hn. unfold link_parameter, keeps, parameter_nodes in *.
  eapply steps_bind; [apply linkType_steps|]. intros t _.
  eapply steps_bind; [by apply linkAttributes_keeps|]. intros l Hl. by apply steps_ret.
Qed.
Lemma link_parameters_keeps parameters qs :
  nodes_in a0 (flat_map parameter_nodes qs) →
  steps st0 (mapM (link_parameter packageName aliases symbols parameters) qs)
    (λ qs', flat_map parameter_nodes qs' = flat_map parameter_nodes qs).
Proof using Hranked. intros Hn. apply keeps_mapM; [done|]. intros x. apply link_parameter_keeps. Qed.

Lemma link_method_keeps parameters m :
  nodes_in a0 (contract_method_nodes m) →
  keeps contract_method_nodes m (link_method packageName aliases symbols parameters m).
Proof using Hranked.
  intros Hn. unfold link_method, keeps, contract_method_nodes in *.
  apply nodes_in_app in Hn as [Hn1 [Hn2 _]%nodes_in_app].
  eapply steps_bind; [by apply link_parameters_keeps|]. intros qs Hqs.
  eapply steps_bind; [apply linkType_steps|]. intros t _.
  eapply steps_bind; [by apply linkAttributes_keeps|]. intros l Hl. apply steps_ret. cbn. by rewrite Hqs, Hl.
Qed.
Lemma link_contract_keeps d :
  nodes_in a0 (contract_nodes d) → keeps contract_nodes d (link_contract packageName aliases symbols d).
Proof using Hranked.
  intros Hn. unfold link_contract, keeps, contract_nodes in *. apply nodes_in_app in Hn as [Hn1 Hn2].
  eapply steps_bind; [apply linkTypes_steps|]. intros parents _.
  eapply steps_bind; [apply keeps_mapM; [done|]; intros x; apply link_method_keeps|]. intros ms Hms.
  eapply steps_bind; [by apply linkAttributes_keeps|]. intros l Hl. apply steps_ret. cbn. by rewrite Hms, Hl.
Qed.

Lemma linkWorkflowFunction_steps name span :
  steps st0 (linkWorkflowFunction packageName aliases symbols name span) (λ _, True).
Proof.
  unfold linkWorkflowFunction. destruct (find_byte _ _).
  - destruct (aliases !! _); [|eapply steps_bind; [apply steps_report|by intros; apply steps_ret]].
    destruct (findDeclaration _ _ _ _); eapply steps_bind; try apply steps_report;
      try apply report_unexported_steps; by intros; apply steps_ret.
  - destruct (findDeclaration _ _ _ _); [by apply steps_ret|]. destruct (findPrelude _ _ _); [by apply steps_ret|].
    eapply steps_bind; [apply steps_report|]. by intros; apply steps_ret.
Qed.
Lemma link_workflow_steps parameters w :
  steps st0 (link_workflow packageName aliases symbols parameters w) (λ _, True).
Proof.
  unfold link_workflow. eapply steps_bind; [apply linkType_steps|]. intros t _.
  eapply steps_bind; [apply linkType_steps|]. intros t' _. eapply steps_bind.
  { apply (steps_mapM _ _ _ (λ _ _, True)). intros s _. unfold link_step.
    eapply steps_bind; [apply linkWorkflowFunction_steps|]. intros function _.
    apply (steps_bind _ _ _ (λ _, True)); [|by intros; apply steps_ret].
    destruct (ws_compensation s); [|by apply steps_ret]. destruct (ws_compensationSpan s); [|by apply steps_ret].
    eapply steps_bind; [apply linkWorkflowFunction_steps|]. by intros; apply steps_ret. }
  by intros; apply steps_ret.
Qed.

(** ** Functions *)

Lemma link_function_parts_steps f :
  nodes_in a0 (function_nodes f ++ attached_nodes f) →
  steps st0 (link_function_parts packageName aliases symbols f) (λ r,
    flat_map parameter_nodes r.1.1.1.2 = flat_map parameter_nodes (fn_parameters f) ∧
    flat_map attribute_nodes r.2 = attached_nodes f).
Proof using Hranked.
  intros [[Hb Hp]%nodes_in_cons Ha]%nodes_in_app. unfold link_function_parts. eapply steps_bind.
  { apply (steps_mapM _ _ _ (λ _ _, True)). intros c _. apply steps_map_some. intros. apply linkType_steps. }
  intros constraints _. eapply steps_bind; [by apply link_parameters_keeps|]. intros ps Hps.
  eapply steps_bind; [apply linkType_steps|]. intros t _.
  eapply steps_bind; [apply steps_map_some; intros; apply link_workflow_steps|]. intros w _.
  eapply steps_bind; [by apply linkAttributes_keeps|]. intros l Hl. apply node_fuel_steps.
  eapply steps_bind; [|intros _ _; by apply steps_ret]. destruct Hranked as [rank Hr].
  apply (proj2 (link_steps packageName aliases symbols (fn_typeParameters f) st0 rank _ Hr)); [done|]. by apply Hr.
Qed.
End Declarations.

(** ** The main function *)

Definition with_main (found : bool) (st : Linker) : Linker := mkLinker (lk_program st) (lk_diagnostics st) found.
Definition b2n (b : bool) : nat := if b then 1 else 0.

(** From [m] to [m'] the main functions among [fs] were found. *)
Definition accounted (target : TargetPlatform) (d : Diagnostics) (m : bool) (fs : list Function) (m' : bool) : Prop :=
  accepted d → b2n m' = b2n m + length (filter is_main fs) ∧ (target = Freestanding → filter is_main fs = []).

Lemma accounted_app target d d' m fs m1 fs' m2 :
  d `prefix_of` d' → accounted target d m fs m1 → accounted target d' m1 fs' m2 → accounted target d' m (fs ++ fs') m2.
Proof.
  intros Hp H1 H2 Ha. destruct (H1 (accepted_prefix _ _ Hp Ha)) as [E1 F1]. destruct (H2 Ha) as [E2 F2].
  rewrite filter_app, length_app. split; [lia|]. intros Ht. by rewrite F1, F2.
Qed.

(** What linking one function does. *)
Definition same_function (f f' : Function) : Prop :=
  function_nodes f' = function_nodes f ∧ attached_nodes f' = attached_nodes f ∧ (is_main f' ↔ is_main f).

Lemma not_main target d m f : ¬ is_main f → accounted target d m [f] m.
Proof. intros Hn _. rewrite filter_cons, decide_False by done. cbn. split; [lia|done]. Qed.

Section Functions.
Context (packageName sourcePath : bytes) (aliases : ImportAliases) (symbols : SymbolTable) (target : TargetPlatform).

Lemma link_function_name_spec f st :
  links (link_function_name packageName target f) st (λ names st',
    linking (with_main (lk_foundMain st') st) st' ∧
    accounted target (lk_diagnostics st') (lk_foundMain st) [f] (lk_foundMain st') ∧
    ((fn_testName f = None ∧ fn_closure f = false ∧ names.2 = [] ∧ names.1 = lit "main") ↔ is_main f)).
Proof.
  assert (with_main (lk_foundMain st) st = st) as Hst by (by destruct st).
  unfold link_function_name. case_bool_decide as Ht.
  { unfold links. cbn. rewrite Hst. split; [done|]. unfold is_main. split.
    - apply not_main. intros [E _]. rewrite E in Ht. by destruct Ht.
    - split; intros [E _]; rewrite E in Ht; by destruct Ht. }
  destruct (fn_closure f) eqn:Hc.
  { unfold links. cbn. rewrite Hst. split; [done|]. split; [|unfold is_main; rewrite Hc; naive_solver].
    apply not_main. unfold is_main. rewrite Hc. naive_solver. }
  case_bool_decide as Ho; cbn [negb].
  2: { unfold links. cbn. rewrite Hst. split; [done|]. split.
    - apply not_main. unfold is_main. naive_solver.
    - pose proof (internalName_nil packageName _ Ho). unfold is_main. naive_solver. }
  assert (fn_testName f = None) as Htest by (destruct (fn_testName f); [by destruct Ht|done]).
  case_bool_decide as Hm.
  { assert (is_main f) as Hmain by (by split_and!).
    unfold links, mbind, L_bind, mret, L_ret, report, get_foundMain, set_foundMain.
    case_bool_decide as Hfree; cbn -[lit error]; destruct (lk_foundMain st) eqn:Hf; cbn -[lit error].
    all: split; [split; cbn -[lit error]; try done; repeat (etrans; [|apply add_prefix]); done|split; [|naive_solver]].
    all: intros Hacc; try (by apply accepted_error in Hacc).
    rewrite filter_cons, decide_True by done. by split. }
  assert (¬ is_main f) as Hmain by (unfold is_main; naive_solver).
  assert (∀ x, (fn_testName f = None ∧ false = false ∧ fn_ownerType f = [] ∧ internalName packageName x = lit "main") →
    x = lit "main") as Hname by (intros x (_ & _ & _ & E); by eapply internalName_main).
  case_bool_decide as Hp; unfold links, mbind, L_bind, report; cbn -[lit error].
  - split; [split; cbn; try done; apply add_prefix|]. split; [by apply not_main|]. split; [|done].
    intros E. by apply Hname in E.
  - rewrite Hst. split; [done|]. split; [by apply not_main|]. split; [|done]. intros E. by apply Hname in E.
Qed.

Lemma link_function_spec f st :
  ranked (arena (lk_program st)) → nodes_in (arena (lk_program st)) (function_nodes f ++ attached_nodes f) →
  links (link_function packageName sourcePath aliases symbols target f) st (λ f' st',
    same_function f f' ∧ linking (with_main (lk_foundMain st') st) st' ∧
    accounted target (lk_diagnostics st') (lk_foundMain st) [f] (lk_foundMain st')).
Proof.
  intros Hr Hn. unfold link_function. apply links_bind.
  eapply links_mono; [by apply (link_function_parts_steps packageName aliases symbols st Hr f Hn)|].
  intros [[[[constraints ps] returnType] workflow] attributes] s1 [[Hps Hat] Hs1]. cbn in Hps, Hat.
  apply links_bind. eapply links_mono; [apply link_function_name_spec|].
  intros [name owner] s2 (Hs2 & Hacc & Hmain). unfold links. cbn in Hmain. cbn.
  split; [|split].
  - split; [|split; [done|done]]. unfold function_nodes. cbn. by rewrite Hps.
  - etrans; [|exact Hs2]. destruct Hs1 as [H1 H2 H3 H4 H5 H6 H7]. by split.
  - by rewrite <- (ln_main _ _ Hs1).
Qed.

Lemma same_nodes_in a a' f :
  (∀ n, node_in a' n ↔ node_in a n) → nodes_in a f → nodes_in a' f.
Proof. intros Hn Hf. eapply Forall_impl; [exact Hf|]. intros n. by rewrite Hn. Qed.

Lemma link_functions_spec fs st :
  ranked (arena (lk_program st)) →
  Forall (λ f, nodes_in (arena (lk_program st)) (function_nodes f ++ attached_nodes f)) fs →
  links (mapM (link_function packageName sourcePath aliases symbols target) fs) st (λ fs' st',
    Forall2 same_function fs fs' ∧ linking (with_main (lk_foundMain st') st) st' ∧
    accounted target (lk_diagnostics st') (lk_foundMain st) fs (lk_foundMain st')).
Proof.
  revert st. induction fs as [|f fs IH]; intros st Hr Hn.
  { unfold links. cbn. split; [constructor|]. split; [by destruct st|]. intros _. cbn. split; [lia|done]. }
  apply List.Forall_cons_iff in Hn as [Hf Hfs]. cbn [mapM]. apply links_bind.
  eapply links_mono; [by apply link_function_spec|]. intros f' s1 (Hsame & Hs1 & Hacc1). apply links_bind.
  assert (∀ n, node_in (arena (lk_program s1)) n ↔ node_in (arena (lk_program st)) n) as Hnodes
    by apply (ln_nodes _ _ Hs1).
  eapply links_mono; [apply IH|].
  - destruct Hr as [rank Hr]. exists rank. by apply (linking_ranking _ _ rank Hs1).
  - eapply Forall_impl; [exact Hfs|]. intros g. by apply same_nodes_in.
  - intros fs' s2 (Hsames & Hs2 & Hacc2). unfold links. cbn. split; [by constructor|]. split.
    + etrans; [|exact Hs2]. destruct Hs1 as [H1 H2 H3 H4 H5 H6 H7]. by split.
    + apply (accounted_app _ (lk_diagnostics s1) _ _ [f] (lk_foundMain s1)); [|done|done]. apply (ln_log _ _ Hs2).
Qed.
End Functions.

(** ** The declarations of a file *)

Lemma linking_well_formed st st' :
  linking st st' → well_formed (lk_program st) → well_formed (lk_program st').
Proof.
  intros Hl [[rank W1] W2 W3 W4]. pose proof (ln_nodes _ _ Hl) as Hn. split.
  - exists rank. by apply (linking_ranking _ _ rank Hl).
  - unfold attached in *. cbn in *. rewrite (ln_functions _ _ Hl). eapply Forall_impl; [exact W2|].
    intros f. by apply same_nodes_in.
  - rewrite (declared_nodes_eq _ _ (ln_declared _ _ Hl)). by eapply same_nodes_in.
  - by apply (plain_attributes_eq _ _ (ln_declared _ _ Hl)).
Qed.

(** Declarations with the same references are as good. *)
Lemma redeclared_well_formed p q :
  well_formed p → arena q = arena p → declared_nodes q = declared_nodes p → plain_attributes q → well_formed q.
Proof.
  intros [W1 W2 W3 W4] Ha Hd Hp. split; [by rewrite Ha|unfold attached; by rewrite Ha|by rewrite Ha, Hd|done].
Qed.

Lemma functions_well_formed p fs :
  well_formed p → Forall2 same_function (pr_functions p) fs → well_formed (set_functions (λ _, fs) p).
Proof.
  intros [W1 W2 W3 W4] Hf.
  assert (∀ n, node_in (arena (set_functions (λ _, fs) p)) n ↔ node_in (arena p) n) as Hn.
  { intros [i|i|i|i]; cbn; try done. by rewrite (Forall2_length _ _ _ Hf). }
  split.
  - eapply ranked_same; [|exact Hn| |exact W1].
    + intros [i|i|i|i]; cbn; try done. destruct (pr_functions p !! i) as [f|] eqn:E.
      * destruct (Forall2_lookup_l _ _ _ _ _ Hf E) as (f' & -> & Hs). cbn. apply Hs.
      * apply lookup_ge_None in E. rewrite (Forall2_length _ _ _ Hf) in E. by rewrite (lookup_ge_None_2 fs i E).
    + unfold arena_size. cbn. by rewrite (Forall2_length _ _ _ Hf).
  - unfold attached in *. cbn in *. apply Forall_forall. intros f' (i & Hi)%list_elem_of_lookup.
    destruct (Forall2_lookup_r _ _ _ _ _ Hf Hi) as (f & Hf' & Hs). destruct Hs as (_ & -> & _).
    eapply same_nodes_in; [exact Hn|]. rewrite Forall_forall in W2. apply W2. by eapply list_elem_of_lookup_2.
  - eapply same_nodes_in; [exact Hn|]. exact W3.
  - exact W4.
Qed.

(** A part of [linkFile] that keeps the functions. *)
Record kept (st st' : Linker) : Prop := mkKept {
  kp_wf : well_formed (lk_program st');
  kp_functions : pr_functions (lk_program st') = pr_functions (lk_program st);
  kp_log : lk_diagnostics st `prefix_of` lk_diagnostics st';
  kp_main : lk_foundMain st' = lk_foundMain st;
}.
Lemma kept_trans x y z : kept x y → kept y z → kept x z.
Proof. intros [a1 a2 a3 a4] [b1 b2 b3 b4]. split; [done|congruence|by etrans|congruence]. Qed.

(** The first four loops. *)
Lemma over_spec {A} (vector : Program → list A) assign body (R : list A → list A → Prop) st :
  well_formed (lk_program st) →
  steps st (mapM body (vector (lk_program st))) (R (vector (lk_program st))) →
  (∀ p l, well_formed p → declared p = declared (lk_program st) → R (vector (lk_program st)) l →
     well_formed (assign (λ _, l) p)) →
  (∀ p f, pr_functions (assign f p) = pr_functions p) →
  links (over vector assign body) st (λ _ st', kept st st').
Proof.
  intros Hw Hm Ha Hf. unfold over. apply links_bind. unfold links at 1, program. apply links_bind.
  eapply links_mono; [by apply Hm|]. intros l s1 [Hl Hs1]. unfold links. cbn. destruct Hs1 as [H1 H2 H3 H4 H5 H6 H7] eqn:E.
  split; cbn; [|by rewrite Hf|done|done]. apply Ha; [|done|done].
  eapply linking_well_formed; [|exact Hw]. exact Hs1.
Qed.

(** An attribute declaration whose parameters have the same attributes. *)
Definition same_attributes (d d' : AttributeDeclaration) : Prop :=
  map param_attributes (ad_parameters d') = map param_attributes (ad_parameters d).
Lemma attribute_declaration_nodes_map d :
  attribute_declaration_nodes d = flat_map (flat_map attribute_nodes) (map param_attributes (ad_parameters d)).
Proof. unfold attribute_declaration_nodes. induction (ad_parameters d); cbn; [done|]. by f_equal. Qed.
Lemma same_attributes_plain l l' :
  Forall2 same_attributes l l' → Forall (λ d, Forall (λ q, param_attributes q = []) (ad_parameters d)) l →
  Forall (λ d, Forall (λ q, param_attributes q = []) (ad_parameters d)) l'.
Proof.
  induction 1 as [|d d' l l' E _ IH]; [done|]. intros [Hq Hl]%List.Forall_cons_iff. constructor; [|by apply IH].
  apply (List.Forall_map param_attributes (λ x, x = [])). rewrite E. by apply List.Forall_map.
Qed.

Section File.
Context (packageName sourcePath : bytes) (aliases : ImportAliases) (symbols : SymbolTable) (target : TargetPlatform).

(** The references of the declarations, by their kind. *)
Lemma well_formed_parts p :
  well_formed p →
  nodes_in (arena p) (flat_map struct_nodes (pr_structs p)) ∧ nodes_in (arena p) (flat_map enum_nodes (pr_enums p)) ∧
  nodes_in (arena p) (flat_map contract_nodes (pr_contracts p)).
Proof. intros [_ _ H _]. unfold declared_nodes in H. rewrite !nodes_in_app in H. tauto. Qed.

Lemma attribute_declarations_kept st :
  well_formed (lk_program st) →
  links (over pr_attributeDeclarations set_attributeDeclarations (link_attribute_declaration packageName aliases symbols))
    st (λ _ st', kept st st').
Proof.
  intros Hw. apply (over_spec _ _ _ (Forall2 same_attributes)); [done| | |done].
  { apply steps_mapM. intros d _. apply link_attribute_declaration_steps. }
  intros p l Hp Hd Hl. injection Hd as _ _ _ _ _ _ Ea. rewrite <- Ea in Hl.
  apply (redeclared_well_formed p); [done|done| |].
  - unfold declared_nodes. cbn. do 3 f_equal. apply flat_map_Forall2. eapply Forall2_impl; [exact Hl|].
    intros d d' E. by rewrite !attribute_declaration_nodes_map, E.
  - eapply same_attributes_plain; [exact Hl|]. apply (wf_plain p Hp).
Qed.

Lemma structs_kept st :
  well_formed (lk_program st) →
  links (over pr_structs set_structs (link_struct packageName sourcePath aliases symbols)) st (λ _ st', kept st st').
Proof.
  intros Hw. apply (over_spec _ _ _ (λ l l', flat_map struct_nodes l' = flat_map struct_nodes l)); [done| | |done].
  { apply keeps_mapM; [by apply well_formed_parts|]. intros d Hd. apply link_struct_keeps; [apply Hw|done]. }
  intros p l Hp Hd Hl. injection Hd as _ _ _ E _ _ _.
  apply (redeclared_well_formed p); [done|done| |apply Hp]. unfold declared_nodes. cbn. by rewrite Hl, E.
Qed.
Lemma enums_kept st :
  well_formed (lk_program st) →
  links (over pr_enums set_enums (link_enum packageName aliases symbols)) st (λ _ st', kept st st').
Proof.
  intros Hw. apply (over_spec _ _ _ (λ l l', flat_map enum_nodes l' = flat_map enum_nodes l)); [done| | |done].
  { apply keeps_mapM; [by apply well_formed_parts|]. intros d Hd. apply link_enum_keeps; [apply Hw|done]. }
  intros p l Hp Hd Hl. injection Hd as _ _ _ _ E _ _.
  apply (redeclared_well_formed p); [done|done| |apply Hp]. unfold declared_nodes. cbn. by rewrite Hl, E.
Qed.
Lemma contracts_kept st :
  well_formed (lk_program st) →
  links (over pr_contracts set_contracts (link_contract packageName aliases symbols)) st (λ _ st', kept st st').
Proof.
  intros Hw. apply (over_spec _ _ _ (λ l l', flat_map contract_nodes l' = flat_map contract_nodes l)); [done| | |done].
  { apply keeps_mapM; [by apply well_formed_parts|]. intros d Hd. apply link_contract_keeps; [apply Hw|done]. }
  intros p l Hp Hd Hl. injection Hd as _ _ _ _ _ E _.
  apply (redeclared_well_formed p); [done|done| |apply Hp]. unfold declared_nodes. cbn. by rewrite Hl, E.
Qed.

(** The functions of the linked program and the main functions among them. *)
Definition file_done (p : Program) (m : bool) (st' : Linker) : Prop :=
  well_formed (lk_program st') ∧ Forall2 same_function (pr_functions p) (pr_functions (lk_program st')) ∧
  accounted target (lk_diagnostics st') m (pr_functions p) (lk_foundMain st').

Lemma functions_done st :
  well_formed (lk_program st) →
  links (over pr_functions set_functions (link_function packageName sourcePath aliases symbols target)) st
    (λ _ st', file_done (lk_program st) (lk_foundMain st) st' ∧ lk_diagnostics st `prefix_of` lk_diagnostics st').
Proof.
  intros Hw. unfold over. apply links_bind. unfold links at 1, program. apply links_bind.
  eapply links_mono; [apply link_functions_spec|].
  - apply Hw.
  - pose proof (wf_attached _ Hw) as Ha. unfold attached in Ha. rewrite Forall_forall in *.
    intros f Hf. apply nodes_in_app. split; [|by apply Ha].
    apply list_elem_of_lookup in Hf as [i Hi]. destruct (wf_ranked _ Hw) as [rank Hr].
    destruct (Hr (NFun i)) as [_ Hf]; [by eapply lookup_lt_Some|]. cbn in Hf. rewrite Hi in Hf.
    eapply Forall_impl; [exact Hf|]. by intros n [].
  - intros fs s1 (Hfs & Hs1 & Hacc). unfold links. cbn. split; [|by apply (ln_log _ _ Hs1)].
    split; [|split; [done|done]]. cbn. apply functions_well_formed.
    + eapply linking_well_formed; [exact Hs1|exact Hw].
    + by rewrite (ln_functions _ _ Hs1).
Qed.

Lemma link_declarations_spec st :
  well_formed (lk_program st) →
  links (link_declarations packageName sourcePath aliases symbols target) st
    (λ _ st', file_done (lk_program st) (lk_foundMain st) st' ∧ lk_diagnostics st `prefix_of` lk_diagnostics st').
Proof.
  intros Hw. unfold link_declarations. apply links_bind.
  eapply links_mono; [by apply attribute_declarations_kept|]. intros ? s1 H1. apply links_bind.
  eapply links_mono; [apply structs_kept, H1|]. intros ? s2 H2. pose proof (kept_trans _ _ _ H1 H2) as K2.
  apply links_bind. eapply links_mono; [apply enums_kept, H2|]. intros ? s3 H3.
  pose proof (kept_trans _ _ _ K2 H3) as K3. apply links_bind.
  eapply links_mono; [apply contracts_kept, H3|]. intros ? s4 H4. pose proof (kept_trans _ _ _ K3 H4) as [W F D M].
  eapply links_mono; [by apply functions_done|]. intros ? s5 [(W5 & F5 & A5) D5]. split; [|by etrans].
  unfold file_done. rewrite <- F, <- M. done.
Qed.
End File.
