(* ===== verification/ProjectLoad.v ===== *)
(** * From source texts to one program (compiler/src/project.cpp)

    The part of [loadProject] behind the discovery of the files: every text is read and
    parsed, and when no error was reported the programs are linked and appended. *)
From S2P Require Import Prelude Target Diagnostics Token Lexer Ast AstGraph ParserState ParserProgram ProjectAppend ProjectLink ProjectFiles ProjectCycles ProgramTheorems.

(** compiler/src/sdk.cpp *)
Definition freestandingPackages : list bytes :=
  [lit "std.prelude"; lit "std.text"; lit "std.align"; lit "std.path"; lit "std.pattern"; lit "std.json"].
Definition freestandingSdkPackage (packageName : bytes) : bool := bool_decide (packageName ∈ freestandingPackages).

(** A discovered file: [readFile] gives its contents or fails. *)
Record SourceText := mkSourceText {
  tx_displayPath : bytes;
  tx_contents : option bytes;
  tx_identity : bytes;
  tx_library : bool;
}.

Record Loading := mkLoading {
  lo_sources : list DiagnosticSource;
  lo_files : list ParsedFile;
  lo_hosted : gset bytes;
  lo_diagnostics : Diagnostics;
}.

Definition set_packageName (name : bytes) (p : Program) : Program :=
  mkAstProgram name (pr_hasPackageDeclaration p) (pr_imports p) (pr_expressions p) (pr_statements p) (pr_blocks p)
    (pr_structs p) (pr_enums p) (pr_contracts p) (pr_attributeDeclarations p) (pr_functions p).

Section Load.
Context (target : TargetPlatform) (parseFloating : bytes → bool).
(** The input is a directory or has a package manifest. *)
Context (project : bool).

Definition load_file (st : Loading) (index : nat) (text : SourceText) : option Loading :=
  match tx_contents text with
  | None =>
      Some (mkLoading
        (lo_sources st ++ [mkDiagnosticSource (tx_displayPath text) [] (tx_identity text) []])
        (lo_files st) (lo_hosted st)
        (error (lo_diagnostics st) (lit "FDN3001") (lit "cannot read source file") (mkSpan 0 0 1 1 index)))
  | Some contents =>
      '(p, d) ← parse_source target parseFloating contents index (lo_diagnostics st);
      let declared := pr_hasPackageDeclaration p in
      let d :=
        if project && negb declared then
          error d (lit "FDN3003") (lit "project source must declare a package") (mkSpan 0 0 1 1 index)
        else d in
      let p := if declared then p else set_packageName (if project then lit "main" else []) p in
      let sources :=
        lo_sources st ++ [mkDiagnosticSource (tx_displayPath text) contents (tx_identity text) (pr_packageName p)] in
      Some
        (if bool_decide (target = Freestanding) && tx_library text && negb (freestandingSdkPackage (pr_packageName p))
         then mkLoading sources (lo_files st) ({[pr_packageName p]} ∪ lo_hosted st) d
         else mkLoading sources (lo_files st ++ [mkParsedFile p (tx_displayPath text)]) (lo_hosted st) d)
  end.

Fixpoint load_files (st : Loading) (index : nat) (texts : list SourceText) : option Loading :=
  match texts with
  | [] => Some st
  | text :: texts => st ← load_file st index text; load_files st (S index) texts
  end.

(** The loop over [linkFile]. *)
Fixpoint link_files (symbols : SymbolTable) (hostedSdkPackages : gset bytes) (files : list ParsedFile)
    (d : Diagnostics) (foundMain : bool) : option (list ParsedFile * Diagnostics) :=
  match files with
  | [] => Some ([], d)
  | file :: files =>
      '(file, d, foundMain) ← linkFile symbols target hostedSdkPackages file d foundMain;
      '(files, d) ← link_files symbols hostedSdkPackages files d foundMain;
      Some (file :: files, d)
  end.

Definition append_files (files : list ParsedFile) : Program :=
  foldl (λ p file, appendProgram p (pf_program file)) emptyProgram files.

(** The end of [loadProject]. *)
Definition link_project (files : list ParsedFile) (hostedSdkPackages : gset bytes) (d : Diagnostics)
    : option (Program * Diagnostics) :=
  let symbols := collectSymbols files ∅ in
  d ← rejectCycles files symbols d;
  '(files, d) ← link_files symbols hostedSdkPackages files d false;
  Some (append_files files, d).

Definition load_sources (texts : list SourceText) (d : Diagnostics)
    : option (Program * list DiagnosticSource * Diagnostics) :=
  st ← load_files (mkLoading [] [] ∅ d) 0 texts;
  if hasErrors (lo_diagnostics st) then Some (emptyProgram, lo_sources st, lo_diagnostics st)
  else
    '(p, d) ← link_project (lo_files st) (lo_hosted st) (lo_diagnostics st);
    Some (p, lo_sources st, d).
End Load.
