(* ===== verification/ProjectTheorems.v ===== *)
(** * Theorems about projects

    Any list of source texts is loaded to one well-formed program; what an accepted
    project satisfies; the cycles that are reported; the names that are resolved. *)
From S2P Require Import Prelude Target Diagnostics Graph Cycles Ast AstGraph ParserState ParserProgram ProgramTheorems ProjectAppend ProjectLink ProjectFiles ProjectLinkProofs ProjectCycles ProjectProofs ProjectLoad.

(** ** Imports of a file *)

Lemma emplace_lookup {V} (m : gmap bytes V) k v x :
  emplace k v m !! x = match m !! x with Some w => Some w | None => if decide (k = x) then Some v else None end.
Proof.
  unfold emplace. destruct (m !! k) eqn:E.
  - destruct (m !! x) eqn:Ex; [done|]. case_decide; [congruence|done].
  - destruct (decide (k = x)) as [->|]; [by rewrite lookup_insert_eq, E|]. rewrite lookup_insert_ne by done.
    by destruct (m !! x).
Qed.

Section Imports.
Context (symbols : SymbolTable) (hosted : gset bytes).

Lemma validate_import_log c i : ic_diagnostics c `prefix_of` ic_diagnostics (validate_import symbols hosted c i).
Proof.
  unfold validate_import. cbn.
  assert (∀ (b : bool) d code message span, d `prefix_of` (if b then error d code message span else d)) as Hb.
  { intros []; intros; [apply add_prefix|done]. }
  etrans; [|apply Hb]. etrans; [|apply Hb]. case_bool_decide; [apply add_prefix|]. apply Hb.
Qed.
Lemma validate_imports_log l c :
  ic_diagnostics c `prefix_of` ic_diagnostics (foldl (validate_import symbols hosted) c l).
Proof.
  revert c. induction l as [|i l IH]; intros c; cbn; [done|]. etrans; [apply validate_import_log|apply IH].
Qed.

(** What one import satisfies when nothing is reported about it. *)
Lemma validate_import_accepted c i :
  accepted (ic_diagnostics (validate_import symbols hosted c i)) →
  im_packageName i ∉ hosted ∧ is_Some (symbols !! im_packageName i) ∧ im_packageName i ∉ ic_packages c ∧
  ic_aliases c !! import_alias i = None.
Proof.
  unfold validate_import. cbn. intros Ha. destruct (ic_aliases c !! import_alias i) eqn:E1.
  { rewrite bool_decide_true in Ha by done. by apply accepted_error in Ha. }
  rewrite (bool_decide_false (is_Some None)) in Ha by apply is_Some_None.
  destruct (decide (im_packageName i ∈ ic_packages c)) as [E2|E2].
  { rewrite (bool_decide_true (im_packageName i ∈ ic_packages c)) in Ha by done. by apply accepted_error in Ha. }
  rewrite (bool_decide_false (im_packageName i ∈ ic_packages c)) in Ha by done.
  case_bool_decide; [by apply accepted_error in Ha|]. case_bool_decide as E3; [by apply accepted_error in Ha|].
  split; [done|]. split; [|done]. by apply not_eq_None_Some.
Qed.

Lemma validate_imports_accepted l c :
  accepted (ic_diagnostics (foldl (validate_import symbols hosted) c l)) →
  Forall (λ i, im_packageName i ∉ hosted ∧ is_Some (symbols !! im_packageName i) ∧
    im_packageName i ∉ ic_packages c ∧ ic_aliases c !! import_alias i = None) l ∧
  NoDup (map im_packageName l) ∧ NoDup (map import_alias l).
Proof.
  revert c. induction l as [|i l IH]; intros c Ha; cbn.
  { split; [constructor|]. split; constructor. }
  cbn in Ha. destruct (IH _ Ha) as (Hl & Hp & Hal).
  pose proof (validate_import_accepted c i (accepted_prefix _ _ (validate_imports_log _ _) Ha)) as Hi.
  rewrite Forall_forall in Hl.
  assert (∀ j, j ∈ l → im_packageName j ≠ im_packageName i ∧ im_packageName j ∉ ic_packages c ∧
    import_alias j ≠ import_alias i ∧ ic_aliases c !! import_alias j = None) as Hj.
  { intros j Hj. destruct (Hl j Hj) as (_ & _ & H1 & H2). unfold validate_import in H1, H2. cbn in H1, H2.
    rewrite emplace_lookup in H2. destruct (ic_aliases c !! import_alias j) eqn:E; [done|].
    destruct (decide (import_alias i = import_alias j)); [done|].
    rewrite elem_of_union, elem_of_singleton in H1. naive_solver. }
  split.
  - constructor; [done|]. apply Forall_forall. intros j Hjl. destruct (Hl j Hjl) as (? & ? & _ & _).
    destruct (Hj j Hjl) as (? & ? & ? & ?). done.
  - split; apply NoDup_cons; (split; [|done]); intros (j & Hj1 & Hjl)%list_elem_of_fmap;
      destruct (Hj j Hjl) as (? & ? & ? & ?); congruence.
Qed.

(** The imports of a file about which nothing was reported. *)
Definition imports_resolved (p : Program) : Prop :=
  Forall (λ i, im_packageName i ∉ hosted ∧ is_Some (symbols !! im_packageName i)) (pr_imports p) ∧
  NoDup (map im_packageName (pr_imports p)) ∧ NoDup (map import_alias (pr_imports p)).

Lemma validateImports_spec p d :
  d `prefix_of` (validateImports p symbols hosted d).2 ∧
  (accepted (validateImports p symbols hosted d).2 → imports_resolved p).
Proof.
  unfold validateImports. cbn. split; [apply (validate_imports_log _ (mkImportCheck ∅ ∅ d))|].
  intros (Hl & Hp & Ha)%validate_imports_accepted. split; [|done].
  eapply Forall_impl; [exact Hl|]. by intros i (? & ? & _).
Qed.
End Imports.

(** ** Shadowed aliases *)

Lemma foldl_log {A} (f : Diagnostics → A → Diagnostics) l d :
  (∀ d x, d `prefix_of` f d x) → d `prefix_of` foldl f d l.
Proof.
  intros Hf. revert d. induction l as [|x l IH]; intros d; cbn; [done|]. etrans; [apply Hf|apply IH].
Qed.
Lemma shadow_report_log aliases what name span d : d `prefix_of` shadow_report aliases what name span d.
Proof. unfold shadow_report. case_bool_decide; [apply add_prefix|done]. Qed.
Lemma rejectAliasShadows_log aliases p d : d `prefix_of` rejectAliasShadows aliases p d.
Proof.
  unfold rejectAliasShadows. etrans; [|apply foldl_log]; [etrans; [|apply foldl_log]; [apply foldl_log|]|].
  - intros d' f. apply foldl_log. intros. apply shadow_report_log.
  - intros d' s. unfold shadow_statement. destruct (stmt_value s); try done.
    + destruct elseBinding; [etrans|]; try apply shadow_report_log.
    + apply foldl_log. intros. apply shadow_report_log.
  - intros d' e. unfold shadow_expression. destruct (expr_value e); try done. apply foldl_log.
    intros d'' arm. destruct (ma_binding arm); [apply shadow_report_log|done].
Qed.

(** ** Files *)

Lemma linkFile_spec symbols target hosted file d m :
  well_formed (pf_program file) →
  ∃ file' d' m', linkFile symbols target hosted file d m = Some (file', d', m') ∧
    well_formed (pf_program file') ∧
    Forall2 same_function (pr_functions (pf_program file)) (pr_functions (pf_program file')) ∧
    d `prefix_of` d' ∧ accounted target d' m (pr_functions (pf_program file)) m' ∧
    (accepted d' → imports_resolved symbols hosted (pf_program file)).
Proof.
  intros Hw. unfold linkFile. pose proof (validateImports_spec symbols hosted (pf_program file) d) as [Hl Hi].
  destruct (validateImports _ _ _ _) as [aliases d1]. cbn in Hl, Hi.
  pose proof (rejectAliasShadows_log aliases (pf_program file) d1) as Hs.
  pose proof (link_declarations_spec (pr_packageName (pf_program file)) (pf_sourcePath file) aliases symbols target
    (mkLinker (pf_program file) (rejectAliasShadows aliases (pf_program file) d1) m) Hw) as Hd.
  unfold links in Hd. destruct (link_declarations _ _ _ _ _ _) as [[u st]|]; [|done].
  destruct Hd as [(W & F & A) D]. cbn in F, A, D. eexists _, _, _. split; [done|]. cbn.
  split; [done|]. split; [done|]. split; [by etrans; [|etrans]|]. split; [done|].
  intros Ha. apply Hi. eapply accepted_prefix; [|exact Ha]. by etrans.
Qed.

Definition all_functions (files : list ParsedFile) : list Function :=
  flat_map (λ file, pr_functions (pf_program file)) files.

Lemma mains_cons file files :
  filter is_main (all_functions (file :: files)) =
    filter is_main (pr_functions (pf_program file)) ++ filter is_main (all_functions files).
Proof. apply filter_app. Qed.

Lemma link_files_spec symbols target hosted files d m :
  Forall (λ file, well_formed (pf_program file)) files →
  ∃ files' d', link_files target symbols hosted files d m = Some (files', d') ∧
    Forall (λ file, well_formed (pf_program file)) files' ∧
    Forall2 same_function (all_functions files) (all_functions files') ∧
    d `prefix_of` d' ∧
    (accepted d' →
       b2n m + length (filter is_main (all_functions files)) ≤ 1 ∧
       (target = Freestanding → filter is_main (all_functions files) = []) ∧
       Forall (λ file, imports_resolved symbols hosted (pf_program file)) files).
Proof.
  revert d m. induction files as [|file files IH]; intros d m Hw.
  { exists [], d. cbn. split; [done|]. split; [constructor|]. split; [constructor|]. split; [done|].
    intros _. split; [destruct m; cbn; lia|]. split; [done|constructor]. }
  apply List.Forall_cons_iff in Hw as [Hf Hfs]. cbn [link_files].
  destruct (linkFile_spec symbols target hosted file d m Hf) as (file' & d1 & m1 & -> & W & F & D & A & I).
  cbn [mbind option_bind].
  destruct (IH d1 m1 Hfs) as (files' & d2 & -> & Ws & Fs & Ds & As). cbn [mbind option_bind].
  eexists _, _. split; [done|]. split; [by constructor|]. split; [by apply Forall2_app|]. split; [by etrans|].
  intros Ha. destruct (As Ha) as (A1 & A2 & A3). pose proof (accepted_prefix _ _ Ds Ha) as Ha1.
  destruct (A Ha1) as [B1 B2].
  rewrite mains_cons, length_app. split; [lia|]. split.
  - intros Ht. by rewrite B2, A2.
  - constructor; [by apply I|done].
Qed.

Lemma same_mains fs fs' :
  Forall2 same_function fs fs' → length (filter is_main fs') = length (filter is_main fs).
Proof.
  induction 1 as [|f f' l l' (_ & _ & Hm) _ IH]; [done|]. rewrite !filter_cons.
  destruct (decide (is_main f)); [rewrite decide_True by tauto|rewrite decide_False by tauto]; cbn; lia.
Qed.

(** ** Appending the files *)

Lemma append_files_well_formed files :
  Forall (λ file, well_formed (pf_program file)) files → well_formed (append_files files).
Proof.
  unfold append_files. generalize empty_well_formed. generalize emptyProgram.
  induction files as [|file files IH]; intros p Hp Hw; cbn; [done|]. apply List.Forall_cons_iff in Hw as [Hf Hfs].
  apply IH; [by apply append_well_formed|done].
Qed.
Lemma append_mains t p : length (mains (appendProgram t p)) = length (mains t) + length (mains p).
Proof.
  unfold mains, appendProgram. cbn. rewrite filter_app, length_app. f_equal.
  induction (pr_functions p) as [|f fs IH]; [done|]. cbn [map]. rewrite !filter_cons.
  destruct (decide (is_main f)) as [Hm|Hm]; [rewrite decide_True by exact Hm|rewrite decide_False by exact Hm]; cbn; lia.
Qed.
Lemma append_files_mains files : length (mains (append_files files)) = length (filter is_main (all_functions files)).
Proof.
  change (length (filter is_main (all_functions files))) with
    (length (mains emptyProgram) + length (filter is_main (all_functions files))).
  unfold append_files. generalize emptyProgram.
  induction files as [|file files IH]; intros p; [cbn; lia|]. rewrite mains_cons, length_app.
  etrans; [apply IH|]. cbn beta. rewrite append_mains. unfold mains. lia.
Qed.

(** ** Symbols *)

Lemma collect_lookup files s x :
  is_Some (collectSymbols files s !! x) ↔
    is_Some (s !! x) ∨ ∃ file, file ∈ files ∧ pr_packageName (pf_program file) = x.
Proof.
  unfold collectSymbols. revert s. induction files as [|f files IH]; intros s; cbn.
  - split; [by left|]. intros [?|(? & ?%not_elem_of_nil & _)]; done.
  - rewrite IH. unfold collect_file at 1.
    destruct (decide (pr_packageName (pf_program f) = x)) as [E|E].
    + subst x. rewrite lookup_insert_eq. split; [intros _; right; exists f; split; [left|done]|by left].
    + rewrite lookup_insert_ne by done. setoid_rewrite elem_of_cons. naive_solver.
Qed.

Lemma report_all_log d reports : d `prefix_of` report_all d reports.
Proof. unfold report_all. apply foldl_log. intros. apply add_prefix. Qed.
Lemma report_all_accepted d reports : accepted (report_all d reports) → reports = [].
Proof.
  destruct reports as [|r reports]; [done|]. unfold report_all. cbn. intros Ha. exfalso.
  eapply accepted_error, accepted_prefix; [|exact Ha]. apply foldl_log. intros. apply add_prefix.
Qed.

(** The imports between the packages of a project. *)
Definition project_imports (files : list ParsedFile) : relation bytes :=
  imports_package files (collectSymbols files ∅).

(** A project about which nothing was reported. *)
Record project_sound (target : TargetPlatform) (files : list ParsedFile) (hosted : gset bytes) (p : Program) : Prop :=
  mkProjectSound {
    pj_acyclic : ∀ x, ¬ tc (project_imports files) x x;
    pj_imports : ∀ file i, file ∈ files → i ∈ pr_imports (pf_program file) →
      im_packageName i ∉ hosted ∧ ∃ other, other ∈ files ∧ pr_packageName (pf_program other) = im_packageName i;
    pj_aliases : ∀ file, file ∈ files → NoDup (map import_alias (pr_imports (pf_program file)));
    pj_main : length (mains p) ≤ 1;
    pj_freestanding : target = Freestanding → mains p = [];
  }.

Lemma link_project_spec target files hosted d :
  Forall (λ file, well_formed (pf_program file)) files →
  ∃ p d', link_project target files hosted d = Some (p, d') ∧ well_formed p ∧ d `prefix_of` d' ∧
    (accepted d' → project_sound target files hosted p).
Proof.
  intros Hw. unfold link_project. set (symbols := collectSymbols files ∅).
  assert (∀ file, file ∈ files → is_Some (symbols !! pr_packageName (pf_program file))) as Hfiles.
  { intros file Hf. apply collect_lookup. right. by exists file. }
  destruct (rejectCycles_spec files symbols d Hfiles) as (reports & -> & _ & Hc). cbn.
  destruct (link_files_spec symbols target hosted files (report_all d reports) false Hw)
    as (files' & d' & -> & W & F & D & A). cbn.
  eexists _, _. split; [done|]. split; [by apply append_files_well_formed|]. split.
  { etrans; [apply report_all_log|exact D]. }
  intros Ha. destruct (A Ha) as (A1 & A2 & A3). rewrite Forall_forall in A3.
  pose proof (append_files_mains files') as Hm. rewrite (same_mains _ _ F) in Hm. split.
  - apply Hc. eapply report_all_accepted, accepted_prefix; [exact D|exact Ha].
  - intros file i Hf Hi. destruct (A3 file Hf) as (Hr & _ & _). rewrite Forall_forall in Hr.
    destruct (Hr i Hi) as [Hh Hs]. split; [done|]. apply collect_lookup in Hs as [[? Hs]|Hs]; [|done].
    by rewrite lookup_empty in Hs.
  - intros file Hf. by destruct (A3 file Hf) as (_ & _ & ?).
  - cbn in A1. lia.
  - intros Ht. rewrite (A2 Ht) in Hm. by destruct (mains (append_files files')).
Qed.

(** ** Loading *)

Section Load.
Context (target : TargetPlatform) (parseFloating : bytes → bool) (project : bool).

Lemma set_packageName_well_formed name p : well_formed p → well_formed (set_packageName name p).
Proof. by intros [W1 W2 W3 W4]. Qed.

Lemma load_file_spec st index text :
  Forall (λ file, well_formed (pf_program file)) (lo_files st) →
  ∃ st', load_file target parseFloating project st index text = Some st' ∧
    Forall (λ file, well_formed (pf_program file)) (lo_files st') ∧
    length (lo_sources st') = S (length (lo_sources st)).
Proof.
  intros Hw. unfold load_file. destruct (tx_contents text) as [contents|].
  - destruct (parse_source_total target parseFloating contents index (lo_diagnostics st)) as (p & d & -> & Hp). cbn.
    eexists. split; [done|]. case_match; cbn; rewrite length_app; (split; [|cbn; lia]); [done|].
    apply Forall_app. split; [done|]. apply Forall_singleton. cbn.
    destruct (pr_hasPackageDeclaration p); [done|by apply set_packageName_well_formed].
  - eexists. split; [done|]. cbn. split; [done|]. rewrite length_app. cbn. lia.
Qed.

Lemma load_files_spec texts index st :
  Forall (λ file, well_formed (pf_program file)) (lo_files st) →
  ∃ st', load_files target parseFloating project st index texts = Some st' ∧
    Forall (λ file, well_formed (pf_program file)) (lo_files st') ∧
    length (lo_sources st') = length (lo_sources st) + length texts.
Proof.
  revert index st. induction texts as [|text texts IH]; intros index st Hw; cbn [load_files].
  { exists st. cbn. split; [done|]. split; [done|lia]. }
  destruct (load_file_spec st index text Hw) as (s1 & -> & H1 & L1). cbn [mbind option_bind].
  destruct (IH (S index) s1 H1) as (s2 & -> & H2 & L2). exists s2. split; [done|]. split; [done|].
  rewrite L2, L1. cbn. lia.
Qed.
End Load.

(** ** Loading a project *)

(** C27: every list of source texts is loaded: reading, parsing, linking and appending end
    without an access outside a vector, whatever the texts are, and there is one source
    per text.  The program that results has no dangling or circular reference. *)
Theorem project_loaded (target : TargetPlatform) (parseFloating : bytes → bool) (project : bool)
    (texts : list SourceText) (d : Diagnostics) :
  ∃ p sources d', load_sources target parseFloating project texts d = Some (p, sources, d') ∧
    well_formed p ∧ length sources = length texts.
Proof.
  unfold load_sources.
  destruct (load_files_spec target parseFloating project texts 0 (mkLoading [] [] ∅ d)) as (st & -> & Hw & Hl); [done|].
  cbn [mbind option_bind]. destruct (hasErrors (lo_diagnostics st)).
  { eexists _, _, _. split; [done|]. split; [apply empty_well_formed|done]. }
  destruct (link_project_spec target (lo_files st) (lo_hosted st) (lo_diagnostics st) Hw) as (p & d' & -> & Hp & _).
  cbn. eexists _, _, _. split; [done|]. by split.
Qed.

(** C28: a project that is accepted, with no error reported and none lost to the limit of
    the log, is sound: its packages do not import each other in a cycle, every import
    names a package of the project that exists on the target, no alias of a file is
    used twice, and the program has at most one main function, and none on the
    freestanding target. *)
Theorem project_accepted (target : TargetPlatform) (parseFloating : bytes → bool) (project : bool)
    (texts : list SourceText) (d d' : Diagnostics) (p : Program) (sources : list DiagnosticSource) :
  load_sources target parseFloating project texts d = Some (p, sources, d') → accepted d' →
  ∃ st, load_files target parseFloating project (mkLoading [] [] ∅ d) 0 texts = Some st ∧
    project_sound target (lo_files st) (lo_hosted st) p.
Proof.
  unfold load_sources.
  destruct (load_files_spec target parseFloating project texts 0 (mkLoading [] [] ∅ d)) as (st & -> & Hw & Hl); [done|].
  cbn [mbind option_bind]. intros Hr Ha. exists st. split; [done|]. destruct (hasErrors (lo_diagnostics st)) eqn:He.
  { injection Hr as <- <- <-. destruct Ha as [Ha _]. by rewrite He in Ha. }
  destruct (link_project_spec target (lo_files st) (lo_hosted st) (lo_diagnostics st) Hw) as (q & d2 & E & _ & _ & Hs).
  rewrite E in Hr. cbn in Hr. injection Hr as <- <- <-. by apply Hs.
Qed.

(** C29: the traversal of the import graph ends, and reports import cycles exactly: it
    reports something just when the packages import each other in a cycle, and every
    report names packages that do. *)
Theorem import_cycles_exact (files : list ParsedFile) (d : Diagnostics) :
  ∃ reports, rejectCycles files (collectSymbols files ∅) d = Some (report_all d reports) ∧
    (reports = [] ↔ ∀ x, ¬ tc (project_imports files) x x) ∧
    ∀ stack target span, (stack, target, span) ∈ reports →
      ∃ mid, from_first target stack = target :: mid ∧ chain (project_imports files) (target :: mid ++ [target]).
Proof.
  destruct (rejectCycles_spec files (collectSymbols files ∅) d) as (reports & Hr & Hf & Hc).
  { intros file Hin. apply collect_lookup. right. by exists file. }
  exists reports. split; [done|]. split; [done|]. intros stack target span Hin.
  rewrite Forall_forall in Hf. by apply (Hf _ Hin).
Qed.

(** ** Appending *)

(** C30: appending a program to another keeps the references of both: the nodes and
    declarations of the first stay as they are, those of the second are found behind them
    and refer, in bodies, default values and attributes, to the shifted images of what they
    referred to; the result has no dangling or circular reference when neither had one.
    Behind an empty program nothing but the package name changes. *)
Theorem append_keeps_references (t p : Program) :
  well_formed t → well_formed p →
  let r := appendProgram t p in
  let a := arena t in
  well_formed r ∧
  (∀ n, node_in a n → refs (arena r) n = refs a n) ∧
  (∀ n, node_in (arena p) n → node_in (arena r) (shift a n) ∧ refs (arena r) (shift a n) = map (shift a) (refs (arena p) n)) ∧
  joined a (λ e, expression_nodes (expr_value e)) (pr_expressions t) (pr_expressions p) (pr_expressions r) ∧
  joined a (λ s, statement_nodes (stmt_value s)) (pr_statements t) (pr_statements p) (pr_statements r) ∧
  joined a block_nodes (pr_blocks t) (pr_blocks p) (pr_blocks r) ∧
  joined a struct_nodes (pr_structs t) (pr_structs p) (pr_structs r) ∧
  joined a enum_nodes (pr_enums t) (pr_enums p) (pr_enums r) ∧
  joined a contract_nodes (pr_contracts t) (pr_contracts p) (pr_contracts r) ∧
  joined a (λ f, function_nodes f ++ attached_nodes f) (pr_functions t) (pr_functions p) (pr_functions r) ∧
  pr_attributeDeclarations r = pr_attributeDeclarations t ++ pr_attributeDeclarations p ∧
  pr_imports r = pr_imports t ++ pr_imports p ∧
  appendProgram emptyProgram p =
    mkAstProgram [] false (pr_imports p) (pr_expressions p) (pr_statements p) (pr_blocks p) (pr_structs p) (pr_enums p)
      (pr_contracts p) (pr_attributeDeclarations p) (pr_functions p).
Proof.
  intros Ht Hp r a. split; [by apply append_well_formed|]. split; [intros n; apply refs_extends, append_extends|].
  split; [intros n Hn; split; [by apply append_node_in|by apply append_refs]|].
  split_and!; try done; try (apply joined_map; intros x _); try apply append_empty.
  - apply (expression_shift a).
  - apply (statement_shift a).
  - apply (block_shift a).
  - apply (struct_shift a).
  - apply (enum_shift a).
  - apply (contract_shift a).
  - rewrite map_app. f_equal; [apply (function_shift a)|apply (attached_shift a)].
Qed.

(** ** Resolved names *)

(** The names of a type. *)
Fixpoint type_names (type : TypeSyntax) : list bytes :=
  match type with mkType name arguments _ _ => name :: flat_map type_names arguments end.

(** A name that stands for a declared type: one of the package itself, or an exported
    one of the prelude or of an imported package. *)
Definition names_declaration (files : list ParsedFile) (packageName : bytes) (imports : ImportAliases) (name : bytes)
    : Prop :=
  ∃ file declared exported, file ∈ files ∧
    (declared, info (pr_packageName (pf_program file)) declared exported) ∈ file_types (pf_program file) ∧
    name = internalName (pr_packageName (pf_program file)) declared ∧
    (pr_packageName (pf_program file) = packageName ∨
     exported = true ∧
       (pr_packageName (pf_program file) = lit "std.prelude" ∨
        ∃ alias, imports !! alias = Some (pr_packageName (pf_program file)))).

Lemma emplace_all_lookup {V} (l : list (bytes * V)) m k v :
  emplace_all l m !! k = Some v → m !! k = Some v ∨ (k, v) ∈ l.
Proof.
  unfold emplace_all. revert m. induction l as [|[a w] l IH]; intros m; cbn; [by left|].
  intros [H|H]%IH; [|by right; right]. rewrite emplace_lookup in H. destruct (m !! k); [by left|].
  case_decide; [|done]. subst. injection H as ->. right. left.
Qed.

Lemma collected_type files packageName name declaration :
  findDeclaration (collectSymbols files ∅) packageName name false = Some declaration →
  ∃ file, file ∈ files ∧ pr_packageName (pf_program file) = packageName ∧
    (name, declaration) ∈ file_types (pf_program file).
Proof.
  unfold collectSymbols.
  assert (∀ s, (findDeclaration (foldl collect_file s files) packageName name false = Some declaration) →
    findDeclaration s packageName name false = Some declaration ∨
    ∃ file, file ∈ files ∧ pr_packageName (pf_program file) = packageName ∧
      (name, declaration) ∈ file_types (pf_program file)) as H.
  { induction files as [|f files IH]; intros s; cbn; [by left|].
    intros [Hf|(g & Hg & ?)]%IH; [|right; exists g; split; [by right|done]].
    unfold findDeclaration, collect_file in Hf.
    destruct (decide (pr_packageName (pf_program f) = packageName)) as [E|E].
    - rewrite E, lookup_insert_eq in Hf. cbn in Hf. apply emplace_all_lookup in Hf as [Hf|Hf].
      + left. unfold findDeclaration. destruct (s !! packageName); [done|]. by cbn in Hf; rewrite lookup_empty in Hf.
      + right. exists f. split; [left|done].
    - rewrite lookup_insert_ne in Hf by done. by left. }
  intros [Hf|Hf]%H; [|done]. unfold findDeclaration in Hf. by rewrite lookup_empty in Hf.
Qed.

Lemma file_type_info p name declaration :
  (name, declaration) ∈ file_types p → declaration = info (pr_packageName p) name (di_exported declaration).
Proof.
  unfold file_types. rewrite !elem_of_app. intros [H|[H|H]].
  - apply list_elem_of_fmap in H as (x & [= -> ->] & _). done.
  - apply list_elem_of_In, in_flat_map in H as (x & _ & H). destruct (ed_builtin x); cbn in H; try done.
    destruct H as [[= <- <-]|[]]. done.
  - apply list_elem_of_fmap in H as (x & [= -> ->] & _). done.
Qed.

Section Resolve.
Context (files : list ParsedFile) (packageName : bytes) (imports : ImportAliases) (typeParameters : list bytes).
Abbreviation symbols := (collectSymbols files ∅).

Definition resolved (name : bytes) : Prop :=
  intrinsicType name = true ∨ name ∈ typeParameters ∨ find_byte "."%char name = None ∨
  names_declaration files packageName imports name.

Lemma found_declaration package name declaration :
  findDeclaration symbols package name false = Some declaration →
  (package = packageName ∨
   di_exported declaration = true ∧ (package = lit "std.prelude" ∨ ∃ alias, imports !! alias = Some package)) →
  names_declaration files packageName imports (di_internalName declaration).
Proof.
  intros (file & Hin & Hp & Ht)%collected_type Hv. pose proof (file_type_info _ _ _ Ht) as Hi.
  exists file, name, (di_exported declaration). split; [done|]. split; [by rewrite <- Hi|]. rewrite Hp.
  split; [by rewrite Hi, Hp|]. done.
Qed.

(** A step that reports nothing in an accepted log. *)
Lemma report_accepted code message span st a st' :
  report code message span st = Some (a, st') → ¬ accepted (lk_diagnostics st').
Proof. intros [= <- <-]. apply accepted_error. Qed.

Lemma link_type_name_resolved name span st name' st' :
  link_type_name packageName imports symbols typeParameters name span st = Some (name', st') →
  accepted (lk_diagnostics st') → resolved name'.
Proof.
  unfold link_type_name. destruct (intrinsicType name) eqn:Ei; cbn [orb].
  { intros [= <- <-] _. by left. }
  case_bool_decide as Ep; [intros [= <- <-] _; by right; left|].
  destruct (find_byte "."%char name) as [separator|] eqn:Ed.
  - destruct (imports !! _) as [imported|] eqn:Eim.
    + destruct (findDeclaration _ _ _ _) as [declaration|] eqn:Ef.
      * unfold report_unexported. destruct (di_exported declaration) eqn:Ex.
        -- intros [= <- <-] _. do 3 right. eapply found_declaration; [exact Ef|]. right. split; [done|].
           right. by exists (take separator name).
        -- intros [= <- <-] Ha. by apply accepted_error in Ha.
      * intros [= <- <-] Ha. by apply accepted_error in Ha.
    + intros [= <- <-] Ha. by apply accepted_error in Ha.
  - destruct (findDeclaration _ _ _ _) as [declaration|] eqn:Ef.
    + intros [= <- <-] _. do 3 right. eapply found_declaration; [exact Ef|]. by left.
    + unfold findPrelude. destruct (findDeclaration symbols (lit "std.prelude") name false) as [declaration|] eqn:Epr.
      * destruct (di_exported declaration) eqn:Ex.
        -- intros [= <- <-] _. do 3 right. eapply found_declaration; [exact Epr|]. right. split; [done|by left].
        -- intros [= <- <-] _. by right; right; left.
      * intros [= <- <-] _. by right; right; left.
Qed.

Lemma linkTypes_log types st types' st' :
  mapM (linkType packageName imports symbols typeParameters) types st = Some (types', st') →
  lk_diagnostics st `prefix_of` lk_diagnostics st'.
Proof.
  intros E. pose proof (linkTypes_steps packageName imports symbols typeParameters st types st (reflexivity _)) as H.
  unfold links in H. rewrite E in H. apply H.
Qed.
Lemma link_type_name_log name span st name' st' :
  link_type_name packageName imports symbols typeParameters name span st = Some (name', st') →
  lk_diagnostics st `prefix_of` lk_diagnostics st'.
Proof.
  intros E. pose proof (link_type_name_steps packageName imports symbols typeParameters st name span st (reflexivity _)) as H.
  unfold links in H. rewrite E in H. apply H.
Qed.

(** C31: when nothing was reported, every name of a linked type is an intrinsic type, a
    type parameter, a name without a package (an unknown one is left to the semantic
    analysis), or the internal name of a type that a file of the project declares and
    that may be named here. *)
Theorem linked_type_resolved (type type' : TypeSyntax) (st st' : Linker) :
  linkType packageName imports symbols typeParameters type st = Some (type', st') →
  accepted (lk_diagnostics st') → Forall resolved (type_names type').
Proof.
  revert type' st st'. induction type as [name arguments span arrayLength IH] using TypeSyntax_induction.
  intros type' st st'. cbn [linkType]. unfold mbind, L_bind.
  destruct (mapM (M := L) _ arguments st) as [[arguments' s1]|] eqn:Em; [|done].
  destruct (link_type_name _ _ _ _ name span s1) as [[name' s2]|] eqn:En; [|done]. intros [= <- <-] Ha. cbn.
  constructor; [by eapply link_type_name_resolved|].
  pose proof (accepted_prefix _ _ (link_type_name_log _ _ _ _ _ En) Ha) as Ha1. clear En Ha.
  revert st arguments' Em. induction IH as [|t ts Ht _ IHts]; intros st arguments'; cbn [mapM].
  { intros [= <- <-]. constructor. }
  unfold mbind, L_bind. destruct (linkType _ _ _ _ t st) as [[t' s3]|] eqn:Et; [|done].
  destruct (mapM (M := L) _ ts s3) as [[ts' s4]|] eqn:Ets; [|done]. intros [= <- <-]. cbn. apply Forall_app. split.
  - eapply Ht; [exact Et|]. eapply accepted_prefix; [|exact Ha1]. by eapply linkTypes_log.
  - by eapply IHts.
Qed.
End Resolve.

(** ** Attributes of contract methods *)

Definition source_text (name contents : Stdlib.Strings.String.string) : SourceText :=
  mkSourceText (lit name) (Some (lit contents)) (lit name) false.

(** A method of a contract with an attribute on its parameter, without a body and with
    one. *)
Definition abstract_method : list SourceText := [source_text "a.fn" "package app
attribute Note(value Point) targets(parameter)
struct Point { x i32 }
contract C { fn m(&self, @Note(Point { x = 1 }) a i32) i32 }
"].
Definition default_method : list SourceText := [source_text "a.fn" "package app
attribute Note(value Point) targets(parameter)
struct Point { x i32 }
contract C { fn m(&self, @Note(Point { x = 1 }) a i32) i32 { return 1 } }
"].
Definition reports (texts : list SourceText) : option (list (bytes * bytes)) :=
  '(_, _, d) ← load_sources Linux (λ _, true) true texts [];
  Some (map (λ r, (diag_code r, diag_message r)) d).

(** The attributes of the parameters of a contract method are linked twice when the
    method has a body, since the function made from it shares them: the type that the
    first pass resolved to its internal name is taken for an imported one by the
    second, and a project without fault is rejected. *)
Theorem default_method_linked_twice :
  reports abstract_method = Some [] ∧
  reports default_method = Some [(lit "FDN3009", lit "unknown import alias app")].
Proof. split; vm_compute; reflexivity. Qed.

(** ** Witnesses *)

Definition two_packages : list SourceText :=
  [source_text "main.fn" "package app
import lib.shapes as shapes
fn area(p shapes.Point) i32 { return shapes.Size(p) }
fn main() void { area(shapes.Point { x = 1 }) }
";
   source_text "shapes.fn" "package lib.shapes
struct Point { x i32 }
fn Size(p Point) i32 { return p.x }
"].

Lemma two_packages_silent : reports two_packages = Some [].
Proof. vm_compute. reflexivity. Qed.
#[local] Opaque two_packages.

Lemma reports_nil texts p s d :
  reports texts = Some [] → load_sources Linux (λ _, true) true texts [] = Some (p, s, d) → d = [].
Proof. unfold reports. intros Hr E. rewrite E in Hr. cbn in Hr. destruct d; [done|]. by injection Hr. Qed.

Lemma project_accepted_witness :
  ∃ p sources d st, load_sources Linux (λ _, true) true two_packages [] = Some (p, sources, d) ∧ accepted d ∧
    load_files Linux (λ _, true) true (mkLoading [] [] ∅ []) 0 two_packages = Some st ∧
    project_sound Linux (lo_files st) (lo_hosted st) p.
Proof.
  destruct (load_sources Linux (λ _, true) true two_packages []) as [[[p s] d]|] eqn:E.
  - pose proof (reports_nil _ _ _ _ two_packages_silent E) as ->.
    assert (accepted []) as Ha by (split; [done|cbn; lia]).
    destruct (project_accepted Linux (λ _, true) true two_packages [] [] p s E Ha) as (st & Hl & Hs).
    exists p, s, [], st. exact (conj eq_refl (conj Ha (conj Hl Hs))).
  - pose proof two_packages_silent as Hr. unfold reports in Hr. rewrite E in Hr. discriminate Hr.
Defined.

Lemma append_keeps_references_witness :
  ∃ t p, well_formed t ∧ well_formed p ∧ well_formed (appendProgram t p) ∧
    joined (arena t) (λ f, function_nodes f ++ attached_nodes f) (pr_functions t) (pr_functions p) (pr_functions (appendProgram t p)).
Proof.
  destruct (parse_source_total Linux (λ _, true) (lit "fn f() i32 { return 1 }") 0 []) as (t & _ & _ & Ht).
  destruct (parse_source_total Linux (λ _, true) (lit "fn g() i32 { return 2 }") 1 []) as (p & _ & _ & Hp).
  exists t, p. split; [done|]. split; [done|].
  destruct (append_keeps_references t p Ht Hp) as (Hw & _ & _ & _ & _ & _ & _ & _ & _ & Hf & _). exact (conj Hw Hf).
Defined.

#[local] Transparent two_packages.
(** The type [shapes.Point] of the first file above. *)
Definition shapes_files : list ParsedFile :=
  match load_files Linux (λ _, true) true (mkLoading [] [] ∅ []) 0 two_packages with
  | Some st => lo_files st
  | None => []
  end.
Definition shapes_linker : Linker := mkLinker emptyProgram [] false.
Definition shapes_imports : ImportAliases := {[lit "shapes" := lit "lib.shapes"]}.
Definition linked_shape : option (TypeSyntax * Linker) :=
  linkType (lit "app") shapes_imports (collectSymbols shapes_files ∅) []
    (mkType (lit "shapes.Point") [] emptySpan 0) shapes_linker.
Lemma linked_shape_value :
  linked_shape = Some (mkType (lit "lib.shapes.Point") [] emptySpan 0, shapes_linker).
Proof. vm_compute. reflexivity. Qed.

Lemma linked_type_resolved_witness :
  linked_shape = Some (mkType (lit "lib.shapes.Point") [] emptySpan 0, shapes_linker) ∧
  resolved shapes_files (lit "app") shapes_imports [] (lit "lib.shapes.Point").
Proof.
  split; [exact linked_shape_value|].
  apply (List.Forall_inv (linked_type_resolved shapes_files (lit "app") shapes_imports []
    (mkType (lit "shapes.Point") [] emptySpan 0) (mkType (lit "lib.shapes.Point") [] emptySpan 0)
    shapes_linker shapes_linker linked_shape_value (conj eq_refl (Nat.le_0_l 100)))).
Defined.
