(* ===== verification/Queue.v ===== *)
(** * Intrusive queues (runtime/src/channel.c, runtime/src/task.c)

    The runtime keeps tasks, select registrations and waiting select calls in linked
    lists: a head, a tail and a successor stored in the member.  The operations on
    them, on a store of successors, and the lists of members they stand for. *)
From S2P Require Import Prelude.

(** A head and a tail; [None] is a null pointer. *)
Record Queue := mkQueue {
  q_head : option nat;
  q_tail : option nat;
}.
Definition emptyQueue : Queue := mkQueue None None.

(** The members' [wait_next], [next] or [registration.next]: a member without an entry
    has a null successor. *)
Abbreviation Successors := (gmap nat nat).

Definition set_next (member : nat) (successor : option nat) (next : Successors) : Successors :=
  match successor with Some successor => <[member := successor]> next | None => delete member next end.

(** [fdn_channel_wait_push]; [None] is the panic for a member that has a successor. *)
Definition wait_push (next : Successors) (q : Queue) (task : nat) : option (Successors * Queue) :=
  match next !! task with
  | Some _ => None
  | None =>
      Some
        match q_tail q with
        | None => (next, mkQueue (Some task) (Some task))
        | Some tail => (<[tail := task]> next, mkQueue (q_head q) (Some task))
        end
  end.

(** [fdn_channel_wait_pop]. *)
Definition wait_pop (next : Successors) (q : Queue) : option nat * Successors * Queue :=
  match q_head q with
  | None => (None, next, q)
  | Some task =>
      let head := next !! task in
      (Some task, delete task next, mkQueue head match head with None => None | Some _ => q_tail q end)
  end.

(** The body of [fdn_channel_wait_remove] for the member that is found behind
    [previous]. *)
Definition unlink (next : Successors) (q : Queue) (previous : option nat) (member : nat) : Successors * Queue :=
  let '(next', head) :=
    match previous with
    | None => (next, next !! member)
    | Some previous => (set_next previous (next !! member) next, q_head q)
    end in
  (delete member next', mkQueue head (if bool_decide (q_tail q = Some member) then previous else q_tail q)).

(** [fdn_channel_wait_remove]: the walk with the member before the current one.
    [None] is a walk that ran out of fuel. *)
Fixpoint wait_remove_loop (fuel : nat) (next : Successors) (q : Queue) (previous current : option nat) (target : nat)
    : option (bool * Successors * Queue) :=
  match current with
  | None => Some (false, next, q)
  | Some member =>
      if bool_decide (member = target) then
        let '(next', q') := unlink next q previous member in Some (true, next', q')
      else
        match fuel with
        | O => None
        | S fuel => wait_remove_loop fuel next q (Some member) (next !! member) target
        end
  end.
Definition wait_remove (fuel : nat) (next : Successors) (q : Queue) (target : nat) : option (bool * Successors * Queue) :=
  wait_remove_loop fuel next q None (q_head q) target.

(** ** The list a queue stands for *)

(** From [from] the successors run through [l] and end at [last_]. *)
Fixpoint path (next : Successors) (from : option nat) (l : list nat) : Prop :=
  match l with
  | [] => from = None
  | x :: l => from = Some x ∧ path next (next !! x) l
  end.

Record stands_for (next : Successors) (q : Queue) (l : list nat) : Prop := mkStandsFor {
  sf_path : path next (q_head q) l;
  sf_tail : q_tail q = last l;
  sf_distinct : NoDup l;
}.

Lemma path_last next from l x : path next from l → last l = Some x → next !! x = None.
Proof.
  revert from. induction l as [|y l IH]; intros from; cbn; [done|]. intros [-> Hp].
  destruct l as [|z l]; [intros [= ->]; exact Hp|]. cbn in Hp. intros Hl. by eapply IH.
Qed.

Lemma path_agree next next' from l :
  (∀ x, x ∈ l → next' !! x = next !! x) → path next from l → path next' from l.
Proof.
  revert from. induction l as [|x l IH]; intros from H; cbn; [done|]. intros [-> Hp]. split; [done|].
  rewrite H by left. apply IH; [|done]. intros y Hy. apply H. by right.
Qed.

Lemma path_snoc next from l x y :
  path next from (l ++ [x]) → NoDup (l ++ [x]) → y ∉ l ++ [x] → next !! y = None →
  path (<[x := y]> next) from (l ++ [x; y]).
Proof.
  revert from. induction l as [|z l IH]; intros from; cbn.
  - intros [-> _] _ Hy Hn. split; [done|]. rewrite lookup_insert_eq. split; [done|].
    rewrite lookup_insert_ne; [done|]. intros ->. apply Hy. left.
  - intros [-> Hp] [Hz Hnd]%NoDup_cons Hy Hn. split; [done|]. rewrite lookup_insert_ne.
    + apply IH; [done|done| |done]. intros ?. apply Hy. by right.
    + intros ->. apply Hz. apply elem_of_app. right. left.
Qed.

(** A member that joins comes last. *)
Lemma push_stands_for next q l task next' q' :
  stands_for next q l → task ∉ l → wait_push next q task = Some (next', q') →
  stands_for next' q' (l ++ [task]) ∧ ∀ x, x ∉ l → next' !! x = next !! x.
Proof.
  intros [Hp Ht Hd] Hn. unfold wait_push. destruct (next !! task) eqn:E; [done|]. intros [= Heq].
  rewrite Ht in Heq.
  destruct (last l) as [x|] eqn:El.
  - injection Heq as <- <-. pose proof El as (l' & ->)%last_Some. split.
    + split; cbn.
      * rewrite <- app_assoc. by apply path_snoc.
      * by rewrite last_snoc.
      * apply NoDup_app. split; [done|]. split; [|apply NoDup_singleton]. intros y Hy ->%list_elem_of_singleton. done.
    + intros y Hy. rewrite lookup_insert_ne; [done|]. intros ->. apply Hy, elem_of_app. right. left.
  - apply last_None in El as ->. injection Heq as <- <-. split; [|done]. split; cbn; [done|done|apply NoDup_singleton].
Qed.

(** The member that leaves is the first. *)
Lemma pop_stands_for next q l :
  stands_for next q l →
  match wait_pop next q with
  | (task, next', q') => task = head l ∧ stands_for next' q' (tail l) ∧
      ∀ x, next' !! x = if decide (head l = Some x) then None else next !! x
  end.
Proof.
  intros [Hp Ht Hd]. unfold wait_pop. destruct l as [|x l]; cbn in Hp.
  - rewrite Hp. cbn. split; [done|]. split; [by split|]. intros y. by destruct (decide _).
  - destruct Hp as [-> Hp]. cbn. apply NoDup_cons in Hd as [Hx Hd]. split; [done|]. split.
    + split; cbn; [| |done].
      * eapply path_agree; [|exact Hp]. intros y Hy. rewrite lookup_delete_ne; [done|]. by intros ->.
      * destruct l as [|z l]; cbn in Hp; [by rewrite Hp|]. destruct Hp as [-> _]. by rewrite Ht.
    + intros y. destruct (decide (Some x = Some y)) as [[= ->]|Hne].
      * by rewrite lookup_delete_eq.
      * rewrite lookup_delete_ne; [done|]. intros ->. by apply Hne.
Qed.

(** The list without [target]. *)
Definition without (target : nat) (l : list nat) : list nat := filter (λ x, x ≠ target) l.

Lemma without_absent target l : target ∉ l → without target l = l.
Proof.
  intros Hn. unfold without. induction l as [|x l IH]; [done|]. rewrite filter_cons.
  apply not_elem_of_cons in Hn as [Hx Hn]. rewrite decide_True by done. by rewrite IH.
Qed.
Lemma without_split target l1 l2 : NoDup (l1 ++ target :: l2) → without target (l1 ++ target :: l2) = l1 ++ l2.
Proof.
  intros (H1 & H2 & [H3 H4]%NoDup_cons)%NoDup_app. unfold without. rewrite filter_app, filter_cons.
  rewrite decide_False by (intros H; by apply H). f_equal; apply without_absent; [|done].
  intros Hin. apply (H2 _ Hin). left.
Qed.

Lemma path_app next from l1 x l2 :
  path next from (l1 ++ x :: l2) → path next (next !! x) l2 ∧ from = Some (default x (head l1)).
Proof.
  revert from. induction l1 as [|y l1 IH]; intros from; cbn; [by intros [-> ?]|].
  intros [-> Hp]. by destruct (IH _ Hp).
Qed.

Lemma path_bypass next from l1 x y l2 :
  path next from (l1 ++ x :: y :: l2) → NoDup (l1 ++ x :: y :: l2) →
  path (delete y (set_next x (next !! y) next)) from (l1 ++ x :: l2).
Proof.
  revert from. induction l1 as [|z l1 IH]; intros from; cbn.
  - intros (-> & Hx & Hy) [Hxn [Hyn Hd]%NoDup_cons]%NoDup_cons. apply not_elem_of_cons in Hxn as [Hxy Hxn].
    split; [done|]. rewrite lookup_delete_ne by done.
    assert (set_next x (next !! y) next !! x = next !! y) as ->.
    { unfold set_next. destruct (next !! y); [by rewrite lookup_insert_eq|by rewrite lookup_delete_eq]. }
    eapply path_agree; [|exact Hy]. intros w Hw. rewrite lookup_delete_ne by (by intros ->).
    unfold set_next. destruct (next !! y); [rewrite lookup_insert_ne|rewrite lookup_delete_ne]; try done; by intros ->.
  - intros [-> Hp] [Hz Hd]%NoDup_cons. split; [done|].
    assert (z ≠ y ∧ z ≠ x) as [Hzy Hzx].
    { split; intros ->; apply Hz, elem_of_app; right; [right|]; left. }
    rewrite lookup_delete_ne by done.
    assert (set_next x (next !! y) next !! z = next !! z) as ->.
    { unfold set_next. destruct (next !! y); [rewrite lookup_insert_ne|rewrite lookup_delete_ne]; done. }
    by apply IH.
Qed.

(** Unlinking takes the member out and leaves the others in order. *)
Lemma unlink_stands_for next q l1 x l2 :
  stands_for next q (l1 ++ x :: l2) →
  match unlink next q (last l1) x with
  | (next', q') => stands_for next' q' (l1 ++ l2) ∧ next' !! x = None ∧ ∀ y, y ∉ l1 ++ x :: l2 → next' !! y = next !! y
  end.
Proof.
  intros [Hp Ht Hd]. unfold unlink. rewrite last_app_cons in Ht.
  assert (q_tail q = Some x ↔ l2 = []) as Hx.
  { rewrite Ht. split; [|by intros ->]. destruct l2 as [|z l2]; [done|].
    change (last (x :: z :: l2)) with (last (z :: l2)). intros [l3 El]%last_Some. exfalso.
    apply NoDup_app in Hd as (_ & _ & [Hx _]%NoDup_cons). apply Hx. rewrite El. apply elem_of_app. right. left. }
  assert (Hd' : NoDup (l1 ++ l2)).
  { eapply sublist_NoDup; [exact Hd|]. apply sublist_app; [done|]. by repeat constructor. }
  destruct (last l1) as [y|] eqn:El.
  - apply last_Some in El as [l1' ->]. rewrite <- app_assoc in *. cbn in Hp, Hd, Hd' |- *. split; [split; cbn|split].
    + by apply path_bypass.
    + rewrite last_app_cons. case_bool_decide as Eq; [by apply Hx in Eq as ->|].
      rewrite Ht in Hx, Eq |- *. destruct l2; [|done]. by destruct Eq.
    + done.
    + by rewrite lookup_delete_eq.
    + intros z [[_ Hy%not_elem_of_cons]%not_elem_of_app [Hz _]%not_elem_of_cons]%not_elem_of_app. destruct Hy as [Hy _].
      rewrite lookup_delete_ne by done. unfold set_next.
      destruct (next !! x); [rewrite lookup_insert_ne|rewrite lookup_delete_ne]; done.
  - apply last_None in El as ->. cbn in Hp, Hd, Hd' |- *. destruct Hp as [_ Hp]. apply NoDup_cons in Hd as [Hnx Hd].
    split; [split; cbn; [| |done]|split].
    + eapply path_agree; [|exact Hp]. intros y Hy. rewrite lookup_delete_ne; [done|]. by intros ->.
    + case_bool_decide as Eq; [by apply Hx in Eq as ->|]. rewrite Ht in Hx, Eq |- *. destruct l2; [by destruct Eq|done].
    + by rewrite lookup_delete_eq.
    + intros z [Hz _]%not_elem_of_cons. by rewrite lookup_delete_ne.
Qed.

(** Where the walk stands: behind the members [l1], before those of [l2]. *)
Lemma remove_loop_stands_for fuel next q l1 l2 target :
  stands_for next q (l1 ++ l2) → target ∉ l1 → length l2 ≤ fuel →
  ∃ next' q', wait_remove_loop fuel next q (last l1) (head l2) target = Some (bool_decide (target ∈ l2), next', q') ∧
    stands_for next' q' (l1 ++ without target l2) ∧
    (target ∈ l2 → next' !! target = None) ∧ ∀ x, x ∉ l1 ++ l2 → next' !! x = next !! x.
Proof.
  revert l1 l2. induction fuel as [|fuel IH]; intros l1 [|x l2] Hs Hn Hf; cbn [head wait_remove_loop];
    try (exists next, q; split; [done|]; split; [done|]; split; [by intros ?%not_elem_of_nil|done]); [cbn in Hf; lia|].
  pose proof Hs as [Hp _ Hd]. case_bool_decide as E.
  - subst x. pose proof (unlink_stands_for _ _ _ _ _ Hs) as Hu.
    destruct (unlink next q (last l1) target) as [next' q']. exists next', q'. destruct Hu as (Hs' & Hnone & Hsame).
    rewrite bool_decide_true by left. split; [done|]. split; [|done].
    assert (without target (target :: l2) = l2) as ->; [|done].
    apply NoDup_app in Hd as (_ & _ & Hd). exact (without_split target [] l2 Hd).
  - destruct (IH (l1 ++ [x]) l2) as (next' & q' & Hr & Hs' & Hnone & Hsame).
    + by rewrite <- app_assoc.
    + rewrite elem_of_app, list_elem_of_singleton. intros [?|?]; [done|by subst].
    + cbn in Hf. lia.
    + rewrite last_snoc in Hr. rewrite <- app_assoc in Hs', Hsame. exists next', q'. split_and!.
      * apply path_app in Hp as [Hp _].
        assert (next !! x = head l2) as -> by (destruct l2; cbn in *; [done|by destruct Hp]).
        rewrite Hr. do 3 f_equal. apply bool_decide_ext. rewrite elem_of_cons. naive_solver.
      * unfold without in *. rewrite filter_cons, decide_True by congruence. exact Hs'.
      * intros [->|?]%elem_of_cons; [done|]. by apply Hnone.
      * exact Hsame.
Qed.

(** The member that is removed is out of the list and has no successor; a target that is
    no member leaves the queue alone. *)
Lemma remove_stands_for fuel next q l target :
  stands_for next q l → length l ≤ fuel →
  ∃ next' q', wait_remove fuel next q target = Some (bool_decide (target ∈ l), next', q') ∧
    stands_for next' q' (without target l) ∧
    (target ∈ l → next' !! target = None) ∧ ∀ x, x ∉ l → next' !! x = next !! x.
Proof.
  intros Hs Hf. pose proof (remove_loop_stands_for fuel next q [] l target Hs (not_elem_of_nil _) Hf) as H.
  unfold wait_remove. assert (q_head q = head l) as ->; [|exact H].
  destruct Hs as [Hp _ _]. destruct l; cbn in Hp; [done|by destruct Hp].
Qed.

(** Lists that share no member do not see each other's changes. *)
Lemma stands_for_frame next next' q l :
  (∀ x, x ∈ l → next' !! x = next !! x) → stands_for next q l → stands_for next' q l.
Proof. intros H [Hp Ht Hd]. split; [|done|done]. by eapply path_agree. Qed.
