(* ===== verification/Tasks.v ===== *)
(** * Tasks of the runtime (runtime/src/task.c, runtime/src/task_internal.h)

    The state of the runtime that tasks and channels share, the operations on tasks, the
    executors' queues, and the mailbox, external source and hub of each thread, which open
    with its first task and close with its last.  Pointers are natural numbers; every
    object lives in a map from its address; the variables that C keeps per thread are
    the fields of the thread's [Executor] and [Home].  A call that panics ends the program: its
    outcome is [Panic].  [Undefined] is an access to an object that does not exist.  Locks
    and allocations do not fail. *)
From S2P Require Import Prelude Queue.
#[local] Open Scope N_scope.

Definition SIZE_MAX : N := 2 ^ 64 - 1.

(** [fdn_channel_status] and the kinds of wait, runtime.h and channel.c. *)
Definition FDN_CHANNEL_PENDING : N := 0.
Definition FDN_CHANNEL_READY : N := 1.
Definition FDN_CHANNEL_CLOSED : N := 2.
Definition FDN_CHANNEL_CANCELLED : N := 3.
Definition FDN_CHANNEL_TIMEOUT : N := 4.
Definition FDN_CHANNEL_WAIT_SEND : N := 1.
Definition FDN_CHANNEL_WAIT_RECEIVE : N := 2.
Definition FDN_CHANNEL_WAIT_SELECT : N := 3.
Definition FDN_CHANNEL_SELECT_EVENT : N := 5.
Definition FDN_CHANNEL_SELECT_SEND : N := 1.
Definition FDN_CHANNEL_SELECT_RECEIVE : N := 2.

(** The functions a task's [cancel_wait] points to. *)
Inductive CancelWait := fdn_channel_cancel_wait | fdn_channel_cancel_select.

(** [struct fdn_task], the fields that scheduling and channels use; [wait_next] is kept
    in [w_wait_next]. *)
Record Task := mkTask {
  waiter : option nat;
  waiting_on : option nat;
  wait_context : option nat;
  wait_value : option nat;
  cancel_wait : option CancelWait;
  wait_kind : N;
  wake_context : option nat;
  wake_kind : N;
  wake_status : N;
  executor : option nat;
  cancellation_requested : bool;
  wake_ready : bool;
  queued : bool;
  ready : bool;
}.

(** The value of a message: the bytes behind a pointer, [None] where there are none. *)
Record Channel (V : Type) := mkChannel {
  value_size : N;
  capacity : N;
  buffered : N;
  senders : N;
  receivers : N;
  holds : N;
  drops_value : bool;
  messages : list (option V);
  send_queue : Queue;
  receive_queue : Queue;
  selects : list (nat * nat);
}.
Arguments mkChannel {V}.
Arguments value_size {V}.
Arguments capacity {V}.
Arguments buffered {V}.
Arguments senders {V}.
Arguments receivers {V}.
Arguments holds {V}.
Arguments drops_value {V}.
Arguments messages {V}.
Arguments send_queue {V}.
Arguments receive_queue {V}.
Arguments selects {V}.

(** [fdn_channel_select_case]. *)
Record SelectCase := mkSelectCase {
  case_channel : option nat;
  case_value : option nat;
  case_kind : N;
}.

(** [fdn_channel_select_wait] with its entries: their operations, and for each the
    channel its registration is linked to.  A registration is named by the address of
    its wait and its index. *)
Record SelectWait := mkSelectWait {
  sw_task : nat;
  sw_context : nat;
  sw_deadline : N;
  sw_signaled : bool;
  sw_cases : list SelectCase;
  sw_registered : list (option nat);
}.

(** The variables of one thread: [fdn_task_queue_head] to the tail, [fdn_task_current]
    above the tasks it interrupted, the mailbox, [fdn_select_head] to the tail and
    whether the hooks of the select timer are set. *)
Record Executor := mkExecutor {
  e_queue : list nat;
  e_current : list nat;
  e_mailbox : list (nat * N);
  e_selects : list nat;
  e_timer : bool;
}.
Definition idleExecutor : Executor := mkExecutor [] [] [] [] false.

(** The other variables of one thread: [fdn_task_count]; [fdn_task_executor_current], the
    mailbox while it exists, with its [source]; that source while it exists, with its
    [hub]; and [fdn_task_external_current], the hub while it exists, with its [sources].
    A thread has one of each at a time: its mailbox, the mailbox's source and its hub are
    all named by the thread. *)
Record Home := mkHome {
  h_count : N;
  h_executor : option (option nat);
  h_source : option (option nat);
  h_hub : option (list nat);
}.
Definition closedHome : Home := mkHome 0 None None None.

(** [w_notified]: the hubs whose [notified] is set. *)
Record World (V : Type) := mkWorld {
  w_memory : gmap nat V;
  w_tasks : gmap nat Task;
  w_wait_next : Successors;
  w_channels : gmap nat (Channel V);
  w_waits : gmap nat SelectWait;
  w_executors : gmap nat Executor;
  w_channel_count : N;
  w_dropped : list (option V);
  w_homes : gmap nat Home;
  w_notified : gset nat;
}.
Arguments mkWorld {V}.
Arguments w_memory {V}.
Arguments w_tasks {V}.
Arguments w_wait_next {V}.
Arguments w_channels {V}.
Arguments w_waits {V}.
Arguments w_executors {V}.
Arguments w_channel_count {V}.
Arguments w_dropped {V}.
Arguments w_homes {V}.
Arguments w_notified {V}.

(** ** The effects of the runtime *)

Inductive Outcome (V A : Type) :=
| Done (result : A) (w : World V)
| Panic (message : string)
| Undefined.
Arguments Done {V A}.
Arguments Panic {V A}.
Arguments Undefined {V A}.

Definition R (V A : Type) : Type := World V → Outcome V A.

Section Effects.
Context {V : Type}.

#[export] Instance R_ret : MRet (R V) := λ A a w, Done a w.
#[export] Instance R_bind : MBind (R V) := λ A B f m w,
  match m w with Done a w' => f a w' | Panic message => Panic message | Undefined => Undefined end.

Definition panic {A} (message : string) : R V A := λ _, Panic message.
Definition undefined {A} : R V A := λ _, Undefined.
Definition get : R V (World V) := λ w, Done w w.
Definition modify (f : World V → World V) : R V unit := λ w, Done tt (f w).

Definition with_memory (f : gmap nat V → gmap nat V) (w : World V) : World V :=
  mkWorld (f (w_memory w)) (w_tasks w) (w_wait_next w) (w_channels w) (w_waits w) (w_executors w)
    (w_channel_count w) (w_dropped w) (w_homes w) (w_notified w).
Definition with_tasks (f : gmap nat Task → gmap nat Task) (w : World V) : World V :=
  mkWorld (w_memory w) (f (w_tasks w)) (w_wait_next w) (w_channels w) (w_waits w) (w_executors w)
    (w_channel_count w) (w_dropped w) (w_homes w) (w_notified w).
Definition with_wait_next (f : Successors → Successors) (w : World V) : World V :=
  mkWorld (w_memory w) (w_tasks w) (f (w_wait_next w)) (w_channels w) (w_waits w) (w_executors w)
    (w_channel_count w) (w_dropped w) (w_homes w) (w_notified w).
Definition with_channels (f : gmap nat (Channel V) → gmap nat (Channel V)) (w : World V) : World V :=
  mkWorld (w_memory w) (w_tasks w) (w_wait_next w) (f (w_channels w)) (w_waits w) (w_executors w)
    (w_channel_count w) (w_dropped w) (w_homes w) (w_notified w).
Definition with_waits (f : gmap nat SelectWait → gmap nat SelectWait) (w : World V) : World V :=
  mkWorld (w_memory w) (w_tasks w) (w_wait_next w) (w_channels w) (f (w_waits w)) (w_executors w)
    (w_channel_count w) (w_dropped w) (w_homes w) (w_notified w).
Definition with_executors (f : gmap nat Executor → gmap nat Executor) (w : World V) : World V :=
  mkWorld (w_memory w) (w_tasks w) (w_wait_next w) (w_channels w) (w_waits w) (f (w_executors w))
    (w_channel_count w) (w_dropped w) (w_homes w) (w_notified w).
Definition with_count (f : N → N) (w : World V) : World V :=
  mkWorld (w_memory w) (w_tasks w) (w_wait_next w) (w_channels w) (w_waits w) (w_executors w)
    (f (w_channel_count w)) (w_dropped w) (w_homes w) (w_notified w).
Definition with_dropped (f : list (option V) → list (option V)) (w : World V) : World V :=
  mkWorld (w_memory w) (w_tasks w) (w_wait_next w) (w_channels w) (w_waits w) (w_executors w)
    (w_channel_count w) (f (w_dropped w)) (w_homes w) (w_notified w).
Definition with_homes (f : gmap nat Home → gmap nat Home) (w : World V) : World V :=
  mkWorld (w_memory w) (w_tasks w) (w_wait_next w) (w_channels w) (w_waits w) (w_executors w)
    (w_channel_count w) (w_dropped w) (f (w_homes w)) (w_notified w).
Definition with_notified (f : gset nat → gset nat) (w : World V) : World V :=
  mkWorld (w_memory w) (w_tasks w) (w_wait_next w) (w_channels w) (w_waits w) (w_executors w)
    (w_channel_count w) (w_dropped w) (w_homes w) (f (w_notified w)).

Definition found {A} (o : option A) : R V A := match o with Some a => mret a | None => undefined end.
Definition get_task (task : nat) : R V Task := w ← get; found (w_tasks w !! task).
Definition set_task (task : nat) (k : Task) : R V unit := modify (with_tasks (insert task k)).
Definition get_executor (e : nat) : R V Executor := w ← get; mret (default idleExecutor (w_executors w !! e)).
Definition set_executor (e : nat) (x : Executor) : R V unit := modify (with_executors (insert e x)).
Definition get_home (e : nat) : R V Home := w ← get; mret (default closedHome (w_homes w !! e)).
Definition set_home (e : nat) (h : Home) : R V unit := modify (with_homes (insert e h)).

End Effects.

(** ** The fields an operation changes *)

Definition set_queued (b : bool) (k : Task) : Task :=
  mkTask (waiter k) (waiting_on k) (wait_context k) (wait_value k) (cancel_wait k) (wait_kind k) (wake_context k)
    (wake_kind k) (wake_status k) (executor k) (cancellation_requested k) (wake_ready k) b (ready k).
Definition set_ready (k : Task) : Task :=
  mkTask (waiter k) (waiting_on k) (wait_context k) (wait_value k) (cancel_wait k) (wait_kind k) (wake_context k)
    (wake_kind k) (wake_status k) (executor k) (cancellation_requested k) (wake_ready k) (queued k) true.
Definition set_waiter (t : option nat) (k : Task) : Task :=
  mkTask t (waiting_on k) (wait_context k) (wait_value k) (cancel_wait k) (wait_kind k) (wake_context k)
    (wake_kind k) (wake_status k) (executor k) (cancellation_requested k) (wake_ready k) (queued k) (ready k).
Definition set_waiting_on (t : option nat) (k : Task) : Task :=
  mkTask (waiter k) t (wait_context k) (wait_value k) (cancel_wait k) (wait_kind k) (wake_context k)
    (wake_kind k) (wake_status k) (executor k) (cancellation_requested k) (wake_ready k) (queued k) (ready k).
Definition set_cancellation_requested (k : Task) : Task :=
  mkTask (waiter k) (waiting_on k) (wait_context k) (wait_value k) (cancel_wait k) (wait_kind k) (wake_context k)
    (wake_kind k) (wake_status k) (executor k) true (wake_ready k) (queued k) (ready k).

Definition is_some {A} (o : option A) : bool := match o with Some _ => true | None => false end.

(** The first [x] taken out of a linked list, if it is there. *)
Fixpoint take_out {A} `{EqDecision A} (x : A) (l : list A) : option (list A) :=
  match l with
  | [] => None
  | y :: l => if bool_decide (y = x) then Some l else cons y <$> take_out x l
  end.

(** ** Operations of an executor *)

Section Operations.
Context {V : Type}.
(** The thread that runs the operation. *)
Variable here : nat.

(** [fdn_task_enqueue]. *)
Definition enqueue (task : nat) : R V unit :=
  k ← get_task task;
  if queued k || ready k then panic "invalid task enqueue" else
  _ ← set_task task (set_queued true k);
  x ← get_executor here;
  set_executor here (mkExecutor (e_queue x ++ [task]) (e_current x) (e_mailbox x) (e_selects x) (e_timer x)).

(** [fdn_task_dequeue]. *)
Definition dequeue : R V (option nat) :=
  x ← get_executor here;
  match e_queue x with
  | [] => mret None
  | task :: rest =>
      _ ← set_executor here (mkExecutor rest (e_current x) (e_mailbox x) (e_selects x) (e_timer x));
      k ← get_task task;
      _ ← set_task task (set_queued false k);
      mret (Some task)
  end.

(** *** Mailboxes and external sources *)

(** [fdn_task_external_source_open]: the source named [source] is put into the thread's hub,
    which is opened when there is none. *)
Definition external_source_open (source : nat) : R V nat :=
  h ← get_home here;
  _ ← match h_hub h with
      | Some _ => mret tt
      | None => modify (with_notified (λ notified, notified ∖ {[here]}))
      end;
  _ ← set_home here (mkHome (h_count h) (h_executor h) (h_source h) (Some (source :: default [] (h_hub h))));
  h ← get_home source;
  _ ← set_home source (mkHome (h_count h) (h_executor h) (Some (Some here)) (h_hub h));
  mret source.

(** [fdn_task_external_source_notify]; a source or a hub that was freed is not accessed. *)
Definition external_source_notify (source : option nat) : R V unit :=
  match source with
  | None => panic "invalid task external source notification"
  | Some source =>
      h ← get_home source;
      match h_source h with
      | None => undefined
      | Some None => panic "invalid task external source notification"
      | Some (Some hub) =>
          h ← get_home hub;
          match h_hub h with
          | None => undefined
          | Some _ => modify (with_notified (λ notified, {[hub]} ∪ notified))
          end
      end
  end.

(** [fdn_task_external_source_close]; the last source takes the hub with it. *)
Definition external_source_close (source : option nat) : R V unit :=
  match source with
  | None => panic "invalid task external source removal"
  | Some source =>
      h ← get_home source;
      match h_source h with
      | None => undefined
      | Some None => panic "invalid task external source removal"
      | Some (Some hub) =>
          h ← get_home here;
          if negb (is_some (h_hub h)) || bool_decide (hub ≠ here)
          then panic "task external source belongs to a different executor" else
          match take_out source (default [] (h_hub h)) with
          | None => panic "task external source was not registered"
          | Some sources =>
              _ ← set_home here
                (mkHome (h_count h) (h_executor h) (h_source h) (if bool_decide (sources = []) then None else Some sources));
              h ← get_home source;
              set_home source (mkHome (h_count h) (h_executor h) None (h_hub h))
          end
      end
  end.

(** [fdn_task_executor_current]. *)
Definition executor_current : R V (option nat) :=
  h ← get_home here; mret (if is_some (h_executor h) then Some here else None).

(** [fdn_task_executor_open]. *)
Definition executor_open : R V nat :=
  current ← executor_current;
  match current with
  | Some executor => mret executor
  | None =>
      x ← get_executor here;
      _ ← set_executor here (mkExecutor (e_queue x) (e_current x) [] (e_selects x) (e_timer x));
      h ← get_home here;
      _ ← set_home here (mkHome (h_count h) (Some None) (h_source h) (h_hub h));
      source ← external_source_open here;
      h ← get_home here;
      _ ← set_home here (mkHome (h_count h) (Some (Some source)) (h_source h) (h_hub h));
      mret here
  end.

(** [fdn_task_executor_close_if_idle]. *)
Definition executor_close_if_idle : R V unit :=
  h ← get_home here;
  match h_executor h with
  | None => mret tt
  | Some source =>
      if bool_decide (h_count h ≠ 0) then mret tt else
      x ← get_executor here;
      if bool_decide (e_mailbox x ≠ []) then panic "task executor mailbox closed with pending wakes" else
      _ ← external_source_close source;
      h ← get_home here;
      set_home here (mkHome (h_count h) None (h_source h) (h_hub h))
  end.

(** [fdn_task_current_get]. *)
Definition current_get : R V (option nat) := x ← get_executor here; mret (head (e_current x)).

(** [fdn_task_park_current]. *)
Definition park_current (context value : option nat) (kind : N) (cancel : CancelWait) : R V unit :=
  current ← current_get;
  match current, context with
  | Some task, Some _ =>
      k ← get_task task;
      if is_some (waiting_on k) || is_some (cancel_wait k) || wake_ready k
      then panic "task already has a wait source" else
      set_task task
        (mkTask (waiter k) (waiting_on k) context value (Some cancel) kind (wake_context k) (wake_kind k) (wake_status k)
           (executor k) (cancellation_requested k) (wake_ready k) (queued k) (ready k))
  | _, _ => panic "invalid task wait registration"
  end.

(** [fdn_task_take_wake]; [None] is the result [false]. *)
Definition take_wake (context : option nat) (kind : N) : R V (option N) :=
  current ← current_get;
  match current with
  | None => panic "invalid task wake read"
  | Some task =>
      k ← get_task task;
      if negb (wake_ready k) then mret None else
      if bool_decide (wake_context k ≠ context) || bool_decide (wake_kind k ≠ kind)
      then panic "task resumed for a different wait source" else
      _ ← set_task task
        (mkTask (waiter k) (waiting_on k) (wait_context k) (wait_value k) (cancel_wait k) (wait_kind k) None 0 0
           (executor k) (cancellation_requested k) false (queued k) (ready k));
      mret (Some (wake_status k))
  end.

(** [fdn_task_wake_local]. *)
Definition wake_local (task : nat) (status : N) : R V unit :=
  k ← get_task task;
  current ← executor_current;
  if negb (is_some (cancel_wait k)) || negb (is_some (wait_context k)) || bool_decide (executor k ≠ current) ||
     wake_ready k || queued k || ready k
  then panic "invalid task wake" else
  _ ← set_task task
    (mkTask (waiter k) (waiting_on k) None None None 0 (wait_context k) (wait_kind k) status
       (executor k) (cancellation_requested k) true (queued k) (ready k));
  _ ← modify (with_wait_next (delete task));
  enqueue task.

(** [fdn_task_wake]: the tasks of other executors are woken through their mailbox.  The
    wake is put into the mailbox under its lock, ... *)
Definition wake_push (executor task : nat) (status : N) : R V unit :=
  h ← get_home executor;
  if negb (is_some (h_executor h)) then undefined else
  x ← get_executor executor;
  set_executor executor (mkExecutor (e_queue x) (e_current x) (e_mailbox x ++ [(task, status)]) (e_selects x) (e_timer x)).
(** ... and behind the lock the mailbox's source is read and notified. *)
Definition wake_notify (executor : nat) : R V unit :=
  h ← get_home executor;
  match h_executor h with
  | None => undefined
  | Some source => external_source_notify source
  end.
Definition wake (task : nat) (status : N) : R V unit :=
  k ← get_task task;
  match executor k with
  | None => panic "invalid task wake target"
  | Some executor =>
      current ← executor_current;
      if bool_decide (Some executor = current) then wake_local task status else
      _ ← wake_push executor task status;
      wake_notify executor
  end.

(** [fdn_task_executor_drain]: whether a task was woken. *)
Fixpoint drain_wakes (executor_ : nat) (wakes : list (nat * N)) : R V unit :=
  match wakes with
  | [] => mret tt
  | (task, status) :: wakes =>
      k ← get_task task;
      if bool_decide (executor k ≠ Some executor_) then panic "task executor mailbox contains an invalid wake" else
      _ ← wake_local task status; drain_wakes executor_ wakes
  end.
Definition executor_drain (executor : nat) : R V bool :=
  current ← executor_current;
  if bool_decide (Some executor ≠ current) then panic "task executor mailbox belongs to a different executor" else
  x ← get_executor executor;
  _ ← set_executor executor (mkExecutor (e_queue x) (e_current x) [] (e_selects x) (e_timer x));
  _ ← drain_wakes executor (e_mailbox x);
  mret (match e_mailbox x with [] => false | _ => true end).

(** The external sources of [fdn_task_poll_idle_sources]: each is a mailbox's, which its
    name tells. *)
Fixpoint poll_sources (sources : list nat) (woke : bool) : R V bool :=
  match sources with
  | [] => mret woke
  | source :: sources => drained ← executor_drain source; poll_sources sources (drained || woke)
  end.
Definition poll_idle_sources : R V bool :=
  h ← get_home here;
  match h_hub h with
  | None => mret false
  | Some sources => poll_sources sources false
  end.

(** [fdn_task_external_wait], when it returns: the hub was notified or a deadline is over. *)
Definition external_wait : R V unit :=
  h ← get_home here;
  match h_hub h with
  | None => panic "task external wait has no source"
  | Some _ => modify (with_notified (λ notified, notified ∖ {[here]}))
  end.
(** The branch of [fdn_task_run_one] that waits for the hub and polls its sources. *)
Definition idle_wait : R V bool :=
  h ← get_home here;
  if negb (is_some (h_hub h)) then mret false else
  _ ← external_wait; poll_idle_sources.

(** [fdn_task_request_cancellation], with the functions that [cancel_wait] points to.
    The walk marks a task that was not marked, at most once for every task. *)
Fixpoint request_cancellation (cancel_function : CancelWait → nat → option nat → R V unit) (fuel : nat)
    (task : option nat) : R V unit :=
  match task, fuel with
  | None, _ => mret tt
  | Some _, O => undefined
  | Some task, S fuel =>
      k ← get_task task;
      if cancellation_requested k then mret tt else
      _ ← set_task task (set_cancellation_requested k);
      _ ← match cancel_wait k with
          | None => mret tt
          | Some cancel =>
              if is_some (waiting_on k) then panic "task has multiple wait sources"
              else cancel_function cancel task (wait_context k)
          end;
      k ← get_task task;
      request_cancellation cancel_function fuel (waiting_on k)
  end.

(** [fdn_task_wake_waiter]. *)
Definition wake_waiter (task : nat) : R V unit :=
  k ← get_task task;
  match waiter k with
  | None => mret tt
  | Some w =>
      kw ← get_task w;
      if bool_decide (waiting_on kw ≠ Some task) then panic "invalid task waiter" else
      _ ← set_task task (set_waiter None k);
      kw ← get_task w;
      _ ← set_task w (set_waiting_on None kw);
      enqueue w
  end.

(** [fdn_task_run_one] from a task that was taken off the queue to its poll: the task
    becomes the current one. *)
Definition run_start : R V (option nat) :=
  task ← dequeue;
  match task with
  | None => mret None
  | Some task =>
      x ← get_executor here;
      _ ← set_executor here (mkExecutor (e_queue x) (task :: e_current x) (e_mailbox x) (e_selects x) (e_timer x));
      mret (Some task)
  end.

(** The rest of [fdn_task_run_one], behind the poll: [result] says whether the task is
    ready. *)
Definition run_finish (result : bool) : R V unit :=
  x ← get_executor here;
  match e_current x with
  | [] => undefined
  | task :: previous =>
      _ ← set_executor here (mkExecutor (e_queue x) previous (e_mailbox x) (e_selects x) (e_timer x));
      k ← get_task task;
      if result then
        if is_some (waiting_on k) then panic "ready task still waits on a child" else
        _ ← set_task task (set_ready k);
        wake_waiter task
      else if negb (is_some (waiting_on k)) && negb (is_some (cancel_wait k)) then enqueue task
      else mret tt
  end.

(** [fdn_task_count] changes by one; a [size_t] wraps around. *)
Definition count_task (f : N → N) : R V unit :=
  h ← get_home here;
  set_home here (mkHome (f (h_count h)) (h_executor h) (h_source h) (h_hub h)).

(** [fdn_task_spawn]; [address] is where the task is allocated. *)
Definition spawn (address : nat) : R V nat :=
  executor ← executor_open;
  _ ← set_task address (mkTask None None None None None 0 None 0 0 (Some executor) false false false false);
  _ ← count_task (λ n, (n + 1) mod 2 ^ 64);
  _ ← enqueue address;
  mret address.

(** [fdn_task_release] without the frame's callbacks. *)
Definition release (task : nat) : R V unit :=
  k ← get_task task;
  w ← get;
  if negb (ready k) || is_some (waiter k) || is_some (waiting_on k) || is_some (cancel_wait k) ||
     is_some (w_wait_next w !! task) || wake_ready k
  then panic "cannot release an incomplete task" else
  _ ← modify (with_tasks (delete task));
  _ ← count_task (λ n, (n + (2 ^ 64 - 1)) mod 2 ^ 64);
  executor_close_if_idle.

(** [fdn_task_poll_wait]. *)
Definition poll_wait (cancel_function : CancelWait → nat → option nat → R V unit) (fuel : nat) (task : option nat) : R V bool :=
  current ← current_get;
  match current, task with
  | None, _ => panic "task poll wait requires an active task"
  | _, None => panic "task handle was already consumed"
  | Some current, Some owned =>
      if bool_decide (owned = current) then panic "task cannot wait on itself" else
      ko ← get_task owned;
      kc ← get_task current;
      let blocked := is_some (waiting_on kc) || is_some (cancel_wait kc) || is_some (waiter ko) in
      if ready ko then
        if blocked then panic "invalid completed task waiter" else
        _ ← release owned; mret true
      else
        if blocked then panic "task already has a waiter" else
        _ ← if cancellation_requested kc then request_cancellation cancel_function fuel (Some owned) else mret tt;
        kc ← get_task current;
        _ ← set_task current (set_waiting_on (Some owned) kc);
        ko ← get_task owned;
        _ ← set_task owned (set_waiter (Some current) ko);
        mret false
  end.

End Operations.
