(* ===== verification/Channel.v ===== *)
(** * Channels of the runtime (runtime/src/channel.c)

    Every function of the file except the locks themselves, the timer's sleep and the
    live count.  A call runs as one step: the sections of a call that hold no lock use
    objects of the calling thread only, [fdn_channel_drop_receiver] apart, whose three
    sections are operations of their own. *)
From S2P Require Import Prelude Queue Tasks.
#[local] Open Scope N_scope.

Definition UINT_MAX : N := 2 ^ 32 - 1.
(** The size of a message without its value. *)
Definition message_header : N := 8.

(** [fdn_channel_select_encode]; [None] is the panic. *)
Definition select_encode (selected status : N) : option N :=
  if N.shiftr UINT_MAX 8 <=? selected then None
  else Some (N.lor status (N.land (N.shiftl (selected + 1) 8) UINT_MAX)).
(** The reading of [fdn_channel_poll_select]. *)
Definition select_status (wake : N) : N := N.land wake 255.
Definition select_selected (wake : N) : N := N.shiftr wake 8.

(** The queue of a channel that a task waits in. *)
Inductive Side := Send | Receive.
#[export] Instance Side_eq_dec : EqDecision Side.
Proof. solve_decision. Defined.
Definition side_kind (s : Side) : N := match s with Send => FDN_CHANNEL_WAIT_SEND | Receive => FDN_CHANNEL_WAIT_RECEIVE end.

Section Channels.
Context {V : Type}.
Variable here : nat.

Definition side_queue (s : Side) (ch : Channel V) : Queue :=
  match s with Send => send_queue ch | Receive => receive_queue ch end.
Definition set_side_queue (s : Side) (q : Queue) (ch : Channel V) : Channel V :=
  mkChannel (value_size ch) (capacity ch) (buffered ch) (senders ch) (receivers ch) (holds ch) (drops_value ch) (messages ch)
    (match s with Send => q | Receive => send_queue ch end)
    (match s with Send => receive_queue ch | Receive => q end) (selects ch).
Definition set_messages (b : N) (l : list (option V)) (ch : Channel V) : Channel V :=
  mkChannel (value_size ch) (capacity ch) b (senders ch) (receivers ch) (holds ch) (drops_value ch) l
    (send_queue ch) (receive_queue ch) (selects ch).
Definition set_counts (s r h : N) (ch : Channel V) : Channel V :=
  mkChannel (value_size ch) (capacity ch) (buffered ch) s r h (drops_value ch) (messages ch)
    (send_queue ch) (receive_queue ch) (selects ch).
Definition set_selects (l : list (nat * nat)) (ch : Channel V) : Channel V :=
  mkChannel (value_size ch) (capacity ch) (buffered ch) (senders ch) (receivers ch) (holds ch) (drops_value ch) (messages ch)
    (send_queue ch) (receive_queue ch) l.

Definition get_channel (c : nat) : R V (Channel V) := w ← get; found (w_channels w !! c).
Definition set_channel (c : nat) (ch : Channel V) : R V unit := modify (with_channels (insert c ch)).
Definition get_wait (wait : nat) : R V SelectWait := w ← get; found (w_waits w !! wait).
Definition set_wait (wait : nat) (sw : SelectWait) : R V unit := modify (with_waits (insert wait sw)).

(** ** Waiting tasks *)

Definition push_waiting (s : Side) (c task : nat) : R V unit :=
  ch ← get_channel c;
  w ← get;
  match wait_push (w_wait_next w) (side_queue s ch) task with
  | None => panic "task is already in a channel wait queue"
  | Some (next, q) => _ ← modify (with_wait_next (λ _, next)); set_channel c (set_side_queue s q ch)
  end.

Definition pop_waiting (s : Side) (c : nat) : R V (option nat) :=
  ch ← get_channel c;
  w ← get;
  let '(task, next, q) := wait_pop (w_wait_next w) (side_queue s ch) in
  _ ← modify (with_wait_next (λ _, next));
  _ ← set_channel c (set_side_queue s q ch);
  mret task.

(** The walk visits no task twice: as many rounds as there are tasks are enough. *)
Definition remove_waiting (s : Side) (c task : nat) : R V bool :=
  ch ← get_channel c;
  w ← get;
  match wait_remove (size (w_tasks w)) (w_wait_next w) (side_queue s ch) task with
  | None => undefined
  | Some (removed, next, q) =>
      _ ← modify (with_wait_next (λ _, next));
      _ ← set_channel c (set_side_queue s q ch);
      mret removed
  end.

(** [fdn_channel_wake_all], by the number of tasks. *)
Fixpoint wake_all (fuel : nat) (s : Side) (c : nat) (status : N) : R V unit :=
  task ← pop_waiting s c;
  match task, fuel with
  | None, _ => mret tt
  | Some _, O => undefined
  | Some task, S fuel => _ ← wake here task status; wake_all fuel s c status
  end.

(** ** Values *)

(** [fdn_channel_copy] between two values of tasks, into a message and out of one. *)
Definition channel_copy (ch : Channel V) (target source : option nat) : R V unit :=
  if value_size ch =? 0 then mret tt else
  match target, source with
  | Some target, Some source => modify (with_memory (λ m, partial_alter (λ _, m !! source) target m))
  | _, _ => panic "channel value is null"
  end.
Definition copy_in (ch : Channel V) (source : option nat) : R V (option V) :=
  if value_size ch =? 0 then mret None else
  match source with
  | Some source => w ← get; mret (w_memory w !! source)
  | None => panic "channel value is null"
  end.
Definition copy_out (ch : Channel V) (target : option nat) (message : option V) : R V unit :=
  if value_size ch =? 0 then mret tt else
  match target with
  | Some target => modify (with_memory (partial_alter (λ _, message) target))
  | None => panic "channel value is null"
  end.

(** [fdn_channel_drop_messages] *)
Definition drop_messages (c : nat) (l : list (option V)) : R V unit :=
  ch ← get_channel c;
  if drops_value ch then modify (with_dropped (λ dropped, dropped ++ l)) else mret tt.

(** ** Select registrations *)

(** [fdn_channel_select_claim]. *)
Definition select_claim (wait : nat) : R V bool :=
  sw ← get_wait wait;
  if sw_signaled sw then mret false else
  _ ← set_wait wait (mkSelectWait (sw_task sw) (sw_context sw) (sw_deadline sw) true (sw_cases sw) (sw_registered sw));
  mret true.

(** [fdn_channel_select_find]. *)
Fixpoint find_wait (waits : list nat) (task context : nat) : R V (option nat) :=
  match waits with
  | [] => mret None
  | wait :: waits =>
      sw ← get_wait wait;
      if bool_decide (sw_task sw = task) && bool_decide (sw_context sw = context) then mret (Some wait)
      else find_wait waits task context
  end.
Definition select_find (task context : nat) : R V (option nat) :=
  x ← get_executor here; find_wait (e_selects x) task context.

(** [fdn_channel_select_remove]. *)
Definition remove_first (x : nat) (l : list nat) : list nat := default l (take_out x l).
Definition select_remove (task context : nat) : R V (option nat) :=
  x ← get_executor here;
  wait ← find_wait (e_selects x) task context;
  match wait with
  | None => mret None
  | Some wait =>
      _ ← set_executor here
        (mkExecutor (e_queue x) (e_current x) (e_mailbox x) (remove_first wait (e_selects x)) (e_timer x));
      mret (Some wait)
  end.

(** [fdn_channel_select_unlink_locked]. *)
Definition select_unlink (c wait index : nat) : R V unit :=
  ch ← get_channel c;
  match take_out (wait, index) (selects ch) with
  | None => panic "channel select registration is missing"
  | Some l =>
      _ ← set_channel c (set_selects l ch);
      sw ← get_wait wait;
      set_wait wait (mkSelectWait (sw_task sw) (sw_context sw) (sw_deadline sw) (sw_signaled sw) (sw_cases sw)
        (<[index := None]> (sw_registered sw)))
  end.

(** [fdn_channel_select_unregister], from [index] on; [count] entries are left. *)
Fixpoint unregister_from (wait index count : nat) : R V unit :=
  match count with
  | O => mret tt
  | S count =>
      sw ← get_wait wait;
      _ ← match sw_registered sw !! index with
          | Some (Some c) => select_unlink c wait index
          | _ => mret tt
          end;
      unregister_from wait (S index) count
  end.
(** [fdn_channel_select_destroy]. *)
Definition select_destroy (wait : nat) : R V unit :=
  sw ← get_wait wait;
  _ ← unregister_from wait 0 (length (sw_cases sw));
  modify (with_waits (delete wait)).

(** [fdn_channel_select_signal_locked]: the loop over the registrations. *)
Fixpoint signal_all (l : list (nat * nat)) : R V unit :=
  match l with
  | [] => mret tt
  | (wait, _) :: l =>
      sw ← get_wait wait;
      claimed ← select_claim wait;
      _ ← if claimed : bool then wake here (sw_task sw) FDN_CHANNEL_SELECT_EVENT else mret tt;
      signal_all l
  end.
Definition select_signal (c : nat) : R V unit := ch ← get_channel c; signal_all (selects ch).

(** The first case of a wait that is on the channel and of the kind. *)
Definition is_case (c : nat) (kind : N) (case : SelectCase) : Prop := case_channel case = Some c ∧ case_kind case = kind.
#[export] Instance is_case_dec c kind case : Decision (is_case c kind case) := _.

(** [fdn_channel_select_match_locked]: the loop over the registrations.  The inner loop
    stops at the first case that fits, whether or not the wait can be claimed. *)
Fixpoint match_all (c : nat) (kind : N) (value : option nat) (l : list (nat * nat)) : R V bool :=
  match l with
  | [] => mret false
  | (wait, _) :: l =>
      sw ← get_wait wait;
      match list_find (is_case c kind) (sw_cases sw) with
      | None => match_all c kind value l
      | Some (index, candidate) =>
          claimed ← select_claim wait;
          if negb claimed then match_all c kind value l else
          ch ← get_channel c;
          _ ← if kind =? FDN_CHANNEL_SELECT_RECEIVE then channel_copy ch (case_value candidate) value
              else channel_copy ch value (case_value candidate);
          match select_encode (N.of_nat index) FDN_CHANNEL_READY with
          | None => panic "channel select has too many cases"
          | Some status => _ ← wake here (sw_task sw) status; mret true
          end
      end
  end.
Definition select_match (c : nat) (kind : N) (value : option nat) : R V bool :=
  ch ← get_channel c; match_all c kind value (selects ch).

(** ** Cancellation *)

Definition channel_cancel_wait (task c : nat) : R V unit :=
  k ← get_task task;
  removed ← (if wait_kind k =? FDN_CHANNEL_WAIT_SEND then remove_waiting Send c task
             else if wait_kind k =? FDN_CHANNEL_WAIT_RECEIVE then remove_waiting Receive c task
             else panic "invalid channel wait kind");
  if removed : bool then wake here task FDN_CHANNEL_CANCELLED else mret tt.

Definition channel_cancel_select (task context : nat) : R V unit :=
  wait ← select_find task context;
  match wait with
  | None => panic "channel select waiter is missing"
  | Some wait =>
      claimed ← select_claim wait;
      if claimed : bool then wake here task FDN_CHANNEL_CANCELLED else mret tt
  end.

(** What [cancel_wait] points to. *)
Definition cancel_function (cancel : CancelWait) (task : nat) (context : option nat) : R V unit :=
  match context with
  | None => undefined
  | Some context =>
      match cancel with
      | fdn_channel_cancel_wait => channel_cancel_wait task context
      | fdn_channel_cancel_select => channel_cancel_select task context
      end
  end.
Definition cancel_task (task : nat) : R V unit :=
  w ← get; request_cancellation cancel_function (S (size (w_tasks w))) (Some task).

(** ** Endpoints *)

(** [fdn_channel_unused_locked]. *)
Definition unused (c : nat) : R V bool :=
  ch ← get_channel c;
  if negb (senders ch =? 0) || negb (receivers ch =? 0) || negb (holds ch =? 0) then mret false else
  if bool_decide (messages ch ≠ []) || is_some (q_head (send_queue ch)) || is_some (q_head (receive_queue ch)) ||
     bool_decide (selects ch ≠ [])
  then panic "unused channel still owns state" else mret true.

(** [fdn_channel_destroy]. *)
Definition channel_destroy (c : nat) : R V unit :=
  w ← get;
  _ ← modify (with_count (λ n, (n + SIZE_MAX) mod 2 ^ 64));
  if w_channel_count w =? 0 then panic "channel count underflow" else
  modify (with_channels (delete c)).

(** [fdn_channel_open]; [address] is where the channel is allocated. *)
Definition channel_open (size cap : N) (drops : bool) (address : nat) : R V nat :=
  _ ← set_channel address (mkChannel size cap 0 1 1 0 drops [] emptyQueue emptyQueue []);
  w ← get;
  _ ← modify (with_count (λ n, (n + 1) mod 2 ^ 64));
  if w_channel_count w =? SIZE_MAX then panic "channel count overflow" else
  mret address.

Definition clone_sender (c : nat) : R V nat :=
  ch ← get_channel c;
  if (senders ch =? 0) || (senders ch =? SIZE_MAX) then panic "invalid channel sender clone" else
  _ ← set_channel c (set_counts (senders ch + 1) (receivers ch) (holds ch) ch);
  mret c.
Definition clone_receiver (c : nat) : R V nat :=
  ch ← get_channel c;
  if (receivers ch =? 0) || (receivers ch =? SIZE_MAX) then panic "invalid channel receiver clone" else
  _ ← set_channel c (set_counts (senders ch) (receivers ch + 1) (holds ch) ch);
  mret c.

Definition drop_sender (c : nat) : R V unit :=
  ch ← get_channel c;
  if senders ch =? 0 then panic "channel sender count underflow" else
  _ ← set_channel c (set_counts (senders ch - 1) (receivers ch) (holds ch) ch);
  _ ← (if senders ch - 1 =? 0 then
         w ← get;
         _ ← wake_all (size (w_tasks w)) Receive c FDN_CHANNEL_CLOSED;
         select_signal c
       else mret tt);
  destroy ← unused c;
  if destroy : bool then channel_destroy c else mret tt.

(** [fdn_channel_drop_receiver], its first section: the messages that are left, with the
    channel held for them. *)
Definition drop_receiver_close (c : nat) : R V (list (option V)) :=
  ch ← get_channel c;
  if receivers ch =? 0 then panic "channel receiver count underflow" else
  _ ← set_channel c (set_counts (senders ch) (receivers ch - 1) (holds ch) ch);
  l ← (if receivers ch - 1 =? 0 then
         ch ← get_channel c;
         _ ← set_channel c (set_messages 0 [] ch);
         _ ← (if bool_decide (messages ch ≠ []) then
                ch ← get_channel c;
                set_channel c (set_counts (senders ch) (receivers ch) ((holds ch + 1) mod 2 ^ 64) ch)
              else mret tt);
         w ← get;
         _ ← wake_all (size (w_tasks w)) Send c FDN_CHANNEL_CLOSED;
         _ ← select_signal c;
         mret (messages ch)
       else mret []);
  destroy ← unused c;
  _ ← (if (destroy : bool) && bool_decide (l = []) then channel_destroy c else mret tt);
  mret l.
(** Its second and third section: the messages are dropped, the channel is let go. *)
Definition drop_receiver_release (c : nat) : R V unit :=
  ch ← get_channel c;
  if holds ch =? 0 then panic "channel hold count underflow" else
  _ ← set_channel c (set_counts (senders ch) (receivers ch) (holds ch - 1) ch);
  destroy ← unused c;
  if destroy : bool then channel_destroy c else mret tt.
Definition drop_receiver (c : nat) : R V unit :=
  l ← drop_receiver_close c;
  if bool_decide (l = []) then mret tt else _ ← drop_messages c l; drop_receiver_release c.

(** ** Sending and receiving *)

(** [fdn_channel_buffer_push]. *)
Definition buffer_push (c : nat) (value : option nat) : R V unit :=
  ch ← get_channel c;
  if SIZE_MAX - message_header <? value_size ch then panic "channel value size overflow" else
  message ← copy_in ch value;
  _ ← set_channel c (set_messages ((buffered ch + 1) mod 2 ^ 64) (messages ch ++ [message]) ch);
  select_signal c.

(** [fdn_channel_fill_buffer_from_sender]. *)
Definition fill_buffer_from_sender (c : nat) : R V unit :=
  ch ← get_channel c;
  if (capacity ch <=? buffered ch) || (receivers ch =? 0) then mret tt else
  sender ← pop_waiting Send c;
  match sender with
  | None => mret tt
  | Some sender =>
      k ← get_task sender;
      _ ← buffer_push c (wait_value k);
      wake here sender FDN_CHANNEL_READY
  end.

(** [fdn_channel_try_send_locked] behind its checks: [fdn_channel_poll_send] has the
    same lines.  [None] is [FDN_CHANNEL_PENDING]. *)
Definition send_locked (c : nat) (value : option nat) : R V (option N) :=
  ch ← get_channel c;
  if receivers ch =? 0 then mret (Some FDN_CHANNEL_CLOSED) else
  receiver ← pop_waiting Receive c;
  match receiver with
  | Some receiver =>
      k ← get_task receiver;
      _ ← channel_copy ch (wait_value k) value;
      _ ← wake here receiver FDN_CHANNEL_READY;
      mret (Some FDN_CHANNEL_READY)
  | None =>
      matched ← select_match c FDN_CHANNEL_SELECT_RECEIVE value;
      if matched : bool then mret (Some FDN_CHANNEL_READY) else
      ch ← get_channel c;
      if buffered ch <? capacity ch then _ ← buffer_push c value; mret (Some FDN_CHANNEL_READY)
      else mret None
  end.

(** [fdn_channel_try_receive_locked] behind its checks. *)
Definition receive_locked (c : nat) (value : option nat) : R V (option N) :=
  ch ← get_channel c;
  match messages ch with
  | message :: rest =>
      _ ← set_channel c (set_messages ((buffered ch + SIZE_MAX) mod 2 ^ 64) rest ch);
      _ ← copy_out ch value message;
      _ ← fill_buffer_from_sender c;
      _ ← select_signal c;
      mret (Some FDN_CHANNEL_READY)
  | [] =>
      sender ← pop_waiting Send c;
      match sender with
      | Some sender =>
          k ← get_task sender;
          _ ← channel_copy ch value (wait_value k);
          _ ← wake here sender FDN_CHANNEL_READY;
          mret (Some FDN_CHANNEL_READY)
      | None =>
          matched ← select_match c FDN_CHANNEL_SELECT_SEND value;
          if matched : bool then mret (Some FDN_CHANNEL_READY) else
          ch ← get_channel c;
          if senders ch =? 0 then mret (Some FDN_CHANNEL_CLOSED) else mret None
      end
  end.

(** The locked section of [fdn_channel_poll_send] and [fdn_channel_poll_receive], with
    the attempt that succeeds at once or leaves the task to wait. *)
Definition poll_locked (s : Side) (attempt : R V (option N)) (current c : nat) (value : option nat) : R V N :=
  k ← get_task current;
  if cancellation_requested k then mret FDN_CHANNEL_CANCELLED else
  status ← attempt;
  match status with
  | Some status => mret status
  | None =>
      _ ← park_current here (Some c) value (side_kind s) fdn_channel_cancel_wait;
      _ ← push_waiting s c current;
      _ ← select_signal c;
      mret FDN_CHANNEL_PENDING
  end.

(** [fdn_channel_poll_send]. *)
Definition poll_send (sender : option nat) (value : option nat) : R V N :=
  match sender with
  | None => panic "invalid channel sender"
  | Some c =>
      current ← current_get here;
      match current with
      | None => panic "channel send requires an active task"
      | Some current =>
          woken ← take_wake here (Some c) FDN_CHANNEL_WAIT_SEND;
          match woken with
          | Some status => mret status
          | None =>
              ch ← get_channel c;
              if senders ch =? 0 then panic "invalid channel sender" else
              poll_locked Send (send_locked c value) current c value
          end
      end
  end.

(** [fdn_channel_poll_receive]. *)
Definition poll_receive (receiver : option nat) (value : option nat) : R V N :=
  match receiver with
  | None => panic "invalid channel receiver"
  | Some c =>
      current ← current_get here;
      match current with
      | None => panic "channel receive requires an active task"
      | Some current =>
          woken ← take_wake here (Some c) FDN_CHANNEL_WAIT_RECEIVE;
          match woken with
          | Some status => mret status
          | None =>
              ch ← get_channel c;
              if receivers ch =? 0 then panic "invalid channel receiver" else
              poll_locked Receive (receive_locked c value) current c value
          end
      end
  end.

(** ** Select *)

(** [fdn_channel_try_send_locked] and [fdn_channel_try_receive_locked] on one case. *)
Definition try_case (case : SelectCase) : R V (option N) :=
  match case_channel case with
  | None => panic "invalid channel endpoint in select"
  | Some c =>
      if case_kind case =? FDN_CHANNEL_SELECT_SEND then
        ch ← get_channel c;
        if senders ch =? 0 then panic "invalid channel sender in select" else send_locked c (case_value case)
      else if case_kind case =? FDN_CHANNEL_SELECT_RECEIVE then
        ch ← get_channel c;
        if receivers ch =? 0 then panic "invalid channel receiver in select" else receive_locked c (case_value case)
      else panic "invalid channel select case"
  end.

(** The loop over the cases: the index of the first that is not pending, with its
    status. *)
Fixpoint try_cases (index : nat) (cases : list SelectCase) : R V (option (nat * N)) :=
  match cases with
  | [] => mret None
  | case :: cases =>
      status ← try_case case;
      match status with
      | Some status => mret (Some (index, status))
      | None => try_cases (S index) cases
      end
  end.

(** [fdn_channel_select_lock_cases]: the channels of the cases, each once, by address. *)
Fixpoint insert_channel (c : nat) (channels : list nat) : list nat :=
  match channels with
  | [] => [c]
  | d :: rest => if bool_decide (c < d)%nat then c :: d :: rest else d :: insert_channel c rest
  end.
Fixpoint lock_cases (channels : list nat) (cases : list SelectCase) : option (list nat) :=
  match cases with
  | [] => Some channels
  | case :: cases =>
      match case_channel case with
      | None => None
      | Some c => lock_cases (if bool_decide (c ∈ channels) then channels else insert_channel c channels) cases
      end
  end.

(** [fdn_channel_select_register_locked]: the channel an entry registers with is the one
    of its case, unless an entry before it has the same. *)
Definition registrations (cases : list SelectCase) : list (option nat) :=
  imap (λ index case, if existsb (λ previous, bool_decide (case_channel previous = case_channel case)) (take index cases)
                      then None else case_channel case) cases.
Fixpoint register_all (wait index : nat) (registered : list (option nat)) : R V unit :=
  match registered with
  | [] => mret tt
  | None :: registered => register_all wait (S index) registered
  | Some c :: registered =>
      ch ← get_channel c;
      _ ← set_channel c (set_selects (selects ch ++ [(wait, index)]) ch);
      register_all wait (S index) registered
  end.

(** The part of [fdn_channel_poll_select] that removes the wait of a select that was
    woken; [None] when the select has to look at its cases. *)
Definition select_resume (current context : nat) : R V (option (N * option nat)) :=
  woken ← take_wake here (Some context) FDN_CHANNEL_WAIT_SELECT;
  match woken with
  | None => mret None
  | Some wake =>
      wait ← select_remove current context;
      match wait with
      | None => panic "channel select resumed without a waiter"
      | Some wait =>
          _ ← select_destroy wait;
          if select_status wake =? FDN_CHANNEL_SELECT_EVENT then mret None else
          mret (Some (select_status wake,
                      if select_selected wake =? 0 then None else Some (N.to_nat (select_selected wake - 1))))
      end
  end.

(** The part that waits; [address] is where the wait is allocated. *)
Definition select_park (current context : nat) (cases : list SelectCase) (deadline : N) (address : nat) : R V unit :=
  _ ← set_wait address (mkSelectWait current context deadline false cases (registrations cases));
  _ ← park_current here (Some context) None FDN_CHANNEL_WAIT_SELECT fdn_channel_cancel_select;
  _ ← register_all address 0 (registrations cases);
  x ← get_executor here;
  set_executor here (mkExecutor (e_queue x) (e_current x) (e_mailbox x) (e_selects x ++ [address]) (e_timer x)).

(** [fdn_channel_poll_select] at the time [now]: the status and the selected case. *)
Definition poll_select (context : option nat) (cases : list SelectCase) (deadline now : N) (address : nat)
    : R V (N * option nat) :=
  current ← current_get here;
  match current, context with
  | Some current, Some context =>
      if bool_decide (cases = []) then panic "invalid channel select" else
      x ← get_executor here;
      _ ← set_executor here (mkExecutor (e_queue x) (e_current x) (e_mailbox x) (e_selects x) true);
      if N.shiftr UINT_MAX 8 <=? N.of_nat (length cases) then panic "channel select has too many cases" else
      resumed ← select_resume current context;
      match resumed with
      | Some result => mret result
      | None =>
          k ← get_task current;
          if cancellation_requested k then mret (FDN_CHANNEL_CANCELLED, None) else
          match lock_cases [] cases with
          | None => panic "channel select contains a null endpoint"
          | Some _ =>
              result ← try_cases 0 cases;
              match result with
              | Some (index, status) => mret (status, Some index)
              | None =>
                  if deadline <=? now then mret (FDN_CHANNEL_TIMEOUT, None) else
                  _ ← select_park current context cases deadline address;
                  mret (FDN_CHANNEL_PENDING, None)
              end
          end
      end
  | _, _ => panic "invalid channel select"
  end.

(** ** The timer *)

(** [fdn_channel_select_wake_expired] at the time [now]. *)
Fixpoint wake_expired_from (now : N) (waits : list nat) : R V bool :=
  match waits with
  | [] => mret false
  | wait :: waits =>
      sw ← get_wait wait;
      woke ← (if negb (sw_signaled sw) && (sw_deadline sw <=? now) then
                claimed ← select_claim wait;
                if claimed : bool then _ ← wake here (sw_task sw) FDN_CHANNEL_TIMEOUT; mret true else mret false
              else mret false);
      woke' ← wake_expired_from now waits;
      mret (woke || woke')
  end.
Definition wake_expired (now : N) : R V bool := x ← get_executor here; wake_expired_from now (e_selects x).

(** [fdn_channel_select_next_deadline]. *)
Fixpoint next_deadline_from (waits : list nat) (best : option N) : R V (option N) :=
  match waits with
  | [] => mret best
  | wait :: waits =>
      sw ← get_wait wait;
      next_deadline_from waits
        (if negb (sw_signaled sw) && match best with None => true | Some b => sw_deadline sw <? b end
         then Some (sw_deadline sw) else best)
  end.
Definition next_deadline : R V (option N) := x ← get_executor here; next_deadline_from (e_selects x) None.

End Channels.
