(* ===== verification/RuntimeInvariant.v ===== *)
(** * The invariant of tasks and channels

    Where every task is ([Phase]), which tasks each queue of a channel stands for, and
    how the fields of tasks, executors, channels and select waits agree with that; what a
    thread has open while tasks live on it.
    [Core] is the part that every piece of a call keeps; [quiet] is the part that holds
    between calls: no task waits for something that is there. *)
From S2P Require Import Prelude Queue Tasks Channel.

#[export] Instance Side_countable : Countable Side :=
  inj_countable' (λ s, match s with Send => true | Receive => false end) (λ b, if b : bool then Send else Receive)
    ltac:(by intros []).

(** The places a task can be: in its executor's queue; being polled; in a queue of a
    channel; in a select that nothing woke; woken by another executor; taken out of a
    queue or a select by a call that is about to wake it; waiting for a child; done. *)
Inductive Phase :=
| Queued
| Running
| Waiting (c : nat) (s : Side)
| Selecting (wait : nat)
| Mailed
| Popped
| Joining (child : nat)
| Finished.
#[export] Instance Phase_eq_dec : EqDecision Phase.
Proof. solve_decision. Defined.

Record Ghost := mkGhost {
  g_phase : gmap nat Phase;
  g_queue : gmap (nat * Side) (list nat);
}.
Definition phase (g : Ghost) (t : nat) : option Phase := g_phase g !! t.
(** The tasks in a queue of a channel, the one that waits longest first. *)
Definition gq (g : Ghost) (c : nat) (s : Side) : list nat := default [] (g_queue g !! (c, s)).
Definition set_phase (t : nat) (p : Phase) (g : Ghost) : Ghost := mkGhost (<[t := p]> (g_phase g)) (g_queue g).
Definition set_gq (c : nat) (s : Side) (l : list nat) (g : Ghost) : Ghost :=
  mkGhost (g_phase g) (<[(c, s) := l]> (g_queue g)).

Section Invariant.
Context {V : Type}.
Implicit Types (w : World V) (g : Ghost) (k : Task) (ch : Channel V).

Definition exec w (e : nat) : Executor := default idleExecutor (w_executors w !! e).
Definition owner w (t : nat) : option nat := w_tasks w !! t ≫= executor.
Definition home w (e : nat) : Home := default closedHome (w_homes w !! e).

(** The number of tasks of a thread, and what its variables are: everything is closed while
    it has none, and else its mailbox is open and the only source of its hub. *)
Definition live w (e : nat) : nat := size (filter (λ t, owner w t = Some e) (dom (w_tasks w))).
Definition openHome (e : nat) (count : N) : Home := mkHome count (Some (Some e)) (Some (Some e)) (Some [e]).
Definition home_of (e n : nat) : Home := if decide (n = 0) then closedHome else openHome e (N.of_nat n).
Definition home_ok w (e : nat) : Prop := home w e = home_of e (live w e) ∧ (N.of_nat (live w e) <= SIZE_MAX)%N.

(** ** What the fields of a task say in each phase *)

Record parked_fields k (context : option nat) (kind : N) (cancel : CancelWait) : Prop := mkParked {
  pf_queued : queued k = false;
  pf_ready : ready k = false;
  pf_waiting_on : waiting_on k = None;
  pf_wake_ready : wake_ready k = false;
  pf_cancel : cancel_wait k = Some cancel;
  pf_context : wait_context k = context;
  pf_kind : wait_kind k = kind;
}.
Definition parked_somewhere k : Prop :=
  (∃ c s, parked_fields k (Some c) (side_kind s) fdn_channel_cancel_wait) ∨
  (∃ context, parked_fields k (Some context) FDN_CHANNEL_WAIT_SELECT fdn_channel_cancel_select).

Definition free_fields k (q r : bool) (child : option nat) : Prop :=
  queued k = q ∧ ready k = r ∧ cancel_wait k = None ∧ waiting_on k = child.

Definition phase_fields k (p : Phase) : Prop :=
  match p with
  | Queued => free_fields k true false None
  | Running => free_fields k false false None
  | Joining child => free_fields k false false (Some child) ∧ wake_ready k = false
  | Finished => free_fields k false true None ∧ wake_ready k = false
  | Waiting c s => parked_fields k (Some c) (side_kind s) fdn_channel_cancel_wait
  | Selecting _ => ∃ context, parked_fields k (Some context) FDN_CHANNEL_WAIT_SELECT fdn_channel_cancel_select
  | Mailed | Popped => parked_somewhere k
  end.

(** ** Tasks and executors *)

Record task_inv w g : Prop := mkTaskInv {
  ti_dom : ∀ t, is_Some (w_tasks w !! t) ↔ is_Some (phase g t);
  ti_fields : ∀ t k p, w_tasks w !! t = Some k → phase g t = Some p → phase_fields k p ∧ is_Some (executor k);
  ti_queue : ∀ e t, t ∈ e_queue (exec w e) ↔ phase g t = Some Queued ∧ owner w t = Some e;
  ti_queue_once : ∀ e, NoDup (e_queue (exec w e));
  ti_mail : ∀ e t, t ∈ (e_mailbox (exec w e)).*1 ↔ phase g t = Some Mailed ∧ owner w t = Some e;
  ti_mail_once : ∀ e, NoDup (e_mailbox (exec w e)).*1;
  ti_current : ∀ e t, t ∈ e_current (exec w e) → owner w t = Some e ∧ phase g t ≠ Some Queued ∧ phase g t ≠ Some Finished;
  ti_current_once : ∀ e, NoDup (e_current (exec w e));
  ti_interrupted : ∀ e t, t ∈ tail (e_current (exec w e)) → phase g t = Some Running;
  ti_running : ∀ e t, phase g t = Some Running → owner w t = Some e → t ∈ e_current (exec w e);
  ti_join : ∀ t u, phase g t = Some (Joining u) →
    ∃ ku, w_tasks w !! u = Some ku ∧ waiter ku = Some t ∧ ready ku = false ∧ executor ku = owner w t;
  ti_waiter : ∀ u ku t, w_tasks w !! u = Some ku → waiter ku = Some t → phase g t = Some (Joining u);
  ti_home : ∀ e, home_ok w e;
  ti_notified : ∀ e, e_mailbox (exec w e) ≠ [] → e ∈ w_notified w;
}.

(** ** The queues of the channels *)

Definition endpoints (s : Side) ch : N := match s with Send => senders ch | Receive => receivers ch end.
(** A pointer that [fdn_channel_copy] accepts. *)
Definition value_ok ch (p : option nat) : Prop := value_size ch = 0%N ∨ is_Some p.

(** The task is parked in a send or a receive, whether or not it was woken yet. *)
Definition uses k (c : nat) (s : Side) : Prop :=
  cancel_wait k = Some fdn_channel_cancel_wait ∧ wait_context k = Some c ∧ wait_kind k = side_kind s.

Record queue_inv w g : Prop := mkQueueInv {
  qi_queue : ∀ c ch s, w_channels w !! c = Some ch → stands_for (w_wait_next w) (side_queue s ch) (gq g c s);
  qi_none : ∀ c s, w_channels w !! c = None → gq g c s = [];
  qi_member : ∀ c s t, t ∈ gq g c s ↔ phase g t = Some (Waiting c s);
  qi_next : ∀ t, (∀ c s, phase g t ≠ Some (Waiting c s)) → w_wait_next w !! t = None;
  qi_uses : ∀ t k c s, w_tasks w !! t = Some k → uses k c s →
    ∃ ch, w_channels w !! c = Some ch ∧ endpoints s ch ≠ 0%N ∧ value_ok ch (wait_value k);
}.

(** ** Selects *)

(** The task is in a select, parked or woken and not yet resumed. *)
Definition selecting k (context : nat) : Prop :=
  (cancel_wait k = Some fdn_channel_cancel_select ∧ wait_context k = Some context ∧ wait_kind k = FDN_CHANNEL_WAIT_SELECT) ∨
  (cancel_wait k = None ∧ wake_ready k = true ∧ wake_context k = Some context ∧ wake_kind k = FDN_CHANNEL_WAIT_SELECT).

Definition case_ok w (case : SelectCase) : Prop :=
  ∃ c ch, case_channel case = Some c ∧ w_channels w !! c = Some ch ∧ value_ok ch (case_value case) ∧
    (case_kind case = FDN_CHANNEL_SELECT_SEND ∧ senders ch ≠ 0%N ∨
     case_kind case = FDN_CHANNEL_SELECT_RECEIVE ∧ receivers ch ≠ 0%N).
Definition cases_ok w (cases : list SelectCase) : Prop :=
  (N.of_nat (length cases) < N.shiftr UINT_MAX 8)%N ∧ Forall (case_ok w) cases.

Record select_inv w g : Prop := mkSelectInv {
  si_selecting : ∀ t wait, phase g t = Some (Selecting wait) ↔
    ∃ sw, w_waits w !! wait = Some sw ∧ sw_task sw = t ∧ sw_signaled sw = false;
  si_task : ∀ wait sw, w_waits w !! wait = Some sw →
    ∃ k, w_tasks w !! sw_task sw = Some k ∧ selecting k (sw_context sw);
  si_wait : ∀ t k context, w_tasks w !! t = Some k → selecting k context →
    ∃ wait sw, w_waits w !! wait = Some sw ∧ sw_task sw = t;
  si_unique : ∀ wait1 wait2 sw1 sw2, w_waits w !! wait1 = Some sw1 → w_waits w !! wait2 = Some sw2 →
    sw_task sw1 = sw_task sw2 → wait1 = wait2;
  si_list : ∀ e wait, wait ∈ e_selects (exec w e) ↔
    ∃ sw, w_waits w !! wait = Some sw ∧ owner w (sw_task sw) = Some e;
  si_list_once : ∀ e, NoDup (e_selects (exec w e));
  si_cases : ∀ wait sw, w_waits w !! wait = Some sw →
    sw_registered sw = registrations (sw_cases sw) ∧ cases_ok w (sw_cases sw);
  si_registered : ∀ c ch wait i, w_channels w !! c = Some ch →
    (wait, i) ∈ selects ch ↔ ∃ sw, w_waits w !! wait = Some sw ∧ sw_registered sw !! i = Some (Some c);
  si_registered_once : ∀ c ch, w_channels w !! c = Some ch → NoDup (selects ch);
}.

(** ** The channels' own data *)

Record channel_ok ch : Prop := mkChannelOk {
  co_buffered : buffered ch = N.of_nat (length (messages ch));
  co_capacity : (buffered ch <= capacity ch)%N;
  co_size : (capacity ch <= SIZE_MAX)%N;
  co_value : (value_size ch <= SIZE_MAX - message_header)%N;
  co_receivers : receivers ch = 0%N → messages ch = [];
  co_holds : holds ch = 0%N ∨ holds ch = 1%N ∧ receivers ch = 0%N;
  co_counts : (senders ch <= SIZE_MAX)%N ∧ (receivers ch <= SIZE_MAX)%N;
}.
Definition used ch : Prop := senders ch ≠ 0%N ∨ receivers ch ≠ 0%N ∨ holds ch ≠ 0%N.

(** [loose] is the channel whose last endpoint a call is about to drop. *)
Record data_inv (loose : option nat) w : Prop := mkDataInv {
  di_ok : ∀ c ch, w_channels w !! c = Some ch → channel_ok ch;
  di_used : ∀ c ch, w_channels w !! c = Some ch → loose ≠ Some c → used ch;
  di_count : w_channel_count w = N.of_nat (size (w_channels w));
  di_count_max : (w_channel_count w <= SIZE_MAX)%N;
}.

Record Core w g : Prop := mkCore {
  core_task : task_inv w g;
  core_queue : queue_inv w g;
  core_select : select_inv w g;
}.

(** ** Nobody waits for what is there *)

(** A select that nothing woke has a case of the kind on the channel. *)
Definition open_case w (c : nat) (kind : N) (wait : nat) : Prop :=
  ∃ sw, w_waits w !! wait = Some sw ∧ sw_signaled sw = false ∧ Exists (is_case c kind) (sw_cases sw).

Record quiet_at w g (c : nat) ch : Prop := mkQuiet {
  qu_receive : gq g c Receive ≠ [] → messages ch = [] ∧ gq g c Send = [] ∧ senders ch ≠ 0%N;
  qu_send : gq g c Send ≠ [] → (capacity ch <= buffered ch)%N ∧ receivers ch ≠ 0%N;
  qu_select_receive : ∀ wait, open_case w c FDN_CHANNEL_SELECT_RECEIVE wait →
    messages ch = [] ∧ gq g c Send = [] ∧ senders ch ≠ 0%N;
  qu_select_send : ∀ wait, open_case w c FDN_CHANNEL_SELECT_SEND wait →
    (capacity ch <= buffered ch)%N ∧ gq g c Receive = [] ∧ receivers ch ≠ 0%N;
  qu_select_both : ∀ wait1 wait2, open_case w c FDN_CHANNEL_SELECT_SEND wait1 →
    open_case w c FDN_CHANNEL_SELECT_RECEIVE wait2 → wait1 = wait2;
}.
Definition quiet w g : Prop := ∀ c ch, w_channels w !! c = Some ch → quiet_at w g c ch.

(** ** What calls start from *)

(** Between calls, no task is on the way from a queue to an executor. *)
Definition settled g : Prop := ∀ t, phase g t ≠ Some Popped.

Record inv w g : Prop := mkInv {
  inv_core : Core w g;
  inv_data : data_inv None w;
  inv_quiet : quiet w g;
  inv_settled : settled g;
}.

End Invariant.
