(* ===== verification/RuntimeProofs.v ===== *)
(** * How wakes and claims keep the invariant

    [runs m w Q]: from [w] the call [m] neither panics nor accesses an object that does
    not exist, and [Q] holds of its result.  The lemmas of this file are those of the
    operations that the calls of channel.c are made of. *)
From S2P Require Import Prelude Queue Tasks Channel RuntimeInvariant.

Section Runs.
Context {V : Type}.

Definition runs {A} (m : R V A) (w : World V) (Q : A → World V → Prop) : Prop :=
  match m w with Done a w' => Q a w' | Panic _ | Undefined => False end.

Lemma call_ret {A} (a : A) w (Q : A → World V → Prop) : Q a w → runs (mret a) w Q.
Proof. done. Qed.
Lemma call_mono {A} (m : R V A) w (P Q : A → World V → Prop) :
  runs m w P → (∀ a w', P a w' → Q a w') → runs m w Q.
Proof. unfold runs. destruct (m w); [intros ? H; by apply H|done|done]. Qed.
Lemma call_bind {A B} (m : R V A) (f : A → R V B) w Q :
  runs m w (λ a w', runs (f a) w' Q) → runs (m ≫= f) w Q.
Proof. unfold runs, mbind, R_bind. by destruct (m w). Qed.
Lemma call_bind_inv {A B} (m : R V A) (f : A → R V B) w Q :
  runs (m ≫= f) w Q → runs m w (λ a w', runs (f a) w' Q).
Proof. unfold runs, mbind, R_bind. by destruct (m w). Qed.
Lemma call_get {B} (f : World V → R V B) w Q : runs (f w) w Q → runs (get ≫= f) w Q.
Proof. done. Qed.
Lemma call_modify {B} h (f : unit → R V B) w Q : runs (f tt) (h w) Q → runs (modify h ≫= f) w Q.
Proof. done. Qed.
Lemma call_get_task {B} t k (f : Task → R V B) w Q :
  w_tasks w !! t = Some k → runs (f k) w Q → runs (get_task t ≫= f) w Q.
Proof. unfold runs, get_task, mbind, R_bind, get, found. by intros ->. Qed.
Lemma call_set_task {B} t k (f : unit → R V B) w Q :
  runs (f tt) (with_tasks (insert t k) w) Q → runs (set_task t k ≫= f) w Q.
Proof. done. Qed.
Lemma call_get_executor {B} e (f : Executor → R V B) w Q :
  runs (f (exec w e)) w Q → runs (get_executor e ≫= f) w Q.
Proof. done. Qed.
Lemma call_set_executor {B} e x (f : unit → R V B) w Q :
  runs (f tt) (with_executors (insert e x) w) Q → runs (set_executor e x ≫= f) w Q.
Proof. done. Qed.
Lemma call_get_home {B} e (f : Home → R V B) w Q :
  runs (f (home w e)) w Q → runs (get_home e ≫= f) w Q.
Proof. done. Qed.
Lemma call_set_home {B} e h (f : unit → R V B) w Q :
  runs (f tt) (with_homes (insert e h) w) Q → runs (set_home e h ≫= f) w Q.
Proof. done. Qed.
Lemma call_get_channel {B} c ch (f : Channel V → R V B) w Q :
  w_channels w !! c = Some ch → runs (f ch) w Q → runs (get_channel c ≫= f) w Q.
Proof. unfold runs, get_channel, mbind, R_bind, get, found. by intros ->. Qed.
Lemma call_set_channel {B} c ch (f : unit → R V B) w Q :
  runs (f tt) (with_channels (insert c ch) w) Q → runs (set_channel c ch ≫= f) w Q.
Proof. done. Qed.
Lemma call_get_wait {B} wait sw (f : SelectWait → R V B) w Q :
  w_waits w !! wait = Some sw → runs (f sw) w Q → runs (get_wait wait ≫= f) w Q.
Proof. unfold runs, get_wait, mbind, R_bind, get, found. by intros ->. Qed.
Lemma call_set_wait {B} wait sw (f : unit → R V B) w Q :
  runs (f tt) (with_waits (insert wait sw) w) Q → runs (set_wait wait sw ≫= f) w Q.
Proof. done. Qed.
Lemma call_assoc {A B C} (m : R V A) (f : A → R V B) (h : B → R V C) w Q :
  runs (m ≫= λ a, f a ≫= h) w Q → runs ((m ≫= f) ≫= h) w Q.
Proof. unfold runs, mbind, R_bind. by destruct (m w). Qed.
(** The last operation of a body. *)
Lemma call_modify_end h w (Q : unit → World V → Prop) : Q tt (h w) → runs (modify h) w Q.
Proof. done. Qed.

End Runs.

Section Frames.
Context {V : Type}.
Implicit Types (w : World V) (g : Ghost) (k : Task) (ch : Channel V).

Lemma exec_insert w e x e' :
  exec (with_executors (insert e x) w) e' = if decide (e' = e) then x else exec w e'.
Proof.
  unfold exec, with_executors. cbn. destruct (decide _) as [->|Hne]; [by rewrite lookup_insert_eq|by rewrite lookup_insert_ne].
Qed.
Lemma owner_insert w t k k0 t' :
  w_tasks w !! t = Some k0 → executor k = executor k0 → owner (with_tasks (insert t k) w) t' = owner w t'.
Proof.
  intros H He. unfold owner, with_tasks. cbn. destruct (decide (t' = t)) as [->|Hne]; [|by rewrite lookup_insert_ne].
  by rewrite lookup_insert_eq, H.
Qed.

(** The tasks of a thread are counted by their owners. *)
Lemma live_task w t e : owner w t = Some e → live w e ≠ 0.
Proof.
  intros Ho. unfold live. intros Hs%size_empty_inv. assert (t ∈ filter (λ t, owner w t = Some e) (dom (w_tasks w))) as Hin; [|set_solver].
  apply elem_of_filter. split; [done|]. apply elem_of_dom. unfold owner in Ho. destruct (w_tasks w !! t); [eauto|done].
Qed.
Lemma elem_of_live w t e : t ∈ filter (λ t, owner w t = Some e) (dom (w_tasks w)) ↔ owner w t = Some e.
Proof.
  rewrite elem_of_filter. split; [by intros []|]. intros Ho. split; [done|]. apply elem_of_dom. unfold owner in Ho.
  destruct (w_tasks w !! t); [eauto|done].
Qed.
Lemma live_same w w' e : (∀ t, owner w' t = owner w t) → live w' e = live w e.
Proof. intros Ho. unfold live. f_equal. apply leibniz_equiv. intros t. by rewrite !elem_of_live, Ho. Qed.
(** One task more. *)
Lemma live_more w w' a here e :
  owner w a = None → (∀ t, owner w' t = if decide (t = a) then Some here else owner w t) →
  live w' e = if decide (e = here) then S (live w e) else live w e.
Proof.
  intros Ha Ho. unfold live. destruct (decide (e = here)) as [->|Hne].
  - assert (filter (λ t, owner w' t = Some here) (dom (w_tasks w')) =
      {[a]} ∪ filter (λ t, owner w t = Some here) (dom (w_tasks w))) as ->.
    { apply leibniz_equiv. intros t. rewrite elem_of_union, elem_of_singleton, !elem_of_live, Ho.
      destruct (decide (t = a)) as [->|]; naive_solver. }
    rewrite size_union, size_singleton; [done|]. intros t ->%elem_of_singleton Ht%elem_of_live. congruence.
  - f_equal. apply leibniz_equiv. intros t. rewrite !elem_of_live, Ho. destruct (decide (t = a)) as [->|]; naive_solver.
Qed.

Lemma homes_same w w' :
  (∀ t, owner w' t = owner w t) → w_homes w' = w_homes w → (∀ e, home_ok w e) → ∀ e, home_ok w' e.
Proof. intros Ho Hh H e. unfold home_ok, home. rewrite Hh, (live_same w w' e Ho). apply H. Qed.
(** Where there is mail, the hub is still notified. *)
Lemma notified_same w w' :
  (∀ e, e_mailbox (exec w' e) = e_mailbox (exec w e)) → w_notified w' = w_notified w →
  (∀ e, e_mailbox (exec w e) ≠ [] → e ∈ w_notified w) → ∀ e, e_mailbox (exec w' e) ≠ [] → e ∈ w_notified w'.
Proof. intros Hm Hn H e. rewrite Hm, Hn. apply H. Qed.
(** The variables of a thread that has a task. *)
Lemma home_open w t e : (∀ e, home_ok w e) → owner w t = Some e → home w e = openHome e (N.of_nat (live w e)).
Proof. intros H Ho. destruct (H e) as [-> _]. unfold home_of. rewrite decide_False; [done|]. by eapply live_task. Qed.

Lemma phase_set g t p t' : phase (set_phase t p g) t' = if decide (t' = t) then Some p else phase g t'.
Proof. unfold phase, set_phase. cbn. destruct (decide _) as [->|Hne]; [by rewrite lookup_insert_eq|by rewrite lookup_insert_ne]. Qed.
Lemma gq_set g c s l c' s' : gq (set_gq c s l g) c' s' = if decide (c' = c ∧ s' = s) then l else gq g c' s'.
Proof.
  unfold gq, set_gq. cbn. destruct (decide _) as [[-> ->]|Hne]; [by rewrite lookup_insert_eq|].
  rewrite lookup_insert_ne; [done|]. intros [= -> ->]. by apply Hne.
Qed.
Lemma gq_set_phase g t p c s : gq (set_phase t p g) c s = gq g c s.
Proof. done. Qed.
Lemma phase_set_gq g c s l t : phase (set_gq c s l g) t = phase g t.
Proof. done. Qed.

(** The wakes and claims of a call: tasks leave the places where they wait. *)
Definition leaves (p : Phase) : Prop := match p with Selecting _ | Popped => True | _ => False end.
Definition woken (p : Phase) : Prop := match p with Queued | Mailed | Popped => True | _ => False end.
Definition signal (sw : SelectWait) : SelectWait :=
  mkSelectWait (sw_task sw) (sw_context sw) (sw_deadline sw) true (sw_cases sw) (sw_registered sw).

(** A task was woken with the status, or the wake is on its way to its executor. *)
Definition will_resume w (t : nat) (status : N) : Prop :=
  (∃ k, w_tasks w !! t = Some k ∧ wake_ready k = true ∧ wake_status k = status) ∨ ∃ e, (t, status) ∈ e_mailbox (exec w e).

Record woke w g w' g' : Prop := mkWoke {
  wo_channels : w_channels w' = w_channels w;
  wo_count : w_channel_count w' = w_channel_count w;
  wo_dropped : w_dropped w' = w_dropped w;
  wo_gq : g_queue g' = g_queue g;
  wo_current : ∀ e, e_current (exec w' e) = e_current (exec w e);
  wo_phase : ∀ t, phase g' t = phase g t ∨ ∃ p p', phase g t = Some p ∧ phase g' t = Some p' ∧ leaves p ∧ woken p';
  wo_tasks : ∀ t p, phase g t = Some p → ¬ leaves p → w_tasks w' !! t = w_tasks w !! t;
  wo_owner : ∀ t, owner w' t = owner w t;
  wo_waits : ∀ wait, w_waits w' !! wait = w_waits w !! wait ∨
    ∃ sw, w_waits w !! wait = Some sw ∧ w_waits w' !! wait = Some (signal sw);
  wo_resumes : ∀ t status, will_resume w t status → will_resume w' t status;
}.

Lemma woke_refl w g : woke w g w g.
Proof. split; eauto. Qed.
Lemma woke_trans w g w1 g1 w2 g2 : woke w g w1 g1 → woke w1 g1 w2 g2 → woke w g w2 g2.
Proof.
  intros H1 H2. split.
  - by rewrite (wo_channels _ _ _ _ H2), (wo_channels _ _ _ _ H1).
  - by rewrite (wo_count _ _ _ _ H2), (wo_count _ _ _ _ H1).
  - by rewrite (wo_dropped _ _ _ _ H2), (wo_dropped _ _ _ _ H1).
  - by rewrite (wo_gq _ _ _ _ H2), (wo_gq _ _ _ _ H1).
  - intros e. by rewrite (wo_current _ _ _ _ H2), (wo_current _ _ _ _ H1).
  - intros t. destruct (wo_phase _ _ _ _ H1 t) as [E1|(p & p' & E & E1 & Hl & Hw)];
      destruct (wo_phase _ _ _ _ H2 t) as [E2|(q & q' & F & E2 & Hl' & Hw')].
    + left. by rewrite E2.
    + right. exists q, q'. by rewrite <- E1.
    + right. exists p, p'. by rewrite E2.
    + right. by exists p, q'.
  - intros t p Hp Hl. destruct (wo_phase _ _ _ _ H1 t) as [E1|(p0 & p' & E & E1 & Hl0 & Hw)]; [|by simplify_eq].
    rewrite (wo_tasks _ _ _ _ H2 t p); [by apply (wo_tasks _ _ _ _ H1 t p)|by rewrite E1|done].
  - intros t. by rewrite (wo_owner _ _ _ _ H2), (wo_owner _ _ _ _ H1).
  - intros wait. destruct (wo_waits _ _ _ _ H1 wait) as [E1|(sw & E & E1)];
      destruct (wo_waits _ _ _ _ H2 wait) as [E2|(sw' & F & E2)].
    + left. by rewrite E2.
    + right. exists sw'. by rewrite <- E1.
    + right. exists sw. by rewrite E2.
    + right. exists sw. by rewrite E1 in F; injection F as <-.
  - intros t status H. by apply (wo_resumes _ _ _ _ H2), (wo_resumes _ _ _ _ H1).
Qed.

(** No task that is about to be woken runs on this thread. *)
Definition calm (here : nat) w g : Prop := ∀ t p, t ∈ e_current (exec w here) → phase g t = Some p → ¬ leaves p.

Lemma calm_woke here w g w' g' : calm here w g → woke w g w' g' → calm here w' g'.
Proof.
  intros Hc H t p Ht Hp Hl. rewrite (wo_current _ _ _ _ H) in Ht.
  destruct (wo_phase _ _ _ _ H t) as [E|(p0 & p' & E & E' & Hl' & _)].
  - rewrite E in Hp. by apply (Hc t p).
  - by apply (Hc t p0).
Qed.

(** ** A task changes its place *)

(** The lists of the executors agree with the new place of [t]. *)
Record relisted w w' (t : nat) (p' : Phase) : Prop := mkRelisted {
  rl_queue : ∀ e u, u ∈ e_queue (exec w' e) ↔
    if decide (u = t) then p' = Queued ∧ owner w t = Some e else u ∈ e_queue (exec w e);
  rl_queue_once : ∀ e, NoDup (e_queue (exec w' e));
  rl_mail : ∀ e u, u ∈ (e_mailbox (exec w' e)).*1 ↔
    if decide (u = t) then p' = Mailed ∧ owner w t = Some e else u ∈ (e_mailbox (exec w e)).*1;
  rl_mail_once : ∀ e, NoDup (e_mailbox (exec w' e)).*1;
  rl_current : ∀ e, e_current (exec w' e) = e_current (exec w e);
  rl_selects : ∀ e, e_selects (exec w' e) = e_selects (exec w e);
}.

(** Places that no list of an executor shows. *)
Definition unlisted (p : Phase) : Prop := p ≠ Queued ∧ p ≠ Mailed.
Lemma relisted_same w g w' t p p' :
  task_inv w g → phase g t = Some p → unlisted p → unlisted p' → w_executors w' = w_executors w → relisted w w' t p'.
Proof.
  intros H Hp [Hq Hm] [Hq' Hm'] He.
  assert (∀ e, exec w' e = exec w e) as Hx by (intros e; unfold exec; by rewrite He).
  split; intros e; rewrite !Hx; try apply H; try done; intros u; destruct (decide (u = t)) as [->|]; try done.
  - rewrite (ti_queue _ _ H). rewrite Hp. naive_solver.
  - rewrite (ti_mail _ _ H). rewrite Hp. naive_solver.
Qed.

(** A task that gets into the mailbox of its thread has its hub notified. *)
Definition notifies w w' (t : nat) (p' : Phase) : Prop :=
  match p' with
  | Mailed => w_notified w ⊆ w_notified w' ∧ ∀ e, owner w t = Some e → e ∈ w_notified w'
  | _ => w_notified w' = w_notified w
  end.
Lemma notified_step w g w' t p' :
  task_inv w g → relisted w w' t p' → notifies w w' t p' → ∀ e, e_mailbox (exec w' e) ≠ [] → e ∈ w_notified w'.
Proof.
  intros H Hl Hn e He. destruct (e_mailbox (exec w' e)) as [|[u status] mail] eqn:Em; [done|].
  assert (u ∈ (e_mailbox (exec w' e)).*1) as Hin by (rewrite Em; left). apply (rl_mail _ _ _ _ Hl) in Hin.
  assert (∀ v, v ∈ (e_mailbox (exec w e)).*1 → e ∈ w_notified w) as Hold.
  { intros v Hv. apply (ti_notified _ _ H). intros E. rewrite E in Hv. by apply not_elem_of_nil in Hv. }
  destruct (decide (u = t)) as [->|]; [destruct Hin as [-> Ho]; by apply Hn|]. apply Hold in Hin.
  destruct p'; unfold notifies in Hn; first [by rewrite Hn|by apply (proj1 Hn)].
Qed.

Lemma task_inv_step w g w' t k k' p p' :
  task_inv w g → w_tasks w !! t = Some k → phase g t = Some p →
  w_tasks w' = <[t := k']> (w_tasks w) → w_homes w' = w_homes w → notifies w w' t p' →
  executor k' = executor k → waiter k' = waiter k → ready k' = ready k →
  phase_fields k' p' → (∀ u, p ≠ Joining u) → (∀ u, p' ≠ Joining u) → p' ≠ Running →
  (∀ e, t ∈ e_current (exec w e) → p' ≠ Queued ∧ p' ≠ Finished ∧ t ∉ tail (e_current (exec w e))) →
  relisted w w' t p' →
  task_inv w' (set_phase t p' g).
Proof.
  intros H Hk Hp Ht Hhomes Hnot Hex Hwt Hrd Hf Hj Hj' Hrun Hcur Hl.
  assert (Ho : ∀ u, owner w' u = owner w u).
  { intros u. unfold owner. rewrite Ht. destruct (decide (u = t)) as [->|]; [|by rewrite lookup_insert_ne].
    by rewrite lookup_insert_eq, Hk. }
  assert (Hlk : ∀ u, w_tasks w' !! u = if decide (u = t) then Some k' else w_tasks w !! u).
  { intros u. rewrite Ht. destruct (decide (u = t)) as [->|]; [by rewrite lookup_insert_eq|by rewrite lookup_insert_ne]. }
  split.
  - intros u. rewrite Hlk, phase_set. destruct (decide (u = t)); [done|apply (ti_dom _ _ H)].
  - intros u ku pu. rewrite Hlk, phase_set. destruct (decide (u = t)) as [->|]; [|apply (ti_fields _ _ H)].
    intros [= <-] [= <-]. split; [done|]. rewrite Hex. by apply (ti_fields _ _ H t k p).
  - intros e u. rewrite (rl_queue _ _ _ _ Hl), phase_set, Ho.
    destruct (decide (u = t)) as [->|]; [naive_solver|apply (ti_queue _ _ H)].
  - apply (rl_queue_once _ _ _ _ Hl).
  - intros e u. rewrite (rl_mail _ _ _ _ Hl), phase_set, Ho.
    destruct (decide (u = t)) as [->|]; [naive_solver|apply (ti_mail _ _ H)].
  - apply (rl_mail_once _ _ _ _ Hl).
  - intros e u. rewrite (rl_current _ _ _ _ Hl), phase_set, Ho. intros Hu.
    destruct (ti_current _ _ H _ _ Hu) as (? & ? & ?). split; [done|].
    destruct (decide (u = t)) as [->|]; [|done]. destruct (Hcur _ Hu) as (? & ? & _). split; congruence.
  - intros e. rewrite (rl_current _ _ _ _ Hl). apply (ti_current_once _ _ H).
  - intros e u. rewrite (rl_current _ _ _ _ Hl), phase_set. intros Hu. destruct (decide (u = t)) as [->|].
    + exfalso. destruct (Hcur e) as (_ & _ & Hn); [|done].
      destruct (e_current (exec w e)); [by apply not_elem_of_nil in Hu|by right].
    + by apply (ti_interrupted _ _ H e).
  - intros e u. rewrite (rl_current _ _ _ _ Hl), phase_set, Ho. destruct (decide (u = t)) as [->|]; [congruence|].
    apply (ti_running _ _ H).
  - intros u v. rewrite phase_set. destruct (decide (u = t)) as [->|]; [intros [= Hc]; by apply Hj' in Hc|].
    intros Hu. destruct (ti_join _ _ H _ _ Hu) as (kv & Hv & ? & ? & ?). rewrite Ho, Hlk.
    destruct (decide (v = t)) as [->|]; [|by eauto]. rewrite Hk in Hv. injection Hv as <-. exists k'. split_and!; congruence.
  - intros u ku v. rewrite Hlk, phase_set. intros Hu Hw.
    assert (phase g v = Some (Joining u)) as Hv.
    { destruct (decide (u = t)) as [->|]; [|by apply (ti_waiter _ _ H u ku)]. injection Hu as <-.
      rewrite Hwt in Hw. by apply (ti_waiter _ _ H t k). }
    destruct (decide (v = t)) as [->|]; [|done]. rewrite Hp in Hv. injection Hv as ->. by destruct (Hj u).
  - apply (homes_same w w'); [done..|apply (ti_home _ _ H)].
  - by eapply notified_step.
Qed.

Lemma queue_inv_step w g w' t k k' p p' :
  queue_inv w g → w_tasks w !! t = Some k → phase g t = Some p →
  w_tasks w' = <[t := k']> (w_tasks w) → w_wait_next w' = w_wait_next w → w_channels w' = w_channels w →
  (∀ c s, uses k' c s → uses k c s ∧ wait_value k' = wait_value k) →
  (∀ c s, p ≠ Waiting c s) → (∀ c s, p' ≠ Waiting c s) →
  queue_inv w' (set_phase t p' g).
Proof.
  intros H Hk Hp Ht Hn Hc Hu Hw Hw'. split; rewrite ?Hn, ?Hc.
  - apply (qi_queue _ _ H).
  - apply (qi_none _ _ H).
  - intros c s u. rewrite phase_set, gq_set_phase, (qi_member _ _ H). destruct (decide (u = t)) as [->|]; [|done].
    rewrite Hp. split; intros [= E]; [by apply Hw in E|by apply Hw' in E].
  - intros u Hfree. apply (qi_next _ _ H). intros c s Hph. specialize (Hfree c s). rewrite phase_set in Hfree.
    destruct (decide (u = t)) as [->|]; [|done]. rewrite Hp in Hph. injection Hph as ->. by apply (Hw c s).
  - intros u ku c s. rewrite Ht. destruct (decide (u = t)) as [->|].
    + rewrite lookup_insert_eq. intros [= <-] Huse. destruct (Hu _ _ Huse) as [Huse' ->].
      by apply (qi_uses _ _ H t k c s).
    + rewrite lookup_insert_ne by done. apply (qi_uses _ _ H).
Qed.

Lemma select_inv_step w g w' t k k' p p' :
  select_inv w g → w_tasks w !! t = Some k → phase g t = Some p →
  w_tasks w' = <[t := k']> (w_tasks w) → w_waits w' = w_waits w → w_channels w' = w_channels w →
  (∀ e, e_selects (exec w' e) = e_selects (exec w e)) → executor k' = executor k →
  (∀ context, selecting k context ↔ selecting k' context) →
  (∀ wait, p ≠ Selecting wait) → (∀ wait, p' ≠ Selecting wait) →
  select_inv w' (set_phase t p' g).
Proof.
  intros H Hk Hp Ht Hw Hc He Hex Hs Hn Hn'.
  assert (Ho : ∀ u, owner w' u = owner w u).
  { intros u. unfold owner. rewrite Ht. destruct (decide (u = t)) as [->|]; [|by rewrite lookup_insert_ne].
    by rewrite lookup_insert_eq, Hk. }
  split; rewrite ?Hw, ?Hc.
  - intros u wait. rewrite phase_set, <- (si_selecting _ _ H). destruct (decide (u = t)) as [->|]; [|done].
    rewrite Hp. split; intros [= E]; [by apply Hn' in E|by apply Hn in E].
  - intros wait sw Hsw. destruct (si_task _ _ H _ _ Hsw) as (ku & Hu & Hsel). rewrite Ht.
    destruct (decide (sw_task sw = t)) as [Et|].
    + rewrite Et, lookup_insert_eq. exists k'. split; [done|]. apply Hs. congruence.
    + rewrite lookup_insert_ne by done. by exists ku.
  - intros u ku context. rewrite Ht. destruct (decide (u = t)) as [->|].
    + rewrite lookup_insert_eq. intros [= <-] Hsel. apply (si_wait _ _ H t k context); [done|by apply Hs].
    + rewrite lookup_insert_ne by done. apply (si_wait _ _ H).
  - apply (si_unique _ _ H).
  - intros e wait. rewrite He, (si_list _ _ H). by setoid_rewrite Ho.
  - intros e. rewrite He. apply (si_list_once _ _ H).
  - intros wait sw Hsw. destruct (si_cases _ _ H _ _ Hsw) as (? & ? & Hall). split; [done|]. split; [done|].
    eapply Forall_impl; [exact Hall|]. intros case. unfold case_ok. by rewrite Hc.
  - apply (si_registered _ _ H).
  - apply (si_registered_once _ _ H).
Qed.

(** ** [fdn_task_wake] *)

Lemma phase_parked w g t k p : task_inv w g → w_tasks w !! t = Some k → phase g t = Some p →
  p = Mailed ∨ p = Popped → parked_somewhere k.
Proof. intros H Hk Hp Hor. destruct (ti_fields _ _ H _ _ _ Hk Hp) as [Hf _]. by destruct Hor as [-> | ->]. Qed.

Definition woken_task (status : N) (q : bool) k : Task :=
  mkTask (waiter k) (waiting_on k) None None None 0 (wait_context k) (wait_kind k) status
    (executor k) (cancellation_requested k) true q (ready k).

Lemma woken_selecting k status q : parked_somewhere k → ∀ context, selecting k context ↔ selecting (woken_task status q k) context.
Proof.
  intros [(c & s & Hf)|(ctx & Hf)] context; destruct Hf as [_ _ _ Hw Hc Hx Hk]; unfold selecting; cbn; rewrite Hc, Hw, Hk, Hx.
  - destruct s; split; intros [(? & ? & ?)|(? & ? & ? & ?)]; discriminate.
  - split; [intros [(_ & ? & _)|(? & ?)]; [by right|discriminate]|intros [(? & ?)|(_ & _ & ? & _)]; [discriminate|by left]].
Qed.

(** What a wake leaves alone: the other tasks, and the links between tasks. *)
Definition links w : gmap nat (option nat * bool * option nat) := (λ k, (waiter k, ready k, executor k)) <$> w_tasks w.
Record woken_only w w' (t : nat) (status : N) : Prop := mkWokenOnly {
  on_others : ∀ u, u ≠ t → w_tasks w' !! u = w_tasks w !! u;
  on_links : links w' = links w;
  on_resume : will_resume w' t status;
}.
Lemma links_insert w w' t k k' : w_tasks w !! t = Some k → w_tasks w' = <[t := k']> (w_tasks w) →
  waiter k' = waiter k → ready k' = ready k → executor k' = executor k → links w' = links w.
Proof.
  intros Hk Hw E1 E2 E3. unfold links. rewrite Hw, fmap_insert. apply insert_id. rewrite lookup_fmap, Hk. cbn. by rewrite E1, E2, E3.
Qed.

Definition wake_place (here : nat) k : Phase := if decide (executor k = Some here) then Queued else Mailed.

Lemma parked_wakeable k : parked_somewhere k →
  is_some (cancel_wait k) = true ∧ is_some (wait_context k) = true ∧ wake_ready k = false ∧ queued k = false ∧ ready k = false ∧
  waiting_on k = None.
Proof. intros [(c & s & [? ? ? ? E1 E2 _])|(ctx & [? ? ? ? E1 E2 _])]; rewrite E1, E2; done. Qed.

Lemma waits_unchanged w g w' g' t p p' :
  phase g t = Some p → leaves p → woken p' → g' = set_phase t p' g →
  (∀ u, phase g' u = phase g u ∨ ∃ q q', phase g u = Some q ∧ phase g' u = Some q' ∧ leaves q ∧ woken q').
Proof.
  intros Hp Hl Hw -> u. rewrite phase_set. destruct (decide (u = t)) as [->|]; [|by left]. right. by exists p, p'.
Qed.

(** *** The thread's mailbox *)

Lemma thread_runs {B} here w t (f : option nat → R V B) Q :
  (∀ e, home_ok w e) → owner w t = Some here → runs (f (Some here)) w Q → runs (executor_current here ≫= f) w Q.
Proof. intros H Ho HQ. apply call_bind, call_get_home, call_ret. by rewrite (home_open w t here). Qed.
Lemma thread_other {B} here e w (f : option nat → R V B) Q :
  e ≠ here → (∀ current, current ≠ Some e → runs (f current) w Q) → runs (executor_current here ≫= f) w Q.
Proof. intros He HQ. apply call_bind, call_get_home, call_ret, HQ. destruct (is_some _); congruence. Qed.

Lemma count_up n : (n < SIZE_MAX)%N → ((n + 1) mod 2 ^ 64)%N = (n + 1)%N.
Proof. intros H. apply N.mod_small. unfold SIZE_MAX in H. lia. Qed.
Lemma count_down n : (n <= SIZE_MAX)%N → n ≠ 0%N → ((n + (2 ^ 64 - 1)) mod 2 ^ 64)%N = (n - 1)%N.
Proof.
  intros H Hn. unfold SIZE_MAX in H. replace (n + (2 ^ 64 - 1))%N with ((n - 1) + 1 * 2 ^ 64)%N by lia.
  rewrite N.Div0.mod_add. apply N.mod_small. lia.
Qed.

(** The source of an open mailbox is there and so is its hub. *)
Lemma notify_runs e n w (Q : unit → World V → Prop) :
  home w e = openHome e n → Q tt (with_notified (union {[e]}) w) → runs (wake_notify e) w Q.
Proof.
  intros Hh HQ. unfold wake_notify. apply call_get_home. rewrite Hh. cbn [openHome h_executor external_source_notify].
  apply call_get_home. rewrite Hh. cbn [openHome h_source]. apply call_get_home. rewrite Hh. by apply call_modify_end.
Qed.

Lemma wake_local_runs here w g t k status Q :
  Core w g → w_tasks w !! t = Some k → phase g t = Some Popped → t ∉ e_current (exec w here) → executor k = Some here →
  (∀ w', Core w' (set_phase t Queued g) → woke w g w' (set_phase t Queued g) → w_memory w' = w_memory w →
     woken_only w w' t status → Q tt w') →
  runs (wake_local here t status) w Q.
Proof.
  intros [Ht Hq Hs] Hk Hp Hcur Hex Hpost. pose proof (phase_parked _ _ _ _ _ Ht Hk Hp (or_intror eq_refl)) as Hpark.
  destruct (parked_wakeable _ Hpark) as (E1 & E2 & E3 & E4 & E5 & E6).
  assert (Ho : owner w t = Some here) by (unfold owner; rewrite Hk; exact Hex).
  unfold wake_local. apply (call_get_task _ k); [done|]. apply (thread_runs here w t); [apply (ti_home _ _ Ht)|done|].
  rewrite E1, E2, E3, E4, E5, bool_decide_false by (by intros []). cbn.
  apply call_set_task, call_modify. unfold enqueue.
  eapply call_get_task; [cbn; apply lookup_insert_eq|]. cbn [queued ready orb].
  apply call_set_task, call_get_executor. unfold with_tasks, with_wait_next. cbn. rewrite insert_insert_eq.
  set (k' := set_queued true _). assert (k' = woken_task status true k) as Ek' by (unfold woken_task; by rewrite E5). clearbody k'.
  set (x := exec _ here). assert (x = exec w here) as -> by done. apply call_modify_end.
  assert (Hn : w_wait_next w !! t = None) by (apply (qi_next _ _ Hq); intros c s; by rewrite Hp).
  rewrite delete_id by done. set (w' := with_executors _ _).
  assert (Hx : ∀ e, exec w' e = if decide (e = here) then
    mkExecutor (e_queue (exec w here) ++ [t]) (e_current (exec w here)) (e_mailbox (exec w here)) (e_selects (exec w here))
      (e_timer (exec w here)) else exec w e).
  { intros e. unfold w'. by rewrite exec_insert. }
  assert (Hnq : t ∉ e_queue (exec w here)).
  { intros Hin. apply (ti_queue _ _ Ht) in Hin as [Hin _]. congruence. }
  assert (Hrl : relisted w w' t Queued).
  { split; intros e; rewrite Hx; destruct (decide (e = here)) as [->|]; cbn; try apply Ht; try done.
    - intros u. rewrite elem_of_app, list_elem_of_singleton. destruct (decide (u = t)) as [->|]; naive_solver.
    - intros u. destruct (decide (u = t)) as [->|]; [|done]. rewrite (ti_queue _ _ Ht), Hp, Ho. naive_solver.
    - apply NoDup_app. split; [apply Ht|]. split; [|apply NoDup_singleton].
      intros u Hu ->%list_elem_of_singleton. done.
    - intros u. destruct (decide (u = t)) as [->|]; [|done]. rewrite (ti_mail _ _ Ht), Hp. naive_solver.
    - intros u. destruct (decide (u = t)) as [->|]; [|done]. rewrite (ti_mail _ _ Ht), Hp. naive_solver. }
  apply Hpost; [|split; try done|done|split].
  - split.
    + eapply (task_inv_step w g w' t k k' Popped Queued); subst k'; try done.
      intros e Hin. destruct (ti_current _ _ Ht _ _ Hin) as (Ho' & _). rewrite Ho in Ho'. by injection Ho' as <-.
    + eapply (queue_inv_step w g w' t k k' Popped Queued); subst k'; try done. intros c s [Hc _]. done.
    + eapply (select_inv_step w g w' t k k' Popped Queued); subst k'; try done; [apply (rl_selects _ _ _ _ Hrl)|].
      by apply woken_selecting.
  - apply (rl_current _ _ _ _ Hrl).
  - by eapply (waits_unchanged w g w' _ t Popped Queued).
  - intros u q Hu Hl. unfold w'. cbn. rewrite lookup_insert_ne; [done|]. intros <-. rewrite Hp in Hu. by injection Hu as <-.
  - intros u. unfold w'. change (owner (with_tasks (insert t k') w) u = owner w u). by eapply owner_insert; [|subst k'].
  - by left.
  - intros u st [(ku & Hku & Hw & Est)|[e Hin]].
    + left. exists ku. split; [|done]. unfold w'. cbn. rewrite lookup_insert_ne; [done|]. intros ->. congruence.
    + right. exists e. rewrite Hx. destruct (decide (e = here)) as [->|]; exact Hin.
  - intros u Hu. unfold w'. cbn. by rewrite lookup_insert_ne.
  - by apply (links_insert w w' t k k'); subst k'.
  - left. exists k'. unfold w'. cbn. by rewrite lookup_insert_eq, Ek'.
Qed.

Lemma wake_runs here w g t k status Q :
  Core w g → w_tasks w !! t = Some k → phase g t = Some Popped → t ∉ e_current (exec w here) →
  (∀ w', Core w' (set_phase t (wake_place here k) g) → woke w g w' (set_phase t (wake_place here k) g) →
    w_memory w' = w_memory w → woken_only w w' t status → Q tt w') →
  runs (wake here t status) w Q.
Proof.
  intros Hcore Hk Hp Hcur Hpost. unfold wake. apply (call_get_task _ k); [done|].
  pose proof Hcore as [Ht Hq Hs]. destruct (ti_fields _ _ Ht _ _ _ Hk Hp) as [Hf [e Hex]]. rewrite Hex.
  assert (Ho : owner w t = Some e) by (unfold owner; rewrite Hk; exact Hex).
  unfold wake_place in Hpost. destruct (decide (e = here)) as [->|Eh].
  - apply (thread_runs here w t); [apply (ti_home _ _ Ht)|done|]. rewrite bool_decide_true by done.
    rewrite decide_True in Hpost by done. by eapply wake_local_runs.
  - rewrite decide_False in Hpost by congruence. apply (thread_other here e); [done|]. intros current Hcurrent.
    rewrite bool_decide_false by congruence. pose proof (home_open w t e (ti_home _ _ Ht) Ho) as Hopen.
    apply call_bind. unfold wake_push. apply call_get_home. rewrite Hopen. cbn [openHome h_executor is_some negb].
    apply call_get_executor, call_modify_end. apply (notify_runs e (N.of_nat (live w e))); [exact Hopen|].
    set (w' := with_notified _ _).
    assert (Hx : ∀ e', exec w' e' = if decide (e' = e) then
      mkExecutor (e_queue (exec w e)) (e_current (exec w e)) (e_mailbox (exec w e) ++ [(t, status)]) (e_selects (exec w e))
        (e_timer (exec w e)) else exec w e').
    { intros e'. unfold w'. etrans; [|apply exec_insert]. done. }
    assert (Hnm : t ∉ (e_mailbox (exec w e)).*1).
    { intros Hin. apply (ti_mail _ _ Ht) in Hin as [Hin _]. congruence. }
    assert (Hrl : relisted w w' t Mailed).
    { split; intros e'; rewrite Hx; destruct (decide (e' = e)) as [->|]; cbn; try apply Ht; try done.
      - intros u. destruct (decide (u = t)) as [->|]; [|done]. rewrite (ti_queue _ _ Ht), Hp. naive_solver.
      - intros u. destruct (decide (u = t)) as [->|]; [|done]. rewrite (ti_queue _ _ Ht), Hp. naive_solver.
      - intros u. rewrite fmap_app, elem_of_app. cbn. rewrite list_elem_of_singleton.
        destruct (decide (u = t)) as [->|]; naive_solver.
      - intros u. destruct (decide (u = t)) as [->|]; [|done]. rewrite (ti_mail _ _ Ht), Hp, Ho. naive_solver.
      - rewrite fmap_app. apply NoDup_app. split; [apply Ht|]. split; [|apply NoDup_singleton].
        intros u Hu ->%list_elem_of_singleton. done. }
    assert (Htasks : w_tasks w' = <[t := k]> (w_tasks w)) by (by rewrite insert_id).
    assert (Hnot : notifies w w' t Mailed).
    { assert (w_notified w' = {[e]} ∪ w_notified w) as E by done. unfold notifies. rewrite E.
      split; [apply union_subseteq_r|]. rewrite Ho. intros e' [= <-]. by apply elem_of_union_l, elem_of_singleton. }
    apply Hpost; [|split; try done|done|split; [done|done|]].
    + split.
      * eapply (task_inv_step w g w' t k k Popped Mailed); try done.
        intros e' Hin. split_and!; try done. intros Htl. apply (ti_interrupted _ _ Ht) in Htl. congruence.
      * by eapply (queue_inv_step w g w' t k k Popped Mailed).
      * by eapply (select_inv_step w g w' t k k Popped Mailed); [..|apply (rl_selects _ _ _ _ Hrl)| | | |].
    + apply (rl_current _ _ _ _ Hrl).
    + by eapply (waits_unchanged w g w' _ t Popped Mailed).
    + by left.
    + intros u st [Hu|[e' Hin]]; [by left|]. right. exists e'. rewrite Hx. destruct (decide (e' = e)) as [->|]; [|done].
      apply elem_of_app. by left.
    + right. exists e. rewrite Hx, decide_True by done. apply elem_of_app. right. left.
Qed.

(** ** Claims and signals *)

(** The parts of the world that [Core] reads. *)
Lemma core_same w g w' :
  Core w g → w_tasks w' = w_tasks w → w_wait_next w' = w_wait_next w → w_channels w' = w_channels w →
  w_waits w' = w_waits w → w_executors w' = w_executors w → w_homes w' = w_homes w → w_notified w' = w_notified w → Core w' g.
Proof. destruct w, w'. cbn. intros H -> -> -> -> -> -> ->. destruct H as [[] [] []]. by do 2 split. Qed.
Lemma core_memory w g f : Core w g → Core (with_memory f w) g.
Proof. intros H. by eapply core_same. Qed.

Lemma selecting_task w g wait sw :
  Core w g → w_waits w !! wait = Some sw → sw_signaled sw = false →
  phase g (sw_task sw) = Some (Selecting wait) ∧ ∃ k, w_tasks w !! sw_task sw = Some k ∧ parked_somewhere k.
Proof.
  intros [Ht _ Hs] Hsw Hsig. assert (phase g (sw_task sw) = Some (Selecting wait)) as Hp by (apply (si_selecting _ _ Hs); eauto).
  split; [done|]. destruct (si_task _ _ Hs _ _ Hsw) as (k & Hk & _). exists k. split; [done|].
  destruct (ti_fields _ _ Ht _ _ _ Hk Hp) as [[ctx Hf] _]. right. eauto.
Qed.

Lemma claim_core w g wait sw :
  Core w g → w_waits w !! wait = Some sw → sw_signaled sw = false →
  Core (with_waits (insert wait (signal sw)) w) (set_phase (sw_task sw) Popped g).
Proof.
  intros Hcore Hsw Hsig. destruct (selecting_task _ _ _ _ Hcore Hsw Hsig) as (Hp & k & Hk & Hpark).
  destruct Hcore as [Ht Hq Hs]. set (w' := with_waits _ w).
  assert (Htasks : w_tasks w' = <[sw_task sw := k]> (w_tasks w)) by (by rewrite insert_id).
  assert (Hwaits : ∀ wait' sw', w_waits w' !! wait' = Some sw' ↔
    if decide (wait' = wait) then sw' = signal sw else w_waits w !! wait' = Some sw').
  { intros wait' sw'. unfold w', with_waits. cbn. destruct (decide (wait' = wait)) as [->|];
      [rewrite lookup_insert_eq; naive_solver|by rewrite lookup_insert_ne]. }
  assert (Hback : ∀ wait' sw', w_waits w' !! wait' = Some sw' → ∃ sw0, w_waits w !! wait' = Some sw0 ∧
    sw_task sw' = sw_task sw0 ∧ sw_context sw' = sw_context sw0 ∧ sw_cases sw' = sw_cases sw0 ∧ sw_registered sw' = sw_registered sw0).
  { intros wait' sw' H'%Hwaits. destruct (decide _) as [->|]; [subst sw'; by exists sw|by exists sw']. }
  assert (Hforth : ∀ wait' sw0, w_waits w !! wait' = Some sw0 → ∃ sw', w_waits w' !! wait' = Some sw' ∧
    sw_task sw' = sw_task sw0 ∧ sw_registered sw' = sw_registered sw0).
  { intros wait' sw0 H0. setoid_rewrite Hwaits. destruct (decide _) as [->|]; [|by exists sw0].
    rewrite Hsw in H0. injection H0 as <-. by exists (signal sw). }
  split.
  - eapply (task_inv_step w g w' _ k k (Selecting wait) Popped); try done.
    + intros e Hin. split_and!; try done. intros Htl. apply (ti_interrupted _ _ Ht) in Htl. congruence.
    + by eapply relisted_same; [done|exact Hp|..].
  - by eapply (queue_inv_step w g w' _ k k (Selecting wait) Popped).
  - split.
    + intros u wait'. rewrite phase_set. setoid_rewrite Hwaits. destruct (decide (u = sw_task sw)) as [->|Hne].
      * split; [done|]. intros (sw' & Hsw' & Htk & Hsg). exfalso. destruct (decide (wait' = wait)) as [->|Hw]; [by subst sw'|].
        apply Hw, (si_unique _ _ Hs _ _ _ _ Hsw' Hsw Htk).
      * rewrite (si_selecting _ _ Hs). apply exist_proper. intros sw'. destruct (decide (wait' = wait)) as [->|Hw]; [|done].
        rewrite Hsw. split; [intros ([= <-] & ? & _); congruence|by intros (-> & ? & ?)].
    + intros wait' sw' (sw0 & H0 & -> & -> & _ & _)%Hback. apply (si_task _ _ Hs _ _ H0).
    + intros u ku ctx Hu Hsel. destruct (si_wait _ _ Hs _ _ _ Hu Hsel) as (wait' & sw0 & H0 & Htk).
      destruct (Hforth _ _ H0) as (sw' & H' & E & _). exists wait', sw'. split; [done|congruence].
    + intros wait1 wait2 sw1 sw2 (sw01 & H1 & E1 & _)%Hback (sw02 & H2 & E2 & _)%Hback. rewrite E1, E2.
      by apply (si_unique _ _ Hs).
    + intros e wait'. change (exec w' e) with (exec w e). rewrite (si_list _ _ Hs). split.
      * intros (sw0 & H0 & Ho). destruct (Hforth _ _ H0) as (sw' & H' & E & _). exists sw'. by rewrite E.
      * intros (sw' & (sw0 & H0 & E & _)%Hback & Ho). exists sw0. by rewrite <- E.
    + apply (si_list_once _ _ Hs).
    + intros wait' sw' (sw0 & H0 & _ & _ & -> & ->)%Hback. apply (si_cases _ _ Hs _ _ H0).
    + intros c ch wait' i Hc. rewrite (si_registered _ _ Hs c ch wait' i Hc). split.
      * intros (sw0 & H0 & Hi). destruct (Hforth _ _ H0) as (sw' & H' & _ & E). exists sw'. by rewrite E.
      * intros (sw' & (sw0 & H0 & _ & _ & _ & E)%Hback & Hi). exists sw0. by rewrite <- E.
    + apply (si_registered_once _ _ Hs).
Qed.

Lemma claim_woke w g wait sw :
  Core w g → w_waits w !! wait = Some sw → sw_signaled sw = false →
  woke w g (with_waits (insert wait (signal sw)) w) (set_phase (sw_task sw) Popped g).
Proof.
  intros Hcore Hsw Hsig. destruct (selecting_task _ _ _ _ Hcore Hsw Hsig) as (Hp & _). split; try done.
  - by eapply (waits_unchanged w g w _ _ (Selecting wait) Popped).
  - intros wait'. cbn. destruct (decide (wait' = wait)) as [->|]; [|left; by rewrite lookup_insert_ne].
    right. exists sw. by rewrite lookup_insert_eq.
Qed.

(** A claim says whether the wait was free. *)
Lemma claim_runs w g wait sw (Q : bool → World V → Prop) :
  w_waits w !! wait = Some sw →
  (sw_signaled sw = true → Q false w) →
  (sw_signaled sw = false → Q true (with_waits (insert wait (signal sw)) w)) →
  runs (select_claim wait) w Q.
Proof.
  intros Hsw Hold Hnew. unfold select_claim. apply (call_get_wait _ sw); [done|].
  destruct (sw_signaled sw); [by apply call_ret, Hold|]. by apply call_set_wait, call_ret, Hnew.
Qed.

Lemma woke_waits w g w' g' wait sw : woke w g w' g' → w_waits w !! wait = Some sw →
  ∃ sw', w_waits w' !! wait = Some sw' ∧ sw_task sw' = sw_task sw ∧ sw_cases sw' = sw_cases sw ∧
    (sw_signaled sw = true → sw_signaled sw' = true).
Proof.
  intros H Hsw. destruct (wo_waits _ _ _ _ H wait) as [E|(sw0 & E & E')].
  - exists sw. by rewrite E.
  - exists (signal sw0). rewrite Hsw in E. injection E as <-. done.
Qed.

(** No task is left between a queue and an executor, but those that were there. *)
Definition settles g g' : Prop := ∀ t, phase g' t = Some Popped → phase g t = Some Popped.

Lemma settles_refl g : settles g g.
Proof. by intros t. Qed.
Lemma settles_trans g1 g2 g3 : settles g1 g2 → settles g2 g3 → settles g1 g3.
Proof. intros H1 H2 t Ht. by apply H1, H2. Qed.

(** The tasks on their way stay as they are: a signal wakes others. *)
Definition spares w g w' g' : Prop :=
  ∀ t, phase g t = Some Popped → phase g' t = Some Popped ∧ w_tasks w' !! t = w_tasks w !! t.
Lemma spares_refl w g : spares w g w g.
Proof. by intros t. Qed.
Lemma spares_trans w1 g1 w2 g2 w3 g3 : spares w1 g1 w2 g2 → spares w2 g2 w3 g3 → spares w1 g1 w3 g3.
Proof. intros H1 H2 t Ht. destruct (H1 t Ht) as [Ht2 <-]. by apply H2. Qed.

(** The signals of [fdn_channel_select_signal_locked]. *)
Lemma signal_all_runs here l w g Q :
  Core w g → calm here w g → (∀ wait i, (wait, i) ∈ l → is_Some (w_waits w !! wait)) →
  (∀ w' g', Core w' g' → woke w g w' g' → w_memory w' = w_memory w → settles g g' → spares w g w' g' →
     (∀ wait i sw, (wait, i) ∈ l → w_waits w' !! wait = Some sw → sw_signaled sw = true) → Q tt w') →
  runs (signal_all here l) w Q.
Proof.
  revert w g. induction l as [|[wait i] l IH]; intros w g Hcore Hcalm Hl HQ; cbn [signal_all].
  { apply call_ret, (HQ w g); [done|apply woke_refl|done|apply settles_refl|apply spares_refl|by intros ??? ?%not_elem_of_nil]. }
  destruct (Hl wait i) as [sw Hsw]; [left|]. apply (call_get_wait _ sw); [done|].
  assert (Hrest : ∀ w1 g1, Core w1 g1 → woke w g w1 g1 → w_memory w1 = w_memory w → settles g g1 → spares w g w1 g1 →
    (∀ sw1, w_waits w1 !! wait = Some sw1 → sw_signaled sw1 = true) → runs (signal_all here l) w1 Q).
  { intros w1 g1 Hc1 Hw1 Hm1 Hp1 Hsp1 Hs1. apply (IH w1 g1); [done|by eapply calm_woke|..].
    - intros wait' j Hj. destruct (Hl wait' j) as [sw' Hsw']; [by right|].
      destruct (woke_waits _ _ _ _ _ _ Hw1 Hsw') as (sw1 & -> & _). eauto.
    - intros w2 g2 Hc2 Hw2 Hm2 Hp2 Hsp2 Hs2. apply (HQ w2 g2); [done|by eapply woke_trans|congruence|..].
      + by eapply settles_trans.
      + by eapply spares_trans.
      + intros wait' j sw2 [[= -> ->]|Hj]%elem_of_cons Hsw2; [|by eapply Hs2].
        destruct (woke_waits _ _ _ _ _ _ Hw1 Hsw) as (sw1 & Hsw1 & _).
        destruct (woke_waits _ _ _ _ _ _ Hw2 Hsw1) as (sw2' & Hsw2' & _ & _ & Hkeep). simplify_eq. by apply Hkeep, Hs1. }
  apply call_bind. apply (claim_runs w g wait sw); [done|intros Esig|intros Esig].
  { apply call_bind, call_ret, (Hrest w g); [done|apply woke_refl|done|apply settles_refl|apply spares_refl|]. intros sw1 H1. by simplify_eq. }
  destruct (selecting_task _ _ _ _ Hcore Hsw Esig) as (Hp & k & Hk & _).
  pose proof (claim_core _ _ _ _ Hcore Hsw Esig) as Hc1. pose proof (claim_woke _ _ _ _ Hcore Hsw Esig) as Hw1.
  apply call_bind. eapply (wake_runs here _ _ _ k); [exact Hc1|done|by rewrite phase_set, decide_True|by intros Hin; eapply (Hcalm _ _ Hin)|].
  intros w2 Hc2 Hw2 Hm2 [Ht2 _]. eapply Hrest; [exact Hc2|by eapply woke_trans|by rewrite Hm2|..].
  - intros t. rewrite !phase_set. unfold wake_place. destruct (decide (t = _)); [by destruct (decide _)|done].
  - intros t Ht. rewrite !phase_set. destruct (decide (t = _)) as [->|Hne]; [congruence|]. split; [done|]. by rewrite Ht2.
  - intros sw2 Hsw2. assert (Hl1 : w_waits (with_waits (insert wait (signal sw)) w) !! wait = Some (signal sw))
      by (by cbn; rewrite lookup_insert_eq).
    destruct (woke_waits _ _ _ _ _ _ Hw2 Hl1) as (sw2' & E & _ & _ & Hkeep). simplify_eq. by apply Hkeep.
Qed.

(** ** The channels change *)

Definition select_kind (s : Side) : N := match s with Send => FDN_CHANNEL_SELECT_SEND | Receive => FDN_CHANNEL_SELECT_RECEIVE end.
(** No task is parked in a send or a receive, and no select has a case for it. *)
Definition idle w (c : nat) (s : Side) : Prop :=
  (∀ t k, w_tasks w !! t = Some k → ¬ uses k c s) ∧
  (∀ wait sw, w_waits w !! wait = Some sw → ¬ Exists (is_case c (select_kind s)) (sw_cases sw)).

(** What tasks and selects rely on: a channel stays, with its value size, its
    registrations and an endpoint of every kind that is in use. *)
Record channel_keeps w (c : nat) ch ch' : Prop := mkKeeps {
  ck_size : value_size ch' = value_size ch;
  ck_selects : selects ch' = selects ch;
  ck_endpoints : ∀ s, endpoints s ch ≠ 0%N → endpoints s ch' ≠ 0%N ∨ idle w c s;
}.
Definition channels_keep w w' : Prop :=
  (∀ c ch, w_channels w !! c = Some ch → ∃ ch', w_channels w' !! c = Some ch' ∧ channel_keeps w c ch ch') ∧
  (∀ c ch', w_channels w' !! c = Some ch' → ∃ ch, w_channels w !! c = Some ch ∧ selects ch' = selects ch).

Lemma channel_keeps_refl w c ch : channel_keeps w c ch ch.
Proof. split; [done|done|by left]. Qed.
Lemma channels_keep_insert w w' c ch ch' :
  w_channels w !! c = Some ch → w_channels w' = <[c := ch']> (w_channels w) → channel_keeps w c ch ch' → channels_keep w w'.
Proof.
  intros Hc Hw Hk. split; intros d chd; rewrite Hw.
  - intros Hd. destruct (decide (d = c)) as [->|Hne].
    + rewrite lookup_insert_eq. simplify_eq. eauto.
    + rewrite lookup_insert_ne by done. exists chd. eauto using channel_keeps_refl.
  - destruct (decide (d = c)) as [->|Hne].
    + rewrite lookup_insert_eq. intros [= <-]. exists ch. split; [done|apply Hk].
    + rewrite lookup_insert_ne by done. eauto.
Qed.

Lemma case_ok_keeps w w' case :
  channels_keep w w' → (∀ c s, is_case c (select_kind s) case → ¬ idle w c s) → case_ok w case → case_ok w' case.
Proof.
  intros [Hk _] Hi (c & ch & Hcase & Hc & Hv & Hend). destruct (Hk _ _ Hc) as (ch' & Hc' & [Hz _ He]). exists c, ch'.
  split; [done|]. split; [done|]. split; [unfold value_ok in *; by rewrite Hz|].
  destruct Hend as [[Hkind Hs]|[Hkind Hs]]; [left|right]; (split; [done|]).
  - destruct (He Send Hs) as [?|Hidle]; [done|]. by destruct (Hi c Send).
  - destruct (He Receive Hs) as [?|Hidle]; [done|]. by destruct (Hi c Receive).
Qed.

Lemma select_inv_ext w g w' g' :
  select_inv w g → w_tasks w' = w_tasks w → w_waits w' = w_waits w → w_executors w' = w_executors w →
  g_phase g' = g_phase g → channels_keep w w' → select_inv w' g'.
Proof.
  intros H Ht Hw He Hg Hk. assert (∀ e, exec w' e = exec w e) as Hx by (intros e; unfold exec; by rewrite He).
  assert (∀ t, owner w' t = owner w t) as Ho by (intros t; unfold owner; by rewrite Ht).
  assert (∀ t, phase g' t = phase g t) as Hp by (intros t; unfold phase; by rewrite Hg).
  split; rewrite ?Ht, ?Hw; try setoid_rewrite Hx; try setoid_rewrite Ho; try setoid_rewrite Hp; try apply H.
  - intros wait sw Hsw. destruct (si_cases _ _ H _ _ Hsw) as (Hr & Hl & Hall). split; [done|]. split; [done|].
    rewrite Forall_forall in Hall |- *. intros case Hin. apply (case_ok_keeps w); [done| |by apply Hall].
    intros c s Hcase [_ Hidle]. apply (Hidle _ _ Hsw). apply Exists_exists. eauto.
  - intros c ch' wait i Hc'. destruct (proj2 Hk _ _ Hc') as (ch & Hc & ->). by apply (si_registered _ _ H).
  - intros c ch' Hc'. destruct (proj2 Hk _ _ Hc') as (ch & Hc & ->). by apply (si_registered_once _ _ H c).
Qed.

Lemma task_inv_ext w g w' g' :
  task_inv w g → w_tasks w' = w_tasks w → w_executors w' = w_executors w → w_homes w' = w_homes w →
  w_notified w' = w_notified w → g_phase g' = g_phase g → task_inv w' g'.
Proof.
  intros H Ht He Hh Hn Hg. assert (∀ e, exec w' e = exec w e) as Hx by (intros e; unfold exec; by rewrite He).
  assert (∀ t, owner w' t = owner w t) as Ho by (intros t; unfold owner; by rewrite Ht).
  assert (∀ t, phase g' t = phase g t) as Hp by (intros t; unfold phase; by rewrite Hg).
  split; rewrite ?Ht; try setoid_rewrite Hx; try setoid_rewrite Ho; try setoid_rewrite Hp; try apply H.
  - apply (homes_same w w'); [done..|apply (ti_home _ _ H)].
  - rewrite Hn. apply H.
Qed.

Lemma queue_inv_ext w g w' :
  queue_inv w g → w_tasks w' = w_tasks w → w_wait_next w' = w_wait_next w → channels_keep w w' →
  (∀ c ch ch' s, w_channels w !! c = Some ch → w_channels w' !! c = Some ch' → side_queue s ch' = side_queue s ch) →
  queue_inv w' g.
Proof.
  intros H Ht Hn Hk Hs. split; rewrite ?Ht, ?Hn.
  - intros c ch' s Hc'. destruct (proj2 Hk _ _ Hc') as (ch & Hc & _). rewrite (Hs c ch ch' s Hc Hc'). by apply (qi_queue _ _ H).
  - intros c s Hc'. apply (qi_none _ _ H). destruct (w_channels w !! c) as [ch|] eqn:Hc; [|done].
    destruct (proj1 Hk _ _ Hc) as (ch' & ? & _). congruence.
  - apply (qi_member _ _ H).
  - apply (qi_next _ _ H).
  - intros t k c s Hkt Hu. destruct (qi_uses _ _ H _ _ _ _ Hkt Hu) as (ch & Hc & He & Hv).
    destruct (proj1 Hk _ _ Hc) as (ch' & Hc' & [Hz _ Hend]). exists ch'. split; [done|]. split.
    + destruct (Hend s He) as [?|[Hidle _]]; [done|]. by destruct (Hidle _ _ Hkt).
    + unfold value_ok in *. by rewrite Hz.
Qed.

(** A channel's data changes, its queues do not. *)
Lemma core_set_channel w g c ch ch' :
  Core w g → w_channels w !! c = Some ch → channel_keeps w c ch ch' →
  send_queue ch' = send_queue ch → receive_queue ch' = receive_queue ch →
  Core (with_channels (insert c ch') w) g.
Proof.
  intros [Ht Hq Hs] Hc Hk H1 H2. assert (channels_keep w (with_channels (insert c ch') w)) as Hkeep
    by (by eapply channels_keep_insert).
  split; [by eapply task_inv_ext|eapply queue_inv_ext; try done|by eapply select_inv_ext].
  intros d chd chd' s Hd. cbn. destruct (decide (d = c)) as [->|]; [|rewrite lookup_insert_ne by done; naive_solver].
  rewrite lookup_insert_eq. intros [= <-]. simplify_eq. by destruct s.
Qed.

End Frames.
