(* ===== verification/ChannelProofs.v ===== *)
(** * How the pieces of a channel call keep the invariant

    A task joins or leaves a queue of a channel; values are copied; the waiting tasks of
    a channel are woken.  [calmer] is what these steps have in common: they let no task
    or select wait that did not wait before. *)
From S2P Require Import Prelude Queue Tasks Channel RuntimeInvariant RuntimeProofs.

Section Pieces.
Context {V : Type}.
Implicit Types (w : World V) (g : Ghost) (k : Task) (ch : Channel V).

Record calmer w g w' g' : Prop := mkCalmer {
  ca_queues : ∀ c s, gq g c s = [] → gq g' c s = [];
  ca_cases : ∀ c kind wait, open_case w' c kind wait → open_case w c kind wait;
}.
Lemma calmer_refl w g : calmer w g w g.
Proof. by split. Qed.
Lemma calmer_trans w1 g1 w2 g2 w3 g3 : calmer w1 g1 w2 g2 → calmer w2 g2 w3 g3 → calmer w1 g1 w3 g3.
Proof. intros [A1 B1] [A2 B2]. split; eauto. Qed.
Lemma woke_calmer w g w' g' : woke w g w' g' → calmer w g w' g'.
Proof.
  intros H. split.
  - intros c s. unfold gq. by rewrite (wo_gq _ _ _ _ H).
  - intros c kind wait (sw & Hsw & Hsig & Hex). destruct (wo_waits _ _ _ _ H wait) as [E|(sw0 & E & E')].
    + exists sw. by rewrite <- E.
    + rewrite Hsw in E'. by injection E' as ->.
Qed.
Lemma calmer_waits w g w' g' : w_waits w' = w_waits w → (∀ c s, gq g c s = [] → gq g' c s = []) → calmer w g w' g'.
Proof. intros Hw Hq. split; [done|]. unfold open_case. by rewrite Hw. Qed.

Lemma quiet_calmer w g w' g' c ch : quiet_at w g c ch → calmer w g w' g' → quiet_at w' g' c ch.
Proof.
  intros [H1 H2 H3 H4 H5] [Hq Hc].
  assert (∀ s, gq g' c s ≠ [] → gq g c s ≠ []) as Hq' by (intros s Hs E; by apply Hs, Hq).
  split.
  - intros H. destruct (H1 (Hq' _ H)) as (? & ? & ?). auto.
  - intros H. by apply H2, Hq'.
  - intros wait H. destruct (H3 wait) as (? & ? & ?); [by apply Hc|]. auto.
  - intros wait H. destruct (H4 wait) as (? & ? & ?); [by apply Hc|]. auto.
  - intros wait1 wait2 Ha Hb. apply H5; by apply Hc.
Qed.

(** ** Queues *)

Lemma queue_inv_replace w g w' g' c ch s q' l' :
  queue_inv w g → w_channels w !! c = Some ch → w_tasks w' = w_tasks w →
  w_channels w' = <[c := set_side_queue s q' ch]> (w_channels w) → g_queue g' = <[(c, s) := l']> (g_queue g) →
  stands_for (w_wait_next w') q' l' →
  (∀ x, x ∉ gq g c s → x ∉ l' → w_wait_next w' !! x = w_wait_next w !! x) →
  (∀ x, x ∈ gq g c s → x ∉ l' → w_wait_next w' !! x = None) →
  (∀ x, x ∈ l' ↔ phase g' x = Some (Waiting c s)) →
  (∀ x c' s', (c', s') ≠ (c, s) → phase g' x = Some (Waiting c' s') ↔ phase g x = Some (Waiting c' s')) →
  queue_inv w' g'.
Proof.
  intros H Hc Ht Hch Hg Hsf Hsame Hgone Hmem Hother.
  assert (Hgq : ∀ c' s', gq g' c' s' = if decide (c' = c ∧ s' = s) then l' else gq g c' s').
  { intros c' s'. rewrite <- gq_set. unfold gq. by rewrite Hg. }
  assert (Hkeep : channels_keep w w').
  { eapply channels_keep_insert; [done..|]. split; [by destruct s..|]. left. by destruct s. }
  split.
  - intros d chd s' Hd. rewrite Hgq. destruct (decide (d = c ∧ s' = s)) as [[-> ->]|Hne].
    + rewrite Hch, lookup_insert_eq in Hd. injection Hd as <-. by destruct s.
    + assert (∃ ch0, w_channels w !! d = Some ch0 ∧ side_queue s' chd = side_queue s' ch0) as (ch0 & H0 & ->).
      { rewrite Hch in Hd. destruct (decide (d = c)) as [->|]; [|rewrite lookup_insert_ne in Hd by done; eauto].
        rewrite lookup_insert_eq in Hd. injection Hd as <-. exists ch. split; [done|]. destruct s, s'; naive_solver. }
      eapply stands_for_frame; [|by apply (qi_queue _ _ H)]. intros x Hx. apply (qi_member _ _ H) in Hx. apply Hsame.
      * intros Hin%(qi_member _ _ H). naive_solver.
      * intros Hin%Hmem. apply Hother in Hx; [|naive_solver]. naive_solver.
  - intros d s' Hd. rewrite Hgq. rewrite Hch in Hd.
    assert (d ≠ c) by (intros ->; by rewrite lookup_insert_eq in Hd). rewrite lookup_insert_ne in Hd by done.
    destruct (decide _) as [[-> _]|_]; [done|by apply (qi_none _ _ H)].
  - intros d s' x. rewrite Hgq. destruct (decide _) as [[-> ->]|Hne]; [apply Hmem|].
    rewrite (qi_member _ _ H). symmetry. apply Hother. naive_solver.
  - intros x Hx. destruct (decide (x ∈ l')) as [Hin%Hmem|Hn]; [by apply Hx in Hin|].
    destruct (decide (x ∈ gq g c s)) as [Hin|Hn']; [by apply Hgone|]. rewrite Hsame by done. apply (qi_next _ _ H).
    intros c' s' Hp. destruct (decide ((c', s') = (c, s))) as [[= -> ->]|Hne]; [by apply (qi_member _ _ H) in Hp|].
    apply Hother in Hp; [|done]. by apply Hx in Hp.
  - rewrite Ht. intros t k d s' Hk Hu. destruct (qi_uses _ _ H _ _ _ _ Hk Hu) as (ch0 & H0 & He & Hv).
    destruct (proj1 Hkeep _ _ H0) as (ch1 & H1 & [Hz _ _]). exists ch1. split; [done|]. unfold value_ok in *. rewrite Hz.
    split; [|done]. rewrite Hch in H1. destruct (decide (d = c)) as [->|].
    + rewrite lookup_insert_eq in H1. simplify_eq. by destruct s'.
    + rewrite lookup_insert_ne in H1 by done. by simplify_eq.
Qed.

Lemma set_side_queue_id s ch : set_side_queue s (side_queue s ch) ch = ch.
Proof. by destruct s, ch. Qed.

Lemma waiting_fields w g t k c s : task_inv w g → w_tasks w !! t = Some k → phase g t = Some (Waiting c s) →
  parked_fields k (Some c) (side_kind s) fdn_channel_cancel_wait.
Proof. intros H Hk Hp. by destruct (ti_fields _ _ H _ _ _ Hk Hp). Qed.
Lemma waiting_task w g c s t : Core w g → t ∈ gq g c s →
  phase g t = Some (Waiting c s) ∧ ∃ k, w_tasks w !! t = Some k ∧ parked_fields k (Some c) (side_kind s) fdn_channel_cancel_wait.
Proof.
  intros [Ht Hq _] Hin%(qi_member _ _ Hq). split; [done|]. destruct (proj2 (ti_dom _ _ Ht t)) as [k Hk]; [eauto|].
  exists k. split; [done|]. by eapply waiting_fields.
Qed.

(** A task that leaves a queue, and one that joins: the parts of the invariant that do
    not look at the queues. *)
Lemma moved_core w g w' t k p p' c ch s q' l' :
  task_inv w g → select_inv w g → w_tasks w !! t = Some k → phase g t = Some p →
  (p = Waiting c s ∧ p' = Popped ∨ p = Popped ∧ p' = Waiting c s) → phase_fields k p' →
  w_channels w !! c = Some ch → w_tasks w' = w_tasks w → w_waits w' = w_waits w → w_executors w' = w_executors w →
  w_homes w' = w_homes w → w_notified w' = w_notified w → w_channels w' = <[c := set_side_queue s q' ch]> (w_channels w) →
  task_inv w' (set_gq c s l' (set_phase t p' g)) ∧ select_inv w' (set_gq c s l' (set_phase t p' g)).
Proof.
  intros Ht Hs Hk Hp Hpp Hf Hc Htk Hw He Hh Hn Hch.
  assert (Hwt : w_tasks w = <[t := k]> (w_tasks w)) by (by rewrite insert_id).
  split.
  - eapply task_inv_ext; [eapply (task_inv_step w g w t k k p p'); try done|done..].
    1-4: destruct Hpp as [[-> ->]|[-> ->]]; done.
    + intros e Hin. split_and!; [destruct Hpp as [[-> ->]|[-> ->]]; done..|].
      intros Htl%(ti_interrupted _ _ Ht). destruct Hpp as [[-> ->]|[-> ->]]; congruence.
    + eapply relisted_same; [done|exact Hp|..|done]; destruct Hpp as [[-> ->]|[-> ->]]; done.
  - eapply (select_inv_ext w (set_phase t p' g)); try done.
    + eapply (select_inv_step w g w t k k p p'); try done; destruct Hpp as [[-> ->]|[-> ->]]; done.
    + eapply channels_keep_insert; [done..|]. split; [by destruct s..|]. left. by destruct s.
Qed.

Definition popped w (c : nat) ch (s : Side) (t : nat) (q' : Queue) : World V :=
  with_channels (insert c (set_side_queue s q' ch)) (with_wait_next (delete t) w).

Lemma pop_runs w g c ch s (Q : option nat → World V → Prop) :
  Core w g → w_channels w !! c = Some ch →
  (gq g c s = [] → Q None w) →
  (∀ t rest k q', gq g c s = t :: rest → w_tasks w !! t = Some k → phase g t = Some (Waiting c s) →
     parked_fields k (Some c) (side_kind s) fdn_channel_cancel_wait →
     Core (popped w c ch s t q') (set_gq c s rest (set_phase t Popped g)) → Q (Some t) (popped w c ch s t q')) →
  runs (pop_waiting s c) w Q.
Proof.
  intros Hcore Hc Hnone Hsome. pose proof Hcore as [Ht Hq Hs].
  unfold pop_waiting. apply (call_get_channel _ ch); [done|]. apply call_get.
  pose proof (pop_stands_for _ _ _ (qi_queue _ _ Hq c ch s Hc)) as Hpop. unfold wait_pop in *.
  destruct (q_head (side_queue s ch)) as [t|] eqn:Eh.
  - destruct (gq g c s) as [|t' rest] eqn:El; [by destruct Hpop as [[=] _]|]. destruct Hpop as ([= <-] & Hsf & Hn).
    apply call_modify, call_set_channel, call_ret.
    destruct (waiting_task _ _ c s t Hcore) as (Hp & k & Hk & Hf); [rewrite El; left|].
    cbn [w_wait_next w_channels with_wait_next]. unfold with_wait_next. cbn.
    set (q' := mkQueue _ _) in *.
    apply (Hsome t rest k q'); try done. destruct (moved_core w g (popped w c ch s t q') t k (Waiting c s) Popped c ch s q' rest)
      as [H1 H2]; try done; [by left|left; eauto|].
    split; [done| |done]. eapply queue_inv_replace; try done; rewrite ?El.
    + intros x Hx _. cbn. rewrite lookup_delete_ne; [done|]. intros <-. apply Hx. left.
    + intros x [->|Hx]%elem_of_cons Hnx; [|done]. cbn. by rewrite lookup_delete_eq.
    + pose proof (sf_distinct _ _ _ (qi_queue _ _ Hq c ch s Hc)) as Hd. rewrite El in Hd. apply NoDup_cons in Hd as [Hd _].
      intros x. rewrite phase_set_gq, phase_set. destruct (decide (x = t)) as [->|Hne]; [naive_solver|].
      rewrite <- (qi_member _ _ Hq), El, elem_of_cons. naive_solver.
    + intros x c' s' Hne. rewrite phase_set_gq, phase_set. destruct (decide (x = t)) as [->|]; [|done].
      rewrite Hp. split; [done|]. intros [= -> ->]. done.
  - destruct Hpop as (Hl & _). apply call_modify, call_set_channel, call_ret. rewrite set_side_queue_id.
    unfold with_channels, with_wait_next. cbn. rewrite insert_id by done. destruct w. apply Hnone. by destruct (gq g c s).
Qed.

Definition pushed w (c : nat) ch (s : Side) (next : Successors) (q' : Queue) : World V :=
  with_channels (insert c (set_side_queue s q' ch)) (with_wait_next (λ _, next) w).

Lemma push_runs w g c ch s t k (Q : unit → World V → Prop) :
  Core w g → w_channels w !! c = Some ch → w_tasks w !! t = Some k → phase g t = Some Popped →
  parked_fields k (Some c) (side_kind s) fdn_channel_cancel_wait →
  (∀ next q', Core (pushed w c ch s next q') (set_gq c s (gq g c s ++ [t]) (set_phase t (Waiting c s) g)) →
     Q tt (pushed w c ch s next q')) →
  runs (push_waiting s c t) w Q.
Proof.
  intros Hcore Hc Hk Hp Hf Hpost. pose proof Hcore as [Ht Hq Hs].
  assert (Hn : w_wait_next w !! t = None) by (apply (qi_next _ _ Hq); intros d s'; by rewrite Hp).
  assert (Hnt : t ∉ gq g c s) by (intros Hin%(qi_member _ _ Hq); congruence).
  unfold push_waiting. apply (call_get_channel _ ch); [done|]. apply call_get.
  destruct (wait_push (w_wait_next w) (side_queue s ch) t) as [[next q']|] eqn:E; [|unfold wait_push in E; by rewrite Hn in E].
  destruct (push_stands_for _ _ _ _ _ _ (qi_queue _ _ Hq c ch s Hc) Hnt E) as [Hsf Hsame].
  apply call_modify, call_modify_end. apply (Hpost next q').
  destruct (moved_core w g (pushed w c ch s next q') t k Popped (Waiting c s) c ch s q' (gq g c s ++ [t])) as [H1 H2]; try done;
    [by right|]. split; [done| |done]. eapply queue_inv_replace; try done.
  - intros x Hx _. by apply Hsame.
  - intros x Hx Hnx. destruct Hnx. apply elem_of_app. by left.
  - intros x. rewrite phase_set_gq, phase_set, elem_of_app, list_elem_of_singleton, (qi_member _ _ Hq).
    destruct (decide (x = t)) as [->|]; naive_solver.
  - intros x c' s' Hne. rewrite phase_set_gq, phase_set. destruct (decide (x = t)) as [->|]; [|done]. rewrite Hp. naive_solver.
Qed.

(** A task of the queue is taken out of it; for any other task nothing changes. *)
Lemma remove_runs w g c ch s t k (Q : bool → World V → Prop) :
  Core w g → w_channels w !! c = Some ch → w_tasks w !! t = Some k →
  (phase g t = Some (Waiting c s) → ∀ next q',
     Core (pushed w c ch s next q') (set_gq c s (without t (gq g c s)) (set_phase t Popped g)) → Q true (pushed w c ch s next q')) →
  (phase g t ≠ Some (Waiting c s) → ∀ next q', Core (pushed w c ch s next q') g → Q false (pushed w c ch s next q')) →
  runs (remove_waiting s c t) w Q.
Proof.
  intros Hcore Hc Hk Hin Hout. pose proof Hcore as [Ht Hq Hs].
  unfold remove_waiting. apply (call_get_channel _ ch); [done|]. apply call_get.
  pose proof (qi_queue _ _ Hq c ch s Hc) as Hsf0.
  assert (Hlen : length (gq g c s) ≤ size (w_tasks w)).
  { rewrite <- (size_dom (D := gset nat)), <- (size_list_to_set (C := gset nat)) by apply Hsf0.
    apply subseteq_size. intros x Hx%elem_of_list_to_set. destruct (waiting_task _ _ c s x Hcore Hx) as (_ & kx & Hkx & _).
    by apply elem_of_dom. }
  destruct (remove_stands_for _ _ _ _ t Hsf0 Hlen) as (next & q' & -> & Hsf & Hgone & Hsame).
  apply call_modify, call_set_channel, call_ret. case_bool_decide as Hmem.
  - destruct (waiting_task _ _ c s t Hcore Hmem) as (Hp & k' & Hk' & Hf). simplify_eq. apply (Hin Hp next q').
    destruct (moved_core w g (pushed w c ch s next q') t k (Waiting c s) Popped c ch s q' (without t (gq g c s))) as [H1 H2];
      try done; [by left|left; eauto|]. split; [done| |done]. eapply queue_inv_replace; try done.
    + intros x Hx _. by apply Hsame.
    + intros x Hx Hnx. destruct (decide (x = t)) as [->|Hne]; [by apply Hgone|]. destruct Hnx.
      unfold without. by apply list_elem_of_filter.
    + intros x. rewrite phase_set_gq, phase_set. unfold without. rewrite list_elem_of_filter, (qi_member _ _ Hq).
      destruct (decide (x = t)) as [->|]; naive_solver.
    + intros x c' s' Hne. rewrite phase_set_gq, phase_set. destruct (decide (x = t)) as [->|]; [|done].
      rewrite Hp. split; [done|]. intros [= -> ->]. done.
  - apply Hout; [by rewrite <- (qi_member _ _ Hq)|]. set (w' := pushed _ _ _ _ _ _).
    rewrite without_absent in Hsf by done. split.
    + by eapply task_inv_ext.
    + assert (queue_inv w' (set_gq c s (gq g c s) g)) as Hq'.
      { eapply queue_inv_replace; try done.
        - intros x Hx _. by apply Hsame.
        - intros x. rewrite phase_set_gq. apply (qi_member _ _ Hq). }
      split; try apply Hq'.
      * intros d chd s' Hd. pose proof (qi_queue _ _ Hq' d chd s' Hd) as H. rewrite gq_set in H.
        destruct (decide _) as [[-> ->]|]; done.
      * intros d s' Hd. pose proof (qi_none _ _ Hq' d s' Hd) as H. rewrite gq_set in H.
        destruct (decide _) as [[-> ->]|]; done.
      * intros d s' x. rewrite <- (phase_set_gq g c s (gq g c s)), <- (qi_member _ _ Hq' d s' x), gq_set.
        destruct (decide _) as [[-> ->]|]; done.
    + eapply select_inv_ext; try done. eapply channels_keep_insert; [done..|]. split; [by destruct s..|]. left. by destruct s.
Qed.

End Pieces.
