(* ===== verification/ChannelCalls.v ===== *)
(** * What a send and a receive do

    [fdn_channel_try_send_locked], [fdn_channel_try_receive_locked] and the functions
    they call, from a state in which the invariant holds: every way they end, with the
    values they move. *)
From S2P Require Import Prelude Queue Tasks Channel RuntimeInvariant RuntimeProofs ChannelProofs.
#[local] Opaque SIZE_MAX UINT_MAX message_header.

Section Calls.
Context {V : Type}.
Implicit Types (w : World V) (g : Ghost) (k : Task) (ch : Channel V).

(** ** Values *)

(** What [fdn_channel_copy] reads at a pointer, and what it leaves behind. *)
Definition payload ch (m : gmap nat V) (source : option nat) : option V :=
  if (value_size ch =? 0)%N then None else source ≫= λ p, m !! p.
Definition store ch (target : option nat) (v : option V) (m : gmap nat V) : gmap nat V :=
  if (value_size ch =? 0)%N then m else match target with Some p => partial_alter (λ _, v) p m | None => m end.

Lemma value_ok_cases ch p : value_ok ch p → value_size ch = 0%N ∨ value_size ch ≠ 0%N ∧ is_Some p.
Proof. intros [?|?]; destruct (decide (value_size ch = 0%N)); auto. Qed.
Lemma with_memory_id w : with_memory (λ m, m) w = w.
Proof. by destruct w. Qed.

Lemma copy_runs w ch target source Q :
  value_ok ch target → value_ok ch source → Q tt (with_memory (store ch target (payload ch (w_memory w) source)) w) →
  runs (channel_copy ch target source) w Q.
Proof.
  intros Ht Hs HQ. unfold channel_copy, store, payload in *. destruct (value_ok_cases _ _ Ht) as [Hz|[Hz [t ->]]].
  - rewrite Hz in *. cbn in *. apply call_ret. by rewrite with_memory_id in HQ.
  - destruct (value_ok_cases _ _ Hs) as [?|[_ [p ->]]]; [done|]. apply N.eqb_neq in Hz. rewrite Hz in *. cbn in HQ.
    by apply call_modify_end.
Qed.
Lemma copy_in_runs w ch source (Q : option V → World V → Prop) :
  value_ok ch source → Q (payload ch (w_memory w) source) w → runs (copy_in ch source) w Q.
Proof.
  intros Hs HQ. unfold copy_in, payload in *. destruct (value_ok_cases _ _ Hs) as [Hz|[Hz [p ->]]].
  - rewrite Hz in *. by apply call_ret.
  - apply N.eqb_neq in Hz. rewrite Hz in *. by apply call_get, call_ret.
Qed.
Lemma copy_out_runs w ch target m Q :
  value_ok ch target → Q tt (with_memory (store ch target m) w) → runs (copy_out ch target m) w Q.
Proof.
  intros Ht HQ. unfold copy_out, store in *. destruct (value_ok_cases _ _ Ht) as [Hz|[Hz [t ->]]].
  - rewrite Hz in *. cbn in *. apply call_ret. by rewrite with_memory_id in HQ.
  - apply N.eqb_neq in Hz. rewrite Hz in *. by apply call_modify_end.
Qed.

(** ** Data and quiet, as a channel changes *)

Lemma data_same loose w w' :
  data_inv loose w → w_channels w' = w_channels w → w_channel_count w' = w_channel_count w → data_inv loose w'.
Proof. intros [H1 H2 H3 H4] Hc Hn. split; rewrite ?Hc, ?Hn; done. Qed.
Lemma data_insert loose loose' w w' c ch ch' :
  data_inv loose w → w_channels w !! c = Some ch → w_channels w' = <[c := ch']> (w_channels w) →
  w_channel_count w' = w_channel_count w → channel_ok ch' → (loose' ≠ Some c → used ch') →
  (∀ d, d ≠ c → loose' ≠ Some d → loose ≠ Some d) → data_inv loose' w'.
Proof.
  intros [H1 H2 H3 H4] Hc Hw Hn Hok Hu Hl. split; rewrite ?Hn, ?Hw; [| | |done].
  - intros d chd. destruct (decide (d = c)) as [->|]; [rewrite lookup_insert_eq; naive_solver|].
    rewrite lookup_insert_ne by done. apply H1.
  - intros d chd. destruct (decide (d = c)) as [->|Hne]; [rewrite lookup_insert_eq; naive_solver|].
    rewrite lookup_insert_ne by done. intros Hd Hld. apply (H2 d); [done|]. by apply Hl.
  - rewrite map_size_insert_Some; [done|by rewrite Hc].
Qed.
Lemma channel_ok_queue ch s q' : channel_ok ch → channel_ok (set_side_queue s q' ch).
Proof. intros [A B C D E F G]. exact (mkChannelOk (set_side_queue s q' ch) A B C D E F G). Qed.
Lemma data_queue loose w w' c ch s q' :
  data_inv loose w → w_channels w !! c = Some ch → w_channels w' = <[c := set_side_queue s q' ch]> (w_channels w) →
  w_channel_count w' = w_channel_count w → data_inv loose w'.
Proof.
  intros H Hc Hw Hn. eapply data_insert; try done.
  - apply channel_ok_queue. exact (di_ok _ _ H _ _ Hc).
  - intros Hl. exact (di_used _ _ H _ _ Hc Hl).
Qed.

(** The fields of a channel that [quiet_at] reads. *)
Record same_data ch ch' : Prop := mkSameData {
  sd_messages : messages ch' = messages ch;
  sd_capacity : capacity ch' = capacity ch;
  sd_buffered : buffered ch' = buffered ch;
  sd_senders : senders ch' = senders ch;
  sd_receivers : receivers ch' = receivers ch;
}.
Lemma quiet_same w g w' g' c ch ch' : quiet_at w g c ch → calmer w g w' g' → same_data ch ch' → quiet_at w' g' c ch'.
Proof.
  intros H Hc [E1 E2 E3 E4 E5]. destruct (quiet_calmer _ _ _ _ _ _ H Hc) as [H1 H2 H3 H4 H5].
  split; rewrite ?E1, ?E2, ?E3, ?E4, ?E5; done.
Qed.
Lemma quiet_insert w g w' g' c ch' :
  quiet w g → calmer w g w' g' → w_channels w' = <[c := ch']> (w_channels w) → quiet_at w' g' c ch' → quiet w' g'.
Proof.
  intros H Hc Hw Hat d chd. rewrite Hw. destruct (decide (d = c)) as [->|].
  - rewrite lookup_insert_eq. by intros [= <-].
  - rewrite lookup_insert_ne by done. intros Hd. eapply quiet_calmer; [by apply H|done].
Qed.
Lemma quiet_woke w g w' g' : quiet w g → woke w g w' g' → quiet w' g'.
Proof.
  intros H Hw c ch. rewrite (wo_channels _ _ _ _ Hw). intros Hc. eapply quiet_calmer; [by apply H|by apply woke_calmer].
Qed.

(** No select waits on the channel. *)
Definition no_open w (c : nat) : Prop := ∀ kind wait, ¬ open_case w c kind wait.
Lemma no_open_calmer w g w' g' c : no_open w c → calmer w g w' g' → no_open w' c.
Proof. intros H Hc kind wait Ho. eapply H. by apply (ca_cases _ _ _ _ Hc). Qed.

(** ** Registrations *)

Lemma existsb_take_first {A} (f : A → Prop) `{∀ x, Decision (f x)} (l : list A) x :
  x ∈ l → f x → ∃ i y, l !! i = Some y ∧ f y ∧ ∀ j z, j < i → l !! j = Some z → ¬ f z.
Proof.
  induction l as [|y l IH]; [by intros ?%not_elem_of_nil|]. intros Hx Hf. destruct (decide (f y)) as [Hy|Hy].
  - exists 0, y. split; [done|]. split; [done|]. intros j z ?. lia.
  - apply elem_of_cons in Hx as [->|Hx]; [done|]. destruct (IH Hx Hf) as (i & z & Hi & Hz & Hfirst).
    exists (S i), z. split; [done|]. split; [done|]. intros [|j] z' Hj; cbn; [by intros [= <-]|]. apply Hfirst. lia.
Qed.

Lemma registrations_case cases c kind :
  Exists (is_case c kind) cases → ∃ i, registrations cases !! i = Some (Some c).
Proof.
  intros (case & Hin & Hcase & _)%Exists_exists.
  destruct (existsb_take_first (λ x, case_channel x = Some c) cases case Hin Hcase) as (i & first & Hi & Hf & Hfirst).
  exists i. unfold registrations. rewrite list_lookup_imap, Hi. cbn. f_equal. rewrite Hf.
  assert (existsb (λ previous, bool_decide (case_channel previous = Some c)) (take i cases) = false) as ->; [|done].
  apply not_true_iff_false. intros (x & Hx & Hb)%existsb_exists. apply list_elem_of_In, list_elem_of_lookup in Hx as [j Hj].
  apply bool_decide_eq_true in Hb. pose proof (lookup_lt_Some _ _ _ Hj) as Hlt. rewrite length_take in Hlt.
  rewrite lookup_take in Hj. destruct (decide (j < i)) in Hj; [|done]. eapply Hfirst; [|exact Hj|done]. lia.
Qed.

(** A wait with a case on the channel has a registration there. *)
Lemma case_registered w g c ch kind wait sw :
  Core w g → w_channels w !! c = Some ch → w_waits w !! wait = Some sw → Exists (is_case c kind) (sw_cases sw) →
  ∃ i, (wait, i) ∈ selects ch.
Proof.
  intros [_ _ Hs] Hc Hsw Hex. destruct (registrations_case _ _ _ Hex) as [i Hi]. exists i.
  apply (si_registered _ _ Hs c ch wait i Hc). exists sw. split; [done|]. by rewrite (proj1 (si_cases _ _ Hs _ _ Hsw)).
Qed.
Lemma registered_wait w g c ch wait i :
  Core w g → w_channels w !! c = Some ch → (wait, i) ∈ selects ch → is_Some (w_waits w !! wait).
Proof. intros [_ _ Hs] Hc Hin. apply (si_registered _ _ Hs c ch wait i Hc) in Hin as (sw & ? & _). eauto. Qed.

(** [fdn_channel_select_signal_locked]: afterwards no select waits on the channel. *)
Lemma signal_runs here c ch w g Q :
  Core w g → calm here w g → w_channels w !! c = Some ch →
  (∀ w' g', Core w' g' → woke w g w' g' → w_memory w' = w_memory w → settles g g' → spares w g w' g' → no_open w' c →
     Q tt w') →
  runs (select_signal here c) w Q.
Proof.
  intros Hcore Hcalm Hc HQ. unfold select_signal. apply (call_get_channel _ ch); [done|].
  apply (signal_all_runs here _ w g); [done|done|intros wait i; by apply (registered_wait w g c)|].
  intros w' g' Hc' Hw Hm Hset Hsp Hsig. apply (HQ w' g'); try done. intros kind wait (sw & Hsw & Hns & Hex).
  destruct (case_registered w' g' c ch kind wait sw) as [i Hi]; try done; [by rewrite (wo_channels _ _ _ _ Hw)|].
  rewrite (Hsig wait i sw Hi Hsw) in Hns. done.
Qed.

Lemma encode_some i : (N.of_nat i < N.shiftr UINT_MAX 8)%N → ∃ n, select_encode (N.of_nat i) FDN_CHANNEL_READY = Some n.
Proof. intros H. unfold select_encode. apply N.leb_gt in H. rewrite H. eauto. Qed.

(** A select wait that takes part in the call of another task: the case it takes, and
    what the world is like when the value was moved. *)
Definition is_open w (c : nat) (kind : N) (wait : nat) (candidate : SelectCase) : Prop :=
  ∃ sw i, w_waits w !! wait = Some sw ∧ sw_signaled sw = false ∧
    list_find (is_case c kind) (sw_cases sw) = Some (i, candidate).

(** The task of that select resumes with the index of the case. *)
Definition selected w w' (c : nat) (kind : N) (wait : nat) (candidate : SelectCase) : Prop :=
  ∃ sw i status, w_waits w !! wait = Some sw ∧ list_find (is_case c kind) (sw_cases sw) = Some (i, candidate) ∧
    select_encode (N.of_nat i) FDN_CHANNEL_READY = Some status ∧ will_resume w' (sw_task sw) status.

Lemma match_all_runs here c ch kind value l w g (Q : bool → World V → Prop) :
  Core w g → calm here w g → w_channels w !! c = Some ch → value_ok ch value →
  (∀ wait i, (wait, i) ∈ l → is_Some (w_waits w !! wait)) →
  ((∀ wait i, (wait, i) ∈ l → ¬ open_case w c kind wait) → Q false w) →
  (∀ w' g' wait candidate, is_open w c kind wait candidate → Core w' g' → woke w g w' g' → settles g g' →
     value_ok ch (case_value candidate) →
     w_memory w' = (if (kind =? FDN_CHANNEL_SELECT_RECEIVE)%N
                    then store ch (case_value candidate) (payload ch (w_memory w) value)
                    else store ch value (payload ch (w_memory w) (case_value candidate))) (w_memory w) →
     selected w w' c kind wait candidate → Q true w') →
  runs (match_all here c kind value l) w Q.
Proof.
  intros Hcore Hcalm Hc Hv. induction l as [|[wait i] l IH]; intros Hl Hnone Hsome; cbn [match_all].
  { apply call_ret, Hnone. by intros ?? ?%not_elem_of_nil. }
  destruct (Hl wait i) as [sw Hsw]; [left|]. apply (call_get_wait _ sw); [done|].
  assert (Hrest : ¬ open_case w c kind wait → runs (match_all here c kind value l) w Q).
  { intros Hno. apply IH; [intros wait' j Hj; apply (Hl wait' j); by right| |done].
    intros Hall. apply Hnone. intros wait' j [[= -> ->]|Hj]%elem_of_cons; [done|by eapply Hall]. }
  destruct (list_find _ _) as [[index candidate]|] eqn:Ef; cycle 1.
  { apply Hrest. intros (sw' & Hsw' & _ & Hex). simplify_eq. apply list_find_None in Ef.
    apply Exists_exists in Hex as (x & Hx & Hcase). rewrite Forall_forall in Ef. by apply (Ef x). }
  apply call_bind. apply (claim_runs w g wait sw); [done|intros Esig..].
  { cbn. apply Hrest. intros (sw' & Hsw' & Hns & _). simplify_eq. congruence. }
  cbn [negb]. destruct (selecting_task _ _ _ _ Hcore Hsw Esig) as (Hp & k & Hk & _).
  pose proof (claim_core _ _ _ _ Hcore Hsw Esig) as Hc1. pose proof (claim_woke _ _ _ _ Hcore Hsw Esig) as Hw1.
  apply (call_get_channel _ ch); [done|].
  pose proof (core_select _ _ Hcore) as Hs. destruct (si_cases _ _ Hs _ _ Hsw) as (_ & Hlen & Hall).
  pose proof Ef as (Hidx & Hcase & _)%list_find_Some.
  assert (Hcv : value_ok ch (case_value candidate)).
  { rewrite Forall_forall in Hall. destruct (Hall candidate) as (c' & ch' & E & Hc' & ? & _); [by eapply list_elem_of_lookup_2|].
    destruct Hcase as [Ecase _]. rewrite Ecase in E. injection E as <-. rewrite Hc in Hc'. by injection Hc' as <-. }
  set (w1 := with_waits _ w) in *. set (f := if (kind =? FDN_CHANNEL_SELECT_RECEIVE)%N then store ch (case_value candidate) (payload ch (w_memory w) value)
    else store ch value (payload ch (w_memory w) (case_value candidate))).
  apply call_bind. assert (Hcopy : ∀ P : unit → World V → Prop, P tt (with_memory f w1) →
    runs (if (kind =? FDN_CHANNEL_SELECT_RECEIVE)%N then channel_copy ch (case_value candidate) value
          else channel_copy ch value (case_value candidate)) w1 P).
  { intros P HP. unfold f in HP. destruct (kind =? _)%N; by apply copy_runs. }
  apply Hcopy. destruct (encode_some index) as [status Hst].
  { apply lookup_lt_Some in Hidx. lia. }
  rewrite Hst. apply call_bind.
  eapply (wake_runs here (with_memory f w1) _ _ k); [by apply core_memory|done|by rewrite phase_set, decide_True|
    by intros Hin; eapply (Hcalm _ _ Hin)|].
  intros w2 Hc2 Hw2 Hm2 Hon. apply call_ret. eapply (Hsome w2 _ wait candidate); [|exact Hc2|..]; try done.
  - by exists sw, index.
  - eapply woke_trans; [exact Hw1|]. destruct Hw2. by split.
  - intros t. rewrite !phase_set. unfold wake_place. destruct (decide (t = _)); [by destruct (decide _)|done].
  - exists sw, index, status. split; [done|]. split; [done|]. split; [done|apply Hon].
Qed.

Lemma match_runs here c ch kind value w g (Q : bool → World V → Prop) :
  Core w g → calm here w g → w_channels w !! c = Some ch → value_ok ch value →
  ((∀ wait, ¬ open_case w c kind wait) → Q false w) →
  (∀ w' g' wait candidate, is_open w c kind wait candidate → Core w' g' → woke w g w' g' → settles g g' →
     value_ok ch (case_value candidate) →
     w_memory w' = (if (kind =? FDN_CHANNEL_SELECT_RECEIVE)%N
                    then store ch (case_value candidate) (payload ch (w_memory w) value)
                    else store ch value (payload ch (w_memory w) (case_value candidate))) (w_memory w) →
     selected w w' c kind wait candidate → Q true w') →
  runs (select_match here c kind value) w Q.
Proof.
  intros Hcore Hcalm Hc Hv Hnone Hsome. unfold select_match. apply (call_get_channel _ ch); [done|].
  apply (match_all_runs here c ch kind value _ w g); try done; [intros wait i; by apply (registered_wait w g c)|].
  intros Hall. apply Hnone. intros wait Ho. pose proof Ho as (sw & Hsw & _ & Hex).
  destruct (case_registered w g c ch kind wait sw) as [i Hi]; try done. by apply (Hall wait i).
Qed.

(** ** Between calls *)

(** The tasks of this thread run: none is parked. *)
Definition free (here : nat) w g : Prop := ∀ t, t ∈ e_current (exec w here) → phase g t = Some Running.
Lemma free_calm here w g : free here w g → calm here w g.
Proof. intros H t p Ht Hp Hl. rewrite (H t Ht) in Hp. by injection Hp as <-. Qed.

Lemma settled_popped g t p g' : settled g → p ≠ Popped → settles (set_phase t p g) g' → settled g'.
Proof.
  intros Hs Hp Hset u Hu%Hset. rewrite phase_set in Hu. destruct (decide (u = t)); [congruence|by apply (Hs u)].
Qed.

(** A task is taken out of a queue, a value may be copied, and the task is woken. *)
Lemma pop_wake_runs here w g c ch s f status t rest k q' Q :
  inv w g → free here w g → w_channels w !! c = Some ch → gq g c s = t :: rest → w_tasks w !! t = Some k →
  phase g t = Some (Waiting c s) →
  Core (popped w c ch s t q') (set_gq c s rest (set_phase t Popped g)) →
  (∀ w' g', inv w' g' → woke (with_memory f (popped w c ch s t q')) (set_gq c s rest (set_phase t Popped g)) w' g' →
     w_memory w' = f (w_memory w) → will_resume w' t status → Q tt w') →
  runs (wake here t status) (with_memory f (popped w c ch s t q')) Q.
Proof.
  intros [Hcore Hdata Hquiet Hset] Hfree Hc Hq Hk Hp Hc1 HQ.
  set (g1 := set_gq c s rest (set_phase t Popped g)) in *. set (w1 := with_memory f _).
  eapply (wake_runs here w1 g1 t k); [by apply core_memory|done|by unfold g1; rewrite phase_set_gq, phase_set, decide_True| |].
  { intros Hin%Hfree. congruence. }
  intros w' Hc' Hw Hm Hon. eapply (HQ w' _); [|exact Hw|done|apply Hon]. split; [done| | |].
  - eapply data_same; [|apply (wo_channels _ _ _ _ Hw)|apply (wo_count _ _ _ _ Hw)]. by eapply (data_queue None w w1).
  - eapply quiet_woke; [|exact Hw]. assert (Hcalm : calmer w g w1 g1).
    { apply calmer_waits; [done|]. intros d s' Hd. unfold g1. rewrite gq_set. destruct (decide _) as [[-> ->]|]; [congruence|done]. }
    eapply quiet_insert; [exact Hquiet|exact Hcalm|done|]. eapply quiet_same; [by apply Hquiet|done|]. by destruct s.
  - intros u. unfold wake_place. rewrite phase_set. destruct (decide (u = t)) as [->|Hne]; [by destruct (decide _)|].
    unfold g1. rewrite phase_set_gq, phase_set, decide_False by done. apply Hset.
Qed.

(** ** [fdn_channel_buffer_push] *)

Lemma keeps_messages w c ch b l : channel_keeps w c ch (set_messages b l ch).
Proof. split; [done|done|]. intros s. left. by destruct s. Qed.

Definition buffer_with ch (m : option V) : Channel V := set_messages ((buffered ch + 1) mod 2 ^ 64) (messages ch ++ [m]) ch.

Lemma buffer_push_runs here w g c ch value Q :
  Core w g → calm here w g → w_channels w !! c = Some ch → channel_ok ch → value_ok ch value →
  (∀ w' g', Core w' g' → woke (with_channels (insert c (buffer_with ch (payload ch (w_memory w) value))) w) g w' g' →
     w_memory w' = w_memory w → settles g g' →
     spares (with_channels (insert c (buffer_with ch (payload ch (w_memory w) value))) w) g w' g' → no_open w' c → Q tt w') →
  runs (buffer_push here c value) w Q.
Proof.
  intros Hcore Hcalm Hc Hok Hv HQ. unfold buffer_push. apply (call_get_channel _ ch); [done|].
  pose proof (co_value _ Hok) as Hsize. apply N.ltb_ge in Hsize. rewrite Hsize.
  apply call_bind, copy_in_runs; [done|]. apply call_set_channel.
  set (w1 := with_channels _ w). apply (signal_runs here c (buffer_with ch (payload ch (w_memory w) value)) w1 g).
  - apply (core_set_channel w g c ch); try done. apply keeps_messages.
  - done.
  - cbn. by rewrite lookup_insert_eq.
  - intros w' g' Hc' Hw Hm Hs Hsp Hno. by apply (HQ w' g').
Qed.

Lemma buffer_ok ch m : channel_ok ch → (buffered ch < capacity ch)%N → receivers ch ≠ 0%N →
  channel_ok (buffer_with ch m) ∧ buffered (buffer_with ch m) = (buffered ch + 1)%N.
Proof.
  intros [Hb Hcap Hsz Hv Hr Hh Hn] Hlt Hrc.
  assert (buffered (buffer_with ch m) = buffered ch + 1)%N as E.
  { cbn. apply N.mod_small. assert (SIZE_MAX < 2 ^ 64)%N by (vm_compute; reflexivity). lia. }
  split; [|done]. split; rewrite ?E; cbn.
  - rewrite length_app, Hb. cbn. lia.
  - lia.
  - exact Hsz.
  - exact Hv.
  - intros H0. by destruct Hrc.
  - exact Hh.
  - exact Hn.
Qed.

(** ** [fdn_channel_try_send_locked] *)

Lemma send_locked_runs here w g c ch value (Q : option N → World V → Prop) :
  inv w g → free here w g → w_channels w !! c = Some ch → value_ok ch value →
  (receivers ch = 0%N → Q (Some FDN_CHANNEL_CLOSED) w) →
  (∀ w' g' t rest k q', gq g c Receive = t :: rest → w_tasks w !! t = Some k → inv w' g' →
     woke (with_memory (store ch (wait_value k) (payload ch (w_memory w) value)) (popped w c ch Receive t q'))
       (set_gq c Receive rest (set_phase t Popped g)) w' g' →
     w_memory w' = store ch (wait_value k) (payload ch (w_memory w) value) (w_memory w) →
     will_resume w' t FDN_CHANNEL_READY → Q (Some FDN_CHANNEL_READY) w') →
  (∀ w' g' wait candidate, gq g c Receive = [] → is_open w c FDN_CHANNEL_SELECT_RECEIVE wait candidate → inv w' g' →
     woke w g w' g' → w_memory w' = store ch (case_value candidate) (payload ch (w_memory w) value) (w_memory w) →
     selected w w' c FDN_CHANNEL_SELECT_RECEIVE wait candidate → Q (Some FDN_CHANNEL_READY) w') →
  (∀ w' g', gq g c Receive = [] → gq g c Send = [] → (buffered ch < capacity ch)%N → (∀ wait, ¬ open_case w c FDN_CHANNEL_SELECT_RECEIVE wait) → inv w' g' →
     woke (with_channels (insert c (buffer_with ch (payload ch (w_memory w) value))) w) g w' g' → w_memory w' = w_memory w →
     Q (Some FDN_CHANNEL_READY) w') →
  (receivers ch ≠ 0%N → gq g c Receive = [] → (∀ wait, ¬ open_case w c FDN_CHANNEL_SELECT_RECEIVE wait) →
     (capacity ch <= buffered ch)%N → Q None w) →
  runs (send_locked here c value) w Q.
Proof.
  intros Hinv Hfree Hc Hv Hclosed Hhand Hmatch Hbuffer Hpend. pose proof Hinv as [Hcore Hdata Hquiet Hset].
  pose proof (free_calm _ _ _ Hfree) as Hcalm. pose proof (di_ok _ _ Hdata _ _ Hc) as Hok.
  unfold send_locked. apply (call_get_channel _ ch); [done|].
  destruct (N.eqb_spec (receivers ch) 0) as [E|Hrc]; [by apply call_ret, Hclosed|].
  apply call_bind, (pop_runs w g c ch Receive); [done|done|intros Hnone|].
  - apply call_bind, (match_runs here c ch _ value w g); [done..|intros Hno|].
    + apply (call_get_channel _ ch); [done|]. destruct (N.ltb_spec (buffered ch) (capacity ch)) as [Hlt|Hge]; [|by apply call_ret, Hpend].
      assert (Hns : gq g c Send = []).
      { destruct (gq g c Send) as [|t l] eqn:E; [done|]. destruct (qu_send _ _ _ _ (Hquiet _ _ Hc)); [by rewrite E|lia]. }
      set (m := payload ch (w_memory w) value). destruct (buffer_ok ch m Hok Hlt Hrc) as [Hok' Eb].
      apply call_bind, (buffer_push_runs here w g c ch value); try done. intros w' g' Hc' Hw Hm Hs _ Hopen.
      apply call_ret, (Hbuffer w' g'); try done. split; [done| | |].
      * eapply data_same; [|apply (wo_channels _ _ _ _ Hw)|apply (wo_count _ _ _ _ Hw)].
        eapply (data_insert None None w _ c ch (buffer_with ch m)); try done. intros _. right. by left.
      * assert (calmer w g w' g') as Hcl by (eapply calmer_trans; [|eapply woke_calmer, Hw]; by apply calmer_waits).
        eapply quiet_insert; [exact Hquiet|exact Hcl|apply (wo_channels _ _ _ _ Hw)|].
        split; try (intros wait Ho; by apply Hopen in Ho); try (intros w1 w2 Ho; by apply Hopen in Ho).
        -- intros H. by destruct H; apply (ca_queues _ _ _ _ Hcl).
        -- intros H. by destruct H; apply (ca_queues _ _ _ _ Hcl).
      * intros t Ht%Hs. by apply (Hset t).
    + intros w' g' wait candidate Ho Hc' Hw Hs Hcv Hm Hsel. apply call_ret, (Hmatch w' g' wait candidate); try done. split; [done| | |].
      * eapply data_same; [done|apply (wo_channels _ _ _ _ Hw)|apply (wo_count _ _ _ _ Hw)].
      * by eapply quiet_woke.
      * intros t Ht%Hs. by apply (Hset t).
  - intros t rest k q' Hq Hk Hp Hf Hc1. apply (call_get_task _ k); [done|].
    destruct (qi_uses _ _ (core_queue _ _ Hcore) t k c Receive Hk) as (ch0 & H0 & _ & Hkv); [by destruct Hf|].
    rewrite Hc in H0. injection H0 as <-.
    apply call_bind, copy_runs; [done|done|]. apply call_bind. eapply (pop_wake_runs here w g c ch Receive); try done.
    intros w' g' Hi' Hw Hm Hwr. apply call_ret. by eapply (Hhand w' g' t rest k q').
Qed.

(** ** The values on their way *)

(** What the tasks of a send queue hold out. *)
Definition held (tasks : gmap nat Task) ch (m : gmap nat V) (l : list nat) : list (option V) :=
  (λ t, tasks !! t ≫= λ k, payload ch m (wait_value k)) <$> l.
(** Everything sent and not yet received: the messages of the channel, then what the
    waiting senders hold out. *)
Definition stream w g (c : nat) : list (option V) :=
  match w_channels w !! c with
  | Some ch => messages ch ++ held (w_tasks w) ch (w_memory w) (gq g c Send)
  | None => []
  end.

Lemma held_same tasks tasks' ch m l : (∀ t, t ∈ l → tasks' !! t = tasks !! t) → held tasks' ch m l = held tasks ch m l.
Proof. intros H. apply list_fmap_ext. intros i t Ht. cbn. rewrite H; [done|]. by eapply list_elem_of_lookup_2. Qed.

(** Wakes leave the waiting senders as they are. *)
Lemma woke_held w g w' g' ch m c : Core w' g' → woke w g w' g' →
  held (w_tasks w') ch m (gq g' c Send) = held (w_tasks w) ch m (gq g c Send).
Proof.
  intros Hcore Hw. assert (gq g' c Send = gq g c Send) as Eg by (unfold gq; by rewrite (wo_gq _ _ _ _ Hw)).
  rewrite Eg. apply held_same. intros t Ht. rewrite <- Eg in Ht. apply (qi_member _ _ (core_queue _ _ Hcore)) in Ht.
  destruct (wo_phase _ _ _ _ Hw t) as [E|(p & p' & _ & E & _ & Hwk)]; [|rewrite Ht in E; by injection E as <-].
  rewrite Ht in E. eapply (wo_tasks _ _ _ _ Hw); [by rewrite <- E|by intros []].
Qed.
Lemma woke_stream w g w' g' c : Core w' g' → woke w g w' g' → w_memory w' = w_memory w → stream w' g' c = stream w g c.
Proof.
  intros Hcore Hw Hm. unfold stream. rewrite (wo_channels _ _ _ _ Hw), Hm. destruct (w_channels w !! c); [|done].
  by erewrite woke_held.
Qed.

(** ** [fdn_channel_fill_buffer_from_sender] *)

Lemma fill_runs here w g c ch Q :
  Core w g → free here w g → settled g → w_channels w !! c = Some ch → channel_ok ch →
  receivers ch ≠ 0%N → (buffered ch < capacity ch)%N →
  (gq g c Send = [] → Q tt w) →
  (∀ t rest k q' w' g', gq g c Send = t :: rest → w_tasks w !! t = Some k → settled g' → Core w' g' →
     woke (with_channels (insert c (buffer_with (set_side_queue Send q' ch) (payload ch (w_memory w) (wait_value k))))
             (popped w c ch Send t q')) (set_gq c Send rest (set_phase t Popped g)) w' g' →
     w_memory w' = w_memory w → will_resume w' t FDN_CHANNEL_READY → Q tt w') →
  runs (fill_buffer_from_sender here c) w Q.
Proof.
  intros Hcore Hfree Hset Hc Hok Hrc Hlt Hnone Hsome. unfold fill_buffer_from_sender. apply (call_get_channel _ ch); [done|].
  apply N.leb_gt in Hlt as Hlt'. rewrite Hlt'. apply N.eqb_neq in Hrc as Hrc'. rewrite Hrc'. cbn [orb].
  apply call_bind, (pop_runs w g c ch Send); [done|done|intros Hnq; apply call_ret; by apply Hnone|].
  intros t rest k q' Hq Hk Hp Hf Hc1. apply (call_get_task _ k); [done|].
  destruct (qi_uses _ _ (core_queue _ _ Hcore) t k c Send Hk) as (ch0 & H0 & _ & Hkv); [by destruct Hf|].
  rewrite Hc in H0. injection H0 as <-.
  set (w1 := popped w c ch Send t q') in *. set (g1 := set_gq c Send rest (set_phase t Popped g)) in *.
  assert (Hcalm : calm here w1 g1).
  { intros u p Hu. pose proof (Hfree u Hu) as Hr. unfold g1. rewrite phase_set_gq, phase_set.
    destruct (decide (u = t)) as [->|]; [congruence|]. rewrite Hr. by intros [= <-] []. }
  apply call_bind, (buffer_push_runs here w1 g1 c (set_side_queue Send q' ch)); try done.
  - cbn. by rewrite lookup_insert_eq.
  - by apply channel_ok_queue.
  - intros w2 g2 Hc2 Hw2 Hm2 Hs2 Hsp2 _.
    change (payload (set_side_queue Send q' ch) (w_memory w1)) with (payload ch (w_memory w)) in Hw2.
    destruct (Hsp2 t) as [Hp2 Hk2]; [unfold g1; by rewrite phase_set_gq, phase_set, decide_True|].
    change (w_tasks w2 !! t = w_tasks w !! t) in Hk2. rewrite Hk in Hk2.
    assert (Hcalm2 : calm here w2 g2) by (eapply calm_woke; [|exact Hw2]; exact Hcalm).
    eapply (wake_runs here w2 g2 t k); try done; [by intros Hin; eapply (Hcalm2 t)|].
    intros w3 Hc3 Hw3 Hm3 Hon. apply (Hsome t rest k q' w3 (set_phase t (wake_place here k) g2)); try done.
    + intros u. rewrite phase_set. unfold wake_place. destruct (decide (u = t)) as [->|Hne]; [by destruct (decide _)|].
      intros Hu%Hs2. unfold g1 in Hu. rewrite phase_set_gq, phase_set, decide_False in Hu by done. by apply (Hset u).
    + by eapply woke_trans.
    + rewrite Hm3. exact Hm2.
    + apply Hon.
Qed.

(** ** [fdn_channel_try_receive_locked] *)

Definition buffer_without ch (rest : list (option V)) : Channel V := set_messages ((buffered ch + SIZE_MAX) mod 2 ^ 64) rest ch.

Lemma unbuffer_ok ch m rest : channel_ok ch → messages ch = m :: rest →
  channel_ok (buffer_without ch rest) ∧ (buffered (buffer_without ch rest) + 1 = buffered ch)%N ∧
  (buffered ch <= capacity ch)%N ∧ receivers ch ≠ 0%N.
Proof.
  intros [Hb Hcap Hsz Hv Hr Hh Hn] Hm.
  assert (buffered (buffer_without ch rest) + 1 = buffered ch)%N as E.
  { cbn. rewrite Hm in Hb. cbn in Hb. assert (SIZE_MAX = 2 ^ 64 - 1)%N as Es by (vm_compute; reflexivity).
    rewrite Es in *. replace (buffered ch + (2 ^ 64 - 1))%N with (buffered ch - 1 + 1 * 2 ^ 64)%N by lia.
    rewrite N.Div0.mod_add, N.mod_small; lia. }
  assert (receivers ch ≠ 0%N) as Hrc by (intros H0; rewrite (Hr H0) in Hm; done).
  split; [|done]. split.
  - rewrite Hm in Hb. cbn [length] in Hb. cbn [messages buffer_without set_messages]. lia.
  - change (capacity (buffer_without ch rest)) with (capacity ch). lia.
  - exact Hsz.
  - exact Hv.
  - intros H0. by destruct Hrc.
  - exact Hh.
  - exact Hn.
Qed.

(** A signal ends a call that changed the messages of the channel. *)
Lemma signal_ends here w g w1 g1 c ch1 Q :
  inv w g → Core w1 g1 → calm here w1 g1 → settled g1 → data_inv None w1 → calmer w g w1 g1 →
  w_channels w1 !! c = Some ch1 → (∀ d, d ≠ c → w_channels w1 !! d = w_channels w !! d) →
  (gq g1 c Receive ≠ [] → messages ch1 = [] ∧ gq g1 c Send = [] ∧ senders ch1 ≠ 0%N) →
  (gq g1 c Send ≠ [] → (capacity ch1 <= buffered ch1)%N ∧ receivers ch1 ≠ 0%N) →
  (∀ w' g', inv w' g' → woke w1 g1 w' g' → w_memory w' = w_memory w1 → Q tt w') →
  runs (select_signal here c) w1 Q.
Proof.
  intros Hinv Hcore Hcalm Hset Hdata Hcl Hc Hd Hr Hs HQ.
  apply (signal_runs here c ch1 w1 g1); [done..|]. intros w' g' Hc' Hw Hm Hst _ Hno. apply (HQ w' g'); [|done|done].
  assert (Hcl' : calmer w g w' g') by (eapply calmer_trans; [exact Hcl|by apply woke_calmer]).
  assert (Hg : ∀ s, gq g' c s = gq g1 c s) by (intros s; unfold gq; by rewrite (wo_gq _ _ _ _ Hw)).
  split; [done| | |].
  - eapply data_same; [done|apply (wo_channels _ _ _ _ Hw)|apply (wo_count _ _ _ _ Hw)].
  - intros d chd. rewrite (wo_channels _ _ _ _ Hw). intros Hdd. destruct (decide (d = c)) as [->|Hne].
    + rewrite Hc in Hdd. injection Hdd as <-. split; rewrite ?Hg; [done|done|..].
      * intros wait Ho. by apply Hno in Ho.
      * intros wait Ho. by apply Hno in Ho.
      * intros w1' w2' Ho. by apply Hno in Ho.
    + rewrite Hd in Hdd by done. eapply quiet_calmer; [by apply Hinv|done].
  - intros t Ht%Hst. by apply (Hset t).
Qed.

(** The sender that waited longest resumes. *)
Definition resumes_first w' (l : list nat) : Prop :=
  match l with t :: _ => will_resume w' t FDN_CHANNEL_READY | [] => True end.

Lemma receive_message_runs here w g c ch value m rest (Q : unit → World V → Prop) :
  inv w g → free here w g → w_channels w !! c = Some ch → value_ok ch value → messages ch = m :: rest →
  (∀ w' g', inv w' g' → w_memory w' = store ch value m (w_memory w) →
     stream w' g' c = rest ++ held (w_tasks w) ch (w_memory w') (gq g c Send) → resumes_first w' (gq g c Send) → Q tt w') →
  runs (_ ← fill_buffer_from_sender here c; select_signal here c)
    (with_memory (store ch value m) (with_channels (insert c (buffer_without ch rest)) w)) Q.
Proof.
  intros Hinv Hfree Hc Hv Hm HQ. pose proof Hinv as [Hcore Hdata Hquiet Hset].
  pose proof (di_ok _ _ Hdata _ _ Hc) as Hok. destruct (unbuffer_ok _ _ _ Hok Hm) as (Hok1 & Eb & Hle & Hrc).
  set (ch1 := buffer_without ch rest) in *. set (w1 := with_memory _ _).
  assert (Hcore1 : Core w1 g) by (apply core_memory, (core_set_channel w g c ch); try done; apply keeps_messages).
  assert (Hc1 : w_channels w1 !! c = Some ch1) by (cbn; by rewrite lookup_insert_eq).
  assert (Hother : ∀ d, d ≠ c → w_channels w1 !! d = w_channels w !! d) by (intros d Hd; cbn; by rewrite lookup_insert_ne).
  assert (Hcl1 : calmer w g w1 g) by (by apply calmer_waits).
  assert (Hnr : gq g c Receive = []).
  { destruct (gq g c Receive) eqn:E; [done|]. destruct (qu_receive _ _ _ _ (Hquiet _ _ Hc)) as [E' _]; [by rewrite E|congruence]. }
  assert (Hused : used ch1) by (right; by left).
  assert (Hroom : (buffered ch1 < capacity ch1)%N) by (change (capacity ch1) with (capacity ch); lia).
  apply call_bind, (fill_runs here w1 g c ch1); try done; [intros Hns|].
  - apply (signal_ends here w g w1 g c ch1); try done; [by apply free_calm|by eapply (data_insert None None w w1 c ch ch1)|].
    intros w' g' Hi Hw Hmem. apply (HQ w' g'); [done|exact Hmem| |by rewrite Hns]. rewrite (woke_stream w1 g w' g'); [|apply Hi|done|done].
    unfold stream. rewrite Hc1, Hmem, Hns. done.
  - intros t tail k q' w2 g2 Hq Hk Hset2 Hcore2 Hw2 Hm2 Hwr.
    set (ch2 := buffer_with (set_side_queue Send q' ch1) _) in Hw2. set (g1 := set_gq c Send tail (set_phase t Popped g)) in *.
    destruct (buffer_ok (set_side_queue Send q' ch1) (payload ch1 (w_memory w1) (wait_value k))) as [Hok2 Eb2];
      [by apply channel_ok_queue|exact Hroom|done|].
    assert (Hc2 : w_channels w2 !! c = Some ch2) by (rewrite (wo_channels _ _ _ _ Hw2); cbn; by rewrite lookup_insert_eq).
    assert (Hother2 : ∀ d, d ≠ c → w_channels w2 !! d = w_channels w !! d).
    { intros d Hd. rewrite (wo_channels _ _ _ _ Hw2). cbn. by rewrite !lookup_insert_ne. }
    assert (Hcl2 : calmer w g w2 g2).
    { eapply calmer_trans; [|eapply woke_calmer, Hw2]. apply calmer_waits; [done|]. intros d s' Hd. unfold g1. rewrite gq_set.
      destruct (decide _) as [[-> ->]|]; [congruence|done]. }
    assert (Hg2 : ∀ s, gq g2 c s = match s with Send => tail | Receive => [] end).
    { intros s. transitivity (gq g1 c s); [unfold gq; by rewrite (wo_gq _ _ _ _ Hw2)|]. unfold g1. rewrite gq_set.
      destruct s; [by rewrite decide_True|rewrite decide_False by naive_solver; exact Hnr]. }
    apply (signal_ends here w g w2 g2 c ch2); try done.
    + eapply calm_woke; [|exact Hw2]. intros u p Hu. unfold g1. rewrite phase_set_gq, phase_set.
      pose proof (Hfree u Hu) as Hr. destruct (decide (u = t)) as [->|]; [|rewrite Hr; by intros [= <-] []].
      assert (phase g t = Some (Waiting c Send)) as Hp by (apply (qi_member _ _ (core_queue _ _ Hcore)); rewrite Hq; left). congruence.
    + eapply data_same; [|apply (wo_channels _ _ _ _ Hw2)|apply (wo_count _ _ _ _ Hw2)].
      eapply (data_insert None None w _ c ch ch2); try done. cbn. by rewrite !insert_insert_eq.
    + by rewrite Hg2.
    + rewrite Hg2. intros _. destruct (qu_send _ _ _ _ (Hquiet _ _ Hc)) as [Hfull _]; [by rewrite Hq|].
      split; [|done]. change (capacity ch2) with (capacity ch). unfold ch2. rewrite Eb2. cbn [buffered set_side_queue]. lia.
    + intros w' g' Hi Hw Hmem. apply (HQ w' g'); [done|by rewrite Hmem, Hm2| |rewrite Hq; by apply (wo_resumes _ _ _ _ Hw)].
      rewrite (woke_stream w2 g2 w' g' c (inv_core _ _ Hi) Hw Hmem), (woke_stream _ _ _ _ c Hcore2 Hw2 Hm2).
      unfold stream. cbn [w_channels with_channels popped with_wait_next]. rewrite lookup_insert_eq, Hmem, Hm2, Hq.
      unfold g1. rewrite gq_set, decide_True by done.
      change (messages ch2) with (rest ++ [payload ch1 (w_memory w1) (wait_value k)]). rewrite <- app_assoc. unfold held. cbn. change (w_tasks w !! t = Some k) in Hk. by rewrite Hk.
Qed.

Lemma receive_locked_runs here w g c ch value (Q : option N → World V → Prop) :
  inv w g → free here w g → w_channels w !! c = Some ch → value_ok ch value →
  (∀ w' g' m rest, messages ch = m :: rest → inv w' g' → w_memory w' = store ch value m (w_memory w) →
     stream w' g' c = rest ++ held (w_tasks w) ch (w_memory w') (gq g c Send) → resumes_first w' (gq g c Send) →
     Q (Some FDN_CHANNEL_READY) w') →
  (∀ w' g' t tail k, messages ch = [] → gq g c Send = t :: tail → w_tasks w !! t = Some k → inv w' g' →
     w_memory w' = store ch value (payload ch (w_memory w) (wait_value k)) (w_memory w) →
     stream w' g' c = held (w_tasks w) ch (w_memory w') tail → will_resume w' t FDN_CHANNEL_READY →
     Q (Some FDN_CHANNEL_READY) w') →
  (∀ w' g' wait candidate, messages ch = [] → gq g c Send = [] → is_open w c FDN_CHANNEL_SELECT_SEND wait candidate → inv w' g' →
     woke w g w' g' → w_memory w' = store ch value (payload ch (w_memory w) (case_value candidate)) (w_memory w) →
     selected w w' c FDN_CHANNEL_SELECT_SEND wait candidate → Q (Some FDN_CHANNEL_READY) w') →
  (messages ch = [] → gq g c Send = [] → (∀ wait, ¬ open_case w c FDN_CHANNEL_SELECT_SEND wait) →
     Q (if (senders ch =? 0)%N then Some FDN_CHANNEL_CLOSED else None) w) →
  runs (receive_locked here c value) w Q.
Proof.
  intros Hinv Hfree Hc Hv Hmessage Hsender Hmatch Hnone. pose proof Hinv as [Hcore Hdata Hquiet Hset].
  pose proof (free_calm _ _ _ Hfree) as Hcalm. unfold receive_locked. apply (call_get_channel _ ch); [done|].
  destruct (messages ch) as [|m rest] eqn:Em.
  - apply call_bind, (pop_runs w g c ch Send); [done|done|intros Hns|].
    + apply call_bind, (match_runs here c ch _ value w g); [done..|intros Hno|].
      * apply (call_get_channel _ ch); [done|]. specialize (Hnone eq_refl Hns Hno). by destruct (senders ch =? 0)%N; apply call_ret.
      * intros w' g' wait candidate Ho Hc' Hw Hs Hcv Hm Hsel. apply call_ret, (Hmatch w' g' wait candidate); try done. split; [done| | |].
        -- eapply data_same; [done|apply (wo_channels _ _ _ _ Hw)|apply (wo_count _ _ _ _ Hw)].
        -- by eapply quiet_woke.
        -- intros t Ht%Hs. by apply (Hset t).
    + intros t tail k q' Hq Hk Hp Hf Hc1. apply (call_get_task _ k); [done|].
      destruct (qi_uses _ _ (core_queue _ _ Hcore) t k c Send Hk) as (ch0 & H0 & _ & Hkv); [by destruct Hf|].
      rewrite Hc in H0. injection H0 as <-.
      apply call_bind, copy_runs; [done|done|]. apply call_bind. eapply (pop_wake_runs here w g c ch Send); try done.
      intros w' g' Hi' Hw Hm Hwr. apply call_ret. apply (Hsender w' g' t tail k); try done.
      set (w1 := with_memory _ _) in Hw. rewrite (woke_stream w1 _ w' g' c (inv_core _ _ Hi') Hw Hm).
      unfold stream, w1. cbn [w_channels with_memory popped with_channels with_wait_next]. rewrite lookup_insert_eq, gq_set, decide_True by done.
      cbn [messages set_side_queue]. rewrite Em. cbn [app]. by rewrite Hm.
  - apply call_set_channel, call_bind, copy_out_runs; [done|].
    apply call_bind. eapply call_mono.
    { eapply call_bind_inv, (receive_message_runs here w g c ch value m rest (λ _, Q (Some FDN_CHANNEL_READY))); try done.
      intros w' g' Hi Hmem Hst Hrf. by apply (Hmessage w' g' m rest). }
    intros [] w2 H2. apply call_bind. eapply call_mono; [exact H2|]. intros [] w3 H3. by apply call_ret.
Qed.

End Calls.
