(* ===== verification/ChannelPolls.v ===== *)
(** * [fdn_channel_poll_send] and [fdn_channel_poll_receive]

    A call of a running task: the wake it resumes from, the cancellation, the attempt
    and the wait.  Every call keeps the invariant, and the values it moves are those of
    one stream. *)
From S2P Require Import Prelude Queue Tasks Channel RuntimeInvariant RuntimeProofs ChannelProofs ChannelCalls.
#[local] Opaque SIZE_MAX UINT_MAX message_header.

Section Polls.
Context {V : Type}.
Implicit Types (w : World V) (g : Ghost) (k : Task) (ch : Channel V).

(** ** A task changes its fields where it is *)

Lemma task_inv_fields w g t k k' p :
  task_inv w g → w_tasks w !! t = Some k → phase g t = Some p → phase_fields k' p →
  executor k' = executor k → waiter k' = waiter k → ready k' = ready k →
  task_inv (with_tasks (insert t k') w) g.
Proof.
  intros H Hk Hp Hf Hex Hwt Hrd. set (w' := with_tasks _ w).
  assert (Ho : ∀ u, owner w' u = owner w u) by (intros u; by eapply owner_insert).
  assert (Hlk : ∀ u, w_tasks w' !! u = if decide (u = t) then Some k' else w_tasks w !! u).
  { intros u. cbn. destruct (decide (u = t)) as [->|]; [by rewrite lookup_insert_eq|by rewrite lookup_insert_ne]. }
  split; try setoid_rewrite Ho; try apply H.
  - intros u. rewrite Hlk. destruct (decide (u = t)) as [->|]; [rewrite Hp; by split|apply (ti_dom _ _ H)].
  - intros u ku pu. rewrite Hlk. destruct (decide (u = t)) as [->|]; [|apply (ti_fields _ _ H)].
    intros [= <-] Hpu. rewrite Hp in Hpu. injection Hpu as <-. split; [done|]. rewrite Hex. by apply (ti_fields _ _ H t k p).
  - intros u v Hu. destruct (ti_join _ _ H _ _ Hu) as (kv & Hv & ? & ? & ?). rewrite Hlk.
    destruct (decide (v = t)) as [->|]; [|by eauto]. rewrite Hk in Hv. injection Hv as <-. exists k'. split_and!; congruence.
  - intros u ku v. rewrite Hlk. destruct (decide (u = t)) as [->|]; [|apply (ti_waiter _ _ H)].
    intros [= <-] Hw. apply (ti_waiter _ _ H t k); [done|congruence].
  - apply (homes_same w w'); [done..|apply (ti_home _ _ H)].
Qed.

Lemma core_set_task w g t k k' p :
  Core w g → w_tasks w !! t = Some k → phase g t = Some p → phase_fields k' p →
  executor k' = executor k → waiter k' = waiter k → ready k' = ready k →
  (∀ c s, uses k' c s → uses k c s ∧ wait_value k' = wait_value k) →
  (∀ context, selecting k context ↔ selecting k' context) →
  Core (with_tasks (insert t k') w) g.
Proof.
  intros [Ht Hq Hs] Hk Hp Hf Hex Hwt Hrd Hu Hsel. set (w' := with_tasks _ w).
  assert (Ho : ∀ u, owner w' u = owner w u) by (intros u; by eapply owner_insert).
  assert (Hlk : ∀ u, w_tasks w' !! u = if decide (u = t) then Some k' else w_tasks w !! u).
  { intros u. cbn. destruct (decide (u = t)) as [->|]; [by rewrite lookup_insert_eq|by rewrite lookup_insert_ne]. }
  split.
  - by eapply task_inv_fields.
  - split; try apply Hq. intros u ku c s. rewrite Hlk. destruct (decide (u = t)) as [->|]; [|apply (qi_uses _ _ Hq)].
    intros [= <-] Huse. destruct (Hu _ _ Huse) as [Huse' ->]. by apply (qi_uses _ _ Hq t k c s).
  - split; try setoid_rewrite Ho; try apply Hs.
    + intros wait sw Hsw. destruct (si_task _ _ Hs _ _ Hsw) as (ku & Hku & Hse). rewrite Hlk.
      destruct (decide (sw_task sw = t)) as [E|]; [|eauto]. exists k'. split; [done|]. apply Hsel. congruence.
    + intros u ku ctx. rewrite Hlk. destruct (decide (u = t)) as [->|]; [|apply (si_wait _ _ Hs)].
      intros [= <-] Hse. apply (si_wait _ _ Hs t k ctx); [done|]. by apply Hsel.
Qed.

Lemma inv_set_task w g t k k' p :
  inv w g → w_tasks w !! t = Some k → phase g t = Some p → phase_fields k' p →
  executor k' = executor k → waiter k' = waiter k → ready k' = ready k →
  (∀ c s, uses k' c s → uses k c s ∧ wait_value k' = wait_value k) →
  (∀ context, selecting k context ↔ selecting k' context) →
  inv (with_tasks (insert t k') w) g.
Proof.
  intros [Hcore Hdata Hquiet Hset]. split; [by eapply core_set_task|by eapply data_same| |done].
  intros c ch Hc. eapply quiet_calmer; [by apply Hquiet|by apply calmer_waits].
Qed.

(** ** The task that polls *)

(** The task [t] is the current one of this thread, and if it was woken, then from a wait
    of this kind on this context. *)
Record polling (here : nat) w g (t : nat) k (context : nat) (kind : N) : Prop := mkPolling {
  po_free : free here w g;
  po_current : head (e_current (exec w here)) = Some t;
  po_task : w_tasks w !! t = Some k;
  po_resumes : wake_ready k = true → wake_context k = Some context ∧ wake_kind k = kind;
}.

Lemma polling_running here w g t k context kind : polling here w g t k context kind →
  t ∈ e_current (exec w here) ∧ phase g t = Some Running.
Proof.
  intros [Hf Hc _ _]. assert (t ∈ e_current (exec w here)) as Hin by by apply head_Some_elem_of. split; [done|by apply Hf].
Qed.
Lemma running_fields w g t k : Core w g → w_tasks w !! t = Some k → phase g t = Some Running → free_fields k false false None.
Proof. intros [Ht _ _] Hk Hp. by destruct (ti_fields _ _ Ht _ _ _ Hk Hp). Qed.

Lemma current_runs {B} here w t (f : option nat → R V B) Q :
  head (e_current (exec w here)) = Some t → runs (f (Some t)) w Q → runs (current_get here ≫= f) w Q.
Proof. intros Hc H. unfold current_get. apply call_assoc. apply call_get_executor. by rewrite Hc. Qed.

(** The wake that was taken. *)
Definition taken k : Task :=
  mkTask (waiter k) (waiting_on k) (wait_context k) (wait_value k) (cancel_wait k) (wait_kind k) None 0 0
    (executor k) (cancellation_requested k) false (queued k) (ready k).

Lemma take_wake_runs here w g t k context kind (Q : option N → World V → Prop) :
  polling here w g t k context kind →
  (wake_ready k = false → Q None w) →
  (wake_ready k = true → Q (Some (wake_status k)) (with_tasks (insert t (taken k)) w)) →
  runs (take_wake here (Some context) kind) w Q.
Proof.
  intros Hpo Hno Hyes. unfold take_wake. eapply current_runs; [apply Hpo|]. apply (call_get_task _ k); [apply Hpo|].
  destruct (wake_ready k) eqn:E; cbn [negb]; [|by apply call_ret, Hno].
  destruct (po_resumes _ _ _ _ _ _ _ Hpo E) as [-> ->]. rewrite !bool_decide_false by (by intros []). cbn [orb].
  by apply call_set_task, call_ret, Hyes.
Qed.

(** ** Waiting *)

Definition waits_in k (context : nat) (value : option nat) (kind : N) (cancel : CancelWait) : Task :=
  mkTask (waiter k) (waiting_on k) (Some context) value (Some cancel) kind (wake_context k) (wake_kind k) (wake_status k)
    (executor k) (cancellation_requested k) (wake_ready k) (queued k) (ready k).

Lemma park_runs here w t k context kind value cancel (Q : unit → World V → Prop) :
  head (e_current (exec w here)) = Some t → w_tasks w !! t = Some k → free_fields k false false None → wake_ready k = false →
  Q tt (with_tasks (insert t (waits_in k context value kind cancel)) w) →
  runs (park_current here (Some context) value kind cancel) w Q.
Proof.
  intros Hcur Hk (_ & _ & Ec & Ew) Hw HQ.
  unfold park_current. eapply current_runs; [done|]. apply (call_get_task _ k); [done|].
  unfold waits_in in HQ. rewrite Ew, Hw in HQ. rewrite Ew, Ec, Hw. cbn [is_some orb]. by apply call_modify_end.
Qed.

Lemma current_not_tail here w g t : task_inv w g → head (e_current (exec w here)) = Some t →
  ∀ e, t ∈ e_current (exec w e) → t ∉ tail (e_current (exec w e)).
Proof.
  intros H Hh e Hin Htl. assert (t ∈ e_current (exec w here)) as Hin' by by apply head_Some_elem_of.
  destruct (ti_current _ _ H _ _ Hin) as [E _], (ti_current _ _ H _ _ Hin') as [E' _].
  rewrite E in E'. injection E' as ->. pose proof (ti_current_once _ _ H here) as Hd.
  destruct (e_current (exec w here)) as [|x l]; [done|]. injection Hh as ->. by apply NoDup_cons in Hd as [Hd _].
Qed.

(** The task is on its way into a queue of the channel. *)
Lemma park_core here w g t k c ch s value :
  Core w g → polling here w g t k c (side_kind s) → wake_ready k = false → w_channels w !! c = Some ch →
  endpoints s ch ≠ 0%N → value_ok ch value →
  Core (with_tasks (insert t (waits_in k c value (side_kind s) fdn_channel_cancel_wait)) w) (set_phase t Popped g).
Proof.
  intros Hcore Hpo Hw Hc He Hv. pose proof Hcore as [Ht Hq Hs]. destruct (polling_running _ _ _ _ _ _ _ Hpo) as [_ Hp].
  pose proof (po_task _ _ _ _ _ _ _ Hpo) as Hk. destruct (running_fields _ _ _ _ Hcore Hk Hp) as (E1 & E2 & E3 & E4).
  set (k' := waits_in k c value (side_kind s) fdn_channel_cancel_wait). set (w' := with_tasks _ w).
  assert (Huse : ∀ c' s', ¬ uses k c' s') by (intros c' s' [E _]; congruence).
  split.
  - eapply (task_inv_step w g w' t k k' Running Popped); try done.
    + left. exists c, s. by split.
    + intros e Hin. split_and!; [done|done|]. by eapply current_not_tail; [| |exact Hin]; [done|apply Hpo].
    + by eapply relisted_same.
  - split; try apply Hq.
    + intros d s' u. rewrite gq_set_phase, phase_set, (qi_member _ _ Hq). destruct (decide (u = t)) as [->|]; [|done].
      rewrite Hp. by split.
    + intros u Hu. apply (qi_next _ _ Hq). intros d s' Hd. apply (Hu d s'). rewrite phase_set.
      destruct (decide (u = t)) as [->|]; [congruence|done].
    + intros u ku d s'. unfold w'. cbn. destruct (decide (u = t)) as [->|].
      * rewrite lookup_insert_eq. intros [= <-] (_ & [= <-] & Es). exists ch. split; [done|].
        assert (s' = s) as -> by (cbn in Es; by destruct s, s'). done.
      * rewrite lookup_insert_ne by done. apply (qi_uses _ _ Hq).
  - eapply (select_inv_step w g w' t k k' Running Popped); try done. intros ctx. unfold selecting. cbn.
    rewrite E3, Hw. split; [intros [(? & _)|(_ & ? & _)]; discriminate|].
    intros [(? & _)|(? & _)]; discriminate.
Qed.

(** What a task that waits does not find. *)
Definition nothing_there w g (c : nat) ch (s : Side) : Prop :=
  match s with
  | Send => (capacity ch <= buffered ch)%N ∧ receivers ch ≠ 0%N ∧ gq g c Receive = []
  | Receive => messages ch = [] ∧ senders ch ≠ 0%N ∧ gq g c Send = []
  end.

Lemma wait_runs here w g t k c ch s value (Q : N → World V → Prop) :
  inv w g → polling here w g t k c (side_kind s) → wake_ready k = false → w_channels w !! c = Some ch →
  endpoints s ch ≠ 0%N → value_ok ch value → nothing_there w g c ch s →
  (∀ w' g', inv w' g' → w_memory w' = w_memory w → phase g' t = Some (Waiting c s) →
     stream w' g' c = stream w g c ++ match s with Send => [payload ch (w_memory w) value] | Receive => [] end →
     Q FDN_CHANNEL_PENDING w') →
  runs (_ ← park_current here (Some c) value (side_kind s) fdn_channel_cancel_wait;
        _ ← push_waiting s c t;
        _ ← select_signal here c;
        mret FDN_CHANNEL_PENDING) w Q.
Proof.
  intros Hinv Hpo Hw Hc He Hv Hnothing HQ. pose proof Hinv as [Hcore Hdata Hquiet Hset].
  destruct (polling_running _ _ _ _ _ _ _ Hpo) as [Hcur Hp]. pose proof (po_task _ _ _ _ _ _ _ Hpo) as Hk.
  destruct (running_fields _ _ _ _ Hcore Hk Hp) as (E1 & E2 & E3 & E4).
  pose proof (park_core here w g t k c ch s value Hcore Hpo Hw Hc He Hv) as Hcore1.
  set (k' := waits_in k c value (side_kind s) fdn_channel_cancel_wait) in *.
  apply call_bind, (park_runs here w t k c); [apply Hpo|done|done|done|]. fold k'. set (w1 := with_tasks _ w) in *. apply call_bind.
  assert (Hk1 : w_tasks w1 !! t = Some k') by (cbn; by rewrite lookup_insert_eq).
  eapply (push_runs w1 (set_phase t Popped g) c ch s t k'); try done; [by rewrite phase_set, decide_True|].
  intros next q' Hcore2. set (w2 := pushed w1 c ch s next q') in *. set (g2 := set_gq _ _ _ _) in *.
  assert (Hg2 : ∀ d s', gq g2 d s' = if decide (d = c ∧ s' = s) then gq g c s ++ [t] else gq g d s').
  { intros d s'. unfold g2. by rewrite gq_set. }
  assert (Hph : ∀ u, phase g2 u = if decide (u = t) then Some (Waiting c s) else phase g u).
  { intros u. unfold g2. rewrite phase_set_gq, !phase_set. by destruct (decide _). }
  set (ch2 := set_side_queue s q' ch). assert (Hc2 : w_channels w2 !! c = Some ch2) by (cbn; by rewrite lookup_insert_eq).
  assert (Hns : t ∉ gq g c s) by (intros Hin%(qi_member _ _ (core_queue _ _ Hcore)); congruence).
  apply call_bind, (signal_runs here c ch2 w2 g2); try done.
  { intros u p Hu. rewrite Hph. destruct (decide (u = t)); [by intros [= <-] []|].
    rewrite (po_free _ _ _ _ _ _ _ Hpo u Hu). by intros [= <-] []. }
  intros w' g' Hcore' Hwo Hm Hst _ Hno. apply call_ret.
  assert (Hg' : ∀ d s', gq g' d s' = gq g2 d s') by (intros d s'; unfold gq; by rewrite (wo_gq _ _ _ _ Hwo)).
  apply (HQ w' g'); [|by rewrite Hm| |].
  - split; [done| | |].
    + eapply data_same; [|apply (wo_channels _ _ _ _ Hwo)|apply (wo_count _ _ _ _ Hwo)]. by eapply (data_queue None w w2).
    + intros d chd. rewrite (wo_channels _ _ _ _ Hwo). intros Hd. destruct (decide (d = c)) as [->|Hne].
      * rewrite Hc2 in Hd. injection Hd as <-.
        split; try (intros wait Ho; by apply Hno in Ho); try (intros wait1 wait2 Ho; by apply Hno in Ho); rewrite !Hg', !Hg2;
          unfold nothing_there in Hnothing; destruct s; cbn.
        -- rewrite decide_False by naive_solver. destruct Hnothing as (_ & _ & ->). done.
        -- rewrite (decide_False (P := c = c ∧ Send = Receive)) by naive_solver. naive_solver.
        -- intros _. naive_solver.
        -- rewrite decide_False by naive_solver. destruct Hnothing as (_ & _ & ->). done.
      * cbn in Hd. rewrite lookup_insert_ne in Hd by done. pose proof (Hquiet _ _ Hd) as Hqd.
        assert (Hgd : ∀ s', gq g' d s' = gq g d s') by (intros s'; rewrite Hg', Hg2, decide_False; [done|naive_solver]).
        assert (Hop : ∀ kind wait, open_case w' d kind wait → open_case w d kind wait).
        { intros kind wait Ho. by apply (ca_cases _ _ _ _ (woke_calmer _ _ _ _ Hwo)) in Ho. }
        destruct Hqd. split; rewrite ?Hgd; eauto.
    + intros u Hu%Hst. rewrite Hph in Hu. destruct (decide (u = t)); [done|by apply (Hset u)].
  - destruct (wo_phase _ _ _ _ Hwo t) as [->|(p & p' & E & _ & Hl & _)]; [by rewrite Hph, decide_True|].
    rewrite Hph, decide_True in E by done. injection E as <-. done.
  - rewrite (woke_stream w2 g2 w' g' c Hcore' Hwo Hm). unfold stream. rewrite Hc2, Hc, Hg2.
    change (w_memory w2) with (w_memory w). change (w_tasks w2) with (<[t := k']> (w_tasks w)).
    assert (Hheld : ∀ l, t ∉ l → held (<[t := k']> (w_tasks w)) ch2 (w_memory w) l = held (w_tasks w) ch (w_memory w) l).
    { intros l Hl. transitivity (held (w_tasks w) ch2 (w_memory w) l); [|by destruct s].
      apply held_same. intros u Hu. rewrite lookup_insert_ne; [done|]. by intros ->. }
    destruct s.
    + rewrite decide_True by done. unfold held at 1. rewrite fmap_app. change (messages ch2) with (messages ch).
      fold (held (<[t := k']> (w_tasks w)) ch2 (w_memory w) (gq g c Send)). rewrite Hheld by done. rewrite <- app_assoc. f_equal. f_equal.
      cbn. by rewrite lookup_insert_eq.
    + rewrite decide_False by naive_solver. change (messages ch2) with (messages ch). rewrite app_nil_r. f_equal.
      apply Hheld. intros Hin%(qi_member _ _ (core_queue _ _ Hcore)). congruence.
Qed.

(** ** The calls *)

(** A task that resumes: only its wake is taken. *)
Lemma resumed_inv here w g t k c s :
  inv w g → polling here w g t k c (side_kind s) → wake_ready k = true → inv (with_tasks (insert t (taken k)) w) g.
Proof.
  intros Hinv Hpo Hw. pose proof (inv_core _ _ Hinv) as Hcore. destruct (polling_running _ _ _ _ _ _ _ Hpo) as [_ Hp].
  pose proof (po_task _ _ _ _ _ _ _ Hpo) as Hk. destruct (running_fields _ _ _ _ Hcore Hk Hp) as (E1 & E2 & E3 & E4).
  destruct (po_resumes _ _ _ _ _ _ _ Hpo Hw) as [_ Ekind].
  eapply inv_set_task; try done. intros ctx. unfold selecting. cbn. rewrite E3, Ekind.
  split; [intros [(? & _)|(_ & _ & _ & ?)]; [discriminate|by destruct s]|intros [(? & _)|(_ & ? & _)]; discriminate].
Qed.

(** What a poll of a channel does: the wake it was given, the cancellation, what
    [attempt] says, or the wait. *)
Lemma poll_runs here w g t k c ch s value attempt message (Q : N → World V → Prop) :
  inv w g → polling here w g t k c (side_kind s) → w_channels w !! c = Some ch → endpoints s ch ≠ 0%N → value_ok ch value →
  (wake_ready k = true → ∀ w', inv w' g → w' = with_tasks (insert t (taken k)) w → Q (wake_status k) w') →
  (wake_ready k = false → cancellation_requested k = true → Q FDN_CHANNEL_CANCELLED w) →
  (wake_ready k = false → cancellation_requested k = false →
   runs attempt w (λ r w', match r with
     | Some status => Q status w'
     | None => w' = w ∧ nothing_there w g c ch s ∧
         ∀ w' g', inv w' g' → w_memory w' = w_memory w → phase g' t = Some (Waiting c s) →
           stream w' g' c = stream w g c ++ match s with Send => [payload ch (w_memory w) value] | Receive => [] end →
           Q FDN_CHANNEL_PENDING w'
     end)) →
  runs (woken ← take_wake here (Some c) (side_kind s);
        match woken with
        | Some status => mret status
        | None =>
            ch ← get_channel c;
            if (endpoints s ch =? 0)%N then panic message else poll_locked here s attempt t c value
        end) w Q.
Proof.
  intros Hinv Hpo Hc He Hv Hwoken Hcancel Hattempt. pose proof (po_task _ _ _ _ _ _ _ Hpo) as Hk.
  apply call_bind, (take_wake_runs here w g t k c (side_kind s)); [done|intros Hw|intros Hw].
  - apply (call_get_channel _ ch); [done|]. apply N.eqb_neq in He as He'. rewrite He'. unfold poll_locked.
    apply (call_get_task _ k); [done|]. destruct (cancellation_requested k) eqn:Ecancel; [by apply call_ret, Hcancel|].
    apply call_bind. eapply call_mono; [by apply Hattempt|]. intros [status|] w'; [intros H; by apply call_ret|].
    intros (-> & Hnothing & HQ). by eapply (wait_runs here w g t k c ch s value).
  - apply call_ret, Hwoken; [done| |done]. by eapply resumed_inv.
Qed.

(** What happens to a value that is sent: a waiting receiver gets it, or a select that
    waits for one, or it is added to the stream. *)
Definition send_done w g (c : nat) ch (value : option nat) (status : N) w' g' : Prop :=
  let v := payload ch (w_memory w) value in
  match gq g c Receive with
  | receiver :: rest =>
      status = FDN_CHANNEL_READY ∧ stream w' g' c = stream w g c ∧ gq g' c Receive = rest ∧
      will_resume w' receiver FDN_CHANNEL_READY ∧
      ∃ kr, w_tasks w !! receiver = Some kr ∧ w_memory w' = store ch (wait_value kr) v (w_memory w)
  | [] =>
      (∃ wait candidate, is_open w c FDN_CHANNEL_SELECT_RECEIVE wait candidate ∧
         selected w w' c FDN_CHANNEL_SELECT_RECEIVE wait candidate ∧ status = FDN_CHANNEL_READY ∧ stream w' g' c = stream w g c ∧
         w_memory w' = store ch (case_value candidate) v (w_memory w)) ∨
      ((∀ wait, ¬ open_case w c FDN_CHANNEL_SELECT_RECEIVE wait) ∧
         status = (if (buffered ch <? capacity ch)%N then FDN_CHANNEL_READY else FDN_CHANNEL_PENDING) ∧
         stream w' g' c = stream w g c ++ [v] ∧ w_memory w' = w_memory w)
  end.

(** A receiver finds the first value of the stream, or that of a select, or waits. *)
Definition receive_done w g (c : nat) ch (value : option nat) (status : N) w' g' : Prop :=
  match stream w g c with
  | v :: _ =>
      status = FDN_CHANNEL_READY ∧ w_memory w' = store ch value v (w_memory w) ∧
      stream w' g' c = tail (messages ch ++ held (w_tasks w) ch (w_memory w') (gq g c Send)) ∧ resumes_first w' (gq g c Send)
  | [] =>
      stream w' g' c = [] ∧
      ((∃ wait candidate, is_open w c FDN_CHANNEL_SELECT_SEND wait candidate ∧
          selected w w' c FDN_CHANNEL_SELECT_SEND wait candidate ∧ status = FDN_CHANNEL_READY ∧
          w_memory w' = store ch value (payload ch (w_memory w) (case_value candidate)) (w_memory w)) ∨
       ((∀ wait, ¬ open_case w c FDN_CHANNEL_SELECT_SEND wait) ∧ w_memory w' = w_memory w ∧
          status = (if (senders ch =? 0)%N then FDN_CHANNEL_CLOSED else FDN_CHANNEL_PENDING)))
  end.

(** A channel with a receiver at hand has nothing on its way. *)
Lemma stream_empty w g c ch : w_channels w !! c = Some ch → messages ch = [] → gq g c Send = [] → stream w g c = [].
Proof. intros Hc Hm Hs. unfold stream. by rewrite Hc, Hm, Hs. Qed.
Lemma woke_empty w g w' g' c : stream w g c = [] → woke w g w' g' → stream w' g' c = [].
Proof.
  intros Hs Hw. unfold stream in *. rewrite (wo_channels _ _ _ _ Hw). destruct (w_channels w !! c) as [ch|]; [|done].
  apply app_nil in Hs as [-> Hh]. unfold gq. rewrite (wo_gq _ _ _ _ Hw). fold (gq g c Send).
  unfold held in *. by destruct (gq g c Send).
Qed.

Lemma open_is_case w c kind wait candidate : is_open w c kind wait candidate → open_case w c kind wait.
Proof.
  intros (sw & i & Hsw & Hsig & (Hi & Hcase & _)%list_find_Some). exists sw. split; [done|]. split; [done|].
  apply Exists_exists. exists candidate. split; [|done]. by eapply list_elem_of_lookup_2.
Qed.

Lemma send_locked_done here w g c ch value :
  inv w g → free here w g → w_channels w !! c = Some ch → value_ok ch value → receivers ch ≠ 0%N →
  runs (send_locked here c value) w (λ r w', match r with
    | Some status => ∃ g', inv w' g' ∧ send_done w g c ch value status w' g'
    | None => w' = w ∧ nothing_there w g c ch Send ∧ (∀ wait, ¬ open_case w c FDN_CHANNEL_SELECT_RECEIVE wait)
    end).
Proof.
  intros Hinv Hfree Hc Hv Hrc. pose proof (inv_quiet _ _ Hinv _ _ Hc) as Hq.
  apply (send_locked_runs here w g c ch value); try done.
  - intros w' g' t rest k q' Hl Hk Hi Hw Hm Hwr. exists g'. split; [done|]. unfold send_done. rewrite Hl.
    destruct (qu_receive _ _ _ _ Hq) as (Em & Es & _); [by rewrite Hl|]. split; [done|]. split; [|split; [|by split; [|exists k]]]; cycle 1.
    { unfold gq. rewrite (wo_gq _ _ _ _ Hw). fold (gq (set_gq c Receive rest (set_phase t Popped g)) c Receive).
      by rewrite gq_set, decide_True. }
    rewrite (stream_empty w g c ch) by done. eapply woke_empty; [|exact Hw]. unfold stream. cbn. rewrite lookup_insert_eq, gq_set.
    rewrite decide_False by naive_solver. rewrite gq_set_phase. cbn. by rewrite Em, Es.
  - intros w' g' wait candidate Hl Ho Hi Hw Hm Hsel. exists g'. split; [done|]. unfold send_done. rewrite Hl. left.
    exists wait, candidate. split; [done|]. split; [done|]. split; [done|].
    destruct (qu_select_receive _ _ _ _ Hq wait) as (Em & Es & _); [by eapply open_is_case|].
    rewrite (stream_empty w g c ch) by done. split; [|done]. eapply woke_empty; [|exact Hw]. by eapply stream_empty.
  - intros w' g' Hl Hs Hlt Hno Hi Hw Hm. exists g'. split; [done|]. unfold send_done. rewrite Hl. right.
    apply N.ltb_lt in Hlt. rewrite Hlt. split; [done|]. split; [done|]. split; [|done].
    rewrite (woke_stream _ _ w' g' c (inv_core _ _ Hi) Hw Hm). unfold stream. cbn. rewrite lookup_insert_eq, Hc, Hs. cbn.
    by rewrite !app_nil_r.
Qed.

Lemma receive_locked_done here w g c ch value :
  inv w g → free here w g → w_channels w !! c = Some ch → value_ok ch value →
  runs (receive_locked here c value) w (λ r w', match r with
    | Some status => ∃ g', inv w' g' ∧ receive_done w g c ch value status w' g'
    | None => w' = w ∧ nothing_there w g c ch Receive ∧ (∀ wait, ¬ open_case w c FDN_CHANNEL_SELECT_SEND wait)
    end).
Proof.
  intros Hinv Hfree Hc Hv. apply (receive_locked_runs here w g c ch value); try done.
  - intros w' g' m rest Em Hi Hm Hst Hrf. exists g'. split; [done|]. unfold receive_done.
    unfold stream at 1. rewrite Hc, Em. cbn [app]. split; [done|]. split; [done|]. by rewrite Hst.
  - intros w' g' t tail k Em Hs Hk Hi Hm Hst Hwr. exists g'. split; [done|]. unfold receive_done.
    unfold stream at 1. rewrite Hc, Em, Hs. unfold held at 1. cbn. rewrite Hk. cbn. split; [done|]. split; [done|]. by rewrite Hst.
  - intros w' g' wait candidate Em Hs Ho Hi Hw Hm Hsel. exists g'. split; [done|]. unfold receive_done.
    rewrite (stream_empty w g c ch) by done. split; [eapply woke_empty; [|exact Hw]; by eapply stream_empty|].
    left. by exists wait, candidate.
  - intros Em Hs Hno. destruct (N.eqb_spec (senders ch) 0) as [E|E]; [|done].
    exists g. split; [done|]. unfold receive_done. rewrite (stream_empty w g c ch) by done.
    split; [done|]. right. rewrite E. done.
Qed.

(** [fdn_channel_poll_send]. *)
Lemma poll_send_runs here w g t k c ch value :
  inv w g → polling here w g t k c FDN_CHANNEL_WAIT_SEND → w_channels w !! c = Some ch → senders ch ≠ 0%N → value_ok ch value →
  runs (poll_send here (Some c) value) w (λ status w', ∃ g', inv w' g' ∧
    if wake_ready k then status = wake_status k ∧ g' = g ∧ w' = with_tasks (insert t (taken k)) w
    else if cancellation_requested k then status = FDN_CHANNEL_CANCELLED ∧ g' = g ∧ w' = w
    else if (receivers ch =? 0)%N then status = FDN_CHANNEL_CLOSED ∧ g' = g ∧ w' = w
    else send_done w g c ch value status w' g').
Proof.
  intros Hinv Hpo Hc He Hv. pose proof (inv_quiet _ _ Hinv _ _ Hc) as Hq.
  unfold poll_send. eapply current_runs; [apply Hpo|]. eapply (poll_runs here w g t k c ch Send value); try done.
  - intros Ew w' Hi' ->. rewrite Ew. by exists g.
  - intros Ew Ec. rewrite Ew, Ec. by exists g.
  - intros Ew Ec. rewrite Ew, Ec. destruct (N.eqb_spec (receivers ch) 0) as [Er|Er].
    + unfold send_locked. apply (call_get_channel _ ch); [done|]. rewrite Er. by exists g.
    + eapply call_mono; [by apply (send_locked_done here w g c ch value); [done|apply Hpo|..]|].
      intros [status|] w' H; [exact H|]. destruct H as (-> & Hnothing & Hno). split; [done|]. split; [done|].
      intros w' g' Hi Hm _ Hst. exists g'. split; [done|]. unfold send_done. destruct Hnothing as (Hfull & _ & ->). right.
      split; [done|]. apply N.ltb_ge in Hfull. by rewrite Hfull.
Qed.

(** [fdn_channel_poll_receive]. *)
Lemma poll_receive_runs here w g t k c ch value :
  inv w g → polling here w g t k c FDN_CHANNEL_WAIT_RECEIVE → w_channels w !! c = Some ch → receivers ch ≠ 0%N →
  value_ok ch value →
  runs (poll_receive here (Some c) value) w (λ status w', ∃ g', inv w' g' ∧
    if wake_ready k then status = wake_status k ∧ g' = g ∧ w' = with_tasks (insert t (taken k)) w
    else if cancellation_requested k then status = FDN_CHANNEL_CANCELLED ∧ g' = g ∧ w' = w
    else receive_done w g c ch value status w' g').
Proof.
  intros Hinv Hpo Hc He Hv.
  unfold poll_receive. eapply current_runs; [apply Hpo|]. eapply (poll_runs here w g t k c ch Receive value); try done.
  - intros Ew w' Hi' ->. rewrite Ew. by exists g.
  - intros Ew Ec. rewrite Ew, Ec. by exists g.
  - intros Ew Ec. rewrite Ew, Ec. eapply call_mono; [by apply (receive_locked_done here w g c ch value); [done|apply Hpo|..]|].
    intros [status|] w' H; [exact H|]. destruct H as (-> & Hnothing & Hno). split; [done|]. split; [done|].
    intros w' g' Hi Hm _ Hst. exists g'. split; [done|]. unfold receive_done. destruct Hnothing as (Em & Es & Eq).
    rewrite app_nil_r in Hst. rewrite (stream_empty w g c ch) in * by done. split; [done|]. right.
    split; [done|]. split; [done|]. apply N.eqb_neq in Es. by rewrite Es.
Qed.

End Polls.
