(* ===== verification/ChannelSelects.v ===== *)
(** * [fdn_channel_poll_select]

    The registrations of a select, their removal, the attempt of the cases in order, the
    wait, and the timer that ends it. *)
From S2P Require Import Prelude Queue Tasks Channel RuntimeInvariant RuntimeProofs ChannelProofs ChannelCalls ChannelPolls.
#[local] Opaque SIZE_MAX UINT_MAX message_header.

Section Selects.
Context {V : Type}.
Implicit Types (w : World V) (g : Ghost) (k : Task) (ch : Channel V).

(** ** Registrations *)

(** [w'] differs from [w] in the registrations of the channels: [f c l] are those of [c]
    where [l] were. *)
Record reselects w w' (f : nat → list (nat * nat) → list (nat * nat) → Prop) : Prop := mkReselects {
  rs_memory : w_memory w' = w_memory w;
  rs_tasks : w_tasks w' = w_tasks w;
  rs_next : w_wait_next w' = w_wait_next w;
  rs_executors : w_executors w' = w_executors w;
  rs_homes : w_homes w' = w_homes w;
  rs_notified : w_notified w' = w_notified w;
  rs_count : w_channel_count w' = w_channel_count w;
  rs_none : ∀ c, w_channels w !! c = None → w_channels w' !! c = None;
  rs_some : ∀ c ch, w_channels w !! c = Some ch → ∃ l, w_channels w' !! c = Some (set_selects l ch) ∧ f c (selects ch) l;
}.

Lemma set_selects_id ch : set_selects (selects ch) ch = ch.
Proof. by destruct ch. Qed.

Lemma reselects_refl w (f : nat → list (nat * nat) → list (nat * nat) → Prop) : (∀ c l, f c l l) → reselects w w f.
Proof. intros Hf. split; try done. intros c ch Hc. exists (selects ch). by rewrite set_selects_id. Qed.

Lemma reselects_trans w1 w2 w3 (f1 f2 f3 : nat → list (nat * nat) → list (nat * nat) → Prop) :
  reselects w1 w2 f1 → reselects w2 w3 f2 → (∀ c l1 l2 l3, f1 c l1 l2 → f2 c l2 l3 → f3 c l1 l3) → reselects w1 w3 f3.
Proof.
  intros H1 H2 Hf. split; try (etrans; [apply H2|apply H1]).
  - intros c Hc. by apply (rs_none _ _ _ H2), (rs_none _ _ _ H1).
  - intros c ch Hc. destruct (rs_some _ _ _ H1 _ _ Hc) as (l2 & Hc2 & F1).
    destruct (rs_some _ _ _ H2 _ _ Hc2) as (l3 & Hc3 & F2). exists l3. split; [exact Hc3|]. by eapply Hf.
Qed.

Lemma reselects_one w w' c ch l' (f : nat → list (nat * nat) → list (nat * nat) → Prop) :
  w_channels w !! c = Some ch → w_channels w' = <[c := set_selects l' ch]> (w_channels w) →
  w_memory w' = w_memory w → w_tasks w' = w_tasks w → w_wait_next w' = w_wait_next w → w_executors w' = w_executors w →
  w_homes w' = w_homes w → w_notified w' = w_notified w → w_channel_count w' = w_channel_count w → f c (selects ch) l' →
  (∀ d chd, d ≠ c → w_channels w !! d = Some chd → f d (selects chd) (selects chd)) → reselects w w' f.
Proof.
  intros Hc Hw ??????? Hf Hd. split; try done; rewrite Hw.
  - intros d Hn. rewrite lookup_insert_ne; [done|]. intros <-. by rewrite Hc in Hn.
  - intros d chd Hchd. destruct (decide (d = c)) as [->|Hne].
    + rewrite Hc in Hchd. injection Hchd as <-. exists l'. by rewrite lookup_insert_eq.
    + exists (selects chd). rewrite lookup_insert_ne, set_selects_id by done. auto.
Qed.

(** *** Registering *)

(** The registrations of [wait] from [index] on that [c] gets. *)
Definition gains (wait index : nat) (registered : list (option nat)) (c : nat) (l l' : list (nat * nat)) : Prop :=
  ∃ more, l' = l ++ more ∧ NoDup more ∧ ∀ x, x ∈ more ↔ ∃ j, registered !! j = Some (Some c) ∧ x = (wait, index + j).

Lemma register_runs wait registered : ∀ index w (Q : unit → World V → Prop),
  (∀ c, Some c ∈ registered → is_Some (w_channels w !! c)) →
  (∀ w', reselects w w' (gains wait index registered) → w_waits w' = w_waits w → Q tt w') →
  runs (register_all wait index registered) w Q.
Proof.
  induction registered as [|[c|] registered IH]; intros index w Q Hex HQ; cbn [register_all].
  - apply call_ret, HQ; [|done]. apply reselects_refl. intros c l. exists []. rewrite app_nil_r.
    split; [done|]. split; [constructor|]. intros x. split; [by intros ?%not_elem_of_nil|by intros (j & ? & _)].
  - destruct (Hex c) as [ch Hc]; [left|]. apply (call_get_channel _ ch); [done|]. apply call_set_channel.
    set (w1 := with_channels _ w).
    assert (H1 : reselects w w1 (λ d l l', l' = if decide (d = c) then l ++ [(wait, index)] else l)).
    { eapply (reselects_one w w1 c ch); try done; [by rewrite decide_True|]. intros d chd Hd _. by rewrite decide_False. }
    apply IH.
    + intros d Hd. destruct (Hex d) as [chd Hchd]; [by right|]. destruct (rs_some _ _ _ H1 _ _ Hchd) as (l & -> & _). eauto.
    + intros w' H2 Hw. apply HQ; [|done]. eapply reselects_trans; [exact H1|exact H2|].
      intros d l1 l2 l3 -> (more & -> & Hnd & Hin). destruct (decide (d = c)) as [->|Hne].
      * exists ((wait, index) :: more). split; [by rewrite <- app_assoc|]. split.
        -- constructor; [|done]. intros (j & _ & [= E])%Hin. lia.
        -- intros x. rewrite elem_of_cons, Hin. split.
           ++ intros [->|(j & Hj & ->)]; [exists 0|exists (S j)]; (split; [done|]); f_equal; lia.
           ++ intros ([|j] & Hj & ->); [left; f_equal; lia|right]. exists j. split; [done|]. f_equal; lia.
      * exists more. split; [done|]. split; [done|]. intros x. rewrite Hin. split.
        -- intros (j & Hj & ->). exists (S j). split; [done|]. f_equal; lia.
        -- intros ([|j] & Hj & ->); [by injection Hj as ->|]. exists j. split; [done|]. f_equal; lia.
  - apply IH; [intros d Hd; apply Hex; by right|]. intros w' H2 Hw. apply HQ; [|done].
    destruct H2 as [? ? ? ? ? ? ? ? Hs]. split; try done. intros c ch Hc. destruct (Hs _ _ Hc) as (l & Hl & more & -> & Hnd & Hin).
    eexists. split; [exact Hl|]. exists more. split; [done|]. split; [done|]. intros x. rewrite Hin. split.
    + intros (j & Hj & ->). exists (S j). split; [done|]. f_equal; lia.
    + intros ([|j] & Hj & ->); [done|]. exists j. split; [done|]. f_equal; lia.
Qed.

(** *** Unregistering *)

Lemma take_out_filter {A} `{EqDecision A} (x : A) l : NoDup l → x ∈ l → take_out x l = Some (filter (λ y, y ≠ x) l).
Proof.
  induction l as [|y l IH]; intros Hd Hx; [by apply not_elem_of_nil in Hx|]. apply NoDup_cons in Hd as [Hy Hd]. cbn [take_out].
  rewrite filter_cons. case_bool_decide as E.
  - subst y. rewrite decide_False by (intros H; by apply H). f_equal. symmetry. clear IH Hx Hd.
    induction l as [|z l IH]; [done|]. apply not_elem_of_cons in Hy as [Hne Hy]. rewrite filter_cons, decide_True by done. by rewrite IH.
  - rewrite decide_True by done. apply elem_of_cons in Hx as [->|Hx]; [done|]. by rewrite IH.
Qed.

(** What is left without the registrations of [wait] from [index] on. *)
Definition without_from (wait index : nat) (l : list (nat * nat)) : list (nat * nat) :=
  filter (λ x, ¬ (x.1 = wait ∧ index ≤ x.2)) l.

Lemma without_from_step wait index l :
  without_from wait (S index) (filter (λ y, y ≠ (wait, index)) l) = without_from wait index l.
Proof.
  unfold without_from. rewrite list_filter_filter. apply list_filter_iff. intros [a b]. cbn. split.
  - intros [H1 H2] [-> Hle]. destruct (decide (index = b)) as [->|]; [by apply H2|]. apply H1. split; [done|lia].
  - intros H. split; [intros [-> ?]; apply H; split; [done|lia]|]. intros [= -> ->]. apply H. split; [done|lia].
Qed.
Lemma without_from_step_absent wait index l : (wait, index) ∉ l → without_from wait (S index) l = without_from wait index l.
Proof.
  intros Hn. unfold without_from. apply list_filter_ext_in. intros [a b] Hin. cbn. split; intros H [-> Hle]; apply H; (split; [done|]).
  - destruct (decide (b = index)) as [->|]; [done|lia].
  - lia.
Qed.

(** The registrations of one wait agree with those of the channels, from [index] on. *)
Definition agrees w (wait index : nat) (registered : list (option nat)) : Prop :=
  (∀ c ch, w_channels w !! c = Some ch → NoDup (selects ch) ∧
     ∀ i, index ≤ i → (wait, i) ∈ selects ch ↔ registered !! i = Some (Some c)) ∧
  (∀ i c, registered !! i = Some (Some c) → is_Some (w_channels w !! c)).

Lemma unregister_runs wait count : ∀ index w sw (Q : unit → World V → Prop),
  w_waits w !! wait = Some sw → agrees w wait index (sw_registered sw) → index + count = length (sw_registered sw) →
  (∀ w' sw', reselects w w' (λ _ l l', l' = without_from wait index l) → w_waits w' = <[wait := sw']> (w_waits w) → Q tt w') →
  runs (unregister_from wait index count) w Q.
Proof.
  induction count as [|count IH]; intros index w sw Q Hsw Hag Hlen HQ; cbn [unregister_from].
  - apply call_ret, (HQ w sw); [|by rewrite insert_id]. split; try done. intros c ch Hc. exists (selects ch).
    rewrite set_selects_id. split; [done|]. symmetry. unfold without_from. apply list_filter_all.
    intros [a i] Hin. cbn. intros [-> Hle]. apply (proj1 Hag _ _ Hc) in Hin; [|done].
    apply lookup_lt_Some in Hin. lia.
  - apply (call_get_wait _ sw); [done|].
    assert (Hrest : ∀ w1 sw1, w_waits w1 = <[wait := sw1]> (w_waits w) → agrees w1 wait (S index) (sw_registered sw1) →
      length (sw_registered sw1) = length (sw_registered sw) →
      reselects w w1 (λ _ l l', without_from wait (S index) l' = without_from wait index l) →
      runs (unregister_from wait (S index) count) w1 Q).
    { intros w1 sw1 Hw1 Hag1 Hl1 Hr1. apply (IH (S index) w1 sw1); [by rewrite Hw1, lookup_insert_eq|done|lia|].
      intros w2 sw2 Hr2 Hw2. apply (HQ w2 sw2); [|by rewrite Hw2, Hw1, insert_insert_eq].
      eapply reselects_trans; [exact Hr1|exact Hr2|]. intros _ l1 l2 l3 <-. done. }
    assert (Hskip : (∀ c, sw_registered sw !! index ≠ Some (Some c)) → runs (unregister_from wait (S index) count) w Q).
    { intros Hno. apply (Hrest w sw); [by rewrite insert_id| |done|].
      - split; [|apply Hag]. intros c ch Hc. destruct (proj1 Hag _ _ Hc) as [Hnd Hmem]. split; [done|].
        intros i Hi. apply Hmem. lia.
      - split; try done. intros c ch Hc. exists (selects ch). rewrite set_selects_id. split; [done|].
        apply without_from_step_absent. intros Hin%(proj1 Hag _ _ Hc); [|done]. by apply Hno in Hin. }
    destruct (sw_registered sw !! index) as [[c|]|] eqn:Ei; [|by apply call_bind, call_ret, Hskip..].
    destruct (proj2 Hag _ _ Ei) as [ch Hc]. destruct (proj1 Hag _ _ Hc) as [Hnd Hmem].
    apply call_bind. unfold select_unlink. apply (call_get_channel _ ch); [done|].
    rewrite take_out_filter; [|done|by apply Hmem]. apply call_set_channel, (call_get_wait _ sw); [done|]. apply call_modify_end.
    apply (Hrest _ (mkSelectWait (sw_task sw) (sw_context sw) (sw_deadline sw) (sw_signaled sw) (sw_cases sw)
      (<[index := None]> (sw_registered sw)))); [done| |by cbn; rewrite length_insert|].
    + split.
      * intros d chd. cbn. intros Hd. assert (∃ ch0, w_channels w !! d = Some ch0 ∧
          selects chd = filter (λ y, y ≠ (wait, index)) (selects ch0)) as (ch0 & H0 & ->).
        { destruct (decide (d = c)) as [->|Hne].
          - rewrite lookup_insert_eq in Hd. injection Hd as <-. by exists ch.
          - rewrite lookup_insert_ne in Hd by done. exists chd. split; [done|]. symmetry. apply list_filter_all.
            intros x Hx ->. apply (proj1 Hag _ _ Hd) in Hx; [|done]. rewrite Ei in Hx. by injection Hx as ->. }
        destruct (proj1 Hag _ _ H0) as [Hnd0 Hmem0]. split; [by apply NoDup_filter|]. intros i Hi.
        rewrite list_elem_of_filter, list_lookup_insert_ne by lia. rewrite Hmem0 by lia. split; [naive_solver|].
        intros ?. split; [|done]. intros [= ->]. lia.
      * cbn. intros i d. destruct (decide (i = index)) as [->|Hne].
        -- intros Hi. rewrite list_lookup_insert_eq in Hi; [done|]. by eapply lookup_lt_Some.
        -- rewrite list_lookup_insert_ne by done. intros Hi. destruct (proj2 Hag _ _ Hi) as [chd Hd].
           destruct (decide (d = c)) as [->|]; [rewrite lookup_insert_eq|rewrite lookup_insert_ne by done]; eauto.
    + eapply (reselects_one w _ c ch (filter (λ y, y ≠ (wait, index)) (selects ch))); try done; [apply without_from_step|].
      intros d chd Hd Hchd. apply without_from_step_absent. intros Hin%(proj1 Hag _ _ Hchd); [|done].
      rewrite Ei in Hin. by injection Hin as ->.
Qed.

(** *** The parts of the invariant that do not look at the registrations *)

Lemma task_inv_lists w g w' :
  task_inv w g → w_tasks w' = w_tasks w → w_homes w' = w_homes w → w_notified w' = w_notified w →
  (∀ e, e_queue (exec w' e) = e_queue (exec w e) ∧ e_mailbox (exec w' e) = e_mailbox (exec w e) ∧
        e_current (exec w' e) = e_current (exec w e)) → task_inv w' g.
Proof.
  intros H Ht Hh Hn Hx. assert (∀ t, owner w' t = owner w t) as Ho by (intros t; unfold owner; by rewrite Ht).
  assert (∀ e, e_queue (exec w' e) = e_queue (exec w e)) as Hq by (intros e; apply Hx).
  assert (∀ e, e_mailbox (exec w' e) = e_mailbox (exec w e)) as Hm by (intros e; apply Hx).
  assert (∀ e, e_current (exec w' e) = e_current (exec w e)) as Hc by (intros e; apply Hx).
  split; rewrite ?Ht; try setoid_rewrite Hq; try setoid_rewrite Hm; try setoid_rewrite Hc; try setoid_rewrite Ho; try apply H.
  - apply (homes_same w w'); [done..|apply (ti_home _ _ H)].
  - rewrite Hn. apply H.
Qed.

Lemma reselects_none w w' f c : reselects w w' f → w_channels w' !! c = None → w_channels w !! c = None.
Proof.
  intros H Hc. destruct (w_channels w !! c) as [ch|] eqn:E; [|done]. destruct (rs_some _ _ _ H _ _ E) as (l & E' & _). congruence.
Qed.
Lemma reselects_back w w' f c ch' : reselects w w' f → w_channels w' !! c = Some ch' →
  ∃ ch l, w_channels w !! c = Some ch ∧ ch' = set_selects l ch ∧ f c (selects ch) l.
Proof.
  intros H Hc. destruct (w_channels w !! c) as [ch|] eqn:E; [|by rewrite (rs_none _ _ _ H _ E) in Hc].
  destruct (rs_some _ _ _ H _ _ E) as (l & E' & Hf). rewrite E' in Hc. injection Hc as <-. eauto.
Qed.

Lemma queue_inv_reselects w g w' f : queue_inv w g → reselects w w' f → queue_inv w' g.
Proof.
  intros H Hr. split; rewrite ?(rs_tasks _ _ _ Hr), ?(rs_next _ _ _ Hr).
  - intros c ch' s Hc. destruct (reselects_back _ _ _ _ _ Hr Hc) as (ch & l & Hch & -> & _).
    pose proof (qi_queue _ _ H c ch s Hch). by destruct s.
  - intros c s Hc. by apply (qi_none _ _ H), (reselects_none _ _ _ _ Hr).
  - apply (qi_member _ _ H).
  - apply (qi_next _ _ H).
  - intros t k c s Hk Hu. destruct (qi_uses _ _ H _ _ _ _ Hk Hu) as (ch & Hc & He & Hv).
    destruct (rs_some _ _ _ Hr _ _ Hc) as (l & Hc' & _). exists (set_selects l ch). by destruct s.
Qed.
Lemma data_reselects loose w w' f : data_inv loose w → reselects w w' f → data_inv loose w'.
Proof.
  intros [H1 H2 H3 H4] Hr. split; rewrite ?(rs_count _ _ _ Hr); [| | |done].
  - intros c ch' Hc. destruct (reselects_back _ _ _ _ _ Hr Hc) as (ch & l & Hch & -> & _).
    destruct (H1 _ _ Hch) as [A B C D E F G]. exact (mkChannelOk (set_selects l ch) A B C D E F G).
  - intros c ch' Hc Hl. destruct (reselects_back _ _ _ _ _ Hr Hc) as (ch & l & Hch & -> & _). exact (H2 _ _ Hch Hl).
  - rewrite H3. rewrite <- !(size_dom (D := gset nat)). do 2 f_equal. apply set_eq. intros c. rewrite !elem_of_dom. split.
    + intros [ch Hc]. destruct (rs_some _ _ _ Hr _ _ Hc) as (l & -> & _). eauto.
    + intros [ch' Hc]. destruct (reselects_back _ _ _ _ _ Hr Hc) as (ch & l & -> & _). eauto.
Qed.
Lemma case_ok_reselects w w' f case : reselects w w' f → case_ok w case → case_ok w' case.
Proof.
  intros Hr (c & ch & Hcase & Hc & Hv & He). destruct (rs_some _ _ _ Hr _ _ Hc) as (l & Hc' & _).
  by exists c, (set_selects l ch).
Qed.
Lemma quiet_reselects w g w' g' f :
  quiet w g → reselects w w' f → calmer w g w' g' → quiet w' g'.
Proof.
  intros H Hr Hc c ch' Hch'. destruct (reselects_back _ _ _ _ _ Hr Hch') as (ch & l & Hch & -> & _).
  eapply quiet_same; [by apply H|done|by split].
Qed.

(** ** The wait *)

Lemma registrations_lookup cases i c : registrations cases !! i = Some (Some c) →
  ∃ case, cases !! i = Some case ∧ case_channel case = Some c.
Proof.
  unfold registrations. rewrite list_lookup_imap. destruct (cases !! i) as [case|] eqn:E; [|done]. cbn.
  destruct (existsb _ _); [done|]. intros [= Hc]. by exists case.
Qed.

(** The world in which the task waits. *)
Record parked_world w (t : nat) k' (address : nat) sw w' : Prop := mkParkedWorld {
  pw_memory : w_memory w' = w_memory w;
  pw_tasks : w_tasks w' = <[t := k']> (w_tasks w);
  pw_next : w_wait_next w' = w_wait_next w;
  pw_waits : w_waits w' = <[address := sw]> (w_waits w);
  pw_homes : w_homes w' = w_homes w;
  pw_notified : w_notified w' = w_notified w;
  pw_count : w_channel_count w' = w_channel_count w;
  pw_none : ∀ c, w_channels w !! c = None → w_channels w' !! c = None;
  pw_some : ∀ c ch, w_channels w !! c = Some ch →
    ∃ l, w_channels w' !! c = Some (set_selects l ch) ∧ gains address 0 (sw_registered sw) c (selects ch) l;
}.

Definition appended x (address : nat) : Executor :=
  mkExecutor (e_queue x) (e_current x) (e_mailbox x) (e_selects x ++ [address]) (e_timer x).

Lemma select_park_runs here w g t k context cases deadline address (Q : unit → World V → Prop) :
  inv w g → polling here w g t k context FDN_CHANNEL_WAIT_SELECT → wake_ready k = false → cases_ok w cases →
  let sw := mkSelectWait t context deadline false cases (registrations cases) in
  let k' := waits_in k context None FDN_CHANNEL_WAIT_SELECT fdn_channel_cancel_select in
  (∀ w', parked_world w t k' address sw w' →
     (∀ e, exec w' e = if decide (e = here) then appended (exec w here) address else exec w e) → Q tt w') →
  runs (select_park here t context cases deadline address) w Q.
Proof.
  intros Hinv Hpo Hw [_ Hcases] sw k' HQ. pose proof (inv_core _ _ Hinv) as Hcore.
  destruct (polling_running _ _ _ _ _ _ _ Hpo) as [_ Hp]. pose proof (po_task _ _ _ _ _ _ _ Hpo) as Hk.
  unfold select_park. apply call_set_wait. fold sw. set (w1 := with_waits _ w).
  apply call_bind, (park_runs here w1 t k context); [apply Hpo|done|by eapply running_fields|done|]. fold k'.
  apply call_bind, register_runs.
  - intros c Hc. apply list_elem_of_lookup in Hc as [i Hi]. destruct (registrations_lookup _ _ _ Hi) as (case & Hci & Ecase).
    rewrite Forall_forall in Hcases. destruct (Hcases case) as (c' & ch & E & Hch & _); [by eapply list_elem_of_lookup_2|].
    rewrite Ecase in E. injection E as <-. exists ch. exact Hch.
  - intros w' Hr Hwt. apply call_get_executor, call_modify_end.
    assert (Hx : exec w' here = exec w here) by (unfold exec; by rewrite (rs_executors _ _ _ Hr)).
    rewrite Hx. apply HQ.
    + split; cbn; try apply Hr. exact Hwt.
    + intros e. rewrite exec_insert. destruct (decide _); [done|]. unfold exec. by rewrite (rs_executors _ _ _ Hr).
Qed.

(** A case that has to wait: nothing is there on its channel, and no other select fits. *)
Definition case_pending w g (case : SelectCase) : Prop :=
  ∃ c ch, case_channel case = Some c ∧ w_channels w !! c = Some ch ∧
    (case_kind case = FDN_CHANNEL_SELECT_SEND ∧ nothing_there w g c ch Send ∧
       (∀ wait, ¬ open_case w c FDN_CHANNEL_SELECT_RECEIVE wait) ∨
     case_kind case = FDN_CHANNEL_SELECT_RECEIVE ∧ nothing_there w g c ch Receive ∧
       (∀ wait, ¬ open_case w c FDN_CHANNEL_SELECT_SEND wait)).

Section Parking.
Context (here : nat) (w : World V) (g : Ghost) (t : nat) (k k' : Task) (context address : nat) (sw : SelectWait) (w' : World V).
Hypothesis Hinv : inv w g.
Hypothesis Hpo : polling here w g t k context FDN_CHANNEL_WAIT_SELECT.
Hypothesis Hawake : wake_ready k = false.
Hypothesis Hk' : k' = waits_in k context None FDN_CHANNEL_WAIT_SELECT fdn_channel_cancel_select.
Hypothesis Hfresh : w_waits w !! address = None.
Hypothesis Hsw : sw_task sw = t ∧ sw_context sw = context ∧ sw_signaled sw = false ∧ sw_registered sw = registrations (sw_cases sw).
Hypothesis Hcases : cases_ok w (sw_cases sw).
Hypothesis Hpw : parked_world w t k' address sw w'.
Hypothesis Hx : ∀ e, exec w' e = if decide (e = here) then appended (exec w here) address else exec w e.
Let g' := set_phase t (Selecting address) g.

Lemma parking_running : phase g t = Some Running ∧ w_tasks w !! t = Some k ∧ free_fields k false false None.
Proof.
  destruct (polling_running _ _ _ _ _ _ _ Hpo) as [_ Hp]. pose proof (po_task _ _ _ _ _ _ _ Hpo) as Hk.
  split; [done|]. split; [done|]. by eapply running_fields; [apply (inv_core _ _ Hinv)| |].
Qed.
Lemma parking_owner u : owner w' u = owner w u.
Proof.
  destruct parking_running as (_ & Hk & _). unfold owner. rewrite (pw_tasks _ _ _ _ _ _ Hpw).
  destruct (decide (u = t)) as [->|]; [|by rewrite lookup_insert_ne]. by rewrite lookup_insert_eq, Hk, Hk'.
Qed.
Lemma parking_reselects : reselects (with_tasks (insert t k') w) (with_executors (λ _, w_executors w) w')
  (gains address 0 (sw_registered sw)).
Proof. destruct Hpw as [H1 H2 H3 H4 H5 H6 H7 H8 H9]. by split. Qed.

Lemma parking_task : task_inv w' g'.
Proof.
  destruct parking_running as (Hp & Hk & E1 & E2 & E3 & E4). pose proof (core_task _ _ (inv_core _ _ Hinv)) as Ht.
  set (w1 := with_tasks (insert t k') w).
  apply (task_inv_lists w1).
  - eapply (task_inv_step w g w1 t k k' Running (Selecting address)); try done; try by rewrite Hk'.
    + exists context. rewrite Hk'. by split.
    + intros e Hin. split_and!; [done|done|]. by eapply current_not_tail; [| |exact Hin]; [done|apply Hpo].
    + by eapply relisted_same.
  - apply (pw_tasks _ _ _ _ _ _ Hpw).
  - apply (pw_homes _ _ _ _ _ _ Hpw).
  - apply (pw_notified _ _ _ _ _ _ Hpw).
  - intros e. rewrite Hx. change (exec w1 e) with (exec w e). by destruct (decide _) as [->|].
Qed.

Lemma parking_not_selecting context' : ¬ selecting k context'.
Proof. destruct parking_running as (_ & _ & _ & _ & E3 & _). intros [(? & _)|(_ & ? & _)]; congruence. Qed.
Lemma parking_wait_other wait' sw' : w_waits w !! wait' = Some sw' → sw_task sw' ≠ t.
Proof.
  intros H E. destruct (si_task _ _ (core_select _ _ (inv_core _ _ Hinv)) _ _ H) as (k0 & Hk0 & Hsel). rewrite E in Hk0.
  destruct parking_running as (_ & Hk & _). rewrite Hk in Hk0. injection Hk0 as <-. by apply parking_not_selecting in Hsel.
Qed.
Lemma parking_waits wait' sw' : w_waits w' !! wait' = Some sw' ↔
  wait' = address ∧ sw' = sw ∨ wait' ≠ address ∧ w_waits w !! wait' = Some sw'.
Proof.
  rewrite (pw_waits _ _ _ _ _ _ Hpw). destruct (decide (wait' = address)) as [->|];
    [rewrite lookup_insert_eq|rewrite lookup_insert_ne by done]; naive_solver.
Qed.

Lemma parking_back c ch' : w_channels w' !! c = Some ch' →
  ∃ ch l, w_channels w !! c = Some ch ∧ ch' = set_selects l ch ∧ gains address 0 (sw_registered sw) c (selects ch) l.
Proof. intros Hc. exact (reselects_back _ _ _ _ _ parking_reselects Hc). Qed.

Lemma parking_select : select_inv w' g'.
Proof.
  destruct parking_running as (Hp & Hk & _). destruct Hsw as (S1 & S2 & S3 & S4).
  pose proof (core_select _ _ (inv_core _ _ Hinv)) as Hs.
  assert (Hlk : ∀ u, w_tasks w' !! u = if decide (u = t) then Some k' else w_tasks w !! u).
  { intros u. rewrite (pw_tasks _ _ _ _ _ _ Hpw). destruct (decide (u = t)) as [->|];
      [by rewrite lookup_insert_eq|by rewrite lookup_insert_ne]. }
  split.
  - intros u wait'. unfold g'. rewrite phase_set. setoid_rewrite parking_waits. destruct (decide (u = t)) as [->|Hne].
    + split; [intros [= <-]; exists sw; naive_solver|]. intros (sw' & [[-> _]|[_ H]] & Htk & _); [done|].
      by apply parking_wait_other in H.
    + rewrite (si_selecting _ _ Hs). apply exist_proper. intros sw'. split; [|naive_solver].
      intros (H & ? & ?). split; [|done]. right. split; [|done]. intros ->. by rewrite Hfresh in H.
  - intros wait' sw' [[-> ->]|[_ H]]%parking_waits.
    + exists k'. rewrite S1, Hlk, decide_True, S2 by done. split; [done|]. left. by rewrite Hk'.
    + destruct (si_task _ _ Hs _ _ H) as (ku & Hu & Hsel). exists ku. rewrite Hlk, decide_False; [done|by eapply parking_wait_other].
  - intros u ku ctx. rewrite Hlk. setoid_rewrite parking_waits. destruct (decide (u = t)) as [->|].
    + intros _ _. exists address, sw. naive_solver.
    + intros Hu Hsel. destruct (si_wait _ _ Hs _ _ _ Hu Hsel) as (wait' & sw' & H & E). exists wait', sw'.
      split; [|done]. right. split; [|done]. intros ->. by rewrite Hfresh in H.
  - intros wait1 wait2 sw1 sw2 [[-> ->]|[_ H1]]%parking_waits [[-> ->]|[_ H2]]%parking_waits; [done|..].
    + rewrite S1. intros E. symmetry in E. by apply parking_wait_other in H2.
    + rewrite S1. intros E. by apply parking_wait_other in H1.
    + by apply (si_unique _ _ Hs).
  - intros e wait'. setoid_rewrite parking_waits. rewrite Hx. setoid_rewrite parking_owner.
    assert (e_selects (if decide (e = here) then appended (exec w here) address else exec w e) =
      e_selects (exec w e) ++ (if decide (e = here) then [address] else [])) as ->.
    { destruct (decide _) as [->|]; [done|by rewrite app_nil_r]. }
    assert (owner w t = Some here) as Ho.
    { destruct (polling_running _ _ _ _ _ _ _ Hpo) as [Hin _]. by apply (ti_current _ _ (core_task _ _ (inv_core _ _ Hinv))). }
    rewrite elem_of_app, (si_list _ _ Hs). split.
    + intros [(sw' & H & E)|Hin].
      * exists sw'. split; [|done]. right. split; [|done]. intros ->. by rewrite Hfresh in H.
      * destruct (decide (e = here)) as [->|]; [|by apply not_elem_of_nil in Hin]. apply list_elem_of_singleton in Hin as ->.
        exists sw. rewrite S1. naive_solver.
    + intros (sw' & [[-> ->]|[_ H]] & E); [|by left; exists sw'].
      right. rewrite S1, Ho in E. injection E as <-. rewrite decide_True by done. by apply list_elem_of_singleton.
  - intros e. rewrite Hx. destruct (decide _) as [->|]; [|apply (si_list_once _ _ Hs)]. cbn.
    apply NoDup_app. split; [apply (si_list_once _ _ Hs)|]. split; [|apply NoDup_singleton].
    intros x Hin ->%list_elem_of_singleton. apply (si_list _ _ Hs) in Hin as (sw' & H & _). by rewrite Hfresh in H.
  - intros wait' sw' [[-> ->]|[_ H]]%parking_waits.
    + split; [done|]. destruct Hcases as [? Hall]. split; [done|]. eapply Forall_impl; [exact Hall|]. intros case.
      exact (case_ok_reselects _ _ _ case parking_reselects).
    + destruct (si_cases _ _ Hs _ _ H) as (? & ? & Hall). split; [done|]. split; [done|]. eapply Forall_impl; [exact Hall|]. intros case.
      exact (case_ok_reselects _ _ _ case parking_reselects).
  - intros c ch' wait' i (ch & l & Hc & -> & more & El & Hnd & Hin)%parking_back. cbn [selects set_selects]. rewrite El, elem_of_app, Hin.
    setoid_rewrite parking_waits. rewrite (si_registered _ _ Hs c ch wait' i Hc). split.
    + intros [(sw' & H & Hi)|(j & Hj & [= -> ->])].
      * exists sw'. split; [|done]. right. split; [|done]. intros ->. by rewrite Hfresh in H.
      * exists sw. split; [by left|]. exact Hj.
    + intros (sw' & [[-> ->]|[_ H]] & Hi); [right; by exists i|left; by exists sw'].
  - intros c ch' (ch & l & Hc & -> & more & El & Hnd & Hin)%parking_back. cbn [selects set_selects]. rewrite El.
    apply NoDup_app. split; [by apply (si_registered_once _ _ Hs c)|]. split; [|done].
    intros x Hx' (j & _ & ->)%Hin. apply (si_registered _ _ Hs c ch _ _ Hc) in Hx' as (sw' & H & _). by rewrite Hfresh in H.
Qed.

Hypothesis Hpending : Forall (case_pending w g) (sw_cases sw).

Lemma parking_open c kind wait' : open_case w' c kind wait' →
  wait' = address ∧ (∃ case, case ∈ sw_cases sw ∧ is_case c kind case) ∨ wait' ≠ address ∧ open_case w c kind wait'.
Proof.
  intros (sw' & [[-> ->]|[Hne H]]%parking_waits & Hsig & Hex).
  - left. split; [done|]. by apply Exists_exists in Hex.
  - right. split; [done|]. by exists sw'.
Qed.
Lemma parking_pending c ch kind case : w_channels w !! c = Some ch → case ∈ sw_cases sw → is_case c kind case →
  (kind = FDN_CHANNEL_SELECT_SEND → nothing_there w g c ch Send ∧ ∀ wait, ¬ open_case w c FDN_CHANNEL_SELECT_RECEIVE wait) ∧
  (kind = FDN_CHANNEL_SELECT_RECEIVE → nothing_there w g c ch Receive ∧ ∀ wait, ¬ open_case w c FDN_CHANNEL_SELECT_SEND wait).
Proof.
  intros Hc Hin [Hch <-]. rewrite Forall_forall in Hpending. destruct (Hpending case Hin) as (c' & ch' & E & Hc' & H).
  rewrite Hch in E. injection E as <-. rewrite Hc in Hc'. injection Hc' as <-.
  destruct H as [(-> & ? & ?)|(-> & ? & ?)]; by split.
Qed.

Lemma parking_quiet : quiet w' g'.
Proof.
  pose proof (inv_quiet _ _ Hinv) as Hq. intros c ch' (ch & l & Hc & -> & _)%parking_back.
  destruct (Hq _ _ Hc) as [Q1 Q2 Q3 Q4 Q5]. split; try done.
  - intros wait' [[-> (case & Hin & Hcase)]|[_ Ho]]%parking_open; [|by eapply Q3].
    destruct (parking_pending _ _ _ _ Hc Hin Hcase) as [_ H]. destruct (H eq_refl) as [(? & ? & ?) _]. done.
  - intros wait' [[-> (case & Hin & Hcase)]|[_ Ho]]%parking_open; [|by eapply Q4].
    destruct (parking_pending _ _ _ _ Hc Hin Hcase) as [H _]. destruct (H eq_refl) as [(? & ? & ?) _]. done.
  - intros wait1 wait2 [[-> (case & Hin & Hcase)]|[_ Ho]]%parking_open [[-> (case2 & Hin2 & Hcase2)]|[_ Ho2]]%parking_open; [done|..].
    + destruct (parking_pending _ _ _ _ Hc Hin Hcase) as [H _]. destruct (H eq_refl) as [_ Hno]. by apply Hno in Ho2.
    + destruct (parking_pending _ _ _ _ Hc Hin2 Hcase2) as [_ H]. destruct (H eq_refl) as [_ Hno]. by apply Hno in Ho.
    + by apply Q5.
Qed.

Lemma parking_inv : inv w' g'.
Proof.
  destruct parking_running as (Hp & Hk & _ & _ & E3 & _). pose proof (inv_core _ _ Hinv) as Hcore.
  split; [split| | |].
  - apply parking_task.
  - assert (queue_inv (with_tasks (insert t k') w) g') as Hq1.
    { eapply (queue_inv_step w g _ t k k' Running (Selecting address)); try done; [apply Hcore|].
      intros c s (E & _). by rewrite Hk' in E. }
    pose proof (queue_inv_reselects _ _ _ _ Hq1 parking_reselects) as [A B C D E]. by split.
  - apply parking_select.
  - pose proof (data_reselects None _ _ _ (data_same None w (with_tasks (insert t k') w) (inv_data _ _ Hinv) eq_refl eq_refl)
      parking_reselects) as [A B C D]. by split.
  - apply parking_quiet.
  - intros u. unfold g'. rewrite phase_set. destruct (decide _); [done|apply (inv_settled _ _ Hinv)].
Qed.

End Parking.

(** ** The cases *)

Definition case_done w g (case : SelectCase) (status : N) w' g' : Prop :=
  ∃ c ch, case_channel case = Some c ∧ w_channels w !! c = Some ch ∧
    (case_kind case = FDN_CHANNEL_SELECT_SEND ∧
       (if (receivers ch =? 0)%N then status = FDN_CHANNEL_CLOSED ∧ g' = g ∧ w' = w
        else send_done w g c ch (case_value case) status w' g') ∨
     case_kind case = FDN_CHANNEL_SELECT_RECEIVE ∧ receive_done w g c ch (case_value case) status w' g').

Lemma try_case_runs here w g case :
  inv w g → free here w g → case_ok w case →
  runs (try_case here case) w (λ r w', match r with
    | Some status => ∃ g', inv w' g' ∧ case_done w g case status w' g'
    | None => w' = w ∧ case_pending w g case
    end).
Proof.
  intros Hinv Hfree (c & ch & Ec & Hc & Hv & Hend). unfold try_case. rewrite Ec. destruct Hend as [[Ek He]|[Ek He]].
  - rewrite Ek. cbn. apply (call_get_channel _ ch); [done|]. apply N.eqb_neq in He as He'. rewrite He'.
    destruct (N.eqb_spec (receivers ch) 0) as [Er|Er].
    + unfold send_locked. apply (call_get_channel _ ch); [done|]. rewrite Er. exists g. split; [done|].
      exists c, ch. rewrite Er. split; [done|]. split; [done|]. by left.
    + eapply call_mono; [by apply (send_locked_done here w g c ch)|]. intros [status|] w'.
      * intros (g' & Hi & Hd). exists g'. split; [done|]. exists c, ch. apply N.eqb_neq in Er. rewrite Er.
        split; [done|]. split; [done|]. by left.
      * intros (-> & Hn & Ho). split; [done|]. exists c, ch. split; [done|]. split; [done|]. by left.
  - rewrite Ek. cbn. apply (call_get_channel _ ch); [done|]. apply N.eqb_neq in He as He'. rewrite He'.
    eapply call_mono; [by apply (receive_locked_done here w g c ch)|]. intros [status|] w'.
    + intros (g' & Hi & Hd). exists g'. split; [done|]. exists c, ch. split; [done|]. split; [done|]. by right.
    + intros (-> & Hn & Ho). split; [done|]. exists c, ch. split; [done|]. split; [done|]. by right.
Qed.

(** The first case that is not pending is taken. *)
Lemma try_cases_runs here w g cases : ∀ index,
  inv w g → free here w g → Forall (case_ok w) cases →
  runs (try_cases here index cases) w (λ r w', match r with
    | Some (i, status) => ∃ j case g', i = index + j ∧ cases !! j = Some case ∧ Forall (case_pending w g) (take j cases) ∧
        inv w' g' ∧ case_done w g case status w' g'
    | None => w' = w ∧ Forall (case_pending w g) cases
    end).
Proof.
  induction cases as [|case cases IH]; intros index Hinv Hfree Hok; cbn [try_cases].
  - apply call_ret. by split.
  - apply List.Forall_cons_iff in Hok as [Hcase Hok]. apply call_bind.
    eapply call_mono; [by apply (try_case_runs here w g case)|]. intros [status|] w'.
    + intros (g' & Hi & Hd). apply call_ret. exists 0, case, g'. rewrite Nat.add_0_r. split; [done|].
      split; [done|]. split; [constructor|done].
    + intros [-> Hp]. eapply call_mono; [by apply (IH (S index))|]. intros [[i status]|] w'.
      * intros (j & case' & g' & -> & Hj & Hall & Hi & Hd). exists (S j), case', g'. split; [lia|]. split; [done|].
        split; [by constructor|]. done.
      * intros [-> Hall]. split; [done|]. by constructor.
Qed.

(** ** Resuming *)

Lemma find_wait_runs l task context w (Q : option nat → World V → Prop) :
  (∀ wait, wait ∈ l → is_Some (w_waits w !! wait)) →
  (∀ r, match r with
        | Some wait => wait ∈ l ∧ ∃ sw, w_waits w !! wait = Some sw ∧ sw_task sw = task ∧ sw_context sw = context
        | None => ∀ wait sw, wait ∈ l → w_waits w !! wait = Some sw → ¬ (sw_task sw = task ∧ sw_context sw = context)
        end → Q r w) →
  runs (find_wait l task context) w Q.
Proof.
  induction l as [|wait l IH]; intros Hl HQ; cbn [find_wait].
  - apply call_ret, HQ. by intros ?? ?%not_elem_of_nil.
  - destruct (Hl wait) as [sw Hsw]; [left|]. apply (call_get_wait _ sw); [done|].
    destruct (bool_decide (sw_task sw = task) && bool_decide (sw_context sw = context)) eqn:E.
    + apply andb_true_iff in E as [E1%bool_decide_eq_true E2%bool_decide_eq_true]. apply call_ret, HQ.
      split; [left|]. by exists sw.
    + apply IH; [intros x Hx; apply Hl; by right|]. intros [r|] Hr; apply HQ.
      * destruct Hr as [Hr ?]. split; [by right|done].
      * intros x swx [->|Hx]%elem_of_cons Hswx; [|by apply (Hr x swx)]. rewrite Hsw in Hswx. injection Hswx as <-. intros [E1 E2].
        rewrite !bool_decide_true in E by done. done.
Qed.

Lemma take_out_app {A} `{EqDecision A} (x : A) l : NoDup l → x ∈ l → default l (take_out x l) = filter (λ y, y ≠ x) l.
Proof. intros Hd Hx. by rewrite take_out_filter. Qed.

(** The world behind a select that was resumed: its task has taken the wake, its wait
    [address] is gone. *)
Record resumed_world w (t : nat) k' (address : nat) w' : Prop := mkResumedWorld {
  rw_memory : w_memory w' = w_memory w;
  rw_tasks : w_tasks w' = <[t := k']> (w_tasks w);
  rw_next : w_wait_next w' = w_wait_next w;
  rw_waits : w_waits w' = delete address (w_waits w);
  rw_homes : w_homes w' = w_homes w;
  rw_notified : w_notified w' = w_notified w;
  rw_count : w_channel_count w' = w_channel_count w;
  rw_none : ∀ c, w_channels w !! c = None → w_channels w' !! c = None;
  rw_some : ∀ c ch, w_channels w !! c = Some ch → ∃ l, w_channels w' !! c = Some (set_selects l ch) ∧
    l = without_from address 0 (selects ch);
}.
Definition dropped_wait x (address : nat) : Executor :=
  mkExecutor (e_queue x) (e_current x) (e_mailbox x) (filter (λ y, y ≠ address) (e_selects x)) (e_timer x).

Section Resuming.
Context (here : nat) (w : World V) (g : Ghost) (t : nat) (k : Task) (context address : nat) (sw : SelectWait) (w' : World V).
Hypothesis Hinv : inv w g.
Hypothesis Hpo : polling here w g t k context FDN_CHANNEL_WAIT_SELECT.
Hypothesis Hwoken : wake_ready k = true.
Hypothesis Hsw : w_waits w !! address = Some sw ∧ sw_task sw = t.
Hypothesis Hrw : resumed_world w t (taken k) address w'.
Hypothesis Hx : ∀ e, exec w' e = if decide (e = here) then dropped_wait (exec w here) address else exec w e.

Lemma resuming_running : phase g t = Some Running ∧ w_tasks w !! t = Some k ∧ free_fields k false false None.
Proof.
  destruct (polling_running _ _ _ _ _ _ _ Hpo) as [_ Hp]. pose proof (po_task _ _ _ _ _ _ _ Hpo) as Hk.
  split; [done|]. split; [done|]. by eapply running_fields; [apply (inv_core _ _ Hinv)| |].
Qed.
Lemma resuming_owner u : owner w' u = owner w u.
Proof.
  destruct resuming_running as (_ & Hk & _). unfold owner. rewrite (rw_tasks _ _ _ _ _ Hrw).
  destruct (decide (u = t)) as [->|]; [|by rewrite lookup_insert_ne]. by rewrite lookup_insert_eq, Hk.
Qed.
Lemma resuming_reselects : reselects (with_tasks (insert t (taken k)) w) (with_executors (λ _, w_executors w) w')
  (λ _ l l', l' = without_from address 0 l).
Proof. destruct Hrw as [H1 H2 H3 H4 H5 H6 H7 H8 H9]. by split. Qed.
Lemma resuming_back c ch' : w_channels w' !! c = Some ch' →
  ∃ ch, w_channels w !! c = Some ch ∧ ch' = set_selects (without_from address 0 (selects ch)) ch.
Proof. intros Hc. destruct (reselects_back _ _ _ _ _ resuming_reselects Hc) as (ch & l & ? & ? & ->). by exists ch. Qed.

Lemma resuming_task : task_inv w' g.
Proof.
  destruct resuming_running as (Hp & Hk & E1 & E2 & E3 & E4). pose proof (core_task _ _ (inv_core _ _ Hinv)) as Ht.
  apply (task_inv_lists (with_tasks (insert t (taken k)) w)).
  - by eapply task_inv_fields.
  - apply (rw_tasks _ _ _ _ _ Hrw).
  - apply (rw_homes _ _ _ _ _ Hrw).
  - apply (rw_notified _ _ _ _ _ Hrw).
  - intros e. rewrite Hx. by destruct (decide _) as [->|].
Qed.

Lemma resuming_waits wait' sw' : w_waits w' !! wait' = Some sw' ↔ wait' ≠ address ∧ w_waits w !! wait' = Some sw'.
Proof. rewrite (rw_waits _ _ _ _ _ Hrw), lookup_delete_Some. naive_solver. Qed.
Lemma resuming_other wait' sw' : w_waits w !! wait' = Some sw' → wait' ≠ address → sw_task sw' ≠ t.
Proof.
  intros H Hne E. destruct Hsw as [Hs Hst]. apply Hne.
  apply (si_unique _ _ (core_select _ _ (inv_core _ _ Hinv)) _ _ _ _ H Hs). congruence.
Qed.
Lemma elem_of_without_from wait i x l : (wait, i) ∈ without_from x 0 l ↔ wait ≠ x ∧ (wait, i) ∈ l.
Proof.
  unfold without_from. rewrite list_elem_of_filter. cbn. split; intros [H1 H2]; (split; [|done]).
  - intros ->. apply H1. split; [done|lia].
  - by intros [-> _].
Qed.

Lemma resuming_select : select_inv w' g.
Proof.
  destruct resuming_running as (Hp & Hk & _ & _ & E3 & _). destruct Hsw as [Hs0 Hst].
  pose proof (core_select _ _ (inv_core _ _ Hinv)) as Hs.
  assert (Hlk : ∀ u, w_tasks w' !! u = if decide (u = t) then Some (taken k) else w_tasks w !! u).
  { intros u. rewrite (rw_tasks _ _ _ _ _ Hrw). destruct (decide (u = t)) as [->|];
      [by rewrite lookup_insert_eq|by rewrite lookup_insert_ne]. }
  split.
  - intros u wait'. setoid_rewrite resuming_waits. rewrite (si_selecting _ _ Hs). apply exist_proper. intros sw'. split; [|naive_solver].
    intros (H & Htk & Hsig). split; [|done]. split; [|done]. intros ->.
    assert (phase g u = Some (Selecting address)) as Hu by (apply (si_selecting _ _ Hs); by exists sw').
    rewrite Hs0 in H. injection H as <-. congruence.
  - intros wait' sw' [Hne H]%resuming_waits. destruct (si_task _ _ Hs _ _ H) as (ku & Hu & Hsel). exists ku.
    rewrite Hlk, decide_False; [done|]. by eapply resuming_other.
  - intros u ku ctx. rewrite Hlk. setoid_rewrite resuming_waits. destruct (decide (u = t)) as [->|Hne].
    + intros [= <-]. intros [(Ec & _)|(_ & Ew & _)]; [|done]. cbn in Ec. congruence.
    + intros Hu Hsel. destruct (si_wait _ _ Hs _ _ _ Hu Hsel) as (wait' & sw' & H & E). exists wait', sw'.
      split; [|done]. split; [|done]. intros ->. rewrite Hs0 in H. injection H as <-. congruence.
  - intros wait1 wait2 sw1 sw2 [_ H1]%resuming_waits [_ H2]%resuming_waits. by apply (si_unique _ _ Hs).
  - intros e wait'. setoid_rewrite resuming_waits. setoid_rewrite resuming_owner. rewrite Hx.
    assert (owner w t = Some here) as Ho.
    { destruct (polling_running _ _ _ _ _ _ _ Hpo) as [Hin _]. by apply (ti_current _ _ (core_task _ _ (inv_core _ _ Hinv))). }
    destruct (decide (e = here)) as [->|Hne]; cbn; rewrite ?list_elem_of_filter, (si_list _ _ Hs); [naive_solver|].
    split; [|naive_solver]. intros (sw' & H & E). exists sw'. split; [|done]. split; [|done]. intros ->.
    rewrite Hs0 in H. injection H as <-. congruence.
  - intros e. rewrite Hx. destruct (decide _) as [->|]; [cbn; apply NoDup_filter|]; apply (si_list_once _ _ Hs).
  - intros wait' sw' [_ H]%resuming_waits. destruct (si_cases _ _ Hs _ _ H) as (? & ? & Hall).
    split; [done|]. split; [done|]. eapply Forall_impl; [exact Hall|]. intros case.
    exact (case_ok_reselects _ _ _ case resuming_reselects).
  - intros c ch' wait' i (ch & Hc & ->)%resuming_back. cbn [selects set_selects]. setoid_rewrite resuming_waits.
    rewrite elem_of_without_from, (si_registered _ _ Hs c ch wait' i Hc). naive_solver.
  - intros c ch' (ch & Hc & ->)%resuming_back. cbn [selects set_selects]. apply NoDup_filter, (si_registered_once _ _ Hs c ch Hc).
Qed.

Lemma resuming_inv : inv w' g.
Proof.
  destruct resuming_running as (Hp & Hk & E1 & E2 & E3 & E4). pose proof (inv_core _ _ Hinv) as Hcore.
  assert (Hcl : calmer w g w' g).
  { split; [done|]. intros c kind wait' (sw' & [_ H]%resuming_waits & ?). by exists sw'. }
  split; [split| | |].
  - apply resuming_task.
  - assert (queue_inv (with_tasks (insert t (taken k)) w) g) as Hq1.
    { split; try apply Hcore. intros u ku c s. cbn. destruct (decide (u = t)) as [->|].
      - rewrite lookup_insert_eq. intros [= <-] (E & _). cbn in E. congruence.
      - rewrite lookup_insert_ne by done. apply (qi_uses _ _ (core_queue _ _ Hcore)). }
    pose proof (queue_inv_reselects _ _ _ _ Hq1 resuming_reselects) as [A B C D E]. by split.
  - apply resuming_select.
  - pose proof (data_reselects None _ _ _ (data_same None w (with_tasks (insert t (taken k)) w) (inv_data _ _ Hinv) eq_refl eq_refl)
      resuming_reselects) as [A B C D]. by split.
  - intros c ch' (ch & Hc & ->)%resuming_back. eapply quiet_same; [by apply (inv_quiet _ _ Hinv)|done|by split].
  - apply (inv_settled _ _ Hinv).
Qed.

End Resuming.

Lemma resume_runs here w g t k context (Q : option (N * option nat) → World V → Prop) :
  inv w g → polling here w g t k context FDN_CHANNEL_WAIT_SELECT →
  (wake_ready k = false → Q None w) →
  (∀ w' address, wake_ready k = true → inv w' g → resumed_world w t (taken k) address w' →
     (∀ e, exec w' e = if decide (e = here) then dropped_wait (exec w here) address else exec w e) →
     Q (if (select_status (wake_status k) =? FDN_CHANNEL_SELECT_EVENT)%N then None
        else Some (select_status (wake_status k),
                   if (select_selected (wake_status k) =? 0)%N then None
                   else Some (N.to_nat (select_selected (wake_status k) - 1)))) w') →
  runs (select_resume here t context) w Q.
Proof.
  intros Hinv Hpo Hno Hyes. pose proof (inv_core _ _ Hinv) as Hcore. pose proof (core_select _ _ Hcore) as Hs.
  pose proof (po_task _ _ _ _ _ _ _ Hpo) as Hk. destruct (polling_running _ _ _ _ _ _ _ Hpo) as [Hcur Hp].
  destruct (running_fields _ _ _ _ Hcore Hk Hp) as (_ & _ & E3 & _).
  unfold select_resume. apply call_bind, (take_wake_runs here w g t k context FDN_CHANNEL_WAIT_SELECT); [done|intros Hw|intros Hw].
  { by apply call_ret, Hno. }
  destruct (po_resumes _ _ _ _ _ _ _ Hpo Hw) as [Ectx Ekind].
  assert (Hsel : selecting k context) by (by right).
  assert (Ho : owner w t = Some here) by by apply (ti_current _ _ (core_task _ _ Hcore)).
  set (w1 := with_tasks _ w). apply call_bind. unfold select_remove. apply call_get_executor.
  change (exec w1 here) with (exec w here). apply call_bind, find_wait_runs.
  { intros wait Hin. apply (si_list _ _ Hs) in Hin as (sw & H & _). by exists sw. }
  intros [address|] Hr; cycle 1.
  { exfalso. destruct (si_wait _ _ Hs _ _ _ Hk Hsel) as (wait & sw & H & E).
    destruct (si_task _ _ Hs _ _ H) as (k2 & Hk2 & Hsel2). rewrite E, Hk in Hk2. injection Hk2 as <-.
    apply (Hr wait sw); [|exact H|].
    - apply (si_list _ _ Hs). exists sw. by rewrite E.
    - split; [done|]. destruct Hsel2 as [(? & _)|(_ & _ & E2 & _)]; congruence. }
  destruct Hr as (Hin & sw & Hsw & Htk & _). change (w_waits w !! address = Some sw) in Hsw. apply call_set_executor, call_ret.
  unfold remove_first. rewrite take_out_app by (try done; apply (si_list_once _ _ Hs)). set (w2 := with_executors _ w1).
  apply call_bind. unfold select_destroy. apply (call_get_wait _ sw); [done|].
  destruct (si_cases _ _ Hs _ _ Hsw) as [Ereg _].
  apply call_bind. apply (unregister_runs address _ 0 w2 sw); [done| |by rewrite Ereg; unfold registrations; rewrite length_imap|].
  { split.
    - intros c ch Hc. split; [by apply (si_registered_once _ _ Hs c)|]. intros i _.
      rewrite (si_registered _ _ Hs c ch address i Hc). split; [|by exists sw]. intros (sw' & H & ?). rewrite Hsw in H. by injection H as <-.
    - intros i c Hi. rewrite Ereg in Hi. destruct (registrations_lookup _ _ _ Hi) as (case & Hci & Ecase).
      destruct (si_cases _ _ Hs _ _ Hsw) as (_ & _ & Hall). rewrite Forall_forall in Hall.
      destruct (Hall case) as (c' & ch & E & Hch & _); [by eapply list_elem_of_lookup_2|].
      rewrite Ecase in E. injection E as <-. exists ch. exact Hch. }
  intros w3 sw3 Hr3 Hw3. apply call_modify_end.
  set (w4 := with_waits (delete address) w3).
  assert (Hrw : resumed_world w t (taken k) address w4).
  { split; try apply Hr3. change (delete address (w_waits w3) = delete address (w_waits w)). rewrite Hw3. apply delete_insert_eq. }
  assert (Hx : ∀ e, exec w4 e = if decide (e = here) then dropped_wait (exec w here) address else exec w e).
  { intros e. assert (exec w4 e = exec w2 e) as -> by (change (exec w3 e = exec w2 e); unfold exec; by rewrite (rs_executors _ _ _ Hr3)).
    unfold w2. by rewrite exec_insert. }
  assert (Hinv4 : inv w4 g) by (by eapply resuming_inv).
  specialize (Hyes w4 address Hw Hinv4 Hrw Hx). by destruct (_ =? _)%N; apply call_ret.
Qed.

(** ** The call *)

(** The lists of the executors are all that the invariant reads of them. *)
Lemma core_lists w g w' :
  Core w g → w_tasks w' = w_tasks w → w_wait_next w' = w_wait_next w → w_channels w' = w_channels w → w_waits w' = w_waits w →
  w_homes w' = w_homes w → w_notified w' = w_notified w →
  (∀ e, e_queue (exec w' e) = e_queue (exec w e) ∧ e_mailbox (exec w' e) = e_mailbox (exec w e) ∧
        e_current (exec w' e) = e_current (exec w e)) → (∀ e, e_selects (exec w' e) = e_selects (exec w e)) → Core w' g.
Proof.
  intros [Ht Hq Hs] E1 E2 E3 E4 Eh En Hx Hsel. split; [by eapply task_inv_lists| |].
  - destruct Hq. split; rewrite ?E1, ?E2, ?E3; done.
  - assert (∀ t, owner w' t = owner w t) as Ho by (intros t; unfold owner; by rewrite E1).
    assert (∀ case, case_ok w case → case_ok w' case) as Hc by (intros case; unfold case_ok; by rewrite E3).
    split; rewrite ?E1, ?E3, ?E4; try setoid_rewrite Hsel; try setoid_rewrite Ho; try apply Hs.
    intros wait sw Hsw. destruct (si_cases _ _ Hs _ _ Hsw) as (? & ? & Hall). split; [done|]. split; [done|].
    by eapply Forall_impl.
Qed.

(** The hooks of the timer are set. *)
Definition timed (here : nat) w : World V :=
  with_executors (insert here (mkExecutor (e_queue (exec w here)) (e_current (exec w here)) (e_mailbox (exec w here))
    (e_selects (exec w here)) true)) w.
Lemma timed_exec here w e : exec (timed here w) e =
  if decide (e = here) then mkExecutor (e_queue (exec w here)) (e_current (exec w here)) (e_mailbox (exec w here))
    (e_selects (exec w here)) true else exec w e.
Proof. unfold timed. by rewrite exec_insert. Qed.
Lemma timed_inv here w g : inv w g → inv (timed here w) g.
Proof.
  intros [Hcore Hdata Hquiet Hset]. split; [|by eapply data_same| |done].
  - eapply core_lists; try done; intros e; rewrite timed_exec; by destruct (decide _) as [->|].
  - intros c ch Hc. eapply quiet_calmer; [by apply Hquiet|by apply calmer_waits].
Qed.
Lemma timed_polling here w g t k context kind : polling here w g t k context kind → polling here (timed here w) g t k context kind.
Proof.
  intros [Hf Hc Hk Hr]. assert (e_current (exec (timed here w) here) = e_current (exec w here)) as E
    by (rewrite timed_exec; by rewrite decide_True).
  split; [|by rewrite E|done|done]. intros u. rewrite E. apply Hf.
Qed.

Lemma lock_cases_some w cases : ∀ channels, Forall (case_ok w) cases → is_Some (lock_cases channels cases).
Proof.
  induction cases as [|case cases IH]; intros channels Hok; cbn [lock_cases]; [done|].
  apply List.Forall_cons_iff in Hok as [(c & ch & -> & _) Hok]. by apply IH.
Qed.

(** What a select does from [w], once no wake is left for it to take. *)
Definition select_done (here : nat) w g (t : nat) k (cases : list SelectCase) (deadline now : N) (address : nat)
    (status : N) (selected : option nat) w' g' : Prop :=
  if cancellation_requested k then status = FDN_CHANNEL_CANCELLED ∧ selected = None ∧ g' = g ∧ w' = w else
  (∃ j case, selected = Some j ∧ cases !! j = Some case ∧ Forall (case_pending w g) (take j cases) ∧
     case_done w g case status w' g') ∨
  Forall (case_pending w g) cases ∧ selected = None ∧
    if (deadline <=? now)%N then status = FDN_CHANNEL_TIMEOUT ∧ g' = g ∧ w' = w
    else status = FDN_CHANNEL_PENDING ∧ w_memory w' = w_memory w ∧ phase g' t = Some (Selecting address).

Lemma select_attempt_runs here w g t k context cases deadline now address :
  inv w g → polling here w g t k context FDN_CHANNEL_WAIT_SELECT → wake_ready k = false → cases_ok w cases →
  w_waits w !! address = None →
  runs (k ← get_task t;
        if cancellation_requested k then mret (FDN_CHANNEL_CANCELLED, None) else
        match lock_cases [] cases with
        | None => panic "channel select contains a null endpoint"
        | Some _ =>
            result ← try_cases here 0 cases;
            match result with
            | Some (index, status) => mret (status, Some index)
            | None =>
                if (deadline <=? now)%N then mret (FDN_CHANNEL_TIMEOUT, None) else
                _ ← select_park here t context cases deadline address;
                mret (FDN_CHANNEL_PENDING, None)
            end
        end) w (λ r w', ∃ g', inv w' g' ∧ select_done here w g t k cases deadline now address r.1 r.2 w' g').
Proof.
  intros Hinv Hpo Hw Hok Hfresh. apply (call_get_task _ k); [apply Hpo|]. unfold select_done.
  destruct (cancellation_requested k); [apply call_ret; by exists g|].
  destruct (lock_cases_some w cases [] (proj2 Hok)) as [locks ->].
  apply call_bind. eapply call_mono; [by apply (try_cases_runs here w g cases 0); [done|apply Hpo|apply Hok]|].
  intros [[i status]|] w'.
  - intros (j & case & g' & -> & Hj & Hall & Hi & Hd). apply call_ret. exists g'. split; [done|]. left. by exists j, case.
  - intros [-> Hall]. destruct (deadline <=? now)%N; [apply call_ret; exists g; split; [done|]; by right|].
    apply call_bind. eapply select_park_runs; try done. intros w' Hpw Hx. apply call_ret.
    exists (set_phase t (Selecting address) g). split; [|right].
    + eapply parking_inv; [exact Hinv|exact Hpo|done|reflexivity|exact Hfresh| | |exact Hpw|exact Hx|]; done.
    + split; [done|]. split; [done|]. split; [done|]. split; [apply (pw_memory _ _ _ _ _ _ Hpw)|]. by rewrite phase_set, decide_True.
Qed.

Lemma poll_select_runs here w g t k context cases deadline now address :
  inv w g → polling here w g t k context FDN_CHANNEL_WAIT_SELECT → cases ≠ [] → cases_ok w cases → w_waits w !! address = None →
  runs (poll_select here (Some context) cases deadline now address) w (λ r w', ∃ g', inv w' g' ∧
    if wake_ready k then
      if (select_status (wake_status k) =? FDN_CHANNEL_SELECT_EVENT)%N then
        ∃ w1, inv w1 g ∧ w_memory w1 = w_memory w ∧
          select_done here w1 g t (taken k) cases deadline now address r.1 r.2 w' g'
      else r = (select_status (wake_status k), if (select_selected (wake_status k) =? 0)%N then None
                                               else Some (N.to_nat (select_selected (wake_status k) - 1))) ∧
           g' = g ∧ w_memory w' = w_memory w
    else select_done here (timed here w) g t k cases deadline now address r.1 r.2 w' g').
Proof.
  intros Hinv Hpo Hne Hok Hfresh. unfold poll_select. eapply current_runs; [apply Hpo|]. rewrite bool_decide_false by done.
  apply call_get_executor, call_set_executor. fold (timed here w).
  destruct Hok as [Hlen Hall]. apply N.leb_gt in Hlen as Hlen'. rewrite Hlen'.
  pose proof (timed_inv here _ _ Hinv) as Hinv1. pose proof (timed_polling _ _ _ _ _ _ _ Hpo) as Hpo1.
  apply call_bind, (resume_runs here (timed here w) g t k context); [done|done|intros Hw|].
  - rewrite Hw. by apply (select_attempt_runs here (timed here w) g t k context).
  - intros w1 gone Hw Hi Hrw Hx. rewrite Hw. destruct (_ =? FDN_CHANNEL_SELECT_EVENT)%N eqn:Eev; cycle 1.
    { apply call_ret. exists g. split; [done|]. split; [done|]. split; [done|]. apply (rw_memory _ _ _ _ _ Hrw). }
    assert (Hpo2 : polling here w1 g t (taken k) context FDN_CHANNEL_WAIT_SELECT).
    { assert (e_current (exec w1 here) = e_current (exec (timed here w) here)) as E by (rewrite Hx; by rewrite decide_True).
      split; [|rewrite E; apply Hpo1|rewrite (rw_tasks _ _ _ _ _ Hrw); apply lookup_insert_eq|done].
      intros u. rewrite E. apply (po_free _ _ _ _ _ _ _ Hpo1). }
    assert (Hok1 : cases_ok w1 cases).
    { split; [done|]. eapply Forall_impl; [exact Hall|]. intros case (c & ch & ? & Hc & ? & ?).
      destruct (rw_some _ _ _ _ _ Hrw c ch Hc) as (l & Hc' & _). by exists c, (set_selects l ch). }
    eapply call_mono; [apply (select_attempt_runs here w1 g t (taken k) context); try done|].
    { rewrite (rw_waits _ _ _ _ _ Hrw). apply lookup_delete_None. by right. }
    intros r w' (g' & Hi' & Hd). exists g'. split; [done|]. exists w1. split; [done|]. split; [|done]. apply (rw_memory _ _ _ _ _ Hrw).
Qed.

End Selects.
