(* ===== verification/ChannelEndpoints.v ===== *)
(** * Endpoints, cancellation and the timer of channels

    The calls that open a channel, clone and drop its endpoints, cancel the wait of a
    task and wake the selects whose time is over. *)
From S2P Require Import Prelude Queue Tasks Channel RuntimeInvariant RuntimeProofs ChannelProofs ChannelCalls ChannelPolls ChannelSelects.
#[local] Opaque SIZE_MAX UINT_MAX message_header.

Section Endpoints.
Context {V : Type}.
Implicit Types (w : World V) (g : Ghost) (k : Task) (ch : Channel V).

(** ** Waking every task of a queue *)

Lemma free_woke here w g w' g' : free here w g → woke w g w' g' → free here w' g'.
Proof.
  intros H Hw t Ht. rewrite (wo_current _ _ _ _ Hw) in Ht. pose proof (H t Ht) as Hp.
  destruct (wo_phase _ _ _ _ Hw t) as [E|(p & p' & E & _ & Hl & _)]; [by rewrite E|]. rewrite Hp in E. by injection E as <-.
Qed.

Definition keeps_wakes w w' : Prop := ∀ t status, will_resume w t status → will_resume w' t status.
Lemma keeps_wakes_same w w' : w_tasks w' = w_tasks w → w_executors w' = w_executors w → keeps_wakes w w'.
Proof. intros Ht He t status. unfold will_resume, exec. by rewrite Ht, He. Qed.

Lemma wake_all_runs here c s status fuel : ∀ w g ch (Q : unit → World V → Prop),
  Core w g → free here w g → settled g → w_channels w !! c = Some ch → length (gq g c s) ≤ fuel →
  (∀ w' g' q', Core w' g' → free here w' g' → settled g' → calmer w g w' g' → gq g' c s = [] →
     (∀ s', s' ≠ s → gq g' c s' = gq g c s') →
     w_channels w' = <[c := set_side_queue s q' ch]> (w_channels w) → w_channel_count w' = w_channel_count w →
     w_memory w' = w_memory w → keeps_wakes w w' → (∀ t, t ∈ gq g c s → will_resume w' t status) → Q tt w') →
  runs (wake_all here fuel s c status) w Q.
Proof.
  assert (Hid : ∀ s q ch, set_side_queue s q (set_side_queue s (side_queue s ch) ch) = set_side_queue s q ch)
    by (intros [] ? []; done).
  induction fuel as [|fuel IH]; intros w g ch Q Hcore Hfree Hset Hc Hlen HQ; cbn [wake_all].
  all: apply call_bind, (pop_runs w g c ch s); [done|done|intros Hnone|intros t rest k q' Hq Hk Hp Hf Hc1].
  - apply call_ret, (HQ w g (side_queue s ch)); [done..|by apply calmer_refl|done|done|by rewrite set_side_queue_id, insert_id|done|done|by intros ??|].
    intros t. rewrite Hnone. by intros ?%not_elem_of_nil.
  - rewrite Hq in Hlen. cbn in Hlen. lia.
  - apply call_ret, (HQ w g (side_queue s ch)); [done..|by apply calmer_refl|done|done|by rewrite set_side_queue_id, insert_id|done|done|by intros ??|].
    intros t. rewrite Hnone. by intros ?%not_elem_of_nil.
  - rewrite Hq in Hlen. cbn in Hlen. set (w1 := popped w c ch s t q') in *. set (g1 := set_gq _ _ _ _) in *.
    assert (Hfree1 : free here w1 g1).
    { intros u Hu. unfold g1. rewrite phase_set_gq, phase_set. pose proof (Hfree u Hu) as Hr.
      destruct (decide (u = t)) as [->|]; [congruence|done]. }
    apply call_bind. eapply (wake_runs here w1 g1 t k); try done.
    { unfold g1. by rewrite phase_set_gq, phase_set, decide_True. }
    { intros Hin%Hfree1. unfold g1 in Hin. rewrite phase_set_gq, phase_set, decide_True in Hin; done. }
    intros w2 Hc2 Hw2 Hm2 Hon. set (g2 := set_phase t _ g1) in *.
    assert (Hg2 : ∀ d s', gq g2 d s' = if decide (d = c ∧ s' = s) then rest else gq g d s').
    { intros d s'. unfold g2. rewrite gq_set_phase. unfold g1. by rewrite gq_set, gq_set_phase. }
    assert (Hset2 : settled g2).
    { intros u. unfold g2, wake_place. rewrite phase_set. destruct (decide (u = t)) as [->|Hne]; [by destruct (decide _)|].
      unfold g1. rewrite phase_set_gq, phase_set, decide_False by done. apply Hset. }
    eapply (IH w2 g2 (set_side_queue s q' ch)); try done.
    + by eapply free_woke.
    + rewrite (wo_channels _ _ _ _ Hw2). cbn. apply lookup_insert_eq.
    + rewrite Hg2, decide_True by done. lia.
    + intros w' g' q2 Hc' Hf' Hs' Hcl Hnil Hoth Hch Hcnt Hmem Hkw Hall. apply (HQ w' g' q2); try done.
      * eapply calmer_trans; [|exact Hcl]. eapply calmer_trans; [|by eapply woke_calmer]. apply calmer_waits; [done|].
        intros d s' Hd. unfold g1. rewrite gq_set, gq_set_phase. destruct (decide _) as [[-> ->]|]; [congruence|done].
      * intros s' Hs2. rewrite Hoth, Hg2, decide_False by naive_solver. done.
      * rewrite Hch, (wo_channels _ _ _ _ Hw2). cbn. rewrite insert_insert_eq. f_equal. by destruct s.
      * rewrite Hcnt. apply (wo_count _ _ _ _ Hw2).
      * by rewrite Hmem, Hm2.
      * intros u st Hu. by apply Hkw, (wo_resumes _ _ _ _ Hw2).
      * intros u. rewrite Hq. intros [->|Hu]%elem_of_cons; [apply Hkw, Hon|]. apply Hall. by rewrite Hg2, decide_True.
Qed.

Lemma queue_fits w g c ch s : Core w g → w_channels w !! c = Some ch → length (gq g c s) ≤ size (w_tasks w).
Proof.
  intros Hcore Hc. rewrite <- (size_dom (D := gset nat)), <- (size_list_to_set (C := gset nat));
    [|apply (qi_queue _ _ (core_queue _ _ Hcore) c ch s Hc)].
  apply subseteq_size. intros x Hx%elem_of_list_to_set. destruct (waiting_task _ _ c s x Hcore Hx) as (_ & kx & Hkx & _).
  by apply elem_of_dom.
Qed.

(** ** The end of a channel *)

Lemma unused_channel w g c ch :
  Core w g → w_channels w !! c = Some ch → senders ch = 0%N → receivers ch = 0%N →
  (∀ s, gq g c s = [] ∧ q_head (side_queue s ch) = None) ∧ selects ch = [] ∧
  (∀ t k s, w_tasks w !! t = Some k → ¬ uses k c s) ∧
  (∀ wait sw kind, w_waits w !! wait = Some sw → ¬ Exists (is_case c kind) (sw_cases sw)).
Proof.
  intros Hcore Hc Hs0 Hr0. pose proof Hcore as [Ht Hq Hs].
  assert (Huse : ∀ t k s, w_tasks w !! t = Some k → ¬ uses k c s).
  { intros t k s Hk Hu. destruct (qi_uses _ _ Hq _ _ _ _ Hk Hu) as (ch0 & H0 & He & _). rewrite Hc in H0. injection H0 as <-.
    by destruct s. }
  assert (Hcase : ∀ wait sw kind, w_waits w !! wait = Some sw → ¬ Exists (is_case c kind) (sw_cases sw)).
  { intros wait sw kind Hsw (case & Hin & Hcase & _)%Exists_exists. destruct (si_cases _ _ Hs _ _ Hsw) as (_ & _ & Hall).
    rewrite Forall_forall in Hall. destruct (Hall case Hin) as (c' & ch' & E & H' & _ & He). rewrite Hcase in E.
    injection E as <-. rewrite Hc in H'. injection H' as <-. destruct He as [[_ ?]|[_ ?]]; congruence. }
  assert (Hgq : ∀ s, gq g c s = []).
  { intros s. destruct (gq g c s) as [|t l] eqn:E; [done|]. destruct (waiting_task _ _ c s t Hcore) as (_ & k & Hk & Hf); [rewrite E; left|].
    exfalso. apply (Huse t k s Hk). by destruct Hf. }
  split_and!; try done.
  - intros s. split; [done|]. pose proof (qi_queue _ _ Hq c ch s Hc) as [Hp _ _]. by rewrite Hgq in Hp.
  - destruct (selects ch) as [|[wait i] l] eqn:E; [done|]. exfalso.
    destruct (si_registered _ _ Hs c ch wait i Hc) as [Hin _]. destruct Hin as (sw & Hsw & Hi); [rewrite E; left|].
    destruct (si_cases _ _ Hs _ _ Hsw) as [Er _]. rewrite Er in Hi. destruct (registrations_lookup _ _ _ Hi) as (case & Hcs & Ec).
    apply (Hcase wait sw (case_kind case) Hsw). apply Exists_exists. exists case. split; [by eapply list_elem_of_lookup_2|done].
Qed.

Lemma delete_core w g c ch :
  Core w g → w_channels w !! c = Some ch → senders ch = 0%N → receivers ch = 0%N → Core (with_channels (delete c) w) g.
Proof.
  intros Hcore Hc Hs0 Hr0. destruct (unused_channel _ _ _ _ Hcore Hc Hs0 Hr0) as (Hgq & _ & Huse & Hcase).
  destruct Hcore as [Ht Hq Hs]. split.
  - by eapply task_inv_ext.
  - split; try apply Hq; cbn.
    + intros d chd s. rewrite lookup_delete_Some. intros [_ Hd]. by apply (qi_queue _ _ Hq).
    + intros d s. rewrite lookup_delete_None. intros [<-|Hd]; [apply Hgq|by apply (qi_none _ _ Hq)].
    + intros t k d s Hk Hu. destruct (qi_uses _ _ Hq _ _ _ _ Hk Hu) as (chd & Hd & ?). exists chd.
      rewrite lookup_delete_Some. split; [|done]. split; [|done]. intros <-. by apply (Huse t k s Hk).
  - split; try apply Hs; cbn.
    + intros wait sw Hsw. destruct (si_cases _ _ Hs _ _ Hsw) as (? & ? & Hall). split; [done|]. split; [done|].
      rewrite Forall_forall in Hall |- *. intros case Hin. destruct (Hall case Hin) as (d & chd & E & Hd & ?).
      exists d, chd. split; [done|]. split; [|done]. cbn. rewrite lookup_delete_Some. split; [|done]. intros <-.
      apply (Hcase wait sw (case_kind case) Hsw). apply Exists_exists. by exists case.
    + intros d chd wait i. rewrite lookup_delete_Some. intros [_ Hd]. by apply (si_registered _ _ Hs).
    + intros d chd. rewrite lookup_delete_Some. intros [_ Hd]. by apply (si_registered_once _ _ Hs d).
Qed.

Lemma unused_runs w g c ch (Q : bool → World V → Prop) :
  Core w g → w_channels w !! c = Some ch → channel_ok ch → (used ch → Q false w) → (¬ used ch → Q true w) →
  runs (unused c) w Q.
Proof.
  intros Hcore Hc Hok Hyes Hno. unfold unused. apply (call_get_channel _ ch); [done|].
  destruct (decide (used ch)) as [Hu|Hu].
  - assert (negb (senders ch =? 0)%N || negb (receivers ch =? 0)%N || negb (holds ch =? 0)%N = true) as ->.
    { destruct Hu as [H%N.eqb_neq|[H%N.eqb_neq|H%N.eqb_neq]]; rewrite H; cbn; by rewrite ?orb_true_r. }
    by apply call_ret, Hyes.
  - assert (senders ch = 0%N ∧ receivers ch = 0%N ∧ holds ch = 0%N) as (Hs0 & Hr0 & Hh0).
    { unfold used in Hu. destruct (decide (senders ch = 0%N)), (decide (receivers ch = 0%N)), (decide (holds ch = 0%N)); tauto. }
    destruct (unused_channel _ _ _ _ Hcore Hc Hs0 Hr0) as (Hgq & Hsel & _).
    pose proof (proj2 (Hgq Send)) as Hq1. pose proof (proj2 (Hgq Receive)) as Hq2. cbn [side_queue] in Hq1, Hq2.
    rewrite Hs0, Hr0, Hh0, Hsel, (co_receivers _ Hok Hr0), Hq1, Hq2. by apply call_ret, Hno.
Qed.

(** [SIZE_MAX] is [-1]: adding it takes one off. *)
Lemma minus_one n : (n <> 0)%N → (n <= SIZE_MAX)%N → ((n + SIZE_MAX) mod 2 ^ 64 = n - 1)%N.
Proof.
  intros H0 Hn. assert (SIZE_MAX = 2 ^ 64 - 1)%N as E by (vm_compute; reflexivity). rewrite E in *.
  replace (n + (2 ^ 64 - 1))%N with (n - 1 + 1 * 2 ^ 64)%N by lia. rewrite N.Div0.mod_add, N.mod_small; lia.
Qed.

Lemma destroy_runs w g c ch (Q : unit → World V → Prop) :
  Core w g → data_inv (Some c) w → quiet w g → settled g → w_channels w !! c = Some ch → ¬ used ch →
  (∀ w', inv w' g → w_memory w' = w_memory w → w_channels w' = delete c (w_channels w) → keeps_wakes w w' → Q tt w') →
  runs (channel_destroy c) w Q.
Proof.
  intros Hcore Hdata Hquiet Hset Hc Hu HQ. pose proof Hdata as [D1 D2 D3 D4].
  assert (senders ch = 0%N ∧ receivers ch = 0%N) as (Hs0 & Hr0).
  { unfold used in Hu. destruct (decide (senders ch = 0%N)), (decide (receivers ch = 0%N)); tauto. }
  unfold channel_destroy. apply call_get, call_modify.
  assert (Hsz : size (w_channels w) ≠ 0).
  { intros E%map_size_empty_inv. by rewrite E, lookup_empty in Hc. }
  assert (w_channel_count w ≠ 0%N) as Hn by lia. apply N.eqb_neq in Hn as Hn'. rewrite Hn'. apply call_modify_end.
  apply HQ; [|done|done|by apply keeps_wakes_same]. split; [| | |done].
  - pose proof (delete_core w g c ch Hcore Hc Hs0 Hr0) as Hcore'. by eapply core_same.
  - split; cbn; [| |rewrite minus_one by done..].
    + intros d chd. rewrite lookup_delete_Some. intros [_ Hd]. by apply (D1 d).
    + intros d chd. rewrite lookup_delete_Some. intros [Hne Hd] _. apply (D2 d); [done|]. congruence.
    + rewrite map_size_delete_Some by (by exists ch). lia.
    + lia.
  - intros d chd. cbn. rewrite lookup_delete_Some. intros [_ Hd]. eapply quiet_calmer; [by apply Hquiet|by apply calmer_waits].
Qed.

Lemma data_strict c ch w : data_inv (Some c) w → w_channels w !! c = Some ch → used ch → data_inv None w.
Proof.
  intros [D1 D2 D3 D4] Hc Hu. split; try done. intros d chd Hd _.
  destruct (decide (d = c)) as [->|Hne]; [rewrite Hc in Hd; by injection Hd as <-|]. apply (D2 d); [done|congruence].
Qed.
Lemma data_loose c w : data_inv None w → data_inv (Some c) w.
Proof. intros [A B C D]. split; [exact A| |exact C|exact D]. intros d chd Hd _. by apply (B d). Qed.

(** What is left of a call that dropped an endpoint: the channel goes when nothing uses
    it. *)
Lemma drop_ends w g c ch (Q : unit → World V → Prop) :
  Core w g → data_inv (Some c) w → quiet w g → settled g → w_channels w !! c = Some ch →
  (∀ w', inv w' g → w_memory w' = w_memory w → (w_channels w' !! c = None ↔ ¬ used ch) → keeps_wakes w w' → Q tt w') →
  runs (destroy ← unused c; if destroy : bool then channel_destroy c else mret tt) w Q.
Proof.
  intros Hcore Hdata Hquiet Hset Hc HQ. apply call_bind, (unused_runs w g c ch); [done|done|by apply (di_ok _ _ Hdata c)|intros Hu..].
  - apply call_ret, HQ; [|done|by rewrite Hc|by intros ??]. split; try done. by eapply data_strict.
  - apply (destroy_runs w g c ch); try done. intros w' Hi Hm Hch Hkw. apply HQ; [done|done| |done]. by rewrite Hch, lookup_delete_eq.
Qed.

(** ** The counts change *)

Lemma channel_ok_counts ch s r h :
  channel_ok ch → (s <= SIZE_MAX)%N → (r <= SIZE_MAX)%N → (r = 0%N → messages ch = []) → (h = 0%N ∨ h = 1%N ∧ r = 0%N) →
  channel_ok (set_counts s r h ch).
Proof. intros [A B C D E F G] Hs Hr Hm Hh. exact (mkChannelOk (set_counts s r h ch) A B C D Hm Hh (conj Hs Hr)). Qed.

Lemma keeps_counts w c ch s r h :
  (s ≠ 0%N ∨ senders ch = 0%N ∨ idle w c Send) → (r ≠ 0%N ∨ receivers ch = 0%N ∨ idle w c Receive) →
  channel_keeps w c ch (set_counts s r h ch).
Proof. intros H1 H2. split; [done|done|]. intros []; cbn; intros Hne; naive_solver. Qed.

(** No kind of endpoint is lost. *)
Lemma counts_inv w g c ch s r h :
  inv w g → w_channels w !! c = Some ch → (s <= SIZE_MAX)%N → (r <= SIZE_MAX)%N →
  (senders ch ≠ 0%N → s ≠ 0%N) → (receivers ch = 0%N ↔ r = 0%N) → (h = 0%N ∨ h = 1%N ∧ r = 0%N) →
  used (set_counts s r h ch) → inv (with_channels (insert c (set_counts s r h ch)) w) g.
Proof.
  intros [Hcore Hdata Hquiet Hset] Hc Hs Hr Hs0 Hr0 Hh Hu. pose proof (di_ok _ _ Hdata _ _ Hc) as Hok.
  assert (Hk : channel_keeps w c ch (set_counts s r h ch)).
  { apply keeps_counts.
    - destruct (decide (senders ch = 0%N)); [by right; left|left; by apply Hs0].
    - destruct (decide (receivers ch = 0%N)); [by right; left|left; by rewrite <- Hr0]. }
  split; [by apply (core_set_channel w g c ch)| | |done].
  - eapply (data_insert None None w _ c ch); try done. apply channel_ok_counts; try done. intros H%Hr0. by apply (co_receivers _ Hok).
  - eapply quiet_insert; [exact Hquiet|by apply calmer_waits|done|]. destruct (Hquiet _ _ Hc) as [Q1 Q2 Q3 Q4 Q5].
    assert (Hr1 : receivers ch ≠ 0%N → r ≠ 0%N) by (by rewrite Hr0).
    split; cbn; try done.
    + intros H. destruct (Q1 H) as (? & ? & ?). auto.
    + intros H. destruct (Q2 H) as (? & ?). auto.
    + intros wait H. destruct (Q3 wait H) as (? & ? & ?). auto.
    + intros wait H. destruct (Q4 wait H) as (? & ? & ?). auto.
Qed.

Lemma clone_sender_runs w g c ch :
  inv w g → w_channels w !! c = Some ch → senders ch ≠ 0%N → senders ch ≠ SIZE_MAX →
  runs (clone_sender c) w (λ r w', r = c ∧ inv w' g ∧
    w' = with_channels (insert c (set_counts (senders ch + 1) (receivers ch) (holds ch) ch)) w).
Proof.
  intros Hinv Hc H0 Hmax. pose proof (di_ok _ _ (inv_data _ _ Hinv) _ _ Hc) as Hok. destruct (co_counts _ Hok) as [Hs Hr].
  unfold clone_sender. apply (call_get_channel _ ch); [done|]. apply N.eqb_neq in H0 as H0'. apply N.eqb_neq in Hmax as Hmax'.
  rewrite H0', Hmax'. apply call_set_channel, call_ret. split; [done|]. split; [|done].
  apply counts_inv; try done; [lia|lia|apply (co_holds _ Hok)|]. left. cbn. lia.
Qed.

Lemma clone_receiver_runs w g c ch :
  inv w g → w_channels w !! c = Some ch → receivers ch ≠ 0%N → receivers ch ≠ SIZE_MAX →
  runs (clone_receiver c) w (λ r w', r = c ∧ inv w' g ∧
    w' = with_channels (insert c (set_counts (senders ch) (receivers ch + 1) (holds ch) ch)) w).
Proof.
  intros Hinv Hc H0 Hmax. pose proof (di_ok _ _ (inv_data _ _ Hinv) _ _ Hc) as Hok. destruct (co_counts _ Hok) as [Hs Hr].
  unfold clone_receiver. apply (call_get_channel _ ch); [done|]. apply N.eqb_neq in H0 as H0'. apply N.eqb_neq in Hmax as Hmax'.
  rewrite H0', Hmax'. apply call_set_channel, call_ret. split; [done|]. split; [|done].
  apply counts_inv; try done; [lia|lia| |].
  - destruct (co_holds _ Hok) as [?|[_ ?]]; [by left|done].
  - right. left. cbn. lia.
Qed.

(** ** Dropping an endpoint *)

(** The receivers that wait are told that the last sender is gone, or the senders that
    the last receiver is gone. *)
Lemma close_runs here w0 w g c ch s status (Q : unit → World V → Prop) :
  inv w0 g → Core w g → free here w g → calmer w0 g w g → w_channels w !! c = Some ch →
  (∀ d, d ≠ c → w_channels w !! d = w_channels w0 !! d) → data_inv (Some c) w →
  (∀ s', s' ≠ s → gq g c s' = []) →
  (∀ w' g' ch', Core w' g' → data_inv (Some c) w' → quiet w' g' → settled g' → w_channels w' !! c = Some ch' →
     same_data ch ch' → holds ch' = holds ch → drops_value ch' = drops_value ch → w_memory w' = w_memory w →
     (∀ t, t ∈ gq g c s → will_resume w' t status) → Q tt w') →
  runs (_ ← wake_all here (size (w_tasks w)) s c status; select_signal here c) w Q.
Proof.
  intros Hinv0 Hcore Hfree Hcl Hc Hother Hdata Hempty HQ. apply call_bind.
  pose proof (inv_settled _ _ Hinv0) as Hset.
  apply (wake_all_runs here c s status _ w g ch); try done; [by eapply queue_fits|].
  intros w1 g1 q1 Hc1 Hf1 Hs1 Hcl1 Hnil Hoth Hch Hcnt Hm1 Hkw Hall.
  apply (signal_runs here c (set_side_queue s q1 ch) w1 g1); [done|by apply free_calm|by rewrite Hch, lookup_insert_eq|].
  intros w2 g2 Hc2 Hw2 Hm2 Hst _ Hno. apply (HQ w2 g2 (set_side_queue s q1 ch)); try done.
  - eapply data_same; [|apply (wo_channels _ _ _ _ Hw2)|apply (wo_count _ _ _ _ Hw2)].
    by eapply (data_queue (Some c) w w1).
  - assert (Hg : ∀ s', gq g2 c s' = []).
    { intros s'. transitivity (gq g1 c s'); [unfold gq; by rewrite (wo_gq _ _ _ _ Hw2)|].
      destruct (decide (s' = s)) as [->|Hne]; [done|]. rewrite Hoth by done. by apply Hempty. }
    intros d chd. rewrite (wo_channels _ _ _ _ Hw2), Hch. destruct (decide (d = c)) as [->|Hne].
    + rewrite lookup_insert_eq. intros [= <-]. split; rewrite ?Hg; try done.
      * intros wait Ho. by apply Hno in Ho.
      * intros wait Ho. by apply Hno in Ho.
      * intros wait1 wait2 Ho. by apply Hno in Ho.
    + rewrite lookup_insert_ne by done. rewrite Hother by done. intros Hd. eapply quiet_calmer; [by apply (inv_quiet _ _ Hinv0)|].
      eapply calmer_trans; [exact Hcl|]. eapply calmer_trans; [exact Hcl1|by eapply woke_calmer].
  - intros t Ht%Hst. by apply (Hs1 t).
  - rewrite (wo_channels _ _ _ _ Hw2), Hch. apply lookup_insert_eq.
  - by rewrite Hm2, Hm1.
  - intros t Ht. by apply (wo_resumes _ _ _ _ Hw2), Hall.
Qed.

Lemma idle_queue w g c s : Core w g → idle w c s → gq g c s = [].
Proof.
  intros Hcore [Hid _]. destruct (gq g c s) as [|t l] eqn:E; [done|].
  destruct (waiting_task _ _ c s t Hcore) as (_ & k & Hk & Hf); [rewrite E; left|]. exfalso. apply (Hid t k Hk). by destruct Hf.
Qed.

Lemma drop_sender_runs here w g c ch :
  inv w g → free here w g → w_channels w !! c = Some ch → senders ch ≠ 0%N → (senders ch = 1%N → idle w c Send) →
  runs (drop_sender here c) w (λ _ w', ∃ g', inv w' g' ∧ w_memory w' = w_memory w ∧
    (w_channels w' !! c = None ↔ senders ch = 1%N ∧ receivers ch = 0%N ∧ holds ch = 0%N) ∧
    (senders ch = 1%N → ∀ t, t ∈ gq g c Receive → will_resume w' t FDN_CHANNEL_CLOSED)).
Proof.
  intros Hinv Hfree Hc H0 Hidle. pose proof Hinv as [Hcore Hdata Hquiet Hset]. pose proof (di_ok _ _ Hdata _ _ Hc) as Hok.
  destruct (co_counts _ Hok) as [Hs Hr].
  unfold drop_sender. apply (call_get_channel _ ch); [done|]. apply N.eqb_neq in H0 as H0'. rewrite H0'. apply call_set_channel.
  set (ch1 := set_counts (senders ch - 1) (receivers ch) (holds ch) ch). set (w1 := with_channels _ w).
  assert (Hok1 : channel_ok ch1).
  { apply channel_ok_counts; [done|lia|done|apply (co_receivers _ Hok)|apply (co_holds _ Hok)]. }
  destruct (N.eqb_spec (senders ch - 1) 0) as [E|E].
  - assert (senders ch = 1%N) as E1 by lia.
    assert (Hcore1 : Core w1 g).
    { apply (core_set_channel w g c ch); try done. apply keeps_counts; [right; right; by apply Hidle|].
      destruct (decide (receivers ch = 0%N)); [by right; left|by left]. }
    apply call_bind, call_get, (close_runs here w w1 g c ch1 Receive); try done.
    + cbn. apply lookup_insert_eq.
    + intros d Hd. cbn. by rewrite lookup_insert_ne.
    + eapply (data_insert None (Some c) w w1 c ch ch1); try done.
    + intros [] Hne; [by eapply idle_queue, Hidle|done].
    + intros w2 g2 ch2 Hc2 Hd2 Hq2 Hs2 Hch2 [_ _ _ Es Er] Eh _ Hm Hall. apply (drop_ends w2 g2 c ch2); try done.
      intros w3 Hi3 Hm3 Hn Hkw. exists g2. split; [done|]. split; [by rewrite Hm3, Hm|].
      split; [|intros _ t Ht; by apply Hkw, Hall]. rewrite Hn. unfold used. rewrite Es, Er, Eh. cbn. lia.
  - assert (Hinv1 : inv w1 g).
    { apply counts_inv; try done; [lia|apply (co_holds _ Hok)|]. left. cbn. lia. }
    apply call_bind, call_ret. apply (drop_ends w1 g c ch1); try apply Hinv1.
    + apply data_loose, Hinv1.
    + cbn. apply lookup_insert_eq.
    + intros w3 Hi3 Hm3 Hn _. exists g. split; [done|]. split; [done|]. split; [rewrite Hn; unfold used; cbn; lia|]. intros E1. lia.
Qed.

(** The first section of [fdn_channel_drop_receiver]: the messages it takes along are
    those of a channel that lost its last receiver. *)
Lemma drop_receiver_close_runs here w g c ch :
  inv w g → free here w g → w_channels w !! c = Some ch → receivers ch ≠ 0%N → (receivers ch = 1%N → idle w c Receive) →
  runs (drop_receiver_close here c) w (λ l w', ∃ g', inv w' g' ∧ w_memory w' = w_memory w ∧
    l = (if (receivers ch =? 1)%N then messages ch else []) ∧
    (l ≠ [] → ∃ ch', w_channels w' !! c = Some ch' ∧ holds ch' = 1%N ∧ drops_value ch' = drops_value ch) ∧
    (w_channels w' !! c = None ↔ receivers ch = 1%N ∧ senders ch = 0%N ∧ messages ch = []) ∧
    (receivers ch = 1%N → ∀ t, t ∈ gq g c Send → will_resume w' t FDN_CHANNEL_CLOSED)).
Proof.
  intros Hinv Hfree Hc H0 Hidle. pose proof Hinv as [Hcore Hdata Hquiet Hset]. pose proof (di_ok _ _ Hdata _ _ Hc) as Hok.
  destruct (co_counts _ Hok) as [Hs Hr]. assert (holds ch = 0%N) as Hh by (destruct (co_holds _ Hok) as [?|[_ ?]]; done).
  unfold drop_receiver_close. apply (call_get_channel _ ch); [done|]. apply N.eqb_neq in H0 as H0'. rewrite H0'. apply call_set_channel.
  destruct (N.eqb_spec (receivers ch - 1) 0) as [E|E].
  - assert (receivers ch = 1%N) as E1 by lia. rewrite E1. cbn [N.eqb Pos.eqb].
    set (h := if bool_decide (messages ch ≠ []) then 1%N else 0%N).
    set (ch1 := mkChannel (value_size ch) (capacity ch) 0 (senders ch) 0 h (drops_value ch) [] (send_queue ch) (receive_queue ch) (selects ch) : Channel V).
    set (w1 := with_channels (insert c ch1) w).
    assert (Hstart : ∀ A (m : R V A) P, runs m w1 P →
      runs (_ ← (if bool_decide (messages ch ≠ []) then
              ch ← get_channel c; set_channel c (set_counts (senders ch) (receivers ch) ((holds ch + 1) mod 2 ^ 64) ch)
            else mret tt); m)
        (with_channels (insert c (set_messages 0 [] (set_counts (senders ch) (1 - 1) (holds ch) ch)))
           (with_channels (insert c (set_counts (senders ch) (1 - 1) (holds ch) ch)) w)) P).
    { intros A m P HP. apply call_bind. unfold h in *. unfold w1, ch1 in HP. destruct (bool_decide (messages ch ≠ [])).
      - eapply call_get_channel; [cbn; apply lookup_insert_eq|]. apply call_modify_end.
        unfold with_channels in *. cbn in *. rewrite !insert_insert_eq, Hh. exact HP.
      - apply call_ret. unfold with_channels in *. cbn in *. rewrite !insert_insert_eq, Hh. exact HP. }
    assert (Hh1 : h = 0%N ∨ h = 1%N) by (unfold h; destruct (bool_decide _); auto).
    assert (Hok1 : channel_ok ch1).
    { refine (mkChannelOk ch1 eq_refl _ (co_size _ Hok) (co_value _ Hok) (λ _, eq_refl) _ (conj Hs _)).
      - apply N.le_0_l.
      - destruct Hh1 as [E2|E2]; [by left|by right].
      - apply N.le_0_l. }
    assert (Hk1 : channel_keeps w c ch ch1).
    { split; [done|done|]. intros []; cbn; [by left|]. right. by apply Hidle. }
    assert (Hcore1 : Core w1 g) by (by apply (core_set_channel w g c ch)).
    assert (Hclose : runs (_ ← wake_all here (size (w_tasks w1)) Send c FDN_CHANNEL_CLOSED; select_signal here c) w1
      (λ _ w', ∃ g' ch', Core w' g' ∧ data_inv (Some c) w' ∧ quiet w' g' ∧ settled g' ∧ w_channels w' !! c = Some ch' ∧
         same_data ch1 ch' ∧ holds ch' = h ∧ drops_value ch' = drops_value ch ∧ w_memory w' = w_memory w ∧
         ∀ t, t ∈ gq g c Send → will_resume w' t FDN_CHANNEL_CLOSED)).
    { apply (close_runs here w w1 g c ch1 Send); try done.
      - cbn. apply lookup_insert_eq.
      - intros d Hd. cbn. by rewrite lookup_insert_ne.
      - eapply (data_insert None (Some c) w w1 c ch ch1); try done.
      - intros [] Hne; [done|by eapply idle_queue, Hidle].
      - intros w2 g2 ch2 ? ? ? ? ? ? ? ? ? ?. by exists g2, ch2. }
    eapply call_bind. eapply call_get_channel; [cbn; apply lookup_insert_eq|]. apply call_set_channel.
    change (messages (set_counts (senders ch) (1 - 1) (holds ch) ch)) with (messages ch). apply Hstart, call_get, call_bind.
    eapply call_mono; [exact (call_bind_inv _ _ _ _ Hclose)|]. intros [] w2 Hsig. apply call_bind.
    eapply call_mono; [exact Hsig|]. cbn beta. intros [] w3 (g3 & ch3 & Hc3 & Hd3 & Hq3 & Hs3 & Hch3 & [_ _ _ Es Er] & Eh & Ed & Hm3 & Hall).
    apply call_ret.
    apply call_bind, (unused_runs w3 g3 c ch3); [done|done|by apply (di_ok _ _ Hd3 c)|intros Hu|intros Hu].
    + cbn [andb]. apply call_bind, call_ret, call_ret. exists g3. split; [split; try done; by eapply data_strict|].
      split; [by rewrite Hm3|]. split; [done|]. split; [|split; [|done]].
      * intros Hne. exists ch3. rewrite Hch3, Eh, Ed. unfold h. by rewrite bool_decide_true.
      * rewrite Hch3. split; [done|]. intros (_ & Es0 & Em0). exfalso. unfold used in Hu. rewrite Es, Er, Eh in Hu. cbn in Hu.
        unfold h in Hu. rewrite Em0, bool_decide_false in Hu by (by intros H). naive_solver.
    + assert (messages ch = [] ∧ senders ch = 0%N) as [Em0 Es0].
      { unfold used in Hu. rewrite Es, Er, Eh in Hu. cbn in Hu. unfold h in Hu. case_bool_decide as Hb; [naive_solver|].
        split; [destruct (messages ch); [done|by destruct Hb]|]. destruct (decide (senders ch = 0%N)); tauto. }
      rewrite Em0, bool_decide_true by done. cbn [andb]. apply call_bind, (destroy_runs w3 g3 c ch3); try done.
      intros w4 Hi4 Hm4 Hch4 Hkw. apply call_ret. exists g3. split; [done|]. split; [by rewrite Hm4, Hm3|]. split; [done|].
      split; [done|]. split; [by rewrite Hch4, lookup_delete_eq|]. intros _ t Ht. by apply Hkw, Hall.
  - assert (receivers ch =? 1 = false)%N as -> by (apply N.eqb_neq; lia).
    assert (Hinv1 : inv (with_channels (insert c (set_counts (senders ch) (receivers ch - 1) (holds ch) ch)) w) g).
    { apply counts_inv; try done; [lia|by left|]. right. left. cbn. lia. }
    apply call_bind, call_ret, call_bind.
    apply (unused_runs _ g c (set_counts (senders ch) (receivers ch - 1) (holds ch) ch)); [apply Hinv1|cbn; apply lookup_insert_eq| | |].
    + apply (di_ok _ _ (inv_data _ _ Hinv1) c). cbn. apply lookup_insert_eq.
    + intros _. cbn [andb]. apply call_bind, call_ret, call_ret. exists g. split; [done|]. split; [done|]. split; [done|].
      split; [done|]. cbn. rewrite lookup_insert_eq. split; [|intros ?; lia]. split; [done|]. intros (? & _). lia.
    + intros Hu. destruct Hu. right. left. cbn. lia.
Qed.

(** Its last section. *)
Lemma drop_receiver_release_runs w g c ch :
  inv w g → w_channels w !! c = Some ch → holds ch = 1%N →
  runs (drop_receiver_release c) w (λ _ w', inv w' g ∧ w_memory w' = w_memory w ∧
    (w_channels w' !! c = None ↔ senders ch = 0%N)).
Proof.
  intros Hinv Hc Hh. pose proof Hinv as [Hcore Hdata Hquiet Hset]. pose proof (di_ok _ _ Hdata _ _ Hc) as Hok.
  destruct (co_counts _ Hok) as [Hs Hr]. assert (receivers ch = 0%N) as Hr0 by (destruct (co_holds _ Hok) as [?|[_ ?]]; congruence).
  unfold drop_receiver_release. apply (call_get_channel _ ch); [done|]. rewrite Hh. cbn [N.eqb Pos.eqb]. apply call_set_channel.
  set (ch1 := set_counts (senders ch) (receivers ch) (1 - 1) ch). set (w1 := with_channels _ w).
  assert (Hk : channel_keeps w c ch ch1).
  { apply keeps_counts; [|by right; left]. destruct (decide (senders ch = 0%N)); [by right; left|by left]. }
  assert (Hok1 : channel_ok ch1) by (apply channel_ok_counts; [exact Hok|exact Hs|exact Hr|apply (co_receivers _ Hok)|by left]).
  apply (drop_ends w1 g c ch1); try done.
  - by apply (core_set_channel w g c ch).
  - by eapply (data_insert None (Some c) w w1 c ch ch1).
  - eapply quiet_insert; [exact Hquiet|by apply calmer_waits|done|]. eapply quiet_same; [by apply Hquiet|by apply calmer_waits|by split].
  - cbn. apply lookup_insert_eq.
  - intros w' Hi Hm Hn _. split; [done|]. split; [done|]. rewrite Hn. unfold used. cbn. rewrite Hr0.
    destruct (decide (senders ch = 0%N)); naive_solver.
Qed.

(** ** Opening *)

Lemma open_runs w g size_ cap drops address :
  inv w g → w_channels w !! address = None → (w_channel_count w < SIZE_MAX)%N → (cap <= SIZE_MAX)%N →
  (size_ <= SIZE_MAX - message_header)%N →
  runs (channel_open size_ cap drops address) w (λ r w', r = address ∧ inv w' g ∧ w_memory w' = w_memory w ∧
    w_channels w' = <[address := mkChannel size_ cap 0 1 1 0 drops [] emptyQueue emptyQueue []]> (w_channels w)).
Proof.
  intros [Hcore Hdata Hquiet Hset] Hfresh Hcount Hcap Hsize.
  unfold channel_open. set (ch := mkChannel _ _ _ _ _ _ _ _ _ _ _ : Channel V). apply call_set_channel, call_get, call_modify.
  apply N.lt_neq in Hcount as Hne. apply N.eqb_neq in Hne. change (w_channel_count (with_channels (insert address ch) w)) with (w_channel_count w).
  rewrite Hne. apply call_ret. set (w' := with_count _ _). split; [done|]. split; [|done].
  assert (Hgq : ∀ s, gq g address s = []) by (intros s; by apply (qi_none _ _ (core_queue _ _ Hcore))).
  assert (Hlk : ∀ c chd, w_channels w' !! c = Some chd ↔ c = address ∧ chd = ch ∨ c ≠ address ∧ w_channels w !! c = Some chd).
  { intros c chd. cbn. destruct (decide (c = address)) as [->|]; [rewrite lookup_insert_eq|rewrite lookup_insert_ne by done]; naive_solver. }
  destruct Hcore as [Ht Hq Hs]. destruct Hdata as [D1 D2 D3 D4]. split; [split| | |done].
  - by eapply task_inv_ext.
  - split; try apply Hq.
    + intros c chd s [[-> ->]|[_ Hc]]%Hlk; [|by apply (qi_queue _ _ Hq)]. rewrite Hgq. split; [by destruct s..|constructor].
    + intros c s. cbn. destruct (decide (c = address)) as [->|]; [by rewrite lookup_insert_eq|]. rewrite lookup_insert_ne by done.
      apply (qi_none _ _ Hq).
    + intros t k c s Hk Hu. destruct (qi_uses _ _ Hq _ _ _ _ Hk Hu) as (chd & Hd & ?). exists chd. rewrite Hlk.
      split; [|done]. right. split; [|done]. intros ->. congruence.
  - split; try apply Hs.
    + intros wait sw Hsw. destruct (si_cases _ _ Hs _ _ Hsw) as (? & ? & Hall). split; [done|]. split; [done|].
      eapply Forall_impl; [exact Hall|]. intros case (c & chd & E & Hd & ?). exists c, chd. rewrite Hlk.
      split; [done|]. split; [|done]. right. split; [|done]. intros ->. congruence.
    + intros c chd wait i [[-> ->]|[_ Hc]]%Hlk; [|by apply (si_registered _ _ Hs)]. split; [by intros ?%not_elem_of_nil|].
      intros (sw & Hsw & Hi). destruct (si_cases _ _ Hs _ _ Hsw) as (Er & _ & Hall). rewrite Er in Hi.
      destruct (registrations_lookup _ _ _ Hi) as (case & Hcs & Ec). rewrite Forall_forall in Hall.
      destruct (Hall case) as (c & chd & E & Hd & _); [by eapply list_elem_of_lookup_2|]. congruence.
    + intros c chd [[-> ->]|[_ Hc]]%Hlk; [constructor|by apply (si_registered_once _ _ Hs c)].
  - assert (SIZE_MAX = 2 ^ 64 - 1)%N as Emax by (vm_compute; reflexivity).
    assert ((w_channel_count w + 1) mod 2 ^ 64 = w_channel_count w + 1)%N as Emod by (apply N.mod_small; lia).
    assert (w_channel_count w' = w_channel_count w + 1)%N as Ecount by exact Emod.
    split; rewrite ?Ecount.
    + intros c chd [[-> ->]|[_ Hc]]%Hlk; [|by apply (D1 c)].
      assert (1 <= SIZE_MAX)%N as H1 by lia.
      exact (mkChannelOk ch eq_refl (N.le_0_l _) Hcap Hsize (λ _, eq_refl) (or_introl eq_refl) (conj H1 H1)).
    + intros c chd [[-> ->]|[_ Hc]]%Hlk _; [by left|by apply (D2 c)].
    + cbn. rewrite map_size_insert_None by done. lia.
    + lia.
  - intros c chd [[-> ->]|[Hne' Hc]]%Hlk; [|eapply quiet_calmer; [by apply Hquiet|by apply calmer_waits]].
    assert (Hno : no_open w' address).
    { intros kind wait (sw & Hsw & _ & (case & Hin & Ecase & _)%Exists_exists). destruct (si_cases _ _ Hs _ _ Hsw) as (_ & _ & Hall).
      rewrite Forall_forall in Hall. destruct (Hall case Hin) as (c & chd & E & Hd & _). congruence. }
    split; rewrite ?Hgq; try done; try (intros wait Ho; by apply Hno in Ho). intros wait1 wait2 Ho. by apply Hno in Ho.
Qed.

(** ** Cancellation *)

Lemma set_cancel_fields k p : phase_fields k p → phase_fields (set_cancellation_requested k) p.
Proof.
  assert (∀ ctx kind cancel, parked_fields k ctx kind cancel → parked_fields (set_cancellation_requested k) ctx kind cancel) as H
    by (intros ctx kind cancel []; by split).
  destruct p; cbn; try done.
  - apply H.
  - intros [ctx Hf]. exists ctx. by apply H.
  - intros [(c & s & Hf)|(ctx & Hf)]; [left; exists c, s|right; exists ctx]; by apply H.
  - intros [(c & s & Hf)|(ctx & Hf)]; [left; exists c, s|right; exists ctx]; by apply H.
Qed.

(** A task that is on its way is woken: what held before it left its place holds again. *)
Lemma wake_ends here w0 g0 w g t k status (Q : unit → World V → Prop) :
  inv w0 g0 → Core w g → free here w g → calmer w0 g0 w g → data_inv None w →
  (∀ d chd, w_channels w !! d = Some chd → ∃ ch0, w_channels w0 !! d = Some ch0 ∧ same_data ch0 chd) →
  w_tasks w !! t = Some k → phase g t = Some Popped → (∀ u, u ≠ t → phase g u ≠ Some Popped) →
  (∀ w', inv w' (set_phase t (wake_place here k) g) → free here w' (set_phase t (wake_place here k) g) →
     w_memory w' = w_memory w → woken_only w w' t status → (∀ e, e_current (exec w' e) = e_current (exec w e)) → Q tt w') →
  runs (wake here t status) w Q.
Proof.
  intros Hinv Hcore Hfree Hcl Hdata Hsame Hk Hp Hset HQ.
  apply (wake_runs here w g t k); try done; [intros Hin%Hfree; congruence|]. intros w' Hc' Hw Hm Hl.
  apply HQ; [|by eapply free_woke|done|done|apply (wo_current _ _ _ _ Hw)]. split; [done| | |].
  - eapply data_same; [done|apply (wo_channels _ _ _ _ Hw)|apply (wo_count _ _ _ _ Hw)].
  - intros d chd. rewrite (wo_channels _ _ _ _ Hw). intros Hd. destruct (Hsame _ _ Hd) as (ch0 & H0 & Hsd).
    eapply quiet_same; [by apply (inv_quiet _ _ Hinv)| |done]. eapply calmer_trans; [exact Hcl|by eapply woke_calmer].
  - intros u. unfold wake_place. rewrite phase_set. destruct (decide (u = t)); [by destruct (decide _)|by apply Hset].
Qed.

Lemma same_channels w w' : w_channels w' = w_channels w →
  ∀ d chd, w_channels w' !! d = Some chd → ∃ ch0, w_channels w !! d = Some ch0 ∧ same_data ch0 chd.
Proof. intros -> d chd Hd. by exists chd. Qed.
Lemma same_queue_channels w w' c ch s q' : w_channels w !! c = Some ch →
  w_channels w' = <[c := set_side_queue s q' ch]> (w_channels w) →
  ∀ d chd, w_channels w' !! d = Some chd → ∃ ch0, w_channels w !! d = Some ch0 ∧ same_data ch0 chd.
Proof.
  intros Hc -> d chd. destruct (decide (d = c)) as [->|Hne].
  - rewrite lookup_insert_eq. intros [= <-]. exists ch. split; [done|]. by destruct s.
  - rewrite lookup_insert_ne by done. intros Hd. by exists chd.
Qed.

(** Where a parked task can be. *)
Lemma parked_phase w g t k cancel : inv w g → w_tasks w !! t = Some k → cancel_wait k = Some cancel →
  ∃ p, phase g t = Some p ∧ parked_somewhere k ∧
    ((∃ c s, p = Waiting c s ∧ parked_fields k (Some c) (side_kind s) fdn_channel_cancel_wait) ∨
     (∃ wait, p = Selecting wait) ∨ p = Mailed).
Proof.
  intros [[Ht Hq Hs] _ _ Hset] Hk Hc. destruct (proj1 (ti_dom _ _ Ht t)) as [p Hp]; [eauto|].
  destruct (ti_fields _ _ Ht _ _ _ Hk Hp) as [Hf _]. exists p. split; [done|].
  destruct p; cbn in Hf; try (destruct Hf as (_ & _ & E & _); congruence); try (destruct Hf as [(_ & _ & E & _) _]; congruence).
  - split; [by left; eauto|]. left. by exists c, s.
  - split; [by right|]. right. left. by exists wait.
  - split; [done|]. by right; right.
  - by apply Hset in Hp.
Qed.

(** What a cancellation leaves as it is: the waiters, the tasks being polled, and the
    tasks that are not parked. *)
Record undisturbed w w' : Prop := mkUndisturbed {
  un_links : links w' = links w;
  un_current : ∀ e, e_current (exec w' e) = e_current (exec w e);
  un_unparked : ∀ u ku, w_tasks w !! u = Some ku → cancel_wait ku = None →
    ∃ ku', w_tasks w' !! u = Some ku' ∧ cancel_wait ku' = None ∧ wake_ready ku' = wake_ready ku;
}.
Lemma undisturbed_refl w : undisturbed w w.
Proof. split; eauto. Qed.
Lemma undisturbed_trans w w1 w2 : undisturbed w w1 → undisturbed w1 w2 → undisturbed w w2.
Proof.
  intros [L1 C1 U1] [L2 C2 U2]. split; [by rewrite L2|intros e; by rewrite C2|].
  intros u ku Hu Hc. destruct (U1 _ _ Hu Hc) as (k1 & H1 & E1 & F1). destruct (U2 _ _ H1 E1) as (k2 & H2 & E2 & F2).
  exists k2. by rewrite F2.
Qed.
(** One parked task was woken. *)
Lemma undisturbed_woken w w1 w' t k status :
  w_tasks w1 = w_tasks w → (∀ e, e_current (exec w1 e) = e_current (exec w e)) → woken_only w1 w' t status →
  (∀ e, e_current (exec w' e) = e_current (exec w1 e)) → w_tasks w !! t = Some k → is_Some (cancel_wait k) → undisturbed w w'.
Proof.
  intros Ht C1 [Ho Hl] C2 Hk [c Hc]. split; [unfold links in *; by rewrite Hl, Ht|intros e; by rewrite C2|].
  intros u ku Hu E. exists ku. split; [|done]. rewrite Ho, Ht; [done|]. intros ->. congruence.
Qed.

Definition cancelled here w (t : nat) w' : Prop :=
  ∃ g', inv w' g' ∧ free here w' g' ∧ (phase g' t = Some Queued ∨ phase g' t = Some Mailed) ∧ w_memory w' = w_memory w ∧
    undisturbed w w'.

Lemma settled_others g t : settled g → ∀ u, u ≠ t → phase (set_phase t Popped g) u ≠ Some Popped.
Proof. intros Hs u Hu. rewrite phase_set, decide_False by done. apply Hs. Qed.
Lemma free_set here w g t p : free here w g → phase g t ≠ Some Running → free here w (set_phase t p g).
Proof. intros Hf Hp u Hu. rewrite phase_set. destruct (decide (u = t)) as [->|]; [by rewrite Hf in Hp|by apply Hf]. Qed.
Lemma wake_place_cases here k : wake_place here k = Queued ∨ wake_place here k = Mailed.
Proof. unfold wake_place. destruct (decide _); auto. Qed.

Lemma cancel_wait_runs here w g t k c s :
  inv w g → free here w g → w_tasks w !! t = Some k → parked_fields k (Some c) (side_kind s) fdn_channel_cancel_wait →
  runs (channel_cancel_wait here t c) w (λ _ w', cancelled here w t w').
Proof.
  intros Hinv Hfree Hk Hf. pose proof Hinv as [Hcore Hdata Hquiet Hset].
  destruct (qi_uses _ _ (core_queue _ _ Hcore) t k c s Hk) as (ch & Hc & _); [by destruct Hf|].
  destruct (parked_phase w g t k fdn_channel_cancel_wait Hinv Hk (pf_cancel _ _ _ _ Hf)) as (p & Hp & _ & Hcase).
  unfold channel_cancel_wait. apply (call_get_task _ k); [done|]. apply call_bind. rewrite (pf_kind _ _ _ _ Hf).
  assert (Hremove : ∀ Q : bool → World V → Prop, runs (remove_waiting s c t) w Q →
    runs (if (side_kind s =? FDN_CHANNEL_WAIT_SEND)%N then remove_waiting Send c t
          else if (side_kind s =? FDN_CHANNEL_WAIT_RECEIVE)%N then remove_waiting Receive c t
          else panic "invalid channel wait kind") w Q) by (by destruct s).
  apply Hremove, (remove_runs w g c ch s t k); try done.
  - intros Hw next q' Hc1. set (w1 := pushed w c ch s next q') in *. set (g1 := set_gq _ _ _ _) in *.
    assert (Hph : ∀ u, phase g1 u = phase (set_phase t Popped g) u) by done.
    apply (wake_ends here w g w1 g1 t k); try done.
    + apply (free_set here w g t Popped Hfree). congruence.
    + apply calmer_waits; [done|]. intros d s' Hd. unfold g1. rewrite gq_set, gq_set_phase. destruct (decide _) as [[-> ->]|]; [|done].
      by rewrite Hd.
    + by eapply (data_queue None w w1).
    + by eapply same_queue_channels.
    + by rewrite Hph, phase_set, decide_True.
    + intros u Hu. rewrite Hph. by apply settled_others.
    + intros w' Hi Hfr Hm Hl Hcu. eexists. split; [exact Hi|]. split; [exact Hfr|]. split; [|split; [done|]].
      * rewrite phase_set, decide_True by done. destruct (wake_place_cases here k) as [-> | ->]; auto.
      * eapply (undisturbed_woken w); [| |exact Hl|exact Hcu|exact Hk|]; [done|done|]. rewrite (pf_cancel _ _ _ _ Hf). eauto.
  - intros Hw next q' Hc1. set (w1 := pushed w c ch s next q') in *. apply call_ret. exists g.
    assert (undisturbed w w1) by by split; eauto.
    assert (Hcl : calmer w g w1 g) by by apply calmer_waits. split; [|split; [done|split; [|done]]].
    + split; [done|by eapply (data_queue None w w1)| |done]. intros d chd Hd.
      destruct (same_queue_channels w w1 c ch s q' Hc eq_refl _ _ Hd) as (ch0 & H0 & Hsd). eapply quiet_same; [by apply Hquiet|done|done].
    + right. destruct Hcase as [(c' & s' & -> & Hf')|[[wait ->]| ->]]; [|exfalso|done].
      * exfalso. apply Hw. destruct Hf as [_ _ _ _ _ E1 E2], Hf' as [_ _ _ _ _ E3 E4]. rewrite Hp.
        assert (side_kind s' = side_kind s) as Es by congruence. assert (c' = c) as -> by congruence. by destruct s, s'.
      * destruct (ti_fields _ _ (core_task _ _ Hcore) _ _ _ Hk Hp) as [[ctx Hf'] _].
        pose proof (pf_cancel _ _ _ _ Hf). pose proof (pf_cancel _ _ _ _ Hf'). congruence.
Qed.

Lemma cancel_select_runs here w g t k context :
  inv w g → free here w g → w_tasks w !! t = Some k → executor k = Some here →
  parked_fields k (Some context) FDN_CHANNEL_WAIT_SELECT fdn_channel_cancel_select →
  runs (channel_cancel_select here t context) w (λ _ w', cancelled here w t w').
Proof.
  intros Hinv Hfree Hk Hex Hf. pose proof Hinv as [Hcore Hdata Hquiet Hset]. pose proof (core_select _ _ Hcore) as Hs.
  destruct (parked_phase w g t k fdn_channel_cancel_select Hinv Hk (pf_cancel _ _ _ _ Hf)) as (p & Hp & Hpark & Hcase).
  assert (Hsel : selecting k context) by (left; by destruct Hf).
  destruct (si_wait _ _ Hs _ _ _ Hk Hsel) as (wait & sw & Hsw & Htk).
  destruct (si_task _ _ Hs _ _ Hsw) as (k2 & Hk2 & Hsel2). rewrite Htk, Hk in Hk2. injection Hk2 as <-.
  assert (Hctx : sw_context sw = context).
  { destruct Hsel2 as [(_ & E & _)|(E & _)]; [|rewrite (pf_cancel _ _ _ _ Hf) in E; done].
    rewrite (pf_context _ _ _ _ Hf) in E. by injection E. }
  unfold channel_cancel_select, select_find. apply call_bind, call_get_executor, find_wait_runs.
  { intros x Hx. apply (si_list _ _ Hs) in Hx as (swx & H & _). by exists swx. }
  intros [r|] Hr; cycle 1.
  { exfalso. apply (Hr wait sw); [|done|done]. apply (si_list _ _ Hs). exists sw. split; [done|]. unfold owner. by rewrite Htk, Hk. }
  destruct Hr as (_ & sw' & Hsw' & Htk' & _).
  assert (r = wait) as -> by (apply (si_unique _ _ Hs _ _ _ _ Hsw' Hsw); congruence). rewrite Hsw in Hsw'. injection Hsw' as <-.
  apply call_bind, (claim_runs w g wait sw); [done|intros Hsig|intros Hsig].
  - apply call_ret. exists g. split; [done|]. split; [done|]. split; [|split; [done|apply undisturbed_refl]]. right.
    destruct Hcase as [(c' & s' & -> & Hf')|[[wait' ->]| ->]]; [exfalso|exfalso|done].
    + pose proof (pf_cancel _ _ _ _ Hf). pose proof (pf_cancel _ _ _ _ Hf'). congruence.
    + apply (si_selecting _ _ Hs) in Hp as (sw2 & H2 & Et & Es).
      assert (wait' = wait) as -> by (apply (si_unique _ _ Hs _ _ _ _ H2 Hsw); congruence). congruence.
  - pose proof (claim_core _ _ _ _ Hcore Hsw Hsig) as Hc1. pose proof (claim_woke _ _ _ _ Hcore Hsw Hsig) as Hw1.
    destruct (selecting_task _ _ _ _ Hcore Hsw Hsig) as (Hp1 & _). rewrite Htk in *.
    apply (wake_ends here w g _ (set_phase t Popped g) t k); try done.
    + apply (free_set here w g t Popped Hfree). congruence.
    + by eapply woke_calmer.
    + by eapply data_same.
    + by apply same_channels.
    + by rewrite phase_set, decide_True.
    + by apply settled_others.
    + intros w' Hi Hfr Hm Hl Hcu. eexists. split; [exact Hi|]. split; [exact Hfr|]. split; [|split; [done|]].
      * rewrite phase_set, decide_True by done. destruct (wake_place_cases here k) as [-> | ->]; auto.
      * eapply (undisturbed_woken w); [| |exact Hl|exact Hcu|exact Hk|]; [done|done|]. rewrite (pf_cancel _ _ _ _ Hf). eauto.
Qed.

(** The tasks that no cancellation was requested of: each round of the walk marks one. *)
Definition unmarked w : nat := size (filter (λ x : nat * Task, cancellation_requested x.2 = false) (w_tasks w)).

Lemma request_runs here fuel : ∀ w g t k,
  inv w g → free here w g → w_tasks w !! t = Some k → executor k = Some here → unmarked w < fuel →
  runs (request_cancellation (cancel_function here) fuel (Some t)) w
    (λ _ w', ∃ g', inv w' g' ∧ free here w' g' ∧ w_memory w' = w_memory w ∧ undisturbed w w').
Proof.
  induction fuel as [|fuel IH]; intros w g t k Hinv Hfree Hk Hex Hfuel; [lia|]. cbn [request_cancellation].
  apply (call_get_task _ k); [done|]. destruct (cancellation_requested k) eqn:Ec.
  { apply call_ret. exists g. split_and!; [done..|apply undisturbed_refl]. }
  apply call_set_task. set (k' := set_cancellation_requested k). set (w1 := with_tasks _ w).
  pose proof (core_task _ _ (inv_core _ _ Hinv)) as Ht. destruct (proj1 (ti_dom _ _ Ht t)) as [p Hp]; [eauto|].
  destruct (ti_fields _ _ Ht _ _ _ Hk Hp) as [Hf _].
  assert (Hinv1 : inv w1 g) by (eapply (inv_set_task w g t k k'); try done; by apply set_cancel_fields).
  assert (Hk1 : w_tasks w1 !! t = Some k') by (cbn; apply lookup_insert_eq).
  assert (Hun : undisturbed w w1).
  { split; [by apply (links_insert w w1 t k k')|done|]. intros u ku Hu Hcu. cbn. destruct (decide (u = t)) as [->|Hne].
    - rewrite lookup_insert_eq. exists k'. rewrite Hk in Hu. injection Hu as <-. done.
    - rewrite lookup_insert_ne by done. by exists ku. }
  assert (Hend : ∀ w2, cancelled here w1 t w2 →
    runs (k ← get_task t; request_cancellation (cancel_function here) fuel (waiting_on k)) w2
      (λ _ w', ∃ g', inv w' g' ∧ free here w' g' ∧ w_memory w' = w_memory w ∧ undisturbed w w')).
  { intros w2 (g2 & Hi2 & Hf2 & Hp2 & Hm2 & Hl2). pose proof (core_task _ _ (inv_core _ _ Hi2)) as Ht2.
    destruct (proj2 (ti_dom _ _ Ht2 t)) as [k2 Hk2]; [destruct Hp2; eauto|]. apply (call_get_task _ k2); [done|].
    assert (waiting_on k2 = None) as ->.
    { destruct Hp2 as [Hp2|Hp2]; destruct (ti_fields _ _ Ht2 _ _ _ Hk2 Hp2) as [Hf' _]; [by destruct Hf' as (_ & _ & _ & ?)|].
      by destruct (parked_wakeable _ Hf') as (_ & _ & _ & _ & _ & ?). }
    assert (runs (request_cancellation (V := V) (cancel_function here) fuel None) w2
      (λ _ w', ∃ g', inv w' g' ∧ free here w' g' ∧ w_memory w' = w_memory w ∧ undisturbed w w')); [|done].
    pose proof (undisturbed_trans _ _ _ Hun Hl2). destruct fuel; by exists g2. }
  change (cancel_wait k) with (cancel_wait k'). change (waiting_on k) with (waiting_on k'). change (wait_context k) with (wait_context k').
  destruct (cancel_wait k') as [cancel|] eqn:Ecancel.
  - destruct (parked_phase w1 g t k' cancel Hinv1 Hk1 Ecancel) as (p' & _ & Hpark & _).
    destruct (parked_wakeable _ Hpark) as (_ & _ & _ & _ & _ & ->). cbn [is_some]. apply call_bind.
    apply (call_mono _ _ (λ _ w2, cancelled here w1 t w2)); [|intros [] w2; apply Hend].
    destruct Hpark as [(c & s & Hpf)|(ctx & Hpf)]; rewrite (pf_cancel _ _ _ _ Hpf) in Ecancel; injection Ecancel as <-;
      rewrite (pf_context _ _ _ _ Hpf); cbn [cancel_function].
    + by apply (cancel_wait_runs here w1 g t k' c s).
    + by apply (cancel_select_runs here w1 g t k' ctx).
  - apply call_bind, call_ret, (call_get_task _ k'); [done|].
    destruct (waiting_on k') as [u|] eqn:Ewait.
    + assert (p = Joining u) as ->.
      { destruct p; cbn in Hf; try (destruct Hf as (_ & _ & _ & E); cbn in Ewait; congruence);
          try (destruct Hf as [(_ & _ & _ & E) _]; cbn in Ewait; congruence).
        - destruct Hf as [_ _ E]. cbn in Ewait. congruence.
        - destruct Hf as [ctx [_ _ E]]. cbn in Ewait. congruence.
        - destruct (parked_wakeable _ Hf) as (_ & _ & _ & _ & _ & E). cbn in Ewait. congruence.
        - destruct (parked_wakeable _ Hf) as (_ & _ & _ & _ & _ & E). cbn in Ewait. congruence. }
      destruct (ti_join _ _ (core_task _ _ (inv_core _ _ Hinv1)) _ _ Hp) as (ku & Hku & _ & _ & Eku).
      assert (executor ku = Some here) as Exu by (rewrite Eku; unfold owner; by rewrite Hk1).
      eapply call_mono; [apply (IH w1 g u ku); try done|
        intros [] w2 (g2 & Hi2 & Hf2 & Hm2 & Hu2); pose proof (undisturbed_trans _ _ _ Hun Hu2); by exists g2]. enough (unmarked w1 < unmarked w) by lia. unfold unmarked, w1. cbn.
      rewrite map_filter_insert_False, map_filter_delete by done.
      assert (filter (λ x : nat * Task, cancellation_requested x.2 = false) (w_tasks w) !! t = Some k) as Hin
        by by apply map_lookup_filter_Some.
      rewrite map_size_delete_Some by (by exists k). pose proof (map_size_ne_0_lookup_2 _ t (mk_is_Some _ _ Hin)). lia.
    + assert (runs (request_cancellation (V := V) (cancel_function here) fuel None) w1
        (λ _ w', ∃ g', inv w' g' ∧ free here w' g' ∧ w_memory w' = w_memory w ∧ undisturbed w w')); [|done].
      destruct fuel; by exists g.
Qed.

Lemma cancel_task_runs here w g t k :
  inv w g → free here w g → w_tasks w !! t = Some k → executor k = Some here →
  runs (cancel_task here t) w (λ _ w', ∃ g', inv w' g' ∧ free here w' g' ∧ w_memory w' = w_memory w ∧ undisturbed w w').
Proof.
  intros Hinv Hfree Hk Hex. unfold cancel_task. apply call_get. apply (request_runs here _ w g t k); try done.
  pose proof (map_size_filter (λ x : nat * Task, cancellation_requested x.2 = false) (w_tasks w)). unfold unmarked. lia.
Qed.

End Endpoints.
