(* ===== verification/RuntimeTimer.v ===== *)
(** * The timer and the mailbox

    What an executor calls between two polls: it wakes the selects whose time is over and
    queues the tasks that other threads woke. *)
From S2P Require Import Prelude Queue Tasks Channel RuntimeInvariant RuntimeProofs ChannelProofs ChannelCalls ChannelPolls ChannelSelects ChannelEndpoints.
#[local] Opaque SIZE_MAX UINT_MAX message_header.

Section Timer.
Context {V : Type}.
Implicit Types (w : World V) (g : Ghost) (k : Task) (ch : Channel V).

(** ** The timer *)

Lemma woke_inv w g w' g' : inv w g → Core w' g' → woke w g w' g' → settles g g' → inv w' g'.
Proof.
  intros [_ Hdata Hquiet Hset] Hc Hw Hs. split; [done| |by eapply quiet_woke|intros t Ht%Hs; by apply (Hset t)].
  eapply data_same; [done|apply (wo_channels _ _ _ _ Hw)|apply (wo_count _ _ _ _ Hw)].
Qed.

(** [fdn_channel_select_wake_expired]: no select is left whose time is over. *)
Lemma wake_expired_from_runs here now l : ∀ w g,
  inv w g → free here w g → (∀ wait, wait ∈ l → is_Some (w_waits w !! wait)) →
  runs (wake_expired_from here now l) w (λ _ w', ∃ g', inv w' g' ∧ woke w g w' g' ∧ w_memory w' = w_memory w ∧
    ∀ wait sw, wait ∈ l → w_waits w' !! wait = Some sw → sw_signaled sw = false → (now < sw_deadline sw)%N).
Proof.
  induction l as [|wait l IH]; intros w g Hinv Hfree Hl; cbn [wake_expired_from].
  { apply call_ret. exists g. split; [done|]. split; [apply woke_refl|]. split; [done|]. by intros ?? ?%not_elem_of_nil. }
  destruct (Hl wait) as [sw Hsw]; [left|]. apply (call_get_wait _ sw); [done|].
  assert (Hrest : ∀ woke_ w1 g1, inv w1 g1 → woke w g w1 g1 → w_memory w1 = w_memory w →
    (∀ sw1, w_waits w1 !! wait = Some sw1 → sw_signaled sw1 = false → (now < sw_deadline sw1)%N) →
    runs (woke' ← wake_expired_from here now l; mret (woke_ || woke')) w1 (λ _ w', ∃ g', inv w' g' ∧ woke w g w' g' ∧
      w_memory w' = w_memory w ∧
      ∀ wait' sw, wait' ∈ wait :: l → w_waits w' !! wait' = Some sw → sw_signaled sw = false → (now < sw_deadline sw)%N)).
  { intros b w1 g1 Hi1 Hw1 Hm1 Hd1. apply call_bind. eapply call_mono.
    { apply (IH w1 g1); [done|by eapply free_woke|]. intros wait' Hin. destruct (Hl wait') as [sw' Hsw']; [by right|].
      destruct (woke_waits _ _ _ _ _ _ Hw1 Hsw') as (sw1 & -> & _). eauto. }
    intros b' w2 (g2 & Hi2 & Hw2 & Hm2 & Hd2). apply call_ret. exists g2. split; [done|]. split; [by eapply woke_trans|].
    split; [by rewrite Hm2|]. intros wait' sw2 [->|Hin]%elem_of_cons Hsw2 Hns; [|by eapply Hd2].
    destruct (wo_waits _ _ _ _ Hw2 wait) as [E|(sw1 & _ & E)]; [apply Hd1; by rewrite <- ?E|].
    rewrite Hsw2 in E. injection E as ->. done. }
  destruct (negb (sw_signaled sw) && (sw_deadline sw <=? now)%N) eqn:E; cycle 1.
  { apply call_bind, call_ret, (Hrest false w g); [done|apply woke_refl|done|]. intros sw1 H1 Hns. rewrite Hsw in H1. injection H1 as <-.
    rewrite Hns in E. cbn in E. by apply N.leb_gt. }
  apply andb_true_iff in E as [Hsig%negb_true_iff _]. apply call_bind, call_bind.
  apply (claim_runs w g wait sw); [done|congruence|intros _]. pose proof Hinv as [Hcore _ _ _].
  destruct (selecting_task _ _ _ _ Hcore Hsw Hsig) as (Hp & k & Hk & _).
  pose proof (claim_core _ _ _ _ Hcore Hsw Hsig) as Hc1. pose proof (claim_woke _ _ _ _ Hcore Hsw Hsig) as Hw1.
  apply call_bind. eapply (wake_runs here _ _ _ k); [exact Hc1|done|by rewrite phase_set, decide_True|by intros Hin%Hfree; congruence|].
  intros w2 Hc2 Hw2 Hm2 _. apply call_ret. eapply Hrest; [|by eapply woke_trans|by rewrite Hm2|].
  - eapply (woke_inv w g); [done|exact Hc2|by eapply woke_trans|]. intros t. rewrite !phase_set. unfold wake_place.
    destruct (decide (t = _)); [by destruct (decide _)|done].
  - intros sw2 Hsw2 Hns. destruct (wo_waits _ _ _ _ Hw2 wait) as [E|(sw1 & _ & E)].
    + rewrite Hsw2 in E. cbn in E. rewrite lookup_insert_eq in E. injection E as ->. done.
    + rewrite Hsw2 in E. injection E as ->. done.
Qed.

Lemma wake_expired_runs here now w g :
  inv w g → free here w g →
  runs (wake_expired here now) w (λ _ w', ∃ g', inv w' g' ∧ woke w g w' g' ∧ w_memory w' = w_memory w ∧
    ∀ wait sw, wait ∈ e_selects (exec w here) → w_waits w' !! wait = Some sw → sw_signaled sw = false → (now < sw_deadline sw)%N).
Proof.
  intros Hinv Hfree. unfold wake_expired. apply call_get_executor. apply wake_expired_from_runs; try done.
  intros wait Hin. apply (si_list _ _ (core_select _ _ (inv_core _ _ Hinv))) in Hin as (sw & ? & _). eauto.
Qed.

(** [fdn_channel_select_next_deadline]: the earliest of the selects that wait. *)
Definition earliest w (waits : list nat) (best : option N) (r : option N) : Prop :=
  let deadlines := λ d : N, best = Some d ∨ ∃ wait sw, wait ∈ waits ∧ w_waits w !! wait = Some sw ∧ sw_signaled sw = false ∧ sw_deadline sw = d in
  match r with
  | None => ∀ d, ¬ deadlines d
  | Some d => deadlines d ∧ ∀ d', deadlines d' → (d <= d')%N
  end.
Lemma next_deadline_from_runs w l : ∀ best,
  (∀ wait, wait ∈ l → is_Some (w_waits w !! wait)) →
  runs (next_deadline_from l best) w (λ r w', w' = w ∧ earliest w l best r).
Proof.
  induction l as [|wait l IH]; intros best Hl; cbn [next_deadline_from].
  { apply call_ret. split; [done|]. unfold earliest. destruct best as [b|].
    - split; [by left|]. intros d' [[= ->]|(? & ? & ?%not_elem_of_nil & _)]; [lia|done].
    - intros d [?|(? & ? & ?%not_elem_of_nil & _)]; done. }
  destruct (Hl wait) as [sw Hsw]; [left|]. apply (call_get_wait _ sw); [done|].
  eapply call_mono; [apply IH; intros x Hx; apply Hl; by right|]. intros r w' [-> Hr]. split; [done|].
  set (best' := if negb (sw_signaled sw) && match best with None => true | Some b => (sw_deadline sw <? b)%N end
    then Some (sw_deadline sw) else best) in Hr.
  assert (Hsplit : ∀ d, (∃ wait' sw', wait' ∈ wait :: l ∧ w_waits w !! wait' = Some sw' ∧ sw_signaled sw' = false ∧ sw_deadline sw' = d) ↔
    (sw_signaled sw = false ∧ sw_deadline sw = d) ∨
    (∃ wait' sw', wait' ∈ l ∧ w_waits w !! wait' = Some sw' ∧ sw_signaled sw' = false ∧ sw_deadline sw' = d)).
  { intros d. split.
    - intros (wait' & sw' & [->|Hin]%elem_of_cons & H & ?); [left; by simplify_eq|right; by exists wait', sw'].
    - intros [?|(wait' & sw' & Hin & ?)]; [exists wait, sw; split; [left|done]|exists wait', sw'; split; [by right|done]]. }
  unfold earliest in *. destruct r as [d|].
  - destruct Hr as [Hd Hmin]. split.
    + rewrite Hsplit. destruct Hd as [Hb|Hd]; [|by right; right]. unfold best' in Hb.
      destruct (sw_signaled sw) eqn:Es; cbn in Hb; [by left|]. destruct best as [b|]; [|injection Hb as <-; right; by left].
      destruct (sw_deadline sw <? b)%N; [injection Hb as <-; right; by left|by left].
    + intros d'. rewrite Hsplit. intros [Hb|[[Es Ed]|Hd']]; [| |apply Hmin; by right].
      * unfold best' in Hmin. rewrite Hb in Hmin. destruct (sw_signaled sw) eqn:Es; cbn in Hmin; [apply Hmin; by left|].
        destruct (N.ltb_spec (sw_deadline sw) d') as [Hlt|Hge]; [|apply Hmin; by left].
        specialize (Hmin (sw_deadline sw) (or_introl eq_refl)). lia.
      * unfold best' in Hmin. rewrite Es in Hmin. cbn in Hmin. destruct best as [b|]; [|apply Hmin; left; by rewrite Ed].
        destruct (N.ltb_spec (sw_deadline sw) b) as [Hlt|Hge]; [apply Hmin; left; by rewrite Ed|].
        specialize (Hmin b (or_introl eq_refl)). lia.
  - intros d. rewrite Hsplit. intros [Hb|[[Es Ed]|Hd]]; [| |apply (Hr d); by right].
    + unfold best' in Hr. rewrite Hb in Hr. destruct (sw_signaled sw); cbn in Hr; [apply (Hr d); by left|].
      destruct (sw_deadline sw <? d)%N; eapply Hr; by left.
    + unfold best' in Hr. rewrite Es in Hr. cbn in Hr. destruct best as [b|]; [|eapply Hr; by left].
      destruct (sw_deadline sw <? b)%N; eapply Hr; by left.
Qed.

(** ** The mailbox *)

Definition with_mailbox (here : nat) (l : list (nat * N)) w : World V :=
  with_executors (insert here (mkExecutor (e_queue (exec w here)) (e_current (exec w here)) l (e_selects (exec w here))
    (e_timer (exec w here)))) w.
Lemma with_mailbox_exec here l w e : exec (with_mailbox here l w) e =
  if decide (e = here) then mkExecutor (e_queue (exec w here)) (e_current (exec w here)) l (e_selects (exec w here))
    (e_timer (exec w here)) else exec w e.
Proof. unfold with_mailbox. by rewrite exec_insert. Qed.

Lemma unmail_core here w g t status rest :
  Core w g → e_mailbox (exec w here) = (t, status) :: rest →
  Core (with_mailbox here rest w) (set_phase t Popped g) ∧ phase g t = Some Mailed ∧ owner w t = Some here.
Proof.
  intros [Ht Hq Hs] Hm. assert (phase g t = Some Mailed ∧ owner w t = Some here) as [Hp Ho].
  { apply (ti_mail _ _ Ht). rewrite Hm. left. }
  split; [|done]. destruct (proj2 (ti_dom _ _ Ht t)) as [k Hk]; [eauto|].
  destruct (ti_fields _ _ Ht _ _ _ Hk Hp) as [Hf _]. set (w' := with_mailbox here rest w).
  pose proof (ti_mail_once _ _ Ht here) as Hd. rewrite Hm in Hd. cbn in Hd. apply NoDup_cons in Hd as [Hn Hd].
  assert (Htk : w_tasks w' = <[t := k]> (w_tasks w)) by (by rewrite insert_id).
  split.
  - eapply (task_inv_step w g w' t k k Mailed Popped); try done.
    + intros e Hin. split_and!; try done. intros Htl%(ti_interrupted _ _ Ht). congruence.
    + split; intros e; unfold w'; rewrite with_mailbox_exec; destruct (decide (e = here)) as [->|He]; cbn; try apply Ht; try done.
      * intros u. destruct (decide (u = t)) as [->|]; [|done]. rewrite (ti_queue _ _ Ht), Hp. naive_solver.
      * intros u. destruct (decide (u = t)) as [->|]; [|done]. rewrite (ti_queue _ _ Ht), Hp. naive_solver.
      * intros u. rewrite Hm. cbn. destruct (decide (u = t)) as [->|Hne]; [naive_solver|]. rewrite elem_of_cons. naive_solver.
      * intros u. destruct (decide (u = t)) as [->|Hne]; [|done]. rewrite (ti_mail _ _ Ht), Ho. naive_solver.
  - by eapply (queue_inv_step w g w' t k k Mailed Popped).
  - eapply (select_inv_step w g w' t k k Mailed Popped); try done.
    intros e. unfold w'. rewrite with_mailbox_exec. by destruct (decide _) as [->|].
Qed.

Lemma unmail_all here l : ∀ w g, Core w g → e_mailbox (exec w here) = l →
  ∃ g1, Core (with_mailbox here [] w) g1 ∧ g_queue g1 = g_queue g ∧
    ∀ u, phase g1 u = if decide (u ∈ l.*1) then Some Popped else phase g u.
Proof.
  induction l as [|[t status] l IH]; intros w g Hcore Hm.
  - exists g. split; [|split; [done|]].
    + eapply core_lists; try done; intros e; rewrite with_mailbox_exec; destruct (decide _) as [->|]; [|done|done|done].
      cbn. by rewrite Hm.
    + intros u. rewrite decide_False; [done|]. apply not_elem_of_nil.
  - destruct (unmail_core here w g t status l Hcore Hm) as (Hc1 & _).
    destruct (IH _ _ Hc1) as (g1 & Hc2 & Hg & Hph); [by rewrite with_mailbox_exec, decide_True|].
    exists g1. split; [|split; [by rewrite Hg|]].
    + assert (with_mailbox here [] (with_mailbox here l w) = with_mailbox here [] w) as <-; [|done].
      unfold with_mailbox at 1 3. rewrite !with_mailbox_exec, !decide_True by done. cbn. unfold with_mailbox, with_executors. cbn.
      by rewrite insert_insert_eq.
    + intros u. rewrite Hph, phase_set. cbn. destruct (decide (u ∈ l.*1)) as [Hin|Hin].
      * rewrite decide_True; [done|]. by right.
      * destruct (decide (u = t)) as [->|Hne]; [rewrite decide_True; [done|left]|]. rewrite decide_False; [done|].
        intros [?|?]%elem_of_cons; done.
Qed.

Lemma drain_wakes_runs here l : ∀ w g,
  Core w g → free here w g → NoDup l.*1 → (∀ t, phase g t = Some Popped ↔ t ∈ l.*1) → (∀ t, t ∈ l.*1 → owner w t = Some here) →
  runs (drain_wakes here here l) w (λ _ w', ∃ g', Core w' g' ∧ woke w g w' g' ∧ w_memory w' = w_memory w ∧ settled g' ∧
    ∀ t, t ∈ l.*1 → phase g' t = Some Queued).
Proof.
  induction l as [|[t status] l IH]; intros w g Hcore Hfree Hd Hp Ho; cbn [drain_wakes].
  { apply call_ret. exists g. split; [done|]. split; [apply woke_refl|]. split; [done|]. split.
    - intros t Ht%Hp. by apply not_elem_of_nil in Ht.
    - by intros t ?%not_elem_of_nil. }
  cbn in Hd. apply NoDup_cons in Hd as [Hn Hd]. pose proof Hcore as [Ht _ _].
  assert (Hpt : phase g t = Some Popped) by (apply Hp; left). destruct (proj2 (ti_dom _ _ Ht t)) as [k Hk]; [eauto|].
  assert (Hex : executor k = Some here).
  { assert (owner w t = Some here) as H by (apply Ho; left). unfold owner in H. by rewrite Hk in H. }
  apply (call_get_task _ k); [done|]. rewrite bool_decide_false by (by intros H). apply call_bind.
  eapply (wake_local_runs here w g t k); try done; [intros Hin%Hfree; congruence|].
  intros w1 Hc1 Hw1 Hm1 _. eapply call_mono; [apply (IH w1 (set_phase t Queued g)); try done|].
  - by eapply free_woke.
  - intros u. rewrite phase_set. destruct (decide (u = t)) as [->|Hne]; [naive_solver|]. rewrite Hp. cbn. rewrite elem_of_cons. naive_solver.
  - intros u Hu. rewrite (wo_owner _ _ _ _ Hw1). apply Ho. by right.
  - intros [] w2 (g2 & Hc2 & Hw2 & Hm2 & Hs2 & Hq2). exists g2. split; [done|]. split; [by eapply woke_trans|]. split; [by rewrite Hm2|].
    split; [done|]. intros u [->|Hu]%elem_of_cons; [|by apply Hq2].
    destruct (wo_phase _ _ _ _ Hw2 t) as [E|(p & p' & E & _ & Hl & _)]; rewrite phase_set, decide_True in E by done; [done|].
    injection E as <-. done.
Qed.

(** The hub of a thread without mail need not be notified. *)
Lemma core_notified f w g :
  Core w g → (∀ e, e_mailbox (exec w e) ≠ [] → e ∈ w_notified w → e ∈ f (w_notified w)) → Core (with_notified f w) g.
Proof.
  intros [Ht Hq Hs] Hf. split; [|by destruct Hq|by destruct Hs]. destruct Ht. split; try done.
  intros e He. by apply Hf; [|auto].
Qed.

(** [fdn_task_executor_drain]: every task of the mailbox is in the queue, also when the
    hub's [notified] was cleared before. *)
Lemma drain_runs here f w g :
  inv w g → free here w g → live w here ≠ 0 → (∀ notified e, e ≠ here → e ∈ notified → e ∈ f notified) →
  runs (executor_drain here here) (with_notified f w) (λ _ w', ∃ g', inv w' g' ∧ free here w' g' ∧ w_memory w' = w_memory w ∧
    ∀ t, t ∈ (e_mailbox (exec w here)).*1 → phase g' t = Some Queued).
Proof.
  intros Hinv Hfree Hlive Hf. pose proof Hinv as [Hcore Hdata Hquiet Hset]. pose proof Hcore as [Ht _ _].
  unfold executor_drain. apply call_bind, call_get_home, call_ret.
  change (home (with_notified f w) here) with (home w here).
  destruct (ti_home _ _ Ht here) as [-> _]. unfold home_of. rewrite decide_False by done. cbn [openHome h_executor is_some].
  rewrite bool_decide_false by (intros E; by apply E).
  apply call_get_executor, call_set_executor. set (w1 := with_executors _ _).
  destruct (unmail_all here _ w g Hcore eq_refl) as (g1 & Hc1 & Hg1 & Hph1).
  apply (core_notified f) in Hc1; [|intros e; rewrite with_mailbox_exec; destruct (decide (e = here)); [done|by auto]].
  change (with_notified f (with_mailbox here [] w)) with w1 in Hc1. change (exec (with_notified f w) here) with (exec w here).
  set (l := e_mailbox (exec w here)) in *.
  assert (Hpop : ∀ t, phase g1 t = Some Popped ↔ t ∈ l.*1).
  { intros t. rewrite Hph1. destruct (decide _); [done|]. split; [by intros ?%Hset|done]. }
  assert (Hcur : ∀ e, e_current (exec w1 e) = e_current (exec w e)).
  { intros e. change (exec w1 e) with (exec (with_mailbox here [] w) e). rewrite with_mailbox_exec. by destruct (decide _) as [->|]. }
  assert (Hfree1 : free here w1 g1).
  { intros u. rewrite Hcur. intros Hu. pose proof (Hfree u Hu) as Hr. rewrite Hph1, decide_False; [done|].
    intros Hin. apply (ti_mail _ _ Ht) in Hin as [Hin _]. congruence. }
  apply call_bind. eapply call_mono; [apply (drain_wakes_runs here l w1 g1); try done|].
  - apply (ti_mail_once _ _ Ht).
  - intros t Hin. by apply (ti_mail _ _ Ht) in Hin as [_ ?].
  - intros [] w2 (g2 & Hc2 & Hw2 & Hm2 & Hs2 & Hq2). apply call_ret. exists g2. split; [|split; [by eapply free_woke|]].
    + split; [done| | |done].
      * eapply data_same; [done|apply (wo_channels _ _ _ _ Hw2)|apply (wo_count _ _ _ _ Hw2)].
      * intros c ch. rewrite (wo_channels _ _ _ _ Hw2). intros Hc. eapply quiet_calmer; [by apply Hquiet|].
        eapply calmer_trans; [|by eapply woke_calmer]. apply calmer_waits; [done|]. intros d s. unfold gq. by rewrite Hg1.
    + by split.
Qed.

Lemma with_notified_id w : with_notified id w = w.
Proof. by destruct w. Qed.

(** The external part of [fdn_task_poll_idle_sources]: a thread without tasks has no hub,
    and else its mailbox is the only source. *)
Lemma poll_sources_runs here f w g :
  inv w g → free here w g → live w here ≠ 0 → (∀ notified e, e ≠ here → e ∈ notified → e ∈ f notified) →
  runs (poll_idle_sources here) (with_notified f w) (λ _ w', ∃ g', inv w' g' ∧ free here w' g' ∧ w_memory w' = w_memory w ∧
    ∀ t, t ∈ (e_mailbox (exec w here)).*1 → phase g' t = Some Queued).
Proof.
  intros Hinv Hfree Hlive Hf. unfold poll_idle_sources. apply call_get_home. change (home (with_notified f w) here) with (home w here).
  destruct (ti_home _ _ (core_task _ _ (inv_core _ _ Hinv)) here) as [-> _]. unfold home_of. rewrite decide_False by done.
  apply call_bind. eapply call_mono; [by apply (drain_runs here f w g)|]. intros drained w' H. by apply call_ret.
Qed.

Lemma no_tasks_runs here w g :
  inv w g → free here w g → live w here = 0 →
  ∃ g', inv w g' ∧ free here w g' ∧ w_memory w = w_memory w ∧ ∀ t, t ∈ (e_mailbox (exec w here)).*1 → phase g' t = Some Queued.
Proof.
  intros Hinv Hfree El. exists g. split_and!; try done. intros t Hm%(ti_mail _ _ (core_task _ _ (inv_core _ _ Hinv))).
  by destruct (live_task w t here (proj2 Hm)).
Qed.

Lemma poll_idle_runs here w g :
  inv w g → free here w g →
  runs (poll_idle_sources here) w (λ _ w', ∃ g', inv w' g' ∧ free here w' g' ∧ w_memory w' = w_memory w ∧
    ∀ t, t ∈ (e_mailbox (exec w here)).*1 → phase g' t = Some Queued).
Proof.
  intros Hinv Hfree. destruct (decide (live w here = 0)) as [El|El].
  - unfold poll_idle_sources. apply call_get_home. destruct (ti_home _ _ (core_task _ _ (inv_core _ _ Hinv)) here) as [-> _].
    unfold home_of. rewrite decide_True by done. by apply call_ret, (no_tasks_runs here w g).
  - rewrite <- (with_notified_id w) at 1. by apply (poll_sources_runs here id w g).
Qed.

(** The wait of [fdn_task_run_one]: what was notified before it returns is in the queue. *)
Lemma idle_wait_runs here w g :
  inv w g → free here w g →
  runs (idle_wait here) w (λ _ w', ∃ g', inv w' g' ∧ free here w' g' ∧ w_memory w' = w_memory w ∧
    ∀ t, t ∈ (e_mailbox (exec w here)).*1 → phase g' t = Some Queued).
Proof.
  intros Hinv Hfree. unfold idle_wait. apply call_get_home. destruct (ti_home _ _ (core_task _ _ (inv_core _ _ Hinv)) here) as [Eh _].
  rewrite Eh. unfold home_of. destruct (decide (live w here = 0)) as [El|El]; cbn [closedHome openHome h_hub is_some negb].
  - by apply call_ret, (no_tasks_runs here w g).
  - apply call_bind. unfold external_wait. apply call_get_home. rewrite Eh. unfold home_of. rewrite decide_False by done.
    cbn [openHome h_hub]. apply call_modify_end. apply (poll_sources_runs here _ w g); try done.
    intros notified e He Hin. apply elem_of_difference. split; [done|]. by intros ?%elem_of_singleton.
Qed.

End Timer.
