(* ===== verification/RuntimeScheduler.v ===== *)
(** * The executor

    The steps of an executor around a poll, and the calls of task.c that a task makes:
    each keeps the invariant of [RuntimeInvariant]. *)
From S2P Require Import Prelude Queue Tasks Channel RuntimeInvariant RuntimeProofs ChannelProofs ChannelCalls ChannelPolls ChannelSelects ChannelEndpoints RuntimeTimer.
#[local] Opaque SIZE_MAX UINT_MAX message_header.

Section Scheduler.
Context {V : Type}.
Implicit Types (w : World V) (g : Ghost) (k : Task) (ch : Channel V).

(** ** Steps of tasks that wait for nothing of a channel *)

(** What the invariant of queues and selects reads of the tasks stays as it was. *)
Record tasks_only w g w' g' : Prop := mkTasksOnly {
  to_memory : w_memory w' = w_memory w;
  to_next : w_wait_next w' = w_wait_next w;
  to_channels : w_channels w' = w_channels w;
  to_waits : w_waits w' = w_waits w;
  to_count : w_channel_count w' = w_channel_count w;
  to_gq : g_queue g' = g_queue g;
  to_selects : ∀ e, e_selects (exec w' e) = e_selects (exec w e);
  to_waiting : ∀ t c s, phase g' t = Some (Waiting c s) ↔ phase g t = Some (Waiting c s);
  to_selecting : ∀ t wait, phase g' t = Some (Selecting wait) ↔ phase g t = Some (Selecting wait);
  to_popped : ∀ t, phase g' t = Some Popped → phase g t = Some Popped;
  to_uses : ∀ t k' c s, w_tasks w' !! t = Some k' → uses k' c s →
    ∃ k, w_tasks w !! t = Some k ∧ uses k c s ∧ wait_value k' = wait_value k;
  to_select : ∀ t context, (∃ k, w_tasks w !! t = Some k ∧ selecting k context) ↔ (∃ k', w_tasks w' !! t = Some k' ∧ selecting k' context);
  to_owner : ∀ t k context, w_tasks w !! t = Some k → selecting k context → owner w' t = owner w t;
}.

Lemma inv_tasks w g w' g' : inv w g → task_inv w' g' → tasks_only w g w' g' → inv w' g'.
Proof.
  intros [[Ht Hq Hs] Hdata Hquiet Hset] Ht' Ho.
  assert (Hgq : ∀ c s, gq g' c s = gq g c s) by (intros c s; unfold gq; by rewrite (to_gq _ _ _ _ Ho)).
  assert (Hex : ∀ t k context, w_tasks w !! t = Some k → selecting k context → ∃ k', w_tasks w' !! t = Some k' ∧ selecting k' context).
  { intros t k context Hk Hsel. apply (to_select _ _ _ _ Ho). eauto. }
  split; [split; [done| |]| | |].
  - split; rewrite ?(to_next _ _ _ _ Ho), ?(to_channels _ _ _ _ Ho); try setoid_rewrite Hgq; try apply Hq.
    + intros c s t. rewrite (to_waiting _ _ _ _ Ho). apply (qi_member _ _ Hq).
    + intros t Hn. apply (qi_next _ _ Hq). intros c s Hp. apply (Hn c s). by apply (to_waiting _ _ _ _ Ho).
    + intros t k' c s Hk' Hu. destruct (to_uses _ _ _ _ Ho _ _ _ _ Hk' Hu) as (k & Hk & Hu0 & ->).
      by apply (qi_uses _ _ Hq t k c s).
  - split; rewrite ?(to_channels _ _ _ _ Ho), ?(to_waits _ _ _ _ Ho); try setoid_rewrite (to_selects _ _ _ _ Ho); try apply Hs.
    + intros t wait. rewrite (to_selecting _ _ _ _ Ho). apply (si_selecting _ _ Hs).
    + intros wait sw Hsw. destruct (si_task _ _ Hs _ _ Hsw) as (k & Hk & Hsel). by eapply Hex.
    + intros t k' context Hk' Hsel. destruct (proj2 (to_select _ _ _ _ Ho t context)) as (k & Hk & Hsel0); [eauto|].
      by apply (si_wait _ _ Hs t k context).
    + intros e wait. rewrite (si_list _ _ Hs). apply exist_proper. intros sw. split; intros [Hsw E]; (split; [done|]);
        destruct (si_task _ _ Hs _ _ Hsw) as (k & Hk & Hsel); pose proof (to_owner _ _ _ _ Ho _ _ _ Hk Hsel); congruence.
    + intros wait sw Hsw. destruct (si_cases _ _ Hs _ _ Hsw) as (? & ? & Hall). split; [done|]. split; [done|].
      eapply Forall_impl; [exact Hall|]. intros case. unfold case_ok. by rewrite (to_channels _ _ _ _ Ho).
  - eapply data_same; [done|apply (to_channels _ _ _ _ Ho)|apply (to_count _ _ _ _ Ho)].
  - intros c ch. rewrite (to_channels _ _ _ _ Ho). intros Hc. eapply quiet_calmer; [by apply Hquiet|].
    apply calmer_waits; [apply (to_waits _ _ _ _ Ho)|]. intros d s. by rewrite Hgq.
  - intros t Hp%(to_popped _ _ _ _ Ho). by apply (Hset t).
Qed.

(** A task goes to another place; the task an executor runs may change with it. *)
Record switched w g w' (t : nat) (p' : Phase) : Prop := mkSwitched {
  sc_queue : ∀ e u, u ∈ e_queue (exec w' e) ↔
    if decide (u = t) then p' = Queued ∧ owner w t = Some e else u ∈ e_queue (exec w e);
  sc_queue_once : ∀ e, NoDup (e_queue (exec w' e));
  sc_mail : ∀ e, e_mailbox (exec w' e) = e_mailbox (exec w e);
  sc_current : ∀ e u, u ∈ e_current (exec w' e) →
    if decide (u = t) then owner w t = Some e ∧ p' ≠ Queued ∧ p' ≠ Finished else u ∈ e_current (exec w e);
  sc_current_once : ∀ e, NoDup (e_current (exec w' e));
  sc_interrupted : ∀ e u, u ∈ tail (e_current (exec w' e)) → u ≠ t ∧ phase g u = Some Running;
  sc_running : ∀ e u, u ≠ t → u ∈ e_current (exec w e) → u ∈ e_current (exec w' e);
  sc_running_self : ∀ e, p' = Running → owner w t = Some e → t ∈ e_current (exec w' e);
}.

Lemma task_inv_switch w g w' t k k' p p' :
  task_inv w g → w_tasks w !! t = Some k → phase g t = Some p →
  w_tasks w' = <[t := k']> (w_tasks w) → w_homes w' = w_homes w → w_notified w' = w_notified w →
  executor k' = executor k → waiter k' = waiter k → (∀ u, waiter k = Some u → ready k' = ready k) → phase_fields k' p' →
  (∀ u, p ≠ Joining u) → (∀ u, p' ≠ Joining u) → p ≠ Mailed → p' ≠ Mailed →
  switched w g w' t p' → task_inv w' (set_phase t p' g).
Proof.
  intros H Hk Hp Ht Hhomes Hnot Hex Hwt Hrd Hf Hj Hj' Hm Hm' Hsc.
  assert (Ho : ∀ u, owner w' u = owner w u).
  { intros u. unfold owner. rewrite Ht. destruct (decide (u = t)) as [->|]; [|by rewrite lookup_insert_ne].
    by rewrite lookup_insert_eq, Hk. }
  assert (Hlk : ∀ u, w_tasks w' !! u = if decide (u = t) then Some k' else w_tasks w !! u).
  { intros u. rewrite Ht. destruct (decide (u = t)) as [->|]; [by rewrite lookup_insert_eq|by rewrite lookup_insert_ne]. }
  split.
  - intros u. rewrite Hlk, phase_set. destruct (decide (u = t)); [done|apply (ti_dom _ _ H)].
  - intros u ku pu. rewrite Hlk, phase_set. destruct (decide (u = t)) as [->|]; [|apply (ti_fields _ _ H)].
    intros [= <-] [= <-]. split; [done|]. rewrite Hex. by apply (ti_fields _ _ H t k p).
  - intros e u. rewrite (sc_queue _ _ _ _ _ Hsc), phase_set, Ho. destruct (decide (u = t)) as [->|]; [naive_solver|apply (ti_queue _ _ H)].
  - apply (sc_queue_once _ _ _ _ _ Hsc).
  - intros e u. rewrite (sc_mail _ _ _ _ _ Hsc), phase_set, Ho, (ti_mail _ _ H). destruct (decide (u = t)) as [->|]; [|done].
    rewrite Hp. naive_solver.
  - intros e. rewrite (sc_mail _ _ _ _ _ Hsc). apply (ti_mail_once _ _ H).
  - intros e u Hu%(sc_current _ _ _ _ _ Hsc). rewrite phase_set, Ho. destruct (decide (u = t)) as [->|]; [|by apply (ti_current _ _ H)].
    destruct Hu as (? & ? & ?). split; [done|]. split; congruence.
  - apply (sc_current_once _ _ _ _ _ Hsc).
  - intros e u [Hne Hr]%(sc_interrupted _ _ _ _ _ Hsc). by rewrite phase_set, decide_False.
  - intros e u. rewrite phase_set, Ho. destruct (decide (u = t)) as [->|Hne].
    + intros [= ->]. by apply (sc_running_self _ _ _ _ _ Hsc).
    + intros Hr He. apply (sc_running _ _ _ _ _ Hsc); [done|]. by apply (ti_running _ _ H).
  - intros u v. rewrite phase_set. destruct (decide (u = t)) as [->|]; [intros [= Hc]; by apply Hj' in Hc|].
    intros Hu. destruct (ti_join _ _ H _ _ Hu) as (kv & Hv & Hwv & Hrv & Hev). rewrite Ho, Hlk.
    destruct (decide (v = t)) as [->|]; [|by eauto]. rewrite Hk in Hv. injection Hv as <-. exists k'.
    split_and!; [done|congruence|rewrite (Hrd u); done|congruence].
  - intros u ku v. rewrite Hlk, phase_set. intros Hu Hw.
    assert (phase g v = Some (Joining u)) as Hv.
    { destruct (decide (u = t)) as [->|]; [|by apply (ti_waiter _ _ H u ku)]. injection Hu as <-.
      rewrite Hwt in Hw. by apply (ti_waiter _ _ H t k). }
    destruct (decide (v = t)) as [->|]; [|done]. rewrite Hp in Hv. injection Hv as ->. by destruct (Hj u).
  - apply (homes_same w w'); [done..|apply (ti_home _ _ H)].
  - apply (notified_same w w'); [apply (sc_mail _ _ _ _ _ Hsc)|done|apply (ti_notified _ _ H)].
Qed.

(** The fields of one task change, but not those of a wait. *)
Lemma one_task w g w' t k k' p p' :
  w_tasks w !! t = Some k → phase g t = Some p →
  w_tasks w' = <[t := k']> (w_tasks w) → w_memory w' = w_memory w → w_wait_next w' = w_wait_next w → w_channels w' = w_channels w →
  w_waits w' = w_waits w → w_channel_count w' = w_channel_count w → (∀ e, e_selects (exec w' e) = e_selects (exec w e)) →
  executor k' = executor k → cancel_wait k = None → cancel_wait k' = None →
  (∀ context, selecting k context ↔ selecting k' context) →
  ¬ leaves p → (∀ c s, p ≠ Waiting c s) → ¬ leaves p' → (∀ c s, p' ≠ Waiting c s) →
  tasks_only w g w' (set_phase t p' g).
Proof.
  intros Hk Hp Ht Hmem Hn Hc Hw Hcnt Hsel Hex Ec Ec' Hse Hl Hwt Hl' Hwt'.
  assert (Hlk : ∀ u, w_tasks w' !! u = if decide (u = t) then Some k' else w_tasks w !! u).
  { intros u. rewrite Ht. destruct (decide (u = t)) as [->|]; [by rewrite lookup_insert_eq|by rewrite lookup_insert_ne]. }
  split; try done.
  - intros u c s. rewrite phase_set. destruct (decide (u = t)) as [->|]; [|done]. rewrite Hp. split; intros [= E]; [by apply Hwt' in E|by apply Hwt in E].
  - intros u wait. rewrite phase_set. destruct (decide (u = t)) as [->|]; [|done]. rewrite Hp.
    split; intros [= E]; subst; done.
  - intros u. rewrite phase_set. destruct (decide (u = t)) as [->|]; [|done]. intros [= ->]. done.
  - intros u ku c s. rewrite Hlk. destruct (decide (u = t)) as [->|]; [|eauto]. intros [= <-] (E & _). congruence.
  - intros u context. rewrite Hlk. destruct (decide (u = t)) as [->|]; [|done]. split.
    + intros (k0 & Hk0 & Hs). rewrite Hk in Hk0. injection Hk0 as <-. exists k'. split; [done|]. by apply Hse.
    + intros (k0 & [= <-] & Hs). exists k. split; [done|]. by apply Hse.
  - intros u ku context _ _. unfold owner. rewrite Hlk. destruct (decide (u = t)) as [->|]; [|done]. rewrite Hk. exact Hex.
Qed.

(** ** [fdn_task_run_one] *)

(** A running or queued task: its fields, whether it is queued or not. *)
Lemma set_queued_selecting k q context : selecting k context ↔ selecting (set_queued q k) context.
Proof. done. Qed.

Lemma run_start_runs here w g :
  inv w g → free here w g →
  runs (run_start here) w (λ r w', ∃ g', inv w' g' ∧ free here w' g' ∧ w_memory w' = w_memory w ∧
    match e_queue (exec w here) with
    | [] => r = None ∧ w' = w
    | t :: rest => r = Some t ∧ e_queue (exec w' here) = rest ∧ e_current (exec w' here) = t :: e_current (exec w here) ∧
        phase g' t = Some Running
    end).
Proof.
  intros Hinv Hfree. pose proof (core_task _ _ (inv_core _ _ Hinv)) as Ht. unfold run_start, dequeue.
  apply call_bind, call_get_executor. destruct (e_queue (exec w here)) as [|t rest] eqn:Eq; [do 2 apply call_ret; by exists g|].
  assert (phase g t = Some Queued ∧ owner w t = Some here) as [Hp Ho] by (apply (ti_queue _ _ Ht); rewrite Eq; left).
  destruct (proj2 (ti_dom _ _ Ht t)) as [k Hk]; [eauto|]. destruct (ti_fields _ _ Ht _ _ _ Hk Hp) as [(E1 & E2 & E3 & E4) _].
  apply call_set_executor, (call_get_task _ k); [done|]. apply call_set_task, call_ret, call_get_executor.
  set (w1 := with_tasks _ _). assert (Hx1 : exec w1 here = mkExecutor rest (e_current (exec w here)) (e_mailbox (exec w here))
    (e_selects (exec w here)) (e_timer (exec w here))).
  { change (exec w1 here) with (exec (with_executors (insert here (mkExecutor rest (e_current (exec w here)) (e_mailbox (exec w here))
      (e_selects (exec w here)) (e_timer (exec w here)))) w) here). by rewrite exec_insert, decide_True. }
  rewrite Hx1. cbn [e_queue e_current e_mailbox e_selects e_timer]. apply call_set_executor, call_ret. set (w' := with_executors _ w1).
  assert (Hx : ∀ e, exec w' e = if decide (e = here) then mkExecutor rest (t :: e_current (exec w here)) (e_mailbox (exec w here))
    (e_selects (exec w here)) (e_timer (exec w here)) else exec w e).
  { intros e. unfold w'. rewrite exec_insert. destruct (decide _) as [->|Hne]; [done|].
    transitivity (exec (with_executors (insert here (mkExecutor rest (e_current (exec w here)) (e_mailbox (exec w here))
      (e_selects (exec w here)) (e_timer (exec w here)))) w) e); [done|]. by rewrite exec_insert, decide_False. }
  pose proof (ti_queue_once _ _ Ht here) as Hd. rewrite Eq in Hd. apply NoDup_cons in Hd as [Hn Hd].
  assert (Hnc : ∀ e, t ∉ e_current (exec w e)).
  { intros e Hin. destruct (ti_current _ _ Ht _ _ Hin) as (_ & Hq & _). by rewrite Hp in Hq. }
  assert (Hti : task_inv w' (set_phase t Running g)).
  { eapply (task_inv_switch w g w' t k (set_queued false k) Queued Running); try done.
    split.
    - intros e u. rewrite Hx. destruct (decide (e = here)) as [->|He]; cbn [e_queue e_current e_mailbox e_selects tail].
      + destruct (decide (u = t)) as [->|]; [naive_solver|]. rewrite Eq, elem_of_cons. naive_solver.
      + destruct (decide (u = t)) as [->|]; [|done]. rewrite (ti_queue _ _ Ht), Ho. naive_solver.
    - intros e. rewrite Hx. destruct (decide (e = here)) as [->|He]; cbn [e_queue e_current e_mailbox e_selects tail]; [done|apply Ht].
    - intros e. rewrite Hx. by destruct (decide (e = here)) as [->|He].
    - intros e u. rewrite Hx. destruct (decide (e = here)) as [->|He]; cbn [e_queue e_current e_mailbox e_selects tail].
      + intros [->|Hu]%elem_of_cons; [by rewrite decide_True|]. destruct (decide (u = t)) as [->|]; [by apply Hnc in Hu|done].
      + intros Hu. destruct (decide (u = t)) as [->|]; [by apply Hnc in Hu|done].
    - intros e. rewrite Hx. destruct (decide (e = here)) as [->|He]; cbn [e_queue e_current e_mailbox e_selects tail]; [|apply Ht]. apply NoDup_cons. split; [apply Hnc|apply Ht].
    - intros e u. rewrite Hx. destruct (decide (e = here)) as [->|He]; cbn [e_queue e_current e_mailbox e_selects tail].
      + intros Hu. split; [by intros ->; apply Hnc in Hu|by apply Hfree].
      + intros Hu. split; [|by apply (ti_interrupted _ _ Ht e)]. intros ->. apply (ti_interrupted _ _ Ht) in Hu. congruence.
    - intros e u Hne. rewrite Hx. destruct (decide (e = here)) as [->|He]; cbn [e_queue e_current e_mailbox e_selects tail]; [|done]. intros Hu. by right.
    - intros e _ He. rewrite Ho in He. injection He as <-. rewrite Hx, decide_True by done. left. }
  exists (set_phase t Running g). split; [|split; [|split; [done|split; [done|]]]].
  - eapply (inv_tasks w g); [done|done|]. eapply (one_task w g w' t k (set_queued false k) Queued Running); try done;
      [|by intros []..]. intros e. rewrite Hx. by destruct (decide _) as [->|].
  - intros u. rewrite Hx, decide_True by done. cbn [e_queue e_current e_mailbox e_selects tail]. rewrite phase_set. intros [->|Hu]%elem_of_cons; [by rewrite decide_True|].
    destruct (decide _); [done|by apply Hfree].
  - rewrite Hx, decide_True by done. split; [done|]. split; [done|]. by rewrite phase_set, decide_True.
Qed.

(** The current task leaves the processor while it waits. *)
Lemma task_inv_leave w g w' here t previous :
  task_inv w g → e_current (exec w here) = t :: previous → phase g t ≠ Some Running → w_tasks w' = w_tasks w →
  w_homes w' = w_homes w → w_notified w' = w_notified w →
  (∀ e, exec w' e = if decide (e = here) then mkExecutor (e_queue (exec w here)) previous (e_mailbox (exec w here))
     (e_selects (exec w here)) (e_timer (exec w here)) else exec w e) → task_inv w' g.
Proof.
  intros H Hc Hp Ht Hhomes Hnot Hx. assert (Ho : ∀ u, owner w' u = owner w u) by (intros u; unfold owner; by rewrite Ht).
  assert (Hq : ∀ e, e_queue (exec w' e) = e_queue (exec w e)) by (intros e; rewrite Hx; by destruct (decide _) as [->|]).
  assert (Hm : ∀ e, e_mailbox (exec w' e) = e_mailbox (exec w e)) by (intros e; rewrite Hx; by destruct (decide _) as [->|]).
  assert (Hcur : ∀ e u, u ∈ e_current (exec w' e) → u ∈ e_current (exec w e)).
  { intros e u. rewrite Hx. destruct (decide _) as [->|]; [|done]. cbn [e_queue e_current e_mailbox e_selects tail]. rewrite Hc. by right. }
  split; rewrite ?Ht; try setoid_rewrite Hq; try setoid_rewrite Hm; try setoid_rewrite Ho; try apply H.
  - intros e u Hu. by apply (ti_current _ _ H), Hcur.
  - intros e. rewrite Hx. destruct (decide _) as [->|]; [|apply (ti_current_once _ _ H)]. cbn [e_queue e_current e_mailbox e_selects tail].
    pose proof (ti_current_once _ _ H here) as Hd. rewrite Hc in Hd. by apply NoDup_cons in Hd as [_ ?].
  - intros e u. rewrite Hx. destruct (decide _) as [->|]; [|apply (ti_interrupted _ _ H)]. cbn [e_queue e_current e_mailbox e_selects tail]. intros Hu.
    apply (ti_interrupted _ _ H here). rewrite Hc. cbn [e_queue e_current e_mailbox e_selects tail]. destruct previous; [done|by right].
  - intros e u Hr He. rewrite Hx. pose proof (ti_running _ _ H _ _ Hr He) as Hin. destruct (decide _) as [->|]; [|done].
    rewrite Hc in Hin. apply elem_of_cons in Hin as [->|Hin]; [done|exact Hin].
  - apply (homes_same w w'); [done..|apply (ti_home _ _ H)].
  - rewrite Hnot. apply (ti_notified _ _ H).
Qed.

Lemma enqueue_runs here w t k (Q : unit → World V → Prop) :
  w_tasks w !! t = Some k → queued k = false → ready k = false →
  Q tt (with_executors (insert here (mkExecutor (e_queue (exec w here) ++ [t]) (e_current (exec w here)) (e_mailbox (exec w here))
    (e_selects (exec w here)) (e_timer (exec w here)))) (with_tasks (insert t (set_queued true k)) w)) →
  runs (enqueue here t) w Q.
Proof.
  intros Hk Eq Er HQ. unfold enqueue. apply (call_get_task _ k); [done|]. rewrite Eq, Er.
  apply call_set_task, call_get_executor, call_modify_end. exact HQ.
Qed.

(** The fields of a task that runs. *)
Lemma running_task_fields w g t k : task_inv w g → w_tasks w !! t = Some k → phase g t = Some Running →
  queued k = false ∧ ready k = false ∧ cancel_wait k = None ∧ waiting_on k = None.
Proof. intros Ht Hk Hp. by destruct (ti_fields _ _ Ht _ _ _ Hk Hp) as [Hf _]. Qed.

Lemma tasks_only_same w g w' :
  w_tasks w' = w_tasks w → w_memory w' = w_memory w → w_wait_next w' = w_wait_next w → w_channels w' = w_channels w →
  w_waits w' = w_waits w → w_channel_count w' = w_channel_count w → (∀ e, e_selects (exec w' e) = e_selects (exec w e)) →
  tasks_only w g w' g.
Proof.
  intros Ht Hm Hn Hc Hw Hcnt Hs. split; try done.
  - intros t k c s. rewrite Ht. eauto.
  - intros t ctx. by rewrite Ht.
  - intros t k ctx _ _. unfold owner. by rewrite Ht.
Qed.
Lemma tasks_only_trans w g w1 g1 w2 g2 : tasks_only w g w1 g1 → tasks_only w1 g1 w2 g2 → tasks_only w g w2 g2.
Proof.
  intros H1 H2. split.
  - by rewrite (to_memory _ _ _ _ H2), (to_memory _ _ _ _ H1).
  - by rewrite (to_next _ _ _ _ H2), (to_next _ _ _ _ H1).
  - by rewrite (to_channels _ _ _ _ H2), (to_channels _ _ _ _ H1).
  - by rewrite (to_waits _ _ _ _ H2), (to_waits _ _ _ _ H1).
  - by rewrite (to_count _ _ _ _ H2), (to_count _ _ _ _ H1).
  - by rewrite (to_gq _ _ _ _ H2), (to_gq _ _ _ _ H1).
  - intros e. by rewrite (to_selects _ _ _ _ H2), (to_selects _ _ _ _ H1).
  - intros t c s. by rewrite (to_waiting _ _ _ _ H2), (to_waiting _ _ _ _ H1).
  - intros t wait. by rewrite (to_selecting _ _ _ _ H2), (to_selecting _ _ _ _ H1).
  - intros t Hp. by apply (to_popped _ _ _ _ H1), (to_popped _ _ _ _ H2).
  - intros t k c s Hk Hu. destruct (to_uses _ _ _ _ H2 _ _ _ _ Hk Hu) as (k1 & Hk1 & Hu1 & E).
    destruct (to_uses _ _ _ _ H1 _ _ _ _ Hk1 Hu1) as (k0 & Hk0 & Hu0 & E0). exists k0. by rewrite E, E0.
  - intros t ctx. by rewrite (to_select _ _ _ _ H1), (to_select _ _ _ _ H2).
  - intros t k ctx Hk Hsel. destruct (proj1 (to_select _ _ _ _ H1 t ctx)) as (k1 & Hk1 & Hsel1); [eauto|].
    by rewrite (to_owner _ _ _ _ H2 t k1 ctx Hk1 Hsel1), (to_owner _ _ _ _ H1 t k ctx Hk Hsel).
Qed.

(** [fdn_task_wake_waiter] on the tasks and the executor: the waiter is queued. *)
Lemma task_inv_unjoin w g w' here t previous k u ku :
  task_inv w g → e_current (exec w here) = t :: previous → w_tasks w !! t = Some k → phase g t = Some Running →
  waiter k = Some u → w_tasks w !! u = Some ku →
  w_tasks w' = <[u := set_queued true (set_waiting_on None ku)]> (<[t := set_waiter None k]> (w_tasks w)) →
  w_homes w' = w_homes w → w_notified w' = w_notified w →
  (∀ e, exec w' e = if decide (e = here) then mkExecutor (e_queue (exec w here) ++ [u]) (e_current (exec w here))
     (e_mailbox (exec w here)) (e_selects (exec w here)) (e_timer (exec w here)) else exec w e) →
  task_inv w' (set_phase u Queued g).
Proof.
  intros H Hc Hk Hp Hw Hu Ht Hhomes Hnot Hx. pose proof (ti_waiter _ _ H _ _ _ Hk Hw) as Hj.
  assert (Htu : t ≠ u) by (intros ->; congruence).
  assert (owner w t = Some here) as Hot by (apply (ti_current _ _ H); rewrite Hc; left).
  assert (owner w u = Some here) as Hou.
  { destruct (ti_join _ _ H _ _ Hj) as (k1 & Hk1 & _ & _ & <-). rewrite Hk in Hk1. injection Hk1 as <-. unfold owner in Hot. by rewrite Hk in Hot. }
  assert (Hlk : ∀ v, w_tasks w' !! v = if decide (v = u) then Some (set_queued true (set_waiting_on None ku)) else
    if decide (v = t) then Some (set_waiter None k) else w_tasks w !! v).
  { intros v. rewrite Ht. destruct (decide (v = u)) as [->|]; [by rewrite lookup_insert_eq|]. rewrite lookup_insert_ne by done.
    destruct (decide (v = t)) as [->|]; [by rewrite lookup_insert_eq|by rewrite lookup_insert_ne]. }
  assert (Ho : ∀ v, owner w' v = owner w v).
  { intros v. unfold owner. rewrite Hlk. destruct (decide (v = u)) as [->|]; [by rewrite Hu|].
    destruct (decide (v = t)) as [->|]; [by rewrite Hk|done]. }
  assert (Hcur : ∀ e, e_current (exec w' e) = e_current (exec w e)) by (intros e; rewrite Hx; by destruct (decide _) as [->|]).
  assert (Hmail : ∀ e, e_mailbox (exec w' e) = e_mailbox (exec w e)) by (intros e; rewrite Hx; by destruct (decide _) as [->|]).
  assert (Hnc : ∀ e, u ∉ e_current (exec w e)).
  { intros e Hin. destruct (ti_current _ _ H _ _ Hin) as (Heo & _). assert (e = here) as -> by congruence. rewrite Hc in Hin.
    apply elem_of_cons in Hin as [->|Hin]; [done|]. assert (phase g u = Some Running); [|congruence].
    apply (ti_interrupted _ _ H here). by rewrite Hc. }
  assert (Hq : ∀ e v, v ∈ e_queue (exec w' e) ↔ v ∈ e_queue (exec w e) ∨ (e = here ∧ v = u)).
  { intros e v. rewrite Hx. destruct (decide (e = here)) as [->|]; cbn [e_queue]; [|naive_solver].
    rewrite elem_of_app, list_elem_of_singleton. naive_solver. }
  split; try setoid_rewrite Hcur; try setoid_rewrite Hmail; try setoid_rewrite Ho; try setoid_rewrite Hq.
  - intros v. rewrite Hlk, phase_set. destruct (decide (v = u)) as [->|]; [done|]. destruct (decide (v = t)) as [->|]; [|apply H].
    by rewrite Hp.
  - intros v kv p. rewrite Hlk, phase_set. destruct (decide (v = u)) as [->|].
    { intros [= <-] [= <-]. destruct (ti_fields _ _ H _ _ _ Hu Hj) as [[(_ & F2 & F3 & _) _] F]. by split_and!. }
    destruct (decide (v = t)) as [->|]; [|apply H]. intros [= <-] Hpv. rewrite Hp in Hpv. injection Hpv as <-.
    by apply (ti_fields _ _ H t k Running).
  - intros e v. rewrite phase_set, (ti_queue _ _ H). destruct (decide (v = u)) as [->|]; naive_solver.
  - intros e. rewrite Hx. destruct (decide (e = here)) as [->|]; [|apply H]. apply NoDup_app. split; [apply H|].
    split; [|apply NoDup_singleton]. intros v Hv ->%list_elem_of_singleton. apply (ti_queue _ _ H) in Hv as [Hv _]. congruence.
  - intros e v. rewrite phase_set, (ti_mail _ _ H). destruct (decide (v = u)) as [->|]; [|done]. rewrite Hj. naive_solver.
  - apply H.
  - intros e v Hv. rewrite phase_set. destruct (decide (v = u)) as [->|]; [by apply Hnc in Hv|by apply (ti_current _ _ H)].
  - apply H.
  - intros e v Hv. pose proof (ti_interrupted _ _ H _ _ Hv) as Hr. rewrite phase_set, decide_False; [done|]. intros ->. congruence.
  - intros e v. rewrite phase_set. destruct (decide (v = u)) as [->|]; [done|]. apply (ti_running _ _ H).
  - intros v x. rewrite phase_set. destruct (decide (v = u)) as [->|]; [done|]. intros Hv.
    destruct (ti_join _ _ H _ _ Hv) as (kx & Hkx & Hwx & Hrx & Hex). rewrite Hlk. destruct (decide (x = u)) as [->|].
    { rewrite Hu in Hkx. injection Hkx as <-. by eexists. }
    destruct (decide (x = t)) as [->|]; [|by eauto]. rewrite Hk in Hkx. injection Hkx as <-. congruence.
  - intros x kx v. rewrite Hlk, phase_set. intros Hkx Hwx.
    assert (phase g v = Some (Joining x) ∧ x ≠ t) as [Hv Hxt].
    { destruct (decide (x = u)) as [->|]; [split; [|congruence]; injection Hkx as <-; by apply (ti_waiter _ _ H _ _ _ Hu)|].
      destruct (decide (x = t)) as [->|]; [by injection Hkx as <-|]. split; [by apply (ti_waiter _ _ H _ _ _ Hkx)|done]. }
    destruct (decide (v = u)) as [->|]; [|done]. congruence.
  - apply (homes_same w w'); [done..|apply (ti_home _ _ H)].
  - rewrite Hnot. apply (ti_notified _ _ H).
Qed.

(** The executor when its current task left. *)
Definition left_with (here : nat) (queue previous : list nat) w : Executor :=
  mkExecutor queue previous (e_mailbox (exec w here)) (e_selects (exec w here)) (e_timer (exec w here)).

(** The current task leaves for the queue or is done. *)
Lemma leave_switched w g w' here t previous p' queue :
  task_inv w g → e_current (exec w here) = t :: previous → phase g t = Some Running → p' ≠ Running →
  queue = (if decide (p' = Queued) then e_queue (exec w here) ++ [t] else e_queue (exec w here)) →
  (∀ e, exec w' e = if decide (e = here) then left_with here queue previous w else exec w e) →
  switched w g w' t p'.
Proof.
  intros H Hc Hp Hp' -> Hx. assert (owner w t = Some here) as Ho by (apply (ti_current _ _ H); rewrite Hc; left).
  pose proof (ti_current_once _ _ H here) as Hd. rewrite Hc in Hd. apply NoDup_cons in Hd as [Hn Hd].
  assert (Hnq : ∀ e, t ∉ e_queue (exec w e)) by (intros e [E _]%(ti_queue _ _ H); congruence).
  assert (Hce : ∀ e u, u ∈ e_current (exec w' e) → u ≠ t ∧ u ∈ e_current (exec w e) ∧ (e = here → u ∈ previous)).
  { intros e u. rewrite Hx. destruct (decide (e = here)) as [->|He]; cbn [left_with e_current].
    - intros Hu. split; [by intros ->|]. split; [|done]. rewrite Hc. by right.
    - intros Hu. split; [|done]. intros ->. destruct (ti_current _ _ H _ _ Hu) as [E _]. congruence. }
  split.
  - intros e u. rewrite Hx. destruct (decide (e = here)) as [->|He]; cbn [left_with e_queue].
    + destruct (decide (u = t)) as [->|Hu]; destruct (decide (p' = Queued)) as [->|Hq].
      * rewrite elem_of_app, list_elem_of_singleton. naive_solver.
      * specialize (Hnq here). naive_solver.
      * rewrite elem_of_app, list_elem_of_singleton. naive_solver.
      * done.
    + destruct (decide (u = t)) as [->|Hu]; [|done]. specialize (Hnq e). naive_solver.
  - intros e. rewrite Hx. destruct (decide (e = here)) as [->|He]; cbn [left_with e_queue]; [|apply H].
    destruct (decide (p' = Queued)); [|apply H]. apply NoDup_app. split; [apply H|]. split; [|apply NoDup_singleton].
    intros u Hu ->%list_elem_of_singleton. by apply Hnq in Hu.
  - intros e. rewrite Hx. by destruct (decide (e = here)) as [->|He].
  - intros e u (Hu & Hin & _)%Hce. by rewrite decide_False.
  - intros e. rewrite Hx. destruct (decide (e = here)) as [->|He]; [done|apply H].
  - intros e u Hu. assert (Htl : u ∈ e_current (exec w' e)) by (destruct (e_current (exec w' e)); [done|by right]).
    destruct (Hce _ _ Htl) as (Hne & _ & Hin). split; [done|]. rewrite Hx in Hu. destruct (decide (e = here)) as [->|He];
      [|by apply (ti_interrupted _ _ H e)]. apply (ti_interrupted _ _ H here). rewrite Hc. by apply Hin.
  - intros e u Hu. rewrite Hx. destruct (decide (e = here)) as [->|He]; [|done]. rewrite Hc. by intros [->|?]%elem_of_cons.
  - done.
Qed.

Lemma leave_free w g here t previous : task_inv w g → e_current (exec w here) = t :: previous →
  ∀ u, u ∈ previous → u ≠ t ∧ phase g u = Some Running.
Proof.
  intros H Hc u Hu. pose proof (ti_current_once _ _ H here) as Hd. rewrite Hc in Hd. apply NoDup_cons in Hd as [Hn _].
  split; [by intros ->|]. apply (ti_interrupted _ _ H here). by rewrite Hc.
Qed.

Definition finished_phase (result : bool) (p : option Phase) : option Phase :=
  if result then Some Finished else match p with Some Running => Some Queued | p => p end.
Definition finish_done (here : nat) w g (t : nat) (previous : list nat) (result : bool) w' : Prop :=
  ∃ g', inv w' g' ∧ free here w' g' ∧ w_memory w' = w_memory w ∧ e_current (exec w' here) = previous ∧
    phase g' t = finished_phase result (phase g t) ∧
    ∀ u, u ≠ t → phase g' u = if decide (result = true ∧ phase g u = Some (Joining t)) then Some Queued else phase g u.

Lemma run_pending_runs here w g t previous k :
  inv w g → e_current (exec w here) = t :: previous → w_tasks w !! t = Some k →
  runs (run_finish here false) w (λ _ w', finish_done here w g t previous false w').
Proof.
  intros Hinv Hc Hk. pose proof (core_task _ _ (inv_core _ _ Hinv)) as H. unfold run_finish. apply call_get_executor.
  rewrite Hc. apply call_set_executor. fold (left_with here (e_queue (exec w here)) previous w). set (w1 := with_executors _ w).
  assert (Hx1 : ∀ e, exec w1 e = if decide (e = here) then left_with here (e_queue (exec w here)) previous w else exec w e)
    by (intros e; apply exec_insert).
  apply (call_get_task _ k); [done|]. destruct (proj1 (ti_dom _ _ H t)) as [p Hp]; [eauto|].
  destruct (ti_fields _ _ H _ _ _ Hk Hp) as [Hf _]. pose proof (leave_free _ _ _ _ _ H Hc) as Hprev.
  assert (Hsame : ∀ u : nat, phase g u = if decide (false = true ∧ phase g u = Some (Joining t)) then Some Queued else phase g u).
  { intros u. by rewrite decide_False by (by intros []). }
  destruct (decide (p = Running)) as [->|Hr].
  - destruct Hf as (F1 & F2 & F3 & F4). rewrite F3, F4. cbn [is_some negb andb].
    apply (enqueue_runs here w1 t k); [done..|]. rewrite Hx1, decide_True by done. cbn [left_with e_queue e_current e_mailbox e_selects e_timer].
    set (w' := with_executors _ _).
    assert (Hx : ∀ e, exec w' e = if decide (e = here) then left_with here (e_queue (exec w here) ++ [t]) previous w else exec w e).
    { intros e. unfold w'. rewrite exec_insert. destruct (decide (e = here)); [done|].
      transitivity (exec w1 e); [done|]. by rewrite Hx1, decide_False. }
    exists (set_phase t Queued g). split; [|split; [|split; [done|split; [by rewrite Hx, decide_True|]]]].
    + eapply (inv_tasks w g); [done| |].
      * eapply (task_inv_switch w g w' t k (set_queued true k) Running Queued); try done. by apply (leave_switched w g w' here t previous Queued (e_queue (exec w here) ++ [t]) H Hc).
      * eapply (one_task w g w' t k (set_queued true k) Running Queued); try done; [|by intros []..].
        intros e. rewrite Hx. by destruct (decide _) as [->|].
    + intros u. rewrite Hx, decide_True by done. intros Hu. rewrite phase_set. destruct (Hprev u Hu). by rewrite decide_False.
    + rewrite phase_set, decide_True, Hp by done. split; [done|]. intros u Hu. rewrite phase_set, decide_False by done. apply Hsame.
  - assert (negb (is_some (waiting_on k)) && negb (is_some (cancel_wait k)) = false) as ->.
    { pose proof (inv_settled _ _ Hinv t) as Hset. pose proof (ti_current _ _ H here t) as Hct. rewrite Hc in Hct.
      destruct Hct as (_ & Hnq & Hnf); [left|]. destruct p; try congruence; cbn in Hf.
      - rewrite (pf_cancel _ _ _ _ Hf). apply andb_false_r.
      - destruct Hf as [ctx Hf]. rewrite (pf_cancel _ _ _ _ Hf). apply andb_false_r.
      - destruct (parked_wakeable _ Hf) as (E & _). rewrite E. apply andb_false_r.
      - destruct Hf as [(_ & _ & _ & E) _]. by rewrite E. }
    apply call_ret. exists g. split; [|split; [|split; [done|split; [by rewrite Hx1, decide_True|]]]].
    + eapply (inv_tasks w g); [done| |].
      * eapply (task_inv_leave w g w1 here t previous); try done. congruence.
      * apply tasks_only_same; try done. intros e. rewrite Hx1. by destruct (decide _) as [->|].
    + intros u. rewrite Hx1, decide_True by done. apply Hprev.
    + split; [|intros u _; apply Hsame]. rewrite Hp. by destruct p.
Qed.

Lemma set_phase_comm t p u q g : t ≠ u → set_phase t p (set_phase u q g) = set_phase u q (set_phase t p g).
Proof. intros Hne. unfold set_phase. cbn. f_equal. by apply insert_insert_ne. Qed.

Lemma ready_only w g w' here t previous k k' :
  inv w g → e_current (exec w here) = t :: previous → w_tasks w !! t = Some k → phase g t = Some Running →
  k' = set_ready k → w_tasks w' = <[t := k']> (w_tasks w) → w_memory w' = w_memory w → w_wait_next w' = w_wait_next w →
  w_channels w' = w_channels w → w_waits w' = w_waits w → w_channel_count w' = w_channel_count w →
  (∀ e, e_selects (exec w' e) = e_selects (exec w e)) → tasks_only w g w' (set_phase t Finished g).
Proof.
  intros Hinv Hc Hk Hp -> Ht Hm Hn Hch Hw Hcnt Hs. pose proof (core_task _ _ (inv_core _ _ Hinv)) as H.
  destruct (running_task_fields _ _ _ _ H Hk Hp) as (F1 & F2 & F3 & F4).
  by eapply (one_task w g w' t k (set_ready k) Running Finished); try done; intros [].
Qed.

Lemma run_ready_runs here w g t previous k :
  inv w g → e_current (exec w here) = t :: previous → w_tasks w !! t = Some k → phase g t = Some Running → wake_ready k = false →
  runs (run_finish here true) w (λ _ w', finish_done here w g t previous true w').
Proof.
  intros Hinv Hc Hk Hp Hwr. pose proof (core_task _ _ (inv_core _ _ Hinv)) as H. unfold run_finish. apply call_get_executor.
  rewrite Hc. apply call_set_executor. fold (left_with here (e_queue (exec w here)) previous w). set (w1 := with_executors _ w).
  assert (Hx1 : ∀ e, exec w1 e = if decide (e = here) then left_with here (e_queue (exec w here)) previous w else exec w e)
    by (intros e; apply exec_insert).
  apply (call_get_task _ k); [done|]. destruct (running_task_fields _ _ _ _ H Hk Hp) as (F1 & F2 & F3 & F4).
  rewrite F4. cbn [is_some]. apply call_set_task. set (w2 := with_tasks _ w1). unfold wake_waiter.
  apply (call_get_task _ (set_ready k)); [by apply lookup_insert_eq|]. change (waiter (set_ready k)) with (waiter k).
  pose proof (leave_free _ _ _ _ _ H Hc) as Hprev. destruct (waiter k) as [u|] eqn:Ew; cycle 1.
  - apply call_ret. exists (set_phase t Finished g).
    assert (Hx : ∀ e, exec w2 e = if decide (e = here) then left_with here (e_queue (exec w here)) previous w else exec w e)
      by (intros e; apply Hx1).
    split; [|split; [|split; [done|split; [by rewrite Hx, decide_True|split]]]].
    + eapply (inv_tasks w g); [done| |].
      * eapply (task_inv_switch w g w2 t k (set_ready k) Running Finished); try done.
        -- intros u. by rewrite Ew.
        -- by apply (leave_switched w g w2 here t previous Finished (e_queue (exec w here)) H Hc).
      * eapply (ready_only w g w2 here); try done. intros e. rewrite Hx. by destruct (decide _) as [->|].
    + intros u. rewrite Hx, decide_True by done. intros Hu. rewrite phase_set. destruct (Hprev u Hu). by rewrite decide_False.
    + by rewrite phase_set, decide_True.
    + intros u Hu. rewrite phase_set, decide_False by done. rewrite decide_False; [done|]. intros [_ Hj].
      destruct (ti_join _ _ H _ _ Hj) as (k1 & Hk1 & E & _). congruence.
  - pose proof (ti_waiter _ _ H _ _ _ Hk Ew) as Hj. assert (Hut : u ≠ t) by (intros ->; congruence).
    destruct (proj2 (ti_dom _ _ H u)) as [ku Hku]; [eauto|].
    destruct (ti_fields _ _ H _ _ _ Hku Hj) as [[(G1 & G2 & G3 & G4) G5] _].
    assert (Hk2 : ∀ k1, <[t := k1]> (w_tasks w) !! u = Some ku) by (intros k1; by rewrite lookup_insert_ne).
    apply (call_get_task _ ku); [apply Hk2|]. rewrite bool_decide_false by (intros E; by rewrite G4 in E). apply call_set_task.
    eapply call_get_task; [cbn; rewrite lookup_insert_ne by done; apply Hk2|]. apply call_set_task.
    eapply enqueue_runs; [cbn; apply lookup_insert_eq|done|done|].
    set (w' := with_executors _ _). set (k' := set_waiter None (set_ready k)).
    set (ku' := set_queued true (set_waiting_on None ku)).
    assert (Htasks : w_tasks w' = <[u := ku']> (<[t := k']> (w_tasks w))) by (cbn; by rewrite !insert_insert_eq).
    assert (Hx : ∀ e, exec w' e = if decide (e = here) then left_with here (e_queue (exec w here) ++ [u]) previous w else exec w e).
    { intros e. unfold w'. rewrite exec_insert. destruct (decide (e = here)) as [->|].
      - change (exec (with_tasks _ _) here) with (exec w1 here). by rewrite Hx1, decide_True.
      - transitivity (exec w1 e); [done|]. by rewrite Hx1, decide_False. }
    set (wa := with_executors (insert here (mkExecutor (e_queue (exec w here) ++ [u]) (e_current (exec w here))
      (e_mailbox (exec w here)) (e_selects (exec w here)) (e_timer (exec w here)))) (with_tasks
      (λ _, <[u := ku']> (<[t := set_waiter None k]> (w_tasks w))) w)).
    assert (Hxa : ∀ e, exec wa e = if decide (e = here) then mkExecutor (e_queue (exec w here) ++ [u]) (e_current (exec w here))
      (e_mailbox (exec w here)) (e_selects (exec w here)) (e_timer (exec w here)) else exec w e)
      by (intros e; unfold wa; by rewrite exec_insert).
    assert (Hta : task_inv wa (set_phase u Queued g)) by by eapply (task_inv_unjoin w g wa here t previous k u ku).
    exists (set_phase t Finished (set_phase u Queued g)).
    split; [|split; [|split; [done|split; [by rewrite Hx, decide_True|split]]]].
    + eapply (inv_tasks w g); [done| |].
      * eapply (task_inv_switch wa (set_phase u Queued g) w' t (set_waiter None k) k' Running Finished); try done.
        -- cbn. rewrite lookup_insert_ne by done. apply lookup_insert_eq.
        -- by rewrite phase_set, decide_False.
        -- rewrite Htasks. cbn. rewrite (insert_insert_ne _ t u) by done. by rewrite insert_insert_eq.
        -- apply (leave_switched wa (set_phase u Queued g) w' here t previous Finished (e_queue (exec wa here))); try done.
           ++ by rewrite Hxa, decide_True.
           ++ by rewrite phase_set, decide_False.
           ++ intros e. rewrite Hx. unfold left_with. rewrite !Hxa, (decide_True _ _ (eq_refl here)).
              by destruct (decide (e = here)).
      * rewrite set_phase_comm by done.
        set (wb := with_tasks (insert t k') w). apply (tasks_only_trans w g wb (set_phase t Finished g)).
        -- apply (one_task w g wb t k k' Running Finished); try done; intros [].
        -- apply (one_task wb (set_phase t Finished g) w' u ku ku' (Joining t) Queued); try done.
           ++ cbn. by rewrite lookup_insert_ne.
           ++ by rewrite phase_set, decide_False.
           ++ intros e. rewrite Hx. by destruct (decide (e = here)) as [->|].
           ++ by intros [].
           ++ by intros [].
    + intros v. rewrite Hx, decide_True by done. intros Hv. destruct (Hprev v Hv) as [Hvt Hvp].
      rewrite !phase_set, decide_False, decide_False; [done| |done]. intros ->. congruence.
    + by rewrite phase_set, decide_True.
    + intros v Hv. rewrite !phase_set, decide_False by done. destruct (decide (v = u)) as [->|Hvu]; [by rewrite decide_True|].
      rewrite decide_False; [done|]. intros [_ Hjv]. destruct (ti_join _ _ H _ _ Hjv) as (k1 & Hk1 & E & _). congruence.
Qed.

(** ** [fdn_task_spawn] and [fdn_task_release] *)

Definition new_task (here : nat) : Task :=
  mkTask None None None None None 0 None 0 0 (Some here) false false true false.

(** Only variables of threads change. *)
Record rehomed w w' : Prop := mkRehomed {
  rh_memory : w_memory w' = w_memory w;
  rh_tasks : w_tasks w' = w_tasks w;
  rh_next : w_wait_next w' = w_wait_next w;
  rh_channels : w_channels w' = w_channels w;
  rh_waits : w_waits w' = w_waits w;
  rh_count : w_channel_count w' = w_channel_count w;
  rh_exec : ∀ e, exec w' e = exec w e;
  rh_notified : ∀ e, e_mailbox (exec w e) ≠ [] → e ∈ w_notified w → e ∈ w_notified w';
}.
Lemma home_insert w e h e' : home (with_homes (insert e h) w) e' = if decide (e' = e) then h else home w e'.
Proof. unfold home. cbn. destruct (decide (e' = e)) as [->|]; [by rewrite lookup_insert_eq|by rewrite lookup_insert_ne]. Qed.

Lemma executor_open_runs here w (Q : nat → World V → Prop) :
  home_ok w here → (live w here = 0 → e_mailbox (exec w here) = []) →
  (∀ w1, rehomed w w1 →
     (∀ e, home w1 e = if decide (e = here) then openHome here (N.of_nat (live w here)) else home w e) → Q here w1) →
  runs (executor_open here) w Q.
Proof.
  intros [Hh _] Hmail HQ. unfold executor_open. apply call_bind, call_get_home, call_ret. rewrite Hh. unfold home_of in *.
  destruct (decide (live w here = 0)) as [El|El]; cbn [openHome closedHome h_executor is_some].
  - rewrite El in HQ. specialize (Hmail El). apply call_get_executor, call_set_executor, call_get_home, call_set_home.
    set (w1 := with_executors _ w). assert (Hw1 : home w1 here = closedHome) by exact Hh.
    apply call_bind. unfold external_source_open. apply call_get_home. rewrite home_insert, decide_True, Hw1 by done.
    cbn [h_hub h_count h_executor h_source closedHome default]. apply call_bind, call_modify_end, call_set_home, call_get_home.
    rewrite home_insert, decide_True by done. cbn [h_hub h_count h_executor]. apply call_set_home, call_ret, call_get_home.
    rewrite home_insert, decide_True by done. cbn [h_hub h_count h_source]. apply call_set_home, call_ret, HQ.
    + split; try done.
      * intros e. etrans; [apply (exec_insert w here)|]. destruct (decide (e = here)) as [->|]; [|done].
        rewrite <- Hmail. by destruct (exec w here).
      * intros e He Hin. change (e ∈ w_notified w ∖ {[here]}). apply elem_of_difference. split; [done|].
        intros ->%elem_of_singleton. done.
    + intros e. rewrite !home_insert. destruct (decide (e = here)); [done|]. etrans; [apply (home_insert _ here)|].
      by rewrite decide_False.
  - apply call_ret, HQ; [done|]. intros e. destruct (decide (e = here)) as [->|]; [done|done].
Qed.

Lemma close_if_idle_runs here n w (Q : unit → World V → Prop) :
  home w here = openHome here n → (n = 0%N → e_mailbox (exec w here) = []) →
  (∀ w1, rehomed w w1 →
     (∀ e, home w1 e = if decide (e = here) then if decide (n = 0%N) then closedHome else openHome here n else home w e) → Q tt w1) →
  runs (executor_close_if_idle here) w Q.
Proof.
  intros Hh Hmail HQ. unfold executor_close_if_idle. apply call_get_home. rewrite Hh. cbn [openHome h_executor h_count].
  destruct (decide (n = 0%N)) as [->|Hn].
  - rewrite bool_decide_false by (intros E; by apply E). apply call_get_executor. rewrite Hmail by done.
    rewrite bool_decide_false by (intros E; by apply E). apply call_bind. unfold external_source_close.
    apply call_get_home. rewrite Hh. cbn [openHome h_source]. apply call_get_home. rewrite Hh.
    cbn [openHome h_hub is_some negb orb default take_out]. rewrite bool_decide_false by (intros E; by apply E).
    assert (take_out here (id [here]) = Some []) as -> by (cbn; by rewrite bool_decide_true).
    cbn [openHome h_count h_executor h_source]. rewrite bool_decide_true by done. apply call_set_home, call_get_home.
    rewrite home_insert, decide_True by done. cbn [h_hub h_count h_executor h_source]. apply call_modify_end, call_get_home.
    rewrite home_insert, decide_True by done. cbn [h_hub h_count h_executor h_source]. apply call_modify_end, HQ; [done|].
    intros e. rewrite !home_insert. by destruct (decide (e = here)).
  - rewrite bool_decide_true by done. apply call_ret, HQ; [done|]. intros e. by destruct (decide (e = here)) as [->|].
Qed.

Lemma task_inv_spawn w g w' here a :
  task_inv w g → w_tasks w !! a = None → w_tasks w' = <[a := new_task here]> (w_tasks w) →
  (∀ e, home w' e = if decide (e = here) then openHome here (N.of_nat (S (live w here))) else home w e) →
  (N.of_nat (S (live w here)) <= SIZE_MAX)%N →
  (∀ e, e_mailbox (exec w e) ≠ [] → e ∈ w_notified w → e ∈ w_notified w') →
  (∀ e, exec w' e = if decide (e = here) then mkExecutor (e_queue (exec w here) ++ [a]) (e_current (exec w here))
     (e_mailbox (exec w here)) (e_selects (exec w here)) (e_timer (exec w here)) else exec w e) →
  task_inv w' (set_phase a Queued g).
Proof.
  intros H Ha Ht Hhomes Hmax Hnot Hx. assert (Hp : phase g a = None) by (apply eq_None_not_Some; rewrite <- (ti_dom _ _ H), Ha; by intros []).
  assert (Hlk : ∀ v, w_tasks w' !! v = if decide (v = a) then Some (new_task here) else w_tasks w !! v).
  { intros v. rewrite Ht. destruct (decide (v = a)) as [->|]; [by rewrite lookup_insert_eq|by rewrite lookup_insert_ne]. }
  assert (Ho : ∀ v, owner w' v = if decide (v = a) then Some here else owner w v).
  { intros v. unfold owner. rewrite Hlk. by destruct (decide (v = a)). }
  assert (Hcur : ∀ e, e_current (exec w' e) = e_current (exec w e)) by (intros e; rewrite Hx; by destruct (decide _) as [->|]).
  assert (Hmail : ∀ e, e_mailbox (exec w' e) = e_mailbox (exec w e)) by (intros e; rewrite Hx; by destruct (decide _) as [->|]).
  assert (Hq : ∀ e v, v ∈ e_queue (exec w' e) ↔ v ∈ e_queue (exec w e) ∨ (e = here ∧ v = a)).
  { intros e v. rewrite Hx. destruct (decide (e = here)) as [->|]; cbn [e_queue]; [|naive_solver].
    rewrite elem_of_app, list_elem_of_singleton. naive_solver. }
  assert (Hoa : owner w a = None) by (unfold owner; by rewrite Ha).
  split; try setoid_rewrite Hcur; try setoid_rewrite Hmail; try setoid_rewrite Hq.
  - intros v. rewrite Hlk, phase_set. destruct (decide (v = a)); [done|apply H].
  - intros v kv p. rewrite Hlk, phase_set. destruct (decide (v = a)); [|apply H]. intros [= <-] [= <-]. by split_and!.
  - intros e v. rewrite phase_set, (ti_queue _ _ H), Ho. destruct (decide (v = a)) as [->|]; naive_solver.
  - intros e. rewrite Hx. destruct (decide (e = here)) as [->|]; [|apply H]. apply NoDup_app. split; [apply H|].
    split; [|apply NoDup_singleton]. intros v Hv ->%list_elem_of_singleton. apply (ti_queue _ _ H) in Hv as [Hv _]. congruence.
  - intros e v. rewrite phase_set, (ti_mail _ _ H), Ho. destruct (decide (v = a)) as [->|]; naive_solver.
  - apply H.
  - intros e v Hv. pose proof (ti_current _ _ H _ _ Hv). rewrite phase_set, Ho. destruct (decide (v = a)) as [->|]; naive_solver.
  - apply H.
  - intros e v Hv. pose proof (ti_interrupted _ _ H _ _ Hv) as Hr. rewrite phase_set, decide_False; [done|]. intros ->. congruence.
  - intros e v. rewrite phase_set, Ho. destruct (decide (v = a)) as [->|]; [done|]. apply (ti_running _ _ H).
  - intros v x. rewrite phase_set. destruct (decide (v = a)) as [->|]; [done|]. intros Hv.
    destruct (ti_join _ _ H _ _ Hv) as (kx & Hkx & Hwx & Hrx & Hex). exists kx. rewrite Hlk, Ho, decide_False by congruence.
    by rewrite decide_False.
  - intros x kx v. rewrite Hlk, phase_set. destruct (decide (x = a)) as [->|]; [by intros [= <-]|]. intros Hkx Hwx.
    pose proof (ti_waiter _ _ H _ _ _ Hkx Hwx) as Hv. rewrite decide_False; [done|]. intros ->. congruence.
  - intros e. unfold home_ok. rewrite Hhomes, (live_more w w' a here e Hoa Ho).
    destruct (decide (e = here)) as [->|]; [done|apply (ti_home _ _ H)].
  - intros e He. apply Hnot; [done|by apply (ti_notified _ _ H)].
Qed.

(** A thread without tasks has no mail. *)
Lemma no_mail w g e : task_inv w g → live w e = 0 → e_mailbox (exec w e) = [].
Proof.
  intros H Hl. destruct (e_mailbox (exec w e)) as [|[t status] mail] eqn:Em; [done|].
  assert (t ∈ (e_mailbox (exec w e)).*1) as Hin%(ti_mail _ _ H) by (rewrite Em; left). by destruct (live_task w t e (proj2 Hin)).
Qed.

Lemma spawn_runs here w g a :
  inv w g → free here w g → w_tasks w !! a = None → (h_count (home w here) < SIZE_MAX)%N →
  runs (spawn here a) w (λ r w', r = a ∧ inv w' (set_phase a Queued g) ∧ free here w' (set_phase a Queued g) ∧
    w_memory w' = w_memory w ∧ e_current (exec w' here) = e_current (exec w here)).
Proof.
  intros Hinv Hfree Ha Hroom. pose proof (core_task _ _ (inv_core _ _ Hinv)) as H.
  assert (Hp : phase g a = None) by (apply eq_None_not_Some; rewrite <- (ti_dom _ _ H), Ha; by intros []).
  assert (Hcount : h_count (home w here) = N.of_nat (live w here)).
  { destruct (ti_home _ _ H here) as [-> _]. unfold home_of. by destruct (decide _) as [->|]. }
  rewrite Hcount in Hroom. unfold spawn. apply call_bind, executor_open_runs; [apply (ti_home _ _ H)|by apply (no_mail w g)|].
  intros w1 [R1 R2 R3 R4 R5 R6 R7 R8] Hh1. apply call_set_task, call_bind. unfold count_task. apply call_get_home, call_modify_end.
  change (home (with_tasks _ w1) here) with (home w1 here). rewrite Hh1, decide_True by done.
  cbn [openHome h_count h_executor h_source h_hub]. rewrite count_up by done.
  apply call_bind. eapply enqueue_runs; [cbn; apply lookup_insert_eq|done|done|]. apply call_ret.
  set (w' := with_executors _ _).
  assert (Hx : ∀ e, exec w' e = if decide (e = here) then mkExecutor (e_queue (exec w here) ++ [a]) (e_current (exec w here))
     (e_mailbox (exec w here)) (e_selects (exec w here)) (e_timer (exec w here)) else exec w e).
  { intros e. unfold w'. rewrite exec_insert. destruct (decide _); [|apply R7]. by rewrite <- (R7 here). }
  assert (Htasks : w_tasks w' = <[a := new_task here]> (w_tasks w)) by (cbn; by rewrite insert_insert_eq, R2).
  assert (Hhomes : ∀ e, home w' e = if decide (e = here) then openHome here (N.of_nat (S (live w here))) else home w e).
  { intros e. change (home w' e) with (home (with_homes (insert here (mkHome (N.of_nat (live w here) + 1) (Some (Some here))
      (Some (Some here)) (Some [here]))) w1) e). rewrite home_insert, Hh1. destruct (decide (e = here)); [|done].
    unfold openHome. f_equal. lia. }
  assert (Hlk : ∀ v, v ≠ a → w_tasks w' !! v = w_tasks w !! v) by (intros v Hv; by rewrite Htasks, lookup_insert_ne).
  split; [done|]. split; [|split; [|split; [done|by rewrite Hx, decide_True]]].
  - eapply (inv_tasks w g); [done|apply (task_inv_spawn w g w' here a); try done; lia|]. split; try done.
    + intros e. rewrite Hx. by destruct (decide _) as [->|].
    + intros t c s. rewrite phase_set. destruct (decide (t = a)) as [->|]; [by rewrite Hp|done].
    + intros t wait. rewrite phase_set. destruct (decide (t = a)) as [->|]; [by rewrite Hp|done].
    + intros t. rewrite phase_set. by destruct (decide (t = a)).
    + intros t k c s. destruct (decide (t = a)) as [->|Ht]; [|rewrite Hlk by done; eauto]. rewrite Htasks, lookup_insert_eq.
      intros [= <-] (E & _). done.
    + intros t ctx. destruct (decide (t = a)) as [->|Ht]; [|by rewrite Hlk]. rewrite Ha, Htasks, lookup_insert_eq.
      split; [by intros (? & ? & _)|]. by intros (k & [= <-] & [(E & _)|(_ & E & _)]).
    + intros t k ctx Hk _. unfold owner. rewrite Hlk; [done|congruence].
  - intros u. rewrite Hx, decide_True by done. cbn [e_current]. intros Hu. pose proof (Hfree u Hu). rewrite phase_set, decide_False;
      [done|congruence].
Qed.

(** Without the task [t]. *)
Definition forget (t : nat) g : Ghost := mkGhost (delete t (g_phase g)) (g_queue g).
Lemma phase_forget t g u : phase (forget t g) u = if decide (u = t) then None else phase g u.
Proof. unfold phase, forget. cbn. destruct (decide (u = t)) as [->|]; [by rewrite lookup_delete_eq|by rewrite lookup_delete_ne]. Qed.

(** A task that is done waits for nothing and nobody waits for it. *)
Lemma finished_task w g t k : task_inv w g → w_tasks w !! t = Some k → phase g t = Some Finished →
  ready k = true ∧ waiter k = None ∧ waiting_on k = None ∧ cancel_wait k = None ∧ wake_ready k = false.
Proof.
  intros H Hk Hp. destruct (ti_fields _ _ H _ _ _ Hk Hp) as [[(F1 & F2 & F3 & F4) F5] _]. split_and!; try done.
  destruct (waiter k) as [u|] eqn:E; [|done]. pose proof (ti_waiter _ _ H _ _ _ Hk E) as Hj.
  destruct (ti_join _ _ H _ _ Hj) as (k1 & Hk1 & _ & Hr & _). congruence.
Qed.

(** The thread's variables when one of its tasks is gone. *)
Lemma homes_less w w' t here :
  (∀ e, home_ok w e) → owner w t = Some here → (∀ v, owner w' v = if decide (v = t) then None else owner w v) →
  (∀ e, home w' e = if decide (e = here) then home_of here (live w here - 1) else home w e) → ∀ e, home_ok w' e.
Proof.
  intros H Ht Ho Hh e. assert (Hback : live w e = if decide (e = here) then S (live w' e) else live w' e).
  { apply (live_more w' w t here e); [by rewrite Ho, decide_True|]. intros v. rewrite Ho. by destruct (decide (v = t)) as [->|]. }
  destruct (H e) as [He Hm]. unfold home_ok. rewrite Hh. destruct (decide (e = here)) as [->|].
  - rewrite Hback, Nat.sub_succ, Nat.sub_0_r. split; [done|]. rewrite Hback in Hm. lia.
  - rewrite <- Hback. done.
Qed.

Lemma release_runs here w g t k :
  inv w g → free here w g → w_tasks w !! t = Some k → phase g t = Some Finished → executor k = Some here →
  runs (release here t) w (λ _ w', inv w' (forget t g) ∧ free here w' (forget t g) ∧ w_memory w' = w_memory w ∧
    (∀ e, e_current (exec w' e) = e_current (exec w e)) ∧ w_tasks w' = delete t (w_tasks w)).
Proof.
  intros Hinv Hfree Hk Hp Hex. pose proof Hinv as [[H Hq Hs] _ _ _]. destruct (finished_task _ _ _ _ H Hk Hp) as (F1 & F2 & F3 & F4 & F5).
  assert (Hot : owner w t = Some here) by (unfold owner; by rewrite Hk).
  unfold release. apply (call_get_task _ k); [done|]. apply call_get.
  rewrite F1, F2, F3, F4, F5, (qi_next _ _ Hq) by (intros c s; congruence). cbn [negb is_some orb]. apply call_modify.
  set (w1 := with_tasks _ w). pose proof (home_open w t here (ti_home _ _ H) Hot) as Hh. pose proof (live_task w t here Hot) as Hl.
  apply call_bind. unfold count_task. apply call_get_home, call_modify_end. change (home w1 here) with (home w here). rewrite Hh.
  cbn [openHome h_count h_executor h_source h_hub]. rewrite count_down by (try lia; apply (ti_home _ _ H)).
  set (n := (N.of_nat (live w here) - 1)%N). set (w2 := with_homes _ w1).
  assert (Ho1 : ∀ v, owner w1 v = if decide (v = t) then None else owner w v).
  { intros v. unfold owner. cbn. destruct (decide (v = t)) as [->|]; [by rewrite lookup_delete_eq|by rewrite lookup_delete_ne]. }
  apply (close_if_idle_runs here n).
  { unfold w2. by rewrite home_insert, decide_True. }
  { intros Hn. change (exec w2 here) with (exec w here). destruct (e_mailbox (exec w here)) as [|[u status] mail] eqn:Em; [done|].
    assert (u ∈ (e_mailbox (exec w here)).*1) as [Hpu Hou]%(ti_mail _ _ H) by (rewrite Em; left).
    assert (live w1 here = 0) as E0.
    { assert (live w here = S (live w1 here)) as E; [|lia]. rewrite (live_more w1 w t here here), decide_True; [done|done|by rewrite Ho1, decide_True|].
      intros v. rewrite Ho1. by destruct (decide (v = t)) as [->|]. }
    destruct (live_task w1 u here); [|done]. rewrite Ho1, decide_False; [done|congruence]. }
  intros w' [R1 R2 R3 R4 R5 R6 R7 R8] Hh'.
  assert (Hlk : ∀ v, w_tasks w' !! v = if decide (v = t) then None else w_tasks w !! v).
  { intros v. rewrite R2. cbn. destruct (decide (v = t)) as [->|]; [by rewrite lookup_delete_eq|by rewrite lookup_delete_ne]. }
  assert (Ho : ∀ v, owner w' v = if decide (v = t) then None else owner w v).
  { intros v. unfold owner. rewrite Hlk. by destruct (decide (v = t)). }
  assert (Hx : ∀ e, exec w' e = exec w e) by exact R7.
  assert (Hhomes : ∀ e, home_ok w' e).
  { apply (homes_less w w' t here); [apply (ti_home _ _ H)|done|done|]. intros e. rewrite Hh'.
    destruct (decide (e = here)) as [->|He].
    - unfold home_of. subst n. destruct (decide (live w here - 1 = 0)); [by rewrite decide_True by lia|].
      rewrite decide_False by lia. f_equal. lia.
    - unfold w2. by rewrite home_insert, decide_False. }
  assert (Hnc : ∀ e, t ∉ e_current (exec w e)) by (intros e (_ & _ & E)%(ti_current _ _ H); congruence).
  assert (Hfr : free here w' (forget t g)).
  { intros u. rewrite Hx. intros Hu. rewrite phase_forget, decide_False; [by apply Hfree|]. intros ->. by apply Hnc in Hu. }
  split; [|split_and!; try done; intros e; by rewrite Hx]. apply (inv_tasks w g); [done| |].
  - split; try setoid_rewrite Hx; [..|exact Hhomes|intros e He; by apply R8; [|apply (ti_notified _ _ H)]].
    + intros v. rewrite Hlk, phase_forget. destruct (decide (v = t)); [|apply H]. split; by intros [].
    + intros v kv p. rewrite Hlk, phase_forget. destruct (decide (v = t)); [done|apply H].
    + intros e v. rewrite phase_forget, (ti_queue _ _ H), Ho. destruct (decide (v = t)) as [->|]; [|done]. rewrite Hp. naive_solver.
    + apply H.
    + intros e v. rewrite phase_forget, (ti_mail _ _ H), Ho. destruct (decide (v = t)) as [->|]; [|done]. rewrite Hp. naive_solver.
    + apply H.
    + intros e v Hv. rewrite phase_forget, Ho. destruct (decide (v = t)) as [->|]; [by apply Hnc in Hv|by apply (ti_current _ _ H)].
    + apply H.
    + intros e v Hv. pose proof (ti_interrupted _ _ H _ _ Hv). rewrite phase_forget, decide_False; [done|]. intros ->. congruence.
    + intros e v. rewrite phase_forget, Ho. destruct (decide (v = t)); [done|apply H].
    + intros v x. rewrite phase_forget. destruct (decide (v = t)) as [->|]; [done|]. intros Hv.
      destruct (ti_join _ _ H _ _ Hv) as (kx & Hkx & Hwx & Hrx & Hexx). exists kx. rewrite Hlk, Ho, decide_False by congruence.
      by rewrite decide_False.
    + intros x kx v. rewrite Hlk, phase_forget. destruct (decide (x = t)) as [->|]; [done|]. intros Hkx Hwx.
      pose proof (ti_waiter _ _ H _ _ _ Hkx Hwx) as Hv. rewrite decide_False; [done|]. intros ->. congruence.
  - split; try done.
    + intros e. by rewrite Hx.
    + intros v c s. rewrite phase_forget. destruct (decide (v = t)) as [->|]; [by rewrite Hp|done].
    + intros v wait. rewrite phase_forget. destruct (decide (v = t)) as [->|]; [by rewrite Hp|done].
    + intros v. rewrite phase_forget. by destruct (decide (v = t)).
    + intros v kv c s. rewrite Hlk. destruct (decide (v = t)); [done|eauto].
    + intros v ctx. rewrite Hlk. destruct (decide (v = t)) as [->|]; [|done]. split; [|by intros (? & ? & _)].
      intros (k1 & Hk1 & [(E & _)|(_ & E & _)]); rewrite Hk in Hk1; injection Hk1 as <-; congruence.
    + intros v kv ctx Hkv Hsel. rewrite Ho, decide_False; [done|]. intros ->. rewrite Hk in Hkv. injection Hkv as <-.
      destruct Hsel as [(E & _)|(_ & E & _)]; congruence.
Qed.

(** ** [fdn_task_poll_wait] *)

Lemma set_waiter_fields x k p : phase_fields k p → phase_fields (set_waiter x k) p.
Proof.
  destruct p; cbn; try done.
  - by intros [].
  - intros [ctx []]. by exists ctx.
  - intros [(c & s & [])|(ctx & [])]; [left; by exists c, s|right; by exists ctx].
  - intros [(c & s & [])|(ctx & [])]; [left; by exists c, s|right; by exists ctx].
Qed.

Lemma task_inv_join w g w' here t k u ku :
  task_inv w g → head (e_current (exec w here)) = Some t → w_tasks w !! t = Some k → phase g t = Some Running → wake_ready k = false →
  u ≠ t → w_tasks w !! u = Some ku → waiter ku = None → ready ku = false → executor ku = Some here →
  w_tasks w' = <[u := set_waiter (Some t) ku]> (<[t := set_waiting_on (Some u) k]> (w_tasks w)) →
  w_homes w' = w_homes w → w_notified w' = w_notified w → (∀ e, exec w' e = exec w e) → task_inv w' (set_phase t (Joining u) g).
Proof.
  intros H Hc Hk Hp Hwr Hut Hu Hw Hr Heu Ht Hhomes Hnot Hx. destruct (running_task_fields _ _ _ _ H Hk Hp) as (F1 & F2 & F3 & F4).
  assert (owner w t = Some here) as Hot by (apply (ti_current _ _ H); destruct (e_current _); [done|injection Hc as ->; left]).
  assert (Hlk : ∀ v, w_tasks w' !! v = if decide (v = u) then Some (set_waiter (Some t) ku) else
    if decide (v = t) then Some (set_waiting_on (Some u) k) else w_tasks w !! v).
  { intros v. rewrite Ht. destruct (decide (v = u)) as [->|]; [by rewrite lookup_insert_eq|]. rewrite lookup_insert_ne by done.
    destruct (decide (v = t)) as [->|]; [by rewrite lookup_insert_eq|by rewrite lookup_insert_ne]. }
  assert (Ho : ∀ v, owner w' v = owner w v).
  { intros v. unfold owner. rewrite Hlk. destruct (decide (v = u)) as [->|]; [by rewrite Hu|].
    destruct (decide (v = t)) as [->|]; [by rewrite Hk|done]. }
  assert (Htail : ∀ e, t ∉ tail (e_current (exec w e))).
  { intros e Hin. assert (t ∈ e_current (exec w e)) as Hin' by (destruct (e_current (exec w e)); [done|by right]).
    destruct (ti_current _ _ H _ _ Hin') as [E _]. assert (e = here) as -> by congruence.
    pose proof (ti_current_once _ _ H here) as Hd. destruct (e_current (exec w here)); [done|]. injection Hc as ->.
    by apply NoDup_cons in Hd as [? _]. }
  split; try setoid_rewrite Hx; try setoid_rewrite Ho.
  - intros v. rewrite Hlk, phase_set. destruct (decide (v = u)) as [->|].
    { rewrite decide_False by done. rewrite <- (ti_dom _ _ H), Hu. done. }
    destruct (decide (v = t)); [done|apply H].
  - intros v kv p. rewrite Hlk, phase_set. destruct (decide (v = u)) as [->|].
    { rewrite decide_False by done. intros [= <-] Hpu. destruct (ti_fields _ _ H u ku p Hu Hpu) as [Hf He]. split; [|done].
      by apply set_waiter_fields. }
    destruct (decide (v = t)) as [->|]; [|apply H]. intros [= <-] [= <-]. split; [by split_and!|]. apply (ti_fields _ _ H _ _ _ Hk Hp).
  - intros e v. rewrite phase_set, (ti_queue _ _ H). destruct (decide (v = t)) as [->|]; [|done]. rewrite Hp. naive_solver.
  - apply H.
  - intros e v. rewrite phase_set, (ti_mail _ _ H). destruct (decide (v = t)) as [->|]; [|done]. rewrite Hp. naive_solver.
  - apply H.
  - intros e v Hv. destruct (ti_current _ _ H _ _ Hv). rewrite phase_set. by destruct (decide (v = t)).
  - apply H.
  - intros e v Hv. rewrite phase_set, decide_False; [by apply (ti_interrupted _ _ H e)|]. intros ->. by apply Htail in Hv.
  - intros e v. rewrite phase_set. destruct (decide (v = t)); [done|apply H].
  - intros v x. rewrite phase_set. destruct (decide (v = t)) as [->|].
    + intros [= <-]. exists (set_waiter (Some t) ku). rewrite Hlk, decide_True by done. split_and!; try done. cbn. congruence.
    + intros Hv. destruct (ti_join _ _ H _ _ Hv) as (kx & Hkx & Hwx & Hrx & Hex). rewrite Hlk.
      destruct (decide (x = u)) as [->|]; [congruence|]. destruct (decide (x = t)) as [->|]; [|by eauto].
      rewrite Hk in Hkx. injection Hkx as <-. by eexists.
  - intros x kx v. rewrite Hlk, phase_set. destruct (decide (x = u)) as [->|].
    { intros [= <-] [= <-]. by rewrite decide_True. }
    intros Hkx Hwx. assert (phase g v = Some (Joining x)) as Hv.
    { destruct (decide (x = t)) as [->|]; [injection Hkx as <-; by apply (ti_waiter _ _ H _ _ _ Hk)|by apply (ti_waiter _ _ H _ _ _ Hkx)]. }
    rewrite decide_False; [done|]. intros ->. congruence.
  - apply (homes_same w w'); [done..|apply (ti_home _ _ H)].
  - rewrite Hnot. apply (ti_notified _ _ H).
Qed.

(** What a task may wait for: another task of its executor that nobody waits for. *)
Record awaits (here : nat) w (t : nat) k (u : nat) ku : Prop := mkAwaits {
  aw_task : w_tasks w !! t = Some k;
  aw_current : head (e_current (exec w here)) = Some t;
  aw_woken : wake_ready k = false;
  aw_other : u ≠ t;
  aw_child : w_tasks w !! u = Some ku;
  aw_waiter : waiter ku = None;
  aw_executor : executor ku = Some here;
}.

Lemma join_runs here w g t k u ku :
  inv w g → free here w g → awaits here w t k u ku → ready ku = false →
  runs (kc ← get_task t; _ ← set_task t (set_waiting_on (Some u) kc); ko ← get_task u; _ ← set_task u (set_waiter (Some t) ko); mret false) w
    (λ r w', r = false ∧ inv w' (set_phase t (Joining u) g) ∧ w_memory w' = w_memory w ∧
      ∀ e, e_current (exec w' e) = e_current (exec w e)).
Proof.
  intros Hinv Hfree [Hk Hc Hwr Hut Hu Hw Heu] Hr. pose proof (core_task _ _ (inv_core _ _ Hinv)) as H.
  assert (Hp : phase g t = Some Running).
  { apply Hfree. destruct (e_current _); [done|]. injection Hc as ->. left. }
  destruct (running_task_fields _ _ _ _ H Hk Hp) as (F1 & F2 & F3 & F4).
  apply (call_get_task _ k); [done|]. apply call_set_task. apply (call_get_task _ ku); [cbn; by rewrite lookup_insert_ne|].
  apply call_set_task, call_ret. set (w' := with_tasks _ _). split; [done|]. split; [|by split_and!].
  eapply (inv_tasks w g); [done|by eapply (task_inv_join w g w' here t k u ku)|].
  assert (Hpu : ∃ p, phase g u = Some p ∧ phase_fields ku p).
  { destruct (proj1 (ti_dom _ _ H u)) as [p Hpu]; [by rewrite Hu|]. exists p. split; [done|]. by apply (ti_fields _ _ H _ _ _ Hu). }
  assert (Hlk : ∀ v, w_tasks w' !! v = if decide (v = u) then Some (set_waiter (Some t) ku) else
    if decide (v = t) then Some (set_waiting_on (Some u) k) else w_tasks w !! v).
  { intros v. cbn. destruct (decide (v = u)) as [->|]; [by rewrite lookup_insert_eq|]. rewrite lookup_insert_ne by done.
    destruct (decide (v = t)) as [->|]; [by rewrite lookup_insert_eq|by rewrite lookup_insert_ne]. }
  split; try done.
  - intros v c s. rewrite phase_set. destruct (decide (v = t)) as [->|]; [by rewrite Hp|done].
  - intros v wait. rewrite phase_set. destruct (decide (v = t)) as [->|]; [by rewrite Hp|done].
  - intros v. rewrite phase_set. by destruct (decide (v = t)).
  - intros v kv c s. rewrite Hlk. destruct (decide (v = u)) as [->|]; [intros [= <-] Huse; by exists ku|].
    destruct (decide (v = t)) as [->|]; [intros [= <-] Huse; by exists k|eauto].
  - intros v ctx. rewrite Hlk. destruct (decide (v = u)) as [->|].
    { rewrite Hu. split; intros (kv & [= <-] & Hs); eexists; (split; [done|exact Hs]). }
    destruct (decide (v = t)) as [->|]; [|done]. rewrite Hk. split; intros (kv & [= <-] & Hs); eexists; (split; [done|exact Hs]).
  - intros v kv ctx Hkv _. unfold owner. rewrite Hlk. destruct (decide (v = u)) as [->|]; [by rewrite Hu|].
    by destruct (decide (v = t)) as [->|]; [rewrite Hk|].
Qed.

Lemma poll_wait_runs here w g t k u ku :
  inv w g → free here w g → awaits here w t k u ku →
  runs (poll_wait here (cancel_function here) (S (size (w_tasks w))) (Some u)) w (λ r w', ∃ g', inv w' g' ∧ w_memory w' = w_memory w ∧
    (∀ e, e_current (exec w' e) = e_current (exec w e)) ∧
    if ready ku then r = true ∧ w_tasks w' = delete u (w_tasks w) ∧ free here w' g'
    else r = false ∧ phase g' t = Some (Joining u) ∧ ∀ v, v ∈ e_current (exec w here) → v ≠ t → phase g' v = Some Running).
Proof.
  intros Hinv Hfree Haw. pose proof Haw as [Hk Hc Hwr Hut Hu Hw Heu]. pose proof (core_task _ _ (inv_core _ _ Hinv)) as H.
  assert (Hin : t ∈ e_current (exec w here)) by (destruct (e_current _); [done|injection Hc as ->; left]).
  destruct (running_task_fields _ _ _ _ H Hk (Hfree t Hin)) as (F1 & F2 & F3 & F4).
  unfold poll_wait, current_get. apply call_bind, call_get_executor, call_ret. rewrite Hc, bool_decide_false by done.
  apply (call_get_task _ ku); [done|]. apply (call_get_task _ k); [done|]. rewrite F3, F4, Hw. cbn [is_some orb].
  destruct (ready ku) eqn:Er.
  - destruct (proj1 (ti_dom _ _ H u)) as [p Hp]; [by rewrite Hu|]. assert (p = Finished) as ->.
    { destruct (ti_fields _ _ H _ _ _ Hu Hp) as [Hf _]. destruct p; cbn in Hf; try done.
      - destruct Hf as (_ & E & _); congruence.
      - destruct Hf as (_ & E & _); congruence.
      - destruct Hf as [_ E]. congruence.
      - destruct Hf as [ctx [_ E]]. congruence.
      - destruct (parked_wakeable _ Hf) as (_ & _ & _ & _ & E & _). congruence.
      - destruct (parked_wakeable _ Hf) as (_ & _ & _ & _ & E & _). congruence.
      - destruct Hf as [(_ & E & _) _]. congruence. }
    apply call_bind. eapply call_mono; [by apply (release_runs here w g u ku)|]. intros [] w' (Hi & Hf & Hm & He & Ht). apply call_ret.
    by exists (forget u g).
  - assert (Hend : ∀ w1 g1, inv w1 g1 → free here w1 g1 → w_memory w1 = w_memory w → undisturbed w w1 →
      runs (kc ← get_task t; _ ← set_task t (set_waiting_on (Some u) kc); ko ← get_task u; _ ← set_task u (set_waiter (Some t) ko);
        mret false) w1 (λ r w', ∃ g', inv w' g' ∧ w_memory w' = w_memory w ∧ (∀ e, e_current (exec w' e) = e_current (exec w e)) ∧
          r = false ∧ phase g' t = Some (Joining u) ∧ ∀ v, v ∈ e_current (exec w here) → v ≠ t → phase g' v = Some Running)).
    { intros w1 g1 Hi1 Hf1 Hm1 [Hl1 Hc1 Hu1]. destruct (Hu1 _ _ Hk F3) as (k1 & Hk1 & _ & Ew1).
      assert (links w1 !! u = links w !! u) as Hlu by (by rewrite Hl1). unfold links in Hlu. rewrite !lookup_fmap, Hu in Hlu.
      destruct (w_tasks w1 !! u) as [ku1|] eqn:Hu1'; [|done]. injection Hlu as Ew Err Ee.
      eapply call_mono; [apply (join_runs here w1 g1 t k1 u ku1); try done|].
      - split; try done; rewrite ?Hc1, ?Ew1, ?Ew, ?Ee; done.
      - congruence.
      - intros r w' (-> & Hi & Hm & He). exists (set_phase t (Joining u) g1). split; [done|]. split; [by rewrite Hm|].
        split; [intros e; by rewrite He|]. split; [done|]. rewrite phase_set, decide_True by done. split; [done|].
        intros v Hv Hvt. rewrite phase_set, decide_False by done. apply Hf1. by rewrite Hc1. }
    apply call_bind. destruct (cancellation_requested k) eqn:Ecr.
    + eapply call_mono; [apply (request_runs here _ w g u ku); try done|].
      * pose proof (map_size_filter (λ x : nat * Task, cancellation_requested x.2 = false) (w_tasks w)). unfold unmarked. lia.
      * intros [] w1 (g1 & Hi1 & Hf1 & Hm1 & Hu1). by apply (Hend w1 g1).
    + apply call_ret, (Hend w g); try done. apply undisturbed_refl.
Qed.

End Scheduler.
