(* ===== verification/RuntimeCalls.v ===== *)
(** * The calls of a program and the worlds it reaches

    [Call]: every call that task code, an executor or the program's start makes of
    task.c and channel.c; [permitted]: what the caller owes (an endpoint it still owns, a
    task handle it has not consumed, no further call of a task that is parked);
    [reachable]: the worlds that permitted calls of any threads, in any order, lead to. *)
From S2P Require Import Prelude Queue Tasks Channel RuntimeInvariant RuntimeProofs ChannelProofs ChannelCalls ChannelPolls ChannelSelects ChannelEndpoints RuntimeTimer RuntimeScheduler.
#[local] Opaque SIZE_MAX UINT_MAX message_header.

Section Calls.
Context {V : Type}.
Implicit Types (w : World V) (g : Ghost) (k : Task) (ch : Channel V).

Inductive Call :=
| CallWrite (address : nat) (value : option V)
| CallSpawn (address : nat)
| CallRunStart
| CallRunFinish (result : bool)
| CallPollWait (task : nat)
| CallRelease (task : nat)
| CallCancel (task : nat)
| CallDrain
| CallWait
| CallWakeExpired (now : N)
| CallOpen (size cap : N) (drops : bool) (address : nat)
| CallCloneSender (c : nat)
| CallCloneReceiver (c : nat)
| CallDropSender (c : nat)
| CallDropReceiver (c : nat)
| CallDropReceiverClose (c : nat)
| CallDropMessages (c : nat) (l : list (option V))
| CallDropReceiverRelease (c : nat)
| CallSend (c : nat) (value : option nat)
| CallReceive (c : nat) (value : option nat)
| CallSelect (context : nat) (cases : list SelectCase) (deadline now : N) (address : nat).

Definition ignore {A} (m : R V A) : R V unit := _ ← m; mret tt.

(** A task writes its own memory; every other call is one of the runtime. *)
Definition perform (here : nat) (call : Call) : R V unit :=
  match call with
  | CallWrite address value => modify (with_memory (partial_alter (λ _, value) address))
  | CallSpawn address => ignore (spawn here address)
  | CallRunStart => ignore (run_start here)
  | CallRunFinish result => run_finish here result
  | CallPollWait task => w ← get; ignore (poll_wait here (cancel_function here) (S (size (w_tasks w))) (Some task))
  | CallRelease task => release here task
  | CallCancel task => cancel_task here task
  | CallDrain => ignore (poll_idle_sources here)
  | CallWait => ignore (idle_wait here)
  | CallWakeExpired now => ignore (wake_expired here now)
  | CallOpen size cap drops address => ignore (channel_open size cap drops address)
  | CallCloneSender c => ignore (clone_sender c)
  | CallCloneReceiver c => ignore (clone_receiver c)
  | CallDropSender c => drop_sender here c
  | CallDropReceiver c => drop_receiver here c
  | CallDropReceiverClose c => ignore (drop_receiver_close here c)
  | CallDropMessages c l => drop_messages c l
  | CallDropReceiverRelease c => drop_receiver_release c
  | CallSend c value => ignore (poll_send here (Some c) value)
  | CallReceive c value => ignore (poll_receive here (Some c) value)
  | CallSelect context cases deadline now address => ignore (poll_select here (Some context) cases deadline now address)
  end.

(** ** What a caller owes *)

(** No task this thread is polling is parked or waits for a child. *)
Definition unparked (here : nat) w : Prop :=
  Forall (λ t, match w_tasks w !! t with Some k => cancel_wait k = None ∧ waiting_on k = None | None => False end)
    (e_current (exec w here)).

(** The task being polled; if it was woken, it repeats the call that it was parked in. *)
Definition repeats (here : nat) w (context : nat) (kind : N) : Prop :=
  match head (e_current (exec w here)) ≫= (w_tasks w !!.) with
  | Some k => wake_ready k = true → wake_context k = Some context ∧ wake_kind k = kind
  | None => False
  end.

(** The caller owns an endpoint, or the last one that no parked task or select uses. *)
Definition owns w (c : nat) (s : Side) : Prop :=
  match w_channels w !! c with Some ch => endpoints s ch ≠ 0%N | None => False end.
Definition unshared w (c : nat) (s : Side) : Prop :=
  match w_channels w !! c with
  | Some ch => endpoints s ch = 1%N →
      map_Forall (λ _ k, ¬ (cancel_wait k = Some fdn_channel_cancel_wait ∧ wait_context k = Some c ∧ wait_kind k = side_kind s)) (w_tasks w) ∧
      map_Forall (λ _ sw, ¬ Exists (is_case c (select_kind s)) (sw_cases sw)) (w_waits w)
  | None => False
  end.
Definition points w (c : nat) (value : option nat) : Prop :=
  match w_channels w !! c with Some ch => value_size ch = 0%N ∨ is_Some value | None => False end.
Definition case_owned w (case : SelectCase) : Prop :=
  match case_channel case with
  | Some c => points w c (case_value case) ∧
      (case_kind case = FDN_CHANNEL_SELECT_SEND ∧ owns w c Send ∨ case_kind case = FDN_CHANNEL_SELECT_RECEIVE ∧ owns w c Receive)
  | None => False
  end.
Definition holding w (c : nat) : Prop :=
  match w_channels w !! c with Some ch => holds ch = 1%N | None => False end.
Definition task_is w (t : nat) (P : Task → Prop) : Prop := match w_tasks w !! t with Some k => P k | None => False end.

Definition permitted (here : nat) w (call : Call) : Prop :=
  match call with
  | CallRunFinish result =>
      match e_current (exec w here) with
      | t :: _ => task_is w t (λ k, result = true → cancel_wait k = None ∧ waiting_on k = None ∧ wake_ready k = false)
      | [] => False
      end
  | _ => unparked here w
  end ∧
  match call with
  | CallWrite _ _ | CallRunStart | CallRunFinish _ | CallDrain | CallWait | CallWakeExpired _ => True
  | CallSpawn address => w_tasks w !! address = None ∧ (h_count (home w here) < SIZE_MAX)%N
  | CallPollWait task =>
      match head (e_current (exec w here)) with
      | Some t => task_is w t (λ k, wake_ready k = false) ∧ task ≠ t ∧
          task_is w task (λ k, waiter k = None ∧ executor k = Some here)
      | None => False
      end
  | CallRelease task => task_is w task (λ k, ready k = true ∧ executor k = Some here)
  | CallCancel task => task_is w task (λ k, executor k = Some here)
  | CallOpen size cap _ address => w_channels w !! address = None ∧ (w_channel_count w < SIZE_MAX)%N ∧ (cap <= SIZE_MAX)%N ∧
      (size <= SIZE_MAX - message_header)%N
  | CallCloneSender c => owns w c Send ∧ match w_channels w !! c with Some ch => senders ch ≠ SIZE_MAX | None => False end
  | CallCloneReceiver c => owns w c Receive ∧ match w_channels w !! c with Some ch => receivers ch ≠ SIZE_MAX | None => False end
  | CallDropSender c => owns w c Send ∧ unshared w c Send
  | CallDropReceiver c | CallDropReceiverClose c => owns w c Receive ∧ unshared w c Receive
  | CallDropMessages c _ | CallDropReceiverRelease c => holding w c
  | CallSend c value => owns w c Send ∧ points w c value ∧ repeats here w c FDN_CHANNEL_WAIT_SEND
  | CallReceive c value => owns w c Receive ∧ points w c value ∧ repeats here w c FDN_CHANNEL_WAIT_RECEIVE
  | CallSelect context cases _ _ address => cases ≠ [] ∧ (N.of_nat (length cases) < N.shiftr UINT_MAX 8)%N ∧
      Forall (case_owned w) cases ∧ w_waits w !! address = None ∧ repeats here w context FDN_CHANNEL_WAIT_SELECT
  end.

(** ** The worlds that calls lead to *)

Definition empty_world (memory : gmap nat V) : World V := mkWorld memory ∅ ∅ ∅ ∅ ∅ 0 [] ∅ ∅.

Inductive reachable : World V → Prop :=
| reach_start memory : reachable (empty_world memory)
| reach_step here call w w' : reachable w → permitted here w call → perform here call w = Done tt w' → reachable w'.

End Calls.
Arguments Call : clear implicits.

#[export] Instance CancelWait_eq_dec : EqDecision CancelWait.
Proof. solve_decision. Defined.
#[export] Instance task_is_dec {V} (w : World V) t P `{!∀ k, Decision (P k)} : Decision (task_is w t P).
Proof. unfold task_is. destruct (w_tasks w !! t); apply _. Defined.
#[export] Instance unparked_dec {V} here (w : World V) : Decision (unparked here w).
Proof. apply Forall_dec. intros t. destruct (w_tasks w !! t); apply _. Defined.
#[export] Instance repeats_dec {V} here (w : World V) context kind : Decision (repeats here w context kind).
Proof. unfold repeats. destruct (head _ ≫= _); apply _. Defined.
#[export] Instance owns_dec {V} (w : World V) c s : Decision (owns w c s).
Proof. unfold owns. destruct (w_channels w !! c); apply _. Defined.
#[export] Instance unshared_dec {V} (w : World V) c s : Decision (unshared w c s).
Proof. unfold unshared. destruct (w_channels w !! c); apply _. Defined.
#[export] Instance points_dec {V} (w : World V) c value : Decision (points w c value).
Proof. unfold points. destruct (w_channels w !! c); apply _. Defined.
#[export] Instance case_owned_dec {V} (w : World V) case : Decision (case_owned w case).
Proof. unfold case_owned. destruct (case_channel case); apply _. Defined.
#[export] Instance holding_dec {V} (w : World V) c : Decision (holding w c).
Proof. unfold holding. destruct (w_channels w !! c); apply _. Defined.
#[export] Instance permitted_dec {V} here (w : World V) call : Decision (permitted here w call).
Proof.
  unfold permitted. apply and_dec.
  - destruct call; try apply _. destruct (e_current (exec w here)); apply _.
  - destruct call as [| | | |task| | | | | |size cap drops address|c|c| | | | | | | |]; try apply _.
    + destruct (head (e_current (exec w here))); apply _.
    + destruct (w_channels w !! c); apply _.
    + destruct (w_channels w !! c); apply _.
Defined.

(** The world after permitted calls. *)
Fixpoint history {V} (w : World V) (calls : list (nat * Call V)) : option (World V) :=
  match calls with
  | [] => Some w
  | (here, call) :: calls =>
      if decide (permitted here w call) then match perform here call w with Done _ w' => history w' calls | _ => None end else None
  end.
Lemma history_reachable {V} calls : ∀ w w' : World V, reachable w → history w calls = Some w' → reachable w'.
Proof.
  induction calls as [|[here call] calls IH]; intros w w' Hw; cbn [history]; [by intros [= <-]|].
  destruct (decide _) as [Hp|]; [|done]. destruct (perform here call w) as [[] w1| |] eqn:E; [|done|done].
  apply IH. by eapply reach_step.
Qed.

(** ** Permitted calls keep the invariant *)

Section Kept.
Context {V : Type}.
Implicit Types (w : World V) (g : Ghost) (k : Task) (ch : Channel V).

Lemma call_done {A} (m : R V A) w Q : runs m w Q → ∃ a w', m w = Done a w' ∧ Q a w'.
Proof. unfold runs. destruct (m w) as [a w'| |]; [eauto|done|done]. Qed.
Lemma call_ignore {A} (m : R V A) w (Q : unit → World V → Prop) : runs m w (λ _, Q tt) → runs (ignore m) w Q.
Proof. intros H. apply call_bind. eapply call_mono; [exact H|]. by intros a w' H'; apply call_ret. Qed.

Lemma unparked_free here w g : inv w g → unparked here w → free here w g.
Proof.
  intros Hinv Hu t Hin. unfold unparked in Hu. rewrite Forall_forall in Hu. specialize (Hu t Hin).
  destruct (w_tasks w !! t) as [k|] eqn:Hk; [|done]. destruct Hu as [Ec Ew].
  pose proof (core_task _ _ (inv_core _ _ Hinv)) as H. destruct (ti_current _ _ H _ _ Hin) as (_ & Hq & Hf).
  destruct (proj1 (ti_dom _ _ H t)) as [p Hp]; [eauto|]. destruct (ti_fields _ _ H _ _ _ Hk Hp) as [Hfs _].
  destruct p; try congruence; cbn in Hfs.
  - rewrite (pf_cancel _ _ _ _ Hfs) in Ec. done.
  - destruct Hfs as [ctx Hfs]. rewrite (pf_cancel _ _ _ _ Hfs) in Ec. done.
  - destruct (parked_wakeable _ Hfs) as (E & _). by rewrite Ec in E.
  - by apply (inv_settled _ _ Hinv) in Hp.
  - destruct Hfs as [(_ & _ & _ & E) _]. congruence.
Qed.

Lemma repeats_polling here w g context kind : free here w g → repeats here w context kind → ∃ t k, polling here w g t k context kind.
Proof.
  intros Hfree. unfold repeats. destruct (head (e_current (exec w here))) as [t|] eqn:Ec; [|done]. cbn.
  destruct (w_tasks w !! t) as [k|] eqn:Hk; [|done]. intros H. by exists t, k.
Qed.

Lemma owns_channel w c s : owns w c s → ∃ ch, w_channels w !! c = Some ch ∧ endpoints s ch ≠ 0%N.
Proof. unfold owns. destruct (w_channels w !! c) as [ch|]; [by exists ch|done]. Qed.
Lemma points_value w c ch value : points w c value → w_channels w !! c = Some ch → value_ok ch value.
Proof. unfold points. by intros H E; rewrite E in H. Qed.
Lemma unshared_idle w c ch s : unshared w c s → w_channels w !! c = Some ch → endpoints s ch = 1%N → idle w c s.
Proof.
  unfold unshared. intros H E; rewrite E in H. intros He. destruct (H He) as [Ht Hw]. split.
  - intros t k Hk. by apply (Ht t k).
  - intros wait sw Hsw. by apply (Hw wait sw).
Qed.
Lemma task_is_task w t P : task_is w t P → ∃ k, w_tasks w !! t = Some k ∧ P k.
Proof. unfold task_is. destruct (w_tasks w !! t) as [k|]; [by exists k|done]. Qed.
Lemma cases_owned w cases : (N.of_nat (length cases) < N.shiftr UINT_MAX 8)%N → Forall (case_owned w) cases → cases_ok w cases.
Proof.
  intros Hlen Hall. split; [done|]. eapply Forall_impl; [exact Hall|]. intros case. unfold case_owned, case_ok.
  destruct (case_channel case) as [c|]; [|done]. intros [Hp Ho].
  assert (∃ ch, w_channels w !! c = Some ch) as [ch Hc] by (unfold points in Hp; destruct (w_channels w !! c); [eauto|done]).
  exists c, ch. split; [done|]. split; [done|]. split; [by eapply points_value|]. unfold owns in Ho. by rewrite Hc in Ho.
Qed.

Lemma inv_dropped w g f : inv w g → inv (with_dropped f w) g.
Proof.
  intros [Hcore Hdata Hquiet Hset]. split; [|by eapply data_same| |done].
  - eapply core_lists; done.
  - intros c ch Hc. eapply quiet_calmer; [by apply Hquiet|by apply calmer_waits].
Qed.
Lemma inv_memory w g f : inv w g → inv (with_memory f w) g.
Proof.
  intros [Hcore Hdata Hquiet Hset]. split; [|by eapply data_same| |done].
  - eapply core_lists; done.
  - intros c ch Hc. eapply quiet_calmer; [by apply Hquiet|by apply calmer_waits].
Qed.

Lemma drop_messages_runs w g c ch l : inv w g → w_channels w !! c = Some ch →
  runs (drop_messages c l) w (λ _ w', inv w' g ∧ w_channels w' = w_channels w ∧
    w_dropped w' = (if drops_value ch then w_dropped w ++ l else w_dropped w)).
Proof.
  intros Hinv Hc. unfold drop_messages. apply (call_get_channel _ ch); [done|]. destruct (drops_value ch).
  - apply call_modify_end. split; [by apply inv_dropped|done].
  - by apply call_ret.
Qed.

(** [fdn_channel_drop_receiver]: the last receiver drops what was not received. *)
Lemma drop_receiver_runs here w g c ch :
  inv w g → free here w g → w_channels w !! c = Some ch → receivers ch ≠ 0%N → (receivers ch = 1%N → idle w c Receive) →
  runs (drop_receiver here c) w (λ _ w', ∃ g', inv w' g').
Proof.
  intros Hinv Hfree Hc H0 Hidle. unfold drop_receiver. apply call_bind.
  eapply call_mono; [by eapply (drop_receiver_close_runs here w g c ch)|].
  intros l w1 (g1 & Hi1 & _ & _ & Hl & _). case_bool_decide as El; [apply call_ret; by exists g1|].
  destruct (Hl El) as (ch1 & Hc1 & Hh1 & _). apply call_bind. eapply call_mono; [by eapply drop_messages_runs|].
  intros [] w2 (Hi2 & Hc2 & _). eapply call_mono; [apply (drop_receiver_release_runs w2 g1 c ch1); try done; by rewrite Hc2|].
  intros [] w3 (Hi3 & _). by exists g1.
Qed.

(** Every permitted call returns, and the invariant holds of the world it leaves. *)
Lemma call_kept here call w g : inv w g → permitted here w call →
  runs (perform here call) w (λ _ w', ∃ g', inv w' g').
Proof.
  intros Hinv [Hu Hp]. assert (Hfree : (if call is CallRunFinish _ then False else True) → free here w g).
  { intros Hne. apply (unparked_free here w g Hinv). by destruct call. }
  destruct call; cbn [perform]; try specialize (Hfree I).
  - apply call_modify_end. exists g. by apply inv_memory.
  - destruct Hp as [Ha Hroom]. apply call_ignore. eapply call_mono; [by eapply spawn_runs|]. intros a w' (_ & Hi & _). eauto.
  - apply call_ignore. eapply call_mono; [by eapply run_start_runs|]. intros a w' (g' & Hi & _). eauto.
  - destruct (e_current (exec w here)) as [|t previous] eqn:Ec; [done|]. apply task_is_task in Hu as (k & Hk & Hu).
    destruct result.
    + destruct (Hu eq_refl) as (E1 & E2 & E3). assert (phase g t = Some Running) as Hr.
      { pose proof (core_task _ _ (inv_core _ _ Hinv)) as H. destruct (ti_current _ _ H here t) as (_ & Hq & Hf); [rewrite Ec; left|].
        destruct (proj1 (ti_dom _ _ H t)) as [p Hpt]; [eauto|]. destruct (ti_fields _ _ H _ _ _ Hk Hpt) as [Hfs _].
        destruct p; try congruence; cbn in Hfs.
        - rewrite (pf_cancel _ _ _ _ Hfs) in E1. done.
        - destruct Hfs as [ctx Hfs]. rewrite (pf_cancel _ _ _ _ Hfs) in E1. done.
        - destruct (parked_wakeable _ Hfs) as (E & _). by rewrite E1 in E.
        - by apply (inv_settled _ _ Hinv) in Hpt.
        - destruct Hfs as [(_ & _ & _ & E) _]. congruence. }
      eapply call_mono; [by eapply run_ready_runs|]. intros [] w' (g' & Hi & _). eauto.
    + eapply call_mono; [by eapply run_pending_runs|]. intros [] w' (g' & Hi & _). eauto.
  - destruct (head (e_current (exec w here))) as [t|] eqn:Ec; [|done]. destruct Hp as (Hk & Hne & Hku).
    apply task_is_task in Hk as (k & Hk & Hw). apply task_is_task in Hku as (ku & Hku & Hwt & Hex).
    apply call_get, call_ignore. eapply call_mono; [by eapply (poll_wait_runs here w g t k task ku)|].
    intros r w' (g' & Hi & _). eauto.
  - apply task_is_task in Hp as (k & Hk & Hr & Hex). pose proof (core_task _ _ (inv_core _ _ Hinv)) as H.
    eapply call_mono; [eapply (release_runs here w g task k); try done|by intros [] w' (Hi & _); eauto].
    destruct (proj1 (ti_dom _ _ H task)) as [p Hpt]; [eauto|]. destruct (ti_fields _ _ H _ _ _ Hk Hpt) as [Hfs _].
    destruct p; cbn in Hfs; try (destruct Hfs as (_ & E & _); congruence); try (destruct Hfs as [(_ & E & _) _]; congruence); try done.
    + pose proof (pf_ready _ _ _ _ Hfs). congruence.
    + destruct Hfs as [ctx Hfs]. pose proof (pf_ready _ _ _ _ Hfs). congruence.
    + destruct (parked_wakeable _ Hfs) as (_ & _ & _ & _ & E & _). congruence.
    + destruct (parked_wakeable _ Hfs) as (_ & _ & _ & _ & E & _). congruence.
  - apply task_is_task in Hp as (k & Hk & Hex). eapply call_mono; [by eapply cancel_task_runs|]. intros [] w' (g' & Hi & _). eauto.
  - apply call_ignore. eapply call_mono; [by eapply poll_idle_runs|]. intros a w' (g' & Hi & _). eauto.
  - apply call_ignore. eapply call_mono; [by eapply idle_wait_runs|]. intros a w' (g' & Hi & _). eauto.
  - apply call_ignore. eapply call_mono; [by eapply wake_expired_runs|]. intros a w' (g' & Hi & _). eauto.
  - destruct Hp as (? & ? & ? & ?). apply call_ignore. eapply call_mono; [by eapply open_runs|]. intros a w' (_ & Hi & _). eauto.
  - destruct Hp as [(ch & Hc & He)%owns_channel Hm]. rewrite Hc in Hm. apply call_ignore.
    eapply call_mono; [by eapply clone_sender_runs|]. intros a w' (_ & Hi & _). eauto.
  - destruct Hp as [(ch & Hc & He)%owns_channel Hm]. rewrite Hc in Hm. apply call_ignore.
    eapply call_mono; [by eapply clone_receiver_runs|]. intros a w' (_ & Hi & _). eauto.
  - destruct Hp as [(ch & Hc & He)%owns_channel Hs]. eapply call_mono; [eapply drop_sender_runs; try done|].
    { by eapply (unshared_idle w c ch Send). }
    intros [] w' (g' & Hi & _). eauto.
  - destruct Hp as [(ch & Hc & He)%owns_channel Hs]. eapply drop_receiver_runs; try done. by eapply (unshared_idle w c ch Receive).
  - destruct Hp as [(ch & Hc & He)%owns_channel Hs]. apply call_ignore.
    eapply call_mono; [eapply drop_receiver_close_runs; try done|].
    { by eapply (unshared_idle w c ch Receive). }
    intros a w' (g' & Hi & _). eauto.
  - unfold holding in Hp. destruct (w_channels w !! c) as [ch|] eqn:Hc; [|done].
    eapply call_mono; [by eapply drop_messages_runs|]. intros [] w' (Hi & _). eauto.
  - unfold holding in Hp. destruct (w_channels w !! c) as [ch|] eqn:Hc; [|done].
    eapply call_mono; [by eapply drop_receiver_release_runs|]. intros [] w' (Hi & _). eauto.
  - destruct Hp as ((ch & Hc & He)%owns_channel & Hv & Hrep). destruct (repeats_polling _ _ _ _ _ Hfree Hrep) as (t & k & Hpo).
    apply call_ignore. eapply call_mono; [by eapply poll_send_runs; [..|by eapply points_value]|]. intros a w' (g' & Hi & _). eauto.
  - destruct Hp as ((ch & Hc & He)%owns_channel & Hv & Hrep). destruct (repeats_polling _ _ _ _ _ Hfree Hrep) as (t & k & Hpo).
    apply call_ignore. eapply call_mono; [by eapply poll_receive_runs; [..|by eapply points_value]|]. intros a w' (g' & Hi & _). eauto.
  - destruct Hp as (Hne & Hlen & Hall & Hfresh & Hrep). destruct (repeats_polling _ _ _ _ _ Hfree Hrep) as (t & k & Hpo).
    apply call_ignore. eapply call_mono; [eapply poll_select_runs; try done; by apply cases_owned|]. intros a w' (g' & Hi & _). eauto.
Qed.

Lemma empty_inv memory : inv (empty_world memory : World V) (mkGhost ∅ ∅).
Proof.
  assert (∀ e, exec (empty_world memory : World V) e = idleExecutor) as Hx by done.
  assert (∀ t, phase (mkGhost ∅ ∅) t = None) as Hp by done. assert (∀ c s, gq (mkGhost ∅ ∅) c s = []) as Hg by done.
  split.
  - split.
    + split; try setoid_rewrite Hx; try setoid_rewrite Hp; cbn; try done; try (intros; by apply NoDup_nil).
      * intros t. split; by intros [].
      * intros e t. split; [by intros ?%not_elem_of_nil|by intros []].
      * intros e t. split; [by intros ?%not_elem_of_nil|by intros []].
      * by intros e t ?%not_elem_of_nil.
      * by intros e t ?%not_elem_of_nil.
    + split; try setoid_rewrite Hp; try done. intros c s t. rewrite Hg. split; [by intros ?%not_elem_of_nil|done].
    + split; try setoid_rewrite Hx; try setoid_rewrite Hp; try done.
      * intros t wait. split; [done|]. by intros (? & ? & _).
      * intros e wait. split; [by intros ?%not_elem_of_nil|by intros (? & ? & _)].
      * intros e. by apply NoDup_nil.
  - split; done.
  - by intros c ch.
  - by intros t.
Qed.

Lemma reachable_inv w : reachable w → ∃ g, inv w g.
Proof.
  induction 1 as [memory|here call w w' _ [g IH] Hp Hd]; [eauto using empty_inv|].
  pose proof (call_kept here call w g IH Hp) as H. unfold runs in H. by rewrite Hd in H.
Qed.

End Kept.
