(* ===== verification/RuntimeTheorems.v ===== *)
(** * What the runtime's channels and tasks promise

    The theorems about the worlds that permitted calls reach, in any interleaving of
    threads: calls return, no wake is lost, no task is lost; and what a send, a receive
    and a select do, on the queues as the code walks them. *)
From S2P Require Import Prelude Queue Tasks Channel RuntimeInvariant RuntimeProofs ChannelProofs ChannelCalls ChannelPolls ChannelSelects ChannelEndpoints RuntimeTimer RuntimeScheduler RuntimeCalls.
#[local] Opaque SIZE_MAX UINT_MAX message_header.

Section Views.
Context {V : Type}.
Implicit Types (w : World V) (g : Ghost) (k : Task) (ch : Channel V).

(** The tasks of a channel's queue, from its head along the successors. *)
Fixpoint walk (fuel : nat) (next : Successors) (from : option nat) : list nat :=
  match from, fuel with
  | Some task, S fuel => task :: walk fuel next (next !! task)
  | _, _ => []
  end.
Definition waiters w (c : nat) (s : Side) : list nat :=
  match w_channels w !! c with
  | Some ch => walk (size (w_tasks w)) (w_wait_next w) (q_head (side_queue s ch))
  | None => []
  end.

(** What was sent on a channel and not yet received: the buffered messages, then the
    values of the senders that wait. *)
Definition in_flight w (c : nat) : list (option V) :=
  match w_channels w !! c with
  | Some ch => messages ch ++ held (w_tasks w) ch (w_memory w) (waiters w c Send)
  | None => []
  end.

Lemma walk_path next l : ∀ fuel from, path next from l → length l ≤ fuel → walk fuel next from = l.
Proof.
  induction l as [|x l IH]; intros fuel from; cbn; [by intros -> _; destruct fuel|].
  intros [-> Hp] Hlen. destruct fuel as [|fuel]; [lia|]. cbn. f_equal. apply IH; [done|lia].
Qed.
Lemma waiters_gq w g c s : inv w g → waiters w c s = gq g c s.
Proof.
  intros [Hcore _ _ _]. unfold waiters. destruct (w_channels w !! c) as [ch|] eqn:Hc.
  - apply walk_path; [apply (qi_queue _ _ (core_queue _ _ Hcore) c ch s Hc)|by eapply queue_fits].
  - symmetry. by apply (qi_none _ _ (core_queue _ _ Hcore)).
Qed.
Lemma in_flight_stream w g c : inv w g → in_flight w c = stream w g c.
Proof. intros Hinv. unfold in_flight, stream. destruct (w_channels w !! c); [|done]. by rewrite (waiters_gq w g). Qed.

(** Where a task is. *)
Inductive Place :=
| Released_soon
| In_queue
| Being_polled
| In_mailbox
| In_channel (c : nat) (s : Side)
| In_select (wait : nat)
| Behind (child : nat).

Definition at_place w (t : nat) k (p : Place) : Prop :=
  match p with
  | Released_soon => ready k = true
  | In_queue => ∃ e, executor k = Some e ∧ t ∈ e_queue (exec w e)
  | Being_polled => ∃ e, executor k = Some e ∧ t ∈ e_current (exec w e) ∧ cancel_wait k = None ∧ waiting_on k = None
  | In_mailbox => ∃ e, executor k = Some e ∧ t ∈ (e_mailbox (exec w e)).*1
  | In_channel c s => t ∈ waiters w c s
  | In_select wait => ∃ sw, w_waits w !! wait = Some sw ∧ sw_task sw = t ∧ sw_signaled sw = false ∧
      ∀ case c, case ∈ sw_cases sw → case_channel case = Some c →
        ∃ ch i, w_channels w !! c = Some ch ∧ (wait, i) ∈ selects ch
  | Behind child => waiting_on k = Some child ∧
      ∃ kc, w_tasks w !! child = Some kc ∧ waiter kc = Some t ∧ ready kc = false
  end.
Definition place_phase (p : Place) : Phase :=
  match p with
  | Released_soon => Finished
  | In_queue => Queued
  | Being_polled => Running
  | In_mailbox => Mailed
  | In_channel c s => Waiting c s
  | In_select wait => Selecting wait
  | Behind child => Joining child
  end.

Lemma place_phase_inj p q : place_phase p = place_phase q → p = q.
Proof. destruct p, q; cbn; intros [=]; by subst. Qed.

(** A task is at a place exactly when the ghost state says so. *)
Lemma at_place_phase w g t k p : inv w g → w_tasks w !! t = Some k → at_place w t k p ↔ phase g t = Some (place_phase p).
Proof.
  intros Hinv Hk. pose proof Hinv as [[H Hq Hs] _ _ Hset]. destruct (proj1 (ti_dom _ _ H t)) as [q Hp]; [eauto|].
  destruct (ti_fields _ _ H _ _ _ Hk Hp) as [Hf [e He]].
  assert (Ho : ∀ e', executor k = Some e' ↔ owner w t = Some e') by (intros e'; unfold owner; by rewrite Hk).
  destruct p; cbn [at_place place_phase].
  - split; [|intros E; rewrite Hp in E; injection E as ->; apply Hf].
    intros Er. rewrite Hp. destruct q; cbn in Hf; try (destruct Hf as (_ & E & _); congruence); try (destruct Hf as [(_ & E & _) _]; congruence); try done.
    + pose proof (pf_ready _ _ _ _ Hf). congruence.
    + destruct Hf as [ctx Hf]. pose proof (pf_ready _ _ _ _ Hf). congruence.
    + destruct (parked_wakeable _ Hf) as (_ & _ & _ & _ & E & _). congruence.
    + destruct (parked_wakeable _ Hf) as (_ & _ & _ & _ & E & _). congruence.
  - split; [by intros (e' & _ & [? _]%(ti_queue _ _ H))|]. intros E. exists e. split; [done|]. apply (ti_queue _ _ H).
    split; [done|by apply Ho].
  - split.
    + intros (e' & _ & Hin & Ec & Ew). destruct (ti_current _ _ H _ _ Hin) as (_ & Hnq & Hnf). rewrite Hp. f_equal.
      destruct q; try congruence; cbn in Hf.
      * rewrite (pf_cancel _ _ _ _ Hf) in Ec. done.
      * destruct Hf as [ctx Hf]. rewrite (pf_cancel _ _ _ _ Hf) in Ec. done.
      * destruct (parked_wakeable _ Hf) as (E & _). by rewrite Ec in E.
      * destruct Hf as [(_ & _ & _ & E) _]. congruence.
    + intros E. rewrite Hp in E. injection E as ->. destruct Hf as (_ & _ & Ec & Ew). exists e. split_and!; try done.
      apply (ti_running _ _ H); [done|by apply Ho].
  - split; [by intros (e' & _ & [? _]%(ti_mail _ _ H))|]. intros E. exists e. split; [done|]. apply (ti_mail _ _ H).
    split; [done|by apply Ho].
  - rewrite (waiters_gq w g) by done. apply (qi_member _ _ Hq).
  - rewrite (si_selecting _ _ Hs). split; [intros (sw & ? & ? & ? & _); eauto|].
    intros (sw & Hsw & Ht & Hns). exists sw. split_and!; try done. intros case c Hin Hcase.
    destruct (si_cases _ _ Hs _ _ Hsw) as (Hreg & _ & Hall). rewrite Forall_forall in Hall.
    destruct (Hall case Hin) as (c' & ch & Hc' & Hch & _). rewrite Hcase in Hc'. injection Hc' as <-.
    destruct (registrations_case (sw_cases sw) c (case_kind case)) as [i Hi]; [apply Exists_exists; by exists case|].
    exists ch, i. split; [done|]. apply (si_registered _ _ Hs c ch wait i Hch). exists sw. by rewrite Hreg.
  - split.
    + intros (_ & kc & Hkc & Hwt & _). by apply (ti_waiter _ _ H _ _ _ Hkc).
    + intros E. destruct (ti_join _ _ H _ _ E) as (kc & ? & ? & ? & _). split; [|by exists kc].
      rewrite Hp in E. injection E as ->. by destruct Hf as [(_ & _ & _ & ?) _].
Qed.

End Views.

(** ** Safety *)

(** C5: Whatever threads did before, a call that its caller may make (an endpoint or a
    handle it owns, no call of a task that is parked) returns: it reaches no panic that the
    modelled functions of task.c and channel.c have (the notification, the closing of a
    mailbox and the removal of its source among them) and accesses no task, channel,
    select, mailbox, source or hub that does not exist.  After it every thread counts
    exactly the tasks that live on it; its mailbox, source and hub are there exactly while
    there are any; and a hub is notified while there is mail for it.  A call is one step:
    [wake_notify_race] is about the one place where a wake gives up the lock before it
    is done.  Failures of locks and allocations are not modelled. *)
Theorem runtime_safe {V} here (call : Call V) (w : World V) :
  reachable w → permitted here w call →
  ∃ w', perform here call w = Done tt w' ∧ reachable w' ∧
    ∀ e, home w' e = home_of e (live w' e) ∧ (e_mailbox (exec w' e) ≠ [] → e ∈ w_notified w').
Proof.
  intros Hr Hp. destruct (reachable_inv w Hr) as [g Hinv].
  destruct (call_done _ _ _ (call_kept here call w g Hinv Hp)) as ([] & w' & E & g' & [[H _ _] _ _ _]). exists w'. split; [done|].
  split; [by eapply reach_step|]. intros e. split; [apply (ti_home _ _ H)|apply (ti_notified _ _ H)].
Qed.

(** C6: No wake is lost: in every reachable world a task waits to receive, alone or in a
    select, only while the channel has no message, no waiting sender and still has a
    sender; it waits to send only while the buffer is full and there is a receiver, and
    in a select only while no receiver waits; and two selects never wait for each
    other. *)
Theorem no_lost_wakeup {V} (w : World V) c ch :
  reachable w → w_channels w !! c = Some ch →
  (waiters w c Receive ≠ [] ∨ (∃ wait, open_case w c FDN_CHANNEL_SELECT_RECEIVE wait) →
     messages ch = [] ∧ waiters w c Send = [] ∧ senders ch ≠ 0%N) ∧
  (waiters w c Send ≠ [] → (capacity ch <= buffered ch)%N ∧ receivers ch ≠ 0%N) ∧
  ((∃ wait, open_case w c FDN_CHANNEL_SELECT_SEND wait) →
     (capacity ch <= buffered ch)%N ∧ waiters w c Receive = [] ∧ receivers ch ≠ 0%N) ∧
  (∀ wait1 wait2, open_case w c FDN_CHANNEL_SELECT_SEND wait1 → open_case w c FDN_CHANNEL_SELECT_RECEIVE wait2 → wait1 = wait2).
Proof.
  intros [g Hinv]%reachable_inv Hc. destruct (inv_quiet _ _ Hinv c ch Hc) as [Q1 Q2 Q3 Q4 Q5].
  rewrite !(waiters_gq w g) by done. split; [intros [H|[wait H]]; [by apply Q1|by apply (Q3 wait)]|].
  split; [done|]. split; [intros [wait H]; by apply (Q4 wait)|done].
Qed.

(** C7: No task is lost: every task that was spawned and not released is at exactly one
    place, and where it waits something is left that can wake it: its executor's queue
    or mailbox, the queue of a channel, a select that is registered with the channels of
    all its cases, or a child that is not done and knows its waiter. *)
Theorem no_task_lost {V} (w : World V) t k :
  reachable w → w_tasks w !! t = Some k → ∃ p, at_place w t k p ∧ ∀ q, at_place w t k q → q = p.
Proof.
  intros [g Hinv]%reachable_inv Hk. pose proof Hinv as [[H _ _] _ _ Hset].
  destruct (proj1 (ti_dom _ _ H t)) as [ph Hp]; [eauto|].
  assert (∃ p, place_phase p = ph) as [p Ep].
  { destruct ph as [| |c s|wait| | |child|]; [exists In_queue|exists Being_polled|exists (In_channel c s)|exists (In_select wait)|
      exists In_mailbox| |exists (Behind child)|exists Released_soon]; try done. by apply Hset in Hp. }
  exists p. split; [apply (at_place_phase w g t k); by rewrite ?Ep|].
  intros q Hq%(at_place_phase w g t k); [|done|done]. apply place_phase_inj. congruence.
Qed.

(** ** Sending and receiving *)

(** What a send does when its channel has a receiver. *)
Definition sends {V} (w : World V) (c : nat) (ch : Channel V) (value : option nat) (status : N) (w' : World V) : Prop :=
  let v := payload ch (w_memory w) value in
  match waiters w c Receive with
  | receiver :: rest =>
      status = FDN_CHANNEL_READY ∧ in_flight w' c = in_flight w c ∧ waiters w' c Receive = rest ∧
      will_resume w' receiver FDN_CHANNEL_READY ∧
      ∃ kr, w_tasks w !! receiver = Some kr ∧ w_memory w' = store ch (wait_value kr) v (w_memory w)
  | [] =>
      (∃ wait case, is_open w c FDN_CHANNEL_SELECT_RECEIVE wait case ∧
         selected w w' c FDN_CHANNEL_SELECT_RECEIVE wait case ∧ status = FDN_CHANNEL_READY ∧
         in_flight w' c = in_flight w c ∧ w_memory w' = store ch (case_value case) v (w_memory w)) ∨
      ((∀ wait, ¬ open_case w c FDN_CHANNEL_SELECT_RECEIVE wait) ∧
         status = (if (buffered ch <? capacity ch)%N then FDN_CHANNEL_READY else FDN_CHANNEL_PENDING) ∧
         in_flight w' c = in_flight w c ++ [v] ∧ w_memory w' = w_memory w)
  end.

(** What a receive does. *)
Definition receives {V} (w : World V) (c : nat) (ch : Channel V) (value : option nat) (status : N) (w' : World V) : Prop :=
  match in_flight w c with
  | v :: _ =>
      status = FDN_CHANNEL_READY ∧ w_memory w' = store ch value v (w_memory w) ∧
      in_flight w' c = tail (messages ch ++ held (w_tasks w) ch (w_memory w') (waiters w c Send)) ∧
      resumes_first w' (waiters w c Send)
  | [] =>
      in_flight w' c = [] ∧
      ((∃ wait case, is_open w c FDN_CHANNEL_SELECT_SEND wait case ∧ selected w w' c FDN_CHANNEL_SELECT_SEND wait case ∧
          status = FDN_CHANNEL_READY ∧ w_memory w' = store ch value (payload ch (w_memory w) (case_value case)) (w_memory w)) ∨
       ((∀ wait, ¬ open_case w c FDN_CHANNEL_SELECT_SEND wait) ∧ w_memory w' = w_memory w ∧
          status = (if (senders ch =? 0)%N then FDN_CHANNEL_CLOSED else FDN_CHANNEL_PENDING)))
  end.

Lemma sends_done {V} (w w' : World V) g g' c ch value status :
  inv w g → inv w' g' → send_done w g c ch value status w' g' → sends w c ch value status w'.
Proof.
  intros Hi Hi'. unfold sends. by rewrite (in_flight_stream w g c Hi), (in_flight_stream w' g' c Hi'), (waiters_gq w g), (waiters_gq w' g').
Qed.
Lemma receives_done {V} (w w' : World V) g g' c ch value status :
  inv w g → inv w' g' → receive_done w g c ch value status w' g' → receives w c ch value status w'.
Proof. intros Hi Hi'. unfold receives. by rewrite (in_flight_stream w g c Hi), (in_flight_stream w' g' c Hi'), (waiters_gq w g). Qed.

(** The task that calls: it is polled, was not parked in this call, and its caller may
    make the call. *)
Record calls {V} (here : nat) (w : World V) (t : nat) (k : Task) (call : Call V) : Prop := mkCalls {
  cl_reachable : reachable w;
  cl_permitted : permitted here w call;
  cl_current : head (e_current (exec w here)) = Some t;
  cl_task : w_tasks w !! t = Some k;
  cl_fresh : wake_ready k = false;
}.
Lemma calls_polling {V} here (w : World V) t k call context kind :
  calls here w t k call → (if call is CallRunFinish _ then False else True) → ∃ g, inv w g ∧ polling here w g t k context kind.
Proof.
  intros [Hr Hp Hc Hk Hw] Hcall. destruct (reachable_inv w Hr) as [g Hinv]. exists g. split; [done|].
  split; [|done|done|congruence]. apply (unparked_free here w g Hinv). destruct Hp as [Hu _]. by destruct call.
Qed.

(** C8: A send: cancelled or closed, it changes nothing; else the receiver that waits
    longest gets the value and resumes as ready, or a select that waits to receive takes
    it with the index of its case, or the value comes last of what is in flight, ready
    when the buffer has room and waiting when it is full. *)
Theorem send_exact {V} here (w : World V) t k c ch value :
  calls here w t k (CallSend c value) → w_channels w !! c = Some ch →
  ∃ status w', poll_send here (Some c) value w = Done status w' ∧
    if cancellation_requested k then status = FDN_CHANNEL_CANCELLED ∧ w' = w else
    if (receivers ch =? 0)%N then status = FDN_CHANNEL_CLOSED ∧ w' = w else sends w c ch value status w'.
Proof.
  intros Hcall Hc. destruct (calls_polling here w t k _ c FDN_CHANNEL_WAIT_SEND Hcall I) as (g & Hinv & Hpo).
  destruct (cl_permitted _ _ _ _ _ Hcall) as [_ ((ch1 & Hc1 & He)%owns_channel & Hv & _)]. rewrite Hc in Hc1. injection Hc1 as <-.
  destruct (call_done _ _ _ (poll_send_runs here w g t k c ch value Hinv Hpo Hc He (points_value _ _ _ _ Hv Hc)))
    as (status & w' & E & g' & Hi & H). exists status, w'. split; [done|]. rewrite (cl_fresh _ _ _ _ _ Hcall) in H.
  destruct (cancellation_requested k); [by destruct H as (? & _ & ?)|].
  destruct (receivers ch =? 0)%N; [by destruct H as (? & _ & ?)|]. by apply (sends_done w w' g g').
Qed.

(** C9: A receive: cancelled, it changes nothing; else it stores the first value in
    flight, which leaves the others in their order, and the sender that waits longest
    resumes as ready; with nothing in flight it takes the value of a select that waits to
    send, or it waits, or finds the channel closed when no sender is left. *)
Theorem receive_exact {V} here (w : World V) t k c ch value :
  calls here w t k (CallReceive c value) → w_channels w !! c = Some ch →
  ∃ status w', poll_receive here (Some c) value w = Done status w' ∧
    if cancellation_requested k then status = FDN_CHANNEL_CANCELLED ∧ w' = w else receives w c ch value status w'.
Proof.
  intros Hcall Hc. destruct (calls_polling here w t k _ c FDN_CHANNEL_WAIT_RECEIVE Hcall I) as (g & Hinv & Hpo).
  destruct (cl_permitted _ _ _ _ _ Hcall) as [_ ((ch1 & Hc1 & He)%owns_channel & Hv & _)]. rewrite Hc in Hc1. injection Hc1 as <-.
  destruct (call_done _ _ _ (poll_receive_runs here w g t k c ch value Hinv Hpo Hc He (points_value _ _ _ _ Hv Hc)))
    as (status & w' & E & g' & Hi & H). exists status, w'. split; [done|]. rewrite (cl_fresh _ _ _ _ _ Hcall) in H.
  destruct (cancellation_requested k); [by destruct H as (? & _ & ?)|]. by apply (receives_done w w' g g').
Qed.

(** ** Select *)

(** A case that has to wait, and what is done with a case that does not. *)
Definition pending {V} (w : World V) (case : SelectCase) : Prop :=
  ∃ c ch, case_channel case = Some c ∧ w_channels w !! c = Some ch ∧
    (case_kind case = FDN_CHANNEL_SELECT_SEND ∧ (capacity ch <= buffered ch)%N ∧ receivers ch ≠ 0%N ∧ waiters w c Receive = [] ∧
       (∀ wait, ¬ open_case w c FDN_CHANNEL_SELECT_RECEIVE wait) ∨
     case_kind case = FDN_CHANNEL_SELECT_RECEIVE ∧ in_flight w c = [] ∧ senders ch ≠ 0%N ∧
       (∀ wait, ¬ open_case w c FDN_CHANNEL_SELECT_SEND wait)).
Definition takes {V} (w : World V) (case : SelectCase) (status : N) (w' : World V) : Prop :=
  ∃ c ch, case_channel case = Some c ∧ w_channels w !! c = Some ch ∧
    (case_kind case = FDN_CHANNEL_SELECT_SEND ∧
       (if (receivers ch =? 0)%N then status = FDN_CHANNEL_CLOSED else sends w c ch (case_value case) status w') ∨
     case_kind case = FDN_CHANNEL_SELECT_RECEIVE ∧ receives w c ch (case_value case) status w').

Lemma pending_case {V} (w : World V) g case : inv w g → case_pending w g case → pending w case.
Proof.
  intros Hi (c & ch & Ec & Hc & [(Ek & (H1 & H2 & H3) & Hno)|(Ek & (H1 & H2 & H3) & Hno)]); exists c, ch;
    (split; [done|]); (split; [done|]); [left|right].
  - rewrite (waiters_gq w g) by done. by split_and!.
  - rewrite (in_flight_stream w g) by done. split_and!; try done. by eapply stream_empty.
Qed.
Lemma takes_case {V} (w w' : World V) g g' case status :
  inv w g → inv w' g' → case_done w g case status w' g' → takes w case status w'.
Proof.
  intros Hi Hi' (c & ch & Ec & Hc & [[Ek H]|[Ek H]]); exists c, ch; (split; [done|]); (split; [done|]); [left|right]; (split; [done|]).
  - destruct (receivers ch =? 0)%N; [apply H|by apply (sends_done w w' g g')].
  - by apply (receives_done w w' g g').
Qed.

(** C10: A select: the first case that does not have to wait is done, as a send or a receive
    on its own, and selected; with none it reports the timeout when its deadline is over,
    else the task waits, registered with the channels of all cases.  Cancelled, it does
    nothing. *)
Theorem select_exact {V} here (w : World V) t k context cases deadline now address :
  calls here w t k (CallSelect context cases deadline now address) →
  ∃ status index w', poll_select here (Some context) cases deadline now address w = Done (status, index) w' ∧
    if cancellation_requested k then status = FDN_CHANNEL_CANCELLED ∧ index = None ∧ w' = timed here w else
    (∃ j case, index = Some j ∧ cases !! j = Some case ∧ Forall (pending w) (take j cases) ∧ takes w case status w') ∨
    Forall (pending w) cases ∧ index = None ∧
      if (deadline <=? now)%N then status = FDN_CHANNEL_TIMEOUT ∧ w' = timed here w
      else status = FDN_CHANNEL_PENDING ∧ w_memory w' = w_memory w ∧
        ∃ k', w_tasks w' !! t = Some k' ∧ at_place w' t k' (In_select address).
Proof.
  intros Hcall. destruct (calls_polling here w t k _ context FDN_CHANNEL_WAIT_SELECT Hcall I) as (g & Hinv & Hpo).
  destruct (cl_permitted _ _ _ _ _ Hcall) as [_ (Hne & Hlen & Hall & Hfresh & _)].
  destruct (call_done _ _ _ (poll_select_runs here w g t k context cases deadline now address Hinv Hpo Hne
    (cases_owned w cases Hlen Hall) Hfresh)) as ([status index] & w' & E & g' & Hi & H).
  exists status, index, w'. split; [done|]. rewrite (cl_fresh _ _ _ _ _ Hcall) in H. unfold select_done in H. cbn [fst snd] in H.
  destruct (cancellation_requested k); [by destruct H as (? & ? & _ & ?)|].
  pose proof (timed_inv here _ _ Hinv) as Hinv1. destruct H as [(j & case & Ei & Hj & Hp & Hd)|(Hp & Ei & H)].
  - left. exists j, case. split; [done|]. split; [done|]. split.
    + eapply Forall_impl; [exact Hp|]. intros x. apply (pending_case (timed here w) g x Hinv1).
    + apply (takes_case (timed here w) w' g g' case status Hinv1 Hi Hd).
  - right. split; [|split; [done|]].
    + eapply Forall_impl; [exact Hp|]. intros x. apply (pending_case (timed here w) g x Hinv1).
    + destruct (deadline <=? now)%N; [by destruct H as (? & _ & ?)|]. destruct H as (Est & Hm & Hph).
      split; [done|]. split; [done|]. destruct (proj2 (ti_dom _ _ (core_task _ _ (inv_core _ _ Hi)) t)) as [k' Hk']; [eauto|].
      exists k'. split; [done|]. by apply (at_place_phase w' g' t k').
Qed.

(** A select locks the channels of its cases each once and in the order of their
    addresses, so that two selects cannot wait for each other's locks. *)
Theorem locks_ordered cases locks :
  lock_cases [] cases = Some locks →
  StronglySorted lt locks ∧ ∀ c, c ∈ locks ↔ ∃ case, case ∈ cases ∧ case_channel case = Some c.
Proof.
  assert (Hins : ∀ c l, StronglySorted lt l → c ∉ l →
    StronglySorted lt (insert_channel c l) ∧ ∀ x, x ∈ insert_channel c l ↔ x = c ∨ x ∈ l).
  { intros c l. induction l as [|d l IH]; intros Hs Hn; cbn [insert_channel].
    - split; [by repeat constructor|]. intros x. rewrite elem_of_cons. naive_solver.
    - apply StronglySorted_inv in Hs as [Hs Hd]. apply not_elem_of_cons in Hn as [Hcd Hn]. case_bool_decide as Hlt.
      + split; [|intros x; by rewrite elem_of_cons]. constructor; [by constructor|]. constructor; [done|].
        eapply Forall_impl; [exact Hd|]. intros x Hx. lia.
      + destruct (IH Hs Hn) as [IHs IHe]. split.
        * constructor; [done|]. apply Forall_forall. intros x [->|Hx]%IHe; [lia|]. rewrite Forall_forall in Hd. by apply Hd.
        * intros x. rewrite !elem_of_cons, IHe. naive_solver. }
  assert (Hloop : ∀ l, StronglySorted lt l → lock_cases l cases = Some locks →
    StronglySorted lt locks ∧ ∀ c, c ∈ locks ↔ c ∈ l ∨ ∃ case, case ∈ cases ∧ case_channel case = Some c).
  { induction cases as [|case cases IH]; intros l Hs; cbn [lock_cases].
    - intros [= <-]. split; [done|]. intros c. split; [by left|]. by intros [?|(? & ?%not_elem_of_nil & _)].
    - destruct (case_channel case) as [d|] eqn:Ed; [|done]. case_bool_decide as Hd; intros Hl.
      + destruct (IH l Hs Hl) as [IHs IHe]. split; [done|]. intros c. rewrite IHe. setoid_rewrite elem_of_cons. naive_solver.
      + destruct (Hins d l Hs Hd) as [Hs' He']. destruct (IH _ Hs' Hl) as [IHs IHe]. split; [done|]. intros c.
        rewrite IHe, He'. setoid_rewrite elem_of_cons. naive_solver. }
  intros Hl. destruct (Hloop [] (SSorted_nil _) Hl) as [Hs He]. split; [done|]. intros c. rewrite He.
  split; [by intros [?%not_elem_of_nil|?]|by right].
Qed.

(** ** Endpoints *)

(** Dropping a sender: the last one tells every receiver that waits that the channel is
    closed, and the channel is freed exactly when neither receivers nor messages being
    dropped hold it. *)
Theorem drop_sender_exact {V} here (w : World V) c ch :
  reachable w → permitted here w (CallDropSender c) → w_channels w !! c = Some ch →
  ∃ w', drop_sender here c w = Done tt w' ∧ w_memory w' = w_memory w ∧
    (w_channels w' !! c = None ↔ senders ch = 1%N ∧ receivers ch = 0%N ∧ holds ch = 0%N) ∧
    (senders ch = 1%N → ∀ t, t ∈ waiters w c Receive → will_resume w' t FDN_CHANNEL_CLOSED).
Proof.
  intros [g Hinv]%reachable_inv [Hu [(ch1 & Hc1 & He)%owns_channel Hs]] Hc. rewrite Hc in Hc1. injection Hc1 as <-.
  destruct (call_done _ _ _ (drop_sender_runs here w g c ch Hinv (unparked_free here w g Hinv Hu) Hc He
    (unshared_idle w c ch Send Hs Hc))) as ([] & w' & E & g' & Hi & Hm & Hn & Hall).
  exists w'. rewrite (waiters_gq w g) by done. by split_and!.
Qed.

(** ** A program that reaches such worlds *)

Definition scenario (calls_ : list (nat * Call nat)) : World nat := default (empty_world ∅) (history (empty_world ∅) calls_).
Lemma scenario_reachable calls_ : is_some (history (empty_world ∅) calls_) = true → reachable (scenario calls_).
Proof.
  unfold scenario. destruct (history (empty_world ∅) calls_) as [w|] eqn:E; [|done]. intros _.
  by apply (history_reachable calls_ (empty_world ∅)); [apply reach_start|].
Qed.
Definition task_of (w : World nat) (t : nat) : Task := default (new_task 0) (w_tasks w !! t).
Definition channel_of (w : World nat) (c : nat) : Channel nat :=
  default (mkChannel 0 0 0 0 0 0 false [] emptyQueue emptyQueue []) (w_channels w !! c).

(** Two tasks of one thread and a channel for one value: the first waits to receive. *)
Definition receiver_waits : list (nat * Call nat) :=
  [(0, CallSpawn 1); (0, CallSpawn 2); (0, CallOpen 1 1 false 7); (0, CallRunStart); (0, CallReceive 7 (Some 100));
   (0, CallRunFinish false); (0, CallWrite 200 (Some 42)); (0, CallRunStart)].
(** The first has sent one value and waits to send another. *)
Definition sender_waits : list (nat * Call nat) :=
  [(0, CallSpawn 1); (0, CallSpawn 2); (0, CallOpen 1 1 false 7); (0, CallWrite 100 (Some 41)); (0, CallWrite 101 (Some 42));
   (0, CallRunStart); (0, CallSend 7 (Some 100)); (0, CallSend 7 (Some 101)); (0, CallRunFinish false); (0, CallRunStart)].
(** Nothing is sent yet. *)
Definition nothing_sent : list (nat * Call nat) := [(0, CallSpawn 1); (0, CallOpen 1 1 false 7); (0, CallRunStart)].

Ltac by_running := vm_compute; reflexivity.
Ltac by_deciding := apply (bool_decide_unpack _); vm_compute; exact I.

(** A task of thread 1 waits to receive what a task of thread 0 sends. *)
Definition thread_waits : list (nat * Call nat) :=
  [(1, CallSpawn 1); (0, CallSpawn 2); (0, CallOpen 1 1 false 7); (1, CallRunStart); (1, CallReceive 7 (Some 100));
   (1, CallRunFinish false); (0, CallWrite 200 (Some 42)); (0, CallRunStart)].

Lemma runtime_safe_witness :
  let call := CallSend 7 (Some 200) in
  ∃ w', perform 0 call (scenario thread_waits) = Done tt w' ∧ reachable w' ∧
    ∀ e, home w' e = home_of e (live w' e) ∧ (e_mailbox (exec w' e) ≠ [] → e ∈ w_notified w').
Proof. apply (runtime_safe 0); [apply scenario_reachable; by_running|by_deciding]. Defined.

(** The wake of a receiver on another thread, cut where [fdn_task_wake] unlocks the mailbox:
    before the source is read, thread 1 takes the mail, runs the task to its end (the
    channel's lock is not needed to read the wake) and releases it, the last one it has. *)
Definition raced_wake : R nat unit :=
  _ ← pop_waiting Receive 7;
  _ ← wake_push 1 1 FDN_CHANNEL_READY;
  _ ← poll_idle_sources 1;
  _ ← run_start 1;
  _ ← poll_receive 1 (Some 7) (Some 100);
  _ ← run_finish 1 true;
  release 1 1.

(** Everything before went well, and the source is read from a mailbox that was freed. *)
Theorem wake_notify_race :
  reachable (scenario thread_waits) ∧ ∃ w', raced_wake (scenario thread_waits) = Done tt w' ∧ wake_notify 1 w' = Undefined.
Proof. split; [apply scenario_reachable; by_running|]. eexists. split; by_running. Qed.

Lemma no_lost_wakeup_witness :
  waiters (scenario receiver_waits) 7 Receive = [1] ∧ messages (channel_of (scenario receiver_waits) 7) = [].
Proof.
  split; [by_running|].
  apply (no_lost_wakeup (scenario receiver_waits) 7); [apply scenario_reachable; by_running|by_running|].
  left. vm_compute. discriminate.
Defined.

Lemma no_task_lost_witness :
  ∃ p, at_place (scenario receiver_waits) 1 (task_of (scenario receiver_waits) 1) p ∧
    ∀ q, at_place (scenario receiver_waits) 1 (task_of (scenario receiver_waits) 1) q → q = p.
Proof. apply no_task_lost; [apply scenario_reachable; by_running|by_running]. Defined.

Lemma send_exact_witness :
  ∃ status w', poll_send 0 (Some 7) (Some 200) (scenario receiver_waits) = Done status w' ∧
    sends (scenario receiver_waits) 7 (channel_of (scenario receiver_waits) 7) (Some 200) status w'.
Proof.
  pose proof (send_exact 0 (scenario receiver_waits) 2 (task_of (scenario receiver_waits) 2) 7
    (channel_of (scenario receiver_waits) 7) (Some 200)) as H.
  assert (Ec : cancellation_requested (task_of (scenario receiver_waits) 2) = false) by by_running.
  assert (Er : (receivers (channel_of (scenario receiver_waits) 7) =? 0)%N = false) by by_running.
  rewrite Ec, Er in H. apply H; [|by_running]. split; [apply scenario_reachable; by_running|by_deciding|by_running|by_running|by_running].
Defined.

Lemma receive_exact_witness :
  ∃ status w', poll_receive 0 (Some 7) (Some 300) (scenario sender_waits) = Done status w' ∧
    receives (scenario sender_waits) 7 (channel_of (scenario sender_waits) 7) (Some 300) status w'.
Proof.
  pose proof (receive_exact 0 (scenario sender_waits) 2 (task_of (scenario sender_waits) 2) 7
    (channel_of (scenario sender_waits) 7) (Some 300)) as H.
  assert (Ec : cancellation_requested (task_of (scenario sender_waits) 2) = false) by by_running.
  rewrite Ec in H. apply H; [|by_running]. split; [apply scenario_reachable; by_running|by_deciding|by_running|by_running|by_running].
Defined.

Lemma select_exact_witness :
  let w := scenario nothing_sent in
  let cases := [mkSelectCase (Some 7) (Some 300) FDN_CHANNEL_SELECT_RECEIVE] in
  ∃ status index w', poll_select 0 (Some 5) cases 100 0 50 w = Done (status, index) w' ∧
    ((∃ j case, index = Some j ∧ cases !! j = Some case ∧ Forall (pending w) (take j cases) ∧ takes w case status w') ∨
     Forall (pending w) cases ∧ index = None ∧ status = FDN_CHANNEL_PENDING ∧ w_memory w' = w_memory w ∧
       ∃ k', w_tasks w' !! 1 = Some k' ∧ at_place w' 1 k' (In_select 50)).
Proof.
  intros w cases.
  pose proof (select_exact 0 w 1 (task_of w 1) 5 cases 100 0 50) as H.
  assert (Ec : cancellation_requested (task_of w 1) = false) by by_running. rewrite Ec in H. apply H.
  split; [apply scenario_reachable; by_running|by_deciding|by_running|by_running|by_running].
Defined.

Lemma locks_ordered_witness :
  StronglySorted lt [3; 7] ∧ ∀ c, c ∈ [3; 7] ↔ ∃ case, case ∈ [mkSelectCase (Some 7) None 1; mkSelectCase (Some 3) None 2;
    mkSelectCase (Some 7) None 2] ∧ case_channel case = Some c.
Proof. apply locks_ordered. reflexivity. Defined.

Lemma drop_sender_exact_witness :
  ∃ w', drop_sender 0 7 (scenario receiver_waits) = Done tt w' ∧ will_resume w' 1 FDN_CHANNEL_CLOSED.
Proof.
  destruct (drop_sender_exact 0 (scenario receiver_waits) 7 (channel_of (scenario receiver_waits) 7)) as (w' & E & _ & _ & H).
  - apply scenario_reachable; by_running.
  - by_deciding.
  - by_running.
  - exists w'. split; [exact E|]. apply H; [by_running|]. vm_compute. left.
Defined.
