(* ===== verification/ParseFloat.v ===== *)
(** * Floating-point numbers in text (runtime/src/parse.c)

    [foundation_runtime_parse_f32] and [foundation_runtime_parse_f64]: special values, the
    syntax with its separators, and hexadecimal numbers, which the runtime rounds itself.
    A float is its bit pattern.  What follows in a text stands for an offset into it. *)
From Stdlib Require Import ZArith.
From S2P Require Import Prelude.
Local Open Scope Z_scope.

Inductive ParseStatus := FDN_PARSE_OK | FDN_PARSE_EMPTY | FDN_PARSE_INVALID | FDN_PARSE_OUT_OF_RANGE.
#[export] Instance ParseStatus_eq_dec : EqDecision ParseStatus.
Proof. solve_decision. Defined.

Definition INT64_MAX : Z := 9223372036854775807.
Definition INT64_MIN : Z := -9223372036854775808.
Definition SIZE_MAX : Z := 18446744073709551615.
Definition uint64 (value : Z) : Z := value mod 18446744073709551616.

Definition ascii_lower (value : ascii) : ascii := if isupper value then ascii_of_N (byte_val value + 32) else value.
Definition ascii_equal (value expected : bytes) : bool :=
  (length value =? length expected)%nat && forallb (λ p : ascii * ascii, bool_decide (ascii_lower p.1 = p.2)) (zip value expected).

(** ** Syntax *)

Definition float_digit (value : ascii) (hexadecimal : bool) : bool :=
  isdigit value || hexadecimal && between 97 102 (ascii_lower value).

(** What follows the digits, and whether there was one. *)
Fixpoint float_digits (hexadecimal previous_digit saw_digit : bool) (rest : bytes) : option (bytes * bool) :=
  match rest with
  | [] => Some ([], saw_digit)
  | current :: rest' =>
      if float_digit current hexadecimal then float_digits hexadecimal true true rest'
      else if negb (bool_decide (current = "_"%char)) then Some (rest, saw_digit)
      else if negb previous_digit || negb (match rest' with next :: _ => float_digit next hexadecimal | [] => false end) then None
      else float_digits hexadecimal false saw_digit rest'
  end.

Definition is_sign (c : ascii) : bool := bool_decide (c = "+"%char) || bool_decide (c = "-"%char).
Definition skip_sign (rest : bytes) : bytes :=
  match rest with c :: rest' => if is_sign c then rest' else rest | [] => [] end.
(** A hexadecimal prefix and what follows it. *)
Definition hex_prefix_of (rest : bytes) : bool * bytes :=
  match rest with
  | zero :: x :: rest' =>
      if bool_decide (zero = "0"%char) && bool_decide (ascii_lower x = "x"%char) then (true, rest') else (false, rest)
  | _ => (false, rest)
  end.

Definition float_exponent (hexadecimal : bool) (rest : bytes) : bool :=
  match rest with
  | c :: rest' =>
      if bool_decide (ascii_lower c = if hexadecimal then "p"%char else "e"%char) then
        match float_digits false false false (skip_sign rest') with
        | Some (rest'', exponent_digit) => exponent_digit && bool_decide (rest'' = [])
        | None => false
        end
      else negb hexadecimal && bool_decide (rest = [])
  | [] => negb hexadecimal
  end.
Definition float_fraction (hexadecimal saw_digit : bool) (rest : bytes) : option (bytes * bool) :=
  match rest with
  | c :: rest' => if bool_decide (c = "."%char) then float_digits hexadecimal false saw_digit rest' else Some (rest, saw_digit)
  | [] => Some ([], saw_digit)
  end.
Definition float_syntax (value : bytes) : bool :=
  let '(hexadecimal, rest) := hex_prefix_of (skip_sign value) in
  match float_digits hexadecimal hexadecimal false rest with
  | None => false
  | Some (rest, saw_digit) =>
      match float_fraction hexadecimal saw_digit rest with
      | None => false
      | Some (rest, saw_digit) => saw_digit && float_exponent hexadecimal rest
      end
  end.

Definition float_copy (value : bytes) : bytes := List.filter (λ c, negb (bool_decide (c = "_"%char))) value.

(** ** Hexadecimal numbers *)

Record HexNumber := mkHexNumber {
  hx_source : bytes;
  hx_exponent_offset : nat;
  hx_first_nonzero : option nat;
  hx_digit_count : nat;
  hx_integer_digits : nat;
  hx_first_value : Z;
  hx_first_bits : nat;
  hx_exponent : Z;
  hx_negative : bool;
}.

Definition hex_digit (value : ascii) : Z :=
  if isdigit value then Z.of_N (byte_val value) - 48 else (Z.of_N (byte_val (ascii_lower value)) - 97 + 10) mod 4294967296.

Definition saturating_add_i64 (left right : Z) : Z :=
  if (0 <? right) && (INT64_MAX - right <? left) then INT64_MAX
  else if (right <? 0) && (left <? INT64_MIN - right) then INT64_MIN
  else left + right.

Fixpoint exponent_loop (negative : bool) (rest : bytes) (magnitude : Z) : Z :=
  match rest with
  | [] => if negative then - magnitude else magnitude
  | c :: rest =>
      let digit := uint64 (Z.of_N (byte_val c) - 48) in
      if (INT64_MAX - digit) / 10 <? magnitude then (if negative then INT64_MIN else INT64_MAX)
      else exponent_loop negative rest (uint64 (magnitude * 10 + digit))
  end.
Definition negative_sign (rest : bytes) : bool := match rest with c :: _ => bool_decide (c = "-"%char) | [] => false end.
Definition hex_exponent (rest : bytes) : Z := exponent_loop (negative_sign rest) (skip_sign rest) 0.

(** One digit more. *)
Definition add_digit (fractional : bool) (digit : Z) (number : HexNumber) : HexNumber :=
  let first := negb (digit =? 0) && bool_decide (hx_first_nonzero number = None) in
  mkHexNumber (hx_source number) (hx_exponent_offset number)
    (if first then Some (hx_digit_count number) else hx_first_nonzero number)
    (S (hx_digit_count number))
    (if fractional then hx_integer_digits number else S (hx_integer_digits number))
    (if first then digit else hx_first_value number)
    (if first then (if (8 <=? digit)%Z then 4 else if (4 <=? digit)%Z then 3 else if (2 <=? digit)%Z then 2 else 1)%nat else hx_first_bits number)
    (hx_exponent number) (hx_negative number).
(** The digits up to the exponent; [None] past the end of the text. *)
Fixpoint read_digits (fractional : bool) (offset : nat) (rest : bytes) (number : HexNumber) : option HexNumber :=
  match rest with
  | [] => None
  | c :: rest =>
      if bool_decide (ascii_lower c = "p"%char) then
        Some (mkHexNumber (hx_source number) offset (hx_first_nonzero number) (hx_digit_count number)
                (hx_integer_digits number) (hx_first_value number) (hx_first_bits number) (hex_exponent rest) (hx_negative number))
      else if bool_decide (c = "."%char) then read_digits true (S offset) rest number
      else read_digits fractional (S offset) rest (add_digit fractional (hex_digit c) number)
  end.
Definition hex_read (source : bytes) : option HexNumber :=
  let offset := ((if match source with c :: _ => is_sign c | [] => false end then 1 else 0) + 2)%nat in
  read_digits false offset (drop offset source) (mkHexNumber source 0 None 0 0 0 0 0 (negative_sign source)).

(** The text from the first digit to the exponent. *)
Definition hex_mantissa (number : HexNumber) : bytes :=
  let start := (if hx_negative number || bool_decide (head (hx_source number) = Some "+"%char) then 3 else 2)%nat in
  take (hx_exponent_offset number - start) (drop start (hx_source number)).

Fixpoint digit_at (rest : bytes) (current ordinal : nat) : Z :=
  match rest with
  | [] => 0
  | c :: rest =>
      if bool_decide (c = "."%char) then digit_at rest current ordinal
      else if (current =? ordinal)%nat then hex_digit c
      else digit_at rest (S current) ordinal
  end.
Definition hex_digit_at (number : HexNumber) (ordinal : nat) : Z := digit_at (hex_mantissa number) 0 ordinal.

(** The digit and the bit in it at an index behind the bits of the first digit. *)
Definition bit_place (number : HexNumber) (index : nat) : nat * nat :=
  let remaining := (index - hx_first_bits number)%nat in
  (default 0 (hx_first_nonzero number) + 1 + remaining / 4, 3 - remaining mod 4)%nat.
Definition hex_bit_at (number : HexNumber) (index : nat) : bool :=
  if (index <? hx_first_bits number)%nat then
    negb (Z.land (hx_first_value number) (Z.shiftl 1 (Z.of_nat (hx_first_bits number - index - 1))) =? 0)
  else
    let '(ordinal, bit) := bit_place number index in
    negb (Z.land (hex_digit_at number ordinal) (Z.shiftl 1 (Z.of_nat bit)) =? 0).

Definition hex_prefix (number : HexNumber) (count : nat) : Z :=
  foldl (λ result index, Z.lor (uint64 (Z.shiftl result 1)) (if hex_bit_at number index then 1 else 0)) 0 (seq 0 count).

Fixpoint any_digit_behind (rest : bytes) (current ordinal : nat) : bool :=
  match rest with
  | [] => false
  | c :: rest =>
      if bool_decide (c = "."%char) then any_digit_behind rest current ordinal
      else if (ordinal <? current)%nat && negb (hex_digit c =? 0) then true
      else any_digit_behind rest (S current) ordinal
  end.
Definition hex_any_from (number : HexNumber) (index : nat) (bit_count : Z) : bool :=
  if bit_count <=? Z.of_nat index then false
  else
    let '(ordinal, bit) :=
      if (hx_first_bits number <=? index)%nat then bit_place number index
      else (default 0 (hx_first_nonzero number), hx_first_bits number - 1 - index)%nat in
    let mask := Z.shiftl 1 (Z.of_nat (bit + 1)) - 1 in
    if negb (Z.land (hex_digit_at number ordinal) mask =? 0) then true
    else any_digit_behind (hex_mantissa number) 0 ordinal.

Definition hex_binary_exponent (number : HexNumber) : Z :=
  let first_nonzero := default 0%nat (hx_first_nonzero number) in
  let position :=
    if (first_nonzero <? hx_integer_digits number)%nat then
      let digits := Z.of_nat (hx_integer_digits number - first_nonzero - 1) in
      if INT64_MAX / 4 <? digits then INT64_MAX else digits * 4
    else
      let digits := Z.of_nat (first_nonzero + 1 - hx_integer_digits number) in
      if INT64_MAX / 4 <? digits then INT64_MIN else - digits * 4 in
  saturating_add_i64 (saturating_add_i64 (hx_exponent number) position) (Z.of_nat (hx_first_bits number) - 1).
Definition hex_bit_count (number : HexNumber) : Z :=
  let remaining := Z.of_nat (hx_digit_count number - default 0%nat (hx_first_nonzero number) - 1) in
  if (SIZE_MAX - Z.of_nat (hx_first_bits number)) / 4 <? remaining then SIZE_MAX
  else Z.of_nat (hx_first_bits number) + remaining * 4.

(** ** Rounding *)

Section hex_bits.
Context (precision : nat) (minimum_exponent maximum_exponent exponent_bias : Z) (sign_bit : nat).

Definition round_up (round sticky : bool) (significand : Z) : Z :=
  if round && (sticky || negb (Z.land significand 1 =? 0)) then uint64 (significand + 1) else significand.

(** The result of a number that is not zero, and not below the least normal one. *)
Definition hex_normal (number : HexNumber) (sign leading bit_count exponent : Z) : option Z :=
  if maximum_exponent <? exponent then None
  else if bit_count <=? Z.of_nat precision then
    let significand := uint64 (Z.shiftl (hex_prefix number (Z.to_nat bit_count)) (Z.of_nat precision - bit_count)) in
    Some (Z.lor (Z.lor sign (uint64 (Z.shiftl (uint64 (exponent + exponent_bias)) (Z.of_nat precision - 1)))) (uint64 (significand - leading)))
  else
    let significand := round_up (hex_bit_at number precision) (hex_any_from number (precision + 1) bit_count) (hex_prefix number precision) in
    let '(significand, exponent) := if significand =? uint64 (Z.shiftl leading 1) then (leading, exponent + 1) else (significand, exponent) in
    if maximum_exponent <? exponent then None
    else Some (Z.lor (Z.lor sign (uint64 (Z.shiftl (uint64 (exponent + exponent_bias)) (Z.of_nat precision - 1)))) (uint64 (significand - leading))).

(** The result of a number below the least normal one. *)
Definition hex_subnormal (number : HexNumber) (sign leading bit_count exponent : Z) : Z :=
  let keep := saturating_add_i64 (saturating_add_i64 exponent (- minimum_exponent)) (Z.of_nat precision) in
  let significand :=
    if 0 <? keep then
      if bit_count <=? keep then uint64 (Z.shiftl (hex_prefix number (Z.to_nat bit_count)) (keep - bit_count))
      else round_up (hex_bit_at number (Z.to_nat keep)) (hex_any_from number (Z.to_nat keep + 1) bit_count)
             (hex_prefix number (Z.to_nat keep))
    else if keep =? 0 then round_up true (hex_any_from number 1 bit_count) 0
    else 0 in
  if significand =? leading then Z.lor sign (Z.shiftl 1 (Z.of_nat precision - 1)) else Z.lor sign significand.

(** [result] is what the result holds before. *)
Definition hex_bits (source : bytes) (result : Z) : option (ParseStatus * Z) :=
  number ← hex_read source;
  let sign := if hx_negative number then Z.shiftl 1 (Z.of_nat sign_bit) else 0 in
  Some (match hx_first_nonzero number with
  | None => (FDN_PARSE_OK, sign)
  | Some _ =>
      let bit_count := hex_bit_count number in
      let exponent := hex_binary_exponent number in
      let leading := Z.shiftl 1 (Z.of_nat precision - 1) in
      if minimum_exponent <=? exponent then
        match hex_normal number sign leading bit_count exponent with
        | Some bits => (FDN_PARSE_OK, bits)
        | None => (FDN_PARSE_OUT_OF_RANGE, result)
        end
      else (FDN_PARSE_OK, hex_subnormal number sign leading bit_count exponent)
  end).
End hex_bits.

Definition hex_f32 (source : bytes) : option (ParseStatus * Z) :=
  '(status, parsed) ← hex_bits 24 (-126) 127 127 31 source 0; Some (status, parsed mod 4294967296).
Definition hex_f64 (source : bytes) : option (ParseStatus * Z) := hex_bits 53 (-1022) 1023 1023 63 source 0.

Definition float_is_hexadecimal (value : bytes) : bool := (hex_prefix_of (skip_sign value)).1.

(** ** The entry points *)

Record FloatFormat := mkFormat { ff_nan : Z; ff_infinity : Z; ff_sign : Z }.
Definition f32_format : FloatFormat := mkFormat 0x7fc00000 0x7f800000 0x80000000.
Definition f64_format : FloatFormat := mkFormat 0x7ff8000000000000 0x7ff0000000000000 0x8000000000000000.

Definition float_special (format : FloatFormat) (value : bytes) : option Z :=
  if ascii_equal value (lit "nan") then Some (ff_nan format)
  else if ascii_equal value (lit "inf") || ascii_equal value (lit "+inf") ||
          ascii_equal value (lit "infinity") || ascii_equal value (lit "+infinity") then Some (ff_infinity format)
  else if ascii_equal value (lit "-inf") || ascii_equal value (lit "-infinity") then
    Some (ff_sign format + ff_infinity format)
  else None.
Definition float_isinf (format : FloatFormat) (bits : Z) : bool :=
  (bits =? ff_infinity format) || (bits =? ff_sign format + ff_infinity format).

Section parse.
(** [strtof_l] and [strtod_l]: the bits of the number and whether the whole text was read. *)
Context (strtof strtod : bytes → Z * bool).

(** The status and what was written to the result; a text that is not there is [None]. *)
Definition parse_float (format : FloatFormat) (hex : bytes → option (ParseStatus * Z)) (strto : bytes → Z * bool)
    (value : option bytes) : option (ParseStatus * option Z) :=
  match value with
  | None => Some (FDN_PARSE_INVALID, None)
  | Some value =>
      if (length value =? 0)%nat then Some (FDN_PARSE_EMPTY, None)
      else match float_special format value with
      | Some bits => Some (FDN_PARSE_OK, Some bits)
      | None =>
          if negb (float_syntax value) then Some (FDN_PARSE_INVALID, None)
          else if Z.of_nat (length value) =? SIZE_MAX then Some (FDN_PARSE_OUT_OF_RANGE, None)
          else
            let copy := float_copy value in
            if float_is_hexadecimal copy then '(status, bits) ← hex copy; Some (status, Some bits)
            else
              let '(parsed, complete) := strto copy in
              if negb complete then Some (FDN_PARSE_INVALID, None)
              else if float_isinf format parsed then Some (FDN_PARSE_OUT_OF_RANGE, None)
              else Some (FDN_PARSE_OK, Some parsed)
      end
  end.
Definition foundation_runtime_parse_f32 : option bytes → option (ParseStatus * option Z) := parse_float f32_format hex_f32 strtof.
Definition foundation_runtime_parse_f64 : option bytes → option (ParseStatus * option Z) := parse_float f64_format hex_f64 strtod.
End parse.
