(* ===== verification/ParseFloatProofs.v ===== *)
(** * Hexadecimal numbers are rounded correctly

    What rounding to a binary floating-point format is, what the digits of a literal are
    worth, what the routines on its digits compute of that value, and what is read from a
    text.  A positive float is a code, the bits below its sign: the floats are in the order
    of their codes, and the code behind the greatest float is infinity. *)
From Stdlib Require Import ZArith Lia.
From S2P Require Import Prelude ParseFloat.
Local Open Scope Z_scope.

(** The number of units [2^u] nearest to [m * 2^q]. *)
Definition round_half_even (m q u : Z) : Z :=
  if u <=? q then m * 2 ^ (q - u)
  else
    let n := m / 2 ^ (u - q) in
    let r := m mod 2 ^ (u - q) in
    let half := 2 ^ (u - q - 1) in
    if (half <? r) || (half =? r) && Z.odd n then n + 1 else n.

Section format.
Context (precision minimum_exponent maximum_exponent : Z).

Definition infinity_code : Z := (maximum_exponent - minimum_exponent + 2) * 2 ^ (precision - 1).

Definition float_code (m q : Z) : Z :=
  let exponent := Z.max (Z.log2 m + q) minimum_exponent in
  (exponent - minimum_exponent) * 2 ^ (precision - 1) + round_half_even m q (exponent - (precision - 1)).

(** The value of a code in units of [2^-k]. *)
Definition code_value (k code : Z) : Z :=
  let unit := minimum_exponent - precision + 1 + k in
  if code <? 2 ^ (precision - 1) then code * 2 ^ unit
  else (2 ^ (precision - 1) + code mod 2 ^ (precision - 1)) * 2 ^ (code / 2 ^ (precision - 1) - 1 + unit).

(** No other code is closer to [m * 2^q], and one that is as close is odd. *)
Definition closest (m q code : Z) : Prop :=
  ∀ k code', 0 ≤ q + k → 0 ≤ minimum_exponent - precision + 1 + k → 0 ≤ code' ≤ infinity_code → code' ≠ code →
    Z.abs (m * 2 ^ (q + k) - code_value k code) < Z.abs (m * 2 ^ (q + k) - code_value k code') ∨
    Z.abs (m * 2 ^ (q + k) - code_value k code) = Z.abs (m * 2 ^ (q + k) - code_value k code') ∧ Z.even code = true.

Hypothesis (precision_ok : 2 ≤ precision).

(** Codes of one exponent are spaced evenly, the first of the next one included. *)
Lemma code_value_at k e n :
  0 ≤ e → 0 ≤ minimum_exponent - precision + 1 + k → (e = 0 ∨ 2 ^ (precision - 1) ≤ n) → 0 ≤ n ≤ 2 ^ precision →
  code_value k (e * 2 ^ (precision - 1) + n) = n * 2 ^ (e + (minimum_exponent - precision + 1) + k).
Proof.
  intros He Hk Hn Hb. unfold code_value.
  assert (2 ^ precision = 2 * 2 ^ (precision - 1)) as Hp by (rewrite <- Z.pow_succ_r by lia; f_equal; lia).
  set (h := 2 ^ (precision - 1)) in *. assert (0 < h) as Hh by (apply Z.pow_pos_nonneg; lia).
  set (u := minimum_exponent - precision + 1) in *.
  destruct (e * h + n <? h) eqn:Ec; [apply Z.ltb_lt in Ec|apply Z.ltb_ge in Ec].
  - assert (e = 0) as -> by (destruct (Z.eq_dec e 0); [done|exfalso; destruct Hn; [done|nia]]).
    rewrite Z.mul_0_l, !Z.add_0_l in *. done.
  - assert (h ≤ n) as Hn' by (destruct Hn as [->|]; lia).
    destruct (Z.eq_dec n (2 * h)) as [->|Hne].
    + replace (e * h + 2 * h) with ((e + 2) * h) by ring.
      rewrite Z.mod_mul, Z.div_mul, Z.add_0_r by lia.
      replace (e + 2 - 1 + (u + k)) with (1 + (e + u + k)) by ring.
      rewrite Z.pow_add_r by lia. ring.
    + replace (e * h + n) with ((n - h) + (e + 1) * h) by ring.
      rewrite Z.mod_add, Z.div_add, Z.mod_small, Z.div_small by lia.
      replace (h + (n - h)) with n by ring. f_equal. f_equal. ring.
Qed.

Lemma code_value_step k code : 0 ≤ code → 0 ≤ minimum_exponent - precision + 1 + k → code_value k code < code_value k (code + 1).
Proof.
  intros Hc Hk. set (h := 2 ^ (precision - 1)).
  assert (0 < h) as Hh by (apply Z.pow_pos_nonneg; lia).
  assert (2 ^ precision = 2 * h) as Hp by (subst h; rewrite <- Z.pow_succ_r by lia; f_equal; lia).
  assert (∃ e n, code = e * h + n ∧ 0 ≤ e ∧ (e = 0 ∨ h ≤ n) ∧ 0 ≤ n < 2 ^ precision) as (e & n & -> & He & Hn & Hb).
  { rewrite Hp. pose proof (Z.div_mod code h ltac:(lia)). pose proof (Z.mod_pos_bound code h Hh).
    pose proof (Z.div_pos code h Hc Hh). destruct (Z.eq_dec (code / h) 0) as [E|E].
    - exists 0, code. rewrite E in *. split_and!; try lia.
    - exists (code / h - 1), (code mod h + h). split_and!; try lia; right; lia. }
  rewrite <- Z.add_assoc. unfold h. rewrite !code_value_at by lia.
  apply Z.mul_lt_mono_pos_r; [apply Z.pow_pos_nonneg; lia|lia].
Qed.
Lemma code_value_mono k a b : 0 ≤ a ≤ b → 0 ≤ minimum_exponent - precision + 1 + k → code_value k a ≤ code_value k b.
Proof.
  intros [Ha Hab] Hk. replace b with (a + Z.of_nat (Z.to_nat (b - a))) by lia.
  induction (Z.to_nat (b - a)) as [|i IH]; [by rewrite Z.add_0_r|].
  pose proof (code_value_step k (a + Z.of_nat i) ltac:(lia) Hk).
  replace (a + Z.of_nat (S i)) with (a + Z.of_nat i + 1) by lia. lia.
Qed.

(** Of two neighbours with the number between them one is closest to it. *)
Lemma closest_between m q code (up : bool) :
  0 ≤ code →
  (∀ k, 0 ≤ q + k → 0 ≤ minimum_exponent - precision + 1 + k →
    let v := m * 2 ^ (q + k) in
    code_value k code ≤ v < code_value k (code + 1) ∧
    (if up then code_value k (code + 1) - v < v - code_value k code ∨
                code_value k (code + 1) - v = v - code_value k code ∧ Z.even (code + 1) = true
     else v - code_value k code < code_value k (code + 1) - v ∨
          v - code_value k code = code_value k (code + 1) - v ∧ Z.even code = true)) →
  closest m q (if up then code + 1 else code).
Proof.
  intros Hc H k code' Hq Hk Hc' Hne. specialize (H k Hq Hk). cbn zeta in H. set (v := m * 2 ^ (q + k)) in *.
  destruct H as [Hv H]. destruct (Z.le_gt_cases code' code) as [Hle|Hgt].
  - pose proof (code_value_mono k code' code ltac:(lia) Hk). destruct up; [destruct H as [H|[H He]]|].
    + left. lia.
    + destruct (Z.eq_dec (code_value k code') (code_value k code)); [right; split; [lia|done]|left; lia].
    + assert (code' < code) as Hlt by lia. pose proof (code_value_mono k (code' + 1) code ltac:(lia) Hk).
      pose proof (code_value_step k code' ltac:(lia) Hk). left. lia.
  - pose proof (code_value_mono k (code + 1) code' ltac:(lia) Hk). destruct up.
    + assert (code + 1 < code') as Hlt by lia. pose proof (code_value_mono k (code + 1 + 1) code' ltac:(lia) Hk).
      pose proof (code_value_step k (code + 1) ltac:(lia) Hk). left. lia.
    + destruct H as [H|[H He]]; [left; lia|].
      destruct (Z.eq_dec (code_value k code') (code_value k (code + 1))); [right; split; [lia|done]|left; lia].
Qed.

(** How many whole units there are. *)
Lemma units_bounds m q e n :
  0 < m → e = Z.max (Z.log2 m + q) minimum_exponent →
  (e - (precision - 1) ≤ q ∧ n = m * 2 ^ (q - (e - (precision - 1))) ∨
   q < e - (precision - 1) ∧ n = m / 2 ^ (e - (precision - 1) - q)) →
  (e = Z.log2 m + q → 2 ^ (precision - 1) ≤ n) ∧ 0 ≤ n < 2 ^ precision.
Proof.
  intros Hm He Hn. destruct (Z.log2_spec m Hm) as [Hl Hu]. pose proof (Z.log2_nonneg m).
  destruct Hn as [[Hq ->]|[Hq ->]].
  - set (d := q - (e - (precision - 1))). assert (0 < 2 ^ d) by (apply Z.pow_pos_nonneg; lia). split_and!; [|nia|].
    + intros ?. replace (precision - 1) with (Z.log2 m + d) by lia. rewrite Z.pow_add_r by lia. nia.
    + eapply Z.lt_le_trans; [apply Z.mul_lt_mono_pos_r; [done|exact Hu]|]. rewrite <- Z.pow_add_r by lia.
      apply Z.pow_le_mono_r; lia.
  - set (d := e - (precision - 1) - q). assert (0 < 2 ^ d) by (apply Z.pow_pos_nonneg; lia). split_and!.
    + intros ?. apply Z.div_le_lower_bound; [done|]. rewrite <- Z.pow_add_r by lia. replace (d + (precision - 1)) with (Z.log2 m) by lia. done.
    + apply Z.div_pos; lia.
    + apply Z.div_lt_upper_bound; [done|]. rewrite <- Z.pow_add_r by lia.
      eapply Z.lt_le_trans; [exact Hu|]. apply Z.pow_le_mono_r; lia.
Qed.

Lemma even_code e n : Z.even (e * 2 ^ (precision - 1) + n) = Z.even n.
Proof.
  rewrite Z.even_add, Z.even_mul, Z.even_pow by lia. rewrite orb_true_r. by destruct (Z.even n).
Qed.

(** What a positive number is rounded to is closest to it. *)
Lemma float_code_closest m q : 0 < m → closest m q (float_code m q).
Proof.
  intros Hm. unfold float_code. set (e := Z.max _ _). pose proof (units_bounds m q e) as Hb.
  specialize (λ n, Hb n Hm eq_refl). unfold round_half_even. set (u := e - (precision - 1)) in *.
  assert (0 ≤ e - minimum_exponent ∧ (e - minimum_exponent = 0 ∨ e = Z.log2 m + q)) as [He He'] by lia.
  assert (∀ k, e - minimum_exponent + (minimum_exponent - precision + 1) + k = u + k) as Hu by lia.
  destruct (u <=? q) eqn:Ec; [apply Z.leb_le in Ec|apply Z.leb_gt in Ec].
  - specialize (Hb _ (or_introl (conj Ec eq_refl))). destruct Hb as [Hb1 Hb]. assert (e - minimum_exponent = 0 ∨ 2 ^ (precision - 1) ≤ m * 2 ^ (q - u)) as Hb' by tauto. set (n := m * 2 ^ (q - u)) in *.
    apply (closest_between m q _ false); [nia|]. intros k Hq Hk. rewrite <- Z.add_assoc, !code_value_at, Hu by lia.
    replace (m * 2 ^ (q + k)) with (n * 2 ^ (u + k))
      by (unfold n; rewrite <- Z.mul_assoc, <- Z.pow_add_r by lia; f_equal; f_equal; lia).
    assert (0 < 2 ^ (u + k)) by (apply Z.pow_pos_nonneg; lia). lia.
  - specialize (Hb _ (or_intror (conj Ec eq_refl))). destruct Hb as [Hb1 Hb]. assert (e - minimum_exponent = 0 ∨ 2 ^ (precision - 1) ≤ m / 2 ^ (u - q)) as Hb' by tauto. set (n := m / 2 ^ (u - q)) in *. set (r := m mod 2 ^ (u - q)).
    assert (0 < 2 ^ (u - q)) as Hd by (apply Z.pow_pos_nonneg; lia).
    assert (2 ^ (u - q) = 2 * 2 ^ (u - q - 1)) as Hh by (rewrite <- Z.pow_succ_r by lia; f_equal; lia).
    pose proof (Z.div_mod m _ (not_eq_sym (Z.lt_neq _ _ Hd))) as Hdm. fold n r in Hdm.
    pose proof (Z.mod_pos_bound m _ Hd) as Hr. fold r in Hr. set (half := 2 ^ (u - q - 1)) in *.
    set (up := (half <? r) || (half =? r) && Z.odd n).
    replace ((e - minimum_exponent) * 2 ^ (precision - 1) + (if up then n + 1 else n)) with
      (if up then (e - minimum_exponent) * 2 ^ (precision - 1) + n + 1 else (e - minimum_exponent) * 2 ^ (precision - 1) + n)
      by (destruct up; ring).
    apply closest_between; [nia|]. intros k Hq Hk. rewrite <- !Z.add_assoc, !code_value_at, !even_code, Hu by lia.
    assert (0 < 2 ^ (q + k)) as Hp by (apply Z.pow_pos_nonneg; lia).
    replace (2 ^ (u + k)) with (2 ^ (u - q) * 2 ^ (q + k)) by (rewrite <- Z.pow_add_r by lia; f_equal; lia).
    rewrite Hdm. cbn zeta. rewrite Z.even_add. rewrite <- (Z.negb_odd n). cbn [Z.even]. split; [nia|]. subst up.
    destruct (Z.ltb_spec half r); cbn [orb]; [left; nia|].
    destruct (Z.eqb_spec half r) as [Hhr|]; cbn [andb]; [|left; nia].
    destruct (Z.odd n); cbn; right; split; try done; nia.
Qed.

Lemma zero_closest q : closest 0 q 0.
Proof.
  intros k code' Hq Hk Hc Hne. left.
  assert (code_value k 0 = 0) as ->.
  { unfold code_value. assert (0 < 2 ^ (precision - 1)) by (apply Z.pow_pos_nonneg; lia).
    destruct (Z.ltb_spec 0 (2 ^ (precision - 1))); [done|lia]. }
  pose proof (code_value_mono k 1 code' ltac:(lia) Hk). pose proof (code_value_step k 0 ltac:(lia) Hk).
  assert (code_value k 0 = 0) by (unfold code_value; destruct (Z.ltb_spec 0 (2 ^ (precision - 1))); [done|];
    pose proof (Z.pow_pos_nonneg 2 (precision - 1)); lia).
  rewrite Z.add_0_l in *. lia.
Qed.
End format.

(** * Hexadecimal numbers *)

(** ** Bits *)

Lemma land_bit x k : 0 ≤ k → negb (Z.land x (Z.shiftl 1 k) =? 0) = Z.testbit x k.
Proof.
  intros Hk. rewrite Z.shiftl_1_l. destruct (Z.testbit x k) eqn:Hb.
  - apply negb_true_iff, Z.eqb_neq. intros H. assert (Z.testbit (Z.land x (2 ^ k)) k = true) as H'.
    { by rewrite Z.land_spec, Hb, Z.pow2_bits_true. }
    by rewrite H, Z.bits_0 in H'.
  - apply negb_false_iff, Z.eqb_eq. apply Z.bits_inj. intros i. rewrite Z.land_spec, Z.bits_0.
    destruct (Z.eq_dec i k) as [->|]; [by rewrite Hb|]. rewrite Z.pow2_bits_false by done. apply andb_false_r.
Qed.
Lemma testbit_above a b j s : 0 ≤ s → 0 ≤ b < 2 ^ s → 0 ≤ j → Z.testbit (a * 2 ^ s + b) (s + j) = Z.testbit a j.
Proof.
  intros Hs Hb Hj. rewrite <- (Z.shiftr_spec _ _ _ Hj) || idtac.
  replace (s + j) with (j + s) by ring. rewrite <- Z.shiftr_spec by lia. rewrite Z.shiftr_div_pow2 by lia.
  by rewrite Z.div_add_l, Z.div_small, Z.add_0_r by lia.
Qed.
Lemma testbit_low a d j s : 0 ≤ j < s → Z.testbit (a * 2 ^ s + d) j = Z.testbit d j.
Proof.
  intros [Hj Hs]. rewrite <- (Z.mod_pow2_bits_low (a * 2 ^ s + d) s j) by lia.
  rewrite <- (Z.mod_pow2_bits_low d s j) by lia. f_equal.
  rewrite Z.add_comm, Z.mod_add by lia. done.
Qed.

(** ** The value of digits *)

Definition hex_value (ds : list Z) : Z := foldl (λ n d, 16 * n + d) 0 ds.
Definition hex_digits (ds : list Z) : Prop := Forall (λ d, 0 ≤ d < 16) ds.

Lemma hex_value_from n ds : foldl (λ n d, 16 * n + d) n ds = n * 16 ^ Z.of_nat (length ds) + hex_value ds.
Proof.
  unfold hex_value. revert n. induction ds as [|d ds IH]; intros n; cbn [foldl length]; [cbn; lia|].
  rewrite IH, (IH (16 * 0 + d)). rewrite Nat2Z.inj_succ, Z.pow_succ_r by lia. ring.
Qed.
Lemma hex_value_app a b : hex_value (a ++ b) = hex_value a * 16 ^ Z.of_nat (length b) + hex_value b.
Proof. unfold hex_value at 1. rewrite foldl_app. fold (hex_value a). apply hex_value_from. Qed.
Lemma hex_value_cons d ds : hex_value (d :: ds) = d * 16 ^ Z.of_nat (length ds) + hex_value ds.
Proof. change (d :: ds) with ([d] ++ ds). rewrite hex_value_app. cbn. lia. Qed.
Lemma hex_value_bound ds : hex_digits ds → 0 ≤ hex_value ds < 16 ^ Z.of_nat (length ds).
Proof.
  induction 1 as [|d ds Hd _ IH]; [cbn; lia|]. rewrite hex_value_cons. cbn [length]. rewrite Nat2Z.inj_succ, Z.pow_succ_r by lia.
  assert (0 < 16 ^ Z.of_nat (length ds)) by (apply Z.pow_pos_nonneg; lia). nia.
Qed.
Lemma hex_value_zero ds : hex_digits ds → hex_value ds = 0 ↔ Forall (λ d, d = 0) ds.
Proof.
  induction 1 as [|d ds Hd Hds IH]; [done|]. rewrite hex_value_cons, Forall_cons, <- IH.
  pose proof (hex_value_bound ds Hds). assert (0 < 16 ^ Z.of_nat (length ds)) by (apply Z.pow_pos_nonneg; lia). nia.
Qed.
Lemma pow16 n : 16 ^ Z.of_nat n = 2 ^ (4 * Z.of_nat n).
Proof. rewrite Z.pow_mul_r by lia. done. Qed.

(** The value around one digit. *)
Lemma hex_value_split ds i d : ds !! i = Some d →
  hex_value ds = (16 * hex_value (take i ds) + d) * 2 ^ (4 * Z.of_nat (length ds - S i)) + hex_value (drop (S i) ds).
Proof.
  intros Hi. rewrite <- (take_drop_middle ds i d Hi) at 1. rewrite hex_value_app, hex_value_cons. cbn [length].
  rewrite length_drop, Nat2Z.inj_succ, Z.pow_succ_r, pow16 by lia. ring.
Qed.
Lemma hex_value_split_bounds ds i : hex_digits ds → 0 ≤ hex_value (drop (S i) ds) < 2 ^ (4 * Z.of_nat (length ds - S i)).
Proof. intros H. rewrite <- pow16, <- length_drop. by apply hex_value_bound, Forall_drop. Qed.
Lemma hex_digit_bound ds i d : hex_digits ds → ds !! i = Some d → 0 ≤ d < 16.
Proof. intros H Hi. eapply Forall_lookup_1 in H; [|exact Hi]. exact H. Qed.

(** A bit of the value is a bit of a digit. *)
Lemma hex_value_bit ds i d j : hex_digits ds → ds !! i = Some d → 0 ≤ j < 4 →
  Z.testbit (hex_value ds) (4 * Z.of_nat (length ds - S i) + j) = Z.testbit d j.
Proof.
  intros Hd Hi Hj. rewrite (hex_value_split _ _ _ Hi), testbit_above by (try apply hex_value_split_bounds; lia || done).
  rewrite Z.mul_comm. change 16 with (2 ^ 4). by apply testbit_low.
Qed.

(** The bits from one on down are in that digit and the digits behind it. *)
Lemma hex_value_low ds i d j : hex_digits ds → ds !! i = Some d → 0 ≤ j < 4 →
  hex_value ds mod 2 ^ (4 * Z.of_nat (length ds - S i) + (j + 1)) = 0 ↔
    d mod 2 ^ (j + 1) = 0 ∧ hex_value (drop (S i) ds) = 0.
Proof.
  intros Hd Hi Hj. rewrite (hex_value_split _ _ _ Hi). pose proof (hex_value_split_bounds ds i Hd) as Hb.
  set (s := 4 * Z.of_nat (length ds - S i)) in *. set (low := hex_value (drop _ ds)) in *. set (a := hex_value (take _ _)).
  assert (0 < 2 ^ s) as Hs by (apply Z.pow_pos_nonneg; lia). assert (0 < 2 ^ (j + 1)) by (apply Z.pow_pos_nonneg; lia).
  rewrite Z.pow_add_r by lia. rewrite (Z.mul_comm (2 ^ s) (2 ^ (j + 1))).
  replace (16 * a + d) with (d + (2 ^ (3 - j) * a) * 2 ^ (j + 1))
    by (replace 16 with (2 ^ (3 - j) * 2 ^ (j + 1)) by (rewrite <- Z.pow_add_r by lia; by replace (3 - j + (j + 1)) with 4 by lia); ring).
  replace ((d + 2 ^ (3 - j) * a * 2 ^ (j + 1)) * 2 ^ s + low) with ((d * 2 ^ s + low) + (2 ^ (3 - j) * a) * (2 ^ (j + 1) * 2 ^ s)) by ring.
  rewrite Z.mod_add by lia. pose proof (Z.div_mod d (2 ^ (j + 1)) ltac:(lia)) as Hdm.
  pose proof (Z.mod_pos_bound d (2 ^ (j + 1)) ltac:(lia)) as Hm. set (r := d mod 2 ^ (j + 1)) in *.
  replace (d * 2 ^ s + low) with ((r * 2 ^ s + low) + (d / 2 ^ (j + 1)) * (2 ^ (j + 1) * 2 ^ s)) by (rewrite Hdm at 2; ring).
  rewrite Z.mod_add, Z.mod_small by nia. nia.
Qed.

(** ** The routines on the digits of a number *)

(** [number] stands for the digits [ds], of which one is not zero. *)
Record represents (ds : list Z) (first : nat) (number : HexNumber) : Prop := {
  rp_digits : hex_digits ds;
  rp_first : hx_first_nonzero number = Some first;
  rp_value : ds !! first = Some (hx_first_value number);
  rp_nonzero : hx_first_value number ≠ 0;
  rp_before : Forall (λ d, d = 0) (take first ds);
  rp_bits : Z.of_nat (hx_first_bits number) = Z.log2 (hx_first_value number) + 1;
  rp_count : hx_digit_count number = length ds;
  rp_at : ∀ ordinal, hex_digit_at number ordinal = default 0 (ds !! ordinal);
  rp_behind : ∀ ordinal, any_digit_behind (hex_mantissa number) 0 ordinal =
    existsb (λ d, negb (d =? 0)) (drop (S ordinal) ds);
}.

Section digits.
Context (ds : list Z) (first : nat) (number : HexNumber) (Hrep : represents ds first number).
Let m := hex_value ds.
Let behind := Z.of_nat (length ds - S first).
Let count := Z.of_nat (hx_first_bits number) + 4 * behind.

Lemma first_value_bounds : 1 ≤ hx_first_value number < 16 ∧ (1 ≤ hx_first_bits number ≤ 4)%nat ∧ (first < length ds)%nat.
Proof.
  pose proof (hex_digit_bound _ _ _ (rp_digits _ _ _ Hrep) (rp_value _ _ _ Hrep)) as Hd.
  pose proof (rp_nonzero _ _ _ Hrep). pose proof (rp_bits _ _ _ Hrep) as Hb.
  pose proof (lookup_lt_Some _ _ _ (rp_value _ _ _ Hrep)).
  pose proof (Z.log2_nonneg (hx_first_value number)).
  assert (Z.log2 (hx_first_value number) < 4) by (apply Z.log2_lt_pow2; lia). lia.
Qed.
Lemma value_split : m = hx_first_value number * 2 ^ (4 * behind) + hex_value (drop (S first) ds).
Proof.
  unfold m, behind. rewrite (hex_value_split _ _ _ (rp_value _ _ _ Hrep)). f_equal. f_equal.
  enough (hex_value (take first ds) = 0) as -> by lia.
  apply hex_value_zero; [apply Forall_take, (rp_digits _ _ _ Hrep)|apply (rp_before _ _ _ Hrep)].
Qed.
Lemma value_log2 : 0 < m ∧ Z.log2 m = count - 1.
Proof.
  pose proof first_value_bounds as [Hv _]. pose proof (hex_value_split_bounds ds first (rp_digits _ _ _ Hrep)) as Hl.
  fold behind in Hl. rewrite value_split. assert (0 < 2 ^ (4 * behind)) by (apply Z.pow_pos_nonneg; lia).
  split; [nia|]. unfold count. rewrite (rp_bits _ _ _ Hrep).
  destruct (Z.log2_spec (hx_first_value number) ltac:(lia)) as [H1 H2]. pose proof (Z.log2_nonneg (hx_first_value number)).
  apply Z.log2_unique; [lia|].
  replace (Z.succ (Z.log2 (hx_first_value number) + 1 + 4 * behind - 1)) with (Z.succ (Z.log2 (hx_first_value number)) + 4 * behind) by lia.
  replace (Z.log2 (hx_first_value number) + 1 + 4 * behind - 1) with (Z.log2 (hx_first_value number) + 4 * behind) by lia.
  rewrite !Z.pow_add_r by lia. nia.
Qed.

(** Where the bit at an index is. *)
Lemma bit_place_spec index : (hx_first_bits number ≤ index)%nat →
  let '(ordinal, bit) := bit_place number index in
  (bit < 4)%nat ∧ (first < ordinal)%nat ∧ count - 1 - Z.of_nat index = 4 * (Z.of_nat (length ds) - 1 - Z.of_nat ordinal) + Z.of_nat bit.
Proof.
  intros Hi. unfold bit_place, count, behind. rewrite (rp_first _ _ _ Hrep). cbn [default id].
  pose proof first_value_bounds as (_ & _ & Hf). set (r := (index - _)%nat).
  pose proof (Nat.div_mod r 4 ltac:(lia)). pose proof (Nat.mod_upper_bound r 4 ltac:(lia)). lia.
Qed.

Lemma hex_bit_at_spec index : hex_bit_at number index = Z.testbit m (count - 1 - Z.of_nat index).
Proof.
  pose proof first_value_bounds as (Hv & Hb & Hf). unfold hex_bit_at.
  destruct (Nat.ltb_spec index (hx_first_bits number)) as [Hi|Hi].
  - rewrite land_bit by lia. rewrite value_split.
    replace (count - 1 - Z.of_nat index) with (4 * behind + Z.of_nat (hx_first_bits number - index - 1)) by (unfold count; lia).
    rewrite testbit_above; [done|lia| |lia]. apply hex_value_split_bounds, (rp_digits _ _ _ Hrep).
  - pose proof (bit_place_spec index Hi) as Hp. destruct (bit_place number index) as [ordinal bit].
    destruct Hp as (Hbit & Ho & ->). rewrite land_bit, (rp_at _ _ _ Hrep) by lia.
    destruct (ds !! ordinal) as [d|] eqn:Hd; cbn [default id].
    + pose proof (lookup_lt_Some _ _ _ Hd).
      replace (4 * (Z.of_nat (length ds) - 1 - Z.of_nat ordinal) + Z.of_nat bit) with
        (4 * Z.of_nat (length ds - S ordinal) + Z.of_nat bit) by lia.
      symmetry. apply hex_value_bit; [apply (rp_digits _ _ _ Hrep)|done|lia].
    + apply lookup_ge_None in Hd. rewrite Z.bits_0, Z.testbit_neg_r by lia. done.
Qed.

Lemma hex_prefix_spec n : Z.of_nat n ≤ count → (n ≤ 63)%nat → hex_prefix number n = m / 2 ^ (count - Z.of_nat n).
Proof.
  destruct value_log2 as [Hm Hlog]. destruct (Z.log2_spec m Hm) as [_ Hu]. rewrite Hlog in Hu.
  unfold hex_prefix. induction n as [|n IH]; intros Hn H63.
  - cbn [seq foldl]. symmetry. apply Z.div_small. replace (count - Z.of_nat 0) with (Z.succ (count - 1)) by lia. lia.
  - rewrite seq_S, foldl_app, IH by lia. cbn [foldl Nat.add]. rewrite hex_bit_at_spec.
    set (k := count - Z.of_nat (S n)). replace (count - Z.of_nat n) with (k + 1) by lia.
    replace (count - 1 - Z.of_nat n) with k by lia. set (x := m / 2 ^ (k + 1)).
    assert (0 ≤ x < 2 ^ Z.of_nat n) as Hx.
    { unfold x. split; [apply Z.div_pos; [lia|apply Z.pow_pos_nonneg; lia]|].
      apply Z.div_lt_upper_bound; [apply Z.pow_pos_nonneg; lia|]. rewrite <- Z.pow_add_r by lia.
      by replace (k + 1 + Z.of_nat n) with (Z.succ (count - 1)) by lia. }
    assert (2 ^ Z.of_nat n ≤ 2 ^ 62) by (apply Z.pow_le_mono_r; lia).
    unfold uint64. rewrite Z.shiftl_mul_pow2, Z.mod_small by lia.
    assert (m / 2 ^ k = 2 * x + Z.b2z (Z.testbit m k)) as ->.
    { unfold x. rewrite Z.pow_add_r, <- Z.div_div by lia. rewrite Z.testbit_spec' by lia. apply Z.div_mod. lia. }
    destruct (Z.testbit m k); cbn [Z.b2z]; [|rewrite Z.lor_0_r; lia].
    replace (x * 2 ^ 1) with (2 * x) by lia. apply Z.bits_inj. intros i.
    rewrite Z.lor_spec. destruct (Z.eq_dec i 0) as [->|]; [by rewrite Z.testbit_odd_0, Z.testbit_even_0|].
    destruct (Z.neg_nonneg_cases i); [by rewrite !Z.testbit_neg_r|].
    replace i with (Z.succ (i - 1)) by lia. rewrite Z.testbit_odd_succ, Z.testbit_even_succ by lia.
    change 1 with (2 * 0 + 1) at 2. rewrite Z.testbit_odd_succ, Z.bits_0 by lia. apply orb_false_r.
Qed.

Lemma hex_any_from_spec index : Z.of_nat index ≤ count →
  hex_any_from number index count = negb (m mod 2 ^ (count - Z.of_nat index) =? 0).
Proof.
  intros Hi. pose proof first_value_bounds as (Hv & Hb & Hf). unfold hex_any_from.
  destruct (Z.leb_spec count (Z.of_nat index)).
  { replace (count - Z.of_nat index) with 0 by lia. by rewrite Z.mod_1_r. }
  set (place := if (_ <=? _)%nat then _ else _).
  assert ((place.2 < 4)%nat ∧ (place.1 < length ds)%nat ∧
    count - Z.of_nat index = 4 * Z.of_nat (length ds - S place.1) + (Z.of_nat place.2 + 1)) as (Hbit & Ho & ->).
  { subst place. destruct (Nat.leb_spec (hx_first_bits number) index) as [Hle|Hlt].
    - pose proof (bit_place_spec index Hle) as Hp. destruct (bit_place number index) as [ordinal bit]. cbn [fst snd]. lia.
    - rewrite (rp_first _ _ _ Hrep). cbn [default id fst snd]. unfold count, behind. lia. }
  destruct place as [ordinal bit]. cbn [fst snd] in *. rewrite (rp_at _ _ _ Hrep), (rp_behind _ _ _ Hrep).
  destruct (lookup_lt_is_Some_2 ds ordinal Ho) as [d Hd]. rewrite Hd. cbn [default id].
  replace (Z.shiftl 1 (Z.of_nat (bit + 1)) - 1) with (Z.ones (Z.of_nat bit + 1))
    by (rewrite Z.ones_equiv, Z.shiftl_1_l; replace (Z.of_nat (bit + 1)) with (Z.of_nat bit + 1) by lia; lia).
  rewrite Z.land_ones by lia. pose proof (hex_value_low ds ordinal d (Z.of_nat bit) (rp_digits _ _ _ Hrep) Hd ltac:(lia)) as Hlow.
  fold m in Hlow. rewrite (hex_value_zero _ (Forall_drop _ _ _ (rp_digits _ _ _ Hrep))) in Hlow.
  assert (existsb (λ d, negb (d =? 0)) (drop (S ordinal) ds) = false ↔ Forall (λ d, d = 0) (drop (S ordinal) ds)) as He.
  { rewrite <- not_true_iff_false, existsb_Exists, <- Forall_Exists_neg. apply Forall_proper; [|done].
    intros x. rewrite negb_true_iff, Z.eqb_neq. lia. }
  set (low := m mod _) in *. destruct (Z.eqb_spec (d mod 2 ^ (Z.of_nat bit + 1)) 0), (Z.eqb_spec low 0); cbn [negb];
    destruct (existsb _ _) eqn:Ee; naive_solver.
Qed.

(** Rounding a prefix of the digits. *)
Lemma round_up_spec n : Z.of_nat n < count → (n ≤ 62)%nat →
  round_up (hex_bit_at number n) (hex_any_from number (n + 1) count) (hex_prefix number n) = round_half_even m 0 (count - Z.of_nat n).
Proof.
  intros Hn H62. destruct value_log2 as [Hm Hlog]. destruct (Z.log2_spec m Hm) as [_ Hu]. rewrite Hlog in Hu.
  rewrite hex_bit_at_spec, hex_any_from_spec, hex_prefix_spec by lia.
  unfold round_up, round_half_even. rewrite Z.sub_0_r.
  destruct (Z.leb_spec (count - Z.of_nat n) 0); [lia|].
  set (d := count - Z.of_nat n) in *. replace (count - 1 - Z.of_nat n) with (d - 1) by lia.
  replace (count - Z.of_nat (n + 1)) with (d - 1) by lia. set (x := m / 2 ^ d).
  assert (0 < 2 ^ (d - 1)) as Hp by (apply Z.pow_pos_nonneg; lia).
  assert (2 ^ d = 2 ^ (d - 1) * 2) as Hd by (rewrite (Z.mul_comm _ 2), <- Z.pow_succ_r by lia; f_equal; lia).
  assert (0 ≤ x < 2 ^ Z.of_nat n) as Hx.
  { unfold x. split; [apply Z.div_pos; lia|]. apply Z.div_lt_upper_bound; [lia|].
    rewrite <- Z.pow_add_r by lia. by replace (d + Z.of_nat n) with (Z.succ (count - 1)) by lia. }
  assert (2 ^ Z.of_nat n ≤ 2 ^ 62) by (apply Z.pow_le_mono_r; lia).
  replace (negb (Z.land x 1 =? 0)) with (Z.odd x).
  2:{ change 1 with (Z.ones 1). rewrite Z.land_ones by lia. change (2 ^ 1) with 2. rewrite Zmod_odd. by destruct (Z.odd x). }
  assert (m mod 2 ^ d = 2 ^ (d - 1) * Z.b2z (Z.testbit m (d - 1)) + m mod 2 ^ (d - 1)) as ->.
  { rewrite Hd, Z.rem_mul_r by lia. rewrite Z.testbit_spec' by lia. lia. }
  pose proof (Z.mod_pos_bound m _ Hp). set (low := m mod 2 ^ (d - 1)) in *. unfold uint64. rewrite (Z.mod_small (x + 1)) by lia.
  destruct (Z.testbit m (d - 1)); cbn [Z.b2z andb].
  - destruct (Z.eqb_spec low 0) as [->|]; cbn [negb orb].
    + rewrite Z.mul_1_r, Z.add_0_r, Z.ltb_irrefl, Z.eqb_refl. done.
    + destruct (Z.ltb_spec (2 ^ (d - 1)) (2 ^ (d - 1) * 1 + low)); [done|lia].
  - destruct (Z.ltb_spec (2 ^ (d - 1)) (2 ^ (d - 1) * 0 + low)); [lia|].
    destruct (Z.eqb_spec (2 ^ (d - 1)) (2 ^ (d - 1) * 0 + low)); [lia|done].
Qed.
End digits.

(** ** Reading the digits *)

(** A hexadecimal literal without separators, and the number [m * 2^q] it stands for. *)
Inductive hex_literal : bytes → bool → Z → Z → Prop :=
  | hex_literal_intro sign x integer dot fraction p exponent_sign exponent :
      sign = [] ∨ sign = ["+"%char] ∨ sign = ["-"%char] → ascii_lower x = "x"%char →
      Forall (λ c, float_digit c true = true) (integer ++ fraction) → integer ++ fraction ≠ [] →
      dot = [] ∧ fraction = [] ∨ dot = ["."%char] → ascii_lower p = "p"%char →
      exponent_sign = [] ∨ exponent_sign = ["+"%char] ∨ exponent_sign = ["-"%char] →
      Forall (λ c, isdigit c = true) exponent → exponent ≠ [] →
      hex_literal (sign ++ "0"%char :: x :: integer ++ dot ++ fraction ++ p :: exponent_sign ++ exponent)
        (bool_decide (sign = ["-"%char])) (hex_value (map hex_digit (integer ++ fraction)))
        ((if bool_decide (exponent_sign = ["-"%char]) then -1 else 1) * Z.of_N (decimal exponent) - 4 * Z.of_nat (length fraction)).

Lemma hex_char c : float_digit c true = true →
  ascii_lower c ≠ "p"%char ∧ c ≠ "."%char ∧ c ≠ "_"%char ∧ 0 ≤ hex_digit c < 16 ∧ is_sign c = false.
Proof. destruct c as [[] [] [] [] [] [] [] []]; vm_compute; intros H; try discriminate H; split_and!;
  first [done|congruence|intros ?; discriminate]. Qed.
Lemma hex_chars_digits cs : Forall (λ c, float_digit c true = true) cs → hex_digits (map hex_digit cs).
Proof. intros H. apply Forall_fmap. eapply Forall_impl; [exact H|]. intros c (_ & _ & _ & Hd & _)%hex_char. exact Hd. Qed.

(** A number for the digits read so far. *)
Definition digits_read (ds : list Z) (number : HexNumber) : Prop :=
  hx_digit_count number = length ds ∧
  match hx_first_nonzero number with
  | None => Forall (λ d, d = 0) ds
  | Some first => ds !! first = Some (hx_first_value number) ∧ hx_first_value number ≠ 0 ∧
      Forall (λ d, d = 0) (take first ds) ∧ Z.of_nat (hx_first_bits number) = Z.log2 (hx_first_value number) + 1
  end.

Lemma add_digit_read fractional d ds number : 0 ≤ d < 16 → digits_read ds number →
  digits_read (ds ++ [d]) (add_digit fractional d number).
Proof.
  intros Hd [Hc Hf]. unfold digits_read, add_digit. cbn. rewrite length_app, Hc. split; [cbn; lia|].
  destruct (hx_first_nonzero number) as [first|]; cbn [bool_decide].
  - rewrite bool_decide_false, andb_false_r by done. destruct Hf as (Hv & Hn & Hb & Hbits). pose proof (lookup_lt_Some _ _ _ Hv).
    rewrite lookup_app_l, take_app_le by lia. done.
  - rewrite bool_decide_true, andb_true_r by done. destruct (Z.eqb_spec d 0) as [->|Hd0]; cbn [negb].
    + apply Forall_app. by repeat constructor.
    + rewrite lookup_app_r, Nat.sub_diag, take_app_length by lia. split_and!; [done|done|done|].
      assert (d = 1 ∨ d = 2 ∨ d = 3 ∨ d = 4 ∨ d = 5 ∨ d = 6 ∨ d = 7 ∨ d = 8 ∨ d = 9 ∨ d = 10 ∨ d = 11 ∨ d = 12 ∨ d = 13 ∨
        d = 14 ∨ d = 15) as H by lia. repeat destruct H as [->|H]; try reflexivity. by subst.
Qed.

Definition add_digits (fractional : bool) (run : bytes) (number : HexNumber) : HexNumber :=
  foldl (λ n c, add_digit fractional (hex_digit c) n) number run.
Lemma add_digits_read fractional run ds number : Forall (λ c, float_digit c true = true) run → digits_read ds number →
  digits_read (ds ++ map hex_digit run) (add_digits fractional run number).
Proof.
  intros H. revert ds number. induction H as [|c run Hc _ IH]; intros ds number Hr; cbn; [by rewrite app_nil_r|].
  rewrite (cons_middle (hex_digit c)), app_assoc. apply IH, add_digit_read; [|done]. by apply hex_char in Hc as (_ & _ & _ & ? & _).
Qed.
Lemma add_digits_fields fractional run number :
  hx_source (add_digits fractional run number) = hx_source number ∧
  hx_negative (add_digits fractional run number) = hx_negative number ∧
  hx_integer_digits (add_digits fractional run number) = ((if fractional then 0 else length run) + hx_integer_digits number)%nat.
Proof.
  revert number. induction run as [|c run IH]; intros number; [by destruct fractional|].
  change (add_digits fractional (c :: run) number) with (add_digits fractional run (add_digit fractional (hex_digit c) number)).
  destruct (IH (add_digit fractional (hex_digit c) number)) as (-> & -> & ->). cbn. destruct fractional; split_and!; try done; lia.
Qed.
Lemma read_digits_run fractional offset run rest number : Forall (λ c, float_digit c true = true) run →
  read_digits fractional offset (run ++ rest) number =
  read_digits fractional (offset + length run) rest (add_digits fractional run number).
Proof.
  intros H. revert offset number. induction H as [|c run Hc _ IH]; intros offset number; cbn [app length]; [by rewrite Nat.add_0_r|].
  apply hex_char in Hc as (Hp & Hdot & _). cbn [read_digits]. rewrite !bool_decide_false by done. rewrite IH.
  f_equal. lia.
Qed.

Definition no_dots (rest : bytes) : bytes := List.filter (λ c, negb (bool_decide (c = "."%char))) rest.
Lemma digit_at_spec rest current ordinal : (current ≤ ordinal)%nat →
  digit_at rest current ordinal = default 0 (map hex_digit (no_dots rest) !! (ordinal - current)%nat).
Proof.
  revert current. induction rest as [|c rest IH]; intros current H; cbn; [done|].
  case_bool_decide as Hc; cbn [negb]; [by apply IH|]. destruct (Nat.eqb_spec current ordinal) as [->|].
  - by rewrite Nat.sub_diag.
  - rewrite IH by lia. replace (ordinal - current)%nat with (S (ordinal - S current)) by lia. done.
Qed.
Lemma any_digit_behind_spec rest current ordinal :
  any_digit_behind rest current ordinal =
  existsb (λ d, negb (d =? 0)) (drop (S ordinal - current) (map hex_digit (no_dots rest))).
Proof.
  revert current. induction rest as [|c rest IH]; intros current; cbn [any_digit_behind no_dots List.filter map]; [by rewrite drop_nil|].
  case_bool_decide as Hc; cbn [negb]; [apply IH|]. cbn [map]. fold (no_dots rest). rewrite IH.
  destruct (Nat.ltb_spec ordinal current).
  - replace (S ordinal - current)%nat with 0%nat by lia. replace (S ordinal - S current)%nat with 0%nat by lia. cbn.
    by destruct (hex_digit c =? 0).
  - replace (S ordinal - current)%nat with (S (S ordinal - S current)) by lia. done.
Qed.
Lemma no_dots_hex run : Forall (λ c, float_digit c true = true) run → no_dots run = run.
Proof.
  induction 1 as [|c run Hc _ IH]; [done|]. cbn. apply hex_char in Hc as (_ & Hdot & _).
  rewrite bool_decide_false by done. cbn. f_equal. exact IH.
Qed.

(** ** The exponent *)

Lemma decimal_cons c cs : decimal (c :: cs) = (digit_val c * 10 ^ N.of_nat (length cs) + decimal cs)%N.
Proof.
  revert c. induction cs as [|c' cs IH] using rev_ind; intros c; [cbn; lia|].
  rewrite app_comm_cons, !decimal_snoc, IH, length_app, Nat2N.inj_add. cbn [length]. rewrite N.pow_add_r. cbn. lia.
Qed.

(** A number held within the bounds of its type. *)
Definition saturated (x : Z) : Z := Z.max INT64_MIN (Z.min INT64_MAX x).
Lemma saturating_add_spec a b : INT64_MIN ≤ a ≤ INT64_MAX → saturating_add_i64 a b = saturated (a + b).
Proof.
  unfold saturating_add_i64, saturated, INT64_MAX, INT64_MIN. intros H.
  destruct (Z.ltb_spec 0 b), (Z.ltb_spec (9223372036854775807 - b) a), (Z.ltb_spec b 0), (Z.ltb_spec a (-9223372036854775808 - b));
    cbn [andb]; lia.
Qed.

Lemma exponent_loop_spec negative cs magnitude :
  Forall (λ c, isdigit c = true) cs → 0 ≤ magnitude ≤ INT64_MAX →
  exponent_loop negative cs magnitude =
    let value := magnitude * 10 ^ Z.of_nat (length cs) + Z.of_N (decimal cs) in
    if value <=? INT64_MAX then (if negative then - value else value) else (if negative then INT64_MIN else INT64_MAX).
Proof.
  intros H. revert magnitude. induction H as [|c cs Hc _ IH]; intros magnitude Hm; cbn [exponent_loop length].
  - cbn. rewrite Z.mul_1_r, Z.add_0_r. destruct (Z.leb_spec magnitude INT64_MAX); [done|lia].
  - pose proof (digit_val_bound c Hc) as Hd. assert (Z.of_N (byte_val c) - 48 = Z.of_N (digit_val c)) as ->.
    { unfold digit_val. rewrite N2Z.inj_sub; [done|]. unfold isdigit, between in Hc. to_prop. lia. }
    unfold uint64. rewrite Z.mod_small by lia. set (d := Z.of_N (digit_val c)) in *.
    assert (Z.of_N (decimal (c :: cs)) = d * 10 ^ Z.of_nat (length cs) + Z.of_N (decimal cs)) as ->.
    { rewrite decimal_cons, N2Z.inj_add, N2Z.inj_mul, N2Z.inj_pow. subst d. by rewrite nat_N_Z. }
    rewrite Nat2Z.inj_succ, Z.pow_succ_r by lia. assert (0 < 10 ^ Z.of_nat (length cs)) as Hp by (apply Z.pow_pos_nonneg; lia).
    cbn zeta. replace (magnitude * (10 * 10 ^ Z.of_nat (length cs)) + (d * 10 ^ Z.of_nat (length cs) + Z.of_N (decimal cs))) with
      ((magnitude * 10 + d) * 10 ^ Z.of_nat (length cs) + Z.of_N (decimal cs)) by ring.
    destruct (Z.ltb_spec ((INT64_MAX - d) / 10) magnitude) as [Hlt|Hge].
    + assert (INT64_MAX < magnitude * 10 + d).
      { apply Z.lt_nge. intros Hle. apply Z.lt_nge in Hlt. apply Hlt, Z.div_le_lower_bound; lia. }
      destruct (Z.leb_spec ((magnitude * 10 + d) * 10 ^ Z.of_nat (length cs) + Z.of_N (decimal cs)) INT64_MAX); [nia|done].
    + assert (magnitude * 10 + d ≤ INT64_MAX).
      { pose proof (Z.mul_div_le (INT64_MAX - d) 10 ltac:(lia)). lia. }
      rewrite (Z.mod_small (magnitude * 10 + d)) by (unfold INT64_MAX in *; lia). rewrite IH by lia. done.
Qed.

Lemma hex_exponent_spec sign cs : sign = [] ∨ sign = ["+"%char] ∨ sign = ["-"%char] →
  Forall (λ c, isdigit c = true) cs → cs ≠ [] →
  hex_exponent (sign ++ cs) = saturated ((if bool_decide (sign = ["-"%char]) then -1 else 1) * Z.of_N (decimal cs)).
Proof.
  intros Hs Hcs Hne. unfold hex_exponent. assert (Forall (λ c, is_sign c = false) cs) as Hn.
  { eapply Forall_impl; [exact Hcs|]. intros c. cbn. byte_cases c. }
  assert (negative_sign (sign ++ cs) = bool_decide (sign = ["-"%char]) ∧ skip_sign (sign ++ cs) = cs) as [-> ->].
  { destruct Hs as [->|[->| ->]]; [|done..]. destruct cs as [|c cs]; [done|]. inversion_clear Hn as [|? ? Hc _]. cbn. rewrite Hc. split; [|done].
    unfold is_sign in Hc. by apply orb_false_iff in Hc as [_ ->]. }
  rewrite exponent_loop_spec by (done || unfold INT64_MAX; lia). rewrite Z.mul_0_l, Z.add_0_l. cbn zeta.
  unfold saturated, INT64_MAX, INT64_MIN. destruct (Z.leb_spec (Z.of_N (decimal cs)) 9223372036854775807), (bool_decide _); lia.
Qed.

(** ** A literal *)

Definition end_digits (offset : nat) (exponent : Z) (number : HexNumber) : HexNumber :=
  mkHexNumber (hx_source number) offset (hx_first_nonzero number) (hx_digit_count number)
    (hx_integer_digits number) (hx_first_value number) (hx_first_bits number) exponent (hx_negative number).

Lemma read_digits_literal offset integer dot fraction p rest number :
  Forall (λ c, float_digit c true = true) (integer ++ fraction) → dot = [] ∧ fraction = [] ∨ dot = ["."%char] →
  ascii_lower p = "p"%char →
  read_digits false offset (integer ++ dot ++ fraction ++ p :: rest) number =
  Some (end_digits (offset + length (integer ++ dot ++ fraction)) (hex_exponent rest)
    (add_digits true fraction (add_digits false integer number))).
Proof.
  intros [Hi Hf]%Forall_app Hd Hp. rewrite read_digits_run, !length_app by done.
  destruct Hd as [[-> ->]| ->]; cbn [app length add_digits foldl].
  - cbn [read_digits]. rewrite bool_decide_true by done. unfold end_digits. f_equal. f_equal. lia.
  - cbn [read_digits]. rewrite bool_decide_false, bool_decide_true by done. rewrite read_digits_run by done. cbn [read_digits].
    rewrite bool_decide_true by done. unfold end_digits. f_equal. f_equal. lia.
Qed.

Lemma hex_read_spec source negative m q : hex_literal source negative m q →
  ∃ number ds x, hex_read source = Some number ∧ hx_negative number = negative ∧ m = hex_value ds ∧
    (length ds ≤ length source)%nat ∧ hx_exponent number = saturated x ∧ (hx_integer_digits number ≤ length ds)%nat ∧
    q = x - 4 * Z.of_nat (length ds - hx_integer_digits number) ∧
    match hx_first_nonzero number with None => m = 0 | Some first => represents ds first number end.
Proof.
  intros [sign x integer dot fraction p es exponent Hsign Hx Hds Hne Hdot Hp Hes Hexp Hexp0].
  set (body := integer ++ dot ++ fraction). set (source' := sign ++ "0"%char :: x :: _).
  assert (drop (length sign + 2) source' = body ++ p :: es ++ exponent) as Hdrop.
  { subst source' body. rewrite <- drop_drop, drop_app_length. cbn. by rewrite <- !app_assoc. }
  set (number0 := mkHexNumber source' 0 None 0 0 0 0 0 (bool_decide (sign = ["-"%char]))).
  set (number := end_digits (length sign + 2 + length body) (hex_exponent (es ++ exponent))
    (add_digits true fraction (add_digits false integer number0))).
  assert (hex_read source' = Some number) as Hread.
  { subst number. unfold body. rewrite <- (read_digits_literal _ integer dot fraction p) by done. unfold hex_read.
    replace (_ + 2)%nat with (length sign + 2)%nat by (subst source'; destruct Hsign as [->|[->| ->]]; done).
    rewrite Hdrop. unfold body. rewrite <- !app_assoc. f_equal. unfold number0. f_equal.
    subst source'. destruct Hsign as [->|[->| ->]]; done. }
  destruct (add_digits_fields false integer number0) as (Es1 & En1 & Ei1).
  destruct (add_digits_fields true fraction (add_digits false integer number0)) as (Es2 & En2 & Ei2).
  assert (hex_mantissa number = body) as Hm.
  { unfold hex_mantissa, number. cbn [end_digits hx_source hx_negative hx_exponent_offset]. rewrite Es2, Es1, En2, En1. cbn [number0 hx_source hx_negative].
    replace (if _ || _ then 3 else 2)%nat with (length sign + 2)%nat by (subst source'; destruct Hsign as [->|[->| ->]]; done).
    rewrite Hdrop. apply take_app_length'. lia. }
  assert (no_dots body = integer ++ fraction) as Hnd.
  { apply Forall_app in Hds as [Hi Hf]. unfold body, no_dots. rewrite !List.filter_app. fold (no_dots integer) (no_dots fraction).
    rewrite (no_dots_hex integer), (no_dots_hex fraction) by done. destruct Hdot as [[-> ->]| ->]; cbn; rewrite ?app_nil_r; reflexivity. }
  assert (digits_read (map hex_digit (integer ++ fraction)) number) as [Hcount Hfirst].
  { apply Forall_app in Hds as [Hi Hf]. rewrite map_app.
    apply (add_digits_read true fraction _ (add_digits false integer number0) Hf).
    apply (add_digits_read false integer [] number0 Hi). split; [done|constructor]. }
  exists number, (map hex_digit (integer ++ fraction)), ((if bool_decide (es = ["-"%char]) then -1 else 1) * Z.of_N (decimal exponent)).
  assert (hx_integer_digits number = length integer) as Eint.
  { unfold number. cbn [end_digits hx_integer_digits]. rewrite Ei2, Ei1. cbn. lia. }
  split_and!; [done| |done| | | | |].
  - unfold number. cbn [end_digits hx_negative]. by rewrite En2, En1.
  - rewrite length_map. subst source'. rewrite !length_app. cbn. rewrite !length_app. lia.
  - by apply hex_exponent_spec.
  - rewrite length_map, length_app, Eint. lia.
  - rewrite length_map, length_app, Eint. f_equal. f_equal. lia.
  - destruct (hx_first_nonzero number) as [first|] eqn:Ef.
    + destruct Hfirst as (Hv & Hn & Hb & Hbits). split; try done; [by apply hex_chars_digits|..].
      * intros ordinal. unfold hex_digit_at. rewrite Hm, digit_at_spec, Hnd, Nat.sub_0_r by lia. done.
      * intros ordinal. by rewrite Hm, any_digit_behind_spec, Hnd.
    + apply hex_value_zero; [by apply hex_chars_digits|done].
Qed.

(** ** The result *)

Lemma lor_high a b s : 0 ≤ s → 0 ≤ b < 2 ^ s → Z.lor (a * 2 ^ s) b = a * 2 ^ s + b.
Proof.
  intros Hs Hb. rewrite <- Z.add_lor_land. enough (Z.land (a * 2 ^ s) b = 0) as -> by lia.
  apply Z.bits_inj. intros i. rewrite Z.land_spec, Z.bits_0. destruct (Z.lt_ge_cases i s) as [Hi|Hi].
  - by rewrite Z.mul_pow2_bits_low by done.
  - rewrite <- (Z.mod_small b (2 ^ s)) by done. rewrite Z.mod_pow2_bits_high by lia. apply andb_false_r.
Qed.

Lemma round_half_even_shift m q u : round_half_even m q u = round_half_even m 0 (u - q).
Proof.
  unfold round_half_even. rewrite Z.sub_0_r. destruct (Z.leb_spec u q), (Z.leb_spec (u - q) 0); try lia; [|done..].
  all: f_equal; f_equal; lia.
Qed.
Lemma round_half_even_none m d : 0 ≤ m < 2 ^ (d - 1) → 0 < d → round_half_even m 0 d = 0.
Proof.
  intros Hm Hd. unfold round_half_even. rewrite Z.sub_0_r. destruct (Z.leb_spec d 0); [lia|].
  assert (2 ^ (d - 1) < 2 ^ d) by (apply Z.pow_lt_mono_r; lia). rewrite Z.mod_small, Z.div_small by lia.
  destruct (Z.ltb_spec (2 ^ (d - 1)) m); [lia|]. destruct (Z.eqb_spec (2 ^ (d - 1)) m); [lia|done].
Qed.

Section rounded.
Context (p : nat) (emin emax : Z) (sb : nat).

(** The status and the bits for a number, [result] if there are none. *)
Definition rounded (result : Z) (negative : bool) (m q : Z) : ParseStatus * Z :=
  let sign := if negative then 2 ^ Z.of_nat sb else 0 in
  if m =? 0 then (FDN_PARSE_OK, sign)
  else
    let code := float_code (Z.of_nat p) emin m q in
    if infinity_code (Z.of_nat p) emin emax <=? code then (FDN_PARSE_OUT_OF_RANGE, result) else (FDN_PARSE_OK, sign + code).

Context (Hp : (2 ≤ p ≤ 53)%nat) (Hemin : -10000 ≤ emin ≤ 0) (Hemax : emin ≤ emax ≤ 10000).
Let h := 2 ^ (Z.of_nat p - 1).

Lemma half_bounds : 2 ≤ h ≤ 2 ^ 52 ∧ 2 ^ Z.of_nat p = 2 * h.
Proof.
  unfold h. split; [split|].
  - change 2 with (2 ^ 1) at 1. apply Z.pow_le_mono_r; lia.
  - apply Z.pow_le_mono_r; lia.
  - rewrite <- Z.pow_succ_r by lia. f_equal. lia.
Qed.

(** Rounding yields between the least and the greatest significand, and one more. *)
Lemma rounded_units m q e : 0 < m → e = Z.max (Z.log2 m + q) emin →
  (e = Z.log2 m + q → h ≤ round_half_even m q (e - (Z.of_nat p - 1))) ∧
  0 ≤ round_half_even m q (e - (Z.of_nat p - 1)) ≤ 2 * h ∧
  (e - (Z.of_nat p - 1) ≤ q → round_half_even m q (e - (Z.of_nat p - 1)) < 2 * h) ∧
  (Z.log2 m + q < e → round_half_even m q (e - (Z.of_nat p - 1)) ≤ h).
Proof.
  intros Hm He. pose proof (units_bounds (Z.of_nat p) emin ltac:(lia) m q e) as Hb. specialize (λ n, Hb n Hm He).
  destruct half_bounds as [_ Hh]. fold h in Hb. rewrite Hh in Hb. unfold round_half_even.
  destruct (Z.log2_spec m Hm) as [_ Hu]. pose proof (Z.log2_nonneg m).
  destruct (Z.leb_spec (e - (Z.of_nat p - 1)) q) as [Hq|Hq].
  - specialize (Hb _ (or_introl (conj Hq eq_refl))). split_and!; [apply Hb|lia|lia|lia|].
    intros Hlt. apply Z.lt_le_incl. eapply Z.lt_le_trans; [apply Z.mul_lt_mono_pos_r; [apply Z.pow_pos_nonneg; lia|exact Hu]|].
    rewrite <- Z.pow_add_r by lia. apply Z.pow_le_mono_r; lia.
  - specialize (Hb _ (or_intror (conj Hq eq_refl))). destruct Hb as [Hb1 Hb2]. cbn zeta.
    assert (Z.log2 m + q < e → m / 2 ^ (e - (Z.of_nat p - 1) - q) < h).
    { intros Hlt. apply Z.div_lt_upper_bound; [apply Z.pow_pos_nonneg; lia|]. eapply Z.lt_le_trans; [exact Hu|].
      unfold h. rewrite <- Z.pow_add_r by lia. apply Z.pow_le_mono_r; lia. }
    destruct (_ || _); (split_and!; [intros E; specialize (Hb1 E); lia|lia..]).
Qed.

Lemma code_beyond m q : 0 < m → emax < Z.log2 m + q → infinity_code (Z.of_nat p) emin emax ≤ float_code (Z.of_nat p) emin m q.
Proof.
  intros Hm He. destruct (rounded_units m q (Z.log2 m + q) Hm ltac:(lia)) as (Hn & _). specialize (Hn eq_refl).
  unfold float_code, infinity_code. replace (Z.max (Z.log2 m + q) emin) with (Z.log2 m + q) by lia. fold h.
  destruct half_bounds. nia.
Qed.
Lemma code_below m q : 0 < m → Z.log2 m + q < emin - Z.of_nat p → float_code (Z.of_nat p) emin m q = 0.
Proof.
  intros Hm He. destruct (Z.log2_spec m Hm) as [_ Hu]. pose proof (Z.log2_nonneg m). unfold float_code.
  replace (Z.max (Z.log2 m + q) emin) with emin by lia. rewrite Z.sub_diag, Z.mul_0_l, Z.add_0_l, round_half_even_shift.
  apply round_half_even_none; [|lia]. split; [lia|]. eapply Z.lt_le_trans; [exact Hu|]. apply Z.pow_le_mono_r; lia.
Qed.

Context (Hsb : (sb ≤ 63)%nat) (Hsize : infinity_code (Z.of_nat p) emin emax ≤ 2 ^ Z.of_nat sb).
Lemma sign_bound : 2 ^ Z.of_nat sb ≤ 2 ^ 63.
Proof. apply Z.pow_le_mono_r; lia. Qed.

Lemma sign_lor (negative : bool) n : 0 ≤ n < 2 ^ Z.of_nat sb →
  Z.lor (if negative then Z.shiftl 1 (Z.of_nat sb) else 0) n = (if negative then 2 ^ Z.of_nat sb else 0) + n.
Proof.
  intros Hn. destruct negative; [|done]. rewrite Z.shiftl_1_l. replace (2 ^ Z.of_nat sb) with (1 * 2 ^ Z.of_nat sb) by lia.
  apply lor_high; lia.
Qed.

(** A sign, an exponent and a significand side by side. *)
Lemma pack_spec (negative : bool) e n : emin ≤ e ≤ emax → h ≤ n < 2 * h →
  Z.lor (Z.lor (if negative then Z.shiftl 1 (Z.of_nat sb) else 0)
    (uint64 (Z.shiftl (uint64 (e + (1 - emin))) (Z.of_nat p - 1)))) (uint64 (n - h)) =
  (if negative then 2 ^ Z.of_nat sb else 0) + ((e - emin) * h + n).
Proof.
  intros He Hn. destruct half_bounds as [Hh _]. pose proof sign_bound.
  assert ((e - emin + 1) * h + (n - h) < 2 ^ Z.of_nat sb) as Hlt.
  { eapply Z.lt_le_trans; [|exact Hsize]. unfold infinity_code. fold h. nia. }
  unfold uint64. rewrite (Z.mod_small (e + (1 - emin))) by lia. rewrite (Z.shiftl_mul_pow2 (e + (1 - emin))) by lia. fold h.
  rewrite (Z.mod_small (_ * h)) by nia. rewrite (Z.mod_small (n - h)) by lia. rewrite <- Z.lor_assoc.
  unfold h at 1. rewrite lor_high by (fold h; lia). fold h. rewrite sign_lor by nia. ring.
Qed.

Lemma hex_subnormal_below number (negative : bool) count e : INT64_MIN ≤ e → e < emin - Z.of_nat p →
  hex_subnormal p emin number (if negative then Z.shiftl 1 (Z.of_nat sb) else 0) (Z.shiftl 1 (Z.of_nat p - 1)) count e =
  if negative then 2 ^ Z.of_nat sb else 0.
Proof.
  intros Hmin He. unfold hex_subnormal.
  assert (saturating_add_i64 (saturating_add_i64 e (- emin)) (Z.of_nat p) = e - emin + Z.of_nat p) as ->.
  { unfold INT64_MIN in *. rewrite (saturating_add_spec e), saturating_add_spec; unfold saturated, INT64_MAX, INT64_MIN; lia. }
  destruct (Z.ltb_spec 0 (e - emin + Z.of_nat p)); [lia|]. destruct (Z.eqb_spec (e - emin + Z.of_nat p) 0); [lia|].
  rewrite (Z.shiftl_1_l (Z.of_nat p - 1)). fold h. destruct half_bounds. destruct (Z.eqb_spec 0 h); [lia|].
  rewrite Z.lor_0_r. destruct negative; [apply Z.shiftl_1_l|done].
Qed.

Context (ds : list Z) (first : nat) (number : HexNumber) (Hrep : represents ds first number).
Let m := hex_value ds.
Let count := Z.of_nat (hx_first_bits number) + 4 * Z.of_nat (length ds - S first).

Lemma hex_normal_spec (negative : bool) q e : e = Z.log2 m + q → emin ≤ e →
  hex_normal p emax (1 - emin) number (if negative then Z.shiftl 1 (Z.of_nat sb) else 0) (Z.shiftl 1 (Z.of_nat p - 1)) count e =
  let code := float_code (Z.of_nat p) emin m q in
  if infinity_code (Z.of_nat p) emin emax <=? code then None else Some ((if negative then 2 ^ Z.of_nat sb else 0) + code).
Proof.
  intros He Hmin. destruct (value_log2 ds first number Hrep) as [Hm Hlog]. fold m in Hm, Hlog. fold count in Hlog.
  destruct (rounded_units m q e Hm ltac:(lia)) as (Hn1 & Hn2 & Hn3 & _). unfold float_code.
  replace (Z.max (Z.log2 m + q) emin) with e by lia. rewrite round_half_even_shift in *.
  replace (e - (Z.of_nat p - 1) - q) with (count - Z.of_nat p) in * by lia.
  specialize (Hn1 He). set (n := round_half_even m 0 (count - Z.of_nat p)) in *.
  destruct half_bounds as [Hh Hh2]. unfold hex_normal. cbn zeta. unfold infinity_code. fold h.
  pose proof (first_value_bounds ds first number Hrep) as (_ & Hfb & _).
  destruct (Z.ltb_spec emax e) as [Hmax|Hmax].
  { destruct (Z.leb_spec ((emax - emin + 2) * h) ((e - emin) * h + n)); [done|nia]. }
  rewrite (Z.shiftl_1_l (Z.of_nat p - 1)). fold h. destruct (Z.leb_spec count (Z.of_nat p)) as [Hc|Hc].
  - specialize (Hn3 ltac:(lia)). destruct (Z.leb_spec ((emax - emin + 2) * h) ((e - emin) * h + n)); [nia|].
    assert (uint64 (Z.shiftl (hex_prefix number (Z.to_nat count)) (Z.of_nat p - count)) = n) as ->; [|by rewrite pack_spec by lia].
    rewrite (hex_prefix_spec ds first number Hrep), Z2Nat.id by (fold count; lia). fold m count.
    rewrite Z.sub_diag, Z.div_1_r, Z.shiftl_mul_pow2 by lia.
    assert (n = m * 2 ^ (Z.of_nat p - count)) as E.
    { unfold n, round_half_even. destruct (Z.leb_spec (count - Z.of_nat p) 0); [|lia]. do 2 f_equal. lia. }
    rewrite <- E. apply Z.mod_small. lia.
  - rewrite (round_up_spec ds first number Hrep) by (fold count; lia). fold m count. fold n.
    assert (uint64 (Z.shiftl h 1) = 2 * h) as ->.
    { unfold uint64. rewrite Z.shiftl_mul_pow2, Z.mod_small by lia. lia. }
    destruct (Z.eqb_spec n (2 * h)) as [E|E].
    + rewrite E. destruct (Z.ltb_spec emax (e + 1)).
      * destruct (Z.leb_spec ((emax - emin + 2) * h) ((e - emin) * h + 2 * h)); [done|nia].
      * destruct (Z.leb_spec ((emax - emin + 2) * h) ((e - emin) * h + 2 * h)); [nia|].
        rewrite pack_spec by lia. do 2 f_equal. ring.
    + destruct (Z.ltb_spec emax e); [lia|].
      destruct (Z.leb_spec ((emax - emin + 2) * h) ((e - emin) * h + n)); [nia|]. by rewrite pack_spec by lia.
Qed.

Lemma hex_subnormal_spec (negative : bool) q e : e = Z.log2 m + q → INT64_MIN ≤ e < emin →
  let code := float_code (Z.of_nat p) emin m q in
  code < infinity_code (Z.of_nat p) emin emax ∧
  hex_subnormal p emin number (if negative then Z.shiftl 1 (Z.of_nat sb) else 0) (Z.shiftl 1 (Z.of_nat p - 1)) count e =
    (if negative then 2 ^ Z.of_nat sb else 0) + code.
Proof.
  intros He Hmin. destruct (value_log2 ds first number Hrep) as [Hm Hlog]. fold m in Hm, Hlog. fold count in Hlog.
  destruct (rounded_units m q emin Hm ltac:(lia)) as (_ & Hn2 & _ & Hn4). unfold float_code. specialize (Hn4 ltac:(lia)).
  replace (Z.max (Z.log2 m + q) emin) with emin by lia. rewrite Z.sub_diag, Z.mul_0_l, Z.add_0_l.
  rewrite round_half_even_shift in *. set (keep := e - emin + Z.of_nat p).
  replace (emin - (Z.of_nat p - 1) - q) with (count - keep) in * by lia.
  set (n := round_half_even m 0 (count - keep)) in *. destruct half_bounds as [Hh Hh2]. pose proof sign_bound.
  pose proof (first_value_bounds ds first number Hrep) as (_ & Hfb & _).
  assert (n < infinity_code (Z.of_nat p) emin emax) as Hinf by (unfold infinity_code; fold h; nia).
  assert (0 ≤ n < 2 ^ Z.of_nat sb) as Hn by lia. cbn zeta. split; [done|]. unfold hex_subnormal.
  assert (saturating_add_i64 (saturating_add_i64 e (- emin)) (Z.of_nat p) = keep) as ->.
  { unfold INT64_MIN in *. rewrite (saturating_add_spec e), saturating_add_spec; unfold saturated, INT64_MAX, INT64_MIN, keep; lia. }
  set (significand := if 0 <? keep then _ else _). assert (significand = n) as ->; [|].
  2:{ rewrite (Z.shiftl_1_l (Z.of_nat p - 1)). fold h. destruct (Z.eqb_spec n h) as [E|]; [rewrite <- E|]; by rewrite sign_lor. }
  subst significand. destruct (Z.ltb_spec 0 keep) as [Hk|Hk].
  - destruct (Z.leb_spec count keep) as [Hc|Hc].
    + rewrite (hex_prefix_spec ds first number Hrep), Z2Nat.id by (fold count; lia). fold m count.
      rewrite Z.sub_diag, Z.div_1_r, Z.shiftl_mul_pow2 by lia.
      assert (n = m * 2 ^ (keep - count)) as E.
      { unfold n, round_half_even. destruct (Z.leb_spec (count - keep) 0); [|lia]. do 2 f_equal. lia. }
      rewrite <- E. apply Z.mod_small. lia.
    + replace (Z.to_nat keep + 1)%nat with (Z.to_nat keep + 1)%nat by done.
      rewrite (round_up_spec ds first number Hrep), Z2Nat.id by (fold count; lia). done.
  - destruct (Z.eqb_spec keep 0) as [Hk0|].
    + assert (hex_bit_at number 0 = true) as Hbit.
      { rewrite (hex_bit_at_spec ds first number Hrep). fold m count. rewrite Z.sub_0_r, <- Hlog. by apply Z.bit_log2. }
      pose proof (round_up_spec ds first number Hrep 0 ltac:(fold count; lia) ltac:(lia)) as Hr. rewrite Hbit in Hr.
      change (hex_prefix number 0) with 0 in Hr. fold m count in Hr. unfold n. rewrite Hk0. exact Hr.
    + symmetry. apply round_half_even_none; [|lia]. split; [lia|].
      destruct (Z.log2_spec m Hm) as [_ Hu]. eapply Z.lt_le_trans; [exact Hu|]. apply Z.pow_le_mono_r; lia.
Qed.
End rounded.

(** The exponent is exact, or so large or small that no format reaches it. *)
Lemma hex_binary_exponent_spec ds first number x :
  represents ds first number → Z.of_nat (length ds) < 2 ^ 58 → hx_exponent number = saturated x →
  (hx_integer_digits number ≤ length ds)%nat →
  let e := Z.log2 (hex_value ds) + (x - 4 * Z.of_nat (length ds - hx_integer_digits number)) in
  hex_binary_exponent number = e ∧ INT64_MIN ≤ e ∨
  2 ^ 60 < hex_binary_exponent number ∧ 2 ^ 60 < e ∨
  hex_binary_exponent number < - 2 ^ 60 ∧ e < - 2 ^ 60 ∧ INT64_MIN ≤ hex_binary_exponent number.
Proof.
  intros Hrep Hl Hx Hi. cbn zeta. destruct (value_log2 ds first number Hrep) as [_ ->].
  destruct (first_value_bounds ds first number Hrep) as (_ & Hb & Hf).
  unfold hex_binary_exponent. rewrite (rp_first _ _ _ Hrep), Hx. cbn [default id].
  set (position := if (_ <? _)%nat then _ else _).
  assert (position = 4 * (Z.of_nat (hx_integer_digits number) - Z.of_nat first - 1)) as ->.
  { subst position. unfold INT64_MAX. change (9223372036854775807 / 4) with 2305843009213693951.
    destruct (Nat.ltb_spec first (hx_integer_digits number)); 
      match goal with |- context [?a <? ?b] => destruct (Z.ltb_spec a b) end; lia. }
  rewrite (saturating_add_spec (saturated x)) by (unfold saturated, INT64_MIN, INT64_MAX; lia).
  rewrite saturating_add_spec by (unfold saturated, INT64_MIN, INT64_MAX; lia).
  unfold saturated, INT64_MIN, INT64_MAX. lia.
Qed.

(** [hex_bits] rounds the number of a literal. *)
Lemma hex_bits_exact p emin emax sb source negative m q result :
  (2 ≤ p ≤ 53)%nat → -10000 ≤ emin ≤ 0 → emin ≤ emax ≤ 10000 → (sb ≤ 63)%nat →
  infinity_code (Z.of_nat p) emin emax ≤ 2 ^ Z.of_nat sb →
  hex_literal source negative m q → Z.of_nat (length source) < 2 ^ 58 →
  hex_bits p emin emax (1 - emin) sb source result = Some (rounded p emin emax sb result negative m q).
Proof.
  intros Hp Hemin Hemax Hsb Hsize Hlit Hlen.
  destruct (hex_read_spec _ _ _ _ Hlit) as (number & ds & x & Hread & Hneg & Hm & Hl & Hx & Hi & Hq & Hfirst).
  unfold hex_bits, rounded. rewrite Hread. cbn [mbind option_bind]. f_equal. rewrite Hneg.
  destruct (hx_first_nonzero number) as [first|].
  2:{ rewrite Hfirst. cbn [Z.eqb]. destruct negative; [by rewrite Z.shiftl_1_l|done]. }
  destruct (value_log2 ds first number Hfirst) as [Hpos _]. rewrite <- Hm in Hpos.
  destruct (Z.eqb_spec m 0); [lia|].
  assert (hex_bit_count number = Z.of_nat (hx_first_bits number) + 4 * Z.of_nat (length ds - S first)) as ->.
  { destruct (first_value_bounds ds first number Hfirst) as (_ & Hb & Hf). unfold hex_bit_count.
    rewrite (rp_first _ _ _ Hfirst), (rp_count _ _ _ Hfirst). cbn [default id]. unfold SIZE_MAX.
    destruct (Z.ltb_spec ((18446744073709551615 - Z.of_nat (hx_first_bits number)) / 4) (Z.of_nat (length ds - first - 1))) as [H|H]; [|lia].
    exfalso. apply Z.lt_nge in H. apply H, Z.div_le_lower_bound; lia. }
  destruct (hex_binary_exponent_spec ds first number x Hfirst ltac:(lia) Hx Hi) as [[-> He]|[[H1 H2]|(H1 & H2 & H3)]];
    rewrite <- Hm, <- Hq in *; set (e := Z.log2 m + q) in *.
  - destruct (Z.leb_spec emin e) as [Hle|Hlt].
    + rewrite Hm, (hex_normal_spec p emin emax sb Hp Hemin Hemax Hsb Hsize ds first number Hfirst negative q) by (unfold e in *; congruence || lia).
      rewrite <- Hm. cbn zeta. by destruct (_ <=? _).
    + destruct (hex_subnormal_spec p emin emax sb Hp Hemin Hemax Hsb Hsize ds first number Hfirst negative q e) as [Hinf Hs].
      { unfold e. by rewrite Hm. } { lia. }
      rewrite Hs, <- Hm in *. destruct (Z.leb_spec (infinity_code (Z.of_nat p) emin emax) (float_code (Z.of_nat p) emin m q)); [lia|done].
  - destruct (Z.leb_spec emin (hex_binary_exponent number)); [|lia]. unfold hex_normal.
    destruct (Z.ltb_spec emax (hex_binary_exponent number)); [|lia].
    assert (infinity_code (Z.of_nat p) emin emax ≤ float_code (Z.of_nat p) emin m q) by (eapply code_beyond; eauto; fold e; lia).
    destruct (Z.leb_spec (infinity_code (Z.of_nat p) emin emax) (float_code (Z.of_nat p) emin m q)); [done|lia].
  - destruct (Z.leb_spec emin (hex_binary_exponent number)); [lia|].
    assert (float_code (Z.of_nat p) emin m q = 0) as -> by (eapply code_below; eauto; fold e; lia).
    erewrite hex_subnormal_below by (eauto; lia). rewrite Z.add_0_r.
    assert (2 ≤ 2 ^ (Z.of_nat p - 1)) as Hh by (change 2 with (2 ^ 1) at 1; apply Z.pow_le_mono_r; lia).
    destruct (Z.leb_spec (infinity_code (Z.of_nat p) emin emax) 0); [unfold infinity_code in *; nia|done].
Qed.

(** * Texts *)

(** ** What the syntax accepts *)

Lemma float_copy_app a b : float_copy (a ++ b) = float_copy a ++ float_copy b.
Proof. apply List.filter_app. Qed.
Lemma float_copy_cons c rest : c ≠ "_"%char → float_copy (c :: rest) = c :: float_copy rest.
Proof. intros H. unfold float_copy. cbn [List.filter]. by rewrite bool_decide_false. Qed.
Lemma float_copy_skip rest : float_copy ("_"%char :: rest) = float_copy rest.
Proof. done. Qed.
Lemma float_digit_text c hexadecimal : float_digit c hexadecimal = true → c ≠ "_"%char.
Proof. by intros H ->; destruct hexadecimal. Qed.

Lemma float_digits_spec hexadecimal previous saw rest rest' saw' :
  float_digits hexadecimal previous saw rest = Some (rest', saw') →
  ∃ consumed, rest = consumed ++ rest' ∧ Forall (λ c, float_digit c hexadecimal = true) (float_copy consumed) ∧
    saw' = saw || negb (bool_decide (float_copy consumed = [])) ∧
    match rest' with c :: _ => float_digit c hexadecimal = false ∧ c ≠ "_"%char | [] => True end.
Proof.
  revert previous saw. induction rest as [|c rest IH]; intros previous saw; cbn [float_digits].
  { intros [= <- <-]. exists []. cbn. by rewrite orb_false_r. }
  destruct (float_digit c hexadecimal) eqn:Hc.
  - intros (consumed & -> & Hf & -> & Hr)%IH. exists (c :: consumed). rewrite float_copy_cons by (by eapply float_digit_text).
    split_and!; [done|by constructor| |done]. by rewrite orb_true_l, bool_decide_false, orb_true_r.
  - case_bool_decide as Hu; cbn [negb].
    + subst c. destruct (_ || _); [done|]. intros (consumed & -> & Hf & -> & Hr)%IH. by exists ("_"%char :: consumed).
    + intros [= <- <-]. exists []. cbn. by rewrite orb_false_r.
Qed.

Lemma hex_prefix_of_spec rest rest' : hex_prefix_of rest = (true, rest') →
  ∃ x, rest = "0"%char :: x :: rest' ∧ ascii_lower x = "x"%char.
Proof.
  destruct rest as [|zero [|x rest]]; cbn; [done..|]. case_bool_decide; cbn [andb]; [|done].
  case_bool_decide; [|done]. intros [= ->]. subst. eauto.
Qed.
Lemma hex_prefix_same rest : (hex_prefix_of rest).1 = false → hex_prefix_of rest = (false, rest).
Proof. destruct rest as [|zero [|x rest]]; cbn; [done..|]. by destruct (_ && _). Qed.

Definition signs : list bytes := [[]; ["+"%char]; ["-"%char]].
Lemma skip_sign_spec rest : ∃ sign, (sign = [] ∨ sign = ["+"%char] ∨ sign = ["-"%char]) ∧ rest = sign ++ skip_sign rest ∧ float_copy sign = sign.
Proof.
  destruct rest as [|c rest]; [exists []; naive_solver|]. cbn. destruct (is_sign c) eqn:Hc.
  - exists [c]. unfold is_sign in Hc. apply orb_true_iff in Hc as [Hc|Hc]; apply bool_decide_eq_true in Hc as ->; naive_solver.
  - exists []. naive_solver.
Qed.

Lemma lower_text c d : ascii_lower c = d → d = "x"%char ∨ d = "p"%char ∨ d = "e"%char → c ≠ "_"%char.
Proof. by intros <- H ->; destruct H as [|[|]]. Qed.
Lemma decimal_digits cs : Forall (λ c, float_digit c false = true) cs → Forall (λ c, isdigit c = true) cs.
Proof. intros H. eapply Forall_impl; [exact H|]. intros c. unfold float_digit. by rewrite orb_false_r. Qed.

(** The copy of a text with a hexadecimal prefix is a literal. *)
Lemma syntax_literal value rest : float_syntax value = true → hex_prefix_of (skip_sign value) = (true, rest) →
  ∃ negative m q, hex_literal (float_copy value) negative m q.
Proof.
  unfold float_syntax. intros Hs Hpre. rewrite Hpre in Hs. apply hex_prefix_of_spec in Hpre as (x & Hx & Hlx).
  destruct (float_digits true true false rest) as [[rest2 saw]|] eqn:E1; [|done].
  apply float_digits_spec in E1 as (c1 & -> & Hc1 & -> & Hr2). rewrite orb_false_l in Hs.
  assert (∃ dot c2 rest3 saw3, float_fraction true (negb (bool_decide (float_copy c1 = []))) rest2 = Some (rest3, saw3) ∧
    rest2 = dot ++ c2 ++ rest3 ∧ (dot = [] ∧ c2 = [] ∨ dot = ["."%char]) ∧
    Forall (λ c, float_digit c true = true) (float_copy c2) ∧
    (saw3 = true → float_copy c1 ++ float_copy c2 ≠ [])) as (dot & c2 & rest3 & saw3 & E2 & -> & Hdot & Hc2 & Hsaw).
  { destruct (float_fraction _ _ rest2) as [[rest3 saw3]|] eqn:E2; [|done]. unfold float_fraction in E2.
    destruct rest2 as [|c rest2].
    - injection E2 as <- <-. exists [], [], [], (negb (bool_decide (float_copy c1 = []))). split_and!; try done; [by left|].
      intros H [E _]%app_nil. by rewrite E in H.
    - case_bool_decide as Hc.
      + apply float_digits_spec in E2 as (c2 & -> & Hc2 & -> & _). subst c. eexists ["."%char], c2, rest3, _.
        split_and!; [done|done|by right|done|]. intros H [E E']%app_nil. by rewrite E, E' in H.
      + injection E2 as <- <-. exists [], [], (c :: rest2), (negb (bool_decide (float_copy c1 = []))). split_and!; try done; [by left|].
        intros H [E _]%app_nil. by rewrite E in H. }
  rewrite E2 in Hs. apply andb_true_iff in Hs as [-> He]. specialize (Hsaw eq_refl).
  destruct rest3 as [|p rest3]; [done|]. cbn [float_exponent] in He.
  destruct (bool_decide (ascii_lower p = "p"%char)) eqn:Hp; [apply bool_decide_eq_true in Hp|done].
  destruct (float_digits false false false (skip_sign rest3)) as [[rest4 saw4]|] eqn:E4; [|done].
  apply float_digits_spec in E4 as (c4 & Hr3 & Hc4 & -> & _). rewrite orb_false_l in He.
  apply andb_true_iff in He as [H4 ->%bool_decide_eq_true]. rewrite app_nil_r in Hr3.
  destruct (skip_sign_spec value) as (sign & Hsign & Hv & Hcs). destruct (skip_sign_spec rest3) as (es & Hes & Hr & Hce).
  rewrite Hx in Hv. rewrite Hr3 in Hr. subst rest3 value.
  repeat rewrite ?float_copy_app, ?Hcs, ?Hce. rewrite !float_copy_cons by (done || eapply lower_text; eauto).
  repeat rewrite ?float_copy_app, ?Hcs, ?Hce. rewrite !float_copy_cons by (done || eapply lower_text; eauto). rewrite float_copy_app, Hce.
  assert (float_copy dot = dot) as -> by (by destruct Hdot as [[-> _]| ->]).
  do 3 eexists. apply hex_literal_intro; [done|done|by apply Forall_app|done| |done|done|by apply decimal_digits|].
  - destruct Hdot as [[-> ->]| ->]; [by left|by right].
  - intros E. by rewrite E in H4.
Qed.

(** A text with a hexadecimal copy has the prefix itself. *)
Lemma copy_prefix value : float_syntax value = true → float_is_hexadecimal (float_copy value) = true →
  ∃ rest, hex_prefix_of (skip_sign value) = (true, rest).
Proof.
  unfold float_syntax, float_is_hexadecimal. intros Hs Hh.
  destruct (hex_prefix_of (skip_sign value)) as [[] rest] eqn:Hpre; [by exists rest|exfalso].
  assert (rest = skip_sign value) as ->.
  { pose proof (hex_prefix_same (skip_sign value)) as H. rewrite Hpre in H. by injection (H eq_refl). } clear Hpre.
  destruct (float_digits false false false (skip_sign value)) as [[rest2 saw]|] eqn:E1; [|done].
  destruct (skip_sign_spec value) as (sign & Hsign & Hv & Hcs).
  assert (skip_sign (float_copy value) = float_copy (skip_sign value)) as Hskip.
  { rewrite Hv at 1. rewrite float_copy_app, Hcs. destruct Hsign as [->|[->| ->]]; [|done..]. cbn [app] in *.
    destruct value as [|c value]; [done|]. assert (c ≠ "_"%char) as Hc by (intros ->; by destruct value).
    rewrite <- Hv in *. rewrite float_copy_cons by done. cbn in *. destruct (is_sign c); [|done].
    by apply (f_equal length) in Hv; cbn in Hv; lia. }
  rewrite Hskip in Hh. destruct (hex_prefix_of (float_copy (skip_sign value))) as [b rest] eqn:Hpre. cbn in Hh. subst b.
  apply hex_prefix_of_spec in Hpre as (x & Hx & Hlx).
  assert (float_digit x false = false) as Hxd by (revert Hlx; clear; byte_cases x).
  apply float_digits_spec in E1 as (c1 & Hr & Hc1 & -> & Hr2). rewrite Hr, float_copy_app in Hx.
  destruct rest2 as [|c rest2].
  - cbn in Hx. rewrite app_nil_r in Hx. rewrite Hx in Hc1. apply Forall_cons in Hc1 as [_ [Hc1 _]%Forall_cons]. congruence.
  - destruct Hr2 as [Hcd Hcu]. rewrite float_copy_cons in Hx by done.
    destruct (float_copy c1) as [|a [|b c1']]; cbn in Hx; [injection Hx as -> _|injection Hx as _ -> _..].
    + discriminate Hcd.
    + cbn [float_fraction] in Hs. rewrite bool_decide_false in Hs by (by intros ->).
      cbn [float_exponent] in Hs. rewrite (bool_decide_false (ascii_lower x = _)) in Hs by (rewrite Hlx; done).
      cbn in Hs. done.
    + apply Forall_cons in Hc1 as [_ [Hc1 _]%Forall_cons]. congruence.
Qed.

(** ** The number closest to a literal *)

(** The result is the float closest to [m * 2^q], or out of range when infinity is. *)
Definition nearest (p : nat) (emin emax : Z) (sb : nat) (negative : bool) (m q : Z)
    (result : option (ParseStatus * option Z)) : Prop :=
  ∃ code, closest (Z.of_nat p) emin emax m q code ∧ 0 ≤ code ≤ infinity_code (Z.of_nat p) emin emax ∧
    result = Some (if code =? infinity_code (Z.of_nat p) emin emax then (FDN_PARSE_OUT_OF_RANGE, Some 0)
                   else (FDN_PARSE_OK, Some ((if negative then 2 ^ Z.of_nat sb else 0) + code))).

Section nearest.
Context (p : nat) (emin emax : Z) (sb : nat).
Context (Hp : (2 ≤ p ≤ 53)%nat) (Hemin : -10000 ≤ emin ≤ 0) (Hemax : emin ≤ emax ≤ 10000).

Lemma infinity_closest m q : 0 < m → emax < Z.log2 m + q →
  closest (Z.of_nat p) emin emax m q (infinity_code (Z.of_nat p) emin emax).
Proof.
  intros Hm He k code' Hq Hk Hc Hne. left. set (inf := infinity_code _ _ _) in *. set (h := 2 ^ (Z.of_nat p - 1)).
  assert (inf = (emax - emin + 1) * h + h) as Hinf by (unfold inf, infinity_code; fold h; ring).
  assert (0 < h) as Hh by (apply Z.pow_pos_nonneg; lia).
  assert (2 ^ Z.of_nat p = 2 * h) as Hp2 by (unfold h; rewrite <- Z.pow_succ_r by lia; f_equal; lia).
  assert (code_value (Z.of_nat p) emin k inf ≤ m * 2 ^ (q + k)) as Hv.
  { rewrite Hinf. unfold h. rewrite code_value_at by (fold h; lia). destruct (Z.log2_spec m Hm) as [Hl _].
    pose proof (Z.log2_nonneg m). apply Z.le_trans with (2 ^ (Z.log2 m + (q + k))).
    - rewrite <- Z.pow_add_r by lia. apply Z.pow_le_mono_r; lia.
    - rewrite Z.pow_add_r by lia. apply Z.mul_le_mono_nonneg_r; [|done]. apply Z.pow_nonneg. lia. }
  pose proof (code_value_step (Z.of_nat p) emin ltac:(lia) k code' ltac:(lia) Hk).
  pose proof (code_value_mono (Z.of_nat p) emin ltac:(lia) k (code' + 1) inf ltac:(lia) Hk). lia.
Qed.

Lemma rounded_nearest negative m q : 0 ≤ m →
  nearest p emin emax sb negative m q (let '(status, bits) := rounded p emin emax sb 0 negative m q in Some (status, Some bits)).
Proof.
  intros Hm. unfold rounded, nearest. set (inf := infinity_code _ _ _).
  assert (0 < inf) as Hinf by (unfold inf, infinity_code; pose proof (Z.pow_pos_nonneg 2 (Z.of_nat p - 1)); nia).
  destruct (Z.eqb_spec m 0) as [->|Hm0].
  { exists 0. split_and!; [apply zero_closest; lia|lia|lia|]. destruct (Z.eqb_spec 0 inf); [lia|]. by rewrite Z.add_0_r. }
  assert (0 < m) as Hpos by lia. destruct (Z.lt_ge_cases emax (Z.log2 m + q)) as [He|He].
  - assert (inf ≤ float_code (Z.of_nat p) emin m q) by (eapply code_beyond; eauto).
    exists inf. split_and!; [by apply infinity_closest|lia|lia|]. destruct (Z.leb_spec inf (float_code (Z.of_nat p) emin m q)); [|lia].
    by rewrite Z.eqb_refl.
  - assert (0 ≤ float_code (Z.of_nat p) emin m q ≤ inf) as Hc.
    { destruct (rounded_units p emin Hp m q (Z.max (Z.log2 m + q) emin) Hpos eq_refl) as (_ & Hn & _).
      unfold float_code, inf, infinity_code in *. nia. }
    exists (float_code (Z.of_nat p) emin m q). split_and!; [apply float_code_closest; lia|lia|lia|].
    destruct (Z.leb_spec inf (float_code (Z.of_nat p) emin m q)), (Z.eqb_spec (float_code (Z.of_nat p) emin m q) inf); try lia; done.
Qed.
End nearest.

(** ** The entry points *)

Lemma hex_not_special format value rest : hex_prefix_of (skip_sign value) = (true, rest) → float_special format value = None.
Proof.
  intros (x & Hx & _)%hex_prefix_of_spec. destruct (skip_sign_spec value) as (sign & Hsign & Hv & _). rewrite Hx in Hv. subst value.
  assert (∀ c d word, c ≠ "0"%char → d ≠ "0"%char → ascii_equal (sign ++ "0"%char :: x :: rest) (c :: d :: word) = false) as Hw.
  { intros c d word Hc Hd. unfold ascii_equal. apply andb_false_iff. right.
    assert (ascii_lower "0"%char = "0"%char) as E0 by done.
    destruct Hsign as [->|Hsign]; [|destruct Hsign as [->| ->]]; cbn [app zip zip_with forallb fst snd]; rewrite E0;
      [rewrite (bool_decide_false ("0"%char = c)) by congruence|rewrite (bool_decide_false ("0"%char = d)) by congruence..];
      cbn [andb]; rewrite ?andb_false_r; done. }
  unfold float_special, lit. cbn [String.list_ascii_of_string]. by rewrite !Hw.
Qed.

Lemma rounded_small p emin emax sb negative m q : (2 ≤ p ≤ 53)%nat → emin ≤ emax →
  infinity_code (Z.of_nat p) emin emax ≤ 2 ^ Z.of_nat sb → 0 ≤ m →
  0 ≤ (rounded p emin emax sb 0 negative m q).2 < 2 ^ (Z.of_nat sb + 1).
Proof.
  intros Hp He Hi Hm. unfold rounded. rewrite Z.pow_add_r by lia. assert (0 < 2 ^ Z.of_nat sb) by (apply Z.pow_pos_nonneg; lia).
  destruct (Z.eqb_spec m 0); cbn [snd]; [by destruct negative; lia|].
  assert (0 ≤ float_code (Z.of_nat p) emin m q).
  { unfold float_code, round_half_even. assert (0 < 2 ^ (Z.of_nat p - 1)) by (apply Z.pow_pos_nonneg; lia).
    set (e := Z.max _ _). assert (0 ≤ (e - emin) * 2 ^ (Z.of_nat p - 1)) by nia.
    destruct (Z.leb_spec (e - (Z.of_nat p - 1)) q).
    - assert (0 ≤ m * 2 ^ (q - (e - (Z.of_nat p - 1)))) by (apply Z.mul_nonneg_nonneg; [lia|apply Z.pow_nonneg; lia]). lia.
    - cbn zeta. assert (0 ≤ m / 2 ^ (e - (Z.of_nat p - 1) - q)) by (apply Z.div_pos; [lia|apply Z.pow_pos_nonneg; lia]).
      destruct (_ || _); lia. }
  destruct (Z.leb_spec (infinity_code (Z.of_nat p) emin emax) (float_code (Z.of_nat p) emin m q)); cbn [snd]; [lia|destruct negative; lia].
Qed.

Lemma hex_literal_nonneg source negative m q : hex_literal source negative m q → 0 ≤ m.
Proof. intros [? ? integer ? fraction ? ? ? ? ? Hds]. apply hex_value_bound, hex_chars_digits, Hds. Qed.
Lemma float_copy_length value : (length (float_copy value) ≤ length value)%nat.
Proof. apply List.filter_length_le. Qed.

Section entry.
Context (strtof strtod : bytes → Z * bool).

(** C18: A hexadecimal number in a text, with or without separators, is read as the 32-bit
    and the 64-bit float that is closest to its exact value, the even one of two that are
    equally close; it is out of range exactly when infinity, taken for the next power of
    two, is closest.  Subnormal results, results that round to zero and exponents of any
    length are included. *)
Theorem hexadecimal_nearest (value : bytes) :
  float_syntax value = true → float_is_hexadecimal (float_copy value) = true → Z.of_nat (length value) < 2 ^ 58 →
  ∃ negative m q, hex_literal (float_copy value) negative m q ∧
    nearest 53 (-1022) 1023 63 negative m q (foundation_runtime_parse_f64 strtod (Some value)) ∧
    nearest 24 (-126) 127 31 negative m q (foundation_runtime_parse_f32 strtof (Some value)).
Proof.
  intros Hs Hh Hl. destruct (copy_prefix value Hs Hh) as [rest Hpre]. destruct (syntax_literal value rest Hs Hpre) as (negative & m & q & Hlit).
  exists negative, m, q. split; [done|]. pose proof (hex_literal_nonneg _ _ _ _ Hlit) as Hm. pose proof (float_copy_length value) as Hc.
  assert (∀ format hex strto, parse_float format hex strto (Some value) =
    '(status, bits) ← hex (float_copy value); Some (status, Some bits)) as Hparse.
  { intros format hex strto. unfold parse_float. rewrite (hex_not_special format value rest Hpre), Hs, Hh. cbn [negb].
    destruct (Nat.eqb_spec (length value) 0); [by destruct value|].
    destruct (Z.eqb_spec (Z.of_nat (length value)) SIZE_MAX); [unfold SIZE_MAX in *; lia|done]. }
  unfold foundation_runtime_parse_f64, foundation_runtime_parse_f32. rewrite !Hparse. split.
  - unfold hex_f64. rewrite (hex_bits_exact 53 (-1022) 1023 63 _ negative m q) by (done || lia). cbn [mbind option_bind].
    pose proof (rounded_nearest 53 (-1022) 1023 63 ltac:(lia) ltac:(lia) ltac:(lia) negative m q Hm) as H.
    by destruct (rounded 53 (-1022) 1023 63 0 negative m q).
  - unfold hex_f32. rewrite (hex_bits_exact 24 (-126) 127 31 _ negative m q) by (done || lia). cbn [mbind option_bind].
    pose proof (rounded_nearest 24 (-126) 127 31 ltac:(lia) ltac:(lia) ltac:(lia) negative m q Hm) as H.
    pose proof (rounded_small 24 (-126) 127 31 negative m q ltac:(lia) ltac:(lia) ltac:(done) Hm) as Hb.
    destruct (rounded 24 (-126) 127 31 0 negative m q) as [status bits]. cbn [snd] in Hb.
    change (2 ^ (Z.of_nat 31 + 1)) with 4294967296 in Hb. cbn [mbind option_bind]. by rewrite Z.mod_small by done.
Qed.
End entry.

Lemma hexadecimal_nearest_witness :
  foundation_runtime_parse_f64 (λ _, (0, true)) (Some (lit "-0x1.0000_0000_0000_18p-3")) = Some (FDN_PARSE_OK, Some 0xbfc0000000000002) ∧
  ∃ negative m q, hex_literal (float_copy (lit "-0x1.0000_0000_0000_18p-3")) negative m q ∧
    nearest 53 (-1022) 1023 63 negative m q (foundation_runtime_parse_f64 (λ _, (0, true)) (Some (lit "-0x1.0000_0000_0000_18p-3"))) ∧
    nearest 24 (-126) 127 31 negative m q (foundation_runtime_parse_f32 (λ _, (0, true)) (Some (lit "-0x1.0000_0000_0000_18p-3"))).
Proof.
  split; [vm_compute; reflexivity|].
  apply (hexadecimal_nearest (λ _, (0, true)) (λ _, (0, true))); vm_compute; reflexivity.
Defined.
