(* ===== verification/ParseDuration.v ===== *)
(** * Durations in text (runtime/src/parse.c)

    [foundation_runtime_time_parse_duration]: numbers with units, in nanoseconds.  The
    arithmetic on [double] is that of binary64; converting a number that is no [uint64_t]
    is undefined in C. *)
From Stdlib Require Import ZArith Lia SpecFloat.
From S2P Require Import Prelude ParseFloat ParseFloatProofs.
Local Open Scope Z_scope.

Definition f64_mul : spec_float → spec_float → spec_float := SFmul 53 1024.
Definition f64_div : spec_float → spec_float → spec_float := SFdiv 53 1024.
Definition f64_of (value : Z) : spec_float := binary_normalize 53 1024 value 0 false.
(** The number without its fraction. *)
Definition f64_uint64 (value : spec_float) : option Z :=
  let whole :=
    match value with
    | S754_zero _ => Some 0
    | S754_finite sign m e =>
        let magnitude := if 0 <=? e then Z.pos m * 2 ^ e else Z.pos m / 2 ^ (- e) in
        Some (if sign then - magnitude else magnitude)
    | _ => None
    end in
  whole ← whole; if (0 <=? whole) && (whole <? 18446744073709551616) then Some whole else None.

Definition duration_limit : Z := 9223372036854775808.

Definition duration_unit (value : bytes) : option Z :=
  if bool_decide (value = lit "ns") then Some 1
  else if bool_decide (value = lit "us") then Some 1000
  else if bool_decide (value = ["194"%char; "181"%char; "s"%char]) then Some 1000
  else if bool_decide (value = ["206"%char; "188"%char; "s"%char]) then Some 1000
  else if bool_decide (value = lit "ms") then Some 1000000
  else if bool_decide (value = lit "s") then Some 1000000000
  else if bool_decide (value = lit "m") then Some 60000000000
  else if bool_decide (value = lit "h") then Some 3600000000000
  else None.

Definition duration_digit (current : ascii) : Z := Z.of_N (byte_val current) - 48.

(** What follows the digits, their value and whether there was one; [None] above the limit. *)
Fixpoint duration_integer (rest : bytes) (parsed : Z) (consumed : bool) : option (bytes * Z * bool) :=
  match rest with
  | [] => Some ([], parsed, consumed)
  | current :: rest' =>
      if negb (isdigit current) then Some (rest, parsed, consumed)
      else if (duration_limit - duration_digit current) / 10 <? parsed then None
      else duration_integer rest' (uint64 (parsed * 10 + duration_digit current)) true
  end.

Fixpoint duration_fraction (rest : bytes) (overflow : bool) (result : Z) (scale : spec_float) (consumed : bool)
    : bytes * Z * spec_float * bool :=
  match rest with
  | [] => ([], result, scale, consumed)
  | current :: rest' =>
      if negb (isdigit current) then (rest, result, scale, consumed)
      else if overflow then duration_fraction rest' true result scale true
      else if (duration_limit - duration_digit current) / 10 <? result then duration_fraction rest' true result scale true
      else duration_fraction rest' false (uint64 (result * 10 + duration_digit current)) (f64_mul scale (f64_of 10)) true
  end.

Definition duration_unit_end (current : ascii) : bool := bool_decide (current = "."%char) || isdigit current.
(** The unit and what follows it. *)
Fixpoint unit_text (rest : bytes) : bytes * bytes :=
  match rest with
  | [] => ([], [])
  | current :: rest' =>
      if duration_unit_end current then ([], rest)
      else let '(unit, rest'') := unit_text rest' in (current :: unit, rest'')
  end.

(** A status with the result, a conversion that is undefined, or a loop that goes on. *)
Inductive Outcome :=
  | Parsed (status : ParseStatus) (result : option Z)
  | Undefined
  | Running.

(** The nanoseconds of one number with its unit, added to the total. *)
Definition add_part (integer fraction : Z) (scale : spec_float) (unit total : Z) : Outcome + Z :=
  if duration_limit / unit <? integer then inl (Parsed FDN_PARSE_OUT_OF_RANGE None)
  else
    let part := uint64 (integer * unit) in
    match
      if fraction =? 0 then inr part
      else match f64_uint64 (f64_mul (f64_of fraction) (f64_div (f64_of unit) scale)) with
           | None => inl Undefined
           | Some more =>
               if duration_limit <? uint64 (part + more) then inl (Parsed FDN_PARSE_OUT_OF_RANGE None) else inr (uint64 (part + more))
           end
    with
    | inl outcome => inl outcome
    | inr part => if duration_limit - part <? total then inl (Parsed FDN_PARSE_OUT_OF_RANGE None) else inr (uint64 (total + part))
    end.

(** The end of the loop. *)
Definition duration_result (negative : bool) (total : Z) : Outcome :=
  if negb negative && (INT64_MAX <? total) then Parsed FDN_PARSE_OUT_OF_RANGE None
  else if negative && (total =? duration_limit) then Parsed FDN_PARSE_OK (Some INT64_MIN)
  else Parsed FDN_PARSE_OK (Some (if negative then - total else total)).

Fixpoint duration_loop (fuel : nat) (negative : bool) (rest : bytes) (total : Z) : Outcome :=
  match rest with
  | [] => duration_result negative total
  | current :: _ =>
      match fuel with
      | O => Running
      | S fuel =>
          if negb (duration_unit_end current) then Parsed FDN_PARSE_INVALID None
          else match duration_integer rest 0 false with
          | None => Parsed FDN_PARSE_OUT_OF_RANGE None
          | Some (rest, integer, before_point) =>
              let '(rest, fraction, scale, after_point) :=
                match rest with
                | c :: rest' =>
                    if bool_decide (c = "."%char) then duration_fraction rest' false 0 (f64_of 1) false
                    else (rest, 0, f64_of 1, false)
                | [] => (rest, 0, f64_of 1, false)
                end in
              if negb before_point && negb after_point then Parsed FDN_PARSE_INVALID None
              else
                let '(text, rest) := unit_text rest in
                if bool_decide (text = []) then Parsed FDN_PARSE_INVALID None
                else match duration_unit text with
                | None => Parsed FDN_PARSE_INVALID None
                | Some unit =>
                    match add_part integer fraction scale unit total with
                    | inl outcome => outcome
                    | inr total => duration_loop fuel negative rest total
                    end
                end
          end
      end
  end.

(** A text that is not there is [None]. *)
Definition foundation_runtime_time_parse_duration (value : option bytes) : Outcome :=
  match value with
  | None => Parsed FDN_PARSE_INVALID None
  | Some value =>
      if (length value =? 0)%nat then Parsed FDN_PARSE_EMPTY None
      else
        let negative := negative_sign value in
        let rest := skip_sign value in
        if bool_decide (rest = lit "0") then Parsed FDN_PARSE_OK (Some 0)
        else if bool_decide (rest = []) then Parsed FDN_PARSE_INVALID None
        else duration_loop (length rest) negative rest 0
  end.

(** * What is read *)

(** ** The loop ends *)

Lemma duration_integer_length rest parsed consumed rest' value consumed' :
  duration_integer rest parsed consumed = Some (rest', value, consumed') → (length rest' ≤ length rest)%nat.
Proof.
  revert parsed consumed. induction rest as [|c rest IH]; intros parsed consumed; cbn; [by intros [= <- _ _]|].
  destruct (negb _); [intros [= <- _ _]; cbn; lia|]. destruct (_ <? _); [done|]. intros H%IH. lia.
Qed.
Lemma duration_fraction_length rest overflow result scale consumed :
  (length (duration_fraction rest overflow result scale consumed).1.1.1 ≤ length rest)%nat.
Proof.
  revert overflow result scale consumed. induction rest as [|c rest IH]; intros overflow result scale consumed; cbn; [lia|].
  destruct (negb _); [cbn; lia|]. destruct overflow; [etrans; [apply IH|lia]|].
  destruct (_ <? _); (etrans; [apply IH|lia]).
Qed.
Lemma unit_text_app rest : rest = (unit_text rest).1 ++ (unit_text rest).2.
Proof.
  induction rest as [|c rest IH]; cbn; [done|]. destruct (duration_unit_end c); [done|].
  destruct (unit_text rest) as [unit rest']. cbn in *. by f_equal.
Qed.

Lemma add_part_ends integer fraction scale unit total : add_part integer fraction scale unit total ≠ inl Running.
Proof.
  unfold add_part. destruct (_ <? _); [done|]. destruct (fraction =? 0); [by destruct (_ <? _)|].
  destruct (f64_uint64 _); [|done]. destruct (_ <? _); [done|]. by destruct (_ <? _).
Qed.
Lemma duration_loop_ends fuel negative rest total : (length rest ≤ fuel)%nat → duration_loop fuel negative rest total ≠ Running.
Proof.
  assert (∀ total, duration_result negative total ≠ Running) as Hend
    by (intros ?; unfold duration_result; destruct (_ && _); [done|]; by destruct (_ && _)).
  revert rest total. induction fuel as [|fuel IH]; intros [|c rest] total Hl; cbn [duration_loop length] in *; [apply Hend|lia|apply Hend|].
  destruct (negb _); [done|]. destruct (duration_integer _ _ _) as [[[rest1 integer] before]|] eqn:E1; [|done].
  apply duration_integer_length in E1. set (fraction := match rest1 with [] => _ | _ => _ end).
  assert (length fraction.1.1.1 ≤ length rest1)%nat as Hf.
  { subst fraction. destruct rest1 as [|c1 rest1]; [done|]. case_bool_decide; [|done].
    etrans; [apply duration_fraction_length|cbn; lia]. }
  destruct fraction as [[[rest2 frac] scale] after]. cbn in Hf. destruct (_ && _); [done|].
  pose proof (unit_text_app rest2) as Hu. destruct (unit_text rest2) as [text rest3]. cbn in Hu.
  case_bool_decide as Ht; [done|]. destruct (duration_unit text); [|done].
  destruct (add_part _ _ _ _ _) as [outcome|total'] eqn:Ea.
  - intros ->. by apply add_part_ends in Ea.
  - apply IH. subst rest2. rewrite length_app in Hf. cbn [length] in E1. destruct text; [done|]. cbn [length] in Hf. lia.
Qed.

(** ** Durations without fractions *)

Definition duration_text (parts : list (bytes * bytes)) : bytes := concat (map (λ part, part.1 ++ part.2) parts).
Definition nanoseconds (parts : list (bytes * bytes)) : Z :=
  foldr Z.add 0 (map (λ part : bytes * bytes, Z.of_N (decimal part.1) * default 0 (duration_unit part.2)) parts).
Definition part_ok (part : bytes * bytes) : Prop :=
  part.1 ≠ [] ∧ Forall (λ c, isdigit c = true) part.1 ∧ is_Some (duration_unit part.2).

Lemma duration_integer_spec ds rest parsed consumed :
  Forall (λ c, isdigit c = true) ds → match rest with c :: _ => isdigit c = false | [] => True end → 0 ≤ parsed ≤ duration_limit →
  duration_integer (ds ++ rest) parsed consumed =
    let value := parsed * 10 ^ Z.of_nat (length ds) + Z.of_N (decimal ds) in
    if duration_limit <? value then None else Some (rest, value, consumed || negb (bool_decide (ds = []))).
Proof.
  intros Hds Hrest. revert parsed consumed. induction Hds as [|c ds Hc _ IH]; intros parsed consumed Hp.
  - cbn [app length]. cbn. rewrite Z.mul_1_r, Z.add_0_r, orb_false_r. destruct (Z.ltb_spec duration_limit parsed); [lia|].
    destruct rest as [|c rest]; [done|]. cbn. by rewrite Hrest.
  - cbn [app duration_integer length]. rewrite Hc. cbn [negb]. pose proof (digit_val_bound c Hc) as Hd.
    assert (duration_digit c = Z.of_N (digit_val c)) as ->.
    { unfold duration_digit, digit_val. rewrite N2Z.inj_sub; [done|]. unfold isdigit, between in Hc. to_prop. lia. }
    set (d := Z.of_N (digit_val c)) in *. rewrite decimal_cons, N2Z.inj_add, N2Z.inj_mul, N2Z.inj_pow, nat_N_Z. fold d.
    change (Z.of_N 10) with 10. rewrite Nat2Z.inj_succ, Z.pow_succ_r by lia.
    assert (0 < 10 ^ Z.of_nat (length ds)) as Hpow by (apply Z.pow_pos_nonneg; lia). cbn zeta.
    replace (parsed * (10 * 10 ^ Z.of_nat (length ds)) + (d * 10 ^ Z.of_nat (length ds) + Z.of_N (decimal ds))) with
      ((parsed * 10 + d) * 10 ^ Z.of_nat (length ds) + Z.of_N (decimal ds)) by ring.
    destruct (Z.ltb_spec ((duration_limit - d) / 10) parsed) as [Hlt|Hge].
    + assert (duration_limit < parsed * 10 + d).
      { apply Z.lt_nge. intros Hle. apply Z.lt_nge in Hlt. apply Hlt, Z.div_le_lower_bound; lia. }
      destruct (Z.ltb_spec duration_limit ((parsed * 10 + d) * 10 ^ Z.of_nat (length ds) + Z.of_N (decimal ds))); [done|nia].
    + assert (parsed * 10 + d ≤ duration_limit) by (pose proof (Z.mul_div_le (duration_limit - d) 10 ltac:(lia)); lia).
      unfold uint64. rewrite (Z.mod_small (parsed * 10 + d)) by (unfold duration_limit in *; lia). rewrite IH by lia. cbn zeta.
      by rewrite (bool_decide_false (c :: ds = [])), orb_true_r by done.
Qed.

Lemma duration_unit_spec text unit : duration_unit text = Some unit →
  0 < unit ∧ text ≠ [] ∧ Forall (λ c, duration_unit_end c = false) text.
Proof.
  unfold duration_unit. repeat case_bool_decide; intros [= <-]; subst; split_and!; try done; repeat constructor.
Qed.
Lemma unit_text_spec text rest : Forall (λ c, duration_unit_end c = false) text →
  match rest with c :: _ => duration_unit_end c = true | [] => True end → unit_text (text ++ rest) = (text, rest).
Proof.
  intros Ht Hr. induction Ht as [|c text Hc _ IH]; cbn [app].
  - destruct rest as [|c rest]; [done|]. cbn. by rewrite Hr.
  - cbn [unit_text]. by rewrite Hc, IH.
Qed.
Lemma digit_unit_end c : isdigit c = true → duration_unit_end c = true.
Proof. unfold duration_unit_end. intros ->. apply orb_true_r. Qed.

Lemma add_part_spec integer scale unit total : 0 < unit → 0 ≤ integer → 0 ≤ total ≤ duration_limit →
  add_part integer 0 scale unit total =
    if duration_limit <? total + integer * unit then inl (Parsed FDN_PARSE_OUT_OF_RANGE None) else inr (total + integer * unit).
Proof.
  intros Hu Hi Ht. unfold add_part. cbn [Z.eqb]. destruct (Z.ltb_spec (duration_limit / unit) integer) as [Hlt|Hge].
  - assert (duration_limit < integer * unit).
    { apply Z.lt_nge. intros Hle. apply Z.lt_nge in Hlt. apply Hlt, Z.div_le_lower_bound; lia. }
    destruct (Z.ltb_spec duration_limit (total + integer * unit)); [done|lia].
  - assert (integer * unit ≤ duration_limit) by (pose proof (Z.mul_div_le duration_limit unit ltac:(lia)); nia).
    unfold uint64, duration_limit in *. rewrite (Z.mod_small (integer * unit)) by nia.
    destruct (Z.ltb_spec (9223372036854775808 - integer * unit) total), (Z.ltb_spec 9223372036854775808 (total + integer * unit)); try lia; [done|].
    by rewrite Z.mod_small by nia.
Qed.

Lemma nanoseconds_nonneg parts : 0 ≤ nanoseconds parts.
Proof.
  unfold nanoseconds. induction parts as [|[ds u] parts IH]; cbn; [lia|].
  destruct (duration_unit u) as [unit|] eqn:Hu; cbn; [apply duration_unit_spec in Hu as [? _]; nia|lia].
Qed.
Lemma duration_text_start parts : Forall part_ok parts →
  match duration_text parts with c :: _ => isdigit c = true | [] => True end.
Proof.
  intros [|[ds u] parts' (Hne & Hds & _) _]; [done|]. cbn in *. destruct Hds as [|c ds Hc _]; [done|exact Hc].
Qed.

Lemma duration_loop_exact fuel negative parts total :
  Forall part_ok parts → (length (duration_text parts) ≤ fuel)%nat → 0 ≤ total ≤ duration_limit →
  duration_loop fuel negative (duration_text parts) total =
    if duration_limit <? total + nanoseconds parts then Parsed FDN_PARSE_OUT_OF_RANGE None
    else duration_result negative (total + nanoseconds parts).
Proof.
  intros Hp. revert fuel total. induction Hp as [|[ds text] parts (Hne & Hds & unit & Hu) Hp IH]; intros fuel total Hl Ht.
  - cbn. rewrite Z.add_0_r. destruct (Z.ltb_spec duration_limit total); [lia|]. by destruct fuel.
  - cbn [fst snd] in *. destruct (duration_unit_spec _ _ Hu) as (Hpos & Htext & Hends).
    change (duration_text ((ds, text) :: parts)) with ((ds ++ text) ++ duration_text parts) in *.
    change (nanoseconds ((ds, text) :: parts)) with (Z.of_N (decimal ds) * default 0 (duration_unit text) + nanoseconds parts).
    rewrite Hu. cbn [default id]. pose proof (nanoseconds_nonneg parts).
    rewrite <- app_assoc in *. rewrite !length_app in Hl.
    destruct fuel as [|fuel]; [destruct ds; cbn in Hl; [done|lia]|].
    assert (match text ++ duration_text parts with c :: _ => isdigit c = false ∧ c ≠ "."%char | [] => True end) as Hstop.
    { destruct Hends as [|c text Hc _]; [done|]. cbn. unfold duration_unit_end in Hc. apply orb_false_iff in Hc as [Hc ?].
      by apply bool_decide_eq_false in Hc. }
    assert (∃ c rest, ds ++ text ++ duration_text parts = c :: rest ∧ isdigit c = true) as (c & rest & Ec & Hc).
    { destruct Hds as [|c ds Hc _]; [done|]. by eexists c, _. }
    pose proof (duration_integer_spec ds (text ++ duration_text parts) 0 false Hds) as Hint.
    rewrite Ec in *. cbn [duration_loop]. rewrite (digit_unit_end _ Hc). cbn [negb].
    rewrite Hint by (try (unfold duration_limit; lia); destruct (text ++ duration_text parts); naive_solver).
    rewrite Z.mul_0_l, Z.add_0_l, bool_decide_false by done. cbn [orb negb andb]. cbn zeta.
    destruct (Z.ltb_spec duration_limit (Z.of_N (decimal ds))) as [Hbig|Hsmall].
    { destruct (Z.ltb_spec duration_limit (total + (Z.of_N (decimal ds) * unit + nanoseconds parts))); [done|nia]. }
    assert (unit_text (text ++ duration_text parts) = (text, duration_text parts)) as Hut.
    { apply unit_text_spec; [done|]. pose proof (duration_text_start parts Hp) as Hs. destruct (duration_text parts); [done|].
      by apply digit_unit_end. }
    set (after := match text ++ duration_text parts with [] => _ | _ => _ end).
    assert (after = (text ++ duration_text parts, 0, f64_of 1, false)) as ->.
    { subst after. destruct (text ++ duration_text parts) as [|c' rest']; [done|]. destruct Hstop as [_ ?]. by rewrite bool_decide_false. }
    rewrite Hut, bool_decide_false, Hu, add_part_spec by (done || lia).
    destruct (Z.ltb_spec duration_limit (total + Z.of_N (decimal ds) * unit)) as [Hover|Hfits].
    + destruct (Z.ltb_spec duration_limit (total + (Z.of_N (decimal ds) * unit + nanoseconds parts))); [done|lia].
    + assert (0 < length ds)%nat by (destruct ds; [done|cbn; lia]). assert (0 ≤ Z.of_N (decimal ds) * unit) by nia.
      rewrite IH by lia. by rewrite <- Z.add_assoc.
Qed.

(** C21: Reading a duration ends for every text, and a text of whole numbers with units,
    behind an optional sign, is read as the exact sum in nanoseconds when that is within the
    64-bit range, least value included, and out of range otherwise, whichever of the numbers,
    products and sums is the first that does not fit. *)
Theorem duration_text_exact (value : bytes) :
  foundation_runtime_time_parse_duration (Some value) ≠ Running ∧
  ∀ sign parts, value = sign ++ duration_text parts → sign = [] ∨ sign = ["+"%char] ∨ sign = ["-"%char] →
    parts ≠ [] → Forall part_ok parts →
    let exact := if bool_decide (sign = ["-"%char]) then - nanoseconds parts else nanoseconds parts in
    foundation_runtime_time_parse_duration (Some value) =
      if (INT64_MIN <=? exact) && (exact <=? INT64_MAX) then Parsed FDN_PARSE_OK (Some exact)
      else Parsed FDN_PARSE_OUT_OF_RANGE None.
Proof.
  unfold foundation_runtime_time_parse_duration. split.
  { destruct (_ =? _)%nat; [done|]. case_bool_decide; [done|]. case_bool_decide; [done|]. by apply duration_loop_ends. }
  intros sign parts -> Hsign Hne Hp. cbn zeta. pose proof (duration_text_start parts Hp) as Hstart.
  assert (∃ c d rest, duration_text parts = c :: d :: rest) as (c & d & rest & Et).
  { destruct Hp as [|[ds text] parts' (Hds & _ & unit & Hu) _]; [done|]. apply duration_unit_spec in Hu as (_ & Ht & _).
    cbn in *. destruct ds as [|c [|d ds]], text as [|u text]; try done; by do 3 eexists. }
  assert (negative_sign (sign ++ duration_text parts) = bool_decide (sign = ["-"%char]) ∧
    skip_sign (sign ++ duration_text parts) = duration_text parts) as [-> ->].
  { destruct Hsign as [->|[->| ->]]; [|done..]. rewrite Et in *. cbn [app negative_sign skip_sign].
    assert (is_sign c = false ∧ c ≠ "-"%char) as [-> Hc] by (revert Hstart; clear; split; byte_cases c).
    by rewrite bool_decide_false. }
  destruct (Nat.eqb_spec (length (sign ++ duration_text parts)) 0) as [H|_].
  { rewrite length_app, Et in H. cbn in H. lia. }
  rewrite (bool_decide_false (duration_text parts = lit "0")) by (by rewrite Et).
  rewrite (bool_decide_false (duration_text parts = [])) by (by rewrite Et).
  rewrite duration_loop_exact by (done || unfold duration_limit; lia). rewrite Z.add_0_l.
  pose proof (nanoseconds_nonneg parts). set (n := nanoseconds parts) in *. unfold duration_result, duration_limit, INT64_MAX, INT64_MIN.
  destruct (bool_decide _); cbn [negb andb].
  - destruct (Z.ltb_spec 9223372036854775808 n), (Z.leb_spec (-9223372036854775808) (- n)), (Z.leb_spec (- n) 9223372036854775807); try lia; [done|].
    cbn [andb]. destruct (Z.eqb_spec n 9223372036854775808) as [->|]; done.
  - destruct (Z.ltb_spec 9223372036854775808 n), (Z.leb_spec (-9223372036854775808) n), (Z.leb_spec n 9223372036854775807),
      (Z.ltb_spec 9223372036854775807 n); try lia; done.
Qed.

Lemma duration_text_exact_witness :
  foundation_runtime_time_parse_duration (Some (lit "-1h2m3ns")) ≠ Running ∧
  foundation_runtime_time_parse_duration (Some (lit "-1h2m3ns")) = Parsed FDN_PARSE_OK (Some (-3720000000003)).
Proof.
  destruct (duration_text_exact (lit "-1h2m3ns")) as [Hend Hexact]. split; [exact Hend|].
  rewrite (Hexact (lit "-") [(lit "1", lit "h"); (lit "2", lit "m"); (lit "3", lit "ns")]); [vm_compute; reflexivity|reflexivity|by right; right|done|].
  repeat constructor; try done; vm_compute; by eexists.
Defined.
