(* ===== verification/Arithmetic.v ===== *)
(** * Checked integer arithmetic (runtime/src/core.c)

    What [FDN_DEFINE_SIGNED_ARITHMETIC] and [FDN_DEFINE_UNSIGNED_ARITHMETIC] define for the
    types of 8, 16, 32 and 64 bits: the tests that are made before an operation, on values of
    the type, so that no operation overflows.  Below: each operation yields the exact
    result when the type has it, and panics when not. *)
From Stdlib Require Import ZArith Lia.
From S2P Require Import Prelude.
Local Open Scope Z_scope.

(** A value or a panic with its message. *)
Inductive Checked :=
  | Value (value : Z)
  | Panic (message : bytes).
Definition FDN_ARITHMETIC_PANIC (message : bytes) : Checked := Panic (lit "arithmetic error: " ++ message).

Section signed.
Context (width : Z) (name : bytes).

Definition MINIMUM : Z := - 2 ^ (width - 1).
Definition MAXIMUM : Z := 2 ^ (width - 1) - 1.
(** The conversion [(TYPE)]. *)
Definition to_type (value : Z) : Z := (value + 2 ^ (width - 1)) mod 2 ^ width - 2 ^ (width - 1).
Definition to_unsigned (value : Z) : Z := value mod 2 ^ width.
Definition overflow : Checked := FDN_ARITHMETIC_PANIC (name ++ lit " overflow").

Definition signed_add (left right : Z) : Checked :=
  if ((0 <? right) && (to_type (MAXIMUM - right) <? left)) || ((right <? 0) && (left <? to_type (MINIMUM - right))) then overflow
  else Value (to_type (left + right)).
Definition signed_subtract (left right : Z) : Checked :=
  if ((right <? 0) && (to_type (MAXIMUM + right) <? left)) || ((0 <? right) && (left <? to_type (MINIMUM + right))) then overflow
  else Value (to_type (left - right)).
Definition signed_multiply (left right : Z) : Checked :=
  if (left =? 0) || (right =? 0) then Value 0
  else if ((left =? -1) && (right =? MINIMUM)) || ((right =? -1) && (left =? MINIMUM)) then overflow
  else if ((0 <? left) && (0 <? right) && (to_type (Z.quot MAXIMUM right) <? left)) ||
          ((0 <? left) && (right <? 0) && (right <? to_type (Z.quot MINIMUM left))) ||
          ((left <? 0) && (0 <? right) && (left <? to_type (Z.quot MINIMUM right))) ||
          ((left <? 0) && (right <? 0) && (left <? to_type (Z.quot MAXIMUM right))) then overflow
  else Value (to_type (left * right)).
Definition signed_divide (left right : Z) : Checked :=
  if right =? 0 then FDN_ARITHMETIC_PANIC (lit "division by zero")
  else if (left =? MINIMUM) && (right =? -1) then overflow
  else Value (to_type (Z.quot left right)).
Definition signed_remainder (left right : Z) : Checked :=
  if right =? 0 then FDN_ARITHMETIC_PANIC (lit "remainder by zero")
  else if (left =? MINIMUM) && (right =? -1) then Value 0
  else Value (to_type (Z.rem left right)).
Definition signed_shift_left (left right : Z) : Checked :=
  if (right <? 0) || (width <=? right) then FDN_ARITHMETIC_PANIC (lit "shift count out of range")
  else if right =? 0 then Value left
  else if right =? width - 1 then
    if left =? 0 then Value 0 else if left =? -1 then Value MINIMUM else overflow
  else
    let factor := to_unsigned (Z.shiftl 1 right) in
    if ((0 <? left) && (to_type (Z.quot MAXIMUM (to_type factor)) <? left)) ||
       ((left <? 0) && (left <? to_type (Z.quot MINIMUM (to_type factor)))) then overflow
    else Value (to_type (left * to_type factor)).
Definition signed_shift_right (left right : Z) : Checked :=
  if (right <? 0) || (width <=? right) then FDN_ARITHMETIC_PANIC (lit "shift count out of range")
  else if 0 <=? left then Value (to_type (Z.shiftr (to_unsigned left) right))
  else
    let magnitude := to_unsigned (- (left + 1)) in
    let shifted := to_type (Z.shiftr magnitude right) in
    Value (to_type (- shifted - 1)).
Definition signed_negate (value : Z) : Checked :=
  if value =? MINIMUM then overflow else Value (to_type (- value)).
End signed.

Section unsigned.
Context (width : Z) (name : bytes).

Definition UNSIGNED_MAXIMUM : Z := 2 ^ width - 1.
Let to_unsigned := to_unsigned width.

Definition unsigned_add (left right : Z) : Checked :=
  if to_unsigned (UNSIGNED_MAXIMUM - left) <? right then overflow name else Value (to_unsigned (left + right)).
Definition unsigned_subtract (left right : Z) : Checked :=
  if left <? right then overflow name else Value (to_unsigned (left - right)).
Definition unsigned_multiply (left right : Z) : Checked :=
  if negb (left =? 0) && (to_unsigned (Z.quot UNSIGNED_MAXIMUM left) <? right) then overflow name
  else Value (to_unsigned (left * right)).
Definition unsigned_divide (left right : Z) : Checked :=
  if right =? 0 then FDN_ARITHMETIC_PANIC (lit "division by zero") else Value (to_unsigned (Z.quot left right)).
Definition unsigned_remainder (left right : Z) : Checked :=
  if right =? 0 then FDN_ARITHMETIC_PANIC (lit "remainder by zero") else Value (to_unsigned (Z.rem left right)).
Definition unsigned_shift_left (left right : Z) : Checked :=
  if width <=? right then FDN_ARITHMETIC_PANIC (lit "shift count out of range")
  else if negb (right =? 0) && (to_unsigned (Z.shiftr UNSIGNED_MAXIMUM right) <? left) then overflow name
  else Value (to_unsigned (Z.shiftl left right)).
Definition unsigned_shift_right (left right : Z) : Checked :=
  if width <=? right then FDN_ARITHMETIC_PANIC (lit "shift count out of range") else Value (to_unsigned (Z.shiftr left right)).
End unsigned.

(** ** The exact results *)

(** The exact value when the type holds it. *)
Definition held (low high : Z) (name : bytes) (value : Z) : Checked :=
  if (low <=? value) && (value <=? high) then Value value else overflow name.

Ltac decide_tests :=
  repeat match goal with
  | |- context [?a <? ?b] => destruct (Z.ltb_spec a b)
  | |- context [?a <=? ?b] => destruct (Z.leb_spec a b)
  | |- context [?a =? ?b] => destruct (Z.eqb_spec a b)
  end; cbn [andb orb negb].

Lemma quotient_bounds n d : 0 < d → 0 ≤ n → 0 ≤ Z.quot n d ≤ n.
Proof. intros Hd Hn. rewrite Z.quot_div_nonneg by lia. split; [apply Z.div_pos; lia|]. apply Z.div_le_upper_bound; nia. Qed.
(** A quotient is below a number when the dividend is below the product. *)
Lemma quotient_below n d x : 0 < d → 0 ≤ n → (Z.quot n d <? x) = (n <? d * x).
Proof.
  intros Hd Hn. rewrite Z.quot_div_nonneg by lia. destruct (Z.ltb_spec n (d * x)) as [H|H].
  - apply Z.ltb_lt. by apply Z.div_lt_upper_bound.
  - apply Z.ltb_ge. by apply Z.div_le_lower_bound.
Qed.

Section signed_exact.
Context (width : Z) (name : bytes) (Hwidth : 8 ≤ width).
Let low := MINIMUM width.
Let high := MAXIMUM width.
Let half := 2 ^ (width - 1).

Lemma half_ok : 2 ^ width = 2 * half ∧ 128 ≤ half ∧ low = - half ∧ high = half - 1.
Proof.
  unfold half, low, high, MINIMUM, MAXIMUM. split_and!; [|change 128 with (2 ^ 7); apply Z.pow_le_mono_r; lia|done..].
  rewrite <- Z.pow_succ_r by lia. f_equal. lia.
Qed.
Lemma to_type_id value : low ≤ value ≤ high → to_type width value = value.
Proof. destruct half_ok as (H & ? & ? & ?). unfold to_type. fold half. intros Hv. rewrite Z.mod_small; lia. Qed.


Lemma signed_sums_exact left right : low ≤ left ≤ high → low ≤ right ≤ high →
  signed_add width name left right = held low high name (left + right) ∧
  signed_subtract width name left right = held low high name (left - right).
Proof.
  intros Hl Hr. destruct half_ok as (_ & ? & ? & ?). unfold signed_add, signed_subtract, held. fold low high. split.
  - destruct (Z.ltb_spec 0 right), (Z.ltb_spec right 0); cbn [andb orb]; try lia; rewrite ?(to_type_id (_ - _)) by lia;
      decide_tests; try lia; try done; by rewrite to_type_id by lia.
  - destruct (Z.ltb_spec 0 right), (Z.ltb_spec right 0); cbn [andb orb]; try lia; rewrite ?(to_type_id (_ + _)) by lia;
      decide_tests; try lia; try done; by rewrite to_type_id by lia.
Qed.

Lemma signed_product_exact left right : low ≤ left ≤ high → low ≤ right ≤ high →
  signed_multiply width name left right = held low high name (left * right).
Proof.
  intros Hl Hr. destruct half_ok as (_ & ? & El & Eh). unfold signed_multiply, held. fold low high.
  destruct (Z.eqb_spec left 0) as [->|Hl0]; [cbn; decide_tests; lia || done|].
  destruct (Z.eqb_spec right 0) as [->|Hr0]; [rewrite Z.mul_0_r; cbn; decide_tests; lia || done|]. cbn [orb].
  assert (((left =? -1) && (right =? low) || (right =? -1) && (left =? low)) = true → high < left * right) as Hmin.
  { decide_tests; try done; intros _; subst; nia. }
  destruct ((left =? -1) && _ || _); [specialize (Hmin eq_refl); decide_tests; done || lia|]. clear Hmin.
  assert (∀ v, low ≤ v ≤ high → to_type width v = v) as Hid by (intros; by apply to_type_id).
  destruct (Z.ltb_spec 0 left), (Z.ltb_spec left 0), (Z.ltb_spec 0 right), (Z.ltb_spec right 0); try lia; cbn [andb orb]; rewrite ?orb_false_r.
  - rewrite Hid by (pose proof (quotient_bounds high right); lia). rewrite quotient_below by lia.
    decide_tests; try nia; try done. by rewrite Hid by nia.
  - rewrite El, Z.quot_opp_l, Hid by (try pose proof (quotient_bounds half left); lia).
    replace (right <? - Z.quot half left) with (Z.quot half left <? - right) by (destruct (Z.ltb_spec (Z.quot half left) (- right)), (Z.ltb_spec right (- Z.quot half left)); lia).
    rewrite quotient_below by lia. decide_tests; try nia; try done. by rewrite Hid by nia.
  - rewrite El, Z.quot_opp_l, Hid by (try pose proof (quotient_bounds half right); lia).
    replace (left <? - Z.quot half right) with (Z.quot half right <? - left) by (destruct (Z.ltb_spec (Z.quot half right) (- left)), (Z.ltb_spec left (- Z.quot half right)); lia).
    rewrite quotient_below by lia. decide_tests; try nia; try done. by rewrite Hid by nia.
  - replace (Z.quot high right) with (- Z.quot high (- right)) by (rewrite <- Z.quot_opp_r, Z.opp_involutive by lia; done).
    rewrite Hid by (pose proof (quotient_bounds high (- right)); lia).
    replace (left <? - Z.quot high (- right)) with (Z.quot high (- right) <? - left) by (destruct (Z.ltb_spec (Z.quot high (- right)) (- left)), (Z.ltb_spec left (- Z.quot high (- right))); lia).
    rewrite quotient_below by lia. decide_tests; try nia; try done. by rewrite Hid by nia.
Qed.

Lemma quotient_abs left right : right ≠ 0 → Z.abs right * Z.abs (Z.quot left right) ≤ Z.abs left.
Proof.
  intros Hr. rewrite <- Z.quot_abs by done. rewrite Z.quot_div_nonneg by lia. apply Z.mul_div_le. lia.
Qed.
Lemma signed_quotient_exact left right : low ≤ left ≤ high → low ≤ right ≤ high →
  signed_divide width name left right =
    (if right =? 0 then FDN_ARITHMETIC_PANIC (lit "division by zero") else held low high name (Z.quot left right)) ∧
  signed_remainder width left right =
    (if right =? 0 then FDN_ARITHMETIC_PANIC (lit "remainder by zero") else Value (Z.rem left right)).
Proof.
  intros Hl Hr. destruct half_ok as (_ & ? & El & Eh). unfold signed_divide, signed_remainder, held. fold low high.
  destruct (Z.eqb_spec right 0) as [->|Hr0]; [done|].
  pose proof (quotient_abs left right Hr0) as Hq. pose proof (Z.rem_bound_abs left right Hr0).
  destruct (Z.eqb_spec left low) as [Hmin|Hmin], (Z.eqb_spec right (-1)) as [Hneg|Hneg]; cbn [andb].
  - rewrite Hneg, Hmin, El. change (-1) with (- (1)). rewrite Z.quot_opp_opp, Z.quot_1_r, Z.rem_opp_opp, Z.rem_1_r by done.
    split; [decide_tests; lia || done|done].
  - split; [|by rewrite to_type_id by lia]. assert (low ≤ Z.quot left right ≤ high).
    { destruct (Z.eq_dec right 1) as [->|]; [rewrite Z.quot_1_r; lia|]. nia. }
    rewrite to_type_id by done. decide_tests; lia || done.
  - split; [|by rewrite to_type_id by lia]. assert (low ≤ Z.quot left right ≤ high) by nia.
    rewrite to_type_id by done. decide_tests; lia || done.
  - split; [|by rewrite to_type_id by lia]. assert (low ≤ Z.quot left right ≤ high).
    { destruct (Z.eq_dec right 1) as [->|]; [rewrite Z.quot_1_r; lia|]. nia. }
    rewrite to_type_id by done. decide_tests; lia || done.
Qed.

Lemma power_bounds right : 0 ≤ right < width - 1 → 1 ≤ 2 ^ right ∧ 2 * 2 ^ right ≤ half.
Proof.
  intros Hr. split; [change 1 with (2 ^ 0); apply Z.pow_le_mono_r; lia|].
  rewrite <- Z.pow_succ_r by lia. apply Z.pow_le_mono_r; lia.
Qed.
Lemma signed_shift_left_exact left right : low ≤ left ≤ high →
  signed_shift_left width name left right =
    if (right <? 0) || (width <=? right) then FDN_ARITHMETIC_PANIC (lit "shift count out of range")
    else held low high name (left * 2 ^ right).
Proof.
  intros Hl. destruct half_ok as (Hw & ? & El & Eh). unfold signed_shift_left, held. fold low high.
  destruct (_ || _) eqn:Hr; [done|]. apply orb_false_iff in Hr as [Hr1%Z.ltb_ge Hr2%Z.leb_gt].
  destruct (Z.eqb_spec right 0) as [->|Hr0].
  { rewrite Z.mul_1_r. decide_tests; lia || done. }
  destruct (Z.eqb_spec right (width - 1)) as [->|Hr3].
  { fold half. destruct (Z.eqb_spec left 0) as [->|]; [cbn; decide_tests; lia || done|].
    destruct (Z.eqb_spec left (-1)) as [->|]; [decide_tests; try lia; by rewrite El|]. decide_tests; try done; nia. }
  destruct (power_bounds right ltac:(lia)) as [Hp1 Hp2]. rewrite Z.shiftl_1_l. unfold to_unsigned. rewrite (Z.mod_small (2 ^ right)) by lia.
  assert (∀ v, low ≤ v ≤ high → to_type width v = v) as Hid by (intros; by apply to_type_id).
  rewrite (Hid (2 ^ right)) by lia. rewrite El, Z.quot_opp_l by lia.
  rewrite (Hid (Z.quot high _)) by (pose proof (quotient_bounds high (2 ^ right)); lia).
  rewrite (Hid (- Z.quot half _)) by (pose proof (quotient_bounds half (2 ^ right)); lia).
  rewrite quotient_below by lia.
  replace (left <? - Z.quot half (2 ^ right)) with (Z.quot half (2 ^ right) <? - left)
    by (destruct (Z.ltb_spec (Z.quot half (2 ^ right)) (- left)), (Z.ltb_spec left (- Z.quot half (2 ^ right))); lia).
  rewrite quotient_below by lia. decide_tests; try nia; try done; by rewrite Hid by nia.
Qed.
Lemma signed_shift_right_exact left right : low ≤ left ≤ high →
  signed_shift_right width left right =
    if (right <? 0) || (width <=? right) then FDN_ARITHMETIC_PANIC (lit "shift count out of range") else Value (Z.shiftr left right).
Proof.
  intros Hl. destruct half_ok as (Hw & ? & El & Eh). unfold signed_shift_right.
  destruct (_ || _) eqn:Hr; [done|]. apply orb_false_iff in Hr as [Hr1%Z.ltb_ge Hr2%Z.leb_gt].
  assert (∀ v, 0 ≤ v ≤ high → 0 ≤ Z.shiftr v right ≤ high ∧ to_unsigned width v = v) as Hs.
  { intros v Hv. unfold to_unsigned. rewrite Z.mod_small by lia. rewrite Z.shiftr_div_pow2 by lia.
    assert (0 < 2 ^ right) by (apply Z.pow_pos_nonneg; lia). split_and!; [apply Z.div_pos; lia| |done].
    etrans; [apply Z.div_le_upper_bound with (q := v)|]; nia. }
  destruct (Z.leb_spec 0 left).
  - destruct (Hs left) as [? ->]; [lia|]. by rewrite to_type_id by lia.
  - destruct (Hs (- (left + 1))) as [? ->]; [lia|]. rewrite (to_type_id (Z.shiftr _ _)) by lia. rewrite to_type_id by lia. f_equal.
    replace (- (left + 1)) with (Z.lnot left) by (unfold Z.lnot; lia).
    replace (Z.shiftr (Z.lnot left) right) with (Z.lnot (Z.shiftr left right)) by (by rewrite Z.lnot_shiftr by lia). unfold Z.lnot. lia.
Qed.
Lemma signed_negate_exact value : low ≤ value ≤ high → signed_negate width name value = held low high name (- value).
Proof.
  intros Hv. destruct half_ok as (Hw & ? & El & Eh). unfold signed_negate, held. fold low high.
  decide_tests; try lia; try done; by rewrite to_type_id by lia.
Qed.
End signed_exact.

Section unsigned_exact.
Context (width : Z) (name : bytes) (Hwidth : 8 ≤ width).
Let high := UNSIGNED_MAXIMUM width.

Lemma to_unsigned_id value : 0 ≤ value ≤ high → to_unsigned width value = value.
Proof. unfold to_unsigned, high, UNSIGNED_MAXIMUM. intros ?. apply Z.mod_small. lia. Qed.

Lemma unsigned_exact left right : 0 ≤ left ≤ high → 0 ≤ right ≤ high →
  unsigned_add width name left right = held 0 high name (left + right) ∧
  unsigned_subtract width name left right = held 0 high name (left - right) ∧
  unsigned_multiply width name left right = held 0 high name (left * right) ∧
  unsigned_divide width left right = (if right =? 0 then FDN_ARITHMETIC_PANIC (lit "division by zero") else Value (Z.quot left right)) ∧
  unsigned_remainder width left right = (if right =? 0 then FDN_ARITHMETIC_PANIC (lit "remainder by zero") else Value (Z.rem left right)).
Proof.
  intros Hl Hr. unfold unsigned_add, unsigned_subtract, unsigned_multiply, unsigned_divide, unsigned_remainder, held.
  fold high. assert (∀ v, 0 ≤ v ≤ high → to_unsigned width v = v) as Hid by (intros; by apply to_unsigned_id). split_and!.
  - rewrite (Hid (high - left)) by lia. decide_tests; try lia; try done; by rewrite Hid by lia.
  - decide_tests; try lia; try done; by rewrite Hid by lia.
  - destruct (Z.eqb_spec left 0) as [->|]; cbn [negb andb].
    { rewrite Z.mul_0_l, Hid by lia. decide_tests; lia || done. }
    rewrite (Hid (Z.quot high left)) by (pose proof (quotient_bounds high left); lia). rewrite quotient_below by lia.
    decide_tests; try nia; try done. by rewrite Hid by nia.
  - destruct (Z.eqb_spec right 0); [done|]. rewrite Hid; [done|]. pose proof (quotient_bounds left right). lia.
  - destruct (Z.eqb_spec right 0); [done|]. rewrite Hid; [done|]. pose proof (Z.rem_bound_pos left right). lia.
Qed.
Lemma unsigned_shifts_exact left right : 0 ≤ left ≤ high → 0 ≤ right →
  unsigned_shift_left width name left right =
    (if width <=? right then FDN_ARITHMETIC_PANIC (lit "shift count out of range") else held 0 high name (left * 2 ^ right)) ∧
  unsigned_shift_right width left right =
    (if width <=? right then FDN_ARITHMETIC_PANIC (lit "shift count out of range") else Value (Z.shiftr left right)).
Proof.
  intros Hl Hr. unfold unsigned_shift_left, unsigned_shift_right, held. fold high.
  assert (∀ v, 0 ≤ v ≤ high → to_unsigned width v = v) as Hid by (intros; by apply to_unsigned_id).
  assert (0 < 2 ^ right) as Hp by (apply Z.pow_pos_nonneg; lia).
  assert (∀ v, 0 ≤ v ≤ high → 0 ≤ Z.shiftr v right ≤ high) as Hs.
  { intros v Hv. rewrite Z.shiftr_div_pow2 by lia. split; [apply Z.div_pos; lia|].
    etrans; [apply Z.div_le_upper_bound with (q := v)|]; nia. }
  destruct (Z.leb_spec width right); [done|]. split; [|by rewrite Hid by auto].
  rewrite (Hid (Z.shiftr high right)) by (apply Hs; lia). rewrite Z.shiftl_mul_pow2, Z.shiftr_div_pow2 by lia.
  rewrite <- Z.quot_div_nonneg, quotient_below by lia. destruct (Z.eqb_spec right 0) as [->|]; cbn [negb andb].
  - rewrite Z.mul_1_r, Hid by lia. decide_tests; lia || done.
  - decide_tests; try nia; try done. by rewrite Hid by nia.
Qed.
End unsigned_exact.

(** C20: The checked operations of every integer type are exact: a sum, difference, product,
    quotient, left shift or negation is the mathematical result when the type holds it and
    an overflow panic when not, remainders and right shifts always are, division by zero
    and shift counts that are not below the width panic. *)
Theorem checked_arithmetic_exact (width : Z) (name : bytes) :
  8 ≤ width →
  let low := MINIMUM width in let high := MAXIMUM width in let top := UNSIGNED_MAXIMUM width in
  (∀ left right, low ≤ left ≤ high → low ≤ right ≤ high →
    let count_ok := (0 <=? right) && (right <? width) in
    signed_add width name left right = held low high name (left + right) ∧
    signed_subtract width name left right = held low high name (left - right) ∧
    signed_multiply width name left right = held low high name (left * right) ∧
    signed_divide width name left right = (if right =? 0 then FDN_ARITHMETIC_PANIC (lit "division by zero") else held low high name (Z.quot left right)) ∧
    signed_remainder width left right = (if right =? 0 then FDN_ARITHMETIC_PANIC (lit "remainder by zero") else Value (Z.rem left right)) ∧
    signed_shift_left width name left right =
      (if count_ok then held low high name (left * 2 ^ right) else FDN_ARITHMETIC_PANIC (lit "shift count out of range")) ∧
    signed_shift_right width left right = (if count_ok then Value (left / 2 ^ right) else FDN_ARITHMETIC_PANIC (lit "shift count out of range")) ∧
    signed_negate width name left = held low high name (- left)) ∧
  (∀ left right, 0 ≤ left ≤ top → 0 ≤ right ≤ top →
    unsigned_add width name left right = held 0 top name (left + right) ∧
    unsigned_subtract width name left right = held 0 top name (left - right) ∧
    unsigned_multiply width name left right = held 0 top name (left * right) ∧
    unsigned_divide width left right = (if right =? 0 then FDN_ARITHMETIC_PANIC (lit "division by zero") else Value (left / right)) ∧
    unsigned_remainder width left right = (if right =? 0 then FDN_ARITHMETIC_PANIC (lit "remainder by zero") else Value (left mod right)) ∧
    unsigned_shift_left width name left right =
      (if right <? width then held 0 top name (left * 2 ^ right) else FDN_ARITHMETIC_PANIC (lit "shift count out of range")) ∧
    unsigned_shift_right width left right = (if right <? width then Value (left / 2 ^ right) else FDN_ARITHMETIC_PANIC (lit "shift count out of range"))).
Proof.
  intros Hw low high top. split; intros left right Hl Hr; cbn zeta.
  - assert (negb ((right <? 0) || (width <=? right)) = (0 <=? right) && (right <? width)) as Hc by (decide_tests; lia || done).
    destruct (signed_sums_exact width name Hw left right Hl Hr) as [-> ->].
    destruct (signed_quotient_exact width name Hw left right Hl Hr) as [-> ->].
    rewrite signed_product_exact, signed_shift_left_exact, signed_shift_right_exact, signed_negate_exact by done.
    rewrite <- Hc. destruct (_ || _) eqn:E; cbn [negb]; split_and!; try done.
    apply orb_false_iff in E as [E%Z.ltb_ge _]. by rewrite Z.shiftr_div_pow2.
  - destruct (unsigned_exact width name Hw left right Hl Hr) as (-> & -> & -> & -> & ->).
    destruct (unsigned_shifts_exact width name Hw left right Hl ltac:(lia)) as [-> ->].
    rewrite (Z.ltb_antisym width right). split_and!; [done|done|done| | |by destruct (width <=? right)|].
    + destruct (Z.eqb_spec right 0); [done|]. by rewrite Z.quot_div_nonneg by lia.
    + destruct (Z.eqb_spec right 0); [done|]. by rewrite Z.rem_mod_nonneg by lia.
    + destruct (width <=? right); [done|]. cbn [negb]. by rewrite Z.shiftr_div_pow2 by lia.
Qed.

Lemma checked_arithmetic_exact_witness :
  signed_multiply 64 (lit "i64") (-4294967296) 2147483648 = Value (-9223372036854775808) ∧
  signed_multiply 64 (lit "i64") (-4294967296) 2147483648 =
    held (MINIMUM 64) (MAXIMUM 64) (lit "i64") (-4294967296 * 2147483648) ∧
  unsigned_subtract 16 (lit "u16") 3 4 = held 0 (UNSIGNED_MAXIMUM 16) (lit "u16") (3 - 4).
Proof.
  split_and!; [vm_compute; reflexivity| |].
  - apply (proj1 (checked_arithmetic_exact 64 (lit "i64") ltac:(lia)) (-4294967296) 2147483648); split; vm_compute; discriminate.
  - apply (proj2 (checked_arithmetic_exact 16 (lit "u16") ltac:(lia)) 3 4); split; vm_compute; discriminate.
Defined.
