(* ===== verification/CoreText.v ===== *)
(** * Strings of the runtime (runtime/src/core.c)

    UTF-8 validity, the operations on [fdn_string] and the string builder.  A string is its
    bytes, a pointer that is not there is [None]; a call returns, panics, or uses a builder
    that was freed. *)
From Stdlib Require Import ZArith Lia.
From S2P Require Import Prelude Utf8.
Open Scope N_scope.

Inductive Call (A : Type) :=
  | Returns (a : A)
  | Panics (message : bytes)
  | Freed.
Arguments Returns {A}.
Arguments Panics {A}.
Arguments Freed {A}.

(** ** [fdn_utf8_valid] *)

(** The tests on the bytes behind the first; [None] when a byte is wrong or missing, and
    otherwise the length of the sequence. *)
Definition sequence_length (first : ascii) (rest : bytes) : option nat :=
  let f := byte_val first in
  if f <=? 0x7f then Some 1%nat
  else if (0xc2 <=? f) && (f <=? 0xdf) then
    match rest with
    | second :: _ => if (byte_val second <? 0x80) || (0xbf <? byte_val second) then None else Some 2%nat
    | _ => None
    end
  else if (0xe0 <=? f) && (f <=? 0xef) then
    match rest with
    | second :: third :: _ =>
        let s := byte_val second in
        if ((f =? 0xe0) && ((s <? 0xa0) || (0xbf <? s))) || ((f =? 0xed) && ((s <? 0x80) || (0x9f <? s))) ||
           (negb (f =? 0xe0) && negb (f =? 0xed) && ((s <? 0x80) || (0xbf <? s))) ||
           (byte_val third <? 0x80) || (0xbf <? byte_val third) then None else Some 3%nat
    | _ => None
    end
  else if (0xf0 <=? f) && (f <=? 0xf4) then
    match rest with
    | second :: third :: fourth :: _ =>
        let s := byte_val second in
        if ((f =? 0xf0) && ((s <? 0x90) || (0xbf <? s))) || ((f =? 0xf4) && ((s <? 0x80) || (0x8f <? s))) ||
           (negb (f =? 0xf0) && negb (f =? 0xf4) && ((s <? 0x80) || (0xbf <? s))) ||
           (byte_val third <? 0x80) || (0xbf <? byte_val third) || (byte_val fourth <? 0x80) || (0xbf <? byte_val fourth)
        then None else Some 4%nat
    | _ => None
    end
  else None.
Fixpoint utf8_loop (fuel : nat) (value : bytes) : bool :=
  match value with
  | [] => true
  | first :: rest =>
      match fuel with
      | O => false
      | S fuel => match sequence_length first rest with Some n => utf8_loop fuel (drop n value) | None => false end
      end
  end.
Definition fdn_utf8_valid (value : bytes) : bool := utf8_loop (length value) value.

(** ** Operations *)

Definition SIZE_MAX : N := 18446744073709551615.

(** [memcmp] is zero. *)
Definition same_bytes (left right : bytes) (length : nat) : bool := bool_decide (take length left = take length right).

Definition fdn_string_concat (left right : bytes) : Call bytes :=
  if SIZE_MAX - N.of_nat (length left) <? N.of_nat (length right) then Panics (lit "string length overflow")
  else Returns (left ++ right).
Definition fdn_string_equal (left right : bytes) : bool :=
  (length left =? length right)%nat && ((length left =? 0)%nat || same_bytes left right (length left)).

Definition string_copy (value : option bytes) : Call bytes :=
  match value with None => Panics (lit "invalid String value") | Some value => Returns value end.
Definition string_byte_length (value : option bytes) : Call N :=
  match value with None => Panics (lit "invalid String value") | Some value => Returns (N.of_nat (length value)) end.

(** The loop over the offsets from one on. *)
Fixpoint search_part (turns offset : nat) (value part : bytes) : option nat :=
  match turns with
  | O => None
  | S turns => if same_bytes (drop offset value) part (length part) then Some offset else search_part turns (S offset) value part
  end.
Definition find_part (value part : bytes) : option nat :=
  if (length part =? 0)%nat then Some 0%nat
  else if (length value <? length part)%nat then None
  else search_part (length value - length part + 1) 0 value part.
Definition string_contains (value part : option bytes) : Call bool :=
  match value, part with
  | Some value, Some part => Returns (bool_decide (is_Some (find_part value part)))
  | _, _ => Panics (lit "invalid String value")
  end.
(** Whether it was found, and the result. *)
Definition string_find (value part : option bytes) : Call (bool * N) :=
  match value, part with
  | Some value, Some part =>
      Returns (match find_part value part with Some offset => (true, N.of_nat offset) | None => (false, 0) end)
  | _, _ => Panics (lit "invalid String find argument")
  end.
Definition string_starts_with (value prefix : option bytes) : Call bool :=
  match value, prefix with
  | Some value, Some prefix =>
      Returns ((length prefix <=? length value)%nat && ((length prefix =? 0)%nat || same_bytes value prefix (length prefix)))
  | _, _ => Panics (lit "invalid String value")
  end.
Definition string_ends_with (value suffix : option bytes) : Call bool :=
  match value, suffix with
  | Some value, Some suffix =>
      Returns ((length suffix <=? length value)%nat &&
        ((length suffix =? 0)%nat || same_bytes (drop (length value - length suffix) value) suffix (length suffix)))
  | _, _ => Panics (lit "invalid String value")
  end.

Definition string_boundary (value : bytes) (index : nat) : bool :=
  (index =? length value)%nat || match value !! index with Some c => negb (N.land (byte_val c) 0xc0 =? 0x80) | None => false end.
(** The status and the result, which is another string than the value: the code drops it
    before it reads the value. *)
Definition string_slice (value : option bytes) (start end_ : N) : Call (Z * bytes) :=
  match value with
  | None => Panics (lit "invalid String slice argument")
  | Some value =>
      let size := N.of_nat (length value) in
      if (end_ <? start) || (size <? start) || (size <? end_) then Returns (1%Z, [])
      else
        let native_start := N.to_nat start in
        let native_end := N.to_nat end_ in
        if negb (string_boundary value native_start) || negb (string_boundary value native_end) then Returns (2%Z, [])
        else if (native_start =? native_end)%nat then Returns (0%Z, [])
        else Returns (0%Z, take (native_end - native_start) (drop native_start value))
  end.
Definition string_byte_at (value : option bytes) (index : N) : Call (Z * N) :=
  match value with
  | None => Panics (lit "invalid String byte argument")
  | Some value =>
      if N.of_nat (length value) <=? index then Returns (1%Z, 0)
      else match value !! N.to_nat index with Some c => Returns (0%Z, byte_val c) | None => Returns (1%Z, 0) end
  end.

(** The sign of [memcmp]. *)
Fixpoint memcmp (left right : bytes) : comparison :=
  match left, right with
  | l :: left', r :: right' => match byte_val l ?= byte_val r with Eq => memcmp left' right' | c => c end
  | _, _ => Eq
  end.
Definition string_compare (left right : option bytes) : Call Z :=
  match left, right with
  | Some l, Some r =>
      let size := Nat.min (length l) (length r) in
      let compared := if (size =? 0)%nat then Eq else memcmp (take size l) (take size r) in
      Returns (match compared with
               | Lt => -1
               | Gt => 1
               | Eq => if (length l <? length r)%nat then -1 else if (length r <? length l)%nat then 1 else 0
               end)%Z
  | _, _ => Panics (lit "invalid String value")
  end.

Definition string_hash_fnv1a (value : option bytes) : Call N :=
  match value with
  | None => Panics (lit "invalid string hash input")
  | Some value =>
      Returns (foldl (λ hash c, (N.lxor hash (byte_val c) * 1099511628211) mod 18446744073709551616) 14695981039346656037 value)
  end.

(** ** The string builder *)

Record Builder := mkBuilder { sb_data : bytes; sb_capacity : N }.
(** The open builders by their handles, and how many there are. *)
Record Builders := mkBuilders { open_ : gmap N Builder; live : N }.
Definition sb_length (builder : Builder) : N := N.of_nat (length (sb_data builder)).

Definition builder_at (handle : N) (st : Builders) : Call Builder :=
  if handle =? 0 then Panics (lit "string builder is closed")
  else match open_ st !! handle with Some builder => Returns builder | None => Freed end.

Fixpoint grow (fuel : nat) (capacity required : N) : option N :=
  if required <=? capacity then Some capacity
  else match fuel with
  | O => None
  | S fuel => if SIZE_MAX / 2 <? capacity then Some required else grow fuel (capacity * 2) required
  end.
(** Sixty doublings of 64 pass every size. *)
Definition builder_reserve (builder : Builder) (required : N) : option Builder :=
  if required <=? sb_capacity builder then Some builder
  else capacity ← grow 64 (if sb_capacity builder =? 0 then 64 else sb_capacity builder) required;
       Some (mkBuilder (sb_data builder) capacity).

Definition FDN_HANDLE_COUNT_MAX : N := 18446744073709551615.
(** [address] is what the allocation returns. *)
Definition builder_open (address : N) (st : Builders) : Call (N * Builders) :=
  if live st =? FDN_HANDLE_COUNT_MAX then Panics (lit "runtime handle count overflow")
  else Returns (address, mkBuilders (<[address := mkBuilder [] 0]> (open_ st)) (live st + 1)).

Definition builder_append (handle : N) (value : option bytes) (st : Builders) : Call Builders :=
  match builder_at handle st with
  | Panics message => Panics message
  | Freed => Freed
  | Returns builder =>
      match value with
      | None => Panics (lit "invalid String value")
      | Some value =>
          if SIZE_MAX - sb_length builder <? N.of_nat (length value) then Panics (lit "string length overflow")
          else match builder_reserve builder (sb_length builder + N.of_nat (length value)) with
          | None => Freed
          | Some builder =>
              Returns (mkBuilders (<[handle := mkBuilder (sb_data builder ++ value) (sb_capacity builder)]> (open_ st)) (live st))
          end
      end
  end.

Definition char (value : N) : ascii := ascii_of_N (value mod 256).
(** The bytes of a code point. *)
Definition code_point_bytes (value : N) : option bytes :=
  if value <=? 0x7f then Some [char value]
  else if value <=? 0x7ff then Some [char (N.lor 0xc0 (N.shiftr value 6)); char (N.lor 0x80 (N.land value 0x3f))]
  else if (0xd800 <=? value) && (value <=? 0xdfff) then None
  else if value <=? 0xffff then
    Some [char (N.lor 0xe0 (N.shiftr value 12)); char (N.lor 0x80 (N.land (N.shiftr value 6) 0x3f)); char (N.lor 0x80 (N.land value 0x3f))]
  else if value <=? 0x10ffff then
    Some [char (N.lor 0xf0 (N.shiftr value 18)); char (N.lor 0x80 (N.land (N.shiftr value 12) 0x3f));
          char (N.lor 0x80 (N.land (N.shiftr value 6) 0x3f)); char (N.lor 0x80 (N.land value 0x3f))]
  else None.
Definition builder_append_code_point (handle value : N) (st : Builders) : Call (bool * Builders) :=
  match code_point_bytes value with
  | None => Returns (false, st)
  | Some bytes =>
      match builder_append handle (Some bytes) st with
      | Returns st => Returns (true, st)
      | Panics message => Panics message
      | Freed => Freed
      end
  end.

Definition builder_remove (handle : N) (st : Builders) : Call Builders :=
  if live st =? 0 then Panics (lit "runtime handle count underflow")
  else Returns (mkBuilders (delete handle (open_ st)) (live st - 1)).
Definition builder_finish (handle : N) (st : Builders) : Call (bytes * Builders) :=
  match builder_at handle st with
  | Panics message => Panics message
  | Freed => Freed
  | Returns builder =>
      if negb (fdn_utf8_valid (sb_data builder)) then Panics (lit "string builder produced invalid UTF-8")
      else match builder_remove handle st with
      | Returns st => Returns (sb_data builder, st)
      | Panics message => Panics message
      | Freed => Freed
      end
  end.
Definition builder_close (handle : N) (st : Builders) : Call Builders :=
  if handle =? 0 then Returns st
  else match open_ st !! handle with Some _ => builder_remove handle st | None => Freed end.
Definition builder_live_handles (st : Builders) : N := live st.

(** * What the operations do *)

(** ** UTF-8 *)

Lemma between_tests lo hi c : between lo hi c = negb ((byte_val c <? lo) || (hi <? byte_val c)).
Proof. unfold between. by rewrite negb_orb, <- !N.leb_antisym. Qed.

(** One sequence of the runtime is one turn of the lexer's check. *)
Lemma sequence_valid first rest :
  isValidUtf8 (first :: rest) =
    match sequence_length first rest with Some n => isValidUtf8 (drop n (first :: rest)) | None => false end.
Proof.
  cbn [isValidUtf8]. unfold sequence_length, second_of_three, second_of_four, isContinuationByte. rewrite !between_tests.
  destruct (byte_val first <=? 0x7f) eqn:E1; [done|].
  rewrite !negb_orb, <- !N.leb_antisym.
  destruct ((0xc2 <=? byte_val first) && (byte_val first <=? 0xdf)).
  { destruct rest as [|second rest]; [done|]. rewrite between_tests. by destruct (_ || _). }
  destruct ((0xe0 <=? byte_val first) && (byte_val first <=? 0xef)).
  { destruct rest as [|second [|third rest]]; [done..|]. rewrite !between_tests.
    destruct (N.eqb_spec (byte_val first) 0xe0) as [->|]; cbn [andb orb negb N.eqb Pos.eqb];
      [|destruct (byte_val first =? 0xed); cbn [andb orb negb]];
      rewrite ?orb_false_r, ?orb_assoc; repeat destruct (_ <? _); done. }
  destruct ((0xf0 <=? byte_val first) && (byte_val first <=? 0xf4)); [|done].
  destruct rest as [|second [|third [|fourth rest]]]; [done..|]. rewrite !between_tests.
  destruct (N.eqb_spec (byte_val first) 0xf0) as [->|]; cbn [andb orb negb N.eqb Pos.eqb];
      [|destruct (byte_val first =? 0xf4); cbn [andb orb negb]];
    rewrite ?orb_false_r, ?orb_assoc; repeat destruct (_ <? _); done.
Qed.
Lemma sequence_positive first rest n : sequence_length first rest = Some n → (1 <= n)%nat.
Proof.
  unfold sequence_length. destruct (_ <=? _); [intros [= <-]; lia|]. destruct (_ && _).
  { destruct rest; [done|]. destruct (_ || _); [done|]. intros [= <-]. lia. }
  destruct (_ && _).
  { destruct rest as [|? [|]]; [done..|]. destruct (_ || _); [done|]. intros [= <-]. lia. }
  destruct (_ && _); [|done]. destruct rest as [|? [|? [|]]]; [done..|]. destruct (_ || _); [done|]. intros [= <-]. lia.
Qed.

(** The runtime and the lexer take the same texts for UTF-8. *)
Lemma fdn_utf8_valid_lexer value : fdn_utf8_valid value = isValidUtf8 value.
Proof.
  unfold fdn_utf8_valid. assert (∀ fuel value, (length value <= fuel)%nat → utf8_loop fuel value = isValidUtf8 value) as H; [|by apply H].
  clear value. induction fuel as [|fuel IH]; intros [|first rest] Hl; cbn [utf8_loop length] in *; [done|lia|done|].
  rewrite sequence_valid. destruct (sequence_length first rest) as [n|] eqn:En; [|done]. apply sequence_positive in En.
  apply IH. rewrite length_drop. cbn [length]. lia.
Qed.
Lemma utf8_app a b : isValidUtf8 a = true → isValidUtf8 b = true → isValidUtf8 (a ++ b) = true.
Proof.
  rewrite !isValidUtf8_exact. intros (x & Hx & ->) (y & Hy & ->). exists (x ++ y). rewrite map_app, concat_app.
  split; [by apply Forall_app|done].
Qed.

(** ** Code points *)

Lemma lor_disjoint a b s : b < 2 ^ s → N.lor (a * 2 ^ s) b = a * 2 ^ s + b.
Proof.
  intros Hb. rewrite <- N.lxor_lor, <- N.add_nocarry_lxor; [done|..]; apply N.bits_inj; intros i; rewrite N.land_spec, N.bits_0.
  all: destruct (N.lt_ge_cases i s); [by rewrite N.mul_pow2_bits_low|].
  all: rewrite <- (N.mod_small b (2 ^ s)) by done; rewrite N.mod_pow2_bits_high by done; apply andb_false_r.
Qed.
Lemma char_byte n : n < 256 → char n = byte n.
Proof. intros H. unfold char, byte. by rewrite N.mod_small. Qed.

Lemma code_point_bytes_spec value :
  code_point_bytes value = if (value <? 0x110000) && negb ((0xd800 <=? value) && (value <=? 0xdfff)) then Some (encode value) else None.
Proof.
  unfold code_point_bytes, encode. rewrite !N.shiftr_div_pow2. change 0x3f with (N.ones 6). rewrite !N.land_ones.
  change (2 ^ 6) with 64. change (2 ^ 12) with 4096. change (2 ^ 18) with 262144.
  assert (∀ x, N.lor 0x80 (x mod 64) = 0x80 + x mod 64) as H80 by (intros x; apply (lor_disjoint 2 _ 6), N.mod_lt; done).
  rewrite !H80. assert (∀ x, 0x80 + x mod 64 < 256) as Hlow by (intros x; pose proof (N.mod_lt x 64 ltac:(done)); lia).
  rewrite !(char_byte (0x80 + _)) by apply Hlow.
  destruct (N.leb_spec value 0x7f).
  { rewrite (proj2 (N.ltb_lt value 0x80)), (proj2 (N.ltb_lt value 0x110000)), (proj2 (N.leb_gt 0xd800 value)) by lia. cbn [andb negb].
    by rewrite char_byte by lia. }
  rewrite (proj2 (N.ltb_ge value 0x80)) by lia. destruct (N.leb_spec value 0x7ff).
  { rewrite (proj2 (N.ltb_lt value 0x800)), (proj2 (N.ltb_lt value 0x110000)), (proj2 (N.leb_gt 0xd800 value)) by lia. cbn [andb negb].
    assert (value / 64 < 32) by (apply N.Div0.div_lt_upper_bound; lia).
    change 0xc0 with (6 * 2 ^ 5). rewrite lor_disjoint by done. by rewrite char_byte by lia. }
  rewrite (proj2 (N.ltb_ge value 0x800)) by lia.
  destruct ((0xd800 <=? value) && (value <=? 0xdfff)); [by rewrite andb_false_r|]. rewrite andb_true_r.
  destruct (N.leb_spec value 0xffff).
  { rewrite (proj2 (N.ltb_lt value 0x10000)), (proj2 (N.ltb_lt value 0x110000)) by lia.
    assert (value / 4096 < 16) by (apply N.Div0.div_lt_upper_bound; lia).
    change 0xe0 with (14 * 2 ^ 4). rewrite lor_disjoint by done. by rewrite char_byte by lia. }
  rewrite (proj2 (N.ltb_ge value 0x10000)) by lia. destruct (N.leb_spec value 0x10ffff).
  { rewrite (proj2 (N.ltb_lt value 0x110000)) by lia. assert (value / 262144 < 8) by (apply N.Div0.div_lt_upper_bound; lia).
    change 0xf0 with (30 * 2 ^ 3). rewrite lor_disjoint by done. by rewrite char_byte by lia. }
  by rewrite (proj2 (N.ltb_ge value 0x110000)) by lia.
Qed.

(** ** Boundaries of code points *)

Definition text_of (cps : list N) : bytes := concat (map encode cps).
(** Where the code point [k] starts. *)
Definition offset_of (cps : list N) (k : nat) : nat := length (text_of (take k cps)).

Lemma continuation_test c : (N.land (byte_val c) 0xc0 =? 0x80) = isContinuationByte c.
Proof. byte_cases c. Qed.
Lemma encode_shape cp : scalar cp →
  ∃ first rest, encode cp = first :: rest ∧ isContinuationByte first = false ∧ Forall (λ c, isContinuationByte c = true) rest.
Proof.
  intros [Hmax Hs]. assert (∀ n, n < 256 → isContinuationByte (byte n) = (0x80 <=? n) && (n <=? 0xbf)) as Hc.
  { intros n Hn. unfold isContinuationByte, between. by rewrite byte_val_byte. }
  assert (∀ x, isContinuationByte (byte (0x80 + x mod 64)) = true) as Hrest.
  { intros x. pose proof (N.mod_lt x 64 ltac:(done)). rewrite Hc by lia. apply andb_true_iff. rewrite !N.leb_le. lia. }
  unfold encode. destruct (N.ltb_spec cp 0x80); [|destruct (N.ltb_spec cp 0x800); [|destruct (N.ltb_spec cp 0x10000)]];
    do 2 eexists; (split; [reflexivity|split; [|repeat constructor; apply Hrest]]).
  - rewrite Hc by lia. apply andb_false_iff. left. apply N.leb_gt. lia.
  - assert (cp / 64 < 32) by (apply N.Div0.div_lt_upper_bound; lia). rewrite Hc by lia. apply andb_false_iff. right. apply N.leb_gt. lia.
  - assert (cp / 4096 < 16) by (apply N.Div0.div_lt_upper_bound; lia). rewrite Hc by lia. apply andb_false_iff. right. apply N.leb_gt. lia.
  - assert (cp / 262144 < 8) by (apply N.Div0.div_lt_upper_bound; lia). rewrite Hc by lia. apply andb_false_iff. right. apply N.leb_gt. lia.
Qed.

Lemma offset_of_cons cp cps k : offset_of (cp :: cps) (S k) = (length (encode cp) + offset_of cps k)%nat.
Proof. unfold offset_of, text_of. cbn. by rewrite length_app. Qed.
Lemma offset_of_le cps k : (offset_of cps k <= length (text_of cps))%nat.
Proof.
  unfold offset_of, text_of. rewrite <- (take_drop k cps) at 2. rewrite map_app, concat_app, length_app. lia.
Qed.
Lemma offset_of_all cps k : (length cps <= k)%nat → offset_of cps k = length (text_of cps).
Proof. intros H. unfold offset_of. by rewrite take_ge. Qed.

(** The index of a byte that starts a code point, or the end. *)
Lemma string_boundary_spec cps index : Forall scalar cps → (index <= length (text_of cps))%nat →
  string_boundary (text_of cps) index = true ↔ ∃ k, (k <= length cps)%nat ∧ index = offset_of cps k.
Proof.
  intros Hs. revert index. induction Hs as [|cp cps Hcp Hs IH]; intros index Hi.
  { cbn in Hi. assert (index = 0%nat) as -> by lia. split; [intros _; by exists 0%nat|done]. }
  destruct (encode_shape cp Hcp) as (first & rest & He & Hf & Hr). change (text_of (cp :: cps)) with (encode cp ++ text_of cps) in *.
  destruct (Nat.lt_ge_cases index (length (encode cp))) as [Hlt|Hge].
  - assert (string_boundary (encode cp ++ text_of cps) index = bool_decide (index = 0%nat)) as ->.
    { unfold string_boundary. rewrite length_app, lookup_app_l by done. destruct (Nat.eqb_spec index (length (encode cp) + length (text_of cps))); [lia|].
      cbn [orb]. rewrite He in *. destruct index as [|index].
      - cbn. by rewrite continuation_test, Hf.
      - destruct (lookup_lt_is_Some_2 rest index) as [c Hc]; [cbn in Hlt; lia|].
        change ((first :: rest) !! S index) with (rest !! index). rewrite Hc, continuation_test.
        eapply Forall_lookup_1 in Hr; [|exact Hc]. cbn in Hr. by rewrite Hr. }
    rewrite bool_decide_eq_true. split.
    + intros ->. exists 0%nat. split; [cbn; lia|done].
    + intros ([|k] & Hk & ->); [done|]. rewrite offset_of_cons in Hlt. lia.
  - assert (string_boundary (encode cp ++ text_of cps) index = string_boundary (text_of cps) (index - length (encode cp))) as ->.
    { unfold string_boundary. rewrite length_app, lookup_app_r by done. f_equal.
      destruct (Nat.eqb_spec index (length (encode cp) + length (text_of cps))), (Nat.eqb_spec (index - length (encode cp)) (length (text_of cps))); lia || done. }
    rewrite length_app in Hi. rewrite IH by lia. split.
    + intros (k & Hk & Hi'). exists (S k). rewrite offset_of_cons. cbn. lia.
    + intros ([|k] & Hk & ->).
      * cbn in Hge. rewrite He in Hge. cbn in Hge. lia.
      * exists k. rewrite offset_of_cons. cbn in Hk. lia.
Qed.

Lemma slice_text cps i j : (i <= j <= length cps)%nat →
  take (offset_of cps j - offset_of cps i) (drop (offset_of cps i) (text_of cps)) = text_of (take (j - i) (drop i cps)).
Proof.
  intros Hij. assert (text_of cps = text_of (take i cps) ++ text_of (take (j - i) (drop i cps)) ++ text_of (drop j cps)) as Ht.
  { unfold text_of. rewrite <- !concat_app, <- !map_app. f_equal. f_equal.
    rewrite <- (take_drop i cps) at 1. f_equal. rewrite <- (take_drop (j - i) (drop i cps)) at 1. f_equal. rewrite drop_drop. f_equal. lia. }
  assert (offset_of cps j = offset_of cps i + length (text_of (take (j - i) (drop i cps))))%nat as ->.
  { unfold offset_of, text_of. rewrite <- length_app, <- concat_app, <- map_app. do 3 f_equal.
    rewrite <- (take_drop i (take j cps)). rewrite take_take, skipn_firstn_comm. f_equal. f_equal. lia. }
  rewrite Ht. change (offset_of cps i) with (length (text_of (take i cps))). rewrite drop_app_length, take_app_length'; [done|lia].
Qed.

(** C22: Slicing a text of UTF-8 ends with status 1 exactly outside its bytes, with status 2
    exactly when an end is within a code point, and otherwise yields, in a string that is
    not the value's own, the code points between the ends, which are valid UTF-8. *)
Theorem string_slice_exact (cps : list N) (start end_ : N) :
  Forall scalar cps →
  let value := text_of cps in
  let size := N.of_nat (length value) in
  let boundary (index : N) := ∃ k, (k <= length cps)%nat ∧ index = N.of_nat (offset_of cps k) in
  (¬ (start <= end_ <= size) ∧ string_slice (Some value) start end_ = Returns (1%Z, [])) ∨
  (start <= end_ <= size ∧ ¬ (boundary start ∧ boundary end_) ∧ string_slice (Some value) start end_ = Returns (2%Z, [])) ∨
  (∃ i j, (i <= j <= length cps)%nat ∧ start = N.of_nat (offset_of cps i) ∧ end_ = N.of_nat (offset_of cps j) ∧
     string_slice (Some value) start end_ = Returns (0%Z, text_of (take (j - i) (drop i cps))) ∧
     fdn_utf8_valid (text_of (take (j - i) (drop i cps))) = true).
Proof.
  intros Hs value size boundary. unfold string_slice. fold value size.
  destruct ((end_ <? start) || (size <? start) || (size <? end_)) eqn:Ho.
  { left. split; [|done]. to_prop. lia. }
  assert (start <= end_ <= size) as Hin by (to_prop; lia). right.
  assert (∀ index, index <= size → string_boundary value (N.to_nat index) = true ↔ boundary index) as Hb.
  { intros index Hi. unfold value. rewrite string_boundary_spec by (done || unfold size, value in Hi; lia).
    split; intros (k & Hk & E); exists k; lia. }
  pose proof (Hb start ltac:(lia)) as Hb1. pose proof (Hb end_ ltac:(lia)) as Hb2.
  destruct (string_boundary value (N.to_nat start)) eqn:E1, (string_boundary value (N.to_nat end_)) eqn:E2; cbn [negb orb];
    [right|left; split_and!; [lia|lia|naive_solver|done]..].
  destruct Hb1 as [Hb1 _], Hb2 as [Hb2 _]. destruct (Hb1 eq_refl) as (i & Hi & Ei), (Hb2 eq_refl) as (j & Hj & Ej).
  assert (∃ i j, (i <= j <= length cps)%nat ∧ start = N.of_nat (offset_of cps i) ∧ end_ = N.of_nat (offset_of cps j)) as (i' & j' & Hij & Ei' & Ej').
  { destruct (Nat.le_gt_cases i j); [by exists i, j|]. exists i, i. split_and!; [lia|lia|done|].
    assert (offset_of cps j <= offset_of cps i)%nat; [|lia]. unfold offset_of, text_of. rewrite <- (take_drop j (take i cps)).
    rewrite take_take, map_app, concat_app, length_app. replace (j `min` i)%nat with j by lia. lia. }
  exists i', j'. split_and!; [lia|lia|done|done| |].
  - rewrite Ei', Ej', !Nat2N.id. destruct (Nat.eqb_spec (offset_of cps i') (offset_of cps j')) as [E|E].
    + rewrite <- slice_text by done. rewrite E, Nat.sub_diag. by rewrite take_0.
    + unfold value. by rewrite slice_text.
  - rewrite fdn_utf8_valid_lexer. apply isValidUtf8_exact. eexists. split; [|done]. by apply Forall_take, Forall_drop.
Qed.

Lemma string_slice_exact_witness :
  string_slice (Some (text_of [0x61; 0x20ac; 0x1f600])) 1 4 = Returns (0%Z, encode 0x20ac) ∧
  string_slice (Some (text_of [0x61; 0x20ac; 0x1f600])) 1 3 = Returns (2%Z, []) ∧
  let cps := [0x61; 0x20ac; 0x1f600] in
  let value := text_of cps in
  let size := N.of_nat (length value) in
  let boundary (index : N) := ∃ k, (k <= length cps)%nat ∧ index = N.of_nat (offset_of cps k) in
  (¬ (1 <= 4 <= size) ∧ string_slice (Some value) 1 4 = Returns (1%Z, [])) ∨
  (1 <= 4 <= size ∧ ¬ (boundary 1 ∧ boundary 4) ∧ string_slice (Some value) 1 4 = Returns (2%Z, [])) ∨
  (∃ i j, (i <= j <= length cps)%nat ∧ 1 = N.of_nat (offset_of cps i) ∧ 4 = N.of_nat (offset_of cps j) ∧
     string_slice (Some value) 1 4 = Returns (0%Z, text_of (take (j - i) (drop i cps))) ∧
     fdn_utf8_valid (text_of (take (j - i) (drop i cps))) = true).
Proof.
  split; [vm_compute; reflexivity|]. split; [vm_compute; reflexivity|].
  apply (string_slice_exact [0x61; 0x20ac; 0x1f600] 1 4). repeat constructor; intros [H1 H2]; vm_compute in H1, H2; congruence.
Defined.

(** ** The string builder *)

Lemma grow_spec fuel capacity required : required <= SIZE_MAX → 1 <= capacity <= SIZE_MAX → SIZE_MAX < capacity * 2 ^ N.of_nat fuel →
  ∃ grown, grow fuel capacity required = Some grown ∧ required <= grown <= SIZE_MAX.
Proof.
  revert capacity. induction fuel as [|fuel IH]; intros capacity Hr Hc Hf; cbn [grow].
  - destruct (N.leb_spec required capacity); [exists capacity; split; [done|lia]|]. cbn in Hf. lia.
  - destruct (N.leb_spec required capacity); [exists capacity; split; [done|lia]|].
    destruct (N.ltb_spec (SIZE_MAX / 2) capacity); [exists required; split; [done|lia]|]. apply IH; [done| |].
    + unfold SIZE_MAX in *. lia.
    + rewrite Nat2N.inj_succ, N.pow_succ_r' in Hf. lia.
Qed.
Lemma builder_reserve_spec builder required : required <= SIZE_MAX → sb_capacity builder <= SIZE_MAX →
  ∃ capacity, builder_reserve builder required = Some (mkBuilder (sb_data builder) capacity) ∧ required <= capacity <= SIZE_MAX.
Proof.
  intros Hr Hc. unfold builder_reserve. destruct (N.leb_spec required (sb_capacity builder)).
  - exists (sb_capacity builder). split; [by destruct builder|lia].
  - set (first := if sb_capacity builder =? 0 then 64 else sb_capacity builder).
    assert (1 <= first <= SIZE_MAX) as Hfirst by (subst first; destruct (N.eqb_spec (sb_capacity builder) 0); unfold SIZE_MAX in *; lia).
    destruct (grow_spec 64 first required) as (capacity & -> & Hg); [done|done| |by exists capacity].
    change (2 ^ N.of_nat 64) with 18446744073709551616. unfold SIZE_MAX in *. lia.
Qed.

(** The code points in every open builder. *)
Definition holds (abstract : gmap N (list N)) (st : Builders) : Prop :=
  live st = N.of_nat (size abstract) ∧
  ∀ handle, match abstract !! handle, open_ st !! handle with
  | None, None => True
  | Some cps, Some builder => handle ≠ 0 ∧ Forall scalar cps ∧ sb_data builder = text_of cps ∧
      sb_length builder <= sb_capacity builder <= SIZE_MAX
  | _, _ => False
  end.

Lemma holds_at abstract st handle cps : holds abstract st → abstract !! handle = Some cps →
  ∃ builder, open_ st !! handle = Some builder ∧ builder_at handle st = Returns builder ∧ handle ≠ 0 ∧ Forall scalar cps ∧
    sb_data builder = text_of cps ∧ sb_length builder <= sb_capacity builder <= SIZE_MAX.
Proof.
  intros [_ H] Hc. specialize (H handle). rewrite Hc in H. unfold builder_at. destruct (open_ st !! handle) as [builder|]; [|done].
  exists builder. destruct H as (H0 & H). apply N.eqb_neq in H0 as E. by rewrite E.
Qed.
Lemma holds_update abstract st handle cps builder : holds abstract st → is_Some (abstract !! handle) →
  Forall scalar cps → sb_data builder = text_of cps → sb_length builder <= sb_capacity builder <= SIZE_MAX →
  holds (<[handle := cps]> abstract) (mkBuilders (<[handle := builder]> (open_ st)) (live st)).
Proof.
  intros [Hl H] [old Ho] Hs Hd Hc. split; cbn.
  - rewrite map_size_insert_Some by done. done.
  - intros handle'. specialize (H handle'). destruct (decide (handle' = handle)) as [->|].
    + rewrite Ho in H. rewrite !lookup_insert_eq. destruct (open_ st !! handle); [|done]. naive_solver.
    + by rewrite !lookup_insert_ne.
Qed.
Lemma text_of_app a b : text_of (a ++ b) = text_of a ++ text_of b.
Proof. unfold text_of. by rewrite map_app, concat_app. Qed.

Lemma builder_append_spec abstract st handle cps more : holds abstract st → abstract !! handle = Some cps → Forall scalar more →
  N.of_nat (length (text_of (cps ++ more))) <= SIZE_MAX →
  ∃ st', builder_append handle (Some (text_of more)) st = Returns st' ∧ holds (<[handle := cps ++ more]> abstract) st'.
Proof.
  intros H Ha Hm Hsize. destruct (holds_at _ _ _ _ H Ha) as (builder & Ho & Hat & _ & Hs & Hd & Hc). unfold builder_append. rewrite Hat.
  rewrite text_of_app, length_app in Hsize. unfold sb_length in *. rewrite Hd in *.
  destruct (N.ltb_spec (SIZE_MAX - N.of_nat (length (text_of cps))) (N.of_nat (length (text_of more)))); [lia|].
  destruct (builder_reserve_spec builder (N.of_nat (length (text_of cps)) + N.of_nat (length (text_of more)))) as (capacity & -> & Hcap); [lia|lia|].
  eexists. split; [done|]. apply holds_update; [done|by exists cps|by apply Forall_app| |]; cbn.
  - by rewrite Hd, text_of_app.
  - unfold sb_length. cbn. rewrite Hd, length_app. lia.
Qed.

Definition is_scalar (cp : N) : bool := (cp <? 0x110000) && negb ((0xd800 <=? cp) && (cp <=? 0xdfff)).
Lemma is_scalar_spec cp : is_scalar cp = true → scalar cp.
Proof. unfold is_scalar, scalar. intros H. to_prop. lia. Qed.

(** C19: A string builder is the list of its code points: opening one, appending text or a
    code point, finishing and closing do to it what they do to the list, for any number of
    builders that are open at once.  A value that is no code point is refused and changes
    nothing, finishing never meets invalid UTF-8, and the buffer never has less room than
    its text. *)
Theorem builder_refines (abstract : gmap N (list N)) (st : Builders) :
  holds abstract st →
  builder_live_handles st = N.of_nat (size abstract) ∧
  (∀ address, address ≠ 0 → abstract !! address = None → live st < FDN_HANDLE_COUNT_MAX →
     ∃ st', builder_open address st = Returns (address, st') ∧ holds (<[address := []]> abstract) st') ∧
  ∀ handle cps, abstract !! handle = Some cps →
    (∀ more, Forall scalar more → N.of_nat (length (text_of (cps ++ more))) <= SIZE_MAX →
       ∃ st', builder_append handle (Some (text_of more)) st = Returns st' ∧ holds (<[handle := cps ++ more]> abstract) st') ∧
    (∀ cp, N.of_nat (length (text_of cps)) + 4 <= SIZE_MAX →
       ∃ st', builder_append_code_point handle cp st = Returns (is_scalar cp, st') ∧
         holds (if is_scalar cp then <[handle := cps ++ [cp]]> abstract else abstract) st') ∧
    (∃ st', builder_finish handle st = Returns (text_of cps, st') ∧ builder_close handle st = Returns st' ∧
       holds (delete handle abstract) st').
Proof.
  intros H. destruct (H) as [Hl Hh]. split_and!; [done| |].
  - intros address Ha Hn Hmax. unfold builder_open. destruct (N.eqb_spec (live st) FDN_HANDLE_COUNT_MAX); [lia|].
    eexists. split; [done|]. split; cbn.
    + rewrite map_size_insert_None by done. lia.
    + intros handle. specialize (Hh handle). destruct (decide (handle = address)) as [->|].
      * rewrite !lookup_insert_eq. split_and!; try done; constructor.
      * by rewrite !lookup_insert_ne.
  - intros handle cps Hc. split_and!.
    + intros more. by apply builder_append_spec.
    + intros cp Hsize. unfold builder_append_code_point. rewrite code_point_bytes_spec. fold (is_scalar cp).
      destruct (is_scalar cp) eqn:Ecp; [|by exists st]. apply is_scalar_spec in Ecp.
      assert (length (encode cp) <= 4)%nat as Hlen by (unfold encode; repeat destruct (_ <? _); cbn; lia).
      assert (encode cp = text_of [cp]) as -> by (unfold text_of; cbn; by rewrite app_nil_r).
      destruct (builder_append_spec abstract st handle cps [cp] H Hc) as (st' & -> & Hst).
      * by repeat constructor; apply Ecp.
      * rewrite text_of_app, length_app. unfold text_of at 2. cbn. rewrite app_nil_r. lia.
      * by exists st'.
    + destruct (holds_at _ _ _ _ H Hc) as (builder & Ho & Hat & Hne & Hs & Hd & _).
      assert (0 < live st) as Hlive.
      { rewrite Hl. assert (size abstract ≠ 0%nat); [|lia]. intros E%map_size_empty_inv. subst. by rewrite lookup_empty in Hc. }
      exists (mkBuilders (delete handle (open_ st)) (live st - 1)).
      unfold builder_finish, builder_close, builder_remove. rewrite Hat, Ho, Hd.
      rewrite fdn_utf8_valid_lexer, (proj2 (isValidUtf8_exact (text_of cps))) by (by exists cps). cbn [negb].
      destruct (N.eqb_spec (live st) 0); [lia|]. destruct (N.eqb_spec handle 0); [done|]. split_and!; [done|done|]. split; cbn.
      * rewrite map_size_delete_Some by (by exists cps). lia.
      * intros handle'. specialize (Hh handle'). destruct (decide (handle' = handle)) as [->|].
        -- by rewrite !lookup_delete_eq.
        -- by rewrite !lookup_delete_ne.
Qed.

Lemma builder_refines_witness :
  let abstract := {[8 := [0x61]]} : gmap N (list N) in
  let st := mkBuilders {[8 := mkBuilder [byte 0x61] 64]} 1 in
  (∃ st', builder_append_code_point 8 0x20ac st = Returns (true, st') ∧ holds (<[8 := [0x61; 0x20ac]]> abstract) st') ∧
  (∃ st', builder_append_code_point 8 0xd800 st = Returns (false, st') ∧ holds abstract st').
Proof.
  intros abstract st. assert (holds abstract st) as H.
  { split; [vm_compute; reflexivity|]. intros handle. subst abstract st. cbn [open_]. destruct (decide (handle = 8)) as [->|].
    - rewrite !lookup_singleton_eq. split; [done|]. split; [|split; [reflexivity|split; vm_compute; discriminate]].
      repeat constructor; intros [H1 H2]; vm_compute in H1, H2; congruence.
    - by rewrite !lookup_singleton_ne. }
  destruct (builder_refines abstract st H) as (_ & _ & Hops). destruct (Hops 8 [0x61] eq_refl) as (_ & Hcp & _). split.
  - apply (Hcp 0x20ac). vm_compute. discriminate.
  - apply (Hcp 0xd800). vm_compute. discriminate.
Defined.

(** ** Searching and comparing *)

Definition occurs_at (value part : bytes) (offset : nat) : Prop := ∃ rest, drop offset value = part ++ rest ∧ (offset <= length value)%nat.
Lemma same_bytes_occurs value part offset : (offset <= length value)%nat →
  same_bytes (drop offset value) part (length part) = true ↔ occurs_at value part offset.
Proof.
  intros Ho. unfold same_bytes, occurs_at. rewrite bool_decide_eq_true. rewrite (take_ge part) by done. split.
  - intros H. exists (drop (length part) (drop offset value)). split; [|done]. by rewrite <- H at 1; rewrite take_drop.
  - intros (rest & -> & _). by rewrite take_app_length.
Qed.
Lemma search_part_spec value part turns offset : (offset + turns <= length value + 1)%nat →
  match search_part turns offset value part with
  | Some found => (offset <= found < offset + turns)%nat ∧ occurs_at value part found ∧
      ∀ i, (offset <= i < found)%nat → ¬ occurs_at value part i
  | None => ∀ i, (offset <= i < offset + turns)%nat → ¬ occurs_at value part i
  end.
Proof.
  revert offset. induction turns as [|turns IH]; intros offset Ht; cbn [search_part]; [intros i ?; lia|].
  pose proof (same_bytes_occurs value part offset ltac:(lia)) as Hs.
  destruct (same_bytes _ _ _); [split_and!; [lia|lia|by apply Hs|intros i ?; lia]|].
  specialize (IH (S offset) ltac:(lia)). assert (¬ occurs_at value part offset) as Hn by naive_solver.
  destruct (search_part turns (S offset) value part) as [found|].
  - destruct IH as (? & ? & IH). split_and!; [lia|lia|done|]. intros i Hi.
    destruct (decide (i = offset)) as [->|]; [done|apply IH; lia].
  - intros i Hi. destruct (decide (i = offset)) as [->|]; [done|apply IH; lia].
Qed.
(** The first place where a part occurs, if there is one. *)
Theorem find_part_exact value part :
  match find_part value part with
  | Some found => occurs_at value part found ∧ ∀ i, (i < found)%nat → ¬ occurs_at value part i
  | None => ∀ i, ¬ occurs_at value part i
  end.
Proof.
  assert (∀ i, occurs_at value part i → (i + length part <= length value)%nat) as Hb.
  { intros i (rest & Hr & Hi). apply (f_equal length) in Hr. rewrite length_drop, length_app in Hr. lia. }
  unfold find_part. destruct (Nat.eqb_spec (length part) 0) as [E|E].
  { split; [|lia]. exists value. apply nil_length_inv in E as ->. split; [done|lia]. }
  destruct (Nat.ltb_spec (length value) (length part)).
  { intros i Hi%Hb. lia. }
  pose proof (search_part_spec value part (length value - length part + 1) 0 ltac:(lia)) as Hs.
  destruct (search_part _ _ _ _) as [found|].
  - destruct Hs as (_ & ? & Hs). split; [done|]. intros i Hi. apply Hs. lia.
  - intros i Hi. pose proof (Hb i Hi). apply (Hs i); [lia|done].
Qed.

Lemma memcmp_spec left right : length left = length right → memcmp left right = cmp left right.
Proof.
  revert right. induction left as [|a left IH]; intros [|b right] Hl; try done. injection Hl as Hl. cbn [memcmp].
  rewrite list_cmp_cons, IH by done. unfold cmp at 2, ascii_compare, cmp_on, cmp, N_compare. by destruct (byte_val a ?= byte_val b).
Qed.
Lemma cmp_common (left right : bytes) :
  cmp left right =
    lex (cmp (take (Nat.min (length left) (length right)) left) (take (Nat.min (length left) (length right)) right))
      (Nat.compare (length left) (length right)).
Proof.
  revert right. induction left as [|a left IH]; intros [|b right]; try done.
  rewrite list_cmp_cons, IH. cbn [length Nat.min take Nat.compare]. rewrite list_cmp_cons. unfold lex. by destruct (cmp a b).
Qed.
(** Strings compare byte by byte, and a beginning of a string is before it. *)
Theorem string_compare_exact left right :
  string_compare (Some left) (Some right) = Returns (match cmp left right with Lt => -1 | Eq => 0 | Gt => 1 end)%Z.
Proof.
  unfold string_compare. f_equal. rewrite cmp_common. set (size := Nat.min _ _).
  assert (memcmp (take size left) (take size right) = cmp (take size left) (take size right)) as Hm
    by (apply memcmp_spec; rewrite !length_take; lia).
  assert ((if (size =? 0)%nat then Eq else memcmp (take size left) (take size right)) = cmp (take size left) (take size right)) as ->.
  { destruct (Nat.eqb_spec size 0) as [E|]; [by rewrite E|done]. }
  unfold lex. destruct (cmp (take size left) (take size right)); [|done..].
  destruct (Nat.compare_spec (length left) (length right)), (Nat.ltb_spec (length left) (length right)), (Nat.ltb_spec (length right) (length left)); lia || done.
Qed.
