(* ===== verification/Bulkhead.v ===== *)
(** * Bulkheads (runtime/src/resiliency.c)

    A bulkhead lets a number of operations run at a time, queues a number of others in their
    order and refuses the rest.  A call is one step, as the code makes it under one lock; the
    registry is the list of the open bulkheads, a queue the chain of its waiters with the
    pointer to its tail, a waiter stands for its operation.  What is completed with which
    status is recorded. *)
From S2P Require Import Prelude CoreText.
Open Scope N_scope.

Definition UINT64_MAX : N := 18446744073709551615.

Record bulkhead := mkBulkhead {
  bh_address : N;
  bh_waiters : list N;
  bh_tail : option N;
  bh_references : N;
  bh_running : N;
  bh_queued : N;
  bh_max_concurrent : N;
  bh_max_queue : N;
}.
Record World := mkWorld {
  fdn_bulkheads : list bulkhead;
  bulkhead_count : N;
  bulkhead_waiter_count : N;
  completed : list (N * Z);
}.
Definition world0 : World := mkWorld [] 0 0 [].

Definition with_queue (waiters : list N) (tail : option N) (queued : N) (b : bulkhead) : bulkhead :=
  mkBulkhead (bh_address b) waiters tail (bh_references b) (bh_running b) queued (bh_max_concurrent b) (bh_max_queue b).
Definition with_running (running : N) (b : bulkhead) : bulkhead :=
  mkBulkhead (bh_address b) (bh_waiters b) (bh_tail b) (bh_references b) running (bh_queued b) (bh_max_concurrent b) (bh_max_queue b).
Definition with_references (references : N) (b : bulkhead) : bulkhead :=
  mkBulkhead (bh_address b) (bh_waiters b) (bh_tail b) references (bh_running b) (bh_queued b) (bh_max_concurrent b) (bh_max_queue b).

(** The bulkhead of a handle that is registered. *)
Definition bulkhead_registered (handle : N) (w : World) : option bulkhead :=
  snd <$> list_find (λ b, bh_address b = handle) (fdn_bulkheads w).
(** The registry with one bulkhead changed. *)
Definition store (b : bulkhead) (w : World) : list bulkhead :=
  map (λ b', if bool_decide (bh_address b' = bh_address b) then b else b') (fdn_bulkheads w).
Definition set_bulkheads (bulkheads : list bulkhead) (w : World) : World :=
  mkWorld bulkheads (bulkhead_count w) (bulkhead_waiter_count w) (completed w).
Definition set_waiter_count (count : N) (w : World) : World :=
  mkWorld (fdn_bulkheads w) (bulkhead_count w) count (completed w).
Definition complete (operation : N) (status : Z) (w : World) : World :=
  mkWorld (fdn_bulkheads w) (bulkhead_count w) (bulkhead_waiter_count w) (completed w ++ [(operation, status)]).

(** [address] is what the allocation returns. *)
Definition bulkhead_open (address max_concurrent max_queue : N) (w : World) : Call (N * World) :=
  if max_concurrent =? 0 then Returns (0, w)
  else if bulkhead_count w =? UINT64_MAX then Panics (lit "bulkhead count overflow")
  else Returns (address, mkWorld (mkBulkhead address [] None 1 0 0 max_concurrent max_queue :: fdn_bulkheads w)
                           (bulkhead_count w + 1) (bulkhead_waiter_count w) (completed w)).

Definition bulkhead_retain (handle : N) (w : World) : Call World :=
  match bulkhead_registered handle w with
  | None => Panics (lit "invalid bulkhead retain")
  | Some b =>
      if bh_references b =? UINT64_MAX then Panics (lit "invalid bulkhead retain")
      else Returns (set_bulkheads (store (with_references (bh_references b + 1) b) w) w)
  end.

(** [fdn_bulkhead_remove]: the first of that address leaves the registry. *)
Fixpoint remove_first (address : N) (bulkheads : list bulkhead) : option (list bulkhead) :=
  match bulkheads with
  | [] => None
  | b :: bulkheads =>
      if bool_decide (bh_address b = address) then Some bulkheads else cons b <$> remove_first address bulkheads
  end.
Definition bulkhead_remove (address : N) (w : World) : Call World :=
  match remove_first address (fdn_bulkheads w) with
  | None => Panics (lit "bulkhead registry corruption")
  | Some bulkheads =>
      if bulkhead_count w =? 0 then Panics (lit "bulkhead count underflow")
      else Returns (mkWorld bulkheads (bulkhead_count w - 1) (bulkhead_waiter_count w) (completed w))
  end.
Definition bulkhead_release (handle : N) (w : World) : Call World :=
  if handle =? 0 then Returns w
  else match bulkhead_registered handle w with
  | None => Panics (lit "invalid bulkhead release")
  | Some b =>
      if bh_references b =? 0 then Panics (lit "invalid bulkhead release")
      else
        let b := with_references (bh_references b - 1) b in
        if bh_references b =? 0 then
          if negb (bh_running b =? 0) || negb (bh_queued b =? 0) || negb (bool_decide (bh_waiters b = [])) ||
             negb (bool_decide (bh_tail b = None)) then Panics (lit "cannot destroy active bulkhead")
          else bulkhead_remove handle (set_bulkheads (store b w) w)
        else Returns (set_bulkheads (store b w) w)
  end.

(** The chain with a waiter behind the tail. *)
Fixpoint link_behind (tail waiter : N) (waiters : list N) : list N :=
  match waiters with
  | [] => []
  | w :: waiters => if bool_decide (w = tail) then [w; waiter] else w :: link_behind tail waiter waiters
  end.
Definition bulkhead_acquire (handle operation : N) (w : World) : Call World :=
  match bulkhead_registered handle w with
  | None => Returns (complete operation 3 w)
  | Some b =>
      if bh_running b <? bh_max_concurrent b then
        Returns (complete operation 0 (set_bulkheads (store (with_running (bh_running b + 1) b) w) w))
      else if bh_max_queue b <=? bh_queued b then Returns (complete operation 1 w)
      else if bulkhead_waiter_count w =? UINT64_MAX then Panics (lit "bulkhead waiter count overflow")
      else
        let waiters := match bh_tail b with None => [operation] | Some tail => link_behind tail operation (bh_waiters b) end in
        Returns (set_waiter_count (bulkhead_waiter_count w + 1)
          (set_bulkheads (store (with_queue waiters (Some operation) (bh_queued b + 1) b) w) w))
  end.

(** The chain without a waiter that is in it. *)
Fixpoint unlink (operation : N) (waiters : list N) : option (list N) :=
  match waiters with
  | [] => None
  | w :: waiters => if bool_decide (w = operation) then Some waiters else cons w <$> unlink operation waiters
  end.
(** The first bulkhead in which the operation waits, and its chain without it. *)
Fixpoint find_waiter (operation : N) (bulkheads : list bulkhead) : option (bulkhead * list N) :=
  match bulkheads with
  | [] => None
  | b :: bulkheads =>
      match unlink operation (bh_waiters b) with Some waiters => Some (b, waiters) | None => find_waiter operation bulkheads end
  end.
Definition bulkhead_cancel (operation : N) (w : World) : Call World :=
  match find_waiter operation (fdn_bulkheads w) with
  | None => Panics (lit "bulkhead cancellation has no waiter")
  | Some (b, waiters) =>
      let tail := if bool_decide (bh_tail b = Some operation) then last waiters else bh_tail b in
      if (bh_queued b =? 0) || (bulkhead_waiter_count w =? 0) then Panics (lit "bulkhead waiter count underflow")
      else
        Returns (complete operation 2 (set_waiter_count (bulkhead_waiter_count w - 1)
          (set_bulkheads (store (with_queue waiters tail (bh_queued b - 1) b) w) w)))
  end.

Definition bulkhead_permit_release (handle : N) (w : World) : Call World :=
  match bulkhead_registered handle w with
  | None => Panics (lit "invalid bulkhead permit release")
  | Some b =>
      if bh_running b =? 0 then Panics (lit "invalid bulkhead permit release")
      else match bh_waiters b with
      | [] => Returns (set_bulkheads (store (with_running (bh_running b - 1) b) w) w)
      | operation :: waiters =>
          let tail := if bool_decide (waiters = []) then None else bh_tail b in
          if (bh_queued b =? 0) || (bulkhead_waiter_count w =? 0) then Panics (lit "bulkhead waiter count underflow")
          else
            Returns (complete operation 0 (set_waiter_count (bulkhead_waiter_count w - 1)
              (set_bulkheads (store (with_queue waiters tail (bh_queued b - 1) b) w) w)))
      end
  end.
Definition bulkhead_live_handles (w : World) : N := bulkhead_count w.
Definition bulkhead_live_waiters (w : World) : N := bulkhead_waiter_count w.

(** * What the calls do *)

(** ** The calls, and the worlds they reach *)

Inductive BulkheadCall :=
  | OpenBulkhead (address max_concurrent max_queue : N)
  | Retain (handle : N)
  | Release (handle : N)
  | Acquire (handle operation : N)
  | Cancel (operation : N)
  | ReleasePermit (handle : N).
Definition perform (call : BulkheadCall) (w : World) : Call World :=
  match call with
  | OpenBulkhead address max_concurrent max_queue =>
      match bulkhead_open address max_concurrent max_queue w with
      | Returns (_, w) => Returns w
      | Panics message => Panics message
      | Freed => Freed
      end
  | Retain handle => bulkhead_retain handle w
  | Release handle => bulkhead_release handle w
  | Acquire handle operation => bulkhead_acquire handle operation w
  | Cancel operation => bulkhead_cancel operation w
  | ReleasePermit handle => bulkhead_permit_release handle w
  end.

(** The operations that wait, in all queues. *)
Definition waiting (w : World) : list N := concat (map bh_waiters (fdn_bulkheads w)).
Definition seen (w : World) : list N := map fst (completed w) ++ waiting w.
(** An allocation is at an address of its own, and an operation is used once. *)
Definition permitted (call : BulkheadCall) (w : World) : Prop :=
  match call with
  | OpenBulkhead address _ _ => address ≠ 0 ∧ address ∉ map bh_address (fdn_bulkheads w)
  | Acquire _ operation => operation ∉ seen w
  | _ => True
  end.
Inductive reachable : World → Prop :=
  | reach_start : reachable world0
  | reach_call call w w' : reachable w → permitted call w → perform call w = Returns w' → reachable w'.

(** ** What always holds *)

Record bulkhead_ok (b : bulkhead) : Prop := {
  ok_references : 0 < bh_references b;
  ok_running : bh_running b <= bh_max_concurrent b;
  ok_queued : bh_queued b = N.of_nat (length (bh_waiters b));
  ok_bounded : bh_queued b <= bh_max_queue b;
  ok_tail : bh_tail b = last (bh_waiters b);
  ok_busy : bh_waiters b ≠ [] → bh_running b = bh_max_concurrent b;
}.
Record world_ok (w : World) : Prop := {
  wo_addresses : NoDup (map bh_address (fdn_bulkheads w));
  wo_bulkheads : Forall bulkhead_ok (fdn_bulkheads w);
  wo_count : bulkhead_count w = N.of_nat (length (fdn_bulkheads w));
  wo_waiters : bulkhead_waiter_count w = N.of_nat (length (waiting w));
  wo_once : NoDup (seen w);
}.

(** ** One bulkhead of the registry *)

Lemma find_cons {A} (P : A → Prop) `{∀ x, Decision (P x)} x l :
  snd <$> list_find P (x :: l) = if decide (P x) then Some x else snd <$> list_find P l.
Proof. cbn. destruct (decide (P x)); [done|]. by destruct (list_find P l) as [[? ?]|]. Qed.
Lemma find_app {A} (P : A → Prop) `{∀ x, Decision (P x)} l1 l2 :
  snd <$> list_find P (l1 ++ l2) = match snd <$> list_find P l1 with Some x => Some x | None => snd <$> list_find P l2 end.
Proof.
  induction l1 as [|x l1 IH]; [done|]. change ((x :: l1) ++ l2) with (x :: (l1 ++ l2)). rewrite !find_cons.
  destruct (decide (P x)); [done|exact IH].
Qed.
Lemma registered_split handle w b : bulkhead_registered handle w = Some b →
  bh_address b = handle ∧ ∃ front back, fdn_bulkheads w = front ++ b :: back.
Proof.
  unfold bulkhead_registered. destruct (list_find _ _) as [[i b']|] eqn:Hf; [|done]. intros [= ->].
  apply list_find_Some in Hf as (Hi & Ha & _).
  split; [done|]. exists (take i (fdn_bulkheads w)), (drop (S i) (fdn_bulkheads w)). symmetry. by apply take_drop_middle.
Qed.
Lemma registered_of w front b back : NoDup (map bh_address (fdn_bulkheads w)) → fdn_bulkheads w = front ++ b :: back →
  bulkhead_registered (bh_address b) w = Some b.
Proof.
  intros Hn E. unfold bulkhead_registered. rewrite E in *. rewrite map_app in Hn. cbn in Hn.
  apply NoDup_app in Hn as (_ & Hd & _).
  destruct (list_find _ (front ++ b :: back)) as [[i b']|] eqn:Hf.
  - apply list_find_Some in Hf as (Hi & Ha & Hfirst). cbn. f_equal. destruct (Nat.lt_trichotomy i (length front)) as [Hlt|[->|Hgt]].
    + rewrite lookup_app_l in Hi by done. exfalso. apply (Hd (bh_address b')).
      * apply list_elem_of_fmap. exists b'. split; [done|]. by eapply list_elem_of_lookup_2.
      * rewrite Ha. by left.
    + rewrite list_lookup_middle in Hi by done. by injection Hi.
    + exfalso. apply (Hfirst (length front) b); [by apply list_lookup_middle|done|done].
  - apply list_find_None in Hf. exfalso. rewrite Forall_app, Forall_cons in Hf. destruct Hf as (_ & Hf & _). by apply Hf.
Qed.

Lemma store_split w front b b' back : NoDup (map bh_address (fdn_bulkheads w)) → fdn_bulkheads w = front ++ b :: back →
  bh_address b' = bh_address b → store b' w = front ++ b' :: back.
Proof.
  intros Hn E Ha. unfold store. rewrite E in *. rewrite map_app in Hn. cbn in Hn.
  apply NoDup_app in Hn as (_ & Hd & [Hb _]%NoDup_cons). rewrite map_app. cbn. rewrite Ha, bool_decide_true by done.
  assert (∀ l, (∀ x, x ∈ l → bh_address x ≠ bh_address b) →
    map (λ x, if bool_decide (bh_address x = bh_address b) then b' else x) l = l) as Hsame.
  { induction l as [|x l IH]; intros Hl; cbn; [done|]. rewrite bool_decide_false by (apply Hl; by left).
    f_equal. apply IH. intros y Hy. apply Hl. by right. }
  rewrite !Hsame; [done|..].
  - intros x Hx Eq. apply Hb. rewrite <- Eq. apply list_elem_of_fmap. by exists x.
  - intros x Hx Eq. apply (Hd (bh_address x)); [apply list_elem_of_fmap; by exists x|]. rewrite Eq. by left.
Qed.

(** The world after one bulkhead was changed. *)
Lemma store_registered w front b b' back waiters done_ :
  NoDup (map bh_address (fdn_bulkheads w)) → fdn_bulkheads w = front ++ b :: back → bh_address b' = bh_address b →
  let w' := mkWorld (front ++ b' :: back) (bulkhead_count w) waiters done_ in
  bulkhead_registered (bh_address b) w' = Some b' ∧
  ∀ handle, handle ≠ bh_address b → bulkhead_registered handle w' = bulkhead_registered handle w.
Proof.
  intros Hn E Ha w'. split.
  - rewrite <- Ha. eapply (registered_of w' front b' back); [|done]. cbn. rewrite E in Hn. rewrite map_app in *. cbn in *. by rewrite Ha.
  - intros handle Hh. subst w'. unfold bulkhead_registered. cbn [fdn_bulkheads]. rewrite E, !find_app, !find_cons.
    by rewrite !decide_False by congruence.
Qed.
Lemma waiting_split w front b back : fdn_bulkheads w = front ++ b :: back →
  waiting w = concat (map bh_waiters front) ++ bh_waiters b ++ concat (map bh_waiters back).
Proof. intros E. unfold waiting. by rewrite E, map_app, concat_app. Qed.

Lemma world_ok_at w front b back : world_ok w → fdn_bulkheads w = front ++ b :: back → bulkhead_ok b.
Proof. intros H E. apply wo_bulkheads in H. rewrite E, Forall_app, Forall_cons in H. tauto. Qed.
(** Changing one bulkhead keeps the world's invariant when the waiters and what is completed fit. *)
Lemma world_ok_store w front b b' back waiters done_ :
  world_ok w → fdn_bulkheads w = front ++ b :: back → bh_address b' = bh_address b → bulkhead_ok b' →
  waiters + N.of_nat (length (bh_waiters b)) = bulkhead_waiter_count w + N.of_nat (length (bh_waiters b')) →
  NoDup (map fst done_ ++ concat (map bh_waiters front) ++ bh_waiters b' ++ concat (map bh_waiters back)) →
  world_ok (mkWorld (front ++ b' :: back) (bulkhead_count w) waiters done_).
Proof.
  intros [Hn Hb Hc Hw Ho] E Ha Hb' Hcount Hnd. pose proof (waiting_split w front b back E) as Hwait. split; cbn.
  - rewrite E in Hn. rewrite map_app in *. cbn in *. by rewrite Ha.
  - rewrite E, Forall_app, Forall_cons in Hb. rewrite Forall_app, Forall_cons. tauto.
  - rewrite Hc, E, !length_app. done.
  - unfold waiting. cbn. rewrite map_app, concat_app. cbn. rewrite !length_app. rewrite Hw, Hwait, !length_app in Hcount. lia.
  - unfold seen, waiting. cbn. rewrite map_app, concat_app. exact Hnd.
Qed.

(** ** Queues *)

Lemma link_behind_last waiters tail waiter : NoDup waiters → last waiters = Some tail →
  link_behind tail waiter waiters = waiters ++ [waiter].
Proof.
  induction waiters as [|w waiters IH]; intros Hn Hl; [done|]. apply NoDup_cons in Hn as [Hw Hn]. cbn [link_behind].
  destruct waiters as [|w' waiters]; [injection Hl as ->; by rewrite bool_decide_true|].
  assert (last (w' :: waiters) = Some tail) as Hl' by done.
  rewrite bool_decide_false; [|intros ->; apply Hw; by apply last_Some_elem_of].
  cbn [app]. f_equal. by apply IH.
Qed.
Lemma unlink_spec operation waiters :
  match unlink operation waiters with
  | Some rest => ∃ before after, waiters = before ++ operation :: after ∧ rest = before ++ after
  | None => operation ∉ waiters
  end.
Proof.
  induction waiters as [|w waiters IH]; cbn [unlink]; [apply not_elem_of_nil|]. case_bool_decide as Hw.
  - subst. by exists [], waiters.
  - destruct (unlink operation waiters) as [rest|]; cbn.
    + destruct IH as (before & after & -> & ->). by exists (w :: before), after.
    + apply not_elem_of_cons. naive_solver.
Qed.
Lemma find_waiter_spec operation bulkheads :
  match find_waiter operation bulkheads with
  | Some (b, rest) => ∃ front back before after, bulkheads = front ++ b :: back ∧ bh_waiters b = before ++ operation :: after ∧ rest = before ++ after
  | None => operation ∉ concat (map bh_waiters bulkheads)
  end.
Proof.
  induction bulkheads as [|b bulkheads IH]; cbn [find_waiter]; [apply not_elem_of_nil|]. pose proof (unlink_spec operation (bh_waiters b)) as Hu.
  destruct (unlink operation (bh_waiters b)) as [rest|].
  - destruct Hu as (before & after & Hb & ->). by exists [], bulkheads, before, after.
  - destruct (find_waiter operation bulkheads) as [[b' rest]|].
    + destruct IH as (front & back & before & after & -> & Hb & ->). by exists (b :: front), back, before, after.
    + cbn. rewrite elem_of_app. tauto.
Qed.
Lemma remove_first_split front b back : bh_address b ∉ map bh_address front →
  remove_first (bh_address b) (front ++ b :: back) = Some (front ++ back).
Proof.
  induction front as [|x front IH]; intros Hn; cbn; [by rewrite bool_decide_true|].
  apply not_elem_of_cons in Hn as [Hx Hn]. rewrite bool_decide_false by done. by rewrite IH.
Qed.

(** ** The calls on one bulkhead *)

(** [w'] differs from [w] in one bulkhead, which has these waiters and permits, and in what was completed. *)
Definition changed (w : World) (handle : N) (b : bulkhead) (done_ : list (N * Z)) (waiters : list N) (running : N) (w' : World) : Prop :=
  completed w' = completed w ++ done_ ∧
  (∃ b', bulkhead_registered handle w' = Some b' ∧ bh_waiters b' = waiters ∧ bh_running b' = running ∧
     bh_max_concurrent b' = bh_max_concurrent b ∧ bh_max_queue b' = bh_max_queue b ∧ bh_references b' = bh_references b) ∧
  ∀ handle', handle' ≠ handle → bulkhead_registered handle' w' = bulkhead_registered handle' w.

(** One bulkhead is replaced by one that is well formed, with what it completes. *)
Lemma replace_runs w handle b b' count done_ :
  world_ok w → bulkhead_registered handle w = Some b → bh_address b' = bh_address b → bulkhead_ok b' →
  bh_max_concurrent b' = bh_max_concurrent b → bh_max_queue b' = bh_max_queue b →
  count + N.of_nat (length (bh_waiters b)) = bulkhead_waiter_count w + N.of_nat (length (bh_waiters b')) →
  (∀ front back, map fst (completed w) ++ front ++ bh_waiters b ++ back ≡ₚ seen w →
     NoDup (map fst (completed w ++ done_) ++ front ++ bh_waiters b' ++ back)) →
  let w' := mkWorld (store b' w) (bulkhead_count w) count (completed w ++ done_) in
  world_ok w' ∧ (bh_references b' = bh_references b → changed w handle b done_ (bh_waiters b') (bh_running b') w').
Proof.
  intros Hok Hreg Ha Hb' Hc Hq Hcount Hnd w'. destruct (registered_split _ _ _ Hreg) as (<- & front & back & E).
  assert (store b' w = front ++ b' :: back) as Es by (apply (store_split w front b b' back); [apply (wo_addresses w Hok)|done..]).
  unfold w'. rewrite Es. split.
  - apply (world_ok_store w front b b' back); try done. apply Hnd. unfold seen. by rewrite (waiting_split w front b back E).
  - intros Hr. split; [done|]. destruct (store_registered w front b b' back count (completed w ++ done_) (wo_addresses w Hok) E Ha) as [H1 H2].
    split; [|exact H2]. exists b'. by split_and!.
Qed.

Section calls.
Context (w : World) (handle : N) (b : bulkhead) (Hok : world_ok w) (Hreg : bulkhead_registered handle w = Some b).

Lemma registered_ok : bulkhead_ok b.
Proof. destruct (registered_split _ _ _ Hreg) as (_ & front & back & E). by apply (world_ok_at w front b back). Qed.
Lemma registered_waiters : NoDup (bh_waiters b) ∧ N.of_nat (length (bh_waiters b)) <= bulkhead_waiter_count w.
Proof.
  destruct (registered_split _ _ _ Hreg) as (_ & front & back & E). pose proof (waiting_split w front b back E) as Hw.
  split.
  - pose proof (wo_once w Hok) as Hn. unfold seen in Hn. rewrite Hw in Hn.
    apply NoDup_app in Hn as (_ & _ & (_ & _ & [Hn _]%NoDup_app)%NoDup_app). done.
  - rewrite (wo_waiters w Hok), Hw, !length_app. lia.
Qed.
(** With other operations at the end of what is completed and of the queue. *)
Lemma seen_moved done_ waiters : bh_waiters b ≡ₚ map fst done_ ++ waiters →
  ∀ front back, map fst (completed w) ++ front ++ bh_waiters b ++ back ≡ₚ seen w →
    NoDup (map fst (completed w ++ done_) ++ front ++ waiters ++ back).
Proof.
  intros Hp front back Hs. pose proof (wo_once w Hok) as Hn. rewrite <- Hs, Hp in Hn. rewrite map_app.
  eapply NoDup_Permutation_proper; [|exact Hn]. solve_Permutation.
Qed.
Lemma seen_added operation done_ waiters : operation ∉ seen w → operation :: bh_waiters b ≡ₚ map fst done_ ++ waiters →
  ∀ front back, map fst (completed w) ++ front ++ bh_waiters b ++ back ≡ₚ seen w →
    NoDup (map fst (completed w ++ done_) ++ front ++ waiters ++ back).
Proof.
  intros Ho Hp front back Hs. assert (NoDup (operation :: seen w)) as Hn by (constructor; [done|apply (wo_once w Hok)]).
  rewrite <- Hs in Hn. rewrite map_app. eapply NoDup_Permutation_proper; [|exact Hn].
  transitivity ((map fst done_ ++ waiters) ++ map fst (completed w) ++ front ++ back); [solve_Permutation|].
  rewrite <- Hp. solve_Permutation.
Qed.

Lemma acquire_runs operation : operation ∉ seen w →
  bulkhead_waiter_count w <> UINT64_MAX ∨ (∃ w', bulkhead_acquire handle operation w = Returns w') →
  ∃ w', bulkhead_acquire handle operation w = Returns w' ∧ world_ok w' ∧
    if bh_running b <? bh_max_concurrent b then changed w handle b [(operation, 0%Z)] (bh_waiters b) (bh_running b + 1) w'
    else if N.of_nat (length (bh_waiters b)) <? bh_max_queue b then changed w handle b [] (bh_waiters b ++ [operation]) (bh_running b) w'
    else changed w handle b [(operation, 1%Z)] (bh_waiters b) (bh_running b) w'.
Proof.
  intros Ho Hmax. pose proof registered_ok as [Hr Hrun Hq Hbound Htail Hbusy]. destruct registered_waiters as [Hnd Hle].
  unfold bulkhead_acquire in *. rewrite Hreg in *. destruct (N.ltb_spec (bh_running b) (bh_max_concurrent b)) as [Hlt|Hge].
  - eexists. split; [reflexivity|].
    destruct (replace_runs w handle b (with_running (bh_running b + 1) b) (bulkhead_waiter_count w) [(operation, 0%Z)]) as [H1 H2]; try done.
    + split; cbn; try done; [lia|]. intros H. specialize (Hbusy H). lia.
    + apply (seen_added operation); [done|]. cbn. done.
    + split; [exact H1|exact (H2 eq_refl)].
  - rewrite <- Hq, (N.leb_antisym (bh_queued b)) in *. destruct (N.ltb_spec (bh_queued b) (bh_max_queue b)); cbn [negb] in *.
    + destruct (N.eqb_spec (bulkhead_waiter_count w) UINT64_MAX); [by destruct Hmax as [?|[? ?]]|]. eexists. split; [reflexivity|].
      set (waiters := match bh_tail b with Some _ => _ | None => _ end).
      assert (waiters = bh_waiters b ++ [operation]) as ->.
      { subst waiters. rewrite Htail. destruct (last (bh_waiters b)) eqn:El; [by apply link_behind_last|].
        apply last_None in El. by rewrite El. }
      destruct (replace_runs w handle b (with_queue (bh_waiters b ++ [operation]) (Some operation) (bh_queued b + 1) b)
        (bulkhead_waiter_count w + 1) []) as [H1 H2]; try done.
      * split; cbn; try done; [rewrite length_app; cbn; lia|lia|by rewrite last_snoc|]. intros _. lia.
      * cbn. rewrite length_app. cbn. lia.
      * apply (seen_added operation); [done|]. cbn. solve_Permutation.
      * unfold set_waiter_count, set_bulkheads. cbn. rewrite app_nil_r in *. split; [exact H1|exact (H2 eq_refl)].
    + eexists. split; [reflexivity|].
      destruct (replace_runs w handle b b (bulkhead_waiter_count w) [(operation, 1%Z)]) as [H1 H2]; try done.
      * by apply (seen_added operation).
      * assert (store b w = fdn_bulkheads w) as Es.
        { destruct (registered_split _ _ _ Hreg) as (_ & front & back & E). rewrite E. apply (store_split w front b b back); [apply (wo_addresses w Hok)|done..]. }
        rewrite Es in *. split; [exact H1|exact (H2 eq_refl)].
Qed.

Lemma permit_runs : 0 < bh_running b →
  ∃ w', bulkhead_permit_release handle w = Returns w' ∧ world_ok w' ∧
    match bh_waiters b with
    | [] => changed w handle b [] [] (bh_running b - 1) w'
    | operation :: waiters => changed w handle b [(operation, 0%Z)] waiters (bh_running b) w'
    end.
Proof.
  intros Hpos. pose proof (registered_ok) as [Hr Hrun Hq Hbound Htail Hbusy]. destruct (registered_waiters) as [Hnd Hle].
  unfold bulkhead_permit_release. rewrite Hreg. destruct (N.eqb_spec (bh_running b) 0); [lia|].
  destruct (bh_waiters b) as [|operation waiters] eqn:Ew.
  - eexists. split; [reflexivity|].
    destruct (replace_runs w handle b (with_running (bh_running b - 1) b) (bulkhead_waiter_count w) []) as [H1 H2]; try done.
    + split; cbn; rewrite ?Ew; try done; lia.
    + apply seen_moved. cbn. by rewrite Ew.
    + cbn in H1, H2. unfold set_bulkheads. rewrite app_nil_r, ?Ew in *. split; [exact H1|exact (H2 eq_refl)].
  - cbn [length] in *. destruct (N.eqb_spec (bh_queued b) 0), (N.eqb_spec (bulkhead_waiter_count w) 0); try lia. cbn [orb].
    eexists. split; [reflexivity|]. set (tail := if bool_decide _ then _ else _).
    assert (tail = last waiters) as ->.
    { subst tail. rewrite Htail. case_bool_decide as H; [by rewrite H|]. by destruct waiters. }
    destruct (replace_runs w handle b (with_queue waiters (last waiters) (bh_queued b - 1) b) (bulkhead_waiter_count w - 1)
      [(operation, 0%Z)]) as [H1 H2]; try done.
    + split; cbn; try done; [lia|lia|]. intros _. by apply Hbusy.
    + cbn. rewrite Ew. cbn. lia.
    + apply seen_moved. cbn. by rewrite Ew.
    + split; [exact H1|exact (H2 eq_refl)].
Qed.

Lemma cancel_runs operation : operation ∈ bh_waiters b →
  ∃ w' before after, bulkhead_cancel operation w = Returns w' ∧ world_ok w' ∧ bh_waiters b = before ++ operation :: after ∧
    changed w handle b [(operation, 2%Z)] (before ++ after) (bh_running b) w'.
Proof.
  intros Hin. pose proof (registered_ok) as [Hr Hrun Hq Hbound Htail Hbusy]. destruct (registered_waiters) as [Hnd Hle].
  destruct (registered_split _ _ _ Hreg) as (<- & front & back & E). unfold bulkhead_cancel.
  assert (find_waiter operation (fdn_bulkheads w) = (λ rest, (b, rest)) <$> unlink operation (bh_waiters b)) as ->.
  { pose proof (wo_once w Hok) as Hn. unfold seen in Hn. rewrite (waiting_split w front b back E) in Hn.
    apply NoDup_app in Hn as (_ & _ & (_ & Hfront & _)%NoDup_app). rewrite E. clear E.
    induction front as [|x front IH]; cbn.
    - pose proof (unlink_spec operation (bh_waiters b)) as Hu. by destruct (unlink operation (bh_waiters b)).
    - pose proof (unlink_spec operation (bh_waiters x)) as Hu. cbn in Hfront. destruct (unlink operation (bh_waiters x)).
      + destruct Hu as (before & after & Hx & _). exfalso. apply (Hfront operation).
        * rewrite Hx. rewrite !elem_of_app. left. right. by left.
        * apply elem_of_app. by left.
      + apply IH. intros y Hy. apply Hfront. apply elem_of_app. by right. }
  pose proof (unlink_spec operation (bh_waiters b)) as Hu. destruct (unlink operation (bh_waiters b)) as [rest|]; [|done]. cbn.
  destruct Hu as (before & after & Ew & ->). rewrite Ew in *. rewrite length_app in *. cbn [length] in *.
  destruct (N.eqb_spec (bh_queued b) 0), (N.eqb_spec (bulkhead_waiter_count w) 0); try lia. cbn [orb].
  eexists _, before, after. split; [reflexivity|]. set (tail := if bool_decide _ then _ else _).
  assert (tail = last (before ++ after)) as ->.
  { subst tail. rewrite Htail. case_bool_decide as H; [done|]. destruct after as [|x after]; [by rewrite last_snoc in H|].
    by rewrite !last_app. }
  destruct (replace_runs w (bh_address b) b (with_queue (before ++ after) (last (before ++ after)) (bh_queued b - 1) b) (bulkhead_waiter_count w - 1)
    [(operation, 2%Z)]) as [H1 H2]; try done.
  - split; cbn; try done; [rewrite length_app; lia|lia|]. intros _. apply Hbusy. by destruct before.
  - cbn. rewrite Ew, !length_app. cbn. lia.
  - apply seen_moved. cbn. rewrite Ew. solve_Permutation.
  - split; [exact H1|]. split; [done|]. exact (H2 eq_refl).
Qed.
End calls.

(** ** Every world the calls reach *)

Lemma open_ok address max_concurrent max_queue w handle w' : world_ok w → address ∉ map bh_address (fdn_bulkheads w) →
  bulkhead_open address max_concurrent max_queue w = Returns (handle, w') → world_ok w'.
Proof.
  intros [Hn Hb Hc Hw Ho] Ha. unfold bulkhead_open. destruct (N.eqb_spec max_concurrent 0); [by intros [= _ <-]|].
  destruct (_ =? _); [done|]. intros [= _ <-]. split; cbn.
  - by constructor.
  - constructor; [|done]. split; cbn; try done; lia.
  - lia.
  - exact Hw.
  - exact Ho.
Qed.
Lemma release_ok handle w w' : world_ok w → bulkhead_release handle w = Returns w' → world_ok w'.
Proof.
  intros Hok. unfold bulkhead_release. destruct (N.eqb_spec handle 0); [by intros [= <-]|].
  destruct (bulkhead_registered handle w) as [b|] eqn:Hreg; [|done]. pose proof (registered_ok w handle b Hok Hreg) as Hb.
  destruct (N.eqb_spec (bh_references b) 0); [done|]. cbn [with_references bh_references bh_running bh_queued bh_waiters bh_tail].
  destruct (N.eqb_spec (bh_references b - 1) 0) as [Hlast|Hmore].
  - destruct (negb (bh_running b =? 0) || _ || _ || _) eqn:He; [done|].
    rewrite !orb_false_iff, !negb_false_iff in He. destruct He as [[_ Hw%bool_decide_eq_true] _].
    destruct (registered_split _ _ _ Hreg) as (<- & front & back & E). unfold bulkhead_remove, set_bulkheads. cbn [fdn_bulkheads bulkhead_count].
    rewrite (store_split w front b _ back (wo_addresses w Hok) E) by done.
    destruct Hok as [Hn Hbs Hc Hwc Ho]. pose proof (waiting_split w front b back E) as Hwait. rewrite Hw in Hwait. cbn in Hwait.
    rewrite E in Hn, Hbs, Hc. rewrite map_app in Hn. cbn in Hn. apply NoDup_app in Hn as (Hn1 & Hd & [Hn2 Hn3]%NoDup_cons).
    change (bh_address b) with (bh_address (with_references (bh_references b - 1) b)) at 1.
    rewrite remove_first_split by (intros Hin; apply (Hd _ Hin); by left).
    destruct (_ =? 0); [done|]. intros [= <-]. rewrite Forall_app, Forall_cons in Hbs. split; cbn.
    + rewrite map_app. apply NoDup_app. split_and!; [done| |done]. intros x Hx Hx'. apply (Hd x Hx). by right.
    + rewrite Forall_app. tauto.
    + rewrite Hc, !length_app. cbn. lia.
    + unfold waiting. cbn. by rewrite Hwc, Hwait, map_app, concat_app.
    + unfold seen, waiting in *. cbn. rewrite Hwait in Ho. by rewrite map_app, concat_app.
  - intros [= <-]. destruct (replace_runs w handle b (with_references (bh_references b - 1) b) (bulkhead_waiter_count w) []) as [H1 _]; try done.
    + destruct Hb. split; cbn; try done. lia.
    + by apply seen_moved.
    + rewrite app_nil_r in H1. exact H1.
Qed.
Lemma retain_ok handle w w' : world_ok w → bulkhead_retain handle w = Returns w' → world_ok w'.
Proof.
  intros Hok. unfold bulkhead_retain. destruct (bulkhead_registered handle w) as [b|] eqn:Hreg; [|done]. destruct (_ =? _); [done|].
  intros [= <-]. destruct (replace_runs w handle b (with_references (bh_references b + 1) b) (bulkhead_waiter_count w) []) as [H1 _]; try done.
  - destruct (registered_ok w handle b Hok Hreg). split; cbn; try done. lia.
  - by apply seen_moved.
  - rewrite app_nil_r in H1. exact H1.
Qed.
Lemma perform_ok call w w' : world_ok w → permitted call w → perform call w = Returns w' → world_ok w'.
Proof.
  intros Hok Hp. destruct call as [address c q|handle|handle|handle operation|operation|handle]; cbn in *.
  - destruct (bulkhead_open address c q w) as [[h w1]| |] eqn:E; [|done..]. intros [= <-]. by eapply open_ok; [done|apply Hp|exact E].
  - by apply retain_ok.
  - by apply release_ok.
  - destruct (bulkhead_registered handle w) as [b|] eqn:Hreg.
    + intros E. destruct (acquire_runs w handle b Hok Hreg operation Hp) as (w2 & E2 & H2 & _); [right; by exists w'|].
      rewrite E in E2. by injection E2 as ->.
    + unfold bulkhead_acquire. rewrite Hreg. intros [= <-]. destruct Hok as [Hn Hb Hc Hw Ho]. split; cbn; try done.
      unfold seen in *. cbn. rewrite map_app. cbn. rewrite <- app_assoc. cbn.
      eapply NoDup_Permutation_proper; [symmetry; apply Permutation_middle|]. by constructor.
  - intros E. destruct (find_waiter operation (fdn_bulkheads w)) as [[b rest]|] eqn:Ef; [|by unfold bulkhead_cancel in E; rewrite Ef in E].
    pose proof (find_waiter_spec operation (fdn_bulkheads w)) as Hf. rewrite Ef in Hf. destruct Hf as (front & back & before & after & Eb & Ew & _).
    assert (operation ∈ bh_waiters b) as Hin by (rewrite Ew; apply elem_of_app; right; by left).
    assert (bulkhead_registered (bh_address b) w = Some b) as Hreg by (apply (registered_of w front b back); [apply (wo_addresses w Hok)|done]).
    destruct (cancel_runs w _ b Hok Hreg operation Hin) as (w2 & ? & ? & E2 & H2 & _). rewrite E in E2. by injection E2 as ->.
  - intros E. destruct (bulkhead_registered handle w) as [b|] eqn:Hreg; [|by unfold bulkhead_permit_release in E; rewrite Hreg in E].
    assert (0 < bh_running b) as Hpos.
    { unfold bulkhead_permit_release in E. rewrite Hreg in E. destruct (N.eqb_spec (bh_running b) 0); [done|lia]. }
    destruct (permit_runs w handle b Hok Hreg Hpos) as (w2 & E2 & H2 & _). rewrite E in E2. by injection E2 as ->.
Qed.
Lemma reachable_ok w : reachable w → world_ok w.
Proof.
  induction 1 as [|call w w' _ IH Hp E]; [split; cbn; try done; constructor|]. by eapply perform_ok.
Qed.

(** C11: In every world that calls on bulkheads reach, in any order and also after calls that
    are refused, no more operations run than a bulkhead allows and no more wait than its
    queue holds, nobody waits while a permit is free, and no operation is completed twice or
    while it waits.  A call does exactly what a queue does: an acquisition runs at once, waits
    behind the others or is refused; a permit that is given back goes to the operation that
    waits longest; a cancellation takes its operation out; other bulkheads stay as they are. *)
Theorem bulkhead_exact (w : World) (handle : N) (b : bulkhead) :
  reachable w → bulkhead_registered handle w = Some b →
  (bh_running b <= bh_max_concurrent b ∧ N.of_nat (length (bh_waiters b)) <= bh_max_queue b ∧
   (bh_waiters b ≠ [] → bh_running b = bh_max_concurrent b) ∧ NoDup (map fst (completed w) ++ waiting w)) ∧
  (∀ operation, operation ∉ seen w → bulkhead_waiter_count w < UINT64_MAX →
     ∃ w', bulkhead_acquire handle operation w = Returns w' ∧
       if bh_running b <? bh_max_concurrent b then changed w handle b [(operation, 0%Z)] (bh_waiters b) (bh_running b + 1) w'
       else if N.of_nat (length (bh_waiters b)) <? bh_max_queue b then changed w handle b [] (bh_waiters b ++ [operation]) (bh_running b) w'
       else changed w handle b [(operation, 1%Z)] (bh_waiters b) (bh_running b) w') ∧
  (0 < bh_running b →
     ∃ w', bulkhead_permit_release handle w = Returns w' ∧
       match bh_waiters b with
       | [] => changed w handle b [] [] (bh_running b - 1) w'
       | operation :: waiters => changed w handle b [(operation, 0%Z)] waiters (bh_running b) w'
       end) ∧
  (∀ operation, operation ∈ bh_waiters b →
     ∃ w' before after, bulkhead_cancel operation w = Returns w' ∧ bh_waiters b = before ++ operation :: after ∧
       changed w handle b [(operation, 2%Z)] (before ++ after) (bh_running b) w').
Proof.
  intros Hr Hreg. pose proof (reachable_ok w Hr) as Hok. destruct (registered_ok w handle b Hok Hreg) as [_ Hrun Hq Hbound _ Hbusy].
  split_and!; [done|lia|done|apply (wo_once w Hok)| | |].
  - intros operation Ho Hmax. destruct (acquire_runs w handle b Hok Hreg operation Ho) as (w' & E & _ & H); [left; lia|by exists w'].
  - intros Hpos. destruct (permit_runs w handle b Hok Hreg Hpos) as (w' & E & _ & H). by exists w'.
  - intros operation Hin. destruct (cancel_runs w handle b Hok Hreg operation Hin) as (w' & before & after & E & _ & Ew & H).
    by exists w', before, after.
Qed.

(** One operation runs and one waits: the permit goes to the one that waits. *)
Definition busy_world : World := mkWorld [mkBulkhead 16 [2] (Some 2) 1 1 1 1 1] 1 1 [(1, 0%Z)].
Lemma bulkhead_exact_witness :
  let b := mkBulkhead 16 [2] (Some 2) 1 1 1 1 1 in
  (∃ w', bulkhead_permit_release 16 busy_world = Returns w' ∧ changed busy_world 16 b [(2, 0%Z)] [] 1 w') ∧
  (∃ w', bulkhead_acquire 16 3 busy_world = Returns w' ∧ changed busy_world 16 b [(3, 1%Z)] [2] 1 w').
Proof.
  intros b. assert (reachable busy_world) as Hr.
  { apply (reach_call (Acquire 16 2) (mkWorld [mkBulkhead 16 [] None 1 1 0 1 1] 1 0 [(1, 0%Z)])); [|cbn; set_solver|reflexivity].
    apply (reach_call (Acquire 16 1) (mkWorld [mkBulkhead 16 [] None 1 0 0 1 1] 1 0 [])); [|cbn; set_solver|reflexivity].
    apply (reach_call (OpenBulkhead 16 1 1) world0); [constructor|split; [done|set_solver]|reflexivity]. }
  destruct (bulkhead_exact busy_world 16 b Hr eq_refl) as (_ & Hacquire & Hpermit & _). split.
  - apply Hpermit. done.
  - apply (Hacquire 3); [cbn; set_solver|done].
Defined.
